(* ===== verification/_CoqProject ===== *)
-Q . S2P
Prelude.v
GoStrings.v
Crc32.v
Yenc.v
YencInPlace.v
YencRoundtrip.v
YencSound.v
Nzb.v
NntpWire.v
NntpPool.v
OffsetIndex.v
RarParse.v
Rar5Roundtrip.v
RarStore.v
Budget.v
BufPool.v
ArticleCache.v
CacheClients.v
Fetch.v
Arrival.v
Reader.v
Readahead.v
Plan.v
Progress.v
Downloader.v
DownloadFile.v
DownloadNzb.v
SafePath.v
PathLock.v
Archives.v
PostProcess.v
NzbPick.v
UsenetJob.v
Task.v
ProcessTask.v
Debrid.v
Naming.v
Organize.v
Reconcile.v
LibraryDelete.v
SeekIndex.v
CopyVod.v
StreamToken.v
Iptv.v
ActiveTasks.v
TaskControl.v
SyncClient.v
HlsSession.v
HlsCache.v
Upgrade.v
Torrent.v
Mirrors.v
DebridStream.v
ConfigMerge.v
StreamSlot.v
StreamSessions.v
SlotQueue.v
