(* ===== verification/Prelude.v ===== *)
(** * unarr: a verification of the usenet core, the download engine and the library

    unarr is an agent that fetches media from usenet, torrents, debrid services
    and IPTV, and plays usenet releases while they download.  This library
    models the parts that decide whether the right bytes reach the player and the
    library, whether the agent keeps its promises under concurrency, and which files
    it deletes, and proves them against the Go sources under src/internal.

    ** How the parts interact

    An NZB index names the articles of a release (Nzb).  Articles are asked for
    over a shared pool of NNTP connections (NntpWire, NntpPool); every article is
    a yEnc message that is decoded and checked (Yenc, YencInPlace).

    Streaming: articles have encoded sizes only, so the position of a byte is
    worked out from the articles seen so far (OffsetIndex).  Fetches retry, race a
    hedge and judge what they got (Fetch); decoded articles are shared through a
    cache whose buffers are recycled by reference count (ArticleCache, CacheClients,
    BufPool),
    and speculative fetching is held to a byte budget (Budget).  The reader finds
    the article that holds a position and copies from it (Reader), or serves its
    front while it still downloads (Arrival); what comes next is fetched ahead
    (Readahead).  Most releases are stored RAR volumes: their headers are parsed
    (RarParse), the video is chosen and its extents laid out over the volumes
    (RarStore).  Plan decides between the two.

    Downloading: the engine gives every task a status and a download method
    (Task), a slot (SlotQueue) and a run with retries, fallbacks, verification
    and a final report (ProcessTask).  A usenet task searches an NZB and keeps it
    (NzbPick), fetches every segment into place with its progress on disk
    (Downloader, DownloadFile, DownloadNzb, Progress), repairs and unpacks the
    result (PostProcess, Archives, SafePath) under a lock per directory
    (PathLock); UsenetJob is the whole of it.  A debrid task fetches one file over
    HTTP into a partial with a record of where its bytes came from (Debrid); an IPTV
    task does the same in turns, and lets go of the account's one connection while
    something plays (Iptv).  A torrent task chooses the files it needs, watches the
    BitTorrent client fetch and hash their pieces, looks once more at what is on disk
    and seeds (Torrent).

    Control: the agent syncs with the server, which sends tasks, controls, deletions
    and settings (SyncClient), over whichever mirror of it answers (Mirrors).  Every real download is kept in a store on disk
    (ActiveTasks), so that a restart resumes it; pausing, resuming, cancelling and
    retrying, from the web, this machine or the progress reporter, meet the store and
    the running download in TaskControl.

    Playback: the addresses a player gets carry a signed token (StreamToken).  The
    key frames of a film are read from its container's own seek table, local or over
    HTTP ranges (SeekIndex), and become the segment table of the stream that is copied
    without encoding (CopyVod).  What cannot be copied is transcoded by ffmpeg into a
    directory of segments that are served as they appear (HlsSession); finished films
    stay in a cache of such directories, which is swept by size, and a table holds the
    sessions that are open (HlsCache).  A debrid link is played without a file, range by
    range, and renewed when it expires (DebridStream).  One file at a time, or a remux that
    still grows, is served on the /stream address, and is taken down with its session
    (StreamSlot).  The web may close a session while it starts,
    and streams of one IPTV account take turns, the newest first (StreamSessions).

    The agent also replaces its own binary by a signed release (Upgrade), and saves its
    settings into the file the user edits (ConfigMerge).

    Library: a finished download is filed under the name a template gives it (Naming,
    Organize).  After every scan a sweep removes stubs, orphans, duplicates and empty
    folders (Reconcile); the server may ask for single files to be deleted
    (LibraryDelete).

    ** Files

    - Prelude: machine integers as [Z] with the wrap written out, Go's (value,
      error) results, sort.Search and sorting, tactics, generic lemmas.
    - GoStrings: strings and byte slices as [list Z] with the functions of the
      Go standard library the code calls.
    - Crc32: the IEEE checksum.
    - Yenc (yenc/decode.go, integrity.go, encode.go), YencInPlace
      (decode_inplace.go): decoder, envelope validation, encoder, and the
      decoder that works in the article's own buffer as it arrives.
      YencRoundtrip and YencSound hold the theorems that need longer lemmas.
    - Nzb (nzb/parser.go, nzb/segments.go, nntp/arguments.go).
    - NntpWire (nntp/body.go, reply.go, missing.go, and the exchanges of
      client.go), NntpPool (nntp/pool.go, client.go).
    - OffsetIndex (stream/index.go).
    - RarParse (stream/rarparse.go, rar4.go, rar5.go, rarvolume.go) with the
      RAR4 theorems; Rar5Roundtrip holds a RAR5 writer and the theorems on the
      RAR5 parser.
    - RarStore (stream/rarstore.go, rarvideo.go, rarvolume.go): volume order,
      probing, choice of the video, extents, the reader over them.
    - Budget (stream/budget.go, cachesize.go), BufPool (stream/bufpool.go,
      bufalloc_unix.go).
    - ArticleCache (stream/articlecache.go, deadmemo.go, bufpool.go); CacheClients puts
      the goroutines that use it on top, each with the references it holds.
    - Fetch (stream/fetch.go, hedge.go), Arrival (stream/arriving.go): the
      published front of a downloading article.
    - Reader (stream/reader.go): the reader over the index, with the article
      cache behind the [ArticleSource] interface.
    - Readahead (stream/readahead.go), Plan (stream/plan.go).
    - Progress (download/progress.go).
    - Downloader (download/downloader.go) with the steps of a file's workers;
      DownloadFile and DownloadNzb hold the theorems on one file and on a release.
    - SafePath (postprocess/safewrite.go, extract_native.go, engine/safepath.go)
      over a file system with symbolic links; PathLock (engine/pathlock.go).
    - Archives (postprocess/extract_dir.go, rollover.go, names of extract.go),
      PostProcess (postprocess/pipeline.go, par2.go).
    - NzbPick (engine/usenet_nzb_pick.go, usenet_nzb_cache.go,
      usenet_taskdir.go, diskspace.go), UsenetJob (engine/usenet.go,
      usenet_stream.go).
    - Task (engine/task.go, resolve.go, method.go).
    - ProcessTask (engine/manager.go from processTask on, verify.go,
      integrity.go, storage_error.go, source_failover.go).
    - SlotQueue (engine/manager_queue.go and the admission in manager.go).
    - Debrid (engine/debrid.go, debrid_transfer.go, debrid_write.go): a transfer as
      a list of file operations, of which a crash leaves a prefix.
    - Naming (naming/naming.go, presets.go): templates, from their text to the names
      they render.
    - Organize (engine/organize.go, organize_naming.go, movefile.go): moving into the
      library, with versions, subtitles and clean-ups.
    - Reconcile (library/reconcile.go, reconcile_scan.go, reconcile_dedup.go,
      reconcile_errors.go, fingerprint.go; runPostScanCleanup of cmd/daemon.go), over
      the file system with links of SafePath; LibraryDelete (library/delete.go,
      paths.go).
    - SeekIndex (library/mediainfo/seekindex.go, seekindex_matroska.go,
      seekindex_mp4.go) with float64 as the standard library's binary64; CopyVod
      (engine/hls_copy_vod.go, hls_copy_vod_fastindex.go).
    - StreamToken (engine/stream_token.go), Iptv (engine/playback_hold.go, iptv.go).
    - HlsSession (engine/hls.go from the segment grid to Close, hls_partial_reuse.go,
      hls_hwfallback.go): a session's goroutines, the poller and its ffmpeg processes
      as one machine; HlsCache (hls_cache.go, hls_cache_config.go, the cache placement
      of StartHLSSession and the registry of hls.go).
    - ActiveTasks (agent/source_set.go, active_tasks.go), TaskControl
      (cmd/daemon_task_control.go, daemon_resume.go, the store in engine/manager.go and
      the answers in engine/progress.go): the calls on one task as instruction lists
      that interleave; SyncClient (agent/sync.go, and Classify of blocked.go).
    - Torrent (engine/torrent.go, torrent_selection.go, torrent_poll.go,
      torrent_metadata.go, the selection of season_pack.go): the client's pieces,
      counters and tunnel are an environment the poll loop samples.
    - Upgrade (internal/upgrade, cmd/self_update.go): the download, its checks and the
      swap of the binary as file operations, of which one may fail or a crash leave a
      prefix.
    - Mirrors (agent/mirror_pool.go, mirror_transport.go, mirror_client.go, the failover
      and the responses of client.go): a call as steps on the shared pool.
    - DebridStream (engine/stream_source_debrid.go): the reader over a world that says
      what the network does in each read, and the shared refresh as a machine.
    - ConfigMerge (config/config_merge.go, toml_scan.go, Save of config.go): the scanner
      of lines, the patch and the check before a save.
    - StreamSlot (the /stream slot and serveGrowing of engine/stream_server.go,
      stream_server_slot.go, the growing source of stream_source.go, slotSessionCancel).
    - StreamSessions (cmd/closed_stream_sessions.go, player_session_registry.go, the
      starts of daemon.go and daemon_usenet_stream.go, iptv_stream_hold.go).

    Definitions keep the Go names.  A Go struct is a [Record], a method a
    function on it, a mutex-protected method one atomic step; code that
    interleaves (cache, budget, progress flushes, slots) is a machine whose
    events are the critical sections and atomic operations, and its theorems
    hold for every sequence of events.

    ** What the theorems show

    - yEnc: the in-place decoder returns what the reference decoder returns,
      fed whole or in pieces, and what it reports as final stays final; encoding
      then decoding gives the data and the part back, single and multipart;
      an accepted article satisfies its checksum and its declared bounds.
    - NZB: only well-formed message IDs get through; the RAR set and the PAR2
      index file are exactly those described.
    - Offset index: a position declared exact is the true one whenever the
      observed parts are those of the file; locating a byte gives an article
      that covers it; one observed article pins a uniform file.
    - RAR: what a writer lays out is parsed back, for both formats (for RAR5 with padded
      numbers, split files and service blocks); the RAR4
      parser is total; the video chosen is stored, unencrypted and whole; its
      extents tile it; volumes sort in release order; reading returns the
      video's bytes and reading on delivers all of it.
    - Cache: a buffer is recycled only when no goroutine that uses the cache refers to
      it; an article is fetched by one flight at a time; the cache stays within its
      bounds.
    - Budget: with articles no larger than their estimates, the bytes spent and
      reserved never exceed the ceiling, however fetches interleave.
    - Reader and early serving: through any reads, seeks and closes a read returns the
      file's own bytes whatever is still an estimate, or bytes that were served early; a seek into a uniform posting costs two articles; bytes
      served early come from one fetch and are the verified part's bytes, and a
      front that failed fails the read.
    - NNTP: an article sent by a server is received and decoded as it was posted;
      a connection that is kept is in step with the server; the pool opens no more
      connections than allowed and strands no waiter.
    - Fetching: the verdict of a fetch is that of its last attempt, within the
      attempts and the budget it has; buffers of the pool keep their size classes.
    - Progress: a clean tracker is the one on disk, the file round-trips, a file
      is done when every segment is.
    - Segment downloads: on articles that decode to what was posted, and on what earlier
      runs left, whatever the order of the workers, a file has exactly the bytes of the
      articles it got at their offsets and the rest is reported missing; a run always ends; a stopped run resumes with what is missing; an
      article cannot make the file larger than its bound.
    - Post-processing: the par2 step ships damage only as damage; members of an
      archive are written below the destination; a cleanup removes the set that was
      unpacked and nothing else; one holder per directory lock.
    - Usenet jobs: a success is a whole or verified release, or one whose damage could not
      be repaired for want of par2; after a corrupt result
      the retry fetches again; the shared connection pool is kept while used; the
      cached NZB is the one asked for; the task folder is below the output folder.
    - Engine: a task completes only through verification and organizing, and a run
      always ends in a terminal status, which is the last one reported (a cancelled task
      reports an empty one), or interrupted, however cancels, pauses and a shutdown
      interleave; terminal states are final; the
      method chosen is the first eligible one; slots are counted exactly, no task
      is run twice at once, the line is first come first served and does not stall.
    - Debrid: whatever attempts, crashes, cancels and other tasks came before, a
      finished file is the bytes of one source and has the size that was announced.
    - Naming and filing: rendered names are safe on every file system the code names
      and different episodes get different ones; filing leaves every other file of
      the library as it was and stays in the configured folder.
    - Upkeep: the automatic sweep leaves a copy of every real video in its folder,
      spares partial downloads and stays in the configured folders; a deletion takes
      the requested file and its companions by name and extension, and every request
      gets one answer.
    - Playback: a seek table of any file or server is read within a bound on the bytes that
      are fetched and gives
      increasing times or an error; the times of an MP4 track are those its tables
      define sample by sample; a published segment table covers the film and cuts at
      key frames; a token opens its scope until it expires, and its digest serves
      nothing else unless HMAC collides.
    - Transcoding: while the first ffmpeg of a session has not failed, what is shown as
      ready and sent to a viewer who waited is whole; what is sealed in the cache is whole
      but for the last segment of an encoder that was stopped; a film encoded to its end is
      sealed; after a close no ffmpeg is started.  One session holds the writer of a cache
      entry at a time, what else may change the entry is listed, and no pin or writer leaks; the sweep evicts the least
      recently used entries and no more than it must; the session table evicts by
      priority; changed settings clear the cache even after an error.
    - IPTV: one transfer at a time and none while a stream that waited reads; parked
      downloads resume when the lease lapses and streams are let through.
    - Torrents: a success has every byte of the chosen files in pieces that read as complete
      after the wait for pieces that are being marked, and the count of missing bytes is
      exactly the bytes of unverified pieces; with a stall timeout the poll loop ends; a lost
      tunnel stops the poll loop and a seed at the next probe.
    - Debrid streams: every read returns the file's bytes at its position, and reading on
      delivers the file over links that expire; one reader at a time resolves a link and
      the others get its result.
    - The slot: a teardown takes away its own file only, a remux is closed once and not
      while it is installed, readers of a raw file are counted and bounded; a growing remux
      is sent as the output it becomes.
    - Mirrors: a call asks each mirror at most once and returns a final answer when some
      mirror has one; however calls interleave the pool has a current mirror and every
      call ends.
    - Settings: a save writes exactly the configuration and the user's own keys or leaves
      the file; a patched file keeps its comments and order, and one that does not change
      keeps its bytes.
    - Player sessions: a session the web closed is cancelled or displaced however it starts
      and interleaves, and one on the slot is cancelled at most once; one stream reads an account and an overtaken one never gets it.
    - Updates: a binary that is installed was in a release that is signed, unless the user
      waived that, and matches its checksum; after every operation the old binary is in
      its place or in the backup.
    - Control: a task normalised from its sources survives the store and its file and
      keeps its place; a download that is cancelled while its writes succeed stays
      cancelled through any later event but a new submission; one that is paused before it
      ends stays parked and a shut-down one is queued again,
      through restarts; the server's deletions are carried out and reported once while
      in flight; a block is told once, and a revoked agent falls silent.

    Some theorems state where the code and its stated intent part: a RAR5 name
    length that panics; a RAR5 extra record that is scanned for ever; lines the
    in-place decoder accepts and the scanner refuses; a failed directory creation
    that loses a pending progress write; a hedged fetch whose served front escapes
    verification; a lost wake-up in the connection pool, and a connection left in
    the pool of a closed client; a first article that is not read ahead; a partial
    file deleted under its progress that is delivered as zeros, and slack that is
    kept at the end of a file; broken parity taken as complete; a symbolic link
    followed through a directory that is new; a killed repair called corrupt; dot
    titles as task folders; cancels and pauses that arrive during verification or
    race the end of the download; debrid partials spliced under an old or a nameless
    record, and a cancel that deletes another task's finished file; letters garbled
    in a template and a space left at the end of a name; a download already in its
    place that is deleted, an image that is swept, a subtitle that is overwritten and
    version names that run out; the sweep deleting the folder of a running usenet
    download, a folder named like a video, configured folders, the video behind a
    link and a folder it could not read; a deletion taking a neighbour's subtitle, a
    configured folder, or an empty directory behind a link; a cancel inside a submit or
    with a failed write that a restart undoes, a retry that is swallowed, a stale pause
    that ends the reports, a failed daemon that forgets its downloads and a finished one
    that is downloaded again; a lost report that deletes twice; a segment sent or
    sealed while it is written, two encoders left by a seek, truncated segments that
    survive crashes; a cache entry removed under the session that is about to read or
    write it; a forced reinstall that does nothing, and a crash that leaves no binary; a
    cancelled torrent named by a dot that takes the download folder with it; an
    overtaken stream that opens the provider all the same; a debrid range that
    overflows, a refresh made for nothing, a response cut short that is never asked for
    again and a reader that fails with another's cancellation; two calls that rotate
    past the mirror that is up, and an internal error that keeps its mirror; a reader
    counted for the file after its own, a remux torn down under its player, one cut off as
    ffmpeg exits and a range of it that panics; a torrent that runs without the tunnel until
    its first probe, and one judged while pieces are still being marked; damage shipped as
    done when par2 vanishes; a pause that comes as the download ends and is lost.

    ** Bounds and fuel

    Loops that consume input recurse on it or on a fuel of its length, and the
    theorems show that the fuel is enough: sort.Search gets one unit per
    element, [dispatch] one per waiting task and one more, reading a reply one per
    fragment, the fetch loop its attempts, the debrid candidates one per source,
    the retry loop of a task four rounds, the template parser the length of the
    template, the comparison of two files one per byte and one more, the lists of Matroska elements and MP4 boxes
    one per byte; pruning has the ten levels of the source, seek heads the eight the source visits.  The RAR walks have the block limits of
    the source.  The scan of RAR5 extra records has no bound in the source, so its
    fuel running out is a result of its own ([crypt_loop]), and one of the theorems
    is that it can happen.  Concurrent code runs on a list of events, and where an
    end is promised the theorem says which rounds of events reach it.

    ** Outside the model

    Network, file-system and process calls appear as their outcomes, the clock as
    an input.  encoding/xml, the TOML library, SHA-256, HMAC, ed25519, sort.Slice, math.Log and Unicode case folding
    are parameters with their documented behaviour.  The offset index is shared by
    the readers of a source; Reader considers one reader alone on it.  Writes are
    in order and durable: power loss and fsync are not modelled; a debrid transfer may
    stop between any two operations.  The folders do not change during a sweep's scan.
    Not modelled: the par2, unrar and 7z programs and the archive decoders, progress
    speeds and log lines, the set-up of the BitTorrent client and its completion
    database, the organizer's guess of a title
    and its season packs, HLS sessions that copy, playlists and ffmpeg's arguments,
    the stream server's listeners and other routes, the agent's endpoints and registration, the library scanner and media probing, the command line and the vendored
    BitTorrent library. *)
From stdpp Require Import prelude list sorting.
From Stdlib Require Import ZArith Lia.

Open Scope Z_scope.

(** * Machine integers

    Go's [int] is 64 bits wide on every platform the release builds target, so
    [int] and [int64] share one model: a [Z] kept in range by the wrap written
    out below.  Bytes are [Z] in [0, 256). *)

Definition i64_min : Z := - 2 ^ 63.
Definition i64_max : Z := 2 ^ 63 - 1.
Definition u64_mod : Z := 2 ^ 64.

(** Two's complement wrap of a mathematical integer to [int64]. *)
Definition wrap_i64 (z : Z) : Z := (z + 2 ^ 63) mod 2 ^ 64 - 2 ^ 63.
(** Wrap to [uint64], [uint32], [uint16] and [byte]. *)
Definition wrap_u64 (z : Z) : Z := z mod 2 ^ 64.
Definition wrap_u32 (z : Z) : Z := z mod 2 ^ 32.
Definition wrap_u16 (z : Z) : Z := z mod 2 ^ 16.
Definition wrap_u8 (z : Z) : Z := z mod 256.

Definition is_i64 (z : Z) : Prop := i64_min <= z <= i64_max.
Definition is_byte (z : Z) : Prop := 0 <= z < 256.

Abbreviation bytes := (list Z).
Abbreviation wf_bytes := (Forall is_byte).

#[global] Instance is_byte_dec z : Decision (is_byte z).
Proof. unfold is_byte. apply _. Defined.
#[global] Instance is_i64_dec z : Decision (is_i64 z).
Proof. unfold is_i64. apply _. Defined.

(** * Fallible code: Go's (value, error) pairs *)

Inductive result (E A : Type) : Type :=
| Ok (a : A)
| Err (e : E).
Arguments Ok {E A} a.
Arguments Err {E A} e.

Definition rbind {E A B} (m : result E A) (k : A -> result E B) : result E B :=
  match m with Ok a => k a | Err e => Err e end.

Declare Scope go_scope.
Delimit Scope go_scope with go.
Notation "'try' x := m 'in' k" := (rbind m (fun x => k))
  (at level 10, x pattern, m at level 100, k at level 200) : go_scope.

(** * Binary search: [sort.Search(n, f)]

    The loop keeps [f (i-1) = false] and [f j = true]; [n] steps of fuel are
    enough because every round at least shrinks [j - i] by one. *)
Fixpoint search_loop (fuel : nat) (f : nat -> bool) (i j : nat) : nat :=
  match fuel with
  | O => i
  | S fuel' =>
      if Nat.ltb i j then
        let h := Nat.div (i + j) 2 in
        if f h then search_loop fuel' f i h else search_loop fuel' f (S h) j
      else i
  end.
Definition sort_Search (n : nat) (f : nat -> bool) : nat := search_loop n f 0 n.

(** * Sorting

    [sort.SliceStable] is the stable sort by a [less] predicate: insertion
    before the first strictly greater element. *)
Fixpoint insert_stable {A} (less : A -> A -> bool) (x : A) (l : list A) : list A :=
  match l with
  | [] => [x]
  | y :: l' => if less x y then x :: y :: l' else y :: insert_stable less x l'
  end.
Definition sort_SliceStable {A} (less : A -> A -> bool) (l : list A) : list A :=
  fold_left (fun acc x => insert_stable less x acc) l [].

(** [sort.Slice] promises a sorted permutation but not stability, so it is an
    interface: the clients' theorems hold for every algorithm meeting it. *)
Class GoSort (A : Type) := {
  sort_Slice : (A -> A -> bool) -> list A -> list A;
  sort_Slice_perm : forall less l, sort_Slice less l ≡ₚ l;
  sort_Slice_sorted : forall (key : A -> Z) l,
    StronglySorted (fun a b => key a <= key b)
      (sort_Slice (fun a b => key a <? key b) l)
}.

(** * Tactics and hints *)

Create HintDb unarr.
Create Rewrite HintDb unarr.

(** Turn boolean comparisons into propositions everywhere. *)
Ltac bprop :=
  repeat match goal with
  | H : (_ && _)%bool = true |- _ => apply andb_prop in H; destruct H
  | H : (_ || _)%bool = false |- _ => apply orb_false_elim in H; destruct H
  | H : negb _ = true |- _ => apply negb_true_iff in H
  | H : negb _ = false |- _ => apply negb_false_iff in H
  | H : (_ <? _)%Z = true |- _ => apply Z.ltb_lt in H
  | H : (_ <? _)%Z = false |- _ => apply Z.ltb_ge in H
  | H : (_ <=? _)%Z = true |- _ => apply Z.leb_le in H
  | H : (_ <=? _)%Z = false |- _ => apply Z.leb_gt in H
  | H : (_ =? _)%Z = true |- _ => apply Z.eqb_eq in H
  | H : (_ =? _)%Z = false |- _ => apply Z.eqb_neq in H
  | H : (_ <? _)%nat = true |- _ => apply Nat.ltb_lt in H
  | H : (_ <? _)%nat = false |- _ => apply Nat.ltb_ge in H
  | H : (_ <=? _)%nat = true |- _ => apply Nat.leb_le in H
  | H : (_ <=? _)%nat = false |- _ => apply Nat.leb_gt in H
  | H : (_ =? _)%nat = true |- _ => apply Nat.eqb_eq in H
  | H : (_ =? _)%nat = false |- _ => apply Nat.eqb_neq in H
  | H : bool_decide _ = true |- _ => apply bool_decide_eq_true in H
  | H : bool_decide _ = false |- _ => apply bool_decide_eq_false in H
  end.

(** Case split on the first [if] of the goal, keeping the condition. *)
Ltac case_if :=
  match goal with
  | |- context [if ?b then _ else _] =>
      let E := fresh "E" in destruct b eqn:E
  end.
Ltac case_if_in H :=
  match type of H with
  | context [if ?b then _ else _] =>
      let E := fresh "E" in destruct b eqn:E
  end.
(** Split every conditional of the goal and finish with arithmetic. *)
Ltac split_ifs := repeat (case_if; bprop); try (simplify_eq; lia).

(** * Integer lemmas *)

Lemma wrap_i64_range z : is_i64 (wrap_i64 z).
Proof.
  unfold is_i64, wrap_i64, i64_min, i64_max.
  pose proof (Z.mod_pos_bound (z + 2 ^ 63) (2 ^ 64)). lia.
Qed.

Lemma wrap_i64_id z : is_i64 z -> wrap_i64 z = z.
Proof.
  unfold is_i64, wrap_i64, i64_min, i64_max. intros.
  rewrite Z.mod_small; lia.
Qed.

(** Converting a [uint64] at or above 2^63 to [int] yields a negative number. *)
Lemma wrap_i64_high z : 2 ^ 63 <= z < 2 ^ 64 -> wrap_i64 z = z - 2 ^ 64.
Proof.
  intros. unfold wrap_i64.
  replace (z + 2 ^ 63) with ((z - 2 ^ 63) + 1 * 2 ^ 64) by lia.
  rewrite Z.mod_add by lia. rewrite Z.mod_small; lia.
Qed.

Lemma wrap_u8_byte z : is_byte (wrap_u8 z).
Proof. unfold is_byte, wrap_u8. pose proof (Z.mod_pos_bound z 256). lia. Qed.

Lemma wrap_u8_id z : is_byte z -> wrap_u8 z = z.
Proof. unfold is_byte, wrap_u8. intros. apply Z.mod_small. lia. Qed.

(** Or-ing a shifted word onto a shorter one is addition. *)
Lemma lor_shiftl_add a b n :
  0 <= n -> 0 <= a < 2 ^ n -> Z.lor a (Z.shiftl b n) = a + b * 2 ^ n.
Proof.
  intros Hn Ha. rewrite <- Z.shiftl_mul_pow2 by done.
  rewrite <- Z.add_lor_land. replace (Z.land a (Z.shiftl b n)) with 0; [lia|].
  symmetry. apply Z.bits_inj'. intros k Hk. rewrite Z.land_spec, Z.bits_0.
  destruct (Z.lt_ge_cases k n) as [Hkn|Hkn].
  - rewrite Z.shiftl_spec_low by done. apply andb_false_r.
  - replace a with (a mod 2 ^ n) by (apply Z.mod_small; lia).
    by rewrite Z.mod_pow2_bits_high by lia.
Qed.

(** * List lemmas *)

Lemma lookup_app_mid {A} (l1 l2 : list A) x n :
  length l1 = n -> (l1 ++ x :: l2) !! n = Some x.
Proof. intros <-. apply list_lookup_middle. done. Qed.

Lemma insert_app_mid {A} (l1 l2 : list A) x y n :
  length l1 = n -> <[n := y]> (l1 ++ x :: l2) = l1 ++ y :: l2.
Proof. intros <-. rewrite insert_app_r_alt by lia. by rewrite Nat.sub_diag. Qed.

(** A list read at [n] splits there. *)
Lemma lookup_split_take {A} (l : list A) n x :
  l !! n = Some x -> l = take n l ++ x :: drop (S n) l.
Proof. intros. symmetry. by apply take_drop_middle. Qed.

(** * [sort.Search] finds the boundary of a monotone predicate *)

Lemma search_loop_spec fuel f i j :
  (j - i <= fuel)%nat -> (i <= j)%nat ->
  (forall a b, (a <= b)%nat -> f a = true -> f b = true) ->
  let r := search_loop fuel f i j in
  (i <= r <= j)%nat /\
  (forall k, (i <= k < r)%nat -> f k = false) /\
  (forall k, (r <= k < j)%nat -> f k = true).
Proof.
  intros Hf Hij Hm. revert i j Hf Hij. induction fuel as [|fuel IH]; intros i j Hf Hij;
    cbn [search_loop]; cbv zeta in *.
  { repeat split; intros; lia. }
  destruct (Nat.ltb_spec i j) as [Hlt|Hge]; [|repeat split; intros; lia].
  pose proof (Nat.div_mod_eq (i + j) 2) as Hd.
  pose proof (Nat.mod_upper_bound (i + j) 2 ltac:(lia)) as Hr.
  set (h := Nat.div (i + j) 2) in *. clearbody h.
  destruct (f h) eqn:Eh.
  - destruct (IH i h ltac:(lia) ltac:(lia)) as (H1 & H2 & H3).
    split; [lia|]. split; [done|]. intros k Hk.
    destruct (decide (k < h)%nat); [apply H3; lia|].
    apply (Hm h); [lia|done].
  - destruct (IH (S h) j ltac:(lia) ltac:(lia)) as (H1 & H2 & H3).
    split; [lia|]. split; [|done]. intros k Hk.
    destruct (decide (S h <= k)%nat); [apply H2; lia|].
    destruct (f k) eqn:Ek; [|done].
    assert (f h = true) by (apply (Hm k); [lia|done]). congruence.
Qed.

Lemma sort_Search_spec n f :
  (forall a b, (a <= b)%nat -> f a = true -> f b = true) ->
  (sort_Search n f <= n)%nat /\
  (forall k, (k < sort_Search n f)%nat -> f k = false) /\
  (forall k, (sort_Search n f <= k < n)%nat -> f k = true).
Proof.
  intros Hm. unfold sort_Search.
  destruct (search_loop_spec n f 0 n ltac:(lia) ltac:(lia) Hm) as (H1 & H2 & H3).
  split; [lia|]. split; [|done]. intros. apply H2; lia.
Qed.

(** A predicate that is monotone below [n] only: what a search over an array
    of length [n] has. *)
Lemma sort_Search_below n f :
  (forall a b, (a <= b < n)%nat -> f a = true -> f b = true) ->
  (sort_Search n f <= n)%nat /\
  (forall k, (k < sort_Search n f)%nat -> f k = false) /\
  (forall k, (sort_Search n f <= k < n)%nat -> f k = true).
Proof.
  intros Hm. set (g := fun k => f k || (n <=? k)%nat).
  assert (Hfg : forall fuel i j, (j <= n)%nat -> search_loop fuel f i j = search_loop fuel g i j).
  { induction fuel as [|fuel IH]; intros i j Hj; cbn [search_loop]; [done|].
    destruct (Nat.ltb_spec i j) as [Hlt|Hge]; [|done].
    pose proof (Nat.Div0.div_lt_upper_bound (i + j) 2 j ltac:(lia)) as Hh.
    set (h := Nat.div (i + j) 2) in *. clearbody h.
    assert (Hg : g h = f h) by (unfold g; destruct (Nat.leb_spec n h); [lia|apply orb_false_r]).
    rewrite Hg. destruct (f h); apply IH; lia. }
  unfold sort_Search. rewrite Hfg by lia. fold (sort_Search n g).
  destruct (sort_Search_spec n g) as (H1 & H2 & H3).
  { intros a b Hab Ha. unfold g in *. destruct (Nat.leb_spec n b); [apply orb_true_r|].
    rewrite orb_false_r. apply (Hm a b); [lia|]. destruct (Nat.leb_spec n a); [lia|].
    by rewrite orb_false_r in Ha. }
  split; [done|]. split; intros k Hk.
  - specialize (H2 k Hk). unfold g in H2. by apply orb_false_iff in H2 as [? _].
  - specialize (H3 k Hk). unfold g in H3. destruct (Nat.leb_spec n k); [lia|].
    by rewrite orb_false_r in H3.
Qed.

(** * Stable sort lemmas *)

Lemma insert_stable_perm {A} (less : A -> A -> bool) x l : insert_stable less x l ≡ₚ x :: l.
Proof.
  induction l as [|y l IH]; simpl; [done|].
  case_if; [done|]. rewrite IH. apply Permutation_swap.
Qed.

Lemma sort_SliceStable_perm {A} (less : A -> A -> bool) l : sort_SliceStable less l ≡ₚ l.
Proof.
  unfold sort_SliceStable.
  cut (forall acc, fold_left (fun acc x => insert_stable less x acc) l acc ≡ₚ l ++ acc).
  { intros H. rewrite H. by rewrite app_nil_r. }
  induction l as [|x l IH]; intros acc; simpl; [done|].
  rewrite IH, insert_stable_perm. by rewrite Permutation_middle.
Qed.

(** What holds at the start and survives every step holds of a loop's result. *)
Lemma fold_left_inv {A B} (I : A -> Prop) (f : A -> B -> A) l a :
  I a -> (forall a x, x ∈ l -> I a -> I (f a x)) -> I (fold_left f l a).
Proof.
  revert a. induction l as [|x l IH]; intros a Ha Hf; [done|]. cbn. apply IH; [apply Hf; [by left|done]|].
  intros b y Hy. apply Hf. by right.
Qed.

(** Sorting by a strict order. *)
Section OrderSort.
Context {A : Type} (less : A -> A -> bool).
Context (less_trans : forall a b c, less a b = true -> less b c = true -> less a c = true).
Context (less_irrefl : forall a, less a a = false).

Lemma insert_stable_ordered x l :
  StronglySorted (fun a b => less b a = false) l -> StronglySorted (fun a b => less b a = false) (insert_stable less x l).
Proof.
  induction 1 as [|y l Hs IH Hf]; simpl; [repeat constructor|]. rewrite Forall_forall in Hf.
  assert (Hw : forall z, less x y = true -> less z y = false -> less z x = false).
  { intros z Hxy Hzy. destruct (less z x) eqn:E; [|done]. by rewrite (less_trans _ _ _ E Hxy) in Hzy. }
  destruct (less x y) eqn:Exy.
  - constructor; [constructor; [done|by apply Forall_forall]|]. apply Forall_forall. intros z [->|Hz]%elem_of_cons.
    + by apply Hw.
    + by apply Hw, Hf.
  - constructor; [done|]. rewrite insert_stable_perm. constructor; [done|by apply Forall_forall].
Qed.
Lemma sort_ordered l : StronglySorted (fun a b => less b a = false) (sort_SliceStable less l).
Proof.
  unfold sort_SliceStable. apply (fold_left_inv (StronglySorted (fun a b => less b a = false))); [constructor|].
  intros acc x _ Hacc. by apply insert_stable_ordered.
Qed.
End OrderSort.

Section StableSort.
Context {A : Type} (key : A -> Z).
Abbreviation less := (fun a b : A => key a <? key b).

Lemma insert_stable_sorted x l :
  StronglySorted (fun a b => key a <= key b) l ->
  StronglySorted (fun a b => key a <= key b) (insert_stable less x l).
Proof.
  induction 1 as [|y l Hs IH Hf]; simpl; [repeat constructor|].
  case_if; bprop.
  - constructor; [by constructor|]. constructor; [lia|].
    eapply Forall_impl; [exact Hf|]. simpl; lia.
  - constructor; [done|]. rewrite insert_stable_perm. constructor; [lia|done].
Qed.

Lemma sort_SliceStable_sorted l :
  StronglySorted (fun a b => key a <= key b) (sort_SliceStable less l).
Proof.
  unfold sort_SliceStable.
  cut (forall acc, StronglySorted (fun a b => key a <= key b) acc ->
       StronglySorted (fun a b => key a <= key b)
         (fold_left (fun acc x => insert_stable less x acc) l acc)).
  { intros H. apply H. constructor. }
  induction l as [|x l IH]; intros acc Hacc; simpl; [done|].
  apply IH, insert_stable_sorted, Hacc.
Qed.
End StableSort.

(** * Sums over lists *)

Definition zsum {A} (f : A -> Z) (l : list A) : Z := foldr (fun x t => f x + t) 0 l.
Arguments zsum : simpl never.

Section Sums.
Context {A : Type} (f : A -> Z).

Lemma zsum_nil : zsum f [] = 0.
Proof. done. Qed.
Lemma zsum_cons x l : zsum f (x :: l) = f x + zsum f l.
Proof. done. Qed.
Lemma zsum_app l k : zsum f (l ++ k) = zsum f l + zsum f k.
Proof. induction l as [|x l IH]; cbn [app]; rewrite ?zsum_nil, ?zsum_cons; lia. Qed.
Lemma zsum_insert l i x y : l !! i = Some x -> zsum f (<[i := y]> l) = zsum f l - f x + f y.
Proof.
  revert i. induction l as [|z l IH]; intros [|i] Hi; try done; cbn in Hi |- *; rewrite !zsum_cons.
  - injection Hi as ->. lia.
  - rewrite IH by done. lia.
Qed.
Lemma zsum_perm l k : l ≡ₚ k -> zsum f l = zsum f k.
Proof. induction 1; rewrite ?zsum_cons; lia. Qed.
Lemma zsum_nonneg l : (forall x, 0 <= f x) -> 0 <= zsum f l.
Proof. intros H. induction l as [|x l IH]; rewrite ?zsum_nil, ?zsum_cons; [lia|]. specialize (H x). lia. Qed.
Lemma zsum_lookup l i x : (forall y, 0 <= f y) -> l !! i = Some x -> f x <= zsum f l.
Proof.
  intros H. revert i. induction l as [|z l IH]; intros [|i] Hi; try done; cbn in Hi; rewrite zsum_cons.
  - injection Hi as ->. pose proof (zsum_nonneg l H). lia.
  - specialize (IH _ Hi). specialize (H z). lia.
Qed.
End Sums.

(** One algorithm that meets the [sort.Slice] interface. *)
Definition stable_GoSort (A : Type) : GoSort A := {|
  sort_Slice := sort_SliceStable;
  sort_Slice_perm := sort_SliceStable_perm;
  sort_Slice_sorted := sort_SliceStable_sorted
|}.

#[export] Hint Resolve wrap_i64_range wrap_u8_byte : unarr.
