(* ===== verification/GoStrings.v ===== *)
(** Go strings and byte slices as [list Z], with the functions of [strings],
    [bytes], [strconv], [fmt] and [path/filepath] the modelled code calls.
    Go strings are byte strings, so one type serves both; the few places where
    the Go library looks at UTF-8 runes (TrimSpace, ToLower) spell the encoded
    runes out. *)
From Stdlib Require Import ZArith Lia Ascii String.
From stdpp Require Import prelude list strings.
From S2P Require Import Prelude.

Open Scope Z_scope.

(** A string literal of the source. *)
Definition str (s : string) : bytes :=
  map (fun a => Z.of_N (N_of_ascii a)) (list_ascii_of_string s).

Definition LF : Z := 10.
Definition CR : Z := 13.
Definition SP : Z := 32.
Definition TAB : Z := 9.
Definition EQ : Z := 61.
Definition DOT : Z := 46.
Definition SLASH : Z := 47.
Definition BACKSLASH : Z := 92.
Definition QUOTE : Z := 34.

Fixpoint bytes_eqb (a b : bytes) : bool :=
  match a, b with
  | [], [] => true
  | x :: a', y :: b' => (x =? y) && bytes_eqb a' b'
  | _, _ => false
  end.
(** Byte-wise order: [strings.Compare], [sort.Strings]. *)
Fixpoint bytes_ltb (a b : bytes) : bool :=
  match a, b with
  | _, [] => false
  | [], _ :: _ => true
  | x :: a', y :: b' => if x <? y then true else if y <? x then false else bytes_ltb a' b'
  end.

(** [strings.CutPrefix]: what follows the prefix, if it is one. *)
Fixpoint cut_prefix (p s : bytes) : option bytes :=
  match p, s with
  | [], _ => Some s
  | x :: p', y :: s' => if x =? y then cut_prefix p' s' else None
  | _ :: _, [] => None
  end.
Definition has_prefix (p s : bytes) : bool :=
  match cut_prefix p s with Some _ => true | None => false end.
Definition has_suffix (p s : bytes) : bool := has_prefix (rev p) (rev s).
Definition cut_suffix (p s : bytes) : option bytes :=
  match cut_prefix (rev p) (rev s) with Some r => Some (rev r) | None => None end.

(** [strings.Index]: the first occurrence, [None] for -1. *)
Fixpoint index (sub s : bytes) : option nat :=
  if has_prefix sub s then Some O
  else match s with
       | [] => None
       | _ :: s' => match index sub s' with Some i => Some (S i) | None => None end
       end.

(** The longest prefix of bytes satisfying [p], and the rest. *)
Fixpoint span (p : Z -> bool) (s : bytes) : bytes * bytes :=
  match s with
  | [] => ([], [])
  | x :: s' => if p x then let '(a, b) := span p s' in (x :: a, b) else ([], s)
  end.

Definition is_blank (b : Z) : bool := (b =? SP) || (b =? TAB).
(** [strings.TrimLeft(s, " \t")] *)
Definition trim_left_blank (s : bytes) : bytes := snd (span is_blank s).

(** The UTF-8 encodings of the runes [unicode.IsSpace] accepts. *)
Definition space_runes : list bytes :=
  [[9]; [10]; [11]; [12]; [13]; [32]; [194; 133]; [194; 160]; [225; 154; 128];
   [226; 128; 128]; [226; 128; 129]; [226; 128; 130]; [226; 128; 131];
   [226; 128; 132]; [226; 128; 133]; [226; 128; 134]; [226; 128; 135];
   [226; 128; 136]; [226; 128; 137]; [226; 128; 138]; [226; 128; 168];
   [226; 128; 169]; [226; 128; 175]; [226; 129; 159]; [227; 128; 128]].

Fixpoint strip_one (runes : list bytes) (s : bytes) : option bytes :=
  match runes with
  | [] => None
  | r :: rs => match cut_prefix r s with Some s' => Some s' | None => strip_one rs s end
  end.
Fixpoint trim_front (fuel : nat) (runes : list bytes) (s : bytes) : bytes :=
  match fuel with
  | O => s
  | S f => match strip_one runes s with Some s' => trim_front f runes s' | None => s end
  end.
(** [strings.TrimSpace]; every strip consumes at least one byte, so the length
    is enough fuel. *)
Definition TrimSpace (s : bytes) : bytes :=
  let l := trim_front (length s) space_runes s in
  rev (trim_front (length l) (map (@rev Z) space_runes) (rev l)).

(** [strings.ToLower], exact for comparisons with ASCII text: the two
    non-ASCII runes whose lower case is ASCII are U+0130 (i) and U+212A (k);
    every other non-ASCII rune stays outside ASCII and is left as it is. *)
Fixpoint ToLower (s : bytes) : bytes :=
  match s with
  | 196 :: 176 :: s' => 105 :: ToLower s'
  | 226 :: 132 :: 170 :: s' => 107 :: ToLower s'
  | b :: s' => (if (65 <=? b) && (b <=? 90) then b + 32 else b) :: ToLower s'
  | [] => []
  end.

(** [strings.ReplaceAll(s, old, new)] for a one-byte [old]. *)
Definition replace_byte (old new : Z) (s : bytes) : bytes :=
  map (fun b => if b =? old then new else b) s.
(** [strings.ReplaceAll(s, old, "")] *)
Fixpoint remove_all (fuel : nat) (old s : bytes) : bytes :=
  match fuel with
  | O => s
  | S f =>
      match cut_prefix old s with
      | Some s' => remove_all f old s'
      | None => match s with [] => [] | b :: s' => b :: remove_all f old s' end
      end
  end.

(** ** [path/filepath] on a Unix separator *)

(** The part of a reversed path before the first separator. *)
Fixpoint ext_rev (acc s : bytes) : bytes :=
  match s with
  | [] => []
  | b :: s' => if b =? SLASH then []
               else if b =? DOT then b :: acc else ext_rev (b :: acc) s'
  end.
(** [filepath.Ext]: from the last dot of the last element. *)
Definition Ext (p : bytes) : bytes := ext_rev [] (rev p).

(** [filepath.Base] *)
Definition Base (p : bytes) : bytes :=
  match p with
  | [] => [DOT]
  | _ =>
      let r := snd (span (fun b => b =? SLASH) (rev p)) in
      let e := fst (span (fun b => negb (b =? SLASH)) r) in
      match e with [] => [SLASH] | _ => rev e end
  end.

(** ** [strconv] *)

Definition is_digit (b : Z) : bool := (48 <=? b) && (b <=? 57).
Definition hex_val (b : Z) : option Z :=
  if is_digit b then Some (b - 48)
  else if (97 <=? b) && (b <=? 122) then Some (b - 87)
  else if (65 <=? b) && (b <=? 90) then Some (b - 55)
  else None.
Definition digit_val (base b : Z) : option Z :=
  match hex_val b with
  | Some d => if d <? base then Some d else None
  | None => None
  end.

Inductive num_err := NumOk | NumSyntax | NumRange.

Fixpoint parse_uint_loop (base maxv n : Z) (s : bytes) : Z * num_err :=
  match s with
  | [] => (n, NumOk)
  | b :: s' =>
      match digit_val base b with
      | None => (0, NumSyntax)
      | Some d =>
          let n1 := n * base + d in
          if maxv <? n1 then (maxv, NumRange) else parse_uint_loop base maxv n1 s'
      end
  end.
(** [strconv.ParseUint(s, base, bits)] for an explicit base *)
Definition ParseUint (s : bytes) (base bits : Z) : Z * num_err :=
  match s with
  | [] => (0, NumSyntax)
  | _ => parse_uint_loop base (2 ^ bits - 1) 0 s
  end.
(** [strconv.ParseInt(s, 10, 64)], and [strconv.Atoi] with 64-bit [int]: a
    range error still returns the clamped value. *)
Definition ParseInt (s : bytes) : Z * num_err :=
  match s with
  | [] => (0, NumSyntax)
  | b :: s' =>
      let neg := b =? 45 in
      let body := if (b =? 43) || (b =? 45) then s' else s in
      let '(un, e) := ParseUint body 10 64 in
      match e with
      | NumSyntax => (0, NumSyntax)
      | _ =>
          if negb neg && (2 ^ 63 <=? un) then (2 ^ 63 - 1, NumRange)
          else if neg && (2 ^ 63 <? un) then (- 2 ^ 63, NumRange)
          else ((if neg then - un else un), NumOk)
      end
  end.
Abbreviation Atoi := ParseInt.

(** ** [encoding/binary], little endian *)

Fixpoint le_val (b : bytes) : Z :=
  match b with [] => 0 | x :: b' => x + 256 * le_val b' end.
Fixpoint le_bytes (n : nat) (v : Z) : bytes :=
  match n with O => [] | S n' => v mod 256 :: le_bytes n' (v / 256) end.

(** ** [fmt]: the verbs %d and %08x *)

Fixpoint dec_digits (fuel : nat) (n : Z) : bytes :=
  match fuel with
  | O => []
  | S f => if n <? 10 then [48 + n] else dec_digits f (n / 10) ++ [48 + n mod 10]
  end.
Definition Itoa (z : Z) : bytes :=
  if z <? 0 then 45 :: dec_digits (S (Z.to_nat (Z.log2 (- z)))) (- z)
  else dec_digits (S (Z.to_nat (Z.log2 z))) z.

Definition hex_digit (d : Z) : Z := if d <? 10 then 48 + d else 87 + d.
Fixpoint hex_digits (width : nat) (n : Z) : bytes :=
  match width with
  | O => []
  | S w => hex_digits w (n / 16) ++ [hex_digit (n mod 16)]
  end.
(** %08x of a [uint32] *)
Definition hex8 (n : Z) : bytes := hex_digits 8 n.

(** * Lemmas *)

Lemma bytes_eqb_eq a b : bytes_eqb a b = true <-> a = b.
Proof.
  revert b; induction a as [|x a IH]; intros [|y b]; simpl; try (split; congruence).
  rewrite andb_true_iff, IH, Z.eqb_eq. split; [intros [-> ->]|intros [= -> ->]]; done.
Qed.

Lemma bytes_eqb_refl a : bytes_eqb a a = true.
Proof. by apply bytes_eqb_eq. Qed.
Lemma bytes_ltb_irrefl a : bytes_ltb a a = false.
Proof. induction a as [|x a IH]; cbn; [done|]. by rewrite Z.ltb_irrefl. Qed.
Lemma bytes_ltb_trans a b c : bytes_ltb a b = true -> bytes_ltb b c = true -> bytes_ltb a c = true.
Proof.
  revert b c. induction a as [|x a IH]; intros [|y b] [|z c]; cbn; try done.
  destruct (Z.ltb_spec x y), (Z.ltb_spec y z), (Z.ltb_spec x z); try done; try lia.
  all: destruct (Z.ltb_spec y x), (Z.ltb_spec z y), (Z.ltb_spec z x); try done; try lia. apply IH.
Qed.
Lemma bytes_ltb_total a b : bytes_ltb a b = false -> bytes_ltb b a = false -> a = b.
Proof.
  revert b. induction a as [|x a IH]; intros [|y b]; cbn; try done.
  destruct (Z.ltb_spec x y), (Z.ltb_spec y x); try done; try lia. intros H1 H2. f_equal; [lia|by apply IH].
Qed.

Lemma cut_prefix_Some p s r : cut_prefix p s = Some r <-> s = p ++ r.
Proof.
  revert s; induction p as [|x p IH]; intros [|y s]; simpl.
  - split; congruence.
  - split; congruence.
  - split; [congruence|]. intros; discriminate.
  - destruct (Z.eqb_spec x y) as [->|Hne].
    + rewrite IH. split; [by intros ->|by intros [= ->]].
    + split; [congruence|]. intros [= <- _]. congruence.
Qed.

Lemma has_prefix_app p s : has_prefix p (p ++ s) = true.
Proof.
  unfold has_prefix. destruct (cut_prefix p (p ++ s)) eqn:E; [done|].
  assert (cut_prefix p (p ++ s) = Some s) by (by apply cut_prefix_Some). congruence.
Qed.

Lemma has_prefix_true p s : has_prefix p s = true <-> exists r, s = p ++ r.
Proof.
  unfold has_prefix. split.
  - destruct (cut_prefix p s) eqn:E; [|done]. apply cut_prefix_Some in E. eauto.
  - intros [r ->]. pose proof (has_prefix_app p r) as H. exact H.
Qed.

Lemma span_app p s : fst (span p s) ++ snd (span p s) = s.
Proof.
  induction s as [|x s IH]; simpl; [done|].
  destruct (p x); [|done]. destruct (span p s); simpl in *. by rewrite IH.
Qed.

Lemma span_fst p s : Forall (fun b => p b = true) (fst (span p s)).
Proof.
  induction s as [|x s IH]; simpl; [constructor|].
  destruct (p x) eqn:E; [|constructor].
  destruct (span p s); simpl in *. by constructor.
Qed.

(** [span] stops exactly where a byte fails the test. *)
Lemma span_all_then p a b :
  Forall (fun x => p x = true) a ->
  (match b with [] => True | x :: _ => p x = false end) ->
  span p (a ++ b) = (a, b).
Proof.
  induction 1 as [|x a Hx Ha IH]; simpl; intros Hb.
  - destruct b as [|y b]; simpl; [done|]. by rewrite Hb.
  - rewrite Hx, IH; done.
Qed.

Lemma index_None_app sub s :
  (forall i, has_prefix sub (drop i s) = false) -> index sub s = None.
Proof.
  induction s as [|x s IH]; simpl; intros H.
  - pose proof (H O) as H0. simpl in H0. by rewrite H0.
  - pose proof (H O) as H0. simpl in H0. rewrite H0.
    rewrite IH; [done|]. intros i. apply (H (S i)).
Qed.

(** The first occurrence is at [length p] when no earlier suffix matches. *)
Lemma index_app sub p r :
  (forall i, (i < length p)%nat -> has_prefix sub (drop i (p ++ sub ++ r)) = false) ->
  index sub (p ++ sub ++ r) = Some (length p).
Proof.
  induction p as [|x p IH]; intros H.
  - simpl. destruct (sub ++ r) eqn:E; simpl.
    + rewrite <- E, has_prefix_app. done.
    + rewrite <- E, has_prefix_app. done.
  - pose proof (H O ltac:(simpl; lia)) as H0. rewrite drop_0 in H0.
    change ((x :: p) ++ sub ++ r) with (x :: (p ++ sub ++ r)) in *.
    cbn [index]. rewrite H0. rewrite IH; [done|].
    intros i Hi. apply (H (S i)). simpl; lia.
Qed.

(** ** Decimal and hexadecimal printing parse back *)

Lemma is_digit_spec b : is_digit b = true <-> 48 <= b <= 57.
Proof. unfold is_digit. rewrite andb_true_iff, !Z.leb_le. lia. Qed.

Lemma digit_val_dec d : 0 <= d < 10 -> digit_val 10 (48 + d) = Some d.
Proof.
  intros. unfold digit_val, hex_val.
  assert (is_digit (48 + d) = true) as -> by (apply is_digit_spec; lia).
  replace (48 + d - 48) with d by lia.
  destruct (Z.ltb_spec d 10); [done|lia].
Qed.

Lemma digit_val_hex d : 0 <= d < 16 -> digit_val 16 (hex_digit d) = Some d.
Proof.
  intros. unfold digit_val, hex_val, hex_digit.
  destruct (Z.ltb_spec d 10).
  - assert (is_digit (48 + d) = true) as -> by (apply is_digit_spec; lia).
    replace (48 + d - 48) with d by lia. destruct (Z.ltb_spec d 16); [done|lia].
  - destruct (is_digit (87 + d)) eqn:E; [apply is_digit_spec in E; lia|].
    destruct (Z.leb_spec 97 (87 + d)), (Z.leb_spec (87 + d) 122); try lia; simpl.
    replace (87 + d - 87) with d by lia. destruct (Z.ltb_spec d 16); [done|lia].
Qed.

Lemma dec_digits_is_digit fuel n :
  0 <= n -> Forall (fun b => is_digit b = true) (dec_digits fuel n).
Proof.
  revert n; induction fuel as [|fuel IH]; intros n Hn; simpl; [constructor|].
  destruct (Z.ltb_spec n 10).
  - repeat constructor. apply is_digit_spec; lia.
  - apply Forall_app; split.
    + apply IH. apply Z.div_pos; lia.
    + repeat constructor. apply is_digit_spec.
      pose proof (Z.mod_pos_bound n 10). lia.
Qed.

Lemma parse_uint_loop_app base maxv n s1 s2 m :
  parse_uint_loop base maxv n s1 = (m, NumOk) ->
  parse_uint_loop base maxv n (s1 ++ s2) = parse_uint_loop base maxv m s2.
Proof.
  revert n; induction s1 as [|b s1 IH]; intros n; simpl; [by intros [= ->]|].
  destruct (digit_val base b); [|done]. case_if; [done|]. apply IH.
Qed.

Lemma log2_div10 n : 10 <= n -> (Z.to_nat (Z.log2 (n / 10)) < Z.to_nat (Z.log2 n))%nat.
Proof.
  intros. assert (0 < n / 10) by (apply Z.div_str_pos; lia).
  assert (Z.log2 (n / 10) < Z.log2 n); [|pose proof (Z.log2_nonneg (n / 10)); lia].
  assert (n / 10 <= n / 2) by (apply Z.div_le_compat_l; lia).
  assert (Z.log2 (n / 2) = Z.log2 n - 1).
  { rewrite <- Z.div2_div, Z.div2_spec.
    rewrite Z.log2_shiftr by lia. pose proof (Z.log2_pos n ltac:(lia)). lia. }
  pose proof (Z.log2_le_mono (n / 10) (n / 2) ltac:(done)). lia.
Qed.

Lemma parse_dec_digits fuel n maxv :
  (Z.to_nat (Z.log2 n) < fuel)%nat -> 0 <= n <= maxv ->
  parse_uint_loop 10 maxv 0 (dec_digits fuel n) = (n, NumOk).
Proof.
  revert n; induction fuel as [|fuel IH]; intros n Hf Hn; [lia|].
  cbn [dec_digits]. destruct (Z.ltb_spec n 10) as [Hlt|Hge].
  - cbn [parse_uint_loop]. rewrite digit_val_dec by lia.
    replace (0 * 10 + n) with n by lia. destruct (Z.ltb_spec maxv n); [lia|done].
  - pose proof (log2_div10 n Hge). pose proof (Z.div_mod n 10).
    pose proof (Z.mod_pos_bound n 10). pose proof (Z.div_pos n 10).
    erewrite parse_uint_loop_app; [|apply IH; lia].
    cbn [parse_uint_loop]. rewrite digit_val_dec by lia.
    replace (n / 10 * 10 + n mod 10) with n by lia.
    destruct (Z.ltb_spec maxv n); [lia|done].
Qed.

Lemma dec_digits_nonempty fuel n : dec_digits (S fuel) n <> [].
Proof.
  simpl. case_if; [done|]. intros H. apply app_eq_nil in H as [_ H]. done.
Qed.

Lemma Itoa_digits n : 0 <= n -> Forall (fun b => is_digit b = true) (Itoa n).
Proof.
  intros. unfold Itoa. destruct (Z.ltb_spec n 0); [lia|]. by apply dec_digits_is_digit.
Qed.

Lemma Itoa_nonempty n : Itoa n <> [].
Proof. unfold Itoa. case_if; [done|]. apply dec_digits_nonempty. Qed.

Lemma ParseUint_Itoa n bits : 0 <= n < 2 ^ bits -> ParseUint (Itoa n) 10 bits = (n, NumOk).
Proof.
  intros Hn. unfold ParseUint, Itoa. destruct (Z.ltb_spec n 0); [lia|].
  destruct (dec_digits _ _) eqn:E; [by apply dec_digits_nonempty in E|].
  rewrite <- E. apply parse_dec_digits; lia.
Qed.

(** A parsed number is an [int64]. *)
Lemma parse_uint_loop_range base maxv n s :
  0 <= n <= maxv -> 2 <= base -> 0 <= fst (parse_uint_loop base maxv n s) <= maxv.
Proof.
  revert n. induction s as [|b s IH]; intros n Hn Hb; simpl; [done|].
  unfold digit_val. destruct (hex_val b) as [d|] eqn:Eh; [|simpl; lia].
  assert (0 <= d) by (unfold hex_val in Eh; repeat case_if_in Eh;
    try (apply is_digit_spec in E); bprop; simplify_eq; lia).
  case_if; simpl; [|lia]. case_if; bprop; simpl; [lia|]. apply IH; lia.
Qed.

Lemma ParseInt_range s : is_i64 (fst (ParseInt s)).
Proof.
  unfold is_i64, i64_min, i64_max, ParseInt. destruct s as [|b s]; [simpl; lia|].
  assert (HP : forall t, 0 <= fst (ParseUint t 10 64) <= 2 ^ 64 - 1).
  { intros t. unfold ParseUint. destruct t; [simpl; lia|].
    apply parse_uint_loop_range; lia. }
  specialize (HP (if (b =? 43) || (b =? 45) then s else b :: s)).
  cbv zeta. destruct (ParseUint _ _ _) as [un []]; cbn [fst] in *; try lia;
    repeat (case_if; bprop; simpl); lia.
Qed.

(** %d of a non-negative [int64] parses back with [ParseInt]. *)
Lemma ParseInt_Itoa n : 0 <= n <= i64_max -> ParseInt (Itoa n) = (n, NumOk).
Proof.
  unfold i64_max. intros Hn. unfold ParseInt.
  pose proof (Itoa_digits n ltac:(lia)) as Hd. pose proof (Itoa_nonempty n).
  pose proof (ParseUint_Itoa n 64 ltac:(lia)) as HP.
  destruct (Itoa n) as [|b s] eqn:E; [done|].
  apply Forall_cons in Hd as [Hb _]. apply is_digit_spec in Hb.
  destruct (Z.eqb_spec b 43); [lia|]. destruct (Z.eqb_spec b 45); [lia|].
  cbn [orb]. cbv zeta. rewrite HP. cbn [negb andb]. destruct (Z.leb_spec (2 ^ 63) n); [lia|done].
Qed.

Lemma hex_digits_length w n : length (hex_digits w n) = w.
Proof.
  revert n; induction w as [|w IH]; intros n; simpl; [done|].
  rewrite length_app, IH. simpl. lia.
Qed.

Lemma parse_hex_digits w n maxv :
  0 <= n < 16 ^ Z.of_nat w -> n <= maxv ->
  parse_uint_loop 16 maxv 0 (hex_digits w n) = (n, NumOk).
Proof.
  revert n; induction w as [|w IH]; intros n Hn Hm.
  - simpl in *. f_equal. lia.
  - cbn [hex_digits]. pose proof (Z.div_mod n 16). pose proof (Z.mod_pos_bound n 16).
    pose proof (Z.div_pos n 16).
    assert (n / 16 < 16 ^ Z.of_nat w).
    { apply Z.div_lt_upper_bound; [lia|].
      rewrite Nat2Z.inj_succ, Z.pow_succ_r in Hn by lia. lia. }
    erewrite parse_uint_loop_app; [|apply IH; lia].
    cbn [parse_uint_loop]. rewrite digit_val_hex by lia.
    replace (n / 16 * 16 + n mod 16) with n by lia.
    destruct (Z.ltb_spec maxv n); [lia|done].
Qed.

(** %08x of a [uint32] parses back with [ParseUint(_, 16, 32)]. *)
Lemma ParseUint_hex8 n : 0 <= n < 2 ^ 32 -> ParseUint (hex8 n) 16 32 = (n, NumOk).
Proof.
  intros Hn. unfold ParseUint, hex8.
  destruct (hex_digits 8 n) eqn:E.
  { apply (f_equal length) in E. rewrite hex_digits_length in E. simpl in E; lia. }
  rewrite <- E. apply parse_hex_digits; [|lia].
  replace (16 ^ Z.of_nat 8) with (2 ^ 32) by done. lia.
Qed.

Example Atoi_clamps : Atoi (str "99999999999999999999x") = (2 ^ 63 - 1, NumRange).
Proof. reflexivity. Qed.
Example Ext_last : Ext (str "a.b/c.part01.rar") = str ".rar".
Proof. reflexivity. Qed.
Example Base_dir : Base (str "dir/sub/file.mkv") = str "file.mkv".
Proof. reflexivity. Qed.
Example TrimSpace_both : TrimSpace (str "  x y	 ") = str "x y".
Proof. reflexivity. Qed.

(** ** Lower case *)

Definition fold_byte (b : Z) : Z := if (65 <=? b) && (b <=? 90) then b + 32 else b.

(** One step of [ToLower]: a special rune, or one byte. *)
Lemma ToLower_cases b s :
  (exists s', b :: s = 196 :: 176 :: s' /\ ToLower (b :: s) = 105 :: ToLower s') \/
  (exists s', b :: s = 226 :: 132 :: 170 :: s' /\ ToLower (b :: s) = 107 :: ToLower s') \/
  ToLower (b :: s) = fold_byte b :: ToLower s.
Proof.
  destruct (decide (b = 196)) as [->|H1].
  { destruct s as [|c s]; [by right; right|].
    destruct (decide (c = 176)) as [->|H2]; [left; eauto|]. right; right.
    destruct c as [|c|c]; try reflexivity.
    do 8 (destruct c as [c|c|]; try reflexivity). done. }
  destruct (decide (b = 226)) as [->|H2].
  { destruct s as [|c [|d s]].
    - by right; right.
    - right; right. destruct c as [|c|c]; try reflexivity.
      do 8 (destruct c as [c|c|]; try reflexivity).
    - destruct (decide (c = 132)) as [->|H3].
      + destruct (decide (d = 170)) as [->|H4]; [right; left; eauto|]. right; right.
        destruct d as [|d|d]; try reflexivity. do 8 (destruct d as [d|d|]; try reflexivity). done.
      + right; right. destruct c as [|c|c]; try reflexivity.
        do 8 (destruct c as [c|c|]; try reflexivity). done. }
  right; right. destruct b as [|b|b]; try reflexivity.
  do 8 (destruct b as [b|b|]; try reflexivity); done.
Qed.

(** Lower-casing keeps an all-ASCII ending. *)
Lemma ToLower_app base s :
  Forall (fun b => 0 <= b < 128) s -> exists pre, ToLower (base ++ s) = pre ++ map fold_byte s.
Proof.
  intros Hs. remember (length base) as n eqn:Hn. revert base Hn.
  induction n as [n IH] using lt_wf_ind. intros base ->.
  destruct base as [|b base].
  { exists []. cbn [app]. clear IH. induction Hs as [|d s Hd Hs IHs]; [done|].
    destruct (ToLower_cases d s) as [(s' & Hc & _)|[(s' & Hc & _)| ->]];
      [injection Hc as -> _; lia|injection Hc as -> _; lia|]. cbn [map]. by rewrite IHs. }
  cbn [app]. destruct (ToLower_cases b (base ++ s)) as [(s' & Hc & Hr)|[(s' & Hc & Hr)|Hr]]; rewrite Hr.
  - injection Hc as -> Hc. destruct base as [|c base].
    { cbn [app] in Hc. subst s. apply Forall_cons in Hs as [? _]. lia. }
    injection Hc as -> <-. destruct (IH (length base) ltac:(simpl; lia) base eq_refl) as [pre ->].
    by exists (105 :: pre).
  - injection Hc as -> Hc. destruct base as [|c base].
    { cbn [app] in Hc. subst s. apply Forall_cons in Hs as [? _]. lia. }
    injection Hc as -> Hc. destruct base as [|c base].
    { cbn [app] in Hc. subst s. apply Forall_cons in Hs as [? _]. lia. }
    injection Hc as -> <-. destruct (IH (length base) ltac:(simpl; lia) base eq_refl) as [pre ->].
    by exists (107 :: pre).
  - destruct (IH (length base) ltac:(simpl; lia) base eq_refl) as [pre ->].
    by exists (fold_byte b :: pre).
Qed.

(** ** Little-endian words *)

Lemma le_val_bound b : wf_bytes b -> 0 <= le_val b < 256 ^ Z.of_nat (length b).
Proof.
  induction 1 as [|x b Hx Hb IH]; cbn [le_val length]; [simpl; lia|].
  rewrite Nat2Z.inj_succ, Z.pow_succ_r by lia. unfold is_byte in Hx. lia.
Qed.

Lemma le_val_le_bytes n v : 0 <= v < 256 ^ Z.of_nat n -> le_val (le_bytes n v) = v.
Proof.
  revert v. induction n as [|n IH]; intros v Hv; simpl; [simpl in Hv; lia|].
  rewrite Nat2Z.inj_succ, Z.pow_succ_r in Hv by lia.
  rewrite IH.
  - pose proof (Z.div_mod v 256). lia.
  - split; [apply Z.div_pos; lia|apply Z.div_lt_upper_bound; lia].
Qed.

Lemma le_bytes_length n v : length (le_bytes n v) = n.
Proof. revert v. induction n as [|n IH]; intros v; simpl; [done|]. by rewrite IH. Qed.
