(* ===== verification/Crc32.v ===== *)
(** [hash/crc32.ChecksumIEEE]: the reflected CRC-32 of the IEEE polynomial,
    bit by bit, with the range lemma the yEnc trailer needs. *)
From Stdlib Require Import ZArith Lia String.
From stdpp Require Import prelude list strings.
From S2P Require Import Prelude GoStrings.

Open Scope Z_scope.

Definition crc_poly : Z := 0xEDB88320.
Definition crc_bit (c : Z) : Z :=
  if Z.odd c then Z.lxor (Z.shiftr c 1) crc_poly else Z.shiftr c 1.
Definition crc_byte (c b : Z) : Z :=
  crc_bit (crc_bit (crc_bit (crc_bit (crc_bit (crc_bit (crc_bit (crc_bit (Z.lxor c b)))))))).
Definition ChecksumIEEE (data : bytes) : Z :=
  Z.lxor (fold_left crc_byte data 0xFFFFFFFF) 0xFFFFFFFF.

(** * Range *)

Lemma lxor_u32 a b : 0 <= a < 2 ^ 32 -> 0 <= b < 2 ^ 32 -> 0 <= Z.lxor a b < 2 ^ 32.
Proof.
  intros Ha Hb.
  assert (Hn : 0 <= Z.lxor a b) by (apply Z.lxor_nonneg; lia).
  split; [done|].
  destruct (decide (Z.lxor a b = 0)) as [->|Hne]; [lia|].
  apply Z.log2_lt_pow2; [lia|].
  pose proof (Z.log2_lxor a b ltac:(lia) ltac:(lia)).
  assert (forall c, 0 <= c < 2 ^ 32 -> Z.log2 c < 32) as Hl.
  { intros c Hc. destruct (decide (c = 0)) as [->|]; [by vm_compute|].
    apply Z.log2_lt_pow2; lia. }
  pose proof (Hl a Ha). pose proof (Hl b Hb). lia.
Qed.

Lemma crc_bit_u32 c : 0 <= c < 2 ^ 32 -> 0 <= crc_bit c < 2 ^ 32.
Proof.
  intros Hc. unfold crc_bit.
  assert (0 <= Z.shiftr c 1 < 2 ^ 32).
  { rewrite Z.shiftr_div_pow2 by lia. split; [apply Z.div_pos; lia|].
    apply Z.div_lt_upper_bound; lia. }
  case_if; [|done]. apply lxor_u32; [done|]. unfold crc_poly. lia.
Qed.

Lemma crc_byte_u32 c b : 0 <= c < 2 ^ 32 -> is_byte b -> 0 <= crc_byte c b < 2 ^ 32.
Proof.
  intros Hc Hb. unfold crc_byte, is_byte in *. do 8 apply crc_bit_u32. apply lxor_u32; lia.
Qed.

Lemma ChecksumIEEE_u32 data : wf_bytes data -> 0 <= ChecksumIEEE data < 2 ^ 32.
Proof.
  intros Hd. unfold ChecksumIEEE. apply lxor_u32; [|lia].
  assert (H : 0 <= 0xFFFFFFFF < 2 ^ 32) by lia. revert H.
  generalize 0xFFFFFFFF. induction Hd as [|b data Hb Hd IH]; intros c Hc; simpl; [done|].
  apply IH, crc_byte_u32; done.
Qed.

(** The check value of the CRC-32 catalogue. *)
Example ChecksumIEEE_check : ChecksumIEEE (str "123456789") = 0xCBF43926.
Proof. vm_compute. reflexivity. Qed.
