(* ===== verification/Yenc.v ===== *)
(** The yEnc codec: internal/usenet/yenc/decode.go (the line-scanning
    decoder), integrity.go (the envelope checks) and encode.go (the encoder).

    The decoder's scanner is [bufio.Scanner] over the article: the lines it
    yields, and whether it stops on a line that does not fit its buffer. *)
From Stdlib Require Import ZArith Lia Ascii String.
From stdpp Require Import prelude list strings.
From S2P Require Import Prelude GoStrings Crc32.

Open Scope Z_scope.

(** * Data *)

Record Part := mkPart {
  pName : bytes;
  pNumber : Z;
  pTotal : Z;
  pBegin : Z;
  pEnd : Z;
  pSize : Z;
  pCRC32 : Z;
  pData : bytes
}.
Definition zeroPart : Part := mkPart [] 0 0 0 0 0 0 [].

(** The errors the package returns, by message. *)
Inductive yerr :=
| ENoHeader                  (* no =ybegin header found *)
| ERead                      (* read error *)
| EMissing (key : bytes)     (* missing <key> *)
| EInvalid (key : bytes)     (* invalid <key> *)
| ENoTrailer                 (* missing =yend trailer *)
| ETrailerSize               (* trailer size differs from decoded length *)
| EFileSize                  (* invalid file size *)
| EFileSizeDiffers           (* file size differs from decoded length *)
| EBounds                    (* invalid multipart bounds *)
| ENumber                    (* inconsistent multipart number *)
| ECRC (expected got : Z).   (* CRC32 mismatch *)

Record envelope := mkEnv {
  ended : bool;
  checksumPresent : bool;
  hasRange : bool;
  elength : Z;
  enumber : Z;
  eerr : option yerr
}.
Definition zeroEnv : envelope := mkEnv false false false 0 0 None.

Definition set_err (e : envelope) (x : yerr) : envelope :=
  mkEnv (ended e) (checksumPresent e) (hasRange e) (elength e) (enumber e) (Some x).
Definition set_Data (p : Part) (d : bytes) : Part :=
  mkPart (pName p) (pNumber p) (pTotal p) (pBegin p) (pEnd p) (pSize p) (pCRC32 p) d.
Definition set_CRC32 (p : Part) (c : Z) : Part :=
  mkPart (pName p) (pNumber p) (pTotal p) (pBegin p) (pEnd p) (pSize p) c (pData p).
Definition set_Range (p : Part) (b e : Z) : Part :=
  mkPart (pName p) (pNumber p) (pTotal p) b e (pSize p) (pCRC32 p) (pData p).

(** * Header parameters *)

(** One round of [paramValue]'s loop per field; a field ends at a blank.  The
    loop shortens the line every round, so its length bounds the rounds. *)
Fixpoint param_loop (fuel : nat) (line key : bytes) : option bytes :=
  match fuel with
  | O => None
  | S f =>
      match line with
      | [] => None
      | _ =>
          let line1 := trim_left_blank line in
          let '(field, rest) := span (fun b => negb (is_blank b)) line1 in
          if has_prefix (str "name=") field then None
          else match cut_prefix (key ++ str "=") field with
               | Some v => Some v
               | None => param_loop f rest key
               end
      end
  end.
Definition paramValue (line key : bytes) : option bytes :=
  param_loop (length line) line key.

Definition requiredDecimal (line key : bytes) : result yerr Z :=
  match paramValue line key with
  | None => Err (EMissing key)
  | Some [] => Err (EMissing key)
  | Some v =>
      if forallb is_digit v then
        match ParseInt v with
        | (n, NumOk) => Ok n
        | _ => Err (EInvalid key)
        end
      else Err (EInvalid key)
  end.

Definition getIntParam (line key : bytes) : Z :=
  match paramValue line key with
  | None => 0
  | Some v => fst (Atoi v)
  end.

(** [getHexParam]: the first occurrence of "key=", or the next one when the
    first is a suffix of a longer key, must follow a blank. *)
Definition getHexParam (line key : bytes) : Z :=
  let prefix := key ++ str "=" in
  let at_boundary (i : nat) : bool :=
    match i with
    | O => true
    | S j => match line !! j with Some b => is_blank b | None => true end
    end in
  let read (i : nat) : Z :=
    let v := fst (span (fun b => match hex_val b with
                                 | Some d => d <? 16 | None => false end)
                       (drop (i + length prefix) line)) in
    match v with
    | [] => 0
    | _ => match ParseUint v 16 32 with (n, NumOk) => n | _ => 0 end
    end in
  match index prefix line with
  | None => 0
  | Some idx =>
      if at_boundary idx then read idx
      else match index prefix (drop (S idx) line) with
           | None => 0
           | Some next =>
               let idx' := (idx + 1 + next)%nat in
               if at_boundary idx' then read idx' else 0
           end
  end.

Definition parseYBegin (p : Part) (line : bytes) : Part :=
  let name := match index (str "name=") line with
              | Some i => TrimSpace (drop (i + 5) line)
              | None => pName p
              end in
  mkPart name (getIntParam line (str "part")) (getIntParam line (str "total"))
    (pBegin p) (pEnd p) (getIntParam line (str "size")) (pCRC32 p) (pData p).

(** * The envelope *)

Fixpoint check_decimals (e : envelope) (line : bytes) (keys : list bytes) : envelope :=
  match keys with
  | [] => e
  | k :: ks =>
      match paramValue line k with
      | None => check_decimals e line ks
      | Some _ =>
          match requiredDecimal line k with
          | Err x => set_err e x
          | Ok _ => check_decimals e line ks
          end
      end
  end.

Definition envelope_begin (e : envelope) (p : Part) (line : bytes) : envelope * Part :=
  (check_decimals e line [str "size"; str "part"; str "total"], parseYBegin p line).

Definition envelope_part (e : envelope) (p : Part) (line : bytes) : envelope * Part :=
  let e1 := mkEnv (ended e) (checksumPresent e) true (elength e) (enumber e) (eerr e) in
  match requiredDecimal line (str "begin") with
  | Err x => (set_err e1 x, set_Range p 0 (pEnd p))
  | Ok b =>
      match requiredDecimal line (str "end") with
      | Err x => (set_err e1 x, set_Range p b 0)
      | Ok n => (e1, set_Range p b n)
      end
  end.

Fixpoint trailer_crcs (e : envelope) (p : Part) (line : bytes) (keys : list bytes)
    : envelope * Part :=
  match keys with
  | [] => (e, p)
  | k :: ks =>
      match paramValue line k with
      | None => trailer_crcs e p line ks
      | Some v =>
          match ParseUint v 16 32 with
          | (crc, NumOk) =>
              if Nat.eqb (length v) 8 then
                if negb (checksumPresent e)
                   && (bytes_eqb k (str "pcrc32") || (pTotal p <=? 1))
                then trailer_crcs
                       (mkEnv (ended e) true (hasRange e) (elength e) (enumber e) (eerr e))
                       (set_CRC32 p crc) line ks
                else trailer_crcs e p line ks
              else (set_err e (EInvalid k), p)
          | _ => (set_err e (EInvalid k), p)
          end
      end
  end.

Definition envelope_trailer (e : envelope) (p : Part) (line : bytes) : envelope * Part :=
  let e1 len num := mkEnv true (checksumPresent e) (hasRange e) len num (eerr e) in
  match requiredDecimal line (str "size") with
  | Err x => (set_err (e1 0 (enumber e)) x, p)
  | Ok len =>
      if negb (pNumber p =? 0) then
        match requiredDecimal line (str "part") with
        | Err x => (set_err (e1 len (enumber e)) x, p)
        | Ok n => trailer_crcs (e1 len n) p line [str "pcrc32"; str "crc32"]
        end
      else trailer_crcs (e1 len (enumber e)) p line [str "pcrc32"; str "crc32"]
  end.

Definition validateMultipart (e : envelope) (p : Part) : option yerr :=
  if negb (hasRange e) || (pBegin p <? 1) || (pEnd p <? pBegin p) || (pSize p <? pEnd p)
     || negb (wrap_i64 (pEnd p - pBegin p + 1) =? elength e)
  then Some EBounds
  else if (pNumber p <? 1) || ((0 <? pTotal p) && (pTotal p <? pNumber p))
          || negb (enumber e =? pNumber p)
  then Some ENumber
  else None.

Definition validateBounds (e : envelope) (p : Part) : option yerr :=
  if pSize p <? 0 then Some EFileSize
  else if negb (pNumber p =? 0) || (1 <? pTotal p) || hasRange e
  then validateMultipart e p
  else if negb (pSize p =? 0) && negb (pSize p =? elength e)
  then Some EFileSizeDiffers
  else None.

Definition validate (e : envelope) (p : Part) : option yerr :=
  match eerr e with
  | Some x => Some x
  | None =>
      if negb (ended e) then Some ENoTrailer
      else if negb (elength e =? Z.of_nat (length (pData p))) then Some ETrailerSize
      else match validateBounds e p with
           | Some x => Some x
           | None =>
               if checksumPresent e then
                 let computed := ChecksumIEEE (pData p) in
                 if computed =? pCRC32 p then None else Some (ECRC (pCRC32 p) computed)
               else None
           end
  end.

(** * decode.go *)

Fixpoint decode_line (escaped : bool) (line : bytes) : bytes :=
  match line with
  | [] => []
  | b :: l =>
      if escaped then wrap_u8 (b - 106) :: decode_line false l
      else if b =? EQ then decode_line true l
      else wrap_u8 (b - 42) :: decode_line false l
  end.
Definition decodeLine (line : bytes) : bytes := decode_line false line.

Definition normalizeSinglePart (p : Part) : Part :=
  if negb (pBegin p =? 0) || negb (pEnd p =? 0) || Nat.eqb (length (pData p)) 0 then p
  else
    let n := Z.of_nat (length (pData p)) in
    mkPart (pName p) (pNumber p) (pTotal p) 1 n
      (if pSize p =? 0 then n else pSize p) (pCRC32 p) (pData p).

(** [bufio.ScanLines]: lines end at LF, a last line without one counts when it
    is not empty, and one trailing CR is dropped. *)
Fixpoint split_lines (s : bytes) : list bytes :=
  match s with
  | [] => []
  | b :: s' =>
      if b =? LF then [] :: split_lines s'
      else match split_lines s' with
           | [] => [[b]]
           | l :: ls => (b :: l) :: ls
           end
  end.
Definition drop_cr (l : bytes) : bytes :=
  match rev l with
  | c :: r => if c =? CR then rev r else l
  | [] => l
  end.

(** The scanner gives up on a line of [maxToken] bytes or more: the lines
    before it, and whether it was met. *)
Definition maxToken : Z := 10 * 1024 * 1024.
Fixpoint scan (max : Z) (raw : list bytes) : list bytes * bool :=
  match raw with
  | [] => ([], false)
  | l :: ls =>
      if Z.of_nat (length l) <? max then
        let '(r, t) := scan max ls in (drop_cr l :: r, t)
      else ([], true)
  end.

Fixpoint seek_begin (lines : list bytes) : option (bytes * list bytes) :=
  match lines with
  | [] => None
  | l :: ls => if has_prefix (str "=ybegin ") l then Some (l, ls) else seek_begin ls
  end.

Definition append_data (p : Part) (line : bytes) : Part :=
  set_Data p (pData p ++ decodeLine line).

(** Phase 3; the last component says that the scanner ran out of lines. *)
Fixpoint data_loop (e : envelope) (p : Part) (lines : list bytes)
    : envelope * Part * bool :=
  if ended e then (e, p, false)
  else match lines with
       | [] => (e, p, true)
       | l :: ls =>
           if has_prefix (str "=yend ") l then
             let '(e', p') := envelope_trailer e p l in (e', p', false)
           else data_loop e (append_data p l) ls
       end.

Definition decode_scanned (lines : list bytes) (toolong : bool) : result yerr Part :=
  match seek_begin lines with
  | None => Err ENoHeader
  | Some (l0, rest) =>
      let '(e0, p0) := envelope_begin zeroEnv zeroPart l0 in
      if bytes_eqb (pName p0) [] && (pSize p0 =? 0) then Err ENoHeader
      else
        let '(e, p, exhausted) :=
          match rest with
          | [] => data_loop e0 p0 []
          | l1 :: rest' =>
              if has_prefix (str "=ypart ") l1 then
                let '(e1, p1) := envelope_part e0 p0 l1 in data_loop e1 p1 rest'
              else if has_prefix (str "=yend ") l1 then
                let '(e1, p1) := envelope_trailer e0 p0 l1 in data_loop e1 p1 rest'
              else data_loop e0 (append_data p0 l1) rest'
          end in
        if exhausted && toolong then Err ERead
        else match validate e p with
             | Some x => Err x
             | None => Ok (normalizeSinglePart p)
             end
  end.

Definition Decode (body : bytes) : result yerr Part :=
  let '(lines, toolong) := scan maxToken (split_lines body) in
  decode_scanned lines toolong.
Definition DecodeBytes (data : bytes) : result yerr Part := Decode data.

(** * encode.go *)

Definition defaultLineLength : Z := 128.
Definition CRLF : bytes := [CR; LF].

Definition encodeByte (b : Z) : bytes :=
  let e := wrap_u8 (b + 42) in
  if (e =? 0) || (e =? LF) || (e =? CR) || (e =? EQ) then [EQ; wrap_u8 (e + 64)] else [e].

Fixpoint write_encoded (col : Z) (data : bytes) (lineLen : Z) : bytes :=
  match data with
  | [] => if 0 <? col then CRLF else []
  | b :: d =>
      let seq := encodeByte b in
      let n := Z.of_nat (length seq) in
      if lineLen <? col + n then CRLF ++ seq ++ write_encoded n d lineLen
      else seq ++ write_encoded (col + n) d lineLen
  end.
Definition writeEncodedData (data : bytes) (lineLen : Z) : bytes :=
  write_encoded 0 data lineLen.

Definition Encode (name : bytes) (partNum total begin end_ fileSize : Z) (data : bytes)
    : bytes :=
  let multipart := 1 <? total in
  let crc := ChecksumIEEE data in
  (if multipart then
     str "=ybegin part=" ++ Itoa partNum ++ str " total=" ++ Itoa total ++ str " line="
       ++ Itoa defaultLineLength ++ str " size=" ++ Itoa fileSize ++ str " name=" ++ name
       ++ CRLF
       ++ str "=ypart begin=" ++ Itoa begin ++ str " end=" ++ Itoa end_ ++ CRLF
   else
     str "=ybegin line=" ++ Itoa defaultLineLength ++ str " size=" ++ Itoa fileSize
       ++ str " name=" ++ name ++ CRLF)
  ++ writeEncodedData data defaultLineLength
  ++ (if multipart then
        str "=yend size=" ++ Itoa (Z.of_nat (length data)) ++ str " part=" ++ Itoa partNum
          ++ str " pcrc32=" ++ hex8 crc ++ CRLF
      else
        str "=yend size=" ++ Itoa (Z.of_nat (length data)) ++ str " crc32=" ++ hex8 crc
          ++ CRLF).

Example Decode_Encode_small :
  Decode (Encode (str "a b.mkv") 2 3 6 10 12 (str "hello")) =
  Ok (mkPart (str "a b.mkv") 2 3 6 10 12 (ChecksumIEEE (str "hello")) (str "hello")).
Proof. vm_compute. reflexivity. Qed.
Example Decode_single_small :
  Decode (Encode (str "x") 1 1 1 4 0 [19; 224; 211; 0]) =
  Ok (mkPart (str "x") 0 0 1 4 4 (ChecksumIEEE [19; 224; 211; 0]) [19; 224; 211; 0]).
Proof. vm_compute. reflexivity. Qed.
