(* ===== verification/YencInPlace.v ===== *)
(** internal/usenet/yenc/decode_inplace.go: the decoder that overwrites the
    article buffer with what it decodes, fed in any number of steps.

    The buffer is explicit state: every operation takes it and returns it as
    written.  The proofs relate the decoder to a line machine ([lstep]) that
    only appends decoded lines: decoding in place never overtakes the bytes it
    still has to read, so both see the same lines. *)
From Stdlib Require Import ZArith Lia Ascii String.
From stdpp Require Import prelude list strings.
From S2P Require Import Prelude GoStrings Crc32 Yenc.

Open Scope Z_scope.

(** * Model *)

Inductive decodePhase := seekingBegin | afterBegin | inData | phaseEnded | noHeader.

Record InPlaceDecoder := mkDec {
  dpart : Part;
  dpos : nat;
  dw : nat;
  dphase : decodePhase;
  denv : envelope
}.
Definition zeroDecoder : InPlaceDecoder := mkDec zeroPart 0 0 seekingBegin zeroEnv.

(** The loop of [decodeLineInto] over [n] bytes from [i], writing at [w].  The
    byte is read from the buffer as it is when its turn comes. *)
Fixpoint decode_into (n : nat) (buf : bytes) (w i : nat) (escaped : bool) : bytes * nat :=
  match n with
  | O => (buf, w)
  | S n' =>
      let b := nth i buf 0 in
      if escaped then decode_into n' (<[w := wrap_u8 (b - 106)]> buf) (S w) (S i) false
      else if b =? EQ then decode_into n' buf w (S i) true
      else decode_into n' (<[w := wrap_u8 (b - 42)]> buf) (S w) (S i) false
  end.
Definition decodeLineInto (buf : bytes) (w start stop : nat) : bytes * nat :=
  decode_into (stop - start) buf w start false.

Definition slice (buf : bytes) (start stop : nat) : bytes := take (stop - start) (drop start buf).

(** Where the line [start, stop0) ends once a trailing CR is dropped. *)
Definition trim_cr (body : bytes) (start stop0 : nat) : nat :=
  if Nat.ltb start stop0 && (nth (stop0 - 1) body 0 =? CR) then (stop0 - 1)%nat else stop0.

(** [line]: consume the line between [start] and [stop0] of the body. *)
Definition ip_line (d : InPlaceDecoder) (body : bytes) (start stop0 : nat)
    : InPlaceDecoder * bytes :=
  let stop := trim_cr body start stop0 in
  let l := slice body start stop in
  let trailer :=
    let '(e, p) := envelope_trailer (denv d) (dpart d) l in
    (mkDec p (dpos d) (dw d) phaseEnded e, body) in
  let data :=
    let '(body', w') := decodeLineInto body (dw d) start stop in
    (mkDec (dpart d) (dpos d) w' inData (denv d), body') in
  match dphase d with
  | seekingBegin =>
      if has_prefix (str "=ybegin ") l then
        let '(e, p) := envelope_begin (denv d) (dpart d) l in
        let ph := if bytes_eqb (pName p) [] && (pSize p =? 0) then noHeader else afterBegin in
        (mkDec p (dpos d) (dw d) ph e, body)
      else (d, body)
  | afterBegin =>
      if has_prefix (str "=ypart ") l then
        let '(e, p) := envelope_part (denv d) (dpart d) l in
        (mkDec p (dpos d) (dw d) inData e, body)
      else if has_prefix (str "=yend ") l then trailer
      else data
  | inData => if has_prefix (str "=yend ") l then trailer else data
  | phaseEnded | noHeader => (d, body)
  end.

Definition set_pos (d : InPlaceDecoder) (pos : nat) : InPlaceDecoder :=
  mkDec (dpart d) pos (dw d) (dphase d) (denv d).

(** [bytes.IndexByte(s, '\n')] *)
Fixpoint index_lf (s : bytes) : option nat :=
  match s with
  | [] => None
  | b :: s' => if b =? LF then Some O
               else match index_lf s' with Some i => Some (S i) | None => None end
  end.

(** Every round of [Feed] consumes at least the line break it found. *)
Fixpoint feed_loop (fuel : nat) (d : InPlaceDecoder) (body : bytes) : InPlaceDecoder * bytes :=
  match fuel with
  | O => (d, body)
  | S f =>
      if Nat.ltb (dpos d) (length body) then
        match index_lf (drop (dpos d) body) with
        | None => (d, body)
        | Some i =>
            let '(d', body') := ip_line d body (dpos d) (dpos d + i) in
            feed_loop f (set_pos d' (dpos d + i + 1)) body'
        end
      else (d, body)
  end.
Definition Feed (d : InPlaceDecoder) (body : bytes) : InPlaceDecoder * bytes :=
  feed_loop (length body) d body.

(** Start, end and decoded byte count, once the headers place the article. *)
Definition Progress (d : InPlaceDecoder) : option (Z * Z * nat) :=
  match dphase d with
  | inData | phaseEnded =>
      let p := dpart d in
      if (pBegin p =? 0) && (pEnd p =? 0) then Some (0, pSize p, dw d)
      else if pBegin p <? 1 then None
      else Some (pBegin p - 1, pEnd p, dw d)
  | _ => None
  end.

Definition Finish (d : InPlaceDecoder) (body : bytes) : result yerr Part :=
  let '(d1, body1) := Feed d body in
  let '(d2, body2) :=
    if Nat.ltb (dpos d1) (length body1) then
      let '(d', body') := ip_line d1 body1 (dpos d1) (length body1) in
      (set_pos d' (length body1), body')
    else (d1, body1) in
  match dphase d2 with
  | seekingBegin | noHeader => Err ENoHeader
  | _ =>
      let p := set_Data (dpart d2) (take (dw d2) body2) in
      match validate (denv d2) p with
      | Some x => Err x
      | None => Ok (normalizeSinglePart p)
      end
  end.

Definition DecodeInPlace (buf : bytes) : result yerr Part := Finish zeroDecoder buf.

(** A body arriving in chunks: each chunk is appended to the buffer as the
    decoder left it, then fed. *)
Fixpoint feed_chunks (d : InPlaceDecoder) (body : bytes) (chunks : list bytes)
    : InPlaceDecoder * bytes :=
  match chunks with
  | [] => (d, body)
  | c :: cs => let '(d', body') := Feed d (body ++ c) in feed_chunks d' body' cs
  end.

(** * The line machine *)

Record lstate := mkL { lphase : decodePhase; lenv : envelope; lpart : Part }.
Definition lzero : lstate := mkL seekingBegin zeroEnv zeroPart.

Definition lstep (s : lstate) (l : bytes) : lstate :=
  let trailer := let '(e, p) := envelope_trailer (lenv s) (lpart s) l in
                 mkL phaseEnded e p in
  let data := mkL inData (lenv s) (append_data (lpart s) l) in
  match lphase s with
  | seekingBegin =>
      if has_prefix (str "=ybegin ") l then
        let '(e, p) := envelope_begin (lenv s) (lpart s) l in
        mkL (if bytes_eqb (pName p) [] && (pSize p =? 0) then noHeader else afterBegin) e p
      else s
  | afterBegin =>
      if has_prefix (str "=ypart ") l then
        let '(e, p) := envelope_part (lenv s) (lpart s) l in mkL inData e p
      else if has_prefix (str "=yend ") l then trailer
      else data
  | inData => if has_prefix (str "=yend ") l then trailer else data
  | phaseEnded | noHeader => s
  end.

Definition lrun (s : lstate) (lines : list bytes) : lstate := fold_left lstep lines s.

Definition lfinish (s : lstate) : result yerr Part :=
  match lphase s with
  | seekingBegin | noHeader => Err ENoHeader
  | _ => match validate (lenv s) (lpart s) with
         | Some x => Err x
         | None => Ok (normalizeSinglePart (lpart s))
         end
  end.

(** * Lines of a body *)

Lemma index_lf_Some s i :
  index_lf s = Some i -> (LF ∉ take i s) /\ s = take i s ++ LF :: drop (S i) s.
Proof.
  revert i; induction s as [|b s IH]; intros i; simpl; [done|].
  destruct (Z.eqb_spec b LF) as [->|Hb].
  - intros [= <-]. split; [apply not_elem_of_nil|done].
  - destruct (index_lf s) as [j|]; [|done]. intros [= <-].
    destruct (IH j eq_refl) as [H1 H2]. simpl. split.
    + by apply not_elem_of_cons.
    + by f_equal.
Qed.

Lemma index_lf_None s : index_lf s = None -> LF ∉ s.
Proof.
  induction s as [|b s IH]; simpl; intros H; [apply not_elem_of_nil|].
  destruct (Z.eqb_spec b LF); [done|]. destruct (index_lf s); [done|].
  apply not_elem_of_cons. split; [done|by apply IH].
Qed.

Lemma split_lines_cons l s :
  LF ∉ l -> split_lines (l ++ LF :: s) = l :: split_lines s.
Proof.
  induction l as [|b l IH]; intros H; simpl; [done|].
  apply not_elem_of_cons in H as [Hb Hl].
  destruct (Z.eqb_spec b LF); [congruence|]. by rewrite IH.
Qed.

Lemma split_lines_last l : LF ∉ l -> l <> [] -> split_lines l = [l].
Proof.
  induction l as [|b l IH]; intros H Hne; [done|]. simpl.
  apply not_elem_of_cons in H as [Hb Hl].
  destruct (Z.eqb_spec b LF); [congruence|].
  destruct l as [|c l]; [done|]. by rewrite IH.
Qed.

(** The CR rule of [ip_line] is [drop_cr] of the slice. *)
Lemma drop_cr_snoc l c : drop_cr (l ++ [c]) = if c =? CR then l else l ++ [c].
Proof.
  unfold drop_cr. rewrite rev_app_distr. simpl. case_if; [by rewrite rev_involutive|done].
Qed.

Lemma take_snoc_nth (s : bytes) n :
  (n < length s)%nat -> take (S n) s = take n s ++ [nth n s 0].
Proof.
  intros H. destruct (lookup_lt_is_Some_2 s n H) as [x Hx].
  rewrite (take_S_r _ _ x Hx). do 2 f_equal. symmetry. by apply nth_lookup_Some.
Qed.

Lemma slice_drop_cr body start stop0 :
  (start <= stop0 <= length body)%nat ->
  let stop := trim_cr body start stop0 in
  slice body start stop = drop_cr (slice body start stop0) /\ (start <= stop <= stop0)%nat.
Proof.
  intros H. unfold trim_cr. destruct (Nat.ltb_spec start stop0) as [Hlt|Hge]; simpl.
  - unfold slice. destruct (stop0 - start)%nat as [|n] eqn:En; [lia|].
    assert (nth (stop0 - 1) body 0 = nth n (drop start body) 0) as Hn.
    { rewrite !nth_lookup, lookup_drop. do 2 f_equal. lia. }
    rewrite Hn. rewrite (take_snoc_nth (drop start body) n) by (rewrite length_drop; lia).
    rewrite drop_cr_snoc. case_if; split; try lia.
    + f_equal. lia.
    + rewrite En. apply take_snoc_nth. rewrite length_drop; lia.
  - assert (stop0 = start) as -> by lia. unfold slice. rewrite Nat.sub_diag.
    split; [done|lia].
Qed.

(** * Decoding in place *)

Lemma decode_into_spec n buf w i esc :
  (w <= i)%nat -> (i + n <= length buf)%nat ->
  let '(buf', w') := decode_into n buf w i esc in
  take w' buf' = take w buf ++ decode_line esc (slice buf i (i + n)) /\
  drop (i + n) buf' = drop (i + n) buf /\
  length buf' = length buf /\ (w' <= i + n)%nat.
Proof.
  revert buf w i esc. induction n as [|n IH]; intros buf w i esc Hw Hi; cbn [decode_into].
  { unfold slice. rewrite Nat.add_0_r, Nat.sub_diag. simpl. rewrite app_nil_r. auto with lia. }
  assert (Hs : slice buf i (i + S n) = nth i buf 0 :: slice buf (S i) (S i + n)).
  { unfold slice. replace (i + S n - i)%nat with (S n) by lia.
    replace (S i + n - S i)%nat with n by lia.
    destruct (lookup_lt_is_Some_2 buf i ltac:(lia)) as [x Hx].
    rewrite (drop_S _ x _ Hx). simpl. f_equal. symmetry. by apply nth_lookup_Some. }
  assert (Hwr : forall v, (w < length buf)%nat ->
            take (S w) (<[w := v]> buf) = take w buf ++ [v] /\
            slice (<[w := v]> buf) (S i) (S i + n) = slice buf (S i) (S i + n) /\
            drop (S i + n) (<[w := v]> buf) = drop (i + S n) buf).
  { intros v Hv. repeat split.
    - rewrite (take_S_r _ w v) by (by apply list_lookup_insert_eq).
      by rewrite take_insert_ge by lia.
    - unfold slice. by rewrite drop_insert_lt by lia.
    - rewrite drop_insert_lt by lia. f_equal. lia. }
  rewrite Hs. cbn [decode_line]. replace (i + S n)%nat with (S i + n)%nat in * by lia.
  assert (Hcase : forall v,
    let '(buf', w') := decode_into n (<[w := v]> buf) (S w) (S i) false in
    take w' buf' = take w buf ++ v :: decode_line false (slice buf (S i) (S i + n)) /\
    drop (S i + n) buf' = drop (S i + n) buf /\
    length buf' = length buf /\ (w' <= S i + n)%nat).
  { intros v. destruct (Hwr v ltac:(lia)) as (H1 & H2 & H3).
    specialize (IH (<[w := v]> buf) (S w) (S i) false ltac:(lia)
                   ltac:(rewrite length_insert; lia)).
    destruct (decode_into _ _ _ _ _) as [buf' w']. destruct IH as (I1 & I2 & I3 & I4).
    rewrite I1, H1, H2, I2, H3, I3, length_insert, <- app_assoc. auto. }
  destruct esc; [apply Hcase|]. destruct (nth i buf 0 =? EQ); [|apply Hcase].
  specialize (IH buf w (S i) true ltac:(lia) ltac:(lia)).
  destruct (decode_into _ _ _ _ _) as [buf' w']. done.
Qed.

(** The decoder [d] over [body] has consumed exactly the lines the machine
    state [s] has, and what is left to read of the original is intact. *)
Definition simulates (orig : bytes) (d : InPlaceDecoder) (body : bytes) (s : lstate) : Prop :=
  dphase d = lphase s /\ denv d = lenv s /\
  set_Data (dpart d) (take (dw d) body) = lpart s /\ pData (dpart d) = [] /\
  (dw d <= dpos d <= length orig)%nat /\
  length body = length orig /\ drop (dpos d) body = drop (dpos d) orig.

Lemma set_Data_id p : set_Data p (pData p) = p.
Proof. by destruct p. Qed.

(** The envelope readers neither read nor change [Data]. *)
Lemma trailer_crcs_Data e p line keys d :
  trailer_crcs e (set_Data p d) line keys =
  (fst (trailer_crcs e p line keys), set_Data (snd (trailer_crcs e p line keys)) d).
Proof.
  revert e p. induction keys as [|k ks IH]; intros e p; simpl; [done|].
  destruct (paramValue line k); [|apply IH]. destruct (ParseUint _ _ _) as [crc []]; try done.
  case_if; [|done]. case_if; [|apply IH]. rewrite <- IH. done.
Qed.

Lemma envelope_trailer_Data e p line d :
  envelope_trailer e (set_Data p d) line =
  (fst (envelope_trailer e p line), set_Data (snd (envelope_trailer e p line)) d).
Proof.
  unfold envelope_trailer. destruct (requiredDecimal line (str "size")); [|done].
  change (pNumber (set_Data p d)) with (pNumber p).
  case_if; [destruct (requiredDecimal line (str "part")); [|done]|]; apply trailer_crcs_Data.
Qed.

Lemma envelope_part_Data e p line d :
  envelope_part e (set_Data p d) line =
  (fst (envelope_part e p line), set_Data (snd (envelope_part e p line)) d).
Proof.
  unfold envelope_part. destruct (requiredDecimal line (str "begin")); [|done].
  by destruct (requiredDecimal line (str "end")).
Qed.

Lemma trailer_crcs_keeps e p line keys :
  pData (snd (trailer_crcs e p line keys)) = pData p.
Proof.
  revert e p. induction keys as [|k ks IH]; intros e p; simpl; [done|].
  destruct (paramValue line k); [|apply IH]. destruct (ParseUint _ _ _) as [crc []]; try done.
  case_if; [|done]. case_if; by rewrite IH.
Qed.

Lemma envelope_trailer_keeps e p line : pData (snd (envelope_trailer e p line)) = pData p.
Proof.
  unfold envelope_trailer. destruct (requiredDecimal line (str "size")); [|done].
  case_if; [destruct (requiredDecimal line (str "part")); [|done]|]; apply trailer_crcs_keeps.
Qed.

Lemma envelope_part_keeps e p line : pData (snd (envelope_part e p line)) = pData p.
Proof.
  unfold envelope_part. destruct (requiredDecimal line (str "begin")); [|done].
  by destruct (requiredDecimal line (str "end")).
Qed.

Lemma parseYBegin_Data p line d : parseYBegin (set_Data p d) line = set_Data (parseYBegin p line) d.
Proof. done. Qed.

Lemma drop_drop_eq (a b : bytes) n m :
  (n <= m)%nat -> drop n a = drop n b -> drop m a = drop m b.
Proof.
  intros Hle H. replace m with (n + (m - n))%nat by lia. by rewrite <- !drop_drop, H.
Qed.

Section OneLine.
Context (orig : bytes) (d : InPlaceDecoder) (body : bytes) (s : lstate) (stop0 pos' : nat).
Context (Hsim : simulates orig d body s).
Context (Hstop : (dpos d <= stop0)%nat) (Hpos : (stop0 <= pos' <= length orig)%nat).
Abbreviation l := (drop_cr (slice orig (dpos d) stop0)).

Lemma sim_skip : simulates orig (set_pos d pos') body s.
Proof.
  destruct Hsim as (Hph & Henv & Hpart & Hnil & Hw & Hlen & Hdrop).
  unfold simulates, set_pos; simpl. repeat split; try done; try lia.
  apply (drop_drop_eq _ _ (dpos d)); [lia|done].
Qed.

Lemma sim_line : slice body (dpos d) (trim_cr body (dpos d) stop0) = l /\
  (dpos d <= trim_cr body (dpos d) stop0 <= stop0)%nat.
Proof.
  destruct Hsim as (Hph & Henv & Hpart & Hnil & Hw & Hlen & Hdrop).
  destruct (slice_drop_cr body (dpos d) stop0 ltac:(lia)) as [-> Hle].
  split; [|done]. unfold slice. by rewrite Hdrop.
Qed.

Lemma sim_data :
  let '(body', w') := decodeLineInto body (dw d) (dpos d) (trim_cr body (dpos d) stop0) in
  simulates orig (mkDec (dpart d) pos' w' inData (denv d)) body'
    (mkL inData (lenv s) (append_data (lpart s) l)).
Proof.
  destruct sim_line as [Hl Hle].
  destruct Hsim as (Hph & Henv & Hpart & Hnil & Hw & Hlen & Hdrop).
  set (stop := trim_cr _ _ _) in *. clearbody stop.
  pose proof (decode_into_spec (stop - dpos d) body (dw d) (dpos d) false
                ltac:(lia) ltac:(lia)) as HD.
  unfold decodeLineInto. destruct (decode_into _ _ _ _ _) as [body' w'].
  replace (dpos d + (stop - dpos d))%nat with stop in HD by lia.
  destruct HD as (D1 & D2 & D3 & D4). unfold simulates; simpl.
  repeat split; try done; try lia.
  - rewrite D1, <- Hpart, Hl. done.
  - apply (drop_drop_eq _ _ stop); [lia|]. rewrite D2.
    apply (drop_drop_eq _ _ (dpos d)); [lia|done].
Qed.

Lemma sim_trailer :
  let '(e, p) := envelope_trailer (denv d) (dpart d) l in
  simulates orig (mkDec p pos' (dw d) phaseEnded e) body
    (let '(e, p) := envelope_trailer (lenv s) (lpart s) l in mkL phaseEnded e p).
Proof.
  destruct Hsim as (Hph & Henv & Hpart & Hnil & Hw & Hlen & Hdrop).
  rewrite <- Hpart, <- Henv, envelope_trailer_Data.
  pose proof (envelope_trailer_keeps (denv d) (dpart d) l) as HK.
  destruct (envelope_trailer (denv d) (dpart d) l) as [e p]. unfold simulates; simpl in *.
  repeat split; try done; try lia; try congruence.
  apply (drop_drop_eq _ _ (dpos d)); [lia|done].
Qed.

Lemma sim_part :
  let '(e, p) := envelope_part (denv d) (dpart d) l in
  simulates orig (mkDec p pos' (dw d) inData e) body
    (let '(e, p) := envelope_part (lenv s) (lpart s) l in mkL inData e p).
Proof.
  destruct Hsim as (Hph & Henv & Hpart & Hnil & Hw & Hlen & Hdrop).
  rewrite <- Hpart, <- Henv, envelope_part_Data.
  pose proof (envelope_part_keeps (denv d) (dpart d) l) as HK.
  destruct (envelope_part (denv d) (dpart d) l) as [e p]. unfold simulates; simpl in *.
  repeat split; try done; try lia; try congruence.
  apply (drop_drop_eq _ _ (dpos d)); [lia|done].
Qed.

(** One line: the in-place decoder and the line machine stay related. *)
Lemma ip_line_simulates :
  let '(d', body') := ip_line d body (dpos d) stop0 in
  simulates orig (set_pos d' pos') body' (lstep s l).
Proof.
  destruct sim_line as [Hl _].
  pose proof sim_skip. pose proof sim_data as HD. pose proof sim_trailer as HT.
  pose proof sim_part as HP.
  destruct Hsim as (Hph & Henv & Hpart & Hnil & Hw & Hlen & Hdrop).
  unfold ip_line. cbv zeta. rewrite Hl. unfold lstep. rewrite <- Hph.
  destruct (decodeLineInto _ _ _ _) as [body' w'].
  destruct (envelope_trailer (denv d) (dpart d) l) as [e1 p1].
  destruct (envelope_part (denv d) (dpart d) l) as [e2 p2].
  destruct (dphase d) eqn:Eph; try done; repeat (case_if; [|]); try done.
  unfold envelope_begin, simulates, set_pos; simpl.
  rewrite <- Hpart, parseYBegin_Data, Henv. simpl.
  repeat split; try done; try lia. apply (drop_drop_eq _ _ (dpos d)); [lia|done].
Qed.
End OneLine.

(** * Feeding *)

(** The decoder has consumed the lines [l1] of [orig]: whatever follows, the
    lines of the whole body are [l1] and those of the unread rest. *)
Definition fed (orig : bytes) (d : InPlaceDecoder) (body : bytes) (l1 : list bytes) : Prop :=
  simulates orig d body (lrun lzero (map drop_cr l1)) /\
  forall c, split_lines (orig ++ c) = l1 ++ split_lines (drop (dpos d) orig ++ c).

Lemma fed_zero buf : fed buf zeroDecoder buf [].
Proof.
  split; [|done]. unfold simulates; simpl. repeat split; try done; lia.
Qed.

Lemma fed_append orig d body l1 c :
  fed orig d body l1 -> fed (orig ++ c) d (body ++ c) l1.
Proof.
  intros [(Hph & Henv & Hpart & Hnil & Hw & Hlen & Hdrop) Hl]. split.
  - unfold simulates. rewrite !length_app, !drop_app_le, Hdrop, take_app_le by lia.
    repeat split; try done; lia.
  - intros c'. rewrite <- app_assoc, Hl. rewrite drop_app_le by lia. by rewrite <- app_assoc.
Qed.

Lemma fed_lengths orig d body l1 :
  fed orig d body l1 -> length body = length orig /\ drop (dpos d) body = drop (dpos d) orig
    /\ (dpos d <= length orig)%nat.
Proof. intros [(Hph & Henv & Hpart & Hnil & Hw & Hlen & Hdrop) Hl]. auto with lia. Qed.

Lemma lrun_snoc s ls l : lrun s (map drop_cr (ls ++ [l])) = lstep (lrun s (map drop_cr ls)) (drop_cr l).
Proof. unfold lrun. by rewrite map_app, fold_left_app. Qed.

(** [Feed] keeps the relation and leaves no complete line unread. *)
Lemma feed_loop_fed fuel orig d body l1 :
  fed orig d body l1 -> (length orig - dpos d <= fuel)%nat ->
  let '(d', body') := feed_loop fuel d body in
  exists l2, fed orig d' body' (l1 ++ l2) /\ LF ∉ drop (dpos d') orig.
Proof.
  revert d body l1. induction fuel as [|fuel IH]; intros d body l1 Hfed Hf; cbn [feed_loop].
  { exists []. rewrite app_nil_r. split; [done|].
    rewrite drop_ge by lia. apply not_elem_of_nil. }
  destruct (fed_lengths _ _ _ _ Hfed) as (Hlen & Hdrop & Hpos). rewrite Hlen.
  destruct (Nat.ltb_spec (dpos d) (length orig)) as [Hlt|Hge]; cycle 1.
  { exists []. rewrite app_nil_r. split; [done|]. rewrite drop_ge by lia. apply not_elem_of_nil. }
  rewrite Hdrop. destruct (index_lf (drop (dpos d) orig)) as [i|] eqn:Ei; cycle 1.
  { exists []. rewrite app_nil_r. split; [done|]. by apply index_lf_None. }
  destruct (index_lf_Some _ _ Ei) as [Hni Hsplit].
  assert (Hi : (dpos d + i < length orig)%nat).
  { apply (f_equal length) in Hsplit. rewrite length_app in Hsplit. simpl in Hsplit.
    rewrite length_take, length_drop in Hsplit. lia. }
  destruct Hfed as [Hsim Hl].
  pose proof (ip_line_simulates orig d body _ (dpos d + i) (dpos d + i + 1) Hsim
                ltac:(lia) ltac:(lia)) as HL.
  destruct (ip_line d body (dpos d) (dpos d + i)) as [d' body'].
  replace (slice orig (dpos d) (dpos d + i)) with (take i (drop (dpos d) orig)) in HL
    by (unfold slice; f_equal; lia).
  rewrite <- lrun_snoc in HL.
  assert (Hfed' : fed orig (set_pos d' (dpos d + i + 1)) body'
                    (l1 ++ [take i (drop (dpos d) orig)])).
  { split; [done|]. intros c. rewrite Hl, Hsplit at 1. rewrite <- app_assoc. simpl.
    rewrite split_lines_cons by done. rewrite <- app_assoc. simpl.
    rewrite drop_drop. do 5 f_equal. lia. }
  specialize (IH _ _ _ Hfed' ltac:(simpl; lia)).
  destruct (feed_loop _ _ _) as [d2 b2]. destruct IH as (l2 & H1 & H2).
  exists (take i (drop (dpos d) orig) :: l2). split; [|done].
  by rewrite <- app_assoc in H1.
Qed.

Lemma Feed_fed orig d body l1 :
  fed orig d body l1 ->
  let '(d', body') := Feed d body in
  exists l2, fed orig d' body' (l1 ++ l2) /\ LF ∉ drop (dpos d') orig.
Proof.
  intros Hfed. destruct (fed_lengths _ _ _ _ Hfed) as (Hlen & _ & _).
  unfold Feed. apply feed_loop_fed; [done|]. lia.
Qed.

Lemma feed_chunks_fed orig d body l1 chunks :
  fed orig d body l1 ->
  let '(d', body') := feed_chunks d body chunks in
  exists l2, fed (orig ++ concat chunks) d' body' (l1 ++ l2).
Proof.
  revert orig d body l1. induction chunks as [|c cs IH]; intros orig d body l1 Hfed; simpl.
  { exists []. by rewrite !app_nil_r. }
  pose proof (Feed_fed _ _ _ _ (fed_append _ _ _ _ c Hfed)) as HF.
  destruct (Feed d (body ++ c)) as [d' body']. destruct HF as (l2 & HF & _).
  specialize (IH _ _ _ _ HF). destruct (feed_chunks d' body' cs) as [d2 b2].
  destruct IH as (l3 & IH). exists (l2 ++ l3). by rewrite !app_assoc in *.
Qed.

(** Whatever was fed before, finishing yields what the line machine yields on
    all lines of the body. *)
Lemma Finish_lines orig d body l1 :
  fed orig d body l1 ->
  Finish d body = lfinish (lrun lzero (map drop_cr (split_lines orig))).
Proof.
  intros Hfed. pose proof (Feed_fed _ _ _ _ Hfed) as HF. unfold Finish.
  destruct (Feed d body) as [d1 body1]. destruct HF as (l2 & HF & Hno).
  destruct (fed_lengths _ _ _ _ HF) as (Hlen & Hdrop & Hpos). rewrite Hlen.
  destruct HF as [Hsim Hl]. pose proof (Hl []) as Hl0. rewrite !app_nil_r in Hl0.
  destruct (Nat.ltb_spec (dpos d1) (length orig)) as [Hlt|Hge].
  - pose proof (ip_line_simulates orig d1 body1 _ (length orig) (length orig) Hsim
                  ltac:(lia) ltac:(lia)) as HL.
    destruct (ip_line d1 body1 (dpos d1) (length orig)) as [d' body'].
    replace (slice orig (dpos d1) (length orig)) with (drop (dpos d1) orig) in HL
      by (unfold slice; rewrite take_ge; [done|rewrite length_drop; lia]).
    rewrite <- lrun_snoc in HL.
    rewrite (split_lines_last (drop (dpos d1) orig)) in Hl0; [|done|].
    2:{ intros Hnil. apply (f_equal length) in Hnil. rewrite length_drop in Hnil.
        simpl in Hnil. lia. }
    rewrite Hl0. unfold lfinish.
    destruct HL as (H1 & H2 & H3 & _). simpl in *. by rewrite H1, H2, H3.
  - rewrite (drop_ge orig) in Hl0 by lia. rewrite app_nil_r in Hl0. rewrite Hl0. unfold lfinish.
    destruct Hsim as (H1 & H2 & H3 & _). by rewrite H1, H2, H3.
Qed.

(** * The scanning decoder is the line machine, too *)

Lemma trailer_crcs_ended e p line keys :
  ended (fst (trailer_crcs e p line keys)) = ended e.
Proof.
  revert e p. induction keys as [|k ks IH]; intros e p; simpl; [done|].
  destruct (paramValue line k); [|apply IH]. destruct (ParseUint _ _ _) as [crc []]; try done.
  case_if; [|done]. case_if; by rewrite IH.
Qed.

Lemma envelope_trailer_ended e p line : ended (fst (envelope_trailer e p line)) = true.
Proof.
  unfold envelope_trailer. destruct (requiredDecimal line (str "size")); [|done].
  case_if; [destruct (requiredDecimal line (str "part")); [|done]|]; by rewrite trailer_crcs_ended.
Qed.

Lemma check_decimals_ended e line keys : ended (check_decimals e line keys) = ended e.
Proof.
  induction keys as [|k ks IH]; simpl; [done|]. destruct (paramValue line k); [|done].
  by destruct (requiredDecimal line k).
Qed.

Lemma envelope_part_ended e p line : ended (fst (envelope_part e p line)) = ended e.
Proof.
  unfold envelope_part. destruct (requiredDecimal line (str "begin")); [|done].
  by destruct (requiredDecimal line (str "end")).
Qed.

Lemma lrun_stuck ph e p ls : ph = phaseEnded \/ ph = noHeader -> lrun (mkL ph e p) ls = mkL ph e p.
Proof. intros H. induction ls; simpl; [done|]. by destruct H as [-> | ->]. Qed.

Lemma data_loop_ended e p ls : ended e = true -> data_loop e p ls = (e, p, false).
Proof. intros H. by destruct ls; simpl; rewrite H. Qed.

Definition finish_with (e : envelope) (p : Part) : result yerr Part :=
  match validate e p with Some x => Err x | None => Ok (normalizeSinglePart p) end.

Lemma data_loop_lrun e p ls :
  ended e = false ->
  let '(e', p', _) := data_loop e p ls in
  lfinish (lrun (mkL inData e p) ls) = finish_with e' p'.
Proof.
  revert p. induction ls as [|l ls IH]; intros p He; simpl; rewrite He; [done|].
  unfold lstep; simpl. case_if; [|by apply IH].
  destruct (envelope_trailer e p l) as [e' p']. by rewrite lrun_stuck by auto.
Qed.

Lemma seek_begin_lrun ls :
  match seek_begin ls with
  | None => lrun lzero ls = lzero
  | Some (l, rest) => lrun lzero ls = lrun (lstep lzero l) rest
                      /\ has_prefix (str "=ybegin ") l = true
  end.
Proof.
  induction ls as [|l ls IH]; simpl; [done|].
  destruct (has_prefix (str "=ybegin ") l) eqn:E; [done|].
  assert (lstep lzero l = lzero) as -> by (unfold lstep; simpl; by rewrite E).
  exact IH.
Qed.

Lemma decode_scanned_lrun ls : decode_scanned ls false = lfinish (lrun lzero ls).
Proof.
  unfold decode_scanned. pose proof (seek_begin_lrun ls) as HS.
  destruct (seek_begin ls) as [[l0 rest]|]; [|by rewrite HS].
  destruct HS as [-> Hpre].
  unfold lstep, lzero, envelope_begin; cbn [lphase lenv lpart]; rewrite Hpre; cbv zeta.
  set (e0 := check_decimals _ _ _). set (p0 := parseYBegin zeroPart l0).
  assert (He0 : ended e0 = false) by (unfold e0; by rewrite check_decimals_ended).
  clearbody e0 p0. case_if; [by rewrite lrun_stuck by auto|].
  destruct rest as [|l1 rest]; simpl.
  { rewrite He0. done. }
  unfold lstep; simpl. case_if; [|case_if].
  - pose proof (envelope_part_ended e0 p0 l1) as He1.
    destruct (envelope_part e0 p0 l1) as [e1 p1]. simpl in He1.
    pose proof (data_loop_lrun e1 p1 rest ltac:(congruence)) as HD.
    destruct (data_loop e1 p1 rest) as [[e' p'] x]. rewrite andb_false_r. by rewrite HD.
  - pose proof (envelope_trailer_ended e0 p0 l1) as He1.
    destruct (envelope_trailer e0 p0 l1) as [e1 p1]. simpl in He1.
    rewrite data_loop_ended by done. by rewrite lrun_stuck by auto.
  - pose proof (data_loop_lrun e0 (append_data p0 l1) rest He0) as HD.
    destruct (data_loop e0 (append_data p0 l1) rest) as [[e' p'] x].
    rewrite andb_false_r. by rewrite HD.
Qed.

(** Every line fits the scanner's buffer. *)
Definition lines_fit (body : bytes) : Prop :=
  Forall (fun l => Z.of_nat (length l) < maxToken) (split_lines body).

#[export] Instance lines_fit_dec body : Decision (lines_fit body).
Proof. unfold lines_fit. apply _. Defined.

Lemma scan_fit max raw :
  Forall (fun l => Z.of_nat (length l) < max) raw -> scan max raw = (map drop_cr raw, false).
Proof.
  induction 1 as [|l ls Hl Hls IH]; simpl; [done|].
  destruct (Z.ltb_spec (Z.of_nat (length l)) max); [|lia]. by rewrite IH.
Qed.

Lemma Decode_lines body :
  lines_fit body -> Decode body = lfinish (lrun lzero (map drop_cr (split_lines body))).
Proof. intros H. unfold Decode. rewrite scan_fit by done. apply decode_scanned_lrun. Qed.

(** * What [Progress] promised stays true *)

Definition placed (p q : Part) : Prop :=
  pBegin q = pBegin p /\ pEnd q = pEnd p /\ pSize q = pSize p /\ pNumber q = pNumber p /\
  pTotal q = pTotal p /\ pData p `prefix_of` pData q.

#[export] Instance placed_po : PreOrder placed.
Proof.
  split.
  - intros p. unfold placed. repeat split; done.
  - intros p q r (?&?&?&?&?&?) (?&?&?&?&?&?). unfold placed.
    repeat split; try congruence. by etrans.
Qed.

Lemma trailer_crcs_placed e p line keys : placed p (snd (trailer_crcs e p line keys)).
Proof.
  revert e p. induction keys as [|k ks IH]; intros e p; simpl; [done|].
  destruct (paramValue line k); [|apply IH]. destruct (ParseUint _ _ _) as [crc []]; try done.
  case_if; [|done]. case_if; [|apply IH]. by rewrite <- IH.
Qed.

Lemma envelope_trailer_placed e p line : placed p (snd (envelope_trailer e p line)).
Proof.
  unfold envelope_trailer. destruct (requiredDecimal line (str "size")); [|done].
  case_if; [destruct (requiredDecimal line (str "part")); [|done]|]; apply trailer_crcs_placed.
Qed.

Definition streaming (ph : decodePhase) : Prop := ph = inData \/ ph = phaseEnded.

Lemma lstep_placed s l :
  streaming (lphase s) ->
  placed (lpart s) (lpart (lstep s l)) /\ streaming (lphase (lstep s l)).
Proof.
  intros Hs. unfold lstep. destruct (lphase s) eqn:E; try (destruct Hs; congruence).
  - case_if.
    + pose proof (envelope_trailer_placed (lenv s) (lpart s) l) as HP.
      destruct (envelope_trailer _ _ _). unfold streaming. auto.
    + split; [|by left]. unfold placed; simpl. repeat split; try done. by eexists.
  - rewrite E. split; [done|by right].
Qed.

Lemma lrun_placed s ls :
  streaming (lphase s) ->
  placed (lpart s) (lpart (lrun s ls)) /\ streaming (lphase (lrun s ls)).
Proof.
  revert s. induction ls as [|l ls IH]; intros s Hs; simpl; [done|].
  destruct (lstep_placed s l Hs) as [H1 H2]. destruct (IH _ H2) as [H3 H4].
  split; [by etrans|done].
Qed.

(** What a validated part says about its range. *)
Lemma validate_range e p :
  validate e p = None -> pBegin p = 0 -> pEnd p = 0 ->
  pSize p = 0 \/ pSize p = Z.of_nat (length (pData p)).
Proof.
  unfold validate, validateBounds, validateMultipart. intros H Hb He.
  destruct (eerr e); [done|]. rewrite Hb, He in H.
  destruct (ended e); [|done].
  destruct (Z.eqb_spec (elength e) (Z.of_nat (length (pData p)))) as [Hl|]; [|done].
  simpl in H. destruct (pSize p <? 0); [done|].
  destruct (_ || _); [by rewrite !orb_true_r in H|].
  destruct (Z.eqb_spec (pSize p) 0); [by left|].
  destruct (Z.eqb_spec (pSize p) (elength e)); [right; congruence|done].
Qed.

Definition place_of (p : Part) : option (Z * Z) :=
  if (pBegin p =? 0) && (pEnd p =? 0) then Some (0, pSize p)
  else if pBegin p <? 1 then None else Some (pBegin p - 1, pEnd p).

Lemma Progress_place d start stop n :
  Progress d = Some (start, stop, n) ->
  streaming (dphase d) /\ place_of (dpart d) = Some (start, stop) /\ n = dw d.
Proof.
  unfold Progress, place_of, streaming. intros H.
  destruct (dphase d); try done; repeat case_if_in H; simplify_eq; auto.
Qed.

Lemma normalize_Data p : pData (normalizeSinglePart p) = pData p.
Proof. unfold normalizeSinglePart. by case_if. Qed.

Lemma place_normalized e p start stop :
  validate e p = None -> place_of p = Some (start, stop) ->
  (pData p <> [] -> start = pBegin (normalizeSinglePart p) - 1) /\
  (stop = 0 \/ stop = pEnd (normalizeSinglePart p)).
Proof.
  intros Hv Hp. pose proof (validate_range e p Hv) as Hr. unfold place_of in Hp.
  unfold normalizeSinglePart.
  destruct (Z.eqb_spec (pBegin p) 0) as [Eb|Eb], (Z.eqb_spec (pEnd p) 0) as [Ee|Ee];
    simpl in Hp |- *; try (case_if_in Hp; [done|]); simplify_eq; simpl; auto.
  destruct (Hr Eb Ee) as [Hz|Hz]; rewrite Hz; destruct (pData p); simpl;
    (split; [done|auto]).
Qed.

Lemma lfinish_Ok s part :
  lfinish s = Ok part -> streaming (lphase s) ->
  validate (lenv s) (lpart s) = None /\ part = normalizeSinglePart (lpart s).
Proof.
  unfold lfinish. intros H [Hs|Hs]; rewrite Hs in H;
    destruct (validate _ _); by inversion H.
Qed.

Lemma Finish_after orig d body l1 rest :
  fed orig d body l1 ->
  exists more, Finish d (body ++ rest) = lfinish (lrun (lrun lzero (map drop_cr l1)) more).
Proof.
  intros HF. rewrite (Finish_lines _ _ _ _ (fed_append _ _ _ _ rest HF)).
  destruct HF as [_ Hl]. rewrite Hl, map_app. unfold lrun. rewrite fold_left_app. by eexists.
Qed.

(** * Claims *)

(** C1: Decoding in place accepts exactly what the scanning decoder accepts and
    returns the same part or the same error, for every body whose lines fit the
    scanner's 10 MiB buffer. *)
Theorem DecodeInPlace_equals_Decode (buf : bytes) :
  lines_fit buf -> DecodeInPlace buf = Decode buf.
Proof.
  intros Hfit. rewrite Decode_lines by done. apply (Finish_lines buf _ _ []), fed_zero.
Qed.

Lemma DecodeInPlace_equals_Decode_witness :
  let b := Encode (str "v.mkv") 1 2 1 5 9 (str "hello") in
  lines_fit b /\ DecodeInPlace b = Decode b.
Proof.
  assert (H : lines_fit (Encode (str "v.mkv") 1 2 1 5 9 (str "hello")))
    by (refine (bool_decide_unpack _ _); vm_compute; exact I).
  split; [exact H|]. exact (DecodeInPlace_equals_Decode _ H).
Defined.

(** Feeding a body in any number of steps, each time appended to the
    buffer as the decoder left it, and finishing with whatever is still
    missing returns exactly what decoding the whole body at once returns. *)
Lemma feed_in_steps_equals_whole (chunks : list bytes) (rest : bytes) :
  (let '(d, body) := feed_chunks zeroDecoder [] chunks in Finish d (body ++ rest))
  = DecodeInPlace (concat chunks ++ rest).
Proof.
  pose proof (feed_chunks_fed [] zeroDecoder [] [] chunks (fed_zero [])) as HF.
  destruct (feed_chunks zeroDecoder [] chunks) as [d body]. destruct HF as [l2 HF].
  rewrite (Finish_lines _ _ _ _ (fed_append _ _ _ _ rest HF)).
  symmetry. apply (Finish_lines _ _ _ []), fed_zero.
Qed.

(** The bytes [Progress] reports as decoded are final: if the article
    finishes successfully, they are a prefix of its data, they sit where
    [Progress] said (0-based start), and a reported end is the part's end. *)
Lemma Progress_is_final (chunks : list bytes) (rest : bytes) d body start stop n part :
  feed_chunks zeroDecoder [] chunks = (d, body) ->
  Progress d = Some (start, stop, n) ->
  Finish d (body ++ rest) = Ok part ->
  take n body `prefix_of` pData part /\
  (pData part <> [] -> start = pBegin part - 1) /\
  (stop = 0 \/ stop = pEnd part).
Proof.
  intros Hfc Hpr Hfin.
  pose proof (feed_chunks_fed [] zeroDecoder [] [] chunks (fed_zero [])) as HF.
  rewrite Hfc in HF. destruct HF as [l2 HF].
  destruct (Finish_after _ _ _ _ rest HF) as [more HM].
  destruct HF as [(Hph & _ & Hpart & _) _].
  destruct (Progress_place _ _ _ _ Hpr) as (Hs & Hpl & ->). rewrite Hph in Hs.
  destruct (lrun_placed _ more Hs) as [(P1 & P2 & P3 & P4 & P5 & P6) HS].
  rewrite Hfin in HM. destruct (lfinish_Ok _ _ (eq_sym HM) HS) as [Hv ->].
  rewrite normalize_Data. rewrite <- Hpart in *. simpl in *.
  split; [done|]. eapply place_normalized; [exact Hv|].
  unfold place_of in *. by rewrite P1, P2, P3.
Qed.

(** A two-part article cut after 80 bytes. *)
Definition sample_article : bytes := Encode (str "v.mkv") 1 2 1 5 9 (str "hello").

Lemma Progress_is_final_witness :
  exists d body part,
    feed_chunks zeroDecoder [] [take 80 sample_article] = (d, body) /\
    Progress d = Some (0, 5, 5%nat) /\
    Finish d (body ++ drop 80 sample_article) = Ok part /\
    (take 5 body `prefix_of` pData part /\ (pData part <> [] -> 0 = pBegin part - 1)
     /\ (5 = 0 \/ 5 = pEnd part)).
Proof.
  let r := eval vm_compute in (feed_chunks zeroDecoder [] [take 80 sample_article]) in
  match r with (?d, ?b) =>
    let q := eval vm_compute in (Finish d (b ++ drop 80 sample_article)) in
    match q with Ok ?p =>
      assert (H1 : feed_chunks zeroDecoder [] [take 80 sample_article] = (d, b))
        by (vm_compute; reflexivity);
      assert (H2 : Progress d = Some (0, 5, 5%nat)) by (vm_compute; reflexivity);
      assert (H3 : Finish d (b ++ drop 80 sample_article) = Ok p) by (vm_compute; reflexivity);
      exists d, b, p; exact (conj H1 (conj H2 (conj H3 (Progress_is_final _ _ d b _ _ _ p H1 H2 H3))))
    end
  end.
Defined.

(** ** Where the two decoders part *)

Definition long_article (n : nat) : bytes :=
  str "=ybegin line=128 size=10485760 name=x" ++ LF :: replicate n 42 ++ LF ::
  str "=yend size=10485760".

Lemma long_article_lines n :
  (0 < n)%nat ->
  split_lines (long_article n) =
  [str "=ybegin line=128 size=10485760 name=x"; replicate n 42; str "=yend size=10485760"].
Proof.
  intros Hn. unfold long_article. rewrite split_lines_cons.
  2:{ apply (bool_decide_unpack _). vm_compute. exact I. }
  rewrite split_lines_cons; [done|].
  intros H. apply elem_of_replicate in H as [H _]. done.
Qed.

Lemma decode_line_replicate n : decode_line false (replicate n 42) = replicate n 0.
Proof. induction n as [|n IH]; simpl; [done|]. by rewrite IH. Qed.

Lemma drop_cr_replicate n : drop_cr (replicate n 42) = replicate n 42.
Proof.
  destruct n as [|n]; [done|]. rewrite replicate_S_end, drop_cr_snoc. done.
Qed.

Lemma long_article_header :
  lstep lzero (drop_cr (str "=ybegin line=128 size=10485760 name=x")) =
  mkL afterBegin zeroEnv (mkPart [120] 0 0 0 0 10485760 0 []).
Proof. vm_compute. reflexivity. Qed.

Lemma long_article_data n :
  (0 < n)%nat ->
  lstep (mkL afterBegin zeroEnv (mkPart [120] 0 0 0 0 10485760 0 [])) (replicate n 42) =
  mkL inData zeroEnv (mkPart [120] 0 0 0 0 10485760 0 (replicate n 0)).
Proof.
  intros Hn. unfold lstep. cbn [lphase lenv lpart].
  replace (has_prefix (str "=ypart ") (replicate n 42)) with false
    by (destruct n as [|n']; [lia|reflexivity]).
  replace (has_prefix (str "=yend ") (replicate n 42)) with false
    by (destruct n as [|n']; [lia|reflexivity]).
  unfold append_data, decodeLine. by rewrite decode_line_replicate.
Qed.

Lemma long_article_trailer d :
  lstep (mkL inData zeroEnv (mkPart [120] 0 0 0 0 10485760 0 d))
    (drop_cr (str "=yend size=10485760")) =
  mkL phaseEnded (mkEnv true false false 10485760 0 None) (mkPart [120] 0 0 0 0 10485760 0 d).
Proof. vm_compute. reflexivity. Qed.

Lemma long_article_diverges n :
  Z.of_nat n = maxToken ->
  Decode (long_article n) = Err ERead /\
  DecodeInPlace (long_article n) =
    Ok (normalizeSinglePart (mkPart [120] 0 0 0 0 10485760 0 (replicate n 0))).
Proof.
  intros Hn. assert (Hpos : (0 < n)%nat) by (unfold maxToken in Hn; lia). split.
  - unfold Decode. rewrite long_article_lines by done. cbn [scan].
    rewrite length_replicate, Hn, Z.ltb_irrefl. vm_compute. reflexivity.
  - unfold DecodeInPlace. rewrite (Finish_lines _ _ _ [] (fed_zero _)).
    rewrite long_article_lines by done. cbn [map]. rewrite drop_cr_replicate.
    unfold lrun. cbn [fold_left].
    rewrite long_article_header, long_article_data, long_article_trailer by done.
    unfold lfinish. cbn [lphase lenv lpart].
    assert (validate (mkEnv true false false 10485760 0 None)
              (mkPart [120] 0 0 0 0 10485760 0 (replicate n 0)) = None) as ->; [|done].
    unfold validate. cbn [eerr ended negb elength pData].
    rewrite length_replicate, Hn. vm_compute. reflexivity.
Qed.

(** The two decoders disagree on an article with a data line of 10 MiB:
    the scanner refuses the line with a read error while decoding in place
    returns the part, so "accepts exactly what Decode accepts" needs the
    line-length bound. *)
Lemma DecodeInPlace_accepts_long_lines :
  exists body part, Decode body = Err ERead /\ DecodeInPlace body = Ok part.
Proof.
  exists (long_article (Z.to_nat maxToken)). eexists.
  apply long_article_diverges. apply Z2Nat.id. unfold maxToken. lia.
Qed.
