(* ===== verification/YencRoundtrip.v ===== *)
(** Encoding an article and decoding it again (internal/usenet/yenc): the
    encoder of encode.go is the inverse the decoder of decode.go expects, for
    multipart and single-part articles. *)
From Stdlib Require Import ZArith Lia Ascii String.
From stdpp Require Import prelude list strings.
From S2P Require Import Prelude GoStrings Crc32 Yenc YencInPlace.

Open Scope Z_scope.

(** * Header lines as fields *)

(** The value [paramValue] finds among blank-free fields. *)
Fixpoint find_param (fields : list bytes) (key : bytes) : option bytes :=
  match fields with
  | [] => None
  | f :: fs =>
      if has_prefix (str "name=") f then None
      else match cut_prefix (key ++ str "=") f with
           | Some v => Some v
           | None => find_param fs key
           end
  end.
(** Fields, each after a blank. *)
Definition spaced (fs : list bytes) : bytes := concat (map (cons SP) fs).
Definition field_ok (f : bytes) : Prop := f <> [] /\ Forall (fun b => is_blank b = false) f.
(** What may follow the fields: nothing, or the name. *)
Definition tail_ok (t : bytes) : Prop := t = [] \/ exists x, t = SP :: str "name=" ++ x.

(** [p] cannot start at this point of a text: it differs within the text. *)
Fixpoint mismatch (p s : bytes) : bool :=
  match p, s with
  | x :: p', y :: s' => if x =? y then mismatch p' s' else true
  | _, _ => false
  end.
Fixpoint all_mismatch (p s : bytes) : bool :=
  match s with
  | [] => true
  | _ :: s' => mismatch p s && all_mismatch p s'
  end.

(** * Encoded lines *)

(** The lines [write_encoded] emits when [cur] is already on the current one. *)
Fixpoint enc_lines (cur data : bytes) (lineLen : Z) : list bytes :=
  match data with
  | [] => match cur with [] => [] | _ => [cur] end
  | b :: d =>
      let seq := encodeByte b in
      if lineLen <? Z.of_nat (length cur) + Z.of_nat (length seq)
      then cur :: enc_lines seq d lineLen
      else enc_lines (cur ++ seq) d lineLen
  end.
Definition encodeBytes (g : bytes) : bytes := concat (map encodeByte g).

(** * Lemmas on fields *)

Lemma span_nonblank f rest :
  Forall (fun b => is_blank b = false) f ->
  (match rest with [] => True | x :: _ => is_blank x = true end) ->
  span (fun b => negb (is_blank b)) (f ++ rest) = (f, rest).
Proof.
  intros Hf Hr. apply span_all_then.
  - eapply Forall_impl; [exact Hf|]. by intros x ->.
  - destruct rest; [done|]. by rewrite Hr.
Qed.

Lemma trim_left_field f rest : field_ok f -> trim_left_blank (f ++ rest) = f ++ rest.
Proof.
  intros [Hne Hf]. destruct f as [|x f]; [done|]. unfold trim_left_blank. simpl.
  apply Forall_cons in Hf as [-> _]. done.
Qed.

Lemma trim_left_SP s : trim_left_blank (SP :: s) = trim_left_blank s.
Proof. unfold trim_left_blank. simpl. by destruct (span is_blank s). Qed.

Lemma spaced_head fs tail :
  Forall field_ok fs -> tail_ok tail ->
  match spaced fs ++ tail with [] => True | x :: _ => is_blank x = true end.
Proof.
  intros Hfs Ht. destruct fs as [|f fs]; simpl; [|done].
  by destruct Ht as [-> | [x ->]].
Qed.

(** One field consumed. *)
Lemma param_loop_field fuel f fs tail key :
  field_ok f -> Forall field_ok fs -> tail_ok tail ->
  forall line, line <> [] -> trim_left_blank line = f ++ spaced fs ++ tail ->
  param_loop (S fuel) line key =
  if has_prefix (str "name=") f then None
  else match cut_prefix (key ++ str "=") f with
       | Some v => Some v
       | None => param_loop fuel (spaced fs ++ tail) key
       end.
Proof.
  intros Hf Hfs Ht line Hne Htrim. cbn [param_loop]. destruct line as [|x l]; [done|].
  rewrite Htrim, span_nonblank; [done|apply Hf|]. by apply spaced_head.
Qed.

Lemma param_loop_tail fuel tail key : tail_ok tail -> param_loop fuel tail key = None.
Proof.
  intros [-> | [x ->]]; [by destruct fuel|]. destruct fuel as [|fuel]; [done|].
  cbn [param_loop]. unfold trim_left_blank. simpl.
  destruct (span (fun b => negb (is_blank b)) x) as [a r]. done.
Qed.

Lemma param_loop_spaced fuel fs tail key :
  Forall field_ok fs -> tail_ok tail -> (length (spaced fs) <= fuel)%nat ->
  param_loop fuel (spaced fs ++ tail) key = find_param fs key.
Proof.
  intros Hfs Ht. revert fuel. induction Hfs as [|f fs Hf Hfs IH]; intros fuel Hfuel; simpl.
  { by apply param_loop_tail. }
  unfold spaced in Hfuel; simpl in Hfuel. rewrite length_app in Hfuel.
  destruct fuel as [|fuel]; [lia|].
  rewrite (param_loop_field fuel f fs tail key Hf Hfs Ht).
  - case_if; [done|]. destruct (cut_prefix _ f); [done|]. apply IH.
    unfold spaced. lia.
  - done.
  - rewrite <- app_assoc. change (SP :: f ++ _) with (SP :: (f ++ spaced fs ++ tail)).
    rewrite trim_left_SP. by apply trim_left_field.
Qed.

(** [paramValue] on a header line is [find_param] on its fields. *)
Lemma paramValue_fields f0 fs tail key :
  field_ok f0 -> Forall field_ok fs -> tail_ok tail ->
  paramValue (f0 ++ spaced fs ++ tail) key = find_param (f0 :: fs) key.
Proof.
  intros Hf Hfs Ht. unfold paramValue. assert (Hne : f0 <> []) by apply Hf.
  assert (Hlen : (0 < length f0)%nat) by (destruct f0; simpl; [done|lia]). rewrite length_app.
  replace (length f0 + length (spaced fs ++ tail))%nat
    with (S (length f0 - 1 + length (spaced fs ++ tail))) by lia.
  rewrite (param_loop_field _ f0 fs tail key Hf Hfs Ht).
  - simpl. case_if; [done|]. destruct (cut_prefix _ f0); [done|].
    apply param_loop_spaced; [done..|]. rewrite length_app. lia.
  - by destruct f0.
  - by apply trim_left_field.
Qed.

Lemma nonblank_ge b : 33 <= b -> is_blank b = false.
Proof.
  intros. unfold is_blank, SP, TAB. destruct (Z.eqb_spec b 32), (Z.eqb_spec b 9); simpl; lia || done.
Qed.

Lemma digits_nonblank s :
  Forall (fun b => is_digit b = true) s -> Forall (fun b => is_blank b = false) s.
Proof.
  intros H. eapply Forall_impl; [exact H|]. intros b Hb. apply is_digit_spec in Hb.
  apply nonblank_ge. lia.
Qed.

(** A field "key=digits". *)
Lemma field_ok_num (k : bytes) n :
  k <> [] -> forallb (fun b => negb (is_blank b)) k = true -> 0 <= n -> field_ok (k ++ Itoa n).
Proof.
  intros Hne Hk Hn. split; [by destruct k|]. apply Forall_app. split.
  - apply Forall_forall. intros b Hb. rewrite forallb_forall in Hk.
    apply list_elem_of_In in Hb. specialize (Hk b Hb). by destruct (is_blank b).
  - by apply digits_nonblank, Itoa_digits.
Qed.

Lemma hex_nonblank w n : 0 <= n -> Forall (fun b => is_blank b = false) (hex_digits w n).
Proof.
  revert n. induction w as [|w IH]; intros n Hn; simpl; [constructor|].
  apply Forall_app. split; [apply IH, Z.div_pos; lia|]. repeat constructor.
  pose proof (Z.mod_pos_bound n 16). apply nonblank_ge. unfold hex_digit. case_if; bprop; lia.
Qed.

Lemma requiredDecimal_num line key n :
  paramValue line key = Some (Itoa n) -> 0 <= n <= i64_max -> requiredDecimal line key = Ok n.
Proof.
  intros Hp Hn. unfold requiredDecimal. rewrite Hp.
  pose proof (Itoa_nonempty n) as Hne. destruct (Itoa n) as [|b s] eqn:E; [done|].
  rewrite <- E. assert (forallb is_digit (Itoa n) = true) as ->.
  { apply forallb_forall. intros x Hx. apply list_elem_of_In in Hx.
    pose proof (Itoa_digits n ltac:(lia)) as Hd. rewrite Forall_forall in Hd. by apply Hd. }
  by rewrite ParseInt_Itoa.
Qed.

Lemma getIntParam_num line key n :
  paramValue line key = Some (Itoa n) -> 0 <= n <= i64_max -> getIntParam line key = n.
Proof. intros Hp Hn. unfold getIntParam. rewrite Hp, ParseInt_Itoa by done. done. Qed.

(** ** Finding the name *)

Lemma mismatch_prefix p lit s : mismatch p lit = true -> has_prefix p (lit ++ s) = false.
Proof.
  unfold has_prefix. revert lit. induction p as [|x p IH]; intros [|y lit]; simpl; try done.
  case_if; [|done]. apply IH.
Qed.

Lemma index_skip p lit s :
  all_mismatch p lit = true ->
  index p (lit ++ s) = (fun i => (length lit + i)%nat) <$> index p s.
Proof.
  induction lit as [|x lit IH]; intros H.
  { change ([] ++ s) with s. by destruct (index p s). }
  simpl in H. apply andb_prop in H as [H1 H2].
  simpl app. cbn [index]. change (x :: lit ++ s) with ((x :: lit) ++ s).
  rewrite mismatch_prefix, IH by done. by destruct (index p s).
Qed.

Lemma mismatch_app p a b : mismatch p a = true -> mismatch p (a ++ b) = true.
Proof.
  revert a. induction p as [|x p IH]; intros [|y a]; simpl; try done.
  case_if; [|done]. apply IH.
Qed.

Lemma all_mismatch_app p a b :
  all_mismatch p a = true -> all_mismatch p b = true -> all_mismatch p (a ++ b) = true.
Proof.
  intros Ha Hb. induction a as [|x a IH]; simpl in *; [done|].
  apply andb_prop in Ha as [H1 H2]. rewrite (IH H2), andb_true_r.
  apply (mismatch_app p (x :: a)), H1.
Qed.

Lemma all_mismatch_digits s :
  Forall (fun b => is_digit b = true) s -> all_mismatch (str "name=") s = true.
Proof.
  induction 1 as [|b s Hb Hs IH]; [done|]. apply is_digit_spec in Hb.
  cbn [all_mismatch]. rewrite IH, andb_true_r.
  change (str "name=") with [110; 97; 109; 101; 61]. cbn [mismatch].
  destruct (Z.eqb_spec 110 b); [lia|done].
Qed.

(** * Lemmas on encoded data *)

Lemma wrap_u8_eq a b : is_byte b -> a mod 256 = b mod 256 -> wrap_u8 a = b.
Proof. intros Hb H. unfold wrap_u8. rewrite H. apply Z.mod_small. unfold is_byte in Hb. lia. Qed.

(** Decoding undoes one encoded byte, escaped or not. *)
Lemma decode_encodeByte b s :
  is_byte b -> decode_line false (encodeByte b ++ s) = b :: decode_line false s.
Proof.
  intros Hb. unfold encodeByte. set (e := wrap_u8 (b + 42)).
  assert (He : is_byte e) by apply wrap_u8_byte.
  destruct ((e =? 0) || (e =? LF) || (e =? CR) || (e =? EQ)) eqn:Ecrit; simpl app;
    cbn [decode_line].
  - replace (EQ =? EQ) with true by done. cbn [decode_line]. f_equal.
    apply wrap_u8_eq; [done|]. unfold e, wrap_u8.
    rewrite Zminus_mod, Zmod_mod, <- Zminus_mod.
    replace ((b + 42) mod 256 + 64 - 106) with ((b + 42) mod 256 - 42) by lia.
    rewrite Zminus_mod, Zmod_mod, <- Zminus_mod. f_equal. lia.
  - apply orb_false_elim in Ecrit as [_ ->]. f_equal.
    apply wrap_u8_eq; [done|]. unfold e, wrap_u8.
    rewrite Zminus_mod, Zmod_mod, <- Zminus_mod. f_equal. lia.
Qed.

Lemma decode_encodeBytes g : wf_bytes g -> decodeLine (encodeBytes g) = g.
Proof.
  unfold decodeLine, encodeBytes. induction 1 as [|b g Hb Hg IH]; simpl; [done|].
  rewrite decode_encodeByte by done. by rewrite IH.
Qed.

(** No encoded byte is a line break. *)
Lemma encodeByte_no_break b x : x ∈ encodeByte b -> x <> LF /\ x <> CR.
Proof.
  unfold encodeByte. set (e := wrap_u8 (b + 42)).
  destruct (_ || _) eqn:E; intros Hx.
  - apply elem_of_cons in Hx as [-> | Hx]; [done|].
    apply list_elem_of_singleton in Hx as ->.
    assert (e = 0 \/ e = LF \/ e = CR \/ e = EQ) as Hc.
    { repeat (apply orb_prop in E as [E|E]); bprop; auto. }
    unfold LF, CR, EQ in *. destruct Hc as [-> | [-> | [-> | ->]]]; done.
  - apply list_elem_of_singleton in Hx as ->. bprop. done.
Qed.

Lemma encodeBytes_no_break g x : x ∈ encodeBytes g -> x <> LF /\ x <> CR.
Proof.
  unfold encodeBytes. intros Hx. apply list_elem_of_In, in_concat in Hx as (l & Hl & Hx).
  apply in_map_iff in Hl as (b & <- & _).
  apply (encodeByte_no_break b). by apply list_elem_of_In.
Qed.

(** An encoded line never looks like a yEnc keyword line. *)
Lemma encodeBytes_not_keyword c g k :
  g <> [] -> has_prefix (EQ :: 121 :: k) (encodeBytes g ++ c) = false.
Proof.
  intros Hne. destruct g as [|b g]; [done|]. unfold encodeBytes; simpl. unfold encodeByte.
  set (e := wrap_u8 (b + 42)). unfold has_prefix.
  destruct (_ || _) eqn:E; simpl app; cbn [cut_prefix].
  - replace (EQ =? EQ) with true by done.
    assert (e = 0 \/ e = LF \/ e = CR \/ e = EQ) as Hc.
    { repeat (apply orb_prop in E as [E|E]); bprop; auto. }
    unfold LF, CR, EQ in *. destruct Hc as [-> | [-> | [-> | ->]]]; done.
  - apply orb_false_elim in E as [_ E]. apply Z.eqb_neq in E.
    destruct (Z.eqb_spec EQ e); [congruence|done].
Qed.

Lemma encodeByte_length b : (1 <= length (encodeByte b) <= 2)%nat.
Proof. unfold encodeByte. case_if; simpl; lia. Qed.

Lemma enc_lines_write cur data lineLen :
  cur ++ write_encoded (Z.of_nat (length cur)) data lineLen =
  concat (map (fun l => l ++ CRLF) (enc_lines cur data lineLen)).
Proof.
  revert cur. induction data as [|b d IH]; intros cur; simpl.
  - destruct cur as [|x cur]; simpl; [done|]. by rewrite app_nil_r.
  - case_if; simpl.
    + rewrite <- IH. by rewrite <- app_assoc.
    + rewrite <- IH. rewrite length_app, Nat2Z.inj_add. by rewrite <- app_assoc.
Qed.

(** The lines are the encodings of consecutive non-empty runs of the data. *)
Lemma enc_lines_groups pre data lineLen :
  2 <= lineLen -> Z.of_nat (length (encodeBytes pre)) <= lineLen ->
  exists groups,
    enc_lines (encodeBytes pre) data lineLen = map encodeBytes groups /\
    concat groups = pre ++ data /\ Forall (fun g => g <> []) groups /\
    Forall (fun g => Z.of_nat (length (encodeBytes g)) <= lineLen) groups.
Proof.
  intros Hl. revert pre. induction data as [|b d IH]; intros pre Hpre; cbn [enc_lines].
  - destruct (encodeBytes pre) as [|x xs] eqn:E.
    + exists []. destruct pre as [|y pre]; [by repeat split; constructor|].
      pose proof (encodeByte_length y). unfold encodeBytes in E; simpl in E.
      apply (f_equal length) in E. rewrite length_app in E. simpl in E. lia.
    + exists [pre]. rewrite <- E in *. simpl. rewrite !app_nil_r.
      repeat split; try (repeat constructor; done). repeat constructor. intros ->. done.
  - assert (Hone : encodeBytes [b] = encodeByte b) by (unfold encodeBytes; simpl; by rewrite app_nil_r).
    pose proof (encodeByte_length b).
    destruct (Z.ltb_spec lineLen
               (Z.of_nat (length (encodeBytes pre)) + Z.of_nat (length (encodeByte b)))) as [Hlt|Hge].
    + destruct (IH [b]) as (gs & H1 & H2 & H3 & H4); [rewrite Hone; lia|].
      exists (pre :: gs). rewrite <- Hone. rewrite H1. simpl. rewrite H2.
      repeat split; try done; constructor; try done. intros ->. simpl in Hlt. lia.
    + destruct (IH (pre ++ [b])) as (gs & H1 & H2 & H3 & H4).
      { unfold encodeBytes. rewrite map_app, concat_app, length_app.
        fold (encodeBytes pre). fold (encodeBytes [b]). rewrite Hone. lia. }
      exists gs. rewrite <- app_assoc in H2.
      replace (encodeBytes pre ++ encodeByte b) with (encodeBytes (pre ++ [b])); [done|].
      unfold encodeBytes. rewrite map_app, concat_app. simpl. by rewrite app_nil_r.
Qed.

(** ** Lines of the whole article *)

Lemma split_lines_crlf l s :
  LF ∉ l -> split_lines (l ++ CRLF ++ s) = (l ++ [CR]) :: split_lines s.
Proof.
  intros Hl. replace (l ++ CRLF ++ s) with ((l ++ [CR]) ++ LF :: s) by (by rewrite <- app_assoc).
  apply split_lines_cons. intros H. apply elem_of_app in H as [H|H]; [done|].
  apply list_elem_of_singleton in H. done.
Qed.

Lemma drop_cr_crlf l : drop_cr (l ++ [CR]) = l.
Proof. by rewrite drop_cr_snoc. Qed.

Lemma split_lines_groups groups s :
  split_lines (concat (map (fun l => l ++ CRLF) (map encodeBytes groups)) ++ s) =
  map (fun g => encodeBytes g ++ [CR]) groups ++ split_lines s.
Proof.
  induction groups as [|g gs IH]; simpl; [done|].
  rewrite <- !app_assoc. rewrite split_lines_crlf.
  - by rewrite IH.
  - intros H. by destruct (encodeBytes_no_break _ _ H).
Qed.

(** The line machine over the data lines. *)
Lemma lrun_groups ph e p groups :
  ph = inData \/ (ph = afterBegin /\ groups <> []) -> Forall wf_bytes groups ->
  Forall (fun g => g <> []) groups ->
  lrun (mkL ph e p) (map encodeBytes groups) =
  mkL inData e (set_Data p (pData p ++ concat groups)).
Proof.
  intros Hph Hwf. revert ph p Hph. induction Hwf as [|g gs Hg Hgs IH]; intros ph p Hph Hne; simpl.
  - destruct Hph as [-> | [_ ?]]; [|done]. by rewrite app_nil_r, set_Data_id.
  - apply Forall_cons in Hne as [Hg0 Hne].
    assert (lstep (mkL ph e p) (encodeBytes g) = mkL inData e (set_Data p (pData p ++ g))) as ->.
    { pose proof (encodeBytes_not_keyword [] g (str "part ") Hg0) as K1.
      pose proof (encodeBytes_not_keyword [] g (str "end ") Hg0) as K2.
      rewrite app_nil_r in K1, K2.
      unfold lstep; cbn [lphase lenv lpart].
      change (str "=ypart ") with (EQ :: 121 :: str "part ").
      change (str "=yend ") with (EQ :: 121 :: str "end ").
      rewrite K1, K2. unfold append_data. rewrite decode_encodeBytes by done.
      destruct Hph as [-> | [-> _]]; done. }
    rewrite IH; [|by left|done]. simpl. by rewrite <- app_assoc.
Qed.

(** * The header lines of an encoded article *)

Definition num (k : bytes) (n : Z) : bytes := k ++ Itoa n.
Definition begin_fields (pn : option (Z * Z)) (size : Z) : list bytes :=
  match pn with
  | Some (n, t) => [num (str "part=") n; num (str "total=") t]
  | None => []
  end ++ [num (str "line=") defaultLineLength; num (str "size=") size].
Definition begin_line (pn : option (Z * Z)) (size : Z) (name : bytes) : bytes :=
  str "=ybegin" ++ spaced (begin_fields pn size) ++ SP :: str "name=" ++ name.
Definition part_line (b e : Z) : bytes :=
  str "=ypart" ++ spaced [num (str "begin=") b; num (str "end=") e].
Definition end_line (len : Z) (pn : option Z) (crc : Z) : bytes :=
  str "=yend" ++ spaced (num (str "size=") len ::
    match pn with
    | Some n => [num (str "part=") n; str "pcrc32=" ++ hex8 crc]
    | None => [str "crc32=" ++ hex8 crc]
    end).

Lemma Encode_lines name n t b e size data :
  Encode name n t b e size data =
  (if 1 <? t then begin_line (Some (n, t)) size name ++ CRLF ++ part_line b e ++ CRLF
   else begin_line None size name ++ CRLF)
  ++ writeEncodedData data defaultLineLength
  ++ end_line (Z.of_nat (length data)) (if 1 <? t then Some n else None) (ChecksumIEEE data)
  ++ CRLF.
Proof.
  unfold Encode, begin_line, part_line, end_line, spaced, begin_fields, num.
  destruct (1 <? t); cbn [map concat app]; rewrite !app_nil_r;
    repeat (rewrite <- app_assoc || rewrite <- app_comm_cons); reflexivity.
Qed.

Ltac field_side :=
  repeat match goal with
  | |- Forall field_ok (_ :: _) => constructor
  | |- Forall field_ok [] => constructor
  | |- field_ok (num _ _) => apply field_ok_num; [done|reflexivity|lia || done]
  | |- field_ok (str _) => split; [done|repeat constructor]
  | |- tail_ok [] => by left
  | |- tail_ok (SP :: _) => right; by eexists
  end.

Section Headers.
Context (n t b e size len : Z) (name : bytes).
Context (Hn : 0 <= n <= i64_max) (Ht : 0 <= t <= i64_max) (Hb : 0 <= b <= i64_max)
        (He : 0 <= e <= i64_max) (Hs : 0 <= size <= i64_max) (Hl : 0 <= len <= i64_max).

Lemma begin_param pn key :
  (pn = Some (n, t) \/ pn = None) ->
  paramValue (begin_line pn size name) key = find_param (str "=ybegin" :: begin_fields pn size) key.
Proof.
  intros Hpn. unfold begin_line. apply paramValue_fields.
  - field_side.
  - destruct Hpn as [-> | ->]; unfold begin_fields; cbn [app]; field_side.
  - field_side.
Qed.

Lemma begin_fields_mismatch pn :
  (pn = Some (n, t) \/ pn = None) ->
  all_mismatch (str "name=") (str "=ybegin" ++ spaced (begin_fields pn size) ++ [SP]) = true.
Proof.
  intros [-> | ->].
  - transitivity (all_mismatch (str "name=")
      (str "=ybegin part=" ++ Itoa n ++ str " total=" ++ Itoa t ++ str " line=" ++
       Itoa defaultLineLength ++ str " size=" ++ Itoa size ++ [SP])).
    { f_equal. unfold begin_fields, spaced, num; cbn [map concat app]; rewrite app_nil_r.
      repeat (rewrite <- app_assoc || rewrite <- app_comm_cons). reflexivity. }
    repeat apply all_mismatch_app; try reflexivity; apply all_mismatch_digits, Itoa_digits; lia || done.
  - transitivity (all_mismatch (str "name=")
      (str "=ybegin line=" ++ Itoa defaultLineLength ++ str " size=" ++ Itoa size ++ [SP])).
    { f_equal. unfold begin_fields, spaced, num; cbn [map concat app]; rewrite app_nil_r.
      repeat (rewrite <- app_assoc || rewrite <- app_comm_cons). reflexivity. }
    repeat apply all_mismatch_app; try reflexivity; apply all_mismatch_digits, Itoa_digits; lia || done.
Qed.

Lemma begin_name pn p :
  (pn = Some (n, t) \/ pn = None) -> TrimSpace name = name ->
  pName (parseYBegin p (begin_line pn size name)) = name.
Proof.
  intros Hpn Htrim. unfold parseYBegin; cbn [pName].
  pose proof (begin_fields_mismatch pn Hpn) as Hm.
  set (P := str "=ybegin" ++ spaced (begin_fields pn size) ++ [SP]) in *.
  assert (begin_line pn size name = P ++ str "name=" ++ name) as ->.
  { unfold begin_line, P. by rewrite <- !app_assoc. }
  rewrite index_skip by done.
  replace (index (str "name=") (str "name=" ++ name)) with (Some O) by reflexivity.
  cbn [fmap option_fmap option_map].
  replace (length P + 0 + 5)%nat with (length P + 5)%nat by lia.
  rewrite drop_app_add. exact Htrim.
Qed.
Lemma begin_multi_step :
  TrimSpace name = name -> 0 < size ->
  lstep lzero (begin_line (Some (n, t)) size name) =
  mkL afterBegin zeroEnv (mkPart name n t 0 0 size 0 []).
Proof.
  intros Htrim Hpos.
  assert (P1 : paramValue (begin_line (Some (n, t)) size name) (str "part") = Some (Itoa n))
    by (rewrite begin_param by (by left); reflexivity).
  assert (P2 : paramValue (begin_line (Some (n, t)) size name) (str "total") = Some (Itoa t))
    by (rewrite begin_param by (by left); reflexivity).
  assert (P3 : paramValue (begin_line (Some (n, t)) size name) (str "size") = Some (Itoa size))
    by (rewrite begin_param by (by left); reflexivity).
  assert (HB : parseYBegin zeroPart (begin_line (Some (n, t)) size name)
               = mkPart name n t 0 0 size 0 []).
  { pose proof (begin_name (Some (n, t)) zeroPart (or_introl eq_refl) Htrim) as HN.
    unfold parseYBegin in *. cbn [pName] in HN. rewrite HN.
    by rewrite (getIntParam_num _ _ _ P1), (getIntParam_num _ _ _ P2), (getIntParam_num _ _ _ P3). }
  unfold lstep, lzero, envelope_begin; cbn [lphase lenv lpart].
  replace (has_prefix (str "=ybegin ") (begin_line (Some (n, t)) size name)) with true by done.
  rewrite HB. cbn [check_decimals].
  rewrite P1, P2, P3, (requiredDecimal_num _ _ _ P1), (requiredDecimal_num _ _ _ P2),
    (requiredDecimal_num _ _ _ P3) by done.
  cbn [pName pSize]. destruct (Z.eqb_spec size 0); [lia|]. by rewrite andb_false_r.
Qed.

Lemma begin_single_step :
  TrimSpace name = name -> name <> [] \/ 0 < size ->
  lstep lzero (begin_line None size name) =
  mkL afterBegin zeroEnv (mkPart name 0 0 0 0 size 0 []).
Proof.
  intros Htrim Hpos.
  assert (P1 : paramValue (begin_line None size name) (str "part") = None)
    by (rewrite begin_param by (by right); reflexivity).
  assert (P2 : paramValue (begin_line None size name) (str "total") = None)
    by (rewrite begin_param by (by right); reflexivity).
  assert (P3 : paramValue (begin_line None size name) (str "size") = Some (Itoa size))
    by (rewrite begin_param by (by right); reflexivity).
  assert (HB : parseYBegin zeroPart (begin_line None size name) = mkPart name 0 0 0 0 size 0 []).
  { pose proof (begin_name None zeroPart (or_intror eq_refl) Htrim) as HN.
    unfold parseYBegin in *. cbn [pName] in HN. rewrite HN, (getIntParam_num _ _ _ P3) by done.
    unfold getIntParam. by rewrite P1, P2. }
  unfold lstep, lzero, envelope_begin; cbn [lphase lenv lpart].
  replace (has_prefix (str "=ybegin ") (begin_line None size name)) with true by done.
  rewrite HB. cbn [check_decimals].
  rewrite P1, P2, P3, (requiredDecimal_num _ _ _ P3) by done.
  cbn [pName pSize]. destruct Hpos as [Hne|Hpos]; [by destruct name|].
  destruct (Z.eqb_spec size 0); [lia|]. by rewrite andb_false_r.
Qed.

Lemma part_step p :
  lstep (mkL afterBegin zeroEnv p) (part_line b e) =
  mkL inData (mkEnv false false true 0 0 None) (set_Range p b e).
Proof.
  assert (HP : forall key, paramValue (part_line b e) key =
    find_param [str "=ypart"; num (str "begin=") b; num (str "end=") e] key).
  { intros key. unfold part_line.
    rewrite <- (app_nil_r (spaced [num (str "begin=") b; num (str "end=") e])).
    apply paramValue_fields; field_side. }
  unfold lstep; cbn [lphase lenv lpart].
  replace (has_prefix (str "=ypart ") (part_line b e)) with true by done.
  unfold envelope_part.
  rewrite (requiredDecimal_num _ (str "begin") b), (requiredDecimal_num _ (str "end") e)
    by (rewrite ?HP; done). done.
Qed.

Lemma end_param pn crc key :
  (pn = Some n \/ pn = None) -> 0 <= crc ->
  paramValue (end_line len pn crc) key =
  find_param (str "=yend" :: num (str "size=") len ::
    match pn with
    | Some m => [num (str "part=") m; str "pcrc32=" ++ hex8 crc]
    | None => [str "crc32=" ++ hex8 crc]
    end) key.
Proof.
  intros Hpn Hcrc.
  assert (Hhex : forall k, k <> [] -> forallb (fun x => negb (is_blank x)) k = true ->
            field_ok (k ++ hex8 crc)).
  { intros k Hne Hk. split; [by destruct k|]. apply Forall_app. split; [|by apply hex_nonblank].
    apply Forall_forall. intros x Hx. rewrite forallb_forall in Hk.
    apply list_elem_of_In in Hx. specialize (Hk x Hx). by destruct (is_blank x). }
  unfold end_line. rewrite <- (app_nil_r (spaced _)).
  apply paramValue_fields; destruct Hpn as [-> | ->]; field_side; by apply Hhex.
Qed.

Lemma end_multi_step p crc :
  0 <= crc < 2 ^ 32 -> pNumber p = n -> n <> 0 ->
  lstep (mkL inData (mkEnv false false true 0 0 None) p) (end_line len (Some n) crc) =
  mkL phaseEnded (mkEnv true true true len n None) (set_CRC32 p crc).
Proof.
  intros Hcrc Hnum Hnz. unfold lstep; cbn [lphase lenv lpart].
  replace (has_prefix (str "=yend ") (end_line len (Some n) crc)) with true by done.
  unfold envelope_trailer. rewrite Hnum.
  rewrite (requiredDecimal_num _ (str "size") len), (requiredDecimal_num _ (str "part") n)
    by (rewrite ?end_param; try done; auto; lia).
  destruct (Z.eqb_spec n 0); [done|]. cbn [negb trailer_crcs].
  rewrite !end_param by (auto; lia).
  replace (find_param _ (str "pcrc32")) with (Some (hex8 crc)) by done.
  replace (find_param _ (str "crc32")) with (@None bytes) by done.
  rewrite ParseUint_hex8 by done. unfold hex8. rewrite hex_digits_length. done.
Qed.

Lemma end_single_step ph e0 p crc :
  ph = inData \/ ph = afterBegin -> e0 = zeroEnv ->
  0 <= crc < 2 ^ 32 -> pNumber p = 0 -> pTotal p <= 1 ->
  lstep (mkL ph e0 p) (end_line len None crc) =
  mkL phaseEnded (mkEnv true true false len 0 None) (set_CRC32 p crc).
Proof.
  intros Hph -> Hcrc Hnum Htot. unfold lstep; cbn [lphase lenv lpart].
  replace (has_prefix (str "=ypart ") (end_line len None crc)) with false by done.
  replace (has_prefix (str "=yend ") (end_line len None crc)) with true by done.
  unfold envelope_trailer. rewrite Hnum.
  rewrite (requiredDecimal_num _ (str "size") len)
    by (rewrite ?end_param; try done; auto; lia).
  change (negb (0 =? 0)) with false. cbv iota. cbn [trailer_crcs].
  rewrite !end_param by (auto; lia).
  replace (find_param _ (str "pcrc32")) with (@None bytes) by done.
  replace (find_param _ (str "crc32")) with (Some (hex8 crc)) by done.
  rewrite ParseUint_hex8 by done. unfold hex8. rewrite hex_digits_length.
  destruct (Z.leb_spec (pTotal p) 1); [|lia].
  destruct Hph as [-> | ->]; done.
Qed.
End Headers.

(** * No header line breaks, and every header fits the scanner *)

Lemma dec_digits_length fuel m : (length (dec_digits fuel m) <= fuel)%nat.
Proof.
  revert m. induction fuel as [|fuel IH]; intros m; simpl; [lia|].
  case_if; [simpl; lia|]. rewrite length_app. specialize (IH (m / 10)). simpl. lia.
Qed.

Lemma Itoa_length m : 0 <= m <= i64_max -> (length (Itoa m) <= 64)%nat.
Proof.
  unfold i64_max. intros Hm. unfold Itoa. destruct (Z.ltb_spec m 0); [lia|].
  pose proof (dec_digits_length (S (Z.to_nat (Z.log2 m))) m).
  assert (Z.log2 m < 63).
  { destruct (decide (m = 0)) as [->|]; [by vm_compute|]. apply Z.log2_lt_pow2; lia. }
  lia.
Qed.

Lemma Itoa_no_LF m : 0 <= m -> LF ∉ Itoa m.
Proof.
  intros Hm H. pose proof (Itoa_digits m Hm) as Hd. rewrite Forall_forall in Hd.
  apply Hd in H. done.
Qed.

Lemma hex8_no_LF c : 0 <= c -> LF ∉ hex8 c.
Proof.
  unfold hex8. generalize 8%nat as w. intros w. revert c.
  induction w as [|w IH]; intros c Hc; simpl; [apply not_elem_of_nil|].
  apply not_elem_of_app. split; [apply IH, Z.div_pos; lia|].
  intros H. apply list_elem_of_singleton in H. pose proof (Z.mod_pos_bound c 16).
  unfold hex_digit, LF in H. case_if_in H; lia.
Qed.

Ltac no_lf :=
  repeat match goal with
  | |- LF ∉ _ ++ _ => apply not_elem_of_app; split
  | |- LF ∉ SP :: _ => apply not_elem_of_cons; split; [done|]
  | |- LF ∉ [] => apply not_elem_of_nil
  | |- LF ∉ str _ => apply (bool_decide_unpack _); vm_compute; exact I
  | |- LF ∉ Itoa _ => apply Itoa_no_LF; lia || done
  | |- LF ∉ hex8 _ => apply hex8_no_LF; lia
  end; try done.

Ltac fits :=
  repeat (rewrite length_app || rewrite length_cons);
  repeat match goal with
  | |- context [length (str ?s)] =>
      let k := eval vm_compute in (length (str s)) in change (length (str s)) with k
  end;
  cbn [length]; lia.

Section Fits.
Context (n t b e size len : Z) (name : bytes) (crc : Z).
Context (Hn : 0 <= n <= i64_max) (Ht : 0 <= t <= i64_max) (Hb : 0 <= b <= i64_max)
        (He : 0 <= e <= i64_max) (Hs : 0 <= size <= i64_max) (Hl : 0 <= len <= i64_max)
        (Hcrc : 0 <= crc).
Context (Hname : LF ∉ name) (Hlen : Z.of_nat (length name) + 400 < maxToken).

Lemma begin_line_ok pn :
  (pn = Some (n, t) \/ pn = None) ->
  (LF ∉ begin_line pn size name) /\ Z.of_nat (length (begin_line pn size name)) + 1 < maxToken.
Proof.
  pose proof (Itoa_length n Hn). pose proof (Itoa_length t Ht). pose proof (Itoa_length size Hs).
  pose proof (Itoa_length defaultLineLength ltac:(done)).
  intros [-> | ->]; unfold begin_line, begin_fields, spaced, num; cbn [map concat app].
  all: split; [no_lf|fits].
Qed.

Lemma part_line_ok :
  (LF ∉ part_line b e) /\ Z.of_nat (length (part_line b e)) + 1 < maxToken.
Proof.
  pose proof (Itoa_length b Hb). pose proof (Itoa_length e He).
  unfold part_line, spaced, num; cbn [map concat]. split; [no_lf|fits].
Qed.

Lemma end_line_ok pn :
  (pn = Some n \/ pn = None) ->
  (LF ∉ end_line len pn crc) /\ Z.of_nat (length (end_line len pn crc)) + 1 < maxToken.
Proof.
  pose proof (Itoa_length n Hn). pose proof (Itoa_length len Hl).
  pose proof (hex_digits_length 8 crc) as Hh. change (hex_digits 8 crc) with (hex8 crc) in Hh.
  intros [-> | ->]; unfold end_line, spaced, num; cbn [map concat]; (split; [no_lf|fits]).
Qed.
End Fits.

(** * The article as lines *)

Definition lines_ok (ls : list bytes) : Prop :=
  Forall (fun l => (LF ∉ l) /\ Z.of_nat (length l) + 1 < maxToken) ls.

Lemma split_lines_all ls :
  Forall (fun l => LF ∉ l) ls -> split_lines (concat (map (fun l => l ++ CRLF) ls)) = map (fun l => l ++ [CR]) ls.
Proof.
  induction 1 as [|l ls Hl Hls IH]; simpl; [done|].
  rewrite <- app_assoc, split_lines_crlf by done. by rewrite IH.
Qed.

(** Decoding CRLF-terminated lines is running the line machine over them. *)
Lemma Decode_crlf ls :
  lines_ok ls -> Decode (concat (map (fun l => l ++ CRLF) ls)) = lfinish (lrun lzero ls).
Proof.
  intros Hok. assert (Hlf : Forall (fun l => LF ∉ l) ls)
    by (eapply Forall_impl; [exact Hok|]; by intros ? []).
  assert (Hs := split_lines_all ls Hlf).
  rewrite Decode_lines.
  - rewrite Hs, map_map. do 2 f_equal.
    rewrite <- (map_id ls) at 2. apply map_ext. intros l. apply drop_cr_crlf.
  - unfold lines_fit. rewrite Hs. apply Forall_map. eapply Forall_impl; [exact Hok|].
    intros l [_ Hl]. simpl. rewrite length_app. simpl. lia.
Qed.

Lemma writeEncodedData_lines data :
  exists groups,
    writeEncodedData data defaultLineLength = concat (map (fun l => l ++ CRLF) (map encodeBytes groups)) /\
    concat groups = data /\ Forall (fun g => g <> []) groups /\
    lines_ok (map encodeBytes groups).
Proof.
  destruct (enc_lines_groups [] data defaultLineLength) as (gs & H1 & H2 & H3 & H4).
  { unfold defaultLineLength. lia. } { unfold defaultLineLength. simpl. lia. }
  exists gs. rewrite <- H1. split; [apply (enc_lines_write [])|]. split; [done|]. split; [done|].
  rewrite H1. apply Forall_map. eapply Forall_impl; [exact H4|]. intros g Hg. split.
  - intros H. by destruct (encodeBytes_no_break _ _ H).
  - unfold defaultLineLength, maxToken in *. lia.
Qed.

Lemma wf_groups gs : wf_bytes (concat gs) -> Forall wf_bytes gs.
Proof.
  induction gs as [|g gs IH]; simpl; intros H; [constructor|].
  apply Forall_app in H as [H1 H2]. constructor; auto.
Qed.

(** * Claims *)

(** The fields of a multipart article that [Encode] documents: a 1-based part
    number, an inclusive 1-based byte range of the data's length inside the
    file, and a name that is its own trimmed form on one line. *)
Definition multipart_args (name : bytes) (n t b e size : Z) (data : bytes) : Prop :=
  1 < t <= i64_max /\ 1 <= n <= t /\ 1 <= b <= e /\ e <= size <= i64_max /\
  e - b + 1 = Z.of_nat (length data) /\ wf_bytes data /\
  TrimSpace name = name /\ (LF ∉ name) /\ Z.of_nat (length name) + 400 < maxToken.

#[export] Instance multipart_args_dec name n t b e size data :
  Decision (multipart_args name n t b e size data).
Proof. unfold multipart_args. apply _. Defined.

(** C2: Decoding the encoding of one part of a multipart file returns that
    part: its name, number, range, file size, checksum and exactly its bytes. *)
Theorem Decode_Encode_multipart name n t b e size data :
  multipart_args name n t b e size data ->
  Decode (Encode name n t b e size data) =
  Ok (mkPart name n t b e size (ChecksumIEEE data) data).
Proof.
  intros (Ht & Hn & Hb & He & Hd & Hwf & Htrim & Hlf & Hlen).
  destruct (writeEncodedData_lines data) as (gs & HW & Hcat & Hne & Hok).
  pose proof (ChecksumIEEE_u32 data Hwf) as Hcrc.
  set (crc := ChecksumIEEE data) in *. set (len := Z.of_nat (length data)) in *.
  assert (Hl : 0 <= len <= i64_max) by lia.
  rewrite Encode_lines. replace (1 <? t) with true by lia. rewrite HW.
  transitivity (Decode (concat (map (fun l => l ++ CRLF)
    ([begin_line (Some (n, t)) size name; part_line b e] ++ map encodeBytes gs
     ++ [end_line len (Some n) crc])))).
  { f_equal. rewrite !map_app, !concat_app. simpl. rewrite !app_nil_r. by rewrite <- !app_assoc. }
  rewrite Decode_crlf.
  2:{ unfold lines_ok. repeat (apply Forall_app; split); [|done|].
      - apply Forall_cons; split; [eapply begin_line_ok; auto; lia|].
        apply Forall_singleton. eapply part_line_ok; try exact Hlen; auto; lia.
      - apply Forall_singleton. eapply end_line_ok; try exact Hlen; auto; lia. }
  unfold lrun. rewrite !fold_left_app. cbn [fold_left].
  rewrite begin_multi_step, part_step by (done || lia).
  fold (lrun (mkL inData (mkEnv false false true 0 0 None)
          (set_Range (mkPart name n t 0 0 size 0 []) b e)) (map encodeBytes gs)).
  rewrite lrun_groups; [|by left|by apply wf_groups; rewrite Hcat|done].
  rewrite Hcat. rewrite end_multi_step by (done || lia).
  unfold lfinish, validate, validateBounds, validateMultipart, normalizeSinglePart; simpl.
  fold len. rewrite Z.eqb_refl. fold crc. rewrite (Z.eqb_refl crc), (Z.eqb_refl n).
  assert (Hbound : wrap_i64 (e - b + 1) = len) by (rewrite wrap_i64_id; [done|unfold is_i64, i64_min; lia]).
  rewrite Hbound, Z.eqb_refl.
  replace (size <? 0) with false by lia. replace (b <? 1) with false by lia.
  replace (e <? b) with false by lia. replace (size <? e) with false by lia.
  replace (n <? 1) with false by lia. replace (t <? n) with false by lia.
  replace (n =? 0) with false by lia. replace (b =? 0) with false by lia.
  rewrite andb_false_r. done.
Qed.

Lemma Decode_Encode_multipart_witness :
  multipart_args (str "Movie 2024.mkv") 2 3 6 10 12 (str "hello") /\
  Decode (Encode (str "Movie 2024.mkv") 2 3 6 10 12 (str "hello")) =
  Ok (mkPart (str "Movie 2024.mkv") 2 3 6 10 12 (ChecksumIEEE (str "hello")) (str "hello")).
Proof.
  assert (H : multipart_args (str "Movie 2024.mkv") 2 3 6 10 12 (str "hello"))
    by (refine (bool_decide_unpack _ _); vm_compute; exact I).
  split; [exact H|]. exact (Decode_Encode_multipart _ _ _ _ _ _ _ H).
Defined.

(** A single-part article: the size is unknown (0) or the data's length, and
    the header names the file or its size. *)
Definition singlepart_args (name : bytes) (t size : Z) (data : bytes) : Prop :=
  t <= 1 /\ (size = 0 \/ size = Z.of_nat (length data)) /\ (name <> [] \/ 0 < size) /\
  Z.of_nat (length data) <= i64_max /\ wf_bytes data /\
  TrimSpace name = name /\ (LF ∉ name) /\ Z.of_nat (length name) + 400 < maxToken.

#[export] Instance singlepart_args_dec name t size data :
  Decision (singlepart_args name t size data).
Proof. unfold singlepart_args. apply _. Defined.

Lemma lrun_single gs e p :
  Forall wf_bytes gs -> Forall (fun g => g <> []) gs -> pData p = [] ->
  exists ph, (ph = inData \/ ph = afterBegin) /\
    lrun (mkL afterBegin e p) (map encodeBytes gs) = mkL ph e (set_Data p (concat gs)).
Proof.
  intros Hwf Hne Hp. destruct gs as [|g gs].
  - exists afterBegin. split; [by right|]. simpl. rewrite <- Hp. by rewrite set_Data_id.
  - exists inData. split; [by left|]. rewrite lrun_groups; [|right; done|done|done].
    by rewrite Hp.
Qed.

(** Decoding the encoding of a single-part file returns its name, its
    checksum and exactly its bytes, with the range [1, len] filled in for a
    non-empty file. *)
Lemma Decode_Encode_single name n t b e size data :
  singlepart_args name t size data ->
  Decode (Encode name n t b e size data) =
  Ok (normalizeSinglePart (mkPart name 0 0 0 0 size (ChecksumIEEE data) data)).
Proof.
  intros (Ht & Hsz & Hnm & Hmax & Hwf & Htrim & Hlf & Hlen).
  destruct (writeEncodedData_lines data) as (gs & HW & Hcat & Hne & Hok).
  pose proof (ChecksumIEEE_u32 data Hwf) as Hcrc.
  set (crc := ChecksumIEEE data) in *. set (len := Z.of_nat (length data)) in *.
  assert (Hl : 0 <= len <= i64_max) by lia. assert (Hs : 0 <= size <= i64_max) by lia.
  rewrite Encode_lines. replace (1 <? t) with false by lia. rewrite HW.
  transitivity (Decode (concat (map (fun l => l ++ CRLF)
    ([begin_line None size name] ++ map encodeBytes gs ++ [end_line len None crc])))).
  { f_equal. rewrite !map_app, !concat_app. simpl. rewrite !app_nil_r. by rewrite <- !app_assoc. }
  rewrite Decode_crlf.
  2:{ unfold lines_ok. repeat (apply Forall_app; split); [|done|]; apply Forall_singleton.
      - eapply (begin_line_ok 0 0); auto; done.
      - eapply (end_line_ok 0); try exact Hlen; auto; lia || done. }
  unfold lrun. rewrite !fold_left_app. cbn [fold_left].
  rewrite (begin_single_step 0 0) by (done || lia).
  destruct (lrun_single gs zeroEnv (mkPart name 0 0 0 0 size 0 [])) as (ph & Hph & HR);
    [by apply wf_groups; rewrite Hcat|done|done|].
  unfold lrun in HR. rewrite HR, Hcat. rewrite (end_single_step 0) by (done || lia).
  unfold lfinish, validate, validateBounds; simpl. fold len. rewrite Z.eqb_refl. fold crc.
  rewrite Z.eqb_refl. replace (size <? 0) with false by lia.
  replace (negb (size =? 0) && negb (size =? len)) with false; [done|].
  destruct Hsz as [-> | ->]; [done|]. rewrite Z.eqb_refl. by rewrite andb_false_r.
Qed.

Lemma Decode_Encode_single_witness :
  singlepart_args (str "x.nfo") 1 5 (str "hello") /\
  Decode (Encode (str "x.nfo") 1 1 1 5 5 (str "hello")) =
  Ok (normalizeSinglePart (mkPart (str "x.nfo") 0 0 0 0 5 (ChecksumIEEE (str "hello")) (str "hello"))).
Proof.
  assert (H : singlepart_args (str "x.nfo") 1 5 (str "hello"))
    by (refine (bool_decide_unpack _ _); vm_compute; exact I).
  split; [exact H|]. exact (Decode_Encode_single _ 1 _ 1 5 _ _ H).
Defined.
