(* ===== verification/YencSound.v ===== *)
(** What a successful decode guarantees (internal/usenet/yenc/integrity.go):
    the part's range has the length of its data and lies inside the file, and
    its checksum is the checksum of its data.  The streaming index relies on
    exactly this. *)
From Stdlib Require Import ZArith Lia Ascii String.
From stdpp Require Import prelude list strings.
From S2P Require Import Prelude GoStrings Crc32 Yenc YencInPlace.

Open Scope Z_scope.

(** * Statement *)

(** A part the streaming index can place: empty, or with a 1-based inclusive
    range of the data's length inside the file. *)
Definition consistent (p : Part) : Prop :=
  pData p = [] \/
  (1 <= pBegin p <= pEnd p /\ pEnd p <= pSize p /\
   pEnd p - pBegin p + 1 = Z.of_nat (length (pData p))).

(** What the decoding loop maintains between the headers and the trailer. *)
Definition decode_inv (e : envelope) (p : Part) : Prop :=
  pSize p <= i64_max /\ (checksumPresent e = false -> pCRC32 p = 0) /\
  (hasRange e = false -> pBegin p = 0 /\ pEnd p = 0).

(** * Proofs *)

Lemma getIntParam_range line key : is_i64 (getIntParam line key).
Proof.
  unfold getIntParam. destruct (paramValue line key); [apply ParseInt_range|].
  unfold is_i64, i64_min, i64_max. lia.
Qed.

Lemma check_decimals_keeps e line keys :
  checksumPresent (check_decimals e line keys) = checksumPresent e /\
  hasRange (check_decimals e line keys) = hasRange e.
Proof.
  induction keys as [|k ks IH]; simpl; [done|]. destruct (paramValue line k); [|done].
  by destruct (requiredDecimal line k).
Qed.

Lemma ybegin_inv e p line :
  decode_inv e p ->
  let '(e', p') := envelope_begin e p line in decode_inv e' p'.
Proof.
  intros (_ & Hc & Hr0). unfold envelope_begin, decode_inv.
  destruct (check_decimals_keeps e line [str "size"; str "part"; str "total"]) as [-> ->].
  pose proof (getIntParam_range line (str "size")) as [_ Hr]. done.
Qed.

Lemma part_inv e p line :
  decode_inv e p -> let '(e', p') := envelope_part e p line in decode_inv e' p'.
Proof.
  unfold envelope_part, decode_inv. intros (Hs & Hc & Hr).
  destruct (requiredDecimal line (str "begin")); [destruct (requiredDecimal line (str "end"))|]; done.
Qed.

Lemma crcs_inv e p line keys :
  decode_inv e p -> let '(e', p') := trailer_crcs e p line keys in decode_inv e' p'.
Proof.
  revert e p. induction keys as [|k ks IH]; intros e p Hi; simpl; [done|].
  destruct (paramValue line k); [|by apply IH]. destruct (ParseUint _ _ _) as [crc []]; try done.
  case_if; [|done]. case_if; [|by apply IH]. apply IH.
  destruct Hi as (H1 & H2 & H3). split; [done|]. split; [done|exact H3].
Qed.

Lemma trailer_inv e p line :
  decode_inv e p -> let '(e', p') := envelope_trailer e p line in decode_inv e' p'.
Proof.
  intros Hi. unfold envelope_trailer. destruct (requiredDecimal line (str "size")); [|done].
  case_if; [destruct (requiredDecimal line (str "part")); [|done]|]; by apply crcs_inv.
Qed.

Lemma data_loop_inv e p ls :
  decode_inv e p -> let '(e', p', _) := data_loop e p ls in decode_inv e' p'.
Proof.
  revert p. induction ls as [|l ls IH]; intros p Hi; simpl; destruct (ended e); try done.
  case_if; [|by apply IH]. pose proof (trailer_inv e p l Hi).
  by destruct (envelope_trailer e p l).
Qed.

(** The bounds check leaves a part whose range is the data's. *)
Lemma validate_consistent e p :
  validate e p = None -> decode_inv e p -> consistent (normalizeSinglePart p).
Proof.
  unfold validate. destruct (eerr e); [done|]. destruct (ended e); [|done]. simpl.
  destruct (Z.eqb_spec (elength e) (Z.of_nat (length (pData p)))) as [Hl|]; [|done]. simpl.
  destruct (validateBounds e p) eqn:Hb; [done|]. intros _ (Hsz & _ & Hr). revert Hb.
  unfold validateBounds, validateMultipart, consistent, normalizeSinglePart.
  case_if; [done|]. case_if.
  - case_if; [done|]. bprop. intros _. right.
    match goal with H : wrap_i64 _ = _ |- _ => rename H into Hw end.
    rewrite wrap_i64_id in Hw by (unfold is_i64, i64_min; lia).
    destruct (Z.eqb_spec (pBegin p) 0); [lia|]. simpl. lia.
  - bprop. destruct Hr as [-> ->]; [done|]. intros Hs.
    destruct (pData p) as [|x d] eqn:Ed; simpl; [by left|]. right.
    simpl in Hl. destruct (Z.eqb_spec (pSize p) 0), (Z.eqb_spec (pSize p) (elength e));
      simpl in Hs; try done; lia.
Qed.

Lemma validate_checksum e p :
  validate e p = None -> decode_inv e p ->
  pCRC32 p = 0 \/ pCRC32 p = ChecksumIEEE (pData p).
Proof.
  unfold validate. destruct (eerr e); [done|]. destruct (negb (ended e)); [done|].
  case_if; [done|]. destruct (validateBounds e p); [done|]. intros Hv (_ & Hc & _).
  destruct (checksumPresent e); [|by left; apply Hc].
  destruct (Z.eqb_spec (ChecksumIEEE (pData p)) (pCRC32 p)); [by right|done].
Qed.

(** A part with a place has an end offset that fits an int64. *)
Lemma validated_end e p :
  validate e p = None -> decode_inv e p -> Z.of_nat (length (pData p)) <= i64_max ->
  let part := normalizeSinglePart p in
  pBegin part <= 0 \/ pBegin part - 1 + Z.of_nat (length (pData part)) <= i64_max.
Proof.
  unfold validate. destruct (eerr e); [done|]. destruct (ended e); [|done]. simpl.
  destruct (Z.eqb_spec (elength e) (Z.of_nat (length (pData p)))) as [Hl|]; [|done]. simpl.
  destruct (validateBounds e p) eqn:Hb; [done|]. intros _ (Hsz & _ & Hr) Hn. revert Hb.
  unfold validateBounds, validateMultipart, normalizeSinglePart.
  case_if; [done|]. case_if.
  - case_if; [done|]. bprop. intros _. right.
    match goal with H : wrap_i64 _ = _ |- _ => rename H into Hw end.
    rewrite wrap_i64_id in Hw by (unfold is_i64, i64_min; lia).
    destruct (Z.eqb_spec (pBegin p) 0); [lia|]. simpl. lia.
  - bprop. destruct Hr as [Hb1 Hb2]; [done|]. rewrite Hb1, Hb2. intros _.
    destruct (pData p) as [|x d] eqn:Ed; cbn [Z.eqb negb orb length Nat.eqb pBegin pData].
    + left. lia.
    + right. cbn [length] in Hn. lia.
Qed.

Lemma decode_scanned_valid ls tl part :
  decode_scanned ls tl = Ok part ->
  exists e p, validate e p = None /\ decode_inv e p /\ part = normalizeSinglePart p.
Proof.
  unfold decode_scanned. destruct (seek_begin ls) as [[l0 rest]|]; [|done].
  assert (H0 : decode_inv zeroEnv zeroPart) by (unfold decode_inv, i64_max; simpl; lia).
  pose proof (ybegin_inv _ _ l0 H0) as H1. destruct (envelope_begin zeroEnv zeroPart l0) as [e0 p0].
  case_if; [done|].
  assert (HD : let '(e, p, _) := match rest with
          | [] => data_loop e0 p0 []
          | l1 :: rest' =>
              if has_prefix (str "=ypart ") l1
              then let '(e1, p1) := envelope_part e0 p0 l1 in data_loop e1 p1 rest'
              else if has_prefix (str "=yend ") l1
              then let '(e1, p1) := envelope_trailer e0 p0 l1 in data_loop e1 p1 rest'
              else data_loop e0 (append_data p0 l1) rest'
          end in decode_inv e p).
  { destruct rest as [|l1 rest]; [by apply data_loop_inv|]. repeat case_if.
    - pose proof (part_inv e0 p0 l1 H1). destruct (envelope_part e0 p0 l1). by apply data_loop_inv.
    - pose proof (trailer_inv e0 p0 l1 H1). destruct (envelope_trailer e0 p0 l1).
      by apply data_loop_inv.
    - by apply data_loop_inv. }
  destruct (match rest with [] => _ | _ => _ end) as [[e p] x].
  case_if; [done|]. destruct (validate e p) eqn:Hv; [done|]. intros [= <-]. eauto.
Qed.

(** * Claims *)

(** Every part the decoder returns is self-consistent: it is empty, or its
    1-based inclusive range lies inside the file and has exactly the length of
    the decoded data. *)
Lemma Decode_consistent (body : bytes) (part : Part) :
  Decode body = Ok part -> consistent part.
Proof.
  unfold Decode. destruct (scan maxToken (split_lines body)) as [ls tl]. intros H.
  destruct (decode_scanned_valid _ _ _ H) as (e & p & Hv & Hi & ->).
  by apply (validate_consistent e).
Qed.

Lemma Decode_range (body : bytes) (part : Part) :
  Decode body = Ok part -> Z.of_nat (length (pData part)) <= i64_max ->
  pBegin part <= 0 \/ pBegin part - 1 + Z.of_nat (length (pData part)) <= i64_max.
Proof.
  unfold Decode. destruct (scan maxToken (split_lines body)) as [ls tl]. intros H.
  destruct (decode_scanned_valid _ _ _ H) as (e & p & Hv & Hi & ->). intros Hn.
  apply (validated_end e p Hv Hi). revert Hn. unfold normalizeSinglePart. by case_if.
Qed.

Lemma Decode_consistent_witness :
  exists part, Decode sample_article = Ok part /\ consistent part.
Proof.
  let r := eval vm_compute in (Decode sample_article) in
  match r with Ok ?p =>
    assert (H : Decode sample_article = Ok p) by (vm_compute; reflexivity);
    exists p; exact (conj H (Decode_consistent _ p H))
  end.
Defined.

(** The data a part carries is what its trailer's checksum was computed over. *)
Definition checksummed (part : Part) : Prop :=
  pCRC32 part = 0 \/ pCRC32 part = ChecksumIEEE (pData part).

(** A corrupt body is never returned: the checksum a decoded part carries
    is the CRC-32 of the data returned with it (or none was posted). *)
Lemma Decode_checksum (body : bytes) (part : Part) :
  Decode body = Ok part -> checksummed part.
Proof.
  unfold checksummed, Decode. destruct (scan maxToken (split_lines body)) as [ls tl]. intros H.
  destruct (decode_scanned_valid _ _ _ H) as (e & p & Hv & Hi & ->).
  rewrite normalize_Data. destruct (validate_checksum e p Hv Hi) as [Hz|Hz];
    unfold normalizeSinglePart; case_if; simpl; auto.
Qed.

Lemma Decode_checksum_witness :
  exists part, Decode sample_article = Ok part /\ pCRC32 part <> 0 /\ checksummed part.
Proof.
  let r := eval vm_compute in (Decode sample_article) in
  match r with Ok ?p =>
    assert (H : Decode sample_article = Ok p) by (vm_compute; reflexivity);
    exists p; split; [exact H|split; [vm_compute; discriminate|exact (Decode_checksum _ p H)]]
  end.
Defined.
