(* ===== verification/Nzb.v ===== *)
(** The NZB model: internal/usenet/nzb/parser.go, internal/usenet/nzb/segments.go
    and the message-id check of internal/usenet/nntp/arguments.go.

    [Parse] is modelled from the decoded XML tree ([xmlNZB]) on: the tokenizer
    of encoding/xml fills exactly those records.  The regular expressions of the
    file are spelled out as the deterministic matchers they are. *)
From Stdlib Require Import ZArith Lia Ascii String.
From stdpp Require Import prelude list gmap strings.
From S2P Require Import Prelude GoStrings.

Open Scope Z_scope.
Open Scope go_scope.

(** * Data *)

Record Segment := mkSegment { sBytes : Z; sNumber : Z; sMessageID : bytes }.
Record File := mkFile {
  fPoster : bytes; fDate : Z; fSubject : bytes; fGroups : list bytes;
  fSegments : list Segment
}.
Record NZB := mkNZB {
  nFiles : list File; nPassword : bytes; nMeta : gmap bytes bytes
}.

Record xmlMeta := mkXmlMeta { mType : bytes; mValue : bytes }.
Record xmlSegment := mkXmlSegment { xBytes : bytes; xNumber : bytes; xMessageID : bytes }.
Record xmlFile := mkXmlFile {
  xPoster : bytes; xDate : bytes; xSubject : bytes; xGroups : list bytes;
  xSegments : list xmlSegment
}.
Record xmlNZB := mkXmlNZB { xHead : list xmlMeta; xFiles : list xmlFile }.

#[global] Instance Segment_eq_dec : EqDecision Segment.
Proof. solve_decision. Defined.
#[global] Instance File_eq_dec : EqDecision File.
Proof. solve_decision. Defined.

Inductive nzb_err :=
| NoFiles
| InvalidMessageID (num : Z)
| NoValidFiles.

(** * Message ids (nntp/arguments.go) *)

Definition bad_id_byte (b : Z) : bool :=
  (b <=? 32) || (127 <=? b) || (b =? 60) || (b =? 62).

Definition NormalizeMessageID (id : bytes) : option bytes :=
  let id :=
    if has_prefix [60] id && has_suffix [62] id
    then take (length id - 2) (drop 1 id) else id in
  match id with
  | [] => None
  | _ => if existsb bad_id_byte id then None else Some id
  end.

(** * Segment order (nzb/segments.go) *)

Definition SortSegmentsByNumber `{GoSort Segment} (segs : list Segment) : list Segment :=
  sort_Slice (fun a b => sNumber a <? sNumber b) segs.

Fixpoint offsets_from (off : Z) (segs : list Segment) : list Z :=
  match segs with
  | [] => []
  | s :: segs' => off :: offsets_from (wrap_i64 (off + sBytes s)) segs'
  end.
Definition EstimatedByteOffsets (segs : list Segment) : list Z := offsets_from 0 segs.

(** * Parse *)

Fixpoint parse_segments (xs : list xmlSegment) : result nzb_err (list Segment) :=
  match xs with
  | [] => Ok []
  | rs :: xs' =>
      let bytes := fst (ParseInt (xBytes rs)) in
      let num := fst (Atoi (xNumber rs)) in
      let msgID := TrimSpace (xMessageID rs) in
      match msgID with
      | [] => parse_segments xs'
      | _ =>
          match NormalizeMessageID msgID with
          | None => Err (InvalidMessageID num)
          | Some id =>
              try segs := parse_segments xs' in Ok (mkSegment bytes num id :: segs)
          end
      end
  end.

Fixpoint parse_files (fs : list xmlFile) : result nzb_err (list File) :=
  match fs with
  | [] => Ok []
  | rf :: fs' =>
      try segs := parse_segments (xSegments rf) in
      try files := parse_files fs' in
      match segs with
      | [] => Ok files
      | _ => Ok (mkFile (xPoster rf) (fst (ParseInt (xDate rf))) (xSubject rf)
                        (xGroups rf) segs :: files)
      end
  end.

Definition add_meta (meta : gmap bytes bytes) (m : xmlMeta) : gmap bytes bytes :=
  match mType m with
  | [] => meta
  | t => <[t := TrimSpace (mValue m)]> meta
  end.

Definition Parse (raw : xmlNZB) : result nzb_err NZB :=
  match xFiles raw with
  | [] => Err NoFiles
  | _ =>
      let meta := fold_left add_meta (xHead raw) ∅ in
      let password := default [] (meta !! str "password") in
      try files := parse_files (xFiles raw) in
      match files with
      | [] => Err NoValidFiles
      | _ => Ok (mkNZB files password meta)
      end
  end.

(** * Sizes *)

Definition File_TotalBytes (f : File) : Z :=
  fold_left (fun t s => wrap_i64 (t + sBytes s)) (fSegments f) 0.
Definition TotalBytes (n : NZB) : Z :=
  fold_left (fun t f => wrap_i64 (t + File_TotalBytes f)) (nFiles n) 0.
Definition TotalSegments (n : NZB) : nat :=
  fold_left (fun t f => (t + length (fSegments f))%nat) (nFiles n) 0%nat.

(** * File names *)

Definition is_re_space (b : Z) : bool :=
  (b =? 9) || (b =? 10) || (b =? 12) || (b =? 13) || (b =? 32).
Definition not_quote (b : Z) : bool := negb (b =? QUOTE).

(** [subjectFilenameRe]: the leftmost quoted, non-empty run. *)
Fixpoint quoted_name (s : bytes) : option bytes :=
  match s with
  | [] => None
  | b :: s' =>
      if b =? QUOTE then
        match span not_quote s' with
        | ((_ :: _) as name, _ :: _) => Some name
        | _ => quoted_name s'
        end
      else quoted_name s'
  end.

(** One or more digits at the front of the input. *)
Definition digits1 (s : bytes) : option bytes :=
  match span is_digit s with (_ :: _, r) => Some r | ([], _) => None end.

(** What follows a match of [yencPartRe] at the front of the input. *)
Definition match_part (s : bytes) : option bytes :=
  match cut_prefix [40] (snd (span is_re_space s)) with
  | None => None
  | Some s1 =>
      match digits1 s1 with
      | None => None
      | Some s2 =>
          match cut_prefix [47] s2 with
          | None => None
          | Some s3 =>
              match digits1 s3 with
              | None => None
              | Some s4 =>
                  match cut_prefix [41] s4 with
                  | None => None
                  | Some s5 => Some (snd (span is_re_space s5))
                  end
              end
          end
      end
  end.
(** [yencPartRe.ReplaceAllString(s, "")]; a match is never empty, so the length
    is enough fuel. *)
Fixpoint remove_parts (fuel : nat) (s : bytes) : bytes :=
  match fuel with
  | O => s
  | S f =>
      match match_part s with
      | Some r => remove_parts f r
      | None => match s with [] => [] | b :: s' => b :: remove_parts f s' end
      end
  end.

(** Slash, backslash, colon, star, question mark, quote, angle brackets, bar. *)
Definition invalid_path_chars : bytes := [47; 92; 58; 42; 63; 34; 60; 62; 124].

Definition sanitizeFilename (s : bytes) : bytes :=
  let s := remove_parts (length s) s in
  let s := remove_all (length s) (str "yEnc") s in
  let s := TrimSpace s in
  fold_left (fun s c => replace_byte c 95 s) invalid_path_chars s.

Definition Filename (f : File) : bytes :=
  match quoted_name (fSubject f) with
  | Some name => name
  | None => sanitizeFilename (fSubject f)
  end.

Definition Extension (f : File) : bytes := ToLower (Ext (Filename f)).

(** * Classification by name *)

Definition isMetadataFile (name : bytes) : bool :=
  existsb (bytes_eqb (ToLower (Ext name)))
    (map str [".par2"; ".nfo"; ".sfv"; ".nzb"; ".txt"; ".jpg"; ".png"; ".url"]%string).

Definition isAlphaNum (b : Z) : bool :=
  ((97 <=? b) && (b <=? 122)) || ((48 <=? b) && (b <=? 57)).

Definition isSampleFile (name : bytes) : bool :=
  let lower := ToLower name in
  match index (str "sample") lower with
  | None => false
  | Some idx =>
      let before := match idx with
                    | O => false
                    | S i => match lower !! i with Some b => isAlphaNum b | None => false end
                    end in
      let after := match lower !! (idx + 6)%nat with
                   | Some b => isAlphaNum b | None => false end in
      negb before && negb after
  end.

Definition atoi_ok (s : bytes) : bool :=
  match snd (Atoi s) with NumOk => true | _ => false end.

Definition isRarFile (name : bytes) : bool :=
  let ext := Ext (ToLower name) in
  if bytes_eqb ext (str ".rar") then true
  else match ext with
       | [_; a; b; c] =>
           if (114 <=? a) && (a <=? 122) then atoi_ok [b; c] else atoi_ok [a; b; c]
       | _ => false
       end.

(** The letter of a .t00-.z99 extension, [None] for the code's 0. *)
Definition rolloverLetter (name : bytes) : option Z :=
  match ToLower (Ext name) with
  | [_; a; b; c] =>
      if (a <? 116) || (122 <? a) then None
      else if atoi_ok [b; c] then Some a else None
  | _ => None
  end.

(** [par2VolRe]: [.vol], digits, [+], digits, [.par2] at the end, ignoring ASCII case; the match
    is read backwards. *)
Definition par2Vol (name : bytes) : bool :=
  match cut_prefix (rev (str ".par2")) (rev (map fold_byte name)) with
  | None => false
  | Some s1 =>
      match digits1 s1 with
      | None => false
      | Some s2 =>
          match cut_prefix [43] s2 with
          | None => false
          | Some s3 =>
              match digits1 s3 with
              | None => false
              | Some s4 => has_prefix (rev (str ".vol")) s4
              end
          end
      end
  end.

(** isHexLike: the float test [hex/len > 0.8] is the exact comparison
    [5 hex > 4 len]: two such quotients on either side of 4/5 differ by at
    least 1/(5 len), far above the rounding of a float64 for any length a
    string can have, and 4/5 itself rounds to the constant 0.8. *)
Definition is_hex_byte (b : Z) : bool :=
  ((48 <=? b) && (b <=? 57)) || ((97 <=? b) && (b <=? 102)) || ((65 <=? b) && (b <=? 70)).
Definition isHexLike (s : bytes) : bool :=
  (4 * length s <? 5 * length (filter (fun b => is_hex_byte b = true) s))%nat.

Definition IsObfuscatedName (name : bytes) : bool :=
  let base := default name (cut_suffix (Ext name) name) in
  (10 <? length base)%nat && isHexLike base.

(** * Selections over the files of an NZB *)

Definition is_par2 (f : File) : bool := bytes_eqb (ToLower (Ext (Filename f))) (str ".par2").

Definition ContentFiles (n : NZB) : list File :=
  List.filter (fun f => negb (isMetadataFile (Filename f) || isSampleFile (Filename f))) (nFiles n).
Definition Par2Files (n : NZB) : list File := List.filter is_par2 (nFiles n).
Definition HasPar2 (n : NZB) : bool := existsb is_par2 (nFiles n).
Definition IsObfuscated (n : NZB) : bool :=
  existsb (fun f => match Filename f with [] => false | name => IsObfuscatedName name end) (nFiles n).

(** Keep the smaller of the best so far and [f]; ties keep the best so far. *)
Definition smaller (best : option File) (f : File) : option File :=
  match best with
  | None => Some f
  | Some b => if File_TotalBytes f <? File_TotalBytes b then Some f else Some b
  end.
Fixpoint par2_loop (fs : list File) (idx vol : option File) : option File * option File :=
  match fs with
  | [] => (idx, vol)
  | f :: fs' =>
      if negb (is_par2 f) then par2_loop fs' idx vol
      else if negb (par2Vol (Filename f)) then par2_loop fs' (smaller idx f) vol
      else par2_loop fs' idx (smaller vol f)
  end.
Definition Par2IndexFile (n : NZB) : option File :=
  match par2_loop (nFiles n) None None with
  | (Some f, _) => Some f
  | (None, vol) => vol
  end.
Definition Par2VolumeFiles (n : NZB) : list File :=
  let idx := Par2IndexFile n in
  List.filter (fun f => is_par2 f &&
    match idx with
    | Some i => negb (bytes_eqb (fSubject f) (fSubject i))
    | None => true
    end) (nFiles n).

Definition LargestFile (n : NZB) : option File :=
  match nFiles n with
  | [] => None
  | f :: fs =>
      Some (fold_left (fun l g => if File_TotalBytes l <? File_TotalBytes g then g else l) fs f)
  end.

(** ** Rolled-over RAR volumes *)

Record rollState := mkRoll {
  numbers : gmap Z (gset bytes); classic : bool; zip : bool
}.
Definition roll_step (r : rollState) (f : File) : rollState :=
  let name := Filename f in
  match rolloverLetter name with
  | Some l =>
      let exts := default ∅ (numbers r !! l) in
      mkRoll (<[l := exts ∪ {[ToLower (Ext name)]}]> (numbers r)) (classic r) (zip r)
  | None =>
      if bytes_eqb (map fold_byte (Ext name)) (str ".zip")
      then mkRoll (numbers r) (classic r) true
      else if isRarFile name then mkRoll (numbers r) true (zip r)
      else r
  end.
Definition rolloverLetters (n : NZB) : gmap Z bool :=
  let r := fold_left roll_step (nFiles n) (mkRoll ∅ false false) in
  map_imap (fun l exts =>
    Some ((classic r || (2 <=? size exts)%nat) && negb ((l =? 122) && zip r))) (numbers r).

Definition RarFiles (n : NZB) : list File :=
  let rollover := rolloverLetters n in
  List.filter (fun f =>
    match rolloverLetter (Filename f) with
    | Some l => default false (rollover !! l)
    | None => isRarFile (Filename f)
    end) (nFiles n).
Definition HasRars (n : NZB) : bool := negb (Nat.eqb (length (RarFiles n)) 0).

(** Subjects of the kinds the source names, and the names taken from them. *)
Example Filename_samples :
  map (fun subject => Filename (mkFile [] 0 subject [] []))
    [[34] ++ str "Movie.2024.mkv" ++ [34] ++ str " yEnc (1/50)";
     str "[PRiVATE]-[#a]- " ++ [34] ++ str "file.rar" ++ [34] ++ str " yEnc (01/99)";
     str "some/release.mkv yEnc (01/50) "; [34; 34] ++ str "x" ++ [34]] =
  [str "Movie.2024.mkv"; str "file.rar"; str "some_release.mkv"; str "x"].
Proof. reflexivity. Qed.
Example name_samples :
  map (fun s => isRarFile (str s)) ["a.rar"; "a.R07"; "a.001"; "a.mkv"; "a.q01"]%string
    = [true; true; true; false; false] /\
  map (fun s => isSampleFile (str s)) ["movie.sample.mkv"; "Sample/v.mkv"; "resampled.mkv"]%string
    = [true; true; false] /\
  map (fun s => par2Vol (str s)) ["r.vol000+01.PAR2"; "r.par2"]%string = [true; false] /\
  IsObfuscatedName (str "0123456789abcdef0.mkv") = true.
Proof. repeat split. Qed.

(** * Message ids *)

Lemma NormalizeMessageID_clean id m :
  NormalizeMessageID id = Some m -> m <> [] /\ Forall (fun b => bad_id_byte b = false) m.
Proof.
  unfold NormalizeMessageID. set (body := if _ : bool then _ else _).
  destruct body as [|b body']; [done|].
  destruct (existsb _ _) eqn:E; [done|]. intros [= <-]. split; [done|].
  apply Forall_forall. intros x Hx. destruct (bad_id_byte x) eqn:Ex; [|done].
  exfalso. apply not_true_iff_false in E. apply E, existsb_exists.
  exists x. by rewrite <- list_elem_of_In.
Qed.

Definition clean_segment (s : Segment) : Prop :=
  sMessageID s <> [] /\ Forall (fun b => 32 < b < 127 /\ b <> 60 /\ b <> 62) (sMessageID s).

Lemma parse_segments_clean xs segs :
  parse_segments xs = Ok segs -> Forall clean_segment segs.
Proof.
  revert segs. induction xs as [|rs xs IH]; intros segs H; simpl in H.
  { injection H as <-. constructor. }
  destruct (TrimSpace (xMessageID rs)) as [|b m] eqn:Et; [by apply IH|].
  destruct (NormalizeMessageID (b :: m)) as [id|] eqn:En; [|done].
  destruct (parse_segments xs) as [segs'|]; [|done]. injection H as <-.
  constructor; [|by apply IH]. apply NormalizeMessageID_clean in En as [Hne Hb].
  split; [done|]. eapply Forall_impl; [exact Hb|]. intros x Hx.
  unfold bad_id_byte in Hx. bprop. lia.
Qed.

Lemma parse_files_clean fs files :
  parse_files fs = Ok files ->
  Forall (fun f => fSegments f <> [] /\ Forall clean_segment (fSegments f)) files.
Proof.
  revert files. induction fs as [|rf fs IH]; intros files H; simpl in H.
  { injection H as <-. constructor. }
  destruct (parse_segments (xSegments rf)) as [segs|] eqn:Es; [|done].
  destruct (parse_files fs) as [files'|] eqn:Ef; [|done]. simpl in H.
  destruct segs as [|s segs]; injection H as <-; [by apply IH|].
  constructor; [|by apply IH]. simpl. split; [done|]. by eapply parse_segments_clean.
Qed.

(** * Selections *)

Lemma smaller_fold fs best :
  match fold_left smaller fs best with
  | None => best = None /\ fs = []
  | Some m =>
      (best = Some m \/ m ∈ fs) /\
      (forall g, best = Some g \/ g ∈ fs -> File_TotalBytes m <= File_TotalBytes g)
  end.
Proof.
  revert best. induction fs as [|f fs IH]; intros best; simpl.
  { destruct best; [|done]. split; [by left|]. intros g [[= ->]|Hg]; [lia|].
    by apply elem_of_nil in Hg. }
  specialize (IH (smaller best f)).
  destruct (fold_left smaller fs (smaller best f)) as [m|].
  - destruct IH as [Hin Hmin]. destruct best as [b|]; simpl in *.
    + destruct (File_TotalBytes f <? File_TotalBytes b) eqn:E; bprop.
      * split; [set_solver|]. intros g [[= ->]|Hg]; [|set_solver].
        specialize (Hmin f ltac:(by left)). lia.
      * split; [set_solver|]. intros g Hg.
        destruct Hg as [Hg|Hg]; [apply Hmin; by left|].
        apply elem_of_cons in Hg as [->|Hg]; [|apply Hmin; by right].
        specialize (Hmin b ltac:(by left)). lia.
    + split; [set_solver|]. intros g [?|Hg]; [done|]. set_solver.
  - destruct IH as [Hb _]. destruct best; simpl in Hb; [by destruct (_ <? _)|done].
Qed.

Definition par2_plain (f : File) : bool := is_par2 f && negb (par2Vol (Filename f)).
Definition par2_volume (f : File) : bool := is_par2 f && par2Vol (Filename f).

Lemma par2_loop_filter fs i v :
  par2_loop fs i v =
  (fold_left smaller (List.filter par2_plain fs) i, fold_left smaller (List.filter par2_volume fs) v).
Proof.
  revert i v. induction fs as [|f fs IH]; intros i v; [done|]. cbn [par2_loop List.filter].
  unfold par2_plain at 1, par2_volume at 1.
  destruct (is_par2 f), (par2Vol (Filename f)); cbn [negb andb]; apply IH.
Qed.

Lemma elem_of_filter_b {A} (p : A -> bool) (l : list A) x :
  x ∈ List.filter p l <-> x ∈ l /\ p x = true.
Proof. rewrite !list_elem_of_In. apply filter_In. Qed.

(** ** The letters a posting rolls over to *)

Definition is_zip (f : File) : Prop :=
  rolloverLetter (Filename f) = None /\ map fold_byte (Ext (Filename f)) = str ".zip".
Definition is_classic (f : File) : Prop :=
  rolloverLetter (Filename f) = None /\ map fold_byte (Ext (Filename f)) <> str ".zip" /\
  isRarFile (Filename f) = true.
Definition rolls (l : Z) (e : bytes) (f : File) : Prop :=
  rolloverLetter (Filename f) = Some l /\ ToLower (Ext (Filename f)) = e.

Record roll_inv (seen : list File) (r : rollState) : Prop := {
  inv_numbers : forall l e,
    e ∈ default ∅ (numbers r !! l) <-> exists f, f ∈ seen /\ rolls l e f;
  inv_classic : classic r = true <-> exists f, f ∈ seen /\ is_classic f;
  inv_zip : zip r = true <-> exists f, f ∈ seen /\ is_zip f
}.

Lemma exists_snoc (P : File -> Prop) seen f :
  (exists g, g ∈ seen ++ [f] /\ P g) <-> (exists g, g ∈ seen /\ P g) \/ P f.
Proof.
  setoid_rewrite elem_of_app. setoid_rewrite list_elem_of_singleton. split.
  - intros (g & [Hg | ->] & HP); [left; eauto|by right].
  - intros [(g & Hg & HP)|HP]; [exists g|exists f]; auto.
Qed.

Lemma roll_step_inv seen r f :
  roll_inv seen r -> roll_inv (seen ++ [f]) (roll_step r f).
Proof.
  intros [Hn Hc Hz].
  constructor; [intros l' e'; specialize (Hn l' e')| |]; rewrite exists_snoc;
    unfold roll_step, rolls, is_classic, is_zip in *;
    destruct (rolloverLetter (Filename f)) as [l|] eqn:El;
    try (destruct (bytes_eqb _ _) eqn:Ez;
      [apply bytes_eqb_eq in Ez
      |assert (map fold_byte (Ext (Filename f)) <> str ".zip")
         by (intros H%bytes_eqb_eq; congruence); destruct (isRarFile _) eqn:Er]);
    simpl; try solve [rewrite <- ?Hn, <- ?Hc, <- ?Hz; intuition congruence].
  rewrite <- Hn. destruct (decide (l = l')) as [<-|Hne].
  - rewrite lookup_insert_eq. simpl. rewrite elem_of_union, elem_of_singleton.
    intuition congruence.
  - rewrite lookup_insert_ne by done. intuition congruence.
Qed.

Lemma roll_fold_inv fs seen r :
  roll_inv seen r -> roll_inv (seen ++ fs) (fold_left roll_step fs r).
Proof.
  revert seen r. induction fs as [|f fs IH]; intros seen r H; simpl; [by rewrite app_nil_r|].
  replace (seen ++ f :: fs) with ((seen ++ [f]) ++ fs) by by rewrite <- app_assoc.
  by apply IH, roll_step_inv.
Qed.

Lemma roll_init_inv : roll_inv [] (mkRoll ∅ false false).
Proof.
  constructor; [intros l e; simpl; rewrite lookup_empty; simpl| |]; set_solver.
Qed.

Lemma size_ge_2 (X : gset bytes) :
  (2 <= size X)%nat <-> exists x y, x ∈ X /\ y ∈ X /\ x <> y.
Proof.
  split.
  - intros H. unfold size, set_size in H. simpl in H.
    pose proof (NoDup_elements X) as Hd.
    destruct (elements X) as [|x [|y l]] eqn:E; simpl in H; [lia|lia|].
    exists x, y. rewrite <- !elem_of_elements, E.
    apply NoDup_cons in Hd as [Hd _]. set_solver.
  - intros (x & y & Hx & Hy & Hne).
    assert (Hs : ({[x]} ∪ {[y]} : gset bytes) ⊆ X) by set_solver.
    apply subseteq_size in Hs. rewrite size_union in Hs by set_solver.
    rewrite !size_singleton in Hs. lia.
Qed.

(** What [RarFiles] promises: a rolled-over volume counts beside a classic one
    or with a second number of its letter, and .zNN never beside a .zip. *)
Definition rar_volume_of (n : NZB) (f : File) : Prop :=
  match rolloverLetter (Filename f) with
  | None => isRarFile (Filename f) = true
  | Some l =>
      ((exists g, g ∈ nFiles n /\ is_classic g) \/
       (exists g e, g ∈ nFiles n /\ rolls l e g /\ e <> ToLower (Ext (Filename f)))) /\
      ~ (l = 122 /\ exists g, g ∈ nFiles n /\ is_zip g)
  end.

Lemma rolloverLetters_spec n f l :
  f ∈ nFiles n -> rolloverLetter (Filename f) = Some l ->
  default false (rolloverLetters n !! l) = true <-> rar_volume_of n f.
Proof.
  intros Hf El. unfold rar_volume_of. rewrite El. unfold rolloverLetters.
  pose proof (roll_fold_inv (nFiles n) [] _ roll_init_inv) as [Hn Hc Hz].
  rewrite app_nil_l in *.
  set (r := fold_left roll_step (nFiles n) (mkRoll ∅ false false)) in *. clearbody r.
  assert (He : ToLower (Ext (Filename f)) ∈ default ∅ (numbers r !! l)).
  { apply Hn. exists f. by repeat split. }
  rewrite map_lookup_imap. destruct (numbers r !! l) as [exts|] eqn:Ex; [|set_solver].
  cbn [mbind option_bind default from_option id] in *.
  rewrite andb_true_iff, orb_true_iff, Hc, negb_true_iff.
  rewrite Nat.leb_le, size_ge_2, <- not_true_iff_false, andb_true_iff, Hz, Z.eqb_eq.
  assert (H2 : (exists x y, x ∈ exts /\ y ∈ exts /\ x <> y) <->
    (exists g e, g ∈ nFiles n /\ rolls l e g /\ e <> ToLower (Ext (Filename f)))).
  { pose proof (Hn l) as Hl. rewrite Ex in Hl. simpl in Hl. split.
    - intros (x & y & Hx & Hy & Hxy). apply Hl in Hx as (g & ? & ?). apply Hl in Hy as (g' & ? & ?).
      destruct (decide (x = ToLower (Ext (Filename f)))) as [->|]; [exists g', y|exists g, x]; naive_solver.
    - intros (g & e & ? & ? & ?). exists e, (ToLower (Ext (Filename f))).
      split; [|done]. apply Hl. eauto. }
  rewrite H2. naive_solver.
Qed.

Lemma replace_fold_elem cs s b :
  b ∈ fold_left (fun s c => replace_byte c 95 s) cs s -> b = 95 \/ (b ∈ s /\ b ∉ cs).
Proof.
  revert s. induction cs as [|c cs IH]; intros s Hb; simpl in Hb.
  { right. split; [done|]. apply not_elem_of_nil. }
  apply IH in Hb as [Hb|[Hb Hcs]]; [by left|].
  unfold replace_byte in Hb. apply list_elem_of_fmap in Hb as (x & Hx & Hin).
  destruct (x =? c) eqn:E; bprop; [by left|]. subst x. right. set_solver.
Qed.

(** * Claims *)

(** A parsed NZB has at least one file, every file of it has at least one
    segment, and every message id it carries is non-empty and made of printable
    ASCII without blanks, controls or angle brackets, so no id can break out of
    the NNTP command line it is sent in. *)
Lemma Parse_safe raw n :
  Parse raw = Ok n ->
  nFiles n <> [] /\
  Forall (fun f => fSegments f <> [] /\ Forall clean_segment (fSegments f)) (nFiles n).
Proof.
  unfold Parse. destruct (xFiles raw) as [|x xs] eqn:Ex; [done|].
  destruct (parse_files (x :: xs)) as [files|] eqn:Ef; [|done]. simpl.
  destruct files as [|f files]; [done|]. intros [= <-]. simpl. split; [done|].
  by eapply parse_files_clean.
Qed.

(** The RAR selection is exactly the documented rule: a plain RAR name
    always counts; a rolled-over name (.tNN-.zNN) counts iff the NZB holds a
    classic volume or a second, different extension of the same letter, and a
    .zNN never counts beside a .zip. *)
Lemma RarFiles_exact n f :
  f ∈ RarFiles n <-> f ∈ nFiles n /\ rar_volume_of n f.
Proof.
  unfold RarFiles. rewrite elem_of_filter_b. split; intros [Hf H]; (split; [done|]).
  - destruct (rolloverLetter (Filename f)) as [l|] eqn:El.
    + by apply (rolloverLetters_spec n f l).
    + unfold rar_volume_of. by rewrite El.
  - destruct (rolloverLetter (Filename f)) as [l|] eqn:El.
    + by apply (rolloverLetters_spec n f l).
    + unfold rar_volume_of in H. by rewrite El in H.
Qed.

(** The par2 index is the smallest plain .par2 of the NZB; only when there
    is none is it the smallest recovery volume; and there is none exactly when
    the NZB carries no parity. *)
Lemma Par2IndexFile_smallest n :
  match Par2IndexFile n with
  | None => HasPar2 n = false
  | Some i =>
      i ∈ Par2Files n /\
      (par2Vol (Filename i) = true -> Forall (fun f => par2Vol (Filename f) = true) (Par2Files n)) /\
      (forall f, f ∈ Par2Files n -> par2Vol (Filename f) = par2Vol (Filename i) ->
        File_TotalBytes i <= File_TotalBytes f)
  end.
Proof.
  unfold Par2IndexFile. rewrite par2_loop_filter.
  pose proof (smaller_fold (List.filter par2_plain (nFiles n)) None) as Hp.
  pose proof (smaller_fold (List.filter par2_volume (nFiles n)) None) as Hv.
  assert (Hpl : forall f, f ∈ List.filter par2_plain (nFiles n) <->
    f ∈ Par2Files n /\ par2Vol (Filename f) = false).
  { intros f. unfold Par2Files. rewrite !elem_of_filter_b. unfold par2_plain.
    rewrite andb_true_iff, negb_true_iff. tauto. }
  assert (Hvo : forall f, f ∈ List.filter par2_volume (nFiles n) <->
    f ∈ Par2Files n /\ par2Vol (Filename f) = true).
  { intros f. unfold Par2Files. rewrite !elem_of_filter_b. unfold par2_volume.
    rewrite andb_true_iff. tauto. }
  destruct (fold_left smaller (List.filter par2_plain _) None) as [i|].
  { destruct Hp as [[?|Hi] Hmin]; [done|]. apply Hpl in Hi as [Hi Hiv].
    split; [done|]. split; [congruence|]. intros f Hf Hfv. apply Hmin. right.
    apply Hpl. by rewrite Hfv. }
  destruct Hp as [_ Hp]. rewrite Hp in Hpl.
  assert (Hall : forall f, f ∈ Par2Files n -> par2Vol (Filename f) = true).
  { intros f Hf. destruct (par2Vol (Filename f)) eqn:E; [done|].
    exfalso. apply (not_elem_of_nil f). by apply Hpl. }
  destruct (fold_left smaller (List.filter par2_volume _) None) as [i|].
  - destruct Hv as [[?|Hi] Hmin]; [done|]. apply Hvo in Hi as [Hi Hiv].
    split; [done|]. split; [intros _; by apply Forall_forall|].
    intros f Hf _. apply Hmin. right. apply Hvo. auto.
  - destruct Hv as [_ Hv]. rewrite Hv in Hvo. unfold HasPar2.
    destruct (existsb is_par2 (nFiles n)) eqn:E; [|done].
    apply existsb_exists in E as (f & Hf & Hp2). exfalso. apply (not_elem_of_nil f).
    assert (f ∈ Par2Files n).
    { unfold Par2Files. apply elem_of_filter_b. by rewrite list_elem_of_In. }
    apply Hvo. auto.
Qed.

(** The name derived from an unquoted subject never holds a path
    separator or another character the code lists as invalid in a file name. *)
Lemma sanitizeFilename_no_path s :
  Forall (fun b => b ∉ invalid_path_chars) (sanitizeFilename s).
Proof.
  apply Forall_forall. intros b Hb. unfold sanitizeFilename in Hb.
  apply replace_fold_elem in Hb as [-> | [_ Hb]]; [|done].
  apply (bool_decide_unpack _). vm_compute. exact I.
Qed.

Definition sample_raw : xmlNZB :=
  mkXmlNZB [mkXmlMeta (str "password") (str " s3cret ")]
    [mkXmlFile (str "poster") (str "1700000000") (str "no segments here") [] [];
     mkXmlFile (str "poster") (str "1700000000") (str "a.mkv yEnc (1/2)") [str "alt.binaries"]
       [mkXmlSegment (str "739067") (str "2") (str " <b@x> ");
        mkXmlSegment (str "739067") (str "1") (str "a@x")]].

(** The hypothesis of [Parse_safe] holds for a two-segment posting. *)
Lemma Parse_safe_witness :
  exists n, Parse sample_raw = Ok n /\ map sMessageID (concat (map fSegments (nFiles n))) = [str "b@x"; str "a@x"]
    /\ nFiles n <> [] /\
    Forall (fun f => fSegments f <> [] /\ Forall clean_segment (fSegments f)) (nFiles n).
Proof.
  destruct (Parse sample_raw) as [n|] eqn:E; [|vm_compute in E; discriminate].
  exists n. split; [reflexivity|].
  split; [|exact (Parse_safe sample_raw n E)].
  vm_compute in E. injection E as <-. reflexivity.
Defined.
