(* ===== verification/NntpWire.v ===== *)
(** What the NNTP client reads off a connection: internal/usenet/nntp/body.go,
    reply.go and the BODY exchange of client.go.

    A connection is the bytes the server has sent and how the stream ends after
    them.  Lines come through a bufio.Reader, so a long line arrives in
    fragments of the reader's buffer size.  The caller's buffer is its capacity
    and whether the body still lives in it.  The progress callback may rewrite
    the body it is shown, so it is a function from the body to the body. *)
From Stdlib Require Import ZArith Lia Ascii String.
From stdpp Require Import prelude list strings.
From S2P Require Import Prelude GoStrings Crc32 Yenc YencInPlace Nzb.

Open Scope Z_scope.

(** How a read ends when no more bytes come. *)
Inductive netErr := NEOF | NTimeout | NReset.
Record stream := mkStream { sdata : bytes; stail : netErr }.

(** ** bufio.Reader.ReadSlice *)

Definition bufioSize : nat := Z.to_nat 4096.
Inductive sliceEnd := Delim | BufferFull | ReadErr (e : netErr).
Definition ReadSlice (s : stream) : bytes * sliceEnd * stream :=
  match index_lf (take bufioSize (sdata s)) with
  | Some i => (take (S i) (sdata s), Delim, mkStream (drop (S i) (sdata s)) (stail s))
  | None =>
      if (bufioSize <=? length (sdata s))%nat
      then (take bufioSize (sdata s), BufferFull, mkStream (drop bufioSize (sdata s)) (stail s))
      else (sdata s, ReadErr (stail s), mkStream [] (stail s))
  end.

(** ** The receiver (body.go) *)

Inductive rerr := BodyTooLarge (limit : nat) | UnexpectedEOF | NetErr (e : netErr).

Record bodyReceiver := mkRecv {
  rout : bytes; rcap : nat; rown : bool;   (* the body so far, its array, whether that is the caller's *)
  received : nat; rlimit : nat
}.

Definition grow (b : bodyReceiver) (n : nat) : bodyReceiver :=
  let needed := (length (rout b) + n)%nat in
  if (rcap b <? needed)%nat
  then mkRecv (rout b) (Nat.min (rlimit b) (Nat.max needed (2 * rcap b))) false (received b) (rlimit b)
  else b.

(** Every round but the last takes a full buffer, so a fuel of the bytes there
    are is enough. *)
Fixpoint append_fragments (fuel : nat) (b : bodyReceiver) (s : stream) : result rerr (bodyReceiver * stream) :=
  let '(frag, e, s') := ReadSlice s in
  if (rlimit b - received b <? length frag)%nat then Err (BodyTooLarge (rlimit b))
  else
    let g := grow b (length frag) in
    let b' := mkRecv (rout b ++ frag) (rcap g) (rown g) (received b + length frag) (rlimit b) in
    match e with
    | Delim => Ok (b', s')
    | ReadErr NEOF => Err UnexpectedEOF
    | ReadErr x => Err (NetErr x)
    | BufferFull => match fuel with
                    | O => Err UnexpectedEOF
                    | S f => append_fragments f b' s'
                    end
    end.
Definition appendLine (b : bodyReceiver) (s : stream) : result rerr (bodyReceiver * stream) :=
  append_fragments (length (sdata s)) b s.

(** bytes.TrimSuffix of "\n", then of "\r". *)
Definition trim_suffix (x : Z) (l : bytes) : bytes :=
  match rev l with c :: r => if c =? x then rev r else l | [] => l end.
Definition trim_eol (l : bytes) : bytes := trim_suffix CR (trim_suffix LF l).

Definition unstuff (line : bytes) : bytes :=
  match line with c :: l => if c =? DOT then l else line | [] => line end.

Section Body.
Context {S : Type} (Line : S -> bytes -> S * bytes).

(** One round takes at least a line break, so a fuel of the bytes is enough. *)
Fixpoint read_lines (fuel : nat) (st : S) (b : bodyReceiver) (s : stream)
    : S * result rerr (bodyReceiver * stream) :=
  match appendLine b s with
  | Err e => (st, Err e)
  | Ok (b1, s1) =>
      let start := length (rout b) in
      let line := trim_eol (drop start (rout b1)) in
      if bool_decide (line = [DOT])
      then (st, Ok (mkRecv (take start (rout b1)) (rcap b1) (rown b1) (received b1) (rlimit b1), s1))
      else
        let out := take start (rout b1) ++ unstuff line ++ [LF] in
        let '(st', out') := Line st out in
        match fuel with
        | O => (st', Err UnexpectedEOF)
        | Datatypes.S f => read_lines f st' (mkRecv out' (rcap b1) (rown b1) (received b1) (rlimit b1)) s1
        end
  end.
(** [bufcap] is the capacity of the caller's buffer. *)
Definition readDotBodyLimit (st : S) (s : stream) (bufcap limit : nat)
    : S * result rerr (bodyReceiver * stream) :=
  read_lines (length (sdata s)) st (mkRecv [] (Nat.min bufcap limit) true 0 limit) s.
End Body.

Definition MaxEncodedBodyBytes : nat := Z.to_nat (Z.shiftl 16 20).
Definition readDotBody {S} (Line : S -> bytes -> S * bytes) st s bufcap :=
  readDotBodyLimit Line st s bufcap MaxEncodedBodyBytes.

(** ** Replies (reply.go) *)

Definition MaxReplyBytes : nat := Z.to_nat (Z.shiftl 64 10).
Inductive replyErr :=
| ReplyTooLarge | ReplyRead (e : rerr) | NotSingleLine | InvalidCode
| WrongCode (code : Z) (msg : bytes).   (* *textproto.Error *)

(** strconv.Atoi of three bytes: a sign and two digits, or three digits. *)
Definition Atoi3 (s : bytes) : option Z :=
  match ParseInt s with (v, NumOk) => Some v | _ => None end.

(** The code and message, 0 when there is none; the error; the rest of the
    stream after a complete line. *)
Definition readReply (s : stream) (expect : Z) : Z * bytes * option replyErr * stream :=
  match appendLine (mkRecv [] 0 false 0 MaxReplyBytes) s with
  | Err (BodyTooLarge _) => (0, [], Some ReplyTooLarge, s)
  | Err e => (0, [], Some (ReplyRead e), s)
  | Ok (b, s') =>
      let line := trim_eol (rout b) in
      if (length line <? 4)%nat || negb (nth 3 line 0 =? SP) then (0, [], Some NotSingleLine, s')
      else
        match Atoi3 (take 3 line) with
        | Some code =>
            if code <? 100 then (0, [], Some InvalidCode, s')
            else if code =? expect then (code, drop 4 line, None, s')
            else (code, drop 4 line, Some (WrongCode code (drop 4 line)), s')
        | None => (0, [], Some InvalidCode, s')
        end
  end.

(** ** BODY (client.go) *)

Inductive bodyErr :=
| ArticleNotFound (code : Z)     (* *ArticleNotFoundError *)
| StallError                     (* *StallError *)
| CtxErr                         (* the context's own error *)
| CmdFailed (e : netErr)         (* the command was not written *)
| ReplyFailed (e : replyErr)
| BodyFailed (e : rerr).

Definition IsArticleMissing (e : bodyErr) : bool := match e with ArticleNotFound _ => true | _ => false end.
Definition IsStalled (e : bodyErr) : bool := match e with StallError => true | _ => false end.
Definition isReceiveLimit (e : bodyErr) : bool :=
  match e with BodyFailed (BodyTooLarge _) | ReplyFailed ReplyTooLarge => true | _ => false end.
Definition isNetTimeout (e : replyErr) : bool :=
  match e with ReplyRead (NetErr NTimeout) => true | _ => false end.

(** The stall bound (none, or positive) against the time left to the command's
    deadline: the deadline in force, and whether it is the stall bound. *)
Definition statusDeadline (stall : option Z) (now command : Z) : Z * bool :=
  match stall with
  | Some d => if (0 <? d) && (now + d <? command) then (now + d, true) else (command, false)
  | None => (command, false)
  end.

Section Exchange.
Context {S : Type} (Line : S -> bytes -> S * bytes).

(** [written] is the outcome of sending the command, [s] what the server sends
    back under the deadlines in force. *)
Definition bodyExchange (st : S) (written : option netErr) (s : stream) (stallBounded : bool) (bufcap limit : nat)
    : S * result bodyErr bodyReceiver * stream :=
  match written with
  | Some e => (st, Err (CmdFailed e), s)
  | None =>
      match readReply s 222 with
      | (code, msg, Some e, s') =>
          (st, Err (if (code =? 430) || (code =? 423) then ArticleNotFound code
                    else if stallBounded && isNetTimeout e then StallError
                    else ReplyFailed e), s')
      | (_, _, None, s') =>
          match readDotBodyLimit Line st s' bufcap limit with
          | (st', Err e) => (st', Err (BodyFailed e), s')
          | (st', Ok (b, s'')) => (st', Ok b, s'')
          end
      end
  end.

(** The body, the error (a body may come with the context's error), and whether
    the connection is broken afterwards. *)
Definition bodyOnConn (st : S) (written : option netErr) (s : stream) (stallBounded ctxDone : bool) (bufcap limit : nat)
    : S * option bodyReceiver * option bodyErr * stream * bool :=
  let '(st', r, s') := bodyExchange st written s stallBounded bufcap limit in
  let body := match r with Ok b => Some b | Err _ => None end in
  let err := if ctxDone then Some CtxErr else match r with Ok _ => None | Err e => Some e end in
  (st', body, err, s', match err with Some e => negb (IsArticleMissing e) | None => false end).
End Exchange.

(** ** One BodyInto call (client.go) *)

(** What happens to a call on one connection: the command's outcome, what the
    server sends, and whether the context is over when the exchange ends. *)
Record exchange := mkExch { xwritten : option netErr; xstream : stream; xctx : bool }.

Inductive callErr :=
| InvalidID | AcquireFailed (byContext : bool) | CallFailed (e : bodyErr) | ReconnectFailed | BodyCancelled.
(** What becomes of a connection: back to the pool, or closed for good. *)
Inductive disposition := Released | Retired.

Section Call.
Context {S : Type} (Line : S -> bytes -> S * bytes) (Restart : S -> S).

(** [first] is the exchange on the connection acquire gave, or that it gave none
    and whether the context was why; [ctx2] says whether the context is over when the failure is looked at;
    [redial] is what replace leads to: no connection, or a new one; [ctx3] is the
    context after it. *)
Definition BodyInto (st : S) (id : bytes) (first : result bool exchange) (ctx2 : bool) (redial : option exchange)
    (ctx3 stallBounded : bool) (bufcap limit : nat)
    : S * option bodyReceiver * option callErr * list disposition :=
  match NormalizeMessageID id with
  | None => (st, None, Some InvalidID, [])
  | Some _ =>
      match first with
      | Err byContext => (st, None, Some (AcquireFailed byContext), [])
      | Ok x =>
          let '(st1, body, err, _, broken) :=
            bodyOnConn Line st (xwritten x) (xstream x) stallBounded (xctx x) bufcap limit in
          if negb broken then (st1, body, CallFailed <$> err, [Released])
          else
            let ctx2 := xctx x || ctx2 in
            if ctx2 || match err with Some e => isReceiveLimit e | None => false end
            then (st1, None, Some (CallFailed (if ctx2 then CtxErr else default CtxErr err)), [Retired])
            else
              match redial with
              | None => (st1, None, Some (if ctx3 then CallFailed CtxErr else ReconnectFailed), [Retired])
              | Some y =>
                  if ctx3 then (st1, None, Some BodyCancelled, [Retired; Retired])
                  else
                    let '(st2, body2, err2, _, broken2) :=
                      bodyOnConn Line (Restart st1) (xwritten y) (xstream y) stallBounded (xctx y) bufcap limit in
                    (st2, body2, CallFailed <$> err2, [Retired; if broken2 then Retired else Released])
              end
      end
  end.
End Call.

(** ** Opening a connection (arguments.go, client.go) *)

Definition bad_credential_byte (b : Z) : bool := (b =? CR) || (b =? LF) || (b =? 0).
Definition validateCredentials (user pass : bytes) : bool :=
  negb (existsb bad_credential_byte user || existsb bad_credential_byte pass).

(** A command line as it is written. *)
Definition cmd_line (verb arg : bytes) : bytes := verb ++ arg ++ CRLF.

Inductive dialErr := BadCredentials | DialFailed | Welcome (code : Z) | AuthFailed.

(** AUTHINFO: the commands written (their outcomes in [wr]) and the replies. *)
Definition auth (user pass : bytes) (wr1 wr2 : bool) (s : stream) : list bytes * option dialErr * stream :=
  let u := cmd_line (str "AUTHINFO USER ") user in
  if negb wr1 then ([], Some AuthFailed, s)
  else
    match readReply s 381 with
    | (code, _, Some _, s1) => ([u], if code =? 281 then None else Some AuthFailed, s1)
    | (_, _, None, s1) =>
        let p := cmd_line (str "AUTHINFO PASS ") pass in
        if negb wr2 then ([u], Some AuthFailed, s1)
        else
          match readReply s1 281 with
          | (_, _, Some _, s2) => ([u; p], Some AuthFailed, s2)
          | (_, _, None, s2) => ([u; p], None, s2)
          end
    end.

(** [socket] is the connected stream, [None] when the dialer failed. *)
Definition dial (user pass : bytes) (socket : option stream) (wr1 wr2 : bool)
    : list bytes * result dialErr stream :=
  if negb (validateCredentials user pass) then ([], Err BadCredentials)
  else
    match socket with
    | None => ([], Err DialFailed)
    | Some s =>
        match readReply s 200 with
        | (code, _, e, s1) =>
            if match e with Some _ => negb (code =? 201) | None => false end then ([], Err (Welcome code))
            else
              match user with
              | [] => ([], Ok s1)
              | _ =>
                  match auth user pass wr1 wr2 s1 with
                  | (sent, None, s2) => (sent, Ok s2)
                  | (sent, Some x, _) => (sent, Err x)
                  end
              end
        end
    end.

(** * A line at a time *)

Lemma index_lf_app l s : LF ∉ l -> index_lf (l ++ LF :: s) = Some (length l).
Proof.
  induction l as [|b l IH]; intros H; cbn; [done|]. apply not_elem_of_cons in H as [Hb Hl].
  destruct (Z.eqb_spec b LF); [congruence|]. by rewrite (IH Hl).
Qed.
Lemma index_lf_none l : LF ∉ l -> index_lf l = None.
Proof.
  induction l as [|b l IH]; intros H; cbn; [done|]. apply not_elem_of_cons in H as [Hb Hl].
  destruct (Z.eqb_spec b LF); [congruence|]. by rewrite (IH Hl).
Qed.

(** Reading a whole line is independent of the fragments it comes in. *)
Definition whole_line (b : bodyReceiver) (l : bytes) (b' : bodyReceiver) : Prop :=
  rout b' = rout b ++ l /\ received b' = (received b + length l)%nat /\ rlimit b' = rlimit b.

Lemma bufioSize_pos : (0 < bufioSize)%nat.
Proof. unfold bufioSize. lia. Qed.
Global Opaque bufioSize.

Lemma ReadSlice_line l rest tail :
  LF ∉ l -> (length l < bufioSize)%nat ->
  ReadSlice (mkStream (l ++ LF :: rest) tail) = (l ++ [LF], Delim, mkStream rest tail).
Proof.
  intros Hl Hb. unfold ReadSlice. cbn [sdata stail].
  rewrite (take_app_ge l) by lia. destruct (bufioSize - length l)%nat as [|k] eqn:Ek; [lia|].
  cbn [take]. rewrite index_lf_app by done.
  rewrite cons_middle, app_assoc. assert (S (length l) = length (l ++ [LF])) as -> by (rewrite length_app; cbn; lia).
  by rewrite take_app_length, drop_app_length.
Qed.
Lemma ReadSlice_full l more tail :
  LF ∉ l -> (bufioSize <= length l)%nat ->
  ReadSlice (mkStream (l ++ more) tail) = (take bufioSize l, BufferFull, mkStream (drop bufioSize l ++ more) tail).
Proof.
  intros Hl Hb. unfold ReadSlice. cbn [sdata stail].
  rewrite (take_app_le l), (drop_app_le l) by lia.
  rewrite index_lf_none by (intros H; apply Hl; by apply (subseteq_take bufioSize)).
  rewrite (proj2 (Nat.leb_le _ _)); [done|]. rewrite length_app. lia.
Qed.
Lemma ReadSlice_end l tail :
  LF ∉ l -> (length l < bufioSize)%nat ->
  ReadSlice (mkStream l tail) = (l, ReadErr tail, mkStream [] tail).
Proof.
  intros Hl Hb. unfold ReadSlice. cbn [sdata stail]. rewrite take_ge by lia.
  rewrite index_lf_none by done. by rewrite (proj2 (Nat.leb_gt _ _)).
Qed.

Lemma append_fragments_line fuel b l rest tail :
  LF ∉ l -> (length l <= fuel)%nat -> (received b <= rlimit b)%nat ->
  if (received b + length l + 1 <=? rlimit b)%nat
  then exists b', append_fragments fuel b (mkStream (l ++ LF :: rest) tail) = Ok (b', mkStream rest tail) /\
    whole_line b (l ++ [LF]) b'
  else append_fragments fuel b (mkStream (l ++ LF :: rest) tail) = Err (BodyTooLarge (rlimit b)).
Proof.
  pose proof bufioSize_pos as HB.
  remember (length l) as n eqn:En. revert l En fuel b.
  induction n as [n IH'] using lt_wf_ind; intros l -> fuel b Hl Hf Hr.
  assert (IH := fun l' (H : (length l' < length l)%nat) => IH' (length l') H l' eq_refl). clear IH'. destruct (Nat.lt_ge_cases (length l) bufioSize) as [Hs|Hs].
  - unfold append_fragments; destruct fuel; rewrite ReadSlice_line by done; rewrite length_app; cbn [length];
      destruct (Nat.leb_spec (received b + length l + 1) (rlimit b)) as [H1|H1],
        (Nat.ltb_spec (rlimit b - received b) (length l + 1)) as [H2|H2]; try lia; try done;
      (eexists; split; [done|]; repeat split; cbn; rewrite ?length_app; cbn; lia).
  - destruct fuel as [|fuel]; [lia|]. cbn [append_fragments]. rewrite ReadSlice_full by done.
    rewrite length_take, Nat.min_l by lia. destruct (Nat.ltb_spec (rlimit b - received b) bufioSize) as [H2|H2].
    { destruct (Nat.leb_spec (received b + length l + 1) (rlimit b)) as [H1|H1]; [lia|done]. }
    specialize (IH (drop bufioSize l)). rewrite length_drop in IH.
    match goal with |- context [append_fragments fuel ?x _] => set (b1 := x) end.
    specialize (IH ltac:(lia) fuel b1). cbn [received rlimit] in IH. subst b1. cbn [received rlimit] in IH.
    destruct (Nat.leb_spec (received b + length l + 1) (rlimit b)) as [H1|H1].
    + rewrite (proj2 (Nat.leb_le _ _)) in IH by lia.
      destruct IH as (b' & -> & (W1 & W2 & W3)); [intros H; apply Hl; by apply (subseteq_drop bufioSize)|lia|lia|].
      exists b'. split; [done|]. split; cbn in W1, W2, W3; [|rewrite W2, W3, !length_app, length_drop; cbn; lia].
      rewrite W1, <- app_assoc. f_equal. by rewrite app_assoc, take_drop.
    + rewrite (proj2 (Nat.leb_gt _ _)) in IH by lia.
      apply IH; [intros H; apply Hl; by apply (subseteq_drop bufioSize)|lia|lia].
Qed.

Lemma append_fragments_end fuel b l tail :
  LF ∉ l -> (length l <= fuel)%nat -> (received b <= rlimit b)%nat ->
  exists e, append_fragments fuel b (mkStream l tail) = Err e.
Proof.
  pose proof bufioSize_pos as HB.
  revert l b. induction fuel as [|fuel IH]; intros l b Hl Hf Hr;
    (destruct (Nat.lt_ge_cases (length l) bufioSize) as [Hs|Hs]; [cbn [append_fragments]; rewrite ReadSlice_end by done|]).
  1,3: case_if; [by eexists|]; destruct tail; by eexists.
  - lia.
  - cbn [append_fragments]. rewrite <- (app_nil_r l), ReadSlice_full by done. case_if; [by eexists|].
    rewrite app_nil_r. apply Nat.ltb_ge in E. rewrite length_take in E.
    apply IH; cbn; rewrite ?length_drop, ?length_take; try lia. intros H; apply Hl; by apply (subseteq_drop bufioSize).
Qed.

(** What a line that was read says about the stream. *)
Lemma appendLine_Ok b s b' s' :
  (received b <= rlimit b)%nat -> appendLine b s = Ok (b', s') ->
  exists l, LF ∉ l /\ s = mkStream (l ++ LF :: sdata s') (stail s') /\
    whole_line b (l ++ [LF]) b' /\ (received b' <= rlimit b)%nat.
Proof.
  intros Hr H. unfold appendLine in H. destruct s as [d tail]. cbn [sdata] in *.
  destruct (index_lf d) as [i|] eqn:Ei.
  - destruct (index_lf_Some _ _ Ei) as [Hl Hd]. set (l := take i d) in *. set (rest := drop (S i) d) in *.
    rewrite Hd in H. assert (Hf : (length l <= length (l ++ LF :: rest))%nat) by (rewrite length_app; lia).
    pose proof (append_fragments_line _ b l rest tail Hl Hf Hr) as HL.
    destruct (Nat.leb_spec (received b + length l + 1) (rlimit b)); [|by rewrite HL in H].
    destruct HL as (b1 & HL & Hw). rewrite HL in H. injection H as <- <-. exists l. cbn. rewrite <- Hd.
    split_and!; [done|done|done|]. destruct Hw as (_ & -> & _). rewrite length_app. cbn. lia.
  - apply index_lf_None in Ei. by destruct (append_fragments_end _ b d tail Ei (Nat.le_refl _) Hr) as [e He]; rewrite He in H.
Qed.
Lemma appendLine_line b l rest tail :
  LF ∉ l -> (received b + length l + 1 <= rlimit b)%nat ->
  exists b', appendLine b (mkStream (l ++ LF :: rest) tail) = Ok (b', mkStream rest tail) /\
    whole_line b (l ++ [LF]) b'.
Proof.
  intros Hl Hr. unfold appendLine. cbn [sdata].
  assert (Hf : (length l <= length (l ++ LF :: rest))%nat) by (rewrite length_app; lia).
  pose proof (append_fragments_line _ b l rest tail Hl Hf ltac:(lia)) as HL.
  by rewrite (proj2 (Nat.leb_le _ _)) in HL by lia.
Qed.

(** ** The array *)

Definition cap_ok (b : bodyReceiver) : Prop :=
  (length (rout b) <= rcap b <= rlimit b)%nat /\ (length (rout b) <= received b <= rlimit b)%nat.

Lemma grow_spec b n :
  (length (rout b) + n <= rlimit b)%nat -> (rcap b <= rlimit b)%nat ->
  (length (rout b) + n <= rcap (grow b n) <= rlimit b)%nat /\
  ((length (rout b) + n <= rcap b)%nat -> rcap (grow b n) = rcap b /\ rown (grow b n) = rown b).
Proof. intros H1 H2. unfold grow. case_if; bprop; cbn; (split; [lia|]); intros H; [lia|done]. Qed.

Lemma append_fragments_longer fuel b s b' s' :
  append_fragments fuel b s = Ok (b', s') -> (length (rout b) <= length (rout b'))%nat.
Proof.
  revert b s. induction fuel as [|fuel IH]; intros b s; cbn [append_fragments];
    destruct (ReadSlice s) as [[frag e] s1]; (case_if; [done|]); (destruct e as [| |[]]; try done).
  1,2: intros [= <- <-]; cbn; rewrite length_app; lia.
  intros H. apply IH in H. cbn in H. rewrite length_app in H. lia.
Qed.

Lemma append_fragments_cap fuel b s b' s' :
  cap_ok b -> append_fragments fuel b s = Ok (b', s') -> cap_ok b' /\
  ((length (rout b') <= rcap b)%nat -> rcap b' = rcap b /\ rown b' = rown b).
Proof.
  revert b s. induction fuel as [|fuel IH]; intros b s [Hc Hl]; cbn [append_fragments];
    destruct (ReadSlice s) as [[frag e] s1]; (case_if; [done|]); apply Nat.ltb_ge in E;
    destruct (grow_spec b (length frag)) as [G1 G2]; try lia;
    (destruct e as [| |[]]; try done).
  - intros [= <- <-]. unfold cap_ok. cbn. rewrite length_app. split; [lia|]. intros ?; apply G2; lia.
  - intros [= <- <-]. unfold cap_ok. cbn. rewrite length_app. split; [lia|]. intros ?; apply G2; lia.
  - intros H. match type of H with append_fragments _ ?x _ = _ => destruct (IH x s1) as [I1 I2]; [|exact H|] end.
    { unfold cap_ok. cbn. rewrite length_app. lia. }
    split; [done|]. intros Hb. cbn in I2.
    assert (Hm : (length (rout b) + length frag <= length (rout b'))%nat).
    { clear -H. match type of H with append_fragments _ ?x _ = _ => set (b0 := x) in H end.
      assert (length (rout b0) <= length (rout b'))%nat as Hm; [|cbn in Hm; rewrite length_app in Hm; lia].
      clearbody b0. by eapply append_fragments_longer. }
    destruct (G2 ltac:(lia)) as [G3 G4]. rewrite G3, G4 in I2. auto.
Qed.

(** * Bodies *)

(** How a server sends a line, and the whole body (RFC 3977, 3.1.1). *)
Definition stuff (line : bytes) : bytes :=
  match line with c :: _ => if c =? DOT then DOT :: line else line | [] => [] end.
Definition wire (lines : list bytes) : bytes :=
  concat (map (fun l => stuff l ++ CRLF) lines) ++ [DOT; CR; LF].

Lemma trim_suffix_snoc x l : trim_suffix x (l ++ [x]) = l.
Proof. unfold trim_suffix. rewrite rev_app_distr. cbn. by rewrite Z.eqb_refl, rev_involutive. Qed.
Lemma trim_eol_crlf l : trim_eol (l ++ CRLF) = l.
Proof.
  unfold trim_eol, CRLF. change [CR; LF] with ([CR] ++ [LF]). rewrite app_assoc. by rewrite !trim_suffix_snoc.
Qed.
Lemma unstuff_stuff l : unstuff (stuff l) = l.
Proof.
  destruct l as [|c l]; [done|]. cbn. destruct (Z.eqb_spec c DOT) as [->|Hc]; cbn; [done|].
  by destruct (Z.eqb_spec c DOT).
Qed.
Lemma stuff_not_dot l : stuff l <> [DOT].
Proof. destruct l as [|c l]; cbn; [done|]. destruct (Z.eqb_spec c DOT); [by destruct l|congruence]. Qed.
Lemma stuff_no_lf l : LF ∉ l -> LF ∉ stuff l.
Proof.
  intros H. destruct l as [|c l]; cbn; [done|]. case_if; [|done]. apply not_elem_of_cons. by split.
Qed.

Lemma unstuff_trim_length l : (length (unstuff (trim_eol (l ++ [LF]))) <= length l)%nat.
Proof.
  assert (H1 : forall x, (length (unstuff x) <= length x)%nat) by (intros [|c x]; cbn; [lia|case_if; cbn; lia]).
  assert (H2 : forall c x, (length (trim_suffix c x) <= length x)%nat).
  { intros c x. unfold trim_suffix. destruct (rev x) as [|y r] eqn:E; [lia|]. case_if; [|lia].
    apply (f_equal length) in E. rewrite length_rev in E. rewrite length_rev. cbn in E. lia. }
  etrans; [apply H1|]. unfold trim_eol. rewrite trim_suffix_snoc. apply H2.
Qed.

Section Bodies.
Context {S : Type} (Line : S -> bytes -> S * bytes).

(** Every line in order: appended, then shown to the callback. *)
Definition fold_body (st : S) (body : bytes) (lines : list bytes) : S * bytes :=
  fold_left (fun sb l => Line (fst sb) (snd sb ++ l ++ [LF])) lines (st, body).

(** One round of the loop on a line. *)
Lemma read_lines_round fuel st b l rest tail :
  LF ∉ l -> (received b + length l + 1 <= rlimit b)%nat ->
  exists b1, whole_line b (l ++ [LF]) b1 /\
  read_lines Line fuel st b (mkStream (l ++ LF :: rest) tail) =
    if bool_decide (trim_eol (l ++ [LF]) = [DOT])
    then (st, Ok (mkRecv (rout b) (rcap b1) (rown b1) (received b1) (rlimit b1), mkStream rest tail))
    else
      let '(st', out') := Line st (rout b ++ unstuff (trim_eol (l ++ [LF])) ++ [LF]) in
      match fuel with
      | O => (st', Err UnexpectedEOF)
      | Datatypes.S f => read_lines Line f st' (mkRecv out' (rcap b1) (rown b1) (received b1) (rlimit b1)) (mkStream rest tail)
      end.
Proof.
  intros Hl Hr. destruct (appendLine_line b l rest tail Hl Hr) as (b1 & HA & Hw). exists b1. split; [done|].
  destruct fuel; cbn [read_lines]; rewrite HA; destruct Hw as (Ho & _ & _); rewrite Ho, drop_app_length, take_app_length; done.
Qed.

Lemma read_lines_wire fuel st b lines rest tail :
  Forall (fun l => LF ∉ l) lines -> (length lines <= fuel)%nat ->
  (received b + length (wire lines) <= rlimit b)%nat ->
  exists b', read_lines Line fuel st b (mkStream (wire lines ++ rest) tail) =
    (fst (fold_body st (rout b) lines), Ok (b', mkStream rest tail)) /\ rout b' = snd (fold_body st (rout b) lines).
Proof.
  intros Hl. revert fuel st b. induction Hl as [|l lines Hl Hls IH]; intros fuel st b Hf Hr.
  - cbn [wire map concat app]. destruct (read_lines_round fuel st b [DOT; CR] rest tail) as (b1 & Hw & HR);
      [by rewrite !not_elem_of_cons; repeat split; try done; apply not_elem_of_nil|cbn in Hr |- *; lia|].
    change (DOT :: CR :: LF :: rest) with ([DOT; CR] ++ LF :: rest). rewrite HR.
    rewrite bool_decide_true by done. eexists. by split.
  - assert (Hlen : length (wire (l :: lines)) = (length (stuff l ++ [CR]) + 1 + length (wire lines))%nat).
    { unfold wire. cbn [map concat]. rewrite !length_app. cbn. lia. }
    assert (Heq : wire (l :: lines) ++ rest = (stuff l ++ [CR]) ++ LF :: wire lines ++ rest).
    { unfold wire, CRLF. cbn [map concat]. by rewrite <- !app_assoc. }
    destruct (read_lines_round fuel st b (stuff l ++ [CR]) (wire lines ++ rest) tail) as (b1 & (W1 & W2 & W3) & HR).
    { rewrite not_elem_of_app. split; [by apply stuff_no_lf|]. by rewrite list_elem_of_singleton. }
    { lia. }
    rewrite Heq, HR, <- app_assoc. change ([CR] ++ [LF]) with CRLF.
    rewrite trim_eol_crlf, unstuff_stuff, bool_decide_false by apply stuff_not_dot.
    unfold fold_body. cbn [fold_left fst snd]. destruct (Line st (rout b ++ l ++ [LF])) as [st' out'] eqn:EL.
    cbn [fst snd]. cbn [length] in Hf. destruct fuel as [|fuel]; [lia|]. apply IH; [lia|]. cbn [received rlimit].
    rewrite W2, W3. rewrite length_app. cbn [length]. lia.
Qed.

Lemma wire_lines_length lines : (length lines <= length (wire lines))%nat.
Proof.
  unfold wire, CRLF. rewrite length_app. induction lines as [|l lines IH]; cbn [map concat]; rewrite ?length_app; cbn [length] in *; lia.
Qed.

Lemma readDotBodyLimit_wire st lines rest tail bufcap limit :
  Forall (fun l => LF ∉ l) lines -> (length (wire lines) <= limit)%nat ->
  exists b, readDotBodyLimit Line st (mkStream (wire lines ++ rest) tail) bufcap limit =
    (fst (fold_body st [] lines), Ok (b, mkStream rest tail)) /\ rout b = snd (fold_body st [] lines).
Proof.
  intros Hl Hlim. unfold readDotBodyLimit. apply read_lines_wire; cbn; [done| |lia].
  pose proof (wire_lines_length lines). rewrite length_app. lia.
Qed.

(** What a body that was read says about the stream. *)
Lemma read_lines_sound fuel st b s st' b' s' :
  (received b <= rlimit b)%nat -> read_lines Line fuel st b s = (st', Ok (b', s')) ->
  exists raws last, Forall (fun l => LF ∉ l /\ trim_eol (l ++ [LF]) <> [DOT]) raws /\ LF ∉ last /\
    trim_eol (last ++ [LF]) = [DOT] /\ stail s' = stail s /\
    sdata s = concat (map (fun l => l ++ [LF]) raws) ++ last ++ LF :: sdata s' /\
    (received b + length (concat (map (fun l => l ++ [LF]) raws)) + length last + 1 = received b')%nat /\
    (received b' <= rlimit b)%nat /\ rlimit b' = rlimit b /\
    (st', rout b') = fold_body st (rout b) (map (fun l => unstuff (trim_eol (l ++ [LF]))) raws).
Proof.
  revert st b s. induction fuel as [|fuel IH]; intros st b s Hr H; cbn [read_lines] in H;
    (destruct (appendLine b s) as [[b1 s1]|e] eqn:EA; [|done]);
    destruct (appendLine_Ok _ _ _ _ Hr EA) as (l & Hl & -> & (W1 & W2 & W3) & Hr1);
    rewrite W1, drop_app_length, take_app_length in H;
    (destruct (bool_decide_reflect (trim_eol (l ++ [LF]) = [DOT])) as [Hd|Hd];
      [injection H as <- <- <-; exists [], l; cbn in W2 |- *; rewrite length_app in W2; cbn in W2; split_and!; try done; lia|]).
  - by destruct (Line st _).
  - destruct (Line st (rout b ++ unstuff (trim_eol (l ++ [LF])) ++ [LF])) as [st1 out1] eqn:EL.
    apply IH in H as (raws & last & HF & Hlast & Ht & Htl & Hs & Hn & Hm & Hlim & Hb); [|cbn [received rlimit]; by rewrite W3].
    exists (l :: raws), last. cbn [received rlimit rout sdata stail map concat] in *. rewrite W3 in Hm, Hlim.
    rewrite !length_app in *. cbn [length] in *. split_and!; try done; try lia.
    + by constructor.
    + rewrite Hs, <- !app_assoc. done.
    + unfold fold_body in *. cbn [fold_left fst snd]. by rewrite EL.
Qed.

Hypothesis Line_length : forall st body, length (snd (Line st body)) = length body.

Lemma read_lines_cap fuel st b s st' b' s' :
  cap_ok b -> read_lines Line fuel st b s = (st', Ok (b', s')) -> cap_ok b'.
Proof.
  revert st b s. induction fuel as [|fuel IH]; intros st b s Hc H; cbn [read_lines] in H;
    (destruct (appendLine b s) as [[b1 s1]|e] eqn:EA; [|done]);
    destruct (append_fragments_cap _ _ _ _ _ Hc EA) as [[Hc1 Hc2] _];
    destruct (appendLine_Ok _ _ _ _ (proj2 (proj2 Hc)) EA) as (l & _ & _ & (W1 & W2 & W3) & _);
    rewrite W1, drop_app_length, take_app_length in H; rewrite W1, !length_app in Hc1, Hc2; cbn [length] in Hc1, Hc2;
    (case_if_in H; [injection H as <- <- <-; unfold cap_ok; cbn; lia|]).
  - by destruct (Line st _).
  - pose proof (Line_length st (rout b ++ unstuff (trim_eol (l ++ [LF])) ++ [LF])) as HL.
    pose proof (unstuff_trim_length l) as HU.
    destruct (Line st (rout b ++ unstuff (trim_eol (l ++ [LF])) ++ [LF])) as [st1 out1].
    eapply IH; [|exact H]. cbn [snd] in HL. rewrite !length_app in HL. cbn [length] in HL. unfold cap_ok. cbn. lia.
Qed.
End Bodies.

(** ** Received articles *)

(** An article as posted: its lines, each ended by CRLF. *)
Definition article (lines : list bytes) : bytes := concat (map (fun l => l ++ CRLF) lines).
(** A line as the yEnc code writes it: no line feed in it, no carriage return at
    its end. *)
Definition plain (l : bytes) : Prop := LF ∉ l /\ drop_cr l = l.

#[export] Instance plain_dec l : Decision (plain l).
Proof. unfold plain. apply _. Defined.

Lemma fold_body_chunks d body lines :
  fold_body Feed d body lines = feed_chunks d body (map (fun l => l ++ [LF]) lines).
Proof.
  unfold fold_body. revert d body. induction lines as [|l lines IH]; intros d body; cbn [fold_left map feed_chunks fst snd]; [done|].
  destruct (Feed d (body ++ l ++ [LF])) as [d' body']. by rewrite <- IH.
Qed.

Lemma split_lines_ended (f : bytes -> bytes) lines :
  Forall (fun l => LF ∉ f l) lines -> split_lines (concat (map (fun l => f l ++ [LF]) lines)) = map f lines.
Proof.
  induction 1 as [|l lines Hl _ IH]; cbn [map concat]; [done|].
  rewrite <- app_assoc. cbn [app]. by rewrite split_lines_cons, IH.
Qed.

Lemma article_lines lines :
  Forall plain lines -> map drop_cr (split_lines (article lines)) = lines.
Proof.
  intros Hp. unfold article, CRLF.
  replace (map (fun l => l ++ [CR; LF]) lines) with (map (fun l => (l ++ [CR]) ++ [LF]) lines)
    by (apply map_ext; intros l; by rewrite <- app_assoc).
  rewrite (split_lines_ended (fun l => l ++ [CR])).
  - rewrite map_map. erewrite map_ext; [apply map_id|]. intros l. by rewrite drop_cr_snoc.
  - eapply Forall_impl; [exact Hp|]. intros l [H _]. rewrite not_elem_of_app. split; [done|].
    by rewrite list_elem_of_singleton.
Qed.

(** C5: An article sent over the wire (dot-stuffed, CRLF lines, terminator) and
    decoded in place line by line as it arrives gives exactly what decoding the
    posted article gives, whatever the caller's buffer; the bytes that follow
    the terminator stay unread. *)
Theorem received_article_decodes lines rest tail bufcap limit :
  Forall plain lines -> (length (wire lines) <= limit)%nat -> lines_fit (article lines) ->
  match readDotBodyLimit Feed zeroDecoder (mkStream (wire lines ++ rest) tail) bufcap limit with
  | (d, Ok (b, s')) => s' = mkStream rest tail /\ Finish d (rout b) = Decode (article lines)
  | (_, Err _) => False
  end.
Proof.
  intros Hp Hlim Hfit.
  assert (Hlf : Forall (fun l => LF ∉ l) lines) by (eapply Forall_impl; [exact Hp|]; by intros l [? _]).
  destruct (readDotBodyLimit_wire Feed zeroDecoder lines rest tail bufcap limit Hlf Hlim) as (b & -> & Hb).
  split; [done|]. rewrite Decode_lines, article_lines, Hb, fold_body_chunks by done.
  pose proof (feed_chunks_fed [] zeroDecoder [] [] (map (fun l => l ++ [LF]) lines) (fed_zero [])) as HF.
  destruct (feed_chunks zeroDecoder [] (map (fun l => l ++ [LF]) lines)) as [d body]. destruct HF as [l2 HF].
  cbn [fst snd]. rewrite (Finish_lines _ _ _ _ HF). cbn [app].
  rewrite (split_lines_ended (fun l => l)), map_id by done. do 2 f_equal.
  clear -Hp. induction Hp as [|l lines [_ Hl] _ IH]; cbn [map]; [done|]. by rewrite Hl, IH.
Qed.

(** A body is returned only when the stream holds it whole: complete lines
    ended by a terminator line, at most [limit] bytes of wire in all; it is then
    the lines with one leading dot removed, each ended by a line feed, and the
    array that holds it never exceeds the limit. *)
Lemma body_only_when_terminated s bufcap limit b s' :
  readDotBodyLimit (fun st body => (st, body)) () s bufcap limit = ((), Ok (b, s')) ->
  exists raws last, LF ∉ last /\ trim_eol (last ++ [LF]) = [DOT] /\
    Forall (fun l => LF ∉ l /\ trim_eol (l ++ [LF]) <> [DOT]) raws /\
    sdata s = concat (map (fun l => l ++ [LF]) raws) ++ last ++ LF :: sdata s' /\
    (length (concat (map (fun l => l ++ [LF]) raws)) + length last + 1 <= limit)%nat /\
    rout b = concat (map (fun l => unstuff (trim_eol (l ++ [LF])) ++ [LF]) raws) /\
    (length (rout b) <= rcap b <= limit)%nat.
Proof.
  intros H. unfold readDotBodyLimit in H.
  assert (Hc : cap_ok b).
  { eapply (read_lines_cap (fun st body => (st, body))); [done| |exact H]. unfold cap_ok. cbn. lia. }
  apply read_lines_sound in H as (raws & last & HF & Hl & Ht & _ & Hs & Hn & Hm & Hlim & Hb); [|cbn; lia].
  cbn [received rlimit rout] in *. exists raws, last. split_and!; try done; try lia.
  - apply (f_equal snd) in Hb. cbn [snd] in Hb. rewrite Hb. clear. unfold fold_body.
    assert (Hgen : forall acc, snd (fold_left (fun sb l => (fst sb, snd sb ++ l ++ [LF]))
      (map (fun l => unstuff (trim_eol (l ++ [LF]))) raws) ((), acc)) =
      acc ++ concat (map (fun l => unstuff (trim_eol (l ++ [LF])) ++ [LF]) raws)); [|apply (Hgen [])].
    induction raws as [|l raws IH]; intros acc; cbn [map fold_left concat fst snd]; [by rewrite app_nil_r|].
    by rewrite IH, <- !app_assoc.
  - apply Hc.
  - rewrite <- Hlim. apply Hc.
Qed.

(** * Responses *)

(** A complete status line of [code]. *)
Definition status_line (l : bytes) (code : Z) : Prop :=
  LF ∉ l /\ (length l + 1 <= MaxReplyBytes)%nat /\
  Atoi3 (take 3 (trim_eol (l ++ [LF]))) = Some code /\ nth 3 (trim_eol (l ++ [LF])) 0 = SP /\ 100 <= code.

Lemma readReply_complete s expect code msg e s' :
  readReply s expect = (code, msg, e, s') -> code <> 0 ->
  exists l, status_line l code /\ s = mkStream (l ++ LF :: sdata s') (stail s') /\
    msg = drop 4 (trim_eol (l ++ [LF])) /\ (e = None <-> code = expect).
Proof.
  unfold readReply. intros H Hc.
  destruct (appendLine (mkRecv [] 0 false 0 MaxReplyBytes) s) as [[b s1]|x] eqn:EA; [|destruct x; by injection H as <- <- <- <-].
  apply appendLine_Ok in EA as (l & Hl & -> & (W1 & W2 & _) & Hr); [|cbn; lia].
  cbn [rout received rlimit app] in *. rewrite W1 in H. rewrite length_app in W2. cbn [length] in W2.
  case_if_in H; [by injection H as <- <- <- <-|]. apply orb_false_iff in E as [_ E]. bprop.
  destruct (Atoi3 (take 3 (trim_eol (l ++ [LF])))) as [v|] eqn:Ea; [|by injection H as <- <- <- <-].
  case_if_in H; [by injection H as <- <- <- <-|]. bprop.
  exists l. case_if_in H; injection H as <- <- <- <-; bprop; (split; [split_and!; try done; lia|]);
    split_and!; try done; split; done.
Qed.

(** A response to BODY that is complete: a status line that refuses the article,
    or one that announces it and the whole dot-terminated body. *)
Definition dot_body (s : bytes) : Prop :=
  exists raws last, s = concat (map (fun l => l ++ [LF]) raws) ++ last ++ [LF] /\
    Forall (fun l => LF ∉ l /\ trim_eol (l ++ [LF]) <> [DOT]) raws /\ LF ∉ last /\ trim_eol (last ++ [LF]) = [DOT].
Definition response (s : bytes) (refused : option Z) : Prop :=
  exists l code, status_line l code /\
    match refused with
    | Some c => c = code /\ (code = 430 \/ code = 423) /\ s = l ++ [LF]
    | None => code = 222 /\ exists body, dot_body body /\ s = l ++ [LF] ++ body
    end.

(** A connection that is kept for the next command stands exactly after the
    response to this one: if BODY leaves it unbroken, the bytes taken off the
    stream are one complete response, either a 430/423 line, reported as the
    article missing, or a 222 line with a complete body, returned without an
    error.  So no reply can be taken for the answer to a later command. *)
Lemma connection_in_sync {S} (Line : S -> bytes -> S * bytes) st written s stallBounded ctxDone bufcap limit
    st' body err s' :
  bodyOnConn Line st written s stallBounded ctxDone bufcap limit = (st', body, err, s', false) ->
  exists taken, sdata s = taken ++ sdata s' /\ stail s' = stail s /\
    ((exists c, response taken (Some c) /\ err = Some (ArticleNotFound c) /\ body = None) \/
     (exists b, response taken None /\ err = None /\ body = Some b)).
Proof.
  unfold bodyOnConn, bodyExchange. intros H. destruct written as [x|]; [by destruct ctxDone; injection H|].
  destruct (readReply s 222) as [[[code msg] e] s1] eqn:ER. destruct e as [e|].
  - destruct ctxDone; [by injection H|].
    destruct ((code =? 430) || (code =? 423)) eqn:Ec; [|by destruct (stallBounded && isNetTimeout e); injection H].
    injection H as <- <- <- <-. assert (Hc : code = 430 \/ code = 423) by (apply orb_true_iff in Ec as [?|?]; bprop; auto).
    destruct (readReply_complete _ _ _ _ _ _ ER ltac:(lia)) as (l & Hl & -> & _ & _). cbn [sdata stail].
    exists (l ++ [LF]). rewrite <- app_assoc. split_and!; [done|done|]. left. exists code. split_and!; try done.
    exists l, code. by split_and!.
  - destruct (readDotBodyLimit Line st s1 bufcap limit) as [st1 [[b s2]|x]] eqn:EB; [|by destruct ctxDone; injection H].
    destruct ctxDone; [by injection H|]. injection H as <- <- <- <-.
    assert (Hcode : code <> 0).
    { unfold readReply in ER. clear -ER. destruct (appendLine _ s) as [[? ?]|[]]; repeat case_if_in ER; try done;
        destruct (Atoi3 _); repeat case_if_in ER; try done; bprop; simplify_eq; lia. }
    destruct (readReply_complete _ _ _ _ _ _ ER Hcode) as (l & Hl & -> & _ & Hce). cbn [sdata stail].
    apply read_lines_sound in EB as (raws & last & HF & Hlast & Ht & Htl & Hs & _); [|cbn; lia].
    exists (l ++ [LF] ++ concat (map (fun l => l ++ [LF]) raws) ++ last ++ [LF]). split_and!.
    + rewrite Hs, <- !app_assoc. done.
    + done.
    + right. exists b. split_and!; try done. exists l, code. split_and!; [done|by apply Hce|].
      eexists. split; [|done]. exists raws, last. by split_and!.
Qed.

(** Every command of the handshake is one line: credentials cannot add another. *)
Lemma dial_commands_single_line user pass socket wr1 wr2 c :
  c ∈ fst (dial user pass socket wr1 wr2) -> exists l, c = l ++ CRLF /\ LF ∉ l /\ CR ∉ l.
Proof.
  unfold dial. destruct (validateCredentials user pass) eqn:Ev; cbn [negb]; [|by rewrite elem_of_nil].
  unfold validateCredentials in Ev. bprop.
  assert (Hno : forall x, existsb bad_credential_byte x = false -> LF ∉ x /\ CR ∉ x).
  { intros x Hx. split; intros Hin; apply list_elem_of_In in Hin;
      assert (existsb bad_credential_byte x = true) as Ht by (apply existsb_exists; eexists; split; [exact Hin|reflexivity]); congruence. }
  assert (Hcmd : forall verb x, LF ∉ verb -> CR ∉ verb -> existsb bad_credential_byte x = false ->
    exists l, cmd_line verb x = l ++ CRLF /\ LF ∉ l /\ CR ∉ l).
  { intros verb x Hv1 Hv2 Hx. exists (verb ++ x). destruct (Hno x Hx). unfold cmd_line.
    rewrite app_assoc, !not_elem_of_app. auto. }
  assert (Hv : forall v, v = str "AUTHINFO USER " \/ v = str "AUTHINFO PASS " -> LF ∉ v /\ CR ∉ v).
  { intros v [-> | ->]; split; apply (bool_decide_unpack _); vm_compute; exact I. }
  destruct socket as [s|]; [|by rewrite elem_of_nil].
  destruct (readReply s 200) as [[[code msg] e] s1]. case_if; [by rewrite elem_of_nil|].
  destruct user as [|u user]; [by rewrite elem_of_nil|]. unfold auth.
  destruct wr1; cbn [negb]; [|by rewrite elem_of_nil].
  destruct (readReply s1 381) as [[[code1 m1] [e1|]] s2].
  - case_if; cbn [fst]; rewrite list_elem_of_singleton; intros ->; apply Hcmd; try done; apply Hv; auto.
  - destruct wr2; cbn [negb fst]; [destruct (readReply s2 281) as [[[? ?] [?|]] ?]; cbn [fst]|];
      rewrite ?elem_of_cons, ?elem_of_nil; intros Hc; repeat destruct Hc as [-> | Hc]; try done;
      apply Hcmd; try done; apply Hv; auto.
Qed.

(** A stall is reported only for an article that stalled on a connection
    dialled for this very call: the first connection failed and was closed for
    good, the new one was given the command and went silent past the stall bound
    before a status line, and it is closed too.  A missing article is reported
    only on a complete 430 or 423 line, by a connection that goes back to the
    pool. *)
Lemma verdict_sources {S} (Line : S -> bytes -> S * bytes) Restart st id first ctx2 redial ctx3 stallBounded bufcap limit
    st' body e conns :
  BodyInto Line Restart st id first ctx2 redial ctx3 stallBounded bufcap limit = (st', body, Some (CallFailed e), conns) ->
  (e = StallError ->
     exists x y, first = Ok x /\ redial = Some y /\ stallBounded = true /\ xctx y = false /\ xwritten y = None /\
       isNetTimeout (match snd (fst (readReply (xstream y) 222)) with Some r => r | None => InvalidCode end) = true /\
       conns = [Retired; Retired]) /\
  (forall c, e = ArticleNotFound c ->
     exists x taken rest, (first = Ok x \/ redial = Some x) /\ sdata (xstream x) = taken ++ rest /\
       response taken (Some c) /\ last conns = Some Released).
Proof.
  unfold BodyInto. intros H. destruct (NormalizeMessageID id); [|done]. destruct first as [x|]; [|done].
  destruct (bodyOnConn Line st (xwritten x) (xstream x) stallBounded (xctx x) bufcap limit)
    as [[[[st1 b1] e1] s1] br1] eqn:E1.
  destruct br1; cbn [negb] in H.
  - case_if_in H.
    + assert (He : e = CtxErr \/ isReceiveLimit e = true).
      { injection H as _ _ <- _. destruct (xctx x || ctx2); [by left|]. destruct e1; [by right|by left]. }
      by split; [|intros c]; intros ->; destruct He.
    + destruct redial as [y|]; [|by destruct ctx3; simplify_eq]. destruct ctx3; [done|].
      destruct (bodyOnConn Line (Restart st1) (xwritten y) (xstream y) stallBounded (xctx y) bufcap limit)
        as [[[[st2 b2] e2] s2] br2] eqn:E2.
      destruct e2 as [e2|]; [|done]. cbn in H. injection H as _ _ -> <-. split.
      * intros ->. exists x, y.
        unfold bodyOnConn, bodyExchange in E2. destruct (xwritten y); [by destruct (xctx y); simplify_eq|].
        destruct (readReply (xstream y) 222) as [[[code msg] er] s3]. cbn [fst snd].
        destruct (xctx y).
        { by destruct er; [|destruct (readDotBodyLimit Line (Restart st1) s3 bufcap limit) as [? [[]|]]]; simplify_eq. }
        destruct er as [er|]; [|by destruct (readDotBodyLimit Line (Restart st1) s3 bufcap limit) as [? [[]|]]; simplify_eq].
        case_if_in E2; [by simplify_eq|]. destruct (stallBounded && isNetTimeout er) eqn:Es; [|by simplify_eq].
        bprop. simplify_eq. by split_and!.
      * intros c ->. assert (br2 = false) as -> by (unfold bodyOnConn in E2; repeat case_match; by simplify_eq).
        apply connection_in_sync in E2 as (taken & Ht & _ & [(c' & Hr & [= <-] & _)|(b & _ & ? & _)]); [|done].
        exists y, taken, (sdata s2). by split_and!; [right|..].
  - destruct e1 as [e1|]; [|done]. cbn in H. injection H as _ _ -> <-. split.
    + intros ->. unfold bodyOnConn in E1. repeat case_match; by simplify_eq.
    + intros c ->. apply connection_in_sync in E1 as (taken & Ht & _ & [(c' & Hr & [= <-] & _)|(b & _ & ? & _)]); [|done].
      exists x, taken, (sdata s1). by split_and!; [left|..].
Qed.

(** ** Witnesses *)

Definition sample_lines : list bytes := [str "=ybegin line=128 size=2 name=a"; str "..K"; str "=yend size=2"].
Lemma received_article_decodes_witness :
  match readDotBodyLimit Feed zeroDecoder (mkStream (wire sample_lines ++ str "205 bye") NTimeout) 10 200 with
  | (d, Ok (b, s')) => s' = mkStream (str "205 bye") NTimeout /\ Finish d (rout b) = Decode (article sample_lines)
  | (_, Err _) => False
  end.
Proof.
  apply (received_article_decodes sample_lines (str "205 bye") NTimeout 10 200).
  - apply (bool_decide_unpack _). vm_compute. exact I.
  - apply Nat.leb_le. vm_compute. reflexivity.
  - apply (bool_decide_unpack _). vm_compute. exact I.
Defined.

Definition sample_stream : stream := mkStream (str "222 0 body" ++ CRLF ++ wire sample_lines ++ str "430 no") NTimeout.
Lemma body_only_when_terminated_witness :
  let s := mkStream (wire sample_lines ++ str "430 no") NTimeout in
  exists b, readDotBodyLimit (fun st body => (st, body)) () s 10 200 = ((), Ok (b, mkStream (str "430 no") NTimeout)) /\
    (length (rout b) <= rcap b <= 200)%nat.
Proof.
  intros s.
  destruct (readDotBodyLimit (fun (st : unit) body => (st, body)) () s 10 200) as [[] [[b s']|e]] eqn:E;
    [|vm_compute in E; discriminate E].
  assert (Hs : s' = mkStream (str "430 no") NTimeout) by (vm_compute in E; injection E as _ <-; reflexivity).
  destruct (body_only_when_terminated s 10 200 b s' E) as (_ & _ & _ & _ & _ & _ & _ & _ & H).
  exists b. rewrite <- Hs. split; [reflexivity|exact H].
Defined.

Lemma connection_in_sync_witness :
  let '(_, _, err, s', broken) :=
    bodyOnConn (fun (st : unit) body => (st, body)) () None sample_stream true false 0 200 in
  broken = false /\ err = None /\ exists taken, sdata sample_stream = taken ++ sdata s'.
Proof.
  destruct (bodyOnConn (fun (st : unit) body => (st, body)) () None sample_stream true false 0 200)
    as [[[[[] body] err] s'] broken] eqn:E.
  assert (Hb : broken = false /\ err = None) by (vm_compute in E; injection E as _ <- _ <-; split; reflexivity).
  destruct Hb as [-> ->]. split; [reflexivity|]. split; [reflexivity|].
  destruct (connection_in_sync _ () None sample_stream true false 0 200 _ _ _ _ E) as (taken & H & _).
  exists taken. exact H.
Defined.

(** A pooled connection that times out, a new one that answers 430. *)
Lemma verdict_sources_witness :
  let silent := mkExch None (mkStream [] NTimeout) false in
  let answers := mkExch None (mkStream (str "430 no such article" ++ CRLF) NTimeout) false in
  snd (fst (BodyInto (fun (st : unit) body => (st, body)) (fun st => st) () (str "a@b") (Ok silent) false
    (Some answers) false true 0 100)) = Some (CallFailed (ArticleNotFound 430)) /\
  exists x taken rest, (Ok silent = @Ok bool _ x \/ Some answers = Some x) /\
    sdata (xstream x) = taken ++ rest /\ response taken (Some 430).
Proof.
  intros silent answers.
  destruct (BodyInto (fun (st : unit) body => (st, body)) (fun st => st) () (str "a@b") (Ok silent) false
    (Some answers) false true 0 100) as [[[[] body] err] conns] eqn:E.
  assert (He : err = Some (CallFailed (ArticleNotFound 430))) by (vm_compute in E; injection E as _ <- _; reflexivity).
  rewrite He in E |- *. split; [reflexivity|].
  destruct (verdict_sources _ _ _ _ _ _ _ _ _ _ _ _ _ _ _ E) as [_ H].
  destruct (H 430 eq_refl) as (x & taken & rest & H1 & H2 & H3 & _). exists x, taken, rest. split; [exact H1|]. split; assumption.
Defined.
