(* ===== verification/NntpPool.v ===== *)
(** The NNTP connection pool: internal/usenet/nntp/pool.go and the calls of
    client.go that take connections from it and give them back (Connect,
    BodyInto, Close).

    A call to BodyInto is a phase; an event is one channel operation or one
    critical section of the client's mutex, with the work of its goroutine up to
    the next, so that calls interleave between events.  Where a Go select can
    find several cases ready the event names the case taken.  What a BODY does
    on a connection is in NntpWire: here it is whether it leaves the connection
    broken. *)
From Stdlib Require Import ZArith Lia.
From stdpp Require Import prelude list.
From S2P Require Import Prelude.

Open Scope Z_scope.

Record conn := mkConn { cid : nat; broken : bool }.

(** Where a call to BodyInto stands. *)
Inductive phase :=
| Look                            (* in acquire, before takeIdle *)
| TryReserve                      (* nothing was idle, before reserveSlot *)
| Dialing                         (* dialReserved *)
| Wait (backoff : bool)           (* awaitConn *)
| Using (cn : conn) (first : bool) (* bodyOnConn, the first or the second *)
| Repair (cn : conn)              (* the first left [cn] broken *)
| Adopted (old new : conn)        (* replace has dialled and counted [new] *)
| Fresh (cn : conn)               (* replace is done *)
| Release (cn : conn)             (* before release looks at done *)
| Pushing (cn : conn)             (* release found the client open and [cn] whole *)
| Ended.

Record Client := mkClient {
  copen : Z;                 (* open *)
  cpool : list conn;         (* the pool channel, oldest first *)
  freed : nat;               (* tokens in the freed channel *)
  cclosed : bool;            (* done is closed *)
  draining : bool;           (* Close is in drainPool *)
  retired : list nat;        (* connections closed for good *)
  nextConn : nat;
  calls : list phase
}.

Section Pool.
Context (MaxConnections : nat).

Definition NewClient : Client := mkClient 0 [] 0 false false [] 0 [].

(** ** Field updates and the counters *)

Definition wake (c : Client) : Client :=
  mkClient (copen c) (cpool c) (if (freed c <? MaxConnections)%nat then S (freed c) else freed c)
    (cclosed c) (draining c) (retired c) (nextConn c) (calls c).
Definition add_open (c : Client) (d : Z) : Client :=
  mkClient (copen c + d) (cpool c) (freed c) (cclosed c) (draining c) (retired c) (nextConn c) (calls c).
Definition set_pool (c : Client) (p : list conn) : Client :=
  mkClient (copen c) p (freed c) (cclosed c) (draining c) (retired c) (nextConn c) (calls c).
Definition set_call (c : Client) (i : nat) (p : phase) : Client :=
  mkClient (copen c) (cpool c) (freed c) (cclosed c) (draining c) (retired c) (nextConn c) (<[i := p]> (calls c)).
Definition take_freed (c : Client) : Client :=
  mkClient (copen c) (cpool c) (pred (freed c)) (cclosed c) (draining c) (retired c) (nextConn c) (calls c).

Definition freeSlot (c : Client) : Client := wake (add_open c (-1)).
Definition adopt (c : Client) : Client := add_open c 1.
Definition reserveSlot (c : Client) : bool * Client :=
  if Z.of_nat MaxConnections <=? copen c then (false, c) else (true, add_open c 1).
Definition unreserve (c : Client) : Z * Client :=
  let c' := add_open c (-1) in
  (copen c', if copen c' =? 0 then wake c' else c').
Definition retire (c : Client) (cn : conn) : Client :=
  if bool_decide (cid cn ∈ retired c) then c
  else freeSlot (mkClient (copen c) (cpool c) (freed c) (cclosed c) (draining c) (cid cn :: retired c)
                   (nextConn c) (calls c)).
(** A connection just dialled. *)
Definition new_conn (c : Client) : conn * Client :=
  (mkConn (nextConn c) false,
   mkClient (copen c) (cpool c) (freed c) (cclosed c) (draining c) (retired c) (S (nextConn c)) (calls c)).

(** ** Connect *)

Definition drainPool (c : Client) : Client := set_pool (fold_left retire (cpool c) c) [].
(** [dials] are the outcomes of the dials left. *)
Fixpoint connect_loop (c : Client) (dials : list bool) : bool * Client :=
  match dials with
  | [] => (true, c)
  | false :: _ => (false, drainPool c)
  | true :: dials' =>
      let '(cn, c) := new_conn c in
      let c := adopt c in
      connect_loop (set_pool c (cpool c ++ [cn])) dials'
  end.
(** [dials i] is the outcome of the i-th dial. *)
Definition Connect (c : Client) (dials : nat -> bool) : bool * Client :=
  connect_loop (mkClient (copen c) (cpool c) (freed c) false (draining c) (retired c) (nextConn c) (calls c))
    (map dials (seq 0 MaxConnections)).

(** ** A call's moves *)

Inductive looked := LClosed | LCancel | LIdle | LNone.
Inductive awaited := AConn | AFreed | ABackoff | ACancel | AClosed.
Inductive event :=
| ECall
| ETakeIdle (i : nat) (w : looked)
| EReserve (i : nat)
| EDial (i : nat) (ok : bool)
| EAwait (i : nat) (w : awaited)
| EBody (i : nat) (broken : bool)
| EGiveUp (i : nat)
| EReplace (i : nat) (ok : bool)
| ERetireOld (i : nat)
| EResume (i : nat) (cancelled : bool)
| ERelease (i : nat)
| EPush (i : nat)
| EClose
| EDrain.

Definition takeIdle (c : Client) (i : nat) (w : looked) : Client :=
  match w with
  | LClosed => if cclosed c then set_call c i Ended else c
  | LCancel => set_call c i Ended
  | LIdle => match cpool c with cn :: p => set_call (set_pool c p) i (Using cn true) | [] => c end
  | LNone => match cpool c with [] => if cclosed c then c else set_call c i TryReserve | _ => c end
  end.
Definition dialReserved (c : Client) (i : nat) (ok : bool) : Client :=
  if ok then let '(cn, c) := new_conn c in set_call c i (Using cn true)
  else let '(n, c) := unreserve c in set_call c i (if 0 <? n then Wait true else Ended).
Definition awaitConn (c : Client) (i : nat) (backoff : bool) (w : awaited) : Client :=
  match w with
  | AConn => match cpool c with cn :: p => set_call (set_pool c p) i (Using cn true) | [] => c end
  | AFreed => if negb backoff && (0 <? freed c)%nat then set_call (take_freed c) i Look else c
  | ABackoff => if backoff then set_call c i Look else c
  | ACancel => set_call c i Ended
  | AClosed => if cclosed c then set_call c i Ended else c
  end.
(** bodyOnConn returned: an unbroken first connection is released; a broken one is
    to be repaired; the second is released either way. *)
Definition body_done (c : Client) (i : nat) (cn : conn) (first nowBroken : bool) : Client :=
  let cn := mkConn (cid cn) nowBroken in
  set_call c i (if first && nowBroken then Repair cn else Release cn).
Definition replace (c : Client) (i : nat) (cn : conn) (ok : bool) : Client :=
  if ok then let '(fresh, c) := new_conn c in set_call (adopt c) i (Adopted cn fresh)
  else set_call (retire c cn) i Ended.
Definition release (c : Client) (i : nat) (cn : conn) : Client :=
  if cclosed c || broken cn then set_call (retire c cn) i Ended else set_call c i (Pushing cn).
Definition push (c : Client) (i : nat) (cn : conn) : Client :=
  if (length (cpool c) <? MaxConnections)%nat
  then set_call (set_pool c (cpool c ++ [cn])) i Ended
  else set_call (retire c cn) i Ended.

Definition step (c : Client) (ev : event) : Client :=
  match ev with
  | ECall => mkClient (copen c) (cpool c) (freed c) (cclosed c) (draining c) (retired c) (nextConn c) (calls c ++ [Look])
  | ETakeIdle i w => match calls c !! i with Some Look => takeIdle c i w | _ => c end
  | EReserve i =>
      match calls c !! i with
      | Some TryReserve =>
          let '(ok, c') := reserveSlot c in set_call c' i (if ok then Dialing else Wait false)
      | _ => c
      end
  | EDial i ok => match calls c !! i with Some Dialing => dialReserved c i ok | _ => c end
  | EAwait i w => match calls c !! i with Some (Wait b) => awaitConn c i b w | _ => c end
  | EBody i nowBroken =>
      match calls c !! i with Some (Using cn first) => body_done c i cn first nowBroken | _ => c end
  | EGiveUp i => match calls c !! i with Some (Repair cn) => set_call (retire c cn) i Ended | _ => c end
  | EReplace i ok => match calls c !! i with Some (Repair cn) => replace c i cn ok | _ => c end
  | ERetireOld i =>
      match calls c !! i with Some (Adopted old new) => set_call (retire c old) i (Fresh new) | _ => c end
  | EResume i cancelled =>
      match calls c !! i with
      | Some (Fresh cn) =>
          if cancelled then set_call (retire c (mkConn (cid cn) true)) i Ended else set_call c i (Using cn false)
      | _ => c
      end
  | ERelease i => match calls c !! i with Some (Release cn) => release c i cn | _ => c end
  | EPush i => match calls c !! i with Some (Pushing cn) => push c i cn | _ => c end
  | EClose =>
      if cclosed c then c
      else mkClient (copen c) (cpool c) (freed c) true true (retired c) (nextConn c) (calls c)
  | EDrain =>
      if draining c then
        match cpool c with
        | cn :: p => retire (set_pool c p) cn
        | [] => mkClient (copen c) [] (freed c) (cclosed c) false (retired c) (nextConn c) (calls c)
        end
      else c
  end.
Definition run (dials : nat -> bool) (evs : list event) : Client :=
  fold_left step evs (snd (Connect NewClient dials)).
End Pool.

(** * The accounting *)

(** The connections a call counts for in [open], and those it holds. *)
Definition weight (p : phase) : Z :=
  match p with
  | Look | TryReserve | Wait _ | Ended => 0
  | Adopted _ _ => 2
  | _ => 1
  end.
Definition surplus (p : phase) : Z := match p with Adopted _ _ => 1 | _ => 0 end.
Definition conns (p : phase) : list conn :=
  match p with
  | Using cn _ | Repair cn | Fresh cn | Release cn | Pushing cn => [cn]
  | Adopted old new => [old; new]
  | _ => []
  end.
Definition ids (p : phase) : list nat := cid <$> conns p.
Definition held_ids (l : list phase) : list nat := concat (map ids l).
Definition all_ids (c : Client) : list nat := (cid <$> cpool c) ++ held_ids (calls c) ++ retired c.

Lemma held_ids_at l i p :
  l !! i = Some p -> exists rest, held_ids l ≡ₚ ids p ++ rest /\ forall q, held_ids (<[i := q]> l) ≡ₚ ids q ++ rest.
Proof.
  unfold held_ids. revert i. induction l as [|x l IH]; intros [|i] Hi; try done; cbn in Hi.
  - injection Hi as ->. exists (concat (map ids l)). split; [done|]. by intros q.
  - destruct (IH i Hi) as (rest & H1 & H2). exists (ids x ++ rest). cbn [map concat].
    split; [rewrite H1; apply Permutation_app_swap_app|]. intros q.
    change (<[S i := q]> (x :: l)) with (x :: <[i := q]> l). cbn [map concat]. rewrite H2. apply Permutation_app_swap_app.
Qed.

Section Accounting.
Context (MaxConnections : nat).

Record inv (c : Client) : Prop := {
  i_open : copen c = Z.of_nat (length (cpool c)) + zsum weight (calls c);
  i_bound : copen c <= Z.of_nat MaxConnections + zsum surplus (calls c);
  i_ids : NoDup (all_ids c);
  i_next : Forall (fun n => (n < nextConn c)%nat) (all_ids c);
  i_pool : Forall (fun cn => broken cn = false) (cpool c);
  i_push : forall i cn, calls c !! i = Some (Pushing cn) -> broken cn = false
}.

Lemma surplus_nonneg p : 0 <= surplus p.
Proof. destruct p; cbn; lia. Qed.
Lemma weight_nonneg p : 0 <= weight p.
Proof. destruct p; cbn; lia. Qed.

(** A call's move from [p] to [q]; [fresh] are the connections it dialled. *)
Lemma pool_inv_move c c' i p q fresh :
  inv c -> calls c !! i = Some p -> calls c' = <[i := q]> (calls c) ->
  copen c' - Z.of_nat (length (cpool c')) - weight q = copen c - Z.of_nat (length (cpool c)) - weight p ->
  (copen c' - surplus q <= copen c - surplus p \/ copen c' <= Z.of_nat MaxConnections) ->
  (cid <$> cpool c') ++ ids q ++ retired c' ≡ₚ fresh ++ (cid <$> cpool c) ++ ids p ++ retired c ->
  fresh = seq (nextConn c) (length fresh) -> nextConn c' = (nextConn c + length fresh)%nat ->
  Forall (fun cn => broken cn = false) (cpool c') ->
  (forall cn, q = Pushing cn -> broken cn = false) ->
  inv c'.
Proof.
  intros [H1 H2 H3 H4 H5 H6] Hi Hc Ho Hb Hp Hf Hn Hw Hq.
  destruct (held_ids_at _ _ _ Hi) as (rest & R1 & R2). specialize (R2 q).
  assert (Hall : all_ids c' ≡ₚ fresh ++ all_ids c).
  { unfold all_ids. rewrite Hc, R2, R1.
    transitivity (((cid <$> cpool c') ++ ids q ++ retired c') ++ rest).
    { rewrite <- !app_assoc. do 2 apply Permutation_app_head. apply Permutation_app_comm. }
    rewrite Hp, <- !app_assoc. do 3 apply Permutation_app_head. apply Permutation_app_comm. }
  constructor.
  - rewrite Hc, (zsum_insert _ _ _ _ q Hi). lia.
  - rewrite Hc, (zsum_insert _ _ _ _ q Hi). pose proof (surplus_nonneg q).
    pose proof (zsum_lookup surplus _ _ _ surplus_nonneg Hi). lia.
  - rewrite Hall. apply NoDup_app. split_and!; [rewrite Hf; apply NoDup_seq| |done].
    intros x Hx Hx'. rewrite Hf in Hx. apply elem_of_seq in Hx. rewrite Forall_forall in H4. specialize (H4 x Hx'). lia.
  - rewrite Hall, Hn. apply Forall_app. split.
    + rewrite Hf at 1. apply Forall_forall. intros x Hx%elem_of_seq. lia.
    + eapply Forall_impl; [exact H4|]. cbn. lia.
  - done.
  - intros j cn Hj. rewrite Hc in Hj. destruct (decide (j = i)) as [->|Hne].
    + rewrite list_lookup_insert_eq in Hj by (by eapply lookup_lt_Some). injection Hj as Hj. by apply Hq.
    + rewrite list_lookup_insert_ne in Hj by done. by apply (H6 j).
Qed.

(** retire, on a connection that is still in service. *)
Lemma retire_new c cn :
  cid cn ∉ retired c ->
  copen (retire MaxConnections c cn) = copen c - 1 /\ cpool (retire MaxConnections c cn) = cpool c /\
  calls (retire MaxConnections c cn) = calls c /\ retired (retire MaxConnections c cn) = cid cn :: retired c /\
  nextConn (retire MaxConnections c cn) = nextConn c /\ cclosed (retire MaxConnections c cn) = cclosed c /\
  (freed c <= freed (retire MaxConnections c cn))%nat /\ ((0 < MaxConnections)%nat -> (0 < freed (retire MaxConnections c cn))%nat).
Proof.
  intros H. unfold retire. rewrite bool_decide_false by done. unfold freeSlot, wake, add_open.
  cbn [copen cpool freed cclosed draining retired nextConn calls]. split_and!; try done; try lia; intros; case_if; bprop; lia.
Qed.
Lemma in_service c i p n : inv c -> calls c !! i = Some p -> n ∈ ids p -> n ∉ retired c.
Proof.
  intros Hi Hp Hin Hr. destruct (held_ids_at _ _ _ Hp) as (rest & R & _).
  pose proof (i_ids c Hi) as Hn. unfold all_ids in Hn. rewrite R, <- !app_assoc in Hn.
  apply NoDup_app in Hn as (_ & _ & Hn). apply NoDup_app in Hn as (_ & Hn & _).
  apply (Hn n); [done|]. apply elem_of_app. by right.
Qed.

(** The moves that touch neither connections nor counters. *)
Lemma pool_inv_quiet c i p q :
  inv c -> calls c !! i = Some p -> weight q = weight p -> surplus q = surplus p -> ids q = ids p ->
  (forall cn, q = Pushing cn -> broken cn = false) -> inv (set_call c i q).
Proof.
  intros Hi Hp Hw Hs Hd Hq. apply (pool_inv_move c _ i p q []); try done; cbn [set_call copen cpool retired nextConn length]; try lia.
  - by rewrite Hd.
  - apply Hi.
Qed.

(** A call that retires the connection it holds and keeps [q]. *)
Lemma inv_retire c i p q cn :
  inv c -> calls c !! i = Some p -> ids p = cid cn :: ids q -> weight q = weight p - 1 ->
  surplus q <= surplus p <= surplus q + 1 -> (forall cn, q <> Pushing cn) ->
  inv (set_call (retire MaxConnections c cn) i q).
Proof.
  intros Hi Hp Hd Hw Hs Hq.
  assert (Hr : cid cn ∉ retired c) by (eapply in_service; [exact Hi|exact Hp|rewrite Hd; by constructor]).
  destruct (retire_new c cn Hr) as (E1 & E2 & E3 & E4 & E5 & _).
  apply (pool_inv_move c _ i p q []); try done; cbn [set_call copen cpool retired nextConn calls length];
    rewrite ?E1, ?E2, ?E3, ?E4, ?E5; try lia.
  - done.
  - cbn [app]. rewrite Hd. apply Permutation_app_head. cbn. symmetry. apply Permutation_middle.
  - apply Hi.
  - intros x ->. by destruct (Hq x).
Qed.

(** A call that takes an idle connection. *)
Lemma inv_take c i p cn rest :
  inv c -> calls c !! i = Some p -> weight p = 0 -> surplus p = 0 -> ids p = [] -> cpool c = cn :: rest ->
  inv (set_call (set_pool c rest) i (Using cn true)).
Proof.
  intros Hi Hp Hw Hs Hd Hc.
  apply (pool_inv_move c _ i p (Using cn true) []); try done; cbn [set_call set_pool copen cpool retired nextConn length weight surplus];
    rewrite ?Hc; cbn [length]; try lia.
  - rewrite Hd. cbn. symmetry. apply Permutation_middle.
  - pose proof (i_pool c Hi) as H. rewrite Hc in H. by apply Forall_cons in H as [_ H].
Qed.

Ltac retire_step Hi Ep :=
  eapply (inv_retire _ _ _ _ _ Hi Ep); cbn; first [done|lia|by constructor].

Lemma pool_step_inv c ev : inv c -> inv (step MaxConnections c ev).
Proof.
  intros Hi. destruct ev as [|i w|i|i ok|i w|i b|i|i ok|i|i b|i|i| |]; cbn [step];
    try (destruct (calls c !! i) as [p|] eqn:Ep; [|done]; destruct p; try done).
  - destruct Hi as [H1 H2 H3 H4 H5 H6]. constructor; cbn; rewrite ?zsum_app, ?zsum_cons, ?zsum_nil; cbn; try done; try lia.
    + unfold all_ids, held_ids in *. cbn. rewrite map_app, concat_app. cbn. by rewrite app_nil_r.
    + unfold all_ids, held_ids in *. cbn. rewrite map_app, concat_app. cbn. by rewrite app_nil_r.
    + intros j cn [Hj|[_ Hj]]%lookup_app_Some; [by apply (H6 j)|]. by apply list_lookup_singleton_Some in Hj as [_ ?].
  - unfold takeIdle. destruct w; repeat (case_match; try done);
      by first [apply (pool_inv_quiet c i Look)|apply (inv_take c i Look)].
  - unfold reserveSlot. case_if; [by apply (pool_inv_quiet c i TryReserve)|]. bprop.
    apply (pool_inv_move c _ i TryReserve Dialing []); try done; cbn; try lia. apply Hi.
  - unfold dialReserved, new_conn, unreserve. destruct ok.
    + apply (pool_inv_move c _ i Dialing (Using (mkConn (nextConn c) false) true) [nextConn c]); try done; cbn; try lia; [|apply Hi].
      symmetry. apply Permutation_middle.
    + assert (Hgo : forall q, q = Wait true \/ q = Ended -> inv (set_call (if copen (add_open c (-1)) =? 0
          then wake MaxConnections (add_open c (-1)) else add_open c (-1)) i q)).
      { intros q Hq. apply (pool_inv_move c _ i Dialing q []); try done; destruct Hq as [-> | ->];
          destruct (copen (add_open c (-1)) =? 0); cbn; try done; try lia; apply Hi. }
      apply Hgo. case_if; auto.
  - unfold awaitConn. destruct w; repeat (case_match; try done);
      first [by eapply (pool_inv_quiet c i _ _ Hi Ep)|by eapply (inv_take c i _ _ _ Hi Ep)|
             eapply (pool_inv_move c _ i _ Look [] Hi Ep); try done; cbn; try lia; apply Hi].
  - unfold body_done. apply (pool_inv_quiet c i (Using cn first)); try done; case_if; try done.
  - by retire_step Hi Ep.
  - unfold replace, new_conn. destruct ok.
    + apply (pool_inv_move c _ i (Repair cn) (Adopted cn (mkConn (nextConn c) false)) [nextConn c]); try done; cbn; try lia; [|apply Hi].
      rewrite Permutation_middle, (Permutation_swap (cid cn)). done.
    + by retire_step Hi Ep.
  - by retire_step Hi Ep.
  - case_if; [|by apply (pool_inv_quiet c i (Fresh cn))]. by retire_step Hi Ep.
  - unfold release. case_if; [by retire_step Hi Ep|].
    apply (pool_inv_quiet c i (Release cn)); try done. intros x [= <-]. by bprop.
  - unfold push. case_if; [|by retire_step Hi Ep]. pose proof (i_push c Hi i cn Ep) as Hb.
    apply (pool_inv_move c _ i (Pushing cn) Ended []); try done; cbn; rewrite ?length_app; cbn; try lia.
    + by rewrite fmap_app, <- app_assoc.
    + apply Forall_app. split; [apply Hi|by repeat constructor].
  - case_if; [done|]. by destruct Hi.
  - case_if; [|done]. destruct (cpool c) as [|cn rest] eqn:Ep.
    { destruct Hi as [H1 H2 H3 H4 H5 H6]. unfold all_ids in *. rewrite Ep in *. by constructor. }
    assert (Hr : cid cn ∉ retired (set_pool c rest)).
    { intros Hin. cbn in Hin. pose proof (i_ids c Hi) as Hn. unfold all_ids in Hn. rewrite Ep in Hn. cbn in Hn.
      apply NoDup_cons in Hn as [Hn _]. apply Hn. rewrite !elem_of_app. auto. }
    destruct (retire_new _ _ Hr) as (E1 & E2 & E3 & E4 & E5 & _).
    destruct Hi as [H1 H2 H3 H4 H5 H6]. rewrite Ep in H1, H5. apply Forall_cons in H5 as [_ H5].
    assert (Hp : all_ids (retire MaxConnections (set_pool c rest) cn) ≡ₚ all_ids c).
    { unfold all_ids. rewrite E2, E3, E4, Ep. cbn. by rewrite <- !Permutation_middle. }
    constructor; rewrite ?Hp, ?E1, ?E2, ?E3, ?E5; cbn in *; try done; lia.
Qed.

(** ** Connect *)

Lemma fold_retire l c :
  NoDup (cid <$> l) -> (forall n, n ∈ cid <$> l -> n ∉ retired c) ->
  let c' := fold_left (retire MaxConnections) l c in
  copen c' = copen c - Z.of_nat (length l) /\ calls c' = calls c /\ nextConn c' = nextConn c /\
  retired c' ≡ₚ (cid <$> l) ++ retired c.
Proof.
  revert c. induction l as [|x l IH]; intros c Hn Hd; cbn [fold_left]; [cbn; split_and!; try done; lia|].
  rewrite fmap_cons in Hn, Hd. apply NoDup_cons in Hn as [Hx Hn].
  destruct (retire_new c x) as (E1 & _ & E3 & E4 & E5 & _); [apply Hd; by constructor|].
  destruct (IH (retire MaxConnections c x)) as (F1 & F2 & F3 & F4); [done| |].
  { intros n Hin. rewrite E4, not_elem_of_cons. split; [by intros -> |]. apply Hd. by constructor 2. }
  cbv zeta. rewrite F1, F2, F3, F4, E1, E3, E4, E5. cbn [length]. split_and!; try done; [lia|].
  cbn. symmetry. apply Permutation_middle.
Qed.

Lemma connect_loop_inv c dials :
  inv c -> calls c = [] -> copen c + Z.of_nat (length dials) <= Z.of_nat MaxConnections ->
  inv (snd (connect_loop MaxConnections c dials)).
Proof.
  revert c. induction dials as [|[] dials IH]; intros c Hi Hc Hn; cbn [connect_loop snd]; [done| |].
  - apply IH; cbn [new_conn adopt add_open set_pool copen calls length] in *; [|done|lia].
    destruct Hi as [H1 H2 H3 H4 H5 H6]. unfold all_ids in *. rewrite Hc in *.
    constructor; unfold all_ids; cbn [new_conn adopt add_open set_pool copen calls cpool retired nextConn held_ids map concat app] in *;
      rewrite ?Hc, ?length_app, ?fmap_app; cbn in *; rewrite ?zsum_nil in *; try lia; try done.
    + rewrite <- app_assoc. cbn [app]. rewrite <- Permutation_middle. constructor; [|done].
      intros Hin. rewrite Forall_forall in H4. specialize (H4 _ Hin). lia.
    + rewrite <- app_assoc. cbn [app]. rewrite <- Permutation_middle. constructor; [lia|]. eapply Forall_impl; [exact H4|]. cbn. lia.
    + apply Forall_app. split; [done|by repeat constructor].
  - destruct Hi as [H1 H2 H3 H4 H5 H6]. unfold all_ids in *. rewrite Hc in *. cbn [held_ids map concat app] in *.
    destruct (NoDup_app (cid <$> cpool c) (retired c)) as [HA _]. destruct (HA H3) as (Hn1 & Hn2 & _).
    destruct (fold_retire (cpool c) c Hn1 Hn2) as (F1 & F2 & F3 & F4).
    unfold drainPool. constructor; unfold all_ids; cbn [set_pool copen calls cpool retired nextConn length fmap list_fmap app];
      rewrite ?F1, ?F2, ?F3, ?Hc; cbn [held_ids map concat app] in *; rewrite ?zsum_nil in *; try lia.
    + by rewrite F4.
    + by rewrite F4.
    + constructor.
    + done.
Qed.

Lemma pool_run_inv dials evs : inv (run MaxConnections dials evs).
Proof.
  unfold run. assert (H0 : inv (snd (Connect MaxConnections NewClient dials))).
  { apply connect_loop_inv; cbn; [|done|rewrite length_map, length_seq; lia].
    constructor; unfold all_ids; cbn; rewrite ?zsum_nil; try done; try lia; constructor. }
  revert H0. generalize (snd (Connect MaxConnections NewClient dials)).
  induction evs as [|ev evs IH]; intros c Hc; cbn [fold_left]; [done|]. by apply IH, pool_step_inv.
Qed.

End Accounting.

(** Connections are counted exactly and used by one call at a time, however
    calls, repairs and Close interleave: [open] is the idle connections plus those
    held, being dialled or just adopted by calls; it exceeds MaxConnections only
    by connections a repair is about to retire; no connection is in two places
    (idle, held by a call, retired); and an idle connection is never a broken
    one. *)
Lemma pool_accounting max dials evs :
  let c := run max dials evs in
  copen c = Z.of_nat (length (cpool c)) + zsum weight (calls c) /\
  copen c <= Z.of_nat max + zsum surplus (calls c) /\
  NoDup (all_ids c) /\ Forall (fun cn => broken cn = false) (cpool c).
Proof. intros c. destruct (pool_run_inv max dials evs) as [H1 H2 H3 _ H5 _]. by split_and!. Qed.

(** * Waiting *)

(** A call that looks again and finds its context done leaves acquire without
    passing its wake-up on. *)
Definition forgets_wakeup (ev : event) : Prop := match ev with ETakeIdle _ LCancel => True | _ => False end.

(** A wake-up is on its way: a token, or a call that is about to look. *)
Definition hopeful (c : Client) : Prop :=
  0 < copen c \/ (0 < freed c)%nat \/ cclosed c = true \/
  exists i, calls c !! i = Some Look \/ calls c !! i = Some TryReserve.
Definition someone_waits (c : Client) : Prop := exists i, calls c !! i = Some (Wait false).
Definition no_strand (c : Client) : Prop := someone_waits c -> hopeful c.

Section Waiting.
Context (MaxConnections : nat).
Hypothesis some_connection : (0 < MaxConnections)%nat.

Lemma hopeful_wake c c' : (freed c' = freed (wake MaxConnections c)) -> hopeful c'.
Proof. intros H. right. left. rewrite H. unfold wake. cbn [freed]. case_if; bprop; lia. Qed.

(** A call's move that leaves the counters alone or grows them. *)
Lemma no_strand_move c c' i p q :
  no_strand c -> calls c !! i = Some p -> calls c' = <[i := q]> (calls c) ->
  copen c <= copen c' -> (freed c <= freed c')%nat -> (cclosed c = true -> cclosed c' = true) ->
  (p = Look \/ p = TryReserve -> q = TryReserve \/ 0 < copen c' \/ cclosed c' = true) ->
  (q = Wait false -> 0 < copen c') ->
  no_strand c'.
Proof.
  intros Hs Hp Hc Ho Hf Hcl Hpq Hq [j Hj]. rewrite Hc in Hj. unfold hopeful.
  assert (Hlt : (i < length (calls c))%nat) by (by eapply lookup_lt_Some).
  destruct (decide (j = i)) as [->|Hne].
  { rewrite list_lookup_insert_eq in Hj by done. injection Hj as ->. left. by apply Hq. }
  rewrite list_lookup_insert_ne in Hj by done.
  destruct (Hs (ex_intro _ j Hj)) as [H|[H|[H|[k Hk]]]]; [left; lia|right; left; lia|right; right; left; auto|].
  destruct (decide (k = i)) as [->|Hki].
  - rewrite Hp in Hk. destruct Hpq as [->|[?|?]]; [destruct Hk as [[= ->]|[= ->]]; auto| |auto|auto].
    right. right. right. exists i. right. rewrite Hc. by apply list_lookup_insert_eq.
  - right. right. right. exists k. rewrite Hc, list_lookup_insert_ne by done. done.
Qed.

(** Once a call looks again, there is hope. *)
Lemma hopeful_look c c' i p :
  calls c !! i = Some p -> calls c' = <[i := Look]> (calls c) -> hopeful c'.
Proof.
  intros Hp Hc. right. right. right. exists i. left. rewrite Hc.
  apply list_lookup_insert_eq. by eapply lookup_lt_Some.
Qed.

Ltac quiet_move Hs Ep :=
  eapply no_strand_move; [exact Hs|exact Ep|done|cbn; lia|cbn; lia|done|cbn; intuition (subst; try done; auto; lia)|cbn; intuition (subst; try done; auto; lia)].

Lemma step_no_strand c ev :
  inv MaxConnections c -> ~ forgets_wakeup ev -> no_strand c -> no_strand (step MaxConnections c ev).
Proof.
  intros Hi Hev Hs.
  assert (Hret : forall i p cn q, calls c !! i = Some p -> ids p = cid cn :: ids q ->
    no_strand (set_call (retire MaxConnections c cn) i q)).
  { intros i p cn q Ep Hd _. assert (Hr : cid cn ∉ retired c) by (eapply in_service; [exact Hi|exact Ep|rewrite Hd; by constructor]).
    right. left. cbn. apply retire_new; done. }
  assert (Hpos : forall cn p, cpool c = cn :: p -> 0 < copen c).
  { intros cn p Ep. rewrite (i_open _ _ Hi), Ep. pose proof (zsum_nonneg weight (calls c) weight_nonneg). cbn [length]. lia. }
  assert (Hhold : forall i p, calls c !! i = Some p -> weight p <= copen c).
  { intros i p Ep. rewrite (i_open _ _ Hi). pose proof (zsum_lookup weight _ _ _ weight_nonneg Ep). lia. }
  assert (Hsome : forall i p, calls c !! i = Some p -> weight p > 0 -> hopeful c).
  { intros i p Ep Hw. left. specialize (Hhold i p Ep). lia. }
  destruct ev as [|i w|i|i ok|i w|i b|i|i ok|i|i b|i|i| |]; cbn [step];
    try (destruct (calls c !! i) as [p|] eqn:Ep; [|done]; destruct p; try done; specialize (Hhold i _ Ep); cbn in Hhold).
  - intros [j Hj]. cbn in Hj. apply lookup_app_Some in Hj as [Hj|[_ Hj]].
    + destruct (Hs (ex_intro _ j Hj)) as [H|[H|[H|[k Hk]]]]; [by left|right; by left|right; right; by left|].
      right. right. right. exists k. cbn. destruct Hk as [Hk|Hk]; [left|right]; by apply lookup_app_l_Some.
    + by apply list_lookup_singleton_Some in Hj as [_ ?].
  - unfold takeIdle. destruct w; try (by destruct Hev).
    + case_if; [|done]. quiet_move Hs Ep.
    + destruct (cpool c) as [|cn rest] eqn:Ec; [done|]. specialize (Hpos cn rest eq_refl). quiet_move Hs Ep.
    + destruct (cpool c); [|done]. case_if; [done|]. quiet_move Hs Ep.
  - unfold reserveSlot. case_if; bprop; quiet_move Hs Ep.
  - unfold dialReserved, new_conn, unreserve. destruct ok; [quiet_move Hs Ep|].
    destruct (Z.eqb_spec (copen (add_open c (-1))) 0) as [Hz|Hz]; intros _; [by eapply hopeful_wake|].
    left. cbn in Hz |- *. lia.
  - unfold awaitConn. destruct w; repeat (case_match; try done); subst;
      try (intros _; by eapply hopeful_look); quiet_move Hs Ep.
  - unfold body_done. case_if; quiet_move Hs Ep.
  - by eapply Hret.
  - unfold replace, new_conn. destruct ok; [quiet_move Hs Ep|by eapply Hret].
  - by eapply Hret.
  - case_if; [by eapply Hret|quiet_move Hs Ep].
  - unfold release. case_if; [by eapply Hret|quiet_move Hs Ep].
  - unfold push. case_if; [quiet_move Hs Ep|by eapply Hret].
  - case_if; [done|]. intros _. right. right. by left.
  - case_if; [|done]. destruct (cpool c) as [|cn rest] eqn:Ep; [|].
    + intros Hw. exact (Hs Hw).
    + intros _. right. left. apply retire_new; [|done]. cbn. intros Hin.
      pose proof (i_ids _ c Hi) as Hn. unfold all_ids in Hn. rewrite Ep in Hn. cbn in Hn.
      apply NoDup_cons in Hn as [Hn _]. apply Hn. rewrite !elem_of_app. auto.
Qed.

Lemma connect_calls c dials : calls c = [] -> calls (snd (connect_loop MaxConnections c dials)) = [].
Proof.
  revert c. induction dials as [|[] dials IH]; intros c Hc; cbn [connect_loop snd]; [done|by apply IH|].
  cbn. assert (H : forall l x, calls (fold_left (retire MaxConnections) l x) = calls x); [|by rewrite H].
  induction l as [|y l IHl]; intros x; cbn [fold_left]; [done|]. rewrite IHl. unfold retire. by case_if.
Qed.

Lemma run_no_strand dials evs :
  Forall (fun ev => ~ forgets_wakeup ev) evs -> no_strand (run MaxConnections dials evs).
Proof.
  induction evs as [|ev evs IH] using rev_ind; intros H.
  - intros [i Hi]. cbn in Hi. unfold Connect in Hi. by rewrite connect_calls in Hi.
  - apply Forall_app in H as [H1 H2]. apply Forall_cons in H2 as [H2 _].
    unfold run in *. rewrite fold_left_app. cbn [fold_left]. apply step_no_strand; [apply pool_run_inv|done|by apply IH].
Qed.
End Waiting.

(** A caller never waits on a pool that has nothing left to give back: as
    long as no call is cancelled between a wake-up and its second look, whenever
    a call waits for a release some connection is counted open, or a wake-up is
    queued, or another call is about to look, or the client is closed. *)
Lemma waiter_not_stranded max dials evs i :
  (0 < max)%nat -> Forall (fun ev => ~ forgets_wakeup ev) evs ->
  let c := run max dials evs in
  calls c !! i = Some (Wait false) ->
  0 < copen c \/ (0 < freed c)%nat \/ cclosed c = true \/
  exists j, calls c !! j = Some Look \/ calls c !! j = Some TryReserve.
Proof. intros Hm Hev c Hi. apply (run_no_strand max Hm dials evs Hev). by exists i. Qed.

(** A pool of one connection: call 0 takes it, calls 1 and 2 wait for it; call 0's
    connection breaks and, its context over, it is retired, which queues one
    wake-up. *)
Definition one_connection : list event :=
  [ECall; ECall; ECall; ETakeIdle 0 LIdle; ETakeIdle 1 LNone; EReserve 1; ETakeIdle 2 LNone; EReserve 2;
   EBody 0 true; EGiveUp 0].

(** A wake-up can be lost: call 1 takes it and then finds its own context
    done, and call 2 is left waiting although no connection exists, none is being
    dialled, no wake-up is queued and every other call has ended, so it cannot
    end before its own context does, although the pool has a free slot. *)
Lemma wakeup_lost :
  let c := run 1 (fun _ => true) (one_connection ++ [EAwait 1 AFreed; ETakeIdle 1 LCancel]) in
  calls c = [Ended; Ended; Wait false] /\ copen c = 0 /\ freed c = 0%nat /\ cpool c = [] /\ cclosed c = false.
Proof. vm_compute. repeat split. Qed.

(** Close can leave a connection behind: a release that saw the client open
    puts its connection in the pool after Close has drained it, and nobody
    retires it: the client is closed, every call has ended, and one connection is
    still open. *)
Lemma close_leaves_connection :
  let c := run 1 (fun _ => true)
    [ECall; ETakeIdle 0 LIdle; EBody 0 false; ERelease 0; EClose; EDrain; EPush 0] in
  cclosed c = true /\ draining c = false /\ calls c = [Ended] /\
  cpool c = [mkConn 0 false] /\ copen c = 1 /\ retired c = [].
Proof. vm_compute. repeat split. Qed.

Lemma waiter_not_stranded_witness :
  let c := run 1 (fun _ => true) one_connection in
  copen c = 0 /\
  (0 < copen c \/ (0 < freed c)%nat \/ cclosed c = true \/
   exists j, calls c !! j = Some Look \/ calls c !! j = Some TryReserve).
Proof.
  split; [vm_compute; reflexivity|].
  apply (waiter_not_stranded 1 (fun _ => true) one_connection 1); [lia| |vm_compute; reflexivity].
  repeat constructor; intros [].
Defined.
