(* ===== verification/OffsetIndex.v ===== *)
(** The byte map of a posting: internal/usenet/stream/index.go.

    [OffsetIndex] is the struct of the source with its slices as lists; every
    method runs under the struct's mutex, so a call is one atomic function.
    Offsets are int64 and every sum, product and quotient wraps. *)
From stdpp Require Import prelude list sorting.
From Stdlib Require Import ZArith Lia.
From S2P Require Import Prelude Yenc Nzb.

Open Scope Z_scope.

Record OffsetIndex := mkIndex {
  segs : list Segment;
  estLen : list Z; exactLen : list Z; exactStart : list Z;
  anchorEst : Z; anchorLen : Z;
  obsEncoded : Z; obsDecoded : Z;
  fileSize : Z; sizeExact : bool;
  starts : list Z; startExact : list bool
}.

(** A slice read inside its bounds; the callers below keep the index there. *)
Definition at_ (l : list Z) (i : nat) : Z := nth i l 0.
Definition bat (l : list bool) (i : nat) : bool := nth i l false.

Definition SegmentCount (ix : OffsetIndex) : nat := length (segs ix).

Definition sameEncodedShape (a ref : Z) : bool :=
  if (a <=? 0) || (ref <=? 0) then false
  else
    let diff := wrap_i64 (a - ref) in
    let diff := if diff <? 0 then wrap_i64 (- diff) else diff in
    wrap_i64 (diff * 16) <=? ref.

Definition anchored (ix : OffsetIndex) (i : nat) : bool :=
  (0 <? anchorLen ix) && sameEncodedShape (at_ (estLen ix) i) (anchorEst ix).

Definition stepLen (ix : OffsetIndex) (i : nat) : Z :=
  if 0 <=? at_ (exactLen ix) i then at_ (exactLen ix) i
  else if (i <? length (segs ix) - 1)%nat && anchored ix i then anchorLen ix
  else if (i <? length (segs ix) - 1)%nat && (0 <? obsEncoded ix) && (0 <? at_ (estLen ix) i)
  then wrap_i64 (Z.quot (wrap_i64 (at_ (estLen ix) i * obsDecoded ix)) (obsEncoded ix))
  else at_ (estLen ix) i.

Definition stepExact (ix : OffsetIndex) (i : nat) : bool :=
  (0 <=? at_ (exactLen ix) i) || ((i <? length (segs ix) - 1)%nat && anchored ix i).

(** One round of recompute's loop: the start of segment [i] and whether it is
    exact, from those of segment [i-1]. *)
Definition next_start (ix : OffsetIndex) (i : nat) (prev : Z) (prevExact : bool) : Z * bool :=
  let s := if 0 <=? at_ (exactStart ix) i then at_ (exactStart ix) i
           else wrap_i64 (prev + stepLen ix (i - 1)) in
  let e := (0 <=? at_ (exactStart ix) i) || (prevExact && stepExact ix (i - 1)) in
  if s <? prev then (prev, false) else (s, e).

Fixpoint layout (ix : OffsetIndex) (i : nat) (todo : nat) (prev : Z) (prevExact : bool) : list (Z * bool) :=
  match todo with
  | O => []
  | S todo' =>
      let '(s, e) := next_start ix i prev prevExact in
      (s, e) :: layout ix (S i) todo' s e
  end.

Definition recompute (ix : OffsetIndex) : OffsetIndex :=
  match length (segs ix) with
  | O => ix
  | S n =>
      let l := (0, true) :: layout ix 1 n 0 true in
      mkIndex (segs ix) (estLen ix) (exactLen ix) (exactStart ix) (anchorEst ix) (anchorLen ix)
        (obsEncoded ix) (obsDecoded ix) (fileSize ix) (sizeExact ix) (map fst l) (map snd l)
  end.

Definition estimatedSize (ix : OffsetIndex) : Z :=
  match length (segs ix) with
  | O => 0
  | S n => wrap_i64 (at_ (starts ix) n + stepLen ix n)
  end.
Definition fileSizeLocked (ix : OffsetIndex) : Z :=
  if sizeExact ix then fileSize ix else estimatedSize ix.
Definition FileSize (ix : OffsetIndex) : Z := fileSizeLocked ix.
Definition SizeExact (ix : OffsetIndex) : bool := sizeExact ix.

Definition endOf (ix : OffsetIndex) (i : nat) : Z :=
  if (i <? length (segs ix) - 1)%nat then at_ (starts ix) (S i) else fileSizeLocked ix.

Definition locateLocked (ix : OffsetIndex) (offset : Z) : option nat :=
  let n := length (segs ix) in
  if Nat.eqb n 0 || (offset <? 0) || (fileSizeLocked ix <=? offset) then None
  else Some (sort_Search n (fun k => (offset <? at_ (starts ix) k)%Z) - 1)%nat.

Definition Locate (ix : OffsetIndex) (offset : Z) : option (nat * Z * Z) :=
  match locateLocked ix offset with
  | None => None
  | Some i => Some (i, at_ (starts ix) i, endOf ix i)
  end.

Definition LocateExact (ix : OffsetIndex) (offset : Z) : option (nat * bool) :=
  match locateLocked ix offset with
  | None => None
  | Some i =>
      let endExact := if (i <? length (segs ix) - 1)%nat then bat (startExact ix) (S i)
                      else sizeExact ix in
      Some (i, bat (startExact ix) i && endExact)
  end.

Definition clamp0 (z : Z) : Z := if z <? 0 then 0 else z.

Definition NewOffsetIndex `{GoSort Segment} (f : File) : OffsetIndex :=
  let ss := SortSegmentsByNumber (fSegments f) in
  let n := length ss in
  let est := map (fun s => clamp0 (sBytes s)) ss in
  recompute (mkIndex ss est (replicate n (-1)) (replicate n (-1)) 0 0 0 0
    (fold_left (fun t l => wrap_i64 (t + l)) est 0) false (replicate n 0) (replicate n false)).

(** The anchor after a first sight of a non-final segment. *)
Definition new_anchor (ix : OffsetIndex) (est len : Z) : Z * Z :=
  if anchorLen ix =? 0 then (est, len)
  else if (0 <? anchorLen ix) && negb (anchorLen ix =? len) then (anchorEst ix, -1)
  else (anchorEst ix, anchorLen ix).

(** [None] is the nil part; [segIdx] is a Go int. *)
Definition Observe (ix : OffsetIndex) (segIdx : Z) (part : option Part) : OffsetIndex :=
  match part with
  | None => ix
  | Some p =>
      if (segIdx <? 0) || (Z.of_nat (length (segs ix)) <=? segIdx) then ix
      else if (pBegin p <? 1) || (pEnd p <? pBegin p) then ix
      else
        let i := Z.to_nat segIdx in
        let firstSight := at_ (exactLen ix) i <? 0 in
        let start := wrap_i64 (pBegin p - 1) in
        let len := wrap_i64 (wrap_i64 (pEnd p - pBegin p) + 1) in
        let es := <[i := start]> (exactStart ix) in
        let el := <[i := len]> (exactLen ix) in
        let '(fs, sx) := if 0 <? pSize p then (pSize p, true) else (fileSize ix, sizeExact ix) in
        let est := at_ (estLen ix) i in
        let informs := firstSight && (i <? length (segs ix) - 1)%nat && (0 <? est) && (0 <? len) in
        let '(ae, al) := if informs then new_anchor ix est len else (anchorEst ix, anchorLen ix) in
        let oe := if informs then wrap_i64 (obsEncoded ix + est) else obsEncoded ix in
        let od := if informs then wrap_i64 (obsDecoded ix + len) else obsDecoded ix in
        recompute (mkIndex (segs ix) (estLen ix) el es ae al oe od fs sx (starts ix) (startExact ix))
  end.

(** * The layout loop *)

Definition pair_at (l : list (Z * bool)) (i : nat) : Z * bool := nth i l (0, false).

Lemma layout_length ix i todo prev pe : length (layout ix i todo prev pe) = todo.
Proof.
  revert i prev pe. induction todo as [|todo IH]; intros; simpl; [done|].
  destruct (next_start _ _ _ _). simpl. by rewrite IH.
Qed.

Lemma layout_nth ix i todo prev pe k :
  (k < todo)%nat ->
  let l := (prev, pe) :: layout ix i todo prev pe in
  pair_at l (S k) = next_start ix (i + k) (fst (pair_at l k)) (snd (pair_at l k)).
Proof.
  revert i prev pe k. induction todo as [|todo IH]; intros i prev pe k Hk; [lia|].
  cbn [layout]. destruct (next_start ix i prev pe) as [s e] eqn:En.
  destruct k as [|k]; [by rewrite Nat.add_0_r|].
  replace (i + S k)%nat with (S i + k)%nat by lia.
  exact (IH (S i) s e k ltac:(lia)).
Qed.

(** Two indexes with the same evidence have the same layout. *)
Lemma at_fst (l : list (Z * bool)) i : at_ (map fst l) i = fst (pair_at l i).
Proof. unfold at_, pair_at. exact (map_nth fst l (0, false) i). Qed.
Lemma bat_snd (l : list (Z * bool)) i : bat (map snd l) i = snd (pair_at l i).
Proof. unfold bat, pair_at. exact (map_nth snd l (0, false) i). Qed.

Lemma stepLen_recompute ix i : stepLen (recompute ix) i = stepLen ix i.
Proof. unfold recompute. by destruct (length (segs ix)). Qed.
Lemma stepExact_recompute ix i : stepExact (recompute ix) i = stepExact ix i.
Proof. unfold recompute. by destruct (length (segs ix)). Qed.
Lemma next_start_recompute ix i p e : next_start (recompute ix) i p e = next_start ix i p e.
Proof. unfold recompute. by destruct (length (segs ix)). Qed.

(** The shape of a computed index: what recompute establishes. *)
Record laid_out (ix : OffsetIndex) : Prop := {
  lo_est : length (estLen ix) = length (segs ix);
  lo_len : length (exactLen ix) = length (segs ix);
  lo_start : length (exactStart ix) = length (segs ix);
  lo_starts : length (starts ix) = length (segs ix);
  lo_exacts : length (startExact ix) = length (segs ix);
  lo_first : (0 < length (segs ix))%nat -> at_ (starts ix) 0 = 0 /\ bat (startExact ix) 0 = true;
  lo_next : forall i, (S i < length (segs ix))%nat ->
    (at_ (starts ix) (S i), bat (startExact ix) (S i)) =
    next_start ix (S i) (at_ (starts ix) i) (bat (startExact ix) i)
}.

Lemma recompute_laid_out ix :
  length (estLen ix) = length (segs ix) -> length (exactLen ix) = length (segs ix) ->
  length (exactStart ix) = length (segs ix) -> length (starts ix) = length (segs ix) ->
  length (startExact ix) = length (segs ix) -> laid_out (recompute ix).
Proof.
  intros He Hl Hs Hst Hx.
  pose proof (next_start_recompute ix) as Hnext. unfold recompute in *.
  destruct (length (segs ix)) as [|n] eqn:En.
  { constructor; try congruence; rewrite En; lia. }
  set (l := layout ix 1 n 0 true) in *.
  assert (Hll : length l = n) by apply layout_length.
  constructor; cbn [segs estLen exactLen exactStart starts startExact]; try congruence.
  - rewrite length_map. simpl. by rewrite Hll.
  - rewrite length_map. simpl. by rewrite Hll.
  - done.
  - intros i Hi. rewrite !at_fst, !bat_snd, Hnext.
    rewrite <- surjective_pairing. apply (layout_nth ix 1 n 0 true i). lia.
Qed.

Lemma next_start_mono ix i p e : p <= fst (next_start ix i p e).
Proof. unfold next_start. case_if; bprop; simpl; lia. Qed.

Lemma starts_step ix i :
  laid_out ix -> (S i < length (segs ix))%nat -> at_ (starts ix) i <= at_ (starts ix) (S i).
Proof.
  intros H Hi. pose proof (f_equal fst (lo_next ix H i Hi)) as Hn. simpl in Hn.
  rewrite Hn. apply next_start_mono.
Qed.

Lemma starts_mono ix i j :
  laid_out ix -> (i <= j)%nat -> (j < length (segs ix))%nat ->
  at_ (starts ix) i <= at_ (starts ix) j.
Proof.
  intros H Hij. induction Hij as [|j Hij IH]; intros Hj; [lia|].
  pose proof (starts_step ix j H Hj). specialize (IH ltac:(lia)). lia.
Qed.

(** * Reachable indexes *)

Section Reach.
Context `{GoSort Segment} (f : File).

Inductive reach : OffsetIndex -> Prop :=
| reach_new : reach (NewOffsetIndex f)
| reach_observe ix i p : reach ix -> reach (Observe ix i p).

Lemma NewOffsetIndex_laid_out : laid_out (NewOffsetIndex f).
Proof.
  unfold NewOffsetIndex. apply recompute_laid_out; simpl;
    rewrite ?length_map, ?length_replicate; done.
Qed.
End Reach.

(** Name the anchor an observation computes. *)
Ltac split_anchor :=
  match goal with |- context [if ?b then new_anchor ?x ?y ?z else ?w] =>
    destruct (if b then new_anchor x y z else w) as [ae al] end.

Lemma Observe_laid_out ix i p : laid_out ix -> laid_out (Observe ix i p).
Proof.
  intros H. unfold Observe. destruct p as [p|]; [|done].
  do 2 (case_if; [done|]). destruct (if 0 <? pSize p then _ else _) as [fs sx].
  split_anchor.
  destruct H. apply recompute_laid_out; simpl; rewrite ?length_insert; done.
Qed.

Lemma reach_laid_out `{GoSort Segment} f ix : reach f ix -> laid_out ix.
Proof. induction 1; [apply NewOffsetIndex_laid_out|by apply Observe_laid_out]. Qed.

Lemma locateLocked_spec ix off i :
  laid_out ix -> locateLocked ix off = Some i ->
  (i < length (segs ix))%nat /\ 0 <= off < fileSizeLocked ix /\
  at_ (starts ix) i <= off /\
  ((S i < length (segs ix))%nat -> off < at_ (starts ix) (S i)).
Proof.
  intros H. unfold locateLocked. case_if; [done|]. intros [= <-]. bprop.
  set (n := length (segs ix)) in *.
  destruct (sort_Search_below n (fun k => off <? at_ (starts ix) k)) as (B1 & B2 & B3).
  { intros a b Hab Ha. apply Z.ltb_lt in Ha. apply Z.ltb_lt.
    pose proof (starts_mono ix a b H ltac:(lia) ltac:(lia)). lia. }
  set (k := sort_Search n _) in *. destruct (lo_first ix H ltac:(lia)) as [Hs0 _].
  assert (Hk : (k <> 0)%nat).
  { intros Hk0. specialize (B3 0%nat ltac:(lia)). cbv beta in B3. bprop. lia. }
  specialize (B2 (k - 1)%nat ltac:(lia)). cbv beta in B2. bprop.
  split; [lia|]. split; [lia|]. split; [lia|]. intros Hi.
  replace (S (k - 1)) with k in * by lia. specialize (B3 k ltac:(lia)). cbv beta in B3. by bprop.
Qed.

Lemma locateLocked_total ix off :
  (0 < length (segs ix))%nat -> 0 <= off < fileSizeLocked ix -> exists i, locateLocked ix off = Some i.
Proof.
  intros Hn Ho. unfold locateLocked. case_if; [|eauto].
  apply orb_true_iff in E as [E|E]; [apply orb_true_iff in E as [E|E]|]; bprop; lia.
Qed.

(** * What an observation changes *)

Lemma at_insert l i j v :
  (i < length l)%nat -> at_ (<[i := v]> l) j = if Nat.eqb i j then v else at_ l j.
Proof.
  intros Hi. unfold at_. rewrite !nth_lookup. destruct (Nat.eqb_spec i j) as [<-|Hne].
  - by rewrite list_lookup_insert_eq.
  - by rewrite list_lookup_insert_ne.
Qed.

Lemma at_replicate n v i : (i < n)%nat -> at_ (replicate n v) i = v.
Proof. intros Hi. unfold at_. rewrite nth_lookup, lookup_replicate_2 by done. done. Qed.

(** The evidence fields of an index: everything recompute reads. *)
Lemma segs_recompute ix : segs (recompute ix) = segs ix.
Proof. unfold recompute. by destruct (length (segs ix)). Qed.
Lemma estLen_recompute ix : estLen (recompute ix) = estLen ix.
Proof. unfold recompute. by destruct (length (segs ix)). Qed.
Lemma exactLen_recompute ix : exactLen (recompute ix) = exactLen ix.
Proof. unfold recompute. by destruct (length (segs ix)). Qed.
Lemma exactStart_recompute ix : exactStart (recompute ix) = exactStart ix.
Proof. unfold recompute. by destruct (length (segs ix)). Qed.
Lemma anchorEst_recompute ix : anchorEst (recompute ix) = anchorEst ix.
Proof. unfold recompute. by destruct (length (segs ix)). Qed.
Lemma anchorLen_recompute ix : anchorLen (recompute ix) = anchorLen ix.
Proof. unfold recompute. by destruct (length (segs ix)). Qed.
Lemma fileSize_recompute ix : fileSize (recompute ix) = fileSize ix.
Proof. unfold recompute. by destruct (length (segs ix)). Qed.
Lemma sizeExact_recompute ix : sizeExact (recompute ix) = sizeExact ix.
Proof. unfold recompute. by destruct (length (segs ix)). Qed.

Create Rewrite HintDb index_evidence.
#[export] Hint Rewrite segs_recompute estLen_recompute exactLen_recompute exactStart_recompute
  anchorEst_recompute anchorLen_recompute fileSize_recompute sizeExact_recompute
  stepLen_recompute stepExact_recompute next_start_recompute : index_evidence.

(** A valid part has a positive length that does not overflow. *)
Lemma part_len_eq p :
  1 <= pBegin p -> pBegin p <= pEnd p -> is_i64 (pEnd p) ->
  wrap_i64 (pBegin p - 1) = pBegin p - 1 /\
  wrap_i64 (wrap_i64 (pEnd p - pBegin p) + 1) = pEnd p - pBegin p + 1.
Proof.
  unfold is_i64, i64_min, i64_max. intros.
  rewrite !wrap_i64_id; unfold is_i64, i64_min, i64_max; try lia.
  rewrite wrap_i64_id; unfold is_i64, i64_min, i64_max; lia.
Qed.

Lemma Observe_cases ix i p :
  Observe ix i (Some p) = ix \/
  (0 <= i < Z.of_nat (length (segs ix)) /\ 1 <= pBegin p <= pEnd p).
Proof.
  unfold Observe. case_if; [by left|]. case_if; [by left|]. bprop. right. lia.
Qed.

(** * A posting and its true layout *)

Section Truth.
Context `{GoSort Segment} (f : File) (len : nat -> Z).

(** The true start of each part: parts are consecutive. *)
Fixpoint pos (i : nat) : Z :=
  match i with O => 0 | S i' => pos i' + len i' end.

Definition parts : nat := length (fSegments f).
Definition est (i : nat) : Z := at_ (estLen (NewOffsetIndex f)) i.

(** The posting is well formed: parts are non-empty, the file fits an int64,
    and parts of the same encoded shape have the same decoded length. *)
Record posting : Prop := {
  po_len : forall i, (i < parts)%nat -> 0 < len i;
  po_max : pos parts <= i64_max;
  po_shape : forall i j, (i < parts - 1)%nat -> (j < parts - 1)%nat ->
    sameEncodedShape (est i) (est j) = true -> len i = len j
}.

(** A decoded part that really is part [i] of the posting. *)
Definition part_of (i : Z) (p : Part) : Prop :=
  pBegin p = pos (Z.to_nat i) + 1 /\ pEnd p = pos (S (Z.to_nat i)) /\
  (pSize p = pos parts \/ pSize p <= 0).

Inductive reach_true : OffsetIndex -> Prop :=
| true_new : reach_true (NewOffsetIndex f)
| true_observe ix i p : reach_true ix -> part_of i p -> reach_true (Observe ix i (Some p))
| true_nil ix i : reach_true ix -> reach_true (Observe ix i None).

Record evidence (ix : OffsetIndex) : Prop := {
  ev_parts : length (segs ix) = parts;
  ev_est : estLen ix = estLen (NewOffsetIndex f);
  ev_start : forall i, (i < parts)%nat -> at_ (exactStart ix) i = -1 \/ at_ (exactStart ix) i = pos i;
  ev_len : forall i, (i < parts)%nat -> at_ (exactLen ix) i = -1 \/ at_ (exactLen ix) i = len i;
  ev_anchor : 0 < anchorLen ix ->
    exists j, (j < parts - 1)%nat /\ anchorEst ix = est j /\ anchorLen ix = len j;
  ev_size : sizeExact ix = true -> fileSize ix = pos parts
}.

Lemma pos_mono i j : posting -> (i <= j)%nat -> (j <= parts)%nat -> pos i <= pos j.
Proof.
  intros Hp Hij. induction Hij as [|j Hij IH]; intros Hj; [lia|].
  simpl. pose proof (po_len Hp j ltac:(lia)). specialize (IH ltac:(lia)). lia.
Qed.

Lemma pos_range i : posting -> (i <= parts)%nat -> 0 <= pos i <= i64_max.
Proof.
  intros Hp Hi. pose proof (pos_mono 0 i Hp ltac:(lia) Hi).
  pose proof (pos_mono i parts Hp Hi ltac:(lia)). pose proof (po_max Hp). simpl in *. lia.
Qed.

Lemma new_segs_length : length (segs (NewOffsetIndex f)) = parts.
Proof.
  unfold NewOffsetIndex. rewrite segs_recompute. simpl. unfold SortSegmentsByNumber, parts.
  apply Permutation_length, sort_Slice_perm.
Qed.

Lemma evidence_new : evidence (NewOffsetIndex f).
Proof.
  pose proof new_segs_length as Hn.
  constructor; try done; unfold NewOffsetIndex in *; autorewrite with index_evidence in *;
    simpl in *; rewrite ?Hn; try done.
  - intros i Hi. left. by apply at_replicate.
  - intros i Hi. left. by apply at_replicate.
Qed.

Lemma evidence_observe ix i p :
  posting -> laid_out ix -> evidence ix -> part_of i p -> evidence (Observe ix i (Some p)).
Proof.
  intros Hp Hlo Hev (Hb & He & Hs).
  destruct (Observe_cases ix i p) as [->|[Hi Hr]]; [done|].
  pose proof Hev as [Hn Hest Hst Hl Ha Hz]. rewrite Hn in Hi.
  set (k := Z.to_nat i) in *. assert (Hk : (k < parts)%nat) by lia.
  pose proof (pos_range (S k) Hp ltac:(lia)) as Hrange.
  destruct (part_len_eq p ltac:(lia) ltac:(lia) ltac:(unfold is_i64, i64_min; lia)) as [Ewb Ewl].
  unfold Observe. rewrite Hn. case_if; [done|]. case_if; [done|]. cbv zeta.
  rewrite Ewb, Ewl. fold k. simpl in He.
  replace (pBegin p - 1) with (pos k) by lia. replace (pEnd p - pBegin p + 1) with (len k) by lia.
  destruct (if 0 <? pSize p then _ else _) as [fs sx] eqn:Efs.
  match goal with |- context [if ?b then new_anchor _ _ _ else _] => set (informs := b) in * end.
  destruct (if informs then new_anchor _ _ _ else _) as [ae al] eqn:Ean.
  destruct Hlo as [Hl1 Hl2 Hl3 _ _ _ _]. rewrite Hn in *.
  constructor; autorewrite with index_evidence; simpl; try done.
  - intros j Hj. rewrite at_insert by lia. case_if; bprop; [right; by subst|by apply Hst].
  - intros j Hj. rewrite at_insert by lia. case_if; bprop; [right; by subst|by apply Hl].
  - intros Hal. destruct informs eqn:Einf; [|injection Ean as <- <-; auto].
    unfold new_anchor in Ean. unfold informs in Einf. bprop.
    case_if_in Ean; [injection Ean as <- <-|].
    { exists k. split; [lia|]. split; [unfold est; by rewrite Hest|done]. }
    case_if_in Ean; injection Ean as <- <-; [lia|auto].
  - intros ->. case_if_in Efs; simplify_eq; [bprop; lia|auto].
Qed.

Lemma reach_true_evidence ix : posting -> reach_true ix -> laid_out ix /\ evidence ix.
Proof.
  intros Hp. induction 1 as [|ix i p Hr [IH1 IH2] Hpart|ix i Hr IH].
  - split; [apply NewOffsetIndex_laid_out|apply evidence_new].
  - split; [by apply Observe_laid_out|by apply evidence_observe].
  - done.
Qed.

Lemma stepExact_true ix i :
  posting -> evidence ix -> (S i < parts)%nat -> stepExact ix i = true -> stepLen ix i = len i.
Proof.
  intros Hp [Hn Hest Hst Hl Ha Hz] Hi. unfold stepExact, stepLen. rewrite Hn.
  pose proof (po_len Hp i ltac:(lia)) as Hpos.
  destruct (0 <=? at_ (exactLen ix) i) eqn:E; bprop.
  { intros _. destruct (Hl i ltac:(lia)); lia. }
  simpl. intros Hx. rewrite Hx. unfold anchored in Hx. bprop.
  destruct (Ha ltac:(lia)) as (j & Hj & Hae & Hal). rewrite Hal.
  symmetry. apply (po_shape Hp); [lia|lia|]. unfold est at 1. rewrite <- Hest. congruence.
Qed.

Lemma startExact_true ix i :
  posting -> laid_out ix -> evidence ix -> (i < parts)%nat ->
  bat (startExact ix) i = true -> at_ (starts ix) i = pos i.
Proof.
  intros Hp Hlo Hev. pose proof (ev_parts ix Hev) as Hn.
  induction i as [|i IH]; intros Hi He.
  { destruct (lo_first ix Hlo ltac:(lia)) as [-> _]. done. }
  pose proof (lo_next ix Hlo i ltac:(lia)) as Hnx. unfold next_start in Hnx.
  replace (S i - 1)%nat with i in Hnx by lia.
  case_if_in Hnx; injection Hnx as Hs Hx; [congruence|].
  rewrite Hs. rewrite He in Hx. symmetry in Hx.
  destruct (0 <=? at_ (exactStart ix) (S i)) eqn:Ex; bprop; simpl in *.
  { destruct (ev_start ix Hev (S i) ltac:(lia)); [lia|done]. }
  apply andb_prop in Hx as [Hx1 Hx2]. rewrite IH by (done || lia).
  rewrite (stepExact_true ix i Hp Hev Hi Hx2). apply wrap_i64_id.
  pose proof (pos_range (S i) Hp ltac:(lia)). simpl in *. unfold is_i64, i64_min. lia.
Qed.
End Truth.

(** * A uniform posting after one observation *)

Section Uniform.
Context `{GoSort Segment} (f : File) (L T : Z) (k : nat) (p : Part).

(** Every non-final part is [L] bytes long, and the encoded sizes say so. *)
Record uniform : Prop := {
  un_L : 0 < L;
  un_T : Z.of_nat (parts f - 1) * L < T <= i64_max;
  un_k : (k < parts f - 1)%nat;
  un_shape : forall i, (i < parts f - 1)%nat -> sameEncodedShape (est f i) (est f k) = true;
  un_begin : pBegin p = Z.of_nat k * L + 1;
  un_end : pEnd p = Z.of_nat (S k) * L;
  un_size : pSize p = T
}.

Abbreviation ix := (Observe (NewOffsetIndex f) (Z.of_nat k) (Some p)).

Lemma shape_pos a ref : sameEncodedShape a ref = true -> 0 < a.
Proof. unfold sameEncodedShape. case_if; [done|]. bprop. lia. Qed.

Record uniform_evidence : Prop := {
  ue_parts : length (segs ix) = parts f;
  ue_size : fileSize ix = T /\ sizeExact ix = true;
  ue_start : forall i, (i < parts f)%nat ->
    at_ (exactStart ix) i = if Nat.eqb k i then Z.of_nat k * L else -1;
  ue_step : forall i, (i < parts f - 1)%nat -> stepExact ix i = true /\ stepLen ix i = L
}.

Lemma uniform_observed : uniform -> uniform_evidence.
Proof.
  intros [HL HT Hk Hsh Hb He Hs].
  pose proof (new_segs_length f) as Hn.
  assert (HkL : Z.of_nat (S k) * L <= Z.of_nat (parts f - 1) * L) by nia.
  destruct (part_len_eq p ltac:(nia) ltac:(nia) ltac:(unfold is_i64, i64_min; nia)) as [Ewb Ewl].
  pose proof (shape_pos _ _ (Hsh k Hk)) as Hest.
  assert (Hneg : forall i, (i < parts f)%nat -> at_ (exactLen (NewOffsetIndex f)) i = -1).
  { intros i Hi. unfold NewOffsetIndex in *. autorewrite with index_evidence in *. simpl in *.
    rewrite Hn. by apply at_replicate. }
  assert (Hnes : forall i, (i < parts f)%nat -> at_ (exactStart (NewOffsetIndex f)) i = -1).
  { intros i Hi. unfold NewOffsetIndex in *. autorewrite with index_evidence in *. simpl in *.
    rewrite Hn. by apply at_replicate. }
  assert (Hal : anchorLen (NewOffsetIndex f) = 0).
  { unfold NewOffsetIndex. by autorewrite with index_evidence. }
  destruct (NewOffsetIndex_laid_out f) as [Hl1 Hl2 Hl3 _ _ _ _]. rewrite Hn in *.
  assert (Heq : ix = ix) by done. unfold Observe at 1 in Heq. rewrite Hn, Nat2Z.id in Heq.
  case_if_in Heq; [apply orb_true_iff in E as [E|E]; bprop; lia|].
  case_if_in Heq; [apply orb_true_iff in E0 as [E0|E0]; bprop; nia|]. cbv zeta in Heq.
  rewrite Ewb, Ewl, (Hneg k ltac:(lia)) in Heq.
  replace (pBegin p - 1) with (Z.of_nat k * L) in Heq by lia.
  replace (pEnd p - pBegin p + 1) with L in Heq by nia.
  replace (0 <? pSize p) with true in Heq by (symmetry; apply Z.ltb_lt; nia).
  fold (est f k) in Heq.
  replace (-1 <? 0) with true in Heq by done.
  replace (k <? parts f - 1)%nat with true in Heq by (symmetry; apply Nat.ltb_lt; lia).
  replace (0 <? est f k) with true in Heq by (symmetry; apply Z.ltb_lt; lia).
  replace (0 <? L) with true in Heq by (symmetry; apply Z.ltb_lt; lia).
  cbn [andb] in Heq. unfold new_anchor in Heq. rewrite Hal in Heq. cbn [Z.eqb] in Heq.
  constructor; rewrite <- Heq; autorewrite with index_evidence; simpl; try done.
  - intros i Hi. rewrite at_insert by lia. case_if; [done|by apply Hnes].
  - intros i Hi. autorewrite with index_evidence. unfold stepExact, stepLen, anchored. simpl.
    rewrite Hn, at_insert by lia. rewrite (Hneg i) by lia. fold (est f i). rewrite (Hsh i Hi).
    replace (i <? parts f - 1)%nat with true by (symmetry; apply Nat.ltb_lt; lia).
    replace (0 <? L) with true by (symmetry; apply Z.ltb_lt; lia).
    destruct (Nat.eqb k i); simpl; [|done].
    replace (0 <=? L) with true by (symmetry; apply Z.leb_le; lia). done.
Qed.

Lemma uniform_starts i :
  uniform -> (i < parts f)%nat ->
  at_ (starts ix) i = Z.of_nat i * L /\ bat (startExact ix) i = true.
Proof.
  intros Hu. pose proof (uniform_observed Hu) as [Hn Hz Hst Hstep].
  assert (Hlo : laid_out ix) by (apply Observe_laid_out, NewOffsetIndex_laid_out).
  destruct Hu as [HL HT Hk _ _ _ _].
  induction i as [|i IH]; intros Hi.
  { destruct (lo_first ix Hlo ltac:(lia)) as [-> ->]. split; [lia|done]. }
  destruct (IH ltac:(lia)) as [IH1 IH2]. pose proof (lo_next ix Hlo i ltac:(lia)) as Hnx.
  unfold next_start in Hnx. rewrite IH1, IH2, (Hst (S i) Hi) in Hnx.
  replace (S i - 1)%nat with i in Hnx by lia.
  destruct (Hstep i ltac:(lia)) as [Hs1 Hs2]. rewrite Hs1, Hs2 in Hnx.
  assert (Hle : Z.of_nat i * L + L <= Z.of_nat (parts f - 1) * L) by nia.
  rewrite wrap_i64_id in Hnx by (unfold is_i64, i64_min; nia).
  assert (Hv : (if 0 <=? (if Nat.eqb k (S i) then Z.of_nat k * L else -1)
                then if Nat.eqb k (S i) then Z.of_nat k * L else -1
                else Z.of_nat i * L + L) = Z.of_nat (S i) * L).
  { destruct (Nat.eqb_spec k (S i)) as [->|_]; [|simpl; lia].
    destruct (0 <=? Z.of_nat (S i) * L) eqn:E; bprop; nia. }
  rewrite Hv in Hnx. case_if_in Hnx; bprop; [nia|].
  rewrite andb_diag, orb_true_r in Hnx. by injection Hnx.
Qed.
End Uniform.

(** Where every offset of a uniform posting is found after one observation. *)
Lemma uniform_located `{GoSort Segment} f L T k p off :
  uniform f L T k p -> 0 <= off < T ->
  LocateExact (Observe (NewOffsetIndex f) (Z.of_nat k) (Some p)) off =
  Some (Nat.min (Z.to_nat (off / L)) (parts f - 1), true).
Proof.
  intros Hu Ho. pose proof (uniform_observed f L T k p Hu) as [Hn [Hfs Hsx] _ _].
  pose proof (uniform_starts f L T k p) as Hst.
  assert (Hlo : laid_out (Observe (NewOffsetIndex f) (Z.of_nat k) (Some p)))
    by (apply Observe_laid_out, NewOffsetIndex_laid_out).
  pose proof Hu as [HL HT Hk Hsh Hb He Hs].
  set (ix := Observe _ _ _) in *.
  assert (Hsz : fileSizeLocked ix = T) by (unfold fileSizeLocked; by rewrite Hsx).
  destruct (locateLocked_total ix off) as [i Hi]; [lia|lia|].
  unfold LocateExact. rewrite Hi. apply locateLocked_spec in Hi as (Hin & _ & Hlow & Hup); [|done].
  rewrite Hn in *. destruct (Hst i ltac:(done) ltac:(lia)) as [Hi1 Hi2]. rewrite Hi1 in Hlow.
  pose proof (Z.div_mod off L ltac:(lia)) as Hdm. pose proof (Z.mod_pos_bound off L HL) as Hmb.
  pose proof (Z.div_pos off L ltac:(lia) HL) as Hdp.
  rewrite Hi2. destruct (i <? parts f - 1)%nat eqn:Elt; bprop.
  - destruct (Hst (S i) ltac:(done) ltac:(lia)) as [Hj1 Hj2]. rewrite Hj2.
    specialize (Hup ltac:(lia)). rewrite Hj1 in Hup.
    assert (off / L = Z.of_nat i) by nia. do 2 f_equal. lia.
  - rewrite Hsx. assert (Z.of_nat i <= off / L) by (apply Z.div_le_lower_bound; lia).
    do 2 f_equal. lia.
Qed.

(** * Re-observing a segment *)

Lemma recompute_idem ix : recompute (recompute ix) = recompute ix.
Proof.
  unfold recompute at 1. rewrite segs_recompute. unfold recompute at 1 10.
  destruct (length (segs ix)) as [|n] eqn:En; [unfold recompute; by rewrite En|].
  assert (Hl : forall todo i pv pe, layout (recompute ix) i todo pv pe = layout ix i todo pv pe).
  { induction todo as [|todo IH]; intros; simpl; [done|]. rewrite next_start_recompute.
    destruct (next_start _ _ _ _). by rewrite IH. }
  rewrite Hl. unfold recompute. rewrite En. done.
Qed.

(** * Claims *)

(** Locate never fails inside the file and never answers wrong about its
    own map: in every index reached by construction and any sequence of
    observations, an offset below FileSize resolves to a segment whose range
    [start, end) holds it, and not-found is only an empty index, a negative
    offset or an offset at or past FileSize. *)
Lemma Locate_covers `{GoSort Segment} f ix off :
  reach f ix ->
  match Locate ix off with
  | Some (i, s, e) => (i < SegmentCount ix)%nat /\ s <= off < e
  | None => SegmentCount ix = 0%nat \/ off < 0 \/ FileSize ix <= off
  end.
Proof.
  intros Hr%reach_laid_out. unfold Locate.
  destruct (locateLocked ix off) as [i|] eqn:E.
  - apply locateLocked_spec in E as (Hi & Ho & Hs & He); [|done].
    split; [done|]. split; [done|]. unfold endOf. case_if; bprop; [apply He; lia|lia].
  - destruct (decide (SegmentCount ix = 0%nat)); [by left|]. right.
    destruct (decide (off < 0)); [by left|]. right.
    destruct (decide (FileSize ix <= off)); [done|].
    destruct (locateLocked_total ix off) as [i Hi]; [unfold SegmentCount in *; lia| |congruence].
    unfold FileSize in *. lia.
Qed.

(** C6: A segment LocateExact reports as certain really carries the offset:
    when every observed part is a true part of the posting and equal encoded
    shapes mean equal decoded lengths, an exact answer is the part whose true
    byte range holds the offset. *)
Theorem LocateExact_sound `{GoSort Segment} f len ix off i :
  posting f len -> reach_true f len ix -> LocateExact ix off = Some (i, true) ->
  (i < parts f)%nat /\ pos len i <= off < pos len (S i).
Proof.
  intros Hp Hr. destruct (reach_true_evidence f len ix Hp Hr) as [Hlo Hev].
  unfold LocateExact. destruct (locateLocked ix off) as [k|] eqn:E; [|done].
  intros [= <- Hx]. apply andb_prop in Hx as [Hx1 Hx2].
  apply locateLocked_spec in E as (Hi & Ho & Hs & He); [|done].
  pose proof (ev_parts f len ix Hev) as Hn. rewrite Hn in *.
  rewrite (startExact_true f len ix k) in Hs by (done || lia).
  split; [done|]. split; [done|]. case_if_in Hx2; bprop.
  - rewrite <- (startExact_true f len ix (S k)) by (done || lia). apply He. lia.
  - unfold fileSizeLocked in Ho. rewrite Hx2, (ev_size f len ix Hev Hx2) in Ho.
    replace (S k) with (parts f) by lia. lia.
Qed.

(** One article pins a uniform posting: after a single observation of any
    non-final part of a posting whose encoded sizes agree, every offset of the
    file resolves exactly, to the part number [offset / L] (the last part
    taking the remainder), and the answer is reported as certain. *)
Lemma uniform_pinned_by_one_article `{GoSort Segment} f L T k p off :
  uniform f L T k p -> 0 <= off < T ->
  LocateExact (Observe (NewOffsetIndex f) (Z.of_nat k) (Some p)) off =
  Some (Nat.min (Z.to_nat (off / L)) (parts f - 1), true).
Proof. apply uniform_located. Qed.

(** Observing a part again changes nothing, whatever was learned in
    between reading it twice: the running ratio counts each segment once and the
    layout is a function of the evidence. *)
Lemma Observe_idempotent `{GoSort Segment} f ix i p :
  reach f ix -> is_i64 (pEnd p) ->
  Observe (Observe ix i (Some p)) i (Some p) = Observe ix i (Some p).
Proof.
  intros Hr%reach_laid_out He.
  destruct (Observe_cases ix i p) as [Heq|[Hi Hp]]; [by rewrite !Heq|].
  destruct (part_len_eq p ltac:(lia) ltac:(lia) He) as [Ewb Ewl].
  assert (Hlen : length (segs (Observe ix i (Some p))) = length (segs ix)).
  { unfold Observe. do 2 (case_if; [done|]).
    destruct (if 0 <? pSize p then _ else _). split_anchor.
    by rewrite segs_recompute. }
  unfold Observe at 1. rewrite Hlen.
  case_if; [apply orb_true_iff in E as [E|E]; bprop; lia|].
  case_if; [apply orb_true_iff in E0 as [E0|E0]; bprop; lia|]. cbv zeta.
  assert (Hobs : exists b, Observe ix i (Some p) = recompute b /\
    exactStart b = <[Z.to_nat i := wrap_i64 (pBegin p - 1)]> (exactStart ix) /\
    exactLen b = <[Z.to_nat i := wrap_i64 (wrap_i64 (pEnd p - pBegin p) + 1)]> (exactLen ix) /\
    (fileSize b, sizeExact b) = if 0 <? pSize p then (pSize p, true) else (fileSize ix, sizeExact ix)).
  { unfold Observe. rewrite E, E0. destruct (if 0 <? pSize p then _ else _).
    split_anchor. eexists. split; [reflexivity|]. done. }
  destruct Hobs as (b & -> & Hbs & Hbl & Hbf). autorewrite with index_evidence.
  rewrite Hbs, Hbl, at_insert by (destruct Hr; lia). rewrite Nat.eqb_refl, Ewl.
  replace (pEnd p - pBegin p + 1 <? 0) with false by (symmetry; apply Z.ltb_ge; lia).
  cbn [andb]. rewrite !list_insert_insert_eq.
  assert (Hsz : (if 0 <? pSize p then (pSize p, true) else (fileSize b, sizeExact b)) = (fileSize b, sizeExact b)).
  { rewrite Hbf. by destruct (0 <? pSize p). }
  rewrite Hsz, <- Ewl, <- Hbs, <- Hbl.
  transitivity (recompute (recompute b)); [|apply recompute_idem].
  f_equal. unfold recompute. destruct (length (segs b)) eqn:Eb; [by destruct b|]. done.
Qed.

(** A four-part posting with its parts out of order: three parts of 100 bytes
    and a short one, whose encoded sizes vary a little. *)
Definition demo_file : File :=
  mkFile [] 0 [] [] [mkSegment 103 2 []; mkSegment 104 1 []; mkSegment 40 4 []; mkSegment 102 3 []].
Definition demo_len (i : nat) : Z := if Nat.eqb i 3 then 37 else 100.
Definition demo_part : Part := mkPart [] 2 4 101 200 337 0 [].
Definition demo_last : Part := mkPart [] 4 4 301 337 337 0 [].
#[local] Instance demo_sort : GoSort Segment := stable_GoSort Segment.

(** The segments of the demo are put in order and every offset is covered. *)
Lemma Locate_covers_witness :
  let ix := Observe (NewOffsetIndex demo_file) 1 (Some demo_part) in
  Locate ix 250 = Some (2%nat, 200, 300) /\ (2 < SegmentCount ix)%nat /\ 200 <= 250 < 300.
Proof.
  cbv zeta. split; [reflexivity|].
  exact (Locate_covers demo_file
    (Observe (NewOffsetIndex demo_file) 1 (Some demo_part)) 250
    (reach_observe demo_file (NewOffsetIndex demo_file) 1 (Some demo_part) (reach_new demo_file))).
Defined.

Lemma demo_posting : posting demo_file demo_len.
Proof.
  constructor.
  - intros i Hi. unfold demo_len. destruct (Nat.eqb i 3); lia.
  - vm_compute. discriminate.
  - intros i j Hi Hj _. change (parts demo_file) with 4%nat in *. unfold demo_len.
    destruct (Nat.eqb_spec i 3), (Nat.eqb_spec j 3); lia.
Defined.

(** The true layout of the demo is recovered from its second and last part. *)
Lemma LocateExact_sound_witness :
  let ix := Observe (Observe (NewOffsetIndex demo_file) 1 (Some demo_part)) 3 (Some demo_last) in
  LocateExact ix 250 = Some (2%nat, true) /\
  (2 < parts demo_file)%nat /\ pos demo_len 2 <= 250 < pos demo_len 3.
Proof.
  intros ix. split; [reflexivity|].
  apply (LocateExact_sound demo_file demo_len ix 250 2 demo_posting); [|reflexivity].
  apply true_observe; [apply true_observe; [apply true_new|]|];
    (split; [reflexivity|split; [reflexivity|left; reflexivity]]).
Defined.

Lemma demo_uniform : uniform demo_file 100 337 1 demo_part.
Proof.
  constructor.
  - lia.
  - vm_compute. split; congruence.
  - vm_compute. lia.
  - intros i Hi. change (parts demo_file) with 4%nat in Hi.
    do 3 (destruct i as [|i]; [vm_compute; reflexivity|]). lia.
  - reflexivity.
  - reflexivity.
  - reflexivity.
Defined.

(** One observed article of the demo answers for an offset of another. *)
Lemma uniform_pinned_by_one_article_witness :
  uniform demo_file 100 337 1 demo_part /\
  LocateExact (Observe (NewOffsetIndex demo_file) (Z.of_nat 1) (Some demo_part)) 336 =
  Some (3%nat, true).
Proof.
  split; [exact demo_uniform|].
  exact (uniform_pinned_by_one_article demo_file 100 337 1 demo_part 336 demo_uniform
           ltac:(lia)).
Defined.

(** Re-observing the demo's second part. *)
Lemma Observe_idempotent_witness :
  let ix := Observe (NewOffsetIndex demo_file) 3 (Some demo_last) in
  is_i64 (pEnd demo_part) /\ Observe ix 1 (Some demo_part) <> ix /\
  Observe (Observe ix 1 (Some demo_part)) 1 (Some demo_part) = Observe ix 1 (Some demo_part).
Proof.
  cbv zeta. split; [vm_compute; split; discriminate|]. split; [vm_compute; discriminate|].
  apply (Observe_idempotent demo_file); [|vm_compute; split; discriminate].
  apply reach_observe, reach_new.
Defined.
