(* ===== verification/RarParse.v ===== *)
(** The RAR header walkers: internal/usenet/stream/rarparse.go, rar4.go and
    rar5.go, over the [volumeSource] interface of rarvolume.go.

    Go's [int] arithmetic wraps and an index or slice out of range panics, so a
    walker has four outcomes: a value, a NotStreamable error, a panic, or a loop
    still running when its fuel is gone. *)
From Stdlib Require Import ZArith Lia Ascii String.
From stdpp Require Import prelude list strings.
From S2P Require Import Prelude GoStrings.

Open Scope Z_scope.
Open Scope go_scope.

(** * Outcomes *)

Inductive outcome (A : Type) : Type :=
| Val (a : A)
| NotStreamable (reason : string)
| Panics
| Running.
Arguments Val {A} a.
Arguments NotStreamable {A} reason.
Arguments Panics {A}.
Arguments Running {A}.

Definition obind {A B} (m : outcome A) (k : A -> outcome B) : outcome B :=
  match m with
  | Val a => k a
  | NotStreamable r => NotStreamable r
  | Panics => Panics
  | Running => Running
  end.
Notation "'run' x := m 'in' k" := (obind m (fun x => k))
  (at level 10, x pattern, m at level 100, k at level 200) : go_scope.

(** An [ok = false] or a non-nil error, with the reason the caller reports. *)
Definition or_fail {A} (m : option A) (reason : string) : outcome A :=
  match m with Some a => Val a | None => NotStreamable reason end.

Definition zlen (b : bytes) : Z := Z.of_nat (length b).

(** [b[i]] and [b[lo:hi]] with their bounds checks. *)
Definition byte_at (b : bytes) (i : Z) : outcome Z :=
  if i <? 0 then Panics
  else match b !! Z.to_nat i with Some x => Val x | None => Panics end.
Definition slice_of (b : bytes) (lo hi : Z) : outcome bytes :=
  if (0 <=? lo) && (lo <=? hi) && (hi <=? zlen b)
  then Val (take (Z.to_nat (hi - lo)) (drop (Z.to_nat lo) b)) else Panics.

(** * Volumes: random access to the raw bytes of one RAR volume *)

Record volumeSource := mkVolume { readAt : Z -> Z -> option bytes; size : Z }.

(** What an implementation promises: the exact size, and bytes of the container
    or an error; a read past either end is an error. *)
Class Lawful (content : bytes) (vs : volumeSource) : Prop := {
  lawful_size : size vs = zlen content;
  lawful_i64 : zlen content <= i64_max;
  lawful_read : forall off n b, readAt vs off n = Some b ->
    0 <= off /\ 0 <= n /\ off + n <= zlen content /\
    b = take (Z.to_nat n) (drop (Z.to_nat off) content)
}.

(** The bound checks of readerVolume.readAt in front of its Reader; the Reader
    is any function that yields the bytes or an error. *)
Definition readerVolume (read : Z -> Z -> option bytes) (sz : Z) : volumeSource :=
  mkVolume (fun off n =>
    if (off <? 0) || (n <? 0) then None
    else if (sz <? n) || (wrap_i64 (sz - n) <? off) then None
    else read off n) sz.

(** A volume held in memory. *)
Definition memVolume (content : bytes) : volumeSource :=
  readerVolume (fun off n => Some (take (Z.to_nat n) (drop (Z.to_nat off) content))) (zlen content).

(** * Chunks *)

Record rarChunk := mkChunk {
  cname : bytes; volIndex : Z; dataOffset : Z; packSize : Z; unpSize : Z;
  stored : bool; encrypted : bool
}.

Definition rar4Marker : bytes := [82; 97; 114; 33; 26; 7; 0].
Definition rar5Marker : bytes := [82; 97; 114; 33; 26; 7; 1; 0].

(** rarBaseName of rarvolume.go *)
Definition rarBaseName (name : bytes) : bytes := Base (replace_byte BACKSLASH SLASH name).

(** * Little-endian words and vints *)

(** The value read, 0 when [ok] is false: every caller drops [ok]. *)
Definition u16 (b : bytes) (off : Z) : Z :=
  if (off <? 0) || (zlen b <? off + 2) then 0 else le_val (take 2 (drop (Z.to_nat off) b)).
Definition u32 (b : bytes) (off : Z) : Z :=
  if (off <? 0) || (zlen b <? off + 4) then 0 else le_val (take 4 (drop (Z.to_nat off) b)).

Fixpoint vint_loop (todo : nat) (b : bytes) (off i val shift : Z) : outcome (option (Z * Z)) :=
  match todo with
  | O => Val None
  | S todo' =>
      if zlen b <=? wrap_i64 (off + i) then Val None
      else
        run c := byte_at b (wrap_i64 (off + i)) in
        let val := Z.lor val (wrap_u64 (Z.shiftl (Z.land c 127) shift)) in
        if Z.land c 128 =? 0 then Val (Some (val, i + 1))
        else vint_loop todo' b off (i + 1) val (shift + 7)
  end.
Definition readVint (b : bytes) (off : Z) : outcome (option (Z * Z)) := vint_loop 10 b off 0 0 0.

(** * RAR 1.5-4.x *)

Definition rar4TypeMain : Z := 115.
Definition rar4TypeFile : Z := 116.
Definition rar4TypeEnd : Z := 123.
Definition rar4MaxBlocks : Z := 100000.

Definition has_flag (flags bit : Z) : bool := negb (Z.land flags bit =? 0).

Definition rar4FileBlock (flags : Z) (hdr : bytes) (pos vol : Z) : outcome (Z * option rarChunk) :=
  if zlen hdr <? 32 then NotStreamable "rar4 truncated file header"
  else
    let packLo := u32 hdr 7 in
    let unpLo := u32 hdr 11 in
    run method := byte_at hdr 25 in
    let nameSize := u16 hdr 26 in
    let large := has_flag flags 256 in
    let pack := if large then wrap_i64 (Z.lor packLo (Z.shiftl (u32 hdr 32) 32)) else packLo in
    let unp := if large then wrap_i64 (Z.lor unpLo (Z.shiftl (u32 hdr 36) 32)) else unpLo in
    let nameOff := if large then 40 else 32 in
    if zlen hdr <? nameOff + nameSize then NotStreamable "rar4 name runs past header"
    else
      run name := slice_of hdr nameOff (nameOff + nameSize) in
      Val (pack, Some (mkChunk (rarBaseName name) vol (wrap_i64 (pos + zlen hdr)) pack unp
                         (method =? 48) (has_flag flags 4))).

Definition rar4AddSize (flags : Z) (hdr : bytes) : Z :=
  if has_flag flags 32768 then u32 hdr 7 else 0.

Definition rar4Block (blockType flags : Z) (hdr : bytes) (pos vol : Z) : outcome (Z * option rarChunk) :=
  if blockType =? rar4TypeMain then
    if has_flag flags 128 then NotStreamable "rar4 encrypted headers" else Val (0, None)
  else if blockType =? rar4TypeFile then rar4FileBlock flags hdr pos vol
  else Val (rar4AddSize flags hdr, None).

Definition add_chunk (chunks : list rarChunk) (c : option rarChunk) : list rarChunk :=
  match c with Some c => chunks ++ [c] | None => chunks end.

(** The block loop; [todo] is the code's own bound on the number of blocks. *)
Fixpoint rar4_walk (todo : nat) (vs : volumeSource) (vol pos : Z) (chunks : list rarChunk)
  : outcome (list rarChunk) :=
  match todo with
  | O => Val chunks
  | S todo' =>
      if pos <? size vs then
        run base := or_fail (readAt vs pos 7) "rar4 read block header" in
        run blockType := byte_at base 2 in
        let flags := u16 base 3 in
        let headSize := u16 base 5 in
        if headSize <? 7 then NotStreamable "rar4 bad header size"
        else
          run hdr := or_fail (readAt vs pos headSize) "rar4 read full header" in
          run (dataSize, chunk) := rar4Block blockType flags hdr pos vol in
          let chunks := add_chunk chunks chunk in
          if blockType =? rar4TypeEnd then Val chunks
          else rar4_walk todo' vs vol (wrap_i64 (pos + wrap_i64 (headSize + dataSize))) chunks
      else Val chunks
  end.
Definition parseRar4 (vs : volumeSource) (vol : Z) : outcome (list rarChunk) :=
  rar4_walk (Z.to_nat rar4MaxBlocks) vs vol 7 [].

(** * RAR 5.0 *)

Definition rar5TypeFile : Z := 2.
Definition rar5TypeEnd : Z := 5.
Definition rar5MaxBlocks : Z := 100000.

Record rar5Header := mkH5 {
  blockType : Z; dataSize : Z; hname : bytes; hunpSize : Z; hstored : bool; hencrypted : bool
}.

(** readVint with the caller's "not ok" error. *)
Definition vint (b : bytes) (p : Z) (reason : string) : outcome (Z * Z) :=
  run r := readVint b p in or_fail r reason.

Definition rar5FileName (hdr : bytes) (p : Z) : outcome bytes :=
  run (_, n) := vint hdr p "rar5 bad host os" in
  let p := wrap_i64 (p + n) in
  run (nameLen, n) := vint hdr p "rar5 bad name length" in
  let p := wrap_i64 (p + n) in
  if zlen hdr <? wrap_i64 (p + wrap_i64 nameLen) then NotStreamable "rar5 name runs past header"
  else
    run name := slice_of hdr p (wrap_i64 (p + wrap_i64 nameLen)) in
    Val (rarBaseName name).

Fixpoint crypt_loop (fuel : nat) (area : bytes) (p : Z) : outcome bool :=
  match fuel with
  | O => Running
  | S fuel' =>
      if p <? zlen area then
        run r := readVint area p in
        match r with
        | None => Val true
        | Some (recSize, n) =>
            if recSize =? 0 then Val true
            else
              let recStart := wrap_i64 (p + n) in
              if zlen area <? wrap_i64 (recStart + wrap_i64 recSize) then Val true
              else
                run t := readVint area recStart in
                match t with
                | None => Val true
                | Some (recType, _) =>
                    if recType =? 1 then Val true
                    else crypt_loop fuel' area (wrap_i64 (recStart + wrap_i64 recSize))
                end
        end
      else Val false
  end.
(** [fuel] bounds the rounds of the scan; [Running] is a scan that has not
    ended by then. *)
Definition rar5HasCrypt (fuel : nat) (hdr : bytes) (extraSize : Z) : outcome bool :=
  if extraSize <=? 0 then Val false
  else if zlen hdr <? extraSize then Val true
  else crypt_loop fuel (drop (Z.to_nat (zlen hdr - extraSize)) hdr) 0.

Definition parseRar5File (fuel : nat) (h : rar5Header) (hdr : bytes) (p extraSize : Z) : outcome rar5Header :=
  run (fileFlags, n) := vint hdr p "rar5 bad file flags" in
  let p := wrap_i64 (p + n) in
  run (unp, n) := vint hdr p "rar5 bad unpacked size" in
  let p := wrap_i64 (p + n) in
  if has_flag fileFlags 8 then NotStreamable "rar5 unknown unpacked size"
  else
    run (_, n) := vint hdr p "rar5 bad attributes" in
    let p := wrap_i64 (p + n) in
    let p := if has_flag fileFlags 2 then wrap_i64 (p + 4) else p in
    let p := if has_flag fileFlags 4 then wrap_i64 (p + 4) else p in
    run (compInfo, n) := vint hdr p "rar5 bad compression info" in
    let p := wrap_i64 (p + n) in
    run name := rar5FileName hdr p in
    run enc := rar5HasCrypt fuel hdr extraSize in
    Val (mkH5 (blockType h) (dataSize h) name (wrap_i64 unp)
           (Z.shiftr (Z.land compInfo 896) 7 =? 0) enc).

Definition parseRar5Header (fuel : nat) (hdr : bytes) : outcome rar5Header :=
  run (bt, n) := vint hdr 0 "rar5 bad block type" in
  let p := wrap_i64 (0 + n) in
  run (flags, n) := vint hdr p "rar5 bad header flags" in
  let p := wrap_i64 (p + n) in
  run (extraSize, p) :=
    if has_flag flags 1 then
      run (e, n) := vint hdr p "rar5 bad extra size" in Val (e, wrap_i64 (p + n))
    else Val (0, p) in
  run (ds, p) :=
    if has_flag flags 2 then
      run (d, n) := vint hdr p "rar5 bad data size" in Val (wrap_i64 d, wrap_i64 (p + n))
    else Val (0, p) in
  let h := mkH5 bt ds [] 0 false false in
  if negb (bt =? rar5TypeFile) then Val h
  else parseRar5File fuel h hdr p (wrap_i64 extraSize).

Definition rar5FileChunk (h : rar5Header) (dataStart vol : Z) : rarChunk :=
  mkChunk (hname h) vol dataStart (dataSize h) (hunpSize h) (hstored h) (hencrypted h).

(** The next position ([None] at the end-of-archive block) and the chunk. *)
Definition rar5Block (fuel : nat) (vs : volumeSource) (pos vol : Z) : outcome (option Z * option rarChunk) :=
  let avail := wrap_i64 (size vs - wrap_i64 (pos + 4)) in
  if avail <=? 0 then NotStreamable "rar5 truncated at block header"
  else
    let probeLen := if avail <? 16 then avail else 16 in
    run probe := or_fail (readAt vs (wrap_i64 (pos + 4)) probeLen) "rar5 read header size" in
    run r := readVint probe 0 in
    match r with
    | None => NotStreamable "rar5 bad header size vint"
    | Some (hsize, k) =>
        if hsize =? 0 then NotStreamable "rar5 bad header size vint"
        else
          let hdrStart := wrap_i64 (wrap_i64 (pos + 4) + k) in
          run hdr := or_fail (readAt vs hdrStart (wrap_i64 hsize)) "rar5 read header" in
          run h := parseRar5Header fuel hdr in
          let dataStart := wrap_i64 (hdrStart + wrap_i64 hsize) in
          if blockType h =? rar5TypeEnd then Val (None, None)
          else
            Val (Some (wrap_i64 (dataStart + dataSize h)),
                 if blockType h =? rar5TypeFile then Some (rar5FileChunk h dataStart vol) else None)
    end.

Fixpoint rar5_walk (todo fuel : nat) (vs : volumeSource) (vol pos : Z) (chunks : list rarChunk)
  : outcome (list rarChunk) :=
  match todo with
  | O => Val chunks
  | S todo' =>
      if pos <? size vs then
        run (next, chunk) := rar5Block fuel vs pos vol in
        let chunks := add_chunk chunks chunk in
        match next with
        | None => Val chunks
        | Some pos' => rar5_walk todo' fuel vs vol pos' chunks
        end
      else Val chunks
  end.
Definition parseRar5 (fuel : nat) (vs : volumeSource) (vol : Z) : outcome (list rarChunk) :=
  rar5_walk (Z.to_nat rar5MaxBlocks) fuel vs vol 8 [].

(** * Dispatch on the signature *)

Definition parseVolume (fuel : nat) (vs : volumeSource) (vol : Z) : outcome (list rarChunk) :=
  run sig := or_fail (readAt vs 0 8) "read rar signature" in
  if bytes_eqb sig rar5Marker then parseRar5 fuel vs vol
  else
    run head := slice_of sig 0 7 in
    if bytes_eqb head rar4Marker then parseRar4 vs vol
    else NotStreamable "unrecognised RAR signature".

(** * Reads of a lawful volume *)

Lemma zlen_nonneg b : 0 <= zlen b.
Proof. unfold zlen. lia. Qed.
Lemma zlen_app a b : zlen (a ++ b) = zlen a + zlen b.
Proof. unfold zlen. rewrite length_app. lia. Qed.
Lemma zlen_cons x b : zlen (x :: b) = 1 + zlen b.
Proof. unfold zlen. simpl. lia. Qed.
Lemma zlen_nil : zlen [] = 0.
Proof. done. Qed.
#[export] Hint Rewrite zlen_app zlen_cons zlen_nil : unarr.

Lemma lawful_read_length content vs off n b :
  Lawful content vs -> readAt vs off n = Some b -> zlen b = n /\ 0 <= off /\ off + n <= zlen content.
Proof.
  intros H Hr. apply lawful_read in Hr as (H1 & H2 & H3 & ->).
  split; [|lia]. unfold zlen in *. rewrite length_take, length_drop. lia.
Qed.

Lemma lawful_read_wf content vs off n b :
  Lawful content vs -> wf_bytes content -> readAt vs off n = Some b -> wf_bytes b.
Proof.
  intros H Hw Hr. apply lawful_read in Hr as (_ & _ & _ & ->).
  by apply Forall_take, Forall_drop.
Qed.

Lemma memVolume_lawful content : zlen content <= i64_max -> Lawful content (memVolume content).
Proof.
  intros Hm. constructor; [done|done|]. intros off n b. simpl.
  case_if; [done|]. case_if; [done|]. intros [= <-]. bprop.
  pose proof (zlen_nonneg content). unfold i64_max in *.
  rewrite wrap_i64_id in * by (unfold is_i64, i64_min, i64_max; lia).
  repeat split; lia.
Qed.

(** A read inside a volume held in memory is the slice. *)
Lemma memVolume_read pre mid post :
  zlen (pre ++ mid ++ post) <= i64_max ->
  readAt (memVolume (pre ++ mid ++ post)) (zlen pre) (zlen mid) = Some mid.
Proof.
  intros Hm. autorewrite with unarr in Hm.
  pose proof (zlen_nonneg pre). pose proof (zlen_nonneg mid). pose proof (zlen_nonneg post).
  simpl. autorewrite with unarr. unfold i64_max in *.
  rewrite wrap_i64_id by (unfold is_i64, i64_min, i64_max; lia).
  case_if; [apply orb_true_iff in E as [E|E]; bprop; lia|].
  case_if; [apply orb_true_iff in E0 as [E0|E0]; bprop; lia|].
  unfold zlen. rewrite !Nat2Z.id, drop_app_length, take_app_length. done.
Qed.

Lemma byte_at_val b i : 0 <= i < zlen b -> exists x, byte_at b i = Val x /\ b !! Z.to_nat i = Some x.
Proof.
  intros Hi. unfold byte_at. case_if; bprop; [lia|].
  destruct (b !! Z.to_nat i) as [x|] eqn:Ex; [by exists x|].
  apply lookup_ge_None in Ex. unfold zlen in Hi. lia.
Qed.

Lemma slice_of_val b lo hi : 0 <= lo <= hi -> hi <= zlen b -> exists s, slice_of b lo hi = Val s.
Proof.
  intros. unfold slice_of. case_if; [eauto|].
  apply andb_false_iff in E as [E|E]; [apply andb_false_iff in E as [E|E]|]; bprop; lia.
Qed.

Lemma u16_bound b off : wf_bytes b -> 0 <= u16 b off < 2 ^ 16.
Proof.
  intros Hb. unfold u16. case_if; [lia|].
  assert (Hw : wf_bytes (take 2 (drop (Z.to_nat off) b))) by by apply Forall_take, Forall_drop.
  apply le_val_bound in Hw. bprop. unfold zlen in *. rewrite length_take, length_drop in Hw.
  replace (Nat.min 2 (length b - Z.to_nat off)) with 2%nat in Hw by lia. simpl in Hw. lia.
Qed.

Lemma u32_bound b off : wf_bytes b -> 0 <= u32 b off < 2 ^ 32.
Proof.
  intros Hb. unfold u32. case_if; [lia|].
  assert (Hw : wf_bytes (take 4 (drop (Z.to_nat off) b))) by by apply Forall_take, Forall_drop.
  apply le_val_bound in Hw. bprop. unfold zlen in *. rewrite length_take, length_drop in Hw.
  replace (Nat.min 4 (length b - Z.to_nat off)) with 4%nat in Hw by lia. simpl in Hw. lia.
Qed.

(** * RAR4 is total *)

(** A chunk of volume [vol] whose data starts inside a container of [sz] bytes. *)
Definition chunk_in (vol sz : Z) (c : rarChunk) : Prop :=
  volIndex c = vol /\ 0 <= dataOffset c <= sz /\ is_i64 (packSize c) /\ is_i64 (unpSize c).

(** Neither a panic nor an unfinished loop, and [P] of the value. *)
Definition safe {A} (P : A -> Prop) (o : outcome A) : Prop :=
  match o with Val a => P a | NotStreamable _ => True | Panics | Running => False end.

Lemma safe_bind {A B} (P : A -> Prop) (Q : B -> Prop) m k :
  safe P m -> (forall a, P a -> safe Q (k a)) -> safe Q (obind m k).
Proof. destruct m; simpl; auto; done. Qed.

Lemma safe_or_fail {A} (P : A -> Prop) m r :
  (forall a, m = Some a -> P a) -> safe P (or_fail m r).
Proof. destruct m; simpl; auto. Qed.

Lemma safe_byte_at b i : 0 <= i < zlen b -> safe (fun _ => True) (byte_at b i).
Proof. intros H. destruct (byte_at_val b i H) as (x & -> & _). done. Qed.

Lemma safe_slice_of b lo hi : 0 <= lo <= hi -> hi <= zlen b -> safe (fun _ => True) (slice_of b lo hi).
Proof. intros. destruct (slice_of_val b lo hi) as [s ->]; done. Qed.

Lemma u32_is_i64 b off : wf_bytes b -> is_i64 (u32 b off).
Proof.
  intros Hb. pose proof (u32_bound b off Hb). unfold is_i64, i64_min, i64_max. lia.
Qed.

Lemma rar4Block_safe bt flags hdr pos vol sz :
  wf_bytes hdr -> 0 <= pos -> pos + zlen hdr <= sz -> sz <= i64_max ->
  safe (fun r => match snd r with Some c => chunk_in vol sz c | None => True end)
    (rar4Block bt flags hdr pos vol).
Proof.
  intros Hw Hp Hs Hm. unfold rar4Block. case_if; [by case_if|]. case_if; [|done].
  unfold rar4FileBlock. case_if; [done|]. bprop.
  eapply safe_bind; [apply safe_byte_at; lia|]. intros method _. case_if; [done|]. bprop.
  pose proof (u16_bound hdr 26 Hw).
  eapply safe_bind; [apply safe_slice_of; [destruct (has_flag flags 256); lia|lia]|].
  intros name _. simpl. unfold chunk_in. simpl.
  pose proof (zlen_nonneg hdr). split; [done|]. split.
  { rewrite wrap_i64_id; [lia|]. unfold is_i64, i64_min. lia. }
  destruct (has_flag flags 256); split; auto using wrap_i64_range, u32_is_i64.
Qed.

Lemma rar4_walk_safe content vs todo vol pos chunks :
  Lawful content vs -> wf_bytes content -> Forall (chunk_in vol (size vs)) chunks ->
  safe (Forall (chunk_in vol (size vs))) (rar4_walk todo vs vol pos chunks).
Proof.
  intros Hl Hw. pose proof (lawful_i64 (Lawful := Hl)) as Hmax.
  revert pos chunks. induction todo as [|todo IH]; intros pos chunks Hc; simpl; [done|].
  case_if; [|done].
  eapply (safe_bind (fun b => zlen b = 7)).
  { apply safe_or_fail. intros b Hb. by apply (lawful_read_length content) in Hb as [? _]. }
  intros base Hbase.
  eapply safe_bind; [apply safe_byte_at; lia|]. intros bt _. case_if; [done|].
  eapply (safe_bind (fun b => wf_bytes b /\ 0 <= pos /\ pos + zlen b <= size vs)).
  { apply safe_or_fail. intros b Hb. pose proof (lawful_read_wf _ _ _ _ _ Hl Hw Hb).
    apply (lawful_read_length content) in Hb as (Hlb & ? & ?); [|done].
    rewrite (lawful_size (Lawful := Hl)). rewrite Hlb. auto. }
  intros hdr (Hwh & Hp & Hfit).
  eapply safe_bind; [eapply (rar4Block_safe _ _ _ _ _ (size vs)); [done|done|done|]|].
  { by rewrite (lawful_size (Lawful := Hl)). }
  intros [ds c] Hch. simpl in Hch.
  assert (Hadd : Forall (chunk_in vol (size vs)) (add_chunk chunks c)).
  { destruct c; simpl; [|done]. apply Forall_app. auto. }
  case_if; [done|]. by apply IH.
Qed.

(** * A RAR4 writer, for the round trip *)

Record rar4File := mkR4 {
  r4name : bytes; r4data : bytes; r4unp : Z; r4method : Z; r4password : bool; r4large : bool
}.

Definition r4flags (f : rar4File) : Z :=
  32768 + (if r4password f then 4 else 0) + (if r4large f then 256 else 0).
Definition r4headSize (f : rar4File) : Z :=
  (if r4large f then 40 else 32) + zlen (r4name f).

(** FILE_HEAD as the format lays it out: checksum, type, flags, size, the two
    low words, ten bytes the walker skips, method, name size, attributes, the
    high words of a LARGE file, and the name. *)
Definition r4header (f : rar4File) : bytes :=
  [0; 0; rar4TypeFile] ++ le_bytes 2 (r4flags f) ++ le_bytes 2 (r4headSize f) ++
  le_bytes 4 (zlen (r4data f) mod 2 ^ 32) ++ le_bytes 4 (r4unp f mod 2 ^ 32) ++
  replicate 10 0 ++ [r4method f] ++ le_bytes 2 (zlen (r4name f)) ++ replicate 4 0 ++
  (if r4large f then le_bytes 4 (zlen (r4data f) / 2 ^ 32) ++ le_bytes 4 (r4unp f / 2 ^ 32) else []) ++
  r4name f.

Definition r4valid (f : rar4File) : Prop :=
  zlen (r4name f) < 2 ^ 16 - 40 /\ 0 <= r4unp f <= i64_max /\
  (r4large f = false -> zlen (r4data f) < 2 ^ 32 /\ r4unp f < 2 ^ 32).

Definition r4main : bytes := [0; 0; rar4TypeMain; 0; 0; 13; 0; 0; 0; 0; 0; 0; 0].
Definition r4end : bytes := [0; 0; rar4TypeEnd; 0; 0; 7; 0].
Fixpoint r4body (fs : list rar4File) : bytes :=
  match fs with [] => r4end | f :: fs' => r4header f ++ r4data f ++ r4body fs' end.
Definition r4volume (fs : list rar4File) : bytes := rar4Marker ++ r4main ++ r4body fs.

(** The chunks of the files, the first header standing at [pos]. *)
Fixpoint r4chunks (vol pos : Z) (fs : list rar4File) : list rarChunk :=
  match fs with
  | [] => []
  | f :: fs' =>
      mkChunk (rarBaseName (r4name f)) vol (pos + r4headSize f) (zlen (r4data f)) (r4unp f)
        (r4method f =? 48) (r4password f) ::
      r4chunks vol (pos + r4headSize f + zlen (r4data f)) fs'
  end.

Lemma zlen_le_bytes n v : zlen (le_bytes n v) = Z.of_nat n.
Proof.
  unfold zlen. by rewrite le_bytes_length.
Qed.

Lemma r4header_length f : zlen (r4header f) = r4headSize f.
Proof.
  unfold r4header, r4headSize. destruct (r4large f);
    rewrite !zlen_app, !zlen_le_bytes; unfold zlen; simpl; lia.
Qed.

(** A word the writer put at a fixed offset is the word read there. *)
Lemma u16_read b off v rest :
  0 <= off -> 0 <= v < 2 ^ 16 -> drop (Z.to_nat off) b = le_bytes 2 v ++ rest -> u16 b off = v.
Proof.
  intros Ho Hv Hd. unfold u16.
  assert (Hl : zlen (drop (Z.to_nat off) b) = 2 + zlen rest).
  { rewrite Hd, zlen_app, zlen_le_bytes. lia. }
  unfold zlen in Hl. rewrite length_drop in Hl. case_if.
  { apply orb_true_iff in E as [E|E]; bprop; unfold zlen in *; lia. }
  rewrite Hd. change (take 2 (le_bytes 2 v ++ rest)) with (le_bytes 2 v).
  apply le_val_le_bytes. simpl. lia.
Qed.
Lemma u32_read b off v rest :
  0 <= off -> 0 <= v < 2 ^ 32 -> drop (Z.to_nat off) b = le_bytes 4 v ++ rest -> u32 b off = v.
Proof.
  intros Ho Hv Hd. unfold u32.
  assert (Hl : zlen (drop (Z.to_nat off) b) = 4 + zlen rest).
  { rewrite Hd, zlen_app, zlen_le_bytes. lia. }
  unfold zlen in Hl. rewrite length_drop in Hl. case_if.
  { apply orb_true_iff in E as [E|E]; bprop; unfold zlen in *; lia. }
  rewrite Hd. change (take 4 (le_bytes 4 v ++ rest)) with (le_bytes 4 v).
  apply le_val_le_bytes. simpl. lia.
Qed.

Lemma r4flags_range f : 0 <= r4flags f < 2 ^ 16.
Proof. unfold r4flags. destruct (r4password f), (r4large f); lia. Qed.
Lemma r4flags_large f : has_flag (r4flags f) 256 = r4large f.
Proof. unfold r4flags. by destruct (r4password f), (r4large f). Qed.
Lemma r4flags_password f : has_flag (r4flags f) 4 = r4password f.
Proof. unfold r4flags. by destruct (r4password f), (r4large f). Qed.

(** Splitting a 63-bit size into words and joining them again. *)
Lemma join_words v : 0 <= v <= i64_max ->
  wrap_i64 (Z.lor (v mod 2 ^ 32) (Z.shiftl (v / 2 ^ 32) 32)) = v.
Proof.
  intros Hv. rewrite lor_shiftl_add by (try lia; apply Z.mod_pos_bound; lia).
  pose proof (Z.div_mod v (2 ^ 32) ltac:(lia)).
  rewrite wrap_i64_id; unfold is_i64, i64_min; lia.
Qed.

Lemma rar4FileBlock_header f pos vol :
  r4valid f -> zlen (r4data f) <= i64_max -> 0 <= pos -> pos + r4headSize f <= i64_max ->
  rar4FileBlock (r4flags f) (r4header f) pos vol =
  Val (zlen (r4data f), Some (mkChunk (rarBaseName (r4name f)) vol (pos + r4headSize f)
         (zlen (r4data f)) (r4unp f) (r4method f =? 48) (r4password f))).
Proof.
  intros (Hn & Hu & Hlg) Hd Hp Hpm. unfold rar4FileBlock.
  pose proof (zlen_nonneg (r4name f)). pose proof (zlen_nonneg (r4data f)).
  rewrite r4header_length, r4flags_large, r4flags_password.
  assert (Hhs : 32 <= r4headSize f) by (unfold r4headSize; destruct (r4large f); lia).
  case_if; bprop; [lia|].
  assert (H7 : u32 (r4header f) 7 = zlen (r4data f) mod 2 ^ 32)
    by (eapply u32_read; [lia|apply Z.mod_pos_bound; lia|reflexivity]).
  assert (H11 : u32 (r4header f) 11 = r4unp f mod 2 ^ 32)
    by (eapply u32_read; [lia|apply Z.mod_pos_bound; lia|reflexivity]).
  assert (H26 : u16 (r4header f) 26 = zlen (r4name f)) by (eapply u16_read; [lia|lia|reflexivity]).
  change (byte_at (r4header f) 25) with (Val (r4method f)). cbn [obind].
  rewrite H7, H11, H26.
  assert (Hname : slice_of (r4header f) (if r4large f then 40 else 32)
      ((if r4large f then 40 else 32) + zlen (r4name f)) = Val (r4name f)).
  { unfold slice_of. rewrite r4header_length. unfold r4headSize.
    assert (Hlo : 32 <= (if r4large f then 40 else 32)) by (destruct (r4large f); lia).
    replace ((0 <=? _) && _ && _) with true by (symmetry; rewrite !andb_true_iff, !Z.leb_le; lia).
    f_equal. rewrite Z.add_simpl_l. unfold zlen. rewrite Nat2Z.id. unfold r4header.
    destruct (r4large f); simpl; apply take_ge; lia. }
  replace (r4headSize f <? _) with false by (symmetry; apply Z.ltb_ge; unfold r4headSize; lia).
  rewrite Hname. cbn [obind]. rewrite (wrap_i64_id (pos + r4headSize f)) by (unfold is_i64, i64_min; lia).
  destruct (r4large f) eqn:El.
  - assert (H32 : u32 (r4header f) 32 = zlen (r4data f) / 2 ^ 32).
    { eapply u32_read; [lia| |unfold r4header; rewrite El; reflexivity].
      unfold i64_max in *. split; [apply Z.div_pos; lia|apply Z.div_lt_upper_bound; lia]. }
    assert (H36 : u32 (r4header f) 36 = r4unp f / 2 ^ 32).
    { eapply u32_read; [lia| |unfold r4header; rewrite El; reflexivity].
      unfold i64_max in *. split; [apply Z.div_pos; lia|apply Z.div_lt_upper_bound; lia]. }
    rewrite H32, H36, !join_words by lia. done.
  - destruct (Hlg eq_refl). rewrite !Z.mod_small by lia. done.
Qed.

(** The first seven bytes of a block are its base header. *)
Lemma memVolume_read_base pre hdr post :
  zlen (pre ++ hdr ++ post) <= i64_max -> 7 <= zlen hdr ->
  readAt (memVolume (pre ++ hdr ++ post)) (zlen pre) 7 = Some (take 7 hdr).
Proof.
  intros Hm H7.
  assert (Hl : zlen (take 7 hdr) = 7) by (unfold zlen in *; rewrite length_take; lia).
  assert (Heq : pre ++ hdr ++ post = pre ++ take 7 hdr ++ drop 7 hdr ++ post)
    by by rewrite (app_assoc (take 7 hdr)), take_drop.
  rewrite Heq in *. pose proof (memVolume_read pre (take 7 hdr) (drop 7 hdr ++ post) Hm) as Hr.
  by rewrite Hl in Hr.
Qed.

(** One step of the walk over a block that stands at the end of [pre]. *)
Lemma rar4_walk_step todo pre hdr post vol chunks bt flags ds c :
  zlen (pre ++ hdr ++ post) <= i64_max -> 7 <= zlen hdr ->
  take 7 hdr = [0; 0; bt] ++ le_bytes 2 flags ++ le_bytes 2 (zlen hdr) ->
  0 <= flags < 2 ^ 16 -> zlen hdr < 2 ^ 16 ->
  rar4Block bt flags hdr (zlen pre) vol = Val (ds, c) ->
  rar4_walk (S todo) (memVolume (pre ++ hdr ++ post)) vol (zlen pre) chunks =
  if bt =? rar4TypeEnd then Val (add_chunk chunks c)
  else rar4_walk todo (memVolume (pre ++ hdr ++ post)) vol
         (wrap_i64 (zlen pre + wrap_i64 (zlen hdr + ds))) (add_chunk chunks c).
Proof.
  intros Hm H7 Hb Hfl Hhs Hblk. cbn [rar4_walk].
  replace (zlen pre <? size _) with true.
  2:{ symmetry. apply Z.ltb_lt. simpl. autorewrite with unarr. pose proof (zlen_nonneg post). lia. }
  rewrite memVolume_read_base by done. cbn [or_fail obind]. rewrite Hb.
  change (byte_at _ 2) with (Val bt). cbn [obind].
  rewrite (u16_read _ 3 flags (le_bytes 2 (zlen hdr))) by (done || lia).
  rewrite (u16_read _ 5 (zlen hdr) []) by (done || lia).
  replace (zlen hdr <? 7) with false by (symmetry; apply Z.ltb_ge; lia).
  rewrite memVolume_read by done. cbn [or_fail obind]. rewrite Hblk. done.
Qed.

Lemma rar4_walk_body todo pre fs vol chunks :
  Forall r4valid fs -> (length fs < todo)%nat -> zlen (pre ++ r4body fs) <= i64_max ->
  rar4_walk todo (memVolume (pre ++ r4body fs)) vol (zlen pre) chunks =
  Val (chunks ++ r4chunks vol (zlen pre) fs).
Proof.
  intros Hv. revert todo pre chunks. induction Hv as [|f fs Hf Hfs IH];
    intros todo pre chunks Ht Hm; (destruct todo as [|todo]; [simpl in Ht; lia|]); cbn [r4body] in *.
  { rewrite <- (app_nil_r r4end) in *.
    rewrite (rar4_walk_step todo pre r4end [] vol chunks rar4TypeEnd 0 0 None); try done.
    simpl. by rewrite app_nil_r. }
  pose proof (zlen_nonneg pre) as Hp. pose proof (zlen_nonneg (r4data f)) as Hd.
  pose proof (zlen_nonneg (r4body fs)) as Hb. pose proof (zlen_nonneg (r4name f)) as Hnm.
  pose proof (r4header_length f) as Hhl. pose proof Hf as (Hn & _ & _).
  assert (Hsz : 32 <= r4headSize f < 2 ^ 16) by (unfold r4headSize; destruct (r4large f); lia).
  pose proof Hm as Hm'.
  rewrite (zlen_app pre), (zlen_app (r4header f)), (zlen_app (r4data f)), Hhl in Hm'.
  erewrite (rar4_walk_step todo pre (r4header f) _ vol chunks rar4TypeFile (r4flags f));
    [|done|lia|by rewrite Hhl|apply r4flags_range|lia|].
  2:{ change (rar4Block rar4TypeFile ?fl ?h ?p ?v) with (rar4FileBlock fl h p v).
      apply rar4FileBlock_header; [done|lia|lia|lia]. }
  replace (rar4TypeFile =? rar4TypeEnd) with false by done. cbn [add_chunk].
  rewrite Hhl. unfold i64_max in *.
  rewrite (wrap_i64_id (r4headSize f + _)) by (unfold is_i64, i64_min, i64_max; lia).
  rewrite wrap_i64_id by (unfold is_i64, i64_min, i64_max; lia).
  assert (Hpos : zlen pre + (r4headSize f + zlen (r4data f)) = zlen (pre ++ r4header f ++ r4data f)).
  { rewrite (zlen_app pre), (zlen_app (r4header f)). lia. }
  replace (pre ++ r4header f ++ r4data f ++ r4body fs)
    with ((pre ++ r4header f ++ r4data f) ++ r4body fs) in * by by rewrite <- !app_assoc.
  rewrite Hpos, (IH todo (pre ++ r4header f ++ r4data f)) by (done || simpl in Ht; lia).
  cbn [r4chunks]. rewrite <- app_assoc. cbn [app]. do 4 f_equal. lia.
Qed.

(** * Vints *)

Fixpoint enc_loop (todo : nat) (v : Z) : bytes :=
  match todo with
  | O => []
  | S todo' => if v <? 128 then [v] else (128 + v mod 128) :: enc_loop todo' (v / 128)
  end.
(** The RAR5 encoding of a uint64. *)
Definition enc_vint (v : Z) : bytes := enc_loop 10 v.

Lemma vint_byte c : 0 <= c < 256 -> Z.land c 127 = c mod 128 /\ (Z.land c 128 =? 0) = (c <? 128).
Proof.
  intros Hc.
  assert (Hall : forallb (fun c => (Z.land c 127 =? c mod 128) &&
    Bool.eqb (Z.land c 128 =? 0) (c <? 128)) (seqZ 0 256) = true) by (vm_compute; reflexivity).
  rewrite forallb_forall in Hall. specialize (Hall c).
  rewrite <- list_elem_of_In, elem_of_seqZ in Hall. specialize (Hall ltac:(lia)).
  apply andb_prop in Hall as [H1 H2]. bprop. split; [done|by apply Bool.eqb_prop].
Qed.

Lemma drop_lookup_cons (b : bytes) n x r : drop n b = x :: r -> b !! n = Some x /\ drop (S n) b = r.
Proof.
  intros H. split.
  - pose proof (lookup_drop b n 0) as Hl. rewrite H, Nat.add_0_r in Hl. by symmetry.
  - replace (S n) with (n + 1)%nat by lia. rewrite <- drop_drop, H. done.
Qed.

Lemma enc_vint_pos v : 0 < zlen (enc_vint v).
Proof.
  change (enc_vint v) with (enc_loop (S 9) v). generalize 9%nat. intros n. cbn [enc_loop]. destruct (v <? 128); rewrite zlen_cons;
    [rewrite zlen_nil; lia|pose proof (zlen_nonneg (enc_loop n (v / 128))); lia].
Qed.

(** The signature a volume starts with. *)
Lemma memVolume_signature sig rest :
  zlen sig = 8 -> zlen (sig ++ rest) <= i64_max ->
  readAt (memVolume (sig ++ rest)) 0 8 = Some sig.
Proof.
  intros H8 Hm. pose proof (memVolume_read [] sig rest Hm) as Hr. by rewrite H8 in Hr.
Qed.

Lemma rar4_walk_volume todo fs vol :
  Forall r4valid fs -> (length fs < todo)%nat -> zlen (r4volume fs) <= i64_max ->
  rar4_walk (S todo) (memVolume (r4volume fs)) vol 7 [] = Val (r4chunks vol 20 fs).
Proof.
  intros Hv Hf Hm. unfold r4volume in *.
  pose proof (rar4_walk_step todo rar4Marker r4main (r4body fs) vol [] rar4TypeMain 0 0 None) as Hs.
  change (zlen rar4Marker) with 7 in Hs. rewrite Hs by done.
  change (rar4TypeMain =? rar4TypeEnd) with false. cbn [add_chunk].
  change (wrap_i64 (7 + wrap_i64 (zlen r4main + 0))) with (zlen (rar4Marker ++ r4main)).
  rewrite app_assoc in *. rewrite rar4_walk_body by done. done.
Qed.

(** * Claims *)

(** The RAR4 walker is total on hostile input: over any volume source that
    keeps its promises and any byte content, it never panics and never runs
    past its block bound, and every chunk it reports carries the caller's
    volume index, starts inside the container and has in-range sizes. *)
Lemma parseRar4_total content vs vol :
  Lawful content vs -> wf_bytes content ->
  safe (Forall (chunk_in vol (size vs))) (parseRar4 vs vol).
Proof. intros Hl Hw. by apply (rar4_walk_safe content). Qed.

(** A RAR4 volume read back: for any files laid out by the format (64-bit
    sizes with the LARGE flag included), parsing the volume yields exactly one
    chunk per file, in order, with its base name, data position, sizes, method
    and encryption flag. *)
Lemma parseVolume_rar4_roundtrip fuel fs vol :
  Forall r4valid fs -> Z.of_nat (length fs) < rar4MaxBlocks - 1 -> zlen (r4volume fs) <= i64_max ->
  parseVolume fuel (memVolume (r4volume fs)) vol = Val (r4chunks vol 20 fs).
Proof.
  intros Hv Hn Hm. unfold parseVolume.
  assert (Hsig : r4volume fs = (rar4Marker ++ [0]) ++ drop 1 r4main ++ r4body fs) by done.
  rewrite Hsig at 1. rewrite memVolume_signature by (done || by rewrite <- Hsig).
  cbn [or_fail obind]. change (bytes_eqb (rar4Marker ++ [0]) rar5Marker) with false.
  change (slice_of (rar4Marker ++ [0]) 0 7) with (Val rar4Marker).
  cbn [obind]. change (bytes_eqb rar4Marker rar4Marker) with true. cbn match.
  unfold parseRar4. destruct (Z.to_nat rar4MaxBlocks) as [|todo] eqn:Et; [lia|].
  apply rar4_walk_volume; [done|lia|done].
Qed.

(** A two-file volume, one of them LARGE. *)
Definition demo_r4 : list rar4File :=
  [mkR4 (str "dir\movie.mkv") [1; 2; 3] 3 48 false true; mkR4 (str "a.nfo") [9] 1 51 true false].

Lemma demo_r4_valid : Forall r4valid demo_r4.
Proof. repeat constructor; vm_compute; congruence. Defined.

(** The in-memory volume meets the source interface for the demo volume. *)
Lemma parseRar4_total_witness :
  Lawful (r4volume demo_r4) (memVolume (r4volume demo_r4)) /\ wf_bytes (r4volume demo_r4) /\
  safe (Forall (chunk_in 0 (size (memVolume (r4volume demo_r4))))) (parseRar4 (memVolume (r4volume demo_r4)) 0).
Proof.
  assert (Hl : Lawful (r4volume demo_r4) (memVolume (r4volume demo_r4)))
    by (apply memVolume_lawful; vm_compute; congruence).
  assert (Hw : wf_bytes (r4volume demo_r4))
    by (refine (bool_decide_unpack _ _); vm_compute; exact I).
  split; [exact Hl|]. split; [exact Hw|].
  exact (parseRar4_total (r4volume demo_r4) (memVolume (r4volume demo_r4)) 0 Hl Hw).
Defined.

(** The demo volume comes back. *)
Lemma parseVolume_rar4_roundtrip_witness :
  parseVolume 0 (memVolume (r4volume demo_r4)) 7 = Val (r4chunks 7 20 demo_r4) /\
  map cname (r4chunks 7 20 demo_r4) = [str "movie.mkv"; str "a.nfo"].
Proof.
  split; [|vm_compute; reflexivity].
  apply (parseVolume_rar4_roundtrip 0 demo_r4 7 demo_r4_valid); [reflexivity|vm_compute; congruence].
Defined.
