(* ===== verification/Rar5Roundtrip.v ===== *)
(** RAR 5.0 volumes written by the book are read back: the round trip of the
    header walker of internal/usenet/stream/rar5.go, and what it does with
    lengths at or above 2^63. *)
From Stdlib Require Import ZArith Lia Ascii String.
From stdpp Require Import prelude list strings.
From S2P Require Import Prelude GoStrings RarParse.

Open Scope Z_scope.
Open Scope go_scope.

(** * A RAR5 writer *)

(** A vint in [w] bytes, and in as many as are asked for and fit: a writer may pad. *)
Fixpoint enc_pad (w : nat) (v : Z) : bytes :=
  match w with
  | O => []
  | S O => [v]
  | S w' => (128 + v mod 128) :: enc_pad w' (v / 128)
  end.
Definition width (w : nat) (v : Z) : nat := Nat.max (length (enc_vint v)) (Nat.min 10 w).
Definition ev (w : nat) (v : Z) : bytes := enc_pad (width w v) v.
Definition opt_vint (w : nat) (o : option Z) : bytes := match o with Some v => ev w v | None => [] end.
Definition opt_bytes (o : option bytes) : bytes := default [] o.

(** An extra-area record: its type and payload. *)
Definition record_body (w : nat -> nat) (r : Z * bytes) : bytes := ev (w 11%nat) (fst r) ++ snd r.
Definition enc_record (w : nat -> nat) (r : Z * bytes) : bytes := ev (w 12%nat) (zlen (record_body w r)) ++ record_body w r.
Definition enc_extra (w : nat -> nat) (rs : list (Z * bytes)) : bytes := concat (map (enc_record w) rs).

(** What all headers begin with: type, flags, and the sizes of the extra and the data area
    when there are such.  [more] are the other flags, those of a split file included. *)
Definition r5flags (more : Z) (ex da : option Z) : Z :=
  4 * more + ((match ex with Some _ => 1 | None => 0 end) + (match da with Some _ => 2 | None => 0 end)).
Definition r5prefix (w : nat -> nat) (t more : Z) (ex da : option Z) : bytes :=
  ev (w 0%nat) t ++ ev (w 1%nat) (r5flags more ex da) ++ opt_vint (w 2%nat) ex ++ opt_vint (w 3%nat) da.

(** A file: [r5w] asks for the width of each of its vints, [r5sum] is the checksum of the
    header, [r5data] its data area if it has one, [r5more] and [r5fmore] are flags the
    reader does not look at. *)
Record rar5File := mkR5 {
  r5name : bytes; r5data : option bytes; r5unp : Z; r5attr : Z; r5comp : Z; r5host : Z;
  r5mtime : option bytes; r5crc : option bytes; r5extra : list (Z * bytes);
  r5w : nat -> nat; r5sum : bytes; r5more : Z; r5fmore : Z; r5dir : bool
}.
Definition r5area (f : rar5File) : bytes := enc_extra (r5w f) (r5extra f).
Definition r5fileFlags (f : rar5File) : Z :=
  16 * r5fmore f + ((if r5dir f then 1 else 0) + (match r5mtime f with Some _ => 2 | None => 0 end) + (match r5crc f with Some _ => 4 | None => 0 end)).
(** The file header, field by field. *)
Definition r5tail (f : rar5File) : bytes :=
  ev (r5w f 8%nat) (r5host f) ++ ev (r5w f 9%nat) (zlen (r5name f)) ++ r5name f ++ r5area f.
Definition r5fileFields (f : rar5File) : bytes :=
  ev (r5w f 4%nat) (r5fileFlags f) ++ ev (r5w f 5%nat) (r5unp f) ++ ev (r5w f 6%nat) (r5attr f) ++
  opt_bytes (r5mtime f) ++ opt_bytes (r5crc f) ++ ev (r5w f 7%nat) (r5comp f) ++ r5tail f.
Definition r5exSize (f : rar5File) : option Z := match r5extra f with [] => None | _ => Some (zlen (r5area f)) end.
Definition r5daSize (f : rar5File) : option Z := match r5data f with Some d => Some (zlen d) | None => None end.
Definition r5header (f : rar5File) : bytes :=
  r5prefix (r5w f) rar5TypeFile (r5more f) (r5exSize f) (r5daSize f) ++ r5fileFields f.

(** Any other block: a main header, a service header with its data, the end of the archive,
    or a type not known. *)
Record rar5Other := mkO5 {
  o5type : Z; o5more : Z; o5exSize : option Z; o5data : option bytes; o5rest : bytes; o5w : nat -> nat; o5sum : bytes
}.
Definition o5daSize (o : rar5Other) : option Z := match o5data o with Some d => Some (zlen d) | None => None end.
Definition o5header (o : rar5Other) : bytes := r5prefix (o5w o) (o5type o) (o5more o) (o5exSize o) (o5daSize o) ++ o5rest o.

Definition word4 (o : option bytes) : Prop := match o with Some b => zlen b = 4 | None => True end.
Definition is_u64 (z : Z) : Prop := 0 <= z < 2 ^ 64.
Record r5valid (f : rar5File) : Prop := {
  v5_unp : 0 <= r5unp f <= i64_max;
  v5_attr : is_u64 (r5attr f);
  v5_comp : is_u64 (r5comp f);
  v5_host : is_u64 (r5host f);
  v5_mtime : word4 (r5mtime f);
  v5_crc : word4 (r5crc f);
  v5_types : Forall (fun r => is_u64 (fst r)) (r5extra f);
  v5_sum : zlen (r5sum f) = 4;
  v5_more : 0 <= r5more f < 2 ^ 62;
  v5_fmore : 0 <= r5fmore f < 2 ^ 60
}.
Record o5valid (o : rar5Other) : Prop := {
  vo_type : is_u64 (o5type o) /\ o5type o <> rar5TypeFile;
  vo_ex : forall e, o5exSize o = Some e -> is_u64 e;
  vo_sum : zlen (o5sum o) = 4;
  vo_more : 0 <= o5more o < 2 ^ 62
}.

Definition r5stored (f : rar5File) : bool := Z.shiftr (Z.land (r5comp f) 896) 7 =? 0.
Definition r5encrypted (f : rar5File) : bool := existsb (fun r => fst r =? 1) (r5extra f).
Definition r5decoded (f : rar5File) : rar5Header :=
  mkH5 rar5TypeFile (zlen (opt_bytes (r5data f))) (rarBaseName (r5name f)) (r5unp f) (r5stored f) (r5encrypted f).

Definition r5block (w : nat) (sum hdr data : bytes) : bytes := sum ++ ev w (zlen hdr) ++ hdr ++ data.
Definition r5dataStart (w : nat) (pos : Z) (hdr : bytes) : Z := pos + 4 + zlen (ev w (zlen hdr)) + zlen hdr.
(** The blocks of a volume, its end block, and whatever follows that. *)
Inductive r5item := IFile (f : rar5File) | IOther (o : rar5Other).
Definition item_w (i : r5item) : nat := match i with IFile f => r5w f 10%nat | IOther o => o5w o 10%nat end.
Definition item_sum (i : r5item) : bytes := match i with IFile f => r5sum f | IOther o => o5sum o end.
Definition item_hdr (i : r5item) : bytes := match i with IFile f => r5header f | IOther o => o5header o end.
Definition item_data (i : r5item) : bytes := opt_bytes match i with IFile f => r5data f | IOther o => o5data o end.
Definition item_ok (fuel : nat) (i : r5item) : Prop :=
  match i with IFile f => r5valid f /\ (length (r5extra f) < fuel)%nat | IOther o => o5valid o /\ o5type o <> rar5TypeEnd end.
Definition r5write (i : r5item) : bytes := r5block (item_w i) (item_sum i) (item_hdr i) (item_data i).
Definition r5body (items : list r5item) (e : rar5Other) (post : bytes) : bytes := concat (map r5write items) ++ r5write (IOther e) ++ post.
Definition r5volume (items : list r5item) (e : rar5Other) (post : bytes) : bytes := rar5Marker ++ r5body items e post.
Fixpoint r5chunks (vol pos : Z) (items : list r5item) : list rarChunk :=
  match items with
  | [] => []
  | i :: items' =>
      let start := r5dataStart (item_w i) pos (item_hdr i) in
      (match i with IFile f => [rar5FileChunk (r5decoded f) start vol] | IOther _ => [] end)
      ++ r5chunks vol (start + zlen (item_data i)) items'
  end.

(** * Padded vints *)

Lemma enc_pad_length w v : length (enc_pad w v) = w.
Proof. revert v. induction w as [|[|w] IH]; intros v; [done|done|]. change (S (length (enc_pad (S w) (v / 128))) = S (S w)). by rewrite IH. Qed.
Lemma enc_loop_short n v : zlen (enc_loop n v) <= Z.of_nat n.
Proof.
  revert v. induction n as [|n IH]; intros v; cbn [enc_loop]; [done|].
  destruct (v <? 128); rewrite zlen_cons; [rewrite zlen_nil; lia|]. specialize (IH (v / 128)). lia.
Qed.
(** The shortest encoding is long enough. *)
Lemma enc_loop_fits n v : 0 <= v < 128 ^ Z.of_nat n -> v < 128 ^ zlen (enc_loop n v).
Proof.
  revert v. induction n as [|n IH]; intros v Hv; cbn [enc_loop]; [exact (proj2 Hv)|].
  destruct (Z.ltb_spec v 128) as [Lt|Ge]; [change (zlen [v]) with 1; by rewrite Z.pow_1_r|]. rewrite zlen_cons.
  rewrite Nat2Z.inj_succ, Z.pow_succ_r in Hv by lia. assert (Hq : 0 <= v / 128 < 128 ^ Z.of_nat n).
  { split; [apply Z.div_pos; lia|]. apply Z.div_lt_upper_bound; lia. }
  specialize (IH _ Hq). pose proof (zlen_nonneg (enc_loop n (v / 128))). rewrite Z.add_comm, Z.pow_add_r by lia. change (128 ^ 1) with 128.
  pose proof (Z.div_mod v 128 ltac:(lia)). pose proof (Z.mod_pos_bound v 128 ltac:(lia)). nia.
Qed.
Lemma width_bounds w v : (1 <= width w v <= 10)%nat.
Proof. unfold width. pose proof (enc_vint_pos v). pose proof (enc_loop_short 10 v) as Hs. fold (enc_vint v) in Hs. unfold zlen in *. lia. Qed.
Lemma width_fits w v : is_u64 v -> v < 128 ^ Z.of_nat (width w v).
Proof.
  intros [Hv1 Hv2]. pose proof (enc_loop_fits 10 v ltac:(lia)) as H. fold (enc_vint v) in H. eapply Z.lt_le_trans; [exact H|]. apply Z.pow_le_mono_r; [lia|]. unfold width, zlen. lia.
Qed.
Lemma ev_pos w v : 0 < zlen (ev w v).
Proof. unfold ev, zlen. rewrite enc_pad_length. pose proof (width_bounds w v). lia. Qed.
Lemma ev_short w v : zlen (ev w v) <= 10.
Proof. unfold ev, zlen. rewrite enc_pad_length. pose proof (width_bounds w v). lia. Qed.
Lemma vint_loop_pad w : forall todo b off i val shift v rest,
  (1 <= w <= todo)%nat -> 0 <= v < 128 ^ Z.of_nat w -> 0 <= shift -> v * 2 ^ shift < 2 ^ 64 ->
  0 <= val < 2 ^ shift -> 0 <= off -> 0 <= i -> zlen b <= i64_max ->
  drop (Z.to_nat (off + i)) b = enc_pad w v ++ rest ->
  vint_loop todo b off i val shift = Val (Some (val + v * 2 ^ shift, i + Z.of_nat w)).
Proof.
  induction w as [|w IH]; [lia|]. intros [|todo] b off i val shift v rest Hw Hv Hs Hvs Hval Ho Hi Hlen Hd; [lia|].
  assert (Hpow : 0 < 2 ^ shift) by lia.
  set (c := match w with O => v | S _ => 128 + v mod 128 end).
  pose proof (Z.mod_pos_bound v 128 ltac:(lia)) as Hmb.
  assert (Hc : 0 <= c < 256 /\ c mod 128 = v mod 128 /\ (c <? 128) = match w with O => true | S _ => false end).
  { unfold c. destruct w as [|w].
    - cbn in Hv. split_and!; [lia|lia|done|apply Z.ltb_lt; lia].
    - split_and!; [lia|lia| |apply Z.ltb_ge; lia]. rewrite <- Zplus_mod_idemp_l. change (128 mod 128) with 0. simpl. apply Z.mod_mod. lia. }
  destruct Hc as (Hcr & Hcm & Hcl). destruct (vint_byte c Hcr) as [Hl1 Hl2].
  assert (Hb : exists r, drop (Z.to_nat (off + i)) b = c :: r /\ (w <> O -> r = enc_pad w (v / 128) ++ rest)).
  { rewrite Hd. unfold c. destruct w as [|w]; eexists; split; [reflexivity|done|reflexivity|done]. }
  destruct Hb as (r & Hdr & Hr). apply drop_lookup_cons in Hdr as [Hlk Hdr].
  assert (Hin : off + i < zlen b). { apply lookup_lt_Some in Hlk. unfold zlen. lia. }
  cbn [vint_loop]. unfold i64_max in *.
  rewrite wrap_i64_id by (unfold is_i64, i64_min, i64_max; lia).
  replace (zlen b <=? off + i) with false by (symmetry; apply Z.leb_gt; lia).
  unfold byte_at. replace (off + i <? 0) with false by (symmetry; apply Z.ltb_ge; lia).
  rewrite Hlk. cbn [obind]. rewrite Hl1, Hl2, Hcm, Hcl.
  pose proof (Z.div_mod v 128 ltac:(lia)) as Hdm.
  pose proof (Z.div_pos v 128 ltac:(lia) ltac:(lia)) as Hdp.
  assert (Hsw : wrap_u64 (Z.shiftl (v mod 128) shift) = Z.shiftl (v mod 128) shift).
  { unfold wrap_u64. rewrite Z.shiftl_mul_pow2 by done. apply Z.mod_small. nia. }
  rewrite Hsw, lor_shiftl_add by done. destruct w as [|w].
  - cbn in Hv. rewrite Z.mod_small by lia. done.
  - rewrite (IH todo b off (i + 1) _ (shift + 7) (v / 128) rest); try lia.
    + rewrite Z.pow_add_r by lia. do 3 f_equal; [|lia]. rewrite Hdm at 3. change (2 ^ 7) with 128. ring.
    + rewrite Nat2Z.inj_succ, Z.pow_succ_r in Hv by lia. split; [done|]. apply Z.div_lt_upper_bound; lia.
    + rewrite Z.pow_add_r by lia. change (2 ^ 7) with 128. nia.
    + rewrite Z.pow_add_r by lia. change (2 ^ 7) with 128. nia.
    + replace (Z.to_nat (off + (i + 1))) with (S (Z.to_nat (off + i))) by lia. rewrite Hdr. by apply Hr.
Qed.
(** A vint of the header read where it was written, and what follows it. *)
Lemma ev_read b p w v rest reason :
  is_u64 v -> 0 <= p -> zlen b <= i64_max ->
  drop (Z.to_nat p) b = ev w v ++ rest ->
  readVint b p = Val (Some (v, zlen (ev w v))) /\
  vint b p reason = Val (v, zlen (ev w v)) /\
  wrap_i64 (p + zlen (ev w v)) = p + zlen (ev w v) /\
  drop (Z.to_nat (p + zlen (ev w v))) b = rest.
Proof.
  intros Hv Hp Hlen Hd. pose proof (width_bounds w v) as Hw. pose proof (width_fits w v Hv) as Hf. destruct Hv as [Hv1 Hv2].
  assert (Hr : readVint b p = Val (Some (v, zlen (ev w v)))).
  { unfold readVint. rewrite (vint_loop_pad (width w v) 10 b p 0 0 0 v rest); try lia.
    - unfold ev, zlen. rewrite enc_pad_length. do 3 f_equal; lia.
    - by rewrite Z.add_0_r. }
  assert (Hdl : zlen (drop (Z.to_nat p) b) = zlen (ev w v) + zlen rest) by (rewrite Hd; apply zlen_app).
  split; [done|]. split; [unfold vint; by rewrite Hr|].
  pose proof (zlen_nonneg (ev w v)). pose proof (zlen_nonneg rest). pose proof (ev_pos w v) as Hpos.
  unfold zlen in Hdl at 1. rewrite length_drop in Hdl. unfold zlen in Hlen.
  split; [apply wrap_i64_id; unfold is_i64, i64_min, i64_max in *; lia|].
  replace (Z.to_nat (p + zlen (ev w v))) with (Z.to_nat p + length (ev w v))%nat by (unfold zlen; lia).
  by rewrite <- drop_drop, Hd, drop_app_length.
Qed.

(** * The extra area *)

Lemma crypt_loop_records fuel w area p rs :
  0 <= p -> zlen area <= i64_max -> Forall (fun r => is_u64 (fst r)) rs ->
  (length rs < fuel)%nat -> drop (Z.to_nat p) area = enc_extra w rs -> p <= zlen area ->
  crypt_loop fuel area p = Val (existsb (fun r => fst r =? 1) rs).
Proof.
  intros Hp Hlen Hrs. revert fuel p Hp. induction Hrs as [|[t pl] rs Ht Hrs IH];
    intros fuel p Hp Hf Hd Hle; (destruct fuel as [|fuel]; [simpl in Hf; lia|]); cbn [crypt_loop].
  { replace (p <? zlen area) with false; [done|]. symmetry. apply Z.ltb_ge.
    apply (f_equal length) in Hd. rewrite length_drop in Hd. simpl in Hd. unfold zlen. lia. }
  simpl in Ht. change (enc_extra w ((t, pl) :: rs)) with (enc_record w (t, pl) ++ enc_extra w rs) in Hd.
  unfold enc_record, record_body in Hd. simpl fst in Hd. simpl snd in Hd.
  rewrite <- !app_assoc in Hd.
  assert (Hdl : zlen area - p = zlen (drop (Z.to_nat p) area)).
  { unfold zlen. rewrite length_drop. unfold zlen in Hle. lia. }
  rewrite Hd, !zlen_app in Hdl.
  pose proof (ev_pos (w 11%nat) t) as Hpt. pose proof (zlen_nonneg pl). pose proof (zlen_nonneg (enc_extra w rs)).
  set (sz := zlen (ev (w 11%nat) t) + zlen pl) in *.
  pose proof (ev_pos (w 12%nat) sz) as Hps. unfold i64_max in *.
  replace (p <? zlen area) with true by (symmetry; apply Z.ltb_lt; lia).
  rewrite zlen_app in Hd. fold sz in Hd.
  destruct (ev_read area p _ sz _ "" ltac:(unfold is_u64; lia) Hp Hlen Hd) as (-> & _ & Hw & Hd').
  cbn [obind]. replace (sz =? 0) with false by (symmetry; apply Z.eqb_neq; lia).
  rewrite Hw. rewrite (wrap_i64_id sz) by (unfold is_i64, i64_min, i64_max; lia).
  rewrite wrap_i64_id by (unfold is_i64, i64_min, i64_max; lia).
  replace (zlen area <? _) with false by (symmetry; apply Z.ltb_ge; lia).
  destruct (ev_read area (p + zlen (ev (w 12%nat) sz)) _ t _ "" Ht ltac:(lia) Hlen Hd') as (-> & _ & _ & Hd2).
  cbn [obind existsb fst]. destruct (t =? 1) eqn:Et; [done|]. simpl.
  apply IH; [lia|simpl in Hf; lia| |lia].
  replace (Z.to_nat _) with (Z.to_nat (p + zlen (ev (w 12%nat) sz) + zlen (ev (w 11%nat) t)) + length pl)%nat
    by (unfold sz, zlen; lia).
  rewrite <- drop_drop, Hd2. apply drop_app_length.
Qed.

Lemma rar5HasCrypt_records fuel w pre rs :
  zlen (pre ++ enc_extra w rs) <= i64_max -> Forall (fun r => is_u64 (fst r)) rs ->
  (length rs < fuel)%nat ->
  rar5HasCrypt fuel (pre ++ enc_extra w rs) (zlen (enc_extra w rs)) =
  Val (existsb (fun r => fst r =? 1) rs).
Proof.
  intros Hlen Hrs Hf. unfold rar5HasCrypt. rewrite zlen_app in *.
  pose proof (zlen_nonneg pre). pose proof (zlen_nonneg (enc_extra w rs)).
  destruct (zlen (enc_extra w rs) <=? 0) eqn:E; bprop.
  { destruct rs as [|[t pl] rs]; [done|]. exfalso.
    change (enc_extra w ((t, pl) :: rs)) with (enc_record w (t, pl) ++ enc_extra w rs) in E.
    rewrite zlen_app in E. unfold enc_record in E. rewrite zlen_app in E.
    pose proof (ev_pos (w 12%nat) (zlen (record_body w (t, pl)))). pose proof (zlen_nonneg (record_body w (t, pl))).
    pose proof (zlen_nonneg (enc_extra w rs)). lia. }
  replace (_ <? _) with false by (symmetry; apply Z.ltb_ge; lia).
  replace (drop _ _) with (enc_extra w rs).
  2:{ rewrite Z.add_simpl_r. unfold zlen. rewrite Nat2Z.id. by rewrite drop_app_length. }
  apply (crypt_loop_records _ w); try done; lia.
Qed.

(** * The file header *)

Definition is_some {A} (o : option A) : bool := match o with Some _ => true | None => false end.

(** Bytes of the header that the cursor steps over. *)
Lemma skip_bytes b p m rest :
  0 <= p -> zlen b <= i64_max -> drop (Z.to_nat p) b = m ++ rest -> p <= zlen b ->
  wrap_i64 (p + zlen m) = p + zlen m /\ 0 <= p + zlen m <= zlen b /\
  drop (Z.to_nat (p + zlen m)) b = rest.
Proof.
  intros Hp Hlen Hd Hle.
  assert (Hdl : zlen b - p = zlen m + zlen rest).
  { rewrite <- zlen_app, <- Hd. unfold zlen in *. rewrite length_drop. lia. }
  pose proof (zlen_nonneg m). pose proof (zlen_nonneg rest).
  split; [apply wrap_i64_id; unfold is_i64, i64_min; lia|]. split; [lia|].
  replace (Z.to_nat (p + zlen m)) with (Z.to_nat p + length m)%nat by (unfold zlen; lia).
  by rewrite <- drop_drop, Hd, drop_app_length.
Qed.

Lemma skip_word b p o rest :
  word4 o -> 0 <= p -> zlen b <= i64_max -> drop (Z.to_nat p) b = opt_bytes o ++ rest -> p <= zlen b ->
  (if is_some o then wrap_i64 (p + 4) else p) = p + zlen (opt_bytes o) /\
  0 <= p + zlen (opt_bytes o) <= zlen b /\
  drop (Z.to_nat (p + zlen (opt_bytes o))) b = rest.
Proof.
  intros Ho Hp Hlen Hd Hle. pose proof (skip_bytes b p _ rest Hp Hlen Hd Hle) as (Hw & Hr & Hd').
  split; [|done]. destruct o as [w|]; simpl in *; [by rewrite <- Ho|rewrite zlen_nil; lia].
Qed.

(** Read the vint the cursor stands on; [Hd] becomes the rest of the header. *)
Ltac vnext Hd Hle :=
  match type of Hd with
  | drop (Z.to_nat ?p) ?b = ev ?w ?v ++ ?rest =>
      match goal with
      | |- context [vint b p ?r] =>
          let Hv := fresh in let Hw := fresh in let Hd' := fresh in
          let Hsk := fresh in let Hr := fresh in
          destruct (ev_read b p w v rest r) as (_ & Hv & Hw & Hd'); [| |done|exact Hd|];
          [try solve [done|unfold is_u64 in *; lia]|lia|];
          destruct (skip_bytes b p (ev w v) rest ltac:(lia) ltac:(done) Hd ltac:(lia)) as (Hsk & Hr & _);
          rewrite Hv; cbn [obind]; rewrite ?Hw; clear Hv Hw Hsk Hd Hle;
          rename Hd' into Hd; rename Hr into Hle;
          let q := fresh "q" in set (q := p + zlen (ev w v)) in *; clearbody q
      end
  end.

Lemma rar5FileName_read b p f :
  zlen b <= i64_max -> is_u64 (r5host f) -> 0 <= p <= zlen b ->
  drop (Z.to_nat p) b = r5tail f -> rar5FileName b p = Val (rarBaseName (r5name f)).
Proof.
  intros Hlen Hh Hle Hd. unfold r5tail in Hd. unfold rar5FileName.
  pose proof (zlen_nonneg (r5name f)) as Hnn.
  assert (Hnl : zlen (r5name f) <= i64_max).
  { pose proof (f_equal zlen Hd) as Hz. rewrite !zlen_app in Hz.
    unfold zlen in Hz at 1. rewrite length_drop in Hz.
    pose proof (zlen_nonneg (ev (r5w f 8%nat) (r5host f))). pose proof (zlen_nonneg (r5area f)).
    pose proof (zlen_nonneg (ev (r5w f 9%nat) (zlen (r5name f)))). unfold zlen in Hlen at 1. lia. }
  vnext Hd Hle. assert (is_u64 (zlen (r5name f))) by (unfold is_u64, i64_max in *; lia).
  vnext Hd Hle.
  match type of Hle with 0 <= ?q <= _ =>
    destruct (skip_bytes b q (r5name f) _ ltac:(lia) Hlen Hd ltac:(lia)) as (Hsk & Hr & _) end.
  rewrite (wrap_i64_id (zlen (r5name f))) by (unfold is_i64, i64_min; lia). rewrite Hsk.
  replace (zlen b <? _) with false by (symmetry; apply Z.ltb_ge; lia).
  unfold slice_of.
  replace ((0 <=? _) && _ && _) with true by (symmetry; rewrite !andb_true_iff, !Z.leb_le; lia).
  cbn [obind]. rewrite Z.add_simpl_l, Hd. unfold zlen. rewrite Nat2Z.id.
  by rewrite take_app_length.
Qed.

(** A flag below [m], a power of two, whatever the higher bits. *)
Lemma flag_low m hi lo bit : In (m, bit) [(4, 1); (4, 2); (16, 2); (16, 4); (16, 8)] -> has_flag (m * hi + lo) bit = has_flag (lo mod m) bit.
Proof.
  intros H. unfold has_flag. f_equal. f_equal.
  assert (L : forall x, Z.land x bit = Z.land (x mod m) bit).
  { intros x. cbn in H. destruct H as [H|[H|[H|[H|[H|[]]]]]]; injection H as <- <-;
      [change 4 with (2 ^ 2)|change 4 with (2 ^ 2)|change 16 with (2 ^ 4) at 1|change 16 with (2 ^ 4)|change 16 with (2 ^ 4)];
      rewrite <- Z.land_ones, <- Z.land_assoc by done; done. }
  rewrite (L (m * hi + lo)), (L (lo mod m)). rewrite Z.mul_comm, Z.add_comm, Z_mod_plus_full, Z.mod_mod; [done|].
  cbn in H. destruct H as [H|[H|[H|[H|[H|[]]]]]]; injection H as <- <-; done.
Qed.
Lemma r5fileFlags_spec f :
  0 <= r5fmore f < 2 ^ 60 ->
  is_u64 (r5fileFlags f) /\ has_flag (r5fileFlags f) 8 = false /\
  has_flag (r5fileFlags f) 2 = is_some (r5mtime f) /\ has_flag (r5fileFlags f) 4 = is_some (r5crc f).
Proof.
  intros Hm. unfold r5fileFlags. split; [unfold is_u64; destruct (r5dir f), (r5mtime f), (r5crc f); lia|].
  rewrite !flag_low by (cbn; tauto). by destruct (r5dir f), (r5mtime f), (r5crc f).
Qed.
Lemma r5flags_spec more ex da :
  0 <= more < 2 ^ 62 ->
  is_u64 (r5flags more ex da) /\ has_flag (r5flags more ex da) 1 = is_some ex /\ has_flag (r5flags more ex da) 2 = is_some da.
Proof.
  intros Hm. unfold r5flags. split; [unfold is_u64; destruct ex, da; lia|]. rewrite !flag_low by (cbn; tauto). by destruct ex, da.
Qed.

Lemma parseRar5File_read fuel h b p f pre :
  r5valid f -> zlen b <= i64_max -> 0 <= p <= zlen b -> (length (r5extra f) < fuel)%nat ->
  b = pre ++ r5area f ->
  drop (Z.to_nat p) b = r5fileFields f ->
  parseRar5File fuel h b p (zlen (r5area f)) =
  Val (mkH5 (blockType h) (dataSize h) (rarBaseName (r5name f)) (r5unp f) (r5stored f) (r5encrypted f)).
Proof.
  intros [Hu Ha Hc Hh Hm Hcrc Hts _ _ Hfm] Hlen Hle Hf Hb Hd. unfold r5fileFields in Hd.
  destruct (r5fileFlags_spec f Hfm) as (Hff & H8 & H2 & H4). unfold parseRar5File.
  assert (Hu' : is_u64 (r5unp f)) by (unfold is_u64, i64_max in *; lia).
  vnext Hd Hle. rewrite H8, H2, H4. vnext Hd Hle. vnext Hd Hle.
  match type of Hle with 0 <= ?q <= _ =>
    destruct (skip_word b q _ _ Hm ltac:(lia) Hlen Hd ltac:(lia)) as (Hsk & Hr & Hd') end.
  rewrite Hsk. clear Hsk Hd Hle.
  match type of Hr with 0 <= ?q <= _ =>
    destruct (skip_word b q _ _ Hcrc ltac:(lia) Hlen Hd' ltac:(lia)) as (Hsk & Hle & Hd) end.
  rewrite Hsk. clear Hsk Hd' Hr. match type of Hle with 0 <= ?q <= _ => set (q' := q) in *; clearbody q' end.
  vnext Hd Hle. rewrite (rar5FileName_read b _ f) by done. cbn [obind].
  unfold r5area in *. rewrite Hb at 1. rewrite rar5HasCrypt_records by (done || by rewrite <- Hb). cbn [obind].
  rewrite (wrap_i64_id (r5unp f)); [done|]. unfold is_i64, i64_min. lia.
Qed.

(** The part all headers share; what follows it begins at [p]. *)
Ltac found Hd := match type of Hd with drop (Z.to_nat ?q) _ = _ => exists q; split; [lia|]; split; [exact Hd|reflexivity] end.
Lemma parseRar5Header_prefix fuel w t more ex da rest :
  is_u64 t -> 0 <= more < 2 ^ 62 -> (forall e, ex = Some e -> is_u64 e) -> (forall d, da = Some d -> 0 <= d <= i64_max) ->
  zlen (r5prefix w t more ex da ++ rest) <= i64_max ->
  let b := r5prefix w t more ex da ++ rest in let h := mkH5 t (default 0 da) [] 0 false false in
  exists p, 0 <= p <= zlen b /\ drop (Z.to_nat p) b = rest /\
    parseRar5Header fuel b = if negb (t =? rar5TypeFile) then Val h else parseRar5File fuel h b p (wrap_i64 (default 0 ex)).
Proof.
  intros Ht Hm He Hda Hlen b h. destruct (r5flags_spec more ex da Hm) as (Hfl & H1 & H2). unfold parseRar5Header.
  assert (Hd : drop (Z.to_nat 0) b = b) by done. unfold b in Hd at 2. unfold r5prefix in Hd. rewrite <- !app_assoc in Hd.
  assert (Hle : 0 <= 0 <= zlen b) by (pose proof (zlen_nonneg b); lia). fold b in Hlen. clearbody b.
  vnext Hd Hle. vnext Hd Hle. rewrite H1, H2.
  destruct ex as [e|]; cbn [opt_vint is_some default] in *; [specialize (He e eq_refl); vnext Hd Hle|rewrite app_nil_l in Hd; cbn [obind]].
  - destruct da as [d|]; cbn [opt_vint is_some default] in *; [specialize (Hda d eq_refl)|rewrite app_nil_l in Hd; cbn [obind]].
    + assert (is_u64 d) by (unfold is_u64, i64_max in *; lia). vnext Hd Hle. rewrite (wrap_i64_id d) by (unfold is_i64, i64_min; lia). found Hd.
    + found Hd.
  - destruct da as [d|]; cbn [opt_vint is_some default] in *; [specialize (Hda d eq_refl)|rewrite app_nil_l in Hd; cbn [obind]].
    + assert (is_u64 d) by (unfold is_u64, i64_max in *; lia). vnext Hd Hle. rewrite (wrap_i64_id d) by (unfold is_i64, i64_min; lia). found Hd.
    + found Hd.
Qed.

Lemma r5header_split f : exists pre, r5header f = pre ++ r5area f.
Proof.
  unfold r5header, r5fileFields, r5tail. eexists. rewrite !app_assoc. reflexivity.
Qed.

Lemma parseRar5Header_read fuel f :
  r5valid f -> (length (r5extra f) < fuel)%nat -> zlen (r5header f) + zlen (opt_bytes (r5data f)) <= i64_max ->
  parseRar5Header fuel (r5header f) = Val (r5decoded f).
Proof.
  intros Hv Hf Hsz. pose proof (zlen_nonneg (opt_bytes (r5data f))). destruct (r5header_split f) as [pre Hpre].
  pose proof (zlen_nonneg (r5area f)) as Ha. assert (Hal : zlen (r5area f) <= i64_max).
  { rewrite Hpre, zlen_app in Hsz. pose proof (zlen_nonneg pre). lia. }
  destruct (parseRar5Header_prefix fuel (r5w f) rar5TypeFile (r5more f) (r5exSize f) (r5daSize f) (r5fileFields f)) as (p & Hp & Hd & E).
  - done.
  - apply Hv.
  - unfold r5exSize. intros e He. destruct (r5extra f); [done|]. injection He as <-. unfold is_u64, i64_max in *. lia.
  - unfold r5daSize. intros d Hdd. pose proof (zlen_nonneg (r5header f)). destruct (r5data f) as [x|] eqn:Ed; [|done]. injection Hdd as <-. unfold opt_bytes in *. cbn in *. lia.
  - unfold r5header in Hsz. lia.
  - fold (r5header f) in *. rewrite E. change (negb (rar5TypeFile =? rar5TypeFile)) with false. cbn match.
    replace (wrap_i64 (default 0 (r5exSize f))) with (zlen (r5area f)).
    + rewrite (parseRar5File_read fuel _ _ p f pre) by (done || lia). unfold r5decoded. cbn. f_equal. f_equal. unfold r5daSize. by destruct (r5data f).
    + unfold r5exSize, r5area. destruct (r5extra f) as [|r rs] eqn:Er; [done|]. cbn [default]. symmetry. apply wrap_i64_id.
      unfold r5area in *. rewrite Er in *. unfold is_i64, i64_min. lia.
Qed.
Lemma parseRar5Header_other fuel o :
  o5valid o -> zlen (o5header o) + zlen (opt_bytes (o5data o)) <= i64_max ->
  parseRar5Header fuel (o5header o) = Val (mkH5 (o5type o) (zlen (opt_bytes (o5data o))) [] 0 false false).
Proof.
  intros [[Ht Ht'] He Hs Hm] Hsz. pose proof (zlen_nonneg (opt_bytes (o5data o))).
  destruct (parseRar5Header_prefix fuel (o5w o) (o5type o) (o5more o) (o5exSize o) (o5daSize o) (o5rest o)) as (p & Hp & Hd & E); try done.
  - unfold o5daSize. intros d Hdd. pose proof (zlen_nonneg (o5header o)). destruct (o5data o) as [x|] eqn:Ed; [|done]. injection Hdd as <-. unfold opt_bytes in *. cbn in *. lia.
  - unfold o5header in Hsz. lia.
  - unfold o5header. rewrite E. replace (o5type o =? rar5TypeFile) with false by (symmetry; by apply Z.eqb_neq). cbn. f_equal. f_equal. unfold o5daSize. by destruct (o5data o).
Qed.

(** * The block walk *)

(** What the size probe reads: at most 16 bytes, the vint among them. *)
Lemma probe_read pre rest w v n :
  zlen (pre ++ ev w v ++ rest) <= i64_max -> is_u64 v ->
  n = Z.min 16 (zlen (ev w v ++ rest)) ->
  exists probe, readAt (memVolume (pre ++ ev w v ++ rest)) (zlen pre) n = Some probe /\
    readVint probe 0 = Val (Some (v, zlen (ev w v))).
Proof.
  intros Hm Hv Hn. set (body := ev w v ++ rest) in *.
  pose proof (ev_short w v) as Hs.
  pose proof (zlen_nonneg rest). pose proof (ev_pos w v). pose proof (zlen_nonneg pre).
  assert (Hbl : zlen body = zlen (ev w v) + zlen rest) by (unfold body; apply zlen_app).
  assert (Htl : zlen (take (Z.to_nat n) body) = n).
  { unfold zlen in *. rewrite length_take. lia. }
  exists (take (Z.to_nat n) body). split.
  - pose proof (memVolume_read pre (take (Z.to_nat n) body) (drop (Z.to_nat n) body)) as Hr.
    rewrite take_drop, Htl in Hr. by apply Hr.
  - assert (Hd : drop (Z.to_nat 0) (take (Z.to_nat n) body) =
              ev w v ++ take (Z.to_nat n - length (ev w v)) rest).
    { change (drop (Z.to_nat 0) ?l) with l. unfold body. rewrite take_app.
      rewrite (take_ge (ev w v)) by (unfold zlen in *; lia). done. }
    rewrite zlen_app in Hm. unfold i64_max in *.
    apply (ev_read (take (Z.to_nat n) body) 0 w v _ "" Hv ltac:(lia)
             ltac:(rewrite Htl; unfold i64_max; lia) Hd).
Qed.

Lemma rar5Block_read fuel w sum pre hdr data post vol :
  zlen (pre ++ r5block w sum hdr data ++ post) <= i64_max -> zlen sum = 4 -> 0 < zlen hdr ->
  let start := r5dataStart w (zlen pre) hdr in
  rar5Block fuel (memVolume (pre ++ r5block w sum hdr data ++ post)) (zlen pre) vol =
  run h := parseRar5Header fuel hdr in
  if blockType h =? rar5TypeEnd then Val (None, None)
  else Val (Some (wrap_i64 (start + dataSize h)),
            if blockType h =? rar5TypeFile then Some (rar5FileChunk h start vol) else None).
Proof.
  intros Hm Hsum Hh start. set (k := zlen (ev w (zlen hdr))) in *.
  set (pre4 := pre ++ sum).
  assert (Hp4 : zlen pre4 = zlen pre + 4) by (unfold pre4; rewrite zlen_app; lia).
  assert (Heq : pre ++ r5block w sum hdr data ++ post =
                pre4 ++ ev w (zlen hdr) ++ hdr ++ data ++ post).
  { unfold pre4, r5block. by rewrite <- !app_assoc. }
  rewrite Heq in *. clear Heq.
  pose proof Hm as Hm'. rewrite !zlen_app in Hm'. fold k in Hm'.
  pose proof (zlen_nonneg pre). pose proof (zlen_nonneg data). pose proof (zlen_nonneg post).
  pose proof (ev_pos w (zlen hdr)) as Hk. fold k in Hk. unfold i64_max in *.
  set (rest := hdr ++ data ++ post) in *.
  assert (Hrl : zlen rest = zlen hdr + (zlen data + zlen post)) by (unfold rest; by rewrite !zlen_app).
  unfold rar5Block. rewrite (wrap_i64_id (zlen pre + 4)) by (unfold is_i64, i64_min, i64_max; lia).
  assert (Hav : wrap_i64 (size (memVolume (pre4 ++ ev w (zlen hdr) ++ rest)) - (zlen pre + 4)) = k + zlen rest).
  { simpl. rewrite !zlen_app. fold k. rewrite wrap_i64_id; [lia|]. unfold is_i64, i64_min, i64_max. lia. }
  rewrite Hav. replace (_ <=? 0) with false by (symmetry; apply Z.leb_gt; lia). rewrite <- Hp4.
  destruct (probe_read pre4 rest w (zlen hdr) (if k + zlen rest <? 16 then k + zlen rest else 16))
    as (probe & -> & Hpr); [done|unfold is_u64; lia| |].
  { rewrite zlen_app. fold k. destruct (k + zlen rest <? 16) eqn:E; bprop; lia. }
  cbn [or_fail obind]. rewrite Hpr. cbn [obind]. fold k.
  replace (zlen hdr =? 0) with false by (symmetry; apply Z.eqb_neq; lia).
  rewrite (wrap_i64_id (zlen hdr)) by (unfold is_i64, i64_min, i64_max; lia).
  rewrite (wrap_i64_id (zlen pre4 + k)) by (unfold is_i64, i64_min, i64_max; lia).
  rewrite (wrap_i64_id (zlen pre4 + k + zlen hdr)) by (unfold is_i64, i64_min, i64_max; lia).
  assert (Hrd : readAt (memVolume (pre4 ++ ev w (zlen hdr) ++ rest)) (zlen pre4 + k) (zlen hdr) = Some hdr).
  { unfold rest in *. rewrite (app_assoc pre4) in *. unfold k. rewrite <- zlen_app. by apply memVolume_read. }
  rewrite Hrd. cbn [or_fail obind].
  replace (zlen pre4 + k + zlen hdr) with start by (unfold start, r5dataStart; fold k; lia). done.
Qed.

Lemma item_hdr_pos i : 0 < zlen (item_hdr i).
Proof.
  assert (H : forall w t more ex da rest, 0 < zlen (r5prefix w t more ex da ++ rest)).
  { intros. unfold r5prefix. rewrite !zlen_app. pose proof (ev_pos (w 0%nat) t). repeat match goal with |- context [zlen ?x] => lazymatch goal with _ : 0 <= zlen x |- _ => fail | _ => pose proof (zlen_nonneg x) end end. lia. }
  destruct i; apply H.
Qed.

Lemma zlen_r5block w sum hdr data :
  zlen sum = 4 -> zlen (r5block w sum hdr data) = 4 + zlen (ev w (zlen hdr)) + zlen hdr + zlen data.
Proof. intros H. unfold r5block. rewrite !zlen_app. lia. Qed.
(** The header of an item, and what its block gives. *)
Lemma item_sum_ok fuel i : item_ok fuel i -> zlen (item_sum i) = 4.
Proof. destruct i; intros [H _]; apply H. Qed.

Lemma rar5_walk_body e post fuel vol : o5valid e -> o5type e = rar5TypeEnd -> forall items todo pre chunks,
  Forall (item_ok fuel) items -> (length items < todo)%nat -> zlen (pre ++ r5body items e post) <= i64_max ->
  rar5_walk todo fuel (memVolume (pre ++ r5body items e post)) vol (zlen pre) chunks =
  Val (chunks ++ r5chunks vol (zlen pre) items).
Proof.
  intros Ve Te. induction items as [|i items IH]; intros todo pre chunks Hx Ht Hm; (destruct todo as [|todo]; [simpl in Ht; lia|]);
    cbn [rar5_walk]; pose proof (zlen_nonneg pre).
  { change (r5body [] e post) with (r5write (IOther e) ++ post) in *. unfold r5write in *.
    pose proof (zlen_r5block (item_w (IOther e)) _ (item_hdr (IOther e)) (item_data (IOther e)) (vo_sum _ Ve)) as Hbl. cbn [item_sum] in *.
    pose proof (item_hdr_pos (IOther e)) as Hh. pose proof (ev_pos (item_w (IOther e)) (zlen (item_hdr (IOther e)))). pose proof (zlen_nonneg (item_data (IOther e))). pose proof (zlen_nonneg post).
    replace (zlen pre <? _) with true.
    2:{ symmetry. apply Z.ltb_lt. change (size (memVolume ?c)) with (zlen c). rewrite (zlen_app pre), (zlen_app (r5block _ _ _ _)), Hbl. lia. }
    rewrite rar5Block_read; [|done|apply Ve|done]. cbn [item_hdr]. rewrite parseRar5Header_other; [|done|].
    2:{ rewrite (zlen_app pre), (zlen_app (r5block _ _ _ _)), Hbl in Hm. unfold item_data in *. cbn [item_hdr] in *. lia. }
    cbn [obind blockType]. rewrite Te. cbn. by rewrite app_nil_r. }
  apply Forall_cons in Hx as [Hi Hx]. pose proof (item_sum_ok _ _ Hi) as Hsum.
  change (r5body (i :: items) e post) with (concat (r5write i :: map r5write items) ++ r5write (IOther e) ++ post) in *. cbn [concat] in *.
  rewrite <- (app_assoc (r5write i)) in *. fold (r5body items e post) in *. unfold r5write in *.
  pose proof (zlen_r5block (item_w i) _ (item_hdr i) (item_data i) Hsum) as Hbl.
  pose proof (item_hdr_pos i) as Hh. pose proof (ev_pos (item_w i) (zlen (item_hdr i))). pose proof (zlen_nonneg (item_data i)). pose proof (zlen_nonneg (r5body items e post)).
  replace (zlen pre <? _) with true.
  2:{ symmetry. apply Z.ltb_lt. change (size (memVolume ?c)) with (zlen c). rewrite (zlen_app pre), (zlen_app (r5block _ _ _ _)), Hbl. lia. }
  pose proof Hm as Hm'. rewrite (zlen_app pre), (zlen_app (r5block _ _ _ _)), Hbl in Hm'.
  assert (Hpos : r5dataStart (item_w i) (zlen pre) (item_hdr i) + zlen (item_data i) = zlen (pre ++ r5block (item_w i) (item_sum i) (item_hdr i) (item_data i))).
  { rewrite (zlen_app pre), Hbl. unfold r5dataStart. lia. }
  assert (Hblk : rar5Block fuel (memVolume (pre ++ r5block (item_w i) (item_sum i) (item_hdr i) (item_data i) ++ r5body items e post)) (zlen pre) vol
    = Val (Some (zlen (pre ++ r5block (item_w i) (item_sum i) (item_hdr i) (item_data i))),
           match i with IFile f => Some (rar5FileChunk (r5decoded f) (r5dataStart (item_w i) (zlen pre) (item_hdr i)) vol) | IOther _ => None end)).
  { rewrite rar5Block_read by done. destruct i as [f|o]; destruct Hi as [Hi Hi']; unfold item_data in *; cbn [item_hdr item_w item_sum] in *.
    - rewrite parseRar5Header_read by (done || lia). cbn [obind]. change (blockType (r5decoded f) =? rar5TypeEnd) with false.
      change (blockType (r5decoded f) =? rar5TypeFile) with true. change (dataSize (r5decoded f)) with (zlen (opt_bytes (r5data f))).
      cbn [obind]. rewrite Hpos, wrap_i64_id; [done|]. rewrite <- Hpos. unfold is_i64, i64_min, r5dataStart. lia.
    - rewrite parseRar5Header_other by (done || lia). cbn [obind blockType dataSize].
      replace (o5type o =? rar5TypeEnd) with false by (symmetry; by apply Z.eqb_neq). replace (o5type o =? rar5TypeFile) with false by (symmetry; apply Z.eqb_neq; apply Hi).
      rewrite Hpos, wrap_i64_id; [done|]. rewrite <- Hpos. unfold is_i64, i64_min, r5dataStart. lia. }
  rewrite Hblk. cbn [obind]. rewrite (app_assoc pre) in *.
  rewrite (IH todo (pre ++ r5block (item_w i) (item_sum i) (item_hdr i) (item_data i))) by (done || simpl in Ht; lia).
  cbn [r5chunks]. cbv zeta. rewrite <- Hpos. destruct i; cbn [add_chunk]; [by rewrite <- app_assoc|done].
Qed.

(** * Claims *)

(** C37: A RAR5 volume is read back.  The volume is its marker, any blocks before the end, an end block and whatever follows.
    The blocks are files, with or without a data area, modification time and checksum, with any extra-area records, any
    header flags besides the two sizes (those of a split file included), any file flags besides an unknown size; and
    blocks of any other type (main, service, unknown) with any sizes and contents.  Every vint may be padded, field by
    field, up to ten bytes.  Parsing yields exactly one chunk per file, in order, with its base name, the place and the
    size of its data, its unpacked size, whether it is stored, and encrypted exactly when its extra area holds a
    file-encryption record.  (Sizes are below 2^63, there are fewer than 100000 blocks, and the walk over a file's extra
    area is given more rounds than it has records.) *)
Theorem parseVolume_rar5_roundtrip fuel items e post vol :
  Forall (item_ok fuel) items -> o5valid e -> o5type e = rar5TypeEnd ->
  Z.of_nat (length items) < 100000 -> zlen (r5volume items e post) <= i64_max ->
  parseVolume fuel (memVolume (r5volume items e post)) vol = Val (r5chunks vol 8 items).
Proof.
  intros Hx Hv He Hn Hm. unfold parseVolume. unfold r5volume at 1.
  rewrite (memVolume_signature rar5Marker) by done. cbn [or_fail obind].
  change (bytes_eqb rar5Marker rar5Marker) with true. cbn match.
  unfold parseRar5. change 8 with (zlen rar5Marker). unfold r5volume. rewrite rar5_walk_body; [done|done|done|done| |done]. unfold rar5MaxBlocks. lia.
Qed.

(** ** Lengths at or above 2^63 *)

(** The block walk ends with the panic or the endless scan of its first header. *)
Lemma parseVolume_first_header fuel hdr data vol :
  zlen (rar5Marker ++ r5block 1 [0; 0; 0; 0] hdr data) <= i64_max -> 0 < zlen hdr ->
  parseRar5Header fuel hdr = Panics \/ parseRar5Header fuel hdr = Running ->
  parseVolume fuel (memVolume (rar5Marker ++ r5block 1 [0; 0; 0; 0] hdr data)) vol =
  run _ := parseRar5Header fuel hdr in Val [].
Proof.
  intros Hm Hh Ho. unfold parseVolume.
  rewrite (memVolume_signature rar5Marker) by done. cbn [or_fail obind].
  change (bytes_eqb rar5Marker rar5Marker) with true. cbn match.
  unfold parseRar5. destruct (Z.to_nat rar5MaxBlocks) as [|todo] eqn:Et; [unfold rar5MaxBlocks in Et; lia|]. cbn [rar5_walk].
  rewrite <- (app_nil_r (r5block 1 [0; 0; 0; 0] hdr data)) in *. change 8 with (zlen rar5Marker).
  replace (zlen rar5Marker <? _) with true.
  2:{ symmetry. apply Z.ltb_lt. change (size (memVolume ?c)) with (zlen c).
      rewrite (zlen_app rar5Marker), (zlen_app (r5block _ _ _ _)), zlen_r5block by done.
      pose proof (ev_pos 1 (zlen hdr)). pose proof (zlen_nonneg data). rewrite zlen_nil. lia. }
  rewrite rar5Block_read by done. by destruct Ho as [-> | ->].
Qed.

(** A file header whose name length is the vint 2^64 - 1. *)
Definition huge_name_header : bytes :=
  [2; 0] ++ [0; 3; 0; 0] ++ [0] ++ enc_vint (2 ^ 64 - 1) ++ str "a.mkv".
(** A file header whose one extra record declares 2^64 - 10 bytes: as an int
    that is -10, exactly the length of the size field. *)
Definition loop_header : bytes :=
  [2; 1; 11] ++ [0; 3; 0; 0] ++ [0; 5] ++ str "a.mkv" ++ enc_vint (2 ^ 64 - 10) ++ [2].

Lemma loop_header_step fuel :
  crypt_loop (S fuel) (enc_vint (2 ^ 64 - 10) ++ [2]) 0 = crypt_loop fuel (enc_vint (2 ^ 64 - 10) ++ [2]) 0.
Proof. reflexivity. Qed.

Lemma loop_header_runs fuel : crypt_loop fuel (enc_vint (2 ^ 64 - 10) ++ [2]) 0 = Running.
Proof. induction fuel as [|fuel IH]; [done|]. by rewrite loop_header_step. Qed.

Lemma loop_header_outcome fuel : parseRar5Header fuel loop_header = Running.
Proof.
  transitivity (obind (crypt_loop fuel (enc_vint (2 ^ 64 - 10) ++ [2]) 0)
    (fun enc => Val (mkH5 2 0 (str "a.mkv") 3 true enc))); [reflexivity|].
  by rewrite loop_header_runs.
Qed.

(** A RAR5 name length at or above 2^63 defeats the bounds check: as an
    int it is negative, the sum passes the test against the header length, and
    the slice panics while the volume is probed. *)
Lemma rar5_huge_name_panics fuel vol :
  parseVolume fuel (memVolume (rar5Marker ++ r5block 1 [0; 0; 0; 0] huge_name_header [])) vol = Panics.
Proof.
  assert (Hp : parseRar5Header fuel huge_name_header = Panics) by reflexivity.
  rewrite parseVolume_first_header; [by rewrite Hp|vm_compute; congruence|reflexivity|by left].
Qed.

(** A RAR5 extra record whose declared size is 2^64 - 10 sends the
    encryption scan back to where it started: for no number of rounds does
    parsing the volume end. *)
Lemma rar5_extra_record_loops fuel vol :
  parseVolume fuel (memVolume (rar5Marker ++ r5block 1 [0; 0; 0; 0] loop_header [])) vol = Running.
Proof.
  pose proof (loop_header_outcome fuel) as Hp.
  rewrite parseVolume_first_header; [by rewrite Hp|vm_compute; congruence|reflexivity|by right].
Qed.

(** An extra-area size at or above 2^63 is reported as not encrypted,
    whatever the header holds, although a parse failure is meant to count as
    encrypted. *)
Lemma rar5_huge_extra_not_encrypted fuel hdr extraSize :
  2 ^ 63 <= extraSize < 2 ^ 64 -> rar5HasCrypt fuel hdr (wrap_i64 extraSize) = Val false.
Proof.
  intros He. unfold rar5HasCrypt. rewrite wrap_i64_high by done.
  replace (_ <=? 0) with true by (symmetry; apply Z.leb_le; lia). done.
Qed.

Definition demo_end : rar5Other := mkO5 5 0 None None [0] (fun _ => 1%nat) [0; 0; 0; 0].
(** A main header; the last part of a split file; a service block; a file with its header
    size and name length padded. *)
Definition demo_r5 : list r5item :=
  [IOther (mkO5 1 0 None None [0] (fun _ => 1%nat) [9; 9; 9; 9]);
   IFile (mkR5 (str "movie.mkv") (Some [1; 2; 3]) 3 32 0 1 (Some [1; 2; 3; 4]) None [(3, [7; 7])] (fun _ => 1%nat) [1; 1; 1; 1] 2 0 false);
   IOther (mkO5 3 0 (Some 0) (Some [8; 8]) (str "QO") (fun _ => 2%nat) [0; 0; 0; 0]);
   IFile (mkR5 (str "x\a.nfo") (Some [9]) 1 32 (3 * 128) 1 None (Some [0; 0; 0; 0]) [(2, []); (1, [0])] (fun k => if (9 <=? k)%nat then 3%nat else 1%nat) [0; 0; 0; 0] 0 0 false)].

Lemma demo_r5_ok : Forall (item_ok 3) demo_r5.
Proof.
  assert (Nx : forall n : Z, None = Some n -> is_u64 n) by done.
  repeat apply Forall_cons_2; try apply Forall_nil_2; (split; [constructor; cbn [r5extra o5exSize]|]); try exact Nx;
    repeat apply Forall_cons_2; try apply Forall_nil_2; try (intros ? [= <-]); unfold is_u64, word4, i64_max, rar5TypeFile, rar5TypeEnd; cbn; try done; try lia.
Qed.
Lemma demo_end_ok : o5valid demo_end.
Proof. constructor; [by split|done|done|done]. Qed.

(** The demo volume comes back: the first file stored and clear, the second
    compressed and encrypted. *)
Lemma parseVolume_rar5_roundtrip_witness :
  parseVolume 3 (memVolume (r5volume demo_r5 demo_end [0])) 7 = Val (r5chunks 7 8 demo_r5) /\
  map (fun c => (cname c, stored c, encrypted c)) (r5chunks 7 8 demo_r5) =
    [(str "movie.mkv", true, false); (str "a.nfo", false, true)].
Proof.
  split; [|vm_compute; reflexivity].
  apply (parseVolume_rar5_roundtrip 3 demo_r5 demo_end [0] 7 demo_r5_ok demo_end_ok eq_refl);
    [reflexivity|vm_compute; congruence].
Defined.

(** A header with an encryption record whose extra size is 2^63. *)
Lemma rar5_huge_extra_not_encrypted_witness :
  rar5HasCrypt 9 [3; 1; 0; 0] 4 = Val true /\
  rar5HasCrypt 9 [3; 1; 0; 0] (wrap_i64 (2 ^ 63)) = Val false.
Proof.
  split; [reflexivity|]. apply (rar5_huge_extra_not_encrypted 9 [3; 1; 0; 0] (2 ^ 63)). lia.
Defined.
