(* ===== verification/RarStore.v ===== *)
(** A RAR release as one video: internal/usenet/stream/rarstore.go (selection,
    extents, the concurrent probe's bookkeeping), the volume order of
    rarvolume.go and the reader of rarvideo.go. *)
From Stdlib Require Import ZArith Lia Ascii String.
From stdpp Require Import prelude list gmap strings sorting.
From S2P Require Import Prelude GoStrings Nzb RarParse.

Open Scope Z_scope.
Open Scope go_scope.

(** * Volume order (rarvolume.go) *)

Definition videoExtensions : list bytes :=
  map str [".mkv"; ".mp4"; ".m4v"; ".avi"; ".mov"; ".ts"; ".webm"; ".wmv"]%string.
Definition isVideoName (name : bytes) : bool :=
  existsb (bytes_eqb (ToLower (Ext name))) videoExtensions.

(** partVolRe, read backwards: the digits between [.part] and [.rar]. *)
Definition partVol (name : bytes) : option bytes :=
  match cut_prefix (rev (str ".rar")) (rev (map fold_byte name)) with
  | None => None
  | Some r =>
      match span is_digit r with
      | ((_ :: _) as ds, r') => if has_prefix (rev (str ".part")) r' then Some (rev ds) else None
      | ([], _) => None
      end
  end.

(** oldVolRe, read backwards: the first byte of the lower-cased letter and the
    two digits.  Case folding lets the class r-z also match U+017F, the two
    bytes 197 191. *)
Definition oldVol (name : bytes) : option (Z * bytes) :=
  match rev name with
  | d2 :: d1 :: r =>
      if is_digit d1 && is_digit d2 then
        match r with
        | 191 :: 197 :: 46 :: _ => Some (197, [d1; d2])
        | l :: 46 :: _ =>
            if (114 <=? fold_byte l) && (fold_byte l <=? 122) then Some (fold_byte l, [d1; d2]) else None
        | _ => None
        end
      else None
  | _ => None
  end.

(** numVolRe, read backwards. *)
Definition numVol (name : bytes) : option bytes :=
  match span is_digit (rev name) with
  | (ds, 46 :: _) => if (3 <=? length ds)%nat then Some (rev ds) else None
  | _ => None
  end.

Definition volumeOrder (name : bytes) : Z :=
  match partVol name with
  | Some ds => fst (Atoi ds)
  | None =>
      if has_suffix (str ".rar") (ToLower name) then 0
      else
        match oldVol name with
        | Some (l, ds) => wrap_u8 (l - 114) * 100 + fst (Atoi ds) + 1
        | None =>
            match numVol name with
            | Some ds => fst (Atoi ds)
            | None => 2 ^ 30
            end
        end
  end.

Definition sortRarVolumes (fs : list File) : list File :=
  sort_SliceStable (fun a b => volumeOrder (Filename a) <? volumeOrder (Filename b)) fs.

(** * Selecting the video (rarstore.go) *)

Definition probeConcurrency (hint : option Z) (volumeCount : Z) : Z :=
  let limit := match hint with Some m => if 0 <? m then m else 10 | None => 10 end in
  let limit := if volumeCount <? limit then volumeCount else limit in
  if limit <? 1 then 1 else limit.

Fixpoint group_chunks (cs : list rarChunk) (byName : gmap bytes (list rarChunk)) (names : list bytes)
  : outcome (gmap bytes (list rarChunk) * list bytes) :=
  match cs with
  | [] => Val (byName, names)
  | c :: cs' =>
      if encrypted c then NotStreamable "encrypted file"
      else
        let names := match byName !! cname c with Some _ => names | None => names ++ [cname c] end in
        group_chunks cs' (<[cname c := default [] (byName !! cname c) ++ [c]]> byName) names
  end.

Definition selectVideo (cs : list rarChunk) : outcome (list rarChunk) :=
  match cs with
  | [] => NotStreamable "archive contains no files"
  | _ =>
      run (byName, names) := group_chunks cs ∅ [] in
      match List.filter isVideoName names with
      | [] => NotStreamable "no video file in archive"
      | [name] =>
          let group := default [] (byName !! name) in
          if forallb stored group
          then Val (sort_SliceStable (fun a b => volIndex a <? volIndex b) group)
          else NotStreamable "video is compressed, not stored"
      | _ => NotStreamable "multiple video files (ambiguous)"
      end
  end.

Record extent := mkExtent { videoStart : Z; elen : Z; evol : Z; eoff : Z }.

Fixpoint extents_loop (group : list rarChunk) (start : Z) (acc : list extent) : outcome (list extent * Z) :=
  match group with
  | [] => Val (acc, start)
  | c :: group' =>
      if packSize c <? 0 then NotStreamable "negative pack size"
      else extents_loop group' (wrap_i64 (start + packSize c))
             (acc ++ [mkExtent start (packSize c) (volIndex c) (dataOffset c)])
  end.
Definition buildExtents (group : list rarChunk) : outcome (list extent * Z) :=
  run (extents, start) := extents_loop group 0 [] in
  match group with
  | [] => Panics
  | c :: _ =>
      if (0 <? unpSize c) && negb (unpSize c =? start)
      then NotStreamable "stored bytes do not match unpacked size"
      else Val (extents, start)
  end.

(** The goroutines of probeVolumes: each finishes with its volume's chunks or an
    error, in any order; results land in the volume's own slot and the first
    error wins. *)
Record probeState := mkProbe { perVol : list (list rarChunk); firstErr : option string }.
Inductive finish := Parsed (cs : list rarChunk) | Failed (e : string).
Definition probe_step (s : probeState) (ev : nat * finish) : probeState :=
  match ev with
  | (i, Parsed cs) => mkProbe (<[i := cs]> (perVol s)) (firstErr s)
  | (_, Failed e) => mkProbe (perVol s) (match firstErr s with None => Some e | e' => e' end)
  end.
Definition probeVolumes (n : nat) (events : list (nat * finish)) : outcome (list rarChunk) :=
  let s := fold_left probe_step events (mkProbe (replicate n []) None) in
  match firstErr s with
  | Some e => NotStreamable e
  | None => Val (concat (perVol s))
  end.

Record RarStore := mkStore { rvolumes : list File; extents : list extent; videoName : bytes; videoSize : Z }.

(** probe: from the volumes in assembly order and the chunks of their headers. *)
Definition probe (rarFiles : list File) (parse : list File -> outcome (list rarChunk)) : outcome RarStore :=
  match rarFiles with
  | [] => NotStreamable "no rar volumes"
  | _ =>
      let volumes := sortRarVolumes rarFiles in
      run chunks := parse volumes in
      run video := selectVideo chunks in
      run (exts, total) := buildExtents video in
      match video with
      | [] => Panics
      | c :: _ => Val (mkStore volumes exts (cname c) total)
      end
  end.

(** * The video reader (rarvideo.go) *)

Inductive rerr := RNil | REOF | RNoExtent | ROpen | RSeek | RFault | RNegative | RWhence.

(** The position and the open volume, if any. *)
Record rarVideoReader := mkVideo { vpos : Z; curVol : option Z }.

Definition findExtent (exts : list extent) (off : Z) : option extent :=
  let k := sort_Search (length exts) (fun k => match exts !! k with
                                               | Some e => off <? videoStart e | None => true end) in
  match k with
  | O => None
  | S i =>
      match exts !! i with
      | Some e => if (videoStart e <=? off) && (off <? wrap_i64 (videoStart e + elen e)) then Some e else None
      | None => None
      end
  end.

Section Reading.
(** The volume readers: opening a volume may fail, and a Read at an offset of
    volume [vol] returns some bytes and an error. *)
Context (openVolume : Z -> bool) (volRead : Z -> Z -> Z -> bytes * rerr).

Definition useVolume (v : rarVideoReader) (vol : Z) : option rarVideoReader :=
  if match curVol v with Some c => c =? vol | None => false end then Some v
  else if openVolume vol then Some (mkVideo (vpos v) (Some vol)) else None.

(** Read into a buffer of [plen] bytes: the bytes, the error, the new state. *)
Definition Read (rs : RarStore) (v : rarVideoReader) (plen : Z) : bytes * rerr * rarVideoReader :=
  if plen =? 0 then ([], RNil, v)
  else if videoSize rs <=? vpos v then ([], REOF, v)
  else
    match findExtent (extents rs) (vpos v) with
    | None => ([], RNoExtent, v)
    | Some ext =>
        match useVolume v (evol ext) with
        | None => ([], ROpen, mkVideo (vpos v) None)
        | Some v' =>
            let containerOff := wrap_i64 (eoff ext + wrap_i64 (vpos v - videoStart ext)) in
            if containerOff <? 0 then ([], RSeek, v')
            else
              let remaining := wrap_i64 (wrap_i64 (videoStart ext + elen ext) - vpos v) in
              let limit := if remaining <? plen then remaining else plen in
              let '(b, e) := volRead (evol ext) containerOff limit in
              let e := match e with REOF => if (0 <? zlen b) then RNil else REOF | _ => e end in
              (b, e, mkVideo (wrap_i64 (vpos v + zlen b)) (curVol v'))
        end
    end.

(** Read until EOF, as io.Copy does; [fuel] bounds the calls. *)
Fixpoint read_all (fuel : nat) (rs : RarStore) (v : rarVideoReader) (plen : Z) : bytes * rerr :=
  match fuel with
  | O => ([], RNil)
  | S fuel' =>
      let '(b, e, v') := Read rs v plen in
      match e with
      | RNil => let '(bs, e') := read_all fuel' rs v' plen in (b ++ bs, e')
      | _ => (b, e)
      end
  end.
End Reading.

Definition Seek (rs : RarStore) (v : rarVideoReader) (offset whence : Z) : result rerr (Z * rarVideoReader) :=
  let abs := if whence =? 0 then Some offset
             else if whence =? 1 then Some (wrap_i64 (vpos v + offset))
             else if whence =? 2 then Some (wrap_i64 (videoSize rs + offset))
             else None in
  match abs with
  | None => Err RWhence
  | Some a => if a <? 0 then Err RNegative else Ok (a, mkVideo a (curVol v))
  end.

(** The sort keys of the naming schemes, on samples. *)
Example volumeOrder_samples :
  map (fun s => volumeOrder (str s))
    ["a.part07.RAR"; "a.rar"; "a.r00"; "a.R99"; "a.s00"; "a.z17"; "a.003"; "a.mkv"]%string =
  [7; 0; 1; 100; 101; 818; 3; 2 ^ 30].
Proof. reflexivity. Qed.

(** * Grouping chunks by name *)

Definition named (name : bytes) (c : rarChunk) : bool := bool_decide (cname c = name).

Record grouped (seen : list rarChunk) (byName : gmap bytes (list rarChunk)) (names : list bytes) : Prop := {
  gr_map : forall name, byName !! name =
    match List.filter (named name) seen with [] => None | l => Some l end;
  gr_names : forall name, name ∈ names <-> exists c, c ∈ seen /\ cname c = name
}.

Lemma filter_named_None seen name :
  List.filter (named name) seen = [] -> ~ exists c, c ∈ seen /\ cname c = name.
Proof.
  intros Hf (c & Hc & Hn). assert (Hin : c ∈ List.filter (named name) seen).
  { apply elem_of_filter_b. split; [done|]. unfold named. by apply bool_decide_eq_true. }
  rewrite Hf in Hin. by apply elem_of_nil in Hin.
Qed.

Lemma group_chunks_spec cs seen byName names byName' names' :
  grouped seen byName names -> group_chunks cs byName names = Val (byName', names') ->
  grouped (seen ++ cs) byName' names' /\ Forall (fun c => encrypted c = false) cs.
Proof.
  revert seen byName names. induction cs as [|c cs IH]; intros seen byName names Hg H; cbn [group_chunks] in H.
  { injection H as <- <-. rewrite app_nil_r. split; [done|constructor]. }
  destruct (encrypted c) eqn:Ee; [done|].
  replace (seen ++ c :: cs) with ((seen ++ [c]) ++ cs) by by rewrite <- app_assoc.
  apply (IH (seen ++ [c])) in H as [H1 H2]; [split; [done|by constructor]|].
  destruct Hg as [Hm Hn]. constructor.
  - intros name. rewrite List.filter_app. cbn [List.filter]. unfold named at 2.
    destruct (bool_decide (cname c = name)) eqn:Eb; bprop.
    + subst name. rewrite lookup_insert_eq, Hm.
      destruct (List.filter (named (cname c)) seen); done.
    + rewrite lookup_insert_ne by done. rewrite Hm, app_nil_r. done.
  - intros name. setoid_rewrite elem_of_app. setoid_rewrite list_elem_of_singleton.
    specialize (Hn name). rewrite Hm.
    destruct (List.filter (named (cname c)) seen) eqn:Ef.
    + rewrite elem_of_app, list_elem_of_singleton, Hn. split.
      * intros [(d & ? & ?)| ->]; eauto.
      * intros (d & [?| ->] & ?); [left; eauto|by right].
    + rewrite Hn. split; [intros (d & ? & ?); eauto|].
      intros (d & [?| ->] & Hd); [eauto|]. subst name.
      assert (Hin : r ∈ List.filter (named (cname c)) seen) by (rewrite Ef; set_solver).
      apply elem_of_filter_b in Hin as [Hr Hnm]. unfold named in Hnm. bprop. eauto.
Qed.

Lemma grouped_nil : grouped [] ∅ [].
Proof. constructor; intros name; [done|]. set_solver. Qed.

(** * Extents that tile the video *)

Fixpoint tiles (start : Z) (exts : list extent) : Prop :=
  match exts with
  | [] => True
  | e :: exts' => videoStart e = start /\ 0 <= elen e /\ tiles (start + elen e) exts'
  end.
Fixpoint total (exts : list extent) : Z :=
  match exts with [] => 0 | e :: exts' => elen e + total exts' end.

Definition chunk_extent (start : Z) (c : rarChunk) : extent :=
  mkExtent start (packSize c) (volIndex c) (dataOffset c).
Fixpoint lay (start : Z) (group : list rarChunk) : list extent :=
  match group with
  | [] => []
  | c :: g => chunk_extent start c :: lay (start + packSize c) g
  end.

Lemma total_nonneg start exts : tiles start exts -> 0 <= total exts.
Proof.
  revert start. induction exts as [|e exts IH]; intros start; simpl; [lia|].
  intros (_ & He & Ht). specialize (IH _ Ht). lia.
Qed.

Lemma lay_tiles start group :
  Forall (fun c => 0 <= packSize c) group -> tiles start (lay start group).
Proof.
  intros H. revert start. induction H as [|c g Hc Hg IH]; intros start; simpl; [done|]. auto.
Qed.

Lemma extents_loop_spec group start acc exts t :
  0 <= start -> extents_loop group start acc = Val (exts, t) ->
  start + total (lay start group) <= i64_max ->
  Forall (fun c => 0 <= packSize c) group /\ exts = acc ++ lay start group /\
  t = start + total (lay start group).
Proof.
  revert start acc. induction group as [|c g IH]; intros start acc Hs H Hm; simpl in *.
  { injection H as <- <-. rewrite app_nil_r. repeat split; [constructor|lia]. }
  case_if_in H; [done|]. bprop.
  assert (Hnn : Forall (fun c => 0 <= packSize c) g).
  { clear -H. revert H. generalize (wrap_i64 (start + packSize c)). intros z.
    generalize (acc ++ [mkExtent start (packSize c) (volIndex c) (dataOffset c)]).
    revert z. induction g as [|d g IHg]; intros z l H; [constructor|]. simpl in H.
    case_if_in H; [done|]. bprop. constructor; [lia|]. by eapply IHg. }
  pose proof (total_nonneg _ _ (lay_tiles (start + packSize c) g Hnn)).
  rewrite wrap_i64_id in H by (unfold is_i64, i64_min; lia).
  apply IH in H as (H1 & -> & ->); [|lia|lia].
  split; [by constructor|]. rewrite <- app_assoc. split; [done|lia].
Qed.

(** Where a tiled extent stands. *)
Lemma tiles_lookup start exts i e :
  tiles start exts -> exts !! i = Some e ->
  videoStart e = start + total (take i exts) /\ 0 <= elen e /\ total (take (S i) exts) = total (take i exts) + elen e.
Proof.
  revert start i. induction exts as [|x exts IH]; intros start i Ht Hi; [done|].
  destruct Ht as (Hx & Hl & Ht). destruct i as [|i]; simpl in Hi.
  { injection Hi as ->. simpl. lia. }
  destruct (IH _ _ Ht Hi) as (H1 & H2 & H3). simpl in *. lia.
Qed.

Lemma total_app a b : total (a ++ b) = total a + total b.
Proof. induction a as [|e a IH]; simpl; [lia|]. rewrite IH. lia. Qed.

Lemma total_take_mono start exts i j :
  tiles start exts -> (i <= j)%nat -> total (take i exts) <= total (take j exts).
Proof.
  revert start i j. induction exts as [|x exts IH]; intros start i j Ht Hij; [by rewrite !take_nil|].
  destruct Ht as (_ & Hl & Ht). destruct i, j; simpl; try lia.
  - pose proof (IH _ 0%nat j Ht ltac:(lia)) as H. rewrite take_0 in H. simpl in H. lia.
  - specialize (IH _ i j Ht ltac:(lia)). lia.
Qed.

Lemma findExtent_covers exts off :
  tiles 0 exts -> total exts <= i64_max -> 0 <= off < total exts ->
  exists i e, findExtent exts off = Some e /\ exts !! i = Some e /\
    videoStart e = total (take i exts) /\ videoStart e <= off < videoStart e + elen e.
Proof.
  intros Ht Hm Ho. unfold findExtent.
  set (f := fun k => match exts !! k with Some e => off <? videoStart e | None => true end).
  destruct (sort_Search_below (length exts) f) as (B1 & B2 & B3).
  { intros a b [Hab Hb] Ha. unfold f in *.
    destruct (lookup_lt_is_Some_2 exts b Hb) as [eb Eb].
    destruct (lookup_lt_is_Some_2 exts a ltac:(lia)) as [ea Ea]. rewrite Ea in Ha. rewrite Eb.
    apply tiles_lookup with (start := 0) in Ea as (Ha1 & _ & _); [|done].
    apply tiles_lookup with (start := 0) in Eb as (Hb1 & _ & _); [|done].
    pose proof (total_take_mono 0 exts a b Ht Hab). apply Z.ltb_lt in Ha. apply Z.ltb_lt. lia. }
  destruct (sort_Search (length exts) f) as [|i] eqn:Ek.
  { exfalso. destruct exts as [|e exts]; [simpl in Ho; lia|].
    specialize (B3 0%nat ltac:(simpl; lia)). unfold f in B3. simpl in B3. apply Z.ltb_lt in B3.
    destruct Ht as [Ht _]. lia. }
  destruct (lookup_lt_is_Some_2 exts i ltac:(lia)) as [e He]. rewrite He.
  pose proof He as Htl. apply tiles_lookup with (start := 0) in Htl as (H1 & H2 & H3); [|done].
  specialize (B2 i ltac:(lia)). unfold f in B2. rewrite He in B2. apply Z.ltb_ge in B2.
  assert (Hup : off < videoStart e + elen e).
  { destruct (decide (S i < length exts)%nat) as [Hlt|Hge].
    - destruct (lookup_lt_is_Some_2 exts (S i) Hlt) as [e' He'].
      specialize (B3 (S i) ltac:(lia)). unfold f in B3. rewrite He' in B3. apply Z.ltb_lt in B3.
      apply tiles_lookup with (start := 0) in He' as (H1' & _ & _); [|done]. lia.
    - rewrite (take_ge exts (S i)) in H3 by lia. lia. }
  assert (Hle : total (take (S i) exts) <= total exts).
  { rewrite <- (take_drop (S i) exts) at 2. rewrite total_app.
    pose proof (total_take_mono 0 exts (S i) (length exts) Ht ltac:(lia)) as Hmono.
    rewrite (take_ge exts (length exts)) in Hmono by lia.
    rewrite <- (take_drop (S i) exts) in Hmono at 2. rewrite total_app in Hmono. lia. }
  rewrite wrap_i64_id.
  2:{ pose proof (total_take_mono 0 exts 0 i Ht ltac:(lia)) as H0. rewrite take_0 in H0. simpl in H0.
      unfold is_i64, i64_min. lia. }
  replace ((videoStart e <=? off) && _) with true
    by (symmetry; rewrite andb_true_iff, Z.leb_le, Z.ltb_lt; lia).
  exists i, e. repeat split; try done; lia.
Qed.

(** * Reading the video *)

(** The bytes of the video: each extent's run of its volume, in order. *)
Definition run_bytes (contents : Z -> bytes) (e : extent) : bytes :=
  take (Z.to_nat (elen e)) (drop (Z.to_nat (eoff e)) (contents (evol e))).
Definition video_bytes (contents : Z -> bytes) (exts : list extent) : bytes :=
  concat (map (run_bytes contents) exts).

(** The store describes runs that lie inside their volumes. *)
Record store_ok (contents : Z -> bytes) (rs : RarStore) : Prop := {
  so_tiles : tiles 0 (extents rs);
  so_size : videoSize rs = total (extents rs);
  so_max : total (extents rs) <= i64_max;
  so_fits : Forall (fun e => 0 <= eoff e /\ eoff e + elen e <= zlen (contents (evol e)) /\
                             zlen (contents (evol e)) <= i64_max) (extents rs)
}.

(** What a volume reader promises: the bytes it returns are the container's, no
    more than asked for. *)
Class VolumeReader (contents : Z -> bytes) (volRead : Z -> Z -> Z -> bytes * rerr) : Prop :=
  volRead_bytes : forall vol off lim b e, volRead vol off lim = (b, e) -> 0 <= off -> 0 < lim ->
    zlen b <= lim /\ b = take (length b) (drop (Z.to_nat off) (contents vol)).
(** A reader in good health: inside the container it returns at least a byte. *)
Class Healthy (contents : Z -> bytes) (volRead : Z -> Z -> Z -> bytes * rerr) : Prop :=
  volRead_progress : forall vol off lim b e, volRead vol off lim = (b, e) ->
    0 <= off < zlen (contents vol) -> 0 < lim -> 0 < zlen b /\ (e = RNil \/ e = REOF).

Section ReadProofs.
Context (contents : Z -> bytes) (openVolume : Z -> bool) (volRead : Z -> Z -> Z -> bytes * rerr).
Context `{HV : VolumeReader contents volRead}.

Lemma run_length e :
  0 <= elen e -> 0 <= eoff e -> eoff e + elen e <= zlen (contents (evol e)) ->
  zlen (run_bytes contents e) = elen e.
Proof.
  intros. unfold run_bytes, zlen in *. rewrite length_take, length_drop. lia.
Qed.

Lemma video_length exts start :
  tiles start exts ->
  Forall (fun e => 0 <= eoff e /\ eoff e + elen e <= zlen (contents (evol e)) /\
                   zlen (contents (evol e)) <= i64_max) exts ->
  zlen (video_bytes contents exts) = total exts.
Proof.
  intros Ht Hf. revert start Ht. induction Hf as [|e exts (H1 & H2 & _) Hf IH]; intros start Ht; [done|].
  destruct Ht as (_ & Hl & Ht). cbn [video_bytes map concat total].
  rewrite zlen_app, run_length by done. by rewrite <- (IH _ Ht).
Qed.

(** Past the [i]-th extent's start the video is that extent's run and the rest. *)
Lemma video_drop exts i e off :
  tiles 0 exts ->
  Forall (fun e => 0 <= eoff e /\ eoff e + elen e <= zlen (contents (evol e)) /\
                   zlen (contents (evol e)) <= i64_max) exts ->
  exts !! i = Some e -> videoStart e = total (take i exts) -> videoStart e <= off < videoStart e + elen e ->
  exists rest, drop (Z.to_nat off) (video_bytes contents exts) =
    drop (Z.to_nat (off - videoStart e)) (run_bytes contents e) ++ rest.
Proof.
  intros Ht Hf Hi Hvs Ho.
  assert (Hsplit : video_bytes contents exts =
    video_bytes contents (take i exts) ++ run_bytes contents e ++ video_bytes contents (drop (S i) exts)).
  { rewrite (lookup_split_take exts i e Hi) at 1. unfold video_bytes.
    rewrite map_app, concat_app. done. }
  assert (Htk : tiles 0 (take i exts)).
  { clear -Ht. revert Ht. generalize 0. revert i. induction exts as [|x exts IH]; intros i z Hx;
      destruct i; simpl in *; try done. destruct Hx as (? & ? & ?). auto. }
  pose proof (video_length (take i exts) 0 Htk (Forall_take _ _ _ Hf)) as Hvl.
  pose proof (total_nonneg _ _ Htk).
  exists (video_bytes contents (drop (S i) exts)).
  rewrite Hsplit, drop_app_ge by (unfold zlen in Hvl; lia).
  replace (Z.to_nat off - length _)%nat with (Z.to_nat (off - videoStart e)) by (unfold zlen in Hvl; lia).
  apply drop_app_le. pose proof (Forall_lookup_1 _ _ _ _ Hf Hi) as (He1 & He2 & _).
  destruct (tiles_lookup 0 exts i e Ht Hi) as (_ & Hl & _).
  pose proof (run_length e Hl He1 He2) as Hrl. unfold zlen in Hrl. lia.
Qed.

(** One Read: either no bytes and an error, or the outcome of the volume read
    of the extent under the position. *)
Lemma Read_inside rs v plen :
  store_ok contents rs -> 0 <= vpos v < videoSize rs -> 0 < plen -> is_i64 plen ->
  (exists vol, openVolume vol = false /\
     Read openVolume volRead rs v plen = ([], ROpen, mkVideo (vpos v) None)) \/
  exists vol off lim b e, volRead vol off lim = (b, e) /\ 0 < lim <= plen /\
    0 <= off < zlen (contents vol) /\ zlen b <= lim /\
    b = take (length b) (drop (Z.to_nat (vpos v)) (video_bytes contents (extents rs))) /\
    exists cv, Read openVolume volRead rs v plen =
      (b, match e with REOF => if 0 <? zlen b then RNil else REOF | _ => e end,
       mkVideo (vpos v + zlen b) cv) /\ vpos v + zlen b <= videoSize rs.
Proof.
  intros [Ht Hsz Hmax Hfit] Hp Hpl Hpi. rewrite Hsz in Hp. unfold Read.
  replace (plen =? 0) with false by (symmetry; apply Z.eqb_neq; lia).
  replace (videoSize rs <=? vpos v) with false by (symmetry; apply Z.leb_gt; lia).
  destruct (findExtent_covers _ _ Ht Hmax Hp) as (i & e & -> & Hi & Hvs & Hcov).
  pose proof (Forall_lookup_1 _ _ _ _ Hfit Hi) as (He1 & He2 & He3).
  destruct (tiles_lookup 0 _ i e Ht Hi) as (_ & Hl & Hnext).
  assert (Htot : videoStart e + elen e <= total (extents rs)).
  { rewrite Hvs, <- Hnext. pose proof (total_take_mono 0 _ (S i) (length (extents rs)) Ht) as Hm.
    rewrite (take_ge _ (length _)) in Hm by lia. apply Hm. apply lookup_lt_Some in Hi. lia. }
  pose proof (total_take_mono 0 _ 0 i Ht ltac:(lia)) as H0. rewrite take_0 in H0. simpl in H0.
  destruct (useVolume openVolume v (evol e)) as [v'|] eqn:Euse; [right|left].
  2:{ unfold useVolume in Euse. case_if_in Euse; [done|]. case_if_in Euse; [done|]. eauto. }
  unfold i64_max in *.
  rewrite (wrap_i64_id (vpos v - videoStart e)) by (unfold is_i64, i64_min, i64_max; lia).
  rewrite (wrap_i64_id (eoff e + _)) by (unfold is_i64, i64_min, i64_max; lia).
  rewrite (wrap_i64_id (videoStart e + elen e)) by (unfold is_i64, i64_min, i64_max; lia).
  rewrite (wrap_i64_id (_ - vpos v)) by (unfold is_i64, i64_min, i64_max; lia).
  replace (_ <? 0) with false by (symmetry; apply Z.ltb_ge; lia).
  set (off := eoff e + (vpos v - videoStart e)).
  set (remaining := videoStart e + elen e - vpos v).
  set (lim := if remaining <? plen then remaining else plen).
  assert (Hlim : 0 < lim <= plen /\ lim <= remaining).
  { unfold lim, remaining. case_if; bprop; lia. }
  destruct (volRead (evol e) off lim) as [b err] eqn:Er.
  destruct (HV _ _ _ _ _ Er ltac:(unfold off; lia) ltac:(lia)) as [Hbl Hb].
  assert (Hbz : 0 <= zlen b <= remaining) by (pose proof (zlen_nonneg b); lia).
  exists (evol e), off, lim, b, err. split; [done|]. split; [lia|]. split; [unfold off, remaining in *; lia|].
  split; [done|]. split.
  - destruct (video_drop _ i e (vpos v) Ht Hfit Hi Hvs Hcov) as [rest ->].
    rewrite take_app_le.
    2:{ rewrite length_drop. pose proof (run_length e Hl He1 He2) as Hrl. unfold zlen, remaining in *. lia. }
    unfold run_bytes.
    rewrite Hb at 1. unfold off, remaining in *. rewrite skipn_firstn_comm, take_take.
    replace (Nat.min _ _) with (length b) by (unfold zlen in *; lia).
    rewrite drop_drop. do 2 f_equal. lia.
  - exists (curVol v'). rewrite (wrap_i64_id (vpos v + zlen b)).
    + split; [done|]. unfold remaining in *. lia.
    + unfold is_i64, i64_min, i64_max, remaining in *. lia.
Qed.
End ReadProofs.

Lemma take_then_drop (l : bytes) n : take n l ++ drop n l = l.
Proof. apply take_drop. Qed.

Lemma read_all_from contents openVolume volRead rs plen fuel v :
  VolumeReader contents volRead -> Healthy contents volRead -> (forall vol, openVolume vol = true) ->
  store_ok contents rs -> 0 < plen -> is_i64 plen ->
  0 <= vpos v <= videoSize rs -> videoSize rs - vpos v < Z.of_nat fuel ->
  read_all openVolume volRead fuel rs v plen =
  (drop (Z.to_nat (vpos v)) (video_bytes contents (extents rs)), REOF).
Proof.
  intros HV HH Hopen Hok Hpl Hpi. pose proof Hok as [Ht Hsz Hmax Hfit].
  pose proof (video_length contents (extents rs) 0 Ht Hfit) as Hvl.
  revert v. induction fuel as [|fuel IH]; intros v Hv Hf; [lia|]. cbn [read_all].
  destruct (Z.eq_dec (vpos v) (videoSize rs)) as [Heq|Hne].
  { unfold Read. replace (plen =? 0) with false by (symmetry; apply Z.eqb_neq; lia).
    replace (videoSize rs <=? vpos v) with true by (symmetry; apply Z.leb_le; lia).
    rewrite drop_ge; [done|]. unfold zlen in Hvl. lia. }
  destruct (Read_inside contents openVolume volRead rs v plen Hok ltac:(lia) Hpl Hpi)
    as [(vol & Hno & _)|(vol & off & lim & b & e & Hr & Hlim & Hoff & Hbl & Hb & cv & Hrd & Hend)].
  { by rewrite Hopen in Hno. }
  destruct (HH _ _ _ _ _ Hr Hoff ltac:(lia)) as [Hpos He]. rewrite Hrd.
  replace (match e with REOF => _ | _ => e end) with RNil.
  2:{ destruct He as [-> | ->]; [done|]. by replace (0 <? zlen b) with true by (symmetry; apply Z.ltb_lt; lia). }
  rewrite IH; simpl; [|lia|lia].
  f_equal. rewrite Hb at 1.
  replace (Z.to_nat (vpos v + zlen b)) with (Z.to_nat (vpos v) + length b)%nat by (unfold zlen; lia).
  rewrite <- drop_drop. apply take_drop.
Qed.

(** * Volume names *)

(** The k-th volume of a classic set: .rar, then .r00 .. .r99, .s00 .. .z99. *)
Definition classic_name (base : bytes) (k : Z) : bytes :=
  base ++ (if k =? 0 then str ".rar"
           else [46; 114 + (k - 1) / 100; 48 + (k - 1) / 10 mod 10; 48 + (k - 1) mod 10]).

Lemma oldVol_suffix base l d1 d2 :
  is_digit d1 = true -> is_digit d2 = true -> 114 <= l <= 122 ->
  oldVol (base ++ [46; l; d1; d2]) = Some (l, [d1; d2]).
Proof.
  intros H1 H2 Hl. unfold oldVol. rewrite rev_app_distr. simpl. rewrite H1, H2. simpl.
  assert (Hfold : fold_byte l = l).
  { unfold fold_byte. replace (l <=? 90) with false by (symmetry; apply Z.leb_gt; lia). by rewrite andb_false_r. }
  rewrite Hfold.
  replace ((114 <=? l) && (l <=? 122)) with true by (symmetry; rewrite andb_true_iff, !Z.leb_le; lia).
  assert (l = 114 \/ l = 115 \/ l = 116 \/ l = 117 \/ l = 118 \/ l = 119 \/ l = 120 \/ l = 121 \/ l = 122)
    as Hcases by lia.
  by destruct Hcases as [->|[->|[->|[->|[->|[->|[->|[->| ->]]]]]]]].
Qed.

(** A name that ends in a digit is neither a .partNN.rar nor a .rar. *)
Lemma cut_rar_digit d r : 48 <= d <= 57 -> cut_prefix (rev (str ".rar")) (d :: r) = None.
Proof.
  intros Hd. change (rev (str ".rar")) with [114; 97; 114; 46]. cbn [cut_prefix].
  by replace (114 =? d) with false by (symmetry; apply Z.eqb_neq; lia).
Qed.

Lemma fold_byte_digit d : 48 <= d <= 57 -> fold_byte d = d.
Proof.
  intros Hd. unfold fold_byte. by replace (65 <=? d) with false by (symmetry; apply Z.leb_gt; lia).
Qed.

Lemma partVol_digit base d : is_digit d = true -> partVol (base ++ [d]) = None.
Proof.
  intros Hd%is_digit_spec. unfold partVol. rewrite map_app, rev_app_distr. cbn [map rev app].
  by rewrite fold_byte_digit, cut_rar_digit.
Qed.

Lemma has_suffix_digit base d : is_digit d = true -> has_suffix (str ".rar") (ToLower (base ++ [d])) = false.
Proof.
  intros Hd%is_digit_spec. destruct (ToLower_app base [d]) as [pre ->]; [repeat constructor; lia|].
  unfold has_suffix, has_prefix. cbn [map]. rewrite rev_app_distr. cbn [rev app].
  by rewrite fold_byte_digit, cut_rar_digit.
Qed.

Lemma ToLower_rar base : has_suffix (str ".rar") (ToLower (base ++ str ".rar")) = true.
Proof.
  destruct (ToLower_app base (str ".rar")) as [pre ->]; [repeat constructor; vm_compute; congruence|].
  unfold has_suffix. rewrite rev_app_distr. apply has_prefix_app.
Qed.

Lemma Atoi_two d1 d2 : 0 <= d1 < 10 -> 0 <= d2 < 10 -> fst (Atoi [48 + d1; 48 + d2]) = d1 * 10 + d2.
Proof.
  intros H1 H2.
  assert (Hall : forallb (fun a => forallb (fun b => fst (Atoi [48 + a; 48 + b]) =? a * 10 + b)
    (seqZ 0 10)) (seqZ 0 10) = true) by (vm_compute; reflexivity).
  rewrite forallb_forall in Hall. specialize (Hall d1).
  rewrite <- list_elem_of_In, elem_of_seqZ, forallb_forall in Hall. specialize (Hall ltac:(lia) d2).
  rewrite <- list_elem_of_In, elem_of_seqZ in Hall. by apply Z.eqb_eq, Hall.
Qed.

Lemma volumeOrder_classic base k :
  0 <= k <= 900 -> (k = 0 -> partVol (base ++ str ".rar") = None) ->
  volumeOrder (classic_name base k) = k.
Proof.
  intros Hk Hpart. unfold classic_name. destruct (Z.eqb_spec k 0) as [->|Hne].
  { unfold volumeOrder. rewrite Hpart by done.
    replace (has_suffix (str ".rar") (ToLower (base ++ str ".rar"))) with true; [done|].
    symmetry. apply ToLower_rar. }
  pose proof (Z.mod_pos_bound (k - 1) 10 ltac:(lia)).
  pose proof (Z.mod_pos_bound ((k - 1) / 10) 10 ltac:(lia)).
  set (l := 114 + (k - 1) / 100). set (d1 := (k - 1) / 10 mod 10) in *. set (d2 := (k - 1) mod 10) in *.
  assert (Hl : 114 <= l <= 122).
  { unfold l. split; [pose proof (Z.div_pos (k - 1) 100); lia|].
    pose proof (Z.div_le_mono (k - 1) 899 100). change (899 / 100) with 8 in *. lia. }
  unfold volumeOrder.
  assert (Hd1 : is_digit (48 + d1) = true) by (apply is_digit_spec; lia).
  assert (Hd2 : is_digit (48 + d2) = true) by (apply is_digit_spec; lia).
  replace (base ++ [46; l; 48 + d1; 48 + d2]) with ((base ++ [46; l; 48 + d1]) ++ [48 + d2])
    by by rewrite <- app_assoc.
  rewrite partVol_digit, has_suffix_digit by done. rewrite <- app_assoc. cbn [app].
  rewrite oldVol_suffix, Atoi_two by done. unfold wrap_u8. rewrite Z.mod_small by lia.
  unfold l, d1, d2. pose proof (Z.div_mod (k - 1) 10 ltac:(lia)).
  pose proof (Z.div_mod ((k - 1) / 10) 10 ltac:(lia)).
  rewrite Z.div_div in * by lia. change (10 * 10) with 100 in *. lia.
Qed.

(** * The concurrent probe *)

Lemma probe_fold_ok (parsed : nat -> list rarChunk) events s :
  Forall (fun ev => snd ev = Parsed (parsed (fst ev))) events ->
  firstErr (fold_left probe_step events s) = firstErr s /\
  length (perVol (fold_left probe_step events s)) = length (perVol s) /\
  forall i, (i < length (perVol s))%nat -> perVol (fold_left probe_step events s) !! i =
    if decide (i ∈ map fst events) then Some (parsed i) else perVol s !! i.
Proof.
  intros H. revert s. induction H as [|[j ev] events Hev Hevs IH]; intros s.
  { split; [done|]. split; [done|]. intros i Hi. rewrite decide_False; [done|]. apply not_elem_of_nil. }
  simpl in Hev. subst ev. cbn [fold_left]. destruct (IH (probe_step s (j, Parsed (parsed j)))) as (H1 & H2 & H3).
  cbn [probe_step perVol firstErr] in *. rewrite length_insert in *. split; [done|]. split; [done|].
  intros i Hi. rewrite H3 by done. cbn [map fst].
  destruct (decide (i ∈ map fst events)) as [Hin|Hin].
  - rewrite decide_True; [done|]. set_solver.
  - destruct (decide (i = j)) as [->|Hne].
    + rewrite decide_True by set_solver. by rewrite list_lookup_insert_eq.
    + rewrite decide_False by set_solver. by rewrite list_lookup_insert_ne.
Qed.

(** * Claims *)

(** An NZB that lists a classic volume set in any order is put back in
    assembly order: .rar first, then .r00 to .r99, rolling over to .s00 and on
    through .z99. *)
Lemma sortRarVolumes_classic base ordered fs :
  partVol (base ++ str ".rar") = None -> (length ordered <= 901)%nat ->
  (forall i f, ordered !! i = Some f -> Filename f = classic_name base (Z.of_nat i)) ->
  fs ≡ₚ ordered -> sortRarVolumes fs = ordered.
Proof.
  intros Hp Hlen Hname Hperm. unfold sortRarVolumes.
  set (key := fun f => volumeOrder (Filename f)).
  assert (Hkey : forall i f, ordered !! i = Some f -> key f = Z.of_nat i).
  { intros i f Hi. unfold key. rewrite (Hname i f Hi). apply volumeOrder_classic; [|done].
    apply lookup_lt_Some in Hi. lia. }
  pose proof (sort_SliceStable_sorted key fs) as Hs.
  pose proof (sort_SliceStable_perm (fun a b => key a <? key b) fs) as Hpm.
  eapply (StronglySorted_unique_strong (fun a b => key a <= key b)); [|exact Hs| |by transitivity fs].
  - intros a b Ha Hb H1 H2. apply (elem_of_Permutation_proper a _ _ Hpm) in Ha. rewrite Hperm in Ha.
    apply list_elem_of_lookup in Ha as [i Hi]. apply list_elem_of_lookup in Hb as [j Hj].
    pose proof (Hkey _ _ Hi). pose proof (Hkey _ _ Hj). assert (i = j) by lia. congruence.
  - clear -Hkey. cut (forall n, (forall i f, ordered !! i = Some f -> key f = Z.of_nat (n + i)) ->
      StronglySorted (fun a b => key a <= key b) ordered).
    { intros H. by apply (H 0%nat). }
    clear Hkey. induction ordered as [|f l IH]; intros n Hk; constructor.
    + apply (IH (S n)). intros i g Hi. rewrite (Hk (S i) g Hi). lia.
    + apply Forall_forall. intros g Hg. apply list_elem_of_lookup in Hg as [i Hi].
      rewrite (Hk 0%nat f eq_refl), (Hk (S i) g Hi). lia.
Qed.

(** A selected video is safe to stream: no chunk of the archive is
    encrypted, the result holds all chunks of one single video name and nothing
    else, every one stored uncompressed, ordered by volume, and the archive has
    no other video. *)
Lemma selectVideo_sound cs video :
  selectVideo cs = Val video ->
  Forall (fun c => encrypted c = false) cs /\
  exists name, isVideoName name = true /\ video <> [] /\
    video ≡ₚ List.filter (named name) cs /\
    Forall (fun c => stored c = true) video /\
    StronglySorted (fun a b => volIndex a <= volIndex b) video /\
    (forall c, c ∈ cs -> isVideoName (cname c) = true -> cname c = name).
Proof.
  unfold selectVideo. destruct cs as [|c0 cs0]; [done|]. set (cs := c0 :: cs0).
  destruct (group_chunks cs ∅ []) as [[byName names]| | |] eqn:Eg; try done. cbn [obind].
  apply (group_chunks_spec cs []) in Eg as [[Hm Hn] Henc]; [|apply grouped_nil].
  rewrite app_nil_l in *.
  destruct (List.filter isVideoName names) as [|name [|]] eqn:Ef; try done.
  destruct (forallb stored _) eqn:Es; [|done]. intros [= <-]. split; [done|]. exists name.
  assert (Hin : name ∈ List.filter isVideoName names) by (rewrite Ef; set_solver).
  apply elem_of_filter_b in Hin as [Hin Hvid].
  rewrite Hm in *. pose proof (sort_SliceStable_sorted volIndex (List.filter (named name) cs)) as Hsort.
  pose proof (sort_SliceStable_perm (fun a b => volIndex a <? volIndex b) (List.filter (named name) cs)) as Hp.
  destruct (List.filter (named name) cs) as [|c l] eqn:Efc.
  { exfalso. apply Hn in Hin. by apply (filter_named_None cs name). }
  cbn [default from_option id] in *. split; [done|]. split.
  { intros Hnil. rewrite Hnil in Hp. symmetry in Hp. by apply Permutation_nil_r in Hp. }
  split; [done|]. split.
  { rewrite Hp. apply Forall_forall. intros x Hx. rewrite forallb_forall in Es.
    apply Es. by apply list_elem_of_In. }
  split; [done|]. intros d Hd Hdv.
  assert (Hdin : cname d ∈ List.filter isVideoName names).
  { apply elem_of_filter_b. split; [|done]. apply Hn. eauto. }
  rewrite Ef in Hdin. by apply list_elem_of_singleton in Hdin.
Qed.

(** The accepted extents tile the video: they are the chunks' runs end to
    end from offset 0, none negative, and their total is both the size the
    store reports and, when the header declares one, the unpacked size. *)
Lemma buildExtents_tiles c g exts t :
  buildExtents (c :: g) = Val (exts, t) -> total (lay 0 (c :: g)) <= i64_max ->
  exts = lay 0 (c :: g) /\ tiles 0 exts /\ t = total exts /\ (0 < unpSize c -> t = unpSize c).
Proof.
  unfold buildExtents. destruct (extents_loop (c :: g) 0 []) as [[ex st]| | |] eqn:El; try done.
  cbn [obind]. intros H Hm. case_if_in H; [done|]. injection H as -> ->.
  apply extents_loop_spec in El as (Hnn & -> & ->); [|lia|lia].
  split; [done|]. split; [by apply lay_tiles|]. rewrite app_nil_l, Z.add_0_l. split; [done|].
  intros Hu. apply andb_false_iff in E as [E|E]; bprop; lia.
Qed.

(** Whatever the volume readers do (short reads, faults, volumes that do
    not open), a Read of the video returns bytes of the video at the current
    position, no more than the buffer holds, and advances by exactly what it
    returned. *)
Lemma Read_returns_video contents openVolume volRead rs v plen b e v' :
  VolumeReader contents volRead -> store_ok contents rs -> 0 <= vpos v -> 0 <= plen <= i64_max ->
  Read openVolume volRead rs v plen = (b, e, v') ->
  b = take (length b) (drop (Z.to_nat (vpos v)) (video_bytes contents (extents rs))) /\
  zlen b <= plen /\ vpos v' = vpos v + zlen b.
Proof.
  intros HV Hok Hv Hp Hr.
  destruct (decide (plen = 0)) as [->|Hne].
  { unfold Read in Hr. simpl in Hr. injection Hr as <- _ <-. rewrite zlen_nil. repeat split; lia. }
  destruct (decide (vpos v < videoSize rs)) as [Hlt|Hge].
  - destruct (Read_inside contents openVolume volRead rs v plen Hok ltac:(lia) ltac:(lia)
      ltac:(unfold is_i64, i64_min; lia))
      as [(vol & _ & Hr')|(vol & off & lim & b' & e' & _ & Hlim & _ & Hbl & Hb & cv & Hr' & _)];
      rewrite Hr' in Hr; injection Hr as <- _ <-; cbn [vpos].
    + rewrite zlen_nil. repeat split; lia.
    + split; [done|]. split; [lia|done].
  - unfold Read in Hr. replace (plen =? 0) with false in Hr by (symmetry; apply Z.eqb_neq; lia).
    replace (videoSize rs <=? vpos v) with true in Hr by (symmetry; apply Z.leb_le; lia).
    injection Hr as <- _ <-. rewrite zlen_nil. repeat split; lia.
Qed.

(** C14: Over healthy volumes the reader delivers the whole video: reading from
    the start until EOF, with any buffer size, ends within one call per byte
    and returns exactly the stored runs in order. *)
Theorem read_all_delivers_video contents openVolume volRead rs plen fuel :
  VolumeReader contents volRead -> Healthy contents volRead -> (forall vol, openVolume vol = true) ->
  store_ok contents rs -> 0 < plen <= i64_max -> videoSize rs < Z.of_nat fuel ->
  read_all openVolume volRead fuel rs (mkVideo 0 None) plen =
  (video_bytes contents (extents rs), REOF).
Proof.
  intros HV HH Ho Hok Hp Hf. pose proof Hok as [Ht Hs _ _]. pose proof (total_nonneg _ _ Ht).
  apply (read_all_from contents openVolume volRead rs plen fuel (mkVideo 0 None)); try done;
    unfold is_i64, i64_min; cbn [vpos]; lia.
Qed.

(** The concurrent probe is deterministic: whatever order the volume
    parsers finish in, the chunks come back flattened in volume order. *)
Lemma probeVolumes_in_order n (parsed : nat -> list rarChunk) events :
  events ≡ₚ map (fun i => (i, Parsed (parsed i))) (seq 0 n) ->
  probeVolumes n events = Val (concat (map parsed (seq 0 n))).
Proof.
  intros Hp. unfold probeVolumes. set (s0 := mkProbe (replicate n []) None).
  destruct (probe_fold_ok parsed events s0) as (H1 & H2 & H3).
  { rewrite Hp. apply Forall_forall. intros ev (i & -> & _)%list_elem_of_fmap. done. }
  rewrite H1. cbn [firstErr s0]. do 2 f_equal. apply list_eq. intros i.
  unfold s0 in H2 at 2. cbn [perVol] in H2. rewrite length_replicate in H2.
  destruct (decide (i < n)%nat) as [Hi|Hi].
  - rewrite H3 by (unfold s0; cbn [perVol]; by rewrite length_replicate).
    rewrite decide_True.
    + rewrite list_lookup_fmap, lookup_seq_lt by done. done.
    + rewrite Hp, map_map. cbn [fst]. rewrite map_id. apply elem_of_seq. lia.
  - rewrite !lookup_ge_None_2; [done|rewrite length_map, length_seq; lia|lia].
Qed.

(** ** Witnesses *)

Definition demo_volume (k : nat) : File :=
  mkFile [] 0 ([QUOTE] ++ classic_name (str "movie") (Z.of_nat k) ++ [QUOTE]) [] [].

(** Three volumes of a classic set listed backwards. *)
Lemma sortRarVolumes_classic_witness :
  sortRarVolumes [demo_volume 2; demo_volume 1; demo_volume 0] =
  [demo_volume 0; demo_volume 1; demo_volume 2].
Proof.
  apply (sortRarVolumes_classic (str "movie")).
  - reflexivity.
  - simpl. lia.
  - intros i f Hi. do 3 (destruct i as [|i]; [injection Hi as <-; reflexivity|]). discriminate.
  - exact (Permutation_rev [demo_volume 2; demo_volume 1; demo_volume 0]).
Defined.

Definition demo_chunks : list rarChunk :=
  [mkChunk (str "m.mkv") 1 20 3 5 true false; mkChunk (str "m.nfo") 0 9 1 1 false false;
   mkChunk (str "m.mkv") 0 40 2 5 true false].
Definition demo_video : list rarChunk :=
  [mkChunk (str "m.mkv") 0 40 2 5 true false; mkChunk (str "m.mkv") 1 20 3 5 true false].

(** The video of the demo archive is its two stored chunks in volume order. *)
Lemma selectVideo_sound_witness :
  selectVideo demo_chunks = Val demo_video /\
  Forall (fun c => encrypted c = false) demo_chunks /\
  exists name, isVideoName name = true /\ demo_video <> [] /\
    demo_video ≡ₚ List.filter (named name) demo_chunks /\
    Forall (fun c => stored c = true) demo_video /\
    StronglySorted (fun a b => volIndex a <= volIndex b) demo_video /\
    (forall c, c ∈ demo_chunks -> isVideoName (cname c) = true -> cname c = name).
Proof. split; [reflexivity|]. apply (selectVideo_sound demo_chunks demo_video). reflexivity. Defined.

Definition demo_extents : list extent := [mkExtent 0 2 0 40; mkExtent 2 3 1 20].

(** The extents of the demo video. *)
Lemma buildExtents_tiles_witness :
  buildExtents demo_video = Val (demo_extents, 5) /\ tiles 0 demo_extents /\ 5 = total demo_extents.
Proof.
  split; [reflexivity|].
  destruct (buildExtents_tiles (mkChunk (str "m.mkv") 0 40 2 5 true false)
    [mkChunk (str "m.mkv") 1 20 3 5 true false] demo_extents 5) as (_ & Ht & Hs & _).
  - reflexivity.
  - vm_compute. congruence.
  - split; [exact Ht|exact Hs].
Defined.

(** Two containers and a reader that returns at most two bytes a call. *)
Definition demo_contents (vol : Z) : bytes := map (fun i => vol * 100 + Z.of_nat i) (seq 0 50).
Definition demo_read (vol off lim : Z) : bytes * rerr :=
  let b := take (Z.to_nat (Z.min 2 lim)) (drop (Z.to_nat off) (demo_contents vol)) in
  (b, match b with [] => REOF | _ => RNil end).
Definition demo_store : RarStore := mkStore [] demo_extents (str "m.mkv") 5.

Lemma demo_read_reader : VolumeReader demo_contents demo_read.
Proof.
  intros vol off lim b e H Ho Hl. unfold demo_read in H. injection H as <- _.
  split; [unfold zlen; rewrite length_take; lia|].
  rewrite length_take. destruct (Nat.min_spec (Z.to_nat (Z.min 2 lim)) (length (drop (Z.to_nat off) (demo_contents vol)))) as [[_ ->]|[Hle ->]].
  - done.
  - rewrite !take_ge by lia. done.
Defined.

Lemma demo_read_healthy : Healthy demo_contents demo_read.
Proof.
  intros vol off lim b e H Ho Hl. unfold demo_read in H.
  set (b0 := take _ _) in H.
  assert (Hb : 0 < zlen b0).
  { unfold b0, zlen in *. rewrite length_take, length_drop. lia. }
  destruct b0 as [|x b0]; [unfold zlen in Hb; simpl in Hb; lia|].
  injection H as <- <-. split; [done|by left].
Defined.

Lemma demo_store_ok : store_ok demo_contents demo_store.
Proof.
  constructor.
  - simpl. lia.
  - reflexivity.
  - vm_compute. congruence.
  - refine (bool_decide_unpack _ _). vm_compute. exact I.
Defined.

(** A read that crosses from the demo's first volume stops at its end. *)
Lemma Read_returns_video_witness :
  let b := fst (fst (Read (fun _ => true) demo_read demo_store (mkVideo 1 None) 4)) in
  b = [41] /\ b = take (length b) (drop 1 (video_bytes demo_contents demo_extents)) /\ zlen b <= 4.
Proof.
  cbv zeta. split; [reflexivity|].
  destruct (Read_returns_video demo_contents (fun _ => true) demo_read demo_store (mkVideo 1 None) 4
    [41] RNil (mkVideo 2 (Some 0)) demo_read_reader demo_store_ok) as (H1 & H2 & _);
    [vm_compute; congruence|vm_compute; split; congruence|reflexivity|].
  split; [exact H1|exact H2].
Defined.

(** The demo video read in full with a four-byte buffer. *)
Lemma read_all_delivers_video_witness :
  read_all (fun _ => true) demo_read 6 demo_store (mkVideo 0 None) 4 = ([40; 41; 120; 121; 122], REOF).
Proof.
  apply (read_all_delivers_video demo_contents (fun _ => true) demo_read demo_store 4 6
    demo_read_reader demo_read_healthy (fun _ => eq_refl) demo_store_ok).
  - split; [reflexivity|vm_compute; congruence].
  - reflexivity.
Defined.

(** Two volumes, the second parsed first. *)
Lemma probeVolumes_in_order_witness :
  probeVolumes 2 [(1%nat, Parsed [mkChunk (str "m.mkv") 1 20 3 5 true false]);
                  (0%nat, Parsed [mkChunk (str "m.mkv") 0 40 2 5 true false])] = Val demo_video.
Proof.
  apply (probeVolumes_in_order 2 (fun i => if Nat.eqb i 0
    then [mkChunk (str "m.mkv") 0 40 2 5 true false] else [mkChunk (str "m.mkv") 1 20 3 5 true false])).
  apply Permutation_swap.
Defined.
