(* ===== verification/Budget.v ===== *)
(** The NNTP byte budget and the sizes derived from memory:
    internal/usenet/stream/budget.go and internal/usenet/stream/cachesize.go,
    with the probe budget of rarstore.go.

    [reserve] and [settle] are the calls as one goroutine sees them; the machine
    of [step] splits a call at its atomic operations, so that concurrent fetches
    interleave between them. *)
From Stdlib Require Import ZArith Lia Ascii String.
From stdpp Require Import prelude list strings.
From S2P Require Import Prelude GoStrings Nzb.

Open Scope Z_scope.

Record FetchBudget := mkBudget { remaining : Z; spent : Z }.

(** [None] is the nil, unbounded budget. *)
Definition NewFetchBudget (maxBytes : Z) : option FetchBudget :=
  if maxBytes <=? 0 then None else Some (mkBudget maxBytes 0).

(** One atomic [remaining.Add]. *)
Definition add_remaining (b : FetchBudget) (d : Z) : FetchBudget :=
  mkBudget (wrap_i64 (remaining b + d)) (spent b).
Definition add_spent (b : FetchBudget) (d : Z) : FetchBudget :=
  mkBudget (remaining b) (wrap_i64 (spent b + d)).

Definition reserve (ob : option FetchBudget) (est : Z) : bool * option FetchBudget :=
  match ob with
  | None => (true, None)
  | Some b =>
      if est <=? 0 then (0 <? remaining b, Some b)
      else
        let b' := add_remaining b (- est) in
        if remaining b' <? 0 then (false, Some (add_remaining b' est)) else (true, Some b')
  end.

(** The two counters settle adds to, one after the other. *)
Definition settle_spent (b : FetchBudget) (actual : Z) : FetchBudget :=
  if 0 <? actual then add_spent b actual else b.
Definition settle_remaining (b : FetchBudget) (reserved actual : Z) : FetchBudget :=
  if 0 <? reserved then add_remaining b (wrap_i64 (reserved - actual)) else add_remaining b (- actual).
Definition settle_budget (b : FetchBudget) (reserved actual : Z) : FetchBudget :=
  settle_remaining (settle_spent b actual) reserved actual.
Definition settle (ob : option FetchBudget) (reserved actual : Z) : option FetchBudget :=
  match ob with None => None | Some b => Some (settle_budget b reserved actual) end.

Definition Spent (ob : option FetchBudget) : Z := match ob with None => 0 | Some b => spent b end.

(** A reader that takes a budget, and the budget it was given. *)
Definition ApplyFetchBudget (budgeted : bool) (b : option FetchBudget) : bool :=
  match b with None => false | Some _ => budgeted end.

(** probeBudget of rarstore.go: three articles of each volume's first non-empty
    segment size. *)
Fixpoint first_size (segs : list Segment) : Z :=
  match segs with
  | [] => 0
  | s :: segs' => if 0 <? sBytes s then sBytes s else first_size segs'
  end.
Definition probeBudget (volumes : list File) : option FetchBudget :=
  NewFetchBudget (wrap_i64 (fold_left (fun t v => wrap_i64 (t + first_size (fSegments v))) volumes 0 * 3)).

(** * Sizes from memory (cachesize.go) *)

Definition MiB : Z := 2 ^ 20.
Definition parseArticleCacheMB (v : bytes) : option Z :=
  match ParseInt (TrimSpace v) with
  | (mb, NumOk) => if (mb <? 8) || (65536 <? mb) then None else Some (wrap_i64 (Z.shiftl mb 20))
  | _ => None
  end.
(** [total] is sysinfo.TotalMemory's uint64, [None] when unknown. *)
Definition articleCacheForMemory (total : option Z) : Z :=
  match total with
  | None => 16 * MiB
  | Some t => Z.min (Z.max (wrap_i64 (t / 128)) (16 * MiB)) (32 * MiB)
  end.
Definition readaheadBoostForMemory (total : option Z) : Z :=
  match total with
  | None => 0
  | Some t => Z.min (wrap_i64 (t / 64)) (96 * MiB)
  end.
(** [env] is the override variable, [None] when unset. *)
Definition defaultArticleCacheBytes (env : option bytes) (total : option Z) : Z :=
  match env with
  | Some v => match parseArticleCacheMB v with Some b => b | None => articleCacheForMemory total end
  | None => articleCacheForMemory total
  end.
Definition defaultReadaheadBoostBytes (env : option bytes) (total : option Z) : Z :=
  match env with
  | Some v => match parseArticleCacheMB v with Some _ => 0 | None => readaheadBoostForMemory total end
  | None => readaheadBoostForMemory total
  end.

(** * Concurrent fetches on one budget *)

(** Where a fetch stands: not in a call; between a failed [Add] and its put-back;
    holding a reservation; between the two counters of its settling. *)
Inductive phase := Idle | Denied (est : Z) | Holding (est : Z) | Settling (est actual : Z).
Inductive event :=
| EReserve (i : nat) (est : Z)
| EPutBack (i : nat)
| ESpend (i : nat) (actual : Z)
| ERefund (i : nat).

Record machine := mkMachine { budget : FetchBudget; fetches : list phase }.

Definition step (m : machine) (ev : event) : option machine :=
  match ev with
  | EReserve i est =>
      match fetches m !! i with
      | Some Idle =>
          let b := add_remaining (budget m) (- est) in
          Some (mkMachine b (<[i := if remaining b <? 0 then Denied est else Holding est]> (fetches m)))
      | _ => None
      end
  | EPutBack i =>
      match fetches m !! i with
      | Some (Denied est) => Some (mkMachine (add_remaining (budget m) est) (<[i := Idle]> (fetches m)))
      | _ => None
      end
  | ESpend i actual =>
      match fetches m !! i with
      | Some (Holding est) =>
          Some (mkMachine (settle_spent (budget m) actual) (<[i := Settling est actual]> (fetches m)))
      | _ => None
      end
  | ERefund i =>
      match fetches m !! i with
      | Some (Settling est actual) =>
          Some (mkMachine (settle_remaining (budget m) est actual) (<[i := Idle]> (fetches m)))
      | _ => None
      end
  end.
Fixpoint steps (m : machine) (evs : list event) : option machine :=
  match evs with
  | [] => Some m
  | ev :: evs' => match step m ev with Some m' => steps m' evs' | None => None end
  end.

(** * The accounting invariant *)

Definition held (p : phase) : Z :=
  match p with Holding e => e | Settling e actual => e - actual | _ => 0 end.
Definition owed (p : phase) : Z := match p with Denied e => e | _ => 0 end.
Fixpoint sum_of (f : phase -> Z) (l : list phase) : Z :=
  match l with [] => 0 | p :: l' => f p + sum_of f l' end.

Lemma sum_of_insert f l i p q :
  l !! i = Some p -> sum_of f (<[i := q]> l) = sum_of f l - f p + f q.
Proof.
  revert i. induction l as [|x l IH]; intros i Hi; [done|]. destruct i as [|i]; simpl in *.
  - injection Hi as ->. lia.
  - rewrite IH by done. lia.
Qed.

Section Ceiling.
Context (maxBytes E : Z) (n : nat).

(** Estimates are positive and at most [E]; an article on the wire is no larger
    than its estimate. *)
Definition event_ok (m : machine) (ev : event) : Prop :=
  match ev with
  | EReserve _ est => 0 < est <= E
  | EPutBack _ => True
  | ESpend i actual =>
      match fetches m !! i with Some (Holding est) => 0 <= actual <= est | _ => True end
  | ERefund _ => True
  end.
Definition phase_ok (p : phase) : Prop :=
  match p with
  | Idle => True
  | Denied e | Holding e => 0 < e <= E
  | Settling e actual => 0 < e <= E /\ 0 <= actual <= e
  end.
Fixpoint events_ok (m : machine) (evs : list event) : Prop :=
  match evs with
  | [] => True
  | ev :: evs' => event_ok m ev /\ match step m ev with Some m' => events_ok m' evs' | None => True end
  end.

Record accounted (m : machine) : Prop := {
  ac_len : length (fetches m) = n;
  ac_phase : Forall phase_ok (fetches m);
  ac_spent : 0 <= spent (budget m);
  ac_ceiling : spent (budget m) + sum_of held (fetches m) <= maxBytes;
  ac_exact : remaining (budget m) =
    maxBytes - spent (budget m) - sum_of held (fetches m) - sum_of owed (fetches m)
}.

Lemma sum_owed_bound l :
  Forall phase_ok l ->
  0 <= sum_of held l /\ 0 <= sum_of owed l /\
  sum_of held l + sum_of owed l <= Z.of_nat (length l) * Z.max 0 E.
Proof.
  induction 1 as [|p l Hp Hl IH]; cbn [sum_of length]; [lia|].
  rewrite Nat2Z.inj_succ, Z.mul_succ_l. destruct p; simpl in *; lia.
Qed.

Lemma owed_insert_slack l i :
  l !! i = Some Idle ->
  Forall phase_ok l ->
  sum_of held l + sum_of owed l + Z.max 0 E <= Z.of_nat (length l) * Z.max 0 E.
Proof.
  intros Hi Hl. revert i Hi. induction Hl as [|p l Hp Hl IH]; intros i Hi; [done|]. cbn [sum_of length].
  rewrite Nat2Z.inj_succ, Z.mul_succ_l. destruct i as [|i]; simpl in Hi.
  - injection Hi as ->. pose proof (sum_owed_bound l Hl). simpl. lia.
  - specialize (IH i Hi). destruct p; simpl in *; lia.
Qed.

Lemma held_at_most l i p : Forall phase_ok l -> l !! i = Some p -> held p <= sum_of held l.
Proof.
  intros Hl Hi. pose proof (sum_of_insert held _ _ _ Idle Hi) as Hs.
  pose proof (sum_owed_bound (<[i := Idle]> l) ltac:(by apply Forall_insert)) as (? & _ & _). simpl in Hs. lia.
Qed.

Hypothesis Hmax : 0 <= maxBytes.
Hypothesis Hfit : maxBytes + Z.of_nat n * Z.max 0 E <= i64_max.

Lemma step_accounted m ev m' : accounted m -> event_ok m ev -> step m ev = Some m' -> accounted m'.
Proof.
  intros [Hl Hph Hsp Hce Hex] Hok Hs. pose proof (sum_owed_bound _ Hph) as (Hh0 & Ho0 & Hsum).
  unfold i64_max in *.
  destruct ev as [i est|i|i actual|i]; simpl in Hs; destruct (fetches m !! i) as [p|] eqn:Ei; try done;
    destruct p; try done; injection Hs as <-.
  - simpl in Hok. pose proof (owed_insert_slack _ _ Ei Hph) as Hslack. rewrite Hl in Hslack.
    assert (Hw : wrap_i64 (remaining (budget m) + - est) = remaining (budget m) - est).
    { rewrite wrap_i64_id; [lia|]. unfold is_i64, i64_min, i64_max. lia. }
    unfold add_remaining. rewrite Hw. cbn [remaining spent].
    set (q := if remaining (budget m) - est <? 0 then Denied est else Holding est).
    assert (Hq : held q + owed q = est /\ (0 < held q -> remaining (budget m) - est >= 0) /\ 0 <= held q /\ 0 <= owed q).
    { unfold q. destruct (remaining (budget m) - est <? 0) eqn:Eq; bprop; simpl; lia. }
    constructor; cbn [budget fetches remaining spent]; rewrite ?length_insert; try done.
    + apply Forall_insert; [done|]. unfold q. destruct (_ <? 0); simpl; lia.
    + rewrite (sum_of_insert held _ _ _ _ Ei). simpl. lia.
    + rewrite (sum_of_insert held _ _ _ _ Ei), (sum_of_insert owed _ _ _ _ Ei). simpl. lia.
  - pose proof (Forall_lookup_1 _ _ _ _ Hph Ei) as Hp. simpl in Hp.
    assert (Hle : owed (Denied est) <= sum_of owed (fetches m)).
    { pose proof (sum_of_insert owed _ _ _ Idle Ei) as Hi.
      pose proof (sum_owed_bound (<[i := Idle]> (fetches m))
        ltac:(apply Forall_insert; [done|done])) as (_ & Hi0 & _). simpl in *. lia. }
    simpl in Hle. rewrite Hl in Hsum.
    constructor; unfold add_remaining; cbn [budget fetches remaining spent]; rewrite ?length_insert; try done.
    + by apply Forall_insert.
    + rewrite (sum_of_insert held _ _ _ _ Ei). simpl. lia.
    + rewrite (sum_of_insert held _ _ _ _ Ei), (sum_of_insert owed _ _ _ _ Ei). simpl.
      rewrite wrap_i64_id; [lia|]. unfold is_i64, i64_min, i64_max. lia.
  - pose proof (Forall_lookup_1 _ _ _ _ Hph Ei) as Hp. simpl in Hp, Hok. rewrite Ei in Hok.
    pose proof (held_at_most _ _ _ Hph Ei) as Hle. simpl in Hle. rewrite Hl in Hsum.
    assert (Hset : settle_spent (budget m) actual = mkBudget (remaining (budget m)) (spent (budget m) + actual)).
    { unfold settle_spent. destruct (0 <? actual) eqn:Ea; bprop.
      - unfold add_spent. f_equal. rewrite wrap_i64_id; unfold is_i64, i64_min, i64_max; lia.
      - destruct (budget m). simpl. f_equal. lia. }
    rewrite Hset. constructor; cbn [budget fetches remaining spent]; rewrite ?length_insert; try done.
    + apply Forall_insert; [done|]. simpl. lia.
    + lia.
    + rewrite (sum_of_insert held _ _ _ _ Ei). simpl. lia.
    + rewrite (sum_of_insert held _ _ _ _ Ei), (sum_of_insert owed _ _ _ _ Ei). simpl. lia.
  - pose proof (Forall_lookup_1 _ _ _ _ Hph Ei) as Hp. simpl in Hp.
    pose proof (held_at_most _ _ _ Hph Ei) as Hle. simpl in Hle. rewrite Hl in Hsum.
    assert (Hset : settle_remaining (budget m) est actual =
      mkBudget (remaining (budget m) + (est - actual)) (spent (budget m))).
    { unfold settle_remaining. replace (0 <? est) with true by (symmetry; apply Z.ltb_lt; lia).
      unfold add_remaining. f_equal. rewrite !wrap_i64_id; unfold is_i64, i64_min, i64_max; try lia.
      rewrite wrap_i64_id; unfold is_i64, i64_min, i64_max; lia. }
    rewrite Hset. constructor; cbn [budget fetches remaining spent]; rewrite ?length_insert; try done.
    + by apply Forall_insert.
    + rewrite (sum_of_insert held _ _ _ _ Ei). simpl. lia.
    + rewrite (sum_of_insert held _ _ _ _ Ei), (sum_of_insert owed _ _ _ _ Ei). simpl. lia.
Qed.

Lemma steps_accounted m evs m' : accounted m -> events_ok m evs -> steps m evs = Some m' -> accounted m'.
Proof.
  revert m. induction evs as [|ev evs IH]; intros m Ha Hok Hs; simpl in *; [by injection Hs as <-|].
  destruct Hok as [Hok1 Hok2]. destruct (step m ev) as [m1|] eqn:E1; [|done].
  eapply IH; [|exact Hok2|exact Hs]. by eapply step_accounted.
Qed.

Lemma sum_of_idle f k : f Idle = 0 -> sum_of f (replicate k Idle) = 0.
Proof. intros Hf. induction k as [|k IH]; simpl; lia. Qed.

Lemma init_accounted : accounted (mkMachine (mkBudget maxBytes 0) (replicate n Idle)).
Proof.
  constructor; cbn [budget fetches remaining spent]; rewrite ?sum_of_idle by done; try lia.
  - apply length_replicate.
  - by apply Forall_replicate.
Qed.
End Ceiling.

(** * Claims *)

(** C13: The byte ceiling holds under concurrency: for any number of fetches
    interleaving their atomic operations on one budget, with estimates at most
    [E] and articles no larger than their estimates, the bytes spent plus the
    bytes reserved by fetches in progress never exceed the budget, and what is
    left is exactly the budget less what is spent, reserved, or about to be put
    back. *)
Theorem budget_ceiling maxBytes E n evs m :
  0 < maxBytes -> maxBytes + Z.of_nat n * Z.max 0 E <= i64_max ->
  let m0 := mkMachine (mkBudget maxBytes 0) (replicate n Idle) in
  events_ok E m0 evs -> steps m0 evs = Some m ->
  spent (budget m) + sum_of held (fetches m) <= maxBytes /\
  remaining (budget m) =
    maxBytes - spent (budget m) - sum_of held (fetches m) - sum_of owed (fetches m).
Proof.
  intros Hm Hf m0 Hok Hs.
  destruct (steps_accounted maxBytes E n ltac:(lia) Hf m0 evs m) as [_ _ _ H1 H2]; try done.
  apply init_accounted. lia.
Qed.

(** The defaults stay in their documented bounds whatever the environment
    and the memory size: the cache is 16 to 32 MiB, or 8 MiB to 64 GiB when set
    by hand; the boost is 0 to 96 MiB, and 0 when the cache is set by hand. *)
Lemma cache_default_bounds env total :
  (forall t, total = Some t -> 0 <= t < 2 ^ 64) ->
  8 * MiB <= defaultArticleCacheBytes env total <= 65536 * MiB /\
  0 <= defaultReadaheadBoostBytes env total <= 96 * MiB /\
  match env with
  | Some v => parseArticleCacheMB v <> None -> defaultReadaheadBoostBytes env total = 0
  | None => 16 * MiB <= defaultArticleCacheBytes env total <= 32 * MiB
  end.
Proof.
  intros Ht.
  assert (Hc : 16 * MiB <= articleCacheForMemory total <= 32 * MiB).
  { unfold articleCacheForMemory, MiB. destruct total; lia. }
  assert (Hb : 0 <= readaheadBoostForMemory total <= 96 * MiB).
  { unfold readaheadBoostForMemory, MiB. destruct total as [t|]; [|lia]. specialize (Ht t eq_refl).
    assert (0 <= t / 64 < 2 ^ 58) by (split; [apply Z.div_pos; lia|apply Z.div_lt_upper_bound; lia]).
    rewrite wrap_i64_id by (unfold is_i64, i64_min, i64_max; lia). lia. }
  unfold defaultArticleCacheBytes, defaultReadaheadBoostBytes.
  destruct env as [v|]; [|unfold MiB in *; repeat split; lia].
  destruct (parseArticleCacheMB v) as [b|] eqn:Ep; [|unfold MiB in *; repeat split; try lia; done].
  split; [|split; [unfold MiB; lia|done]].
  unfold parseArticleCacheMB in Ep. destruct (ParseInt (TrimSpace v)) as [mb []]; try done.
  destruct ((mb <? 8) || (65536 <? mb)) eqn:E; [done|]. bprop. injection Ep as <-.
  rewrite Z.shiftl_mul_pow2 by lia. unfold MiB.
  rewrite wrap_i64_id; unfold is_i64, i64_min, i64_max; lia.
Qed.

(** Three fetches of 40 on a budget of 100: the third is denied. *)
Lemma budget_ceiling_witness :
  exists m, steps (mkMachine (mkBudget 100 0) (replicate 3 Idle))
      [EReserve 0 40; EReserve 1 40; EReserve 2 40; ESpend 0 38; EPutBack 2; ERefund 0; ESpend 1 0; ERefund 1] = Some m /\
    remaining (budget m) = 62 /\
    spent (budget m) + sum_of held (fetches m) <= 100.
Proof.
  eexists. split; [reflexivity|]. split; [reflexivity|].
  apply (budget_ceiling 100 40 3
    [EReserve 0 40; EReserve 1 40; EReserve 2 40; ESpend 0 38; EPutBack 2; ERefund 0; ESpend 1 0; ERefund 1]).
  - lia.
  - vm_compute. congruence.
  - simpl. repeat split; lia.
  - reflexivity.
Defined.

(** The bounds with a hand-set 8 MiB cache and 8 GiB of memory. *)
Lemma cache_default_bounds_witness :
  defaultArticleCacheBytes (Some (str " 8 ")) (Some (2 ^ 33)) = 8 * MiB /\
  8 * MiB <= defaultArticleCacheBytes (Some (str " 8 ")) (Some (2 ^ 33)) <= 65536 * MiB.
Proof.
  split; [reflexivity|]. apply (cache_default_bounds (Some (str " 8 ")) (Some (2 ^ 33))).
  intros t Ht. injection Ht as <-. lia.
Defined.
