(* ===== verification/BufPool.v ===== *)
(** The pool of article buffers: internal/usenet/stream/bufpool.go with the
    allocation of bufalloc_unix.go.

    A buffer is its backing array: an address and a capacity, and whether the
    array is a mapping of its own or lives on the Go heap (the source tells the
    two apart by capacity alone, which is one of the things proved).  get, put
    and drain each hold the pool's lock around its fields and touch nothing
    shared outside it, so a call is one step of the machine at the end. *)
From Stdlib Require Import ZArith Lia.
From stdpp Require Import prelude list.
From S2P Require Import Prelude.

Open Scope Z_scope.

Record buffer := mkBuf { baddr : nat; bcap : Z; bmapped : bool }.
Record bufferPool := mkPool { free : list buffer; pbytes : Z; reused : Z }.

Definition maxPooledBufferBytes : Z := Z.shiftl 32 20.
Definition maxPooledBuffers : nat := 64.
Definition offHeapMinBytes : Z := Z.shiftl 64 10.

Definition emptyPool : bufferPool := mkPool [] 0 0.

Section Pool.
Context (pageSize : Z).

(** ** take *)

Definition fits (need : Z) (b : buffer) : bool :=
  (need <=? bcap b) && (bcap b <=? need + Z.max (Z.quot need 8) pageSize).
(** The scan: the index and capacity of the best buffer so far. *)
Fixpoint best_from (i : nat) (bs : list buffer) (need : Z) (best : option (nat * Z)) : option (nat * Z) :=
  match bs with
  | [] => best
  | b :: bs' =>
      best_from (S i) bs' need
        (if fits need b && match best with Some (_, c) => bcap b <? c | None => true end
         then Some (i, bcap b) else best)
  end.
(** Named for the method; [take] alone is the list function. *)
Definition take_free (p : bufferPool) (need : Z) : option (buffer * bufferPool) :=
  match best_from 0 (free p) need None with
  | None => None
  | Some (best, _) =>
      match free p !! best with
      | Some b => Some (b, mkPool (take best (free p) ++ drop (S best) (free p)) (pbytes p - bcap b) (reused p))
      | None => None
      end
  end.

(** ** get *)

(** Whole pages, or nothing when the kernel refuses. *)
Definition allocOffHeap (addr : nat) (n : Z) (granted : bool) : option buffer :=
  if granted then Some (mkBuf addr (Z.quot (n + pageSize - 1) pageSize * pageSize) true) else None.
(** [addr] is the address the allocator picks, [granted] the kernel's answer. *)
Definition get (p : bufferPool) (need : Z) (addr : nat) (granted : bool) : buffer * bufferPool :=
  match take_free p need with
  | Some (b, p') => (b, mkPool (free p') (pbytes p') (reused p' + 1))
  | None =>
      let heap := mkBuf addr (Z.min need (offHeapMinBytes - 1)) false in
      if offHeapMinBytes <=? need
      then match allocOffHeap addr need granted with Some b => (b, p) | None => (heap, p) end
      else (heap, p)
  end.
End Pool.

(** ** put and drain *)

(** The buffers releaseBuffers unmaps. *)
Definition releaseBuffers (bs : list buffer) : list buffer :=
  List.filter (fun b => offHeapMinBytes <=? bcap b) bs.

(** The loop that drops the oldest: what it drops, what stays, its bytes. *)
Fixpoint drop_oldest (bs : list buffer) (bytes need : Z) : list buffer * list buffer * Z :=
  match bs with
  | [] => ([], [], bytes)
  | b :: bs' =>
      if (maxPooledBuffers <=? length bs)%nat || (maxPooledBufferBytes <? bytes + need)
      then let '(dropped, kept, bytes') := drop_oldest bs' (bytes - bcap b) need in (b :: dropped, kept, bytes')
      else ([], bs, bytes)
  end.
(** The pool, and the buffers unmapped. *)
Definition put (p : bufferPool) (buf : buffer) : bufferPool * list buffer :=
  if bcap buf =? 0 then (p, [])
  else if maxPooledBufferBytes <? bcap buf then (p, releaseBuffers [buf])
  else
    let '(dropped, kept, bytes) := drop_oldest (free p) (pbytes p) (bcap buf) in
    (mkPool (kept ++ [buf]) (bytes + bcap buf) (reused p), releaseBuffers dropped).
Definition drain (p : bufferPool) : bufferPool * list buffer :=
  (mkPool [] 0 (reused p), releaseBuffers (free p)).

(** * The pool in use

    [held] are the buffers fetches and parts use, [gone] the addresses of those
    unmapped.  A heap buffer the pool drops is left to the collector. *)
Record system := mkSystem { pool : bufferPool; held : list buffer; gone : list buffer; fresh : nat }.
Inductive event := EGet (need : Z) (granted : bool) | EPut (i : nat) | EDrain.

Definition step (page : Z) (s : system) (ev : event) : system :=
  match ev with
  | EGet need granted =>
      let '(b, p) := get page (pool s) need (fresh s) granted in
      mkSystem p (b :: held s) (gone s) (S (fresh s))
  | EPut i =>
      match held s !! i with
      | Some b => let '(p, un) := put (pool s) b in
                  mkSystem p (delete i (held s)) (un ++ gone s) (fresh s)
      | None => s
      end
  | EDrain => let '(p, un) := drain (pool s) in mkSystem p (held s) (un ++ gone s) (fresh s)
  end.
Definition run (page : Z) (evs : list event) : system :=
  fold_left (step page) evs (mkSystem emptyPool [] [] 0).

(** * The scan finds the best fit *)

Abbreviation total := (zsum bcap).

(** [best] is the first of the fitting buffers of [bs] with the least capacity. *)
Definition best_of (page need : Z) (bs : list buffer) (best : option (nat * Z)) : Prop :=
  match best with
  | None => Forall (fun b => fits page need b = false) bs
  | Some (i, c) =>
      exists b, bs !! i = Some b /\ bcap b = c /\ fits page need b = true /\
        forall j b', bs !! j = Some b' -> fits page need b' = true -> c <= bcap b' /\ (bcap b' = c -> (i <= j)%nat)
  end.

Lemma best_of_snoc page need bs best b :
  best_of page need bs best ->
  best_of page need (bs ++ [b])
    (if fits page need b && match best with Some (_, c) => bcap b <? c | None => true end
     then Some (length bs, bcap b) else best).
Proof.
  assert (Hl : (bs ++ [b]) !! length bs = Some b) by (by rewrite lookup_app_r, Nat.sub_diag).
  assert (Hj : forall j b', (bs ++ [b]) !! j = Some b' -> bs !! j = Some b' \/ j = length bs /\ b' = b).
  { intros j b' [?|[? Hx]]%lookup_app_Some; [by left|].
    apply list_lookup_singleton_Some in Hx as [? <-]. right. split; [lia|done]. }
  destruct (fits page need b) eqn:Ef, best as [[i c]|]; cbn [andb best_of].
  - intros (bi & Hi & Hc & Hf & Hmin). case_if; bprop.
    + exists b. repeat split_and; try done. intros j b' [Hj'|[-> ->]]%Hj Hf'; [|lia].
      specialize (Hmin j b' Hj' Hf'). lia.
    + exists bi. rewrite lookup_app_l by (by eapply lookup_lt_Some). repeat split_and; try done.
      intros j b' [Hj'|[-> ->]]%Hj Hf'; [by eapply Hmin|]. apply lookup_lt_Some in Hi. lia.
  - intros Hn. exists b. repeat split_and; try done. intros j b' [Hj'|[-> ->]]%Hj Hf'; [|lia].
    rewrite Forall_lookup in Hn. by rewrite (Hn j b' Hj') in Hf'.
  - intros (bi & Hi & Hc & Hf & Hmin). exists bi.
    rewrite lookup_app_l by (by eapply lookup_lt_Some). repeat split_and; try done.
    intros j b' [Hj'|[-> ->]]%Hj Hf'; [by eapply Hmin|congruence].
  - intros Hn. apply Forall_app. by split; [|constructor].
Qed.

Lemma best_from_spec page need bs done_ best :
  best_of page need done_ best -> best_of page need (done_ ++ bs) (best_from page (length done_) bs need best).
Proof.
  revert done_ best. induction bs as [|b bs IH]; intros done_ best H; cbn [best_from]; [by rewrite app_nil_r|].
  rewrite cons_middle, app_assoc. specialize (IH (done_ ++ [b])). rewrite length_app, Nat.add_comm in IH.
  apply IH. by apply best_of_snoc.
Qed.
Lemma best_from_best page need bs : best_of page need bs (best_from page 0 bs need None).
Proof. apply (best_from_spec page need bs [] None). constructor. Qed.

(** Take hands out a buffer that fits (room for the need, at most an eighth
    or a page above it) and no idle buffer that fits is smaller; the others keep
    their order and the byte count drops by its capacity; it finds nothing only
    when no idle buffer fits. *)
Lemma take_best_fit page p need :
  match take_free page p need with
  | Some (b, p') =>
      need <= bcap b <= need + Z.max (Z.quot need 8) page /\
      (forall b', b' ∈ free p -> fits page need b' = true -> bcap b <= bcap b') /\
      (exists l k, free p = l ++ b :: k /\ free p' = l ++ k) /\
      pbytes p' = pbytes p - bcap b
  | None => forall b, b ∈ free p -> fits page need b = false
  end.
Proof.
  unfold take_free. pose proof (best_from_best page need (free p)) as H.
  destruct (best_from page 0 (free p) need None) as [[i c]|]; cbn [best_of] in H.
  - destruct H as (b & Hi & Hc & Hf & Hmin). rewrite Hi. split_and!.
    + unfold fits in Hf. by bprop.
    + unfold fits in Hf. by bprop.
    + intros b' [j Hj]%list_elem_of_lookup Hf'. rewrite Hc. by apply (Hmin j b').
    + exists (take i (free p)), (drop (S i) (free p)). split; [|done]. symmetry. by apply take_drop_middle.
    + done.
  - by rewrite Forall_forall in H.
Qed.

(** * The pool's invariant *)

Record pool_wf (p : bufferPool) : Prop := {
  wf_bytes : pbytes p = total (free p);
  wf_caps : Forall (fun b => 0 < bcap b) (free p);
  wf_max : pbytes p <= maxPooledBufferBytes;
  wf_count : (length (free p) <= maxPooledBuffers)%nat
}.

(** The capacity tells a mapping from a heap buffer. *)
Definition classified (b : buffer) : Prop := bmapped b = (offHeapMinBytes <=? bcap b).

Definition everywhere (s : system) : list buffer := free (pool s) ++ held s ++ gone s.

Record sys_ok (s : system) : Prop := {
  ok_pool : pool_wf (pool s);
  ok_distinct : NoDup (baddr <$> everywhere s);
  ok_fresh : Forall (fun b => (baddr b < fresh s)%nat) (everywhere s);
  ok_kind : Forall (fun b => classified b /\ 0 <= bcap b) (everywhere s);
  ok_gone : Forall (fun b => bmapped b = true) (gone s)
}.

Lemma drop_oldest_spec bs bytes need :
  let '(dropped, kept, bytes') := drop_oldest bs bytes need in
  bs = dropped ++ kept /\ bytes' = bytes - total dropped /\
  ((maxPooledBuffers <= length kept)%nat \/ maxPooledBufferBytes < bytes' + need -> kept = []).
Proof.
  revert bytes. induction bs as [|b bs IH]; intros bytes;
    [cbn; rewrite zsum_nil; split_and!; [done|lia|done]|].
  cbn [drop_oldest]. case_if.
  - specialize (IH (bytes - bcap b)). destruct (drop_oldest bs (bytes - bcap b) need) as [[dr kept] b'].
    destruct IH as (-> & -> & Hk). split_and!; [done|rewrite zsum_cons; lia|done].
  - split_and!; [done|rewrite zsum_nil; lia|]. intros H. exfalso.
    apply orb_false_iff in E as [E1%Nat.leb_gt E2%Z.ltb_ge]. lia.
Qed.

Lemma take_free_split page p need b p' :
  take_free page p need = Some (b, p') ->
  free p ≡ₚ b :: free p' /\ pbytes p' = pbytes p - bcap b /\ reused p' = reused p.
Proof.
  unfold take_free. intros H. destruct (best_from page 0 (free p) need None) as [[i c]|]; [|done].
  destruct (free p !! i) as [x|] eqn:E; [|done]. injection H as -> <-. cbn. split_and!; [|done|done].
  rewrite <- (take_drop_middle _ _ _ E) at 1. by rewrite Permutation_middle.
Qed.
Lemma get_wf page p need addr granted : pool_wf p -> pool_wf (snd (get page p need addr granted)).
Proof.
  intros Hw. unfold get. destruct (take_free page p need) as [[b p']|] eqn:E.
  - destruct (take_free_split _ _ _ _ _ E) as (Hp & Hb & _). destruct Hw as [H1 H2 H3 H4].
    rewrite (zsum_perm _ _ _ Hp) in H1. rewrite Hp in H2. apply Forall_cons in H2 as [H2 H2'].
    apply Permutation_length in Hp. cbn in Hp. rewrite zsum_cons in H1.
    cbn [snd]. constructor; cbn [pbytes free]; [lia|done|lia|lia].
  - case_if; [|done]. unfold allocOffHeap. by destruct granted.
Qed.

Lemma releaseBuffers_spec bs :
  releaseBuffers bs ⊆+ bs /\ Forall (fun b => offHeapMinBytes <= bcap b) (releaseBuffers bs).
Proof.
  unfold releaseBuffers. split.
  - induction bs as [|x l IH]; cbn; [done|]. case_if; [by constructor|by constructor 4].
  - apply Forall_forall. intros x Hx%list_elem_of_In. apply filter_In in Hx as [_ Hx]. by bprop.
Qed.

(** The pool's part of put: what it drops or unmaps, and that it stays well formed. *)
Lemma put_wf p b :
  pool_wf p -> 0 <= bcap b ->
  pool_wf (fst (put p b)) /\
  free (fst (put p b)) ++ snd (put p b) ⊆+ b :: free p /\
  Forall (fun x => offHeapMinBytes <= bcap x) (snd (put p b)).
Proof.
  intros Hw Hb.
  unfold put. case_if; bprop; [cbn; rewrite app_nil_r; split_and!; [done|by constructor 4|constructor]|].
  case_if; bprop.
  - cbn [fst snd]. split_and!; [done| |apply (releaseBuffers_spec [b])].
    rewrite Permutation_app_comm. change (b :: free p) with ([b] ++ free p). apply submseteq_skips_r, releaseBuffers_spec.
  - pose proof (drop_oldest_spec (free p) (pbytes p) (bcap b)) as Hd.
    destruct (drop_oldest (free p) (pbytes p) (bcap b)) as [[dr kept] by_]. destruct Hd as (Hf & -> & Hk).
    destruct Hw as [H1 H2 H3 H4]. rewrite Hf in H1, H2, H4. rewrite zsum_app in H1.
    apply Forall_app in H2 as [_ H2]. cbn [fst snd]. split_and!.
    + constructor; cbn [pbytes free].
      * rewrite zsum_app, zsum_cons, zsum_nil. lia.
      * apply Forall_app. split; [done|]. constructor; [lia|constructor].
      * destruct (Z.le_gt_cases (pbytes p - total dr + bcap b) maxPooledBufferBytes) as [?|Hgt]; [done|].
        assert (kept = []) as -> by (apply Hk; lia). rewrite zsum_nil in H1. lia.
      * rewrite length_app. cbn. destruct (Nat.le_gt_cases maxPooledBuffers (length kept)) as [Hl|?]; [|lia].
        rewrite (Hk (or_introl Hl)). cbn. unfold maxPooledBuffers. lia.
    + cbn. rewrite Hf, <- app_assoc. rewrite (Permutation_app_comm dr kept), Permutation_middle.
      apply submseteq_skips_l. constructor; apply releaseBuffers_spec.
    + apply releaseBuffers_spec.
Qed.

Lemma get_new page p need addr granted b p' :
  0 < page -> 0 <= need -> get page p need addr granted = (b, p') ->
  free p ≡ₚ b :: free p' \/ (free p' = free p /\ baddr b = addr /\ classified b /\ 0 <= bcap b).
Proof.
  intros Hpg Hn. unfold get, classified. destruct (take_free page p need) as [[b0 p0]|] eqn:E.
  - intros [= <- <-]. left. cbn. by apply take_free_split in E as [? _].
  - case_if; [unfold allocOffHeap; destruct granted|]; intros [= <- <-]; right; bprop;
      unfold offHeapMinBytes in *; change (Z.shiftl 64 10) with 65536 in *; cbn; split_and!; try done; try lia.
    + symmetry. apply Z.leb_le. pose proof (Z.quot_rem' (need + page - 1) page).
      pose proof (Z.rem_bound_pos (need + page - 1) page). lia.
    + pose proof (Z.quot_pos (need + page - 1) page). nia.
Qed.

Definition sane (ev : event) : Prop := match ev with EGet need _ => 0 <= need | _ => True end.

(** Keep the facts about all buffers when the buffers around are some of those
    before. *)
Lemma ok_shrink s s' :
  sys_ok s -> pool_wf (pool s') -> (fresh s <= fresh s')%nat -> everywhere s' ⊆+ everywhere s ->
  Forall (fun b => bmapped b = true) (gone s') -> sys_ok s'.
Proof.
  intros [Hp Hd Hf Hk Hg] Hp' Hfr Hsub Hg'. destruct (submseteq_Permutation _ _ Hsub) as [r Hr].
  rewrite Hr in Hd, Hf, Hk. rewrite fmap_app in Hd. apply NoDup_app in Hd as [Hd _].
  apply Forall_app in Hf as [Hf _], Hk as [Hk _]. constructor; [done|done| |done|done].
  eapply Forall_impl; [exact Hf|]. cbn. lia.
Qed.

Lemma classified_mapped bs :
  Forall (fun b => classified b /\ 0 <= bcap b) bs -> Forall (fun b => offHeapMinBytes <= bcap b) bs ->
  Forall (fun b => bmapped b = true) bs.
Proof.
  rewrite !Forall_forall. intros Hc Hb b Hin. destruct (Hc b Hin) as [-> _]. apply Z.leb_le. by apply Hb.
Qed.

Lemma step_get_ok page s need granted :
  0 < page -> 0 <= need -> sys_ok s -> sys_ok (step page s (EGet need granted)).
Proof.
  intros Hpg Hn Hs. pose proof (get_wf page (pool s) need (fresh s) granted (ok_pool s Hs)) as Hw.
  cbn [step]. destruct (get page (pool s) need (fresh s) granted) as [b p'] eqn:E. cbn [snd] in Hw.
  destruct (get_new _ _ _ _ _ _ _ Hpg Hn E) as [Hp|(Hf & Ha & Hc & Hb)].
  - apply ok_shrink with s; cbn [pool fresh gone]; [done|done|lia| |apply Hs].
    unfold everywhere. cbn [pool held gone]. rewrite Hp. cbn. by rewrite <- Permutation_middle.
  - destruct Hs as [_ H1 H2 H3 H4].
    assert (Hmv : everywhere (mkSystem p' (b :: held s) (gone s) (S (fresh s))) ≡ₚ b :: everywhere s).
    { unfold everywhere. cbn [pool held gone]. rewrite Hf. cbn. by rewrite <- Permutation_middle. }
    constructor; cbn [pool fresh gone]; [done| | | |done]; rewrite Hmv.
    + rewrite fmap_cons. constructor; [|done]. intros (x & Hx & Hin)%list_elem_of_fmap.
      rewrite Forall_forall in H2. specialize (H2 x Hin). lia.
    + constructor; [lia|]. eapply Forall_impl; [exact H2|]. cbn. lia.
    + by constructor.
Qed.

Lemma step_put_ok page s i : sys_ok s -> sys_ok (step page s (EPut i)).
Proof.
  intros Hs. cbn [step]. destruct (held s !! i) as [b|] eqn:E; [|done].
  pose proof (delete_Permutation _ _ _ E) as Hh. set (rest := delete i (held s)) in *. clearbody rest.
  assert (Hb : classified b /\ 0 <= bcap b).
  { pose proof (ok_kind s Hs) as H. unfold everywhere in H. rewrite Hh in H.
    apply Forall_app in H as [_ H]. by apply Forall_cons in H as [? _]. }
  destruct (put_wf (pool s) b (ok_pool s Hs) (proj2 Hb)) as (Hw & Hsub & Hun).
  destruct (put (pool s) b) as [p un]. cbn [fst snd] in *.
  assert (Hev : everywhere (mkSystem p rest (un ++ gone s) (fresh s)) ⊆+ everywhere s).
  { unfold everywhere. cbn [pool held gone]. rewrite Hh. cbn.
    rewrite <- Permutation_middle, (app_assoc rest), (Permutation_app_comm rest un).
    rewrite <- app_assoc, app_assoc, app_comm_cons. by apply submseteq_skips_r. }
  apply ok_shrink with s; try done. cbn [gone]. apply Forall_app. split; [|apply Hs].
  apply classified_mapped; [|done]. destruct (submseteq_Permutation _ _ Hsub) as [r Hr].
  pose proof (ok_kind s Hs) as H. unfold everywhere in H. apply Forall_app in H as [H _].
  assert (H' : Forall (fun b => classified b /\ 0 <= bcap b) (b :: free (pool s))) by (by constructor).
  rewrite Hr, !Forall_app in H'. tauto.
Qed.

Lemma step_drain_ok page s : sys_ok s -> sys_ok (step page s EDrain).
Proof.
  intros Hs. cbn [step drain]. destruct (releaseBuffers_spec (free (pool s))) as [Hsub Hbig].
  apply ok_shrink with s; cbn [pool fresh gone]; [done| |lia| |].
  - constructor; cbn; [done|constructor|done|lia].
  - unfold everywhere. cbn [pool held gone free app].
    rewrite (app_assoc (held s)), (Permutation_app_comm (held s)), <- app_assoc. by apply submseteq_app.
  - apply Forall_app. split; [|apply Hs]. apply classified_mapped; [|done].
    pose proof (ok_kind s Hs) as H. unfold everywhere in H. apply Forall_app in H as [H _].
    rewrite Forall_forall in *. intros x Hx. apply H. by apply (elem_of_submseteq _ _ _ Hx).
Qed.

Lemma run_ok page evs : 0 < page -> Forall sane evs -> sys_ok (run page evs).
Proof.
  intros Hpg Hsane. unfold run.
  assert (H0 : sys_ok (mkSystem emptyPool [] [] 0)) 
    by (split; [split; [done|by constructor|done|cbn; lia]|..]; by constructor).
  revert H0. generalize (mkSystem emptyPool [] [] 0).
  induction Hsane as [|ev evs Hev _ IH]; intros s Hs; cbn [fold_left]; [done|].
  apply IH. destruct ev; [by apply step_get_ok|by apply step_put_ok|by apply step_drain_ok].
Qed.

(** C35: The pool stays well formed through every sequence of gets, puts and
    drains: its byte count is the sum of its buffers' capacities, none of them is
    empty, and neither the byte bound nor the buffer bound is exceeded. *)
Theorem pool_well_formed page evs :
  0 < page -> Forall sane evs -> pool_wf (pool (run page evs)).
Proof. intros Hp Hs. apply ok_pool. by apply run_ok. Qed.

Lemma apart s (l k : list buffer) x y :
  sys_ok s -> l ++ k ⊆+ everywhere s -> x ∈ l -> y ∈ k -> baddr x <> baddr y.
Proof.
  intros Hs Hsub Hx Hy Ha. destruct (submseteq_Permutation _ _ Hsub) as [r Hr].
  pose proof (ok_distinct s Hs) as Hd. rewrite Hr, !fmap_app in Hd.
  apply NoDup_app in Hd as [Hd _]. apply NoDup_app in Hd as (_ & Hd & _).
  apply (Hd (baddr x)); [by apply list_elem_of_fmap_2|]. rewrite Ha. by apply list_elem_of_fmap_2.
Qed.

(** No memory is shared or freed under its user: two buffers in use never
    have the same backing array, none of them is idle in the pool or unmapped, no
    array is unmapped twice, and only arrays that are mappings are unmapped. *)
Lemma buffers_exclusive page evs :
  0 < page -> Forall sane evs ->
  let s := run page evs in
  NoDup (baddr <$> held s) /\
  (forall b b', b ∈ held s -> b' ∈ free (pool s) ++ gone s -> baddr b <> baddr b') /\
  NoDup (baddr <$> gone s) /\ Forall (fun b => bmapped b = true) (gone s).
Proof.
  intros Hp Hsane s. pose proof (run_ok page evs Hp Hsane) as Hs. fold s in Hs.
  pose proof (ok_distinct s Hs) as Hd. unfold everywhere in Hd. rewrite !fmap_app in Hd.
  apply NoDup_app in Hd as (_ & _ & Hd). apply NoDup_app in Hd as (Hh & _ & Hg).
  split_and!; [done| |done|apply Hs].
  intros b b' Hb Hb'. apply (apart s (held s) (free (pool s) ++ gone s)); try done.
  unfold everywhere. by rewrite !app_assoc, (Permutation_app_comm (held s)).
Qed.

(** A fetch, its release, a reuse, a second fetch and a drain. *)
Definition sample_events : list event :=
  [EGet 100000 true; EPut 0; EGet 98000 true; EGet 70000 false; EPut 0; EPut 0; EDrain].
Lemma sample_sane : Forall sane sample_events.
Proof. repeat constructor; cbn; lia. Qed.

Lemma pool_well_formed_witness :
  reused (pool (run 4096 sample_events)) = 1 /\ pool_wf (pool (run 4096 sample_events)).
Proof.
  split; [vm_compute; reflexivity|]. apply (pool_well_formed 4096 sample_events); [lia|apply sample_sane].
Defined.
Lemma buffers_exclusive_witness :
  length (gone (run 4096 sample_events)) = 1%nat /\ NoDup (baddr <$> gone (run 4096 sample_events)).
Proof.
  split; [vm_compute; reflexivity|]. apply (buffers_exclusive 4096 sample_events); [lia|apply sample_sane].
Defined.
