(* ===== verification/ArticleCache.v ===== *)
(** The decoded-article cache: internal/usenet/stream/articlecache.go, the
    dead-article memo of deadmemo.go and the part reference counts of
    bufpool.go.

    Every method runs under the cache's mutex, so a call is one atomic state
    transformer.  Pointers are numbers: scopes, flights and parts live in heaps
    indexed by their address, so that two holders of one flight or part see the
    same object.  The doubly linked LRU list with its map of elements is one
    list of entries, most recently used first; the map of the source is the
    lookup by key in it. *)
From Stdlib Require Import ZArith Lia.
From stdpp Require Import prelude list gmap.
From S2P Require Import Prelude.

Open Scope Z_scope.

Abbreviation scopeId := nat (only parsing).
Abbreviation partId := nat (only parsing).
Abbreviation flightId := nat (only parsing).
(** scope pointer and message-id *)
Abbreviation cacheKey := (nat * bytes)%type.

(** The errors a fetch can end with. *)
Inductive fetchErr :=
| Unavailable (stalled : bool)   (* *ArticleUnavailableError *)
| LeaderSpecific                 (* cancelled, deadline, budget exhausted, read-ahead dropped *)
| OtherErr.

Record cacheEntry := mkEntry { ekey : cacheKey; epart : partId; esize : Z }.
Record CacheScope := mkScope { released : bool; srefs : Z }.
Record flight := mkFlight {
  fpart : option partId; ferr : option fetchErr; fretry : bool; waiters : Z; finished : bool
}.
(** [None] is the zero time: for the scope's lifetime. *)
Record deadMark := mkDead { derr : bool; until : option Z }.

Record ArticleCache := mkCache {
  maxBytes : Z; used : Z;
  lru : list cacheEntry;
  flights : gmap cacheKey flightId;
  dead : gmap cacheKey deadMark;
  readers : Z;
  baseBytes : Z; boostCeiling : Z; boosted : Z;
  refs : gmap partId Z;
  scopes : gmap scopeId CacheScope;      (* the heap of scopes *)
  fheap : gmap flightId flight;          (* the heap of flights *)
  nextId : nat;                          (* the next address *)
  pool : list partId                     (* the buffers given to articleBuffers.put, latest first *)
}.

(** The backing array's capacity of each part: what the part keeps alive. *)
Section Cache.
Context (cap : partId -> Z).

(** ** Field updates *)

Definition set_lru (c : ArticleCache) (l : list cacheEntry) (u : Z) : ArticleCache :=
  mkCache (maxBytes c) u l (flights c) (dead c) (readers c) (baseBytes c) (boostCeiling c) (boosted c)
    (refs c) (scopes c) (fheap c) (nextId c) (pool c).
Definition set_refs (c : ArticleCache) (r : gmap partId Z) (p : list partId) : ArticleCache :=
  mkCache (maxBytes c) (used c) (lru c) (flights c) (dead c) (readers c) (baseBytes c) (boostCeiling c)
    (boosted c) r (scopes c) (fheap c) (nextId c) p.
Definition set_dead (c : ArticleCache) (d : gmap cacheKey deadMark) : ArticleCache :=
  mkCache (maxBytes c) (used c) (lru c) (flights c) d (readers c) (baseBytes c) (boostCeiling c)
    (boosted c) (refs c) (scopes c) (fheap c) (nextId c) (pool c).
Definition set_flights (c : ArticleCache) (f : gmap cacheKey flightId) (h : gmap flightId flight) (n : nat) : ArticleCache :=
  mkCache (maxBytes c) (used c) (lru c) f (dead c) (readers c) (baseBytes c) (boostCeiling c)
    (boosted c) (refs c) (scopes c) h n (pool c).
Definition set_scopes (c : ArticleCache) (s : gmap scopeId CacheScope) (n : nat) : ArticleCache :=
  mkCache (maxBytes c) (used c) (lru c) (flights c) (dead c) (readers c) (baseBytes c) (boostCeiling c)
    (boosted c) (refs c) s (fheap c) n (pool c).
Definition set_bounds (c : ArticleCache) (m b : Z) : ArticleCache :=
  mkCache m (used c) (lru c) (flights c) (dead c) (readers c) (baseBytes c) (boostCeiling c) b
    (refs c) (scopes c) (fheap c) (nextId c) (pool c).
Definition set_readers (c : ArticleCache) (r : Z) : ArticleCache :=
  mkCache (maxBytes c) (used c) (lru c) (flights c) (dead c) r (baseBytes c) (boostCeiling c) (boosted c)
    (refs c) (scopes c) (fheap c) (nextId c) (pool c).

Definition NewArticleCache (max ceiling : Z) : ArticleCache :=
  mkCache max 0 [] ∅ ∅ 0 max ceiling 0 ∅ ∅ ∅ 0 [].

(** A scope that was never allocated is never passed in; it reads as a closed
    one. *)
Definition scope_of (c : ArticleCache) (s : scopeId) : CacheScope := default (mkScope true 0) (scopes c !! s).
Definition NewScope (c : ArticleCache) : scopeId * ArticleCache :=
  (nextId c, set_scopes c (<[nextId c := mkScope false 0]> (scopes c)) (S (nextId c))).

(** ** Part references (bufpool.go) *)

Definition trackPart (c : ArticleCache) (p : partId) : ArticleCache :=
  set_refs c (<[p := 1]> (refs c)) (pool c).
Definition retainLocked (c : ArticleCache) (p : partId) (n : Z) : ArticleCache :=
  match refs c !! p with
  | Some k => if 0 <? n then set_refs c (<[p := k + n]> (refs c)) (pool c) else c
  | None => c
  end.
(** releaseLocked and the put of the buffer it returns. *)
Definition releaseLocked (c : ArticleCache) (p : partId) : ArticleCache :=
  match refs c !! p with
  | None => c
  | Some n =>
      if 1 <? n then set_refs c (<[p := n - 1]> (refs c)) (pool c)
      else set_refs c (delete p (refs c)) (p :: pool c)
  end.
Definition releasePart (c : ArticleCache) (p : option partId) : ArticleCache :=
  match p with None => c | Some p => releaseLocked c p end.

(** ** The LRU *)

Definition entry_at (c : ArticleCache) (k : cacheKey) : option cacheEntry :=
  List.find (fun e => bool_decide (ekey e = k)) (lru c).
Definition without (k : cacheKey) (l : list cacheEntry) : list cacheEntry :=
  List.filter (fun e => negb (bool_decide (ekey e = k))) l.

Definition removeLocked (c : ArticleCache) (e : cacheEntry) : ArticleCache :=
  releaseLocked (set_lru c (without (ekey e) (lru c)) (used c - esize e)) (epart e).

(** Evict from the cold end while over the bound; every round drops one entry. *)
Fixpoint evict (fuel : nat) (c : ArticleCache) : ArticleCache :=
  match fuel with
  | O => c
  | S fuel' =>
      if maxBytes c <? used c then
        match last (lru c) with
        | Some e => evict fuel' (removeLocked c e)
        | None => c
        end
      else c
  end.

Definition storeLocked (c : ArticleCache) (k : cacheKey) (p : partId) : ArticleCache :=
  let size := cap p in
  if maxBytes c <? size then c
  else
    let c := match entry_at c k with Some e => removeLocked c e | None => c end in
    let c := set_lru c (mkEntry k p size :: lru c) (used c) in
    let c := retainLocked c p 1 in
    let c := set_lru c (lru c) (used c + size) in
    evict (length (lru c)) c.

(** ** The dead-article memo (deadmemo.go) *)

Definition maxDeadArticles : nat := 4096.
Definition expired (m : deadMark) (now : Z) : bool :=
  match until m with Some u => u <? now | None => false end.

Definition deadLocked (c : ArticleCache) (k : cacheKey) (now : Z) : option bool * ArticleCache :=
  match dead c !! k with
  | None => (None, c)
  | Some m => if expired m now then (None, set_dead c (delete k (dead c))) else (Some (derr m), c)
  end.

(** [order] is the order the runtime ranges over the map in. *)
Definition drop_expired (d : gmap cacheKey deadMark) (now : Z) : gmap cacheKey deadMark :=
  filter (fun km => expired (snd km) now = false) d.
Fixpoint drop_until (order : list cacheKey) (d : gmap cacheKey deadMark) : gmap cacheKey deadMark :=
  match order with
  | [] => d
  | k :: order' => if (size d <? maxDeadArticles)%nat then d else drop_until order' (delete k d)
  end.
Definition evictDeadLocked (c : ArticleCache) (now : Z) : ArticleCache :=
  let d := drop_expired (dead c) now in
  set_dead c (drop_until (map fst (map_to_list d)) d).

Definition stalledTTL : Z := 30000000000.
Definition markDeadLocked (c : ArticleCache) (k : cacheKey) (err : fetchErr) (now : Z) : ArticleCache :=
  match err with
  | Unavailable stalled =>
      let c := if (maxDeadArticles <=? size (dead c))%nat then evictDeadLocked c now else c in
      set_dead c (<[k := mkDead stalled (if stalled then Some (now + stalledTTL) else None)]> (dead c))
  | _ => c
  end.

Definition purgeDeadLocked (c : ArticleCache) (s : scopeId) : ArticleCache :=
  set_dead c (filter (fun km => (fst (fst km)) <> s) (dead c)).

(** ** Scopes *)

Definition dormantLocked (c : ArticleCache) (s : scopeId) : bool :=
  released (scope_of c s) && (srefs (scope_of c s) <=? 0).

Definition purgeLocked (c : ArticleCache) (s : scopeId) : ArticleCache :=
  let mine := List.filter (fun e => Nat.eqb (fst (ekey e)) s) (lru c) in
  let c := fold_left removeLocked mine c in
  let c := set_flights c (filter (fun kf => (fst (fst kf)) <> s) (flights c)) (fheap c) (nextId c) in
  purgeDeadLocked c s.

Definition set_scope (c : ArticleCache) (s : scopeId) (v : CacheScope) : ArticleCache :=
  set_scopes c (<[s := v]> (scopes c)) (nextId c).

Definition Release (c : ArticleCache) (s : scopeId) : ArticleCache :=
  let c := set_scope c s (mkScope true (srefs (scope_of c s))) in
  if srefs (scope_of c s) =? 0 then purgeLocked c s else c.
Definition retain (c : ArticleCache) (s : scopeId) : ArticleCache :=
  set_scope c s (mkScope (released (scope_of c s)) (srefs (scope_of c s) + 1)).
Definition unretain (c : ArticleCache) (s : scopeId) : ArticleCache :=
  let c := set_scope c s (mkScope (released (scope_of c s)) (srefs (scope_of c s) - 1)) in
  if dormantLocked c s then purgeLocked c s else c.

Definition countReadahead (c : ArticleCache) (delta : Z) : ArticleCache := set_readers c (readers c + delta).
Definition readaheadShare (c : ArticleCache) : Z := Z.quot (baseBytes c) (2 * Z.max 1 (readers c)).

Definition resizeBoost (c : ArticleCache) (heldBoost want : Z) : Z * ArticleCache :=
  let grant := Z.max 0 (Z.min want (boostCeiling c - (boosted c - heldBoost))) in
  let b := boosted c + (grant - heldBoost) in
  let c := set_bounds c (baseBytes c + b) b in
  (grant, evict (length (lru c)) c).

(** ** Loading an article *)

Inductive begun :=
| Cached (p : partId)
| Join (fl : flightId)
| Lead (fl : flightId).

Definition new_flight (c : ArticleCache) (f : flight) : flightId * ArticleCache :=
  (nextId c, set_flights c (flights c) (<[nextId c := f]> (fheap c)) (S (nextId c))).
Definition empty_flight : flight := mkFlight None None false 0 false.
Definition settledFlight (stalled : bool) : flight := mkFlight None (Some (Unavailable stalled)) false 0 true.

Definition begin (c : ArticleCache) (s : scopeId) (id : bytes) (hold : bool) (now : Z) : begun * ArticleCache :=
  let '(fl, c1) := new_flight c empty_flight in
  if dormantLocked c s then (Lead fl, c1)
  else
    let key := (s, id) in
    match deadLocked c1 key now with
    | (Some stalled, c2) =>
        let '(fl, c3) := new_flight c2 (settledFlight stalled) in (Join fl, c3)
    | (None, c2) =>
        match entry_at c2 key with
        | Some e =>
            let c3 := set_lru c2 (e :: without key (lru c2)) (used c2) in
            (Cached (epart e), if hold then retainLocked c3 (epart e) 1 else c3)
        | None =>
            match flights c2 !! key with
            | Some f =>
                (Join f,
                 if hold then
                   let fr := default empty_flight (fheap c2 !! f) in
                   set_flights c2 (flights c2)
                     (<[f := mkFlight (fpart fr) (ferr fr) (fretry fr) (waiters fr + 1) (finished fr)]> (fheap c2))
                     (nextId c2)
                 else c2)
            | None => (Lead fl, set_flights c2 (<[key := fl]> (flights c2)) (fheap c2) (nextId c2))
            end
        end
    end.

Definition leaderSpecific (err : fetchErr) : bool := match err with LeaderSpecific => true | _ => false end.

(** The outcome of a fetch: a part, or an error. *)
Definition finish (c : ArticleCache) (s : scopeId) (id : bytes) (fl : flightId)
  (out : partId + fetchErr) (now : Z) : ArticleCache :=
  let key := (s, id) in
  let c1 := if bool_decide (flights c !! key = Some fl)
            then set_flights c (delete key (flights c)) (fheap c) (nextId c) else c in
  let c2 := if dormantLocked c1 s then c1
            else match out with
                 | inl p => storeLocked c1 key p
                 | inr e => markDeadLocked c1 key e now
                 end in
  let fr := default empty_flight (fheap c2 !! fl) in
  let c3 := match out with inl p => retainLocked c2 p (waiters fr) | inr _ => c2 end in
  let fr' := match out with
             | inl p => mkFlight (Some p) None false (waiters fr) true
             | inr e => mkFlight None (Some e) (leaderSpecific e) (waiters fr) true
             end in
  set_flights c3 (flights c3) (<[fl := fr']> (fheap c3)) (nextId c3).

Definition abandon (c : ArticleCache) (fl : flightId) : ArticleCache :=
  let fr := default empty_flight (fheap c !! fl) in
  if finished fr then releasePart c (fpart fr)
  else set_flights c (flights c)
         (<[fl := mkFlight (fpart fr) (ferr fr) (fretry fr) (waiters fr - 1) (finished fr)]> (fheap c)) (nextId c).

(** Count one more waiter on a flight. *)
Definition wait (c : ArticleCache) (fl : flightId) : ArticleCache :=
  let fr := default empty_flight (fheap c !! fl) in
  set_flights c (flights c)
    (<[fl := mkFlight (fpart fr) (ferr fr) (fretry fr) (waiters fr + 1) (finished fr)]> (fheap c)) (nextId c).

Definition claim (c : ArticleCache) (s : scopeId) (id : bytes) (now : Z) : option flightId * ArticleCache :=
  match begin c s id false now with
  | (Lead fl, c') => (Some fl, c')
  | (_, c') => (None, c')
  end.
End Cache.

(** * Operations as steps, with the holders of each part as ghost state *)

Inductive op :=
| ONewScope
| ORelease (s : scopeId)
| ORetain (s : scopeId)
| OUnretain (s : scopeId)
| OBegin (s : scopeId) (id : bytes) (hold : bool) (now : Z)
| OFinish (s : scopeId) (id : bytes) (fl : flightId) (out : partId + fetchErr) (now : Z)
| OAbandon (fl : flightId)
| OWait (fl : flightId)
| OTrack (p : partId)
| OReleasePart (p : partId)
| OCount (delta : Z)
| OBoost (heldBoost want : Z).

(** The number of references readers and fetches hold outside the cache.  When a
    flight finishes with a part each waiter the flight counts gets one; that this
    count is the number of threads that do wait is shown where the threads are
    modelled. *)
Abbreviation holders := (partId -> Z).
Definition hold_more (h : holders) (p : partId) (n : Z) : holders :=
  fun q => if Nat.eqb q p then h q + n else h q.

Section Steps.
Context (cap : partId -> Z) (pooled : partId -> bool).

Definition flight_waiters (c : ArticleCache) (fl : flightId) : Z :=
  waiters (default empty_flight (fheap c !! fl)).

Definition apply (st : ArticleCache * holders) (o : op) : ArticleCache * holders :=
  let '(c, h) := st in
  match o with
  | ONewScope => (snd (NewScope c), h)
  | ORelease s => (Release c s, h)
  | ORetain s => (retain c s, h)
  | OUnretain s => (unretain c s, h)
  | OBegin s id hold now =>
      match begin c s id hold now with
      | (Cached p, c') => (c', if hold then hold_more h p 1 else h)
      | (_, c') => (c', h)
      end
  | OFinish s id fl out now =>
      (finish cap c s id fl out now,
       match out with inl p => hold_more h p (Z.max 0 (flight_waiters c fl)) | inr _ => h end)
  | OAbandon fl =>
      let fr := default empty_flight (fheap c !! fl) in
      (abandon c fl, match fpart fr with
                     | Some p => if finished fr then hold_more h p (-1) else h
                     | None => h
                     end)
  | OWait fl => (wait c fl, h)
  | OTrack p => (trackPart c p, hold_more h p 1)
  | OReleasePart p => (releasePart c (Some p), hold_more h p (-1))
  | OCount d => (countReadahead c d, h)
  | OBoost heldBoost want => (snd (resizeBoost c heldBoost want), h)
  end.

(** The callers' discipline: a part is tracked when it is new, published by the
    fetch that holds it, and released by a holder; a boost is returned by the
    reader that holds it. *)
Definition op_ok (st : ArticleCache * holders) (o : op) : Prop :=
  let '(c, h) := st in
  match o with
  | OTrack p => pooled p = true /\ refs c !! p = None /\ h p = 0 /\ p ∉ pool c /\ Forall (fun e => epart e <> p) (lru c)
  | OFinish _ _ _ (inl p) _ => 1 <= h p
  | OReleasePart p => 1 <= h p
  | OAbandon fl =>
      match fpart (default empty_flight (fheap c !! fl)) with Some p => 1 <= h p | None => True end
  | OBoost heldBoost want => 0 <= heldBoost <= boosted c
  | _ => True
  end.

Inductive reach (max ceiling : Z) : ArticleCache * holders -> Prop :=
| reach_new : reach max ceiling (NewArticleCache max ceiling, fun _ => 0)
| reach_step st o : reach max ceiling st -> op_ok st o -> reach max ceiling (apply st o).

(** ** The invariants *)

Fixpoint sum_sizes (l : list cacheEntry) : Z :=
  match l with [] => 0 | e :: l' => esize e + sum_sizes l' end.
Fixpoint count_part (p : partId) (l : list cacheEntry) : Z :=
  match l with [] => 0 | e :: l' => (if Nat.eqb (epart e) p then 1 else 0) + count_part p l' end.

Definition counted (c : ArticleCache) (h : holders) : Prop :=
  forall p, 0 <= h p /\
    (pooled p = true ->
     match refs c !! p with
     | Some n => n = count_part p (lru c) + h p /\ 1 <= n /\ p ∉ pool c
     | None => count_part p (lru c) = 0 /\ h p = 0
     end) /\
    (pooled p = false -> refs c !! p = None /\ p ∉ pool c).

Record base_inv (c : ArticleCache) (h : holders) : Prop := {
  bi_keys : NoDup (map ekey (lru c));
  bi_used : used c = sum_sizes (lru c);
  bi_sizes : Forall (fun e => 0 <= esize e) (lru c);
  bi_refs : counted c h
}.

Lemma count_part_nonneg p l : 0 <= count_part p l.
Proof. induction l as [|e l IH]; simpl; [lia|]. destruct (Nat.eqb _ _); lia. Qed.

Lemma count_part_without p e l :
  NoDup (map ekey l) -> e ∈ l ->
  count_part p (without (ekey e) l) = count_part p l - (if Nat.eqb (epart e) p then 1 else 0) /\
  sum_sizes (without (ekey e) l) = sum_sizes l - esize e.
Proof.
  intros Hnd He. induction l as [|x l IH]; [by apply elem_of_nil in He|].
  simpl in Hnd. apply NoDup_cons in Hnd as [Hx Hnd]. unfold without in *. cbn [List.filter].
  apply elem_of_cons in He as [->|He].
  - rewrite bool_decide_true by done. simpl.
    assert (Hall : List.filter (fun e => negb (bool_decide (ekey e = ekey x))) l = l).
    { clear -Hx. induction l as [|y l IH]; [done|]. cbn [List.filter]. simpl in Hx.
      rewrite bool_decide_false by set_solver. simpl. f_equal. apply IH. set_solver. }
    rewrite Hall. lia.
  - rewrite bool_decide_false.
    2:{ intros Heq. apply Hx. rewrite Heq. apply list_elem_of_fmap. eauto. }
    simpl. destruct (IH Hnd He) as [-> ->]. lia.
Qed.

Lemma without_sublist k l : without k l `sublist_of` l.
Proof.
  induction l as [|e l IH]; unfold without in *; cbn [List.filter]; [done|].
  destruct (negb _); [by apply sublist_skip|by apply sublist_cons].
Qed.

Lemma NoDup_keys_sublist l1 l2 : l1 `sublist_of` l2 -> NoDup (map ekey l2) -> NoDup (map ekey l1).
Proof. intros Hs Hn. eapply sublist_NoDup; [exact Hn|]. by apply (fmap_sublist ekey). Qed.

Lemma Forall_sub (P : cacheEntry -> Prop) l1 l2 : l1 `sublist_of` l2 -> Forall P l2 -> Forall P l1.
Proof. induction 1; rewrite ?Forall_cons; naive_solver. Qed.

(** ** Part references *)

(** [releaseLocked] takes one reference back: from [g] uncounted ones to none. *)
Lemma releaseLocked_counted c h p :
  counted c (hold_more h p 1) -> (forall q, 0 <= h q) -> counted (releaseLocked c p) h.
Proof.
  intros Hc Hh q. specialize (Hc q) as (_ & Hp & Hn). split; [done|].
  unfold hold_more in Hp. pose proof (count_part_nonneg q (lru c)) as Hcq.
  unfold releaseLocked. destruct (decide (q = p)) as [->|Hne].
  - rewrite Nat.eqb_refl in Hp. specialize (Hh p). destruct (refs c !! p) as [n|] eqn:Ep.
    2:{ rewrite Ep. split; [|done]. intros Ht. specialize (Hp Ht). lia. }
    split; [|intros Hf; specialize (Hn Hf); naive_solver]. intros Ht. specialize (Hp Ht) as (Hnv & Hn1 & Hpool).
    destruct (1 <? n) eqn:E1; bprop; cbn [set_refs refs lru pool].
    + rewrite lookup_insert_eq. split; [lia|]. split; [lia|done].
    + rewrite lookup_delete_eq. lia.
  - rewrite (proj2 (Nat.eqb_neq q p) Hne) in Hp. destruct (refs c !! p) as [n|]; [|done].
    destruct (1 <? n) eqn:E1; cbn [set_refs refs lru pool].
    + rewrite lookup_insert_ne by done. done.
    + rewrite lookup_delete_ne by done. split; [|set_solver].
      intros Ht. specialize (Hp Ht). destruct (refs c !! q); [|done]. set_solver.
Qed.

Lemma retainLocked_counted c h p n :
  counted c h -> (pooled p = true -> refs c !! p <> None) -> 0 <= n ->
  counted (retainLocked c p n) (hold_more h p n).
Proof.
  intros Hc Hr Hn q. pose proof (Hc q) as (Hh & Hp & Hnp). unfold hold_more, retainLocked.
  destruct (Nat.eqb_spec q p) as [->|Hne].
  - split; [lia|]. destruct (refs c !! p) as [k|] eqn:Ek.
    + destruct (0 <? n) eqn:E0; bprop.
      * cbn [set_refs refs lru pool]. rewrite lookup_insert_eq. split; [|naive_solver].
        intros Ht. specialize (Hp Ht). split; [lia|]. split; [lia|]. apply Hp.
      * rewrite Ek. replace n with 0 by lia. rewrite Z.add_0_r. done.
    + split; [|by rewrite Ek]. intros Ht. by destruct (Hr Ht).
  - split; [lia|]. destruct (refs c !! p) as [k|]; [|done]. destruct (0 <? n); [|done].
    cbn [set_refs refs lru pool]. by rewrite lookup_insert_ne.
Qed.

(** An entry taken out of the list leaves its reference uncounted. *)
Lemma counted_without c h e u :
  NoDup (map ekey (lru c)) -> e ∈ lru c -> counted c h ->
  counted (set_lru c (without (ekey e) (lru c)) u) (hold_more h (epart e) 1).
Proof.
  intros Hnd He Hc q. destruct (Hc q) as (Hh & Hp & Hn). unfold hold_more.
  destruct (count_part_without q e (lru c) Hnd He) as [Hq _].
  cbn [set_lru refs lru pool]. rewrite Hq, (Nat.eqb_sym (epart e) q).
  split; [destruct (Nat.eqb q (epart e)); lia|]. split; [|done]. intros Ht. specialize (Hp Ht).
  destruct (refs c !! q) as [n|].
  - split; [destruct (Nat.eqb q (epart e)); lia|naive_solver].
  - destruct (Nat.eqb_spec q (epart e)) as [->|Hne]; [|lia].
    pose proof (count_part_nonneg (epart e) (without (ekey e) (lru c))).
    exfalso. destruct Hp. rewrite Nat.eqb_refl in Hq. lia.
Qed.

Lemma counted_nonneg c h : counted c h -> forall q, 0 <= h q.
Proof. intros Hc q. apply (Hc q). Qed.

(** ** The fields a release or an eviction leaves alone *)

Definition same_rest (c c' : ArticleCache) : Prop :=
  maxBytes c' = maxBytes c /\ flights c' = flights c /\ dead c' = dead c /\ readers c' = readers c /\
  baseBytes c' = baseBytes c /\ boostCeiling c' = boostCeiling c /\ boosted c' = boosted c /\
  scopes c' = scopes c /\ fheap c' = fheap c /\ nextId c' = nextId c.

Lemma same_rest_refl c : same_rest c c.
Proof. done. Qed.
Lemma same_rest_trans a b c : same_rest a b -> same_rest b c -> same_rest a c.
Proof. unfold same_rest. intuition congruence. Qed.

Lemma releaseLocked_rest c p : same_rest c (releaseLocked c p) /\ lru (releaseLocked c p) = lru c /\ used (releaseLocked c p) = used c.
Proof. unfold releaseLocked. destruct (refs c !! p) as [n|]; [destruct (1 <? n)|]; done. Qed.
Lemma retainLocked_rest c p n : same_rest c (retainLocked c p n) /\ lru (retainLocked c p n) = lru c /\ used (retainLocked c p n) = used c.
Proof. unfold retainLocked. destruct (refs c !! p); [destruct (0 <? n)|]; done. Qed.

Lemma removeLocked_inv c h e :
  base_inv c h -> e ∈ lru c ->
  base_inv (removeLocked c e) h /\ same_rest c (removeLocked c e) /\
  lru (removeLocked c e) = without (ekey e) (lru c) /\ used (removeLocked c e) = used c - esize e.
Proof.
  intros [Hk Hu Hs Hc] He. unfold removeLocked.
  set (c1 := set_lru c (without (ekey e) (lru c)) (used c - esize e)).
  destruct (releaseLocked_rest c1 (epart e)) as (Hr & Hl & Huu).
  split; [|split; [eapply same_rest_trans; [|exact Hr]; done|by rewrite Hl, Huu]].
  destruct (count_part_without 0 e (lru c) Hk He) as [_ Hsum].
  constructor; rewrite ?Hl, ?Huu; cbn [c1 set_lru lru used].
  - by apply (NoDup_keys_sublist _ (lru c)), Hk; apply without_sublist.
  - lia.
  - by apply (Forall_sub _ _ (lru c)), Hs; apply without_sublist.
  - apply releaseLocked_counted; [|by eapply counted_nonneg].
    apply (counted_without c h e _ Hk He Hc).
Qed.
(** ** Eviction *)

Lemma without_last l e :
  NoDup (map ekey (l ++ [e])) -> without (ekey e) (l ++ [e]) = l.
Proof.
  intros Hnd. unfold without. rewrite List.filter_app. cbn [List.filter].
  rewrite bool_decide_true by done. simpl. rewrite app_nil_r.
  rewrite map_app in Hnd. apply NoDup_app in Hnd as (_ & Hx & _).
  induction l as [|y l IH]; [done|]. cbn [List.filter].
  rewrite bool_decide_false.
  2:{ intros Heq. apply (Hx (ekey y)); [set_solver|]. rewrite Heq. set_solver. }
  simpl. f_equal. apply IH. intros k Hk. apply Hx. set_solver.
Qed.

Lemma sum_sizes_app a b : sum_sizes (a ++ b) = sum_sizes a + sum_sizes b.
Proof. induction a as [|e a IH]; simpl; [lia|]. rewrite IH. lia. Qed.

(** The evicted cache keeps the longest front of the list that fits. *)
Lemma evict_spec fuel c h :
  base_inv c h -> (length (lru c) <= fuel)%nat -> 0 <= maxBytes c ->
  base_inv (evict fuel c) h /\ same_rest c (evict fuel c) /\ used (evict fuel c) <= maxBytes c /\
  exists n, lru (evict fuel c) = take n (lru c) /\
    ((n < length (lru c))%nat -> maxBytes c < sum_sizes (take (S n) (lru c))).
Proof.
  revert c. induction fuel as [|fuel IH]; intros c Hi Hf Hm.
  { assert (Hnil : lru c = []) by (destruct (lru c); [done|simpl in Hf; lia]).
    simpl. split; [done|]. split; [done|]. rewrite (bi_used _ _ Hi), Hnil. split; [simpl; lia|].
    exists 0%nat. split; [done|]. simpl. lia. }
  cbn [evict]. destruct (maxBytes c <? used c) eqn:E; bprop.
  2:{ split; [done|]. split; [done|]. split; [lia|]. exists (length (lru c)).
      rewrite take_ge by lia. split; [done|lia]. }
  destruct (last (lru c)) as [e|] eqn:El.
  2:{ apply last_None in El. rewrite (bi_used _ _ Hi), El in E. simpl in E. lia. }
  apply last_Some in El as [l Hl].
  destruct (removeLocked_inv c h e Hi) as (Hi1 & Hr1 & Hl1 & Hu1); [rewrite Hl; set_solver|].
  pose proof (bi_keys _ _ Hi) as Hnd. rewrite Hl, without_last in Hl1 by by rewrite <- Hl.
  assert (Hm1 : maxBytes (removeLocked c e) = maxBytes c) by apply Hr1.
  destruct (IH (removeLocked c e) Hi1) as (Hi2 & Hr2 & Hu2 & n & Hl2 & Hmax).
  { rewrite Hl1. rewrite Hl, length_app in Hf. simpl in Hf. lia. } { lia. }
  rewrite Hm1, Hl1 in *. split; [done|]. split; [by eapply same_rest_trans|]. split; [done|].
  destruct (decide (n < length l)%nat) as [Hlt|Hge].
  - exists n. rewrite Hl2, Hl, take_app_le by lia. split; [done|].
    intros _. rewrite take_app_le by lia. by apply Hmax.
  - exists (length l). rewrite Hl2, Hl, take_app_length, take_ge by lia. split; [done|].
    intros _. rewrite (take_ge (l ++ [e])) by (rewrite length_app; simpl; lia).
    rewrite <- Hl, <- (bi_used _ _ Hi). lia.
Qed.

(** ** Storing *)

Lemma entry_at_spec c k :
  match entry_at c k with
  | Some e => e ∈ lru c /\ ekey e = k
  | None => without k (lru c) = lru c /\ k ∉ map ekey (lru c)
  end.
Proof.
  unfold entry_at. destruct (List.find _ _) as [e|] eqn:Ef.
  - apply List.find_some in Ef as [He Hk]. bprop. split; [by apply list_elem_of_In|done].
  - pose proof (List.find_none _ _ Ef) as Hno.
    assert (Hne : forall e, e ∈ lru c -> ekey e <> k).
    { intros e He%list_elem_of_In. specialize (Hno e He). simpl in Hno. by bprop. }
    clear Ef Hno. split.
    + unfold without. induction (lru c) as [|x l IH]; [done|]. cbn [List.filter].
      rewrite bool_decide_false by (apply Hne; set_solver). simpl. f_equal. apply IH. set_solver.
    + intros (e & -> & He)%list_elem_of_fmap. by apply (Hne e).
Qed.

Lemma not_in_without k l : k ∉ map ekey (without k l).
Proof.
  intros (e & He & Hin)%list_elem_of_fmap. unfold without in Hin.
  apply list_elem_of_In, filter_In in Hin as [_ Hin]. bprop. congruence.
Qed.

Lemma storeLocked_spec c h k p :
  (forall q, 0 <= cap q) -> base_inv c h -> 0 <= maxBytes c -> used c <= maxBytes c -> 1 <= h p ->
  let c' := storeLocked cap c k p in
  base_inv c' h /\ same_rest c c' /\ used c' <= maxBytes c /\
  (cap p <= maxBytes c -> exists n, lru c' = mkEntry k p (cap p) :: take n (without k (lru c))).
Proof.
  intros Hcap Hi Hm Hle Hh. unfold storeLocked. destruct (maxBytes c <? cap p) eqn:E; bprop.
  { cbv zeta. split; [done|]. split; [done|]. split; [done|]. lia. }
  set (c1 := match entry_at c k with Some e => removeLocked c e | None => c end).
  assert (H1 : base_inv c1 h /\ same_rest c c1 /\ lru c1 = without k (lru c) /\ used c1 <= maxBytes c).
  { unfold c1. pose proof (entry_at_spec c k) as Hk. destruct (entry_at c k) as [e|].
    - destruct Hk as [He <-]. destruct (removeLocked_inv c h e Hi He) as (A1 & A2 & A3 & A4).
      pose proof (proj1 (Forall_forall _ _) (bi_sizes _ _ Hi) e He) as Hf. simpl in Hf.
      split; [done|]. split; [done|]. split; [done|lia].
    - destruct Hk as [-> _]. done. }
  destruct H1 as (Hi1 & Hr1 & Hl1 & Hu1). clearbody c1.
  set (c2 := set_lru c1 (mkEntry k p (cap p) :: lru c1) (used c1)).
  set (c3 := retainLocked c2 p 1).
  destruct (retainLocked_rest c2 p 1) as (Hr3 & Hl3 & Hu3). fold c3 in Hr3, Hl3, Hu3.
  set (c4 := set_lru c3 (lru c3) (used c3 + cap p)).
  assert (Hr4 : same_rest c c4).
  { eapply same_rest_trans; [exact Hr1|]. eapply same_rest_trans; [|exact (same_rest_refl c4)].
    unfold c4. unfold same_rest in *. cbn [set_lru maxBytes flights dead readers baseBytes boostCeiling
      boosted scopes fheap nextId c2] in *. naive_solver. }
  assert (Hlru4 : lru c4 = mkEntry k p (cap p) :: without k (lru c)).
  { unfold c4. cbn [set_lru lru]. rewrite Hl3. cbn [c2 set_lru lru]. by rewrite Hl1. }
  assert (Hi4 : base_inv c4 h).
  { constructor.
    - rewrite Hlru4. simpl. apply NoDup_cons. split; [apply not_in_without|].
      rewrite <- Hl1. apply (bi_keys _ _ Hi1).
    - rewrite Hlru4. unfold c4. cbn [set_lru used sum_sizes esize]. rewrite Hu3. cbn [c2 set_lru used].
      rewrite (bi_used _ _ Hi1), Hl1. lia.
    - rewrite Hlru4. constructor; [apply Hcap|]. rewrite <- Hl1. apply (bi_sizes _ _ Hi1).
    - intros q. pose proof (bi_refs _ _ Hi1 q) as (Hhq & Hpq & Hnq). split; [done|].
      rewrite Hlru4, <- Hl1. unfold c4, c3, retainLocked.
      cbn [set_lru refs pool c2 count_part epart].
      destruct (decide (q = p)) as [->|Hne].
      + rewrite Nat.eqb_refl. destruct (refs c1 !! p) as [n|] eqn:En.
        * simpl. rewrite lookup_insert_eq. split; [|naive_solver].
          intros Ht. specialize (Hpq Ht). split; [lia|]. split; [lia|naive_solver].
        * simpl. rewrite En. split; [|done]. intros Ht. specialize (Hpq Ht). lia.
      + replace (Nat.eqb p q) with false by (symmetry; by apply Nat.eqb_neq).
        rewrite Z.add_0_l. destruct (refs c1 !! p) as [n|]; [|done].
        simpl. by rewrite lookup_insert_ne. }
  assert (Hm4 : maxBytes c4 = maxBytes c) by apply Hr4.
  destruct (evict_spec (length (lru c4)) c4 h Hi4 ltac:(lia) ltac:(lia)) as (Hi5 & Hr5 & Hu5 & n & Hl5 & Hmax).
  cbv zeta. split; [done|]. split; [by eapply same_rest_trans|]. split; [lia|].
  intros _. rewrite Hl5, Hlru4 in *. destruct n as [|n].
  - exfalso. specialize (Hmax ltac:(simpl; lia)). rewrite Hm4 in Hmax. simpl in Hmax. lia.
  - exists n. done.
Qed.
(** ** The whole invariant, operation by operation *)

Lemma base_inv_ext c c' h :
  lru c' = lru c -> used c' = used c -> refs c' = refs c -> pool c' = pool c ->
  base_inv c h -> base_inv c' h.
Proof.
  intros H1 H2 H3 H4 [Hk Hu Hs Hc]. constructor; rewrite ?H1, ?H2; try done.
  intros q. rewrite H1, H3, H4. apply Hc.
Qed.

Lemma counted_holders c h h' : (forall q, h q = h' q) -> counted c h -> counted c h'.
Proof. intros He Hc q. rewrite <- He. apply Hc. Qed.

Lemma tracked_if_held c h p : counted c h -> 1 <= h p -> pooled p = true -> refs c !! p <> None.
Proof. intros Hc Hh Hp Hn. destruct (Hc p) as (_ & H & _). specialize (H Hp). rewrite Hn in H. lia. Qed.
Lemma tracked_if_cached c h e : counted c h -> e ∈ lru c -> pooled (epart e) = true -> refs c !! (epart e) <> None.
Proof.
  intros Hc He Hp Hn. destruct (Hc (epart e)) as (_ & H & _). specialize (H Hp). rewrite Hn in H.
  destruct H as [H _]. clear -He H. induction (lru c) as [|x l IH]; [by apply elem_of_nil in He|].
  simpl in H. pose proof (count_part_nonneg (epart e) l). apply elem_of_cons in He as [->|He].
  - rewrite Nat.eqb_refl in H. lia.
  - apply IH; [done|]. destruct (Nat.eqb _ _); lia.
Qed.

Lemma purge_fold es c h :
  base_inv c h -> NoDup (map ekey es) -> Forall (fun e => e ∈ lru c) es ->
  base_inv (fold_left removeLocked es c) h /\ same_rest c (fold_left removeLocked es c) /\
  used (fold_left removeLocked es c) <= used c.
Proof.
  revert c. induction es as [|e es IH]; intros c Hi Hnd Hin; simpl.
  { split; [done|]. split; [done|lia]. }
  simpl in Hnd. apply NoDup_cons in Hnd as [Hne Hnd]. apply Forall_cons in Hin as [He Hin].
  destruct (removeLocked_inv c h e Hi He) as (Hi1 & Hr1 & Hl1 & Hu1).
  destruct (IH (removeLocked c e) Hi1 Hnd) as (Hi2 & Hr2 & Hu2).
  { apply Forall_forall. intros x Hx. rewrite Hl1. unfold without.
    apply list_elem_of_In, filter_In. split.
    - apply list_elem_of_In. by apply (proj1 (Forall_forall _ _) Hin).
    - apply negb_true_iff, bool_decide_eq_false. intros Heq. apply Hne. rewrite <- Heq.
      apply list_elem_of_fmap. eauto. }
  split; [done|]. split; [by eapply same_rest_trans|].
  pose proof (proj1 (Forall_forall _ _) (bi_sizes _ _ Hi) e He) as Hs. simpl in Hs. lia.
Qed.

Lemma drop_until_small order d :
  (forall k, is_Some (d !! k) -> k ∈ order) -> (size (drop_until order d) < maxDeadArticles)%nat.
Proof.
  revert d. induction order as [|k order IH]; intros d Hd; simpl.
  - replace d with (∅ : gmap cacheKey deadMark); [rewrite map_size_empty; unfold maxDeadArticles; lia|].
    symmetry. apply map_eq. intros k. rewrite lookup_empty. destruct (d !! k) eqn:E; [|done].
    destruct (not_elem_of_nil k). apply Hd. by rewrite E.
  - destruct (size d <? maxDeadArticles)%nat eqn:E; bprop; [done|]. apply IH. intros k' Hk'.
    destruct (decide (k' = k)) as [->|Hne]; [rewrite lookup_delete_eq in Hk'; by destruct Hk'|].
    rewrite lookup_delete_ne in Hk' by done. specialize (Hd k' Hk'). set_solver.
Qed.

Record cache_inv (max ceiling : Z) (st : ArticleCache * holders) : Prop := {
  ci_base : base_inv (fst st) (snd st);
  ci_used : used (fst st) <= maxBytes (fst st);
  ci_max : maxBytes (fst st) = max + boosted (fst st);
  ci_bounds : baseBytes (fst st) = max /\ boostCeiling (fst st) = ceiling;
  ci_boost : 0 <= boosted (fst st) <= ceiling;
  ci_dead : (size (dead (fst st)) <= maxDeadArticles)%nat
}.

(** An operation that leaves the bounds alone and keeps the base invariant. *)
Lemma cache_inv_keep max ceiling c h c' h' :
  cache_inv max ceiling (c, h) -> base_inv c' h' -> used c' <= maxBytes c ->
  maxBytes c' = maxBytes c -> baseBytes c' = baseBytes c -> boostCeiling c' = boostCeiling c ->
  boosted c' = boosted c -> (size (dead c') <= maxDeadArticles)%nat -> cache_inv max ceiling (c', h').
Proof.
  intros [H1 H2 H3 H4 H5 H6] Hb Hu Hm Hba Hce Hbo Hd. cbn [fst snd] in *.
  constructor; cbn [fst snd]; rewrite ?Hm, ?Hba, ?Hce, ?Hbo; done.
Qed.

Lemma purge_inv max ceiling c h s :
  cache_inv max ceiling (c, h) -> cache_inv max ceiling (purgeLocked c s, h).
Proof.
  intros Hinv. pose proof Hinv as [Hb Hu Hm _ _ Hd]. cbn [fst snd] in *. unfold purgeLocked.
  set (mine := List.filter _ (lru c)).
  destruct (purge_fold mine c h Hb) as (Hb1 & Hr1 & Hu1).
  - apply (NoDup_keys_sublist _ (lru c)); [|apply (bi_keys _ _ Hb)]. unfold mine.
    generalize (lru c). induction l as [|x l IH]; cbn [List.filter]; [done|].
    destruct (Nat.eqb _ _); [by apply sublist_skip|by apply sublist_cons].
  - apply Forall_forall. intros e He. unfold mine in He.
    apply list_elem_of_In, filter_In in He as [He _]. by apply list_elem_of_In.
  - destruct Hr1 as (R1 & R2 & R3 & R4 & R5 & R6 & R7 & _).
    apply (cache_inv_keep max ceiling c h); try done; cbn.
    + by eapply base_inv_ext; [..|exact Hb1].
    + lia.
    + rewrite R3. etransitivity; [|exact Hd]. apply map_subseteq_size, map_filter_subseteq.
Qed.

Lemma set_scope_inv max ceiling c h s v :
  cache_inv max ceiling (c, h) -> cache_inv max ceiling (set_scope c s v, h).
Proof.
  intros Hinv. pose proof Hinv as [Hb Hu _ _ _ Hd]. cbn [fst snd] in *.
  apply (cache_inv_keep max ceiling c h); try done. by eapply base_inv_ext; [..|exact Hb].
Qed.

Lemma boost_inv max ceiling c h heldBoost want :
  0 <= max -> 0 <= ceiling -> cache_inv max ceiling (c, h) -> 0 <= heldBoost <= boosted c ->
  cache_inv max ceiling (snd (resizeBoost c heldBoost want), h).
Proof.
  intros Hmx Hce [Hb Hu Hm [Hba Hbc] Hbo Hd] Hh. cbn [fst snd] in *. unfold resizeBoost. cbn [snd].
  set (grant := Z.max 0 _). set (b := boosted c + (grant - heldBoost)).
  assert (Hbr : 0 <= b <= ceiling) by (unfold b, grant; lia).
  set (c1 := set_bounds c (baseBytes c + b) b).
  assert (Hb1 : base_inv c1 h) by (by eapply base_inv_ext; [..|exact Hb]).
  destruct (evict_spec (length (lru c1)) c1 h Hb1 ltac:(lia)) as (Hi & Hr & Huu & _).
  { unfold c1. cbn. lia. }
  destruct Hr as (R1 & R2 & R3 & R4 & R5 & R6 & R7 & _).
  constructor; cbn [fst snd]; rewrite ?R1, ?R3, ?R5, ?R6, ?R7; cbn; try done; lia.
Qed.

Lemma markDead_inv max ceiling c h k e now :
  cache_inv max ceiling (c, h) -> cache_inv max ceiling (markDeadLocked c k e now, h).
Proof.
  intros Hinv. pose proof Hinv as [Hb Hu _ _ _ Hd]. cbn [fst snd] in *.
  destruct e as [stalled| |]; cbn [markDeadLocked]; [|done|done].
  set (c1 := if (maxDeadArticles <=? size (dead c))%nat then evictDeadLocked c now else c).
  assert (Hc1 : exists d, c1 = set_dead c d /\ (size d < maxDeadArticles)%nat).
  { unfold c1. destruct (maxDeadArticles <=? size (dead c))%nat eqn:E; bprop.
    - unfold evictDeadLocked. eexists. split; [reflexivity|]. apply drop_until_small.
      intros k' [m Hm]. apply list_elem_of_fmap. exists (k', m). split; [done|]. by apply elem_of_map_to_list.
    - exists (dead c). split; [by destruct c|lia]. }
  destruct Hc1 as (d & -> & Hsz).
  apply (cache_inv_keep max ceiling c h); try done; cbn.
  - by eapply base_inv_ext; [..|exact Hb].
  - destruct (d !! k) eqn:Ek.
    + rewrite map_size_insert_Some by (by rewrite Ek). lia.
    + rewrite map_size_insert_None by done. lia.
Qed.
(** Operations on flights only. *)
Lemma set_flights_inv max ceiling c h f fh n :
  cache_inv max ceiling (c, h) -> cache_inv max ceiling (set_flights c f fh n, h).
Proof.
  intros Hinv. pose proof Hinv as [Hb Hu _ _ _ Hd]. cbn [fst snd] in *.
  apply (cache_inv_keep max ceiling c h); try done. by eapply base_inv_ext; [..|exact Hb].
Qed.

Lemma deadLocked_inv max ceiling c h k now r c' :
  cache_inv max ceiling (c, h) -> deadLocked c k now = (r, c') -> cache_inv max ceiling (c', h).
Proof.
  intros Hinv H. unfold deadLocked in H. destruct (dead c !! k) as [m|] eqn:Em; [|by injection H as _ <-].
  destruct (expired m now); [|by injection H as _ <-]. injection H as _ <-.
  pose proof Hinv as [Hb Hu _ _ _ Hd]. cbn [fst snd] in *.
  apply (cache_inv_keep max ceiling c h); try done; cbn.
  - by eapply base_inv_ext; [..|exact Hb].
  - rewrite map_size_delete_Some by (by rewrite Em). lia.
Qed.

(** A hit moves the entry to the front and adds a holder. *)
Lemma touch_inv max ceiling c h e (hold : bool) :
  cache_inv max ceiling (c, h) -> e ∈ lru c ->
  let c1 := set_lru c (e :: without (ekey e) (lru c)) (used c) in
  cache_inv max ceiling
    (if hold then retainLocked c1 (epart e) 1 else c1, if hold then hold_more h (epart e) 1 else h).
Proof.
  intros Hinv He c1. pose proof Hinv as [Hb Hu _ _ _ Hd]. cbn [fst snd] in *.
  pose proof Hb as [Hk Hus Hs Hc].
  assert (Hb1 : base_inv c1 h).
  { constructor; unfold c1; cbn [set_lru lru used].
    - simpl. apply NoDup_cons. split; [apply not_in_without|].
      apply (NoDup_keys_sublist _ (lru c)); [apply without_sublist|done].
    - simpl. destruct (count_part_without 0 e (lru c) Hk He) as [_ ->]. lia.
    - constructor; [by apply (proj1 (Forall_forall _ _) Hs)|].
      apply (Forall_sub _ _ (lru c)); [apply without_sublist|done].
    - intros q. destruct (Hc q) as (Hh & Hp & Hn). split; [done|]. cbn [set_lru refs lru pool count_part].
      destruct (count_part_without q e (lru c) Hk He) as [-> _]. split; [|done].
      intros Ht. specialize (Hp Ht). destruct (refs c !! q); [|lia]. split; [lia|naive_solver]. }
  assert (Hin : e ∈ lru c1) by (unfold c1; cbn; set_solver).
  destruct (retainLocked_rest c1 (epart e) 1) as (Hr & Hl & Hu1).
  destruct hold; [|by apply (cache_inv_keep max ceiling c h)].
  destruct Hr as (R1 & R2 & R3 & R4 & R5 & R6 & R7 & _).
  apply (cache_inv_keep max ceiling c h); rewrite ?R1, ?R3, ?R5, ?R6, ?R7, ?Hu1; try done.
  destruct Hb1 as [Hk1 Hus1 Hs1 Hc1]. constructor; rewrite ?Hl, ?Hu1; try done.
  apply retainLocked_counted; [done| |lia]. intros Hp. by eapply tracked_if_cached.
Qed.

Lemma begin_inv max ceiling c h s id hold now :
  cache_inv max ceiling (c, h) -> cache_inv max ceiling (apply (c, h) (OBegin s id hold now)).
Proof.
  intros Hinv. cbn [apply]. unfold begin. cbn [new_flight].
  set (c1 := set_flights c (flights c) _ _).
  assert (H1 : cache_inv max ceiling (c1, h)) by by apply set_flights_inv.
  destruct (dormantLocked c s); [done|].
  destruct (deadLocked c1 (s, id) now) as [[stalled|] c2] eqn:Ed;
    pose proof (deadLocked_inv _ _ _ _ _ _ _ _ H1 Ed) as H2; [by apply set_flights_inv|].
  pose proof (entry_at_spec c2 (s, id)) as He. destruct (entry_at c2 (s, id)) as [e|].
  - destruct He as [He Hk]. rewrite <- Hk. apply (touch_inv max ceiling c2 h e hold H2 He).
  - destruct (flights c2 !! (s, id)) as [f|]; [destruct hold; [by apply set_flights_inv|done]|].
    by apply set_flights_inv.
Qed.

Lemma retain_waiters c h p n :
  base_inv c h -> 1 <= h p -> base_inv (retainLocked c p n) (hold_more h p (Z.max 0 n)).
Proof.
  intros [Hk Hu Hs Hc] Hh. destruct (retainLocked_rest c p n) as (_ & Hl & Hu1).
  constructor; rewrite ?Hl, ?Hu1; try done.
  assert (Heq : retainLocked c p n = retainLocked c p (Z.max 0 n)).
  { unfold retainLocked. destruct (refs c !! p); [|done].
    destruct (0 <? n) eqn:E; bprop.
    - replace (Z.max 0 n) with n by lia. by replace (0 <? n) with true by (symmetry; apply Z.ltb_lt; lia).
    - by replace (0 <? Z.max 0 n) with false by (symmetry; apply Z.ltb_ge; lia). }
  rewrite Heq. apply retainLocked_counted; [done| |lia]. intros Hp. by eapply tracked_if_held.
Qed.

Lemma finish_inv max ceiling c h s id fl out now :
  (forall q, 0 <= cap q) -> 0 <= max ->
  cache_inv max ceiling (c, h) -> op_ok (c, h) (OFinish s id fl out now) ->
  cache_inv max ceiling (apply (c, h) (OFinish s id fl out now)).
Proof.
  intros Hcap Hmx Hinv Hok. cbn [apply]. unfold finish.
  set (c1 := if bool_decide (flights c !! (s, id) = Some fl) then _ else c).
  assert (H1 : cache_inv max ceiling (c1, h)) by (unfold c1; destruct (bool_decide _); [by apply set_flights_inv|done]).
  assert (Hf1 : fheap c1 = fheap c) by (unfold c1; by destruct (bool_decide _)).
  clearbody c1. destruct out as [p|e].
  - simpl in Hok. set (c2 := if dormantLocked c1 s then c1 else storeLocked cap c1 (s, id) p).
    pose proof H1 as [Hb1 Hu1 Hm1 _ Hbo1 Hd1]. cbn [fst snd] in *.
    destruct (storeLocked_spec c1 h (s, id) p Hcap Hb1 ltac:(lia) Hu1 Hok) as (S1 & S2 & S3 & _).
    assert (H2 : cache_inv max ceiling (c2, h) /\ fheap c2 = fheap c).
    { unfold c2. destruct (dormantLocked c1 s); [done|].
      destruct S2 as (R1 & R2 & R3 & R4 & R5 & R6 & R7 & R8 & R9 & _).
      split; [|by rewrite R9]. apply (cache_inv_keep max ceiling c1 h); rewrite ?R1, ?R3, ?R5, ?R6, ?R7; done. }
    destruct H2 as [H2 Hf2]. clearbody c2. rewrite Hf2. apply set_flights_inv.
    pose proof H2 as [Hb2 Hu2 _ _ _ Hd2]. cbn [fst snd] in *.
    destruct (retainLocked_rest c2 p (flight_waiters c fl)) as ((R1 & R2 & R3 & R4 & R5 & R6 & R7 & _) & Hl & Hu).
    fold (flight_waiters c fl).
    apply (cache_inv_keep max ceiling c2 h); rewrite ?R1, ?R3, ?R5, ?R6, ?R7, ?Hu; try done.
    by apply retain_waiters.
  - apply set_flights_inv. destruct (dormantLocked c1 s); [done|]. by apply markDead_inv.
Qed.

Lemma release_inv max ceiling c h p :
  cache_inv max ceiling (c, h) -> 1 <= h p ->
  cache_inv max ceiling (releaseLocked c p, hold_more h p (-1)).
Proof.
  intros Hinv Hh. pose proof Hinv as [Hb Hu _ _ _ Hd]. cbn [fst snd] in *.
  destruct (releaseLocked_rest c p) as ((R1 & R2 & R3 & R4 & R5 & R6 & R7 & _) & Hl & Huu).
  apply (cache_inv_keep max ceiling c h); rewrite ?R1, ?R3, ?R5, ?R6, ?R7, ?Huu; try done.
  destruct Hb as [Hk Hus Hs Hc]. constructor; rewrite ?Hl, ?Huu; try done.
  apply releaseLocked_counted.
  - apply (counted_holders c h); [|done]. intros q. unfold hold_more. destruct (Nat.eqb q p); lia.
  - intros q. unfold hold_more. pose proof (counted_nonneg c h Hc q).
    destruct (Nat.eqb_spec q p) as [->|]; lia.
Qed.

Lemma track_inv max ceiling c h p :
  cache_inv max ceiling (c, h) -> op_ok (c, h) (OTrack p) ->
  cache_inv max ceiling (trackPart c p, hold_more h p 1).
Proof.
  intros Hinv (Hpo & Hr & Hh & Hpool & Hl). pose proof Hinv as [Hb Hu _ _ _ Hd]. cbn [fst snd] in *.
  apply (cache_inv_keep max ceiling c h); try done. destruct Hb as [Hk Hus Hs Hc].
  constructor; try done. intros q. destruct (Hc q) as (Hq & Hp & Hn). unfold hold_more, trackPart.
  cbn [set_refs refs lru pool]. destruct (decide (q = p)) as [->|Hne].
  - rewrite Nat.eqb_refl, lookup_insert_eq. split; [lia|]. split; [|congruence]. intros Ht.
    specialize (Hp Ht). rewrite Hr in Hp. split; [lia|]. split; [lia|done].
  - rewrite (proj2 (Nat.eqb_neq q p) Hne), lookup_insert_ne by done. done.
Qed.

Lemma apply_inv max ceiling st o :
  (forall q, 0 <= cap q) -> 0 <= max -> 0 <= ceiling ->
  cache_inv max ceiling st -> op_ok st o -> cache_inv max ceiling (apply st o).
Proof.
  intros Hcap Hmx Hce. destruct st as [c h]. intros Hinv Hok.
  destruct o as [|s|s|s|s id hold now|s id fl out now|fl|fl|p|p|d|hb want]; cbn [apply].
  - pose proof Hinv as [Hb Hu _ _ _ Hd]. cbn [fst snd] in *.
    apply (cache_inv_keep max ceiling c h); try done. by eapply base_inv_ext; [..|exact Hb].
  - unfold Release. set (c1 := set_scope c s _).
    assert (cache_inv max ceiling (c1, h)) by by apply set_scope_inv.
    destruct (srefs _ =? 0); [by apply purge_inv|done].
  - by apply set_scope_inv.
  - unfold unretain. set (c1 := set_scope c s _).
    assert (cache_inv max ceiling (c1, h)) by by apply set_scope_inv.
    destruct (dormantLocked c1 s); [by apply purge_inv|done].
  - by apply begin_inv.
  - by apply finish_inv.
  - unfold abandon. simpl in Hok. destruct (finished _).
    + destruct (fpart _) as [p|]; [by apply release_inv|done].
    + destruct (fpart _) as [p|]; by apply set_flights_inv.
  - by apply set_flights_inv.
  - by apply track_inv.
  - by apply release_inv.
  - pose proof Hinv as [Hb Hu _ _ _ Hd]. cbn [fst snd] in *.
    apply (cache_inv_keep max ceiling c h); try done. by eapply base_inv_ext; [..|exact Hb].
  - by apply boost_inv.
Qed.

Lemma init_inv max ceiling : 0 <= max -> 0 <= ceiling ->
  cache_inv max ceiling (NewArticleCache max ceiling, fun _ => 0).
Proof.
  intros Hm Hc. constructor; cbn [fst snd NewArticleCache used maxBytes boosted baseBytes boostCeiling dead];
    try lia; [|rewrite map_size_empty; lia].
  constructor; [constructor|done|constructor|]. intros q. split; [lia|].
  cbn [NewArticleCache refs lru pool count_part]. rewrite lookup_empty. split; [done|].
  intros _. split; [done|]. apply not_elem_of_nil.
Qed.

Lemma reach_inv max ceiling st :
  (forall q, 0 <= cap q) -> 0 <= max -> 0 <= ceiling -> reach max ceiling st -> cache_inv max ceiling st.
Proof. intros Hcap Hm Hc. induction 1; [by apply init_inv|by apply apply_inv]. Qed.

(** Once recycled, a buffer is not tracked again. *)
Lemma recycled_untracked c h p : counted c h -> p ∈ pool c -> pooled p = true /\ count_part p (lru c) = 0 /\ h p = 0.
Proof.
  intros Hc Hp. destruct (Hc p) as (_ & H1 & H2). destruct (pooled p); [|by destruct (H2 eq_refl)].
  specialize (H1 eq_refl). destruct (refs c !! p); [naive_solver|done].
Qed.
End Steps.

(** * One fetch per article *)

(** The flights and scopes an operation sees. *)
Definition same_flights (c c' : ArticleCache) : Prop := flights c' = flights c /\ scopes c' = scopes c.

Lemma removeLocked_flights c e : same_flights c (removeLocked c e).
Proof.
  unfold removeLocked, same_flights. destruct (releaseLocked_rest (set_lru c (without (ekey e) (lru c)) (used c - esize e)) (epart e))
    as ((_ & R2 & _ & _ & _ & _ & _ & R8 & _) & _). by rewrite R2, R8.
Qed.
Lemma same_flights_trans a b c : same_flights a b -> same_flights b c -> same_flights a c.
Proof. unfold same_flights. intuition congruence. Qed.
Lemma evict_flights fuel c : same_flights c (evict fuel c).
Proof.
  revert c. induction fuel as [|fuel IH]; intros c; simpl; [done|].
  destruct (_ <? _); [|done]. destruct (last (lru c)); [|done].
  eapply same_flights_trans; [apply removeLocked_flights|apply IH].
Qed.
Lemma fold_remove_flights es c : same_flights c (fold_left removeLocked es c).
Proof.
  revert c. induction es as [|e es IH]; intros c; simpl; [done|].
  eapply same_flights_trans; [apply removeLocked_flights|apply IH].
Qed.
Lemma retainLocked_flights c p n : same_flights c (retainLocked c p n).
Proof. destruct (retainLocked_rest c p n) as ((_ & R2 & _ & _ & _ & _ & _ & R8 & _) & _). done. Qed.
Lemma releaseLocked_flights c p : same_flights c (releaseLocked c p).
Proof. destruct (releaseLocked_rest c p) as ((_ & R2 & _ & _ & _ & _ & _ & R8 & _) & _). done. Qed.
Lemma storeLocked_flights cap c k p : same_flights c (storeLocked cap c k p).
Proof.
  unfold storeLocked. destruct (_ <? _); [done|].
  eapply same_flights_trans; [|apply evict_flights].
  set (c1 := match entry_at c k with Some e => removeLocked c e | None => c end).
  assert (H1 : same_flights c c1) by (unfold c1; destruct (entry_at c k); [apply removeLocked_flights|done]).
  set (c2 := set_lru c1 (mkEntry k p (cap p) :: lru c1) (used c1)).
  pose proof (retainLocked_flights c2 p 1) as [R1 R2]. destruct H1 as [H1 H2].
  split; cbn [set_lru flights scopes]; [rewrite R1|rewrite R2]; done.
Qed.
Lemma deadLocked_flights c k now r c' : deadLocked c k now = (r, c') -> same_flights c c'.
Proof.
  unfold deadLocked. destruct (dead c !! k) as [m|]; [destruct (expired m now)|]; by intros [= _ <-].
Qed.
Lemma markDead_flights c k e now : same_flights c (markDeadLocked c k e now).
Proof. destruct e; cbn [markDeadLocked]; [|done|done]. by destruct (_ <=? _)%nat. Qed.

Section SingleFlight.
Context (s : scopeId) (id : bytes) (fl : flightId).

(** The article is being fetched by the leader of [fl]. *)
Definition led (c : ArticleCache) : Prop := flights c !! (s, id) = Some fl /\ dormantLocked c s = false.

(** Operations that neither end the flight nor close the scope. *)
Definition keeps (o : op) : Prop :=
  match o with
  | OFinish s' id' fl' _ _ => (s', id', fl') <> (s, id, fl)
  | ORelease s' | OUnretain s' => s' <> s
  | _ => True
  end.

Lemma led_flights c c' : same_flights c c' -> led c -> led c'.
Proof. intros [H1 H2] [L1 L2]. unfold led, dormantLocked, scope_of in *. rewrite H1, H2. done. Qed.

Lemma led_purge c s' : s' <> s -> led c -> led (purgeLocked c s').
Proof.
  intros Hne Hl. unfold purgeLocked. set (es := List.filter _ (lru c)).
  pose proof (led_flights _ _ (fold_remove_flights es c) Hl) as [L1 L2].
  split; [|exact L2]. cbn [purgeDeadLocked set_dead set_flights flights].
  apply map_lookup_filter_Some. split; [done|]. cbn. congruence.
Qed.

Lemma led_set_scope c s' v : s' <> s -> led c -> led (set_scope c s' v).
Proof.
  intros Hne [L1 L2]. split; [done|]. unfold dormantLocked, scope_of, set_scope in *.
  cbn [set_scopes scopes]. by rewrite lookup_insert_ne.
Qed.

Lemma led_apply cap c h o : keeps o -> led c -> led (fst (apply cap (c, h) o)).
Proof.
  intros Hk Hl. pose proof Hl as [L1 L2].
  destruct o as [|s'|s'|s'|s' id' hold now|s' id' fl' out now|fl'|fl'|p|p|d|hb want]; cbn [apply fst]; simpl in Hk.
  - split; [done|]. unfold dormantLocked, scope_of in *. cbn [NewScope snd set_scopes scopes].
    destruct (decide (nextId c = s)) as [->|Hne]; [by rewrite lookup_insert_eq|by rewrite lookup_insert_ne].
  - unfold Release. set (c1 := set_scope c s' _). assert (led c1) by by apply led_set_scope.
    destruct (_ =? 0); [by apply led_purge|done].
  - destruct (decide (s' = s)) as [->|Hne]; [|by apply led_set_scope]. split; [done|].
    unfold dormantLocked, scope_of, retain, set_scope in *. cbn [set_scopes scopes].
    rewrite lookup_insert_eq. cbn. unfold scope_of in *.
    apply andb_false_iff in L2 as [->|L2]; [done|]. apply andb_false_iff. right. bprop. apply Z.leb_gt. lia.
  - unfold unretain. set (c1 := set_scope c s' _). assert (led c1) by by apply led_set_scope.
    destruct (dormantLocked c1 s'); [by apply led_purge|done].
  - unfold begin. cbn [new_flight]. destruct (dormantLocked c s'); [done|].
    set (c1 := set_flights c (flights c) (<[nextId c := empty_flight]> (fheap c)) (S (nextId c))).
    destruct (deadLocked c1 (s', id') now) as [[st|] c2] eqn:Ed;
      pose proof (led_flights c1 c2 (deadLocked_flights _ _ _ _ _ Ed) Hl) as Hl2.
    + done.
    + cbn [fst].
      destruct (entry_at c2 (s', id')) as [e|].
      * destruct hold; [|done]. by apply (led_flights _ _ (retainLocked_flights _ _ _)).
      * destruct (flights c2 !! (s', id')) as [f|] eqn:Ef; [by destruct hold|].
        split; [|apply Hl2]. cbn [fst set_flights flights].
        destruct (decide ((s', id') = (s, id))) as [Heq|Hne].
        -- rewrite Heq in Ef. destruct Hl2 as [Hl2 _]. congruence.
        -- rewrite lookup_insert_ne by done. apply Hl2.
  - unfold finish.
    set (c1 := if bool_decide (flights c !! (s', id') = Some fl') then _ else c).
    assert (Hl1 : led c1).
    { unfold c1. destruct (bool_decide _) eqn:Eb; [|done]. bprop. split; [|done].
      cbn [set_flights flights]. rewrite lookup_delete_ne; [done|]. intros Heq. congruence. }
    clearbody c1.
    set (c2 := if dormantLocked c1 s' then c1 else _).
    assert (Hl2 : led c2).
    { unfold c2. destruct (dormantLocked c1 s'); [done|].
      destruct out; [by apply (led_flights _ _ (storeLocked_flights _ _ _ _))|by apply (led_flights _ _ (markDead_flights _ _ _ _))]. }
    clearbody c2. destruct out as [p|e]; [|done].
    apply (led_flights _ _ (retainLocked_flights c2 p (waiters (default empty_flight (fheap c2 !! fl'))))) in Hl2. done.
  - unfold abandon. destruct (finished _); [|done]. destruct (fpart _); [|done].
    by apply (led_flights _ _ (releaseLocked_flights _ _)).
  - done.
  - done.
  - by apply (led_flights _ _ (releaseLocked_flights _ _)).
  - done.
  - unfold resizeBoost. cbn [snd]. by apply (led_flights _ _ (evict_flights _ _)).
Qed.
End SingleFlight.

(** * Claims *)

(** The cache keeps its bounds through every sequence of operations by any
    number of readers: the byte counter is the sum of the articles held, which
    never exceeds the current bound, itself at most the base bound plus the
    boost ceiling; no article is held twice; and the dead-article memo never
    outgrows its 4096 entries. *)
Lemma cache_within_bounds cap pooled max ceiling c h :
  (forall q, 0 <= cap q) -> 0 <= max -> 0 <= ceiling -> reach cap pooled max ceiling (c, h) ->
  used c = sum_sizes (lru c) /\ used c <= maxBytes c <= max + ceiling /\
  NoDup (map ekey (lru c)) /\ (size (dead c) <= maxDeadArticles)%nat.
Proof.
  intros Hcap Hm Hc Hr. destruct (reach_inv cap pooled max ceiling (c, h) Hcap Hm Hc Hr)
    as [[Hk Hu _ _] Hle Hmx _ Hb Hd]. cbn [fst snd] in *. repeat split; try done; lia.
Qed.

(** Concurrent readers never fetch an article twice: from the moment one
    caller leads the fetch of an article, and until that fetch finishes or its
    source is closed, every other lookup of it is answered from the cache or
    the memo or joins the fetch in progress, whatever operations happen in
    between. *)
Lemma single_flight cap c h s id hold now fl c1 ops hold' now' :
  dormantLocked c s = false -> begin c s id hold now = (Lead fl, c1) ->
  Forall (keeps s id fl) ops ->
  match fst (begin (fst (fold_left (apply cap) ops (c1, h))) s id hold' now') with
  | Lead _ => False
  | _ => True
  end.
Proof.
  intros Hd Hb Hk.
  assert (Hl1 : led s id fl c1).
  { unfold begin in Hb. cbn [new_flight] in Hb. rewrite Hd in Hb.
    destruct (deadLocked _ (s, id) now) as [[st|] c2] eqn:Ed; [done|].
    apply deadLocked_flights in Ed as [_ Hs].
    destruct (entry_at c2 (s, id)); [done|]. destruct (flights c2 !! (s, id)); [done|].
    injection Hb as <- <-. split; [cbn [set_flights flights]; apply lookup_insert_eq|].
    unfold dormantLocked, scope_of in *. cbn [set_flights scopes] in *. by rewrite Hs. }
  assert (Hl2 : forall st, led s id fl (fst st) -> led s id fl (fst (fold_left (apply cap) ops st))).
  { clear -Hk. induction Hk as [|o ops Ho Hops IH]; intros [c' h'] Hl; [done|].
    cbn [fold_left]. apply IH. by apply led_apply. }
  destruct (Hl2 (c1, h) Hl1) as [L1 L2]. set (c2 := fst _) in *. clearbody c2.
  unfold begin. cbn [new_flight]. rewrite L2.
  destruct (deadLocked _ (s, id) now') as [[st|] c3] eqn:Ed; [done|].
  apply deadLocked_flights in Ed as [Hf _]. cbn [set_flights flights] in Hf.
  destruct (entry_at c3 (s, id)); [done|]. by rewrite Hf, L1.
Qed.

(** ** Witnesses *)

(** A 100-byte cache; every part is 60 bytes in a pooled buffer.  Scope 0 loads
    two articles; the second evicts the first, whose fetch then lets go of it. *)
Definition demo_ops : list op :=
  [ONewScope; ORetain 0; OBegin 0 [97] true 0; OTrack 10; OFinish 0 [97] 1 (inl 10%nat) 0;
   OBegin 0 [98] true 1; OTrack 11; OFinish 0 [98] 2 (inl 11%nat) 1; OReleasePart 10].
Definition demo_cap (_ : nat) : Z := 60.
Definition demo_pooled (_ : nat) : bool := true.
Definition demo_state : ArticleCache * holders :=
  fold_left (apply demo_cap) demo_ops (NewArticleCache 100 0, fun _ => 0).

#[local] Instance op_ok_dec st o : Decision (op_ok demo_pooled st o).
Proof. destruct st as [c h]. destruct o as [| | | | |? ? ? [|] ?|fl| | | | |]; simpl; try apply _.
  destruct (fpart _); apply _. Defined.

(** Check a run step by step. *)
Fixpoint run_ok (ops : list op) (st : ArticleCache * holders) : bool :=
  match ops with
  | [] => true
  | o :: ops' => bool_decide (op_ok demo_pooled st o) && run_ok ops' (apply demo_cap st o)
  end.
Lemma run_ok_reach max ceiling ops st :
  reach demo_cap demo_pooled max ceiling st -> run_ok ops st = true ->
  reach demo_cap demo_pooled max ceiling (fold_left (apply demo_cap) ops st).
Proof.
  revert st. induction ops as [|o ops IH]; intros st Hr Hok; [exact Hr|].
  simpl in *. apply andb_prop in Hok as [H1 H2]. apply bool_decide_eq_true in H1.
  apply IH; [|exact H2]. by apply reach_step.
Defined.
Lemma demo_reach : reach demo_cap demo_pooled 100 0 demo_state.
Proof. apply run_ok_reach; [apply reach_new|vm_compute; reflexivity]. Defined.

(** The demo run ends with one article of 60 bytes. *)
Lemma cache_within_bounds_witness :
  map epart (lru (fst demo_state)) = [11%nat] /\
  used (fst demo_state) = sum_sizes (lru (fst demo_state)) /\
  used (fst demo_state) <= maxBytes (fst demo_state) <= 100 + 0.
Proof.
  split; [vm_compute; reflexivity|].
  destruct (cache_within_bounds demo_cap demo_pooled 100 0 (fst demo_state) (snd demo_state))
    as (H1 & H2 & _); [intros q; vm_compute; congruence|lia|lia| |split; [exact H1|exact H2]].
  rewrite <- surjective_pairing. exact demo_reach.
Defined.

(** While flight 1 is in progress and other articles come and go. *)
Lemma single_flight_witness :
  let c := fst (fold_left (apply demo_cap) [ONewScope; ORetain 0] (NewArticleCache 100 0, fun _ => 0)) in
  match fst (begin (fst (fold_left (apply demo_cap) [OBegin 0 [98] true 1; OAbandon 2; ORelease 5]
               (snd (begin c 0 [97] true 0), fun _ => 0))) 0 [97] false 7) with
  | Lead _ => False
  | _ => True
  end.
Proof.
  intros c.
  apply (single_flight demo_cap c (fun _ => 0) 0 [97] true 0 1%nat (snd (begin c 0 [97] true 0))
    [OBegin 0 [98] true 1; OAbandon 2; ORelease 5] false 7).
  - vm_compute. reflexivity.
  - vm_compute. reflexivity.
  - repeat constructor. simpl. lia.
Defined.
