(* ===== verification/CacheClients.v ===== *)
(** The users of the article cache: the goroutines of internal/usenet/stream that
    hold decoded parts.

    A reader (reader.go, arriving.go) holds its current part, may wait for an
    article that is arriving, and is inside load or awaitArticle the rest of the
    time; a worker is a fetch that runs in the background: the one awaitArticle
    starts, a read-ahead (readahead.go) or the loser of two racing fetches
    (hedge.go).  A step is one critical section of the cache's mutex, taken by one
    of them, in any order.  No step assumes that a caller only gives back what it
    holds: what each goroutine holds is its local state, and the reference counts
    of ArticleCache are shown to agree with it. *)
From Stdlib Require Import ZArith Lia.
From stdpp Require Import prelude list gmap.
From S2P Require Import Prelude ArticleCache.

Open Scope Z_scope.

(** Where a reader is between two critical sections. *)
Inductive rphase :=
| PIdle
| PLoad (id : bytes) (fl : flightId)                 (* load: leads, its fetch runs *)
| PLoaded (id : bytes) (fl : flightId) (p : partId)  (* load: its fetch returned the part *)
| PWait (fl : flightId)                              (* load: waits for another's fetch *)
| PClaimed (id : bytes) (fl : flightId)              (* awaitArticle: leads, not yet counted *)
| PSwap (p : partId)                                 (* has the part, still holds the old one *)
| PDiscard (p : partId)                              (* takeArrived: drops what failed to verify *)
| PClosing
| PClosed.

(** [cur] is the current part, [arriving] the flight awaited, [boost] the bytes
    held of the boost. *)
Record client := mkClient {
  scope : scopeId; cur : option partId; arriving : option flightId; boost : Z; phase : rphase
}.
Inductive worker :=
| WFetch (s : scopeId) (id : bytes) (fl : flightId)
| WGot (s : scopeId) (id : bytes) (fl : flightId) (p : partId)
| WHeld (p : partId)          (* published, or the loser of a race *)
| WEnd.

Record sys := mkSys { cache : ArticleCache; clients : list client; workers : list worker }.

Inductive event :=
| ENewScope
| ERelease (s : scopeId)
| EOpen (s : scopeId)
| ECountReadahead (delta : Z)
| EBoost (i : nat) (want : Z)
| ELoad (i : nat) (id : bytes) (now : Z)
| EFetched (i : nat) (p : partId)
| EFetchFailed (i : nat) (e : fetchErr) (now : Z)
| EPublish (i : nat) (now : Z)
| EWake (i : nat)
| ECancel (i : nat)
| ESwap (i : nat)
| EAwait (i : nat) (id : bytes) (now : Z)
| EWaitCounted (i : nat)
| ETake (i : nat) (tainted : bool)
| EDiscard (i : nat)
| EDropArriving (i : nat)
| EClose (i : nat)
| ELeave (i : nat)
| EClaim (s : scopeId) (id : bytes) (now : Z)
| ERaceLost (p : partId)
| EWFetched (j : nat) (p : partId)
| EWFailed (j : nat) (e : fetchErr) (now : Z)
| EWPublish (j : nat) (now : Z)
| EWRelease (j : nat).

Definition at_phase (r : client) (ph : rphase) : client := mkClient (scope r) (cur r) (arriving r) (boost r) ph.
Definition with_arriving (r : client) (a : option flightId) (ph : rphase) : client :=
  mkClient (scope r) (cur r) a (boost r) ph.
Definition with_cur (r : client) (p : option partId) (ph : rphase) : client :=
  mkClient (scope r) p (arriving r) (boost r) ph.
Definition set_client (S : sys) (c : ArticleCache) (i : nat) (r : client) : sys :=
  mkSys c (<[i := r]> (clients S)) (workers S).
Definition set_worker (S : sys) (c : ArticleCache) (j : nat) (w : worker) : sys :=
  mkSys c (clients S) (<[j := w]> (workers S)).

Section Machine.
Context (cap : partId -> Z) (pooled : partId -> bool).

(** keepDecoded: a part decoded into the pool's buffer is tracked. *)
Definition keepDecoded (c : ArticleCache) (p : partId) : ArticleCache :=
  if pooled p then trackPart c p else c.

(** A flight's outcome, once it is done. *)
Definition outcome (c : ArticleCache) (fl : flightId) : option (option partId) :=
  match fheap c !! fl with
  | Some fr => if finished fr then Some (fpart fr) else None
  | None => None
  end.

(** One client's critical section. *)
Definition client_step (S : sys) (i : nat) (r : client) (ev : event) : sys :=
  let c := cache S in
  let s := scope r in
  match ev, phase r with
  | EBoost _ want, (PIdle | PClosing) =>
      let '(g, c') := resizeBoost c (boost r) want in
      set_client S c' i (mkClient s (cur r) (arriving r) g (phase r))
  | ELoad _ id now, PIdle =>
      match begin c s id true now with
      | (Cached p, c') => set_client S c' i (at_phase r (PSwap p))
      | (Lead fl, c') => set_client S c' i (at_phase r (PLoad id fl))
      | (Join fl, c') => set_client S c' i (at_phase r (PWait fl))
      end
  | EFetched _ p, PLoad id fl => set_client S (keepDecoded c p) i (at_phase r (PLoaded id fl p))
  | EFetchFailed _ e now, PLoad id fl => set_client S (finish cap c s id fl (inr e) now) i (at_phase r PIdle)
  | EPublish _ now, PLoaded id fl p => set_client S (finish cap c s id fl (inl p) now) i (at_phase r (PSwap p))
  | EWake _, PWait fl =>
      match outcome c fl with
      | Some (Some p) => set_client S c i (at_phase r (PSwap p))
      | Some None => set_client S c i (at_phase r PIdle)
      | None => S
      end
  | ECancel _, PWait fl => set_client S (abandon c fl) i (at_phase r PIdle)
  | ESwap _, PSwap p => set_client S (releasePart c (cur r)) i (with_cur r (Some p) PIdle)
  | EAwait _ id now, PIdle =>
      match arriving r with
      | Some _ => S
      | None =>
          match begin c s id true now with
          | (Cached p, c') => set_client S c' i (at_phase r (PSwap p))
          | (Lead fl, c') => set_client S c' i (at_phase r (PClaimed id fl))
          | (Join fl, c') => set_client S c' i (with_arriving r (Some fl) PIdle)
          end
      end
  | EWaitCounted _, PClaimed id fl =>
      match arriving r with
      | Some _ => S     (* not reached: awaitArticle dropped the old one first *)
      | None => mkSys (wait c fl) (<[i := with_arriving r (Some fl) PIdle]> (clients S)) (WFetch s id fl :: workers S)
      end
  | ETake _ tainted, PIdle =>
      match arriving r ≫= outcome c with
      | Some (Some p) => set_client S c i (with_arriving r None (if tainted then PDiscard p else PSwap p))
      | Some None => set_client S c i (with_arriving r None PIdle)
      | None => S
      end
  | EDiscard _, PDiscard p => set_client S (releasePart c (Some p)) i (at_phase r PIdle)
  | EDropArriving _, PIdle =>
      match arriving r with
      | Some fl => set_client S (abandon c fl) i (with_arriving r None PIdle)
      | None => S
      end
  | EClose _, PIdle =>
      match arriving r with
      | Some _ => S
      | None => set_client S (releasePart c (cur r)) i (with_cur r None PClosing)
      end
  | ELeave _, PClosing =>
      if boost r =? 0 then set_client S (unretain c s) i (at_phase r PClosed) else S
  | _, _ => S
  end.

Definition worker_step (S : sys) (j : nat) (w : worker) (ev : event) : sys :=
  let c := cache S in
  match ev, w with
  | EWFetched _ p, WFetch s id fl => set_worker S (keepDecoded c p) j (WGot s id fl p)
  | EWFailed _ e now, WFetch s id fl => set_worker S (finish cap c s id fl (inr e) now) j WEnd
  | EWPublish _ now, WGot s id fl p => set_worker S (finish cap c s id fl (inl p) now) j (WHeld p)
  | EWRelease _, WHeld p => set_worker S (releasePart c (Some p)) j WEnd
  | _, _ => S
  end.

Definition event_client (ev : event) : option nat :=
  match ev with
  | EBoost i _ | ELoad i _ _ | EFetched i _ | EFetchFailed i _ _ | EPublish i _ | EWake i | ECancel i | ESwap i
  | EAwait i _ _ | EWaitCounted i | ETake i _ | EDiscard i | EDropArriving i | EClose i | ELeave i => Some i
  | _ => None
  end.
Definition event_worker (ev : event) : option nat :=
  match ev with EWFetched j _ | EWFailed j _ _ | EWPublish j _ | EWRelease j => Some j | _ => None end.

Definition step (S : sys) (ev : event) : sys :=
  let c := cache S in
  match ev with
  | ENewScope => mkSys (snd (NewScope c)) (clients S) (workers S)
  | ERelease s => mkSys (Release c s) (clients S) (workers S)
  | EOpen s => mkSys (retain c s) (mkClient s None None 0 PIdle :: clients S) (workers S)
  | ECountReadahead d => mkSys (countReadahead c d) (clients S) (workers S)
  | EClaim s id now =>
      match claim c s id now with
      | (Some fl, c') => mkSys c' (clients S) (WFetch s id fl :: workers S)
      | (None, c') => mkSys c' (clients S) (workers S)
      end
  | ERaceLost p => mkSys (keepDecoded c p) (clients S) (WHeld p :: workers S)
  | _ =>
      match event_client ev ≫= (fun i => clients S !! i), event_worker ev ≫= (fun j => workers S !! j) with
      | Some r, _ => client_step S (default O (event_client ev)) r ev
      | _, Some w => worker_step S (default O (event_worker ev)) w ev
      | _, _ => S
      end
  end.

(** ** What the goroutines hold *)

Inductive token :=
| THold (p : partId)                 (* one reference to a part *)
| TWait (fl : flightId)              (* waits for a flight, and will hold its part *)
| TLead (k : cacheKey) (fl : flightId)
| TBoost (b : Z).

Definition hold_tokens (o : option partId) : list token := match o with Some p => [THold p] | None => [] end.
Definition wait_tokens (o : option flightId) : list token := match o with Some fl => [TWait fl] | None => [] end.
Definition phase_tokens (s : scopeId) (ph : rphase) : list token :=
  match ph with
  | PLoad id fl | PClaimed id fl => [TLead (s, id) fl]
  | PLoaded id fl p => [TLead (s, id) fl; THold p]
  | PWait fl => [TWait fl]
  | PSwap p | PDiscard p => [THold p]
  | _ => []
  end.
Definition client_tokens (r : client) : list token :=
  phase_tokens (scope r) (phase r) ++ hold_tokens (cur r) ++ wait_tokens (arriving r) ++ [TBoost (boost r)].
Definition worker_tokens (w : worker) : list token :=
  match w with
  | WFetch s id fl => [TLead (s, id) fl]
  | WGot s id fl p => [TLead (s, id) fl; THold p]
  | WHeld p => [THold p]
  | WEnd => []
  end.
Definition tokens (S : sys) : list token :=
  (clients S ≫= client_tokens) ++ (workers S ≫= worker_tokens).

(** The part a goroutine refers to: the one it holds, or the one that the flight
    it waits for has brought. *)
Definition part_of (c : ArticleCache) (t : token) : option partId :=
  match t with
  | THold p => Some p
  | TWait fl => default None (outcome c fl)
  | _ => None
  end.

(** A new part: a pointer nobody has. *)
Definition fresh (S : sys) (p : partId) : Prop :=
  refs (cache S) !! p = None /\ p ∉ pool (cache S) /\ Forall (fun e => epart e <> p) (lru (cache S)) /\
  Forall (fun t => part_of (cache S) t <> Some p) (tokens S).
Definition event_ok (S : sys) (ev : event) : Prop :=
  match ev with EFetched _ p | EWFetched _ p | ERaceLost p => fresh S p | _ => True end.

Inductive sreach (max ceiling : Z) : sys -> Prop :=
| sreach_new : sreach max ceiling (mkSys (NewArticleCache max ceiling) [] [])
| sreach_step S ev : sreach max ceiling S -> event_ok S ev -> sreach max ceiling (step S ev).
End Machine.

(** * Flights and their waiters *)

(** How many tokens wait for a flight, and the flights that are led. *)
Fixpoint waits (fl : flightId) (ts : list token) : Z :=
  match ts with
  | [] => 0
  | TWait f :: ts' => (if Nat.eqb f fl then 1 else 0) + waits fl ts'
  | _ :: ts' => waits fl ts'
  end.
Definition lead_of (t : token) : option flightId := match t with TLead _ fl => Some fl | _ => None end.
Abbreviation leads ts := (omap (M := list) lead_of ts).
Fixpoint boosts (ts : list token) : Z :=
  match ts with
  | [] => 0
  | TBoost b :: ts' => b + boosts ts'
  | _ :: ts' => boosts ts'
  end.
Definition boost_ok (t : token) : Prop := match t with TBoost b => 0 <= b | _ => True end.

(** The part a flight has brought, on the heap of flights. *)
Definition brought (hp : gmap flightId flight) (fl : flightId) : option partId :=
  match hp !! fl with Some fr => if finished fr then fpart fr else None | None => None end.
Definition refers (hp : gmap flightId flight) (p : partId) (t : token) : bool :=
  match t with
  | THold q => Nat.eqb q p
  | TWait fl => bool_decide (brought hp fl = Some p)
  | _ => false
  end.
Fixpoint held (hp : gmap flightId flight) (ts : list token) (p : partId) : Z :=
  match ts with [] => 0 | t :: ts' => (if refers hp p t then 1 else 0) + held hp ts' p end.

Lemma refers_part_of c p t : refers (fheap c) p t = true <-> part_of c t = Some p.
Proof.
  destruct t as [q|fl| |]; cbn; [rewrite Nat.eqb_eq; naive_solver| |done|done].
  unfold brought, outcome. rewrite bool_decide_eq_true. destruct (fheap c !! fl) as [fr|]; [|done].
  by destruct (finished fr).
Qed.
Lemma held_nonneg hp ts p : 0 <= held hp ts p.
Proof. induction ts as [|t ts IH]; cbn; [lia|]. destruct (refers _ _ _); lia. Qed.
Lemma held_zero c ts p : held (fheap c) ts p = 0 <-> Forall (fun t => part_of c t <> Some p) ts.
Proof.
  induction ts as [|t ts IH]; cbn; [split; [constructor|done]|]. rewrite Forall_cons, <- IH, <- refers_part_of.
  pose proof (held_nonneg (fheap c) ts p). destruct (refers _ _ _); split; [lia|intros [? _]; done| |lia].
  intros Hz. split; [done|lia].
Qed.
#[local] Instance waits_perm fl : Proper ((≡ₚ) ==> eq) (waits fl).
Proof. induction 1 as [|x ts ts' _ IH|x y ts|? ? ? _ IH1 _ IH2]; cbn; [done|by rewrite IH|destruct x, y; lia|by rewrite IH1]. Qed.
#[local] Instance boosts_perm : Proper ((≡ₚ) ==> eq) boosts.
Proof. induction 1 as [|x ts ts' _ IH|x y ts|? ? ? _ IH1 _ IH2]; cbn; [done|by rewrite IH|destruct x, y; lia|by rewrite IH1]. Qed.
Lemma held_perm hp ts ts' p : ts ≡ₚ ts' -> held hp ts p = held hp ts' p.
Proof. induction 1 as [|x ts ts' _ IH|x y ts|? ? ? _ IH1 _ IH2]; cbn; [done|by rewrite IH|lia|by rewrite IH1]. Qed.
Lemma waits_zero fl ts : TWait fl ∉ ts -> waits fl ts = 0.
Proof.
  induction ts as [|t ts IH]; [done|]. intros [H1 H2]%not_elem_of_cons. cbn. rewrite (IH H2).
  destruct t; try done. destruct (Nat.eqb_spec fl0 fl); [congruence|done].
Qed.
Lemma leads_elem fl (ts : list token) : fl ∈ leads ts <-> exists k, TLead k fl ∈ ts.
Proof.
  rewrite list_elem_of_omap. split.
  - intros (t & Ht & He). destruct t; cbn in He; try done. injection He as ->. eauto.
  - intros [k Hk]. by exists (TLead k fl).
Qed.

(** The flights as the goroutines see them. *)
Record finv (fs : gmap cacheKey flightId) (hp : gmap flightId flight) (n : nat) (ts : list token) : Prop := {
  fi_heap : forall fl, is_Some (hp !! fl) -> (fl < n)%nat;
  fi_waits : forall fl, TWait fl ∈ ts -> is_Some (hp !! fl);
  fi_leads : forall k fl, TLead k fl ∈ ts -> exists fr, hp !! fl = Some fr /\ finished fr = false;
  fi_once : NoDup (leads ts);
  fi_flights : forall k fl, fs !! k = Some fl -> TLead k fl ∈ ts;
  fi_count : forall fl fr, hp !! fl = Some fr -> finished fr = false -> waiters fr = waits fl ts /\ fpart fr = None
}.

Lemma finv_perm fs hp n ts ts' : ts ≡ₚ ts' -> finv fs hp n ts -> finv fs hp n ts'.
Proof.
  intros Hp [F1 F2 F3 F4 F5 F6]. split; [done| | | | |].
  - intros fl. rewrite <- Hp. apply F2.
  - intros k fl. rewrite <- Hp. apply F3.
  - by rewrite <- Hp.
  - intros k fl. rewrite <- Hp. apply F5.
  - intros fl fr. rewrite <- Hp. apply F6.
Qed.

(** Tokens that have nothing to do with flights. *)
Definition no_flight (t : token) : Prop := match t with THold _ | TBoost _ => True | _ => False end.
Lemma finv_other fs fs' hp n n' ts t :
  no_flight t -> (n <= n')%nat -> (forall k fl, fs' !! k = Some fl -> fs !! k = Some fl) ->
  (finv fs hp n ts -> finv fs' hp n' (t :: ts)) /\ (finv fs hp n (t :: ts) -> finv fs' hp n' ts).
Proof.
  intros Ht Hn Hs. destruct t; try done; (split; intros [F1 F2 F3 F4 F5 F6]; (split;
    [intros fl Hfl; specialize (F1 fl Hfl); lia|set_solver|set_solver|done|set_solver|done])).
Qed.
Lemma finv_sub fs fs' hp n n' ts :
  (n <= n')%nat -> (forall k fl, fs' !! k = Some fl -> fs !! k = Some fl) -> finv fs hp n ts -> finv fs' hp n' ts.
Proof. intros Hn Hs [F1 F2 F3 F4 F5 F6]. split; try done; [intros fl Hf; specialize (F1 fl Hf); lia|auto]. Qed.

Definition bump (fr : flight) (d : Z) : flight :=
  mkFlight (fpart fr) (ferr fr) (fretry fr) (waiters fr + d) (finished fr).

Lemma finv_unallocated fs hp n ts : finv fs hp n ts -> hp !! n = None /\ TWait n ∉ ts /\ n ∉ leads ts.
Proof.
  intros [F1 F2 F3 _ _ _]. assert (Hn : hp !! n = None) by (apply eq_None_not_Some; intros H%F1; lia).
  split; [done|]. split; [intros [? H]%F2; congruence|]. rewrite leads_elem. intros [k (fr & H & _)%F3]. congruence.
Qed.

(** A flight nobody knows. *)
Lemma finv_alloc fs hp n ts f :
  (finished f = false -> waiters f = 0 /\ fpart f = None) -> finv fs hp n ts -> finv fs (<[n := f]> hp) (S n) ts.
Proof.
  intros Hf Hi. destruct (finv_unallocated _ _ _ _ Hi) as (Hn & Hw & _). destruct Hi as [F1 F2 F3 F4 F5 F6]. split; try done.
  - intros fl. destruct (decide (fl = n)) as [->|Hne]; [lia|]. rewrite lookup_insert_ne by done. intros H%F1. lia.
  - intros fl H. destruct (decide (fl = n)) as [->|Hne]; [done|]. rewrite lookup_insert_ne by done. auto.
  - intros k fl H%F3. destruct H as (fr & H & Hfr). exists fr. by rewrite lookup_insert_ne by congruence.
  - intros fl fr. destruct (decide (fl = n)) as [->|Hne].
    + rewrite lookup_insert_eq. intros [= <-] H. rewrite waits_zero by done. by apply Hf.
    + rewrite lookup_insert_ne by done. apply F6.
Qed.

(** A flight the caller now leads, registered or not. *)
Lemma finv_lead fs fs' hp n ts k :
  (forall k' fl, fs' !! k' = Some fl -> fs !! k' = Some fl \/ (k' = k /\ fl = n)) ->
  finv fs hp n ts -> finv fs' (<[n := empty_flight]> hp) (S n) (TLead k n :: ts).
Proof.
  intros Hs Hi. destruct (finv_unallocated _ _ _ _ Hi) as (Hn & Hw & Hl).
  destruct (finv_alloc _ _ _ _ empty_flight ltac:(done) Hi) as [F1 F2 F3 F4 F5 F6]. split; [done|set_solver| |by apply NoDup_cons| |done].
  - intros k' fl [[= -> ->]|H]%elem_of_cons; [|by apply F3 in H]. exists empty_flight. by rewrite lookup_insert_eq.
  - intros k' fl [H|[-> ->]]%Hs; [right; auto|left].
Qed.

(** One more waiter. *)
Lemma finv_wait fs hp n ts fl fr :
  hp !! fl = Some fr -> finv fs hp n ts -> finv fs (<[fl := bump fr 1]> hp) n (TWait fl :: ts).
Proof.
  intros Hfl [F1 F2 F3 F4 F5 F6]. split; try done.
  - intros f. destruct (decide (f = fl)) as [->|Hne]; [intros _; by eapply F1|rewrite lookup_insert_ne by done; apply F1].
  - intros f [[= ->]|H]%elem_of_cons; [by rewrite lookup_insert_eq|].
    destruct (decide (f = fl)) as [->|Hne]; [by rewrite lookup_insert_eq|rewrite lookup_insert_ne by done; auto].
  - intros k f [?|H]%elem_of_cons; [done|]. destruct (F3 k f H) as (fr' & H1 & H2).
    destruct (decide (f = fl)) as [->|Hne]; [|exists fr'; by rewrite lookup_insert_ne].
    exists (bump fr 1). rewrite lookup_insert_eq. split; [done|]. cbn. congruence.
  - intros k f H. right. auto.
  - intros f g. cbn. destruct (decide (f = fl)) as [->|Hne].
    + rewrite lookup_insert_eq, Nat.eqb_refl. intros [= <-]. cbn. intros H. destruct (F6 fl fr Hfl H). split; [lia|done].
    + rewrite lookup_insert_ne by done. intros H1 H2. rewrite (proj2 (Nat.eqb_neq fl f)) by done. by apply F6.
Qed.

(** One waiter less. *)
Lemma finv_unwait fs hp n ts fl fr :
  hp !! fl = Some fr -> finv fs hp n (TWait fl :: ts) ->
  finv fs (if finished fr then hp else <[fl := bump fr (-1)]> hp) n ts.
Proof.
  intros Hfl [F1 F2 F3 F4 F5 F6].
  assert (Hcnt : forall f g, f <> fl -> hp !! f = Some g -> finished g = false -> waiters g = waits f ts /\ fpart g = None).
  { intros f g Hne H1 H2. destruct (F6 f g H1 H2) as [H3 H4]. cbn in H3. rewrite (proj2 (Nat.eqb_neq fl f)) in H3 by done. done. }
  destruct (finished fr) eqn:Ef.
  - split; try done; [intros f H; apply F2; by right|intros k f H; apply (F3 k); by right|by intros k f [?|H]%F5%elem_of_cons|].
    intros f g H1 H2. apply Hcnt; [|done|done]. intros ->. congruence.
  - split; try done.
    + intros f. destruct (decide (f = fl)) as [->|Hne]; [intros _; by eapply F1|rewrite lookup_insert_ne by done; apply F1].
    + intros f H. destruct (decide (f = fl)) as [->|Hne]; [by rewrite lookup_insert_eq|rewrite lookup_insert_ne by done].
      apply F2. by right.
    + intros k f H. destruct (F3 k f ltac:(by right)) as (fr' & H1 & H2).
      destruct (decide (f = fl)) as [->|Hne]; [|exists fr'; by rewrite lookup_insert_ne].
      exists (bump fr (-1)). by rewrite lookup_insert_eq.
    + by intros k f [?|H]%F5%elem_of_cons.
    + intros f g. destruct (decide (f = fl)) as [->|Hne]; [|rewrite lookup_insert_ne by done; by apply Hcnt].
      rewrite lookup_insert_eq. intros [= <-] _. destruct (F6 fl fr Hfl Ef) as [H1 H2]. cbn in H1 |- *.
      rewrite Nat.eqb_refl in H1. split; [lia|done].
Qed.

(** The led flight is done. *)
Lemma finv_finish fs fs' hp n ts k fl fr' :
  finished fr' = true -> (forall k' f, fs' !! k' = Some f -> fs !! k' = Some f /\ (k' <> k \/ f <> fl)) ->
  finv fs hp n (TLead k fl :: ts) -> finv fs' (<[fl := fr']> hp) n ts.
Proof.
  intros Hf Hs [F1 F2 F3 F4 F5 F6]. apply NoDup_cons in F4 as [Hnl F4].
  destruct (F3 k fl ltac:(by left)) as (fr & Hfl & Hun). split; try done.
  - intros f. destruct (decide (f = fl)) as [->|Hne]; [intros _; by eapply F1|rewrite lookup_insert_ne by done; apply F1].
  - intros f H. destruct (decide (f = fl)) as [->|Hne]; [by rewrite lookup_insert_eq|rewrite lookup_insert_ne by done].
    apply F2. by right.
  - intros k' f H. destruct (F3 k' f ltac:(by right)) as (g & H1 & H2). exists g.
    rewrite lookup_insert_ne; [done|]. intros <-. apply Hnl, leads_elem. eauto.
  - intros k' f [H1 H2]%Hs. apply F5 in H1. apply elem_of_cons in H1 as [[= -> ->]|H1]; [by destruct H2|done].
  - intros f g. destruct (decide (f = fl)) as [->|Hne]; [rewrite lookup_insert_eq; intros [= <-]; congruence|].
    rewrite lookup_insert_ne by done. intros H1 H2. by apply (F6 f g).
Qed.

(** What the goroutines refer to depends on the outcome of the awaited flights only. *)
Lemma held_ext hp hp' ts :
  (forall fl, TWait fl ∈ ts -> brought hp' fl = brought hp fl) -> forall p, held hp' ts p = held hp ts p.
Proof.
  intros Hb p. induction ts as [|t ts IH]; [done|]. cbn. rewrite IH by (intros fl H; apply Hb; by right).
  destruct t as [|fl| |]; try done. cbn. by rewrite Hb by left.
Qed.
Lemma held_bump hp ts fl fr d : hp !! fl = Some fr -> forall p, held (<[fl := bump fr d]> hp) ts p = held hp ts p.
Proof.
  intros Hfl. apply held_ext. intros f _. unfold brought. destruct (decide (f = fl)) as [->|Hne];
    [by rewrite lookup_insert_eq, Hfl|by rewrite lookup_insert_ne].
Qed.
(** Each waiter of a flight that ends with a part gets a reference to it. *)
Lemma held_finish hp ts fl fr fr' p :
  hp !! fl = Some fr -> finished fr = false -> finished fr' = true ->
  held (<[fl := fr']> hp) ts p = held hp ts p + (if bool_decide (fpart fr' = Some p) then waits fl ts else 0).
Proof.
  intros Hfl Hun Hf. induction ts as [|t ts IH]; cbn; [by case_bool_decide|]. rewrite IH.
  destruct t as [q|f|k f|b]; cbn; try lia.
  unfold brought. destruct (Nat.eqb_spec f fl) as [->|Hne].
  - rewrite lookup_insert_eq, Hf, Hfl, Hun, (bool_decide_false (None = Some p)) by done.
    destruct (bool_decide (fpart fr' = Some p)); lia.
  - rewrite lookup_insert_ne by done. destruct (bool_decide (fpart fr' = Some p)); lia.
Qed.

(** * Each critical section *)

Section Sections.
Context (cap : partId -> Z) (pooled : partId -> bool) (max ceiling : Z).
Hypothesis Hcap : forall q, 0 <= cap q.
Hypothesis Hmax : 0 <= max.
Hypothesis Hceil : 0 <= ceiling.

(** The cache and what the goroutines hold: the reference counts, the waiters and
    the boosts agree. *)
Record tinv (c : ArticleCache) (ts : list token) : Prop := {
  ti_cache : cache_inv pooled max ceiling (c, held (fheap c) ts);
  ti_flights : finv (flights c) (fheap c) (nextId c) ts;
  ti_boost : boosted c = boosts ts;
  ti_boosts : Forall boost_ok ts
}.

Lemma cache_inv_ext c h h' : (forall q, h q = h' q) -> cache_inv pooled max ceiling (c, h) -> cache_inv pooled max ceiling (c, h').
Proof.
  intros He [[B1 B2 B3 B4] C2 C3 C4 C5 C6]. split; try done. split; try done. cbn in *. by apply (counted_holders _ _ h).
Qed.
Lemma tinv_perm c ts ts' : ts ≡ₚ ts' -> tinv c ts -> tinv c ts'.
Proof.
  intros Hp [T1 T2 T3 T4]. split.
  - eapply cache_inv_ext; [|exact T1]. intros q. by apply held_perm.
  - by eapply finv_perm.
  - by rewrite <- Hp.
  - by rewrite <- Hp.
Qed.
Lemma tinv_split c a ts : tinv c (a ++ ts) -> Forall boost_ok a /\ Forall boost_ok ts.
Proof. intros [_ _ _ H]. by apply Forall_app in H. Qed.

(** A change of the cache that leaves the flights alone. *)
Lemma tinv_rest c c' ts h :
  tinv c ts -> cache_inv pooled max ceiling (c', h) -> (forall q, h q = held (fheap c) ts q) ->
  fheap c' = fheap c -> boosted c' = boosted c -> (nextId c <= nextId c')%nat ->
  (forall k fl, flights c' !! k = Some fl -> flights c !! k = Some fl) -> tinv c' ts.
Proof.
  intros [T1 T2 T3 T4] Hc Hh H1 H2 H3 H4. split; [|rewrite H1; by eapply finv_sub|congruence|done].
  rewrite H1. by eapply cache_inv_ext.
Qed.
(** The same, with a token for a reference given or taken. *)
Lemma tinv_gain c c' ts p :
  tinv c ts -> cache_inv pooled max ceiling (c', hold_more (held (fheap c) ts) p 1) ->
  fheap c' = fheap c -> boosted c' = boosted c -> nextId c' = nextId c -> flights c' = flights c -> tinv c' (THold p :: ts).
Proof.
  intros [T1 T2 T3 T4] Hc H1 H2 H3 H4. split; [|rewrite H1, H3, H4; by apply (finv_other (flights c) _ _ (nextId c))
    |by rewrite H2|by constructor].
  rewrite H1. eapply cache_inv_ext; [|exact Hc]. intros q. unfold hold_more. cbn. rewrite (Nat.eqb_sym p q).
  destruct (Nat.eqb q p); lia.
Qed.
Lemma tinv_lose c c' ts p :
  tinv c (THold p :: ts) -> (1 <= held (fheap c) (THold p :: ts) p ->
    cache_inv pooled max ceiling (c', hold_more (held (fheap c) (THold p :: ts)) p (-1))) ->
  fheap c' = fheap c -> boosted c' = boosted c -> nextId c' = nextId c -> flights c' = flights c -> tinv c' ts.
Proof.
  intros [T1 T2 T3 T4] Hc H1 H2 H3 H4. apply Forall_cons in T4 as [_ T4].
  split; [|rewrite H1, H3, H4; by apply (finv_other (flights c) _ _ (nextId c) _ _ (THold p))|by rewrite H2|done].
  rewrite H1. pose proof (held_nonneg (fheap c) ts p) as Hn. eapply cache_inv_ext; [|apply Hc; cbn; rewrite Nat.eqb_refl; lia].
  intros q. unfold hold_more. cbn. rewrite (Nat.eqb_sym p q). destruct (Nat.eqb q p); lia.
Qed.

Lemma t_release c ts o : tinv c (hold_tokens o ++ ts) -> tinv (releasePart c o) ts.
Proof.
  destruct o as [p|]; [|done]. intros Ht. destruct (releaseLocked_rest c p) as ((_ & R2 & _ & _ & _ & _ & R7 & _ & R9 & R10) & _).
  apply (tinv_lose c _ ts p); try done. intros Hge. apply (release_inv cap); [apply Ht|done].
Qed.

Lemma t_keepDecoded c ts p :
  tinv c ts -> refs c !! p = None -> p ∉ pool c -> Forall (fun e => epart e <> p) (lru c) ->
  Forall (fun t => part_of c t <> Some p) ts -> tinv (keepDecoded pooled c p) (THold p :: ts).
Proof.
  intros Ht Hr Hp Hl Hh%held_zero. unfold keepDecoded. destruct (pooled p) eqn:Ep.
  - apply (tinv_gain c); try done. apply track_inv; [apply Ht|done].
  - apply (tinv_gain c); try done. destruct (ti_cache _ _ Ht) as [[B1 B2 B3 B4] C2 C3 C4 C5 C6]. split; try done. split; try done.
    intros q. specialize (B4 q) as (D1 & D2 & D3). cbn [fst snd] in *. unfold hold_more.
    destruct (Nat.eqb_spec q p) as [->|]; [|done]. split; [lia|]. split; [congruence|done].
Qed.

(** Lookups. *)
Lemma begin_flights c s id hold now :
  let '(b, c') := begin c s id hold now in
  boosted c' = boosted c /\
  match b with
  | Cached p => flights c' = flights c /\ fheap c' = <[nextId c := empty_flight]> (fheap c) /\ nextId c' = S (nextId c)
  | Lead fl => fl = nextId c /\ fheap c' = <[nextId c := empty_flight]> (fheap c) /\ nextId c' = S (nextId c) /\
      (forall k f, flights c' !! k = Some f -> flights c !! k = Some f \/ (k = (s, id) /\ f = fl))
  | Join fl => flights c' = flights c /\
      ((fl = S (nextId c) /\ nextId c' = S (S (nextId c)) /\ exists st,
          fheap c' = <[fl := settledFlight st]> (<[nextId c := empty_flight]> (fheap c))) \/
       (flights c !! (s, id) = Some fl /\ nextId c' = S (nextId c) /\
        let hp := <[nextId c := empty_flight]> (fheap c) in
        fheap c' = if hold then <[fl := bump (default empty_flight (hp !! fl)) 1]> hp else hp))
  end.
Proof.
  unfold begin. cbn [new_flight]. set (c1 := set_flights c _ _ _).
  destruct (dormantLocked c s); [split_and!; try done; by left|].
  destruct (deadLocked c1 (s, id) now) as [[st|] c2] eqn:Ed.
  - assert (H : boosted c2 = boosted c /\ flights c2 = flights c /\ fheap c2 = fheap c1 /\ nextId c2 = nextId c1).
    { unfold deadLocked in Ed. repeat case_match; simplify_eq; done. }
    destruct H as (H1 & H2 & H3 & H4). cbn. rewrite H1, H2, H3, H4. split_and!; [done|done|]. left. split_and!; try done. by exists st.
  - assert (H : boosted c2 = boosted c /\ flights c2 = flights c /\ fheap c2 = fheap c1 /\ nextId c2 = nextId c1).
    { unfold deadLocked in Ed. repeat case_match; simplify_eq; done. }
    destruct H as (H1 & H2 & H3 & H4). destruct (entry_at c2 (s, id)) as [e|].
    + set (c3 := set_lru _ _ _). destruct (retainLocked_rest c3 (epart e) 1) as ((_ & R2 & _ & _ & _ & _ & R7 & _ & R9 & R10) & _).
      destruct hold; rewrite ?R2, ?R7, ?R9, ?R10; unfold c3; cbn; by rewrite H1, H2, H3, H4.
    + rewrite H2. destruct (flights c !! (s, id)) as [f|] eqn:Ef.
      * destruct hold; cbn; rewrite ?H1, ?H2, ?H3, ?H4; (split_and!; [done|done|]); right; rewrite ?Ef; done.
      * cbn. rewrite ?H1, ?H2, ?H3, ?H4. split_and!; try done. intros k f [[-> ->]|[_ H]]%lookup_insert_Some; [by right|by left].
Qed.

(** A flight that nobody waits for yet changes nothing for those who wait. *)
Lemma held_alloc c ts f p :
  finv (flights c) (fheap c) (nextId c) ts -> held (<[nextId c := f]> (fheap c)) ts p = held (fheap c) ts p.
Proof.
  intros Hi. destruct (finv_unallocated _ _ _ _ Hi) as (_ & Hw & _). apply held_ext. intros fl Hfl. unfold brought.
  rewrite lookup_insert_ne; [done|]. intros <-. done.
Qed.

Lemma begin_holders c h s id hold now b c' :
  cache_inv pooled max ceiling (c, h) -> begin c s id hold now = (b, c') ->
  cache_inv pooled max ceiling (c', match b with Cached p => if hold then hold_more h p 1 else h | _ => h end).
Proof.
  intros Hi Eb. pose proof (begin_inv cap pooled max ceiling c h s id hold now Hi) as H. cbn [apply] in H.
  rewrite Eb in H. by destruct b.
Qed.

Lemma t_begin c ts s id hold now :
  tinv c ts ->
  let '(b, c') := begin c s id hold now in
  match b with
  | Cached p => tinv c' ((if hold then [THold p] else []) ++ ts)
  | Lead fl => tinv c' (TLead (s, id) fl :: ts)
  | Join fl => tinv c' ((if hold then [TWait fl] else []) ++ ts)
  end.
Proof.
  intros [T1 T2 T3 T4]. destruct (begin c s id hold now) as [b c'] eqn:Eb.
  pose proof (begin_holders _ _ _ _ _ _ _ _ T1 Eb) as Hc. pose proof (begin_flights c s id hold now) as Hf. rewrite Eb in Hf.
  destruct Hf as [Hbo Hf]. pose proof (held_alloc c ts empty_flight) as Hha.
  assert (Hal : finv (flights c) (<[nextId c := empty_flight]> (fheap c)) (S (nextId c)) ts) by (by apply finv_alloc).
  destruct b as [p|fl|fl].
  - destruct Hf as (F1 & F2 & F3).
    assert (Ht : forall h, cache_inv pooled max ceiling (c', h) -> (forall q, h q = held (fheap c) ts q) -> tinv c' ts).
    { intros h Hh He. split; [|by rewrite F1, F2, F3|congruence|done]. rewrite F2. eapply cache_inv_ext; [|exact Hh].
      intros q. by rewrite He, Hha. }
    destruct hold; [|by apply (Ht (held (fheap c) ts))]. split; [|rewrite F1, F2, F3; by apply (finv_other (flights c) _ _ (S (nextId c)))
      |by rewrite Hbo|by constructor].
    eapply cache_inv_ext; [|exact Hc]. intros q. cbn. rewrite F2, Hha by done. unfold hold_more. rewrite (Nat.eqb_sym p q).
    destruct (Nat.eqb q p); lia.
  - destruct Hf as (F1 & [(-> & F3 & st & F4)|(F2 & F3 & F4)]).
    + pose proof (finv_alloc _ _ _ _ (settledFlight st) ltac:(done) Hal) as Hal2.
      assert (Hb : forall q, held (fheap c') ts q = held (fheap c) ts q).
      { intros q. rewrite F4, <- (Hha q) by done. apply held_ext. intros f Hw. unfold brought. rewrite lookup_insert_ne; [done|].
        destruct (finv_unallocated _ _ _ _ Hal) as (_ & Hn & _). intros <-. done. }
      assert (Ht : tinv c' ts).
      { split; [|by rewrite F1, F3, F4|congruence|done]. eapply cache_inv_ext; [|exact Hc]. done. }
      destruct hold; [|done]. destruct Ht as [A1 A2 A3 A4]. split; [| |done|by constructor].
      * eapply cache_inv_ext; [|exact A1]. intros q. cbn. rewrite bool_decide_false; [done|]. unfold brought.
        rewrite F4, lookup_insert_eq. done.
      * destruct A2 as [B1 B2 B3 B4 B5 B6]. split; [done| |set_solver|done|set_solver|].
        -- intros f [[= ->]|Hw]%elem_of_cons; [rewrite F4, lookup_insert_eq; eauto|auto].
        -- intros f g Hg Hun. cbn [app waits]. destruct (Nat.eqb_spec (S (nextId c)) f) as [<-|]; [|rewrite Z.add_0_l; by apply B6].
           rewrite F4, lookup_insert_eq in Hg. injection Hg as <-. done.
    + pose proof (fi_flights _ _ _ _ T2 _ _ F2) as Hle. destruct hold.
      * destruct (fi_leads _ _ _ _ Hal _ _ Hle) as (fr & Hfr & Hun). cbn zeta in F4. rewrite Hfr in F4. cbn [default] in F4.
        split; [|rewrite F1, F3, F4; by apply finv_wait|by rewrite Hbo|by constructor].
        eapply cache_inv_ext; [|exact Hc]. intros q. cbn. rewrite F4, held_bump, Hha by done.
        rewrite bool_decide_false; [lia|]. unfold brought. rewrite lookup_insert_eq. cbn. by rewrite Hun.
      * split; [|by rewrite F1, F3, F4|cbn; congruence|done]. eapply cache_inv_ext; [|exact Hc]. intros q. cbn. by rewrite F4, Hha.
  - destruct Hf as (-> & F2 & F3 & F4). split; [|rewrite F2, F3; by eapply finv_lead|by rewrite Hbo|by constructor].
    eapply cache_inv_ext; [|exact Hc]. intros q. cbn. by rewrite F2, Hha.
Qed.

Lemma removeLocked_rest c e : same_rest c (removeLocked c e).
Proof.
  unfold removeLocked.
  destruct (releaseLocked_rest (set_lru c (without (ekey e) (lru c)) (used c - esize e)) (epart e)) as [H _].
  eapply same_rest_trans; [|exact H]. done.
Qed.
Lemma evict_rest fuel : forall c, same_rest c (evict fuel c).
Proof.
  induction fuel as [|fuel IH]; intros c; [done|]. cbn. case_match; [|done]. case_match; [|done].
  eapply same_rest_trans; [apply removeLocked_rest|apply IH].
Qed.
Lemma remove_all_rest es : forall c, same_rest c (fold_left removeLocked es c).
Proof.
  induction es as [|e es IH]; intros c; [done|]. cbn. eapply same_rest_trans; [apply removeLocked_rest|apply IH].
Qed.
Lemma storeLocked_rest c k p : same_rest c (storeLocked cap c k p).
Proof.
  unfold storeLocked. case_match; [done|].
  set (c1 := match entry_at c k with Some e => removeLocked c e | None => c end).
  assert (H1 : same_rest c c1) by (unfold c1; case_match; [apply removeLocked_rest|done]).
  set (c2 := set_lru c1 _ _). destruct (retainLocked_rest c2 p 1) as [H2 _].
  eapply same_rest_trans; [exact H1|]. eapply same_rest_trans; [|apply evict_rest].
  eapply same_rest_trans; [|exact (same_rest_refl _)]. unfold same_rest in *. cbn in *. intuition congruence.
Qed.

(** Publishing. *)
Lemma finish_flights c s id fl out now :
  let c' := finish cap c s id fl out now in
  boosted c' = boosted c /\ nextId c' = nextId c /\
  (forall k f, flights c' !! k = Some f -> flights c !! k = Some f /\ (k <> (s, id) \/ f <> fl)) /\
  fheap c' = <[fl := mkFlight (match out with inl p => Some p | inr _ => None end)
                       (match out with inl _ => None | inr e => Some e end)
                       (match out with inl _ => false | inr e => leaderSpecific e end)
                       (flight_waiters c fl) true]> (fheap c).
Proof.
  unfold finish. set (c1 := if bool_decide _ then _ else c).
  assert (H1 : boosted c1 = boosted c /\ nextId c1 = nextId c /\ fheap c1 = fheap c /\
    forall k f, flights c1 !! k = Some f -> flights c !! k = Some f /\ (k <> (s, id) \/ f <> fl)).
  { unfold c1. case_bool_decide as E; split_and!; try done; cbn.
    - intros k f [Hne Hk]%lookup_delete_Some. split; [done|]. by left.
    - intros k f Hk. split; [done|]. destruct (decide (k = (s, id))) as [->|]; [right; congruence|by left]. }
  clearbody c1. destruct H1 as (A1 & A2 & A3 & A4).
  set (c2 := if dormantLocked c1 s then c1 else _).
  assert (H2 : boosted c2 = boosted c /\ nextId c2 = nextId c /\ fheap c2 = fheap c /\ flights c2 = flights c1).
  { unfold c2. destruct (dormantLocked c1 s); [done|]. destruct out as [p|e].
    - destruct (storeLocked_rest c1 (s, id) p) as (_ & R2 & _ & _ & _ & _ & R7 & _ & R9 & R10). by rewrite R2, R7, R9, R10.
    - destruct e; cbn [markDeadLocked]; [|done..]. by case_match. }
  clearbody c2. destruct H2 as (B1 & B2 & B3 & B4). destruct out as [p|e].
  - destruct (retainLocked_rest c2 p (waiters (default empty_flight (fheap c2 !! fl))))
      as ((_ & R2 & _ & _ & _ & _ & R7 & _ & R9 & R10) & _). cbn. rewrite R2, R7, R9, R10, B1, B2, B3, B4. done.
  - cbn. by rewrite B1, B2, B3, B4.
Qed.

Lemma t_finish c ts s id fl out now :
  tinv c (TLead (s, id) fl :: match out with inl p => [THold p] | inr _ => [] end ++ ts) ->
  tinv (finish cap c s id fl out now) (match out with inl p => [THold p] | inr _ => [] end ++ ts).
Proof.
  set (hs := match out with inl p => [THold p] | inr _ => [] end). intros [T1 T2 T3 T4].
  destruct (finish_flights c s id fl out now) as (F1 & F2 & F3 & F4). set (c' := finish cap c s id fl out now) in *.
  destruct (fi_leads _ _ _ _ T2 (s, id) fl ltac:(by left)) as (fr & Hfr & Hun).
  assert (Hw : flight_waiters c fl = waits fl (hs ++ ts)).
  { unfold flight_waiters. rewrite Hfr. by apply (fi_count _ _ _ _ T2 fl fr Hfr Hun). }
  apply Forall_cons in T4 as [_ T4].
  split; [|rewrite F2, F4; by eapply finv_finish|by rewrite F1|done].
  assert (Hwn : 0 <= waits fl (hs ++ ts)) by (clear; induction (hs ++ ts) as [|[]]; cbn; [lia|done|case_match; lia|done|done]).
  pose proof (finish_inv cap pooled max ceiling c _ s id fl out now Hcap Hmax T1) as Hc. cbn [apply] in Hc.
  fold c' in Hc. eapply cache_inv_ext; [|apply Hc].
  - intros q. rewrite F4, (held_finish _ _ _ fr) by done. cbn [fpart held]. destruct out as [p|e].
    + unfold hold_more. rewrite Hw, Z.max_r by done. destruct (Nat.eqb_spec q p) as [->|Hne].
      * rewrite bool_decide_true by done. done.
      * rewrite bool_decide_false by congruence. cbn. lia.
    + rewrite bool_decide_false by done. cbn. lia.
  - destruct out as [p|e]; [|done]. cbn. rewrite Nat.eqb_refl. pose proof (held_nonneg (fheap c) ts p). lia.
Qed.

(** Waiting, no longer waiting, and taking what came. *)
Lemma t_wait c ts k fl : tinv c (TLead k fl :: ts) -> tinv (wait c fl) (TWait fl :: TLead k fl :: ts).
Proof.
  intros [T1 T2 T3 T4]. destruct (fi_leads _ _ _ _ T2 k fl ltac:(by left)) as (fr & Hfr & Hun).
  unfold wait. rewrite Hfr. cbn [default]. change (mkFlight _ _ _ _ _) with (bump fr 1).
  split; [|by apply finv_wait|done|by constructor].
  apply set_flights_inv. eapply cache_inv_ext; [|exact T1]. intros q. cbn [held set_flights fheap].
  rewrite held_bump by done. cbn. rewrite bool_decide_false; [done|]. unfold brought. rewrite lookup_insert_eq. cbn. by rewrite Hun.
Qed.

Lemma t_take c ts fl o : outcome c fl = Some o -> tinv c (TWait fl :: ts) -> tinv c (hold_tokens o ++ ts).
Proof.
  unfold outcome. destruct (fheap c !! fl) as [fr|] eqn:Hfr; [|done]. destruct (finished fr) eqn:Hf; [|done]. intros [= <-] [T1 T2 T3 T4].
  apply Forall_cons in T4 as [_ T4]. pose proof (finv_unwait _ _ _ _ _ _ Hfr T2) as Hi. rewrite Hf in Hi.
  assert (Hb : brought (fheap c) fl = fpart fr) by (unfold brought; by rewrite Hfr, Hf).
  destruct (fpart fr) as [p|].
  - split; [|by apply (finv_other (flights c) _ _ (nextId c))|done|by constructor].
    eapply cache_inv_ext; [|exact T1]. intros q. cbn. rewrite Hb. f_equal.
    destruct (Nat.eqb_spec p q) as [->|]; [by rewrite bool_decide_true|by rewrite bool_decide_false by congruence].
  - split; [|done..]. eapply cache_inv_ext; [|exact T1]. intros q. cbn. rewrite Hb. done.
Qed.

Lemma t_abandon c ts fl : tinv c (TWait fl :: ts) -> tinv (abandon c fl) ts.
Proof.
  intros Ht. destruct (fi_waits _ _ _ _ (ti_flights _ _ Ht) fl ltac:(by left)) as [fr Hfr].
  unfold abandon. rewrite Hfr. change (default empty_flight (Some fr)) with fr. destruct (finished fr) eqn:Hf.
  - apply t_release. eapply t_take; [|exact Ht]. unfold outcome. by rewrite Hfr, Hf.
  - destruct Ht as [T1 T2 T3 T4]. apply Forall_cons in T4 as [_ T4]. rewrite <- Hf. unfold Z.sub. change (- (1)) with (-1). fold (bump fr (-1)).
    pose proof (finv_unwait _ _ _ _ _ _ Hfr T2) as Hi. rewrite Hf in Hi. split; [|done..].
    apply set_flights_inv. eapply cache_inv_ext; [|exact T1]. intros q. cbn [held set_flights fheap].
    rewrite held_bump by done. cbn. rewrite bool_decide_false; [done|]. unfold brought. by rewrite Hfr, Hf.
Qed.

(** Scopes and boosts. *)
Lemma purge_rest c s :
  fheap (purgeLocked c s) = fheap c /\ boosted (purgeLocked c s) = boosted c /\ nextId (purgeLocked c s) = nextId c /\
  forall k fl, flights (purgeLocked c s) !! k = Some fl -> flights c !! k = Some fl.
Proof.
  unfold purgeLocked. set (es := List.filter _ _). pose proof (remove_all_rest es c) as Hr.
  destruct Hr as (_ & R2 & _ & _ & _ & _ & R7 & _ & R9 & R10). cbn. rewrite R7, R9, R10. split_and!; [done..|].
  intros k fl [H _]%map_lookup_filter_Some. by rewrite R2 in H.
Qed.

Lemma t_op c ts o :
  tinv c ts -> match o with ONewScope | ORelease _ | ORetain _ | OUnretain _ | OCount _ => True | _ => False end ->
  tinv (fst (apply cap (c, held (fheap c) ts) o)) ts.
Proof.
  intros Ht Ho. pose proof (apply_inv cap pooled max ceiling _ o Hcap Hmax Hceil (ti_cache _ _ Ht)) as Hc.
  destruct o as [|s|s|s| | | | | | |d|]; try done; cbn [apply fst] in *; specialize (Hc I);
    (eapply tinv_rest; [exact Ht|exact Hc|done|..]).
  1-4, 9-12, 17-20: (done || (cbn; lia)).
  - unfold Release. case_match; [by rewrite (proj1 (purge_rest _ _))|done].
  - unfold Release. case_match; [by rewrite (proj1 (proj2 (purge_rest _ _)))|done].
  - unfold Release. case_match; [by rewrite (proj1 (proj2 (proj2 (purge_rest _ _))))|done].
  - unfold Release. case_match; [|done]. intros k fl Hk%purge_rest. done.
  - unfold unretain. case_match; [by rewrite (proj1 (purge_rest _ _))|done].
  - unfold unretain. case_match; [by rewrite (proj1 (proj2 (purge_rest _ _)))|done].
  - unfold unretain. case_match; [by rewrite (proj1 (proj2 (proj2 (purge_rest _ _))))|done].
  - unfold unretain. case_match; [|done]. intros k fl Hk%purge_rest. done.
Qed.

Lemma boosts_nonneg ts : Forall boost_ok ts -> 0 <= boosts ts.
Proof. induction 1 as [|t ts Ht _ IH]; cbn; [done|]. destruct t; cbn in *; lia. Qed.

Lemma t_boost c ts b want :
  tinv c (TBoost b :: ts) -> let '(g, c') := resizeBoost c b want in tinv c' (TBoost g :: ts).
Proof.
  intros [T1 T2 T3 T4]. apply Forall_cons in T4 as [Hb T4]. cbn in Hb, T3. pose proof (boosts_nonneg ts T4) as Hn.
  pose proof (boost_inv cap pooled max ceiling c _ b want Hmax Hceil T1 ltac:(lia)) as Hc.
  unfold resizeBoost in *. cbn [snd] in Hc. set (g := Z.max 0 _) in *. set (c1 := set_bounds _ _ _) in *.
  pose proof (evict_rest (length (lru c1)) c1) as He.
  destruct He as (_ & R2 & _ & _ & _ & _ & R7 & _ & R9 & R10). split.
  - rewrite R9. cbn. eapply cache_inv_ext; [|exact Hc]. done.
  - rewrite R2, R9, R10. cbn. apply (finv_other (flights c) _ _ (nextId c)); [done..|].
    by apply (finv_other (flights c) (flights c) _ (nextId c) (nextId c) _ (TBoost b)).
  - rewrite R7. cbn. lia.
  - constructor; [cbn; lia|done].
Qed.
Lemma t_opened c ts : tinv c ts -> tinv c (TBoost 0 :: ts).
Proof.
  intros [T1 T2 T3 T4]. split; [done|by apply (finv_other (flights c) _ _ (nextId c))|done|by constructor].
Qed.
End Sections.

(** * The whole machine *)

Lemma bind_insert {A} (f : A -> list token) l i x y :
  l !! i = Some x -> exists rest, (l ≫= f) ≡ₚ f x ++ rest /\ (<[i := y]> l ≫= f) ≡ₚ f y ++ rest.
Proof.
  intros Hi. exists ((take i l ++ drop (S i) l) ≫= f).
  rewrite insert_take_drop by (by eapply lookup_lt_Some).
  rewrite <- (take_drop_middle l i x Hi) at 1. rewrite !bind_app, !bind_cons. split; by rewrite !app_assoc, (Permutation_app_comm (take i l ≫= f)).
Qed.

(** The counts as numbers of entries and of goroutines. *)
Lemma count_part_length p l : count_part p l = Z.of_nat (length (filter (fun e => epart e = p) l)).
Proof.
  induction l as [|e l IH]; [done|]. cbn [count_part]. rewrite filter_cons, IH.
  destruct (Nat.eqb_spec (epart e) p) as [->|Hne]; [rewrite decide_True by done; cbn; lia|by rewrite decide_False by done].
Qed.
Lemma count_part_zero p l : count_part p l = 0 -> Forall (fun e => epart e <> p) l.
Proof.
  induction l as [|e l IH]; [done|]. cbn. pose proof (count_part_nonneg p l).
  destruct (Nat.eqb_spec (epart e) p); [lia|]. intros. constructor; [done|]. apply IH. lia.
Qed.
Lemma held_length c ts p : held (fheap c) ts p = Z.of_nat (length (filter (fun t => part_of c t = Some p) ts)).
Proof.
  induction ts as [|t ts IH]; [done|]. cbn [held]. rewrite filter_cons, IH. pose proof (refers_part_of c p t) as H.
  destruct (refers (fheap c) p t).
  - rewrite decide_True by (by apply H). cbn. lia.
  - rewrite decide_False by (intros Hp%H; done). done.
Qed.

Section Whole.
Context (cap : partId -> Z) (pooled : partId -> bool) (max ceiling : Z).
Hypothesis Hcap : forall q, 0 <= cap q.
Hypothesis Hmax : 0 <= max.
Hypothesis Hceil : 0 <= ceiling.
Abbreviation inv := (tinv pooled max ceiling).
Abbreviation sinv S := (inv (cache S) (tokens S)).

(** A step of one client: what the others hold is not touched. *)
Lemma client_moves S i r c' r' :
  clients S !! i = Some r -> sinv S ->
  (forall rest, inv (cache S) (client_tokens r ++ rest) -> inv c' (client_tokens r' ++ rest)) ->
  sinv (set_client S c' i r').
Proof.
  intros Hi Hs Hm. destruct (bind_insert client_tokens (clients S) i r r' Hi) as (rest & H1 & H2).
  unfold set_client, tokens in *. cbn [cache clients workers] in *.
  eapply tinv_perm; [by rewrite H2, <- app_assoc|]. apply Hm. eapply tinv_perm; [|exact Hs]. by rewrite H1, <- app_assoc.
Qed.
Lemma worker_moves S j w c' w' :
  workers S !! j = Some w -> sinv S ->
  (forall rest, inv (cache S) (worker_tokens w ++ rest) -> inv c' (worker_tokens w' ++ rest)) ->
  sinv (set_worker S c' j w').
Proof.
  intros Hi Hs Hm. destruct (bind_insert worker_tokens (workers S) j w w' Hi) as (rest & H1 & H2).
  unfold set_worker, tokens in *. cbn [cache clients workers] in *. set (cs := clients S ≫= client_tokens) in *.
  eapply tinv_perm; [by rewrite H2, (Permutation_app_comm (worker_tokens w')), app_assoc, Permutation_app_comm|].
  apply Hm. eapply tinv_perm; [|exact Hs]. by rewrite H1, (Permutation_app_comm (worker_tokens w)), app_assoc, Permutation_app_comm.
Qed.

(** Tokens up to their order. *)
Ltac perm H := eapply tinv_perm; [|exact H]; unfold client_tokens, at_phase, with_arriving, with_cur; cbn; solve_Permutation.

(** The same for a step that brings a new part. *)
Lemma client_fetched S i r p r' :
  clients S !! i = Some r -> sinv S -> fresh S p -> (forall rest, client_tokens r' ++ rest ≡ₚ THold p :: client_tokens r ++ rest) ->
  sinv (set_client S (keepDecoded pooled (cache S) p) i r').
Proof.
  intros Hi Hs (H1 & H2 & H3 & H4) Hp. pose proof (t_keepDecoded pooled max ceiling _ _ p Hs H1 H2 H3 H4) as Hk.
  destruct (bind_insert client_tokens (clients S) i r r' Hi) as (rest & E1 & E2).
  unfold set_client, tokens in *. cbn [cache clients workers] in *. eapply tinv_perm; [|exact Hk].
  by rewrite E1, E2, <- !app_assoc, Hp.
Qed.
Lemma worker_fetched S j w p w' :
  workers S !! j = Some w -> sinv S -> fresh S p -> (forall rest, worker_tokens w' ++ rest ≡ₚ THold p :: worker_tokens w ++ rest) ->
  sinv (set_worker S (keepDecoded pooled (cache S) p) j w').
Proof.
  intros Hi Hs (H1 & H2 & H3 & H4) Hp. pose proof (t_keepDecoded pooled max ceiling _ _ p Hs H1 H2 H3 H4) as Hk.
  destruct (bind_insert worker_tokens (workers S) j w w' Hi) as (rest & E1 & E2).
  unfold set_worker, tokens in *. cbn [cache clients workers] in *. eapply tinv_perm; [|exact Hk].
  by rewrite E1, E2, Hp, Permutation_middle.
Qed.

(** A lookup by a client that is between calls. *)
Lemma client_begins S i r id now :
  clients S !! i = Some r -> phase r = PIdle -> sinv S ->
  let '(b, c') := begin (cache S) (scope r) id true now in
  match b with
  | Cached p => sinv (set_client S c' i (at_phase r (PSwap p)))
  | Lead fl => sinv (set_client S c' i (at_phase r (PLoad id fl))) /\ sinv (set_client S c' i (at_phase r (PClaimed id fl)))
  | Join fl => sinv (set_client S c' i (at_phase r (PWait fl))) /\
      (arriving r = None -> sinv (set_client S c' i (with_arriving r (Some fl) PIdle)))
  end.
Proof.
  intros Hi Hp Hs. destruct (begin (cache S) (scope r) id true now) as [b c'] eqn:Eb.
  assert (Hb : forall rest, inv (cache S) (client_tokens r ++ rest) ->
    match b with
    | Cached p => inv c' (THold p :: client_tokens r ++ rest)
    | Lead fl => inv c' (TLead (scope r, id) fl :: client_tokens r ++ rest)
    | Join fl => inv c' (TWait fl :: client_tokens r ++ rest)
    end).
  { intros rest Hr. pose proof (t_begin cap pooled max ceiling Hcap Hmax Hceil _ _ (scope r) id true now Hr) as H. by rewrite Eb in H. }
  destruct r as [s cu arr bo ph]. cbn in Hp. subst ph.
  destruct b as [p|fl|fl]; [|split|split];
    [..|intros Ha; cbn in Ha; subst arr| |]; (apply (client_moves S i _ _ _ Hi Hs)); intros rest Hr;
    specialize (Hb rest Hr); perm Hb.
Qed.

Lemma client_step_inv S i r ev :
  clients S !! i = Some r -> sinv S -> event_ok S ev -> sinv (client_step cap pooled S i r ev).
Proof.
  intros Hi Hs Hok. unfold client_step.
  assert (Hboost : forall want ph, phase r = ph -> sinv (let '(g, c') := resizeBoost (cache S) (boost r) want in
    set_client S c' i (mkClient (scope r) (cur r) (arriving r) g ph))).
  { intros want ph <-. destruct (resizeBoost (cache S) (boost r) want) as [g c'] eqn:Eb. apply (client_moves S i r _ _ Hi Hs). intros rest Hr.
    assert (Hr' : inv (cache S) (TBoost (boost r) :: phase_tokens (scope r) (phase r) ++ hold_tokens (cur r) ++ wait_tokens (arriving r) ++ rest))
      by (perm Hr).
    pose proof (t_boost cap pooled max ceiling Hmax Hceil _ _ (boost r) want Hr') as H. rewrite Eb in H. perm H. }
  destruct ev; try done; destruct (phase r) as [|id' fl|id' fl p'|fl|id' fl|p'|p'| |] eqn:Ep; try done;
    try (by apply Hboost).
  - pose proof (client_begins S i r id now Hi Ep Hs) as H. destruct (begin _ _ _ _ _) as [[p|fl|fl] c']; [done|apply H|apply H].
  - apply (client_fetched S i r _ _ Hi Hs Hok). intros rest. unfold client_tokens. rewrite Ep. cbn. solve_Permutation.
  - apply (client_moves S i r _ _ Hi Hs). intros rest Hr. unfold client_tokens in *. rewrite Ep in Hr. cbn in *.
    by apply (t_finish cap pooled max ceiling Hcap Hmax _ _ _ _ _ (inr e) now) in Hr.
  - apply (client_moves S i r _ _ Hi Hs). intros rest Hr. unfold client_tokens in *. rewrite Ep in Hr. cbn in *.
    by apply (t_finish cap pooled max ceiling Hcap Hmax _ _ _ _ _ (inl p') now) in Hr.
  - destruct (outcome (cache S) fl) as [o|] eqn:Eo; [|done].
    assert (H : forall rest, inv (cache S) (client_tokens r ++ rest) ->
      inv (cache S) (hold_tokens o ++ hold_tokens (cur r) ++ wait_tokens (arriving r) ++ [TBoost (boost r)] ++ rest)).
    { intros rest Hr. eapply t_take; [exact Eo|]. unfold client_tokens in Hr. rewrite Ep in Hr. perm Hr. }
    destruct o; apply (client_moves S i r _ _ Hi Hs); intros rest Hr%H; perm Hr.
  - apply (client_moves S i r _ _ Hi Hs). intros rest Hr. unfold client_tokens in *. rewrite Ep in Hr. cbn in *.
    by apply (t_abandon cap pooled max ceiling) in Hr.
  - apply (client_moves S i r _ _ Hi Hs). intros rest Hr. apply (t_release cap). unfold client_tokens in Hr. rewrite Ep in Hr. perm Hr.
  - destruct (arriving r) eqn:Ea; [done|].
    pose proof (client_begins S i r id now Hi Ep Hs) as H. destruct (begin _ _ _ _ _) as [[p|fl|fl] c']; [done|by apply H|by apply H].
  - destruct (arriving r) eqn:Ea; [done|].
    destruct (bind_insert client_tokens (clients S) i r (with_arriving r (Some fl) PIdle) Hi) as (rest & E1 & E2).
    unfold tokens in *. cbn [cache clients workers] in *. rewrite bind_cons. set (ws := workers S ≫= worker_tokens) in *.
    assert (Hl : inv (cache S) (TLead (scope r, id') fl :: hold_tokens (cur r) ++ [TBoost (boost r)] ++ rest ++ ws)).
    { eapply tinv_perm; [|exact Hs]. rewrite E1. unfold client_tokens. rewrite Ep, Ea. cbn. solve_Permutation. }
    apply t_wait in Hl. eapply tinv_perm; [|exact Hl]. rewrite E2. unfold client_tokens. cbn. solve_Permutation.
  - destruct (arriving r) as [fl|] eqn:Ea; [|done]. cbn [mbind option_bind].
    destruct (outcome (cache S) fl) as [o|] eqn:Eo; [|done].
    assert (H : forall rest, inv (cache S) (client_tokens r ++ rest) ->
      inv (cache S) (hold_tokens o ++ hold_tokens (cur r) ++ [TBoost (boost r)] ++ rest)).
    { intros rest Hr. eapply t_take; [exact Eo|]. unfold client_tokens in Hr. rewrite Ep, Ea in Hr. perm Hr. }
    destruct o; [destruct tainted|]; apply (client_moves S i r _ _ Hi Hs); intros rest Hr%H; perm Hr.
  - apply (client_moves S i r _ _ Hi Hs). intros rest Hr. apply (t_release cap _ _ _ _ _ (Some p')).
    unfold client_tokens in Hr. rewrite Ep in Hr. perm Hr.
  - destruct (arriving r) as [fl|] eqn:Ea; [|done]. apply (client_moves S i r _ _ Hi Hs). intros rest Hr. apply (t_abandon cap).
    unfold client_tokens in Hr. rewrite Ep, Ea in Hr. perm Hr.
  - destruct (arriving r) as [fl|] eqn:Ea; [done|]. apply (client_moves S i r _ _ Hi Hs). intros rest Hr. apply (t_release cap).
    unfold client_tokens in Hr. rewrite Ep, Ea in Hr. eapply tinv_perm; [|exact Hr]. unfold client_tokens, with_cur. cbn.
    rewrite Ea. cbn. solve_Permutation.
  - case_match; [|done]. apply (client_moves S i r _ _ Hi Hs). intros rest Hr.
    pose proof (t_op cap pooled max ceiling Hcap Hmax Hceil _ _ (OUnretain (scope r)) Hr I) as H'.
    unfold client_tokens in *. rewrite Ep in H'. perm H'.
Qed.

Lemma worker_step_inv S j w ev :
  workers S !! j = Some w -> sinv S -> event_ok S ev -> sinv (worker_step cap pooled S j w ev).
Proof.
  intros Hj Hs Hok. unfold worker_step. destruct ev; try done; destruct w as [s id fl|s id fl p'|p'|]; try done.
  - apply (worker_fetched S j _ _ _ Hj Hs Hok). intros rest. cbn. solve_Permutation.
  - apply (worker_moves S j _ _ _ Hj Hs). intros rest Hr. by apply (t_finish cap pooled max ceiling Hcap Hmax _ _ _ _ _ (inr e) now) in Hr.
  - apply (worker_moves S j _ _ _ Hj Hs). intros rest Hr. by apply (t_finish cap pooled max ceiling Hcap Hmax _ _ _ _ _ (inl p') now) in Hr.
  - apply (worker_moves S j _ _ _ Hj Hs). intros rest Hr. by apply (t_release cap _ _ _ _ _ (Some p')).
Qed.

Lemma system_step_inv S ev : sinv S -> event_ok S ev -> sinv (step cap pooled S ev).
Proof.
  intros Hs Hok.
  assert (Hop : forall o, match o with ONewScope | ORelease _ | ORetain _ | OUnretain _ | OCount _ => True | _ => False end ->
    inv (fst (apply cap (cache S, held (fheap (cache S)) (tokens S)) o)) (tokens S)) by (intros o Ho; by apply t_op).
  assert (Hcl : forall i, event_client ev = Some i -> event_worker ev = None ->
    sinv (match event_client ev ≫= (fun i => clients S !! i), event_worker ev ≫= (fun j => workers S !! j) with
      | Some r, _ => client_step cap pooled S (default O (event_client ev)) r ev
      | _, Some w => worker_step cap pooled S (default O (event_worker ev)) w ev
      | _, _ => S end)).
  { intros i -> ->. cbn. destruct (clients S !! i) as [r|] eqn:Hi; [by apply client_step_inv|done]. }
  assert (Hwk : forall j, event_worker ev = Some j -> event_client ev = None ->
    sinv (match event_client ev ≫= (fun i => clients S !! i), event_worker ev ≫= (fun j => workers S !! j) with
      | Some r, _ => client_step cap pooled S (default O (event_client ev)) r ev
      | _, Some w => worker_step cap pooled S (default O (event_worker ev)) w ev
      | _, _ => S end)).
  { intros j -> ->. cbn. destruct (workers S !! j) as [w|] eqn:Hj; [by apply worker_step_inv|done]. }
  unfold step. destruct ev; try (by eapply Hcl); try (by eapply Hwk); clear Hcl Hwk.
  - exact (Hop ONewScope I).
  - exact (Hop (ORelease s) I).
  - apply (t_opened _ _ _ _ _) in Hs. pose proof (t_op cap pooled max ceiling Hcap Hmax Hceil _ _ (ORetain s) Hs I) as H. exact H.
  - exact (Hop (OCount delta) I).
  - pose proof (t_begin cap pooled max ceiling Hcap Hmax Hceil _ _ s id false now Hs) as H. unfold claim.
    destruct (begin _ _ _ _ _) as [[p|fl|fl] c']; [done|done|]. unfold tokens in *. cbn [cache clients workers] in *.
    eapply tinv_perm; [|exact H]. cbn. by rewrite Permutation_middle.
  - destruct Hok as (H1 & H2 & H3 & H4). pose proof (t_keepDecoded pooled max ceiling _ _ p Hs H1 H2 H3 H4) as Hk.
    unfold tokens in *. cbn [cache clients workers] in *. eapply tinv_perm; [|exact Hk]. cbn. by rewrite Permutation_middle.
Qed.

Lemma sreach_inv S : sreach cap pooled max ceiling S -> sinv S.
Proof.
  induction 1 as [|S ev _ IH Hok]; [|by apply system_step_inv]. split; [by apply init_inv| |done|constructor].
  split; [intros fl [? H]; done|set_solver|set_solver|constructor|intros k fl H; done|intros fl fr H; done].
Qed.
End Whole.

(** C8: A recycled buffer has no user left, and a tracked one is neither lost nor
    counted twice.  The readers (their current part, the article they wait for,
    the load they are in), the background fetches, the read-aheads and the losers
    of races take the cache's critical sections in any order; a newly decoded part
    is a new pointer.  Then at every moment, for a part whose buffer was handed
    back to the pool, no cache entry refers to it, no goroutine holds it, and none
    waits for a fetch that brought it; and the reference count of a part that is
    still tracked is exactly the number of its cache entries, of the goroutines
    that hold it and of those whose awaited fetch has brought it, and is not
    zero. *)
Theorem recycled_part_unreferenced cap pooled max ceiling S p :
  (forall q, 0 <= cap q) -> 0 <= max -> 0 <= ceiling -> sreach cap pooled max ceiling S ->
  let c := cache S in
  (p ∈ pool c -> Forall (fun e => epart e <> p) (lru c) /\ Forall (fun t => part_of c t <> Some p) (tokens S)) /\
  (forall n, pooled p = true -> refs c !! p = Some n ->
     1 <= n /\ n = Z.of_nat (length (filter (fun e => epart e = p) (lru c))) +
                  Z.of_nat (length (filter (fun t => part_of c t = Some p) (tokens S)))).
Proof.
  intros Hcap Hm Hc Hr c. pose proof (sreach_inv _ _ _ _ Hcap Hm Hc S Hr) as [[[_ _ _ Hcnt] _ _ _ _ _] _ _ _]. cbn [fst snd] in Hcnt.
  fold c in Hcnt. split.
  - intros Hp. destruct (recycled_untracked pooled c _ p Hcnt Hp) as (_ & H0 & Hh). split; [|by apply held_zero].
    by apply count_part_zero.
  - intros n Hp Hn. destruct (Hcnt p) as (_ & H & _). specialize (H Hp). rewrite Hn in H. destruct H as (-> & H1 & _).
    split; [done|]. by rewrite count_part_length, held_length.
Qed.

(** ** Witness

    A 100-byte cache; every part is 60 bytes in a pooled buffer.  Two readers want
    the same article: the first leads its fetch, the second waits; the next article
    evicts it, and it is recycled when the second reader, the last to hold it,
    closes. *)
Definition two_readers : list event :=
  [ENewScope; EOpen 0; EOpen 0; ELoad 0 [97] 0; ELoad 1 [97] 0; EFetched 0 10; EPublish 0 0; EWake 1; ESwap 0; ESwap 1;
   ELoad 0 [98] 1; EFetched 0 11; EPublish 0 1; ESwap 0].
Definition two_cap (_ : nat) : Z := 60.
Definition two_pooled (_ : nat) : bool := true.
Definition two_run (evs : list event) : sys :=
  fold_left (step two_cap two_pooled) evs (mkSys (NewArticleCache 100 0) [] []).

#[local] Instance event_ok_dec S ev : Decision (event_ok S ev).
Proof. destruct ev; cbn; unfold fresh; apply _. Defined.
Fixpoint events_ok (evs : list event) (S : sys) : bool :=
  match evs with
  | [] => true
  | ev :: evs' => bool_decide (event_ok S ev) && events_ok evs' (step two_cap two_pooled S ev)
  end.
Lemma events_ok_reach evs S :
  sreach two_cap two_pooled 100 0 S -> events_ok evs S = true ->
  sreach two_cap two_pooled 100 0 (fold_left (step two_cap two_pooled) evs S).
Proof.
  revert S. induction evs as [|ev evs IH]; intros S Hr Hok; [exact Hr|]. cbn in *.
  apply andb_prop in Hok as [H1 H2]. apply bool_decide_eq_true in H1. apply IH; [|exact H2]. by apply sreach_step.
Defined.

Lemma recycled_part_unreferenced_witness :
  let S1 := two_run two_readers in
  let S2 := two_run (two_readers ++ [EClose 1]) in
  refs (cache S1) !! 10%nat = Some 1 /\ map epart (lru (cache S1)) = [11%nat] /\
  (1 <= 1 /\ 1 = Z.of_nat (length (filter (fun e => epart e = 10%nat) (lru (cache S1)))) +
                 Z.of_nat (length (filter (fun t => part_of (cache S1) t = Some 10%nat) (tokens S1)))) /\
  pool (cache S2) = [10%nat] /\ Forall (fun t => part_of (cache S2) t <> Some 10%nat) (tokens S2).
Proof.
  intros S1 S2. split; [vm_compute; reflexivity|]. split; [vm_compute; reflexivity|]. split.
  - destruct (recycled_part_unreferenced two_cap two_pooled 100 0 S1 10%nat) as [_ T].
    + intros q. vm_compute. congruence.
    + lia.
    + lia.
    + apply events_ok_reach; [apply sreach_new|vm_compute; reflexivity].
    + apply (T 1); vm_compute; reflexivity.
  - split; [vm_compute; reflexivity|].
    destruct (recycled_part_unreferenced two_cap two_pooled 100 0 S2 10%nat) as [T _].
    + intros q. vm_compute. congruence.
    + lia.
    + lia.
    + apply events_ok_reach; [apply sreach_new|vm_compute; reflexivity].
    + apply T. replace (pool (cache S2)) with [10%nat] by (vm_compute; reflexivity). by apply list_elem_of_singleton.
Defined.
