(* ===== verification/Fetch.v ===== *)
(** Fetching one article for the reader: internal/usenet/stream/fetch.go and the
    hedged second fetch of hedge.go.

    A fetch runs in an environment that says how each BODY of it ends and when
    the reader's context is over.  What it does to the world outside, the byte
    budget apart, is the list of its effects in order, so that the theorems can
    speak of how many BODY commands, buffers and reservations it takes.  The
    race of two fetches is a machine whose events are the channel operations. *)
From Stdlib Require Import ZArith Lia Ascii String.
From stdpp Require Import prelude list strings sorting gmap.
From S2P Require Import Prelude GoStrings Yenc YencInPlace Nzb NntpWire Budget ArticleCache.

Open Scope Z_scope.

(** ** Errors *)

(** How one attempt fails, and how the fetch does. *)
Inductive attemptErr := AWire (e : callErr) | ADecode (e : yerr).
Inductive fetchFailure :=
| FUnavailable (stalled : bool)               (* *ArticleUnavailableError *)
| FBudget                                     (* ErrFetchBudgetExhausted *)
| FContext                                    (* the context's error *)
| FExhausted (attempts : nat) (lastErr : option attemptErr).

Definition asUnavailable (e : attemptErr) : option bool :=
  match e with
  | AWire (CallFailed x) => if IsArticleMissing x then Some false else if IsStalled x then Some true else None
  | _ => None
  end.

(** The errors that errors.Is finds a context error in. *)
Definition wraps_context (e : attemptErr) : bool :=
  match e with
  | AWire (CallFailed CtxErr) | AWire BodyCancelled | AWire (AcquireFailed true) => true
  | _ => false
  end.
(** What the cache is told. *)
Definition cache_err (f : fetchFailure) : fetchErr :=
  match f with
  | FUnavailable stalled => Unavailable stalled
  | FBudget | FContext => LeaderSpecific
  | FExhausted _ (Some e) => if wraps_context e then LeaderSpecific else OtherErr
  | FExhausted _ None => OtherErr
  end.

(** ** One attempt *)

(** How a BODY ends: the chunks the feed decoded as they came and the rest, the
    error, whether the body still lives in the buffer it was read into, the
    capacity of its array, and how long it took. *)
Record attempt := mkAttempt {
  at_chunks : list bytes; at_rest : bytes; at_err : option callErr; at_inbuf : bool; at_cap : Z; at_took : Z
}.
Definition raw (a : attempt) : bytes := concat (at_chunks a) ++ at_rest a.

(** What a fetch does to the world. *)
Inductive effect :=
| XReserve (granted : bool) | XBody | XGet (need : Z) | XPut | XTrack
| XSettle (actual : Z) | XFail | XNote (took : Z).

Definition maxBodyBuffer : Z := Z.shiftl 16 20.

Section Fetch.
(** Whether the fetcher is a bufferedFetcher, and the segment's encoded size. *)
Context (buffered : bool) (estBytes : Z).

(** The decoder with the body as it left it (none for a body that is only
    copied), whether the body is in a pooled buffer. *)
Definition fetchBody (a : attempt) : option (InPlaceDecoder * bytes) * bool * list effect :=
  if buffered then
    let '(d, body) := feed_chunks zeroDecoder [] (at_chunks a) in
    let get := XGet (Z.max 0 (Z.min estBytes maxBodyBuffer)) in
    if match at_err a with Some _ => true | None => false end || negb (at_inbuf a)
    then (Some (d, body ++ at_rest a), false, [get; XBody; XPut])
    else (Some (d, body ++ at_rest a), true, [get; XBody])
  else (None, false, [XBody]).

(** The part, and whether its data is in the body's own array. *)
Definition decodeArticle (a : attempt) (dec : option (InPlaceDecoder * bytes)) : result yerr (Part * bool) :=
  match dec with
  | None => match DecodeBytes (raw a) with Ok p => Ok (p, false) | Err e => Err e end
  | Some (d, body) =>
      match Finish d body with
      | Ok p => let n := Z.of_nat (length (pData p)) in Ok (p, negb (n + Z.quot n 4 <? at_cap a))
      | Err e => Err e
      end
  end.
(** The part and whether it is tracked. *)
Definition keepDecoded (a : attempt) (dec : option (InPlaceDecoder * bytes)) (pooled : bool)
    : result yerr (Part * bool) * list effect :=
  match decodeArticle a dec with
  | Ok (p, inplace) =>
      if inplace && pooled then (Ok (p, true), [XTrack]) else (Ok (p, false), if pooled then [XPut] else [])
  | Err e => (Err e, if pooled then [XPut] else [])
  end.

(** ** The retries *)

Context (attempts : nat -> attempt) (ctxDone : nat -> bool).

Fixpoint fetch_loop (fuel i : nat) (b : option FetchBudget) (lastErr : option attemptErr)
    : result fetchFailure (Part * bool) * option FetchBudget * list effect :=
  match fuel with
  | O => (Err (FExhausted i lastErr), b, [])
  | S fuel' =>
      if (0 <? i)%nat && ctxDone i then (Err FContext, b, [])
      else
        let '(granted, b1) := reserve b estBytes in
        if negb granted then (Err FBudget, b1, [XReserve false])
        else
          let a := attempts i in
          let '(dec, pooled, fx1) := fetchBody a in
          let actual := Z.of_nat (length (raw a)) in
          let b2 := settle b1 estBytes actual in
          let fx := XReserve true :: fx1 ++ [XSettle actual] in
          let failed e fx :=
            match asUnavailable e with
            | Some stalled => (Err (FUnavailable stalled), b2, fx ++ [XFail])
            | None =>
                let '(r, b', fx') := fetch_loop fuel' (S i) b2 (Some e) in (r, b', (fx ++ [XFail]) ++ fx')
            end in
          match at_err a with
          | Some e => failed (AWire e) fx
          | None =>
              match keepDecoded a dec pooled with
              | (Ok part, fx2) => (Ok part, b2, fx ++ fx2 ++ [XNote (at_took a)])
              | (Err e, fx2) => failed (ADecode e) (fx ++ fx2)
              end
          end
  end.
Definition fetchDecodeRetry (maxAttempts : nat) (b : option FetchBudget)
    : result fetchFailure (Part * bool) * option FetchBudget * list effect :=
  fetch_loop maxAttempts 0 b None.
End Fetch.

(** * Hedging (hedge.go) *)

Definition HedgeLatencyMultiple : Z := 2.
Definition HedgeMinDelay : Z := 400 * 10 ^ 6.
Definition HedgeMaxDelay : Z := 3 * 10 ^ 9.
Definition latencySamples : nat := 32.
Definition minLatencySamples : nat := 8.
Definition latencyMaxAge : Z := 5 * 60 * 10 ^ 9.

(** A sample that was never written has the zero time. *)
Record latencySample := mkSample { lat : Z; lat_at : option Z }.
Record latencyRing := mkRing { samples : list latencySample; next : nat }.
Definition zeroRing : latencyRing := mkRing (replicate latencySamples (mkSample 0 None)) 0.

Definition note (l : latencyRing) (d now : Z) : latencyRing :=
  mkRing (<[next l := mkSample d (Some now)]> (samples l)) (Nat.modulo (next l + 1) latencySamples).

Definition is_recent (now : Z) (s : latencySample) : bool :=
  match lat_at s with Some t => now - latencyMaxAge <? t | None => false end.
Definition recent_of (now : Z) (l : list latencySample) : list Z := map lat (List.filter (is_recent now) l).
(** The rest of hedgeDelay, on the recent durations. *)
Definition delay_of (recent : list Z) : option Z :=
  if (length recent <? minLatencySamples)%nat then None
  else
    let median := nth (length recent / 2) (merge_sort Z.le recent) 0 in
    Some (Z.min (Z.max (wrap_i64 (HedgeLatencyMultiple * median)) HedgeMinDelay) HedgeMaxDelay).
Definition ring_hedgeDelay (l : latencyRing) (now : Z) : option Z :=
  if HedgeLatencyMultiple <=? 0 then None else delay_of (recent_of now (samples l)).

(** [concurrency] is the pool size of a fetcher that tells it. *)
Definition smallPool (concurrency : option Z) : bool := match concurrency with Some n => n <=? 2 | None => false end.
Definition hedgeDelay (b : option FetchBudget) (concurrency : option Z) (l : latencyRing) (now : Z) : option Z :=
  if match b with Some _ => true | None => false end || smallPool concurrency then None else ring_hedgeDelay l now.

(** ** The race *)

(** What a fetch delivers: a part by its address, or the error. *)
Abbreviation fetchResult := (result fetchErr nat).
Definition articleGone (e : fetchErr) : bool := match e with Unavailable stalled => negb stalled | _ => false end.

Inductive raceEvent :=
| RDeliver (r : fetchResult)     (* a running fetch ends *)
| RTake                          (* the caller receives *)
| RTimer (waited : bool)         (* the delay ran out; whether a reader still waits *)
| RContext                       (* the caller's context ended *)
| RDiscard.                      (* the background goroutine receives *)
Inductive racePhase :=
| First                          (* one fetch, before the delay *)
| Alone                          (* past the delay, nobody waits: no second fetch *)
| Racing                         (* firstServable, before its first receive *)
| Second (e : fetchErr)          (* firstServable, the first failed with [e] *)
| Returned (r : fetchResult).
Record race := mkRace {
  rphase : racePhase; running : nat; results : list fetchResult; toDiscard : nat;
  rreleased : list nat; launched : nat;
  delivered : list nat   (* every part a fetch produced; kept for the statements *)
}.
(** fetchHedged once it decided to hedge: the first fetch is running. *)
Definition startRace : race := mkRace First 1 [] 0 [] 1 [].
Definition part_of (r : fetchResult) : list nat := match r with Ok p => [p] | Err _ => [] end.

Definition return_ (s : race) (r : fetchResult) (rest : list fetchResult) (discard : nat) : race :=
  mkRace (Returned r) (running s) rest (toDiscard s + discard) (rreleased s) (launched s) (delivered s).
Definition firstServable_first (s : race) (r : fetchResult) (rest : list fetchResult) : race :=
  match r with
  | Ok _ => return_ s r rest 1
  | Err e => if articleGone e then return_ s r rest 1
             else mkRace (Second e) (running s) rest (toDiscard s) (rreleased s) (launched s) (delivered s)
  end.
Definition firstServable_second (s : race) (first : fetchErr) (r : fetchResult) (rest : list fetchResult) : race :=
  match r with
  | Ok _ => return_ s r rest 0
  | Err e => if articleGone e || leaderSpecific first then return_ s r rest 0 else return_ s (Err first) rest 0
  end.

Definition race_step (s : race) (ev : raceEvent) : race :=
  match ev with
  | RDeliver r =>
      match running s with
      | O => s
      | S k => mkRace (rphase s) k (results s ++ [r]) (toDiscard s) (rreleased s) (launched s) (part_of r ++ delivered s)
      end
  | RTake =>
      match results s with
      | [] => s
      | r :: rest =>
          match rphase s with
          | First | Alone => return_ s r rest 0
          | Racing => firstServable_first s r rest
          | Second e => firstServable_second s e r rest
          | Returned _ => s
          end
      end
  | RTimer waited =>
      match rphase s with
      | First => if waited then mkRace Racing (S (running s)) (results s) (toDiscard s) (rreleased s) (S (launched s)) (delivered s)
                 else mkRace Alone (running s) (results s) (toDiscard s) (rreleased s) (launched s) (delivered s)
      | _ => s
      end
  | RContext =>
      match rphase s with First => return_ s (Err LeaderSpecific) (results s) 1 | _ => s end
  | RDiscard =>
      match rphase s, toDiscard s, results s with
      | Returned _, S n, r :: rest =>
          mkRace (rphase s) (running s) rest n
            (part_of r ++ rreleased s) (launched s) (delivered s)
      | _, _, _ => s
      end
  end.
Definition run_race (evs : list raceEvent) : race := fold_left race_step evs startRace.

(** * What a fetch returns and costs *)

Definition bodies (fx : list effect) : nat := length (List.filter (fun x => match x with XBody => true | _ => false end) fx).
Definition gets (fx : list effect) : nat := length (List.filter (fun x => match x with XGet _ => true | _ => false end) fx).
Definition puts (fx : list effect) : nat := length (List.filter (fun x => match x with XPut => true | _ => false end) fx).
Definition tracks (fx : list effect) : nat := length (List.filter (fun x => match x with XTrack => true | _ => false end) fx).
(** The bytes that came off the wire. *)
Definition received_bytes (fx : list effect) : Z := zsum (fun x => match x with XSettle n => n | _ => 0 end) fx.

Inductive verdict := Good (p : Part) | Dead (stalled : bool) | Again (e : attemptErr).

Section Results.
Context (buffered : bool) (estBytes : Z) (attempts : nat -> attempt) (ctxDone : nat -> bool).

(** What an attempt says of the article: the decoding of its whole body, however
    it arrived. *)
Definition judge (a : attempt) : verdict :=
  match at_err a with
  | Some e => match asUnavailable (AWire e) with Some s => Dead s | None => Again (AWire e) end
  | None => match (if buffered then DecodeInPlace (raw a) else Decode (raw a)) with
            | Ok p => Good p
            | Err e => Again (ADecode e)
            end
  end.
Definition again (a : attempt) : Prop := exists e, judge a = Again e.

Lemma feed_finish a :
  let '(d, body) := feed_chunks zeroDecoder [] (at_chunks a) in Finish d (body ++ at_rest a) = DecodeInPlace (raw a).
Proof.
  pose proof (feed_chunks_fed [] zeroDecoder [] [] (at_chunks a) (fed_zero [])) as HF.
  destruct (feed_chunks zeroDecoder [] (at_chunks a)) as [d body]. destruct HF as [l2 HF].
  rewrite (Finish_lines _ _ _ _ (fed_append _ _ _ _ (at_rest a) HF)).
  symmetry. apply (Finish_lines _ _ _ []), fed_zero.
Qed.

(** One attempt that was granted: its verdict and its effects. *)
Lemma attempt_spec a :
  let '(dec, pooled, fx1) := fetchBody buffered estBytes a in
  bodies fx1 = 1%nat /\ received_bytes fx1 = 0 /\ tracks fx1 = 0%nat /\
  match at_err a with
  | Some _ => gets fx1 = puts fx1
  | None =>
      let '(r, fx2) := keepDecoded a dec pooled in
      bodies fx2 = 0%nat /\ gets fx2 = 0%nat /\ received_bytes fx2 = 0 /\
      (gets fx1 = puts fx1 + puts fx2 + tracks fx2)%nat /\
      match r with
      | Ok (p, tracked) => judge a = Good p /\ tracks fx2 = (if tracked then 1 else 0)%nat
      | Err e => judge a = Again (ADecode e) /\ tracks fx2 = 0%nat
      end
  end.
Proof.
  unfold fetchBody, judge. pose proof (feed_finish a) as HF. destruct buffered.
  - destruct (feed_chunks zeroDecoder [] (at_chunks a)) as [d body]. destruct (at_err a) as [e|]; cbn [orb]; [by vm_compute|].
    rewrite <- HF. unfold keepDecoded, decodeArticle.
    destruct (at_inbuf a); cbn [negb]; (destruct (Finish d (body ++ at_rest a)) as [p|e]; [|by vm_compute]);
      destruct (negb _); by vm_compute.
  - destruct (at_err a) as [e|]; [by vm_compute|]. unfold keepDecoded, decodeArticle, DecodeBytes.
    destruct (Decode (raw a)); by vm_compute.
Qed.

Lemma bodies_app l k : bodies (l ++ k) = (bodies l + bodies k)%nat.
Proof. unfold bodies. by rewrite List.filter_app, length_app. Qed.
Lemma gets_app l k : gets (l ++ k) = (gets l + gets k)%nat.
Proof. unfold gets. by rewrite List.filter_app, length_app. Qed.
Lemma puts_app l k : puts (l ++ k) = (puts l + puts k)%nat.
Proof. unfold puts. by rewrite List.filter_app, length_app. Qed.
Lemma tracks_app l k : tracks (l ++ k) = (tracks l + tracks k)%nat.
Proof. unfold tracks. by rewrite List.filter_app, length_app. Qed.
Lemma received_bytes_app l k : received_bytes (l ++ k) = received_bytes l + received_bytes k.
Proof. apply zsum_app. Qed.

(** The summary of a run of the loop: [k] attempts went to the wire. *)
Record loop_ok (fuel i : nat) (r : result fetchFailure (Part * bool)) (fx : list effect) (k : nat) : Prop := {
  lo_bodies : bodies fx = k;
  lo_buffers : gets fx = (puts fx + tracks fx)%nat;
  lo_tracks : tracks fx = match r with Ok (_, true) => 1%nat | _ => 0%nat end;
  lo_bytes : received_bytes fx = zsum (fun j => Z.of_nat (length (raw (attempts j)))) (seq i k);
  lo_again : forall j, (i <= j < i + k - match r with Ok _ | Err (FUnavailable _) => 1 | _ => 0 end)%nat -> again (attempts j);
  lo_end : match r with
           | Ok (p, _) => (0 < k <= fuel)%nat /\ judge (attempts (i + k - 1)) = Good p
           | Err (FUnavailable s) => (0 < k <= fuel)%nat /\ judge (attempts (i + k - 1)) = Dead s
           | Err (FExhausted n _) => k = fuel /\ n = (i + fuel)%nat
           | Err FContext => (k < fuel)%nat /\ ctxDone (i + k) = true
           | Err FBudget => (k < fuel)%nat
           end
}.

(** The effects of one attempt that did not settle the matter, before the rest. *)
Lemma loop_ok_next fuel i r fx k fx0 :
  again (attempts i) -> bodies fx0 = 1%nat -> gets fx0 = puts fx0 -> tracks fx0 = 0%nat ->
  received_bytes fx0 = Z.of_nat (length (raw (attempts i))) ->
  loop_ok fuel (S i) r fx k -> loop_ok (S fuel) i r (fx0 ++ fx) (S k).
Proof.
  intros Ha Hb Hg Ht Hr [H1 H2 H3 H4 H5 H6].
  constructor; rewrite ?bodies_app, ?gets_app, ?puts_app, ?tracks_app, ?received_bytes_app; cbn [seq]; rewrite ?zsum_cons; try lia.
  - intros j Hj. destruct (decide (j = i)) as [->|Hne]; [done|]. apply H5. lia.
  - replace (i + S k - 1)%nat with (S i + k - 1)%nat by lia. replace (i + S k)%nat with (S i + k)%nat by lia.
    destruct r as [[p tr]|[]]; cbn in *; try (destruct H6; split; [lia|]); try done; lia.
Qed.

Lemma loop_ok_last fuel i r fx :
  bodies fx = 1%nat -> gets fx = (puts fx + tracks fx)%nat ->
  tracks fx = match r with Ok (_, true) => 1%nat | _ => 0%nat end ->
  received_bytes fx = Z.of_nat (length (raw (attempts i))) ->
  match r with
  | Ok (p, _) => judge (attempts i) = Good p
  | Err (FUnavailable s) => judge (attempts i) = Dead s
  | _ => False
  end -> loop_ok (S fuel) i r fx 1.
Proof.
  intros H1 H2 H3 H4 H5.
  constructor; cbn [seq]; rewrite ?zsum_cons, ?zsum_nil; try done; try lia.
  - intros j Hj. destruct r as [|[]]; try done; lia.
  - replace (i + 1 - 1)%nat with i by lia. destruct r as [[]|[]]; try done; split; try done; lia.
Qed.

(** The effects of an attempt: the reservation, the BODY, the settling, and what
    is done with the body. *)
Definition attempt_fx (i : nat) (fx1 fx2 : list effect) : list effect :=
  XReserve true :: fx1 ++ [XSettle (Z.of_nat (length (raw (attempts i))))] ++ fx2.

Lemma attempt_fx_app i fx1 fx2 tail :
  attempt_fx i fx1 fx2 ++ tail =
  (XReserve true :: fx1 ++ [XSettle (Z.of_nat (length (raw (attempts i))))]) ++ fx2 ++ tail.
Proof. unfold attempt_fx. cbn [app]. by rewrite <- !app_assoc. Qed.

Definition silent (fx : list effect) : Prop :=
  bodies fx = 0%nat /\ gets fx = 0%nat /\ puts fx = 0%nat /\ tracks fx = 0%nat /\ received_bytes fx = 0.

Lemma attempt_counts i fx1 fx2 tail :
  bodies fx1 = 1%nat -> received_bytes fx1 = 0 -> tracks fx1 = 0%nat -> silent tail ->
  let fx := attempt_fx i fx1 fx2 ++ tail in
  bodies fx = (1 + bodies fx2)%nat /\ gets fx = (gets fx1 + gets fx2)%nat /\ puts fx = (puts fx1 + puts fx2)%nat /\
  tracks fx = tracks fx2 /\ received_bytes fx = Z.of_nat (length (raw (attempts i))) + received_bytes fx2.
Proof.
  intros A1 A2 A3 (T1 & T2 & T3 & T4 & T5) fx. unfold fx, attempt_fx. set (n := Z.of_nat _).
  change (XReserve true :: fx1 ++ [XSettle n] ++ fx2) with ([XReserve true] ++ fx1 ++ [XSettle n] ++ fx2).
  rewrite !bodies_app, !gets_app, !puts_app, !tracks_app, !received_bytes_app, A1, A2, A3, T1, T2, T3, T4, T5.
  assert (received_bytes [XReserve true] = 0 /\ received_bytes [XSettle n] = n) as [-> ->] by (unfold received_bytes; rewrite !zsum_cons, !zsum_nil; lia).
  cbn. lia.
Qed.

Lemma silent_fail : silent [XFail].
Proof. done. Qed.
Lemma silent_note d : silent [XNote d].
Proof. done. Qed.

(** A failed attempt: a verdict on the article ends the loop, anything else goes
    on with it. *)
Lemma failed_ok fuel i b2 e fx1 fx2 :
  bodies fx1 = 1%nat -> received_bytes fx1 = 0 -> tracks fx1 = 0%nat ->
  gets fx1 = (puts fx1 + puts fx2)%nat -> bodies fx2 = 0%nat -> gets fx2 = 0%nat -> tracks fx2 = 0%nat -> received_bytes fx2 = 0 ->
  match asUnavailable e with Some s => judge (attempts i) = Dead s | None => again (attempts i) end ->
  (forall j b l, let '(r, b', fx) := fetch_loop buffered estBytes attempts ctxDone fuel j b l in exists k, loop_ok fuel j r fx k) ->
  let '(r, b', fx) :=
    match asUnavailable e with
    | Some stalled => (Err (FUnavailable stalled), b2, attempt_fx i fx1 fx2 ++ [XFail])
    | None => let '(r, b', fx') := fetch_loop buffered estBytes attempts ctxDone fuel (S i) b2 (Some e) in
              (r, b', (attempt_fx i fx1 fx2 ++ [XFail]) ++ fx')
    end in exists k, loop_ok (S fuel) i r fx k.
Proof.
  intros A1 A2 A3 A4 F1 F2 F3 F4 Hj IH.
  destruct (attempt_counts i fx1 fx2 [XFail] A1 A2 A3 silent_fail) as (C1 & C2 & C3 & C4 & C5).
  destruct (asUnavailable e) as [s|].
  - exists 1%nat. apply loop_ok_last; try done; lia.
  - specialize (IH (S i) b2 (Some e)). destruct (fetch_loop _ _ _ _ fuel (S i) b2 (Some e)) as [[r b'] fx'].
    destruct IH as [k Hk]. exists (S k). apply loop_ok_next; try done; lia.
Qed.

Lemma fetch_loop_ok fuel i b lastErr :
  let '(r, b', fx) := fetch_loop buffered estBytes attempts ctxDone fuel i b lastErr in
  exists k, loop_ok fuel i r fx k.
Proof.
  revert i b lastErr. induction fuel as [|fuel IH]; intros i b lastErr; cbn [fetch_loop].
  { exists 0%nat. constructor; cbn; try done; intros; lia. }
  case_if; bprop.
  { exists 0%nat. constructor; cbn; try done; try (intros; lia). rewrite Nat.add_0_r. split; [lia|done]. }
  destruct (reserve b estBytes) as [[] b1]; cbn [negb].
  2:{ exists 0%nat. constructor; cbn; try done; intros; lia. }
  pose proof (attempt_spec (attempts i)) as HA.
  destruct (fetchBody buffered estBytes (attempts i)) as [[dec pooled] fx1].
  destruct HA as (A1 & A2 & A3 & HA). destruct (at_err (attempts i)) as [e|] eqn:Ee.
  - pose proof (failed_ok fuel i (settle b1 estBytes (Z.of_nat (length (raw (attempts i))))) (AWire e) fx1 [] A1 A2 A3) as HF.
    unfold attempt_fx in HF. rewrite app_nil_r in HF. apply HF; try done; [by rewrite Nat.add_0_r|].
    unfold again, judge. rewrite Ee. destruct (asUnavailable (AWire e)); [done|by eexists].
  - destruct (keepDecoded (attempts i) dec pooled) as [r fx2]. destruct HA as (B1 & B2 & B3 & B4 & HA).
    destruct r as [[p tr]|e]; destruct HA as [Hj Htr].
    + destruct (attempt_counts i fx1 fx2 [XNote (at_took (attempts i))] A1 A2 A3 (silent_note _)) as (C1 & C2 & C3 & C4 & C5).
      exists 1%nat. rewrite <- attempt_fx_app.
      apply loop_ok_last; try done; try lia.
    + pose proof (failed_ok fuel i (settle b1 estBytes (Z.of_nat (length (raw (attempts i))))) (ADecode e) fx1 fx2 A1 A2 A3) as HF.
      assert (Hfx : (XReserve true :: fx1 ++ [XSettle (Z.of_nat (length (raw (attempts i))))]) ++ fx2 = attempt_fx i fx1 fx2)
        by (rewrite <- (app_nil_r fx2) at 1; by rewrite <- attempt_fx_app, app_nil_r).
      rewrite Hfx.       apply HF; try done; [lia|]. by eexists.
Qed.

(** ** The budget *)

Lemma reserve_settle b granted b1 actual :
  estBytes <= 2 ^ 61 -> 0 <= actual <= 2 ^ 40 -> Z.abs (remaining b) <= 2 ^ 61 -> 0 <= spent b <= 2 ^ 61 ->
  reserve (Some b) estBytes = (granted, b1) ->
  if granted then settle b1 estBytes actual = Some (mkBudget (remaining b - actual) (spent b + actual))
  else b1 = Some b.
Proof.
  intros He Ha Hr Hs. unfold reserve, settle, settle_budget, settle_spent, settle_remaining, add_remaining, add_spent.
  assert (Hw : forall z, - 2 ^ 62 <= z <= 2 ^ 62 -> wrap_i64 z = z)
    by (intros z Hz; apply wrap_i64_id; unfold is_i64, i64_min, i64_max; lia).
  destruct (Z.leb_spec estBytes 0) as [H0|H0].
  - intros [= <- <-]. destruct b as [rem sp]. cbn [remaining spent] in *. case_if; [|done].
    rewrite (proj2 (Z.ltb_ge 0 estBytes)) by lia.
    destruct (Z.ltb_spec 0 actual); cbn [remaining spent]; rewrite ?Hw by lia; repeat f_equal; lia.
  - cbn [remaining spent]. rewrite (Hw (remaining b + - estBytes)) by lia. case_if; intros [= <- <-].
    + rewrite Hw by lia. destruct b. cbn. repeat f_equal. lia.
    + rewrite (proj2 (Z.ltb_lt 0 estBytes)) by lia.
      destruct (Z.ltb_spec 0 actual); cbn [remaining spent]; rewrite ?(Hw (estBytes - actual)) by lia; rewrite ?Hw by lia;
        repeat f_equal; lia.
Qed.

Lemma fetch_loop_budget fuel i b lastErr :
  estBytes <= 2 ^ 61 -> (forall j, Z.of_nat (length (raw (attempts j))) <= 2 ^ 40) ->
  Z.abs (remaining b) + Z.of_nat fuel * 2 ^ 40 <= 2 ^ 61 -> 0 <= spent b -> spent b + Z.of_nat fuel * 2 ^ 40 <= 2 ^ 61 ->
  let '(_, b', fx) := fetch_loop buffered estBytes attempts ctxDone fuel i (Some b) lastErr in
  b' = Some (mkBudget (remaining b - received_bytes fx) (spent b + received_bytes fx)).
Proof.
  intros He Hl. revert i b lastErr. induction fuel as [|fuel IH]; intros i b lastErr Hr H0 Hs.
  all: assert (Hsame : forall fx, received_bytes fx = 0 -> Some b = Some (mkBudget (remaining b - received_bytes fx) (spent b + received_bytes fx)))
    by (intros fx ->; destruct b; cbn; repeat f_equal; lia).
  { by apply Hsame. }
  cbn [fetch_loop]. case_if; [by apply Hsame|].
  set (actual := Z.of_nat (length (raw (attempts i)))).
  destruct (reserve (Some b) estBytes) as [granted b1] eqn:ER.
  pose proof (reserve_settle b granted b1 actual He ltac:(unfold actual; specialize (Hl i); lia) ltac:(lia) ltac:(lia) ER) as HS.
  destruct granted; cbn [negb]; [|rewrite HS; by apply Hsame].
  pose proof (attempt_spec (attempts i)) as HA.
  destruct (fetchBody buffered estBytes (attempts i)) as [[dec pooled] fx1]. destruct HA as (A1 & A2 & A3 & HA).
  specialize (Hl i) as Hli. fold actual in Hli. assert (0 <= actual) as Hpos by (unfold actual; lia).
  rewrite HS. set (b2 := mkBudget (remaining b - actual) (spent b + actual)).
  assert (Hbytes : forall fx2 tail, received_bytes fx2 = 0 ->
    received_bytes ((XReserve true :: fx1 ++ [XSettle actual]) ++ fx2 ++ tail) = actual + received_bytes tail).
  { intros fx2 tail H2. change (XReserve true :: fx1 ++ [XSettle actual]) with ([XReserve true] ++ fx1 ++ [XSettle actual]).
    rewrite !received_bytes_app, A2, H2. unfold received_bytes at 1 2. rewrite !zsum_cons, !zsum_nil. lia. }
  assert (Hdone : forall n, n = actual -> Some b2 = Some (mkBudget (remaining b - n) (spent b + n))) by (by intros n ->).
  assert (Hfail : forall e fx2, received_bytes fx2 = 0 ->
    let '(_, b', fx) := match asUnavailable e with
      | Some stalled => (Err (FUnavailable stalled), Some b2, ((XReserve true :: fx1 ++ [XSettle actual]) ++ fx2) ++ [XFail])
      | None => let '(r, b', fx') := fetch_loop buffered estBytes attempts ctxDone fuel (S i) (Some b2) (Some e) in
                (r, b', (((XReserve true :: fx1 ++ [XSettle actual]) ++ fx2) ++ [XFail]) ++ fx')
      end in b' = Some (mkBudget (remaining b - received_bytes fx) (spent b + received_bytes fx))).
  { intros e fx2 H2. destruct (asUnavailable e).
    - apply Hdone. rewrite <- app_assoc, Hbytes by done. change (received_bytes [XFail]) with 0. lia.
    - specialize (IH (S i) b2 (Some e)).
      destruct (fetch_loop _ _ _ _ fuel (S i) (Some b2) (Some e)) as [[r b'] fx'].
      rewrite IH by (unfold b2; cbn [remaining spent]; lia).
      rewrite <- !app_assoc, Hbytes, received_bytes_app by done. change (received_bytes [XFail]) with 0.
      unfold b2. cbn [remaining spent]. f_equal. f_equal; lia. }
  destruct (at_err (attempts i)) as [e|].
  - specialize (Hfail (AWire e) [] eq_refl). by rewrite app_nil_r in Hfail.
  - destruct (keepDecoded (attempts i) dec pooled) as [[part|e] fx2]; destruct HA as (_ & _ & B3 & _).
    + apply Hdone. rewrite Hbytes by done. change (received_bytes [XNote (at_took (attempts i))]) with 0. lia.
    + by apply Hfail.
Qed.

(** Without a budget no reservation is refused. *)
Lemma fetch_loop_unbudgeted fuel i lastErr :
  let '(r, b', _) := fetch_loop buffered estBytes attempts ctxDone fuel i None lastErr in b' = None /\ r <> Err FBudget.
Proof.
  revert i lastErr. induction fuel as [|fuel IH]; intros i lastErr; cbn [fetch_loop]; [done|]. case_if; [done|].
  cbn [reserve negb settle]. destruct (fetchBody buffered estBytes (attempts i)) as [[dec pooled] fx1].
  assert (Hgo : forall e fx, let '(r, b', _) := match asUnavailable e with
      | Some stalled => (Err (FUnavailable stalled), @None FetchBudget, fx ++ [XFail])
      | None => let '(r, b', fx') := fetch_loop buffered estBytes attempts ctxDone fuel (S i) None (Some e) in (r, b', (fx ++ [XFail]) ++ fx')
      end in b' = None /\ r <> Err FBudget).
  { intros e fx. destruct (asUnavailable e); [done|]. specialize (IH (S i) (Some e)).
    by destruct (fetch_loop _ _ _ _ fuel (S i) None (Some e)) as [[r b'] fx']. }
  destruct (at_err (attempts i)) as [e|]; [apply Hgo|].
  destruct (keepDecoded (attempts i) dec pooled) as [[part|e] fx2]; [done|apply Hgo].
Qed.
End Results.

(** With no budget and a live context a fetch settles on the first attempt
    that says something about the article: it returns the part that the whole
    body of that attempt decodes to, or that the article is unavailable, after
    exactly as many BODY commands as attempts were made up to it; it gives up
    only when all attempts failed otherwise.  So a missing article is never asked
    for again and a transient failure is survived. *)
Lemma fetch_verdict buffered estBytes attempts ctxDone maxAttempts :
  (forall i, ctxDone i = false) ->
  let '(r, _, fx) := fetchDecodeRetry buffered estBytes attempts ctxDone maxAttempts None in
  match r with
  | Ok (p, _) => exists i, (i < maxAttempts)%nat /\ judge buffered (attempts i) = Good p /\
      (forall j, (j < i)%nat -> again buffered (attempts j)) /\ bodies fx = S i
  | Err (FUnavailable s) => exists i, (i < maxAttempts)%nat /\ judge buffered (attempts i) = Dead s /\
      (forall j, (j < i)%nat -> again buffered (attempts j)) /\ bodies fx = S i
  | Err (FExhausted n _) => n = maxAttempts /\ bodies fx = maxAttempts /\
      forall j, (j < maxAttempts)%nat -> again buffered (attempts j)
  | Err FContext => False
  | Err FBudget => False
  end.
Proof.
  intros Hctx. unfold fetchDecodeRetry.
  pose proof (fetch_loop_ok buffered estBytes attempts ctxDone maxAttempts 0 None None) as HL.
  pose proof (fetch_loop_unbudgeted buffered estBytes attempts ctxDone maxAttempts 0 None) as HB.
  destruct (fetch_loop buffered estBytes attempts ctxDone maxAttempts 0 None None) as [[r b] fx].
  destruct HL as [k [H1 _ _ _ H5 H6]]. cbn [Nat.add] in *.
  destruct r as [[p tr]|[s| | |n l]].
  - destruct H6 as [Hk Hj]. exists (k - 1)%nat. split_and!; [lia|done| |lia]. intros j Hlt. apply H5. lia.
  - destruct H6 as [Hk Hj]. exists (k - 1)%nat. split_and!; [lia|done| |lia]. intros j Hlt. apply H5. lia.
  - by apply (proj2 HB).
  - destruct H6 as [_ H6]. by rewrite Hctx in H6.
  - destruct H6 as [-> ->]. split_and!; [done|done|]. intros j Hlt. apply H5. lia.
Qed.

(** A fetch leaves nothing behind, however its attempts end and whatever the
    budget says: every buffer it takes from the pool it gives back or, at most
    one, leaves in the tracked part it returns; and the byte budget is debited by
    exactly the bytes that came off the wire, so that no reservation outlives the
    fetch. *)
Lemma fetch_leaves_nothing buffered estBytes attempts ctxDone maxAttempts b :
  estBytes <= 2 ^ 61 -> (forall j, Z.of_nat (length (raw (attempts j))) <= 2 ^ 40) ->
  Z.abs (remaining b) + Z.of_nat maxAttempts * 2 ^ 40 <= 2 ^ 61 ->
  0 <= spent b -> spent b + Z.of_nat maxAttempts * 2 ^ 40 <= 2 ^ 61 ->
  let '(r, b', fx) := fetchDecodeRetry buffered estBytes attempts ctxDone maxAttempts (Some b) in
  gets fx = (puts fx + tracks fx)%nat /\
  tracks fx = match r with Ok (_, true) => 1%nat | _ => 0%nat end /\
  b' = Some (mkBudget (remaining b - received_bytes fx) (spent b + received_bytes fx)) /\
  (bodies fx <= maxAttempts)%nat.
Proof.
  intros He Hl Hr H0 Hs. unfold fetchDecodeRetry.
  pose proof (fetch_loop_ok buffered estBytes attempts ctxDone maxAttempts 0 (Some b) None) as HL.
  pose proof (fetch_loop_budget buffered estBytes attempts ctxDone maxAttempts 0 b None He Hl Hr H0 Hs) as HB.
  destruct (fetch_loop buffered estBytes attempts ctxDone maxAttempts 0 (Some b) None) as [[r b'] fx].
  destruct HL as [k [H1 H2 H3 _ _ H6]]. split_and!; [done|done|done|].
  rewrite H1. destruct r as [[p tr]|[]]; lia.
Qed.

(** The cache told of an unavailable article remembers it. *)
Lemma finish_unavailable cap c s id fl stalled now :
  dormantLocked c s = false ->
  let c' := finish cap c s id fl (inr (Unavailable stalled)) now in
  dormantLocked c' s = false /\
  dead c' !! (s, id) = Some (mkDead stalled (if stalled then Some (now + stalledTTL) else None)).
Proof.
  intros Hd c'. unfold c', finish. set (c1 := if bool_decide _ then _ else _).
  assert (Hs : scopes c1 = scopes c) by (unfold c1; by case_if). clearbody c1.
  assert (Hd1 : dormantLocked c1 s = false) by (unfold dormantLocked, scope_of in *; by rewrite Hs).
  rewrite Hd1. unfold markDeadLocked. split; [|cbn [set_flights set_dead dead]; apply lookup_insert_eq].
  unfold dormantLocked, scope_of in *. cbn. by case_if.
Qed.

(** A dead article costs one BODY: a first answer of missing, or a stall,
    ends the fetch after that one command, and once the cache has been told, the
    next request for the article in the same source (within the stall's lifetime)
    joins a flight that already carries the verdict, without leading a fetch. *)
Lemma dead_article_costs_one_body buffered estBytes attempts ctxDone maxAttempts stalled cap c s id fl now now' hold :
  (0 < maxAttempts)%nat -> judge buffered (attempts 0%nat) = Dead stalled -> dormantLocked c s = false ->
  (stalled = true -> now' <= now + stalledTTL) ->
  let '(r, _, fx) := fetchDecodeRetry buffered estBytes attempts ctxDone maxAttempts None in
  r = Err (FUnavailable stalled) /\ bodies fx = 1%nat /\
  let c' := finish cap c s id fl (inr (cache_err (FUnavailable stalled))) now in
  exists fl' c'', begin c' s id hold now' = (Join fl', c'') /\
    fheap c'' !! fl' = Some (settledFlight stalled).
Proof.
  intros Hm Hj Hd Ht. unfold fetchDecodeRetry. destruct maxAttempts as [|n]; [lia|].
  cbn [fetch_loop]. change (reserve None estBytes) with (true, @None FetchBudget). cbn [andb negb Nat.ltb].
  pose proof (attempt_spec buffered estBytes (attempts 0%nat)) as HA.
  destruct (fetchBody buffered estBytes (attempts 0%nat)) as [[dec pooled] fx1]. destruct HA as (A1 & _ & _ & _).
  unfold judge in Hj. destruct (at_err (attempts 0%nat)) as [e|]; [|by destruct (if buffered then _ else _)].
  destruct (asUnavailable (AWire e)) as [st|] eqn:Eu; [|done]. injection Hj as ->. change (0 <? 0)%nat with false. cbn [andb].
  split_and!; [done| |].
  { match goal with |- bodies ((_ :: fx1 ++ ?x) ++ ?y) = _ => change (bodies (([XReserve true] ++ fx1 ++ x) ++ y) = 1%nat) end.
    by rewrite !bodies_app, A1. }
  set (c' := finish cap c s id fl (inr (cache_err (FUnavailable stalled))) now).
  assert (Hdorm : dormantLocked c' s = false /\ dead c' !! (s, id) = Some (mkDead stalled (if stalled then Some (now + stalledTTL) else None))).
  { by apply finish_unavailable. }
  destruct Hdorm as [Hd' Hdead]. unfold begin. cbn [new_flight].
  change (dormantLocked c' s) with (dormantLocked c' s). rewrite Hd'. unfold deadLocked. cbn [set_flights dead]. rewrite Hdead.
  assert (expired (mkDead stalled (if stalled then Some (now + stalledTTL) else None)) now' = false) as ->.
  { unfold expired. destruct stalled; cbn; [|done]. apply Z.ltb_ge. by apply Ht. }
  cbn [derr new_flight]. do 2 eexists. split; [done|]. cbn [set_flights fheap nextId]. by rewrite lookup_insert_eq.
Qed.

(** * The latency ring *)

(** The ring from its oldest sample on. *)
Definition unroll (l : latencyRing) : list latencySample := drop (next l) (samples l) ++ take (next l) (samples l).
Definition ring_ok (l : latencyRing) : Prop := length (samples l) = latencySamples /\ (next l < latencySamples)%nat.

Lemma note_ok l d now : ring_ok l -> ring_ok (note l d now).
Proof.
  intros [H1 H2]. split; cbn [note samples next]; [by rewrite length_insert|]. by apply Nat.mod_upper_bound.
Qed.

(** Noting a sample drops the oldest. *)
Lemma unroll_note l d now :
  ring_ok l -> unroll (note l d now) = drop 1 (unroll l) ++ [mkSample d (Some now)].
Proof.
  intros [Hl Hn]. unfold unroll, note. cbn [samples next].
  destruct (lookup_lt_is_Some_2 (samples l) (next l)) as [x Hx]; [lia|].
  rewrite (drop_S _ _ _ Hx). cbn [drop app].
  rewrite (insert_take_drop (samples l) (next l)) by lia.
  set (v := mkSample d (Some now)). set (T := take (next l) (samples l)). set (D := drop (S (next l)) (samples l)).
  assert (HT : length T = next l) by (unfold T; rewrite length_take; lia).
  destruct (decide (next l + 1 = latencySamples)%nat) as [He|He].
  - rewrite He, Nat.Div0.mod_same. cbn [drop take].
    assert (D = []) as -> by (unfold D; apply drop_ge; lia). cbn [app]. by rewrite app_nil_r.
  - rewrite Nat.mod_small by lia. rewrite cons_middle, app_assoc.
    assert (Hlen : (next l + 1 = length (T ++ [v]))%nat) by (rewrite length_app, HT; cbn; lia).
    rewrite Hlen, drop_app_length, take_app_length. by rewrite app_assoc.
Qed.

(** The ring after a history of fetches (oldest first) and the empty slots left. *)
Definition history (h : list (Z * Z)) : list latencySample := map (fun x => mkSample (fst x) (Some (snd x))) h.
Definition noted (h : list (Z * Z)) : latencyRing := fold_left (fun l x => note l (fst x) (snd x)) h zeroRing.

Lemma noted_snoc h x : noted (h ++ [x]) = note (noted h) (fst x) (snd x).
Proof. unfold noted. by rewrite fold_left_app. Qed.
Lemma noted_ok h : ring_ok (noted h).
Proof.
  induction h as [|x h IH] using rev_ind; [split; [done|cbn; unfold latencySamples; lia]|].
  rewrite noted_snoc. by apply note_ok.
Qed.
Lemma noted_unroll h :
  unroll (noted h) = drop (length h) (replicate latencySamples (mkSample 0 None) ++ history h).
Proof.
  induction h as [|x h IH] using rev_ind; [done|].
  rewrite noted_snoc, unroll_note, IH by apply noted_ok. rewrite drop_drop. unfold history. rewrite map_app, length_app. cbn [map length].
  rewrite app_assoc. symmetry. apply drop_app_le. rewrite length_app, length_replicate, length_map. unfold latencySamples. lia.
Qed.

Lemma recent_perm now l k : l ≡ₚ k -> recent_of now l ≡ₚ recent_of now k.
Proof.
  intros H. unfold recent_of. apply Permutation_map. induction H; cbn; repeat case_if; try done; by econstructor.
Qed.
Lemma recent_empty now n l : recent_of now (replicate n (mkSample 0 None) ++ l) = recent_of now l.
Proof. unfold recent_of. induction n as [|n IH]; [done|]. exact IH. Qed.

(** Sorting forgets the order the ring keeps. *)
Lemma delay_perm l k : l ≡ₚ k -> delay_of l = delay_of k.
Proof.
  intros H. unfold delay_of. rewrite (Permutation_length H).
  assert (merge_sort Z.le l = merge_sort Z.le k) as ->; [|done].
  apply (StronglySorted_unique Z.le); [apply (StronglySorted_merge_sort Z.le)..|].
  by rewrite !(merge_sort_Permutation Z.le).
Qed.

(** The hedge delay is what its description says of the real history: it
    depends on the last 32 successful fetches only, of which at least 8 must be
    younger than five minutes; it is then twice the median of those, held between
    400 ms and 3 s. *)
Lemma hedgeDelay_of_history h now :
  ring_hedgeDelay (noted h) now = delay_of (recent_of now (history (drop (length h - latencySamples) h))) /\
  (forall d, ring_hedgeDelay (noted h) now = Some d -> HedgeMinDelay <= d <= HedgeMaxDelay).
Proof.
  split.
  - unfold ring_hedgeDelay. cbn [HedgeLatencyMultiple Z.leb Z.compare].
    transitivity (delay_of (recent_of now (unroll (noted h)))).
    { apply delay_perm, recent_perm. unfold unroll. by rewrite Permutation_app_comm, take_drop. }
    rewrite noted_unroll. destruct (Nat.le_gt_cases (length h) latencySamples) as [Hl|Hl].
    + rewrite drop_app_le by (rewrite length_replicate; lia). rewrite drop_replicate, recent_empty.
      by replace (length h - latencySamples)%nat with 0%nat by lia.
    + rewrite drop_app_ge by (rewrite length_replicate; lia). rewrite length_replicate. unfold history.
      by rewrite skipn_map.
  - intros d. unfold ring_hedgeDelay, delay_of. repeat (case_if; [done|]). intros [= <-].
    unfold HedgeMinDelay, HedgeMaxDelay. lia.
Qed.

(** * The race *)

(** The results the caller still has to receive. *)
Definition pending (p : racePhase) : nat :=
  match p with First | Alone | Second _ => 1 | Racing => 2 | Returned _ => 0 end.
Definition returned_part (p : racePhase) : list nat := match p with Returned r => part_of r | _ => [] end.

Record race_inv (s : race) : Prop := {
  ri_count : (running s + length (results s) = pending (rphase s) + toDiscard s)%nat;
  ri_parts : delivered s ≡ₚ returned_part (rphase s) ++ concat (map part_of (results s)) ++ rreleased s;
  ri_launched : (launched s <= match rphase s with First | Alone => 1 | _ => 2 end)%nat
}.

Lemma race_step_inv s ev : race_inv s -> race_inv (race_step s ev).
Proof.
  intros [H1 H2 H3]. destruct ev as [r| |w| |]; cbn [race_step].
  - destruct (running s) as [|k] eqn:Er; [by constructor; rewrite ?Er|].
    constructor; cbn; rewrite ?length_app, ?map_app, ?concat_app; cbn; rewrite ?app_nil_r; try done; [lia|].
    rewrite H2, <- app_assoc, !(Permutation_app_swap_app (part_of r)). done.
  - destruct (results s) as [|r rest] eqn:Eq; [by constructor; rewrite ?Eq|]. cbn [length map concat] in *.
    destruct (rphase s) as [| | |e|r0] eqn:Ep; cbn [pending returned_part app] in *.
    + constructor; cbn; [lia|by rewrite app_assoc|lia].
    + constructor; cbn; [lia|by rewrite app_assoc|lia].
    + unfold firstServable_first. destruct r as [p|e]; [|case_if]; constructor; cbn in *; try done; try lia.
    + unfold firstServable_second. destruct r as [p|x]; [|case_if]; constructor; cbn in *; try done; try lia.
    + by constructor; rewrite ?Eq, ?Ep.
  - destruct (rphase s) eqn:Ep; try (by constructor; rewrite ?Ep). destruct w; constructor; cbn in *; try done; lia.
  - destruct (rphase s) eqn:Ep; try (by constructor; rewrite ?Ep). constructor; cbn in *; try done; lia.
  - destruct (rphase s) as [| | |e|r0] eqn:Ep; try (by constructor; rewrite ?Ep).
    destruct (toDiscard s) as [|n] eqn:Et; [by constructor; rewrite ?Ep, ?Et|].
    destruct (results s) as [|r rest] eqn:Eq; [by constructor; rewrite ?Ep, ?Et, ?Eq|].
    constructor; cbn in *; try done; [lia|]. rewrite H2. apply Permutation_app_head.
    rewrite <- app_assoc. apply Permutation_app_swap_app.
Qed.

Lemma run_race_inv evs : race_inv (run_race evs).
Proof.
  unfold run_race. assert (H : race_inv startRace) by (constructor; cbn; done || lia).
  revert H. generalize startRace. induction evs as [|ev evs IH]; intros s Hs; cbn [fold_left]; [done|].
  by apply IH, race_step_inv.
Qed.

(** The hedged fetch neither leaks nor double-frees a part, in whatever order
    fetches end, the timer fires, the caller gives up and results are received: at
    most two fetches are started, every part they produced is waiting in the
    channel, returned to the caller or released, each once, and once the fetches
    have ended and the channel is empty the caller has its answer and every other
    part was released. *)
Lemma hedge_parts_conserved evs :
  let s := run_race evs in
  (launched s <= 2)%nat /\
  delivered s ≡ₚ returned_part (rphase s) ++ concat (map part_of (results s)) ++ rreleased s /\
  (running s = 0%nat -> results s = [] ->
   exists r, rphase s = Returned r /\ delivered s ≡ₚ part_of r ++ rreleased s).
Proof.
  intros s. destruct (run_race_inv evs) as [H1 H2 H3]. fold s in H1, H2, H3. split_and!.
  - destruct (rphase s); lia.
  - done.
  - intros Hr He. rewrite Hr, He in H1. rewrite He in H2. cbn in H1. destruct (rphase s); cbn in H1; try lia. by eexists.
Qed.

(** What the race makes of two results: a success wins unless the other said the
    article is gone first, and an error about the reader is returned only when
    both are. *)
Lemma firstServable_truth evs e1 r2 :
  let s := mkRace Racing 0 [Err e1; r2] 0 [] 2 evs in
  let s' := race_step (race_step s RTake) RTake in
  match rphase s' with
  | Returned (Ok p) => r2 = Ok p /\ articleGone e1 = false
  | Returned (Err e) =>
      (articleGone e1 = true /\ e = e1) \/
      (articleGone e1 = false /\ exists e2, r2 = Err e2 /\ (e = e1 \/ e = e2) /\
       (leaderSpecific e = true -> leaderSpecific e1 = true /\ leaderSpecific e2 = true) /\
       (articleGone e2 = true -> e = e2))
  | _ => False
  end.
Proof.
  cbn. destruct e1 as [[]| |], r2 as [p|[[]| |]]; cbn; try (by left); try done; right; split; try done;
    eexists; (split; [reflexivity|]); cbn; naive_solver.
Qed.

(** ** Witnesses *)

(** A dropped connection, then the article in two pieces. *)
Definition sample_attempts (i : nat) : attempt :=
  match i with
  | O => mkAttempt [] [] (Some ReconnectFailed) true 200 0
  | _ => mkAttempt [take 40 sample_article] (drop 40 sample_article) None true 6 700
  end.
Lemma sample_lengths j : Z.of_nat (length (raw (sample_attempts j))) <= 2 ^ 40.
Proof. destruct j as [|j]; vm_compute; discriminate. Defined.
Definition alive (_ : nat) : bool := false.

Lemma fetch_verdict_witness :
  bodies (snd (fetchDecodeRetry true 100 sample_attempts alive 3 None)) = 2%nat /\
  exists i, (i < 3)%nat /\ (forall j, (j < i)%nat -> again true (sample_attempts j)).
Proof.
  split; [vm_compute; reflexivity|].
  pose proof (fetch_verdict true 100 sample_attempts alive 3 (fun _ => eq_refl)) as H.
  destruct (fetchDecodeRetry true 100 sample_attempts alive 3 None) as [[r b] fx] eqn:E.
  assert (Hr : exists p, r = Ok p) by (vm_compute in E; injection E as <- _ _; eexists; reflexivity).
  destruct Hr as [[p tr] ->]. destruct H as (i & H1 & _ & H2 & _). exists i. split; assumption.
Defined.

Lemma fetch_leaves_nothing_witness :
  let '(r, b', fx) := fetchDecodeRetry true 100 sample_attempts alive 3 (Some (mkBudget 1000 0)) in
  tracks fx = 1%nat /\ gets fx = 2%nat /\
  gets fx = (puts fx + tracks fx)%nat /\ b' = Some (mkBudget (1000 - received_bytes fx) (0 + received_bytes fx)).
Proof.
  pose proof (fetch_leaves_nothing true 100 sample_attempts alive 3 (mkBudget 1000 0)
    ltac:(lia) sample_lengths ltac:(cbn; lia) ltac:(cbn; lia) ltac:(cbn; lia)) as H.
  destruct (fetchDecodeRetry true 100 sample_attempts alive 3 (Some (mkBudget 1000 0))) as [[r b'] fx] eqn:E.
  destruct H as (H1 & _ & H3 & _).
  assert (Hf : tracks fx = 1%nat /\ gets fx = 2%nat) by (vm_compute in E; injection E as _ _ <-; split; vm_compute; reflexivity).
  destruct Hf as [Hf1 Hf2]. split; [exact Hf1|]. split; [exact Hf2|]. split; [exact H1|exact H3].
Defined.

Definition gone_attempts (_ : nat) : attempt :=
  mkAttempt [] [] (Some (CallFailed (ArticleNotFound 430))) true 200 0.
Lemma dead_article_costs_one_body_witness :
  let c := snd (NewScope (NewArticleCache 100 0)) in
  dormantLocked c 0 = false /\
  exists fl' c'', begin (finish demo_cap c 0 [97] 0 (inr (Unavailable false)) 5) 0 [97] true 9 = (Join fl', c'').
Proof.
  intros c. assert (Hd : dormantLocked c 0 = false) by (vm_compute; reflexivity). split; [exact Hd|].
  pose proof (dead_article_costs_one_body true 100 gone_attempts alive 3 false demo_cap c 0 [97] 0 5 9 true
    ltac:(lia) eq_refl Hd ltac:(discriminate)) as H.
  destruct (fetchDecodeRetry true 100 gone_attempts alive 3 None) as [[r b] fx].
  destruct H as (_ & _ & fl' & c'' & H & _). exists fl', c''. exact H.
Defined.
