(* ===== verification/Arrival.v ===== *)
(** Serving an article while it downloads: internal/usenet/stream/arriving.go.

    A fetch decodes its body in place as it arrives and publishes the decoded
    front to the arrival of its flight; readers copy from the owner's buffer
    under the arrival's lock.  Several fetches of one article (a retry, a hedge)
    share an arrival.  An event is one critical section of the arrival's mutex
    together with the fetch's own work before it, and events of different
    fetches and readers come in any order. *)
From Stdlib Require Import ZArith Lia Ascii String.
From stdpp Require Import prelude list strings.
From S2P Require Import Prelude GoStrings Crc32 Yenc YencInPlace.

Open Scope Z_scope.

Definition arrivalPublishStep : nat := Z.to_nat (64 * 1024).
Definition arrivalFeedStep : nat := Z.to_nat (16 * 1024).

(** Fetches are numbered; [adata] is the length of the published front, which
    lives in the owner's buffer.  The channel that wakes waiting readers is not
    part of the state. *)
Record arrival := mkArrival {
  aowner : option nat; adata : nat; astart : Z; aend : Z;
  aserved : bool; aclosed : bool; atainted : bool
}.
Definition zeroArrival : arrival := mkArrival None 0 0 0 false false false.

Definition publish (a : arrival) (f : nat) (n : nat) (start stop : Z) : bool * arrival :=
  if aclosed a || match aowner a with Some g => negb (Nat.eqb g f) | None => false end then (false, a)
  else (true, mkArrival (Some f) n start stop (aserved a) (aclosed a) (atainted a)).

Definition owns (a : arrival) (f : nat) : bool :=
  match aowner a with Some g => Nat.eqb g f | None => false end.

Definition withdraw (a : arrival) (f : nat) : arrival :=
  if negb (owns a f) then a
  else if aserved a then mkArrival (aowner a) 0 (astart a) (aend a) (aserved a) true (atainted a)
  else mkArrival None 0 (astart a) (aend a) (aserved a) (aclosed a) (atainted a).

Definition taint (a : arrival) (f : nat) : arrival :=
  if owns a f && aserved a
  then mkArrival (aowner a) (adata a) (astart a) (aend a) (aserved a) (aclosed a) true else a.

Definition isTainted (a : arrival) : bool := atainted a.

Inductive arrivalState := arrivalServed | arrivalPending | arrivalClosed | arrivalOutside.

(** copyAt into [plen] bytes, [buf] being the owner's buffer. *)
Definition copyAt (a : arrival) (buf : bytes) (pos : Z) (plen : nat) : bytes * arrivalState * arrival :=
  if aclosed a then ([], arrivalClosed, a)
  else
    match aowner a with
    | None => ([], arrivalPending, a)
    | Some _ =>
        if (pos <? astart a) || ((0 <? aend a) && (aend a <=? pos)) then ([], arrivalOutside, a)
        else if wrap_i64 (pos - astart a) <? Z.of_nat (adata a) then
          (take plen (drop (Z.to_nat (wrap_i64 (pos - astart a))) (take (adata a) buf)), arrivalServed,
           mkArrival (aowner a) (adata a) (astart a) (aend a) true (aclosed a) (atainted a))
        else ([], arrivalPending, a)
    end.

(** takeArrived: the read fails when the reader was served bytes that then
    failed; an error of the flight is the read's unless it is to be retried;
    otherwise the flight's part becomes the current article. *)
Inductive taken := TakeFailed | TakeError | TakeRetry | TakePart.
Definition takeArrived (a : arrival) (readerServed flightErr flightRetry : bool) : taken :=
  if readerServed && isTainted a then TakeFailed
  else if flightErr then (if flightRetry then TakeRetry else TakeError)
  else TakePart.

(** * Fetches *)

(** [fbuf] is the body received so far, decoded in place; [ffailed] says that
    fail has returned, [fpart] is the part of a fetch that finished. *)
Record bodyFeed := mkFeed {
  fdec : InPlaceDecoder; fbuf : bytes; flive : bool; ffed : nat; fsent : nat;
  ffailed : bool; fpart : option Part
}.
Definition newBodyFeed : bodyFeed := mkFeed zeroDecoder [] true 0 0 false None.

Definition unlive (b : bodyFeed) : bodyFeed :=
  mkFeed (fdec b) (fbuf b) false (ffed b) (fsent b) (ffailed b) (fpart b).

Definition stop (a : arrival) (f : nat) (b : bodyFeed) : arrival * bodyFeed :=
  if flive b then (withdraw a f, unlive b) else (a, b).

(** [recv] bytes have been added to the body, and the client calls Line. *)
Definition Line (a : arrival) (f : nat) (b : bodyFeed) (recv : bytes) : arrival * bodyFeed :=
  let body := fbuf b ++ recv in
  if negb (flive b) || (length body - ffed b <? arrivalFeedStep)%nat
  then (a, mkFeed (fdec b) body (flive b) (ffed b) (fsent b) (ffailed b) (fpart b))
  else
    let '(d, body') := Feed (fdec b) body in
    let b1 := mkFeed d body' (flive b) (length body) (fsent b) (ffailed b) (fpart b) in
    match Progress d with
    | None => (a, b1)
    | Some (start, end_, n) =>
        if (n - fsent b <? arrivalPublishStep)%nat then (a, b1)
        else
          match publish a f n start end_ with
          | (false, _) => stop a f b1
          | (true, a') => (a', mkFeed d body' (flive b) (length body) n (ffailed b) (fpart b))
          end
    end.

(** The two halves of fail after stop, and what Restart resets after it. *)
Definition fail_taint (a : arrival) (f : nat) (b : bodyFeed) : arrival * bodyFeed :=
  (taint a f, mkFeed (fdec b) (fbuf b) (flive b) (ffed b) (fsent b) true (fpart b)).
Definition restart (b : bodyFeed) : bodyFeed :=
  mkFeed zeroDecoder [] (flive b) 0 0 (ffailed b) (fpart b).
(** decodeArticle, once the body is complete. *)
Definition finish_feed (b : bodyFeed) : bodyFeed :=
  match Finish (fdec b) (fbuf b) with
  | Ok p => mkFeed (fdec b) (fbuf b) (flive b) (ffed b) (fsent b) (ffailed b) (Some p)
  | Err _ => b
  end.

(** * The fetches and readers of one flight *)

(** [served] lists what readers copied: from whose buffer, at which offset. *)
Record flightState := mkFlight {
  arr : arrival; feeds : list bodyFeed; served : list (nat * Z * bytes)
}.

Inductive event :=
| EFetch | ELine (f : nat) (recv : bytes) | EStop (f : nat) | EFail (f : nat) | ERestart (f : nat) | EFinish (f : nat)
| ECopy (pos : Z) (plen : nat).

(** A fetch that finished makes no further move; a body is finished, failed or
    read again only after stop. *)
Definition step (s : flightState) (ev : event) : flightState :=
  let on f (guard : bodyFeed -> bool) (k : bodyFeed -> arrival * bodyFeed) :=
    match feeds s !! f with
    | Some b =>
        if bool_decide (fpart b = None) && guard b
        then let '(a, b') := k b in mkFlight a (<[f := b']> (feeds s)) (served s)
        else s
    | None => s
    end in
  match ev with
  | EFetch => mkFlight (arr s) (feeds s ++ [newBodyFeed]) (served s)
  | ELine f recv => on f (fun _ => true) (fun b => Line (arr s) f b recv)
  | EStop f => on f (fun _ => true) (fun b => stop (arr s) f b)
  | EFail f => on f (fun b => negb (flive b)) (fun b => fail_taint (arr s) f b)
  | ERestart f => on f (fun b => negb (flive b) && ffailed b) (fun b => (arr s, restart b))
  | EFinish f => on f (fun b => negb (flive b)) (fun b => (arr s, finish_feed b))
  | ECopy pos plen =>
      match aowner (arr s) with
      | Some f =>
          match feeds s !! f with
          | Some b =>
              match copyAt (arr s) (fbuf b) pos plen with
              | (c, arrivalServed, a) => mkFlight a (feeds s) (served s ++ [(f, pos, c)])
              | _ => s
              end
          | None => s
          end
      | None => s
      end
  end.
Definition run (evs : list event) : flightState := fold_left step evs (mkFlight zeroArrival [] []).

(** * The front of a body *)

Definition lines_state (l : list bytes) : lstate := lrun lzero (map drop_cr l).

(** [s] is a state the fetch's decoder went through or is in. *)
Definition front (b : bodyFeed) (s : lstate) : Prop :=
  exists orig l1 l2, fed orig (fdec b) (fbuf b) (l1 ++ l2) /\ s = lines_state l1.

Lemma lines_state_app l1 l2 : lines_state (l1 ++ l2) = lrun (lines_state l1) (map drop_cr l2).
Proof. unfold lines_state, lrun. by rewrite map_app, fold_left_app. Qed.

Lemma front_grows b b' s :
  (forall orig l, fed orig (fdec b) (fbuf b) l -> exists orig' l', fed orig' (fdec b') (fbuf b') (l ++ l')) ->
  front b s -> front b' s.
Proof.
  intros Hg (orig & l1 & l2 & Hf & ->). destruct (Hg _ _ Hf) as (orig' & l' & Hf').
  exists orig', l1, (l2 ++ l'). by rewrite app_assoc.
Qed.

Lemma front_data b s :
  front b s -> streaming (lphase s) -> take (length (pData (lpart s))) (fbuf b) = pData (lpart s).
Proof.
  intros (orig & l1 & l2 & [(_ & _ & Hp & _) _] & ->) Hs. fold (lines_state (l1 ++ l2)) in Hp.
  rewrite lines_state_app in Hp. destruct (lrun_placed _ (map drop_cr l2) Hs) as [(_ & _ & _ & _ & _ & [k Hk]) _].
  apply (f_equal pData) in Hp. simpl in Hp. rewrite Hk in Hp.
  rewrite <- (take_drop (dw (fdec b)) (fbuf b)), Hp, <- app_assoc. apply take_app_length.
Qed.

Lemma front_finish b s start stop part :
  front b s -> streaming (lphase s) -> place_of (lpart s) = Some (start, stop) ->
  Finish (fdec b) (fbuf b) = Ok part ->
  pData (lpart s) `prefix_of` pData part /\ (pData part <> [] -> start = pBegin part - 1).
Proof.
  intros (orig & l1 & l2 & Hf & ->) Hs Hpl Hfin.
  destruct (Finish_after _ _ _ _ [] Hf) as [more HM]. rewrite app_nil_r, Hfin in HM.
  fold (lines_state (l1 ++ l2)) in HM. rewrite lines_state_app in HM. unfold lrun in HM. rewrite <- fold_left_app in HM.
  destruct (lrun_placed _ (map drop_cr l2 ++ more) Hs) as [(P1 & P2 & P3 & P4 & P5 & P6) HS].
  destruct (lfinish_Ok _ _ (eq_sym HM) HS) as [Hv ->]. rewrite normalize_Data. split; [done|].
  assert (Hpl' : place_of (lpart (lrun (lines_state l1) (map drop_cr l2 ++ more))) = Some (start, stop)).
  { unfold place_of in *. by rewrite P1, P2, P3. }
  exact (proj1 (place_normalized _ _ _ _ Hv Hpl')).
Qed.

(** Receiving and decoding more keeps every earlier front. *)
Lemma fed_more orig d body l recv :
  fed orig d body l ->
  let '(d', body') := Feed d (body ++ recv) in exists l', fed (orig ++ recv) d' body' (l ++ l').
Proof.
  intros Hf. pose proof (Feed_fed _ _ _ _ (fed_append _ _ _ _ recv Hf)) as H.
  destruct (Feed d (body ++ recv)). destruct H as (l2 & H & _). by exists l2.
Qed.

(** Every feed's decoder is in a state it was fed into. *)
Definition decoding (b : bodyFeed) : Prop := exists orig l, fed orig (fdec b) (fbuf b) l.

(** What a served copy has to do with the fetch it came from. *)
Definition copied (b : bodyFeed) (pos : Z) (c : bytes) : Prop :=
  exists s start stop, front b s /\ streaming (lphase s) /\ place_of (lpart s) = Some (start, stop) /\
    start <= pos /\ (Z.to_nat (pos - start) < length (pData (lpart s)))%nat /\
    c = take (length c) (drop (Z.to_nat (pos - start)) (pData (lpart s))).

(** [c] is what the part holds at file offset [pos]. *)
Definition matches (part : Part) (pos : Z) (c : bytes) : Prop :=
  pBegin part - 1 <= pos /\ c = take (length c) (drop (Z.to_nat (pos - (pBegin part - 1))) (pData part)).

Lemma copied_finish b pos c part :
  copied b pos c -> Finish (fdec b) (fbuf b) = Ok part -> matches part pos c.
Proof.
  intros (s & start & stop & Hf & Hs & Hpl & Hle & Hlt & Hc) Hfin.
  destruct (front_finish _ _ _ _ _ Hf Hs Hpl Hfin) as [[k Hk] Hst].
  assert (pData part <> []) as Hne by (rewrite Hk; destruct (pData (lpart s)); simpl in *; [lia|done]).
  rewrite (Hst Hne) in *. split; [done|]. rewrite Hk, drop_app_le by lia.
  assert (length c <= length (drop (Z.to_nat (pos - (pBegin part - 1))) (pData (lpart s))))%nat.
  { rewrite Hc at 1. rewrite length_take. lia. }
  rewrite take_app_le by done. exact Hc.
Qed.

(** The published front is one its owner's decoder went through. *)
Definition published (a : arrival) (b : bodyFeed) : Prop :=
  exists s, front b s /\ streaming (lphase s) /\ place_of (lpart s) = Some (astart a, aend a) /\
    adata a = length (pData (lpart s)).

Record inv (s : flightState) : Prop := {
  i_dec : Forall decoding (feeds s);
  i_idle : forall f b, feeds s !! f = Some b -> ffailed b = true \/ fpart b <> None -> flive b = false;
  i_owner : forall f, aowner (arr s) = Some f -> aclosed (arr s) = false ->
    exists b, feeds s !! f = Some b /\ flive b = true /\ published (arr s) b;
  i_served : forall f pos c, (f, pos, c) ∈ served s ->
    aowner (arr s) = Some f /\ aserved (arr s) = true /\
    exists b, feeds s !! f = Some b /\ (ffailed b = true -> atainted (arr s) = true) /\
      (atainted (arr s) = true \/ copied b pos c /\ forall part, fpart b = Some part -> matches part pos c)
}.

(** A fetch's move: what it has to keep. *)
Lemma inv_move s f b a' b' :
  inv s -> feeds s !! f = Some b -> decoding b' ->
  (ffailed b' = true \/ fpart b' <> None -> flive b' = false) ->
  (forall g, g <> f -> aowner a' = Some g -> aclosed a' = false -> a' = arr s) ->
  (aowner a' = Some f -> aclosed a' = false -> flive b' = true /\ published a' b') ->
  (forall g, aowner (arr s) = Some g -> aserved (arr s) = true -> aowner a' = Some g /\ aserved a' = true) ->
  (atainted (arr s) = true -> atainted a' = true) ->
  (aowner (arr s) = Some f -> aserved (arr s) = true ->
     (ffailed b = true -> atainted (arr s) = true) ->
     (ffailed b' = true -> atainted a' = true) /\
     forall pos c, copied b pos c -> (forall part, fpart b = Some part -> matches part pos c) ->
       atainted a' = true \/ copied b' pos c /\ forall part, fpart b' = Some part -> matches part pos c) ->
  inv (mkFlight a' (<[f := b']> (feeds s)) (served s)).
Proof.
  intros [Hd Hi Ho Hsv] Hb Hdec Hidle Hother Hown Hkeep Htaint Hmine.
  assert (Hl : (f < length (feeds s))%nat) by (by eapply lookup_lt_Some).
  assert (Hnew : <[f := b']> (feeds s) !! f = Some b') by (by apply list_lookup_insert_eq).
  constructor; cbn [feeds arr served].
  - by apply Forall_insert.
  - intros g bg Hg. destruct (decide (g = f)) as [->|Hne]; [rewrite Hnew in Hg; injection Hg as <-; exact Hidle|].
    rewrite list_lookup_insert_ne in Hg by done. exact (Hi g bg Hg).
  - intros g Hg Hc. destruct (decide (g = f)) as [->|Hne].
    + exists b'. split; [done|]. by apply Hown.
    + rewrite list_lookup_insert_ne by done. pose proof (Hother g Hne Hg Hc) as ->. exact (Ho g Hg Hc).
  - intros g pos c Hin. destruct (Hsv g pos c Hin) as (Hg & Hsd & bg & Hbg & Hfl & Hcp).
    destruct (Hkeep g Hg Hsd) as [Hg' Hs']. split; [done|]. split; [done|].
    destruct (decide (g = f)) as [->|Hne].
    + simplify_eq. exists b'. split; [done|]. destruct (Hmine Hg Hsd Hfl) as [Hm1 Hm2]. split; [done|].
      destruct Hcp as [?|[? ?]]; [left; auto|]. by apply Hm2.
    + exists bg. rewrite list_lookup_insert_ne by done. split; [done|]. split; [auto|].
      destruct Hcp as [?|?]; [left; auto|by right].
Qed.

Lemma published_grows a b b' :
  (forall s, front b s -> front b' s) -> published a b -> published a b'.
Proof. intros Hg (s & Hf & H). exists s. by split; [apply Hg|]. Qed.
Lemma copied_grows b b' pos c :
  (forall s, front b s -> front b' s) -> copied b pos c -> copied b' pos c.
Proof. intros Hg (s & start & stop & Hf & H). exists s, start, stop. by split; [apply Hg|]. Qed.

(** A move that leaves the arrival alone and forgets nothing. *)
Lemma inv_quiet s f b b' :
  inv s -> feeds s !! f = Some b -> decoding b' -> fpart b = None -> fpart b' = None ->
  ffailed b' = ffailed b -> flive b' = flive b -> (forall st, front b st -> front b' st) ->
  inv (mkFlight (arr s) (<[f := b']> (feeds s)) (served s)).
Proof.
  intros Hinv Hb Hd Hp Hp' Hfl Hlv Hg. apply inv_move with b; try done.
  - rewrite Hfl, Hp', Hlv. intros [?|?]; [|done]. apply (i_idle s Hinv f b Hb). by left.
  - intros Ho Hc. destruct (i_owner s Hinv f Ho Hc) as (b0 & Hb0 & Hl & Hpub). simplify_eq.
    split; [congruence|]. by apply published_grows with b.
  - intros _ _ Hff. rewrite Hfl, Hp'. split; [done|]. intros pos c Hc _. right. split; [by apply copied_grows with b|done].
Qed.

Lemma owns_spec a f : owns a f = true <-> aowner a = Some f.
Proof.
  unfold owns. destruct (aowner a) as [g|]; [|done]. rewrite Nat.eqb_eq. split; [by intros ->|by intros [= ->]].
Qed.

(** stop, from a fetch whose body may just have grown. *)
Lemma inv_stop s f b b1 :
  inv s -> feeds s !! f = Some b -> decoding b1 -> fpart b = None -> fpart b1 = None ->
  ffailed b1 = ffailed b -> flive b1 = flive b -> (forall st, front b st -> front b1 st) ->
  let '(a', b') := stop (arr s) f b1 in
  inv (mkFlight a' (<[f := b']> (feeds s)) (served s)).
Proof.
  intros Hinv Hb Hd Hp Hp1 Hfl Hlv Hg. unfold stop.
  destruct (flive b1) eqn:El; [|apply inv_quiet with b; done || congruence].
  assert (Hgo : forall st, front b st -> front (unlive b1) st) by (intros st Hf; by apply (Hg st)).
  apply inv_move with b; try done; unfold withdraw; destruct (owns (arr s) f) eqn:Eo; cbn; try done;
    try (apply owns_spec in Eo); try (destruct (aserved (arr s)) eqn:Es; cbn; try done).
  all: try (intros g Hne Hg' _; congruence).
  all: try (intros Ho; exfalso; assert (owns (arr s) f = true) by (by apply owns_spec); congruence).
  all: intros Ho Hs Hff; split; [rewrite Hfl; auto|]; intros pos c Hc _; right;
    split; [by apply copied_grows with b|rewrite Hp1; done].
Qed.

(** The front a decoder reports is the one it is at. *)
Lemma progress_published a b start end_ n :
  decoding b -> Progress (fdec b) = Some (start, end_, n) ->
  astart a = start -> aend a = end_ -> adata a = n -> published a b.
Proof.
  intros (orig & l & Hf) Hp Ha He Hn. unfold published. rewrite Ha, He, Hn. exists (lines_state l).
  destruct (Progress_place _ _ _ _ Hp) as (Hs & Hpl & ->).
  destruct (fed_lengths _ _ _ _ Hf) as (Hlen & _ & Hpos).
  pose proof Hf as [(Hph & _ & Hpart & _ & Hw & _) _]. fold (lines_state l) in *.
  split; [exists orig, l, []; by rewrite app_nil_r|]. split; [by rewrite <- Hph|].
  rewrite <- Hpart. split; [done|]. simpl. rewrite length_take. lia.
Qed.

Lemma inv_line s f b recv :
  inv s -> feeds s !! f = Some b -> fpart b = None ->
  let '(a', b') := Line (arr s) f b recv in
  inv (mkFlight a' (<[f := b']> (feeds s)) (served s)).
Proof.
  intros Hinv Hb Hp. pose proof (Forall_lookup_1 _ _ _ _ (i_dec s Hinv) Hb) as (orig & l & Hd). unfold Line.
  case_if.
  { apply inv_quiet with b; try done.
    - exists (orig ++ recv), l. by apply fed_append.
    - intros st. apply front_grows. intros o ls Hf. exists (o ++ recv), []. rewrite app_nil_r. by apply fed_append. }
  pose proof (fed_more orig (fdec b) (fbuf b) l recv Hd) as Hm.
  assert (Hfront : forall st b1, front b st ->
    (fdec b1, fbuf b1) = Feed (fdec b) (fbuf b ++ recv) -> front b1 st).
  { intros st b1 Hst E1. revert Hst. apply front_grows. intros o ls Hf. pose proof (fed_more o _ _ ls recv Hf) as Ho.
    rewrite <- E1 in Ho. destruct Ho as [l' Ho]. by exists (o ++ recv), l'. }
  destruct (Feed (fdec b) (fbuf b ++ recv)) as [d body']. destruct Hm as [l' Hm].
  assert (Hdec : forall b1, fdec b1 = d -> fbuf b1 = body' -> decoding b1).
  { intros b1 <- <-. by exists (orig ++ recv), (l ++ l'). }
  destruct (Progress d) as [[[start end_] n]|] eqn:Ep.
  2:{ apply inv_quiet with b; try done; [by apply Hdec|]. intros st Hst. by apply (Hfront st). }
  case_if; [apply inv_quiet with b; try done; [by apply Hdec|]; intros st Hst; by apply (Hfront st)|].
  unfold publish. destruct (aclosed (arr s) || _) eqn:Ec.
  { apply inv_stop with b; try done; [by apply Hdec|]. intros st Hst. by apply (Hfront st). }
  apply orb_false_iff in Ec as [Ec Eo].
  assert (Hown : forall g, aowner (arr s) = Some g -> g = f).
  { intros g Hg. rewrite Hg in Eo. bprop. done. }
  apply inv_move with b; cbn; try done; try (by apply Hdec).
  - rewrite Hp. intros [?|?]; [|done]. apply (i_idle s Hinv f b Hb). by left.
  - intros g Hne [= <-]. done.
  - intros _ _. apply orb_false_iff in E as [E _]. bprop. split; [done|].
    apply (progress_published _ _ start end_ n); [by apply Hdec|done..].
  - intros g Hg Hs. by rewrite (Hown g Hg).
  - intros _ _ Hff. split; [done|]. intros pos c Hc _. right. split; [|by rewrite Hp].
    revert Hc. apply copied_grows. intros st Hst. by apply (Hfront st).
Qed.

Lemma inv_fail s f b :
  inv s -> feeds s !! f = Some b -> fpart b = None -> flive b = false ->
  let '(a', b') := fail_taint (arr s) f b in
  inv (mkFlight a' (<[f := b']> (feeds s)) (served s)).
Proof.
  intros Hinv Hb Hp Hl. pose proof (Forall_lookup_1 _ _ _ _ (i_dec s Hinv) Hb) as Hd.
  assert (Hclosed : aowner (arr s) = Some f -> aclosed (arr s) = true).
  { intros Ho. destruct (aclosed (arr s)) eqn:Ec; [done|]. destruct (i_owner s Hinv f Ho Ec) as (b0 & ? & ? & _). congruence. }
  unfold fail_taint. apply inv_move with b; cbn; try done; unfold taint; destruct (owns (arr s) f && aserved (arr s)) eqn:E; cbn; try done.
  all: try (apply andb_prop in E as [E Es]; apply owns_spec in E).
  - intros g Hne Hg. congruence.
  - intros Ho Hc. rewrite (Hclosed Ho) in Hc. done.
  - intros Ho Hc. rewrite (Hclosed Ho) in Hc. done.
  - intros _ _ _. split; [done|]. intros. by left.
  - intros Ho Hs _. apply owns_spec in Ho. rewrite Ho, Hs in E. done.
Qed.

Lemma inv_restart s f b :
  inv s -> feeds s !! f = Some b -> fpart b = None -> flive b = false -> ffailed b = true ->
  inv (mkFlight (arr s) (<[f := restart b]> (feeds s)) (served s)).
Proof.
  intros Hinv Hb Hp Hl Hf. apply inv_move with b; cbn; try done.
  - exists [], []. apply fed_zero.
  - intros Ho Hc. destruct (i_owner s Hinv f Ho Hc) as (b0 & ? & ? & _). congruence.
  - intros _ _ Hff. split; [done|]. intros. left. auto.
Qed.

Lemma inv_finish s f b :
  inv s -> feeds s !! f = Some b -> fpart b = None -> flive b = false ->
  inv (mkFlight (arr s) (<[f := finish_feed b]> (feeds s)) (served s)).
Proof.
  intros Hinv Hb Hp Hl. pose proof (Forall_lookup_1 _ _ _ _ (i_dec s Hinv) Hb) as Hd.
  unfold finish_feed. destruct (Finish (fdec b) (fbuf b)) as [part|] eqn:E; [|by apply inv_quiet with b].
  apply inv_move with b; cbn; try done.
  - intros Ho Hc. destruct (i_owner s Hinv f Ho Hc) as (b0 & ? & ? & _). congruence.
  - intros _ _ Hff. split; [done|]. intros pos c Hc _. right. split; [done|].
    intros part' [= <-]. by apply copied_finish with b.
Qed.

Lemma place_nonneg p start stop : place_of p = Some (start, stop) -> 0 <= start.
Proof. unfold place_of. intros H. repeat case_if_in H; simplify_eq; bprop; lia. Qed.

(** A copy takes the owner's bytes at the position, and the owner is live. *)
Lemma copy_copied a b pos plen c a' :
  published a b -> pos <= i64_max -> copyAt a (fbuf b) pos plen = (c, arrivalServed, a') ->
  copied b pos c /\ aclosed a = false /\
  a' = mkArrival (aowner a) (adata a) (astart a) (aend a) true (aclosed a) (atainted a).
Proof.
  intros (s & Hf & Hs & Hpl & Hn) Hpos. unfold copyAt. pose proof (place_nonneg _ _ _ Hpl).
  destruct (aclosed a) eqn:Ec; [done|]. destruct (aowner a); [|done]. case_if; [done|].
  apply orb_false_iff in E as [E _]. bprop.
  rewrite wrap_i64_id by (unfold is_i64, i64_min, i64_max in *; lia). case_if; [|done]. bprop.
  intros [= <- <-]. split; [|done]. rewrite Hn, (front_data b s Hf Hs) in *.
  exists s, (astart a), (aend a). do 4 (split; [done|]). split; [lia|].
  rewrite length_take, length_drop. destruct (decide (plen <= length (pData (lpart s)) - Z.to_nat (pos - astart a))%nat).
  - f_equal. lia.
  - rewrite !take_ge; rewrite ?length_drop; lia || done.
Qed.

Lemma inv_copy s f b pos plen c a' :
  inv s -> aowner (arr s) = Some f -> feeds s !! f = Some b -> pos <= i64_max ->
  copyAt (arr s) (fbuf b) pos plen = (c, arrivalServed, a') ->
  inv (mkFlight a' (feeds s) (served s ++ [(f, pos, c)])).
Proof.
  intros Hinv Ho Hb Hpos Hc.
  assert (Hcl : aclosed (arr s) = false) by (unfold copyAt in Hc; by destruct (aclosed (arr s))).
  destruct (i_owner s Hinv f Ho Hcl) as (b0 & Hb0 & Hl & Hpub). rewrite Hb0 in Hb. injection Hb as ->.
  destruct (copy_copied _ _ _ _ _ _ Hpub Hpos Hc) as (Hcp & _ & ->).
  assert (Hidle : ffailed b = true \/ fpart b <> None -> False).
  { intros Hx. rewrite (i_idle s Hinv f b Hb0 Hx) in Hl. done. }
  destruct Hinv as [Hd Hi How Hsv]. constructor; cbn; try done.
  intros g p c' Hin. apply elem_of_app in Hin as [Hin|Hin].
  - destruct (Hsv g p c' Hin) as (? & ? & Hx). done.
  - apply list_elem_of_singleton in Hin as [= -> -> ->]. split; [done|]. split; [done|]. exists b. split; [done|].
    split; [intros ?; exfalso; auto|]. right. split; [done|]. intros part Hp. exfalso. apply Hidle. right. congruence.
Qed.

Definition in_range (ev : event) : Prop := match ev with ECopy pos _ => pos <= i64_max | _ => True end.

Lemma step_inv s ev : in_range ev -> inv s -> inv (step s ev).
Proof.
  intros Hr Hinv. destruct ev as [|f recv|f|f|f|f|pos plen]; cbn [step].
  - destruct Hinv as [Hd Hi Ho Hsv]. constructor; cbn.
    + apply Forall_app. split; [done|]. apply Forall_singleton. exists [], []. apply fed_zero.
    + intros g b Hg. apply lookup_app_Some in Hg as [Hg|[_ Hg]]; [by apply Hi with g|].
      apply list_lookup_singleton_Some in Hg as [_ <-]. cbn. intros [?|?]; done.
    + intros g Hg Hc. destruct (Ho g Hg Hc) as (b & Hb & Hx). exists b. by rewrite (lookup_app_l_Some _ _ _ _ Hb).
    + intros g p c Hin. destruct (Hsv g p c Hin) as (? & ? & b & Hb & Hx). split; [done|]. split; [done|].
      exists b. by rewrite (lookup_app_l_Some _ _ _ _ Hb).
  - destruct (feeds s !! f) as [b|] eqn:Eb; [|done]. case_bool_decide as Ep; cbn; [|done].
    pose proof (inv_line s f b recv Hinv Eb Ep). by destruct (Line _ _ _ _).
  - destruct (feeds s !! f) as [b|] eqn:Eb; [|done]. case_bool_decide as Ep; cbn; [|done].
    pose proof (inv_stop s f b b Hinv Eb (Forall_lookup_1 _ _ _ _ (i_dec s Hinv) Eb) Ep Ep eq_refl eq_refl (fun _ h => h)).
    by destruct (stop _ _ _).
  - destruct (feeds s !! f) as [b|] eqn:Eb; [|done]. case_bool_decide as Ep; cbn; [|done].
    destruct (flive b) eqn:El; [done|]. pose proof (inv_fail s f b Hinv Eb Ep El) as Hf.
    unfold fail_taint in Hf. by rewrite El in Hf.
  - destruct (feeds s !! f) as [b|] eqn:Eb; [|done]. case_bool_decide as Ep; cbn; [|done].
    destruct (flive b) eqn:El; [done|]. destruct (ffailed b) eqn:Ef; [|done]. by apply inv_restart.
  - destruct (feeds s !! f) as [b|] eqn:Eb; [|done]. case_bool_decide as Ep; cbn; [|done].
    destruct (flive b) eqn:El; [done|]. by apply inv_finish.
  - destruct (aowner (arr s)) as [f|] eqn:Eo; [|done]. destruct (feeds s !! f) as [b|] eqn:Eb; [|done].
    destruct (copyAt _ _ _ _) as [[c []] a'] eqn:Ec; try done. by apply (inv_copy s f b pos plen).
Qed.

Lemma run_inv evs : Forall in_range evs -> inv (run evs).
Proof.
  unfold run. cut (forall s, inv s -> Forall in_range evs -> inv (fold_left step evs s)).
  { intros H Hr. apply H; [|done]. constructor; cbn; try done. intros f pos c Hin. by apply elem_of_nil in Hin. }
  induction evs as [|ev evs IH]; intros s Hs Hr; [done|]. inversion Hr; subst. cbn. apply IH; [by apply step_inv|done].
Qed.

(** * Claims *)

(** C12: What is served early is what the article holds.  However fetches,
    retries and readers interleave, every byte served from one arriving article
    comes from the buffer of a single fetch, copied while that fetch was still
    receiving; and when that fetch completes and verifies its part, and the
    arrival was not tainted, the bytes served are the part's bytes at that file
    offset. *)
Theorem early_bytes_verified evs :
  Forall in_range evs ->
  let s := run evs in
  (forall f pos c g pos' c', (f, pos, c) ∈ served s -> (g, pos', c') ∈ served s -> f = g) /\
  (forall f, aowner (arr s) = Some f -> aclosed (arr s) = false -> exists b, feeds s !! f = Some b /\ flive b = true) /\
  (forall f pos c b part, (f, pos, c) ∈ served s -> feeds s !! f = Some b -> fpart b = Some part ->
     isTainted (arr s) = false -> matches part pos c).
Proof.
  intros Hr s. subst s. pose proof (run_inv evs Hr) as Hinv. split; [|split].
  - intros f pos c g pos' c' H1 H2. destruct (i_served _ Hinv _ _ _ H1) as [Ho1 _].
    destruct (i_served _ Hinv _ _ _ H2) as [Ho2 _]. congruence.
  - intros f Ho Hc. destruct (i_owner _ Hinv f Ho Hc) as (b & ? & ? & _). by exists b.
  - intros f pos c b part Hin Hb Hp Ht. destruct (i_served _ Hinv _ _ _ Hin) as (_ & _ & b' & Hb' & _ & [?|[_ Hm]]).
    + unfold isTainted in Ht. congruence.
    + rewrite Hb in Hb'. injection Hb' as <-. by apply Hm.
Qed.

(** A read does not go on past bytes that failed.  Once a fetch whose
    front was served has failed, its arrival is tainted, so the reader that was
    served gets an error when it takes the article, whatever the flight
    delivered. *)
Lemma failed_front_fails_read evs f pos c b :
  Forall in_range evs ->
  (f, pos, c) ∈ served (run evs) -> feeds (run evs) !! f = Some b -> ffailed b = true ->
  forall flightErr flightRetry, takeArrived (arr (run evs)) true flightErr flightRetry = TakeFailed.
Proof.
  intros Hr Hin Hb Hf e r. destruct (i_served _ (run_inv evs Hr) _ _ _ Hin) as (_ & _ & b' & Hb' & Ht & _).
  rewrite Hb in Hb'. injection Hb' as <-. unfold takeArrived, isTainted. by rewrite (Ht Hf).
Qed.

(** A served front may escape verification.  When a fetch withdraws
    without having served anyone and a second, racing fetch publishes before
    the first one's flight completes, a reader is served from the second; the
    flight's part is then taken without an error, and only afterwards can the
    second fetch fail. *)
Lemma hedge_front_unverified first second n start stop data pos plen :
  first <> second -> 0 <= start <= pos -> pos - start < Z.of_nat n -> pos < stop <= i64_max ->
  let a0 := snd (publish zeroArrival first n start stop) in
  let a1 := withdraw a0 first in
  let '(ok, a2) := publish a1 second n start stop in
  let '(c, st, a3) := copyAt a2 data pos plen in
  ok = true /\ st = arrivalServed /\ c = take plen (drop (Z.to_nat (pos - start)) (take n data)) /\
  takeArrived a3 true false false = TakePart /\ isTainted (taint (withdraw a3 second) second) = true.
Proof.
  intros Hne Hs Hn Hp. cbn. unfold withdraw, owns. cbn. rewrite Nat.eqb_refl. cbn. unfold copyAt. cbn.
  replace (pos <? start) with false by (symmetry; apply Z.ltb_ge; lia).
  replace (stop <=? pos) with false by (symmetry; apply Z.leb_gt; lia). rewrite andb_false_r. cbn.
  rewrite wrap_i64_id by (unfold is_i64, i64_min, i64_max in *; lia).
  replace (pos - start <? Z.of_nat n) with true by (symmetry; apply Z.ltb_lt; lia).
  split; [done|]. split; [done|]. split; [done|]. split; [done|].
  unfold taint, owns. cbn. rewrite !Nat.eqb_refl. cbn. by rewrite Nat.eqb_refl.
Qed.

(** * An article served while it arrives *)

(** A single-part article of 64 KiB in one line, up to its trailer. *)
Definition demo_header : bytes := str "=ybegin line=128 size=65536 name=x".
Definition demo_trailer : bytes := str "=yend size=65536".
Definition demo_front (n : nat) : bytes := demo_header ++ LF :: replicate n 42 ++ [LF].
Definition demo_state (n : nat) : lstate := mkL inData zeroEnv (mkPart [120] 0 0 0 0 65536 0 (replicate n 0)).

Lemma demo_split n rest : split_lines (demo_front n ++ rest) = [demo_header; replicate n 42] ++ split_lines rest.
Proof.
  unfold demo_front. rewrite <- app_assoc. cbn [app]. rewrite split_lines_cons.
  2:{ apply (bool_decide_unpack _). vm_compute. exact I. }
  rewrite <- app_assoc. cbn [app]. rewrite split_lines_cons; [done|].
  intros H. by apply elem_of_replicate in H as [H _].
Qed.

Lemma demo_lines n : (0 < n)%nat -> lines_state [demo_header; replicate n 42] = demo_state n.
Proof.
  intros Hn. unfold lines_state, lrun. cbn [map fold_left]. rewrite drop_cr_replicate.
  replace (lstep lzero (drop_cr demo_header)) with (mkL afterBegin zeroEnv (mkPart [120] 0 0 0 0 65536 0 []))
    by (vm_compute; reflexivity).
  unfold lstep. cbn [lphase lenv lpart]. destruct n as [|n]; [lia|].
  change (has_prefix (str "=ypart ") (replicate (S n) 42)) with false.
  change (has_prefix (str "=yend ") (replicate (S n) 42)) with false.
  unfold append_data, decodeLine. by rewrite decode_line_replicate.
Qed.

(** The decoder after the front: where it is and what it decoded. *)
Lemma demo_fed n :
  (0 < n)%nat ->
  exists d body, Feed zeroDecoder (demo_front n) = (d, body) /\
    fed (demo_front n) d body [demo_header; replicate n 42] /\
    Progress d = Some (0, 65536, n) /\ take n body = replicate n 0 /\ length body = length (demo_front n).
Proof.
  intros Hn. pose proof (Feed_fed _ _ _ _ (fed_zero (demo_front n))) as HF.
  destruct (Feed zeroDecoder (demo_front n)) as [d body]. destruct HF as (l2 & HF & Hno).
  exists d, body. split; [done|]. destruct (fed_lengths _ _ _ _ HF) as (Hlen & _ & Hpos).
  assert (Hend : drop (dpos d) (demo_front n) = []).
  { destruct (decide (dpos d < length (demo_front n))%nat) as [Hlt|]; [|apply drop_ge; lia]. exfalso. apply Hno.
    assert (HX : demo_front n = (demo_header ++ LF :: replicate n 42) ++ [LF]) by (unfold demo_front; by rewrite <- app_assoc).
    rewrite HX in Hlt |- *. rewrite length_app in Hlt. cbn [length] in Hlt.
    rewrite drop_app_le by lia. apply elem_of_app. right. by apply list_elem_of_singleton. }
  assert (l2 = [demo_header; replicate n 42]) as ->.
  { destruct HF as [_ Hl]. specialize (Hl []). rewrite demo_split, Hend in Hl. simpl in Hl. by rewrite app_nil_r in Hl. }
  split; [done|]. destruct HF as [(Hph & _ & Hpart & _ & Hw & _) _].
  fold (lines_state ([] ++ [demo_header; replicate n 42])) in Hph, Hpart. cbn [app] in Hph, Hpart.
  rewrite demo_lines in Hph, Hpart by done.
  assert (Hd : take (dw d) body = replicate n 0) by (by apply (f_equal pData) in Hpart).
  assert (Hdw : dw d = n).
  { apply (f_equal length) in Hd. rewrite length_take, length_replicate in Hd. lia. }
  split; [|split; [by rewrite <- Hdw at 1|done]].
  unfold Progress. rewrite Hph. cbn [demo_state lphase].
  pose proof (f_equal pBegin Hpart) as H1. pose proof (f_equal pEnd Hpart) as H2. pose proof (f_equal pSize Hpart) as H3.
  simpl in H1, H2, H3. rewrite H1, H2, H3, Hdw. done.
Qed.

Lemma demo_size : Z.of_nat arrivalPublishStep = 65536.
Proof. unfold arrivalPublishStep. by rewrite Z2Nat.id. Qed.
Lemma demo_steps : (arrivalFeedStep <= arrivalPublishStep)%nat /\ (100 <= arrivalFeedStep)%nat.
Proof.
  split; [apply Z2Nat.inj_le; done|]. apply Nat2Z.inj_le. unfold arrivalFeedStep. rewrite Z2Nat.id; done.
Qed.

Abbreviation demo_n := arrivalPublishStep.
#[global] Opaque arrivalPublishStep arrivalFeedStep.

(** The first line event publishes all of it. *)
Lemma demo_published :
  exists d body, Line zeroArrival 0 newBodyFeed (demo_front demo_n) =
    (mkArrival (Some 0%nat) demo_n 0 65536 false false false,
     mkFeed d body true (length body) demo_n false None) /\
    fed (demo_front demo_n) d body [demo_header; replicate demo_n 42] /\ take demo_n body = replicate demo_n 0.
Proof.
  pose proof demo_steps as [Hs1 Hs2]. destruct (demo_fed demo_n ltac:(lia)) as (d & body & Hf & Hfed & Hp & Ht & Hl).
  exists d, body. split; [|split; [exact Hfed|exact Ht]]. unfold Line. cbn [newBodyFeed fbuf flive ffed fdec fsent ffailed fpart app negb].
  assert (length (demo_front demo_n) - 0 <? arrivalFeedStep = false)%nat as ->.
  { apply Nat.ltb_ge. unfold demo_front. rewrite length_app. simpl. rewrite length_app, length_replicate. lia. }
  cbn [orb]. rewrite Hf, Hp. rewrite Nat.sub_0_r, Nat.ltb_irrefl. cbn [publish zeroArrival aclosed aowner orb]. by rewrite Hl.
Qed.

Definition demo_copy : list event := [EFetch; ELine 0 (demo_front demo_n); ECopy 5 3].

(** A reader is served three bytes while the fetch is still receiving. *)
Lemma demo_served :
  exists d body, run demo_copy =
    mkFlight (mkArrival (Some 0%nat) demo_n 0 65536 true false false)
      [mkFeed d body true (length body) demo_n false None] [(0%nat, 5, [0; 0; 0])] /\
    fed (demo_front demo_n) d body [demo_header; replicate demo_n 42].
Proof.
  destruct demo_published as (d & body & Hl & Hfed & Ht). exists d, body. split; [|exact Hfed].
  pose proof demo_steps as [Hs1 Hs2]. unfold run, demo_copy. cbn [fold_left].
  change (step (mkFlight zeroArrival [] []) EFetch) with (mkFlight zeroArrival [newBodyFeed] []).
  assert (E : step (mkFlight zeroArrival [newBodyFeed] []) (ELine 0 (demo_front demo_n)) =
    mkFlight (mkArrival (Some 0%nat) demo_n 0 65536 false false false)
      [mkFeed d body true (length body) demo_n false None] []).
  { cbn [step feeds lookup list_lookup]. rewrite bool_decide_true by reflexivity. cbn [andb arr].
    by rewrite Hl. }
  rewrite E. cbn [step arr aowner feeds lookup list_lookup fbuf]. unfold copyAt.
  cbn [aclosed aowner astart aend adata aserved atainted].
  change (wrap_i64 (5 - 0)) with 5. change ((5 <? 0) || ((0 <? 65536) && (65536 <=? 5))) with false. cbn iota.
  rewrite (proj2 (Z.ltb_lt 5 (Z.of_nat demo_n))) by lia.
  rewrite Ht, drop_replicate, take_replicate. replace (Nat.min 3 (demo_n - Z.to_nat 5)) with 3%nat by lia. reflexivity.
Qed.

Definition demo_complete : list event := demo_copy ++ [ELine 0 demo_trailer; EStop 0; EFinish 0].
Definition demo_broken : list event := demo_copy ++ [EStop 0; EFail 0].

(** The events of a single fetch, one at a time. *)
Lemma step_line a b sv recv : fpart b = None ->
  step (mkFlight a [b] sv) (ELine 0 recv) = let '(a', b') := Line a 0 b recv in mkFlight a' [b'] sv.
Proof. intros Hp. unfold step. cbn [feeds lookup list_lookup arr]. by rewrite bool_decide_true. Qed.
Lemma step_stop a b sv : fpart b = None ->
  step (mkFlight a [b] sv) (EStop 0) = let '(a', b') := stop a 0 b in mkFlight a' [b'] sv.
Proof. intros Hp. unfold step. cbn [feeds lookup list_lookup arr]. by rewrite bool_decide_true. Qed.
Lemma step_finish a b sv : fpart b = None -> flive b = false ->
  step (mkFlight a [b] sv) (EFinish 0) = mkFlight a [finish_feed b] sv.
Proof. intros Hp Hl. unfold step. cbn [feeds lookup list_lookup arr]. by rewrite bool_decide_true, Hl. Qed.
Lemma step_fail a b sv : fpart b = None -> flive b = false ->
  step (mkFlight a [b] sv) (EFail 0) = let '(a', b') := fail_taint a 0 b in mkFlight a' [b'] sv.
Proof. intros Hp Hl. unfold step. cbn [feeds lookup list_lookup arr]. by rewrite bool_decide_true, Hl. Qed.

Lemma demo_finish d body :
  fed (demo_front demo_n) d body [demo_header; replicate demo_n 42] ->
  Finish d (body ++ demo_trailer) = Ok (normalizeSinglePart (mkPart [120] 0 0 0 0 65536 0 (replicate demo_n 0))).
Proof.
  intros Hfed. pose proof demo_steps as [Hs1 Hs2].
  rewrite (Finish_lines _ _ _ _ (fed_append _ _ _ _ demo_trailer Hfed)), demo_split.
  change (split_lines demo_trailer) with [demo_trailer]. fold (lines_state ([demo_header; replicate demo_n 42] ++ [demo_trailer])).
  rewrite lines_state_app, demo_lines by lia. unfold lrun. cbn [map fold_left].
  assert (Hst : forall x, lstep (mkL inData zeroEnv (mkPart [120] 0 0 0 0 65536 0 x)) (drop_cr demo_trailer) =
    mkL phaseEnded (mkEnv true false false 65536 0 None) (mkPart [120] 0 0 0 0 65536 0 x)) by (intros x; vm_compute; reflexivity).
  unfold demo_state. rewrite Hst. unfold lfinish, validate. cbn [lphase lenv lpart eerr ended negb elength pData].
  by rewrite length_replicate, demo_size.
Qed.

(** The article completes and verifies. *)
Lemma demo_completed :
  exists b part, feeds (run demo_complete) !! 0%nat = Some b /\ fpart b = Some part /\
    (0%nat, 5, [0; 0; 0]) ∈ served (run demo_complete) /\ isTainted (arr (run demo_complete)) = false.
Proof.
  destruct demo_served as (d & body & Hrun & Hfed). pose proof demo_steps as [Hs1 Hs2].
  unfold run, demo_complete. rewrite fold_left_app. fold (run demo_copy). rewrite Hrun. cbn [fold_left].
  rewrite step_line by reflexivity. unfold Line. cbn [fbuf flive ffed fdec fsent ffailed fpart negb orb].
  rewrite length_app.
  assert ((length body + length demo_trailer - length body <? arrivalFeedStep)%nat = true) as ->
    by (apply Nat.ltb_lt; change (length demo_trailer) with 16%nat; lia).
  rewrite step_stop by reflexivity. unfold stop, unlive, withdraw, owns. cbn [flive aowner Nat.eqb negb aserved fdec fbuf ffed fsent ffailed fpart].
  rewrite step_finish by reflexivity. unfold finish_feed. cbn [fdec fbuf flive ffed fsent ffailed]. rewrite (demo_finish d body Hfed).
  eexists _, _. split; [reflexivity|]. split; [reflexivity|]. split; [by apply list_elem_of_singleton|reflexivity].
Qed.

(** The article breaks off after the reader was served. *)
Lemma demo_failed :
  exists b, feeds (run demo_broken) !! 0%nat = Some b /\ ffailed b = true /\
    (0%nat, 5, [0; 0; 0]) ∈ served (run demo_broken).
Proof.
  destruct demo_served as (d & body & Hrun & _). unfold run, demo_broken. rewrite fold_left_app. fold (run demo_copy).
  rewrite Hrun. cbn [fold_left]. rewrite step_stop by reflexivity.
  unfold stop, unlive, withdraw, owns. cbn [flive aowner Nat.eqb negb aserved fdec fbuf ffed fsent ffailed fpart].
  rewrite step_fail by reflexivity. unfold fail_taint. eexists. split; [reflexivity|]. split; [reflexivity|].
  by apply list_elem_of_singleton.
Qed.

Lemma demo_in_range : Forall in_range demo_complete /\ Forall in_range demo_broken.
Proof. split; repeat constructor; vm_compute; discriminate. Qed.

Lemma early_bytes_verified_witness :
  exists b part, feeds (run demo_complete) !! 0%nat = Some b /\ fpart b = Some part /\ matches part 5 [0; 0; 0].
Proof.
  destruct demo_completed as (b & part & Hb & Hp & Hin & Ht). exists b, part. split; [exact Hb|]. split; [exact Hp|].
  exact (proj2 (proj2 (early_bytes_verified demo_complete (proj1 demo_in_range))) 0%nat 5 [0; 0; 0] b part Hin Hb Hp Ht).
Defined.

Lemma failed_front_fails_read_witness : takeArrived (arr (run demo_broken)) true false false = TakeFailed.
Proof.
  destruct demo_failed as (b & Hb & Hf & Hin).
  exact (failed_front_fails_read demo_broken 0 5 [0; 0; 0] b (proj2 demo_in_range) Hin Hb Hf false false).
Defined.

Lemma hedge_front_unverified_witness :
  let a1 := withdraw (snd (publish zeroArrival 0 4 0 10)) 0 in
  let '(ok, a2) := publish a1 1 4 0 10 in
  let '(c, st, a3) := copyAt a2 [1; 2; 3; 4; 5] 1 2 in
  ok = true /\ st = arrivalServed /\ c = [2; 3] /\
  takeArrived a3 true false false = TakePart /\ isTainted (taint (withdraw a3 1) 1) = true.
Proof.
  apply (hedge_front_unverified 0 1 4 0 10 [1; 2; 3; 4; 5] 1 2); [discriminate|lia|lia|].
  vm_compute. split; [reflexivity|discriminate].
Defined.
