(* ===== verification/Reader.v ===== *)
(** The streaming reader: internal/usenet/stream/reader.go.

    A reader is used by one goroutine, so its methods are state-passing
    functions.  The article cache and the network behind it are an interface,
    [ArticleSource]: a load answers with a decoded part or fails, a wait for an
    arriving article ends in one of the ways readArriving's loop ends, and both
    may answer differently each time.  How an arriving article is served is the
    subject of Arrival.  Read-ahead and idle bookkeeping do not change what a
    Read returns and are left out. *)
From Stdlib Require Import ZArith Lia.
From stdpp Require Import prelude list gmap sorting.
From S2P Require Import Prelude Yenc Nzb OffsetIndex.

Open Scope Z_scope.

Inductive rderr :=
| EndOfFile | Precedes (off : Z) | NotLocated (off : Z) | OutsideArticle (off : Z)
| ContextEnded | LoadFailed (why : N) | EstablishSize (why : rderr) | BadWhence (w : Z) | NegativePosition.

(** How a wait for the article at the read position ends: it is not there to be
    served early, it became the current article, some of it was served, or the
    read fails. *)
Inductive arrived := NotArriving | Became (part : Part) | Served (b : bytes) | ArriveFailed (why : N).

(** CacheScope.load and the wait of readArriving as the reader uses them: the
    [n]-th call, for a message ID, at a position and buffer size. *)
Class ArticleSource := {
  load : nat -> bytes -> result N Part;
  arriving : nat -> bytes -> Z -> nat -> arrived
}.

(** [rcur] is the article held with its message ID, [rcalls] the loads so far. *)
Record Reader := mkReader {
  rix : OffsetIndex; rpos : Z; rcur : option (bytes * Part); rclosed : bool; rcalls : nat
}.

Definition openReader (ix : OffsetIndex) : Reader := mkReader ix 0 None false 0.

Definition maxLocateFetches : nat := 16.

Definition set_ix (r : Reader) (ix : OffsetIndex) : Reader :=
  mkReader ix (rpos r) (rcur r) (rclosed r) (rcalls r).
Definition set_pos (r : Reader) (p : Z) : Reader :=
  mkReader (rix r) p (rcur r) (rclosed r) (rcalls r).

(** The segment's message ID; callers keep the index in range. *)
Definition segment_id (ix : OffsetIndex) (i : nat) : bytes :=
  match segs ix !! i with Some s => sMessageID s | None => [] end.

(** -1 before the part, 1 at or after its end, 0 inside. *)
Definition classifyOffset (pos : Z) (part : Part) : Z :=
  if pos <? wrap_i64 (pBegin part - 1) then -1
  else if pEnd part <=? pos then 1
  else 0.

Definition nextCandidate (ix : OffsetIndex) (pos : Z) (from n : nat) (dir : Z) (tried : gset nat)
  : result rderr nat :=
  let step :=
    if dir <? 0 then
      if Nat.eqb from 0 then Err (Precedes pos) else Ok (from - 1)%nat
    else if (n - 1 <=? from)%nat then Err EndOfFile
    else Ok (from + 1)%nat in
  match Locate ix pos with
  | Some (seg, _, _) =>
      if negb (bool_decide (seg ∈ tried)) &&
         (((0 <? dir) && (from <? seg)%nat) || ((dir <? 0) && (seg <? from)%nat))
      then Ok seg else step
  | None => step
  end.

Section Reader.
Context `{ArticleSource}.

Definition fetchArticle (r : Reader) (segIdx : nat) : result rderr Part * Reader :=
  let id := segment_id (rix r) segIdx in
  let fetch :=
    if rclosed r then (Err ContextEnded, r)
    else
      match load (rcalls r) id with
      | Ok part => (Ok part, mkReader (rix r) (rpos r) (Some (id, part)) (rclosed r) (S (rcalls r)))
      | Err e => (Err (LoadFailed e), mkReader (rix r) (rpos r) (rcur r) (rclosed r) (S (rcalls r)))
      end in
  match rcur r with
  | Some (curID, cur) => if bool_decide (curID = id) then (Ok cur, r) else fetch
  | None => fetch
  end.

(** The loop of articleForOffset; [fuel] counts the fetches that are left. *)
Fixpoint locate_loop (fuel : nat) (r : Reader) (pos : Z) (n segIdx : nat) (tried : gset nat)
  : result rderr (Part * nat) * Reader :=
  match fuel with
  | O => (Err (NotLocated pos), r)
  | S fuel' =>
      match fetchArticle r segIdx with
      | (Err e, r1) => (Err e, r1)
      | (Ok part, r1) =>
          let r2 := set_ix r1 (Observe (rix r1) (Z.of_nat segIdx) (Some part)) in
          let dir := classifyOffset pos part in
          if dir =? 0 then (Ok (part, segIdx), r2)
          else
            let tried' := {[segIdx]} ∪ tried in
            match nextCandidate (rix r2) pos segIdx n dir tried' with
            | Err e => (Err e, r2)
            | Ok next => locate_loop fuel' r2 pos n next tried'
            end
      end
  end.
Definition articleForOffset (r : Reader) (pos : Z) : result rderr (Part * nat) * Reader :=
  let n := SegmentCount (rix r) in
  if Nat.eqb n 0 then (Err EndOfFile, r)
  else
    match Locate (rix r) pos with
    | None => (Err EndOfFile, r)
    | Some (segIdx, _, _) => locate_loop maxLocateFetches r pos n segIdx ∅
    end.

(** Whether the current article covers [pos]. *)
Definition holds (r : Reader) (pos : Z) : bool :=
  match rcur r with
  | Some (_, cur) =>
      (wrap_i64 (pBegin cur - 1) <=? pos) &&
      (pos <? wrap_i64 (wrap_i64 (pBegin cur - 1) + Z.of_nat (length (pData cur))))
  | None => false
  end.

(** [None]: the read is left to articleForOffset. *)
Definition readArriving (r : Reader) (plen : nat) : option (bytes * option rderr) * Reader :=
  if holds r (rpos r) then (None, r)
  else
    match Locate (rix r) (rpos r) with
    | None => (None, r)
    | Some (seg, _, _) =>
        let id := segment_id (rix r) seg in
        let calls := S (rcalls r) in
        if match rcur r with Some (curID, _) => bool_decide (id = curID) | None => bool_decide (id = []) end
        then (None, r)
        else
          match arriving (rcalls r) id (rpos r) plen with
          | NotArriving => (None, mkReader (rix r) (rpos r) (rcur r) (rclosed r) calls)
          | Became part => (None, mkReader (rix r) (rpos r) (Some (id, part)) (rclosed r) calls)
          | Served b => (Some (b, None), mkReader (rix r) (rpos r) (rcur r) (rclosed r) calls)
          | ArriveFailed e => (Some ([], Some (LoadFailed e)), mkReader (rix r) (rpos r) (rcur r) (rclosed r) calls)
          end
    end.

(** Read at the current position through the whole article. *)
Definition read_article (r : Reader) (plen : nat) : bytes * option rderr * Reader :=
  match articleForOffset r (rpos r) with
  | (Err e, r1) => ([], Some e, r1)
  | (Ok (part, _), r1) =>
      let off := wrap_i64 (rpos r1 - wrap_i64 (pBegin part - 1)) in
      if (off <? 0) || (Z.of_nat (length (pData part)) <=? off) then ([], Some (OutsideArticle (rpos r1)), r1)
      else
        let b := take plen (drop (Z.to_nat off) (pData part)) in
        (b, None, set_pos r1 (wrap_i64 (rpos r1 + Z.of_nat (length b))))
  end.

(** Read into a buffer of [plen] bytes. *)
Definition Read (r : Reader) (plen : nat) : bytes * option rderr * Reader :=
  if Nat.eqb plen 0 then ([], None, r)
  else if SizeExact (rix r) && (FileSize (rix r) <=? rpos r) then ([], Some EndOfFile, r)
  else
    match readArriving r plen with
    | (Some (b, e), r1) => (b, e, set_pos r1 (wrap_i64 (rpos r1 + Z.of_nat (length b))))
    | (None, r1) => read_article r1 plen
    end.

Definition ensureSizeExact (r : Reader) : option rderr * Reader :=
  if SizeExact (rix r) || Nat.eqb (SegmentCount (rix r)) 0 then (None, r)
  else
    match fetchArticle r 0 with
    | (Err e, r1) => (Some (EstablishSize e), r1)
    | (Ok part, r1) => (None, set_ix r1 (Observe (rix r1) 0 (Some part)))
    end.

(** io.SeekStart, io.SeekCurrent, io.SeekEnd are 0, 1, 2. *)
Definition seek_to (r : Reader) (abs : Z) : result rderr Z * Reader :=
  if abs <? 0 then (Err NegativePosition, r) else (Ok abs, set_pos r abs).
Definition Seek (r : Reader) (offset whence : Z) : result rderr Z * Reader :=
  if whence =? 0 then seek_to r offset
  else if whence =? 1 then seek_to r (wrap_i64 (rpos r + offset))
  else if whence =? 2 then
    match ensureSizeExact r with
    | (Some e, r1) => (Err e, r1)
    | (None, r1) => seek_to r1 (wrap_i64 (FileSize (rix r1) + offset))
    end
  else (Err (BadWhence whence), r).

Definition Close (r : Reader) : Reader := mkReader (rix r) (rpos r) None true (rcalls r).
End Reader.

(** * A posting behind the reader *)

Lemma segs_Observe ix i p : segs (Observe ix i p) = segs ix.
Proof.
  unfold Observe. destruct p as [p|]; [|done]. do 2 (case_if; [done|]).
  destruct (if 0 <? pSize p then _ else _). split_anchor. by rewrite segs_recompute.
Qed.

Lemma Locate_lt ix pos i s e : laid_out ix -> Locate ix pos = Some (i, s, e) -> (i < SegmentCount ix)%nat.
Proof.
  intros Hl. unfold Locate. destruct (locateLocked ix pos) as [k|] eqn:E; [|done]. intros [= <- _ _].
  by apply (locateLocked_spec ix pos k Hl) in E as (? & _).
Qed.

(** Every candidate is a segment, on the side of [from] that holds [pos]. *)
Lemma nextCandidate_toward ix pos from n dir tried next :
  laid_out ix -> SegmentCount ix = n -> (from < n)%nat -> dir <> 0 ->
  nextCandidate ix pos from n dir tried = Ok next ->
  (next < n)%nat /\ (if dir <? 0 then (next < from)%nat else (from < next)%nat).
Proof.
  intros Hl Hn Hf Hd. unfold nextCandidate.
  destruct (Locate ix pos) as [[[seg s] e]|] eqn:E.
  - apply Locate_lt in E; [|done].
    destruct (_ && _) eqn:Eb; [intros [= <-]|].
    + apply andb_prop in Eb as [_ Eb]. apply orb_prop in Eb as [Eb|Eb]; bprop; case_if; bprop; lia.
    + repeat case_if; intros [= <-]; bprop; lia.
  - repeat case_if; intros [= <-]; bprop; lia.
Qed.

(** A certain answer ahead of [from] is the next candidate. *)
Lemma nextCandidate_jumps ix off from n dir j :
  LocateExact ix off = Some (j, true) -> 0 < dir -> (from < j)%nat ->
  nextCandidate ix off from n dir ({[from]} ∪ ∅) = Ok j.
Proof.
  unfold nextCandidate, LocateExact, Locate. intros Hl Hd Hj.
  destruct (locateLocked ix off); [|done]. injection Hl as -> _.
  rewrite bool_decide_false by (rewrite elem_of_union, elem_of_singleton; intros [?|?%elem_of_empty]; [lia|done]).
  replace (0 <? dir) with true by (symmetry; apply Z.ltb_lt; lia).
  by replace (from <? j)%nat with true by (symmetry; apply Nat.ltb_lt; lia).
Qed.

Section Posted.
Context `{ArticleSource} `{GoSort Segment} (f : File) (len : nat -> Z) (file : bytes).
Hypothesis Hpost : posting f len.
Hypothesis Hfile : Z.of_nat (length file) = pos len (parts f).

(** A part that is segment [i] of the posting, with its bytes of the file. *)
Definition article (i : nat) (p : Part) : Prop :=
  part_of f len (Z.of_nat i) p /\ pSize p = pos len (parts f) /\
  pData p = take (Z.to_nat (len i)) (drop (Z.to_nat (pos len i)) file).

(** Whatever a load of a segment returns is that segment.  Of the bytes served of
    one that still arrives only the shape is known: there are some, no more than
    the buffer takes, and they end at an int64 position. *)
Record honest : Prop := {
  ho_load : forall n i p, (i < parts f)%nat -> load n (segment_id (NewOffsetIndex f) i) = Ok p -> article i p;
  ho_became : forall n i q plen p, (i < parts f)%nat ->
    arriving n (segment_id (NewOffsetIndex f) i) q plen = Became p -> article i p;
  ho_served : forall n i q plen b, (i < parts f)%nat -> 0 <= q -> plen <> 0%nat ->
    arriving n (segment_id (NewOffsetIndex f) i) q plen = Served b ->
    b <> [] /\ (length b <= plen)%nat /\ q + Z.of_nat (length b) <= i64_max
}.
Hypothesis Hhonest : honest.

(** The bytes an arriving article served at the reader's position. *)
Definition served_early (r : Reader) (plen : nat) (b : bytes) : Prop :=
  exists i, (i < parts f)%nat /\ arriving (rcalls r) (segment_id (NewOffsetIndex f) i) (rpos r) plen = Served b.

Record reader_ok (r : Reader) : Prop := {
  ro_ix : reach_true f len (rix r);
  ro_segs : segs (rix r) = segs (NewOffsetIndex f);
  ro_cur : forall id p, rcur r = Some (id, p) ->
    forall i, (i < parts f)%nat -> segment_id (NewOffsetIndex f) i = id -> article i p
}.

Lemma reader_ok_count r : reader_ok r -> SegmentCount (rix r) = parts f.
Proof. intros Hr. unfold SegmentCount. rewrite (ro_segs r Hr). apply new_segs_length. Qed.

Lemma open_ok : reader_ok (openReader (NewOffsetIndex f)).
Proof. constructor; [apply true_new|done|done]. Qed.

Lemma fetchArticle_spec r i :
  reader_ok r -> (i < parts f)%nat ->
  let '(res, r1) := fetchArticle r i in
  reader_ok r1 /\ rix r1 = rix r /\ rpos r1 = rpos r /\
  match res with Ok p => article i p | Err e => e <> EndOfFile end.
Proof.
  intros Hr Hi. assert (Hid : segment_id (rix r) i = segment_id (NewOffsetIndex f) i).
  { unfold segment_id. by rewrite (ro_segs r Hr). }
  unfold fetchArticle. rewrite Hid. set (id := segment_id (NewOffsetIndex f) i) in *.
  assert (Hfetch : let '(res, r1) :=
    (if rclosed r then (Err ContextEnded, r)
     else match load (rcalls r) id with
          | Ok part => (Ok part, mkReader (rix r) (rpos r) (Some (id, part)) (rclosed r) (S (rcalls r)))
          | Err e => (Err (LoadFailed e), mkReader (rix r) (rpos r) (rcur r) (rclosed r) (S (rcalls r)))
          end) in
    reader_ok r1 /\ rix r1 = rix r /\ rpos r1 = rpos r /\
    match res with Ok p => article i p | Err e => e <> EndOfFile end).
  { destruct (rclosed r); [done|]. destruct (load (rcalls r) id) as [p|e] eqn:El.
    - split; [|split; [done|split; [done|exact (ho_load Hhonest (rcalls r) i p Hi El)]]].
      destruct Hr as [H1 H2 H3]. constructor; [done..|]. intros id' p' [= <- <-] j Hj Ej.
      apply (ho_load Hhonest (rcalls r)); [done|]. by rewrite Ej.
    - split; [|done]. destruct Hr as [H1 H2 H3]. by constructor. }
  destruct (rcur r) as [[curID cur]|] eqn:Ec; [|exact Hfetch].
  case_bool_decide as E; [|exact Hfetch]. split; [done|]. split; [done|]. split; [done|].
  exact (ro_cur r Hr curID cur Ec i Hi (eq_sym E)).
Qed.

(** The verdict of classifyOffset on a true article. *)
Lemma classify_article i p off :
  (i < parts f)%nat -> article i p ->
  (classifyOffset off p = 0 <-> pos len i <= off < pos len (S i)) /\
  (classifyOffset off p < 0 <-> off < pos len i) /\
  (0 < classifyOffset off p <-> pos len i <= off /\ pos len (S i) <= off).
Proof.
  intros Hi ((Hb & He & _) & _ & _). rewrite Nat2Z.id in *.
  pose proof (pos_range f len i Hpost ltac:(lia)). pose proof (po_len f len Hpost i Hi) as Hl.
  unfold classifyOffset. rewrite Hb, He. rewrite wrap_i64_id by (unfold is_i64, i64_min, i64_max in *; lia).
  simpl. repeat case_if; bprop; lia.
Qed.

Lemma locate_loop_spec fuel r off i tried :
  reader_ok r -> (i < parts f)%nat ->
  let '(res, r1) := locate_loop fuel r off (parts f) i tried in
  reader_ok r1 /\ rpos r1 = rpos r /\
  match res with
  | Ok (p, j) => (j < parts f)%nat /\ article j p /\ pos len j <= off < pos len (S j)
  | Err EndOfFile => pos len (parts f) <= off
  | Err _ => True
  end.
Proof.
  revert r i tried. induction fuel as [|fuel IH]; intros r i tried Hr Hi; [done|]. cbn [locate_loop].
  pose proof (fetchArticle_spec r i Hr Hi) as Hfa. destruct (fetchArticle r i) as [[p|e] r1].
  2:{ destruct Hfa as (? & _ & ? & ?). split; [done|]. split; [done|]. by destruct e. }
  destruct Hfa as (Hr1 & _ & Hp1 & Ha). destruct (classify_article i p off Hi Ha) as (Hin & Hneg & Hpos).
  set (r2 := set_ix r1 _).
  assert (Hr2 : reader_ok r2).
  { destruct Hr1 as [H1 H2 H3]. constructor; [|by cbn [r2 set_ix rix]; rewrite segs_Observe|done].
    apply true_observe; [done|]. by destruct Ha. }
  destruct (classifyOffset off p =? 0) eqn:E0; bprop; [split; [done|]; split; [done|]; tauto|].
  destruct (nextCandidate _ _ _ _ _ _) as [next|e] eqn:En.
  - destruct (nextCandidate_toward _ _ _ _ _ _ _
      (proj1 (reach_true_evidence f len _ Hpost (ro_ix r2 Hr2))) (reader_ok_count r2 Hr2) Hi E0 En) as [Hnx _].
    specialize (IH r2 next ({[i]} ∪ tried) Hr2 Hnx). by destruct (locate_loop _ _ _ _ _ _) as [[[q j]|e] r3]; rewrite <- Hp1.
  - split; [done|]. split; [done|]. destruct e; try done.
    assert (Hlast : (parts f - 1 <= i)%nat /\ 0 <= classifyOffset off p).
    { unfold nextCandidate in En. destruct (Locate _ _) as [[[seg s] e]|].
      - destruct (_ && _); [done|]. repeat case_if_in En; bprop; try done; lia.
      - repeat case_if_in En; bprop; try done; lia. }
    replace (parts f) with (S i) by lia. apply Hpos. lia.
Qed.

Lemma articleForOffset_spec r off :
  reader_ok r -> 0 <= off ->
  let '(res, r1) := articleForOffset r off in
  reader_ok r1 /\ rpos r1 = rpos r /\
  match res with
  | Ok (p, j) => (j < parts f)%nat /\ article j p /\ pos len j <= off < pos len (S j)
  | Err EndOfFile => SizeExact (rix r1) = true -> pos len (parts f) <= off
  | Err _ => True
  end.
Proof.
  intros Hr Ho. destruct (reach_true_evidence f len _ Hpost (ro_ix r Hr)) as [Hl Hev].
  unfold articleForOffset. rewrite (reader_ok_count r Hr).
  destruct (Nat.eqb_spec (parts f) 0) as [E|E].
  { split; [done|]. split; [done|]. rewrite E. simpl. lia. }
  destruct (Locate (rix r) off) as [[[i s] e]|] eqn:El.
  - pose proof (Locate_lt _ _ _ _ _ Hl El) as Hi. rewrite (reader_ok_count r Hr) in Hi.
    pose proof (locate_loop_spec maxLocateFetches r off i ∅ Hr Hi) as Hs.
    destruct (locate_loop _ _ _ _ _ _) as [[[q j]|[]] r1]; naive_solver.
  - split; [done|]. split; [done|]. intros Hx. unfold Locate in El.
    destruct (locateLocked (rix r) off) eqn:E2; [done|].
    destruct (decide (fileSizeLocked (rix r) <= off)) as [Hle|Hgt].
    + unfold fileSizeLocked in Hle. unfold SizeExact in Hx. rewrite Hx in Hle.
      by rewrite (ev_size f len _ Hev Hx) in Hle.
    + destruct (locateLocked_total (rix r) off) as [k Hk]; [|lia|congruence].
      change (length (segs (rix r))) with (SegmentCount (rix r)). rewrite (reader_ok_count r Hr). lia.
Qed.

(** The bytes a true article holds at an offset inside it. *)
Lemma article_bytes i p off n :
  (i < parts f)%nat -> article i p -> pos len i <= off < pos len (S i) ->
  let b := take n (drop (Z.to_nat (off - pos len i)) (pData p)) in
  Z.of_nat (length (pData p)) = len i /\ length b = Nat.min n (Z.to_nat (pos len (S i) - off)) /\
  b = take (length b) (drop (Z.to_nat off) file).
Proof.
  intros Hi (_ & _ & Hd) Ho b. simpl in *.
  pose proof (pos_range f len i Hpost ltac:(lia)). pose proof (po_len f len Hpost i Hi).
  pose proof (pos_mono f len (S i) (parts f) Hpost ltac:(lia) ltac:(lia)) as Hm. simpl in Hm.
  assert (Hlen : length (pData p) = Z.to_nat (len i)).
  { rewrite Hd, length_take, length_drop. lia. }
  assert (Hb : length b = Nat.min n (Z.to_nat (pos len i + len i - off))).
  { unfold b. rewrite length_take, length_drop, Hlen. lia. }
  split; [lia|]. split; [done|]. rewrite Hb. unfold b. rewrite Hd.
  rewrite skipn_firstn_comm, take_take, drop_drop. f_equal; [lia|]. f_equal. lia.
Qed.

Lemma readArriving_spec r plen :
  reader_ok r -> 0 <= rpos r -> plen <> 0%nat ->
  let '(res, r1) := readArriving r plen in
  reader_ok r1 /\ rpos r1 = rpos r /\
  match res with
  | Some (b, None) => served_early r plen b /\ b <> [] /\ rpos r + Z.of_nat (length b) <= i64_max
  | Some (b, Some e) => b = [] /\ e <> EndOfFile
  | None => True
  end.
Proof.
  intros Hr Ho Hpl. unfold readArriving. case_if; [done|].
  destruct (Locate (rix r) (rpos r)) as [[[i s] e]|] eqn:El; [|done].
  apply Locate_lt in El; [|by apply (reach_true_evidence f len _ Hpost (ro_ix r Hr))].
  rewrite (reader_ok_count r Hr) in El.
  assert (Hid : segment_id (rix r) i = segment_id (NewOffsetIndex f) i).
  { unfold segment_id. by rewrite (ro_segs r Hr). }
  rewrite Hid. case_if; [done|]. destruct (arriving _ _ _ _) as [|p|b|why] eqn:Ea; pose proof Hr as [H1 H2 H3].
  - split; [by constructor|done].
  - split; [|done]. constructor; [done..|]. intros id' p' [= <- <-] j Hj Ej.
    apply (ho_became Hhonest (rcalls r) j (rpos r) plen); [done|]. by rewrite Ej.
  - split; [by constructor|]. split; [done|].
    destruct (ho_served Hhonest (rcalls r) i (rpos r) plen b El Ho Hpl Ea) as (? & _ & ?).
    split; [by exists i|done].
  - split; [by constructor|]. done.
Qed.

Lemma ensureSizeExact_spec r :
  reader_ok r -> let '(_, r1) := ensureSizeExact r in reader_ok r1 /\ rpos r1 = rpos r.
Proof.
  intros Hr. unfold ensureSizeExact. rewrite (reader_ok_count r Hr). case_if; [done|].
  match goal with E : (_ || _)%bool = false |- _ => apply orb_false_elim in E as [_ E] end. bprop.
  pose proof (fetchArticle_spec r 0 Hr ltac:(lia)) as Hs.
  destruct (fetchArticle r 0) as [[p|e] r1]; destruct Hs as (Hr1 & _ & Hp & Ha); [|done].
  split; [|done]. destruct Hr1 as [H1 H2 H3]. constructor; [|by cbn [set_ix rix]; rewrite segs_Observe|done].
  apply (true_observe f len (rix r1) 0%Z p); [done|]. by destruct Ha.
Qed.

(** Seek keeps the reader honest and leaves it at an int64 position. *)
Lemma Seek_spec r off whence :
  reader_ok r -> 0 <= rpos r <= i64_max -> is_i64 off ->
  let r1 := snd (Seek r off whence) in reader_ok r1 /\ 0 <= rpos r1 <= i64_max.
Proof.
  intros Hr Hp Ho. assert (Hto : forall r0 abs, reader_ok r0 -> 0 <= rpos r0 <= i64_max -> abs <= i64_max ->
    reader_ok (snd (seek_to r0 abs)) /\ 0 <= rpos (snd (seek_to r0 abs)) <= i64_max).
  { intros r0 abs [] H1 H2. unfold seek_to. case_if; bprop; [done|]. split; [by constructor|]. cbn. lia. }
  unfold Seek. case_if; [apply Hto; try done; unfold is_i64 in Ho; lia|].
  case_if; [apply Hto; try done; apply wrap_i64_range|]. case_if; [|done].
  pose proof (ensureSizeExact_spec r Hr) as Hs. destruct (ensureSizeExact r) as [[e|] r1]; destruct Hs as [Hr1 Hp1]; cbn [snd].
  - by rewrite Hp1.
  - apply Hto; [done|by rewrite Hp1|apply wrap_i64_range].
Qed.

(** The readers that opening one, reading, seeking and closing lead to. *)
Inductive in_use : Reader -> Prop :=
| use_open : in_use (openReader (NewOffsetIndex f))
| use_read r plen : in_use r -> in_use (snd (Read r plen))
| use_seek r off whence : in_use r -> is_i64 off -> in_use (snd (Seek r off whence))
| use_close r : in_use r -> in_use (Close r).
End Posted.

(** * A uniform posting *)

(** The sum of the encoded sizes before segment [i]. *)
Fixpoint esum `{GoSort Segment} (f : File) (i : nat) : Z :=
  match i with O => 0 | S i' => esum f i' + est f i' end.

Section UniformSeek.
Context `{ArticleSource} `{GoSort Segment} (f : File) (len : nat -> Z) (L : Z) (file : bytes).

(** Every part but the last is [L] bytes, the encoded sizes agree in shape and
    are no smaller than the decoded ones, and everything fits an int64. *)
Record uniform_posting : Prop := {
  up_post : posting f len;
  up_file : Z.of_nat (length file) = pos len (parts f);
  up_len : forall i, (i < parts f - 1)%nat -> len i = L;
  up_shape : forall i j, (i < parts f - 1)%nat -> (j < parts f - 1)%nat ->
    sameEncodedShape (est f i) (est f j) = true;
  up_high : forall i, (i < parts f)%nat -> len i <= est f i;
  up_fits : esum f (parts f) <= i64_max
}.
Hypothesis Hu : uniform_posting.

Lemma uniform_pos i : (i <= parts f - 1)%nat -> pos len i = Z.of_nat i * L.
Proof.
  induction i as [|i IH]; intros Hi; [done|]. simpl pos. rewrite IH, (up_len Hu i) by lia. lia.
Qed.

Lemma esum_high i : (i <= parts f)%nat -> pos len i <= esum f i.
Proof.
  induction i as [|i IH]; intros Hi; simpl; [lia|]. pose proof (up_high Hu i ltac:(lia)). specialize (IH ltac:(lia)). lia.
Qed.
Lemma esum_mono i j : (i <= j)%nat -> (j <= parts f)%nat -> esum f i <= esum f j.
Proof.
  intros Hij. induction Hij as [|j Hij IH]; intros Hj; [lia|]. simpl.
  pose proof (up_high Hu j ltac:(lia)). pose proof (po_len f len (up_post Hu) j ltac:(lia)). specialize (IH ltac:(lia)). lia.
Qed.

(** A fresh index lays the segments out by their encoded sizes. *)
Lemma fresh_step i : (i < parts f)%nat -> stepLen (NewOffsetIndex f) i = est f i.
Proof.
  intros Hi. pose proof (evidence_new f len) as [Hn _ _ Hl _ _].
  assert (He : at_ (exactLen (NewOffsetIndex f)) i = -1).
  { unfold NewOffsetIndex in *. autorewrite with index_evidence in *. simpl in *. rewrite Hn. by apply at_replicate. }
  unfold stepLen. rewrite He. simpl.
  assert (Ha : anchored (NewOffsetIndex f) i = false).
  { unfold anchored, NewOffsetIndex. by autorewrite with index_evidence. }
  rewrite Ha, andb_false_r.
  assert (Ho : obsEncoded (NewOffsetIndex f) = 0).
  { unfold NewOffsetIndex, recompute. cbn [segs]. by destruct (length (SortSegmentsByNumber (fSegments f))). }
  by rewrite Ho, andb_false_r.
Qed.
Lemma fresh_starts i : (i < parts f)%nat -> at_ (starts (NewOffsetIndex f)) i = esum f i.
Proof.
  pose proof (NewOffsetIndex_laid_out f) as Hl. pose proof (new_segs_length f) as Hn.
  induction i as [|i IH]; intros Hi; [apply (lo_first _ Hl); lia|].
  pose proof (f_equal fst (lo_next _ Hl i ltac:(lia))) as Hx. simpl in Hx. rewrite Hx. unfold next_start.
  assert (He : at_ (exactStart (NewOffsetIndex f)) (S i) = -1).
  { unfold NewOffsetIndex in *. autorewrite with index_evidence in *. simpl in *. rewrite Hn. by apply at_replicate. }
  rewrite He, (IH ltac:(lia)). simpl. rewrite Nat.sub_0_r, fresh_step by lia.
  pose proof (esum_high (S i) ltac:(lia)). pose proof (esum_mono (S i) (parts f) ltac:(lia) ltac:(lia)).
  pose proof (pos_range f len (S i) (up_post Hu) ltac:(lia)). pose proof (up_fits Hu).
  pose proof (esum_mono i (S i) ltac:(lia) ltac:(lia)). simpl esum in *.
  rewrite wrap_i64_id by (unfold is_i64, i64_min; lia). case_if; bprop; simpl; lia.
Qed.

(** The first guess of a fresh index is never past the article that holds [off]. *)
Lemma fresh_guess off :
  0 <= off < pos len (parts f) ->
  exists i s e, Locate (NewOffsetIndex f) off = Some (i, s, e) /\ (i < parts f)%nat /\ pos len i <= off.
Proof.
  intros Ho. pose proof (NewOffsetIndex_laid_out f) as Hl. pose proof (new_segs_length f) as Hn.
  destruct (parts f) as [|n] eqn:Ep; [simpl in Ho; lia|]. rewrite <- Ep in *.
  assert (Hsz : fileSizeLocked (NewOffsetIndex f) = esum f (parts f)).
  { unfold fileSizeLocked. replace (sizeExact (NewOffsetIndex f)) with false
      by (unfold NewOffsetIndex; by autorewrite with index_evidence).
    unfold estimatedSize. rewrite Hn, Ep, fresh_starts, fresh_step by lia. simpl.
    pose proof (up_fits Hu). rewrite Ep in *. pose proof (esum_high (S n) ltac:(lia)). simpl esum in *.
    apply wrap_i64_id. unfold is_i64, i64_min. simpl in *. lia. }
  pose proof (esum_high (parts f) ltac:(lia)).
  destruct (locateLocked_total (NewOffsetIndex f) off) as [i Hi]; [lia|lia|].
  unfold Locate. rewrite Hi. do 3 eexists. split; [reflexivity|].
  apply locateLocked_spec in Hi as (Hi & _ & Hs & _); [|done]. rewrite Hn in Hi.
  split; [done|]. rewrite fresh_starts in Hs by done. pose proof (esum_high i ltac:(lia)). lia.
Qed.

Hypothesis Hhonest : honest f len file.
(** No load fails. *)
Definition reliable : Prop :=
  forall n i, (i < parts f)%nat -> exists p, load n (segment_id (NewOffsetIndex f) i) = Ok p.
Hypothesis Hrel : reliable.

Lemma fetch_reliable r i :
  reader_ok f len file r -> rclosed r = false -> (i < parts f)%nat ->
  exists p r1, fetchArticle r i = (Ok p, r1) /\ reader_ok f len file r1 /\ article f len file i p /\ rix r1 = rix r /\
    rclosed r1 = false /\ (rcalls r1 <= S (rcalls r))%nat.
Proof.
  intros Hr Hc Hi. pose proof (fetchArticle_spec f len file Hhonest r i Hr Hi) as Hs.
  assert (Hid : segment_id (rix r) i = segment_id (NewOffsetIndex f) i).
  { unfold segment_id. by rewrite (ro_segs f len file r Hr). }
  unfold fetchArticle in *. rewrite Hid in *. destruct (Hrel (rcalls r) i Hi) as [p Hp].
  rewrite Hc, Hp in *.
  destruct (rcur r) as [[curID cur]|]; [case_bool_decide|];
    do 2 eexists; (split; [reflexivity|]); destruct Hs as (Hs1 & _ & _ & Hs2);
    (split; [exact Hs1|]); (split; [exact Hs2|]); (split; [done|]); (split; [exact Hc || done|]); simpl; lia.
Qed.

(** An article of the posting, observed first, pins the uniform layout. *)
Lemma article_uniform i p :
  (i < parts f - 1)%nat -> article f len file i p -> uniform f L (pos len (parts f)) i p.
Proof.
  intros Hi ((Hb & He & _) & Hs & _). rewrite Nat2Z.id in *.
  pose proof (up_len Hu i Hi). pose proof (po_len f len (up_post Hu) i ltac:(lia)).
  pose proof (uniform_pos (parts f - 1) ltac:(lia)) as Hp.
  pose proof (po_len f len (up_post Hu) (parts f - 1) ltac:(lia)).
  constructor; rewrite ?Hb, ?He; try done; try lia.
  - pose proof (po_max f len (up_post Hu)) as Hm. replace (parts f) with (S (parts f - 1)) in * by lia. simpl in *.
    rewrite ?Nat.sub_0_r in *. lia.
  - intros j Hj. by apply (up_shape Hu).
  - by rewrite uniform_pos by lia.
  - by rewrite uniform_pos by lia.
Qed.

Lemma located_holds off :
  0 <= off < pos len (parts f) -> 0 < L ->
  let j := Nat.min (Z.to_nat (off / L)) (parts f - 1) in
  (j < parts f)%nat /\ pos len j <= off < pos len (S j) /\
  forall i, (S i <= parts f - 1)%nat -> pos len (S i) <= off -> (i < j)%nat.
Proof.
  intros Ho HL j. pose proof (Z.div_mod off L ltac:(lia)) as Hdm. pose proof (Z.mod_pos_bound off L HL) as Hmb.
  pose proof (Z.div_pos off L ltac:(lia) HL) as Hdp.
  assert (Hn : (0 < parts f)%nat) by (destruct (parts f); [simpl in Ho|]; lia).
  split; [lia|]. split; [split|].
  - rewrite uniform_pos by lia. nia.
  - destruct (decide (S j <= parts f - 1)%nat).
    + rewrite uniform_pos by lia. nia.
    + replace (S j) with (parts f) by lia. lia.
  - intros i Hi Hp. rewrite uniform_pos in Hp by lia.
    assert (Z.of_nat (S i) <= off / L) by (apply Z.div_le_lower_bound; lia). lia.
Qed.
End UniformSeek.

Lemma read_article_spec `{ArticleSource} `{GoSort Segment} f len file r plen b e r' :
  posting f len -> Z.of_nat (length file) = pos len (parts f) -> honest f len file ->
  reader_ok f len file r -> 0 <= rpos r <= i64_max -> plen <> 0%nat -> read_article r plen = (b, e, r') ->
  reader_ok f len file r' /\
  match e with
  | None => b = take (length b) (drop (Z.to_nat (rpos r)) file) /\ (plen <> 0%nat -> b <> []) /\
            rpos r' = rpos r + Z.of_nat (length b)
  | Some EndOfFile => b = [] /\ (SizeExact (rix r') = true -> Z.of_nat (length file) <= rpos r)
  | Some _ => b = []
  end.
Proof.
  intros Hp Hf Hh Hr Ho Hpl. unfold read_article.
  pose proof (articleForOffset_spec f len file Hp Hh r (rpos r) Hr ltac:(lia)) as Hs.
  destruct (articleForOffset r (rpos r)) as [[[p j]|er] r1]; destruct Hs as (Hr1 & Hpos & Hs).
  2:{ intros [= <- <- <-]. split; [done|]. rewrite Hf. by destruct er. }
  destruct Hs as (Hj & Ha & Hin). rewrite Hpos.
  pose proof (pos_range f len j Hp ltac:(lia)). pose proof (pos_range f len (S j) Hp ltac:(lia)).
  destruct (article_bytes f len file Hp Hf j p (rpos r) plen Hj Ha Hin) as (Hlen & Hbl & Hb).
  destruct Ha as ((Hbeg & _ & _) & _ & _). rewrite Nat2Z.id in Hbeg. rewrite Hbeg.
  replace (pos len j + 1 - 1) with (pos len j) by lia.
  rewrite !wrap_i64_id by (unfold is_i64, i64_min, i64_max in *; lia ||
    (rewrite wrap_i64_id; unfold is_i64, i64_min, i64_max in *; lia)).
  simpl in Hin. case_if; [match goal with Eo : (_ || _)%bool = true |- _ => apply orb_prop in Eo as [?|?] end; bprop; lia|]. intros [= <- <- <-].
  split; [destruct Hr1; by constructor|]. split; [done|]. split.
  - intros _ En. apply (f_equal length) in En. rewrite Hbl in En. simpl in *. lia.
  - done.
Qed.

Lemma fetchArticle_pos `{ArticleSource} r i : rpos (snd (fetchArticle r i)) = rpos r.
Proof. unfold fetchArticle. by repeat (case_match; try done). Qed.
Lemma locate_loop_pos `{ArticleSource} fuel : forall r pos n i tried, rpos (snd (locate_loop fuel r pos n i tried)) = rpos r.
Proof.
  induction fuel as [|fuel IH]; intros r pos n i tried; [done|]. cbn [locate_loop].
  pose proof (fetchArticle_pos r i) as Hf. destruct (fetchArticle r i) as [[p|e] r1]; [|done]. cbn [snd] in Hf.
  case_if; [done|]. case_match; [|done]. by rewrite IH.
Qed.
Lemma read_article_pos `{ArticleSource} r plen :
  let '(b, e, r') := read_article r plen in rpos r' = rpos r \/ e = None.
Proof.
  unfold read_article, articleForOffset. case_if; [by left|]. destruct (Locate _ _) as [[[i s] e]|]; [|by left].
  pose proof (locate_loop_pos maxLocateFetches r (rpos r) (SegmentCount (rix r)) i ∅) as Hl.
  destruct (locate_loop _ _ _ _ _ _) as [[[p j]|e'] r1]; cbn [snd] in Hl; [|by left]. case_if; [by left|by right].
Qed.

(** * Claims *)

(** What one Read does, from any honest reader at an int64 position. *)
Lemma Read_step `{ArticleSource} `{GoSort Segment} f len file r plen b e r' :
  posting f len -> Z.of_nat (length file) = pos len (parts f) -> honest f len file ->
  reader_ok f len file r -> 0 <= rpos r <= i64_max -> Read r plen = (b, e, r') ->
  reader_ok f len file r' /\ 0 <= rpos r' <= i64_max /\
  match e with
  | None => (b = take (length b) (drop (Z.to_nat (rpos r)) file) \/ served_early f r plen b) /\
            (plen <> 0%nat -> b <> []) /\ rpos r' = rpos r + Z.of_nat (length b)
  | Some EndOfFile => b = [] /\ (SizeExact (rix r') = true -> Z.of_nat (length file) <= rpos r)
  | Some _ => b = []
  end.
Proof.
  intros Hp Hf Hh Hr Ho. unfold Read.
  destruct (Nat.eqb_spec plen 0) as [->|Hpl].
  { intros [= <- <- <-]. split_and!; [done|lia|lia|by left|done|cbn; lia]. }
  case_if.
  { intros [= <- <- <-]. split_and!; [done|lia|lia|done|]. bprop. intros Hx.
    destruct (reach_true_evidence f len _ Hp (ro_ix f len file r Hr)) as [_ Hev].
    unfold FileSize, fileSizeLocked in *. unfold SizeExact in *. rewrite Hx in *. rewrite (ev_size f len _ Hev Hx) in *. lia. }
  pose proof (readArriving_spec f len file Hp Hh r plen Hr ltac:(lia) Hpl) as Hs.
  destruct (readArriving r plen) as [[[b0 e0]|] r1]; destruct Hs as (Hr1 & Hpos & Hs).
  - intros [= <- <- <-]. cbn [set_pos rpos]. rewrite Hpos.
    destruct e0 as [e0|].
    { destruct Hs as [-> He]. cbn [length]. rewrite Z.add_0_r, wrap_i64_id by (unfold is_i64, i64_min, i64_max in *; lia).
      split; [destruct Hr1; by constructor|]. split; [done|]. by destruct e0. }
    destruct Hs as (Hse & Hne & Hb). rewrite wrap_i64_id by (unfold is_i64, i64_min, i64_max in *; lia).
    split_and!; [destruct Hr1; by constructor|lia|lia|by right|done|done].
  - rewrite <- Hpos in *. intros Hra.
    destruct (read_article_spec f len file r1 plen b e r' Hp Hf Hh Hr1 Ho Hpl Hra) as (R1 & R2).
    split; [done|]. destruct e as [e|].
    + pose proof (read_article_pos r1 plen) as Hq. rewrite Hra in Hq. destruct Hq as [Hq|Hq]; [|done].
      by rewrite Hq.
    + destruct R2 as (R3 & R4 & R5). pose proof (f_equal length R3) as Hl. rewrite length_take, length_drop in Hl.
      assert (0 < length b)%nat by (specialize (R4 Hpl); destruct b; [done|cbn; lia]).
      pose proof (po_max f len Hp). split_and!; [lia| |by left|done|done]. rewrite R5, <- Hf in *. lia.
Qed.

Lemma in_use_ok `{ArticleSource} `{GoSort Segment} f len file r :
  posting f len -> Z.of_nat (length file) = pos len (parts f) -> honest f len file ->
  in_use f r -> reader_ok f len file r /\ 0 <= rpos r <= i64_max.
Proof.
  intros Hp Hf Hh. induction 1 as [|r plen _ [I1 I2]|r off whence _ [I1 I2] Ho|r _ [[I0 I1 _] I2]].
  - split; [apply open_ok|]. vm_compute. split; discriminate.
  - destruct (Read r plen) as [[b e] r'] eqn:Er.
    destruct (Read_step f len file r plen b e r' Hp Hf Hh I1 I2 Er) as (R1 & R2 & _). done.
  - by apply Seek_spec.
  - by split.
Qed.

(** C7: Let every article that is loaded be the true one of the posting.  Then
    after any sequence of reads, seeks and closes of a reader that was opened on
    it, a Read that reports no error returns at least one byte for a buffer that
    is not empty and moves the position on by as many as it returns; the bytes
    are the file's own at the old position, unless they are those that an article
    still being received served there, which the reader passes on as they are
    (what is known of them is the claim on early bytes).  A Read that fails returns
    no byte, and with the size known end of file is reported only at or past the
    end of the file. *)
Theorem Read_returns_file `{ArticleSource} `{GoSort Segment} f len file r plen b e r' :
  posting f len -> Z.of_nat (length file) = pos len (parts f) -> honest f len file ->
  in_use f r -> Read r plen = (b, e, r') ->
  match e with
  | None => (b = take (length b) (drop (Z.to_nat (rpos r)) file) \/ served_early f r plen b) /\
            (plen <> 0%nat -> b <> []) /\ rpos r' = rpos r + Z.of_nat (length b)
  | Some EndOfFile => b = [] /\ (SizeExact (rix r') = true -> Z.of_nat (length file) <= rpos r)
  | Some _ => b = []
  end.
Proof.
  intros Hp Hf Hh Hu Hr. destruct (in_use_ok f len file r Hp Hf Hh Hu) as [H1 H2].
  by destruct (Read_step f len file r plen b e r' Hp Hf Hh H1 H2 Hr) as (_ & _ & ?).
Qed.

(** A far seek costs two articles.  On a posting whose parts are of one
    size, with encoded sizes no smaller than the decoded ones, a fresh reader
    finds the article that holds any offset of the file with at most two
    loads, however far the estimates are off by then. *)
Lemma uniform_seek_two_loads `{ArticleSource} `{GoSort Segment} f len L file off :
  uniform_posting f len L file -> honest f len file -> reliable f ->
  0 <= off < Z.of_nat (length file) ->
  exists p j r', articleForOffset (openReader (NewOffsetIndex f)) off = (Ok (p, j), r') /\
    article f len file j p /\ pos len j <= off < pos len (S j) /\ (rcalls r' <= 2)%nat.
Proof.
  intros Hu Hh Hrel Ho. rewrite (up_file f len L file Hu) in Ho.
  destruct (fresh_guess f len L file Hu off Ho) as (i & s & e & Hl & Hi & Hle).
  pose proof (open_ok f len file) as Hr0. unfold articleForOffset. rewrite (reader_ok_count f len file _ Hr0).
  destruct (Nat.eqb_spec (parts f) 0) as [E|_]; [lia|]. cbn [openReader rix]. rewrite Hl.
  cbn [maxLocateFetches locate_loop].
  destruct (fetch_reliable f len file Hh Hrel _ i Hr0 eq_refl Hi) as (p & r1 & -> & Hr1 & Ha & Hx & Hc & Hn).
  destruct (classify_article f len file (up_post _ _ _ _ Hu) i p off Hi Ha) as (H0' & Hneg & Hpos).
  destruct (classifyOffset off p =? 0) eqn:E0; bprop.
  { exists p, i. eexists. split; [reflexivity|]. split; [done|]. split; [tauto|]. simpl in *. lia. }
  assert (Hdir : 0 < classifyOffset off p) by 
    (destruct (Z.lt_trichotomy (classifyOffset off p) 0) as [Hlt|[?|?]]; [apply Hneg in Hlt; lia|lia|lia]).
  destruct (proj1 Hpos Hdir) as [_ Hpast].
  assert (Hlast : (i < parts f - 1)%nat).
  { destruct (decide (i < parts f - 1)%nat); [done|]. replace (S i) with (parts f) in Hpast by lia. lia. }
  pose proof (po_len f len (up_post _ _ _ _ Hu) i Hi) as HL. rewrite (up_len f len L file Hu i Hlast) in HL.
  destruct (located_holds f len L file Hu off Ho HL) as (Hj & Hin & Hafter). cbv zeta in *.
  specialize (Hafter i ltac:(lia) Hpast).
  pose proof (uniform_located f L _ i p off (article_uniform f len L file Hu i p Hlast Ha) Ho) as Hu2.
  set (j := Nat.min _ _) in *. set (r2 := set_ix r1 _). cbn [openReader rix] in Hx.
  assert (Hr2 : reader_ok f len file r2).
  { destruct Hr1 as [H1 H2 H3]. constructor; [|by cbn [r2 set_ix rix]; rewrite segs_Observe|done].
    apply true_observe; [done|]. by destruct Ha. }
  rewrite <- Hx in Hu2.
  rewrite (nextCandidate_jumps _ _ _ _ _ j Hu2 Hdir Hafter).
  destruct (fetch_reliable f len file Hh Hrel r2 j Hr2 Hc Hj) as (q & r3 & -> & Hr3 & Hq & _ & _ & Hn3).
  destruct (classify_article f len file (up_post _ _ _ _ Hu) j q off Hj Hq) as (Hq0 & _ & _).
  rewrite (proj2 Hq0 Hin). exists q, j. eexists. split; [reflexivity|]. split; [done|]. split; [done|]. simpl in *. lia.
Qed.

(** A file of ten bytes in three articles, of which the last is short. *)
Definition demo_bytes : bytes := [10; 11; 12; 13; 14; 15; 16; 17; 18; 19].
Definition demo_posted : File :=
  mkFile [] 0 [] [] [mkSegment 5 1 [1]; mkSegment 5 2 [2]; mkSegment 3 3 [3]].
Definition demo_lens (i : nat) : Z := if (i <? 2)%nat then 4 else 2.
Definition demo_article (i : nat) : Part :=
  let s := Z.of_nat i * 4 in
  mkPart [] (Z.of_nat i + 1) 3 (s + 1) (s + demo_lens i) 10 0
    (take (Z.to_nat (demo_lens i)) (drop (Z.to_nat s) demo_bytes)).
#[local] Instance demo_source : ArticleSource :=
  {| load n id := match id with [1] => Ok (demo_article 0) | [2] => Ok (demo_article 1)
                              | [3] => Ok (demo_article 2) | _ => Err 0%N end;
     arriving n id q plen :=
       match id with
       | [1] => if (0 <=? q) && (q <? 3) then Served (take plen (take 1 (drop (Z.to_nat q) demo_bytes))) else NotArriving
       | [2] => Became (demo_article 1)
       | _ => NotArriving
       end |}.
#[local] Instance demo_reader_sort : GoSort Segment := stable_GoSort Segment.

Lemma demo_honest : honest demo_posted demo_lens demo_bytes /\ reliable demo_posted.
Proof.
  split.
  - constructor.
    + intros n i p Hi Hp. change (parts demo_posted) with 3%nat in Hi.
      do 3 (destruct i as [|i]; [injection Hp as <-; vm_compute; repeat split; by left|]). lia.
    + intros n i q plen p Hi Hp. change (parts demo_posted) with 3%nat in Hi.
      destruct i as [|[|[|i]]]; [|injection Hp as <-; vm_compute; repeat split; by left|discriminate Hp|lia].
      change (arriving n (segment_id (NewOffsetIndex demo_posted) 0) q plen) with
        (if (0 <=? q) && (q <? 3) then Served (take plen (take 1 (drop (Z.to_nat q) demo_bytes))) else NotArriving) in Hp.
      case_if_in Hp; discriminate Hp.
    + intros n i q plen b Hi Hq Hpl Hp. change (parts demo_posted) with 3%nat in Hi.
      destruct i as [|[|[|i]]]; [|discriminate Hp|discriminate Hp|lia].
      change (arriving n (segment_id (NewOffsetIndex demo_posted) 0) q plen) with
        (if (0 <=? q) && (q <? 3) then Served (take plen (take 1 (drop (Z.to_nat q) demo_bytes))) else NotArriving) in Hp.
      destruct ((0 <=? q) && (q <? 3)) eqn:Eq; [|discriminate Hp]. injection Hp as <-. bprop.
      destruct plen as [|plen]; [done|]. assert (q = 0 \/ q = 1 \/ q = 2) as [ -> | [ -> | -> ] ] by lia;
        (destruct plen; split_and!; [discriminate|rewrite !length_take; lia|vm_compute; discriminate|discriminate|rewrite !length_take; lia|vm_compute; discriminate]).
  - intros n i Hi. change (parts demo_posted) with 3%nat in Hi.
    do 3 (destruct i as [|i]; [eexists; reflexivity|]). lia.
Defined.

Lemma demo_uniform_posting : uniform_posting demo_posted demo_lens 4 demo_bytes.
Proof.
  constructor.
  - constructor.
    + intros i Hi. unfold demo_lens. destruct (i <? 2)%nat; lia.
    + vm_compute. discriminate.
    + intros i j Hi Hj _. change (parts demo_posted) with 3%nat in *. unfold demo_lens.
      do 2 (destruct i as [|i]; [do 2 (destruct j as [|j]; [reflexivity|]); lia|]). lia.
  - reflexivity.
  - intros i Hi. change (parts demo_posted) with 3%nat in Hi. do 2 (destruct i as [|i]; [reflexivity|]). lia.
  - intros i j Hi Hj. change (parts demo_posted) with 3%nat in *.
    do 2 (destruct i as [|i]; [do 2 (destruct j as [|j]; [vm_compute; reflexivity|]); lia|]). lia.
  - intros i Hi. change (parts demo_posted) with 3%nat in Hi.
    do 3 (destruct i as [|i]; [vm_compute; discriminate|]). lia.
  - vm_compute. discriminate.
Defined.

(** A read across the second article of the demo, after a read that an arriving
    article served early, a seek to the end and one back. *)
Definition demo_used : Reader :=
  snd (Seek (snd (Seek (snd (Read (openReader (NewOffsetIndex demo_posted)) 100)) (-5) 2)) 0 1).
Lemma Read_returns_file_witness :
  fst (Read (openReader (NewOffsetIndex demo_posted)) 100) = ([10], None) /\
  fst (Read demo_used 100) = ([15; 16; 17], None) /\
  ([15; 16; 17] = take 3 (drop 5 demo_bytes) \/ served_early demo_posted demo_used 100 [15; 16; 17]) /\
  rpos (snd (Read demo_used 100)) = 5 + 3.
Proof.
  split; [vm_compute; reflexivity|]. split; [vm_compute; reflexivity|].
  pose proof (Read_returns_file demo_posted demo_lens demo_bytes demo_used 100 [15; 16; 17] None (snd (Read demo_used 100))) as T.
  destruct T as (T1 & _ & T2).
  - exact (up_post _ _ _ _ demo_uniform_posting).
  - reflexivity.
  - exact (proj1 demo_honest).
  - apply use_seek; [|vm_compute; split; discriminate]. apply use_seek; [|vm_compute; split; discriminate].
    apply use_read, use_open.
  - vm_compute. reflexivity.
  - exact (conj T1 T2).
Defined.

(** The last byte of the demo is found with two loads. *)
Lemma uniform_seek_two_loads_witness :
  rcalls (snd (articleForOffset (openReader (NewOffsetIndex demo_posted)) 9)) = 2%nat /\
  exists p j r', articleForOffset (openReader (NewOffsetIndex demo_posted)) 9 = (Ok (p, j), r') /\
    article demo_posted demo_lens demo_bytes j p /\ pos demo_lens j <= 9 < pos demo_lens (S j) /\ (rcalls r' <= 2)%nat.
Proof.
  split; [vm_compute; reflexivity|].
  apply (uniform_seek_two_loads demo_posted demo_lens 4 demo_bytes 9 demo_uniform_posting
    (proj1 demo_honest) (proj2 demo_honest)).
  vm_compute. split; [discriminate|reflexivity].
Defined.
