(* ===== verification/Readahead.v ===== *)
(** Read-ahead: internal/usenet/stream/readahead.go, with the reader's fields it
    works on (reader.go) and the shared gate of articlecache.go.

    The consumer's side (the ramp, the window, the queueing) is sequential; the
    queue is shared with the workers, so its operations under the mutex are the
    events of a machine, and so are the moves of several readers on the cache's
    boost.  The map of pending articles is a finite map from segment numbers. *)
From Stdlib Require Import ZArith Lia.
From stdpp Require Import prelude list gmap.
From S2P Require Import Prelude Nzb OffsetIndex Budget ArticleCache Fetch.

Open Scope Z_scope.

(** ** Tuning (reader.go, readahead.go) *)

Definition ReadaheadArticles : Z := 4.
Definition ReadaheadBytes : Z := Z.shiftl 16 20.
Definition ReadaheadMaxArticles : Z := 32.
Definition ReadaheadReserveConns : Z := 1.
Definition ReadaheadMaxSlots : Z := 8.
Definition readaheadPoolMultiple : Z := 2.
Definition arrivalReadahead : Z := 2.

Record pendingArticle := mkPending { paId : bytes; paBytes : Z }.
Record prefetchQueue := mkQueue {
  pending : gmap Z pendingArticle; workers : Z; front : Z; dropped : bool; lastFront : Z; lastK : Z
}.
(** The part of the reader that reads ahead. *)
Record readahead := mkRA {
  readaheadK : Z; readaheadBytes : Z;
  raScale : Z; lastSeg : Z; waited : bool; seqRun : Z; calmRun : Z;
  raCounted : bool; raBoost : Z; pq : prefetchQueue
}.

Definition openReadahead : readahead :=
  mkRA ReadaheadArticles ReadaheadBytes 1 (-1) false 0 0 false 0 (mkQueue ∅ 0 0 false 0 0).
Definition DisableReadahead (r : readahead) : readahead :=
  mkRA 0 (readaheadBytes r) (raScale r) (lastSeg r) (waited r) (seqRun r) (calmRun r) (raCounted r) (raBoost r) (pq r).

Definition set_ramp (r : readahead) (scale last seq calm : Z) : readahead :=
  mkRA (readaheadK r) (readaheadBytes r) scale last (waited r) seq calm (raCounted r) (raBoost r) (pq r).
Definition set_boost (r : readahead) (b : Z) : readahead :=
  mkRA (readaheadK r) (readaheadBytes r) (raScale r) (lastSeg r) (waited r) (seqRun r) (calmRun r) (raCounted r) b (pq r).
Definition set_pq (r : readahead) (q : prefetchQueue) : readahead :=
  mkRA (readaheadK r) (readaheadBytes r) (raScale r) (lastSeg r) (waited r) (seqRun r) (calmRun r) (raCounted r) (raBoost r) q.
Definition set_counted (r : readahead) : readahead :=
  mkRA (readaheadK r) (readaheadBytes r) (raScale r) (lastSeg r) (waited r) (seqRun r) (calmRun r) true (raBoost r) (pq r).

Section Reader.
(** The pool size, for a fetcher that tells it. *)
Context (concurrency : option Z).

(** ** The ramp *)

Definition rampCeiling (r : readahead) : Z :=
  match concurrency with Some n => Z.max (readaheadK r) (readaheadPoolMultiple * n) | None => readaheadK r end.

Definition scaleReadahead (r : readahead) : readahead :=
  if negb (waited r) then
    let calm := calmRun r + 1 in
    if (1 <? raScale r) && (readaheadK r * raScale r <=? calm)
    then set_ramp r (Z.quot (raScale r) 2) (lastSeg r) (seqRun r) 0
    else set_ramp r (raScale r) (lastSeg r) (seqRun r) calm
  else
    if (0 <? readaheadK r) && (readaheadK r <=? seqRun r)
       && (readaheadK r * raScale r <? Z.min (rampCeiling r) ReadaheadMaxArticles)
    then set_ramp r (raScale r * 2) (lastSeg r) (seqRun r) 0
    else set_ramp r (raScale r) (lastSeg r) (seqRun r) 0.

Definition rampReadahead (r : readahead) (fromSeg : Z) : readahead :=
  if fromSeg =? lastSeg r then r
  else
    let r1 := if fromSeg =? lastSeg r + 1
              then scaleReadahead (set_ramp r (raScale r) (lastSeg r) (seqRun r + 1) (calmRun r))
              else set_ramp r 1 (lastSeg r) 0 0 in
    set_ramp r1 (raScale r1) fromSeg (seqRun r1) (calmRun r1).

(** ** The window *)

Definition readaheadSlots (r : readahead) : Z :=
  let n := match concurrency with Some c => Z.max 1 (c - ReadaheadReserveConns) | None => Z.max 1 (readaheadK r) end in
  if 0 <? ReadaheadMaxSlots then Z.min n ReadaheadMaxSlots else n.
Definition prefetchWorkers (r : readahead) : Z := readaheadSlots r.
(** The gate's size, which prefetchGate makes at least 1. *)
Definition prefetchGate (slots : Z) : Z := Z.max 1 slots.

Definition readaheadBudget (r : readahead) (c : ArticleCache) : Z :=
  let share := readaheadShare c in
  if (0 <? share) && ((readaheadBytes r <=? 0) || (share <? readaheadBytes r)) then share else readaheadBytes r.

Definition setBoost (r : readahead) (c : ArticleCache) (want : Z) : Z * readahead * ArticleCache :=
  if want =? raBoost r then (raBoost r, r, c)
  else let '(b, c') := resizeBoost c (raBoost r) want in (b, set_boost r b, c').
(** The timer's call on a reader that is idle, or not. *)
Definition expireBoost (r : readahead) (c : ArticleCache) (idle : bool) : readahead * ArticleCache :=
  if (raBoost r =? 0) || negb idle then (r, c)
  else let '(b, c') := resizeBoost c (raBoost r) 0 in (set_boost r b, c').
Definition releaseBoost (r : readahead) (c : ArticleCache) : readahead * ArticleCache :=
  if raBoost r =? 0 then (r, c)
  else let '(b, c') := resizeBoost c (raBoost r) 0 in (set_boost r b, c').

Definition boostedBudget (r : readahead) (c : ArticleCache) (need : Z) : Z * readahead * ArticleCache :=
  let budget := readaheadBudget r c in
  if budget <=? 0 then (budget, r, c)
  else
    let want := if (1 <? raScale r) && (0 <? boostCeiling c) then Z.max 0 (need - budget) else 0 in
    let '(b, r', c') := setBoost r c want in (budget + b, r', c').

(** The article window before the byte budget. *)
Definition article_window (r : readahead) : Z :=
  let k := readaheadK r in
  Z.min (if 1 <? raScale r then Z.min (k * raScale r) (rampCeiling r) else k) ReadaheadMaxArticles.
Definition readaheadWindow (r : readahead) (c : ArticleCache) (articleBytes : Z) : Z * readahead * ArticleCache :=
  if readaheadK r <=? 0 then (0, r, c)
  else
    let k := article_window r in
    if 0 <? articleBytes then
      let '(budget, r', c') := boostedBudget r c (k * articleBytes) in
      (if 0 <? budget then Z.min k (Z.quot budget articleBytes) else k, r', c')
    else (k, r, c).

(** ** The queue *)

(** The queue after enqueue, and how many workers it starts. *)
Definition enqueue (q : prefetchQueue) (slots front_ : Z) (want : gmap Z pendingArticle) : Z * prefetchQueue :=
  let spawn := Z.min (Z.of_nat (size want)) (slots - workers q) in
  (Z.max 0 spawn, mkQueue want (workers q + Z.max 0 spawn) front_ (dropped q) (lastFront q) (lastK q)).
Definition dropReadahead (q : prefetchQueue) : prefetchQueue :=
  mkQueue ∅ (workers q) (front q) (dropped q) (-1) (lastK q).
Definition takeDropped (q : prefetchQueue) : bool * prefetchQueue :=
  (dropped q, mkQueue (pending q) (workers q) (front q) false (lastFront q) (lastK q)).
Definition retire (q : prefetchQueue) : prefetchQueue :=
  mkQueue (pending q) (workers q - 1) (front q) (dropped q) (lastFront q) (lastK q).
Definition mark_dropped (q : prefetchQueue) : prefetchQueue :=
  mkQueue (pending q) (workers q) (front q) true (lastFront q) (lastK q).

(** The scan of next: whatever order the map is ranged over in, the least key. *)
Definition lowest (m : gmap Z pendingArticle) : option Z :=
  map_fold (fun k _ best => Some (match best with Some b => Z.min k b | None => k end)) None m.
Definition next (q : prefetchQueue) : option (Z * pendingArticle) * prefetchQueue :=
  let ahead := filter (fun km => front q < fst km) (pending q) in
  match lowest ahead with
  | None => (None, mkQueue ahead (workers q - 1) (front q) (dropped q) (lastFront q) (lastK q))
  | Some best =>
      match ahead !! best with
      | Some a => (Some (best, a), mkQueue (delete best ahead) (workers q) (front q) (dropped q) (lastFront q) (lastK q))
      | None => (None, q)
      end
  end.

(** The articles after [fromSeg], [k] of them or up to the end of the file. *)
Definition want_from (ix : OffsetIndex) (fromSeg k : Z) : gmap Z pendingArticle :=
  list_to_map (omap (fun j => (fun s => (j, mkPending (sMessageID s) (sBytes s))) <$> segs ix !! Z.to_nat j)
    (map (fun i => fromSeg + 1 + Z.of_nat i) (seq 0 (Z.to_nat (Z.min k (Z.of_nat (length (segs ix)) - 1 - fromSeg)))))).

Definition triggerReadahead (r : readahead) (c : ArticleCache) (ix : OffsetIndex) (fromSeg articleBytes : Z)
    : Z * readahead * ArticleCache :=
  if readaheadK r <=? 0 then (0, r, c)
  else
    let c := if raCounted r then c else countReadahead c 1 in
    let r := rampReadahead (set_counted r) fromSeg in
    let '(same, r) :=
      if fromSeg =? lastFront (pq r)
      then let '(d, q) := takeDropped (pq r) in (negb d, set_pq r q)
      else (false, r) in
    if same then (0, r, c)
    else
      let q := pq r in
      let r := set_pq r (mkQueue (pending q) (workers q) (front q) (dropped q) fromSeg (lastK q)) in
      let '(k, r, c) := readaheadWindow r c articleBytes in
      if k <=? 0 then (0, r, c)
      else
        let q := pq r in
        let q := mkQueue (pending q) (workers q) (front q) (dropped q) (lastFront q) k in
        let '(spawn, q) := enqueue q (prefetchWorkers r) fromSeg (want_from ix fromSeg k) in
        (spawn, set_pq r q, c).

(** [held] says whether the reader's current article covers the position. *)
Definition arrivedAt (r : readahead) (ix : OffsetIndex) (pos : Z) (held : bool) : option Z :=
  if (readaheadK r <=? 0) || held then None
  else if smallPool concurrency then None
  else
    match LocateExact ix pos with
    | Some (seg, true) =>
        let seg := Z.of_nat seg in
        if (seg =? lastSeg r) || ((0 <=? lastSeg r) && (seg =? lastSeg r + 1)) then None else Some seg
    | _ => None
    end.
Definition readaheadOnArrival (r : readahead) (c : ArticleCache) (ix : OffsetIndex) (pos : Z) (held : bool)
    : Z * readahead * ArticleCache :=
  match arrivedAt r ix pos held with
  | None => (0, r, c)
  | Some seg =>
      let r := rampReadahead r seg in
      let bytes := match segs ix !! Z.to_nat seg with Some s => sBytes s | None => 0 end in
      if bytes <=? 0 then (0, r, c)
      else
        let '(w, r, c) := readaheadWindow r c bytes in
        let k := Z.min arrivalReadahead w in
        let '(spawn, q) := enqueue (pq r) (prefetchWorkers r) seg (want_from ix seg k) in
        (spawn, set_pq r q, c)
  end.

(** [since] is the time since the last Read. *)
Definition readerIdle (idleWindow since : Z) : bool := if idleWindow <=? 0 then false else idleWindow <? since.
End Reader.

(** * The ramp *)

Section Ramp.
Context (concurrency : option Z).
Local Abbreviation rampCeiling := (rampCeiling concurrency).
Local Abbreviation scaleReadahead := (scaleReadahead concurrency).
Local Abbreviation rampReadahead := (rampReadahead concurrency).

Record ramp_ok (r : readahead) : Prop := {
  ro_K : 0 <= readaheadK r;
  ro_scale : exists n : nat, raScale r = 2 ^ Z.of_nat n;
  ro_wide : raScale r = 1 \/ readaheadK r * raScale r < 2 * Z.min (rampCeiling r) ReadaheadMaxArticles;
  ro_calm : 0 <= calmRun r
}.

Lemma scale_pos r : ramp_ok r -> 1 <= raScale r.
Proof. intros [_ [n ->] _ _]. pose proof (Z.pow_pos_nonneg 2 (Z.of_nat n)). lia. Qed.

Lemma half_pow n : Z.quot (2 ^ Z.of_nat (S n)) 2 = 2 ^ Z.of_nat n.
Proof. rewrite Nat2Z.inj_succ, Z.pow_succ_r by lia. rewrite Z.mul_comm. apply Z.quot_mul. lia. Qed.

Lemma scaleReadahead_ok r : ramp_ok r -> ramp_ok (scaleReadahead r).
Proof.
  intros Hr. pose proof (scale_pos r Hr) as Hp. destruct Hr as [HK [n Hn] Hw Hc]. unfold Readahead.scaleReadahead. case_if; bprop.
  - case_if; bprop; [|constructor; cbn; try done; try lia; by exists n].
    destruct n as [|n]; [rewrite Hn in *; cbn in *; lia|].
    assert (Hh : Z.quot (raScale r) 2 = 2 ^ Z.of_nat n) by (by rewrite Hn, half_pow).
    rewrite Nat2Z.inj_succ, Z.pow_succ_r in Hn by lia.
    pose proof (Z.pow_pos_nonneg 2 (Z.of_nat n)). constructor; cbn; try done; try lia; [by exists n|].
    destruct Hw as [?|Hw]; [lia|]. right. unfold Readahead.rampCeiling in *. cbn in *. rewrite Hh. nia.
  - case_if; bprop; constructor; cbn; try done; try lia; try (by exists n).
    + exists (S n). rewrite Hn, Nat2Z.inj_succ, Z.pow_succ_r by lia. lia.
    + right. unfold Readahead.rampCeiling in *. cbn in *. lia.
Qed.

Lemma rampReadahead_ok r seg : ramp_ok r -> ramp_ok (rampReadahead r seg).
Proof.
  intros Hr. unfold Readahead.rampReadahead. case_if; [done|].
  assert (Hset : forall x s l, ramp_ok x -> ramp_ok (set_ramp x (raScale x) l s (calmRun x)))
    by (intros x s l [H1 H2 H3 H4]; by constructor).
  case_if; cbn zeta.
  - apply Hset, scaleReadahead_ok, Hset, Hr.
  - apply Hset. destruct Hr as [H1 H2 H3 H4]. constructor; cbn; try done; [by exists 0%nat|by left].
Qed.

(** ** Calm reading narrows the window *)

(** The consumer moves on to the next article without having waited. *)
Definition read_calm (r : readahead) : readahead :=
  let r := mkRA (readaheadK r) (readaheadBytes r) (raScale r) (lastSeg r) false (seqRun r) (calmRun r)
             (raCounted r) (raBoost r) (pq r) in
  rampReadahead r (lastSeg r + 1).

Lemma read_calm_step r :
  readaheadK (read_calm r) = readaheadK r /\
  (raScale (read_calm r), calmRun (read_calm r)) =
    if (1 <? raScale r) && (readaheadK r * raScale r <=? calmRun r + 1)
    then (Z.quot (raScale r) 2, 0) else (raScale r, calmRun r + 1).
Proof.
  unfold read_calm, Readahead.rampReadahead. cbn [lastSeg].
  rewrite (proj2 (Z.eqb_neq (lastSeg r + 1) (lastSeg r))), Z.eqb_refl by lia.
  unfold Readahead.scaleReadahead, set_ramp. cbn. by case_if.
Qed.

Fixpoint calm_reads (n : nat) (r : readahead) : readahead :=
  match n with O => r | S n' => read_calm (calm_reads n' r) end.
Lemma calm_reads_add a b r : calm_reads (a + b) r = calm_reads a (calm_reads b r).
Proof. induction a as [|a IH]; [done|]. cbn [Nat.add calm_reads]. by rewrite IH. Qed.
Lemma calm_K n r : readaheadK (calm_reads n r) = readaheadK r.
Proof. induction n as [|n IH]; [done|]. cbn [calm_reads]. by destruct (read_calm_step (calm_reads n r)) as [-> _]. Qed.

Lemma calm_at_base n r : raScale r = 1 -> raScale (calm_reads n r) = 1.
Proof.
  intros H. induction n as [|n IH]; [done|]. cbn [calm_reads].
  destruct (read_calm_step (calm_reads n r)) as [_ Hs]. rewrite IH in Hs. cbn in Hs. by injection Hs as -> _.
Qed.

(** One halving takes at most a window's worth of articles. *)
Lemma calm_halves n r :
  0 < readaheadK r -> raScale r = 2 ^ Z.of_nat (S n) -> 0 <= calmRun r ->
  exists i, (1 <= i)%nat /\ Z.of_nat i <= Z.max 1 (readaheadK r * raScale r - calmRun r) /\
    raScale (calm_reads i r) = 2 ^ Z.of_nat n /\ calmRun (calm_reads i r) = 0.
Proof.
  intros HK Hs Hc. remember (Z.to_nat (readaheadK r * raScale r - calmRun r)) as m eqn:Em.
  revert r HK Hs Hc Em. induction m as [m IH] using lt_wf_ind; intros r HK Hs Hc Em.
  assert (H2 : 1 < raScale r).
  { rewrite Hs, Nat2Z.inj_succ, Z.pow_succ_r by lia. pose proof (Z.pow_pos_nonneg 2 (Z.of_nat n)). lia. }
  destruct (read_calm_step r) as [K1 S1]. rewrite (proj2 (Z.ltb_lt 1 _) H2) in S1. cbn [andb] in S1.
  destruct (Z.leb_spec (readaheadK r * raScale r) (calmRun r + 1)) as [Hle|Hgt]; injection S1 as S1 C1.
  - exists 1%nat. cbn [calm_reads]. rewrite S1, C1, Hs, half_pow. split_and!; [done|lia|done|done].
  - destruct (IH (Z.to_nat (readaheadK (read_calm r) * raScale (read_calm r) - calmRun (read_calm r)))
      ltac:(rewrite K1, S1, C1; lia) (read_calm r)) as (i & Hi & Hb & Hr & Hcm); try done; try lia; try congruence.
    exists (i + 1)%nat. rewrite calm_reads_add. rewrite K1, S1, C1 in Hb. split_and!; [lia|lia|exact Hr|exact Hcm].
Qed.

Lemma calm_narrow_aux n r N :
  0 < readaheadK r -> raScale r = 2 ^ Z.of_nat n -> 0 <= calmRun r ->
  readaheadK r * (2 ^ Z.of_nat (S n) - 2) <= Z.of_nat N -> raScale (calm_reads N r) = 1.
Proof.
  revert r N. induction n as [|n IH]; intros r N HK Hs Hc HN; [by apply calm_at_base|].
  destruct (calm_halves n r HK Hs Hc) as (i & Hi & Hb & Hr & Hcm).
  assert (Hp : 2 ^ Z.of_nat (S (S n)) = 2 * 2 ^ Z.of_nat (S n)) by (rewrite (Nat2Z.inj_succ (S n)), Z.pow_succ_r by lia; done).
  assert (Hq : 2 ^ Z.of_nat (S n) = 2 * 2 ^ Z.of_nat n) by (rewrite Nat2Z.inj_succ, Z.pow_succ_r by lia; done).
  pose proof (Z.pow_pos_nonneg 2 (Z.of_nat n)). rewrite Hs in Hb.
  assert (Hle : (i <= N)%nat) by nia.
  replace N with ((N - i) + i)%nat by lia. rewrite calm_reads_add. apply IH; rewrite ?calm_K; try done; [lia|].
  rewrite Hp, Hq in HN. rewrite Hq in *. nia.
Qed.
End Ramp.

(** * The window and the boost *)

Lemma setBoost_spec r c want b r' c' :
  0 <= raBoost r <= boosted c -> boosted c <= boostCeiling c -> 0 <= want -> setBoost r c want = (b, r', c') ->
  0 <= b <= boostCeiling c /\ raBoost r' = b /\ readaheadK r' = readaheadK r /\ raScale r' = raScale r /\ pq r' = pq r.
Proof.
  intros Hb Hc Hw. unfold setBoost. case_if; bprop; [intros [= <- <- <-]; split_and!; try done; lia|].
  unfold resizeBoost. cbn zeta. intros [= <- <- <-]. cbn. split_and!; try done; lia.
Qed.

(** The ramp's steps as the consumer drives them: the articles it reads, and
    whether it waited for each. *)
Definition read_article (concurrency : option Z) (r : readahead) (x : Z * bool) : readahead :=
  rampReadahead concurrency
    (mkRA (readaheadK r) (readaheadBytes r) (raScale r) (lastSeg r) (snd x) (seqRun r) (calmRun r)
       (raCounted r) (raBoost r) (pq r)) (fst x).
Definition read_articles (concurrency : option Z) (xs : list (Z * bool)) : readahead :=
  fold_left (read_article concurrency) xs openReadahead.

Lemma read_article_frame concurrency r x :
  readaheadK (read_article concurrency r x) = readaheadK r /\ readaheadBytes (read_article concurrency r x) = readaheadBytes r /\
  raBoost (read_article concurrency r x) = raBoost r /\ pq (read_article concurrency r x) = pq r.
Proof.
  unfold read_article, rampReadahead, scaleReadahead. repeat (case_if; cbn); done.
Qed.
Lemma read_articles_spec concurrency xs :
  let r := read_articles concurrency xs in
  ramp_ok concurrency r /\ readaheadK r = ReadaheadArticles /\ readaheadBytes r = ReadaheadBytes /\ raBoost r = 0.
Proof.
  unfold read_articles. assert (H0 : ramp_ok concurrency openReadahead /\ readaheadK openReadahead = ReadaheadArticles /\
    readaheadBytes openReadahead = ReadaheadBytes /\ raBoost openReadahead = 0).
  { split_and!; try done. constructor; [done|by exists 0%nat|by left|done]. }
  revert H0. generalize openReadahead. induction xs as [|x xs IH]; intros r (Hr & HK & HB & Hb); cbn [fold_left]; [done|].
  apply IH. destruct (read_article_frame concurrency r x) as (-> & -> & -> & _). split_and!; try done.
  apply rampReadahead_ok. destruct Hr as [H1 H2 H3 H4]. by constructor.
Qed.

Lemma article_window_bounds concurrency r :
  ramp_ok concurrency r -> 0 < readaheadK r <= ReadaheadMaxArticles ->
  1 <= article_window concurrency r <= Z.min (rampCeiling concurrency r) ReadaheadMaxArticles.
Proof.
  intros Hr HK. pose proof (scale_pos concurrency r Hr) as Hs. unfold article_window, rampCeiling, ReadaheadMaxArticles in *.
  destruct concurrency; case_if; bprop; nia.
Qed.

(** Whatever the consumer does, the read-ahead window is between 0 and 32
    articles and never wider than the pool can keep busy; and in bytes of the
    article size at hand it never exceeds 16 MiB or the reader's share of the
    article cache, whichever is less, plus the cache boost granted to it, itself
    at most the boost ceiling. *)
Lemma window_bounded concurrency xs c articleBytes :
  0 < articleBytes -> 0 <= boosted c <= boostCeiling c -> 0 < readaheadShare c ->
  let r := read_articles concurrency xs in
  let '(k, r', _) := readaheadWindow concurrency r c articleBytes in
  0 <= k <= Z.min (rampCeiling concurrency r) ReadaheadMaxArticles /\
  k * articleBytes <= Z.min ReadaheadBytes (readaheadShare c) + raBoost r' /\ 0 <= raBoost r' <= boostCeiling c.
Proof.
  intros Ha Hb Hs r. destruct (read_articles_spec concurrency xs) as (Hr & HK & HB & Hbo). fold r in Hr, HK, HB, Hbo.
  pose proof (article_window_bounds concurrency r Hr ltac:(rewrite HK; done)) as Hw.
  unfold readaheadWindow. rewrite (proj2 (Z.leb_gt (readaheadK r) 0)) by (rewrite HK; done).
  rewrite (proj2 (Z.ltb_lt 0 articleBytes) Ha). unfold boostedBudget.
  set (k := article_window concurrency r) in *.
  assert (Hbud : readaheadBudget r c = Z.min ReadaheadBytes (readaheadShare c)).
  { unfold readaheadBudget. rewrite HB, (proj2 (Z.ltb_lt 0 _) Hs). cbn [andb].
    rewrite (proj2 (Z.leb_gt ReadaheadBytes 0)) by done. cbn [orb]. case_if; bprop; lia. }
  rewrite Hbud. set (budget := Z.min ReadaheadBytes (readaheadShare c)) in *.
  assert (Hpos : 0 < budget) by (unfold budget; apply Z.min_glb_lt; done).
  rewrite (proj2 (Z.leb_gt budget 0) Hpos).
  match goal with |- context [setBoost r c ?w] => set (want := w) end. assert (Hwant : 0 <= want) by (unfold want; case_if; lia).
  destruct (setBoost r c want) as [[b r'] c'] eqn:ES.
  destruct (setBoost_spec r c want b r' c' ltac:(lia) (proj2 Hb) Hwant ES) as (Hg & Hb' & _).
  rewrite (proj2 (Z.ltb_lt 0 (budget + b))) by lia. rewrite Hb'.
  pose proof (Z.quot_pos (budget + b) articleBytes ltac:(lia) Ha).
  pose proof (Z.mul_quot_le (budget + b) articleBytes ltac:(lia) ltac:(lia)). split_and!; nia.
Qed.

(** A consumer that stops waiting gets its window narrowed back: from any
    widening, after twice the current window's worth of articles read in order
    without a wait, the window is the base one again. *)
Lemma calm_reader_narrows concurrency r N :
  ramp_ok concurrency r -> 0 < readaheadK r -> 2 * (readaheadK r * raScale r) <= Z.of_nat N ->
  raScale (calm_reads concurrency N r) = 1.
Proof.
  intros Hr HK HN. destruct Hr as [_ [n Hn] _ Hc]. apply (calm_narrow_aux concurrency n); try done.
  rewrite Hn in HN. rewrite Nat2Z.inj_succ, Z.pow_succ_r by lia. lia.
Qed.

(** ** The boosts of all readers *)

Inductive boostEvent := BSet (i : nat) (want : Z) | BExpire (i : nat) (idle : bool) | BRelease (i : nat).
Definition boost_step (s : ArticleCache * list readahead) (ev : boostEvent) : ArticleCache * list readahead :=
  let '(c, rs) := s in
  let on i (f : readahead -> readahead * ArticleCache) :=
    match rs !! i with Some r => let '(r', c') := f r in (c', <[i := r']> rs) | None => s end in
  match ev with
  | BSet i want => on i (fun r => let '(_, r', c') := setBoost r c (Z.max 0 want) in (r', c'))
  | BExpire i idle => on i (fun r => expireBoost r c idle)
  | BRelease i => on i (fun r => releaseBoost r c)
  end.

Record boosts_ok (c : ArticleCache) (rs : list readahead) : Prop := {
  bo_sum : boosted c = zsum raBoost rs;
  bo_each : Forall (fun r => 0 <= raBoost r) rs;
  bo_ceiling : boosted c <= boostCeiling c;
  bo_max : maxBytes c = baseBytes c + boosted c
}.

Lemma evict_bounds fuel c : same_rest c (evict fuel c).
Proof.
  revert c. induction fuel as [|fuel IH]; intros c; cbn [evict]; [apply same_rest_refl|].
  case_if; [|apply same_rest_refl]. destruct (last (lru c)) as [e|]; [|apply same_rest_refl].
  eapply same_rest_trans; [|apply IH]. unfold removeLocked.
  exact (proj1 (releaseLocked_rest (set_lru c (without (ekey e) (lru c)) (used c - esize e)) (epart e))).
Qed.

Lemma sum_at_least rs i r : Forall (fun r => 0 <= raBoost r) rs -> rs !! i = Some r -> raBoost r <= zsum raBoost rs.
Proof.
  intros HF. revert i. induction HF as [|x rs Hx HF IH]; intros [|i] Hi; try done; cbn in Hi; rewrite zsum_cons.
  - injection Hi as ->. assert (0 <= zsum raBoost rs); [|lia]. clear -HF.
    induction HF; rewrite ?zsum_nil, ?zsum_cons; lia.
  - specialize (IH i Hi). lia.
Qed.

(** A reader's move from the boost it holds to what it is granted of [want]. *)
Lemma resize_ok c rs i r want :
  boosts_ok c rs -> rs !! i = Some r -> 0 <= want ->
  let '(b, c') := resizeBoost c (raBoost r) want in boosts_ok c' (<[i := set_boost r b]> rs).
Proof.
  intros [H1 H2 H3 H4] Hi Hw. unfold resizeBoost. cbn zeta.
  pose proof (sum_at_least rs i r H2 Hi) as Hs. pose proof (Forall_lookup_1 _ _ _ _ H2 Hi) as Hr. cbn in Hr.
  set (grant := Z.max 0 (Z.min want (boostCeiling c - (boosted c - raBoost r)))).
  set (c1 := set_bounds c (baseBytes c + (boosted c + (grant - raBoost r))) (boosted c + (grant - raBoost r))).
  destruct (evict_bounds (length (lru c1)) c1) as (R1 & _ & _ & _ & R5 & R6 & R7 & _).
  constructor; rewrite ?R1, ?R5, ?R6, ?R7; cbn.
  - rewrite (zsum_insert _ _ _ _ _ Hi). cbn. lia.
  - apply Forall_insert; [done|]. cbn. lia.
  - lia.
  - done.
Qed.

Lemma boost_step_ok s ev : boosts_ok (fst s) (snd s) -> boosts_ok (fst (boost_step s ev)) (snd (boost_step s ev)).
Proof.
  destruct s as [c rs]. cbn [fst snd]. intros H.
  assert (Hsame : forall i r, rs !! i = Some r -> boosts_ok c (<[i := r]> rs)) by (intros i r Hi; by rewrite list_insert_id).
  destruct ev as [i want|i idle|i]; cbn [boost_step]; (destruct (rs !! i) as [r|] eqn:Hi; [|done]).
  - unfold setBoost. case_if; [by apply Hsame|].
    pose proof (resize_ok c rs i r (Z.max 0 want) H Hi ltac:(lia)) as HR. by destruct (resizeBoost c (raBoost r) (Z.max 0 want)).
  - unfold expireBoost. case_if; [by apply Hsame|].
    pose proof (resize_ok c rs i r 0 H Hi ltac:(lia)) as HR. by destruct (resizeBoost c (raBoost r) 0).
  - unfold releaseBoost. case_if; [by apply Hsame|].
    pose proof (resize_ok c rs i r 0 H Hi ltac:(lia)) as HR. by destruct (resizeBoost c (raBoost r) 0).
Qed.

(** The cache is grown by exactly what its readers hold, in whatever order
    they borrow, go idle, come back and close: the cache's boost is the sum of
    the readers' boosts, none of them negative, never above the ceiling, and the
    byte bound is the base size plus that sum; so once every reader has given
    its boost back the cache is at its base size. *)
Lemma boosts_conserved c n evs :
  boosted c = 0 -> 0 <= boostCeiling c -> maxBytes c = baseBytes c ->
  let '(c', rs) := fold_left boost_step evs (c, replicate n openReadahead) in
  boosted c' = zsum raBoost rs /\ Forall (fun r => 0 <= raBoost r) rs /\ boosted c' <= boostCeiling c' /\
  maxBytes c' = baseBytes c' + zsum raBoost rs.
Proof.
  intros H1 H2 H3.
  assert (H0 : boosts_ok c (replicate n openReadahead)).
  { assert (Hz : zsum raBoost (replicate n openReadahead) = 0)
      by (induction n as [|n IH]; [done|]; cbn [replicate]; rewrite zsum_cons, IH; done).
    constructor; try lia. by apply Forall_replicate. }
  assert (Hgen : forall s, boosts_ok (fst s) (snd s) ->
    boosts_ok (fst (fold_left boost_step evs s)) (snd (fold_left boost_step evs s))).
  { clear. induction evs as [|ev evs IH]; intros s Hs; cbn [fold_left]; [done|]. by apply IH, boost_step_ok. }
  specialize (Hgen (c, replicate n openReadahead) H0).
  destruct (fold_left boost_step evs (c, replicate n openReadahead)) as [c' rs]. destruct Hgen as [G1 G2 G3 G4].
  cbn [fst snd] in *. split_and!; try done. lia.
Qed.

(** * The queue *)

Lemma lowest_spec m :
  match lowest m with
  | None => m = ∅
  | Some b => is_Some (m !! b) /\ forall k, is_Some (m !! k) -> b <= k
  end.
Proof.
  unfold lowest. apply (map_fold_weak_ind (fun r m => match r with
    | None => m = ∅ | Some b => is_Some (m !! b) /\ forall k, is_Some (m !! k) -> b <= k end)); [done|].
  intros k x m' best Hk IH. destruct best as [b|].
  - destruct IH as [Hb Hmin]. split.
    + destruct (Z.min_spec k b) as [[_ ->]|[_ ->]]; [by rewrite lookup_insert_eq|].
      destruct (decide (k = b)) as [->|?]; [by rewrite lookup_insert_eq|by rewrite lookup_insert_ne].
    + intros j Hj. destruct (decide (j = k)) as [->|?]; [lia|]. rewrite lookup_insert_ne in Hj by done. specialize (Hmin j Hj). lia.
  - subst m'. split; [by rewrite lookup_insert_eq|]. intros j Hj.
    destruct (decide (j = k)) as [->|?]; [lia|]. rewrite lookup_insert_ne, lookup_empty in Hj by done. by destruct Hj.
Qed.

(** Next hands a worker the lowest queued segment ahead of the consumer's
    front, with its own article, and takes it out of the queue together with
    everything the consumer has passed; it retires the worker exactly when
    nothing queued is ahead of the front. *)
Lemma next_lowest_ahead q :
  match next q with
  | (Some (seg, a), q') =>
      front q < seg /\ pending q !! seg = Some a /\
      (forall k, is_Some (pending q !! k) -> front q < k -> seg <= k) /\
      (forall k, pending q' !! k = if bool_decide (front q < k /\ k <> seg) then pending q !! k else None) /\
      workers q' = workers q /\ front q' = front q
  | (None, q') =>
      (forall k, front q < k -> pending q !! k = None) /\ pending q' = ∅ /\ workers q' = workers q - 1 /\ front q' = front q
  end.
Proof.
  unfold next. set (ahead := filter (fun km => front q < fst km) (pending q)).
  assert (Hah : forall k a, ahead !! k = Some a <-> pending q !! k = Some a /\ front q < k)
    by (intros k a; unfold ahead; by rewrite map_lookup_filter_Some).
  pose proof (lowest_spec ahead) as HL. destruct (lowest ahead) as [b|].
  - destruct HL as [[a Ha] Hmin]. rewrite Ha. destruct (proj1 (Hah b a) Ha) as [Hp Hf]. cbn [workers pending front]. split_and!; try done.
    + intros k [x Hx] Hk. apply Hmin. exists x. by apply Hah.
    + intros k. destruct (decide (k = b)) as [->|Hne].
      { rewrite lookup_delete_eq, bool_decide_false by tauto. done. }
      rewrite lookup_delete_ne by done. case_bool_decide as Hd.
      * apply option_eq. intros x. rewrite Hah. tauto.
      * apply eq_None_not_Some. intros [x Hx]. apply Hah in Hx as [_ Hx]. tauto.
  - cbn [workers pending front]. split_and!; try done. intros k Hk. apply eq_None_not_Some. intros [x Hx].
    assert (ahead !! k = Some x) as Hc by (by apply Hah). by rewrite HL, lookup_empty in Hc.
Qed.

(** The queue with its workers: [running] goroutines, and what they were handed. *)
Record queueSystem := mkQS { queue : prefetchQueue; running : Z; handed : list (Z * pendingArticle) }.
Inductive queueEvent :=
| QEnqueue (slots front_ : Z) (want : gmap Z pendingArticle)
| QNext                (* a worker asks for work *)
| QIdle                (* a worker found the reader idle *)
| QRetire              (* a worker leaves because the reader closed *)
| QDrop | QTakeDropped (* the consumer's *).
Definition queue_step (s : queueSystem) (ev : queueEvent) : queueSystem :=
  match ev with
  | QEnqueue slots f want =>
      let '(spawn, q) := enqueue (queue s) slots f want in mkQS q (running s + spawn) (handed s)
  | QNext =>
      if running s <=? 0 then s
      else match next (queue s) with
           | (Some x, q) => mkQS q (running s) (handed s ++ [x])
           | (None, q) => mkQS q (running s - 1) (handed s)
           end
  | QIdle => mkQS (mark_dropped (queue s)) (running s) (handed s)
  | QRetire => if running s <=? 0 then s else mkQS (retire (queue s)) (running s - 1) (handed s)
  | QDrop => mkQS (dropReadahead (queue s)) (running s) (handed s)
  | QTakeDropped => mkQS (snd (takeDropped (queue s))) (running s) (handed s)
  end.
Definition run_queue (evs : list queueEvent) : queueSystem :=
  fold_left queue_step evs (mkQS (pq openReadahead) 0 []).

(** The slots stay between 1 and [maxSlots], and the reader is not closed. *)
Definition open_event_ok (maxSlots : Z) (ev : queueEvent) : Prop :=
  match ev with QEnqueue slots _ _ => 1 <= slots <= maxSlots | QRetire => False | _ => True end.

Record queue_ok (maxSlots : Z) (s : queueSystem) : Prop := {
  qo_workers : workers (queue s) = running s;
  qo_range : 0 <= running s <= maxSlots;
  qo_served : (exists k, is_Some (pending (queue s) !! k) /\ front (queue s) < k) -> 0 < running s
}.

Lemma next_spec q :
  match next q with
  | (Some _, q') => workers q' = workers q /\ front q' = front q
  | (None, q') => workers q' = workers q - 1 /\ pending q' = ∅
  end.
Proof.
  unfold next. set (ahead := filter _ _). pose proof (lowest_spec ahead) as HL. destruct (lowest ahead) as [b|]; [|done].
  by destruct HL as [[a ->] _].
Qed.

Lemma queue_step_ok maxSlots s ev : open_event_ok maxSlots ev -> queue_ok maxSlots s -> queue_ok maxSlots (queue_step s ev).
Proof.
  intros Hev [H1 H2 H3]. destruct ev as [slots f want| | | | |]; cbn [queue_step open_event_ok] in *.
  - unfold enqueue. constructor; cbn; [lia|lia|]. intros (k & Hk & _).
    assert (size want <> 0%nat); [|lia]. intros Hz%map_size_empty_inv. rewrite Hz, lookup_empty in Hk. by destruct Hk.
  - case_if; bprop; [by constructor|]. pose proof (next_spec (queue s)) as HN. destruct (next (queue s)) as [[x|] q'].
    + destruct HN as (Hw & _). constructor; cbn; [congruence|lia|]. intros _. lia.
    + destruct HN as (Hw & Hp). constructor; cbn; [lia|lia|]. intros (k & Hk & _). rewrite Hp, lookup_empty in Hk. by destruct Hk.
  - by constructor.
  - done.
  - constructor; cbn; [done|done|]. intros (k & Hk & _). rewrite lookup_empty in Hk. by destruct Hk.
  - by constructor.
Qed.

(** Read-ahead keeps its workers in hand: through any interleaving of the
    consumer's queueing, seeking and pausing with the workers' requests, the
    worker count is the number of workers running, it never exceeds the slots,
    and as long as an article is queued ahead of the consumer some worker runs,
    so that no queued article is left behind. *)
Lemma queue_workers maxSlots evs :
  0 <= maxSlots -> Forall (open_event_ok maxSlots) evs ->
  let s := run_queue evs in
  workers (queue s) = running s /\ 0 <= running s <= maxSlots /\
  ((exists k, is_Some (pending (queue s) !! k) /\ front (queue s) < k) -> 0 < running s).
Proof.
  intros Hm Hev. unfold run_queue.
  assert (H0 : queue_ok maxSlots (mkQS (pq openReadahead) 0 [])).
  { constructor; cbn; [done|lia|]. intros (k & Hk & _). rewrite lookup_empty in Hk. by destruct Hk. }
  assert (Hgen : forall s, queue_ok maxSlots s -> queue_ok maxSlots (fold_left queue_step evs s)).
  { induction Hev as [|ev evs Hev _ IH]; intros s Hs; cbn [fold_left]; [done|]. by apply IH, queue_step_ok. }
  by destruct (Hgen _ H0) as [G1 G2 G3].
Qed.

(** A reader that starts at the beginning of a file reads nothing ahead while
    it is on the first article: the queue's last front starts at 0, so the first
    trigger, at segment 0, takes the window for one already queued. *)
Lemma first_article_not_read_ahead concurrency c ix articleBytes :
  let '(spawn, r, _) := triggerReadahead concurrency openReadahead c ix 0 articleBytes in
  spawn = 0 /\ pending (pq r) = ∅ /\ lastSeg r = 0.
Proof. done. Qed.

(** ** Witnesses *)

(** A consumer on a 20-connection pool that waits for every article. *)
Definition hungry : list (Z * bool) := map (fun i => (Z.of_nat i, true)) (seq 0 12).
Definition sample_cache : ArticleCache := countReadahead (NewArticleCache (Z.shiftl 32 20) (Z.shiftl 96 20)) 1.

Lemma window_bounded_witness :
  raScale (read_articles (Some 20) hungry) = 8 /\
  let '(k, r', _) := readaheadWindow (Some 20) (read_articles (Some 20) hungry) sample_cache 750000 in
  0 <= k <= 32 /\ k * 750000 <= Z.shiftl 16 20 + raBoost r' /\ 0 <= raBoost r' <= Z.shiftl 96 20.
Proof.
  split; [vm_compute; reflexivity|].
  pose proof (window_bounded (Some 20) hungry sample_cache 750000 ltac:(lia) ltac:(split; vm_compute; discriminate) eq_refl) as H.
  cbv zeta in H. destruct (readaheadWindow (Some 20) (read_articles (Some 20) hungry) sample_cache 750000) as [[k r'] c'].
  destruct H as (H1 & H2 & H3). split; [|split; [exact H2|exact H3]].
  change (rampCeiling (Some 20) (read_articles (Some 20) hungry)) with 40 in H1. unfold ReadaheadMaxArticles in H1. lia.
Defined.

Lemma hungry_ok : ramp_ok (Some 20) (read_articles (Some 20) hungry).
Proof. apply read_articles_spec. Defined.
Lemma calm_reader_narrows_witness :
  raScale (read_articles (Some 20) hungry) = 8 /\
  raScale (calm_reads (Some 20) 64 (read_articles (Some 20) hungry)) = 1.
Proof.
  split; [vm_compute; reflexivity|].
  apply (calm_reader_narrows (Some 20) (read_articles (Some 20) hungry) 64); [exact hungry_ok|vm_compute; reflexivity|vm_compute; discriminate].
Defined.

Definition sample_boosts : list boostEvent := [BSet 0 100; BSet 1 (Z.shiftl 96 20); BExpire 0 true; BSet 0 7; BRelease 1].
Lemma boosts_conserved_witness :
  let '(c', rs) := fold_left boost_step sample_boosts (sample_cache, replicate 2 openReadahead) in
  map raBoost rs = [7; 0] /\ boosted c' = zsum raBoost rs.
Proof.
  pose proof (boosts_conserved sample_cache 2 sample_boosts eq_refl ltac:(vm_compute; discriminate) eq_refl) as H.
  destruct (fold_left boost_step sample_boosts (sample_cache, replicate 2 openReadahead)) as [c' rs] eqn:E.
  split; [|exact (proj1 H)]. vm_compute in E. injection E as _ <-. reflexivity.
Defined.

Definition sample_want : gmap Z pendingArticle := <[4 := mkPending [97] 10]> (<[3 := mkPending [98] 10]> ∅).
Definition sample_queue_events : list queueEvent := [QEnqueue 8 2 sample_want; QNext; QIdle; QTakeDropped].
Lemma queue_workers_witness :
  running (run_queue sample_queue_events) = 2 /\ workers (queue (run_queue sample_queue_events)) = running (run_queue sample_queue_events).
Proof.
  split; [vm_compute; reflexivity|]. apply (queue_workers 8 sample_queue_events); [lia|].
  repeat constructor; cbn; lia.
Defined.
