(* ===== verification/Plan.v ===== *)
(** The streaming decision: internal/usenet/stream/plan.go.

    A plan is built from the NZB, the headers of its RAR volumes or one article
    of its video file, and a scope of the shared article cache, which is given up
    when the release turns out not to be streamable.  Articles come through the
    reader's [ArticleSource]; the RAR headers through the outcome of parsing
    them.  The reason of an unsupported plan is kept as a value, not as text. *)
From Stdlib Require Import ZArith Lia Ascii String.
From stdpp Require Import prelude list gmap strings.
From S2P Require Import Prelude GoStrings Yenc Nzb OffsetIndex RarParse RarStore ArticleCache Reader.

Open Scope Z_scope.

Inductive Kind := KindUnsupported | KindDirect | KindRarStore.
#[export] Instance Kind_eq_dec : EqDecision Kind.
Proof. solve_decision. Defined.

Inductive reason :=
| EmptyNZB | PasswordProtected | NoVideo | ManyVideos
| RarReason (why : string) | RarPanics | SizeUnknown (e : rderr).

(** [popens] says that [open] is set; [pcache] is the plan's scope. *)
Record StreamPlan := mkPlan {
  pkind : Kind; pVideoName : bytes; pVideoSize : Z; preason : option reason; popens : bool; pcache : option nat
}.
Definition unsupportedPlan (r : reason) : StreamPlan := mkPlan KindUnsupported [] 0 (Some r) false None.
Definition Streamable (p : StreamPlan) : bool := negb (bool_decide (pkind p = KindUnsupported)) && popens p.

(** Close, on the shared cache. *)
Definition ClosePlan (p : StreamPlan) (c : ArticleCache) : ArticleCache :=
  match pcache p with Some s => Release c s | None => c end.

Definition selectDirectVideo (n : NZB) : result reason File :=
  match List.filter (fun f => isVideoName (Filename f)) (ContentFiles n) with
  | [] => Err NoVideo
  | [v] => Ok v
  | _ => Err ManyVideos
  end.

Section Plan.
Context `{ArticleSource} `{GoSort Segment}.
(** What parsing the volumes' headers leads to. *)
Context (parse : list File -> outcome (list rarChunk)).

(** A throwaway reader: it holds the scope while it seeks to the end. *)
Definition establishSize (f : File) (c : ArticleCache) (s : nat) : result rderr Z * ArticleCache :=
  let c := retain c s in
  let '(r, _) := Seek (openReader (NewOffsetIndex f)) 0 2 in
  (r, unretain c s).

Definition PlanFile (f : File) (c : ArticleCache) : StreamPlan * ArticleCache :=
  let '(s, c) := NewScope c in
  match establishSize f c s with
  | (Err e, c) => (unsupportedPlan (SizeUnknown e), Release c s)
  | (Ok size, c) => (mkPlan KindDirect (Filename f) size None true (Some s), c)
  end.

Definition planRarStore (n : NZB) (c : ArticleCache) : StreamPlan * ArticleCache :=
  let '(s, c) := NewScope c in
  match probe (RarFiles n) parse with
  | Val rs => (mkPlan KindRarStore (videoName rs) (videoSize rs) None true (Some s), c)
  | NotStreamable why => (unsupportedPlan (RarReason why), Release c s)
  | Panics | Running => (unsupportedPlan RarPanics, c)
  end.

Definition planDirect (n : NZB) (c : ArticleCache) : StreamPlan * ArticleCache :=
  match selectDirectVideo n with
  | Err r => (unsupportedPlan r, c)
  | Ok video => PlanFile video c
  end.

Definition StreamPlanFromNZB (n : NZB) (c : ArticleCache) : StreamPlan * ArticleCache :=
  match nFiles n with
  | [] => (unsupportedPlan EmptyNZB, c)
  | _ =>
      match nPassword n with
      | _ :: _ => (unsupportedPlan PasswordProtected, c)
      | [] => if HasRars n then planRarStore n c else planDirect n c
      end
  end.
End Plan.

(** * The decision *)

(** The one directly posted video of a release. *)
Definition only_video (n : NZB) (v : File) : Prop :=
  v ∈ ContentFiles n /\ isVideoName (Filename v) = true /\
  forall l k, ContentFiles n = l ++ v :: k -> Forall (fun f => isVideoName (Filename f) = false) (l ++ k).

Lemma filter_single {A} (p : A -> bool) (xs : list A) (v : A) :
  List.filter p xs = [v] -> p v = true /\ v ∈ xs /\ forall l k, xs = l ++ v :: k -> Forall (fun x => p x = false) (l ++ k).
Proof.
  intros Hf. assert (Hv : v ∈ xs /\ p v = true).
  { assert (In v (List.filter p xs)) as [Hi Hp]%filter_In by (rewrite Hf; by left). split; [by apply list_elem_of_In|done]. }
  destruct Hv as [Hi Hp]. split_and!; try done. intros l k ->. rewrite List.filter_app in Hf. cbn in Hf. rewrite Hp in Hf.
  assert (Hnil : List.filter p l = [] /\ List.filter p k = []).
  { destruct (List.filter p l) as [|a la]; [by injection Hf|]. injection Hf as _ Hf. by destruct la. }
  destruct Hnil as [Hl Hk]. apply Forall_app.
  assert (Hall : forall m, List.filter p m = [] -> Forall (fun x => p x = false) m).
  { induction m as [|a m IH]; cbn; [constructor|]. destruct (p a) eqn:E; [done|]. intros Hm. constructor; [done|by apply IH]. }
  split; by apply Hall.
Qed.

Lemma selectDirectVideo_only n v : selectDirectVideo n = Ok v -> only_video n v.
Proof.
  unfold selectDirectVideo, only_video. destruct (List.filter _ (ContentFiles n)) as [|x [|]] eqn:E; try done.
  intros [= ->]. destruct (filter_single _ _ _ E) as (H1 & H2 & H3). by split_and!.
Qed.

(** A release is declared streamable only when it can be: it is not password
    protected; with RAR volumes their probe chose the video, whose name and size
    are the plan's; without them it has exactly one video among its content
    files, and the plan's size is the one its first article established. *)
Lemma plan_conservative `{ArticleSource} `{GoSort Segment} parse n c p c' :
  StreamPlanFromNZB parse n c = (p, c') -> Streamable p = true ->
  nFiles n <> [] /\ nPassword n = [] /\
  ((HasRars n = true /\ pkind p = KindRarStore /\
      exists rs, probe (RarFiles n) parse = Val rs /\ pVideoName p = videoName rs /\ pVideoSize p = videoSize rs) \/
   (HasRars n = false /\ pkind p = KindDirect /\
      exists v, only_video n v /\ pVideoName p = Filename v /\
        fst (Seek (openReader (NewOffsetIndex v)) 0 2) = Ok (pVideoSize p))).
Proof.
  unfold StreamPlanFromNZB. destruct (nFiles n) as [|f fs]; [by intros [= <- <-]|].
  destruct (nPassword n) as [|x pw]; [|by intros [= <- <-]]. intros HP HS. split_and!; [done|done|].
  destruct (HasRars n).
  - left. unfold planRarStore in HP. cbn [NewScope] in HP.
    destruct (probe (RarFiles n) parse) as [rs|why| |]; injection HP as <- <-; try done. split_and!; [done|done|]. by exists rs.
  - right. unfold planDirect in HP. destruct (selectDirectVideo n) as [v|r] eqn:Ev; [|by injection HP as <- <-].
    unfold PlanFile, establishSize in HP. cbn [NewScope] in HP.
    destruct (Seek (openReader (NewOffsetIndex v)) 0 2) as [[size|e] r'] eqn:Es; injection HP as <- <-; [|done].
    split_and!; [done|done|]. exists v. rewrite Es. split_and!; [by apply selectDirectVideo_only|done|done].
Qed.

(** The size a fresh reader's seek to the end returns. *)
Lemma Seek_end_exact `{ArticleSource} `{GoSort Segment} f len file size r' :
  posting f len -> Z.of_nat (length file) = pos len (parts f) -> honest f len file -> (0 < parts f)%nat ->
  Seek (openReader (NewOffsetIndex f)) 0 2 = (Ok size, r') -> size = Z.of_nat (length file).
Proof.
  intros Hpost Hfile Hhon Hn HS. pose proof (open_ok f len file) as Hok.
  unfold Seek in HS. cbn [Z.eqb Pos.eqb] in HS. unfold ensureSizeExact in HS.
  assert (Hsx : SizeExact (rix (openReader (NewOffsetIndex f))) = false)
    by (unfold SizeExact, openReader; cbn [rix]; unfold NewOffsetIndex; by rewrite sizeExact_recompute).
  assert (Hz : Nat.eqb (parts f) 0 = false) by (apply Nat.eqb_neq; lia).
  rewrite Hsx, (reader_ok_count f len file _ Hok), Hz in HS. cbn [orb] in HS.
  pose proof (fetchArticle_spec f len file Hhon _ 0%nat Hok Hn) as HF.
  destruct (fetchArticle (openReader (NewOffsetIndex f)) 0) as [[part|e] r1]; [|done].
  destruct HF as (Hr1 & _ & _ & Hart). destruct Hart as (Hpart & Hsize & Hdata).
  set (ix := Observe (rix r1) 0 (Some part)) in HS.
  assert (Htrue : reach_true f len ix) by (apply true_observe; [apply Hr1|done]).
  destruct (reach_true_evidence f len ix Hpost Htrue) as [_ Hev].
  assert (Hlen0 : 0 < len 0%nat) by (by apply (po_len f len Hpost)).
  pose proof (pos_range f len (parts f) Hpost ltac:(lia)) as Hrange.
  assert (Hpos : 0 < pos len (parts f)).
  { pose proof (pos_mono f len 1 (parts f) Hpost ltac:(lia) ltac:(lia)) as Hm. cbn [pos] in Hm. lia. }
  assert (Hexact : sizeExact ix = true).
  { unfold ix, Observe. pose proof (reader_ok_count f len file r1 Hr1) as Hc. unfold SegmentCount in Hc. rewrite Hc.
    destruct Hpart as (Hb & He & _). change (Z.to_nat (Z.of_nat 0)) with 0%nat in Hb, He. cbn [pos] in Hb, He.
    rewrite (proj2 (Z.leb_gt (Z.of_nat (parts f)) 0)) by lia. cbn [Z.ltb Z.compare orb].
    rewrite (proj2 (Z.ltb_ge (pBegin part) 1)), (proj2 (Z.ltb_ge (pEnd part) (pBegin part))) by lia. cbn [orb].
    rewrite Hsize, (proj2 (Z.ltb_lt 0 _) Hpos). repeat case_match; rewrite sizeExact_recompute; done. }
  cbn [set_ix rix] in HS. fold ix in HS. unfold seek_to in HS.
  assert (Hfs : wrap_i64 (FileSize ix + 0) = Z.of_nat (length file)).
  { unfold FileSize, fileSizeLocked. rewrite Hexact, (ev_size f len ix Hev Hexact), Z.add_0_r, Hfile.
    apply wrap_i64_id. unfold is_i64, i64_min. lia. }
  rewrite Hfs in HS. by case_if_in HS; simplify_eq.
Qed.

(** The size of a direct plan is exact: when what is loaded for the video's
    segments are the articles of the file that was posted, the plan announces
    exactly that file's length, although the NZB only has encoded sizes. *)
Lemma direct_plan_exact_size `{ArticleSource} `{GoSort Segment} f len file c p c' :
  posting f len -> Z.of_nat (length file) = pos len (parts f) -> honest f len file -> (0 < parts f)%nat ->
  PlanFile f c = (p, c') -> Streamable p = true ->
  pVideoSize p = Z.of_nat (length file) /\ pVideoName p = Filename f.
Proof.
  intros Hpost Hfile Hhon Hn HP HS. unfold PlanFile, establishSize in HP. cbn [NewScope] in HP.
  destruct (Seek (openReader (NewOffsetIndex f)) 0 2) as [[size|e] r'] eqn:Es; injection HP as <- <-; [|done].
  split; [|done]. cbn [pVideoSize]. by eapply Seek_end_exact.
Qed.

(** Releasing a scope nobody holds leaves it dormant. *)
Lemma Release_dormant c s : srefs (scope_of c s) = 0 -> dormantLocked (Release c s) s = true.
Proof.
  intros Hs. unfold Release. set (c1 := set_scope c s _).
  assert (H1 : scope_of c1 s = mkScope true 0) by (unfold c1, scope_of at 1, set_scope; cbn; by rewrite lookup_insert_eq, Hs).
  rewrite H1. cbn [srefs Z.eqb]. unfold dormantLocked, purgeLocked, purgeDeadLocked, scope_of. cbn [set_dead set_flights scopes].
  assert (Hf : forall es c0, scopes (fold_left removeLocked es c0) = scopes c0).
  { induction es as [|e es IH]; intros c0; cbn [fold_left]; [done|]. rewrite IH. unfold removeLocked.
    destruct (releaseLocked_rest (set_lru c0 (without (ekey e) (lru c0)) (used c0 - esize e)) (epart e)) as [(_ & _ & _ & _ & _ & _ & _ & Hsc & _) _].
    exact Hsc. }
  rewrite Hf. fold (scope_of c1 s). by rewrite H1.
Qed.

(** An unsupported plan keeps nothing: the cache scope opened for it is
    released and no reader holds it, so its articles are dropped; a streamable
    plan owns its scope, which is live until the plan is closed. *)
Lemma plan_scope_released `{ArticleSource} `{GoSort Segment} f c p c' :
  PlanFile f c = (p, c') ->
  if Streamable p
  then exists s, pcache p = Some s /\ dormantLocked c' s = false /\ dormantLocked (ClosePlan p c') s = true
  else dormantLocked c' (nextId c) = true /\ pcache p = None.
Proof.
  unfold PlanFile, establishSize. cbn [NewScope].
  set (c1 := set_scopes c _ _). set (s := nextId c).
  assert (H1 : scope_of c1 s = mkScope false 0) by (unfold c1, scope_of, s; cbn; by rewrite lookup_insert_eq).
  assert (H2 : scope_of (retain c1 s) s = mkScope false 1).
  { unfold retain, scope_of at 1, set_scope. cbn. rewrite lookup_insert_eq, H1. done. }
  assert (H3 : scope_of (unretain (retain c1 s) s) s = mkScope false 0 /\ dormantLocked (unretain (retain c1 s) s) s = false).
  { unfold unretain. rewrite H2. cbn [released srefs].
    assert (Hs : scope_of (set_scope (retain c1 s) s (mkScope false (1 - 1))) s = mkScope false 0)
      by (unfold scope_of, set_scope; cbn; by rewrite lookup_insert_eq).
    unfold dormantLocked. rewrite Hs. cbn [released andb]. by rewrite Hs. }
  destruct H3 as [H3 H4].
  assert (Hrel : dormantLocked (Release (unretain (retain c1 s) s) s) s = true).
  { apply Release_dormant. by rewrite H3. }
  destruct (Seek (openReader (NewOffsetIndex f)) 0 2) as [[size|e] r'].
  - intros [= <- <-]. unfold Streamable. cbn. exists s. split_and!; [done|exact H4|exact Hrel].
  - intros [= <- <-]. unfold Streamable. cbn. split; [exact Hrel|done].
Qed.

(** ** Witnesses *)

Definition demo_video : File :=
  mkFile [] 0 ([34] ++ str "show.mkv" ++ [34] ++ str " yEnc (1/3)") [] (fSegments demo_posted).
Definition demo_nzb : NZB := mkNZB [demo_video] [] ∅.
Definition no_rar (_ : list File) : outcome (list rarChunk) := Panics.
#[local] Existing Instance demo_source.
#[local] Existing Instance demo_reader_sort.

Lemma plan_conservative_witness :
  exists p c', StreamPlanFromNZB no_rar demo_nzb (NewArticleCache 100 0) = (p, c') /\ Streamable p = true /\
    exists v, only_video demo_nzb v /\ pVideoName p = str "show.mkv".
Proof.
  do 2 eexists. split; [vm_compute; reflexivity|]. split; [vm_compute; reflexivity|].
  edestruct (plan_conservative no_rar demo_nzb (NewArticleCache 100 0)) as (_ & _ & [(H & _)|(_ & _ & v & Hv & _)]);
    [vm_compute; reflexivity|vm_compute; reflexivity|discriminate H|].
  exists v. split; [exact Hv|vm_compute; reflexivity].
Defined.

Lemma direct_plan_exact_size_witness :
  exists p c', PlanFile demo_posted (NewArticleCache 100 0) = (p, c') /\ pVideoSize p = 10.
Proof.
  do 2 eexists. split; [vm_compute; reflexivity|].
  edestruct (direct_plan_exact_size demo_posted demo_lens demo_bytes (NewArticleCache 100 0)) as [H _];
    [exact (up_post _ _ _ _ demo_uniform_posting)|reflexivity|exact (proj1 demo_honest)|vm_compute; lia|
     vm_compute; reflexivity|vm_compute; reflexivity|exact H].
Defined.

Lemma plan_scope_released_witness :
  exists p c', PlanFile demo_posted (NewArticleCache 100 0) = (p, c') /\
    exists s, pcache p = Some s /\ dormantLocked c' s = false.
Proof.
  do 2 eexists. split; [vm_compute; reflexivity|].
  pose proof (plan_scope_released demo_posted (NewArticleCache 100 0) _ _ eq_refl) as H.
  destruct (Streamable (fst (PlanFile demo_posted (NewArticleCache 100 0)))) eqn:E; [|vm_compute in E; discriminate E].
  destruct H as (s & H1 & H2 & _). exists s. split; [exact H1|exact H2].
Defined.
