(* ===== verification/Progress.v ===== *)
(** Resumable download progress: internal/usenet/download/progress.go.

    The tracker's bitsets, sizes and counters, the binary progress file, and the
    flush protocol: [flushMu] makes a flush two atomic halves, the snapshot
    under [mu] and the disk write after it, between which workers keep marking.
    SHA-256 is a parameter. *)
From Stdlib Require Import ZArith Lia Ascii String.
From stdpp Require Import prelude list strings sorting.
From S2P Require Import Prelude GoStrings Nzb.

Open Scope Z_scope.

Definition wrap_i32 (z : Z) : Z := (z + 2 ^ 31) mod 2 ^ 32 - 2 ^ 31.

Record fileProgress := mkFP { segCount : nat; completed : bytes; doneCount : Z; knownSize : Z }.
(** [lastFlush] and [markCount] only time the cadence flush. *)
Record ProgressTracker := mkPT {
  fingerprint : bytes; files : list fileProgress; dirty : bool; lastFlush : Z; markCount : Z
}.

Definition progressMagic : bytes := [85; 78; 82; 80].
Definition progressVersion : Z := 2.
Definition headerSize : nat := 40.
Definition fileHeaderSize : nat := 12.
Definition flushInterval : Z := 2000000000.
Definition flushSegmentFreq : Z := 100.

Definition bitsetLen (n : nat) : nat := ((n + 7) / 8)%nat.

(** * Bitsets *)

Definition bit_at (bits : bytes) (seg : nat) : bool :=
  Z.testbit (nth (seg / 8) bits 0) (Z.of_nat (seg mod 8)).
Definition set_bit (bits : bytes) (seg : nat) : bytes :=
  <[(seg / 8)%nat := Z.lor (nth (seg / 8) bits 0) (2 ^ Z.of_nat (seg mod 8))]> bits.
Fixpoint count_bits (bits : bytes) (n : nat) : Z :=
  match n with
  | O => 0
  | S n' => count_bits bits n' + (if bit_at bits n' then 1 else 0)
  end.

(** * Fingerprint *)

(** [sort.Strings]: byte-wise order. *)
Definition sort_Strings (ids : list bytes) : list bytes := sort_SliceStable bytes_ltb ids.

Section Hash.
Context (sha256 : bytes -> bytes).

Definition Fingerprint (n : NZB) : bytes :=
  let ids := concat (map (fun f => map sMessageID (fSegments f)) (nFiles n)) in
  sha256 (concat (map (fun id => id ++ [LF]) (sort_Strings ids))).

Definition NewProgressTracker (n : NZB) (now : Z) : ProgressTracker :=
  mkPT (Fingerprint n)
    (map (fun f => mkFP (length (fSegments f)) (replicate (bitsetLen (length (fSegments f))) 0) 0 0) (nFiles n))
    false now 0.
End Hash.

(** * The progress file *)

Definition encode_file (f : fileProgress) : bytes :=
  le_bytes 4 (wrap_u32 (Z.of_nat (segCount f))) ++ le_bytes 8 (wrap_u64 (knownSize f)) ++
  take (bitsetLen (segCount f)) (completed f).
(** The buffer flushLocked builds. *)
Definition encode (p : ProgressTracker) : bytes :=
  progressMagic ++ [progressVersion; 0] ++ le_bytes 2 (wrap_u16 (Z.of_nat (length (files p)))) ++
  fingerprint p ++ concat (map encode_file (files p)).

(** The loop of Load over the files, on the data from [offset] on. *)
Fixpoint load_files (fs : list fileProgress) (data : bytes) : option (list fileProgress) :=
  match fs with
  | [] => Some []
  | f :: fs' =>
      if (length data <? fileHeaderSize)%nat then None
      else
        let n := le_val (take 4 data) in
        let size := wrap_i64 (le_val (take 8 (drop 4 data))) in
        let data := drop fileHeaderSize data in
        if negb (n =? Z.of_nat (segCount f)) then None
        else
          let bl := bitsetLen (segCount f) in
          if (length data <? bl)%nat then None
          else
            let bits := take bl data in
            match load_files fs' (drop bl data) with
            | Some fs'' => Some (mkFP (segCount f) bits (count_bits bits (segCount f)) size :: fs'')
            | None => None
            end
  end.

(** [data] is the file's content, [None] when it cannot be read; the result is
    the tracker and whether it was loaded. *)
Definition Load (p : ProgressTracker) (data : option bytes) : bool * ProgressTracker :=
  match data with
  | None => (false, p)
  | Some data =>
      if (length data <? headerSize)%nat then (false, p)
      else if negb (bytes_eqb (take 4 data) progressMagic) then (false, p)
      else if negb (nth 4 data 0 =? progressVersion) then (false, p)
      else if negb (le_val (take 2 (drop 6 data)) =? Z.of_nat (length (files p))) then (false, p)
      else if negb (bytes_eqb (take 32 (drop 8 data)) (fingerprint p)) then (false, p)
      else
        match load_files (files p) (drop headerSize data) with
        | None => (false, p)
        | Some fs => (true, mkPT (fingerprint p) fs (dirty p) (lastFlush p) (markCount p))
        end
  end.

(** * Marking *)

Definition set_file (p : ProgressTracker) (i : nat) (f : fileProgress) (d : bool) (marks : Z) : ProgressTracker :=
  mkPT (fingerprint p) (<[i := f]> (files p)) d (lastFlush p) marks.

(** The file and segment when both indexes are in range. *)
Definition in_range (p : ProgressTracker) (fileIndex segIndex : Z) : option (nat * nat * fileProgress) :=
  if fileIndex <? 0 then None
  else match files p !! Z.to_nat fileIndex with
       | None => None
       | Some f =>
           if (segIndex <? 0) || (Z.of_nat (segCount f) <=? segIndex) then None
           else Some (Z.to_nat fileIndex, Z.to_nat segIndex, f)
       end.

(** MarkDone up to its unlock, and whether it goes on to tryFlush. *)
Definition MarkDone (p : ProgressTracker) (fileIndex segIndex now : Z) : ProgressTracker * bool :=
  match in_range p fileIndex segIndex with
  | None => (p, false)
  | Some (i, j, f) =>
      if bit_at (completed f) j then (p, false)
      else
        let marks := markCount p + 1 in
        (set_file p i (mkFP (segCount f) (set_bit (completed f) j) (wrap_i32 (doneCount f + 1)) (knownSize f)) true marks,
         (flushSegmentFreq <=? marks) || (flushInterval <=? now - lastFlush p))
  end.

Definition IsDone (p : ProgressTracker) (fileIndex segIndex : Z) : bool :=
  match in_range p fileIndex segIndex with
  | None => false
  | Some (_, j, f) => bit_at (completed f) j
  end.

Definition file_at (p : ProgressTracker) (fileIndex : Z) : option fileProgress :=
  if fileIndex <? 0 then None else files p !! Z.to_nat fileIndex.

Definition IsFileDone (p : ProgressTracker) (fileIndex : Z) : bool :=
  match file_at p fileIndex with None => false | Some f => Z.of_nat (segCount f) <=? doneCount f end.
Definition CompletedSegments (p : ProgressTracker) (fileIndex : Z) : Z :=
  match file_at p fileIndex with None => 0 | Some f => doneCount f end.
Fixpoint completed_bytes_from (p : ProgressTracker) (fileIndex i : Z) (segs : list Segment) (total : Z) : Z :=
  match segs with
  | [] => total
  | s :: segs' =>
      completed_bytes_from p fileIndex (i + 1) segs'
        (if IsDone p fileIndex i then wrap_i64 (total + sBytes s) else total)
  end.
Definition CompletedBytes (p : ProgressTracker) (fileIndex : Z) (segs : list Segment) : Z :=
  match file_at p fileIndex with None => 0 | Some _ => completed_bytes_from p fileIndex 0 segs 0 end.
Definition KnownSize (p : ProgressTracker) (fileIndex : Z) : Z :=
  match file_at p fileIndex with None => 0 | Some f => knownSize f end.
Definition TotalCompleted (p : ProgressTracker) : Z :=
  fold_left (fun t f => wrap_i64 (t + doneCount f)) (files p) 0.

(** The successful compare-and-swap of NoteFileSize ([None]: nothing to raise);
    the dirty flag follows in a step of its own. *)
Definition note_swap (p : ProgressTracker) (fileIndex end_ : Z) : option ProgressTracker :=
  match file_at p fileIndex with
  | None => None
  | Some f =>
      if (end_ <=? 0) || (end_ <=? knownSize f) then None
      else Some (set_file p (Z.to_nat fileIndex)
                   (mkFP (segCount f) (completed f) (doneCount f) end_) (dirty p) (markCount p))
  end.
Definition markDirty (p : ProgressTracker) : ProgressTracker :=
  mkPT (fingerprint p) (files p) true (lastFlush p) (markCount p).
Definition NoteFileSize (p : ProgressTracker) (fileIndex end_ : Z) : ProgressTracker :=
  match note_swap p fileIndex end_ with Some p' => markDirty p' | None => p end.

Definition ResetFile (p : ProgressTracker) (fileIndex : Z) : ProgressTracker :=
  match file_at p fileIndex with
  | None => p
  | Some f =>
      set_file p (Z.to_nat fileIndex)
        (mkFP (segCount f) (map (fun _ => 0) (completed f)) 0 0) true (markCount p)
  end.

(** * Flushing *)

(** The snapshot half of flushLocked: the buffer, if there is something to
    write. *)
Definition flush_snapshot (p : ProgressTracker) (now : Z) : option bytes * ProgressTracker :=
  if dirty p then (Some (encode p), mkPT (fingerprint p) (files p) false now 0) else (None, p).

Inductive io_result := IOOk | MkdirFails | WriteFails | RenameFails.

(** The disk half: the new content of the progress file, and the tracker. *)
Definition flush_write (p : ProgressTracker) (disk : option bytes) (buf : bytes) (io : io_result)
  : option bytes * ProgressTracker :=
  match io with
  | IOOk => (Some buf, p)
  | MkdirFails => (disk, p)
  | WriteFails | RenameFails => (disk, markDirty p)
  end.

(** A Flush nobody interferes with. *)
Definition Flush (p : ProgressTracker) (disk : option bytes) (now : Z) (io : io_result)
  : option bytes * ProgressTracker :=
  match flush_snapshot p now with
  | (None, p') => (disk, p')
  | (Some buf, p') => flush_write p' disk buf io
  end.

(** Remove: clears dirty and deletes the files (best effort: [deleted]). *)
Definition Remove (p : ProgressTracker) (disk : option bytes) (deleted : bool) : option bytes * ProgressTracker :=
  (if deleted then None else disk, mkPT (fingerprint p) (files p) false (lastFlush p) (markCount p)).

(** ** Workers and a flush interleaved

    [pending] is the snapshot of the flush that holds flushMu; [noting] counts
    the workers between a swap of NoteFileSize and its dirty flag. *)
Record session := mkSession { tracker : ProgressTracker; disk : option bytes; pending : option bytes; noting : nat }.

Inductive event :=
| Mark (fileIndex segIndex now : Z)
| NoteSwap (fileIndex end_ : Z)
| NoteDirty
| Reset (fileIndex : Z)
| FlushStart (now : Z)
| FlushWrite (io : io_result).

Definition step (s : session) (ev : event) : session :=
  match ev with
  | Mark i j now => mkSession (fst (MarkDone (tracker s) i j now)) (disk s) (pending s) (noting s)
  | NoteSwap i e =>
      match note_swap (tracker s) i e with
      | Some p => mkSession p (disk s) (pending s) (S (noting s))
      | None => s
      end
  | NoteDirty =>
      match noting s with
      | O => s
      | S n => mkSession (markDirty (tracker s)) (disk s) (pending s) n
      end
  | Reset i => mkSession (ResetFile (tracker s) i) (disk s) (pending s) (noting s)
  | FlushStart now =>
      match pending s with
      | Some _ => s
      | None => let '(buf, p) := flush_snapshot (tracker s) now in mkSession p (disk s) buf (noting s)
      end
  | FlushWrite io =>
      match pending s with
      | None => s
      | Some buf => let '(d, p) := flush_write (tracker s) (disk s) buf io in mkSession p d None (noting s)
      end
  end.

(** * Bits *)

Lemma div8_eq i j : (i / 8 = j / 8 -> i mod 8 = j mod 8 -> i = j)%nat.
Proof. intros H1 H2. rewrite (Nat.div_mod_eq i 8), (Nat.div_mod_eq j 8). lia. Qed.

Lemma bit_at_set bits i j :
  (j / 8 < length bits)%nat -> bit_at (set_bit bits j) i = Nat.eqb i j || bit_at bits i.
Proof.
  intros Hj. unfold bit_at, set_bit. rewrite nth_lookup.
  destruct (decide (i / 8 = j / 8)%nat) as [He|Hne].
  - rewrite He, list_lookup_insert_eq by done. simpl. rewrite Z.lor_spec, Z.pow2_bits_eqb by lia.
    rewrite orb_comm. f_equal.
    destruct (Nat.eqb_spec i j) as [->|Hij]; [apply Z.eqb_refl|]. apply Z.eqb_neq.
    intros Hm. apply Hij, div8_eq; [done|]. apply Nat2Z.inj. by symmetry.
  - rewrite list_lookup_insert_ne by lia. rewrite <- nth_lookup.
    destruct (Nat.eqb_spec i j) as [->|]; [lia|done].
Qed.

Lemma count_bits_ext a b n :
  (forall i, (i < n)%nat -> bit_at a i = bit_at b i) -> count_bits a n = count_bits b n.
Proof.
  induction n as [|n IH]; intros H; simpl; [done|]. rewrite IH, H by (intros; try apply H; lia). done.
Qed.

Lemma count_bits_set bits j n :
  (j / 8 < length bits)%nat -> bit_at bits j = false ->
  count_bits (set_bit bits j) n = count_bits bits n + (if (j <? n)%nat then 1 else 0).
Proof.
  intros Hj Hb. induction n as [|n IH]; simpl; [done|]. rewrite IH, bit_at_set by done.
  destruct (Nat.eqb_spec n j) as [->|Hne].
  - rewrite Hb. replace (j <? j)%nat with false by (symmetry; apply Nat.ltb_ge; lia).
    replace (j <? S j)%nat with true by (symmetry; apply Nat.ltb_lt; lia). simpl. lia.
  - simpl. replace (j <? S n)%nat with (j <? n)%nat; [lia|].
    destruct (Nat.ltb_spec j n), (Nat.ltb_spec j (S n)); lia || done.
Qed.

Lemma count_bits_full bits n :
  count_bits bits n <= Z.of_nat n /\
  (count_bits bits n = Z.of_nat n <-> forall i, (i < n)%nat -> bit_at bits i = true).
Proof.
  induction n as [|n [IH1 IH2]]; cbn [count_bits]; [split; [lia|]; split; [lia|done]|].
  destruct (bit_at bits n) eqn:E.
  - split; [lia|]. split.
    + intros H i Hi. destruct (decide (i = n)) as [->|]; [done|]. apply IH2; lia.
    + intros H. assert (count_bits bits n = Z.of_nat n) by (apply IH2; intros; apply H; lia). lia.
  - split; [lia|]. split; [lia|]. intros H. rewrite (H n) in E by lia. done.
Qed.

Lemma count_bits_zero bits n : Forall (fun b => b = 0) bits -> count_bits bits n = 0.
Proof.
  intros H. induction n as [|n IH]; simpl; [done|]. rewrite IH. unfold bit_at.
  replace (nth (n / 8) bits 0) with 0; [by rewrite Z.bits_0|].
  rewrite nth_lookup. destruct (bits !! (n / 8)%nat) as [b|] eqn:Eb; [|done].
  simpl. symmetry. by apply (Forall_lookup_1 _ _ _ _ H Eb).
Qed.

(** * Well-formed trackers *)

Record wf_file (f : fileProgress) : Prop := {
  wf_len : length (completed f) = bitsetLen (segCount f);
  wf_bits : wf_bytes (completed f);
  wf_count : doneCount f = count_bits (completed f) (segCount f);
  wf_segs : Z.of_nat (segCount f) < 2 ^ 31;
  wf_size : is_i64 (knownSize f)
}.

Definition wf (p : ProgressTracker) : Prop := Forall wf_file (files p).

Lemma bitset_index n j : (j < n)%nat -> (j / 8 < bitsetLen n)%nat.
Proof.
  intros Hj. unfold bitsetLen. pose proof (Nat.div_mod_eq j 8). pose proof (Nat.mod_upper_bound j 8).
  apply (Nat.lt_le_trans _ (S (j / 8))); [lia|]. apply Nat.div_le_lower_bound; lia.
Qed.

Lemma set_bit_length bits j : length (set_bit bits j) = length bits.
Proof. unfold set_bit. apply length_insert. Qed.

Lemma lor_byte a k : is_byte a -> (k < 8)%nat -> is_byte (Z.lor a (2 ^ Z.of_nat k)).
Proof.
  unfold is_byte. intros [H1 H2] Hk. split; [apply Z.lor_nonneg; lia|].
  assert (Hp : 2 ^ Z.of_nat k < 2 ^ 8) by (apply Z.pow_lt_mono_r; lia).
  change 256 with (2 ^ 8) in *.
  destruct (Z.eq_dec (Z.lor a (2 ^ Z.of_nat k)) 0) as [->|Hn]; [lia|].
  assert (0 <= Z.lor a (2 ^ Z.of_nat k)) by (apply Z.lor_nonneg; lia).
  apply Z.log2_lt_pow2; [lia|]. rewrite Z.log2_lor by lia.
  rewrite Z.log2_pow2 by lia.
  destruct (Z.eq_dec a 0) as [->|Ha]; [simpl; lia|].
  assert (Z.log2 a < 8) by (apply Z.log2_lt_pow2; lia). lia.
Qed.

Lemma set_bit_wf bits j : wf_bytes bits -> wf_bytes (set_bit bits j).
Proof.
  intros H. unfold set_bit. apply Forall_insert; [done|]. apply lor_byte.
  - rewrite nth_lookup. destruct (bits !! (j / 8)%nat) as [b|] eqn:Eb; simpl.
    + by apply (Forall_lookup_1 _ _ _ _ H Eb).
    + unfold is_byte. lia.
  - apply Nat.mod_upper_bound. lia.
Qed.

Lemma wf_file_at p i f : wf p -> file_at p i = Some f -> wf_file f /\ files p !! Z.to_nat i = Some f.
Proof.
  intros Hw. unfold file_at. destruct (i <? 0); [done|]. intros Hf. split; [|done].
  by apply (Forall_lookup_1 _ _ _ _ Hw Hf).
Qed.

Lemma in_range_spec p i j k l f :
  in_range p i j = Some (k, l, f) ->
  files p !! k = Some f /\ (l < segCount f)%nat /\ k = Z.to_nat i /\ l = Z.to_nat j /\ 0 <= i /\ 0 <= j.
Proof.
  unfold in_range. destruct (i <? 0) eqn:Ei; [done|]. bprop.
  destruct (files p !! Z.to_nat i) as [g|] eqn:Eg; [|done].
  destruct ((j <? 0) || _) eqn:Ej; [done|]. bprop. intros [= <- <- <-]. repeat split; try done; lia.
Qed.

Lemma MarkDone_wf p i j now : wf p -> wf (fst (MarkDone p i j now)).
Proof.
  intros Hw. unfold MarkDone. destruct (in_range p i j) as [[[k l] f]|] eqn:Er; [|done].
  apply in_range_spec in Er as (Hk & Hl & _). destruct (bit_at (completed f) l) eqn:Eb; [done|].
  unfold wf. cbn [fst set_file files]. apply Forall_insert; [done|].
  pose proof (Forall_lookup_1 _ _ _ _ Hw Hk) as [H1 H2 H3 H4 H5].
  assert (Hx : (l / 8 < length (completed f))%nat) by (rewrite H1; by apply bitset_index).
  constructor; cbn [segCount completed doneCount knownSize]; try done.
  - by rewrite set_bit_length.
  - by apply set_bit_wf.
  - rewrite count_bits_set by done. replace (l <? segCount f)%nat with true by (symmetry; apply Nat.ltb_lt; lia).
    destruct (count_bits_full (completed f) (segCount f)) as [Hle Hiff].
    assert (count_bits (completed f) (segCount f) <> Z.of_nat (segCount f)).
    { intros Heq. rewrite (proj1 Hiff Heq l Hl) in Eb. done. }
    assert (0 <= count_bits (completed f) (segCount f)).
    { clear. induction (segCount f) as [|n IH]; simpl; [lia|]. destruct (bit_at _ _); lia. }
    unfold wrap_i32. rewrite H3, Z.mod_small; lia.
Qed.

Lemma note_swap_wf p i e p' : wf p -> e <= i64_max -> note_swap p i e = Some p' -> wf p'.
Proof.
  intros Hw He. unfold note_swap. destruct (file_at p i) as [f|] eqn:Ef; [|done].
  destruct ((e <=? 0) || _) eqn:Ee; [done|]. bprop. intros [= <-].
  destruct (wf_file_at p i f Hw Ef) as [[H1 H2 H3 H4 H5] Hf].
  unfold wf. cbn [set_file files]. apply Forall_insert; [done|]. constructor; cbn; try done.
  unfold is_i64, i64_min. lia.
Qed.

Lemma ResetFile_wf p i : wf p -> wf (ResetFile p i).
Proof.
  intros Hw. unfold ResetFile. destruct (file_at p i) as [f|] eqn:Ef; [|done].
  destruct (wf_file_at p i f Hw Ef) as [[H1 H2 H3 H4 H5] Hf].
  assert (Hz : Forall (fun b => b = 0) (map (fun _ : Z => 0) (completed f))).
  { apply Forall_forall. intros b (x & -> & _)%list_elem_of_fmap. done. }
  unfold wf. cbn [set_file files]. apply Forall_insert; [done|].
  constructor; cbn [segCount completed doneCount knownSize]; try done.
  - by rewrite length_map.
  - eapply Forall_impl; [exact Hz|]. intros b ->. unfold is_byte. lia.
  - by rewrite count_bits_zero.
Qed.

(** * Reading a progress file back *)

Lemma count_bits_nonneg bits n : 0 <= count_bits bits n.
Proof. induction n as [|n IH]; simpl; [lia|]. destruct (bit_at bits n); lia. Qed.

Lemma wrap_i64_u64 z : is_i64 z -> wrap_i64 (wrap_u64 z) = z.
Proof.
  intros Hz. unfold wrap_i64, wrap_u64. rewrite Zplus_mod_idemp_l. fold (wrap_i64 z). by apply wrap_i64_id.
Qed.

Lemma load_files_encode fs gs rest :
  Forall wf_file fs -> map segCount gs = map segCount fs ->
  load_files gs (concat (map encode_file fs) ++ rest) = Some fs.
Proof.
  intros Hw. revert gs. induction Hw as [|f fs [H1 H2 H3 H4 H5] Hw IH]; intros gs Hg.
  { by destruct gs. }
  destruct gs as [|g gs]; [done|]. simpl in Hg. injection Hg as Hsc Hg.
  cbn [map concat load_files]. rewrite <- app_assoc. set (tail := concat (map encode_file fs) ++ rest).
  assert (Henc : encode_file f ++ tail = le_bytes 4 (wrap_u32 (Z.of_nat (segCount f))) ++
    le_bytes 8 (wrap_u64 (knownSize f)) ++ completed f ++ tail).
  { unfold encode_file. rewrite (take_ge (completed f)) by lia. by rewrite <- !app_assoc. }
  rewrite !Henc. clear Henc.
  assert (E4 : length (le_bytes 4 (wrap_u32 (Z.of_nat (segCount f)))) = 4%nat) by apply le_bytes_length.
  assert (E8 : length (le_bytes 8 (wrap_u64 (knownSize f))) = 8%nat) by apply le_bytes_length.
  replace (length _ <? fileHeaderSize)%nat with false.
  2:{ symmetry. apply Nat.ltb_ge. rewrite !length_app, E4, E8. unfold fileHeaderSize. lia. }
  assert (T4 : take 4 (le_bytes 4 (wrap_u32 (Z.of_nat (segCount f))) ++
    le_bytes 8 (wrap_u64 (knownSize f)) ++ completed f ++ tail) = le_bytes 4 (wrap_u32 (Z.of_nat (segCount f))))
    by (rewrite <- E4 at 1; apply take_app_length).
  assert (D4 : drop 4 (le_bytes 4 (wrap_u32 (Z.of_nat (segCount f))) ++
    le_bytes 8 (wrap_u64 (knownSize f)) ++ completed f ++ tail) =
    le_bytes 8 (wrap_u64 (knownSize f)) ++ completed f ++ tail)
    by (rewrite <- E4 at 1; apply drop_app_length).
  assert (T8 : take 8 (le_bytes 8 (wrap_u64 (knownSize f)) ++ completed f ++ tail) =
    le_bytes 8 (wrap_u64 (knownSize f))) by (rewrite <- E8 at 1; apply take_app_length).
  assert (D8 : drop 8 (le_bytes 8 (wrap_u64 (knownSize f)) ++ completed f ++ tail) = completed f ++ tail)
    by (rewrite <- E8 at 1; apply drop_app_length).
  change fileHeaderSize with (4 + 8)%nat. rewrite <- drop_drop, T4, D4, T8, D8.
  rewrite (le_val_le_bytes 8) by apply Z.mod_pos_bound, eq_refl. rewrite wrap_i64_u64 by done.
  unfold wrap_u32. rewrite Z.mod_small by lia. rewrite le_val_le_bytes by (simpl; lia). rewrite Hsc, Z.eqb_refl. cbn [negb].
  replace (length (completed f ++ tail) <? bitsetLen (segCount f))%nat with false.
  2:{ symmetry. apply Nat.ltb_ge. rewrite length_app. lia. }
  rewrite <- H1, take_app_length, drop_app_length. unfold tail. rewrite IH by done.
  rewrite <- H3. by destruct f.
Qed.

(** * Reachable trackers *)

Lemma load_files_wf fs gs data :
  wf_bytes data -> Forall (fun f => Z.of_nat (segCount f) < 2 ^ 31) fs ->
  load_files fs data = Some gs -> Forall wf_file gs.
Proof.
  intros Hd Hf. revert data gs Hd. induction Hf as [|f fs Hs Hf IH]; intros data gs Hd H; simpl in H.
  { injection H as <-. constructor. }
  case_if_in H; [done|]. case_if_in H; [done|]. case_if_in H; [done|]. bprop.
  destruct (load_files fs _) as [gs'|] eqn:El; [|done]. injection H as <-.
  constructor; [|eapply IH; [|exact El]; by repeat apply Forall_drop].
  constructor; cbn [completed segCount doneCount knownSize]; try done.
  - rewrite length_take. lia.
  - by apply Forall_take, Forall_drop.
  - apply wrap_i64_range.
Qed.

Section Reach.
Context (sha256 : bytes -> bytes) (n : NZB).

(** Trackers of an NZB: new, or reached by the workers' operations, flushes and
    the loading of any bytes found on disk; segment counts fit an int32. *)
Inductive reach : ProgressTracker -> Prop :=
| reach_new now : reach (NewProgressTracker sha256 n now)
| reach_mark p i j now : reach p -> reach (fst (MarkDone p i j now))
| reach_note p i e : reach p -> e <= i64_max -> reach (NoteFileSize p i e)
| reach_reset p i : reach p -> reach (ResetFile p i)
| reach_flush p disk now io : reach p -> reach (snd (Flush p disk now io))
| reach_load p data : reach p -> wf_bytes data -> reach (snd (Load p (Some data))).

Hypothesis Hsegs : Forall (fun f => Z.of_nat (length (fSegments f)) < 2 ^ 31) (nFiles n).

Lemma reach_wf p : reach p -> wf p.
Proof.
  induction 1 as [now|p i j now Hr IH|p i e Hr IH He|p i Hr IH|p disk now io Hr IH|p data Hr IH Hd].
  - unfold wf, NewProgressTracker. cbn [files]. apply Forall_fmap.
    eapply Forall_impl; [exact Hsegs|]. intros f Hf.
    constructor; cbn [segCount completed doneCount knownSize]; try done.
    + apply length_replicate.
    + apply Forall_replicate. unfold is_byte. lia.
    + rewrite count_bits_zero; [done|]. by apply Forall_replicate.
  - by apply MarkDone_wf.
  - unfold NoteFileSize. destruct (note_swap p i e) as [p'|] eqn:En; [|done].
    by apply note_swap_wf in En.
  - by apply ResetFile_wf.
  - unfold Flush, flush_snapshot. destruct (dirty p); [|done]. by destruct io.
  - unfold Load. do 5 (case_if; [done|]). destruct (load_files (files p) _) as [gs|] eqn:El; [|done].
    apply load_files_wf in El; [done|by apply Forall_drop|].
    eapply Forall_impl; [exact IH|]. by intros f [].
Qed.
End Reach.

(** * What is on disk *)

(** Nothing unsaved: no worker is about to set dirty, and the flush in progress,
    if any, carries the current state. *)
Definition saved (s : session) : Prop :=
  dirty (tracker s) = false -> noting s = 0%nat ->
  match pending s with
  | Some buf => buf = encode (tracker s)
  | None => disk s = Some (encode (tracker s))
  end.

Lemma step_saved s ev : ev <> FlushWrite MkdirFails -> saved s -> saved (step s ev).
Proof.
  intros Hev Hs. destruct ev as [i j now|i e| |i|now|io]; cbn [step].
  - unfold MarkDone. destruct (in_range _ i j) as [[[k l] f]|]; [|done].
    destruct (bit_at (completed f) l); [done|]. intros Hd. done.
  - unfold note_swap. destruct (file_at _ i); [|done]. destruct (_ || _); [done|]. intros _ Hn. done.
  - destruct (noting s); [done|]. intros Hd. done.
  - unfold ResetFile. destruct (file_at _ i); [|done]. intros Hd. done.
  - destruct (pending s) as [buf|] eqn:Ep; [done|]. unfold flush_snapshot.
    destruct (dirty (tracker s)) eqn:Ed.
    + intros _ _. done.
    + intros Hd Hn. cbn [tracker disk pending noting] in *. specialize (Hs Hd Hn). by rewrite Ep in Hs.
  - destruct (pending s) as [buf|] eqn:Ep; [|done].
    destruct io; cbn [flush_write]; [|done|intros Hd; done|intros Hd; done].
    intros Hd Hn. cbn [tracker disk pending noting] in *. specialize (Hs Hd Hn). rewrite Ep in Hs. by subst buf.
Qed.

(** * Claims *)

(** A flushed progress file restores the tracker: for every tracker with
    consistent bitsets, loading the bytes a flush wrote into a tracker of the
    same NZB succeeds and restores every file's completed segments, count and
    known size. *)
Lemma Load_encode p q :
  wf p -> length (fingerprint p) = 32%nat -> Z.of_nat (length (files p)) < 2 ^ 16 ->
  fingerprint q = fingerprint p -> map segCount (files q) = map segCount (files p) ->
  Load q (Some (encode p)) =
  (true, mkPT (fingerprint p) (files p) (dirty q) (lastFlush q) (markCount q)).
Proof.
  intros Hw Hfp Hn Hq Hs. assert (Hlen : length (files q) = length (files p)).
  { apply (f_equal length) in Hs. by rewrite !length_map in Hs. }
  unfold Load, encode. set (body := concat (map encode_file (files p))).
  set (cnt := le_bytes 2 _).
  assert (Ec : length cnt = 2%nat) by apply le_bytes_length.
  destruct cnt as [|c0 [|c1 [|]]] eqn:Ecnt; try done.
  set (data := progressMagic ++ _ ++ [c0; c1] ++ fingerprint p ++ body).
  replace (length data <? headerSize)%nat with false.
  2:{ symmetry. apply Nat.ltb_ge. unfold data, headerSize. rewrite !length_app, Hfp. simpl. lia. }
  change (take 4 data) with progressMagic. change (nth 4 data 0) with progressVersion.
  change (bytes_eqb progressMagic progressMagic) with true.
  change (progressVersion =? progressVersion) with true. cbn [negb].
  change (take 2 (drop 6 data)) with [c0; c1]. rewrite <- Ecnt. unfold cnt.
  unfold wrap_u16. rewrite Z.mod_small by lia. rewrite le_val_le_bytes by (simpl; lia).
  rewrite Hlen, Z.eqb_refl. cbn [negb].
  change (drop 8 data) with (fingerprint p ++ body).
  change (drop headerSize data) with (drop 32 (fingerprint p ++ body)).
  rewrite <- Hfp, take_app_length, drop_app_length, Hq, bytes_eqb_refl. cbn [negb].
  rewrite <- (app_nil_r body). unfold body. by rewrite load_files_encode.
Qed.

(** A file counts as done exactly when each of its segments is: in every
    tracker the workers can reach, whatever they marked, re-marked or reset, the
    running count agrees with the bitset. *)
Lemma IsFileDone_iff sha256 n p i f :
  Forall (fun f => Z.of_nat (length (fSegments f)) < 2 ^ 31) (nFiles n) ->
  reach sha256 n p -> file_at p i = Some f ->
  IsFileDone p i = true <-> forall j, 0 <= j < Z.of_nat (segCount f) -> IsDone p i j = true.
Proof.
  intros Hsegs Hr Hf. pose proof (reach_wf sha256 n Hsegs p Hr) as Hw.
  destruct (wf_file_at p i f Hw Hf) as [[H1 H2 H3 H4 H5] Hl].
  unfold IsFileDone. rewrite Hf, H3, Z.leb_le.
  destruct (count_bits_full (completed f) (segCount f)) as [Hle Hiff].
  assert (Hd : forall j, 0 <= j < Z.of_nat (segCount f) -> IsDone p i j = bit_at (completed f) (Z.to_nat j)).
  { intros j Hj. unfold IsDone, in_range. unfold file_at in Hf.
    destruct (i <? 0); [done|]. rewrite Hl.
    replace ((j <? 0) || _) with false; [done|]. symmetry. apply orb_false_iff.
    split; [apply Z.ltb_ge|apply Z.leb_gt]; lia. }
  split.
  - intros Hc j Hj. rewrite Hd by done. apply Hiff; lia.
  - intros Hall. assert (count_bits (completed f) (segCount f) = Z.of_nat (segCount f)); [|lia].
    apply Hiff. intros k Hk. rewrite <- (Hall (Z.of_nat k)) by lia. rewrite Hd by lia.
    by rewrite Nat2Z.id.
Qed.

(** No completed work is silently dropped: starting from a saved session,
    through any interleaving of workers marking, noting sizes and resetting with
    flushes that succeed or fail in the write or the rename, whenever the
    tracker is clean and no flush or size update is half done, the file on disk
    is the tracker's current state. *)
Lemma clean_means_saved s evs :
  saved s -> FlushWrite MkdirFails ∉ evs ->
  let s' := fold_left step evs s in
  dirty (tracker s') = false -> noting s' = 0%nat -> pending s' = None ->
  disk s' = Some (encode (tracker s')).
Proof.
  intros Hs Hev. assert (H : saved (fold_left step evs s)).
  { revert s Hs. induction evs as [|ev evs IH]; intros s Hs; [done|]. cbn [fold_left].
    apply IH; [set_solver|]. apply step_saved; [set_solver|done]. }
  cbv zeta. intros Hd Hn Hp. specialize (H Hd Hn). by rewrite Hp in H.
Qed.

(** A tracker of one file with two segments, both done and saved. *)
Definition demo_tracker : ProgressTracker := mkPT (replicate 32 7) [mkFP 2 [3] 2 100] false 0 0.
Definition demo_session : session := mkSession demo_tracker (Some (encode demo_tracker)) None 0.

(** A flush that fails to create the resume directory loses its snapshot:
    a ResetFile whose flush fails there is clean afterwards, every later flush
    writes nothing, and reloading the file on disk brings back the segments
    that were reset as done. *)
Lemma mkdir_failure_loses_reset :
  let s := fold_left step [Reset 0; FlushStart 1; FlushWrite MkdirFails; FlushStart 2; FlushWrite IOOk] demo_session in
  IsFileDone (tracker s) 0 = false /\ dirty (tracker s) = false /\
  disk s = Some (encode demo_tracker) /\
  fst (Load (tracker s) (disk s)) = true /\ IsFileDone (snd (Load (tracker s) (disk s))) 0 = true.
Proof. vm_compute. repeat split. Qed.

Lemma demo_tracker_wf : wf demo_tracker.
Proof.
  repeat constructor; try reflexivity; try (vm_compute; congruence).
Defined.

(** The demo tracker's file restores an empty tracker. *)
Lemma Load_encode_witness :
  Load (mkPT (replicate 32 7) [mkFP 2 [0] 0 0] false 5 0) (Some (encode demo_tracker)) =
  (true, mkPT (replicate 32 7) [mkFP 2 [3] 2 100] false 5 0).
Proof.
  apply (Load_encode demo_tracker (mkPT (replicate 32 7) [mkFP 2 [0] 0 0] false 5 0) demo_tracker_wf);
    reflexivity.
Defined.

Definition demo_nzb : NZB :=
  mkNZB [mkFile [] 0 [] [] [mkSegment 10 1 (str "a@x"); mkSegment 10 2 (str "b@x")]] [] ∅.
Definition demo_marked : ProgressTracker :=
  fst (MarkDone (fst (MarkDone (NewProgressTracker (fun b => take 32 b) demo_nzb 0) 0 1 0)) 0 0 0).

(** Both segments of the demo file marked, last first. *)
Lemma IsFileDone_iff_witness :
  IsFileDone demo_marked 0 = true /\
  (IsFileDone demo_marked 0 = true <-> forall j, 0 <= j < Z.of_nat 2 -> IsDone demo_marked 0 j = true).
Proof.
  split; [reflexivity|].
  apply (IsFileDone_iff (fun b => take 32 b) demo_nzb demo_marked 0 (mkFP 2 [3] 2 0)).
  - repeat constructor.
  - apply reach_mark, reach_mark, reach_new.
  - reflexivity.
Defined.

(** A mark that lands while a flush is writing is saved by the next flush. *)
Lemma clean_means_saved_witness :
  let s := mkSession (mkPT (replicate 32 7) [mkFP 2 [1] 1 50] false 0 0)
             (Some (encode (mkPT (replicate 32 7) [mkFP 2 [1] 1 50] false 0 0))) None 0 in
  let evs := [NoteSwap 0 90; NoteDirty; FlushStart 1; Mark 0 1 1; FlushWrite WriteFails; FlushStart 2; FlushWrite IOOk] in
  let s' := fold_left step evs s in
  IsFileDone (tracker s') 0 = true /\ disk s' = Some (encode (tracker s')).
Proof.
  intros s evs s'. split; [reflexivity|].
  apply (clean_means_saved s evs).
  - intros _ _. reflexivity.
  - intros Hin. repeat (apply elem_of_cons in Hin as [Hin|Hin]; [discriminate|]). by apply elem_of_nil in Hin.
  - reflexivity.
  - reflexivity.
  - reflexivity.
Defined.
