(* ===== verification/Downloader.v ===== *)
(** The whole-file download: internal/usenet/download/downloader.go.

    DownloadFile is a prologue that decides between skipping, resuming and
    starting over, a pool of workers that drain a channel of segments, and an
    epilogue that sizes the file.  The workers are a machine: one event is one
    step of one worker between two of its atomic operations, so the theorems hold
    for every interleaving.  The file is the bytes of its content, the progress
    tracker is the one of Progress, an article body comes from the server and is
    decoded by Yenc. *)
From Stdlib Require Import ZArith Lia Ascii String SpecFloat.
From stdpp Require Import prelude list strings sorting gmap.
From S2P Require Import Prelude GoStrings Yenc Nzb NntpWire Progress.

Open Scope Z_scope.

(** * Files *)

(** os.File.WriteAt of bytes that all get written: the gap up to [off] reads as
    zeros, and writing nothing does not extend the file. *)
Definition WriteAt (f data : bytes) (off : nat) : bytes :=
  match data with
  | [] => f
  | _ => take off (f ++ replicate (off - length f) 0) ++ data ++ drop (off + length data) f
  end.
(** os.File.Truncate to a size that is not negative. *)
Definition Truncate (f : bytes) (n : nat) : bytes := take n (f ++ replicate (n - length f) 0).

(** * One segment *)

Inductive segErr := SBody (e : callErr) | SDecode (e : yerr) | SOffset (begin end_ : Z).
Record MissingSegment := mkMissing { mFile : bytes; mNumber : Z; mMessageID : bytes; mErr : segErr }.

Definition validatePartOffset (part : Part) (totalBytes : Z) : option segErr :=
  let end_ := wrap_i64 (wrap_i64 (pBegin part - 1) + Z.of_nat (length (pData part))) in
  if pBegin part <=? 0 then Some (SOffset (pBegin part) 0)
  else if (0 <? totalBytes) && (totalBytes <? end_) then Some (SOffset (pBegin part) end_)
  else None.

(** [body] is what nntp.Body returns. *)
Definition downloadSegment (body : result callErr bytes) : result segErr Part :=
  match body with
  | Err e => Err (SBody e)
  | Ok b => match Decode b with Ok part => Ok part | Err e => Err (SDecode e) end
  end.

Definition tailSegmentMissing (segments : list Segment) (missing : list MissingSegment) : bool :=
  match last segments with
  | None => false
  | Some l => existsb (fun m => bytes_eqb (mMessageID m) (sMessageID l)) missing
  end.

(** float64 arithmetic, round to nearest even: 53 bits, exponents up to 1024. *)
Definition f64_of_int (n : Z) : spec_float := binary_normalize 53 1024 n 0 false.
(** Conversion to int of a number in range: truncation toward zero. *)
Definition int_of_f64 (f : spec_float) : Z :=
  match f with
  | S754_finite s m e =>
      let a := if 0 <=? e then Z.pos m * 2 ^ e else Z.pos m / 2 ^ (- e) in if s then - a else a
  | _ => 0
  end.
Definition maxMissing (MissingTolerance : spec_float) (segCount : Z) : Z :=
  if SFleb MissingTolerance (S754_zero false) then 0
  else
    let n := int_of_f64 (SFmul 53 1024 (f64_of_int segCount) MissingTolerance) in
    if n <? 1 then 1 else n.
(** The tolerance of a downloader nobody configured, and the engine's with par2:
    0.05 rounded to a float64. *)
Definition zeroTolerance : spec_float := S754_zero false.
Definition missingSegmentTolerance : spec_float := SFdiv 53 1024 (f64_of_int 5) (f64_of_int 100).

(** * The workers *)

Inductive dlErr :=
| DMkdir | DOpen | DCreate | DTruncate | DContext
| DSegment (number : Z) (e : segErr) (count : nat)
| DWrite (number : Z)
| DNoFiles | DAllPar2Failed (n : nat) | DFile (name : bytes) (e : dlErr).

(** Where a worker is.  A phase carries the segment of the round, its index and,
    once the data is written, the end offset. *)
Inductive wphase :=
| Idle                                            (* before the receive from workCh *)
| Fetching (i : nat) (seg : Segment)              (* in downloadSegment *)
| Writing (i : nat) (seg : Segment) (part : Part) (* before WriteAt *)
| Written (i : nat) (seg : Segment) (end_ : Z)    (* before the maxEnd loop *)
| Raised (i : nat) (seg : Segment) (end_ : Z)     (* before the counters *)
| Counted (i : nat) (end_ : Z)                    (* before NoteFileSize *)
| Noted (i : nat)                                 (* before MarkDone *)
| Stopped.

Record download := mkDl {
  out : bytes;                     (* the content of outFile *)
  work : list (nat * Segment);     (* workCh, closed *)
  workers : list wphase;
  downloaded : Z; segsDone : Z;    (* atomic counters *)
  maxEnd : Z;
  missing : list MissingSegment;
  errCh : option dlErr;
  cancelled : bool;                (* ctx is done *)
  trk : option ProgressTracker
}.

Definition set_worker (s : download) (w : nat) (p : wphase) : download :=
  mkDl (out s) (work s) (<[w := p]> (workers s)) (downloaded s) (segsDone s) (maxEnd s)
    (missing s) (errCh s) (cancelled s) (trk s).
Definition set_out (s : download) (f : bytes) : download :=
  mkDl f (work s) (workers s) (downloaded s) (segsDone s) (maxEnd s) (missing s) (errCh s) (cancelled s) (trk s).
Definition set_work (s : download) (q : list (nat * Segment)) : download :=
  mkDl (out s) q (workers s) (downloaded s) (segsDone s) (maxEnd s) (missing s) (errCh s) (cancelled s) (trk s).
Definition set_trk (s : download) (t : option ProgressTracker) : download :=
  mkDl (out s) (work s) (workers s) (downloaded s) (segsDone s) (maxEnd s) (missing s) (errCh s) (cancelled s) t.
(** The send that does not block: errCh holds one error. *)
Definition send_err (s : download) (e : dlErr) : download :=
  mkDl (out s) (work s) (workers s) (downloaded s) (segsDone s) (maxEnd s) (missing s)
    (match errCh s with Some e' => Some e' | None => Some e end) (cancelled s) (trk s).
Definition add_missing (s : download) (m : MissingSegment) : download :=
  mkDl (out s) (work s) (workers s) (downloaded s) (segsDone s) (maxEnd s) (missing s ++ [m])
    (errCh s) (cancelled s) (trk s).
(** The compare-and-swap loop ends with [maxEnd] at least [end_]. *)
Definition raise_max (s : download) (end_ : Z) : download :=
  mkDl (out s) (work s) (workers s) (downloaded s) (segsDone s)
    (if end_ <=? maxEnd s then maxEnd s else end_) (missing s) (errCh s) (cancelled s) (trk s).
Definition count_segment (s : download) (seg : Segment) : download :=
  mkDl (out s) (work s) (workers s) (wrap_i64 (downloaded s + sBytes seg)) (wrap_i32 (segsDone s + 1))
    (maxEnd s) (missing s) (errCh s) (cancelled s) (trk s).
Definition cancel (s : download) : download :=
  mkDl (out s) (work s) (workers s) (downloaded s) (segsDone s) (maxEnd s) (missing s) (errCh s) true (trk s).

Inductive event :=
| ECancel                    (* the context ends *)
| ETake (w : nat)            (* receive from workCh and look at the context *)
| EBody (w : nat)            (* downloadSegment returns, up to the next round or WriteAt *)
| EWrite (w n : nat)         (* WriteAt wrote [n] bytes *)
| ERaise (w : nat) | ECount (w : nat) | ENote (w : nat)
| EMark (w : nat) (now : Z).

Section Run.
(** The file's name, its index in the tracker, its encoded size, how many
    segments may fail, and what Body returns for each segment of this run. *)
Context (fileName : bytes) (fileIndex totalBytes missingBudget : Z) (bodies : nat -> result callErr bytes).

Definition take_work (s : download) (w : nat) : download :=
  match work s with
  | [] => set_worker s w Stopped
  | (i, seg) :: q => set_worker (set_work s q) w (if cancelled s then Stopped else Fetching i seg)
  end.

Definition fetched (s : download) (w i : nat) (seg : Segment) : download :=
  let r := match downloadSegment (bodies i) with
           | Ok part => match validatePartOffset part totalBytes with None => Ok part | Some e => Err e end
           | Err e => Err e
           end in
  match r with
  | Ok part => set_worker s w (Writing i seg part)
  | Err e =>
      let s' := add_missing s (mkMissing fileName (sNumber seg) (sMessageID seg) e) in
      let count := length (missing s') in
      if missingBudget <? Z.of_nat count
      then set_worker (send_err s' (DSegment (sNumber seg) e count)) w Stopped
      else set_worker s' w Idle
  end.

(** A write that is cut short returns an error; what it wrote stays. *)
Definition written (s : download) (w n i : nat) (seg : Segment) (part : Part) : download :=
  let off := wrap_i64 (pBegin part - 1) in
  let s' := set_out s (WriteAt (out s) (take n (pData part)) (Z.to_nat off)) in
  if (n <? length (pData part))%nat then set_worker (send_err s' (DWrite (sNumber seg))) w Stopped
  else set_worker s' w (Written i seg (wrap_i64 (off + Z.of_nat (length (pData part))))).

Definition step (s : download) (ev : event) : download :=
  match ev with
  | ECancel => cancel s
  | ETake w => match workers s !! w with Some Idle => take_work s w | _ => s end
  | EBody w => match workers s !! w with Some (Fetching i seg) => fetched s w i seg | _ => s end
  | EWrite w n => match workers s !! w with Some (Writing i seg part) => written s w n i seg part | _ => s end
  | ERaise w =>
      match workers s !! w with
      | Some (Written i seg e) => set_worker (raise_max s e) w (Raised i seg e)
      | _ => s
      end
  | ECount w =>
      match workers s !! w with
      | Some (Raised i seg e) => set_worker (count_segment s seg) w (Counted i e)
      | _ => s
      end
  | ENote w =>
      match workers s !! w with
      | Some (Counted i e) => set_worker (set_trk s ((fun p => NoteFileSize p fileIndex e) <$> trk s)) w (Noted i)
      | _ => s
      end
  | EMark w now =>
      match workers s !! w with
      | Some (Noted i) =>
          set_worker (set_trk s ((fun p => fst (MarkDone p fileIndex (Z.of_nat i) now)) <$> trk s)) w Idle
      | _ => s
      end
  end.
Definition run (s : download) (evs : list event) : download := fold_left step evs s.
End Run.

(** * DownloadFile *)

(** How the file-system calls end, and the name made from the clock. *)
Record fileIO := mkIO { mkdirOk : bool; openOk : bool; createOk : bool; preallocOk : bool; truncOk : bool; stamp : bytes }.

Definition destName (file : File) (stamp : bytes) : bytes :=
  let fileName := Base (Filename file) in
  if existsb (bytes_eqb fileName) [[]; str "."; str ".."; [SLASH]] then str "usenet_" ++ stamp else fileName.

(** What a call ends with: the error if any, the segments it could not fetch,
    the destination file and the tracker. *)
Record outcome := mkOutcome {
  oerr : option dlErr; omissing : list MissingSegment; odest : option bytes; otrk : option ProgressTracker
}.

(** The work channel's content, and what the segments already done count for. *)
Definition seg_done (t : option ProgressTracker) (fileIndex : Z) (i : nat) : bool :=
  match t with Some p => IsDone p fileIndex (Z.of_nat i) | None => false end.
Definition pending_work (t : option ProgressTracker) (fileIndex : Z) (segments : list Segment) : list (nat * Segment) :=
  List.filter (fun x => negb (seg_done t fileIndex (fst x))) (imap pair segments).
Definition done_work (t : option ProgressTracker) (fileIndex : Z) (segments : list Segment) : list (nat * Segment) :=
  List.filter (fun x => seg_done t fileIndex (fst x)) (imap pair segments).
Definition known (t : option ProgressTracker) (fileIndex : Z) : Z :=
  match t with Some p => KnownSize p fileIndex | None => 0 end.

Definition file_done (t : option ProgressTracker) (fileIndex : Z) : bool :=
  match t with Some p => IsFileDone p fileIndex | None => false end.

(** A file just created, with the encoded size allocated where that works. *)
Definition fresh_output (totalBytes : Z) (io : fileIO) : result dlErr bytes :=
  if createOk io
  then Ok (if (0 <? totalBytes) && preallocOk io then Truncate [] (Z.to_nat totalBytes) else [])
  else Err DCreate.
(** The output file when the workers start. *)
Definition open_output (t : option ProgressTracker) (fileIndex totalBytes : Z) (dest : option bytes) (io : fileIO)
    : result dlErr bytes :=
  match dest with
  | Some f =>
      if match t with Some p => 0 <? CompletedSegments p fileIndex | None => false end
      then if openOk io then Ok f else Err DOpen
      else fresh_output totalBytes io
  | None => fresh_output totalBytes io
  end.

(** Everything before the workers: the call is over, or they start. *)
Definition begin_file (segments : list Segment) (fileIndex totalBytes conns : Z)
    (t : option ProgressTracker) (dest : option bytes) (io : fileIO) : outcome + download :=
  if negb (mkdirOk io) then inl (mkOutcome (Some DMkdir) [] dest t)
  else if file_done t fileIndex && bool_decide (is_Some dest) then inl (mkOutcome None [] dest t)
  else
    let t := if file_done t fileIndex then (fun p => ResetFile p fileIndex) <$> t else t in
    match open_output t fileIndex totalBytes dest io with
    | Err e => inl (mkOutcome (Some e) [] dest t)
    | Ok f =>
        match pending_work t fileIndex segments with
        | [] =>
            if 0 <? known t fileIndex
            then if truncOk io then inl (mkOutcome None [] (Some (Truncate f (Z.to_nat (known t fileIndex)))) t)
                 else inl (mkOutcome (Some DTruncate) [] (Some f) t)
            else inl (mkOutcome None [] (Some f) t)
        | q =>
            let already := done_work t fileIndex segments in
            inr (mkDl f q (replicate (Z.to_nat (if conns <=? 0 then 1 else conns)) Idle)
                   (fold_left (fun n x => wrap_i64 (n + sBytes (snd x))) already 0)
                   (wrap_i32 (Z.of_nat (length already)))
                   (known t fileIndex) [] None false t)
        end
    end.

(** Everything after the workers.  The flushes of the tracker on the error paths
    do not change what it records; they are Progress's. *)
Definition end_file (segments : list Segment) (s : download) (io : fileIO) : outcome :=
  match errCh s with
  | Some e => mkOutcome (Some e) (missing s) (Some (out s)) (trk s)
  | None =>
      if cancelled s then mkOutcome (Some DContext) (missing s) (Some (out s)) (trk s)
      else if (0 <? maxEnd s) && negb (tailSegmentMissing segments (missing s)) then
        if truncOk io
        then mkOutcome None (missing s) (Some (Truncate (out s) (Z.to_nat (maxEnd s)))) (trk s)
        else mkOutcome (Some DTruncate) (missing s) (Some (out s)) (trk s)
      else mkOutcome None (missing s) (Some (out s)) (trk s)
  end.

(** The world one call of DownloadFile runs in. *)
Record fileRun := mkRun {
  fr_bodies : nat -> result callErr bytes;   (* what Body returns for each segment *)
  fr_events : list event;                    (* how the workers interleave *)
  fr_io : fileIO;
  fr_conns : Z                               (* ActiveConnections *)
}.

(** [None]: the schedule ends before the workers do. *)
Definition DownloadFile `{GoSort Segment} (tolerance : spec_float) (file : File) (fileIndex : Z)
    (t : option ProgressTracker) (dest : option bytes) (r : fileRun) : option outcome :=
  let totalBytes := File_TotalBytes file in
  let segments := SortSegmentsByNumber (fSegments file) in
  match begin_file segments fileIndex totalBytes (fr_conns r) t dest (fr_io r) with
  | inl o => Some o
  | inr s0 =>
      let s := run (destName file (stamp (fr_io r))) fileIndex totalBytes
                 (maxMissing tolerance (Z.of_nat (length segments))) (fr_bodies r) s0 (fr_events r) in
      if forallb (fun p => match p with Stopped => true | _ => false end) (workers s)
      then Some (end_file segments s (fr_io r)) else None
  end.

(** * DownloadNZB and DownloadPar2Files *)

(** The output directory by file name; [elsewhere] answers a stat of a name
    that a slash takes out of it. *)
Abbreviation outputDir := (gmap (list Z) (list Z)).
Definition stat_name (fs : outputDir) (elsewhere : bytes -> bool) (name : bytes) : bool :=
  if existsb (fun c => c =? SLASH) name then elsewhere name else bool_decide (is_Some (fs !! name)).

Definition set_dest (fs : outputDir) (name : bytes) (dest : option bytes) : outputDir :=
  match dest with Some f => <[name := f]> fs | None => delete name fs end.

Definition filesToDownload (n : NZB) : list File := if HasRars n then RarFiles n else ContentFiles n.
(** The map from subjects: the last file with a subject counts. *)
Definition nzbFileIndex (n : NZB) : gmap (list Z) Z :=
  fold_left (fun m x => <[fSubject (snd x) := Z.of_nat (fst x)]> m) (imap pair (nFiles n)) ∅.

(** What a call returns: files by name, the holes, the error; and the directory
    and tracker it leaves. *)
Record nzbOutcome := mkNzbOutcome {
  nresults : gmap (list Z) (list Z); nmissing : list MissingSegment; nerr : option dlErr;
  nfs : outputDir; ntrk : option ProgressTracker
}.

Section Files.
Context `{GoSort Segment} (tolerance : spec_float) (elsewhere : bytes -> bool) (index : gmap (list Z) Z).

(** One file: the context's state before it and the world of its download. *)
Fixpoint download_files (l : list (File * (bool * fileRun))) (acc : nzbOutcome) : option nzbOutcome :=
  match l with
  | [] => Some acc
  | (file, (ctxDone, r)) :: l' =>
      if ctxDone then Some (mkNzbOutcome (nresults acc) (nmissing acc) (Some DContext) (nfs acc) (ntrk acc))
      else
        let idx := default (-1) (index !! fSubject file) in
        let name := Filename file in
        if file_done (ntrk acc) idx && stat_name (nfs acc) elsewhere name
        then download_files l' (mkNzbOutcome (<[name := name]> (nresults acc)) (nmissing acc) (nerr acc) (nfs acc) (ntrk acc))
        else
          let dest := destName file (stamp (fr_io r)) in
          match DownloadFile tolerance file idx (ntrk acc) (nfs acc !! dest) r with
          | None => None
          | Some o =>
              let fs := set_dest (nfs acc) dest (odest o) in
              let missing := nmissing acc ++ omissing o in
              match oerr o with
              | Some e => Some (mkNzbOutcome (nresults acc) missing (Some (DFile name e)) fs (otrk o))
              | None => download_files l' (mkNzbOutcome (<[name := dest]> (nresults acc)) missing (nerr acc) fs (otrk o))
              end
          end
  end.
End Files.

Definition DownloadNZB `{GoSort Segment} (tolerance : spec_float) (elsewhere : bytes -> bool) (n : NZB)
    (fs : outputDir) (t : option ProgressTracker) (runs : nat -> bool * fileRun) : option nzbOutcome :=
  match filesToDownload n with
  | [] => Some (mkNzbOutcome ∅ [] (Some DNoFiles) fs t)
  | l => download_files tolerance elsewhere (nzbFileIndex n) (imap (fun k f => (f, runs k)) l) (mkNzbOutcome ∅ [] None fs t)
  end.

(** Parity files: no tolerance, no tracker, a failure drops the file. *)
Fixpoint par2_files `{GoSort Segment} (l : list (File * fileRun)) (results : gmap (list Z) (list Z)) (fs : outputDir)
    : option (gmap (list Z) (list Z) * outputDir) :=
  match l with
  | [] => Some (results, fs)
  | (file, r) :: l' =>
      let name := Filename file in
      let dest := Base name in
      if match fs !! dest with Some f => Z.of_nat (length f) =? File_TotalBytes file | None => false end
      then par2_files l' (<[name := dest]> results) fs
      else
        let dest := destName file (stamp (fr_io r)) in
        match DownloadFile zeroTolerance file (-1) None (fs !! dest) r with
        | None => None
        | Some o =>
            let fs := set_dest fs dest (odest o) in
            match oerr o with
            | Some _ => par2_files l' results fs
            | None => par2_files l' (<[name := dest]> results) fs
            end
        end
  end.
Definition DownloadPar2Files `{GoSort Segment} (files : list File) (fs : outputDir) (runs : nat -> fileRun)
    : option (result dlErr (gmap (list Z) (list Z)) * outputDir) :=
  match files with
  | [] => Some (Err DNoFiles, fs)
  | _ =>
      match par2_files (imap (fun k f => (f, runs k)) files) ∅ fs with
      | None => None
      | Some (results, fs') =>
          Some (if bool_decide (results = ∅) then Err (DAllPar2Failed (length files)) else Ok results, fs')
      end
  end.
