(* ===== verification/DownloadFile.v ===== *)
(** The download of one file (Downloader): what it leaves on disk, that it may be
    interrupted at any moment, and what a server cannot do to it.

    The invariant of the workers says where every segment is and that whatever the
    tracker claims is in the output; it survives every step because all that is
    written are the posted file's own bytes in their place. *)
From Stdlib Require Import ZArith Lia Ascii String SpecFloat.
From stdpp Require Import prelude list strings sorting gmap.
From S2P Require Import Prelude GoStrings Yenc YencSound Nzb NntpWire Progress Downloader.

Open Scope Z_scope.

(** * Lemmas on files *)

Lemma write_lookup f d off x :
  WriteAt f d off !! x =
    if decide (off <= x < off + length d)%nat then d !! (x - off)%nat
    else if decide (x < length f)%nat then f !! x
    else if decide (x < off /\ d <> [])%nat then Some 0 else None.
Proof.
  destruct d as [|c d']; cbn [WriteAt].
  { rewrite decide_False by (cbn; lia). case_decide; [done|]. rewrite decide_False by tauto.
    apply lookup_ge_None_2. lia. }
  set (d := c :: d'). assert (Hd : d <> []) by done. clearbody d. clear c d'.
  set (g := f ++ replicate (off - length f) 0).
  assert (Hg : (off <= length g)%nat) by (unfold g; rewrite length_app, length_replicate; lia).
  destruct (decide (x < off)%nat) as [Hlt|Hge].
  - rewrite decide_False by lia. rewrite lookup_app_l by (rewrite length_take; lia).
    rewrite lookup_take_lt by lia. unfold g. case_decide.
    + by rewrite lookup_app_l by lia.
    + rewrite decide_True by done. rewrite lookup_app_r by lia. apply lookup_replicate_2. lia.
  - rewrite lookup_app_r by (rewrite length_take; lia). rewrite length_take, (Nat.min_l off) by lia.
    case_decide.
    + by rewrite lookup_app_l by lia.
    + rewrite lookup_app_r by lia. rewrite lookup_drop.
      replace (off + length d + (x - off - length d))%nat with x by lia.
      case_decide; [done|]. rewrite decide_False by lia. apply lookup_ge_None_2. lia.
Qed.

Lemma truncate_lookup f n x :
  Truncate f n !! x =
    if decide (x < n)%nat then if decide (x < length f)%nat then f !! x else Some 0 else None.
Proof.
  unfold Truncate. case_decide.
  - rewrite lookup_take_lt by lia. case_decide; [by rewrite lookup_app_l by lia|].
    rewrite lookup_app_r by lia. apply lookup_replicate_2. lia.
  - apply lookup_take_ge. lia.
Qed.
Lemma truncate_length f n : length (Truncate f n) = n.
Proof. unfold Truncate. rewrite length_take, length_app, length_replicate. lia. Qed.
Lemma write_length f d off : (length (WriteAt f d off) <= Nat.max (length f) (off + length d))%nat.
Proof.
  destruct (decide (length (WriteAt f d off) <= Nat.max (length f) (off + length d))%nat) as [|H]; [done|].
  assert (Hl : is_Some (WriteAt f d off !! (length (WriteAt f d off) - 1)%nat)) by (apply lookup_lt_is_Some; lia).
  rewrite write_lookup in Hl. rewrite !decide_False in Hl by lia. by destruct Hl.
Qed.

(** * The file that was posted

    [datas] is what the segments of the file carry in order; their concatenation
    is the file. *)

Definition seg_pos (datas : list bytes) (i : nat) : nat := length (concat (take i datas)).

Lemma seg_pos_S datas i d : datas !! i = Some d -> seg_pos datas (S i) = (seg_pos datas i + length d)%nat.
Proof.
  intros H. unfold seg_pos. rewrite (take_S_r _ _ _ H), concat_app, length_app. cbn. rewrite app_nil_r. lia.
Qed.
Lemma seg_pos_all datas : seg_pos datas (length datas) = length (concat datas).
Proof. unfold seg_pos. by rewrite take_ge by lia. Qed.
Lemma seg_pos_mono datas i j : (i <= j)%nat -> (seg_pos datas i <= seg_pos datas j)%nat.
Proof.
  intros H. unfold seg_pos. replace (take i datas) with (take i (take j datas)) by (rewrite take_take; f_equal; lia).
  rewrite <- (take_drop i (take j datas)) at 2. rewrite concat_app, length_app. lia.
Qed.
Lemma seg_pos_bound datas i : (seg_pos datas i <= length (concat datas))%nat.
Proof.
  destruct (decide (i <= length datas)%nat); [rewrite <- seg_pos_all; by apply seg_pos_mono|].
  unfold seg_pos. rewrite take_ge; lia.
Qed.
(** A segment's data is the file's at its place. *)
Lemma seg_pos_data datas i d k :
  datas !! i = Some d -> (k < length d)%nat -> concat datas !! (seg_pos datas i + k)%nat = d !! k.
Proof.
  intros H Hk.
  assert (concat datas = concat (take i datas) ++ d ++ concat (drop (S i) datas)) as ->.
  { rewrite (lookup_split_take _ _ _ H) at 1. by rewrite concat_app. }
  unfold seg_pos. rewrite lookup_app_r by lia. rewrite lookup_app_l by lia. f_equal. lia.
Qed.

(** The output agrees with the file on a range. *)
Definition holds (F out : bytes) (a b : nat) : Prop := forall x, (a <= x < b)%nat -> out !! x = F !! x.

Lemma holds_write datas out a b i d n :
  datas !! i = Some d -> (b <= length (concat datas))%nat -> holds (concat datas) out a b ->
  holds (concat datas) (WriteAt out (take n d) (seg_pos datas i)) a b.
Proof.
  intros Hd Hb Hh x Hx. rewrite write_lookup. destruct (decide _) as [Hin|Hout].
  - rewrite length_take in Hin. rewrite lookup_take_lt by lia.
    rewrite <- (seg_pos_data datas i d (x - seg_pos datas i)) by (done || lia). f_equal. lia.
  - rewrite decide_True; [by apply Hh|].
    apply lookup_lt_is_Some. rewrite (Hh x Hx). apply lookup_lt_is_Some. lia.
Qed.
Lemma holds_written datas out i d :
  datas !! i = Some d -> holds (concat datas) (WriteAt out d (seg_pos datas i)) (seg_pos datas i) (seg_pos datas (S i)).
Proof.
  intros Hd x Hx. rewrite (seg_pos_S _ _ _ Hd) in Hx. rewrite write_lookup, decide_True by lia.
  rewrite <- (seg_pos_data datas i d (x - seg_pos datas i)) by (done || lia). f_equal. lia.
Qed.
Lemma holds_truncate F out a b n : (b <= n)%nat -> (b <= length F)%nat -> holds F out a b -> holds F (Truncate out n) a b.
Proof.
  intros Hn Hb Hh x Hx. rewrite truncate_lookup, decide_True by lia.
  rewrite decide_True; [by apply Hh|]. apply lookup_lt_is_Some. rewrite (Hh x Hx). apply lookup_lt_is_Some. lia.
Qed.

(** * Lemmas on the tracker *)

(** What the operations on one file leave alone: the other files, and how many
    segments each has. *)
Definition same_shape (fi : Z) (p q : ProgressTracker) : Prop :=
  (forall j, j <> fi -> file_at q j = file_at p j) /\ (segCount <$> file_at q fi) = (segCount <$> file_at p fi).

Lemma same_shape_refl fi p : same_shape fi p p.
Proof. done. Qed.
Lemma same_shape_trans fi p q r : same_shape fi p q -> same_shape fi q r -> same_shape fi p r.
Proof.
  intros [H1 H2] [H3 H4]. split; [|by rewrite H4]. intros j Hj. by rewrite (H3 j Hj), (H1 j Hj).
Qed.

Lemma file_at_set p fi f g d m :
  file_at p fi = Some f -> file_at (set_file p (Z.to_nat fi) g d m) fi = Some g.
Proof.
  unfold file_at. case_if; [done|]. intros H. cbn [set_file files].
  apply list_lookup_insert_eq. by apply lookup_lt_Some in H.
Qed.
Lemma file_at_set_ne p fi j g d m :
  0 <= fi -> j <> fi -> file_at (set_file p (Z.to_nat fi) g d m) j = file_at p j.
Proof.
  intros Hf Hj. unfold file_at. case_if; [done|]. bprop. cbn [set_file files]. apply list_lookup_insert_ne. lia.
Qed.
Lemma file_at_nonneg p fi f : file_at p fi = Some f -> 0 <= fi.
Proof. unfold file_at. case_if; [done|]. bprop. done. Qed.

Lemma in_range_file p fi j :
  in_range p fi j =
    match file_at p fi with
    | Some f => if (j <? 0) || (Z.of_nat (segCount f) <=? j) then None else Some (Z.to_nat fi, Z.to_nat j, f)
    | None => None
    end.
Proof. unfold in_range, file_at. by case_if. Qed.
Lemma IsDone_file p fi (j : nat) :
  IsDone p fi (Z.of_nat j) =
    match file_at p fi with Some f => (j <? segCount f)%nat && bit_at (completed f) j | None => false end.
Proof.
  unfold IsDone. rewrite in_range_file. destruct (file_at p fi) as [f|]; [|done].
  destruct (Nat.ltb_spec j (segCount f)).
  - replace (Z.of_nat j <? 0) with false by (symmetry; apply Z.ltb_ge; lia).
    replace (Z.of_nat (segCount f) <=? Z.of_nat j) with false by (symmetry; apply Z.leb_gt; lia).
    cbn [orb andb]. by rewrite Nat2Z.id.
  - replace (Z.of_nat (segCount f) <=? Z.of_nat j) with true by (symmetry; apply Z.leb_le; lia).
    by rewrite orb_true_r.
Qed.

Lemma MarkDone_done p fi i j now :
  wf p -> IsDone (fst (MarkDone p fi (Z.of_nat i) now)) fi (Z.of_nat j) = true -> IsDone p fi (Z.of_nat j) = true \/ j = i.
Proof.
  intros Hw. unfold MarkDone. rewrite in_range_file. destruct (file_at p fi) as [f|] eqn:Ef; [|tauto].
  destruct ((Z.of_nat i <? 0) || (Z.of_nat (segCount f) <=? Z.of_nat i)) eqn:Er; [tauto|]. bprop.
  rewrite Nat2Z.id. destruct (bit_at (completed f) i) eqn:Eb; [tauto|]. cbn [fst].
  rewrite !IsDone_file, Ef, (file_at_set _ _ _ _ _ _ Ef). cbn [segCount completed].
  destruct (wf_file_at p fi f Hw Ef) as [[H1 _ _ _ _] _].
  intros [Hj Hb]%andb_prop. bprop. rewrite bit_at_set in Hb by (rewrite H1; apply bitset_index; lia).
  destruct (decide (j = i)) as [->|Hne]; [by right|left].
  replace (j =? i)%nat with false in Hb by (symmetry; by apply Nat.eqb_neq). cbn [orb] in Hb. rewrite Hb.
  by replace (j <? segCount f)%nat with true by (symmetry; by apply Nat.ltb_lt).
Qed.
Lemma MarkDone_known p fi i now : KnownSize (fst (MarkDone p fi i now)) fi = KnownSize p fi.
Proof.
  unfold MarkDone. rewrite in_range_file. destruct (file_at p fi) as [f|] eqn:Ef; [|done].
  case_if; [done|]. case_if; [done|]. unfold KnownSize. cbn [fst]. by rewrite (file_at_set _ _ _ _ _ _ Ef), Ef.
Qed.
Lemma MarkDone_shape p fi i now : same_shape fi p (fst (MarkDone p fi i now)).
Proof.
  unfold MarkDone. rewrite in_range_file. destruct (file_at p fi) as [f|] eqn:Ef; [|done].
  case_if; [done|]. case_if; [done|]. cbn [fst]. split.
  - intros j Hj. apply file_at_set_ne; [by eapply file_at_nonneg|done].
  - by rewrite (file_at_set _ _ _ _ _ _ Ef), Ef.
Qed.

Lemma file_at_markDirty p fi : file_at (markDirty p) fi = file_at p fi.
Proof. done. Qed.
Lemma NoteFileSize_spec p fi e :
  wf p -> e <= i64_max ->
  wf (NoteFileSize p fi e) /\ same_shape fi p (NoteFileSize p fi e) /\
  (forall j : nat, IsDone (NoteFileSize p fi e) fi (Z.of_nat j) = IsDone p fi (Z.of_nat j)) /\
  (forall f, file_at p fi = Some f -> 0 <= KnownSize p fi -> KnownSize (NoteFileSize p fi e) fi = Z.max (KnownSize p fi) e) /\
  (file_at p fi = None -> NoteFileSize p fi e = p).
Proof.
  intros Hw He. unfold NoteFileSize. pose proof (note_swap_wf p fi e) as Hn. unfold note_swap in *.
  destruct (file_at p fi) as [f|] eqn:Ef; [|by split_and!].
  destruct ((e <=? 0) || (e <=? knownSize f)) eqn:Ee.
  { split_and!; try done. intros g [= <-]. unfold KnownSize. rewrite Ef. intros Hk.
    apply orb_true_iff in Ee. destruct Ee as [Ee|Ee]; bprop; lia. }
  specialize (Hn _ Hw He eq_refl). bprop. split_and!.
  - done.
  - split; [intros j Hj|].
    + rewrite file_at_markDirty. apply file_at_set_ne; [by eapply file_at_nonneg|done].
    + by rewrite file_at_markDirty, (file_at_set _ _ _ _ _ _ Ef), Ef.
  - intros j. rewrite !IsDone_file, Ef. rewrite file_at_markDirty.
    by rewrite (file_at_set _ _ _ _ _ _ Ef).
  - intros g [= <-] _. unfold KnownSize. rewrite file_at_markDirty.
    rewrite (file_at_set _ _ _ _ _ _ Ef), Ef. cbn. lia.
  - done.
Qed.

Lemma ResetFile_spec p fi :
  wf p -> wf (ResetFile p fi) /\ same_shape fi p (ResetFile p fi) /\
  (forall j : nat, IsDone (ResetFile p fi) fi (Z.of_nat j) = false) /\ KnownSize (ResetFile p fi) fi = 0.
Proof.
  intros Hw. pose proof (ResetFile_wf p fi Hw) as Hr. unfold ResetFile in *. unfold KnownSize.
  destruct (file_at p fi) as [f|] eqn:Ef.
  - rewrite (file_at_set _ _ _ _ _ _ Ef). split_and!; [done| | |done].
    + split; [|by rewrite (file_at_set _ _ _ _ _ _ Ef), Ef].
      intros j Hj. apply file_at_set_ne; [by eapply file_at_nonneg|done].
    + intros j. rewrite IsDone_file, (file_at_set _ _ _ _ _ _ Ef). cbn [segCount completed].
      apply andb_false_intro2. unfold bit_at. rewrite nth_lookup, list_lookup_fmap.
      destruct (completed f !! (j / 8)%nat); cbn; apply Z.testbit_0_l.
  - rewrite Ef. split_and!; try done. intros j. by rewrite IsDone_file, Ef.
Qed.

Lemma file_done_iff fi p f :
  wf p -> file_at p fi = Some f ->
  IsFileDone p fi = true <-> forall i : nat, (i < segCount f)%nat -> IsDone p fi (Z.of_nat i) = true.
Proof.
  intros Hw Hf. destruct (wf_file_at p fi f Hw Hf) as [[W1 W2 W3 W4 W5] _]. unfold IsFileDone. rewrite Hf, W3.
  destruct (count_bits_full (completed f) (segCount f)) as [C1 C2]. rewrite Z.leb_le. split.
  - intros H i Hi. rewrite IsDone_file, Hf. apply andb_true_iff. split; [by apply Nat.ltb_lt|]. apply C2; lia.
  - intros H. apply Z.eq_le_incl. symmetry. apply C2. intros i Hi. specialize (H i Hi).
    rewrite IsDone_file, Hf in H. by apply andb_true_iff in H as [_ H].
Qed.
Lemma completed_none fi p :
  wf p -> CompletedSegments p fi <= 0 -> forall i : nat, IsDone p fi (Z.of_nat i) = false.
Proof.
  intros Hw Hc i. rewrite IsDone_file. unfold CompletedSegments in Hc.
  destruct (file_at p fi) as [f|] eqn:Ef; [|done]. destruct (wf_file_at p fi f Hw Ef) as [[W1 W2 W3 W4 W5] _].
  rewrite W3 in Hc. clear -Hc. induction (segCount f) as [|n IH]; [done|]. cbn [count_bits] in Hc.
  pose proof (count_bits_nonneg (completed f) n). destruct (bit_at (completed f) n) eqn:Eb; [lia|].
  destruct (Nat.ltb_spec i (S n)); [|done]. destruct (decide (i = n)) as [->|]; [by rewrite Eb|].
  replace (i <? n)%nat with true in IH by (symmetry; apply Nat.ltb_lt; lia). apply IH. lia.
Qed.

(** * The download of one file *)

Section Posted.
Context (datas : list bytes) (segs : list Segment) (fi : Z).
Abbreviation F := (concat datas).
Abbreviation place := (seg_pos datas).

(** Everything the tracker claims of the file is on disk: a segment marked done
    has its bytes in the output and lies below the known size. *)
Record tracked (p : ProgressTracker) (out : bytes) : Prop := {
  tr_wf : wf p;
  tr_segs : forall f, file_at p fi = Some f -> segCount f = length segs;
  tr_size : 0 <= KnownSize p fi <= Z.of_nat (length F);
  tr_done : forall i : nat, IsDone p fi (Z.of_nat i) = true ->
    holds F out (place i) (place (S i)) /\ Z.of_nat (place (S i)) <= KnownSize p fi
}.
Definition tracked_opt (t : option ProgressTracker) (out : bytes) : Prop :=
  match t with Some p => tracked p out | None => True end.

Definition known_ge (s : download) (e : Z) : Prop :=
  forall p f, trk s = Some p -> file_at p fi = Some f -> e <= KnownSize p fi.

Definition landed (s : download) (i : nat) : Prop :=
  holds F (out s) (place i) (place (S i)) /\ Z.of_nat (place (S i)) <= maxEnd s.
Definition lost (s : download) (seg : Segment) : Prop :=
  exists m, m ∈ missing s /\ mMessageID m = sMessageID seg.

Definition good_part (i : nat) (part : Part) : Prop :=
  pBegin part = Z.of_nat (place i) + 1 /\ datas !! i = Some (pData part).
Definition phase_ok (s : download) (ph : wphase) : Prop :=
  match ph with
  | Idle => True
  | Stopped => work s = [] \/ errCh s <> None \/ cancelled s = true
  | Fetching i seg => segs !! i = Some seg
  | Writing i seg part => segs !! i = Some seg /\ good_part i part
  | Written i seg e =>
      segs !! i = Some seg /\ e = Z.of_nat (place (S i)) /\ holds F (out s) (place i) (place (S i))
  | Raised i seg e => e = Z.of_nat (place (S i)) /\ landed s i
  | Counted i e => e = Z.of_nat (place (S i)) /\ landed s i
  | Noted i => landed s i /\ known_ge s (Z.of_nat (place (S i)))
  end.
Definition item (ph : wphase) : option nat :=
  match ph with Fetching i _ | Writing i _ _ | Written i _ _ => Some i | _ => None end.

(** Where a segment can be. *)
Definition fate (s : download) (i : nat) (seg : Segment) : Prop :=
  errCh s <> None \/ cancelled s = true \/ (i, seg) ∈ work s \/
  (exists w ph, workers s !! w = Some ph /\ item ph = Some i) \/ lost s seg \/ landed s i.

Record dl_inv (budget : Z) (s : download) : Prop := {
  dl_workers : workers s <> [];
  dl_work : Forall (fun x => segs !! fst x = Some (snd x)) (work s);
  dl_phases : forall w ph, workers s !! w = Some ph -> phase_ok s ph;
  dl_trk : tracked_opt (trk s) (out s);
  dl_max : 0 <= maxEnd s <= Z.of_nat (length F);
  dl_known : known (trk s) fi <= maxEnd s;
  dl_fate : forall i seg, segs !! i = Some seg -> fate s i seg;
  dl_missing : errCh s = None -> Z.of_nat (length (missing s)) <= budget
}.

(** ** What never gets worse *)

Record grows (s s' : download) : Prop := {
  gr_work : work s = [] -> work s' = [];
  gr_out : forall a b, (b <= length F)%nat -> holds F (out s) a b -> holds F (out s') a b;
  gr_max : maxEnd s <= maxEnd s';
  gr_known : forall e, known_ge s e -> known_ge s' e;
  gr_missing : forall m, m ∈ missing s -> m ∈ missing s';
  gr_err : errCh s <> None -> errCh s' <> None;
  gr_cancel : cancelled s = true -> cancelled s' = true
}.
#[local] Instance grows_preorder : PreOrder grows.
Proof. split; [done|]. intros a b c [] []. split; eauto. lia. Qed.

Lemma landed_grows s s' i : grows s s' -> landed s i -> landed s' i.
Proof.
  intros [_ H1 H2 _ _ _ _] [H3 H4]. split; [|lia]. apply H1; [apply seg_pos_bound|done].
Qed.
Lemma phase_grows s s' ph : grows s s' -> phase_ok s ph -> phase_ok s' ph.
Proof.
  intros Hg. pose proof Hg as [H0 H1 H2 H3 _ H5 H6]. destruct ph; cbn; try done.
  - intros (A & B & C). split_and!; [done|done|]. apply H1; [apply seg_pos_bound|done].
  - intros [A B]. split; [done|by eapply landed_grows].
  - intros [A B]. split; [done|by eapply landed_grows].
  - intros [A B]. split; [by eapply landed_grows|by apply H3].
  - intros [A|[A|A]]; auto.
Qed.

Definition good_step (budget : Z) (s s' : download) : Prop := dl_inv budget s' /\ grows s s'.

(** One worker moved from [old] to [ph]. *)
Lemma dl_move budget s s' w old ph :
  dl_inv budget s -> grows s s' -> workers s !! w = Some old -> workers s' = <[w := ph]> (workers s) ->
  phase_ok s' ph -> tracked_opt (trk s') (out s') -> maxEnd s' <= Z.of_nat (length F) ->
  known (trk s') fi <= maxEnd s' -> (forall x, x ∈ work s' -> x ∈ work s) ->
  (forall x, x ∈ work s -> x ∈ work s' \/ item ph = Some (fst x) \/ cancelled s' = true) ->
  (forall i seg, item old = Some i -> segs !! i = Some seg -> fate s' i seg) ->
  (errCh s' = None -> Z.of_nat (length (missing s')) <= budget) ->
  good_step budget s s'.
Proof.
  intros [J0 J1 J2 J3 J4 J7 J5 J6] Hg Hold Hw' Hph Ht Hm Hkn Hsub Hwork Hitem Hmiss.
  pose proof Hg as [_ G1 G2 G3 G4 G5 G6].
  assert (Hlt : (w < length (workers s))%nat) by (by apply lookup_lt_Some in Hold).
  split; [|done]. constructor; try done; [| | |lia|].
  - rewrite Hw'. intros Hn%(f_equal length). rewrite length_insert in Hn. cbn in Hn. lia.
  - apply Forall_forall. intros x Hx%Hsub. by apply (proj1 (Forall_forall _ _) J1).
  - intros w0 ph0. rewrite Hw'. destruct (decide (w0 = w)) as [->|Hne].
    + rewrite list_lookup_insert_eq by done. by intros [= <-].
    + rewrite list_lookup_insert_ne by done. intros H. by eapply phase_grows, J2.
  - intros i seg Hs. destruct (J5 i seg Hs) as [H|[H|[H|[(w0 & ph0 & H & Hi)|[(m & H & Hi)|H]]]]].
    + left. by apply G5.
    + right; left. by apply G6.
    + destruct (Hwork _ H) as [?|[Hi|?]]; [by right; right; left| |by right; left].
      right; right; right; left. exists w, ph. rewrite Hw', list_lookup_insert_eq by done. done.
    + destruct (decide (w0 = w)) as [->|Hne].
      * apply Hitem; [|done]. congruence.
      * right; right; right; left. exists w0, ph0. by rewrite Hw', list_lookup_insert_ne by done.
    + right; right; right; right; left. exists m. split; [by apply G4|done].
    + right; right; right; right; right. by eapply landed_grows.
Qed.

(** ** Every step keeps the invariant *)

(** What the server returns for a segment, when it decodes, is the part the file
    was posted in. *)
Definition honest_bodies (bodies : nat -> result callErr bytes) : Prop :=
  forall i part, downloadSegment (bodies i) = Ok part -> good_part i part.

Context (fileName : bytes) (totalBytes budget : Z) (bodies : nat -> result callErr bytes).
Context (Hsize : Z.of_nat (length F) <= i64_max).
Context (Hbodies : honest_bodies bodies).
Abbreviation step1 := (step fileName fi totalBytes budget bodies).

Lemma grows_same s s' :
  (work s = [] -> work s' = []) -> out s' = out s -> maxEnd s' = maxEnd s -> trk s' = trk s -> missing s' = missing s ->
  errCh s' = errCh s -> cancelled s' = cancelled s -> grows s s'.
Proof.
  intros H0 H1 H2 H3 H4 H5 H6. split; rewrite ?H1, ?H2, ?H4, ?H5, ?H6; try done. unfold known_ge. by rewrite H3.
Qed.

(** The write of a segment's data, whole or cut short. *)
Lemma good_offset i part :
  good_part i part -> wrap_i64 (pBegin part - 1) = Z.of_nat (place i) /\
  wrap_i64 (Z.of_nat (place i) + Z.of_nat (length (pData part))) = Z.of_nat (place (S i)).
Proof.
  intros [-> Hd]. pose proof (seg_pos_bound datas i) as H1. pose proof (seg_pos_bound datas (S i)) as H2.
  rewrite (seg_pos_S _ _ _ Hd) in *. unfold i64_max in Hsize. split; rewrite wrap_i64_id; unfold is_i64, i64_min, i64_max; lia.
Qed.

Lemma step_cancel s : dl_inv budget s -> good_step budget s (cancel s).
Proof.
  intros [J0 J1 J2 J3 J4 J7 J5 J6].
  assert (Hg : grows s (cancel s)) by (by split).
  split; [|done]. constructor; try done.
  - intros w ph Hw. by eapply phase_grows, J2.
  - intros i seg _. by right; left.
Qed.

Lemma step_take s w : dl_inv budget s -> good_step budget s (step1 s (ETake w)).
Proof.
  intros Hi. pose proof Hi as [J0 J1 J2 J3 J4 J7 J5 J6]. cbn [step].
  destruct (workers s !! w) as [[]|] eqn:Ew; try (by split). unfold take_work.
  destruct (work s) as [|[i seg] q] eqn:Eq.
  - eapply (dl_move _ s _ w Idle Stopped); try done; try apply J4; by left.
  - eapply (dl_move _ s _ w Idle); [done| |done|done| |done|apply J4|done| | |done|done].
    + apply grows_same; try done. by rewrite Eq.
    + case_if; [by right; right|]. cbn. by apply Forall_cons in J1 as [J1 _].
    + intros x Hx. rewrite Eq. by right.
    + rewrite Eq. intros x [->|Hx]%elem_of_cons; [|by left]. right.
      cbn [cancelled set_worker set_work]. destruct (cancelled s); [by right|by left].
Qed.

Lemma step_body s w : dl_inv budget s -> good_step budget s (step1 s (EBody w)).
Proof.
  intros Hi. pose proof Hi as [J0 J1 J2 J3 J4 J7 J5 J6]. cbn [step].
  destruct (workers s !! w) as [[|i seg| | | | | |]|] eqn:Ew; try (by split).
  assert (Hs : segs !! i = Some seg) by (by specialize (J2 _ _ Ew)).
  unfold fetched.
  assert (Hfail : forall e, good_step budget s
    (let s' := add_missing s (mkMissing fileName (sNumber seg) (sMessageID seg) e) in
     let count := length (missing s') in
     if budget <? Z.of_nat count then set_worker (send_err s' (DSegment (sNumber seg) e count)) w Stopped
     else set_worker s' w Idle)).
  { intros e. cbv zeta. set (m := mkMissing fileName (sNumber seg) (sMessageID seg) e).
    assert (Hm : lost (add_missing s m) seg).
    { exists m. split; [|done]. cbn. apply elem_of_app. right. by apply list_elem_of_singleton. }
    case_if; eapply (dl_move _ s _ w (Fetching i seg)); try done; try apply J4; try (by left); cbn.
    - split; cbn; try done; [intros m' Hm'; apply elem_of_app; by left|by destruct (errCh s)].
    - right; left. by destruct (errCh s).
    - intros i0 seg0 _ Hs0. left. cbn. by destruct (errCh s).
    - by destruct (errCh s).
    - split; cbn; try done. intros m' Hm'. apply elem_of_app. by left.
    - intros i0 seg0 [= <-] Hs0. right; right; right; right; left. by replace seg0 with seg by congruence.
    - intros _. by bprop. }
  destruct (downloadSegment (bodies i)) as [part|e] eqn:Ed; [|apply Hfail].
  destruct (validatePartOffset part totalBytes) as [e|]; [apply Hfail|].
  eapply (dl_move _ s _ w (Fetching i seg)); [done|done|done|done| |done|apply J4|done|done|by left| |done].
  - split; [done|]. by apply Hbodies.
  - intros i0 seg0 [= <-] Hs0. right; right; right; left. exists w, (Writing i seg part).
    cbn [set_worker workers]. rewrite list_lookup_insert_eq by (by apply lookup_lt_Some in Ew). done.
Qed.

Lemma tracked_write p o i d n :
  datas !! i = Some d -> tracked p o -> tracked p (WriteAt o (take n d) (place i)).
Proof.
  intros Hd [T1 T2 T3 T4]. split; try done. intros j Hj. destruct (T4 j Hj) as [A B].
  split; [|done]. apply holds_write; [done|apply seg_pos_bound|done].
Qed.

Lemma step_write s w n : dl_inv budget s -> good_step budget s (step1 s (EWrite w n)).
Proof.
  intros Hi. pose proof Hi as [J0 J1 J2 J3 J4 J7 J5 J6]. cbn [step].
  destruct (workers s !! w) as [[| |i seg part| | | | |]|] eqn:Ew; try (by split).
  pose proof (J2 _ _ Ew) as [Hs Hp]. destruct (good_offset i part Hp) as [Ho He]. pose proof Hp as [_ Hd].
  unfold written. rewrite Ho, He, Nat2Z.id.
  assert (Ht : tracked_opt (trk s) (WriteAt (out s) (take n (pData part)) (place i))).
  { destruct (trk s) as [p|] eqn:Et; [|done]. cbn in *. by apply tracked_write. }
  case_if; eapply (dl_move _ s _ w (Writing i seg part)); try done; try apply J4; try (by left); cbn.
  - split; cbn; try done; [|by destruct (errCh s)]. intros a b Hb Hh. by apply holds_write.
  - right; left. by destruct (errCh s).
  - intros i0 seg0 _ Hs0. left. cbn. by destruct (errCh s).
  - by destruct (errCh s).
  - split; cbn; try done. intros a b Hb Hh. by apply holds_write.
  - bprop. split_and!; [done|done|]. rewrite take_ge by lia. by apply holds_written.
  - intros i0 seg0 [= <-] Hs0. right; right; right; left. eexists w, _.
    cbn [set_worker workers set_out]. rewrite list_lookup_insert_eq by (by apply lookup_lt_Some in Ew). done.
Qed.

Lemma tracked_opt_map (g : ProgressTracker -> ProgressTracker) t o :
  (forall p, tracked p o -> tracked (g p) o) -> tracked_opt t o -> tracked_opt (g <$> t) o.
Proof. intros Hg. destruct t as [p|]; [|done]. cbn. apply Hg. Qed.

Lemma step_raise s w : dl_inv budget s -> good_step budget s (step1 s (ERaise w)).
Proof.
  intros Hi. pose proof Hi as [J0 J1 J2 J3 J4 J7 J5 J6]. cbn [step].
  destruct (workers s !! w) as [[| | |i seg e| | | |]|] eqn:Ew; try (by split).
  pose proof (J2 _ _ Ew) as (Hs & -> & Hh). pose proof (seg_pos_bound datas (S i)) as Hb.
  assert (Hl : landed (set_worker (raise_max s (Z.of_nat (place (S i)))) w (Raised i seg (Z.of_nat (place (S i))))) i).
  { split; [done|]. cbn. case_if; bprop; lia. }
  eapply (dl_move _ s _ w (Written i seg _)); [done| |done|done|done|done| | |done|by left| |done].
  - split; try done. cbn. case_if; bprop; lia.
  - cbn. case_if; bprop; lia.
  - cbn. case_if; bprop; lia.
  - intros i0 seg0 [= <-] _. by do 5 right.
Qed.

Lemma step_count s w : dl_inv budget s -> good_step budget s (step1 s (ECount w)).
Proof.
  intros Hi. pose proof Hi as [J0 J1 J2 J3 J4 J7 J5 J6]. cbn [step].
  destruct (workers s !! w) as [[| | | |i seg e| | |]|] eqn:Ew; try (by split).
  eapply (dl_move _ s _ w (Raised i seg e)); [done|done|done|done|by apply (J2 _ _ Ew)|done|apply J4|done|done|by left|done|done].
Qed.

Lemma step_note s w : dl_inv budget s -> good_step budget s (step1 s (ENote w)).
Proof.
  intros Hi. pose proof Hi as [J0 J1 J2 J3 J4 J7 J5 J6]. cbn [step].
  destruct (workers s !! w) as [[| | | | |i e| |]|] eqn:Ew; try (by split).
  pose proof (J2 _ _ Ew) as [-> Hl]. set (e := Z.of_nat (place (S i))).
  assert (He : e <= Z.of_nat (length F)) by (unfold e; pose proof (seg_pos_bound datas (S i)); lia).
  assert (Hk : forall p f, tracked p (out s) -> file_at (NoteFileSize p fi e) fi = Some f ->
            KnownSize (NoteFileSize p fi e) fi = Z.max (KnownSize p fi) e).
  { intros p f [T1 T2 T3 T4] Hf.
    destruct (NoteFileSize_spec p fi e) as (N1 & [_ N2] & N3 & N4 & N5); [done|lia|].
    destruct (file_at p fi) as [g|] eqn:Eg; [eapply N4; [done|apply T3]|]. by rewrite (N5 eq_refl), Eg in Hf. }
  eapply (dl_move _ s _ w (Counted i e)); [done| |done|done| | |apply J4| |done|by left|done|done].
  - split; try done. intros e' Hg p f Hp Hf. cbn in Hp. destruct (trk s) as [q|] eqn:Et; [|done]. injection Hp as <-.
    rewrite (Hk q f) by done.
    destruct (NoteFileSize_spec q fi e) as (N1 & [_ N2] & N3 & N4 & N5); [by apply J3|lia|].
    destruct (file_at q fi) as [g|] eqn:Eg; [|by rewrite Hf in N2]. specialize (Hg q g Et Eg). lia.
  - split; [done|]. intros p f Hp Hf. cbn in Hp. destruct (trk s) as [q|] eqn:Et; [|done]. injection Hp as <-.
    rewrite (Hk q f) by done. fold e. lia.
  - cbn. apply tracked_opt_map; [|done]. intros p Hp. pose proof Hp as [T1 T2 T3 T4].
    destruct (NoteFileSize_spec p fi e) as (N1 & [_ N2] & N3 & N4 & N5); [done|lia|].
    destruct (file_at p fi) as [g|] eqn:Eg; [|by rewrite (N5 eq_refl)].
    specialize (N4 g eq_refl (proj1 T3)). split.
    + done.
    + intros f Hf. rewrite Hf in N2. cbn in N2. rewrite <- (T2 g eq_refl). congruence.
    + rewrite N4. lia.
    + intros j. rewrite N3. intros Hj. destruct (T4 j Hj) as [A B]. rewrite N4. split; [done|lia].
  - cbn. destruct (trk s) as [q|] eqn:Et; [|done]. cbn in J3, J7 |- *. destruct Hl as [_ Hl].
    destruct (file_at (NoteFileSize q fi e) fi) as [f|] eqn:Ef; [rewrite (Hk q f) by done; fold e in Hl; lia|].
    unfold KnownSize. rewrite Ef. lia.
Qed.

Lemma step_mark s w now : dl_inv budget s -> good_step budget s (step1 s (EMark w now)).
Proof.
  intros Hi. pose proof Hi as [J0 J1 J2 J3 J4 J7 J5 J6]. cbn [step].
  destruct (workers s !! w) as [[| | | | | |i|]|] eqn:Ew; try (by split).
  pose proof (J2 _ _ Ew) as [[Hl _] Hk].
  eapply (dl_move _ s _ w (Noted i)); [done| |done|done|done| |apply J4| |done|by left|done|done].
  - split; try done. intros e' Hg p f Hp Hf. cbn in Hp. destruct (trk s) as [q|] eqn:Et; [|done]. injection Hp as <-.
    rewrite MarkDone_known. destruct (MarkDone_shape q fi (Z.of_nat i) now) as [_ M]. rewrite Hf in M.
    destruct (file_at q fi) as [g|] eqn:Eg; [|done]. by eapply Hg.
  - cbn. destruct (trk s) as [p|] eqn:Et; [|done]. cbn in J3 |- *. pose proof J3 as [T1 T2 T3 T4].
    destruct (MarkDone_shape p fi (Z.of_nat i) now) as [_ M]. split.
    + by apply MarkDone_wf.
    + intros f Hf. rewrite Hf in M. destruct (file_at p fi) as [g|] eqn:Eg; [|done].
      cbn in M. rewrite <- (T2 g eq_refl). congruence.
    + by rewrite MarkDone_known.
    + intros j Hj. rewrite MarkDone_known. destruct (MarkDone_done p fi i j now T1 Hj) as [H|Heq]; [by apply T4|].
      rewrite Heq in *. split; [done|].
      destruct (file_at p fi) as [g|] eqn:Eg; [by eapply Hk|].
      rewrite IsDone_file in Hj. destruct (file_at (fst (MarkDone p fi (Z.of_nat i) now)) fi); done.
  - cbn. destruct (trk s) as [p|]; [|done]. cbn. by rewrite MarkDone_known.
Qed.

Lemma dl_step s ev : dl_inv budget s -> good_step budget s (step1 s ev).
Proof.
  destruct ev; [apply step_cancel|apply step_take|apply step_body|apply step_write|apply step_raise|apply step_count
    |apply step_note|apply step_mark].
Qed.
Lemma dl_run s evs : dl_inv budget s -> good_step budget s (run fileName fi totalBytes budget bodies s evs).
Proof.
  unfold run. revert s. induction evs as [|ev evs IH]; intros s Hi; cbn; [by split|].
  destruct (dl_step s ev Hi) as [H1 H2]. destruct (IH _ H1) as [H3 H4]. split; [done|by etrans].
Qed.

(** ** Starting and finishing *)

(** What an earlier run may have left: a tracker that tells the truth about the
    file on disk; a file that is gone only if the tracker has nothing on it, or
    all of it. *)
Definition resumable (t : option ProgressTracker) (dest : option bytes) : Prop :=
  match t with
  | None => True
  | Some p =>
      match dest with
      | Some o => tracked p o
      | None => tracked p [] \/
          (wf p /\ (forall f, file_at p fi = Some f -> segCount f = length segs) /\ IsFileDone p fi = true)
      end
  end.

Lemma tracked_nothing p o o' : (forall i : nat, IsDone p fi (Z.of_nat i) = false) -> tracked p o -> tracked p o'.
Proof. intros Hn [T1 T2 T3 T4]. split; try done. intros i. by rewrite Hn. Qed.

Lemma reset_tracked p o :
  wf p -> (forall f, file_at p fi = Some f -> segCount f = length segs) -> tracked (ResetFile p fi) o.
Proof.
  intros Hw Hs. destruct (ResetFile_spec p fi Hw) as (R1 & [_ R2] & R3 & R4). split; [done| |lia|intros i; by rewrite R3].
  intros f Hf. rewrite Hf in R2. destruct (file_at p fi) as [g|] eqn:Eg; [|done].
  cbn in R2. rewrite <- (Hs g eq_refl). congruence.
Qed.

Lemma pending_elem (t : option ProgressTracker) i seg :
  segs !! i = Some seg -> seg_done t fi i = false -> (i, seg) ∈ pending_work t fi segs.
Proof.
  intros Hs Hd. unfold pending_work. apply elem_of_filter_b. split; [|cbn; by rewrite Hd].
  apply elem_of_lookup_imap. eauto.
Qed.
Lemma pending_segs (t : option ProgressTracker) : Forall (fun x => segs !! fst x = Some (snd x)) (pending_work t fi segs).
Proof.
  apply Forall_forall. intros x [Hx _]%elem_of_filter_b. apply elem_of_lookup_imap in Hx as (i & s & -> & H). done.
Qed.

(** The state the workers start in. *)
Lemma start_inv t f q conns n1 n2 :
  0 <= budget -> tracked_opt t f -> pending_work t fi segs = q ->
  dl_inv budget (mkDl f q (replicate (Z.to_nat (if conns <=? 0 then 1 else conns)) Idle) n1 n2 (known t fi) [] None false t).
Proof.
  intros Hb Ht Hq. constructor; cbn [workers work trk out maxEnd missing errCh].
  - intros Hn%(f_equal length). rewrite length_replicate in Hn. case_if_in Hn; bprop; cbn in Hn; lia.
  - rewrite <- Hq. apply pending_segs.
  - intros w ph [-> _]%lookup_replicate. done.
  - done.
  - destruct t as [p|]; cbn; [apply Ht|lia].
  - done.
  - intros i seg Hs. destruct (seg_done t fi i) eqn:Ed.
    + do 5 right. destruct t as [p|]; [|done]. cbn in Ed, Ht. destruct Ht as [_ _ _ T4]. destruct (T4 i Ed) as [A B]. by split.
    + do 2 right; left. cbn. rewrite <- Hq. by apply pending_elem.
  - done.
Qed.

(** A segment is on disk when the workers are done and nothing went wrong. *)
Lemma finished_landed s :
  dl_inv budget s -> Forall (fun p => p = Stopped) (workers s) -> errCh s = None -> cancelled s = false ->
  forall i seg, segs !! i = Some seg -> lost s seg \/ landed s i.
Proof.
  intros [J0 J1 J2 J3 J4 J7 J5 J6] Hst He Hc i seg Hs.
  assert (Hw : work s = []).
  { destruct (workers s) as [|ph l] eqn:Ew; [done|]. apply Forall_cons in Hst as [-> _].
    destruct (J2 0%nat Stopped eq_refl) as [?|[?|?]]; congruence. }
  destruct (J5 i seg Hs) as [H|[H|[H|[(w & ph & H & Hi)|[H|H]]]]]; [done|congruence| | |by left|by right].
  - rewrite Hw in H. by apply elem_of_nil in H.
  - rewrite (Forall_lookup_1 _ _ _ _ Hst H) in Hi. done.
Qed.

(** When the call does not return at once some segment is still to be fetched:
    the branch that sizes a file with nothing left to fetch is not reached for a
    file that has segments. *)
Lemma pending_nonempty t o :
  segs <> [] -> tracked_opt t o -> file_done t fi = false -> pending_work t fi segs <> [].
Proof.
  intros Hn Ht Hd Hp.
  assert (Hall : forall i seg, segs !! i = Some seg -> seg_done t fi i = true).
  { intros i seg Hs. destruct (seg_done t fi i) eqn:E; [done|].
    pose proof (pending_elem t i seg Hs E) as H. rewrite Hp in H. by apply elem_of_nil in H. }
  destruct t as [p|]; cbn in *.
  - destruct Ht as [T1 T2 _ _]. destruct (file_at p fi) as [f|] eqn:Ef.
    + assert (IsFileDone p fi = true); [|congruence]. apply (file_done_iff fi p f); [done|done|].
      intros i Hi. rewrite (T2 f eq_refl) in Hi. apply lookup_lt_is_Some in Hi as [seg Hs]. by eapply Hall.
    + destruct segs as [|s0 l]; [done|]. specialize (Hall 0%nat s0 eq_refl). by rewrite IsDone_file, Ef in Hall.
  - destruct segs as [|s0 l]; [done|]. by specialize (Hall 0%nat s0 eq_refl).
Qed.

(** The tracker the prologue goes on with: of a complete file that is gone, the
    claims are dropped. *)
Definition cleared (t : option ProgressTracker) : option ProgressTracker :=
  if file_done t fi then (fun p => ResetFile p fi) <$> t else t.

Lemma reset_not_done p :
  segs <> [] -> wf p -> (forall f, file_at p fi = Some f -> segCount f = length segs) ->
  IsFileDone (ResetFile p fi) fi = false.
Proof.
  intros Hn Hw Hs. destruct (ResetFile_spec p fi Hw) as (R1 & _ & R3 & _).
  destruct (IsFileDone (ResetFile p fi) fi) eqn:EE; [|done].
  destruct (file_at (ResetFile p fi) fi) as [g|] eqn:Eg; [|unfold IsFileDone in EE; by rewrite Eg in EE].
  pose proof (proj1 (file_done_iff fi _ g R1 Eg) EE) as H. destruct (reset_tracked p [] Hw Hs) as [_ T2 _ _].
  destruct segs as [|s0 l]; [done|]. rewrite (T2 g Eg) in H. specialize (H 0%nat).
  rewrite R3 in H. cbn in H. specialize (H ltac:(lia)). done.
Qed.

Lemma cleared_ok t dest :
  segs <> [] -> resumable t dest -> file_done t fi && bool_decide (is_Some dest) = false ->
  file_done (cleared t) fi = false /\ tracked_opt (cleared t) (default [] dest).
Proof.
  intros Hn Hr Hd. unfold cleared. destruct (file_done t fi) eqn:Ef.
  - destruct t as [p|]; [|done]. cbn in Ef |- *.
    assert (Hp : wf p /\ forall f, file_at p fi = Some f -> segCount f = length segs)
      by (destruct dest; cbn in Hr; [by destruct Hr|destruct Hr as [[]|[? []]]; by split]).
    destruct Hp as [Hw Hs]. split; [by apply reset_not_done|by apply reset_tracked].
  - split; [done|]. destruct t as [p|]; [|done]. cbn in Hr, Ef. destruct dest as [o|]; [done|].
    destruct Hr as [Hr|(_ & _ & Hr)]; [done|congruence].
Qed.

(** What is opened, or made from nothing, bears the tracker out. *)
Lemma open_tracked t dest io f :
  tracked_opt t (default [] dest) -> open_output t fi totalBytes dest io = Ok f -> tracked_opt t f.
Proof.
  destruct t as [p|]; [|done]. cbn [tracked_opt]. intros Ht Eo. unfold open_output in Eo.
  destruct dest as [o|]; cbn in Ht, Eo.
  - case_if_in Eo; [case_if_in Eo; [|done]; by injection Eo as <-|]. bprop.
    eapply tracked_nothing; [|exact Ht]. apply (completed_none fi); [apply Ht|done].
  - destruct Ht as [T1 T2 T3 T4]. split; try done. intros i Hi. destruct (T4 i Hi) as [A B]. split; [|done].
    intros x Hx. specialize (A x Hx). cbn in A. symmetry in A. apply lookup_ge_None_1 in A.
    pose proof (seg_pos_bound datas (S i)). lia.
Qed.

Lemma begin_cases t dest conns io :
  0 <= budget -> segs <> [] -> resumable t dest ->
  match begin_file segs fi totalBytes conns t dest io with
  | inl r => (oerr r <> None /\ resumable (otrk r) (odest r)) \/
      (file_done t fi = true /\ is_Some dest /\ r = mkOutcome None [] dest t)
  | inr s => dl_inv budget s
  end.
Proof.
  intros Hb Hn Hr. unfold begin_file. case_if; [by left|].
  destruct (file_done t fi && bool_decide (is_Some dest)) eqn:Ed.
  { right. by bprop. }
  fold (cleared t). destruct (cleared_ok t dest Hn Hr Ed) as [Hf' Ht']. set (t' := cleared t) in *. clearbody t'.
  assert (Hres : resumable t' dest) by (destruct t' as [p|]; [|done]; destruct dest; cbn in *; [done|by left]).
  destruct (open_output t' fi totalBytes dest io) as [f|e] eqn:Eo; [|left; by split].
  assert (Ht : tracked_opt t' f) by (by eapply open_tracked).
  destruct (pending_work t' fi segs) as [|x q] eqn:Ep; [by eapply pending_nonempty in Ep|].
  by apply start_inv.
Qed.

(** Truncating to [maxEnd] keeps what the tracker of an earlier moment claims. *)
Lemma tracked_later p s :
  dl_inv budget s -> tracked p (out s) -> KnownSize p fi <= maxEnd s -> forall io, tracked_opt (Some p) (default [] (odest (end_file segs s io))).
Proof.
  intros Hi [T1 T2 T3 T4] Hk io. assert (Htr : tracked p (Truncate (out s) (Z.to_nat (maxEnd s)))).
  { split; try done. intros i H. destruct (T4 i H) as [A B]. split; [|done].
    apply holds_truncate; [lia|apply seg_pos_bound|done]. }
  unfold end_file. by repeat case_match.
Qed.
End Posted.

(** * Theorems on one file *)

Lemma maxMissing_spec tol n :
  (SFleb tol (S754_zero false) = true -> maxMissing tol n = 0) /\
  (SFleb tol (S754_zero false) = false -> 1 <= maxMissing tol n).
Proof.
  unfold maxMissing. split; intros ->; [done|]. set (k := int_of_f64 _). clearbody k.
  destruct (Z.ltb_spec k 1); lia.
Qed.
Lemma maxMissing_nonneg tol n : 0 <= maxMissing tol n.
Proof.
  destruct (maxMissing_spec tol n) as [H1 H2]. destruct (SFleb tol _); [rewrite H1 by done; lia|]. specialize (H2 eq_refl). lia.
Qed.

Definition stopped_all (s : download) : bool :=
  forallb (fun p => match p with Stopped => true | _ => false end) (workers s).
Lemma stopped_all_Forall s : stopped_all s = true -> Forall (fun p => p = Stopped) (workers s).
Proof.
  unfold stopped_all. intros H. apply Forall_forall. intros p Hp.
  apply forallb_forall with (x := p) in H; [|by apply list_elem_of_In]. by destruct p.
Qed.

Lemma holds_all F f n : holds F f 0 n -> length F = n -> length f = n -> f = F.
Proof.
  intros Hh HF Hf. apply list_eq. intros x. destruct (decide (x < n)%nat); [apply Hh; lia|].
  rewrite !lookup_ge_None_2 by lia. done.
Qed.
(** Ranges of neighbouring segments join up. *)
Lemma holds_join datas f n :
  (n <= length datas)%nat -> (forall i, (i < n)%nat -> holds (concat datas) f (seg_pos datas i) (seg_pos datas (S i))) ->
  holds (concat datas) f 0 (seg_pos datas n).
Proof.
  induction n as [|n IH]; intros Hn H x Hx; [change (seg_pos datas 0) with 0%nat in Hx; lia|].
  destruct (decide (x < seg_pos datas n)%nat); [apply IH; [lia|intros i Hi; apply H; lia|lia]|].
  apply (H n); lia.
Qed.

Lemma tail_missing_last segs missing seg :
  last segs = Some seg -> tailSegmentMissing segs missing = false ->
  forall m, m ∈ missing -> mMessageID m <> sMessageID seg.
Proof.
  unfold tailSegmentMissing. intros -> H m Hm Heq.
  assert (existsb (fun m => bytes_eqb (mMessageID m) (sMessageID seg)) missing = true); [|congruence].
  apply existsb_exists. exists m. split; [by apply list_elem_of_In|]. rewrite Heq. apply bytes_eqb_refl.
Qed.

Lemma tracked_frame datas segs fi p q o :
  wf q -> file_at q fi = file_at p fi -> tracked datas segs fi p o -> tracked datas segs fi q o.
Proof.
  intros Hw Hf [T1 T2 T3 T4]. unfold KnownSize in *. split; [done| | |]; unfold KnownSize; rewrite ?Hf; [done|done|].
  intros i. rewrite IsDone_file, Hf, <- IsDone_file. apply T4.
Qed.

Section Whole.
Context `{GoSort Segment} (file : File) (fi : Z) (datas : list bytes) (t : option ProgressTracker) (dest : option bytes).
Abbreviation segs := (SortSegmentsByNumber (fSegments file)).
Abbreviation F := (concat datas).

(** The run is set up: the file was posted as [datas], its size fits an int64,
    and an earlier run left nothing false behind. *)
Record posted (r : fileRun) : Prop := {
  po_segs : length segs = length datas;
  po_data : F <> [];
  po_size : Z.of_nat (length F) <= i64_max;
  po_bodies : honest_bodies datas (fr_bodies r);
  po_resume : resumable datas segs fi t dest
}.

Lemma posted_segs r : posted r -> segs <> [].
Proof. intros [H1 H2 _ _ _] H3. rewrite H3 in H1. by destruct datas. Qed.

(** A finished download, seen through its invariant. *)
Lemma finish_correct budget s io :
  length segs = length datas -> F <> [] -> dl_inv datas segs fi budget s -> stopped_all s = true ->
  oerr (end_file segs s io) = None ->
  let o := end_file segs s io in
  exists f, odest o = Some f /\ Z.of_nat (length (omissing o)) <= budget /\
  (forall i seg, segs !! i = Some seg -> (forall m, m ∈ omissing o -> mMessageID m <> sMessageID seg) ->
     holds F f (seg_pos datas i) (seg_pos datas (S i))) /\
  (tailSegmentMissing segs (omissing o) = false -> length f = length F).
Proof.
  intros Hlen HF Hi Hst Hok. apply stopped_all_Forall in Hst.
  assert (HF' : (0 < length F)%nat) by (destruct F; [done|cbn; lia]).
  unfold end_file in *. destruct (errCh s) eqn:Ee; [done|]. destruct (cancelled s) eqn:Ec; [done|].
  pose proof (finished_landed _ _ _ _ s Hi Hst Ee Ec) as Hland. pose proof Hi as [J0 J1 J2 J3 J4 J7 J5 J6].
  assert (Hseg : forall i seg, segs !! i = Some seg -> (forall m, m ∈ missing s -> mMessageID m <> sMessageID seg) ->
     landed datas s i).
  { intros i seg Hs Hm. destruct (Hland i seg Hs) as [(m & Hm1 & Hm2)|]; [|done]. by destruct (Hm m Hm1). }
  assert (Htail : tailSegmentMissing segs (missing s) = false -> maxEnd s = Z.of_nat (length F)).
  { intros Ht. destruct (last segs) as [seg|] eqn:El.
    - pose proof (tail_missing_last _ _ _ El Ht) as Hm. rewrite last_lookup in El.
      destruct (Hseg _ _ El Hm) as [_ Hle]. assert (Hp : S (pred (length segs)) = length datas).
      { apply lookup_lt_Some in El. lia. }
      rewrite Hp, seg_pos_all in Hle. lia.
    - apply last_None in El. rewrite El in Hlen. destruct datas; [done|discriminate Hlen]. }
  destruct ((0 <? maxEnd s) && negb (tailSegmentMissing segs (missing s))) eqn:Et.
  - bprop. destruct (truncOk io); [|done]. cbn. eexists. split_and!; [done|by apply J6| |].
    + intros i seg Hs Hm. destruct (Hseg i seg Hs Hm) as [A B]. apply holds_truncate; [lia|apply seg_pos_bound|done].
    + intros _. rewrite truncate_length, Htail by done. lia.
  - cbn. eexists. split_and!; [done|by apply J6| |].
    + intros i seg Hs Hm. by destruct (Hseg i seg Hs Hm) as [A B].
    + intros Ht. rewrite (Htail Ht), Ht in Et. apply andb_false_iff in Et as [Et|Et]; bprop; [lia|done].
Qed.
End Whole.

(** What a successful call leaves on disk. *)
Definition file_ok (datas : list bytes) (segs : list Segment) (missing : list MissingSegment) (complete : bool) (f : bytes) : Prop :=
  (forall i seg, segs !! i = Some seg -> (forall m, m ∈ missing -> mMessageID m <> sMessageID seg) ->
     holds (concat datas) f (seg_pos datas i) (seg_pos datas (S i))) /\
  (missing = [] -> complete = false -> f = concat datas).

(** A complete file that is on disk. *)
Lemma complete_ok datas segs fi p f missing :
  tracked datas segs fi p f -> IsFileDone p fi = true -> file_ok datas segs missing true f.
Proof.
  intros [T1 T2 T3 T4] Hf. split; [|done]. intros i seg Hs _.
  destruct (file_at p fi) as [g|] eqn:Eg; [|unfold IsFileDone in Hf; by rewrite Eg in Hf].
  apply T4. apply (proj1 (file_done_iff fi p g T1 Eg) Hf). rewrite (T2 g eq_refl). by apply lookup_lt_Some in Hs.
Qed.

Lemma download_file_ok `{GoSort Segment} tol file fi datas t dest r o :
  posted file fi datas t dest r -> DownloadFile tol file fi t dest r = Some o -> oerr o = None ->
  let segs := SortSegmentsByNumber (fSegments file) in
  exists f, odest o = Some f /\
    Z.of_nat (length (omissing o)) <= maxMissing tol (Z.of_nat (length segs)) /\
    file_ok datas segs (omissing o) (file_done t fi && bool_decide (is_Some dest)) f.
Proof.
  intros Hp Hd Hok segs. pose proof Hp as [P1 P2 P3 P4 P5]. pose proof (posted_segs _ _ _ _ _ _ Hp) as Hn. fold segs in Hn, P1, P5.
  pose proof (maxMissing_nonneg tol (Z.of_nat (length segs))) as Hb. unfold DownloadFile in Hd. fold segs in Hd.
  pose proof (begin_cases datas segs fi (File_TotalBytes file) (maxMissing tol (Z.of_nat (length segs))) t dest (fr_conns r) (fr_io r)
    Hb Hn P5) as Hbeg.
  destruct (begin_file _ _ _ _ _ _ _) as [o'|s0].
  - injection Hd as ->. destruct Hbeg as [[? _]|(Hf & [f ->] & ->)]; [done|]. cbn [odest omissing]. exists f.
    split_and!; [done|cbn; lia|]. rewrite Hf, bool_decide_true by eauto. destruct t as [p|]; [|done].
    cbn in P5, Hf. by apply (complete_ok _ _ fi p).
  - destruct (dl_run datas segs fi (destName file (stamp (fr_io r))) (File_TotalBytes file) _ (fr_bodies r) P3 P4 s0 (fr_events r) Hbeg)
      as [Hi _]. set (s := run _ _ _ _ _ s0 _) in *. case_if_in Hd; [|done]. injection Hd as <-.
    destruct (finish_correct file fi datas _ s (fr_io r) P1 P2 Hi E Hok) as (f & F1 & F2 & F3 & F4). fold segs in F1, F2, F3, F4.
    exists f. split_and!; [done|done|]. split; [done|]. intros Hm _. rewrite Hm in F3, F4.
    apply (holds_all _ _ (seg_pos datas (length datas))); [|by rewrite seg_pos_all|].
    + apply holds_join; [done|]. intros i Hlt. rewrite <- P1 in Hlt. apply lookup_lt_is_Some in Hlt as [seg Hs].
      apply (F3 i seg Hs). intros m Hx. by apply elem_of_nil in Hx.
    + rewrite seg_pos_all. apply F4. unfold tailSegmentMissing. by destruct (last segs).
Qed.

(** A download can be interrupted at any moment.  Take the tracker as it is
    after any number of steps, which is what a flush then writes to disk, and the
    output file as it is at that moment, at any later one, or after the call has
    ended: all the tracker claims of the file is there, so that the next run may
    start from the two. *)
Lemma resume_after_stop `{GoSort Segment} file fi datas t dest r budget evs1 evs2 :
  posted file fi datas t dest r -> 0 <= budget ->
  let segs := SortSegmentsByNumber (fSegments file) in
  let total := File_TotalBytes file in
  let name := destName file (stamp (fr_io r)) in
  match begin_file segs fi total (fr_conns r) t dest (fr_io r) with
  | inl o => resumable datas segs fi (otrk o) (odest o)
  | inr s0 =>
      let s1 := run name fi total budget (fr_bodies r) s0 evs1 in
      let s2 := run name fi total budget (fr_bodies r) s1 evs2 in
      resumable datas segs fi (trk s1) (Some (out s2)) /\
      resumable datas segs fi (trk s1) (odest (end_file segs s2 (fr_io r)))
  end.
Proof.
  intros Hp Hb segs total name. pose proof Hp as [P1 P2 P3 P4 P5]. pose proof (posted_segs _ _ _ _ _ _ Hp) as Hn.
  fold segs in Hn, P1, P5.
  pose proof (begin_cases datas segs fi total budget t dest (fr_conns r) (fr_io r) Hb Hn P5) as Hbeg.
  destruct (begin_file _ _ _ _ _ _ _) as [o|s0].
  { destruct Hbeg as [[_ ?]|(_ & _ & ->)]; done. }
  intros s1 s2.
  destruct (dl_run datas segs fi name total budget (fr_bodies r) P3 P4 s0 evs1 Hbeg) as [I1 _]. fold s1 in I1.
  destruct (dl_run datas segs fi name total budget (fr_bodies r) P3 P4 s1 evs2 I1) as [I2 [_ G1 G2 _ _ _ _]]. fold s2 in I2, G1, G2.
  destruct (trk s1) as [p|] eqn:Et; [|done].
  pose proof I1 as [_ _ _ J3 _ J7 _ _]. rewrite Et in J3, J7. cbn in J3, J7. pose proof J3 as [T1 T2 T3 T4].
  assert (Htr : tracked datas segs fi p (out s2)).
  { split; try done. intros i Hi. destruct (T4 i Hi) as [A B]. split; [|done]. apply G1; [apply seg_pos_bound|done]. }
  split; [done|].
  pose proof (tracked_later datas segs fi budget p s2 I2 Htr ltac:(lia) (fr_io r)) as Hl.
  unfold end_file in *. repeat case_match; done.
Qed.

(** ** The history of a file

    What may be found when a call starts: [left_by] grows with every earlier call,
    stopped at any moment, with the states of the other files and with nothing
    else.  So nobody but the downloader writes the file, its partial copy or the
    progress. *)
Section History.
Context `{GoSort Segment} (file : File) (fi : Z) (datas : list bytes).
Abbreviation segs := (SortSegmentsByNumber (fSegments file)).
Abbreviation F := (concat datas).

(** The file was posted as [datas], is not empty and has a size that fits an
    int64, and an article the servers give out that decodes is the one posted. *)
Record as_posted (r : fileRun) : Prop := {
  ap_segs : length segs = length datas;
  ap_data : F <> [];
  ap_size : Z.of_nat (length F) <= i64_max;
  ap_bodies : honest_bodies datas (fr_bodies r)
}.

(** A tracker with nothing on the file yet. *)
Definition untouched (t : option ProgressTracker) : Prop :=
  match t with
  | None => True
  | Some p => wf p /\ (forall f, file_at p fi = Some f -> segCount f = length segs) /\ KnownSize p fi = 0 /\
      forall i : nat, IsDone p fi (Z.of_nat i) = false
  end.
(** Two trackers with the same entry for the file: one went on to other files, or
    was saved and loaded. *)
Definition same_entry (t t' : option ProgressTracker) : Prop :=
  match t, t' with
  | Some p, Some q => wf q /\ file_at q fi = file_at p fi
  | None, None => True
  | _, _ => False
  end.

Inductive left_by : option ProgressTracker -> option bytes -> Prop :=
| left_first t dest : untouched t -> left_by t dest
| left_at_once t dest r o :
    left_by t dest -> as_posted r ->
    begin_file segs fi (File_TotalBytes file) (fr_conns r) t dest (fr_io r) = inl o ->
    left_by (otrk o) (odest o)
| left_killed t dest r tol s0 evs1 evs2 :
    left_by t dest -> as_posted r ->
    begin_file segs fi (File_TotalBytes file) (fr_conns r) t dest (fr_io r) = inr s0 ->
    let go := run (destName file (stamp (fr_io r))) fi (File_TotalBytes file)
                (maxMissing tol (Z.of_nat (length segs))) (fr_bodies r) in
    left_by (trk (go s0 evs1)) (Some (out (go (go s0 evs1) evs2)))
| left_ended t dest r tol s0 evs1 evs2 :
    left_by t dest -> as_posted r ->
    begin_file segs fi (File_TotalBytes file) (fr_conns r) t dest (fr_io r) = inr s0 ->
    let go := run (destName file (stamp (fr_io r))) fi (File_TotalBytes file)
                (maxMissing tol (Z.of_nat (length segs))) (fr_bodies r) in
    left_by (trk (go s0 evs1)) (odest (end_file segs (go (go s0 evs1) evs2) (fr_io r)))
| left_others t t' dest : left_by t dest -> same_entry t t' -> left_by t' dest
| left_taken t dest : left_by t dest -> file_done t fi = true -> left_by t None.

Lemma untouched_resumable t dest : untouched t -> resumable datas segs fi t dest.
Proof.
  destruct t as [p|]; [|done]. intros (Hw & Hs & Hk & Hd).
  assert (Ht : forall o, tracked datas segs fi p o) by (intros o; split; try done; [lia|intros i; by rewrite Hd]).
  destruct dest; cbn; [done|by left].
Qed.
Lemma same_entry_resumable t t' dest :
  same_entry t t' -> resumable datas segs fi t dest -> resumable datas segs fi t' dest.
Proof.
  destruct t as [p|], t' as [q|]; try done. intros [Hw Hf]. cbn.
  destruct dest as [o|]; [by apply tracked_frame|].
  intros [Ht|(_ & Hs & Hd)]; [left; by eapply tracked_frame|right].
  split_and!; [done|by rewrite Hf|]. unfold IsFileDone in *. by rewrite Hf.
Qed.
Lemma taken_resumable t dest :
  resumable datas segs fi t dest -> file_done t fi = true -> resumable datas segs fi t None.
Proof.
  destruct t as [p|]; [|done]. cbn. intros Hr Hd. destruct dest as [o|]; [|done].
  right. destruct Hr as [T1 T2 _ _]. done.
Qed.

(** Whatever the history, the tracker tells the truth about the file on disk. *)
Lemma left_by_resumable t dest : left_by t dest -> resumable datas segs fi t dest.
Proof.
  induction 1 as [t dest Hu|t dest r o _ IH [A1 A2 A3 A4] Hb|t dest r tol s0 evs1 evs2 _ IH [A1 A2 A3 A4] Hb go
    |t dest r tol s0 evs1 evs2 _ IH [A1 A2 A3 A4] Hb go|t t' dest _ IH Hs|t dest _ IH Hd].
  - by apply untouched_resumable.
  - pose proof (resume_after_stop file fi datas t dest r 0 [] [] ltac:(by split) ltac:(lia)) as Hr. cbv zeta in Hr.
    by rewrite Hb in Hr.
  - pose proof (resume_after_stop file fi datas t dest r _ evs1 evs2 ltac:(by split) (maxMissing_nonneg tol (Z.of_nat (length segs)))) as Hr.
    cbv zeta in Hr. rewrite Hb in Hr. apply Hr.
  - pose proof (resume_after_stop file fi datas t dest r _ evs1 evs2 ltac:(by split) (maxMissing_nonneg tol (Z.of_nat (length segs)))) as Hr.
    cbv zeta in Hr. rewrite Hb in Hr. apply Hr.
  - by eapply same_entry_resumable.
  - by eapply taken_resumable.
Qed.
Lemma left_by_posted t dest r : as_posted r -> left_by t dest -> posted file fi datas t dest r.
Proof. intros [] Hl. split; try done. by apply left_by_resumable. Qed.
End History.

(** C3: Let a file be posted in parts, not empty and of a size that fits an
    int64, let every article that decodes be the one posted under its number, and
    let only the downloader write the file and its progress (a partial file that
    someone deletes is not noticed: the recorded finding).  Then after any history
    of earlier calls, each cut off at any moment or ended with any result, and for
    any interleaving of the workers, any errors and any cancellation, a file that
    DownloadFile reports as downloaded is the one posted: at most the tolerated
    number of segments is missing, the bytes of every other segment are in their
    place, and when none is missing the file on disk is exactly the posted one,
    unless this call found it complete, when it writes nothing. *)
Theorem download_file_correct `{GoSort Segment} tol file fi datas t dest r o :
  as_posted file datas r -> left_by file fi datas t dest ->
  DownloadFile tol file fi t dest r = Some o -> oerr o = None ->
  let segs := SortSegmentsByNumber (fSegments file) in
  exists f, odest o = Some f /\
    Z.of_nat (length (omissing o)) <= maxMissing tol (Z.of_nat (length segs)) /\
    (forall i seg, segs !! i = Some seg -> (forall m, m ∈ omissing o -> mMessageID m <> sMessageID seg) ->
       holds (concat datas) f (seg_pos datas i) (seg_pos datas (S i))) /\
    (omissing o = [] -> file_done t fi && bool_decide (is_Some dest) = false -> f = concat datas).
Proof.
  intros Ha Hl Hd Hok. destruct (download_file_ok tol file fi datas t dest r o (left_by_posted _ _ _ _ _ _ Ha Hl) Hd Hok)
    as (f & H1 & H2 & H3 & H4). eauto 6.
Qed.

(** * What a server can do to the disk *)

Definition sound_phase (M : Z) (ph : wphase) : Prop :=
  match ph with
  | Writing _ _ part => 1 <= pBegin part /\ pBegin part - 1 + Z.of_nat (length (pData part)) <= Z.min M i64_max
  | Written _ _ e | Raised _ _ e | Counted _ e => e <= M
  | _ => True
  end.
Record within (fi M : Z) (s : download) : Prop := {
  wi_out : Z.of_nat (length (out s)) <= M;
  wi_max : maxEnd s <= M;
  wi_known : known (trk s) fi <= M;
  wi_phases : forall w ph, workers s !! w = Some ph -> sound_phase M ph
}.

Lemma within_move fi M s s' w ph :
  within fi M s -> workers s' = <[w := ph]> (workers s) -> sound_phase M ph ->
  Z.of_nat (length (out s')) <= M -> maxEnd s' <= M -> known (trk s') fi <= M -> within fi M s'.
Proof.
  intros [W1 W2 W3 W4] Hw Hp H1 H2 H3. split; try done. intros w0 ph0. rewrite Hw.
  intros [[-> Hq]|[_ Hq]]%list_lookup_insert_Some; [by destruct Hq as [<- _]|by eapply W4].
Qed.

Lemma known_note p fi e : KnownSize (NoteFileSize p fi e) fi <= Z.max (KnownSize p fi) e.
Proof.
  unfold NoteFileSize, note_swap. destruct (file_at p fi) as [f|] eqn:Ef; [|lia]. case_if; [lia|].
  unfold KnownSize. rewrite file_at_markDirty, (file_at_set _ _ _ _ _ _ Ef). cbn. lia.
Qed.

(** An accepted part lies inside the file. *)
Lemma accepted_part body part total :
  Decode body = Ok part -> Z.of_nat (length (pData part)) <= i64_max -> 0 < total ->
  validatePartOffset part total = None ->
  1 <= pBegin part /\ pBegin part - 1 + Z.of_nat (length (pData part)) <= Z.min total i64_max.
Proof.
  intros Hd Hl Ht. unfold validatePartOffset. cbv zeta.
  destruct (Z.leb_spec (pBegin part) 0); [done|].
  destruct (Decode_range body part Hd Hl) as [?|Hr]; [lia|].
  rewrite !(wrap_i64_id (pBegin part - 1)), wrap_i64_id by (unfold is_i64, i64_min, i64_max in *; lia).
  replace (0 <? total) with true by (symmetry; by apply Z.ltb_lt). cbn [andb].
  destruct (Z.ltb_spec total (pBegin part - 1 + Z.of_nat (length (pData part)))); [done|]. lia.
Qed.

Section Hostile.
Context (fileName : bytes) (fi total budget : Z) (bodies : nat -> result callErr bytes).
(** Slice lengths are ints. *)
Context (Hlen : forall i part, downloadSegment (bodies i) = Ok part -> Z.of_nat (length (pData part)) <= i64_max).
Context (M : Z) (Htotal : 0 < total) (HM : total <= M).

Lemma within_body s w : within fi M s -> within fi M (step fileName fi total budget bodies s (EBody w)).
Proof.
  intros Hw. pose proof Hw as [W1 W2 W3 W4]. cbn [step].
  destruct (workers s !! w) as [[|i seg| | | | | |]|] eqn:Ew; try done. unfold fetched.
  destruct (downloadSegment (bodies i)) as [part|e] eqn:Ed.
  - destruct (validatePartOffset part total) as [e|] eqn:Ev.
    + case_if; eapply within_move; try done.
    + eapply within_move; try done. cbn. pose proof (Hlen i part Ed) as Hl. unfold downloadSegment in Ed.
      destruct (bodies i) as [b|]; [|done]. destruct (Decode b) as [q|] eqn:Eq; [|done]. injection Ed as ->.
      pose proof (accepted_part b part total Eq Hl Htotal Ev). lia.
  - case_if; eapply within_move; try done.
Qed.

Lemma within_step s ev : within fi M s -> within fi M (step fileName fi total budget bodies s ev).
Proof.
  intros Hw. pose proof Hw as [W1 W2 W3 W4]. destruct ev as [|w|w|w n|w|w|w|w now].
  - by split.
  - cbn [step]. destruct (workers s !! w) as [[]|] eqn:Ew; try done. unfold take_work.
    destruct (work s) as [|[i seg] q]; eapply within_move; try done. by destruct (cancelled s).
  - by apply within_body.
  - cbn [step]. destruct (workers s !! w) as [[| |i seg part| | | | |]|] eqn:Ew; try done.
    destruct (W4 _ _ Ew) as [B1 B2]. unfold written.
    rewrite !(wrap_i64_id (pBegin part - 1)) by (unfold is_i64, i64_min, i64_max in *; lia).
    assert (Hout : Z.of_nat (length (WriteAt (out s) (take n (pData part)) (Z.to_nat (pBegin part - 1)))) <= M).
    { pose proof (write_length (out s) (take n (pData part)) (Z.to_nat (pBegin part - 1))) as H.
      rewrite length_take in H. lia. }
    case_if; eapply within_move; try done. cbn. rewrite wrap_i64_id by (unfold is_i64, i64_min, i64_max in *; lia). lia.
  - cbn [step]. destruct (workers s !! w) as [[| | |i seg e| | | |]|] eqn:Ew; try done.
    pose proof (W4 _ _ Ew) as B. eapply within_move; try done. cbn in *. case_if; lia.
  - cbn [step]. destruct (workers s !! w) as [[| | | |i seg e| | |]|] eqn:Ew; try done.
    pose proof (W4 _ _ Ew) as B. eapply within_move; done.
  - cbn [step]. destruct (workers s !! w) as [[| | | | |i e| |]|] eqn:Ew; try done.
    pose proof (W4 _ _ Ew) as B. eapply within_move; try done. cbn in *. destruct (trk s) as [p|]; [|done]. cbn in *.
    pose proof (known_note p fi e). lia.
  - cbn [step]. destruct (workers s !! w) as [[| | | | | |i|]|] eqn:Ew; try done.
    eapply within_move; try done. cbn in *. destruct (trk s) as [p|]; [|done]. cbn in *. by rewrite MarkDone_known.
Qed.
Lemma within_run s evs : within fi M s -> within fi M (run fileName fi total budget bodies s evs).
Proof. unfold run. revert s. induction evs as [|ev evs IH]; intros s Hs; cbn; [done|]. by apply IH, within_step. Qed.
End Hostile.

(** No server can make a download grow past the size its NZB declares: with
    arbitrary answers to every BODY, at every moment of a download the output
    file and the size kept for later runs stay within the NZB's total, or within
    what was there before. *)
Lemma hostile_articles_bounded fileName fi segs total conns budget bodies t dest io evs s0 :
  0 < total -> (forall i part, downloadSegment (bodies i) = Ok part -> Z.of_nat (length (pData part)) <= i64_max) ->
  begin_file segs fi total conns t dest io = inr s0 ->
  let s := run fileName fi total budget bodies s0 evs in
  let bound := Z.max total (Z.max (Z.of_nat (length (default [] dest))) (known t fi)) in
  Z.of_nat (length (out s)) <= bound /\ known (trk s) fi <= bound /\
  Z.of_nat (length (default [] (odest (end_file segs s io)))) <= bound.
Proof.
  intros Ht Hl Hs s bound.
  assert (Hw0 : within fi bound s0).
  { unfold begin_file in Hs. case_if_in Hs; [done|]. case_if_in Hs; [done|].
    set (t' := if file_done t fi then _ else t) in Hs.
    assert (Hk : known t' fi <= Z.max 0 (known t fi)).
    { unfold t'. case_if; [|lia]. destruct t as [p|]; cbn; [|lia].
      unfold ResetFile, KnownSize. destruct (file_at p fi) as [f|] eqn:Ef; [|rewrite Ef; lia].
      rewrite (file_at_set _ _ _ _ _ _ Ef). cbn. lia. }
    clearbody t'. destruct (open_output t' fi total dest io) as [f|] eqn:Eo; [|done].
    assert (Hf : Z.of_nat (length f) <= bound).
    { assert (Hfr : fresh_output total io = Ok f -> Z.of_nat (length f) <= bound).
      { unfold fresh_output. case_if; [|done]. intros [= <-]. case_if; rewrite ?truncate_length; cbn [length]; unfold bound; lia. }
      unfold open_output in Eo. destruct dest as [o|]; [|by apply Hfr]. case_if_in Eo; [|by apply Hfr].
      case_if_in Eo; [|done]. injection Eo as <-. unfold bound. cbn. lia. }
    destruct (pending_work t' fi segs) as [|x q]; [by repeat case_match|]. injection Hs as <-. split; cbn; [done|unfold bound; lia|unfold bound; lia|].
    intros w ph [-> _]%lookup_replicate. done. }
  destruct (within_run fileName fi total budget bodies Hl bound Ht ltac:(lia) s0 evs Hw0) as [W1 W2 W3 _]. fold s in W1, W2, W3.
  split_and!; [done|done|]. unfold end_file. repeat case_match; cbn; rewrite ?truncate_length; lia.
Qed.
