(* ===== verification/DownloadNzb.v ===== *)
(** Downloads from the outside: that DownloadFile ends under any fair schedule,
    that DownloadNZB delivers the files of an NZB without mixing them up, and runs
    on a small example, among them three where the code departs from what its
    comments promise. *)
From Stdlib Require Import ZArith Lia Ascii String SpecFloat.
From stdpp Require Import prelude list strings sorting gmap.
From S2P Require Import Prelude GoStrings Yenc YencSound Nzb NntpWire Progress Downloader DownloadFile.

Open Scope Z_scope.

(** * Termination *)

(** Steps a worker still takes on its segment; a segment in the channel is worth
    a round. *)
Definition weight (ph : wphase) : Z :=
  match ph with
  | Stopped => 0 | Idle => 1 | Noted _ => 2 | Counted _ _ => 3 | Raised _ _ _ => 4 | Written _ _ _ => 5
  | Writing _ _ _ => 6 | Fetching _ _ => 7
  end.
Definition measure (s : download) : Z := 7 * Z.of_nat (length (work s)) + zsum weight (workers s).

Section Terminate.
Context (fileName : bytes) (fi total budget : Z) (bodies : nat -> result callErr bytes).
Abbreviation step1 := (step fileName fi total budget bodies).
Abbreviation run1 := (run fileName fi total budget bodies).

(** The event that moves a worker on from its phase. *)
Definition moves (ph : wphase) (w : nat) (ev : event) : Prop :=
  match ph, ev with
  | Idle, ETake w' | Fetching _ _, EBody w' | Writing _ _ _, EWrite w' _ | Written _ _ _, ERaise w'
  | Raised _ _ _, ECount w' | Counted _ _, ENote w' | Noted _, EMark w' _ => w' = w
  | _, _ => False
  end.

#[local] Instance moves_dec ph w ev : Decision (moves ph w ev).
Proof. destruct ph, ev; cbn; apply _. Defined.

Lemma measure_move s s' w old ph :
  workers s !! w = Some old -> workers s' = <[w := ph]> (workers s) ->
  7 * Z.of_nat (length (work s')) + weight ph < 7 * Z.of_nat (length (work s)) + weight old -> measure s' < measure s.
Proof. intros Hw Hw' Hlt. unfold measure. rewrite Hw', (zsum_insert _ _ _ _ _ Hw). lia. Qed.

(** An event that fits the phase of its worker uses up measure; any other leaves
    the workers and the channel alone. *)
Lemma step_measure s ev :
  (exists w ph, workers s !! w = Some ph /\ moves ph w ev /\ measure (step1 s ev) < measure s) \/
  ((forall w ph, workers s !! w = Some ph -> ~ moves ph w ev) /\ workers (step1 s ev) = workers s /\
   measure (step1 s ev) = measure s).
Proof.
  assert (Hno : forall w, (forall ph, workers s !! w = Some ph -> ~ moves ph w ev) ->
    (forall w0 ph, moves ph w0 ev -> w0 = w) -> step1 s ev = s ->
    (forall w ph, workers s !! w = Some ph -> ~ moves ph w ev) /\ workers (step1 s ev) = workers s /\
    measure (step1 s ev) = measure s).
  { intros w H1 H2 ->. split_and!; try done. intros w0 ph Hw Hm. pose proof (H2 _ _ Hm) as ->. by apply (H1 ph). }
  destruct ev as [|w|w|w n|w|w|w|w now];
    [right; split_and!; [|done|done]; intros w ph _ Hm; by destruct ph|..].
  all: destruct (workers s !! w) as [ph|] eqn:Ew;
    [|right; apply (Hno w); [by rewrite Ew|by intros w0 []|cbn; by rewrite Ew]].
  all: match goal with |- context [step _ _ _ _ _ _ ?ev] =>
         destruct (decide (moves ph w ev)) as [Hm|Hm];
         [left; exists w, ph; split_and!; [done|done|]; destruct ph; try done; cbn [step]; rewrite Ew
         |right; apply (Hno w); [intros ph' Hp; rewrite Ew in Hp; by injection Hp as <-|by intros w0 []|
           cbn [step]; rewrite Ew; destruct ph; try done; by destruct Hm]] end.
  - unfold take_work. destruct (work s) as [|[i seg] q] eqn:Eq; (eapply measure_move; [done|done|cbn; rewrite Eq; cbn [length]]).
    + cbn. lia.
    + case_if; cbn; lia.
  - unfold fetched. repeat case_match; (eapply measure_move; [done|done|cbn; lia]).
  - unfold written. case_if; (eapply measure_move; [done|done|cbn; lia]).
  - eapply measure_move; [done|done|cbn; lia].
  - eapply measure_move; [done|done|cbn; lia].
  - eapply measure_move; [done|done|cbn; lia].
  - eapply measure_move; [done|done|cbn; lia].
Qed.

Lemma run_measure evs s :
  length (workers (run1 s evs)) = length (workers s) /\ measure (run1 s evs) <= measure s /\
  (measure (run1 s evs) = measure s ->
     forall ev w ph, ev ∈ evs -> workers s !! w = Some ph -> ~ moves ph w ev).
Proof.
  revert s. induction evs as [|ev evs IH]; intros s.
  { split_and!; [done|done|]. intros _ ev w ph H. by apply elem_of_nil in H. }
  change (run1 s (ev :: evs)) with (run1 (step1 s ev) evs). destruct (IH (step1 s ev)) as (I1 & I2 & I3).
  destruct (step_measure s ev) as [(w & ph & Hw & Hm & Hlt)|(Hno & Hw & Heq)].
  - split_and!; [|lia|lia]. rewrite I1. clear -Hw.
    destruct ev as [|w0|w0|w0 n|w0|w0|w0|w0 now]; cbn [step]; [done|..];
      (destruct (workers s !! w0) as [[]|]; try done; unfold take_work, fetched, written; repeat case_match; cbn; by rewrite ?length_insert).
  - rewrite I1, Hw. split_and!; [done|lia|]. intros Hm ev' w ph [->|Hin]%elem_of_cons Hp; [by apply Hno|].
    rewrite <- Hw in Hp. apply (I3 ltac:(lia) ev' w ph Hin Hp).
Qed.

(** A round of events gives every worker the chance to take its next step. *)
Definition fair_round (n : nat) (evs : list event) : Prop :=
  forall w ph, (w < n)%nat -> ph <> Stopped -> exists ev, ev ∈ evs /\ moves ph w ev.

Lemma phase_weight_nonneg ph : 0 <= weight ph.
Proof. destruct ph; cbn; lia. Qed.
Lemma live_worker s : stopped_all s = false -> exists w ph, workers s !! w = Some ph /\ ph <> Stopped.
Proof.
  unfold stopped_all. intros Hs. induction (workers s) as [|ph l IH]; [done|]. cbn in Hs.
  destruct ph; try (by eexists 0%nat, _).
  destruct (IH Hs) as (w & ph & H1 & H2). by exists (S w), ph.
Qed.
Lemma measure_live s : stopped_all s = false -> 1 <= measure s.
Proof.
  intros (w & ph & Hw & Hne)%live_worker. unfold measure.
  pose proof (zsum_lookup weight _ w ph phase_weight_nonneg Hw). destruct ph; cbn in *; try done; lia.
Qed.

Lemma rounds_end rounds s :
  Forall (fair_round (length (workers s))) rounds -> measure s <= Z.of_nat (length rounds) ->
  stopped_all (run1 s (concat rounds)) = true.
Proof.
  revert s. induction rounds as [|r rounds IH]; intros s Hf Hm.
  - destruct (stopped_all s) eqn:E; [done|]. apply measure_live in E. cbn in Hm. lia.
  - apply Forall_cons in Hf as [Hr Hf]. cbn [concat]. unfold run. rewrite fold_left_app. fold (run1 s r). fold (run1 (run1 s r) (concat rounds)).
    destruct (run_measure r s) as (I1 & I2 & I3). destruct (decide (measure (run1 s r) = measure s)) as [He|Hne].
    + destruct (stopped_all s) eqn:E.
      * destruct (run_measure (r ++ concat rounds) s) as (K1 & K2 & K3).
        assert (Hw : forall evs s', workers s' = workers s -> workers (run1 s' evs) = workers s).
        { clear -E. intros evs. induction evs as [|ev evs IH]; intros s' Hs'; [done|].
          change (run1 s' (ev :: evs)) with (run1 (step1 s' ev) evs). apply IH.
          destruct (step_measure s' ev) as [(w & ph & Hw & Hmv & _)|(_ & Hw & _)]; [|by rewrite Hw].
          rewrite Hs' in Hw. apply stopped_all_Forall in E. by rewrite (Forall_lookup_1 _ _ _ _ E Hw) in Hmv. }
        unfold stopped_all in *. rewrite (Hw (concat rounds)); [done|]. by apply Hw.
      * apply live_worker in E as (w & ph & Hw & Hne). pose proof (lookup_lt_Some _ _ _ Hw) as Hlt.
        destruct (Hr w ph Hlt Hne) as (ev & Hin & Hmv). by destruct (I3 He ev w ph Hin Hw).
    + apply IH; [by rewrite I1|]. cbn [length] in Hm. lia.
Qed.
End Terminate.

Lemma zsum_replicate {A} (f : A -> Z) n x : zsum f (replicate n x) = Z.of_nat n * f x.
Proof. induction n as [|n IH]; [done|]. cbn [replicate]. rewrite zsum_cons, IH. lia. Qed.

Lemma start_measure `{GoSort Segment} file t fi conns rounds f n1 n2 k e :
  7 * Z.of_nat (length (fSegments file)) + Z.max 1 conns <= rounds ->
  measure (mkDl f (pending_work t fi (SortSegmentsByNumber (fSegments file)))
    (replicate (Z.to_nat (if conns <=? 0 then 1 else conns)) Idle) n1 n2 k [] None e t) <= rounds.
Proof.
  intros Hr. unfold measure. cbn [work workers]. rewrite zsum_replicate. cbn [weight].
  assert (length (pending_work t fi (SortSegmentsByNumber (fSegments file))) <= length (fSegments file))%nat.
  { unfold pending_work. rewrite filter_length_le, length_imap. unfold SortSegmentsByNumber.
    by rewrite (Permutation_length (sort_Slice_perm _ _)). }
  case_if; bprop; lia.
Qed.

(** C36: A download ends: whatever the articles, the errors and the
    cancellations, a schedule that gives every worker its turn once for each of
    the seven steps of each segment, and once more per worker, brings DownloadFile
    to a result. *)
Theorem download_terminates `{GoSort Segment} tol file fi t dest bodies io conns rounds :
  Forall (fair_round (Z.to_nat (if conns <=? 0 then 1 else conns))) rounds ->
  7 * Z.of_nat (length (fSegments file)) + Z.max 1 conns <= Z.of_nat (length rounds) ->
  exists o, DownloadFile tol file fi t dest (mkRun bodies (concat rounds) io conns) = Some o.
Proof.
  intros Hf Hm. unfold DownloadFile. cbn [fr_bodies fr_events fr_io fr_conns].
  set (segs := SortSegmentsByNumber (fSegments file)).
  destruct (begin_file segs fi (File_TotalBytes file) conns t dest io) as [o|s0] eqn:Eb; [eauto|].
  assert (Hs : length (workers s0) = Z.to_nat (if conns <=? 0 then 1 else conns) /\ measure s0 <= Z.of_nat (length rounds)).
  { unfold begin_file in Eb. case_if_in Eb; [done|]. case_if_in Eb; [done|].
    set (t' := if file_done t fi then _ else t) in Eb. clearbody t'.
    destruct (open_output t' fi (File_TotalBytes file) dest io) as [f|]; [|done].
    destruct (pending_work t' fi segs) as [|x q] eqn:Ep; [by repeat case_match|]. injection Eb as <-.
    split; [apply length_replicate|]. rewrite <- Ep. by apply start_measure. }
  destruct Hs as [Hw Hr].
  match goal with |- context [forallb ?g (workers ?s)] => change (forallb g (workers s)) with (stopped_all s) end.
  rewrite rounds_end; [eauto|by rewrite Hw|done].
Qed.

(** * A whole NZB *)

(** The tracker after a call and before it: well formed, changed in one file. *)
Definition only_file (fi : Z) (t t' : option ProgressTracker) : Prop :=
  match t, t' with
  | Some p, Some q => wf q /\ same_shape fi p q
  | None, None => True
  | _, _ => False
  end.
#[local] Instance only_file_trans fi : Transitive (only_file fi).
Proof.
  intros [a|] [b|] [c|]; try done. intros [_ H1] [H2 H3]. split; [done|by eapply same_shape_trans].
Qed.

Lemma resumable_frame datas segs fi fj t t' dest :
  only_file fi t t' -> fj <> fi -> resumable datas segs fj t dest -> resumable datas segs fj t' dest.
Proof.
  intros Ho Hne. destruct t as [p|], t' as [q|]; try done. destruct Ho as [Hw [Hf _]]. cbn.
  specialize (Hf fj Hne). destruct dest as [o|]; [by apply tracked_frame|].
  intros [Ht|(_ & Hs & Hd)]; [left; by eapply tracked_frame|right].
  split_and!; [done|by rewrite Hf|]. unfold IsFileDone in *. by rewrite Hf.
Qed.
Lemma file_done_frame fi fj t t' : only_file fi t t' -> fj <> fi -> file_done t' fj = file_done t fj.
Proof.
  intros Ho Hne. destruct t as [p|], t' as [q|]; try done. destruct Ho as [_ [Hf _]]. cbn. unfold IsFileDone. by rewrite Hf.
Qed.

Section Frame.
Context (fileName : bytes) (fi total budget : Z) (bodies : nat -> result callErr bytes) (t0 : option ProgressTracker).

Lemma step_frame s ev :
  (forall w i e, workers s !! w = Some (Counted i e) -> e <= i64_max) ->
  only_file fi t0 (trk s) -> only_file fi t0 (trk (step fileName fi total budget bodies s ev)).
Proof.
  intros He Ho. destruct ev as [|w|w|w n|w|w|w|w now]; cbn [step]; [done|..];
    destruct (workers s !! w) as [[| | | | |i e|i|]|] eqn:Ew; try done;
    try (unfold take_work, fetched, written; by repeat case_match).
  - cbn. destruct t0 as [p|], (trk s) as [q|]; try done. destruct Ho as [Hw Hs]. cbn.
    destruct (NoteFileSize_spec q fi e Hw (He _ _ _ Ew)) as (N1 & N2 & _). split; [done|by eapply same_shape_trans].
  - cbn. destruct t0 as [p|], (trk s) as [q|]; try done. destruct Ho as [Hw Hs]. cbn.
    split; [by apply MarkDone_wf|]. eapply same_shape_trans; [done|]. apply MarkDone_shape.
Qed.
End Frame.

Lemma run_frame datas segs fileName fi total budget bodies t0 evs s :
  Z.of_nat (length (concat datas)) <= i64_max -> honest_bodies datas bodies -> dl_inv datas segs fi budget s ->
  only_file fi t0 (trk s) -> only_file fi t0 (trk (run fileName fi total budget bodies s evs)).
Proof.
  intros Hsz Hb. revert s. induction evs as [|ev evs IH]; intros s Hi Ho; [done|].
  change (run fileName fi total budget bodies s (ev :: evs)) with
    (run fileName fi total budget bodies (step fileName fi total budget bodies s ev) evs).
  apply IH; [by apply (dl_step datas segs fi fileName total budget bodies Hsz Hb)|]. apply step_frame; [|done].
  intros w i e Hw. destruct (dl_phases _ _ _ _ _ Hi _ _ Hw) as [-> _]. pose proof (seg_pos_bound datas (S i)). lia.
Qed.

Lemma cleared_frame datas segs fi t dest :
  resumable datas segs fi t dest -> only_file fi t t /\ only_file fi t (cleared fi t).
Proof.
  intros Hr. destruct t as [p|]; [|done].
  assert (Hw : wf p) by (destruct dest; cbn in Hr; [by destruct Hr|destruct Hr as [[]|[? _]]; done]).
  split; [done|]. unfold cleared. case_if; [|done]. cbn. destruct (ResetFile_spec p fi Hw) as (R1 & R2 & _). done.
Qed.

(** Where the prologue gets to, for the tracker. *)
Lemma begin_frame datas segs fi total conns t dest io :
  resumable datas segs fi t dest ->
  match begin_file segs fi total conns t dest io with
  | inl o => only_file fi t (otrk o)
  | inr s => only_file fi t (trk s)
  end.
Proof.
  intros Hr. destruct (cleared_frame _ _ _ _ _ Hr) as [H1 H2]. unfold begin_file. fold (cleared fi t).
  case_if; [done|]. case_if; [done|]. destruct (open_output _ _ _ _ _); [|done].
  destruct (pending_work _ _ _); [|done]. by repeat case_if.
Qed.

Lemma file_frame `{GoSort Segment} tol file fi datas t dest r o :
  posted file fi datas t dest r -> DownloadFile tol file fi t dest r = Some o ->
  only_file fi t (otrk o).
Proof.
  intros Hp Hd. pose proof Hp as [P1 P2 P3 P4 P5]. pose proof (posted_segs _ _ _ _ _ _ Hp) as Hn.
  unfold DownloadFile in Hd. set (segs := SortSegmentsByNumber (fSegments file)) in *.
  pose proof (begin_frame datas segs fi (File_TotalBytes file) (fr_conns r) t dest (fr_io r) P5) as Hf.
  pose proof (begin_cases datas segs fi (File_TotalBytes file) (maxMissing tol (Z.of_nat (length segs))) t dest (fr_conns r) (fr_io r)
    (maxMissing_nonneg _ _) Hn P5) as Hb.
  destruct (begin_file _ _ _ _ _ _ _) as [o'|s0]; [by injection Hd as <-|].
  case_if_in Hd; [|done]. injection Hd as <-.
  pose proof (run_frame datas segs (destName file (stamp (fr_io r))) fi (File_TotalBytes file) _ (fr_bodies r) t (fr_events r) s0 P3 P4 Hb Hf) as Hr.
  unfold end_file. by repeat case_match.
Qed.

(** ** The files of an NZB *)

Section Nzb.
Context `{GoSort Segment} (tol : spec_float) (elsewhere : bytes -> bool) (index : gmap (list Z) Z) (content : File -> list bytes).

Definition file_index (f : File) : Z := default (-1) (index !! fSubject f).
(** A name that is the destination's. *)
Definition plain_name (f : File) : Prop :=
  existsb (fun c => c =? SLASH) (Filename f) = false /\ forall s, destName f s = Filename f.
(** The files to fetch, each posted and with nothing false recorded of it, under
    names and tracker indexes of their own. *)
Record files_posted (l : list (File * (bool * fileRun))) (t : option ProgressTracker) (fs : outputDir) : Prop := {
  fp_posted : forall f b r, (f, (b, r)) ∈ l ->
    plain_name f /\ posted f (file_index f) (content f) t (fs !! Filename f) r;
  fp_names : NoDup (map (fun x => Filename (fst x)) l);
  fp_indexes : NoDup (map (fun x => file_index (fst x)) l)
}.

(** The same of files that only earlier calls have touched. *)
Record files_left (l : list (File * (bool * fileRun))) (t : option ProgressTracker) (fs : outputDir) : Prop := {
  fl_left : forall f b r, (f, (b, r)) ∈ l ->
    plain_name f /\ as_posted f (content f) r /\ left_by f (file_index f) (content f) t (fs !! Filename f);
  fl_names : NoDup (map (fun x => Filename (fst x)) l);
  fl_indexes : NoDup (map (fun x => file_index (fst x)) l)
}.
Lemma files_left_posted l t fs : files_left l t fs -> files_posted l t fs.
Proof.
  intros [L1 L2 L3]. split; [|done|done]. intros f b r Hin. destruct (L1 f b r Hin) as (H1 & H2 & H3).
  split; [done|by apply left_by_posted].
Qed.

Definition delivered (t : option ProgressTracker) (fs : outputDir) (r : nzbOutcome) (f : File) : Prop :=
  nresults r !! Filename f = Some (Filename f) /\
  exists c, nfs r !! Filename f = Some c /\
    file_ok (content f) (SortSegmentsByNumber (fSegments f)) (nmissing r)
      (file_done t (file_index f) && bool_decide (is_Some (fs !! Filename f))) c.

Lemma file_ok_weaken datas segs m m' b f : (forall x, x ∈ m -> x ∈ m') -> file_ok datas segs m b f -> file_ok datas segs m' b f.
Proof.
  intros Hs [H1 H2]. split; [intros i seg Hi Hm; apply (H1 i seg Hi); intros x Hx; by apply Hm, Hs|].
  intros -> Hb. apply H2; [|done]. destruct m as [|x m]; [done|]. specialize (Hs x ltac:(by left)). by apply elem_of_nil in Hs.
Qed.

Lemma files_posted_next f b r l t t' fs dest :
  files_posted ((f, (b, r)) :: l) t fs -> only_file (file_index f) t t' ->
  files_posted l t' (set_dest fs (Filename f) dest) /\
  (forall x, x ∈ l -> Filename (fst x) <> Filename f /\ file_index (fst x) <> file_index f).
Proof.
  intros [Q1 Q2 Q3] Ho. cbn in Q2, Q3. apply NoDup_cons in Q2 as [Q2 Q2']. apply NoDup_cons in Q3 as [Q3 Q3'].
  assert (Hne : forall x, x ∈ l -> Filename (fst x) <> Filename f /\ file_index (fst x) <> file_index f).
  { intros x Hx. split; intros Heq; [apply Q2|apply Q3]; apply list_elem_of_fmap; by exists x. }
  split; [|done]. split; [|done|done]. intros g b' r' Hin. destruct (Hne _ Hin) as [Hn1 Hn2]. cbn in Hn1, Hn2.
  destruct (Q1 g b' r' ltac:(by right)) as [Hp [P1 P2 P3 P4 P5]]. split; [done|]. split; try done.
  replace (set_dest fs (Filename f) dest !! Filename g) with (fs !! Filename g).
  - eapply resumable_frame; [exact Ho|done|done].
  - unfold set_dest. destruct dest; [by rewrite lookup_insert_ne|by rewrite lookup_delete_ne].
Qed.

Lemma set_dest_id (fs : outputDir) name : set_dest fs name (fs !! name) = fs.
Proof. unfold set_dest. destruct (fs !! name) eqn:E; [by apply insert_id|by apply delete_id]. Qed.
Lemma set_dest_ne (fs : outputDir) name name' dest : name' <> name -> set_dest fs name dest !! name' = fs !! name'.
Proof. intros Hne. unfold set_dest. destruct dest; [by rewrite lookup_insert_ne|by rewrite lookup_delete_ne]. Qed.

(** One file done, the rest delivered. *)
Lemma deliver_step f b r0 l t t' fs dest m acc' r :
  files_posted ((f, (b, r0)) :: l) t fs -> only_file (file_index f) t t' ->
  (exists c, dest = Some c /\ file_ok (content f) (SortSegmentsByNumber (fSegments f)) m
     (file_done t (file_index f) && bool_decide (is_Some (fs !! Filename f))) c) ->
  ntrk acc' = t' -> nfs acc' = set_dest fs (Filename f) dest -> (forall x, x ∈ m -> x ∈ nmissing acc') ->
  nresults acc' !! Filename f = Some (Filename f) ->
  (forall x, x ∈ nmissing acc' -> x ∈ nmissing r) ->
  (forall name, name ∉ map (fun x => Filename (fst x)) l ->
     nfs r !! name = nfs acc' !! name /\ nresults r !! name = nresults acc' !! name) ->
  (forall x, x ∈ l -> delivered t' (nfs acc') r (fst x)) ->
  forall x, x ∈ (f, (b, r0)) :: l -> delivered t fs r (fst x).
Proof.
  intros Hp Ho (c & -> & Hok) Ht Hfs Hm Hres Hmr Hkeep Hl x Hx.
  destruct (files_posted_next f b r0 l t t' fs (Some c) Hp Ho) as [_ Hne].
  apply elem_of_cons in Hx as [->|Hx]; cbn [fst].
  - destruct (Hkeep (Filename f)) as [K1 K2].
    { intros (y & Hy1 & Hy2)%list_elem_of_fmap. by destruct (Hne y Hy2) as [? _]. }
    split; [by rewrite K2|]. exists c. split.
    + rewrite K1, Hfs. cbn. apply lookup_insert_eq.
    + eapply file_ok_weaken; [|exact Hok]. auto.
  - destruct (Hne x Hx) as [N1 N2]. destruct (Hl x Hx) as [D1 (c' & D2 & D3)]. split; [done|]. exists c'. split; [done|].
    rewrite Hfs, set_dest_ne in D3 by done. by rewrite (file_done_frame _ _ _ _ Ho N2) in D3.
Qed.

Lemma download_files_ok l acc r :
  files_posted l (ntrk acc) (nfs acc) -> download_files tol elsewhere index l acc = Some r -> nerr r = None ->
  (forall m, m ∈ nmissing acc -> m ∈ nmissing r) /\
  (forall name, name ∉ map (fun x => Filename (fst x)) l ->
     nfs r !! name = nfs acc !! name /\ nresults r !! name = nresults acc !! name) /\
  (forall x, x ∈ l -> delivered (ntrk acc) (nfs acc) r (fst x)).
Proof.
  revert acc. induction l as [|[f [ctxDone r0]] l IH]; intros acc Hp Hd Hok; cbn in Hd.
  { injection Hd as <-. split_and!; [done|done|]. intros x Hx. by apply elem_of_nil in Hx. }
  pose proof Hp as [Q1 _ _]. destruct (Q1 f ctxDone r0 ltac:(by left)) as [[Hs Hn] Hpo]. fold (file_index f) in Hd.
  assert (Hsub : forall name dest, name ∉ map (fun x => Filename (fst x)) ((f, (ctxDone, r0)) :: l) ->
    name ∉ map (fun x => Filename (fst x)) l /\ set_dest (nfs acc) (Filename f) dest !! name = nfs acc !! name /\
    <[Filename f := Filename f]> (nresults acc) !! name = nresults acc !! name).
  { intros name dest Hni. cbn in Hni. apply not_elem_of_cons in Hni as [H1 H2].
    split_and!; [done|by apply set_dest_ne|by apply lookup_insert_ne]. }
  destruct ctxDone; [injection Hd as <-; done|].
  destruct (file_done (ntrk acc) (file_index f) && stat_name (nfs acc) elsewhere (Filename f)) eqn:Eskip.
  - bprop. unfold stat_name in *. rewrite Hs in *. bprop.
    match goal with H : is_Some _ |- _ => destruct H as [c Hc] end.
    pose proof (po_resume _ _ _ _ _ _ Hpo) as Hr. rewrite Hc in Hr.
    destruct (cleared_frame _ _ _ _ _ Hr) as [Hrefl _].
    destruct (files_posted_next f false r0 l _ _ (nfs acc) (nfs acc !! Filename f) Hp Hrefl) as [Hp' _].
    rewrite set_dest_id in Hp'. destruct ((fun H => IH _ H Hd Hok) Hp') as (I1 & I2 & I3). cbn [nfs ntrk nresults nmissing] in *.
    split_and!; [done| |].
    + intros name Hni. destruct (Hsub name None Hni) as (H1 & _ & H3). destruct (I2 name H1) as [-> ->]. done.
    + match type of Hd with download_files _ _ _ _ ?a = _ =>
        apply (deliver_step f false r0 l _ _ _ (nfs acc !! Filename f) [] a r Hp Hrefl) end; try done; cbn [nfs ntrk nresults nmissing].
      * exists c. split; [done|]. rewrite H0, Hc, bool_decide_true by eauto. destruct (ntrk acc) as [p|]; [|done].
        by apply (complete_ok _ _ (file_index f) p).
      * by rewrite set_dest_id.
      * intros x Hx. by apply elem_of_nil in Hx.
      * apply lookup_insert_eq.
  - rewrite Hn in Hd. destruct (DownloadFile _ _ _ _ _ _) as [o|] eqn:Ed; [|done].
    pose proof (file_frame _ _ _ _ _ _ _ _ Hpo Ed) as Ho. destruct (oerr o) eqn:Eo; [injection Hd as <-; done|].
    destruct (download_file_ok _ _ _ _ _ _ _ _ Hpo Ed Eo) as (c & C1 & _ & C3).
    destruct (files_posted_next f false r0 l _ _ (nfs acc) (odest o) Hp Ho) as [Hp' _].
    destruct ((fun H => IH _ H Hd Hok) Hp') as (I1 & I2 & I3). cbn [nfs ntrk nresults nmissing] in *. split_and!.
    + intros m Hm. apply I1, elem_of_app. by left.
    + intros name Hni. destruct (Hsub name (odest o) Hni) as (H1 & H2 & H3). destruct (I2 name H1) as [-> ->]. done.
    + match type of Hd with download_files _ _ _ _ ?a = _ =>
        apply (deliver_step f false r0 l _ _ _ (odest o) (omissing o) a r Hp Ho) end; try done; cbn [nfs ntrk nresults nmissing]; eauto.
      * intros x Hx. apply elem_of_app. by right.
      * apply lookup_insert_eq.
Qed.
End Nzb.

(** C4: Let the files DownloadNZB fetches (the RAR volumes, or else all content
    files) have plain names that differ from each other and subjects of their own
    (so one tracker entry each); let each be posted, not empty, with every article
    that decodes being the one posted; and let only earlier calls have written the
    files and the progress, each file with a history of calls cut off at any
    moment.  Then when DownloadNZB reports no error every one of them is listed
    under its name, the bytes of all its segments that are not reported missing
    are in their place on disk, and if nothing is reported missing it is exactly
    the posted file, unless it was found complete when the call started. *)
Theorem download_nzb_delivers `{GoSort Segment} tol elsewhere n content fs t runs r :
  files_left (nzbFileIndex n) content (imap (fun k f => (f, runs k)) (filesToDownload n)) t fs ->
  DownloadNZB tol elsewhere n fs t runs = Some r -> nerr r = None ->
  forall f, f ∈ filesToDownload n -> delivered (nzbFileIndex n) content t fs r f.
Proof.
  intros Hp%files_left_posted Hd Hok f Hf. unfold DownloadNZB in Hd.
  destruct (filesToDownload n) as [|f0 l] eqn:El; [by apply elem_of_nil in Hf|]. rewrite <- El in *.
  pose proof Hf as Hf'. apply list_elem_of_lookup in Hf' as [k Hk].
  destruct (download_files_ok tol elsewhere (nzbFileIndex n) content _ (mkNzbOutcome ∅ [] None fs t) r Hp Hd Hok)
    as (_ & _ & H3).
  apply (H3 (f, runs k)). apply elem_of_lookup_imap. eauto.
Qed.

(** * An example

    A file of five bytes in two articles, two workers that overtake each other. *)

#[local] Instance demo_dl_sort : GoSort Segment := stable_GoSort Segment.
Definition demo_file : File :=
  mkFile [] 0 ([QUOTE] ++ str "x.mkv" ++ [QUOTE] ++ str " yEnc (1/2)") [] [mkSegment 40 1 (str "a@b"); mkSegment 30 2 (str "c@d")].
Definition demo_datas : list bytes := [str "abc"; str "de"].
Definition demo_bodies (i : nat) : result callErr bytes :=
  match i with
  | 0%nat => Ok (Encode (str "x.mkv") 1 2 1 3 5 (str "abc"))
  | 1%nat => Ok (Encode (str "x.mkv") 2 2 4 5 5 (str "de"))
  | _ => Err InvalidID
  end.
Definition demo_io : fileIO := mkIO true true true true true (str "1").
Definition demo_pt (bits done size : Z) : ProgressTracker := mkPT [] [mkFP 2 [bits] done size] false 0 0.
Definition demo_events : list event :=
  [ETake 0; ETake 1; EBody 1; EBody 0; EWrite 1 2; ERaise 1; EWrite 0 3; ECount 1; ERaise 0; ENote 1; ECount 0;
   EMark 1 5; ENote 0; EMark 0 6; ETake 1; ETake 0].
Definition demo_file_run : fileRun := mkRun demo_bodies demo_events demo_io 2.

Lemma demo_bodies_honest : honest_bodies demo_datas demo_bodies.
Proof.
  intros [|[|i]] part H; vm_compute in H; try discriminate H; injection H as <-; split; vm_compute; reflexivity.
Qed.
Lemma demo_as_posted : as_posted demo_file demo_datas demo_file_run.
Proof. split; [done|done|vm_compute; discriminate|apply demo_bodies_honest]. Qed.
Lemma demo_left dest : left_by demo_file 0 demo_datas (Some (demo_pt 0 0 0)) dest.
Proof.
  apply left_first. split_and!.
  - constructor; [|done]. split; [done|by repeat constructor|done|done|vm_compute; split; discriminate].
  - intros f Hf. cbn in Hf. by injection Hf as <-.
  - reflexivity.
  - intros [|[|i]]; [done|done|]. rewrite IsDone_file. done.
Qed.
Lemma demo_posted : posted demo_file 0 demo_datas (Some (demo_pt 0 0 0)) None demo_file_run.
Proof. apply left_by_posted; [apply demo_as_posted|apply demo_left]. Qed.

(** A first run was killed with the second segment written and marked, and the
    first one written and not marked; the second run fetches the first one again. *)
Definition demo_second_events : list event :=
  [ETake 1; ETake 0; EBody 1; EWrite 1 3; ERaise 1; ECount 1; ENote 1; EMark 1 9; ETake 1].
Definition demo_second_run : fileRun := mkRun demo_bodies demo_second_events demo_io 2.
Definition demo_killed : option (option ProgressTracker * bytes) :=
  match begin_file (SortSegmentsByNumber (fSegments demo_file)) 0 (File_TotalBytes demo_file) 2 (Some (demo_pt 0 0 0)) None demo_io with
  | inl _ => None
  | inr s0 =>
      let go := run (destName demo_file (stamp demo_io)) 0 (File_TotalBytes demo_file) (maxMissing zeroTolerance 2) demo_bodies in
      Some (trk (go s0 (take 12 demo_events)), out (go (go s0 (take 12 demo_events)) []))
  end.
Lemma demo_killed_left :
  exists t f, demo_killed = Some (t, f) /\ seg_done t 0 1 && negb (seg_done t 0 0) = true /\
    left_by demo_file 0 demo_datas t (Some f).
Proof.
  unfold demo_killed. destruct (begin_file _ _ _ _ _ _ _) as [o|s0] eqn:Eb; [vm_compute in Eb; discriminate Eb|].
  eexists _, _. split; [reflexivity|]. split.
  - clear -Eb. vm_compute in Eb. injection Eb as <-. vm_compute. reflexivity.
  - apply (left_killed _ _ _ (Some (demo_pt 0 0 0)) None demo_file_run zeroTolerance s0 (take 12 demo_events) []);
      [apply demo_left|apply demo_as_posted|exact Eb].
Qed.

Lemma download_file_correct_witness :
  exists t f o, demo_killed = Some (t, f) /\ seg_done t 0 1 && negb (seg_done t 0 0) = true /\
  DownloadFile zeroTolerance demo_file 0 t (Some f) demo_second_run = Some o /\
  oerr o = None /\ odest o = Some (str "abcde").
Proof.
  destruct demo_killed_left as (t & f & Hk & Hs & Hl). exists t, f.
  destruct (DownloadFile zeroTolerance demo_file 0 t (Some f) demo_second_run) as [o|] eqn:Ed.
  2:{ exfalso. clear -Ed Hk. vm_compute in Hk. injection Hk as <- <-. vm_compute in Ed. discriminate Ed. }
  assert (Hm : oerr o = None /\ omissing o = [] /\ file_done t 0 = false).
  { clear -Ed Hk. vm_compute in Hk. injection Hk as <- <-. vm_compute in Ed. injection Ed as <-. repeat split. }
  destruct Hm as (He & Hm & Hf).
  destruct (download_file_correct zeroTolerance demo_file 0 demo_datas t (Some f) demo_second_run o
    ltac:(split; [done|done|vm_compute; discriminate|apply demo_bodies_honest]) Hl Ed He) as (g & H1 & _ & _ & H4).
  exists o. split_and!; [done|done|reflexivity|exact He|]. rewrite H1, (H4 Hm); [reflexivity|]. by rewrite Hf.
Defined.

Lemma resume_after_stop_witness :
  let segs := SortSegmentsByNumber (fSegments demo_file) in
  let name := destName demo_file (stamp (fr_io demo_file_run)) in
  let go := run name 0 (File_TotalBytes demo_file) 0 (fr_bodies demo_file_run) in
  match begin_file segs 0 (File_TotalBytes demo_file) (fr_conns demo_file_run) (Some (demo_pt 0 0 0)) None (fr_io demo_file_run) with
  | inl _ => False
  | inr s0 =>
      let s1 := go s0 (take 12 demo_events) in
      seg_done (trk s1) 0 1 && negb (seg_done (trk s1) 0 0) = true /\
      resumable demo_datas segs 0 (trk s1) (Some (out (go s1 (drop 12 demo_events))))
  end.
Proof.
  pose proof (resume_after_stop demo_file 0 demo_datas _ _ demo_file_run 0 (take 12 demo_events) (drop 12 demo_events) demo_posted
    ltac:(vm_compute; discriminate)) as H.
  cbv zeta in H |- *.
  destruct (begin_file _ _ _ _ _ _ _) as [o|s0] eqn:Eb; [vm_compute in Eb; discriminate Eb|].
  split; [|exact (proj1 H)]. clear H. vm_compute in Eb. injection Eb as <-. vm_compute. reflexivity.
Defined.

Lemma hostile_articles_bounded_witness :
  exists s0, begin_file (fSegments demo_file) 0 70 2 (Some (demo_pt 0 0 0)) None demo_io = inr s0 /\
  Z.of_nat (length (out (run (str "x.mkv") 0 70 0 demo_bodies s0 demo_events))) <= 70.
Proof.
  destruct (begin_file (fSegments demo_file) 0 70 2 (Some (demo_pt 0 0 0)) None demo_io) as [o|s0] eqn:Eb;
    [vm_compute in Eb; discriminate Eb|].
  exists s0. split; [reflexivity|].
  assert (Hl : forall i part, downloadSegment (demo_bodies i) = Ok part -> Z.of_nat (length (pData part)) <= i64_max).
  { intros [|[|i]] part H; vm_compute in H; try discriminate H; injection H as <-; vm_compute; discriminate. }
  exact (proj1 (hostile_articles_bounded (str "x.mkv") 0 (fSegments demo_file) 70 2 0 demo_bodies (Some (demo_pt 0 0 0)) None
    demo_io demo_events s0 ltac:(lia) Hl Eb)).
Defined.

Definition all_moves (w : nat) : list event := [ETake w; EBody w; EWrite w 3; ERaise w; ECount w; ENote w; EMark w 5].
Lemma download_terminates_witness :
  exists o, DownloadFile zeroTolerance demo_file 0 None None
    (mkRun demo_bodies (concat (replicate 15 (all_moves 0))) demo_io 1) = Some o.
Proof.
  apply download_terminates.
  - apply Forall_replicate. intros [|w] ph Hw Hp; [|cbn in Hw; lia].
    destruct ph; try done; unfold all_moves;
      [exists (ETake 0)|exists (EBody 0)|exists (EWrite 0 3)|exists (ERaise 0)|exists (ECount 0)|exists (ENote 0)|exists (EMark 0 5)];
      (split; [set_solver|reflexivity]).
  - vm_compute. discriminate.
Defined.

Definition demo_nzb_dl : NZB := mkNZB [demo_file] [] ∅.
Lemma download_nzb_delivers_witness :
  exists r, DownloadNZB zeroTolerance (fun _ => false) demo_nzb_dl ∅ (Some (demo_pt 0 0 0)) (fun _ => (false, demo_file_run)) = Some r /\
  nerr r = None /\ delivered (nzbFileIndex demo_nzb_dl) (fun _ => demo_datas) (Some (demo_pt 0 0 0)) ∅ r demo_file.
Proof.
  destruct (DownloadNZB zeroTolerance (fun _ => false) demo_nzb_dl ∅ (Some (demo_pt 0 0 0)) (fun _ => (false, demo_file_run)))
    as [r|] eqn:Ed; [|vm_compute in Ed; discriminate Ed].
  assert (He : nerr r = None) by (vm_compute in Ed; injection Ed as <-; reflexivity).
  exists r. split; [reflexivity|]. split; [exact He|].
  refine (download_nzb_delivers _ _ _ _ _ _ _ r _ Ed He demo_file _); [|vm_compute; by left].
  replace (filesToDownload demo_nzb_dl) with [demo_file] by (vm_compute; reflexivity). cbn [imap].
  split.
  - intros f b r' Hin%list_elem_of_singleton. injection Hin as -> -> ->. split; [split; [reflexivity|intros s; reflexivity]|].
    split; [apply demo_as_posted|apply demo_left].
  - repeat constructor. apply not_elem_of_nil.
  - repeat constructor. apply not_elem_of_nil.
Defined.

(** * Where the code and its comments part *)

(** A file that is gone is noticed only when the tracker has all of it.  With part
    of it recorded, the run makes a new file, fetches the other segments and
    reports success with zeros for the recorded ones. *)
Definition resumed_run : fileRun :=
  mkRun demo_bodies [ETake 0; EBody 0; EWrite 0 2; ERaise 0; ECount 0; ENote 0; EMark 0 5; ETake 0] demo_io 1.

(** A partial file that was deleted is not noticed: the tracker still has its
    first segment as done, so the download ends without error and without a missing
    segment, the tracker calls the file complete, and the file on disk has zeros
    where the first segment's bytes belong. *)
Lemma deleted_partial_delivers_zeros :
  tracked demo_datas (fSegments demo_file) 0 (demo_pt 1 1 3) (str "abc") /\
  exists o p, DownloadFile zeroTolerance demo_file 0 (Some (demo_pt 1 1 3)) None resumed_run = Some o /\
    oerr o = None /\ omissing o = [] /\ odest o = Some ([0; 0; 0] ++ str "de") /\
    otrk o = Some p /\ IsFileDone p 0 = true.
Proof.
  split.
  - split.
    + constructor; [|done]. split; [done|by repeat constructor|done|done|vm_compute; split; discriminate].
    + intros f Hf. cbn in Hf. by injection Hf as <-.
    + vm_compute. split; discriminate.
    + intros [|[|i]] Hi; [|done|by rewrite IsDone_file in Hi]. split; [|vm_compute; discriminate].
      intros x Hx. destruct x as [|[|[|x]]]; [done|done|done|]. vm_compute in Hx. lia.
  - destruct (DownloadFile zeroTolerance demo_file 0 (Some (demo_pt 1 1 3)) None resumed_run) as [o|] eqn:Ed;
      vm_compute in Ed; [|discriminate Ed]. injection Ed as <-. eexists _, _. vm_compute. repeat split.
Qed.

(** The state of a first run whose workers are done, before DownloadFile sizes the
    file. *)
Definition unsized : option (option ProgressTracker * bytes) :=
  match begin_file (fSegments demo_file) 0 70 2 (Some (demo_pt 0 0 0)) None demo_io with
  | inl _ => None
  | inr s0 => let s := run (str "x.mkv") 0 70 0 demo_bodies s0 demo_events in
              if stopped_all s then Some (trk s, out s) else None
  end.

(** A run that dies after its last segment and before the closing truncate
    leaves a file of the encoded size.  The next run takes it for complete and
    returns it as it is, with the slack at its end; the branch that would size it
    is never reached for a file that has segments ([pending_nonempty]). *)
Lemma complete_file_keeps_slack :
  exists t f, unsized = Some (t, f) /\ (length f = 70)%nat /\ take 5 f = str "abcde" /\
  DownloadFile zeroTolerance demo_file 0 t (Some f) demo_file_run = Some (mkOutcome None [] (Some f) t).
Proof.
  destruct unsized as [[t f]|] eqn:Eu; vm_compute in Eu; [|discriminate Eu]. injection Eu as <- <-.
  eexists _, _. split; [reflexivity|]. repeat split; vm_compute; reflexivity.
Qed.

(** The second article of a parity file cannot be fetched. *)
Definition par2_bodies (i : nat) : result callErr bytes := match i with 0%nat => demo_bodies 0 | _ => Err ReconnectFailed end.
Definition par2_run : fileRun :=
  mkRun par2_bodies [ETake 0; EBody 0; EWrite 0 3; ERaise 0; ECount 0; ENote 0; EMark 0 5; ETake 0; EBody 0] demo_io 1.

(** A parity file with a hole is used after all: the attempt that could not
    fetch one of its articles fails, but leaves a file of exactly the size that the
    next attempt takes for a complete download, so that it is handed to par2. *)
Lemma broken_parity_taken_as_complete :
  match DownloadPar2Files [demo_file] ∅ (fun _ => par2_run) with
  | Some (first, fs) =>
      first = Err (DAllPar2Failed 1) /\ fs !! str "x.mkv" = Some (str "abc" ++ replicate 67 0) /\
      match DownloadPar2Files [demo_file] fs (fun _ => par2_run) with
      | Some (Ok results, _) => results !! str "x.mkv" = Some (str "x.mkv")
      | _ => False
      end
  | None => False
  end.
Proof. vm_compute. repeat split. Qed.
