(* ===== verification/SafePath.v ===== *)
(** Writing archive members under a destination:
    internal/usenet/postprocess/safewrite.go, the member loops of
    extract_native.go, and internal/engine/safepath.go.

    Paths are bytes as the code has them.  The file system below the code is a map
    from physical paths (lists of elements from the root) with its symbolic links,
    so that where a write really lands can be stated. *)
From Stdlib Require Import ZArith Lia Ascii String.
From stdpp Require Import prelude list strings sorting gmap.
From S2P Require Import Prelude GoStrings.

Open Scope Z_scope.

(** * path/filepath on a Unix separator *)

Definition COLON : Z := 58.
Abbreviation path := (list (list Z)).

(** strings.Split at the separator. *)
Fixpoint split_slash (s : bytes) : path :=
  match s with
  | [] => [[]]
  | c :: s' =>
      if c =? SLASH then [] :: split_slash s'
      else match split_slash s' with [] => [[c]] | e :: es => (c :: e) :: es end
  end.
Fixpoint join_slash (p : path) : bytes :=
  match p with
  | [] => []
  | [e] => e
  | e :: es => e ++ SLASH :: join_slash es
  end.

(** One element against the elements kept so far, last first. *)
Definition clean_push (rooted : bool) (stack : path) (e : bytes) : path :=
  if bytes_eqb e [] || bytes_eqb e (str ".") then stack
  else if bytes_eqb e (str "..") then
    match stack with
    | [] => if rooted then [] else [e]
    | t :: rest => if bytes_eqb t (str "..") then e :: stack else rest
    end
  else e :: stack.
Definition clean_elems (rooted : bool) (elems : path) : path := rev (fold_left (clean_push rooted) elems []).

Definition is_abs (p : bytes) : bool := match p with c :: _ => c =? SLASH | [] => false end.
Definition elems_of (p : bytes) : path := clean_elems (is_abs p) (split_slash p).
(** filepath.Clean *)
Definition Clean (p : bytes) : bytes :=
  match p with
  | [] => str "."
  | _ => if is_abs p then SLASH :: join_slash (elems_of p)
         else match elems_of p with [] => str "." | es => join_slash es end
  end.
(** filepath.Join of two. *)
Definition Join (a b : bytes) : bytes :=
  match a with
  | [] => match b with [] => [] | _ => Clean b end
  | _ => Clean (a ++ SLASH :: b)
  end.
(** filepath.Dir *)
Definition Dir (p : bytes) : bytes :=
  Clean (rev (snd (span (fun b => negb (b =? SLASH)) (rev p)))).

(** An absolute path in its clean form. *)
Definition render (p : path) : bytes := SLASH :: join_slash p.

(** * Containment *)

(** isWithin of postprocess and isWithinDir of engine. *)
Definition isWithin (base target : bytes) : bool :=
  let base := Clean base in
  let target := Clean target in
  bytes_eqb target base || has_prefix (base ++ [SLASH]) target.

Inductive pathErr := PEmpty | PAbsolute | PDrive | PEscapes | PSymlink.

(** safePath; [evalSymlinks] is filepath.EvalSymlinks. *)
Definition safePath (evalSymlinks : bytes -> option bytes) (baseDir untrusted : bytes) : result pathErr bytes :=
  let resolved := Join baseDir untrusted in
  if negb (isWithin baseDir resolved) then Err PEscapes
  else
    match evalSymlinks resolved with
    | Some real =>
        let base := default baseDir (evalSymlinks baseDir) in
        if negb (isWithin base real) then Err PSymlink else Ok real
    | None => Ok resolved
    end.

(** resolve of safeWriter. *)
Definition resolve (evalSymlinks : bytes -> option bytes) (destDir name : bytes) : result pathErr bytes :=
  match name with
  | [] => Err PEmpty
  | _ =>
      let clean := replace_byte BACKSLASH SLASH name in
      if is_abs clean then Err PAbsolute
      else if (2 <=? length clean)%nat && (nth 1 clean 0 =? COLON) then Err PDrive
      else
        let joined := Join destDir clean in
        if negb (isWithin destDir joined) then Err PEscapes
        else
          match evalSymlinks (Dir joined) with
          | Some real => if negb (isWithin destDir real) then Err PSymlink else Ok joined
          | None => Ok joined
          end
  end.

(** * Modes *)

(** os.FileMode bits. *)
Definition ModeSymlink : Z := Z.shiftl 1 27.
Definition ModeDevice : Z := Z.shiftl 1 26.
Definition ModeNamedPipe : Z := Z.shiftl 1 25.
Definition ModeSocket : Z := Z.shiftl 1 24.
Definition ModeSetuid : Z := Z.shiftl 1 23.
Definition ModeSetgid : Z := Z.shiftl 1 22.
Definition ModeCharDevice : Z := Z.shiftl 1 21.
Definition ModeIrregular : Z := Z.shiftl 1 19.
Definition disallowedModes : Z :=
  fold_left Z.lor [ModeDevice; ModeNamedPipe; ModeSocket; ModeCharDevice; ModeIrregular; ModeSetuid; ModeSetgid] ModeSymlink.
Definition checkMode (mode : Z) : bool := Z.land mode disallowedModes =? 0.
(** 0o755, 0o644 and 0o600. *)
Definition filePerm (mode : Z) : Z :=
  let perm := Z.land (Z.land mode 511) 493 in
  if perm =? 0 then 420 else Z.lor perm 384.

(** * Extraction *)

(** The file system: directories, links with their physical targets, and files,
    all by physical path. *)
Record FS := mkFS { dirs : gset path; links : gmap path path; fdata : gmap path (list Z) }.

(** Where a path leads: every element that is a link is followed. *)
Fixpoint follow (links : gmap path path) (cur : path) (elems : path) : path :=
  match elems with
  | [] => cur
  | e :: es => let next := cur ++ [e] in follow links (default next (links !! next)) es
  end.
Definition phys (fs : FS) (p : bytes) : path := follow (links fs) [] (elems_of p).
Definition EvalSymlinks (fs : FS) (p : bytes) : option bytes :=
  let q := phys fs p in
  if bool_decide (q ∈ dirs fs) || bool_decide (is_Some (fdata fs !! q)) then Some (render q) else None.
(** os.MkdirAll that succeeds: the directory and all above it. *)
Definition MkdirAll (fs : FS) (p : bytes) : FS :=
  let es := elems_of p in
  mkFS (list_to_set (map (fun n => follow (links fs) [] (take n es)) (seq 0 (S (length es)))) ∪ dirs fs) (links fs) (fdata fs).

Record safeWriter := mkWriter { destDir : bytes; skipped : list (bytes * option pathErr) }.
Definition skip (w : safeWriter) (name : bytes) (why : option pathErr) : safeWriter :=
  mkWriter (destDir w) (skipped w ++ [(name, why)]).

Inductive writeErr := WMkdir | WCreate | WCopy.

(** How the calls of one member end. *)
Record memberIO := mkMemberIO { mkdirs : bool; creates : bool; copied : option nat (* bytes before an error *) }.

(** The open: O_NOFOLLOW refuses a link at the path, and a directory is no file. *)
Definition openable (fs : FS) (q : path) : bool :=
  negb (bool_decide (is_Some (links fs !! q))) && negb (bool_decide (q ∈ dirs fs)).

(** writeFile: the path written, [None] for a member that was refused. *)
Definition writeFile (fs : FS) (w : safeWriter) (name : bytes) (mode : Z) (data : bytes) (io : memberIO)
    : FS * safeWriter * result writeErr (option bytes) :=
  if negb (checkMode mode) then (fs, skip w name None, Ok None)
  else
    match resolve (EvalSymlinks fs) (destDir w) name with
    | Err e => (fs, skip w name (Some e), Ok None)
    | Ok p =>
        if negb (mkdirs io) then (fs, w, Err WMkdir)
        else
          let fs1 := MkdirAll fs (Dir p) in
          let q := phys fs1 (Dir p) ++ [Base p] in
          if negb (openable fs1 q && creates io) then (fs1, w, Err WCreate)
          else
            match copied io with
            | Some n => (mkFS (dirs fs1) (links fs1) (<[q := take n data]> (fdata fs1)), w, Err WCopy)
            | None => (mkFS (dirs fs1) (links fs1) (<[q := data]> (fdata fs1)), w, Ok (Some p))
            end
    end.
Definition mkdir (fs : FS) (w : safeWriter) (name : bytes) (io : memberIO) : FS * safeWriter * result writeErr (option bytes) :=
  match resolve (EvalSymlinks fs) (destDir w) name with
  | Err e => (fs, skip w name (Some e), Ok None)
  | Ok p => if mkdirs io then (MkdirAll fs p, w, Ok None) else (fs, w, Err WMkdir)
  end.

(** An archive's members; a member may fail to open ([mopen]). *)
Record member := mkMember { mname : bytes; misDir : bool; mmode : Z; mdata : bytes; mopen : bool; mio : memberIO }.
Inductive extractErr := XOpen (name : bytes) | XWrite (e : writeErr).

(** The member loop of extract7zNative and extractZIPNative; extractRARNative's
    has no open of its own, which is a member that opens. *)
Fixpoint extract_members (fs : FS) (w : safeWriter) (files : list bytes) (ms : list member)
    : FS * safeWriter * result extractErr (list bytes) :=
  match ms with
  | [] => (fs, w, Ok files)
  | m :: ms' =>
      if misDir m then
        match mkdir fs w (mname m) (mio m) with
        | (fs', w', Ok _) => extract_members fs' w' files ms'
        | (fs', w', Err e) => (fs', w', Err (XWrite e))
        end
      else if negb (checkMode (mmode m)) then extract_members fs (skip w (mname m) None) files ms'
      else if negb (mopen m) then (fs, w, Err (XOpen (mname m)))
      else
        match writeFile fs w (mname m) (mmode m) (mdata m) (mio m) with
        | (fs', w', Ok (Some p)) => extract_members fs' w' (files ++ [p]) ms'
        | (fs', w', Ok None) => extract_members fs' w' files ms'
        | (fs', w', Err e) => (fs', w', Err (XWrite e))
        end
  end.

(** * Lemmas on clean paths *)

(** An element a clean absolute path can have. *)
Definition plain_elem (e : bytes) : Prop := e <> [] /\ e <> str "." /\ e <> str ".." /\ SLASH ∉ e.

Lemma split_slash_nonempty s : split_slash s <> [].
Proof. destruct s as [|c s]; [done|]. cbn. case_if; [done|]. by destruct (split_slash s). Qed.
Lemma split_slash_app a b : split_slash (a ++ SLASH :: b) = split_slash a ++ split_slash b.
Proof.
  induction a as [|c a IH]; [done|]. cbn [app split_slash]. rewrite IH. case_if; [done|].
  destruct (split_slash a) as [|e es] eqn:E2; [by destruct (split_slash_nonempty a)|done].
Qed.
Lemma split_slash_elem e : SLASH ∉ e -> split_slash e = [e].
Proof.
  induction e as [|c e IH]; [done|]. intros [H1 H2]%not_elem_of_cons. cbn. rewrite (IH H2).
  destruct (Z.eqb_spec c SLASH); [congruence|done].
Qed.
Lemma split_slash_free s : Forall (fun e => SLASH ∉ e) (split_slash s).
Proof.
  induction s as [|c s IH]; cbn; [constructor; [apply not_elem_of_nil|done]|].
  destruct (Z.eqb_spec c SLASH); [constructor; [apply not_elem_of_nil|done]|].
  destruct (split_slash s) as [|e es].
  - repeat constructor. by apply not_elem_of_cons; split; [congruence|apply not_elem_of_nil].
  - apply Forall_cons in IH as [H1 H2]. constructor; [|done]. by apply not_elem_of_cons.
Qed.
Lemma split_join p : p <> [] -> Forall (fun e => SLASH ∉ e) p -> split_slash (join_slash p) = p.
Proof.
  intros Hn. destruct p as [|e p]; [done|]. clear Hn. revert e. induction p as [|e' p IH]; intros e Hf.
  - cbn. apply split_slash_elem. by apply Forall_cons in Hf as [? _].
  - apply Forall_cons in Hf as [H1 H2]. cbn [join_slash]. rewrite split_slash_app, split_slash_elem by done.
    cbn [app]. f_equal. by apply IH.
Qed.
Lemma plain_free p : Forall plain_elem p -> Forall (fun e => SLASH ∉ e) p.
Proof. intros Hp. eapply Forall_impl; [exact Hp|]. by intros e (_ & _ & _ & H). Qed.

(** Elements that are kept stay kept. *)
Lemma push_plain stack e : Forall plain_elem stack -> SLASH ∉ e -> Forall plain_elem (clean_push true stack e).
Proof.
  intros Hs He. unfold clean_push. destruct (bytes_eqb e [] || bytes_eqb e (str ".")) eqn:E1; [done|].
  apply orb_false_elim in E1 as [E1 E2]. destruct (bytes_eqb e (str "..")) eqn:E3.
  - destruct stack as [|t rest]; [done|]. apply Forall_cons in Hs as [Ht Hs].
    destruct (bytes_eqb t (str "..")) eqn:E4; [|done]. apply bytes_eqb_eq in E4. by destruct Ht as (_ & _ & ? & _).
  - constructor; [|done]. split_and!; [| | |done]; intros ->; by rewrite bytes_eqb_refl in *.
Qed.
Lemma push_all_plain elems stack :
  Forall plain_elem stack -> Forall (fun e => SLASH ∉ e) elems -> Forall plain_elem (fold_left (clean_push true) elems stack).
Proof.
  revert stack. induction elems as [|e es IH]; intros stack Hs He; [done|]. apply Forall_cons in He as [H1 H2].
  cbn. apply IH; [by apply push_plain|done].
Qed.
(** Plain elements are all pushed. *)
Lemma push_through es stack : Forall plain_elem es -> fold_left (clean_push true) es stack = rev es ++ stack.
Proof.
  revert stack. induction es as [|e es IH]; intros stack He; [done|]. apply Forall_cons in He as [(H1 & H2 & H3 & _) He].
  cbn [fold_left rev]. rewrite <- app_assoc. cbn [app]. rewrite IH by done. f_equal. unfold clean_push.
  assert (Hb : forall x, e <> x -> bytes_eqb e x = false).
  { intros x Hx. destruct (bytes_eqb e x) eqn:Ex; [|done]. by apply bytes_eqb_eq in Ex. }
  by rewrite !Hb.
Qed.

Lemma split_render p : Forall plain_elem p -> p <> [] -> split_slash (render p) = [] :: p.
Proof.
  intros Hp Hn. unfold render. change (SLASH :: join_slash p) with ([] ++ SLASH :: join_slash p).
  rewrite split_slash_app, split_join by (done || by apply plain_free). done.
Qed.
Lemma elems_render p : Forall plain_elem p -> elems_of (render p) = p.
Proof.
  intros Hp. destruct p as [|e p]; [done|]. unfold elems_of, clean_elems. rewrite split_render by done.
  change (is_abs (render (e :: p))) with true.
  change (fold_left (clean_push true) ([] :: e :: p) []) with (fold_left (clean_push true) (e :: p) []).
  rewrite push_through by done. rewrite app_nil_r. apply rev_involutive.
Qed.
Lemma Clean_render p : Forall plain_elem p -> Clean (render p) = render p.
Proof. intros Hp. change (Clean (render p)) with (SLASH :: join_slash (elems_of (render p))). by rewrite elems_render. Qed.

(** Cleaning an absolute path gives a clean one. *)
Lemma Clean_abs s : is_abs s = true -> exists es, Clean s = render es /\ Forall plain_elem es /\ elems_of s = es.
Proof.
  intros Ha. exists (elems_of s). split_and!; [|unfold elems_of, clean_elems; rewrite Ha|done].
  - destruct s as [|c s]; [done|]. unfold Clean. by rewrite Ha.
  - apply Forall_rev, push_all_plain; [done|apply split_slash_free].
Qed.

Lemma render_inj p q : Forall plain_elem p -> Forall plain_elem q -> render p = render q -> p = q.
Proof. intros Hp Hq He. by rewrite <- (elems_render p Hp), He, elems_render. Qed.

(** The prefix check is containment of the elements. *)
Lemma isWithin_spec b t :
  Forall plain_elem b -> Forall plain_elem t -> isWithin (render b) (render t) = true -> exists r, t = b ++ r.
Proof.
  intros Hb Ht. unfold isWithin. rewrite !Clean_render by done. intros [H|H]%orb_true_iff.
  - apply bytes_eqb_eq in H. exists []. rewrite app_nil_r. by apply render_inj.
  - apply has_prefix_true in H as [s Hs]. rewrite <- app_assoc in Hs. cbn [app] in Hs.
    destruct b as [|e b].
    + exfalso. destruct t as [|t0 t]; [done|]. apply Forall_cons in Ht as [(T1 & _ & _ & T4) _].
      destruct t0 as [|c t0]; [done|]. unfold render in Hs. cbn in Hs. apply not_elem_of_cons in T4 as [T4 _].
      destruct t; cbn in Hs; congruence.
    + apply (f_equal split_slash) in Hs. rewrite split_slash_app, (split_render (e :: b)) in Hs by done.
      destruct t as [|t0 t]; [exfalso|].
      * change (split_slash (render [])) with ([[]; []] : path) in Hs. cbn in Hs. injection Hs as Hs _.
        apply Forall_cons in Hb as [(B1 & _) _]. by symmetry in Hs.
      * rewrite split_render in Hs by done. cbn [app] in Hs. injection Hs as H1 H2. exists (split_slash s). cbn. congruence.
Qed.

(** Joining onto a clean absolute path stays absolute and clean. *)
Lemma Join_render b s : exists es, Join (render b) s = render es /\ Forall plain_elem es.
Proof.
  unfold Join. change (render b ++ SLASH :: s) with (SLASH :: (join_slash b ++ SLASH :: s)).
  destruct (Clean_abs (SLASH :: join_slash b ++ SLASH :: s) eq_refl) as (es & H1 & H2 & _). eauto.
Qed.

(** ** Parents and names *)

Lemma render_snoc es e : es <> [] -> render (es ++ [e]) = render es ++ SLASH :: e.
Proof.
  intros Hn. unfold render. cbn [app]. f_equal. destruct es as [|x es]; [done|]. clear Hn. revert x.
  induction es as [|y es IH]; intros x; [done|]. cbn [app join_slash] in *. rewrite IH. by rewrite <- app_assoc.
Qed.
Lemma render_split es e : exists pre, render (es ++ [e]) = pre ++ SLASH :: e /\
  is_abs (pre ++ [SLASH]) = true /\ (Forall plain_elem es -> elems_of (pre ++ [SLASH]) = es).
Proof.
  destruct es as [|x es]; [exists []; split_and!; [done|done|intros _; reflexivity]|]. exists (render (x :: es)). rewrite render_snoc by done. split_and!; [done|done|].
  intros Hp. unfold elems_of, clean_elems. rewrite split_slash_app, split_render by done.
  change (is_abs (render (x :: es) ++ [SLASH])) with true.
  change (([] :: x :: es) ++ split_slash []) with ([] :: ((x :: es) ++ [[]])).
  change (fold_left (clean_push true) ([] :: ((x :: es) ++ [[]])) []) with (fold_left (clean_push true) ((x :: es) ++ [[]]) []).
  rewrite fold_left_app, (push_through (x :: es)), app_nil_r by done. cbn [fold_left].
  change (clean_push true (rev (x :: es)) []) with (rev (x :: es)). apply rev_involutive.
Qed.

Lemma rev_span e pre : SLASH ∉ e ->
  span (fun b => negb (b =? SLASH)) (rev (pre ++ SLASH :: e)) = (rev e, SLASH :: rev pre).
Proof.
  intros He. rewrite rev_app_distr. cbn [rev]. rewrite <- app_assoc. cbn [app]. apply span_all_then; [|done].
  apply Forall_rev. apply Forall_forall. intros x Hx. apply negb_true_iff, Z.eqb_neq. by intros ->.
Qed.
Lemma Dir_render es e : Forall plain_elem es -> plain_elem e -> elems_of (Dir (render (es ++ [e]))) = es.
Proof.
  intros Hes (_ & _ & _ & He). destruct (render_split es e) as (pre & H1 & H2 & H3).
  unfold Dir. rewrite H1, rev_span by done. cbn [snd rev]. rewrite rev_involutive.
  destruct (Clean_abs _ H2) as (es' & C1 & C2 & C3). rewrite C1, elems_render by done. rewrite <- C3. by apply H3.
Qed.
Lemma Base_render es e : plain_elem e -> Base (render (es ++ [e])) = e.
Proof.
  intros (Hn & _ & _ & He). destruct (render_split es e) as (pre & H1 & _ & _). rewrite H1. unfold Base.
  destruct (pre ++ SLASH :: e) as [|x l] eqn:El; [by destruct pre|]. rewrite <- El. clear El x l H1.
  rewrite rev_app_distr. cbn [rev]. rewrite <- app_assoc. cbn [app].
  assert (Hs : snd (span (fun b => b =? SLASH) (rev e ++ SLASH :: rev pre)) = rev e ++ SLASH :: rev pre).
  { destruct (rev e) as [|c l] eqn:Er; [apply (f_equal (@rev Z)) in Er; by rewrite rev_involutive in Er|].
    cbn. destruct (Z.eqb_spec c SLASH) as [->|]; [|done]. exfalso. apply He. apply list_elem_of_In, in_rev.
    rewrite Er. by left. }
  rewrite Hs. rewrite span_all_then; [|apply Forall_rev, Forall_forall; intros x Hx; apply negb_true_iff, Z.eqb_neq; by intros ->|done].
  cbn [fst]. destruct (rev e) as [|c l] eqn:Er; [apply (f_equal (@rev Z)) in Er; by rewrite rev_involutive in Er|].
  rewrite <- Er. apply rev_involutive.
Qed.

(** * Where a write lands *)

Lemma follow_plain ls cur es :
  (forall n, (0 < n <= length es)%nat -> ls !! (cur ++ take n es) = None) -> follow ls cur es = cur ++ es.
Proof.
  revert cur. induction es as [|e es IH]; intros cur Hn; cbn; [by rewrite app_nil_r|].
  pose proof (Hn 1%nat ltac:(cbn; lia)) as H1. cbn [take] in H1. change (take 0 es) with (@nil bytes) in H1.
  rewrite H1. cbn [default]. rewrite IH; [by rewrite <- app_assoc|].
  intros n Hx. rewrite <- app_assoc. apply (Hn (S n)). cbn. lia.
Qed.

(** The destination is there, reached through no link, and has no link in it. *)
Record dest_ok (D : path) (fs : FS) : Prop := {
  do_plain : Forall plain_elem D;
  do_dirs : forall n, take n D ∈ dirs fs;
  do_above : forall n, links fs !! take n D = None;
  do_below : forall r, links fs !! (D ++ r) = None
}.

Lemma take_dest (D R : path) n : (exists m, take n (D ++ R) = take m D) \/ (exists r, take n (D ++ R) = D ++ r).
Proof.
  destruct (decide (n <= length D)%nat); [left; exists n; by rewrite take_app_le by lia|right].
  rewrite take_app_ge by lia. eauto.
Qed.
Lemma follow_dest D fs es : dest_ok D fs -> (exists R, es = D ++ R) \/ (exists m, es = take m D) -> follow (links fs) [] es = es.
Proof.
  intros [_ _ H1 H2] Hes. rewrite follow_plain; [done|]. intros n _. cbn [app].
  destruct Hes as [[R ->]|[m ->]].
  - destruct (take_dest D R n) as [[k ->]|[r ->]]; [apply H1|apply H2].
  - rewrite take_take. apply H1.
Qed.

(** What extraction may change: nothing outside the destination. *)
Record contained (D : path) (fs fs' : FS) : Prop := {
  ct_links : links fs' = links fs;
  ct_data : forall q, ~ (exists r, q = D ++ r) -> fdata fs' !! q = fdata fs !! q;
  ct_dirs : forall q, ~ (exists r, q = D ++ r) -> q ∈ dirs fs' <-> q ∈ dirs fs;
  ct_grow : dirs fs ⊆ dirs fs'
}.
#[local] Instance contained_trans D : Transitive (contained D).
Proof.
  intros a b c [A1 A2 A3 A4] [B1 B2 B3 B4]. split; [congruence| | |set_solver].
  - intros q Hq. by rewrite B2, A2.
  - intros q Hq. by rewrite B3, A3.
Qed.
Lemma contained_refl D fs : contained D fs fs.
Proof. done. Qed.
Lemma contained_dest D fs fs' : contained D fs fs' -> dest_ok D fs -> dest_ok D fs'.
Proof. intros [H1 _ _ H4] [D1 D2 D3 D4]. split; rewrite ?H1; try done. intros n. by apply H4. Qed.

(** A resolved path is the destination or below it. *)
Lemma resolve_dest ev D name p :
  Forall plain_elem D -> resolve ev (render D) name = Ok p ->
  exists R, p = render (D ++ R) /\ Forall plain_elem (D ++ R).
Proof.
  intros HD. unfold resolve. destruct name as [|c name]; [done|]. case_if; [done|]. case_if; [done|].
  set (clean := replace_byte BACKSLASH SLASH (c :: name)).
  destruct (Join_render D clean) as (es & Hj & Hp). rewrite Hj.
  destruct (isWithin (render D) (render es)) eqn:Ew; [|done]. cbn [negb].
  destruct (isWithin_spec D es HD Hp Ew) as [R ->]. intros H. exists R. split; [|done].
  destruct (ev (Dir (render (D ++ R)))); [|congruence]. case_if_in H; congruence.
Qed.

Lemma MkdirAll_contained D fs p es :
  dest_ok D fs -> elems_of p = es -> (exists R, es = D ++ R) \/ (exists m, es = take m D) -> contained D fs (MkdirAll fs p).
Proof.
  intros Hd He Hes. split; [done|done| |unfold MkdirAll; cbn; set_solver].
  intros q Hq. unfold MkdirAll. cbn [dirs]. rewrite He. split; [|set_solver].
  intros [Hin|Hin]%elem_of_union; [|done]. apply elem_of_list_to_set, list_elem_of_fmap in Hin as (n & -> & _).
  destruct Hes as [[R ->]|[m ->]].
  - destruct (take_dest D R n) as [[k Hk]|[r Hr]]; rewrite ?Hk, ?Hr in *.
    + rewrite (follow_dest D) by eauto. apply (do_dirs _ _ Hd).
    + destruct Hq. rewrite (follow_dest D) by eauto. eauto.
  - rewrite take_take in *. rewrite (follow_dest D) by eauto. apply (do_dirs _ _ Hd).
Qed.

(** The parent of a resolved path, as elements. *)
Lemma parent_dest D R :
  D <> [] -> Forall plain_elem (D ++ R) ->
  let es := elems_of (Dir (render (D ++ R))) in
  ((exists R', es = D ++ R') \/ (exists m, es = take m D)) /\
  (exists r, es ++ [Base (render (D ++ R))] = D ++ r).
Proof.
  intros Hn Hp. destruct (exists_last (l := D ++ R)) as (es & e & He).
  { intros H. apply app_eq_nil in H as [H _]. done. }
  rewrite He in *. apply Forall_app in Hp as [Hp1 Hp2]. apply Forall_cons in Hp2 as [Hp2 _].
  cbv zeta. rewrite Dir_render, Base_render by done. split; [|exists R; by rewrite He].
  destruct R as [|x R] using rev_ind.
  - right. rewrite app_nil_r in He. rewrite He. exists (length es). by rewrite take_app_length.
  - left. rewrite app_assoc in He. apply app_inj_tail in He as [He _]. exists R. congruence.
Qed.

Lemma writeFile_contained D fs w name mode data io :
  D <> [] -> dest_ok D fs -> destDir w = render D ->
  let '(fs', w', _) := writeFile fs w name mode data io in contained D fs fs' /\ destDir w' = render D.
Proof.
  intros Hn Hd Hw. unfold writeFile. case_if; [done|]. rewrite Hw.
  destruct (resolve (EvalSymlinks fs) (render D) name) as [p|e] eqn:Er; [|done].
  apply resolve_dest in Er as (R & -> & Hp); [|apply Hd]. case_if; [done|].
  destruct (parent_dest D R Hn Hp) as [Hes [r Hr]].
  set (fs1 := MkdirAll fs (Dir (render (D ++ R)))).
  assert (C1 : contained D fs fs1) by (by eapply MkdirAll_contained).
  assert (Hq : phys fs1 (Dir (render (D ++ R))) ++ [Base (render (D ++ R))] = D ++ r).
  { unfold phys. rewrite (follow_dest D); [done|by eapply contained_dest|done]. }
  rewrite Hq. case_if; [done|].
  assert (C2 : forall d, contained D fs (mkFS (dirs fs1) (links fs1) (<[D ++ r := d]> (fdata fs1)))).
  { intros d. transitivity fs1; [done|]. split; try done. intros q Hne. cbn. apply lookup_insert_ne. intros <-. eauto. }
  destruct (copied io); done.
Qed.
Lemma mkdir_contained D fs w name io :
  D <> [] -> dest_ok D fs -> destDir w = render D ->
  let '(fs', w', _) := mkdir fs w name io in contained D fs fs' /\ destDir w' = render D.
Proof.
  intros Hn Hd Hw. unfold mkdir. rewrite Hw.
  destruct (resolve (EvalSymlinks fs) (render D) name) as [p|e] eqn:Er; [|done].
  apply resolve_dest in Er as (R & -> & Hp); [|apply Hd]. case_if; [|done].
  split; [|done]. eapply MkdirAll_contained; [done|by apply elems_render|eauto].
Qed.

(** C34: Unpacking an archive changes nothing outside the destination: whatever
    names and modes its members have, and whether or not the extraction fails, every
    file and directory that is not the destination or below it is as it was, as
    long as no symbolic link leads into or out of the destination. *)
Theorem extraction_contained D fs w files ms :
  D <> [] -> dest_ok D fs -> destDir w = render D ->
  let '(fs', _, _) := extract_members fs w files ms in
  forall q, ~ (exists r, q = D ++ r) -> fdata fs' !! q = fdata fs !! q /\ (q ∈ dirs fs' <-> q ∈ dirs fs).
Proof.
  intros Hn Hd Hw.
  enough (H : let '(fs', _, _) := extract_members fs w files ms in contained D fs fs').
  { destruct (extract_members fs w files ms) as [[fs' w'] r]. destruct H as [_ H1 H2 _]. auto. }
  revert fs w files Hd Hw. induction ms as [|m ms IH]; intros fs w files Hd Hw; cbn [extract_members]; [apply contained_refl|].
  assert (Hnext : forall fs1 w1 files1, contained D fs fs1 -> destDir w1 = render D ->
    let '(fs', _, _) := extract_members fs1 w1 files1 ms in contained D fs fs').
  { intros fs1 w1 files1 Hc Hw1. specialize (IH fs1 w1 files1 (contained_dest _ _ _ Hc Hd) Hw1).
    destruct (extract_members fs1 w1 files1 ms) as [[fs' w'] r]. by transitivity fs1. }
  case_if.
  - pose proof (mkdir_contained D fs w (mname m) (mio m) Hn Hd Hw) as Hm.
    destruct (mkdir fs w (mname m) (mio m)) as [[fs1 w1] [o|e]]; destruct Hm as [C1 C2]; [by apply Hnext|done].
  - case_if; [by apply Hnext|]. case_if; [apply contained_refl|].
    pose proof (writeFile_contained D fs w (mname m) (mmode m) (mdata m) (mio m) Hn Hd Hw) as Hm.
    destruct (writeFile fs w (mname m) (mmode m) (mdata m) (mio m)) as [[fs1 w1] [[o|]|e]]; destruct Hm as [C1 C2];
      [by apply Hnext|by apply Hnext|done].
Qed.

(** No path that engine code builds from an untrusted name leaves the base
    directory: safePath returns the base or something below it, in the spelling
    that symbolic links resolve to when the path exists. *)
Lemma safePath_contained ev D name p :
  Forall plain_elem D -> (forall a r, ev a = Some r -> exists es, r = render es /\ Forall plain_elem es) ->
  safePath ev (render D) name = Ok p ->
  exists B R, p = render (B ++ R) /\ (B = D \/ ev (render D) = Some (render B)).
Proof.
  intros HD Hev. unfold safePath. destruct (Join_render D name) as (es & -> & Hp).
  destruct (isWithin (render D) (render es)) eqn:Ew; [|done]. cbn [negb].
  destruct (isWithin_spec D es HD Hp Ew) as [R ->].
  destruct (ev (render (D ++ R))) as [real|] eqn:Er; [|intros [= <-]; exists D, R; auto].
  destruct (Hev _ _ Er) as (re & -> & Hre).
  destruct (ev (render D)) as [rb|] eqn:Eb; cbn [default from_option id].
  - destruct (Hev _ _ Eb) as (be & -> & Hbe). destruct (isWithin (render be) (render re)) eqn:Ew'; [|done]. intros [= <-].
    destruct (isWithin_spec be re Hbe Hre Ew') as [R' ->]. exists be, R'. auto.
  - destruct (isWithin (render D) (render re)) eqn:Ew'; [|done]. intros [= <-].
    destruct (isWithin_spec D re HD Hre Ew') as [R' ->]. exists D, R'. auto.
Qed.

(** Permissions of what is written: at most 0755, readable and writable by its
    owner. *)
Lemma filePerm_bounds mode : Z.land (filePerm mode) (Z.lnot 493) = 0 /\ Z.land (filePerm mode) 384 = 384.
Proof.
  unfold filePerm. case_if; [done|]. split; apply Z.bits_inj'; intros k Hk.
  - rewrite Z.land_spec, Z.lor_spec, !Z.land_spec, Z.lnot_spec, Z.bits_0 by done.
    destruct (Z.testbit 493 k) eqn:E1; [by rewrite andb_false_r|]. rewrite andb_false_r. cbn [orb].
    destruct (Z.testbit 384 k) eqn:E2; [|done]. exfalso.
    assert (H : Z.land 384 (Z.lnot 493) = 0) by reflexivity. apply (f_equal (fun z => Z.testbit z k)) in H.
    rewrite Z.land_spec, Z.lnot_spec, E1, E2, Z.bits_0 in H by done. done.
  - rewrite Z.land_spec, Z.lor_spec. destruct (Z.testbit 384 k); [by rewrite orb_true_r|by rewrite andb_false_r].
Qed.

(** * Examples *)

Definition demo_dest : path := [str "d"; str "t"].
Definition demo_member (name : bytes) : member := mkMember name false 420 (str "x") true (mkMemberIO true true None).
Definition demo_fs (ls : gmap path path) : FS := mkFS {[ []; [str "d"]; [str "d"; str "t"]; [str "o"] ]} ls ∅.
Definition demo_writer : safeWriter := mkWriter (render demo_dest) [].

#[local] Instance plain_elem_dec e : Decision (plain_elem e).
Proof. unfold plain_elem. apply _. Defined.
Lemma demo_dest_ok : dest_ok demo_dest (demo_fs ∅).
Proof.
  split.
  - refine (bool_decide_unpack _ _). vm_compute. exact I.
  - intros [|[|[|n]]]; cbn; set_solver.
  - intros n. apply lookup_empty.
  - intros r. apply lookup_empty.
Qed.

Lemma extraction_contained_witness :
  demo_dest <> [] /\ dest_ok demo_dest (demo_fs ∅) /\
  (forall q, ~ (exists r, q = demo_dest ++ r) ->
     fdata (fst (fst (extract_members (demo_fs ∅) demo_writer []
       [demo_member (str "a/b.mkv"); demo_member (str "../../o/x"); demo_member (str "..\..\etc")]))) !! q = fdata (demo_fs ∅) !! q).
Proof.
  pose proof (extraction_contained demo_dest (demo_fs ∅) demo_writer []
    [demo_member (str "a/b.mkv"); demo_member (str "../../o/x"); demo_member (str "..\..\etc")]
    ltac:(discriminate) demo_dest_ok eq_refl) as H.
  split; [discriminate|]. split; [exact demo_dest_ok|]. intros q Hq.
  destruct (extract_members _ _ _ _) as [[fs' w'] r]. exact (proj1 (H q Hq)).
Defined.

Lemma safePath_contained_witness :
  safePath (fun _ => None) (render demo_dest) (str "x/../y") = Ok (render (demo_dest ++ [str "y"])) /\
  exists B R, render (demo_dest ++ [str "y"]) = render (B ++ R) /\ (B = demo_dest \/ None = Some (render B)).
Proof.
  assert (H : safePath (fun _ => None) (render demo_dest) (str "x/../y") = Ok (render (demo_dest ++ [str "y"])))
    by (vm_compute; reflexivity).
  split; [exact H|].
  refine (safePath_contained (fun _ => None) demo_dest (str "x/../y") _ _ _ H); [apply (do_plain _ _ demo_dest_ok)|discriminate].
Defined.

(** What is written under the demo destination, with a link in it that leads out. *)
Definition link_out : gmap path path := {[ demo_dest ++ [str "l"] := [str "o"] ]}.
Definition written_to (ls : gmap path path) (name : bytes) : list path * nat :=
  let '(fs', w, _) := extract_members (demo_fs ls) demo_writer [] [demo_member name] in
  (map fst (map_to_list (fdata fs')), length (skipped w)).

(** A symbolic link that sits in the destination before the extraction is
    refused only when the member's parent directory exists: a member one directory
    further below the link is written outside the destination, because the parent
    cannot be resolved yet and is then made through the link. *)
Lemma symlink_escape_through_new_directory :
  written_to link_out (str "l/x") = ([], 1%nat) /\
  written_to link_out (str "l/new/x") = ([ [str "o"; str "new"; str "x"] ], 0%nat).
Proof. vm_compute. split; reflexivity. Qed.
