(* ===== verification/PathLock.v ===== *)
(** Locks by path: internal/engine/pathlock.go.

    A caller of LockCtx registers with the entry of its path, fills the entry's
    channel of capacity one, and later empties it and drops its registration.  The
    machine interleaves the callers; its events are the sections under [mu] and the
    channel operations. *)
From Stdlib Require Import ZArith Lia.
From stdpp Require Import prelude list gmap.
From S2P Require Import Prelude.

Open Scope Z_scope.

Abbreviation key := (list Z).

(** [ekey] is the path an entry was made for; it is kept for the statements. *)
Record pathLockEntry := mkEntry { full : bool; refs : Z; ekey : key }.
(** Entries live in a heap: an entry that left the map is still held by whoever
    refers to it. *)
Record pathLocker := mkLocker { locks : gmap key nat; heap : gmap nat pathLockEntry; nextEntry : nat }.
Definition newPathLocker : pathLocker := mkLocker ∅ ∅ 0.

(** entry, with the absolute path. *)
Definition entry (l : pathLocker) (k : key) : nat * pathLocker :=
  match locks l !! k with
  | Some e =>
      (e, mkLocker (locks l) (alter (fun x => mkEntry (full x) (refs x + 1) (ekey x)) e (heap l)) (nextEntry l))
  | None =>
      let e := nextEntry l in
      (e, mkLocker (<[k := e]> (locks l)) (<[e := mkEntry false 1 k]> (heap l)) (S e))
  end.
Definition release (l : pathLocker) (e : nat) (k : key) : pathLocker :=
  match heap l !! e with
  | None => l
  | Some x =>
      let h := <[e := mkEntry (full x) (refs x - 1) (ekey x)]> (heap l) in
      mkLocker (if refs x - 1 =? 0 then delete k (locks l) else locks l) h (nextEntry l)
  end.
Definition set_full (l : pathLocker) (e : nat) (b : bool) : pathLocker :=
  mkLocker (locks l) (alter (fun x => mkEntry b (refs x) (ekey x)) e (heap l)) (nextEntry l).
Definition is_full (l : pathLocker) (e : nat) : bool := match heap l !! e with Some x => full x | None => false end.

(** A caller: before entry, in the select, with the lock, between emptying the
    channel and release, and done. *)
Inductive caller :=
| Calling (k : key)
| Waiting (e : nat) (k : key)
| Holding (e : nat) (k : key)
| Leaving (e : nat) (k : key)
| Over.
Inductive event :=
| Enter (i : nat)       (* entry *)
| Send (i : nat)        (* the send of the select *)
| Abort (i : nat)       (* ctx.Done of the select, up to the return *)
| Unlock (i : nat)      (* the receive of the unlock function *)
| Drop (i : nat).       (* its release *)

Record state := mkState { locker : pathLocker; callers : list caller }.
Definition move (s : state) (l : pathLocker) (i : nat) (c : caller) : state := mkState l (<[i := c]> (callers s)).

(** LockCtx and the function it returns, one step of one caller. *)
Definition step (s : state) (ev : event) : state :=
  match ev with
  | Enter i =>
      match callers s !! i with
      | Some (Calling k) => let '(e, l) := entry (locker s) k in move s l i (Waiting e k)
      | _ => s
      end
  | Send i =>
      match callers s !! i with
      | Some (Waiting e k) => if is_full (locker s) e then s else move s (set_full (locker s) e true) i (Holding e k)
      | _ => s
      end
  | Abort i =>
      match callers s !! i with
      | Some (Waiting e k) => move s (release (locker s) e k) i Over
      | _ => s
      end
  | Unlock i =>
      match callers s !! i with
      | Some (Holding e k) => if is_full (locker s) e then move s (set_full (locker s) e false) i (Leaving e k) else s
      | _ => s
      end
  | Drop i =>
      match callers s !! i with
      | Some (Leaving e k) => move s (release (locker s) e k) i Over
      | _ => s
      end
  end.
Definition run (s : state) (evs : list event) : state := fold_left step evs s.
Definition start (keys : list key) : state := mkState newPathLocker (map Calling keys).

(** * Invariant *)

Definition at_entry (c : caller) : option (nat * key) :=
  match c with Waiting e k | Holding e k | Leaving e k => Some (e, k) | _ => None end.
Definition refers (e : nat) (c : caller) : Z :=
  match at_entry c with Some (e', _) => if bool_decide (e' = e) then 1 else 0 | None => 0 end.
Definition holds_lock (e : nat) (c : caller) : Z :=
  match c with Holding e' _ => if bool_decide (e' = e) then 1 else 0 | _ => 0 end.

(** Evaluate the two on a caller whose phase is known. *)
Ltac counts :=
  repeat match goal with
  | |- context [refers ?e (Calling ?k)] => change (refers e (Calling k)) with 0
  | |- context [refers ?e Over] => change (refers e Over) with 0
  | |- context [refers ?e (Waiting ?e' ?k)] => change (refers e (Waiting e' k)) with (if bool_decide (e' = e) then 1 else 0)
  | |- context [refers ?e (Holding ?e' ?k)] => change (refers e (Holding e' k)) with (if bool_decide (e' = e) then 1 else 0)
  | |- context [refers ?e (Leaving ?e' ?k)] => change (refers e (Leaving e' k)) with (if bool_decide (e' = e) then 1 else 0)
  | |- context [holds_lock ?e (Holding ?e' ?k)] => change (holds_lock e (Holding e' k)) with (if bool_decide (e' = e) then 1 else 0)
  | |- context [holds_lock ?e (Calling ?k)] => change (holds_lock e (Calling k)) with 0
  | |- context [holds_lock ?e (Waiting ?e' ?k)] => change (holds_lock e (Waiting e' k)) with 0
  | |- context [holds_lock ?e (Leaving ?e' ?k)] => change (holds_lock e (Leaving e' k)) with 0
  | |- context [holds_lock ?e Over] => change (holds_lock e Over) with 0
  end.

Record lock_inv (s : state) : Prop := {
  li_count : forall e x, heap (locker s) !! e = Some x ->
    refs x = zsum (refers e) (callers s) /\ zsum (holds_lock e) (callers s) = (if full x then 1 else 0);
  li_map : forall k e, locks (locker s) !! k = Some e -> exists x, heap (locker s) !! e = Some x /\ ekey x = k /\ 0 < refs x;
  li_caller : forall i c e k, callers s !! i = Some c -> at_entry c = Some (e, k) -> locks (locker s) !! k = Some e;
  li_fresh : forall e x, heap (locker s) !! e = Some x -> (e < nextEntry (locker s))%nat
}.

Lemma refers_nonneg e c : 0 <= refers e c.
Proof. unfold refers. destruct (at_entry c) as [[e' k]|]; [case_if|]; lia. Qed.
Lemma holds_nonneg e c : 0 <= holds_lock e c.
Proof. unfold holds_lock. destruct c; try lia. case_if; lia. Qed.

(** No caller refers to an entry that does not exist. *)
Lemma fresh_unreferenced s e : lock_inv s -> heap (locker s) !! e = None -> forall i c k, callers s !! i = Some c -> at_entry c <> Some (e, k).
Proof.
  intros [L1 L2 L3 L4] He i c k Hc Ha. destruct (L2 _ _ (L3 i c e k Hc Ha)) as (x & Hx & _). congruence.
Qed.
Lemma zsum_zero {A} (f : A -> Z) l : (forall i x, l !! i = Some x -> f x = 0) -> zsum f l = 0.
Proof.
  induction l as [|y l IH]; intros H; [done|]. rewrite zsum_cons, (H 0%nat y eq_refl), IH; [done|].
  intros i x Hx. by apply (H (S i)).
Qed.

Lemma enter_inv s i k :
  lock_inv s -> callers s !! i = Some (Calling k) ->
  let '(e, l) := entry (locker s) k in lock_inv (move s l i (Waiting e k)).
Proof.
  intros Hi Hc. pose proof Hi as [L1 L2 L3 L4]. unfold entry. destruct (locks (locker s) !! k) as [e|] eqn:Ek.
  - destruct (L2 k e Ek) as (x & Hx & Hxk & Hxr). split; cbn [locker move callers heap locks nextEntry].
    + intros e' x'. rewrite !(zsum_insert _ _ _ _ _ Hc). counts.
      destruct (decide (e' = e)) as [->|Hne].
      * rewrite lookup_alter_eq, Hx. intros [= <-]. cbn. destruct (L1 e x Hx) as [A B]. rewrite bool_decide_true by done. lia.
      * rewrite lookup_alter_ne by done. intros Hx'. destruct (L1 e' x' Hx') as [A B]. rewrite bool_decide_false by congruence. lia.
    + intros k' e' Hk'. destruct (L2 k' e' Hk') as (x' & Hx' & Hk'' & Hr). destruct (decide (e' = e)) as [->|Hne].
      * rewrite lookup_alter_eq, Hx'. eexists. split; [done|]. cbn. split; [done|lia].
      * rewrite lookup_alter_ne by done. eauto.
    + intros j c e' k'. intros [[-> [<- _]]|[_ Hj]]%list_lookup_insert_Some; [|by eapply L3]. cbn. by intros [= <- <-].
    + intros e' x'. destruct (decide (e' = e)) as [->|Hne]; [intros _; by eapply L4|].
      rewrite lookup_alter_ne by done. apply L4.
  - set (e := nextEntry (locker s)).
    assert (Hn : heap (locker s) !! e = None).
    { destruct (heap (locker s) !! e) as [x|] eqn:Ex; [|done]. apply L4 in Ex. unfold e in Ex. lia. }
    pose proof (fresh_unreferenced s e Hi Hn) as Hf.
    assert (H0 : zsum (refers e) (callers s) = 0 /\ zsum (holds_lock e) (callers s) = 0).
    { split; apply zsum_zero; intros j c Hj; specialize (Hf j c).
      - unfold refers. destruct (at_entry c) as [[e' k']|] eqn:Ea; [|done].
        rewrite bool_decide_false; [done|]. intros ->. by apply (Hf k').
      - unfold holds_lock. destruct c; try done. rewrite bool_decide_false; [done|]. intros ->. by apply (Hf k0). }
    destruct H0 as [H1 H2]. split; cbn [locker move callers heap locks nextEntry].
    + intros e' x'. rewrite !(zsum_insert _ _ _ _ _ Hc). counts.
      destruct (decide (e' = e)) as [->|Hne].
      * rewrite lookup_insert_eq. intros [= <-]. cbn. rewrite bool_decide_true by done. lia.
      * rewrite lookup_insert_ne by done. intros Hx'. destruct (L1 e' x' Hx') as [A B]. rewrite bool_decide_false by congruence. lia.
    + intros k' e'. destruct (decide (k' = k)) as [->|Hne].
      * rewrite lookup_insert_eq. intros [= <-]. rewrite lookup_insert_eq. eexists. split; [done|]. cbn. split; [done|lia].
      * rewrite lookup_insert_ne by done. intros Hk'. destruct (L2 k' e' Hk') as (x' & Hx' & ? & ?).
        rewrite lookup_insert_ne by congruence. eauto.
    + intros j c e' k' Hj. apply list_lookup_insert_Some in Hj as [[-> [<- _]]|[_ Hj]].
      * cbn. intros [= <- <-]. apply lookup_insert_eq.
      * intros Ha. pose proof (L3 j c e' k' Hj Ha). rewrite lookup_insert_ne; [done|congruence].
    + intros e' x'. destruct (decide (e' = e)) as [->|Hne]; [intros _; lia|].
      rewrite lookup_insert_ne by done. intros Hx'. apply L4 in Hx'. unfold e. lia.
Qed.

(** A caller that stays registered and fills or empties the channel. *)
Lemma channel_inv s i c c' e k (b : bool) :
  lock_inv s -> callers s !! i = Some c -> at_entry c = Some (e, k) -> at_entry c' = Some (e, k) ->
  (forall e', holds_lock e' c' - holds_lock e' c = if bool_decide (e' = e) then (if b then 1 else -1) else 0) ->
  is_full (locker s) e = negb b -> lock_inv (move s (set_full (locker s) e b) i c').
Proof.
  intros [L1 L2 L3 L4] Hc Ha Ha' Hh Hf. unfold is_full in Hf.
  assert (Hr : forall e', refers e' c' = refers e' c) by (intros e'; unfold refers; by rewrite Ha, Ha').
  split; cbn [locker move callers heap locks nextEntry set_full].
  - intros e' x'. rewrite !(zsum_insert _ _ _ _ _ Hc), Hr. specialize (Hh e'). destruct (decide (e' = e)) as [->|Hne].
    + rewrite lookup_alter_eq. destruct (heap (locker s) !! e) as [x|] eqn:Ex; [|done]. intros [= <-]. cbn.
      destruct (L1 e x Ex) as [A B]. rewrite bool_decide_true in Hh by done. rewrite Hf in B. destruct b; cbn in *; lia.
    + rewrite lookup_alter_ne by done. intros Hx'. destruct (L1 e' x' Hx') as [A B]. rewrite bool_decide_false in Hh by done. lia.
  - intros k' e' Hk'. destruct (L2 k' e' Hk') as (x' & Hx' & Hk'' & Hr'). destruct (decide (e' = e)) as [->|Hne].
    + rewrite lookup_alter_eq, Hx'. eexists. by split.
    + rewrite lookup_alter_ne by done. eauto.
  - intros j d e' k' [[-> [<- _]]|[_ Hj]]%list_lookup_insert_Some Hd; [|by eapply L3].
    rewrite Ha' in Hd. injection Hd as <- <-. by eapply L3.
  - intros e' x'. destruct (decide (e' = e)) as [->|Hne].
    + rewrite lookup_alter_eq. destruct (heap (locker s) !! e) as [x|] eqn:Ex; [|done]. intros _. by eapply L4.
    + rewrite lookup_alter_ne by done. apply L4.
Qed.

(** A caller that does not hold the lock leaves. *)
Lemma leave_inv s i c e k :
  lock_inv s -> callers s !! i = Some c -> at_entry c = Some (e, k) -> (forall e', holds_lock e' c = 0) ->
  lock_inv (move s (release (locker s) e k) i Over).
Proof.
  intros [L1 L2 L3 L4] Hc Ha Hh. pose proof (L3 i c e k Hc Ha) as Hk. destruct (L2 k e Hk) as (x & Hx & Hxk & Hxr).
  unfold release. rewrite Hx.
  assert (Hre : refers e c = 1) by (unfold refers; rewrite Ha; by rewrite bool_decide_true).
  assert (Hrn : forall e', e' <> e -> refers e' c = 0) by (intros e' Hne; unfold refers; rewrite Ha; by rewrite bool_decide_false by congruence).
  destruct (L1 e x Hx) as [A B].
  assert (Hother : forall j d e' k', j <> i -> callers s !! j = Some d -> at_entry d = Some (e', k') -> refs x - 1 = 0 -> e' <> e).
  { intros j d e' k' Hji Hj Hd Hz ->. pose proof (zsum_insert (refers e) _ _ _ Over Hc) as Hi.
    assert (Hj' : <[i := Over]> (callers s) !! j = Some d) by (by rewrite list_lookup_insert_ne).
    pose proof (zsum_lookup (refers e) _ _ _ (refers_nonneg e) Hj') as Hle.
    assert (refers e d = 1) by (unfold refers; rewrite Hd; by rewrite bool_decide_true). change (refers e Over) with 0 in Hi. lia. }
  split; cbn [locker move callers heap locks nextEntry].
  - intros e' x'. rewrite !(zsum_insert _ _ _ _ _ Hc), Hh. counts. destruct (decide (e' = e)) as [->|Hne].
    + rewrite lookup_insert_eq. intros [= <-]. cbn. lia.
    + rewrite lookup_insert_ne by done. intros Hx'. destruct (L1 e' x' Hx') as [A' B']. rewrite (Hrn e') by done. lia.
  - intros k' e' Hk'. assert (Hk0 : locks (locker s) !! k' = Some e' /\ (refs x - 1 = 0 -> k' <> k)).
    { destruct (Z.eqb_spec (refs x - 1) 0); [|done]. by apply lookup_delete_Some in Hk' as [? ?]. }
    destruct Hk0 as [Hk0 Hz]. destruct (L2 k' e' Hk0) as (x' & Hx' & Hk'' & Hr'). destruct (decide (e' = e)) as [->|Hne].
    + rewrite lookup_insert_eq. eexists. split; [done|]. cbn. assert (x' = x) as -> by congruence. split; [done|].
      destruct (decide (refs x - 1 = 0)) as [E0|]; [|lia]. destruct (Hz E0). congruence.
    + rewrite lookup_insert_ne by done. eauto.
  - intros j d e' k' [[-> [<- _]]|[Hji Hj]]%list_lookup_insert_Some Hd; [done|]. pose proof (L3 j d e' k' Hj Hd) as Hl.
    destruct (Z.eqb_spec (refs x - 1) 0) as [E0|]; [|done]. rewrite lookup_delete_ne; [done|]. intros ->.
    apply (Hother j d e' k' ltac:(congruence) Hj Hd E0). congruence.
  - intros e' x'. destruct (decide (e' = e)) as [->|Hne]; [intros _; by eapply L4|]. rewrite lookup_insert_ne by done. apply L4.
Qed.

Lemma lock_step s ev : lock_inv s -> lock_inv (step s ev).
Proof.
  intros Hi. destruct ev as [i|i|i|i|i]; cbn [step]; destruct (callers s !! i) as [[k|e k|e k|e k|]|] eqn:Ec; try done.
  - pose proof (enter_inv s i k Hi Ec). by destruct (entry (locker s) k).
  - destruct (is_full (locker s) e) eqn:Ef; [done|]. eapply channel_inv; [done|done|done|done| |done].
    intros e'. counts. destruct (decide (e' = e)) as [->|]; [by rewrite !bool_decide_true|]. by rewrite !bool_decide_false by congruence.
  - by eapply leave_inv.
  - destruct (is_full (locker s) e) eqn:Ef; [|done]. eapply channel_inv; [done|done|done|done| |done].
    intros e'. counts. destruct (decide (e' = e)) as [->|]; [by rewrite !bool_decide_true|]. by rewrite !bool_decide_false by congruence.
  - by eapply leave_inv.
Qed.
Lemma lock_run keys evs : lock_inv (run (start keys) evs).
Proof.
  unfold run. assert (H : lock_inv (start keys)).
  { split; cbn; try (intros *; by rewrite lookup_empty).
    intros i c e k Hc Ha. apply list_lookup_fmap_Some in Hc as (x & H1 & H2). by simplify_eq. }
  revert H. generalize (start keys). induction evs as [|ev evs IH]; intros s Hs; cbn; [done|]. by apply IH, lock_step.
Qed.

(** ** Claims *)

Lemma zsum_two {A} (f : A -> Z) l i j x y :
  (forall z, 0 <= f z) -> i <> j -> l !! i = Some x -> l !! j = Some y -> f x + f y <= zsum f l.
Proof.
  intros Hf. revert i j. induction l as [|z l IH]; intros [|i] [|j] Hij Hx Hy; try done; cbn in Hx, Hy; rewrite zsum_cons.
  - injection Hx as ->. pose proof (zsum_lookup f l j y Hf Hy). lia.
  - injection Hy as ->. pose proof (zsum_lookup f l i x Hf Hx). lia.
  - specialize (IH i j ltac:(congruence) Hx Hy). specialize (Hf z). lia.
Qed.

Lemma zsum_witness {A} (f : A -> Z) l : zsum f l <> 0 -> exists i x, l !! i = Some x /\ f x <> 0.
Proof.
  induction l as [|y l IH]; [done|]. rewrite zsum_cons. intros H. destruct (decide (f y = 0)) as [E|].
  - destruct IH as (i & x & ? & ?); [lia|]. by exists (S i), x.
  - by exists 0%nat, y.
Qed.

(** Two callers never hold the lock of one path at the same time, although
    entries come and go with their users: however the callers lock, give up and
    unlock, each path has at most one holder, the holder's unlock finds its token,
    a caller that waits can go ahead unless somebody holds the path, and the map has
    an entry for exactly the paths somebody is using. *)
Lemma path_lock_exclusive keys evs :
  let s := run (start keys) evs in
  (forall i j e e' k, callers s !! i = Some (Holding e k) -> callers s !! j = Some (Holding e' k) -> i = j) /\
  (forall i e k, callers s !! i = Some (Holding e k) -> is_full (locker s) e = true) /\
  (forall i e k, callers s !! i = Some (Waiting e k) -> is_full (locker s) e = true ->
     exists j, callers s !! j = Some (Holding e k)) /\
  (forall k, is_Some (locks (locker s) !! k) <-> exists i c e, callers s !! i = Some c /\ at_entry c = Some (e, k)).
Proof.
  intros s. pose proof (lock_run keys evs) as Hi. fold s in Hi. pose proof Hi as [L1 L2 L3 L4].
  assert (Hent : forall i c e k, callers s !! i = Some c -> at_entry c = Some (e, k) ->
    exists x, heap (locker s) !! e = Some x /\ ekey x = k).
  { intros i c e k Hc Ha. destruct (L2 _ _ (L3 _ _ _ _ Hc Ha)) as (x & H1 & H2 & _). eauto. }
  assert (Hval : forall i e k, callers s !! i = Some (Holding e k) -> holds_lock e (Holding e k) = 1)
    by (intros i e k _; counts; by rewrite bool_decide_true).
  split_and!.
  - intros i j e e' k Hi1 Hj1. destruct (decide (i = j)) as [|Hne]; [done|exfalso].
    pose proof (L3 _ _ _ _ Hi1 eq_refl) as E1. pose proof (L3 _ _ _ _ Hj1 eq_refl) as E2. assert (e' = e) as -> by congruence.
    destruct (Hent _ _ _ _ Hi1 eq_refl) as (x & Hx & _). destruct (L1 e x Hx) as [_ B].
    pose proof (zsum_two (holds_lock e) _ _ _ _ _ (holds_nonneg e) Hne Hi1 Hj1) as H2.
    rewrite (Hval _ _ _ Hi1) in H2. destruct (full x); lia.
  - intros i e k Hc. destruct (Hent _ _ _ _ Hc eq_refl) as (x & Hx & _). destruct (L1 e x Hx) as [_ B]. unfold is_full. rewrite Hx.
    pose proof (zsum_lookup (holds_lock e) _ _ _ (holds_nonneg e) Hc) as H1. rewrite (Hval _ _ _ Hc) in H1. destruct (full x); [done|lia].
  - intros i e k Hc Hf. destruct (Hent _ _ _ _ Hc eq_refl) as (x & Hx & Hk). destruct (L1 e x Hx) as [_ B].
    unfold is_full in Hf. rewrite Hx in Hf. rewrite Hf in B.
    destruct (zsum_witness (holds_lock e) (callers s)) as (j & c & Hj & Hc'); [lia|].
    destruct c as [|e' k'|e' k'|e' k'|]; try done. cbn in Hc'. destruct (decide (e' = e)) as [->|Hne]; [|by rewrite bool_decide_false in Hc'].
    exists j. destruct (Hent _ _ _ _ Hj eq_refl) as (x' & Hx' & Hk'). congruence.
  - intros k. split.
    + intros [e Hk]. destruct (L2 k e Hk) as (x & Hx & Hxk & Hr). destruct (L1 e x Hx) as [A _].
      destruct (zsum_witness (refers e) (callers s)) as (j & c & Hj & Hc'); [lia|]. unfold refers in Hc'.
      destruct (at_entry c) as [[e' k']|] eqn:Ea; [|done]. destruct (decide (e' = e)) as [->|Hne]; [|by rewrite bool_decide_false in Hc'].
      exists j, c, e. split; [done|]. destruct (Hent _ _ _ _ Hj Ea) as (x' & Hx' & Hk'). rewrite Ea. congruence.
    + intros (i & c & e & Hc & Ha). rewrite (L3 _ _ _ _ Hc Ha). eauto.
Qed.
