(* ===== verification/Archives.v ===== *)
(** Archive volumes on disk: internal/usenet/postprocess/extract_dir.go,
    rollover.go and the name tests of extract.go and pipeline.go.

    Regular expressions of the source are matchers written out, backwards from the
    end of the name they are anchored at.  A directory is the list of its entries
    in the order os.ReadDir gives them; extraction itself is a parameter. *)
From Stdlib Require Import ZArith Lia Ascii String.
From stdpp Require Import prelude list strings sorting.
From S2P Require Import Prelude GoStrings.

Open Scope Z_scope.

(** * Suffix patterns *)

(** An element of a pattern under [(?i)]: a letter or punctuation, or a digit.
    Case folding adds the long s (C5 BF) to s and the Kelvin sign (E2 84 AA) to k. *)
Inductive pel := C (c : Z) | D.

(** The pattern against the reversed name, last element first: what is left. *)
Fixpoint rev_match (pat : list pel) (r : bytes) : option bytes :=
  match pat with
  | [] => Some r
  | D :: pat' => match r with b :: r' => if is_digit b then rev_match pat' r' else None | [] => None end
  | C c :: pat' =>
      match r with
      | b :: r' =>
          if fold_byte b =? c then rev_match pat' r'
          else match r with
               | 191 :: 197 :: r'' => if c =? 115 then rev_match pat' r'' else None
               | 170 :: 132 :: 226 :: r'' => if c =? 107 then rev_match pat' r'' else None
               | _ => None
               end
      | [] => None
      end
  end.
Definition chars (s : string) : list pel := map C (rev (str s)).
(** The name without a suffix that matches one of the patterns, the first that
    does. *)
Fixpoint strip_suffix (pats : list (list pel)) (name : bytes) : option bytes :=
  match pats with
  | [] => None
  | p :: ps => match rev_match p (rev name) with Some r => Some (rev r) | None => strip_suffix ps name end
  end.

(** ".part", digits, ".rar". *)
Definition partRar (digits_ok : bytes -> bool) (name : bytes) : option bytes :=
  match rev_match (chars ".rar") (rev name) with
  | None => None
  | Some r =>
      let '(ds, r') := span is_digit r in
      if digits_ok (rev ds) then match rev_match (chars ".part") r' with Some b => Some (rev b) | None => None end else None
  end.
(** \d+ and 0*1 *)
Definition some_digits (ds : bytes) : bool := negb (bytes_eqb ds []).
Definition zeros_one (ds : bytes) : bool := bytes_eqb (snd (span (fun b => b =? 48) ds)) [49].
Definition firstRarRe (name : bytes) : bool := bool_decide (is_Some (partRar zeros_one name)).
Definition partRarRe (name : bytes) : bool := bool_decide (is_Some (partRar some_digits name)).

Definition rarSuffixes : list (list pel) := [chars ".rar"; [D; D; C 114; C DOT]; [D; D; C 115; C DOT]].
Definition partRarVolumeRe (name : bytes) : option bytes := partRar some_digits name.
Definition plainRarVolumeRe (name : bytes) : option bytes := strip_suffix rarSuffixes name.
Definition numberedVolumeRe (name : bytes) : option bytes := strip_suffix [[D; D; D; C DOT]] name.

(** archiveStem: the key of the set a volume belongs to, empty for none. *)
Definition archiveStem (name : bytes) : bytes :=
  match partRarVolumeRe name with
  | Some base => base ++ str "|partrar"
  | None =>
      match plainRarVolumeRe name with
      | Some base => base ++ str "|rar"
      | None => match numberedVolumeRe name with Some base => base ++ str "|num" | None => [] end
      end
  end.

(** * Name tests *)

Definition isNumeric (s : bytes) : bool := forallb is_digit s && negb (bytes_eqb s []).

Definition isArchiveFile (name : bytes) : bool :=
  let ext := Ext (ToLower name) in
  if existsb (bytes_eqb ext) [str ".rar"; str ".7z"; str ".zip"] then true
  else if (length ext =? 4)%nat && ((nth 1 ext 0 =? 114) || (nth 1 ext 0 =? 115)) then isNumeric (drop 2 ext)
  else (length ext =? 4)%nat && isNumeric (drop 1 ext).

Definition cleanupExts (name : bytes) : bool :=
  bool_decide (is_Some (strip_suffix (map chars [".par2"; ".nfo"; ".sfv"; ".nzb"; ".srr"; ".srs"; ".jpg"; ".png"; ".txt"; ".url"]%string) name)).
Definition cleanupRarParts (name : bytes) : bool :=
  bool_decide (is_Some (strip_suffix (rarSuffixes ++ [[D; D; D; C DOT]]) name)).
Definition isCleanupTarget (name : bytes) : bool := cleanupExts name || cleanupRarParts name.

(** [names] is the set of lower-cased names. *)
Definition isRolledOverVolume (name : bytes) (names : list bytes) : bool :=
  let ext := ToLower (Ext name) in
  if negb (length ext =? 4)%nat || (nth 1 ext 0 <? 116) || (122 <? nth 1 ext 0) || negb (isNumeric (drop 2 ext)) then false
  else
    let stem := ToLower (take (length name - length ext) name) in
    existsb (bytes_eqb (stem ++ [DOT] ++ [nth 1 ext 0 - 1] ++ str "99")) names.
Definition isRolledOverVolumeOf (name stem : bytes) (names : list bytes) : bool :=
  bytes_eqb stem (take (length name - length (Ext name)) name ++ str "|rar") && isRolledOverVolume name names.

(** * Directories *)

(** An entry: its name, whether it is a directory, and its first bytes, [None]
    when it cannot be opened or read. *)
Record dirEntry := mkDirEntry { eName : bytes; eDir : bool; eHead : option bytes }.
(** os.ReadDir, [None] for an error. *)
Abbreviation listing := (option (list dirEntry)).

Definition lowerNames (l : listing) : list bytes := map (fun e => ToLower (eName e)) (default [] l).

(** hasArchiveMagic, on the bytes the first Read returned (at most 8). *)
Definition hasArchiveMagic (head : option bytes) : bool :=
  match head with
  | None => false
  | Some h =>
      if (length h <? 4)%nat then false
      else existsb (fun p => has_prefix p h)
             [str "Rar!" ++ [26; 7]; str "PK" ++ [3; 4]; str "PK" ++ [5; 6]; str "PK" ++ [7; 8]; str "7z" ++ [188; 175; 39; 28]]
  end.

Definition files_of (l : list dirEntry) : list dirEntry := List.filter (fun e => negb (eDir e)) l.

(** The shortest name is the first of sort.Slice's order. *)
Definition shortest `{GoSort (list Z)} (names : list bytes) : option bytes :=
  head (sort_Slice (fun a b => (Z.of_nat (length a) <? Z.of_nat (length b))) names).

(** findFirstRarInDir: the name of the entry volume. *)
Definition findFirstRarInDir `{GoSort (list Z)} (l : listing) : option bytes :=
  match l with
  | None => None
  | Some es =>
      let files := files_of es in
      match List.find (fun e => firstRarRe (eName e)) files with
      | Some e => Some (eName e)
      | None =>
          let rars := List.filter (fun n => has_suffix (str ".rar") (ToLower n) && negb (partRarRe n)) (map eName files) in
          match shortest rars with
          | Some n => Some n
          | None =>
              match List.find (fun e => has_suffix (str ".001") (ToLower (eName e)) && hasArchiveMagic (eHead e)) files with
              | Some e => Some (eName e)
              | None =>
                  eName <$> List.find (fun e => (has_suffix (str ".7z") (ToLower (eName e)) || has_suffix (str ".zip") (ToLower (eName e)))
                                                && hasArchiveMagic (eHead e)) files
              end
          end
      end
  end.

(** archiveVolumesOf: the names of the set entered at [entry], on the listing at
    that moment. *)
Definition is_volume_of (names : list bytes) (stem : bytes) (e : dirEntry) : bool :=
  negb (eDir e) && (isRolledOverVolumeOf (eName e) stem names || (bytes_eqb (archiveStem (eName e)) stem && isArchiveFile (eName e))).
Definition archiveVolumesOf (l : listing) (entry : bytes) : list bytes :=
  let stem := archiveStem entry in
  if bytes_eqb stem [] then [entry]
  else match l with
       | None => [entry]
       | Some es =>
           let parts := map eName (List.filter (is_volume_of (lowerNames (Some es)) stem) es) in
           match parts with [] => [entry] | _ => parts end
       end.

(** ** ExtractInDirTo and CleanupArchives *)

Inductive extractResult := Unpacked (files : list bytes) | ExtractFailed (password : bool).
Record ExtractDirResult := mkExtractDirResult {
  rExtracted : bool; rFiles : list bytes; rNote : bool; archiveParts : list bytes
}.
Inductive extractDirErr := EPassword | EMkdir | EExtract.

(** The world of one call: the directory before and after the extraction, whether
    the archive asks for a password, the outcomes. *)
Record extractEnv := mkExtractEnv {
  xBefore : listing; xAfter : listing; xProtected : bool; xMkdir : bool; xExtract : extractResult
}.

(** [inPlace] is destDir == dir; the second result is what was given to Extract. *)
Definition ExtractInDirTo `{GoSort (list Z)} (inPlace : bool) (password : bytes) (env : extractEnv)
    : result extractDirErr ExtractDirResult * option bytes :=
  match findFirstRarInDir (xBefore env) with
  | None => (Ok (mkExtractDirResult false [] false []), None)
  | Some archive =>
      if bytes_eqb password [] && xProtected env then (Err EPassword, None)
      else if negb inPlace && negb (xMkdir env) then (Err EMkdir, None)
      else
        match xExtract env with
        | ExtractFailed p => (Err (if p then EPassword else EExtract), Some archive)
        | Unpacked [] => (Ok (mkExtractDirResult false [] true []), Some archive)
        | Unpacked files =>
            (Ok (mkExtractDirResult true files false (if inPlace then archiveVolumesOf (xAfter env) archive else [])), Some archive)
        end
  end.

(** The names CleanupArchives tries to remove. *)
Definition CleanupArchives (res : option ExtractDirResult) : list bytes :=
  match res with
  | Some r => if rExtracted r then archiveParts r else []
  | None => []
  end.

(** Cleanup removes these of a directory the downloader owns. *)
Definition Cleanup (l : listing) : list bytes :=
  match l with
  | None => []
  | Some es => map eName (List.filter (fun e => negb (eDir e) && (isCleanupTarget (eName e) || isRolledOverVolume (eName e) (lowerNames l))) es)
  end.

(** * Sets of volumes *)

(** How a set is numbered, and that a name is a volume of such a set. *)
Inductive form := PartRar | PlainRar | Numbered.
Definition volume_of (name base : bytes) (f : form) : Prop :=
  match f with
  | PartRar => partRarVolumeRe name = Some base
  | PlainRar => partRarVolumeRe name = None /\ plainRarVolumeRe name = Some base
  | Numbered => partRarVolumeRe name = None /\ plainRarVolumeRe name = None /\ numberedVolumeRe name = Some base
  end.
Definition tag (f : form) : bytes :=
  match f with PartRar => str "|partrar" | PlainRar => str "|rar" | Numbered => str "|num" end.

Lemma stem_of_volume name base f : volume_of name base f -> archiveStem name = base ++ tag f.
Proof.
  unfold archiveStem. destruct f; cbn; [by intros ->|by intros [-> ->]|by intros (-> & -> & ->)].
Qed.
Lemma volume_of_stem name : archiveStem name <> [] -> exists base f, volume_of name base f.
Proof.
  unfold archiveStem. destruct (partRarVolumeRe name) as [b|] eqn:E1; [intros _; by exists b, PartRar|].
  destruct (plainRarVolumeRe name) as [b|] eqn:E2; [intros _; by exists b, PlainRar|].
  destruct (numberedVolumeRe name) as [b|] eqn:E3; [intros _; by exists b, Numbered|done].
Qed.

Lemma tag_inj b1 b2 f1 f2 : b1 ++ tag f1 = b2 ++ tag f2 -> b1 = b2 /\ f1 = f2.
Proof.
  intros H. assert (Hf : f1 = f2).
  { apply (f_equal (@rev Z)) in H. rewrite !rev_app_distr in H. destruct f1, f2; try done; vm_compute in H; discriminate H. }
  subst f2. split; [|done]. by apply app_inv_tail in H.
Qed.
(** The key of a set tells sets apart. *)
Lemma stem_volumes name base f name' :
  volume_of name base f -> archiveStem name' = archiveStem name <-> volume_of name' base f.
Proof.
  intros Hv. rewrite (stem_of_volume _ _ _ Hv). split; [|apply stem_of_volume]. intros He.
  destruct (volume_of_stem name') as (b & g & Hv').
  { rewrite He. intros [_ Ht]%app_eq_nil. by destruct f. }
  rewrite (stem_of_volume _ _ _ Hv') in He. by apply tag_inj in He as [-> ->].
Qed.

(** Cleaning up after an extraction deletes the unpacked set and nothing else.
    Every name CleanupArchives removes is the entry volume that was given to the
    extractor, or a plain file of the directory that is a volume of the same set:
    same base, same kind of numbering, or a rolled-over .t00-.z99 volume of it whose
    previous letter is full.  Nothing is removed when the extraction went elsewhere,
    failed or yielded no file. *)
Lemma cleanup_only_unpacked_set `{GoSort (list Z)} inPlace password env r given n :
  ExtractInDirTo inPlace password env = (Ok r, given) -> n ∈ CleanupArchives (Some r) ->
  inPlace = true /\ (exists f fs, xExtract env = Unpacked (f :: fs)) /\
  exists entry, given = Some entry /\
    (n = entry \/
     exists es base form, xAfter env = Some es /\ volume_of entry base form /\
       (exists e, e ∈ es /\ eDir e = false /\ eName e = n) /\
       (volume_of n base form /\ isArchiveFile n = true \/
        form = PlainRar /\ take (length n - length (Ext n)) n = base /\ isRolledOverVolume n (lowerNames (Some es)) = true)).
Proof.
  unfold ExtractInDirTo. destruct (findFirstRarInDir (xBefore env)) as [entry|]; [|intros [= <- <-] Hn; by apply elem_of_nil in Hn].
  case_if; [done|]. case_if; [done|].
  destruct (xExtract env) as [[|f fs]|p]; [intros [= <- <-] Hn; by apply elem_of_nil in Hn| |done].
  intros [= <- <-] Hn. cbn in Hn. destruct inPlace; [|by apply elem_of_nil in Hn].
  split; [done|]. split; [eauto|]. exists entry. split; [done|]. unfold archiveVolumesOf in Hn.
  destruct (bytes_eqb (archiveStem entry) []) eqn:Es; [left; by apply list_elem_of_singleton in Hn|].
  destruct (xAfter env) as [es|]; [|left; by apply list_elem_of_singleton in Hn].
  set (parts := map eName (List.filter (is_volume_of (lowerNames (Some es)) (archiveStem entry)) es)) in Hn.
  assert (Hp : n = entry \/ n ∈ parts) by (destruct parts; [left; by apply list_elem_of_singleton in Hn|by right]).
  destruct Hp as [->|Hp]; [by left|right]. clear Hn.
  destruct (volume_of_stem entry) as (base & fm & Hv).
  { intros He. by rewrite He, bytes_eqb_refl in Es. }
  apply list_elem_of_fmap in Hp as (e & -> & He). apply list_elem_of_In, filter_In in He as [Hin Hf]. apply list_elem_of_In in Hin.
  unfold is_volume_of in Hf. apply andb_prop in Hf as [Hd Hf]. apply negb_true_iff in Hd.
  exists es, base, fm. split_and!; [done|done|by exists e|]. apply orb_true_iff in Hf as [Hr|Ha].
  - right. unfold isRolledOverVolumeOf in Hr. apply andb_prop in Hr as [H1 H2]. apply bytes_eqb_eq in H1.
    rewrite (stem_of_volume _ _ _ Hv) in H1. change (str "|rar") with (tag PlainRar) in H1.
    apply tag_inj in H1 as [-> ->]. done.
  - left. apply andb_prop in Ha as [H1 H2]. apply bytes_eqb_eq in H1. split; [|done]. by apply (stem_volumes _ _ _ _ Hv).
Qed.

(** * Example *)

#[local] Instance demo_name_sort : GoSort (list Z) := stable_GoSort (list Z).
Definition demo_entry (n : bytes) : dirEntry := mkDirEntry n false (Some (str "Rar!" ++ [26; 7; 0; 0])).
Definition demo_dir : list dirEntry :=
  map demo_entry [str "Movie.r00"; str "Movie.r01"; str "Movie.rar"; str "Movie.2024.r00"; str "Movie.part1.rar.txt"; str "movie.mkv"; str "Movie.001"].
Definition demo_env : extractEnv := mkExtractEnv (Some demo_dir) (Some demo_dir) false true (Unpacked [str "movie.mkv"]).

Lemma cleanup_only_unpacked_set_witness :
  exists r, ExtractInDirTo true [] demo_env = (Ok r, Some (str "Movie.rar")) /\
  CleanupArchives (Some r) = [str "Movie.r00"; str "Movie.r01"; str "Movie.rar"] /\
  (exists f fs, xExtract demo_env = Unpacked (f :: fs)).
Proof.
  destruct (ExtractInDirTo true [] demo_env) as [[r|] g] eqn:E; [|vm_compute in E; discriminate E].
  assert (Hr : g = Some (str "Movie.rar") /\ CleanupArchives (Some r) = [str "Movie.r00"; str "Movie.r01"; str "Movie.rar"])
    by (vm_compute in E; injection E as <- <-; split; vm_compute; reflexivity).
  destruct Hr as [Hg Hr]. exists r. split; [by rewrite Hg|]. split; [exact Hr|].
  assert (Hin : str "Movie.r00" ∈ CleanupArchives (Some r)) by (rewrite Hr; left).
  exact (proj1 (proj2 (cleanup_only_unpacked_set true [] demo_env r g (str "Movie.r00") E Hin))).
Defined.
