(* ===== verification/PostProcess.v ===== *)
(** Verifying, repairing and unpacking a usenet delivery:
    internal/usenet/postprocess/par2.go and pipeline.go.

    The par2 program, the archive extractor and the directory are the world of a
    call: what par2 prints and returns, what the extractor yields, which files
    exist.  A Go map is iterated in an order of its own on every range, so an
    iteration takes a permutation as a parameter. *)
From Stdlib Require Import ZArith Lia Ascii String.
From stdpp Require Import prelude list strings sorting gmap.
From S2P Require Import Prelude GoStrings Archives.

Open Scope Z_scope.

(** * par2.go *)

Definition Contains (s sub : bytes) : bool := bool_decide (is_Some (index sub s)).

Inductive par2Err :=
| NotInstalled                          (* ErrPar2NotInstalled *)
| Repairable (damaged : list bytes)     (* *Par2RepairableError *)
| Unrepairable (damaged : list bytes)   (* *Par2UnrepairableError *)
| Par2Other.                            (* any other error *)

(** [\w] *)
Definition is_word (b : Z) : bool :=
  is_digit b || ((65 <=? b) && (b <=? 90)) || ((97 <=? b) && (b <=? 122)) || (b =? 95).

(** par2TargetRe at the start of [s]: the two groups and what follows. *)
Definition target_here (s : bytes) : option (bytes * bytes * bytes) :=
  match cut_prefix (str "Target: " ++ [QUOTE]) s with
  | None => None
  | Some s1 =>
      let '(name, s2) := span (fun b => negb (b =? QUOTE)) s1 in
      match cut_prefix ([QUOTE] ++ str " - ") s2 with
      | None => None
      | Some s3 =>
          let '(verdict, s4) := span is_word s3 in
          if bytes_eqb name [] || bytes_eqb verdict [] then None else Some (name, verdict, s4)
      end
  end.
(** FindAllStringSubmatch: matches from the left, none overlapping. *)
Fixpoint find_targets (fuel : nat) (s : bytes) : list (bytes * bytes) :=
  match fuel with
  | O => []
  | S fuel' =>
      match target_here s with
      | Some (name, verdict, rest) => (name, verdict) :: find_targets fuel' rest
      | None => match s with [] => [] | _ :: s' => find_targets fuel' s' end
      end
  end.
Fixpoint damaged_targets (ms : list (bytes * bytes)) (seen : list bytes) : list bytes :=
  match ms with
  | [] => []
  | (name, verdict) :: ms' =>
      let v := ToLower verdict in
      if bytes_eqb v (str "found") || bytes_eqb v (str "complete") || existsb (bytes_eqb name) seen
      then damaged_targets ms' seen
      else name :: damaged_targets ms' (name :: seen)
  end.
Definition parseDamagedTargets (out : bytes) : list bytes := damaged_targets (find_targets (S (length out)) out) [].

(** A run of the par2 program: whether it exited with an error, what it printed. *)
Record par2Run := mkPar2Run { failed : bool; output : bytes }.

(** Par2Verify and Par2Repair; [None] is success. *)
Definition Par2Verify (available : bool) (r : par2Run) : option par2Err :=
  if negb available then Some NotInstalled
  else if failed r then
    if Contains (output r) (str "Repair is possible") then Some (Repairable (parseDamagedTargets (output r)))
    else if Contains (output r) (str "Repair is not possible") then Some (Unrepairable (parseDamagedTargets (output r)))
    else Some Par2Other
  else None.
Definition Par2Repair (available : bool) (r : par2Run) : option par2Err :=
  if negb available then Some NotInstalled
  else if failed r then
    if Contains (output r) (str "Repair is not possible") then Some (Unrepairable (parseDamagedTargets (output r)))
    else Some Par2Other
  else None.

(** * runPar2Step *)

Inductive note := NoNote | NNotInstalled | NFetchFailed | NCannotRepair | NRepairFailed | NUnrepairable | NReverifyFailed | NVerifyError
                | NUnverified (missing : nat).
Record Result := mkResult {
  FinalPath : bytes; Files : list bytes; Repaired : bool; Extracted : bool; VerifyNote : note;
  Corrupt : bool; DamagedFiles : list bytes; Verified : bool
}.
Definition zeroResult : Result := mkResult [] [] false false NoNote false [] false.

Definition verified (r : Result) : Result :=
  mkResult (FinalPath r) (Files r) (Repaired r) (Extracted r) (VerifyNote r) (Corrupt r) (DamagedFiles r) true.
Definition repaired (r : Result) : Result :=
  mkResult (FinalPath r) (Files r) true (Extracted r) (VerifyNote r) (Corrupt r) (DamagedFiles r) true.
Definition corrupt (r : Result) (n : note) : Result :=
  mkResult (FinalPath r) (Files r) (Repaired r) (Extracted r) n true (DamagedFiles r) (Verified r).
Definition noted (r : Result) (n : note) : Result :=
  mkResult (FinalPath r) (Files r) (Repaired r) (Extracted r) n (Corrupt r) (DamagedFiles r) (Verified r).
Definition noteDamaged (r : Result) (e : par2Err) : Result :=
  match e with
  | Unrepairable ((_ :: _) as d) | Repairable ((_ :: _) as d) =>
      mkResult (FinalPath r) (Files r) (Repaired r) (Extracted r) (VerifyNote r) (Corrupt r) d (Verified r)
  | _ => r
  end.

(** The calls the step makes. *)
Inductive call := CVerify | CFetch | CRepair.

(** The world of the step: what the first and second verify and the repair return,
    and FetchParity, [None] when there is none. *)
Record par2Env := mkPar2Env {
  verify1 : option par2Err; verify2 : option par2Err; repair : option par2Err;
  fetchParity : option (option (list (bytes * bytes)))   (* the inner None is an error *)
}.

(** The switch at the end, on the last verdict; [damaged] is the first one's. *)
Definition par2_switch (env : par2Env) (damaged : bool) (e : par2Err) (r : Result) (cs : list call) : Result * list call :=
  match e with
  | NotInstalled => (noted r NNotInstalled, cs)
  | Repairable _ =>
      match repair env with
      | None => (repaired r, cs ++ [CRepair])
      | Some NotInstalled => (corrupt r NCannotRepair, cs ++ [CRepair])
      | Some e' => (corrupt (noteDamaged r e') NRepairFailed, cs ++ [CRepair])
      end
  | Unrepairable _ => (corrupt r NUnrepairable, cs)
  | Par2Other => if damaged then (corrupt r NReverifyFailed, cs) else (noted r NVerifyError, cs)
  end.

(** The result, the calls in order, and the files FetchParity added. *)
Definition runPar2Step (env : par2Env) (r : Result) : Result * list call * list (bytes * bytes) :=
  match verify1 env with
  | None => (verified r, [CVerify], [])
  | Some e1 =>
      let r1 := noteDamaged r e1 in
      let damaged := match e1 with Repairable _ | Unrepairable _ => true | _ => false end in
      let more := match e1 with Unrepairable _ => true | _ => false end in
      match more, fetchParity env with
      | true, Some None => (corrupt r1 NFetchFailed, [CVerify; CFetch], [])
      | true, Some (Some fetched) =>
          match verify2 env with
          | None => (verified r1, [CVerify; CFetch; CVerify], fetched)
          | Some e2 =>
              let '(r2, cs) := par2_switch env damaged e2 (noteDamaged r1 e2) [CVerify; CFetch; CVerify] in (r2, cs, fetched)
          end
      | _, _ => let '(r2, cs) := par2_switch env damaged e1 r1 [CVerify] in (r2, cs, [])
      end
  end.

(** * Finding files *)

(** A file on disk and its size, by path. *)
Abbreviation statFn := (bytes -> option Z).
Abbreviation filesMap := (gmap (list Z) (list Z)).

Fixpoint smallest_par2 (stat : statFn) (l : list (bytes * bytes)) (best : option (bytes * Z)) : option (bytes * Z) :=
  match l with
  | [] => best
  | (name, path) :: l' =>
      if negb (bytes_eqb (ToLower (Ext name)) (str ".par2")) then smallest_par2 stat l' best
      else match stat path with
           | None => smallest_par2 stat l' best
           | Some size =>
               smallest_par2 stat l'
                 (match best with
                  | Some (_, s) => if (s <? 0) || (size <? s) then Some (path, size) else best
                  | None => Some (path, size)
                  end)
           end
  end.
Definition findPar2File (stat : statFn) (l : list (bytes * bytes)) : option bytes := fst <$> smallest_par2 stat l None.

(** [l1], [l2], [l3]: the orders of the three ranges over the map. *)
Definition findFirstRar `{GoSort (list Z * list Z)} (l1 l2 l3 : list (bytes * bytes)) : option bytes :=
  match List.find (fun x => firstRarRe (snd x)) l1 with
  | Some x => Some (snd x)
  | None =>
      let rars := List.filter (fun x => has_suffix (str ".rar") (ToLower (fst x))) l2 in
      match head (sort_Slice (fun a b => Z.of_nat (length (fst a)) <? Z.of_nat (length (fst b))) rars) with
      | Some x => Some (snd x)
      | None => snd <$> List.find (fun x => has_suffix (str ".001") (ToLower (fst x))) l3
      end
  end.

Definition videoExts : list bytes :=
  map str [".mkv"; ".mp4"; ".avi"; ".mov"; ".wmv"; ".flv"; ".m4v"; ".ts"; ".webm"]%string.
Definition is_video (path : bytes) : bool := existsb (bytes_eqb (ToLower (Ext path))) videoExts.
Fixpoint largest_video (stat : statFn) (paths : list bytes) (best : bytes * Z) : bytes * Z :=
  match paths with
  | [] => best
  | p :: ps =>
      largest_video stat ps
        (if is_video p then match stat p with Some size => if snd best <? size then (p, size) else best | None => best end else best)
  end.
(** [scan] are the files of the directory, [None] when it cannot be read. *)
Definition findMainFile (stat : statFn) (files : list bytes) (scan : option (list bytes)) : bytes :=
  let best := largest_video stat files ([], 0) in
  if negb (bytes_eqb (fst best) []) then fst best
  else match scan with
       | None => []
       | Some paths => fst (largest_video stat paths best)
       end.

(** * Process *)

Inductive procErr := PPassword | PExtract.

(** The world of Process.  Names and paths coincide up to the directory, which is
    left out of the paths. *)
Record procEnv := mkProcEnv {
  par2 : par2Env;
  statAtVerify : statFn;                 (* before par2 *)
  statAfter : statFn;                    (* after it, and after the extraction *)
  order : nat -> filesMap -> list (bytes * bytes);  (* the ranges over downloadedFiles *)
  protected : bool;
  extract : result bool (list bytes);    (* the error is a PasswordError or not *)
  scanned : option (list bytes)          (* the files of the directory at the end *)
}.

Definition metadata_ext (name : bytes) : bool :=
  existsb (bytes_eqb (Ext (ToLower name))) (map str [".par2"; ".nfo"; ".sfv"; ".nzb"]%string).

(** Content files when there is no archive, and those par2 renamed. *)
Definition plain_files (env : procEnv) (files : filesMap) (wasRepaired : bool) : list bytes :=
  let kept := List.filter (fun p => negb (isCleanupTarget (Base p)) && bool_decide (is_Some (statAfter env p)))
                (map snd (order env 4 files)) in
  if wasRepaired then
    kept ++ List.filter (fun n => negb (isCleanupTarget n || has_suffix (str ".1") n) && negb (existsb (bytes_eqb n) kept))
              (default [] (scanned env))
  else kept.

(** The result with the calls made, and the files that cleanup removes. *)
Definition Process `{GoSort (list Z * list Z)} (files : filesMap) (password : bytes) (cleanup : bool) (listing_after : listing)
    (env : procEnv) : result procErr (Result * list bytes) * list call * filesMap :=
  let '(r1, calls, fetched) :=
    match findPar2File (statAtVerify env) (order env 0 files) with
    | Some _ => runPar2Step (par2 env) zeroResult
    | None => (zeroResult, [], [])
    end in
  let files := fold_left (fun m x => <[fst x := snd x]> m) fetched files in
  let finish r removed :=
    let main := findMainFile (statAfter env) (Files r) (scanned env) in
    let main := match main, Files r with [], f :: _ => f | _, _ => main end in
    Ok (mkResult main (Files r) (Repaired r) (Extracted r) (VerifyNote r) (Corrupt r) (DamagedFiles r) (Verified r), removed) in
  match findFirstRar (order env 1 files) (order env 2 files) (order env 3 files) with
  | Some rar =>
      if bytes_eqb password [] && protected env then (Err PPassword, calls, files)
      else match extract env with
           | Err true => (Err PPassword, calls, files)
           | Err false => (Err PExtract, calls, files)
           | Ok extracted =>
               let r2 := mkResult [] extracted (Repaired r1) true (VerifyNote r1) (Corrupt r1) (DamagedFiles r1) (Verified r1) in
               (finish r2 (if cleanup then Cleanup listing_after else []), calls, files)
           end
  | None =>
      let r2 := mkResult [] (plain_files env files (Repaired r1)) (Repaired r1) false (VerifyNote r1) (Corrupt r1) (DamagedFiles r1) (Verified r1) in
      (finish r2 (if cleanup then map snd (List.filter (fun x => metadata_ext (fst x)) (order env 5 files)) else []), calls, files)
  end.

(** * What par2 prints is read back *)

(** A verdict line, followed by whatever does not start another one. *)
Definition target_line (name verdict : bytes) : bytes :=
  str "Target: " ++ [QUOTE] ++ name ++ [QUOTE] ++ str " - " ++ verdict ++ str "." ++ [LF].
Definition target_ok (x : bytes * bytes) : Prop :=
  fst x <> [] /\ QUOTE ∉ fst x /\ snd x <> [] /\ Forall (fun b => is_word b = true) (snd x).

Lemma bytes_eqb_ne a b : a <> b -> bytes_eqb a b = false.
Proof. intros H. destruct (bytes_eqb a b) eqn:E; [|done]. by apply bytes_eqb_eq in E. Qed.

Lemma target_here_line name verdict rest :
  target_ok (name, verdict) ->
  target_here (target_line name verdict ++ rest) = Some (name, verdict, str "." ++ [LF] ++ rest).
Proof.
  intros (H1 & H2 & H3 & H4). cbn [fst snd] in *. unfold target_here, target_line. rewrite <- !app_assoc.
  rewrite (proj2 (cut_prefix_Some (str "Target: " ++ [QUOTE]) _ _) (app_assoc (str "Target: ") [QUOTE] _)).
  rewrite span_all_then; [| |done].
  - rewrite (proj2 (cut_prefix_Some ([QUOTE] ++ str " - ") _ _) (app_assoc [QUOTE] (str " - ") _)).
    rewrite span_all_then; [|done|done]. by rewrite !bytes_eqb_ne.
  - apply Forall_forall. intros x Hx. apply negb_true_iff, Z.eqb_neq. by intros ->.
Qed.
Lemma target_line_length name verdict : (3 <= length (target_line name verdict))%nat.
Proof. unfold target_line. rewrite length_app. cbn. lia. Qed.

Lemma find_targets_lines ts fuel :
  Forall target_ok ts -> (length (concat (map (fun x => target_line (fst x) (snd x)) ts)) < fuel)%nat ->
  find_targets fuel (concat (map (fun x => target_line (fst x) (snd x)) ts)) = ts.
Proof.
  revert fuel. induction ts as [|[n v] ts IH]; intros fuel Ht Hf; [by destruct fuel|].
  apply Forall_cons in Ht as [H1 H2]. cbn [map concat fst snd] in *. set (rest := concat _) in *.
  pose proof (target_line_length n v) as Hl. rewrite length_app in Hf.
  destruct fuel as [|[|[|fuel]]]; [lia|lia|lia|]. cbn [find_targets]. rewrite (target_here_line n v rest H1).
  f_equal. change (find_targets (S (S fuel)) (str "." ++ [LF] ++ rest)) with (find_targets fuel rest). apply IH; [done|]. lia.
Qed.

(** Of the verdict lines par2 prints, exactly the files that are not intact are
    reported, each once. *)
Lemma damaged_targets_spec ms seen n :
  n ∈ damaged_targets ms seen <->
  n ∉ seen /\ exists v, (n, v) ∈ ms /\ ToLower v <> str "found" /\ ToLower v <> str "complete".
Proof.
  revert seen. induction ms as [|[m v] ms IH]; intros seen; cbn [damaged_targets].
  { split; [intros H; by apply elem_of_nil in H|]. intros (_ & v & H & _). by apply elem_of_nil in H. }
  assert (Hseen : existsb (bytes_eqb m) seen = true <-> m ∈ seen).
  { rewrite existsb_exists. split; [intros (y & Hy & He); apply bytes_eqb_eq in He as ->; by apply list_elem_of_In|].
    intros Hm. exists m. split; [by apply list_elem_of_In|apply bytes_eqb_refl]. }
  destruct (bytes_eqb (ToLower v) (str "found") || bytes_eqb (ToLower v) (str "complete")) eqn:Ei.
  - cbn [orb]. rewrite IH. apply orb_true_iff in Ei. split; intros (H1 & w & H2 & H3); (split; [done|]); exists w.
    + split; [by right|done].
    + split; [|done]. apply elem_of_cons in H2 as [[= -> ->]|H2]; [|done].
      destruct H3. destruct Ei as [E|E]; apply bytes_eqb_eq in E; congruence.
  - apply orb_false_elim in Ei as [E1 E2]. cbn [orb].
    assert (Hv : ToLower v <> str "found" /\ ToLower v <> str "complete").
    { split; intros E; rewrite E, bytes_eqb_refl in *; done. }
    destruct (existsb (bytes_eqb m) seen) eqn:Es.
    + pose proof (proj1 Hseen eq_refl) as Hm. rewrite IH. split; intros (H1 & w & H2 & H3); (split; [done|]); exists w.
      * split; [by right|done].
      * split; [|done]. apply elem_of_cons in H2 as [[= -> ->]|H2]; [|done]. done.
    + rewrite elem_of_cons, IH. split.
      * intros [->|(H1 & w & H2 & H3)].
        -- split; [intros Hm; by apply Hseen in Hm|]. exists v. split; [by left|done].
        -- apply not_elem_of_cons in H1 as [_ H1]. split; [done|]. exists w. split; [by right|done].
      * intros (H1 & w & H2 & H3). destruct (decide (n = m)) as [->|Hne]; [by left|right].
        split; [by apply not_elem_of_cons|]. exists w. split; [|done]. apply elem_of_cons in H2 as [[= -> ->]|H2]; done.
Qed.

(** The files par2 names as damaged are the ones re-fetched: of a report that
    lists a verdict per file, exactly the files whose verdict is neither found nor
    complete are read back. *)
Lemma damaged_report_read_back ts n :
  Forall target_ok ts ->
  n ∈ parseDamagedTargets (concat (map (fun x => target_line (fst x) (snd x)) ts)) <->
  exists v, (n, v) ∈ ts /\ ToLower v <> str "found" /\ ToLower v <> str "complete".
Proof.
  intros Ht. unfold parseDamagedTargets. rewrite find_targets_lines by (done || lia). rewrite damaged_targets_spec.
  split; [by intros [_ H]|]. intros H. split; [apply not_elem_of_nil|done].
Qed.

(** * The verdict on a delivery *)

Definition found_damage (v : option par2Err) : Prop :=
  match v with Some (Repairable _) | Some (Unrepairable _) => True | _ => False end.
(** par2 vouched for the files, in a verification or by repairing them. *)
Definition vouched (env : par2Env) (calls : list call) : Prop :=
  verify1 env = None \/ (CFetch ∈ calls /\ fetchParity env <> Some None /\ verify2 env = None) \/
  (CRepair ∈ calls /\ repair env = None).

Lemma noteDamaged_same r e :
  Verified (noteDamaged r e) = Verified r /\ Corrupt (noteDamaged r e) = Corrupt r.
Proof. by destruct e as [|[]|[]|]. Qed.

(** The side conditions of the cases below. *)
Ltac switch_side :=
  first [ done | by auto | split; [done|by intros (? & ? & ?)] | split; [intros _; by eauto|done]
        | by intros [[]|[? ?]] | intros [[]|[? ?]]; by auto
        | exists []; rewrite app_nil_r; by eauto | eexists; split; [done|by eauto 6] | set_solver ].

(** The switch, on a result that has no verdict yet. *)
Lemma par2_switch_spec env damaged e r cs :
  Verified r = false -> Corrupt r = false ->
  let '(r', cs') := par2_switch env damaged e r cs in
  (Verified r' = true <-> exists d, e = Repairable d /\ repair env = None) /\
  (Verified r' = true -> Corrupt r' = false) /\
  (found_damage (Some e) \/ (e = Par2Other /\ damaged = true) -> Verified r' = true \/ Corrupt r' = true) /\
  (Corrupt r' = true -> found_damage (Some e) \/ damaged = true) /\
  (exists l, cs' = cs ++ l /\ (l = [] \/ l = [CRepair] /\ exists d, e = Repairable d)) /\
  (forall d, e = Repairable d -> CRepair ∈ cs').
Proof.
  intros Hv Hc. destruct e as [|d|d|]; cbn [par2_switch].
  - cbn. rewrite Hv, Hc. split_and!; switch_side.
  - destruct (repair env) as [e'|] eqn:Er.
    + destruct (noteDamaged_same r e') as [A B]. rewrite Hv in A.
      destruct e'; cbn [corrupt Verified Corrupt]; rewrite ?A, ?Hv; split_and!; switch_side.
    + cbn. rewrite Hc. split_and!; switch_side.
  - cbn. rewrite Hv. split_and!; switch_side.
  - destruct damaged; cbn; rewrite Hv, ?Hc; split_and!; switch_side.
Qed.

Definition is_fetch (c : call) : bool := match c with CFetch => true | _ => false end.
Record sound_verdict (env : par2Env) (r : Result) (calls : list call) : Prop := {
  sv_verified : Verified r = true <-> vouched env calls;
  sv_not_both : Verified r = true -> Corrupt r = false;
  sv_damage : found_damage (verify1 env) -> verify2 env <> Some NotInstalled -> Verified r = true \/ Corrupt r = true;
  sv_corrupt : Corrupt r = true -> found_damage (verify1 env);
  sv_fetch : CFetch ∈ calls -> exists d, verify1 env = Some (Unrepairable d);
  sv_once : (length (List.filter is_fetch calls) <= 1)%nat
}.

(** The calls made before the switch and the verdict it gets. *)
Definition before_switch (env : par2Env) (e : par2Err) (cs : list call) : Prop :=
  (cs = [CVerify] /\ verify1 env = Some e) \/
  (cs = [CVerify; CFetch; CVerify] /\ verify2 env = Some e /\ exists d, verify1 env = Some (Unrepairable d)).

Lemma switch_sound env d e r cs :
  Verified r = false -> Corrupt r = false -> (d = true <-> found_damage (verify1 env)) -> before_switch env e cs ->
  let '(r', cs') := par2_switch env d e r cs in sound_verdict env r' cs'.
Proof.
  intros Hv Hc Hd Hb. pose proof (par2_switch_spec env d e r cs Hv Hc) as Hs.
  destruct (par2_switch env d e r cs) as [r' cs']. destruct Hs as (S1 & S2 & S3 & S4 & (l & -> & Hl) & S6).
  assert (Hfetch : CFetch ∈ cs ++ l -> verify2 env = Some e /\ exists x, verify1 env = Some (Unrepairable x)).
  { destruct Hb as [[-> _]|(-> & Hb)]; [|done]. destruct Hl as [->|[-> _]]; intros; set_solver. }
  assert (Hrep : CRepair ∈ cs ++ l <-> exists x, e = Repairable x).
  { split; [|intros (x & Hx); by eapply S6].
    intros [Hx|Hx]%elem_of_app; [destruct Hb as [[-> _]|[-> _]]; set_solver|]. destruct Hl as [->|[-> ?]]; set_solver. }
  assert (H1 : verify1 env <> None) by (destruct Hb as [[_ ->]|(_ & _ & x & ->)]; done).
  split.
  - rewrite S1. unfold vouched. rewrite Hrep. split; [intros (x & Hx & Hr); eauto 6|].
    intros [?|[(Hx & _ & H2)|[(x & Hx) Hr]]]; [done| |eauto]. destruct (Hfetch Hx) as [? _]. congruence.
  - done.
  - intros Hf Hn. apply S3. destruct e; cbn; [|by left|by left|right; split; [done|by apply Hd]].
    exfalso. destruct Hb as [[_ Hb]|(_ & Hb & _)]; [by rewrite Hb in Hf|done].
  - intros Hcr. destruct (S4 Hcr) as [Hf|Hf]; [|by apply Hd]. destruct Hb as [[_ ->]|(_ & _ & x & ->)]; done.
  - intros Hx. by apply Hfetch.
  - rewrite List.filter_app, length_app. destruct Hb as [[-> _]|[-> _]], Hl as [->|[-> _]]; cbn; lia.
Qed.

Lemma par2_sound env : let '(r, calls, _) := runPar2Step env zeroResult in sound_verdict env r calls.
Proof.
  unfold runPar2Step. destruct (verify1 env) as [e1|] eqn:E1.
  2:{ split; rewrite ?E1; try done; [unfold vouched; rewrite E1; split; auto|set_solver|cbn; lia]. }
  destruct (noteDamaged_same zeroResult e1) as [A B].
  assert (Hdir : let '(r2, cs) := par2_switch env (match e1 with Repairable _ | Unrepairable _ => true | _ => false end) e1
      (noteDamaged zeroResult e1) [CVerify] in sound_verdict env r2 cs).
  { apply switch_sound; [done|done|rewrite E1; by destruct e1|by left]. }
  destruct e1 as [|d|d|]; try (by destruct (par2_switch _ _ _ _ _)).
  destruct (fetchParity env) as [[fetched|]|] eqn:Ef; [|..].
  - destruct (verify2 env) as [e2|] eqn:E2.
    + destruct (noteDamaged_same (noteDamaged zeroResult (Unrepairable d)) e2) as [A2 B2].
      assert (Hs : let '(r2, cs) := par2_switch env true e2 (noteDamaged (noteDamaged zeroResult (Unrepairable d)) e2) [CVerify; CFetch; CVerify]
        in sound_verdict env r2 cs).
      { apply switch_sound; [by rewrite A2, A|by rewrite B2, B|by rewrite E1|right; eauto]. }
      cbv zeta iota. by destruct (par2_switch env true e2 _ _).
    + split; cbn [verified Verified Corrupt]; rewrite ?E1, ?B; try done; [|by auto|by eauto].
      unfold vouched. rewrite Ef, E2. split; [|done]. intros _. right; left. split; [set_solver|done].
  - split; cbn [corrupt Verified Corrupt]; rewrite ?E1, ?A; try done; [|by auto|by eauto].
    unfold vouched. rewrite E1, Ef. split; [done|]. intros [?|[(_ & ? & _)|[Hx _]]]; [done|done|set_solver].
  - by destruct (par2_switch _ _ _ _ _).
Qed.

(** What the pipeline says of a delivery is what par2 found.  It is called
    verified exactly when a verification passed or a repair succeeded; it is never
    both verified and corrupt; damage that par2 has confirmed ends as a repair or as
    corrupt and is not shipped as merely unverified, unless par2 is found missing
    when it runs again; a failure to run par2 alone
    never condemns a file; the recovery volumes are fetched at most once, and only
    for damage the local blocks cannot repair. *)
Lemma par2_verdict env :
  let '(r, calls, _) := runPar2Step env zeroResult in
  (Verified r = true <-> vouched env calls) /\
  (Verified r = true -> Corrupt r = false) /\
  (found_damage (verify1 env) -> verify2 env <> Some NotInstalled -> Verified r = true \/ Corrupt r = true) /\
  (Corrupt r = true -> found_damage (verify1 env)) /\
  (CFetch ∈ calls -> exists d, verify1 env = Some (Unrepairable d)) /\
  (length (List.filter is_fetch calls) <= 1)%nat.
Proof.
  pose proof (par2_sound env) as H. destruct (runPar2Step env zeroResult) as [[r calls] f]. by destruct H.
Qed.

(** A par2 that is killed while it repairs: the comment of Par2Repair keeps such a
    failure apart from damage beyond recovery, the pipeline calls both corrupt. *)
Lemma killed_repair_is_corrupt d :
  let env := mkPar2Env (Some (Repairable d)) None (Par2Repair true (mkPar2Run true (str "Killed"))) None in
  let '(r, _, _) := runPar2Step env zeroResult in Corrupt r = true /\ VerifyNote r = NRepairFailed.
Proof. by destruct d. Qed.

(** Damage that par2 confirmed is delivered as unverified, and not as corrupt, when
    the program is gone by the time it runs again with the recovery volumes. *)
Lemma vanished_par2_ships_damage d fetched :
  let env := mkPar2Env (Some (Unrepairable d)) (Some NotInstalled) None (Some (Some fetched)) in
  let '(r, _, _) := runPar2Step env zeroResult in
  found_damage (verify1 env) /\ Corrupt r = false /\ Verified r = false /\ VerifyNote r = NNotInstalled.
Proof. by destruct d. Qed.

Lemma damaged_report_read_back_witness :
  let ts := [(str "a.rar", str "found"); (str "b.rar", str "damaged"); (str "c.rar", str "missing")] in
  Forall target_ok ts /\ str "b.rar" ∈ parseDamagedTargets (concat (map (fun x => target_line (fst x) (snd x)) ts)).
Proof.
  cbv zeta.
  assert (H : Forall target_ok [(str "a.rar", str "found"); (str "b.rar", str "damaged"); (str "c.rar", str "missing")]).
  { repeat constructor; try discriminate; cbn; refine (bool_decide_unpack _ _); vm_compute; exact I. }
  split; [exact H|]. apply (damaged_report_read_back _ _ H). exists (str "damaged").
  split; [right; left|split; discriminate].
Defined.
