(* ===== verification/NzbPick.v ===== *)
(** Choosing an NZB for a release, and where it is kept and unpacked:
    internal/engine/usenet_nzb_pick.go, usenet_nzb_cache.go, usenet_taskdir.go,
    diskspace.go and the naming helpers of usenet.go. *)
From Stdlib Require Import ZArith Lia Ascii String.
From Stdlib.Floats Require Import SpecFloat.
From stdpp Require Import prelude list strings sorting gmap.
From S2P Require Import Prelude GoStrings Nzb Downloader SafePath.

Open Scope Z_scope.

(** * The resolution a title states *)

(** A literal under the flag i: [p] is in lower case and has neither k nor s,
    which also fold with U+212A and U+017F. *)
Fixpoint cut_fold (p s : bytes) : option bytes :=
  match p, s with
  | [], _ => Some s
  | c :: p', b :: s' => if fold_byte b =? c then cut_fold p' s' else None
  | _ :: _, [] => None
  end.
(** An alternation of literals, with the one that matched. *)
Fixpoint cut_any (ps : list bytes) (s : bytes) : option (bytes * bytes) :=
  match ps with
  | [] => None
  | p :: ps' => match cut_fold p s with Some s' => Some (p, s') | None => cut_any ps' s end
  end.

Definition is_letter (b : Z) : bool := (97 <=? fold_byte b) && (fold_byte b <=? 122).
(** Whether the rune ahead, or the one before (bytes last first), is in a-z under
    the flag i: the letters, U+017F and U+212A. *)
Definition letter_ahead (s : bytes) : bool :=
  match s with
  | 197 :: 191 :: _ | 226 :: 132 :: 170 :: _ => true
  | b :: _ => is_letter b
  | [] => false
  end.
Definition letter_before (before : bytes) : bool :=
  match before with
  | 191 :: 197 :: _ | 170 :: 132 :: 226 :: _ => true
  | b :: _ => is_letter b
  | [] => false
  end.
Definition digit_at (s : bytes) : bool := match s with b :: _ => is_digit b | [] => false end.

(** The leftmost position at which [m] matches what follows and [ok] what precedes. *)
Fixpoint leftmost {A} (ok : bytes -> bool) (m : bytes -> option A) (before s : bytes) : option A :=
  match (if ok before then m s else None) with
  | Some a => Some a
  | None => match s with [] => None | b :: s' => leftmost ok m (b :: before) s' end
  end.

Definition heights : list bytes := map str ["2160"; "1080"; "720"; "480"]%string.
Definition widths : list bytes := map str ["3840"; "1920"; "1280"; "854"; "640"]%string.

Definition pixels_here (s : bytes) : option bytes :=
  match cut_any heights s with
  | Some (h, s1) =>
      match cut_any [str "p"; str "i"] s1 with
      | Some (_, s2) => if letter_ahead s2 then None else Some h
      | None => None
      end
  | None => None
  end.
Definition pixelsRe (title : bytes) : option bytes := leftmost (fun b => negb (digit_at b)) pixels_here [] title.

Definition frame_here (s : bytes) : option bytes :=
  match cut_any widths s with
  | Some (_, s1) =>
      match cut_fold (str "x") s1 with
      | Some s2 =>
          match cut_any heights s2 with
          | Some (h, s3) => if digit_at s3 then None else Some h
          | None => None
          end
      | None => None
      end
  | None => None
  end.
Definition frameRe (title : bytes) : option bytes := leftmost (fun b => negb (digit_at b)) frame_here [] title.

Definition cut_k (s : bytes) : option bytes :=
  match s with
  | 75 :: s' | 107 :: s' | 226 :: 132 :: 170 :: s' => Some s'
  | _ => None
  end.
Definition uhd_here (s : bytes) : option unit :=
  let after := match cut_fold (str "4") s with
               | Some s1 => cut_k s1
               | None => cut_fold (str "uhd") s
               end in
  match after with
  | Some s2 => if letter_ahead s2 || digit_at s2 then None else Some tt
  | None => None
  end.
Definition uhdRe (title : bytes) : bool :=
  bool_decide (is_Some (leftmost (fun b => negb (letter_before b || digit_at b)) uhd_here [] title)).

Definition releaseResolution (title : bytes) : bytes :=
  match pixelsRe title with
  | Some h => h ++ str "p"
  | None =>
      match frameRe title with
      | Some h => h ++ str "p"
      | None => if uhdRe title then str "2160p" else []
      end
  end.

Definition resolutions : list bytes := map str ["2160p"; "1080p"; "720p"; "480p"]%string.
Definition normalizeResolution (s : bytes) : bytes :=
  let s := ToLower (TrimSpace s) in
  if existsb (bytes_eqb s) resolutions then s
  else if existsb (bytes_eqb s) [str "4k"; str "uhd"] then str "2160p"
  else [].

(** * Picking *)

Record NzbSearchResult := mkNzbResult {
  rTitle : bytes; rNzbID : bytes; rSize : Z; rGrabs : Z; rParsedResolution : bytes
}.

Definition nzbResolution (r : NzbSearchResult) : bytes :=
  match normalizeResolution (rParsedResolution r) with
  | [] => releaseResolution (rTitle r)
  | res => res
  end.

Record nzbTarget := mkTarget { tResolution : bytes; tSize : Z }.

(** The fields of a task the picker reads. *)
Record nzbTask := mkNzbTask {
  ntID : bytes; ntTitle : bytes; ntIMDbID : bytes; ntNzbID : bytes; ntPassword : bytes;
  ntTotalBytes : Z; ntDirectFileSize : Z; ntReleaseSize : Z
}.

Definition nzbTargetFor (task : nzbTask) (preferredQuality : bytes) : nzbTarget :=
  let size := ntTotalBytes task in
  let size := if size <=? 0 then ntDirectFileSize task else size in
  let size := if size <=? 0 then ntReleaseSize task else size in
  let res := releaseResolution (ntTitle task) in
  let res := if bytes_eqb res [] && (size <=? 0) then preferredQuality else res in
  mkTarget res size.

Definition nzbMaxSizeRatio : spec_float := f64_of_int 4.

(** [math.Log] is in assembly on some platforms: it is a parameter. *)
Section Pick.
Context (Log : spec_float -> spec_float).

Definition nzbDistance (size target : Z) : spec_float :=
  SFabs (Log (SFdiv 53 1024 (f64_of_int size) (f64_of_int target))).

Definition betterNzb (r : NzbSearchResult) (dist : spec_float) (best : NzbSearchResult) (bestDist : spec_float)
    (bySize : bool) : bool :=
  if bySize then
    if negb (SFeqb dist bestDist) then SFltb dist bestDist else rGrabs best <? rGrabs r
  else if negb (rSize r =? rSize best) then rSize best <? rSize r
  else rGrabs best <? rGrabs r.

(** The distance of a result the loop does not skip. *)
Definition candidate (target : nzbTarget) (r : NzbSearchResult) : option spec_float :=
  if negb (bytes_eqb (tResolution target) []) && negb (bytes_eqb (nzbResolution r) (tResolution target)) then None
  else if 0 <? tSize target then
    if rSize r <=? 0 then None
    else
      let dist := nzbDistance (rSize r) (tSize target) in
      if SFltb (Log nzbMaxSizeRatio) dist then None else Some dist
  else Some (S754_zero false).

Fixpoint pick_loop (target : nzbTarget) (results : list NzbSearchResult) (best : option (NzbSearchResult * spec_float))
    : option (NzbSearchResult * spec_float) :=
  match results with
  | [] => best
  | r :: results' =>
      pick_loop target results'
        (match candidate target r with
         | None => best
         | Some dist =>
             match best with
             | None => Some (r, dist)
             | Some (b, bestDist) => if betterNzb r dist b bestDist (0 <? tSize target) then Some (r, dist) else best
             end
         end)
  end.
Definition pickNzb (results : list NzbSearchResult) (target : nzbTarget) : option NzbSearchResult :=
  fst <$> pick_loop target results None.
End Pick.

(** Titles as releases spell them. *)
Example resolution_pixels : releaseResolution (str "Film.1080p.x264") = str "1080p".
Proof. reflexivity. Qed.
Example resolution_not_number : releaseResolution (str "Film.1720p.x264") = [].
Proof. reflexivity. Qed.
Example resolution_edition : releaseResolution (str "Film.UHD.BluRay.1080p60") = str "1080p".
Proof. reflexivity. Qed.
Example resolution_frame : releaseResolution (str "Film (1280x720) [x]") = str "720p".
Proof. reflexivity. Qed.
Example resolution_uhd : releaseResolution (str "Film 4K") = str "2160p".
Proof. reflexivity. Qed.

(** ** The picked result is a best one *)

(** Comparing floats that are numbers is comparing these triples. *)
Definition float_key (f : spec_float) : Z * Z * Z :=
  match f with
  | S754_nan => (3, 0, 0)
  | S754_infinity true => (-2, 0, 0)
  | S754_finite true m e => (-1, - e, Z.neg m)
  | S754_zero _ => (0, 0, 0)
  | S754_finite false m e => (1, e, Z.pos m)
  | S754_infinity false => (2, 0, 0)
  end.
Definition key_lt (x y : Z * Z * Z) : Prop :=
  let '(a, b, c) := x in let '(a', b', c') := y in
  a < a' \/ (a = a' /\ (b < b' \/ (b = b' /\ c < c'))).

Lemma SFcompare_key x y :
  x <> S754_nan -> y <> S754_nan ->
  match SFcompare x y with
  | Some Lt => key_lt (float_key x) (float_key y)
  | Some Gt => key_lt (float_key y) (float_key x)
  | Some Eq => float_key x = float_key y
  | None => False
  end.
Proof.
  destruct x as [sx|[]| |[] mx ex], y as [sy|[]| |[] my ey]; intros Hx Hy; try (by destruct Hx); try (by destruct Hy); simpl;
    try reflexivity; try (left; lia);
    destruct (Z.compare_spec ex ey) as [->|He|He]; simpl; try (right; lia);
    change (Pos.compare_cont Eq mx my) with (Pos.compare mx my);
    destruct (Pos.compare_spec mx my) as [->|Hm|Hm]; simpl; try reflexivity; right; split; try reflexivity; right; lia.
Qed.

Lemma SFltb_key x y : x <> S754_nan -> y <> S754_nan -> SFltb x y = true <-> key_lt (float_key x) (float_key y).
Proof.
  intros Hx Hy. unfold SFltb. pose proof (SFcompare_key x y Hx Hy) as Hc.
  destruct (float_key x) as [[a b] c], (float_key y) as [[a' b'] c']. unfold key_lt in *.
  destruct (SFcompare x y) as [[]|]; split; intros; try done; try discriminate; try (injection Hc as -> -> ->); lia.
Qed.
Lemma SFeqb_key x y : x <> S754_nan -> y <> S754_nan -> SFeqb x y = true <-> float_key x = float_key y.
Proof.
  intros Hx Hy. unfold SFeqb. pose proof (SFcompare_key x y Hx Hy) as Hc.
  destruct (float_key x) as [[a b] c], (float_key y) as [[a' b'] c']. unfold key_lt in *.
  destruct (SFcompare x y) as [[]|]; split; intros; try done; try discriminate; simplify_eq; lia.
Qed.

(** A loop that keeps the first of the best, for a strict weak order [lt]. *)
Section Best.
Context {A : Type} (lt : A -> A -> bool).

Definition keep (best : option A) (x : A) : option A :=
  match best with None => Some x | Some b => if lt x b then Some x else best end.

(** [x] is the first of the best of [l]. *)
Definition first_best (l : list A) (x : A) : Prop :=
  exists i, l !! i = Some x /\
    forall j y, l !! j = Some y -> lt y x = false /\ ((j < i)%nat -> lt x y = true).

Lemma keep_first_best (ok : A -> Prop) l :
  (forall x, ok x -> lt x x = false) ->
  (forall x y z, ok x -> ok y -> ok z -> lt x y = true -> lt y z = true -> lt x z = true) ->
  (forall x y z, ok x -> ok y -> ok z -> lt x y = true -> lt z y = false -> lt x z = true) ->
  Forall ok l ->
  match fold_left keep l None with None => l = [] | Some x => first_best l x end.
Proof.
  intros Hirr Htr Hneg. induction l as [|x l IH] using rev_ind; intros Hok; [done|].
  apply Forall_app in Hok as [Hl Hx]. rewrite Forall_singleton in Hx. specialize (IH Hl).
  rewrite fold_left_app. simpl. destruct (fold_left keep l None) as [b|]; simpl.
  - destruct IH as (i & Hi & Hb). pose proof (Forall_lookup_1 _ _ _ _ Hl Hi) as Hokb.
    destruct (lt x b) eqn:E.
    + exists (length l). split; [by rewrite lookup_app_r, Nat.sub_diag by lia|].
      intros j y Hj. rewrite lookup_app in Hj. destruct (l !! j) as [y'|] eqn:Ej.
      * injection Hj as ->. pose proof (Forall_lookup_1 _ _ _ _ Hl Ej) as Hoky. destruct (Hb j y Ej) as [H1 _].
        assert (Hxy : lt x y = true) by (by apply (Hneg x b y)).
        split; [|done]. destruct (lt y x) eqn:E'; [|done]. by rewrite <- (Hirr x Hx), (Htr x y x).
      * apply list_lookup_singleton_Some in Hj as [Hj <-]. apply lookup_ge_None in Ej.
        split; [by apply Hirr|lia].
    + exists i. split; [by rewrite lookup_app, Hi|]. intros j y Hj. rewrite lookup_app in Hj.
      destruct (l !! j) as [y'|] eqn:Ej; [injection Hj as ->; by apply Hb|].
      apply list_lookup_singleton_Some in Hj as [Hj <-]. apply lookup_ge_None in Ej. apply lookup_lt_Some in Hi.
      split; [done|lia].
  - subst l. exists 0%nat. split; [done|]. intros j y Hj. destruct j; [|by destruct j]. simpl in Hj. injection Hj as ->.
    split; [by apply Hirr|lia].
Qed.
End Best.

(** The results the loop does not skip, each with its distance. *)
Definition candidates (Log : spec_float -> spec_float) (target : nzbTarget) (results : list NzbSearchResult)
    : list (NzbSearchResult * spec_float) :=
  omap (fun r => (fun d => (r, d)) <$> candidate Log target r) results.
Definition better (target : nzbTarget) (x y : NzbSearchResult * spec_float) : bool :=
  betterNzb (fst x) (snd x) (fst y) (snd y) (0 <? tSize target).

Lemma pick_loop_keep Log target results best :
  pick_loop Log target results best = fold_left (keep (better target)) (candidates Log target results) best.
Proof.
  revert best. induction results as [|r results IH]; intros best; [done|]. simpl. rewrite IH.
  destruct (candidate Log target r) as [d|]; simpl; [|done]. by destruct best as [[b bd]|].
Qed.

Lemma better_order target x y z :
  snd x <> S754_nan -> snd y <> S754_nan -> snd z <> S754_nan ->
  better target x x = false /\
  (better target x y = true -> better target y z = true -> better target x z = true) /\
  (better target x y = true -> better target z y = false -> better target x z = true).
Proof.
  destruct x as [x dx], y as [y dy], z as [z dz]. simpl. intros Hx Hy Hz.
  unfold better, betterNzb. simpl. destruct (0 <? tSize target).
  - assert (K : forall a b, a <> S754_nan -> b <> S754_nan -> forall (g h : Z),
      (if negb (SFeqb a b) then SFltb a b else g <? h) = true <->
      key_lt (float_key a) (float_key b) \/ (float_key a = float_key b /\ g < h)).
    { intros a b Ha Hb g h. pose proof (SFltb_key a b Ha Hb) as H1. pose proof (SFeqb_key a b Ha Hb) as H2.
      destruct (SFeqb a b); simpl.
      - destruct H2 as [H2 _]. specialize (H2 eq_refl). rewrite Z.ltb_lt, H2.
        destruct (float_key b) as [[? ?] ?]. unfold key_lt. split; [by right|]. intros [?|[_ ?]]; lia.
      - rewrite H1. split; [tauto|]. intros [?|[? _]]; [done|]. by apply H2 in H. }
    rewrite <- !not_true_iff_false, !K by done.
    destruct (float_key dx) as [[a b] c], (float_key dy) as [[a' b'] c'], (float_key dz) as [[a'' b''] c'']. unfold key_lt.
    rewrite !pair_eq. repeat split; lia.
  - destruct (Z.eqb_spec (rSize x) (rSize x)), (Z.eqb_spec (rSize x) (rSize y)), (Z.eqb_spec (rSize y) (rSize z)),
      (Z.eqb_spec (rSize x) (rSize z)), (Z.eqb_spec (rSize z) (rSize y)); simpl;
      rewrite <- ?not_true_iff_false, ?Z.ltb_lt; repeat split; intros; lia.
Qed.

(** What a result must have to stand in for the release. *)
Definition acceptable (Log : spec_float -> spec_float) (target : nzbTarget) (r : NzbSearchResult) : Prop :=
  (tResolution target = [] \/ nzbResolution r = tResolution target) /\
  (tSize target <= 0 \/
   0 < rSize r /\ SFltb (Log nzbMaxSizeRatio) (nzbDistance Log (rSize r) (tSize target)) = false).
(** Its distance, which counts only when the target's size is known. *)
Definition distance (Log : spec_float -> spec_float) (target : nzbTarget) (r : NzbSearchResult) : spec_float :=
  if 0 <? tSize target then nzbDistance Log (rSize r) (tSize target) else S754_zero false.

Lemma candidate_acceptable Log target r :
  (acceptable Log target r -> candidate Log target r = Some (distance Log target r)) /\
  (forall d, candidate Log target r = Some d -> acceptable Log target r /\ d = distance Log target r).
Proof.
  unfold acceptable, candidate, distance.
  set (res := bytes_eqb (tResolution target) [] || bytes_eqb (nzbResolution r) (tResolution target)).
  replace (negb (bytes_eqb (tResolution target) []) && negb (bytes_eqb (nzbResolution r) (tResolution target)))%bool
    with (negb res) by (subst res; by rewrite negb_orb).
  assert (Hres : (tResolution target = [] \/ nzbResolution r = tResolution target) <-> res = true)
    by (subst res; by rewrite orb_true_iff, !bytes_eqb_eq).
  rewrite Hres. destruct res; simpl; [|split; [by intros [? _]|done]].
  destruct (Z.ltb_spec 0 (tSize target)), (Z.leb_spec (rSize r) 0);
    destruct (SFltb (Log nzbMaxSizeRatio) _); (split; [intros [_ Hs]|intros d Hd]); simplify_eq; try done;
    try (destruct Hs as [?|[? ?]]; (done || lia)); (split; [split; [by apply Hres|]|done]); (by left) || (by right).
Qed.

Lemma candidates_elem Log target results r d :
  (r, d) ∈ candidates Log target results <-> r ∈ results /\ acceptable Log target r /\ d = distance Log target r.
Proof.
  unfold candidates. rewrite list_elem_of_omap. destruct (candidate_acceptable Log target r) as [H1 H2]. split.
  - intros (r' & Hr & Hd). apply fmap_Some in Hd as (d' & Hd & [= -> ->]). split; [done|]. by apply H2.
  - intros (Hr & Ha & ->). exists r. split; [done|]. by rewrite (H1 Ha).
Qed.

(** The picker returns a result only when it states the resolution and is near the
    size of the release, where these are known; it returns one whenever there is
    one; and the one it returns is a best (nearest in size, then most grabbed; or
    largest, then most grabbed, when no size is known), the first among equals. *)
Lemma pickNzb_spec Log results target :
  (forall a b, 0 < a -> 0 < b -> Log (SFdiv 53 1024 (f64_of_int a) (f64_of_int b)) <> S754_nan) ->
  match pickNzb Log results target with
  | None => forall r, r ∈ results -> ~ acceptable Log target r
  | Some r => r ∈ results /\ acceptable Log target r /\
      first_best (better target) (candidates Log target results) (r, distance Log target r)
  end.
Proof.
  intros HLog. unfold pickNzb. rewrite pick_loop_keep.
  assert (Hok : Forall (fun x => snd x <> S754_nan) (candidates Log target results)).
  { apply Forall_forall. intros [r d] Hx. apply candidates_elem in Hx as (_ & [_ Hs] & ->). simpl.
    unfold distance. case_if; [|done]. bprop. destruct Hs as [?|[Hr _]]; [lia|]. unfold nzbDistance.
    pose proof (HLog (rSize r) (tSize target) Hr ltac:(done)) as Hn. by destruct (Log _). }
  pose proof (keep_first_best (better target) _ _ (fun x H => proj1 (better_order target x x x H H H))
    (fun x y z Hx Hy Hz => proj1 (proj2 (better_order target x y z Hx Hy Hz)))
    (fun x y z Hx Hy Hz => proj2 (proj2 (better_order target x y z Hx Hy Hz))) Hok) as Hb.
  destruct (fold_left _ _ _) as [[r d]|]; simpl.
  - pose proof Hb as (i & Hi & _). apply list_elem_of_lookup_2, candidates_elem in Hi as (Hr & Ha & ->). done.
  - intros r Hr Ha. assert (Hx : (r, distance Log target r) ∈ candidates Log target results) by (by apply candidates_elem).
    rewrite Hb in Hx. by apply not_elem_of_nil in Hx.
Qed.

(** * The NZB kept for a resume *)

(** How a call of os.WriteFile ends: done, the file could not be opened, or only
    the first [n] bytes are in the file (an error, or a crash). *)
Inductive writeOutcome := WDone | WNotOpened | WPartial (n : nat).
(** The calls on the resume directory, and what they leave in it. *)
Inductive diskOp := ORemove (name : bytes) (ok : bool) | OWrite (name data : bytes) (w : writeOutcome).
Abbreviation resumeDir := (gmap (list Z) (list Z)).
Definition apply_op (dir : resumeDir) (op : diskOp) : resumeDir :=
  match op with
  | ORemove name ok => if ok then delete name dir else dir
  | OWrite name data WDone => <[name := data]> dir
  | OWrite name data WNotOpened => dir
  | OWrite name data (WPartial n) => <[name := take n data]> dir
  end.

Definition cachePath (taskID : bytes) : bytes := taskID ++ str ".nzb".
Definition idPath (taskID : bytes) : bytes := cachePath taskID ++ str ".id".

(** What the file system and the server answer to one call. *)
Record fetchEnv := mkFetchEnv {
  readIdOk : bool; readCacheOk : bool; served_nzb : option bytes; mkdirResumeOk : bool;
  removeIdOk : bool; writeCacheEnd : writeOutcome; writeIdEnd : writeOutcome
}.

(** The data and whether it came from the cache, [None] for an error of the server;
    and the operations in order. *)
Definition loadOrFetchNzb (dir : resumeDir) (taskID nzbID : bytes) (env : fetchEnv) : option (bytes * bool) * list diskOp :=
  let id := if readIdOk env then dir !! idPath taskID else None in
  let data := if readCacheOk env then dir !! cachePath taskID else None in
  match bool_decide ((TrimSpace <$> id) = Some nzbID), data with
  | true, Some data => (Some (data, true), [])
  | _, _ =>
      match served_nzb env with
      | None => (None, [])
      | Some data =>
          (Some (data, false),
           if negb (mkdirResumeOk env) then []
           else ORemove (idPath taskID) (removeIdOk env) :: OWrite (cachePath taskID) data (writeCacheEnd env) ::
                match writeCacheEnd env with
                | WDone => [OWrite (idPath taskID) nzbID (writeIdEnd env)]
                | _ => []
                end)
      end
  end.
Definition dropNzbCache (taskID : bytes) (removeId removeCache : bool) : list diskOp :=
  [ORemove (idPath taskID) removeId; ORemove (cachePath taskID) removeCache].

(** The operations that happened when the process dies during a call: some of the
    first ones, a write among them possibly cut short. *)
Inductive cut_short : list diskOp -> list diskOp -> Prop :=
| cut_all ops : cut_short ops ops
| cut_none ops : cut_short [] ops
| cut_write name data w n ops : cut_short [OWrite name data (WPartial n)] (OWrite name data w :: ops)
| cut_after op ops ops' : cut_short ops ops' -> cut_short (op :: ops) (op :: ops').

Section Trust.
(** The ids in use and what the server has sent for them.  No id is what another
    one looks like when only its beginning is written. *)
Context (ids : bytes -> Prop) (sent : bytes -> bytes -> Prop)
  (ids_distinct : forall id id' n, ids id -> ids id' -> TrimSpace (take n id) = id' -> id' = id).

(** A cache labelled with an id holds what the server sent for it. *)
Definition trusted (dir : resumeDir) : Prop :=
  forall taskID raw id data,
    dir !! idPath taskID = Some raw -> TrimSpace raw = id -> ids id -> dir !! cachePath taskID = Some data -> sent id data.

Lemma paths_differ t t' : idPath t <> cachePath t'.
Proof.
  unfold idPath, cachePath. intros H. apply (f_equal (@rev Z)) in H. rewrite !rev_app_distr in H. discriminate H.
Qed.
Lemma cachePath_inj t t' : cachePath t = cachePath t' -> t = t'.
Proof. apply app_inj_2. reflexivity. Qed.
Lemma idPath_inj t t' : idPath t = idPath t' -> t = t'.
Proof. intros H. apply cachePath_inj. revert H. by apply app_inj_2. Qed.

(** The label is gone or stands for data the server sent. *)
Definition consistent (dir : resumeDir) (ops : list diskOp) : Prop :=
  forall ops', cut_short ops' ops -> trusted (fold_left apply_op ops' dir).

Lemma trusted_unlabelled dir t : trusted dir -> trusted (delete (idPath t) dir).
Proof.
  intros Ht t' raw id data Hid Htrim Hids Hdata.
  destruct (decide (t = t')) as [->|Hne]; [by rewrite lookup_delete_eq in Hid|].
  rewrite lookup_delete_ne in Hid by (intros H%idPath_inj; done).
  rewrite lookup_delete_ne in Hdata by (apply paths_differ). by apply (Ht t' raw id data).
Qed.
Lemma trusted_write_cache dir t data : dir !! idPath t = None -> trusted dir -> trusted (<[cachePath t := data]> dir).
Proof.
  intros Hnone Ht t' raw id d Hid Htrim Hids Hd.
  rewrite lookup_insert_ne in Hid by (intros H; by apply (paths_differ t' t)).
  destruct (decide (t = t')) as [->|Hne]; [congruence|].
  rewrite lookup_insert_ne in Hd by (intros H%cachePath_inj; done). by apply (Ht t' raw id d).
Qed.
Lemma trusted_label dir t nzbID data n :
  ids nzbID -> sent nzbID data -> dir !! cachePath t = Some data -> trusted dir -> trusted (<[idPath t := take n nzbID]> dir).
Proof.
  intros Hin Hsent Hc Ht t' raw id d Hid Htrim Hids Hd.
  rewrite lookup_insert_ne in Hd by apply paths_differ.
  destruct (decide (t = t')) as [->|Hne].
  - rewrite lookup_insert_eq in Hid. injection Hid as <-. assert (id = nzbID) as -> by (by eapply ids_distinct).
    rewrite Hc in Hd. by injection Hd as <-.
  - rewrite lookup_insert_ne in Hid by (intros H%idPath_inj; done). by apply (Ht t' raw id d).
Qed.

Lemma trusted_drop_cache dir t : dir !! idPath t = None -> trusted dir -> trusted (delete (cachePath t) dir).
Proof.
  intros Hnone Ht t' raw id d Hid Htrim Hids Hd.
  rewrite lookup_delete_ne in Hid by (intros H; by apply (paths_differ t' t)).
  destruct (decide (t = t')) as [->|Hne]; [congruence|].
  rewrite lookup_delete_ne in Hd by (intros H%cachePath_inj; done). by apply (Ht t' raw id d).
Qed.

Lemma consistent_nil dir : trusted dir -> consistent dir [].
Proof. intros Ht ops' Hc. by inversion Hc. Qed.
Lemma consistent_cons dir op ops :
  trusted dir ->
  match op with OWrite name data _ => forall n, trusted (<[name := take n data]> dir) | ORemove _ _ => True end ->
  consistent (apply_op dir op) ops -> consistent dir (op :: ops).
Proof.
  intros Ht Hw Hc ops' Hcut. inversion Hcut as [|? |name data w n ?|? ops'' ? Hcut']; subst; simpl.
  - apply Hc. constructor.
  - done.
  - apply Hw.
  - by apply Hc.
Qed.

(** What loadOrFetchNzb and dropNzbCache do, cut anywhere, keeps the caches right,
    and the data returned is what the server sent for the id. *)
Lemma loadOrFetch_trusted dir taskID nzbID env :
  trusted dir -> ids nzbID -> (forall data, served_nzb env = Some data -> sent nzbID data) -> removeIdOk env = true ->
  consistent dir (snd (loadOrFetchNzb dir taskID nzbID env)) /\
  (forall data c, fst (loadOrFetchNzb dir taskID nzbID env) = Some (data, c) -> sent nzbID data).
Proof.
  intros Ht Hin Hserved Hrm. unfold loadOrFetchNzb. rewrite Hrm.
  destruct (bool_decide_reflect ((TrimSpace <$> (if readIdOk env then dir !! idPath taskID else None)) = Some nzbID)) as [Hid|Hid];
    destruct (if readCacheOk env then dir !! cachePath taskID else None) as [d|] eqn:Hd; simpl.
  1: { split; [by apply consistent_nil|]. intros data c [= <- <-].
       destruct (readIdOk env); [|done]. destruct (readCacheOk env); [|done].
       apply fmap_Some in Hid as (raw & Hraw & Htrim). by apply (Ht taskID raw). }
  all: destruct (served_nzb env) as [data|]; simpl; [|split; [by apply consistent_nil|done]].
  all: split; [|intros data' c [= <- <-]; by apply Hserved].
  all: destruct (mkdirResumeOk env); simpl; [|by apply consistent_nil].
  all: pose proof (trusted_unlabelled dir taskID Ht) as Ht1.
  all: assert (Hnone : delete (idPath taskID) dir !! idPath taskID = None) by apply lookup_delete_eq.
  all: apply consistent_cons; [done..|]; simpl; apply consistent_cons; [done|intros n; by apply trusted_write_cache|].
  all: destruct (writeCacheEnd env); simpl; try (apply consistent_nil; (done || by apply trusted_write_cache)).
  all: assert (Ht2 : trusted (<[cachePath taskID := data]> (delete (idPath taskID) dir))) by (by apply trusted_write_cache).
  all: assert (Hlab : forall n, trusted (<[idPath taskID := take n nzbID]> (<[cachePath taskID := data]> (delete (idPath taskID) dir))))
      by (intros n; apply (trusted_label _ _ _ data); [done|by apply Hserved|apply lookup_insert_eq|done]).
  all: apply consistent_cons; [done|done|apply consistent_nil]; destruct (writeIdEnd env); simpl; [|done|done].
  all: rewrite <- (firstn_all nzbID) at 1; apply Hlab.
Qed.

Lemma dropNzbCache_trusted dir taskID b : trusted dir -> consistent dir (dropNzbCache taskID true b).
Proof.
  intros Ht. pose proof (trusted_unlabelled dir taskID Ht) as Ht1.
  assert (Hnone : delete (idPath taskID) dir !! idPath taskID = None) by apply lookup_delete_eq.
  apply consistent_cons; [done..|]. simpl. apply consistent_cons; [done..|]. apply consistent_nil. simpl.
  destruct b; [by apply trusted_drop_cache|done].
Qed.
End Trust.

Section Cached.
Context (ids : bytes -> Prop) (sent : bytes -> bytes -> Prop).

(** A call on the resume directory that ends, or that a crash cuts short. *)
Inductive cache_step (dir : resumeDir) : resumeDir -> Prop :=
| step_load taskID nzbID env ops :
    ids nzbID -> (forall data, served_nzb env = Some data -> sent nzbID data) -> removeIdOk env = true ->
    cut_short ops (snd (loadOrFetchNzb dir taskID nzbID env)) ->
    cache_step dir (fold_left apply_op ops dir)
| step_drop taskID b ops :
    cut_short ops (dropNzbCache taskID true b) -> cache_step dir (fold_left apply_op ops dir).

Lemma cache_steps_trusted dir :
  (forall id id' n, ids id -> ids id' -> TrimSpace (take n id) = id' -> id' = id) ->
  rtc cache_step ∅ dir -> trusted ids sent dir.
Proof.
  intros Hids Hr. assert (H0 : trusted ids sent ∅) by (intros t raw id data H; by rewrite lookup_empty in H).
  revert H0. induction Hr as [|d1 d2 d3 Hs _ IH]; [done|]. intros Ht. apply IH. clear IH.
  destruct Hs as [t id env ops Hid Hs Hrm Hc|t b ops Hc].
  - by apply (proj1 (loadOrFetch_trusted ids sent Hids d1 t id env Ht Hid Hs Hrm)).
  - by apply (dropNzbCache_trusted ids sent d1 t b Ht).
Qed.
End Cached.

(** Whatever calls happened before, ended or cut short by a crash at any point,
    the NZB that loadOrFetchNzb takes from the resume cache for an id is one the
    server sent for that id: the label is removed before the cache is rewritten and
    written after it.  The removal of a label that exists must succeed, and no id
    may be a beginning of another. *)
Lemma cached_nzb_is_the_asked_one ids sent dir taskID nzbID env data ops :
  (forall id id' n, ids id -> ids id' -> TrimSpace (take n id) = id' -> id' = id) ->
  rtc (cache_step ids sent) ∅ dir -> ids nzbID ->
  loadOrFetchNzb dir taskID nzbID env = (Some (data, true), ops) ->
  sent nzbID data /\ ops = [].
Proof.
  intros Hids Hr Hid He. pose proof (cache_steps_trusted ids sent dir Hids Hr) as Ht. unfold loadOrFetchNzb in He.
  destruct (bool_decide_reflect ((TrimSpace <$> (if readIdOk env then dir !! idPath taskID else None)) = Some nzbID)) as [Hraw|_];
    [|by destruct (served_nzb env)].
  destruct (if readCacheOk env then dir !! cachePath taskID else None) as [d|] eqn:Hd; [|by destruct (served_nzb env)].
  injection He as <- <-. split; [|done]. destruct (readIdOk env); [|done]. destruct (readCacheOk env); [|done].
  apply fmap_Some in Hraw as (raw & Hraw & Htrim). by apply (Ht taskID raw).
Qed.

(** * Folders and disk space *)

Definition sanitizeDir (name : bytes) : bytes :=
  match name with
  | [] => str "usenet_download"
  | _ => take 200 (fold_left (fun s c => replace_byte c 95 s) invalid_path_chars name)
  end.

(** [lexists] answers Lstat, [isDir] a Stat that finds a directory. *)
Definition usenetTaskDir (lexists isDir : bytes -> bool) (outputDir title shortID : bytes) : bytes :=
  let dir := Join outputDir (sanitizeDir title) in
  if negb (lexists dir) then dir
  else if isDir dir then dir
  else dir ++ str " (" ++ shortID ++ str ")".

(** [notDir]: the error is ENOTDIR. *)
Definition isNameClash (notDir : bool) (isDir : bytes -> bool) (outputDir : bytes) : bool :=
  if negb notDir then false else isDir outputDir.

Record InsufficientDisk := mkInsufficient { idNeed : Z; idFree : Z; idReserve : Z }.
(** [free] is what DiskInfo answers, [None] for an error. *)
Definition CheckDiskSpace (free : option Z) (needBytes reserveBytes : Z) : option InsufficientDisk :=
  if needBytes <=? 0 then None
  else match free with
       | None => None
       | Some free =>
           if free <=? 0 then None
           else if wrap_i64 (free - needBytes) <? reserveBytes then Some (mkInsufficient needBytes free reserveBytes)
           else None
       end.

(** [foldEq] is strings.EqualFold; [statFile] a Stat that finds no directory,
    [exists_] one that finds anything, [renames] whether the rename works.  The
    result is the path, and the rename if one happened. *)
Definition maybeDeobfuscate (foldEq : bytes -> bytes -> bool) (statFile exists_ : bytes -> bool) (renames : bool)
    (path releaseTitle taskTitle : bytes) : bytes * option (bytes * bytes) :=
  if negb (statFile path) then (path, None)
  else
    let base := Base path in
    if negb (IsObfuscatedName base) then (path, None)
    else
      let title := match releaseTitle with [] => taskTitle | _ => releaseTitle end in
      let ext := Ext base in
      let title := if foldEq (Ext title) ext then default title (cut_suffix (Ext title) title) else title in
      let title := sanitizeDir title in
      if bytes_eqb title [] || bytes_eqb title (str "usenet_download") then (path, None)
      else
        let newPath := Join (Dir path) (title ++ ext) in
        if bytes_eqb newPath path then (path, None)
        else if exists_ newPath then (path, None)
        else if renames then (newPath, Some (path, newPath)) else (path, None).

(** The replacements act on each byte. *)
Lemma replace_all_map cs l :
  fold_left (fun s c => replace_byte c 95 s) cs l = map (fun b => fold_left (fun b c => if b =? c then 95 else b) cs b) l.
Proof.
  revert l. induction cs as [|x cs IH]; intros l; [by rewrite map_id|]. simpl. rewrite IH. unfold replace_byte. by rewrite map_map.
Qed.
Lemma replace_all_length cs l : length (fold_left (fun s c => replace_byte c 95 s) cs l) = length l.
Proof. by rewrite replace_all_map, length_map. Qed.
Lemma replaced_dot cs b : fold_left (fun b c => if b =? c then 95 else b) cs b = DOT -> b = DOT.
Proof. revert b. induction cs as [|x cs IH]; intros b H; [done|]. simpl in H. apply IH in H. by destruct (b =? x). Qed.

Lemma sanitizeDir_free name : SLASH ∉ sanitizeDir name.
Proof.
  destruct name as [|c name]; [apply (bool_decide_unpack _); vm_compute; exact I|].
  intros (i & Hs & _)%elem_of_take. apply list_elem_of_lookup_2 in Hs.
  apply replace_fold_elem in Hs as [H|[_ H]]; [discriminate H|]. apply H. constructor.
Qed.
Lemma sanitizeDir_nonempty name : sanitizeDir name <> [].
Proof.
  destruct name as [|c name]; [done|]. unfold sanitizeDir.
  intros Hn. apply (f_equal length) in Hn. rewrite length_take, replace_all_length in Hn. simpl in Hn. lia.
Qed.
(** Only these two titles keep their name. *)
Lemma sanitizeDir_dots name d : d = str "." \/ d = str ".." -> sanitizeDir name = d -> name = d.
Proof.
  intros Hd. destruct name as [|c name]; [by destruct Hd as [->| ->]|]. unfold sanitizeDir. intros Hs.
  assert (Hl : (length (c :: name) <= 2)%nat).
  { apply (f_equal length) in Hs. rewrite length_take, replace_all_length in Hs. destruct Hd as [->| ->];
      [change (length (str ".")) with 1%nat in Hs|change (length (str "..")) with 2%nat in Hs]; lia. }
  rewrite take_ge in Hs by (rewrite replace_all_length; lia). rewrite replace_all_map in Hs. destruct Hd as [->| ->].
  - destruct name as [|c' name]; [|done]. injection Hs as Hs. by apply (replaced_dot invalid_path_chars c) in Hs as ->.
  - destruct name as [|c' [|? ?]]; [done| |done]. injection Hs as Hs1 Hs2.
    by apply (replaced_dot invalid_path_chars c) in Hs1 as ->; apply (replaced_dot invalid_path_chars c') in Hs2 as ->.
Qed.

(** Joining one element below an absolute folder. *)
Lemma Join_elem out e : Forall plain_elem out -> SLASH ∉ e ->
  Join (render out) e = render (rev (clean_push true (rev out) e)).
Proof.
  intros Hout He. unfold Join. change (render out) with (SLASH :: join_slash out).
  change (Clean ((SLASH :: join_slash out) ++ SLASH :: e)) with (render (elems_of (render out ++ SLASH :: e))). f_equal.
  unfold elems_of, clean_elems. change (is_abs (render out ++ SLASH :: e)) with true.
  rewrite split_slash_app, (split_slash_elem e) by done. f_equal. rewrite fold_left_app. cbn [fold_left].
  f_equal. rewrite <- (rev_involutive (fold_left _ _ [])). f_equal. by apply elems_render.
Qed.

(** A usenet release is assembled in a folder of its own directly below the
    download folder, whatever the title, unless the title is a dot or two dots;
    with those the folder is the download folder itself or its parent, which a
    Cancel then removes. *)
Lemma task_folder_below_output lexists isDir out title shortID :
  Forall plain_elem out -> SLASH ∉ shortID ->
  let dir := usenetTaskDir lexists isDir (render out) title shortID in
  (title <> str "." -> title <> str ".." -> exists e, plain_elem e /\ dir = render (out ++ [e])) /\
  (isDir (render out) = true -> title = str "." -> dir = render out) /\
  (isDir (render (removelast out)) = true -> title = str ".." -> dir = render (removelast out)).
Proof.
  intros Hout Hid. unfold usenetTaskDir. rewrite Join_elem by (done || apply sanitizeDir_free). split_and!.
  - intros H1 H2. set (e := sanitizeDir title).
    assert (He : plain_elem e).
    { split_and!; [apply sanitizeDir_nonempty| | |apply sanitizeDir_free]; intros H;
        apply sanitizeDir_dots in H; auto. }
    replace (clean_push true (rev out) e) with (rev (out ++ [e])).
    2: { rewrite rev_app_distr. pose proof (push_through [e] (rev out) ltac:(by constructor)) as Hp. by simpl in *. }
    rewrite rev_involutive. case_if; [by exists e|]. case_if; [by exists e|].
    exists (e ++ str " (" ++ shortID ++ str ")"). split.
    + destruct He as (Hn & _ & _ & Hs). split_and!.
      * destruct e; [done|done].
      * destruct e as [|? [|? ?]]; done.
      * destruct e as [|? [|? [|? ?]]]; done.
      * rewrite !elem_of_app. intros [?|[H|[?|H]]]; [done| |done|]; revert H; apply (bool_decide_unpack _); vm_compute; exact I.
    + destruct out as [|x out]; [done|]. rewrite !render_snoc by done. by rewrite <- app_assoc.
  - intros Hd ->. change (clean_push true (rev out) (sanitizeDir (str "."))) with (rev out). rewrite rev_involutive, Hd.
    by case_if.
  - intros Hd ->. change (sanitizeDir (str "..")) with (str "..").
    assert (Hp : rev (clean_push true (rev out) (str "..")) = removelast out).
    { destruct out as [|x out _] using rev_ind; [done|]. rewrite rev_app_distr, removelast_last. cbn [rev app].
      apply Forall_app in Hout as [_ Hx]. rewrite Forall_singleton in Hx. destruct Hx as (_ & _ & Hx & _).
      unfold clean_push. change (bytes_eqb (str "..") [] || bytes_eqb (str "..") (str "."))%bool with false.
      rewrite bytes_eqb_refl. destruct (bytes_eqb x (str "..")) eqn:E; [apply bytes_eqb_eq in E; done|]. apply rev_involutive. }
    rewrite Hp, Hd. by case_if.
Qed.

(** * The theorems at concrete inputs *)

(** A stand-in for math.Log that is a number everywhere. *)
Definition demo_log (x : spec_float) : spec_float := match x with S754_nan => S754_zero false | _ => x end.
Definition demo_results : list NzbSearchResult :=
  [mkNzbResult (str "Film.2160p.REMUX") (str "a") 60000 9 [];
   mkNzbResult (str "Film.1080p.x264") (str "b") 2500 1 [];
   mkNzbResult (str "Film.1080p.x265") (str "c") 1600 5 (str "1080P");
   mkNzbResult (str "Film") (str "d") 1500 7 []].
Lemma pickNzb_spec_witness :
  let target := mkTarget (str "1080p") 1500 in
  rNzbID <$> pickNzb demo_log demo_results target = Some (str "c") /\
  match pickNzb demo_log demo_results target with
  | None => forall r, r ∈ demo_results -> ~ acceptable demo_log target r
  | Some r => r ∈ demo_results /\ acceptable demo_log target r /\
      first_best (better target) (candidates demo_log target demo_results) (r, distance demo_log target r)
  end.
Proof.
  split; [vm_compute; reflexivity|]. apply (pickNzb_spec demo_log demo_results (mkTarget (str "1080p") 1500)).
  intros a b _ _. by destruct (SFdiv _ _ _ _).
Defined.

(** The id is written only in part, then the cache is read. *)
Definition demo_env (data : bytes) (w : writeOutcome) : fetchEnv := mkFetchEnv true true (Some data) true true WDone w.
Definition demo_ids (id : bytes) : Prop := id = str "17" \/ id = str "25".
Definition demo_sent (id data : bytes) : Prop := (id = str "17" /\ data = str "A") \/ (id = str "25" /\ data = str "B").
Lemma cached_nzb_is_the_asked_one_witness : demo_sent (str "25") (str "B") /\ @nil diskOp = [].
Proof.
  apply (cached_nzb_is_the_asked_one demo_ids demo_sent
    (fold_left apply_op (snd (loadOrFetchNzb {[ cachePath (str "t") := str "A"; idPath (str "t") := str "1" ]} (str "t") (str "25")
                                (demo_env (str "B") WDone)))
       {[ cachePath (str "t") := str "A"; idPath (str "t") := str "1" ]}) (str "t") (str "25") (demo_env [] WDone)).
  - intros id id' n [->| ->] [->| ->]; try done; destruct n as [|[|[|n]]]; vm_compute; discriminate.
  - apply (rtc_l _ _ (fold_left apply_op [ORemove (idPath (str "t")) true; OWrite (cachePath (str "t")) (str "A") WDone;
                                          OWrite (idPath (str "t")) (str "17") (WPartial 1)] ∅)).
    + apply (step_load _ _ _ (str "t") (str "17") (demo_env (str "A") WDone)); [by left| |done|].
      * intros data [= <-]. by left.
      * vm_compute. repeat constructor.
    + eapply rtc_l; [|apply rtc_refl].
      apply (step_load _ _ _ (str "t") (str "25") (demo_env (str "B") WDone)); [by right| |done|].
      * intros data [= <-]. by right.
      * vm_compute. repeat constructor.
  - by right.
  - vm_compute. reflexivity.
Defined.

Lemma task_folder_below_output_witness :
  let dir := usenetTaskDir (fun _ => true) (fun _ => false) (render [str "m"; str "dl"]) (str "Film: a/b.mp4") (str "12345678") in
  dir = str "/m/dl/Film_ a_b.mp4 (12345678)" /\ exists e, plain_elem e /\ dir = render [str "m"; str "dl"; e].
Proof.
  split; [vm_compute; reflexivity|].
  refine (proj1 (task_folder_below_output (fun _ => true) (fun _ => false) [str "m"; str "dl"] (str "Film: a/b.mp4") (str "12345678") _ _)
            ltac:(done) ltac:(done)).
  - repeat constructor; try done; by apply (bool_decide_unpack _); vm_compute.
  - by apply (bool_decide_unpack _); vm_compute.
Defined.
