(* ===== verification/UsenetJob.v ===== *)
(** The usenet downloader of the engine: internal/engine/usenet.go and the stream
    set-up of usenet_stream.go that shares its state.

    The web API, the file system and the connection pool are answers in the world of
    each call; the NZB parser, the progress tracker, the segment downloader and the
    post-processing are the models of their own files. *)
From Stdlib Require Import ZArith Lia Ascii String.
From Stdlib.Floats Require Import SpecFloat.
From stdpp Require Import prelude list strings sorting gmap.
From S2P Require Import Prelude GoStrings Yenc Nzb NntpWire Progress Downloader DownloadFile DownloadNzb SafePath Archives PostProcess NzbPick.

Open Scope Z_scope.

(** * State *)

Record UsenetCredentials := mkCreds {
  cHost : bytes; cPort : Z; cSSL : bool; cTLSServerName : bytes; cUsername : bytes; cPassword : bytes; cMaxConnections : Z
}.
#[export] Instance creds_eq_dec : EqDecision UsenetCredentials.
Proof. solve_decision. Defined.
Definition zeroCreds : UsenetCredentials := mkCreds [] 0 false [] [] [] 0.

(** The configuration a client is built with. *)
Record Config := mkConfig { cfgCreds : UsenetCredentials; cfgMaxConnections : Z }.

(** [activeDownload]: the folder, once made, and the task's tracker with it. *)
Record activeDownload := mkActive { adCancelled : bool; adTaskDir : option bytes }.

(** [clients] are the clients made so far and whether each was closed: a pointer to
    a client is its position. *)
Record UsenetDownloader := mkUD {
  enabled : bool; nntpClient : option nat; nntpCreds : UsenetCredentials;
  active : gmap (list Z) activeDownload;
  credentials : option UsenetCredentials; credExpiry : Z;
  nzbCache : gmap (list Z) NzbSearchResult;
  minFreeBytes : Z; preferredQuality : bytes;
  clients : list (Config * bool)
}.
Definition NewUsenetDownloader (minFree : Z) (quality : bytes) : UsenetDownloader :=
  mkUD true None zeroCreds ∅ None 0 ∅ minFree (normalizeResolution quality) [].

Definition set_credentials (u : UsenetDownloader) (c : option UsenetCredentials) (expiry : Z) : UsenetDownloader :=
  mkUD (enabled u) (nntpClient u) (nntpCreds u) (active u) c expiry (nzbCache u) (minFreeBytes u) (preferredQuality u) (clients u).
Definition set_nzbCache (u : UsenetDownloader) (m : gmap (list Z) NzbSearchResult) : UsenetDownloader :=
  mkUD (enabled u) (nntpClient u) (nntpCreds u) (active u) (credentials u) (credExpiry u) m (minFreeBytes u) (preferredQuality u) (clients u).
Definition set_active (u : UsenetDownloader) (m : gmap (list Z) activeDownload) : UsenetDownloader :=
  mkUD (enabled u) (nntpClient u) (nntpCreds u) m (credentials u) (credExpiry u) (nzbCache u) (minFreeBytes u) (preferredQuality u) (clients u).
Definition set_enabled (u : UsenetDownloader) (b : bool) : UsenetDownloader :=
  mkUD b (nntpClient u) (nntpCreds u) (active u) (credentials u) (credExpiry u) (nzbCache u) (minFreeBytes u) (preferredQuality u) (clients u).
Definition set_client (u : UsenetDownloader) (c : option nat) (creds : UsenetCredentials) (cs : list (Config * bool)) : UsenetDownloader :=
  mkUD (enabled u) c creds (active u) (credentials u) (credExpiry u) (nzbCache u) (minFreeBytes u) (preferredQuality u) cs.
Definition close_client (cs : list (Config * bool)) (c : nat) : list (Config * bool) := alter (fun x => (fst x, true)) c cs.

(** * Credentials and the shared connection pool *)

Definition credentialsTTL : Z := 5 * 60 * 1000000000.

(** [api] is the answer of GetUsenetCredentials, [None] an error. *)
Definition fetchCredentialsLocked (u : UsenetDownloader) (api : option UsenetCredentials) (now : Z)
    : option UsenetCredentials * UsenetDownloader :=
  match api with
  | None => (None, u)
  | Some c => (Some c, set_credentials u (Some c) (now + credentialsTTL))
  end.
(** [now] at the check, [later] at the fetch. *)
Definition getCredentials (u : UsenetDownloader) (api : option UsenetCredentials) (now later : Z)
    : option UsenetCredentials * UsenetDownloader :=
  match credentials u with
  | Some c => if now <? credExpiry u then (Some c, u) else fetchCredentialsLocked u api later
  | None => fetchCredentialsLocked u api later
  end.

(** The end of getOrCreateNNTP: a client is made and connects or not. *)
Definition newNNTP (u : UsenetDownloader) (creds : UsenetCredentials) (connects : bool) : option nat * UsenetDownloader :=
  let maxConns := if cMaxConnections creds <=? 0 then 10 else cMaxConnections creds in
  let c := length (clients u) in
  let cs := clients u ++ [(mkConfig creds maxConns, negb connects)] in
  if connects then (Some c, set_client u (Some c) creds cs)
  else (None, set_client (set_credentials u None (credExpiry u)) (nntpClient u) (nntpCreds u) cs).
(** [live] is ActiveConnections of the client there is. *)
Definition getOrCreateNNTP (u : UsenetDownloader) (creds : UsenetCredentials) (live : Z) (api : option UsenetCredentials)
    (now : Z) (connects : bool) : option nat * UsenetDownloader :=
  match nntpClient u with
  | Some c =>
      if 0 <? live then (Some c, u)
      else
        match fetchCredentialsLocked u api now with
        | (None, u1) => (Some c, u1)
        | (Some fresh, u1) =>
            if bool_decide (fresh = nntpCreds u1) then (Some c, u1)
            else newNNTP (set_client u1 None (nntpCreds u1) (close_client (clients u1) c)) fresh connects
        end
  | None => newNNTP u creds connects
  end.

(** The world of streamFetcher and of steps 4 of Download. *)
Record poolEnv := mkPoolEnv {
  api1 : option UsenetCredentials; now1 : Z; later1 : Z; liveConns : Z; api2 : option UsenetCredentials; now2 : Z; connects : bool
}.
Inductive poolErr := NoCredentials | NoConnection.
Definition streamFetcher (u : UsenetDownloader) (env : poolEnv) : result poolErr nat * UsenetDownloader :=
  match getCredentials u (api1 env) (now1 env) (later1 env) with
  | (None, u1) => (Err NoCredentials, u1)
  | (Some creds, u1) =>
      match getOrCreateNNTP u1 creds (liveConns env) (api2 env) (now2 env) (connects env) with
      | (None, u2) => (Err NoConnection, u2)
      | (Some c, u2) => (Ok c, u2)
      end
  end.

(** Shutdown cancels every download, and closes the pool. *)
Definition Shutdown (u : UsenetDownloader) : UsenetDownloader :=
  let u1 := set_active u ∅ in
  match nntpClient u1 with
  | Some c => set_client u1 None (nntpCreds u1) (close_client (clients u1) c)
  | None => u1
  end.

(** * Pause and Cancel *)

Definition Pause (u : UsenetDownloader) (taskID : bytes) : UsenetDownloader :=
  set_active u (alter (fun a => mkActive true (adTaskDir a)) taskID (active u)).
(** The folder a Cancel removes with the progress file, if the task has one. *)
Definition Cancel (u : UsenetDownloader) (taskID : bytes) : UsenetDownloader * option bytes :=
  match active u !! taskID with
  | None => (u, None)
  | Some a => (Pause u taskID, adTaskDir a)
  end.

(** * Finding the NZB *)

Section Search.
Context (Log : spec_float -> spec_float).

Inductive searchErr := SearchFailed | NoMatchingNzb (found : nat).
(** [resp] is the answer of SearchNzbs, [None] an error. *)
Definition searchBestNzb (u : UsenetDownloader) (task : nzbTask) (resp : option (list NzbSearchResult))
    : result searchErr (option NzbSearchResult) :=
  match resp with
  | None => Err SearchFailed
  | Some results =>
      match pickNzb Log results (nzbTargetFor task (preferredQuality u)) with
      | Some r => Ok (Some r)
      | None => match results with [] => Ok None | _ => Err (NoMatchingNzb (length results)) end
      end
  end.

(** The answer, whether the reason goes to the task, and the state. *)
Definition Available (u : UsenetDownloader) (task : nzbTask) (resp : option (list NzbSearchResult))
    : bool * option searchErr * UsenetDownloader :=
  if negb (enabled u) then (false, None, u)
  else if bytes_eqb (ntIMDbID task) [] && bytes_eqb (ntTitle task) [] then (false, None, u)
  else if negb (bytes_eqb (ntNzbID task) []) then (true, None, u)
  else
    match searchBestNzb u task resp with
    | Err (NoMatchingNzb k) => (false, Some (NoMatchingNzb k), u)
    | Err SearchFailed => (false, None, u)
    | Ok None => (false, None, u)
    | Ok (Some r) => (true, None, set_nzbCache u (<[ntID task := r]> (nzbCache u)))
    end.

Inductive resolveNzbErr := RSearch (e : searchErr) | RNoNzb.
Definition resolveNzbID (u : UsenetDownloader) (task : nzbTask) (resp : option (list NzbSearchResult))
    : result resolveNzbErr (bytes * bytes) * UsenetDownloader :=
  if negb (bytes_eqb (ntNzbID task) []) then (Ok (ntNzbID task, ntTitle task), u)
  else
    match nzbCache u !! ntID task with
    | Some r => (Ok (rNzbID r, rTitle r), set_nzbCache u (delete (ntID task) (nzbCache u)))
    | None =>
        match searchBestNzb u task resp with
        | Err e => (Err (RSearch e), u)
        | Ok None => (Err RNoNzb, u)
        | Ok (Some r) => (Ok (rNzbID r, rTitle r), u)
        end
    end.
End Search.

(** * What a failed verification invalidates *)

Definition reset_where (sel : File -> bool) (fs : list File) (p : ProgressTracker) : ProgressTracker :=
  fold_left (fun p x => if sel (snd x) then ResetFile p (Z.of_nat (fst x)) else p) (imap pair fs) p.
(** strings.EqualFold with ".par2" is a comparison in lower case: no other rune
    folds with one of its letters. *)
Definition resetAllContent (p : ProgressTracker) (n : NZB) : ProgressTracker :=
  reset_where (fun f => negb (is_par2 f)) (nFiles n) p.

Section Invalidate.
(** [lower] is strings.ToLower on any text. *)
Context (lower : bytes -> bytes).

Definition named (damaged : list bytes) (f : File) : bool :=
  existsb (bytes_eqb (lower (Base (Filename f)))) (map (fun name => lower (Base name)) damaged).
(** The tracker before its flush. *)
Definition invalidated (p : ProgressTracker) (n : NZB) (damaged : list bytes) : ProgressTracker :=
  let hit := length (List.filter (named damaged) (nFiles n)) in
  if (0 <? hit)%nat then reset_where (named damaged) (nFiles n) p else resetAllContent p n.
Definition invalidateDamaged (p : ProgressTracker) (n : NZB) (damaged : list bytes) (disk : option bytes) (now : Z) (io : io_result)
    : option bytes * ProgressTracker :=
  Flush (invalidated p n damaged) disk now io.
End Invalidate.

(** * Download *)

Inductive jobErr :=
| JResolve (e : resolveNzbErr) | JFetchNzb | JParse | JDisk (d : InsufficientDisk)
| JPool (e : poolErr) | JNameClash | JStorageMkdir | JNntp (e : dlErr)
| JPassword | JPostProcess | JCorrupt (why : note) | JStorageFlush | JEmpty.

(** What stays between attempts at a task: the downloader's state, the resume
    directory, the progress file and the folder of the release. *)
Record jobState := mkJob { js_u : UsenetDownloader; js_resume : resumeDir; js_progress : option bytes; js_fs : outputDir }.

(** The answers of the rest of the world to one call of Download. *)
Record jobEnv := mkJobEnv {
  je_search : option (list NzbSearchResult); je_fetch1 : fetchEnv; je_fetch2 : fetchEnv; je_dropId : bool; je_dropCache : bool;
  je_start : Z; je_free : option Z; je_pool : poolEnv;
  je_lexists : bytes -> bool; je_isDir : bytes -> bool;
  je_mkdir : option bool;                       (* MkdirAll: an error, and whether it is ENOTDIR *)
  je_elsewhere : bytes -> bool; je_runs : nat -> bool * fileRun;
  je_index : fileRun; je_volumes : nat -> fileRun;
  je_verify1 : option par2Err; je_verify2 : option par2Err; je_repair : option par2Err;
  je_proc : procEnv; je_listing : listing; je_after : outputDir -> outputDir;   (* what post-processing leaves of the folder *)
  je_statFile : bytes -> bool; je_exists : bytes -> bool; je_renames : bool;
  je_synced : bool; je_size : option Z;         (* of the file, or of the files below the folder *)
  je_invalidateAt : Z; je_invalidateIO : io_result; je_exitAt : Z; je_exitIO : io_result; je_removed : bool
}.

Section Job.
Context `{GoSort Segment} `{GoSort (list Z * list Z)}.
Context (sha256 lower : bytes -> bytes) (foldEq : bytes -> bytes -> bool) (Log : spec_float -> spec_float)
  (decodeXML : bytes -> option xmlNZB).

Definition ParseBytes (data : bytes) : option NZB :=
  match decodeXML data with
  | None => None
  | Some raw => match Parse raw with Ok n => Some n | Err _ => None end
  end.

(** Steps 2 and 3: the NZB, fetched once more when the cached one does not parse. *)
Definition load_nzb (dir : resumeDir) (taskID nzbID : bytes) (env : jobEnv) : result jobErr NZB * resumeDir :=
  let '(r1, ops1) := loadOrFetchNzb dir taskID nzbID (je_fetch1 env) in
  let dir1 := fold_left apply_op ops1 dir in
  match r1 with
  | None => (Err JFetchNzb, dir1)
  | Some (data, fromCache) =>
      match ParseBytes data with
      | Some n => (Ok n, dir1)
      | None =>
          if negb fromCache then (Err JParse, dir1)
          else
            let dir2 := fold_left apply_op (dropNzbCache taskID (je_dropId env) (je_dropCache env)) dir1 in
            let '(r2, ops2) := loadOrFetchNzb dir2 taskID nzbID (je_fetch2 env) in
            let dir3 := fold_left apply_op ops2 dir2 in
            match r2 with
            | None => (Err JFetchNzb, dir3)
            | Some (data2, _) => match ParseBytes data2 with Some n => (Ok n, dir3) | None => (Err JParse, dir3) end
            end
      end
  end.

(** The parity index next to the content; a failure leaves the files as they are. *)
Definition downloadPar2Index (n : NZB) (files : filesMap) (fs : outputDir) (run : fileRun) : option (filesMap * outputDir) :=
  match Par2IndexFile n with
  | None => Some (files, fs)
  | Some idx =>
      match DownloadPar2Files [idx] fs (fun _ => run) with
      | None => None
      | Some (Err _, fs') => Some (files, fs')
      | Some (Ok m, fs') => Some (m ∪ files, fs')
      end
  end.

(** FetchParity: the recovery volumes. *)
Definition FetchParity (n : NZB) (fs : outputDir) (runs : nat -> fileRun) : option (list (bytes * bytes)) :=
  match Par2VolumeFiles n with
  | [] => None
  | vols =>
      match DownloadPar2Files vols fs runs with
      | Some (Ok m, _) => Some (map_to_list m)
      | _ => None
      end
  end.

Definition job_par2 (n : NZB) (fs : outputDir) (env : jobEnv) : par2Env :=
  mkPar2Env (je_verify1 env) (je_verify2 env) (je_repair env) (Some (FetchParity n fs (je_volumes env))).
Definition job_proc (n : NZB) (fs : outputDir) (env : jobEnv) : procEnv :=
  mkProcEnv (job_par2 n fs env) (statAtVerify (je_proc env)) (statAfter (je_proc env)) (order (je_proc env))
    (protected (je_proc env)) (extract (je_proc env)) (scanned (je_proc env)).

(** The result after the holes are counted. *)
Definition judge (r : Result) (missing : list MissingSegment) : Result :=
  match missing with
  | [] => r
  | _ => if Verified r then r else corrupt r (NUnverified (length missing))
  end.

(** Step 7 on: the result, and the tracker and progress file it leaves. *)
Definition deliver (n : NZB) (task : nzbTask) (nzbTitle taskDir : bytes) (files : filesMap) (fs : outputDir)
    (missing : list MissingSegment) (p : ProgressTracker) (prog : option bytes) (env : jobEnv)
    : result jobErr (bytes * Z) * ProgressTracker * option bytes :=
  let password := match ntPassword task with [] => nPassword n | pw => pw end in
  match fst (fst (Process files password true (je_listing env) (job_proc n fs env))) with
  | Err PPassword => (Err JPassword, p, prog)
  | Err PExtract => (Err JPostProcess, p, prog)
  | Ok (r, _) =>
      let r := judge r missing in
      if Corrupt r then
        let '(prog', p') := invalidateDamaged lower p n (DamagedFiles r) prog (je_invalidateAt env) (je_invalidateIO env) in
        (Err (JCorrupt (VerifyNote r)), p', prog')
      else
        let finalPath := match FinalPath r with [] => taskDir | f => f end in
        let finalPath := fst (maybeDeobfuscate foldEq (je_statFile env) (je_exists env) (je_renames env) finalPath nzbTitle (ntTitle task)) in
        if negb (je_synced env) then (Err JStorageFlush, p, prog)
        else
          let finalSize := default 0 (je_size env) in
          if finalSize =? 0 then (Err JEmpty, p, prog)
          else let '(prog', p') := Remove p prog (je_removed env) in (Ok (finalPath, finalSize), p', prog')
  end.

(** Steps 5 and 6: the folder, the articles, the parity index. *)
Definition fetch_release (u : UsenetDownloader) (n : NZB) (task : nzbTask) (outDir shortID : bytes) (fs : outputDir)
    (p : ProgressTracker) (env : jobEnv)
    : option (result jobErr (filesMap * list MissingSegment) * UsenetDownloader * ProgressTracker * outputDir) :=
  let taskDir := usenetTaskDir (je_lexists env) (je_isDir env) outDir (ntTitle task) shortID in
  match je_mkdir env with
  | Some notDir =>
      Some (Err (if isNameClash notDir (je_isDir env) outDir then JNameClash else JStorageMkdir), u, p, fs)
  | None =>
      let u := set_active u (<[ntID task := mkActive false (Some taskDir)]> (active u)) in
      let tolerance := if HasPar2 n then missingSegmentTolerance else zeroTolerance in
      match DownloadNZB tolerance (je_elsewhere env) n fs (Some p) (je_runs env) with
      | None => None
      | Some o =>
          let p := default p (ntrk o) in
          match nerr o with
          | Some e => Some (Err (JNntp e), u, p, nfs o)
          | None =>
              match downloadPar2Index n (nresults o) (nfs o) (je_index env) with
              | None => None
              | Some (files, fs') => Some (Ok (files, nmissing o), u, p, fs')
              end
          end
      end
  end.

(** From the parsed NZB on.  The deferred Flush runs whatever happens after the
    space check. *)
Definition run_job (u : UsenetDownloader) (n : NZB) (nzbTitle : bytes) (task : nzbTask) (outDir shortID : bytes)
    (dir : resumeDir) (prog : option bytes) (fs : outputDir) (env : jobEnv)
    : option (result jobErr (bytes * Z) * jobState) :=
  let (resumed, p) := Load (NewProgressTracker sha256 n (je_start env)) prog in
  let quit res u p prog fs := Some (res, mkJob u dir (fst (Flush p prog (je_exitAt env) (je_exitIO env))) fs) in
  match (if resumed then None else CheckDiskSpace (je_free env) (TotalBytes n) (minFreeBytes u)) with
  | Some d => Some (Err (JDisk d), mkJob u dir prog fs)
  | None =>
      match streamFetcher u (je_pool env) with
      | (Err e, u1) => quit (Err (JPool e)) u1 p prog fs
      | (Ok _, u1) =>
          match fetch_release u1 n task outDir shortID fs p env with
          | None => None
          | Some (Err e, u2, p2, fs2) => quit (Err e) u2 p2 prog fs2
          | Some (Ok (files, missing), u2, p2, fs2) =>
              let taskDir := usenetTaskDir (je_lexists env) (je_isDir env) outDir (ntTitle task) shortID in
              let '(res, p3, prog3) := deliver n task nzbTitle taskDir files fs2 missing p2 prog env in
              quit res u2 p3 prog3 (je_after env fs2)
          end
      end
  end.

(** [None]: a schedule of workers ends before they do. *)
Definition Download (st : jobState) (task : nzbTask) (outDir shortID : bytes) (env : jobEnv)
    : option (result jobErr (bytes * Z) * jobState) :=
  let leave (st : jobState) :=
    mkJob (set_active (js_u st) (delete (ntID task) (active (js_u st)))) (js_resume st) (js_progress st) (js_fs st) in
  let u := set_active (js_u st) (<[ntID task := mkActive false None]> (active (js_u st))) in
  match resolveNzbID Log u task (je_search env) with
  | (Err e, u1) => Some (Err (JResolve e), leave (mkJob u1 (js_resume st) (js_progress st) (js_fs st)))
  | (Ok (nzbID, nzbTitle), u1) =>
      match load_nzb (js_resume st) (ntID task) nzbID env with
      | (Err e, dir) => Some (Err e, leave (mkJob u1 dir (js_progress st) (js_fs st)))
      | (Ok n, dir) =>
          match run_job u1 n nzbTitle task outDir shortID dir (js_progress st) (js_fs st) env with
          | None => None
          | Some (res, st') => Some (res, leave st')
          end
      end
  end.
End Job.

(** * The tracker through a download *)

(** The tracker of the same NZB as [p0]: well formed, the same files. *)
Definition kin (p0 q : ProgressTracker) : Prop :=
  wf q /\ fingerprint q = fingerprint p0 /\ map segCount (files q) = map segCount (files p0).
Definition kin_opt (p0 : ProgressTracker) (t : option ProgressTracker) : Prop :=
  match t with Some q => kin p0 q | None => True end.

Lemma kin_set p0 q i f g d m :
  kin p0 q -> files q !! i = Some f -> segCount g = segCount f -> wf (set_file q i g d m) -> kin p0 (set_file q i g d m).
Proof.
  intros (_ & H2 & H3) Hi Hg Hw. split_and!; [done|done|]. rewrite <- H3. cbn [set_file files].
  change (map segCount) with (fmap (M:=list) segCount). rewrite list_fmap_insert. apply list_insert_id.
  by rewrite list_lookup_fmap, Hi, Hg.
Qed.
Lemma kin_mark p0 q i j now : kin p0 q -> kin p0 (fst (MarkDone q i j now)).
Proof.
  intros Hk. pose proof (MarkDone_wf q i j now (proj1 Hk)) as Hw. unfold MarkDone in *.
  destruct (in_range q i j) as [[[k l] f]|] eqn:Er; [|done].
  destruct (bit_at (completed f) l); [done|]. apply in_range_spec in Er as (Er & _). by eapply kin_set.
Qed.
Lemma kin_reset p0 q i : kin p0 q -> kin p0 (ResetFile q i).
Proof.
  intros Hk. pose proof (ResetFile_wf q i (proj1 Hk)) as Hw. unfold ResetFile in *.
  destruct (file_at q i) as [f|] eqn:Ef; [|done]. destruct (wf_file_at q i f (proj1 Hk) Ef) as [_ Hl]. by eapply kin_set.
Qed.
Lemma kin_note p0 q i e : e <= i64_max -> kin p0 q -> kin p0 (NoteFileSize q i e).
Proof.
  intros He Hk. unfold NoteFileSize. destruct (note_swap q i e) as [q'|] eqn:En; [|done].
  pose proof (note_swap_wf q i e q' (proj1 Hk) He En) as Hw. unfold note_swap in En.
  destruct (file_at q i) as [f|] eqn:Ef; [|done]. destruct (wf_file_at q i f (proj1 Hk) Ef) as [_ Hl].
  case_match; [done|]. injection En as <-. cut (kin p0 (set_file q (Z.to_nat i) (mkFP (segCount f) (completed f) (doneCount f) e) (dirty q) (markCount q))); [done|].
  by eapply kin_set.
Qed.

Definition end_ok (ph : wphase) : Prop :=
  match ph with Written _ _ e | Raised _ _ e | Counted _ e => e <= i64_max | _ => True end.

Section Kin.
Context (p0 : ProgressTracker) (fileName : bytes) (fi total budget : Z) (bodies : nat -> result callErr bytes).

Definition kin_state (s : download) : Prop := kin_opt p0 (trk s) /\ Forall end_ok (workers s).

Lemma kin_step s ev : kin_state s -> kin_state (Downloader.step fileName fi total budget bodies s ev).
Proof.
  intros [Ht Hw]. destruct ev as [|w|w|w n|w|w|w|w now]; cbn [Downloader.step]; [done|..];
    destruct (workers s !! w) as [[|i seg|i seg part|i seg e|i seg e|i e|i|]|] eqn:Ew; try done;
    pose proof (Forall_lookup_1 _ _ _ _ Hw Ew) as He; cbn in He.
  - unfold take_work. destruct (work s) as [|[i seg] q]; (split; [done|]); apply Forall_insert; try done. by destruct (cancelled s).
  - unfold fetched. repeat case_match; (split; [done|]); by apply Forall_insert.
  - unfold written. case_if; (split; [done|]); apply Forall_insert; try done. apply wrap_i64_range.
  - split; [done|]. by apply Forall_insert.
  - split; [done|]. by apply Forall_insert.
  - split; [|by apply Forall_insert]. cbn. destruct (trk s) as [q|]; [|done]. by apply kin_note.
  - split; [|by apply Forall_insert]. cbn. destruct (trk s) as [q|]; [|done]. by apply kin_mark.
Qed.
Lemma kin_run evs s : kin_state s -> kin_state (run fileName fi total budget bodies s evs).
Proof.
  revert s. induction evs as [|ev evs IH]; intros s Hs; [done|]. by apply IH, kin_step.
Qed.
End Kin.

Lemma kin_begin p0 segs fi total conns t dest io :
  kin_opt p0 t ->
  match begin_file segs fi total conns t dest io with
  | inl o => kin_opt p0 (otrk o)
  | inr s => kin_state p0 s
  end.
Proof.
  intros Ht. unfold begin_file. case_if; [done|]. case_if; [done|].
  set (t' := if file_done t fi then _ else t).
  assert (Ht' : kin_opt p0 t').
  { subst t'. case_if; [|done]. destruct t as [q|]; [|done]. by apply kin_reset. }
  destruct (open_output t' fi total dest io) as [f|e]; [|done].
  destruct (pending_work t' fi segs); [case_if; [case_if|]; done|].
  split; [done|]. by apply Forall_replicate.
Qed.

Lemma kin_file `{GoSort Segment} p0 tol file fi t dest r o :
  kin_opt p0 t -> DownloadFile tol file fi t dest r = Some o -> kin_opt p0 (otrk o).
Proof.
  intros Ht. unfold DownloadFile.
  pose proof (kin_begin p0 (SortSegmentsByNumber (fSegments file)) fi (File_TotalBytes file) (fr_conns r) t dest (fr_io r) Ht) as Hb.
  destruct (begin_file _ _ _ _ _ _ _) as [o'|s]; [intros [= <-]; done|].
  set (s' := run _ _ _ _ _ _ _). assert (Hk : kin_state p0 s') by (by apply kin_run). destruct Hk as [Hk _].
  case_if; [|done]. intros [= <-]. unfold end_file. by repeat case_match.
Qed.

Lemma kin_files `{GoSort Segment} p0 tol elsewhere index l acc o :
  kin_opt p0 (ntrk acc) -> download_files tol elsewhere index l acc = Some o -> kin_opt p0 (ntrk o).
Proof.
  revert acc. induction l as [|[file [ctxDone r]] l IH]; intros acc Ha; cbn; [intros [= <-]; done|].
  case_if; [intros [= <-]; done|]. case_if; [by apply IH|].
  destruct (DownloadFile _ _ _ _ _ _) as [o'|] eqn:Ed; [|done]. apply (kin_file p0) in Ed; [|done].
  destruct (oerr o'); [intros [= <-]; done|]. by apply IH.
Qed.
Lemma kin_nzb `{GoSort Segment} p0 tol elsewhere n fs t runs o :
  kin_opt p0 t -> DownloadNZB tol elsewhere n fs t runs = Some o -> kin_opt p0 (ntrk o).
Proof.
  intros Ht. unfold DownloadNZB. destruct (filesToDownload n); [intros [= <-]; done|]. by apply kin_files.
Qed.

(** Resetting keeps kinship, and resets exactly what it is told to. *)
Definition untouched (i : nat) (q q' : ProgressTracker) : Prop := files q' !! i = files q !! i.
Definition wiped (i : nat) (q : ProgressTracker) : Prop :=
  (forall j : nat, IsDone q (Z.of_nat i) (Z.of_nat j) = false) /\ KnownSize q (Z.of_nat i) = 0.

Lemma reset_at p0 q k :
  kin p0 q -> kin p0 (ResetFile q (Z.of_nat k)) /\ wiped k (ResetFile q (Z.of_nat k)) /\
  (forall i, i <> k -> untouched i q (ResetFile q (Z.of_nat k))) /\
  ((k < length (files q))%nat -> dirty (ResetFile q (Z.of_nat k)) = true) /\
  (dirty q = true -> dirty (ResetFile q (Z.of_nat k)) = true).
Proof.
  intros Hk. destruct (ResetFile_spec q (Z.of_nat k) (proj1 Hk)) as (_ & _ & R3 & R4).
  split_and!; [by apply kin_reset|done| | |]; unfold untouched, ResetFile, file_at;
    replace (Z.of_nat k <? 0) with false by (symmetry; apply Z.ltb_ge; lia); rewrite Nat2Z.id;
    destruct (files q !! k) as [f|] eqn:Ef; try done.
  - intros i Hi. cbn [set_file files]. by rewrite list_lookup_insert_ne.
  - apply lookup_ge_None in Ef. lia.
Qed.
Lemma wiped_frame i q q' : untouched i q q' -> wiped i q -> wiped i q'.
Proof.
  unfold untouched, wiped. intros Hu [H1 H2].
  assert (Hf : file_at q' (Z.of_nat i) = file_at q (Z.of_nat i)).
  { unfold file_at. replace (Z.of_nat i <? 0) with false by (symmetry; apply Z.ltb_ge; lia). by rewrite Nat2Z.id. }
  split; [intros j; specialize (H1 j); rewrite IsDone_file in *; by rewrite Hf|]. unfold KnownSize in *. by rewrite Hf.
Qed.

Lemma reset_where_snoc sel fs f p :
  reset_where sel (fs ++ [f]) p = let q := reset_where sel fs p in if sel f then ResetFile q (Z.of_nat (length fs)) else q.
Proof. unfold reset_where. rewrite imap_app, fold_left_app. cbn. by rewrite Nat.add_0_r. Qed.

Lemma reset_where_spec sel fs p0 p :
  kin p0 p -> let q := reset_where sel fs p in
  kin p0 q /\
  (forall i, if match fs !! i with Some f => sel f | None => false end then wiped i q else untouched i p q) /\
  (dirty p = true -> dirty q = true) /\
  ((length fs <= length (files p))%nat -> existsb sel fs = true -> dirty q = true).
Proof.
  intros Hk. induction fs as [|f fs IH] using rev_ind; [by split_and!|]. rewrite reset_where_snoc. cbv zeta in *.
  destruct IH as (IK & IS & ID & IE). destruct (reset_at p0 (reset_where sel fs p) (length fs) IK) as (R1 & R2 & R3 & R4 & R5).
  assert (Hlen : length (files (reset_where sel fs p)) = length (files p)).
  { destruct IK as (_ & _ & H1), Hk as (_ & _ & H2). rewrite <- H2 in H1. apply (f_equal length) in H1. by rewrite !length_map in H1. }
  split_and!.
  - by destruct (sel f).
  - intros i. specialize (IS i). destruct (decide (i = length fs)) as [->|Hi].
    + rewrite lookup_app_r, Nat.sub_diag by lia. cbn. rewrite lookup_ge_None_2 in IS by lia.
      by destruct (sel f).
    + assert (Hl : (fs ++ [f]) !! i = fs !! i).
      { destruct (decide (i < length fs)%nat); [by rewrite lookup_app_l|]. rewrite !lookup_ge_None_2; [done|lia|rewrite length_app; cbn; lia]. }
      rewrite Hl. destruct (sel f); [|done]. specialize (R3 i Hi).
      destruct (match fs !! i with Some g => sel g | None => false end); [by apply (wiped_frame _ _ _ R3)|].
      unfold untouched in *. congruence.
  - intros Hd. destruct (sel f); auto.
  - rewrite length_app, existsb_app. cbn. intros Hl Hs. destruct (sel f); [apply R4; lia|].
    apply IE; [lia|]. by rewrite orb_false_r in Hs.
Qed.

(** What invalidateDamaged selects. *)
Definition selected (lower : bytes -> bytes) (damaged : list bytes) (n : NZB) (f : File) : bool :=
  if existsb (named lower damaged) (nFiles n) then named lower damaged f else negb (is_par2 f).
Lemma invalidated_selected lower p n damaged :
  invalidated lower p n damaged = reset_where (selected lower damaged n) (nFiles n) p.
Proof.
  unfold invalidated, selected, resetAllContent.
  assert (He : (0 <? length (List.filter (named lower damaged) (nFiles n)))%nat = existsb (named lower damaged) (nFiles n)).
  { induction (nFiles n) as [|f fs IH]; [done|]. cbn. by destruct (named lower damaged f). }
  rewrite He. by destruct (existsb _ _).
Qed.
Lemma selected_some lower damaged n :
  (exists f, f ∈ nFiles n /\ is_par2 f = false) -> existsb (selected lower damaged n) (nFiles n) = true.
Proof.
  intros (f & Hf & Hp). unfold selected. destruct (existsb (named lower damaged) (nFiles n)) eqn:E; [by rewrite <- E|].
  apply existsb_exists. exists f. split; [by apply list_elem_of_In|]. by rewrite Hp.
Qed.

(** Sizes the progress file can hold. *)
Record trackable (sha256 : bytes -> bytes) (n : NZB) : Prop := {
  tk_hash : length (Fingerprint sha256 n) = 32%nat;
  tk_files : Z.of_nat (length (nFiles n)) < 2 ^ 16;
  tk_segs : Forall (fun f => Z.of_nat (length (fSegments f)) < 2 ^ 31) (nFiles n)
}.

Lemma load_files_segs fs gs data : load_files fs data = Some gs -> map segCount gs = map segCount fs.
Proof.
  revert gs data. induction fs as [|f fs IH]; intros gs data; cbn; [intros [= <-]; done|].
  case_if; [done|]. case_if; [done|]. case_if; [done|].
  destruct (load_files fs _) as [gs'|] eqn:El; [|done]. intros [= <-]. cbn. f_equal. by eapply IH.
Qed.
Lemma kin_load sha256 n now prog :
  trackable sha256 n -> (forall data, prog = Some data -> wf_bytes data) ->
  kin (NewProgressTracker sha256 n now) (snd (Load (NewProgressTracker sha256 n now) prog)).
Proof.
  intros [_ _ Hs] Hp. set (p0 := NewProgressTracker sha256 n now).
  assert (Hw : wf (snd (Load p0 prog))).
  { destruct prog as [data|].
    - apply (reach_wf sha256 n Hs). apply reach_load; [constructor|by apply Hp].
    - apply (reach_wf sha256 n Hs). constructor. }
  split; [done|]. unfold Load. destruct prog as [data|]; [|done]. do 5 (case_if; [done|]).
  destruct (load_files _ _) as [gs|] eqn:El; [|done]. split; [done|]. cbn [snd files]. by apply load_files_segs in El.
Qed.

(** A saved invalidation is what the next attempt loads. *)
Lemma invalidation_loads sha256 lower n now now' p damaged prog at_ :
  trackable sha256 n -> kin (NewProgressTracker sha256 n now) p -> (exists f, f ∈ nFiles n /\ is_par2 f = false) ->
  let '(prog', p') := invalidateDamaged lower p n damaged prog at_ IOOk in
  dirty p' = false /\
  exists q, Load (NewProgressTracker sha256 n now') prog' = (true, q) /\
    forall i f, nFiles n !! i = Some f -> if selected lower damaged n f then wiped i q else untouched i p q.
Proof.
  intros [T1 T2 T3] Hk Hc. unfold invalidateDamaged. rewrite invalidated_selected.
  destruct (reset_where_spec (selected lower damaged n) (nFiles n) _ p Hk) as (R1 & R2 & _ & R4).
  set (q := reset_where _ _ _) in *.
  assert (Hlen : forall r, kin (NewProgressTracker sha256 n now) r -> length (files r) = length (nFiles n)).
  { intros r (_ & _ & Hr). apply (f_equal length) in Hr. rewrite !length_map in Hr. rewrite Hr. cbn. apply length_map. }
  assert (Hd : dirty q = true) by (apply R4; [by rewrite (Hlen p Hk)|by apply selected_some]).
  unfold Flush, flush_snapshot. rewrite Hd. cbn [flush_write]. split; [done|].
  rewrite (Load_encode q) by
    (first [apply R1 | destruct R1 as (_ & -> & _); exact T1 | rewrite (Hlen q R1); exact T2 |
            destruct R1 as (_ & R1 & _); by rewrite R1 | destruct R1 as (_ & _ & R1); by rewrite R1]).
  eexists. split; [reflexivity|]. intros i f Hf. specialize (R2 i). rewrite Hf in R2.
  destruct (selected lower damaged n f); [|done]. by apply (wiped_frame i q).
Qed.

(** * One attempt *)

(** The verdict Process passes on is par2's. *)
Lemma Process_verdict `{GoSort (list Z * list Z)} files password cleanup l env r removed :
  fst (fst (Process files password cleanup l env)) = Ok (r, removed) ->
  let first := match findPar2File (statAtVerify env) (order env 0 files) with
               | Some _ => fst (fst (runPar2Step (par2 env) zeroResult))
               | None => zeroResult
               end in
  Verified r = Verified first /\ Corrupt r = Corrupt first /\ DamagedFiles r = DamagedFiles first.
Proof.
  unfold Process. destruct (findPar2File _ _); [destruct (runPar2Step _ _) as [[r1 calls] fetched]|];
    (destruct (findFirstRar _ _ _); [case_if; [done|]; destruct (extract env) as [x|[]]; try done|]);
    cbn; intros [= <- <-]; done.
Qed.

Section Attempt.
Context `{GoSort Segment} `{GoSort (list Z * list Z)}.
Context (sha256 lower : bytes -> bytes) (foldEq : bytes -> bytes -> bool) (Log : spec_float -> spec_float)
  (decodeXML : bytes -> option xmlNZB).

Definition tolerance_of (n : NZB) : spec_float := if HasPar2 n then missingSegmentTolerance else zeroTolerance.

(** The articles of the NZB that the task names were fetched without an error: what
    every attempt did that got as far as post-processing. *)
Record fetched_nzb (st : jobState) (task : nzbTask) (env : jobEnv) (n : NZB) (title : bytes) (dir : resumeDir)
    (o : nzbOutcome) (files : filesMap) (fs : outputDir) : Prop := {
  fn_id : exists nzbID, fst (resolveNzbID Log (js_u st) task (je_search env)) = Ok (nzbID, title) /\
            load_nzb decodeXML (js_resume st) (ntID task) nzbID env = (Ok n, dir);
  fn_articles : DownloadNZB (tolerance_of n) (je_elsewhere env) n (js_fs st)
                  (Some (snd (Load (NewProgressTracker sha256 n (je_start env)) (js_progress st)))) (je_runs env) = Some o;
  fn_ok : nerr o = None;
  fn_index : downloadPar2Index n (nresults o) (nfs o) (je_index env) = Some (files, fs)
}.

(** The NZB is one the parser made of some bytes. *)
Lemma load_nzb_parsed dir taskID nzbID env n dir' :
  load_nzb decodeXML dir taskID nzbID env = (Ok n, dir') -> exists data, ParseBytes decodeXML data = Some n.
Proof.
  unfold load_nzb. destruct (loadOrFetchNzb dir taskID nzbID (je_fetch1 env)) as [[[data fc]|] ops1]; [|done].
  destruct (ParseBytes decodeXML data) as [n1|] eqn:E1; [intros [= <- _]; eauto|]. case_if; [done|].
  destruct (loadOrFetchNzb _ _ _ (je_fetch2 env)) as [[[data2 fc2]|] ops2]; [|done].
  destruct (ParseBytes decodeXML data2) as [n2|] eqn:E2; [intros [= <- _]; eauto|done].
Qed.

Lemma resolve_active u m task resp :
  fst (resolveNzbID Log (set_active u m) task resp) = fst (resolveNzbID Log u task resp).
Proof.
  unfold resolveNzbID. case_if; [done|]. cbn. destruct (nzbCache u !! ntID task); [done|].
  unfold searchBestNzb. cbn. by repeat case_match.
Qed.

Lemma Download_inv st task outDir shortID env res st' :
  Download sha256 lower foldEq Log decodeXML st task outDir shortID env = Some (res, st') ->
  match res with Ok _ | Err (JCorrupt _) => True | _ => False end ->
  exists n title dir o files fs p3 prog3,
    fetched_nzb st task env n title dir o files fs /\
    deliver lower foldEq n task title (usenetTaskDir (je_lexists env) (je_isDir env) outDir (ntTitle task) shortID) files fs
      (nmissing o) (default (snd (Load (NewProgressTracker sha256 n (je_start env)) (js_progress st))) (ntrk o)) (js_progress st) env
      = (res, p3, prog3) /\
    js_progress st' = fst (Flush p3 prog3 (je_exitAt env) (je_exitIO env)) /\ js_resume st' = dir.
Proof.
  unfold Download. set (u := set_active (js_u st) _).
  pose proof (resolve_active (js_u st) (<[ntID task := mkActive false None]> (active (js_u st))) task (je_search env)) as Hr.
  fold u in Hr. destruct (resolveNzbID Log u task (je_search env)) as [[[nzbID title]|e] u1]; [|by intros [= <- <-]].
  destruct (load_nzb decodeXML (js_resume st) (ntID task) nzbID env) as [[n|e] dir] eqn:El.
  2:{ intros [= <- <-]. revert El. unfold load_nzb. repeat case_match; intros; simplify_eq; done. }
  unfold run_job. destruct (Load _ _) as [resumed p] eqn:Ep.
  destruct (if resumed then None else _) as [d|]; [by intros [= <- <-]|].
  destruct (streamFetcher u1 (je_pool env)) as [[c|e] u2]; [|by intros [= <- <-]].
  unfold fetch_release. destruct (je_mkdir env) as [nd|]; [intros [= <- <-]; by case_if|].
  destruct (DownloadNZB _ _ _ _ _ _) as [o|] eqn:Ed; [|done].
  destruct (nerr o) as [e|] eqn:En; [by intros [= <- <-]|].
  destruct (downloadPar2Index _ _ _ _) as [[files fs]|] eqn:Ei; [|done].
  destruct (deliver _ _ _ _ _ _ _ _ _ _ _ _) as [[res' p3] prog3] eqn:Edl. intros [= <- <-] _.
  exists n, title, dir, o, files, fs, p3, prog3. rewrite Ep. cbn [snd]. split; [|done].
  split; [exists nzbID|rewrite Ep|..]; done.
Qed.
End Attempt.

Section Theorems.
Context `{GoSort Segment} `{GoSort (list Z * list Z)}.
Context (sha256 lower : bytes -> bytes) (foldEq : bytes -> bytes -> bool) (Log : spec_float -> spec_float)
  (decodeXML : bytes -> option xmlNZB).

(** The par2 calls of an attempt. *)
Definition par2_calls (n : NZB) (fs : outputDir) (env : jobEnv) : list call :=
  snd (fst (runPar2Step (job_par2 n fs env) zeroResult)).

(** C9: A usenet download that reports success loaded the NZB the task names, or
    one found for it, and fetched its files, and either no article of them was
    missing or par2 vouched for the result in spite of the holes.  When there was a
    par2 file and the first run of par2 on it found damage, par2 vouched for the
    result in the end, with one exception: the program was there for the first run
    and reported as not installed for the second one, with the recovery volumes,
    and then the damaged files are delivered as unverified.  What was delivered is
    not empty; and if its file could be removed, the resume state is gone. *)
Theorem success_is_whole st task outDir shortID env path size st' :
  Download sha256 lower foldEq Log decodeXML st task outDir shortID env = Some (Ok (path, size), st') ->
  exists n title dir o files fs,
    fetched_nzb sha256 Log decodeXML st task env n title dir o files fs /\
    (nmissing o = [] \/ vouched (job_par2 n fs env) (par2_calls n fs env)) /\
    (findPar2File (statAtVerify (je_proc env)) (order (je_proc env) 0 files) <> None ->
     found_damage (je_verify1 env) -> je_verify2 env <> Some NotInstalled ->
     vouched (job_par2 n fs env) (par2_calls n fs env)) /\
    size <> 0 /\ (je_removed env = true -> js_progress st' = None).
Proof.
  intros Hd. destruct (Download_inv sha256 lower foldEq Log decodeXML _ _ _ _ _ _ _ Hd I)
    as (n & title & dir & o & files & fs & p3 & prog3 & Hf & Hdl & Hp & _).
  exists n, title, dir, o, files, fs. split; [done|]. unfold deliver in Hdl.
  destruct (fst (fst (Process _ _ _ _ _))) as [[r removed]|[]] eqn:Epr; [|done..].
  destruct (Corrupt (judge r (nmissing o))) eqn:Ec.
  { destruct (invalidateDamaged _ _ _ _ _ _ _); done. }
  case_if_in Hdl; [done|]. case_if_in Hdl; [done|]. destruct (Remove _ _ _) as [prog' p'] eqn:Er. injection Hdl as _ Hsize Hp3 Hprog.
  apply Process_verdict in Epr as (V1 & V2 & _). cbn [job_proc statAtVerify order par2] in V1, V2.
  pose proof (par2_sound (job_par2 n fs env)) as Hs. unfold par2_calls.
  destruct (runPar2Step (job_par2 n fs env) zeroResult) as [[r1 calls] fetched]. destruct Hs as [S1 S2 S3 _ _ _].
  cbn [fst snd] in *. split_and!.
  - destruct (nmissing o) as [|m l]; [by left|right]. cbn in Ec. destruct (Verified r) eqn:Ev; [|done].
    apply S1. by destruct (findPar2File _ _).
  - intros Hpar Hdam Hinst. apply S1. destruct (findPar2File _ _); [|done].
    destruct (S3 Hdam Hinst) as [?|Hcor]; [done|]. rewrite Hcor in V2. destruct (nmissing o); cbn in Ec; [congruence|].
    destruct (Verified r); cbn in Ec; congruence.
  - subst size. by apply Z.eqb_neq.
  - intros Hrm. rewrite Hp. unfold Remove in Er. injection Er as <- <-. subst. cbn. by rewrite Hrm.
Qed.

(** A delivery that par2 condemned is fetched again where it is broken: after
    such an attempt the progress file on disk loads, and in it the files par2 named,
    or all content files when it named none of the NZB's, have nothing done and no
    known size, every other file is as the download left it, and at least one file
    is to be fetched. *)
Lemma corrupt_retry_refetches st task outDir shortID env why st' now :
  Download sha256 lower foldEq Log decodeXML st task outDir shortID env = Some (Err (JCorrupt why), st') ->
  je_invalidateIO env = IOOk -> (forall data, js_progress st = Some data -> wf_bytes data) ->
  exists n title dir o files fs damaged q,
    fetched_nzb sha256 Log decodeXML st task env n title dir o files fs /\ js_resume st' = dir /\
    (trackable sha256 n -> (exists f, f ∈ nFiles n /\ is_par2 f = false) ->
     Load (NewProgressTracker sha256 n now) (js_progress st') = (true, q) /\
     (exists i f, nFiles n !! i = Some f /\ selected lower damaged n f = true /\ wiped i q) /\
     forall i f p, nFiles n !! i = Some f -> ntrk o = Some p ->
       if selected lower damaged n f then wiped i q else untouched i p q).
Proof.
  intros Hd Hio Hprog. destruct (Download_inv sha256 lower foldEq Log decodeXML _ _ _ _ _ _ _ Hd I)
    as (n & title & dir & o & files & fs & p3 & prog3 & Hf & Hdl & Hp & Hdir).
  unfold deliver in Hdl.
  destruct (fst (fst (Process _ _ _ _ _))) as [[r removed]|[]] eqn:Epr; [|done..].
  destruct (Corrupt (judge r (nmissing o))) eqn:Ec.
  2:{ case_if_in Hdl; [done|]. case_if_in Hdl; [done|]. destruct (Remove _ _ _); done. }
  set (p := default _ (ntrk o)) in Hdl. set (damaged := DamagedFiles (judge r (nmissing o))) in Hdl.
  destruct (invalidateDamaged _ _ _ _ _ _ _) as [prog' p'] eqn:Ei. injection Hdl as _ Hp3 Hprog3. subst p3 prog3.
  exists n, title, dir, o, files, fs, damaged, (snd (Load (NewProgressTracker sha256 n now) (js_progress st'))).
  split; [done|]. split; [done|]. intros Htk Hc. set (p0 := NewProgressTracker sha256 n (je_start env)).
  assert (Hk : kin p0 p).
  { pose proof (kin_load sha256 n (je_start env) (js_progress st) Htk Hprog) as Hl. fold p0 in Hl.
    pose proof (kin_nzb p0 _ _ _ _ (Some (snd (Load p0 (js_progress st)))) _ _ Hl (fn_articles _ _ _ _ _ _ _ _ _ _ _ _ Hf)) as Ho.
    subst p. by destruct (ntrk o). }
  rewrite Hio in Ei.
  pose proof (invalidation_loads sha256 lower n (je_start env) now p damaged (js_progress st) (je_invalidateAt env) Htk Hk Hc) as Hi.
  rewrite Ei in Hi. destruct Hi as (Hdirty & q & Hq & Hsel).
  assert (Hst : js_progress st' = prog') by (rewrite Hp; unfold Flush, flush_snapshot; by rewrite Hdirty).
  rewrite Hst, Hq. cbn [snd]. split_and!; [done| |].
  - pose proof (selected_some lower damaged n Hc) as Hx. apply existsb_exists in Hx as (f & Hin & Hx).
    apply list_elem_of_In, list_elem_of_lookup in Hin as [i Hin]. exists i, f. specialize (Hsel i f Hin). by rewrite Hx in Hsel.
  - intros i f pt Hin Hpt. specialize (Hsel i f Hin). subst p. by rewrite Hpt in Hsel.
Qed.
End Theorems.

(** * The shared connection pool *)

Inductive poolOp := OFetcher (env : poolEnv) | OShutdown.
Definition pool_step (u : UsenetDownloader) (op : poolOp) : UsenetDownloader :=
  match op with OFetcher env => snd (streamFetcher u env) | OShutdown => Shutdown u end.

Definition open_client (u : UsenetDownloader) (c : nat) : Prop := exists cfg, clients u !! c = Some (cfg, false).
(** What a client is made with. *)
Definition config_for (creds : UsenetCredentials) : Config :=
  mkConfig creds (if cMaxConnections creds <=? 0 then 10 else cMaxConnections creds).

(** The only open client is the one handed out, made with the credentials on record. *)
Record pool_inv (u : UsenetDownloader) : Prop := {
  pi_current : forall c, nntpClient u = Some c -> clients u !! c = Some (config_for (nntpCreds u), false);
  pi_only : forall c, open_client u c -> nntpClient u = Some c
}.

Lemma set_credentials_inv u c e : pool_inv u -> pool_inv (set_credentials u c e).
Proof. by intros [H1 H2]. Qed.
Lemma getCredentials_inv u api now later :
  pool_inv u -> pool_inv (snd (getCredentials u api now later)) /\
  clients (snd (getCredentials u api now later)) = clients u /\ nntpClient (snd (getCredentials u api now later)) = nntpClient u /\
  nntpCreds (snd (getCredentials u api now later)) = nntpCreds u.
Proof.
  intros Hi. unfold getCredentials, fetchCredentialsLocked. repeat case_match; split_and!; try done; by apply set_credentials_inv.
Qed.
Lemma close_current_inv u c :
  pool_inv u -> nntpClient u = Some c -> pool_inv (set_client u None (nntpCreds u) (close_client (clients u) c)).
Proof.
  intros [H1 H2] Hc. split; [done|]. intros c' [cfg Ho]. cbn in Ho. unfold close_client in Ho.
  destruct (decide (c' = c)) as [->|Hne].
  - rewrite list_lookup_alter_eq, (H1 c Hc) in Ho. discriminate Ho.
  - rewrite list_lookup_alter_ne in Ho by done. assert (Hx : open_client u c') by (by exists cfg). apply H2 in Hx. congruence.
Qed.

(** A new client: the state it leaves, when there was none. *)
Lemma newNNTP_spec u creds connects :
  pool_inv u -> nntpClient u = None ->
  let '(r, u') := newNNTP u creds connects in
  pool_inv u' /\ (forall c, (c < length (clients u))%nat -> clients u' !! c = clients u !! c) /\
  match r with
  | Some c => nntpClient u' = Some c /\ nntpCreds u' = creds /\ c = length (clients u)
  | None => nntpClient u' = None /\ credentials u' = None
  end.
Proof.
  intros [H1 H2] Hn. unfold newNNTP. cbv zeta. destruct connects; cbn [negb].
  - split_and!; [|intros c Hc; cbn; by apply lookup_app_l|done..]. split; cbn.
    + intros c [= <-]. by rewrite lookup_app_r, Nat.sub_diag by lia.
    + intros c [cfg Hc]. cbn in Hc. rewrite lookup_app in Hc. destruct (clients u !! c) as [x|] eqn:Ex.
      * injection Hc as ->. assert (Hx : open_client u c) by (by exists cfg). apply H2 in Hx. congruence.
      * apply list_lookup_singleton_Some in Hc as [Hc _]. apply lookup_ge_None in Ex. f_equal. lia.
  - split_and!; [|intros c Hc; cbn; by apply lookup_app_l|done..]. split; cbn; [by rewrite Hn|].
    intros c [cfg Hc]. cbn in Hc. rewrite lookup_app in Hc. destruct (clients u !! c) as [x|] eqn:Ex.
    + injection Hc as ->. apply H2. by exists cfg.
    + by apply list_lookup_singleton_Some in Hc as [_ [= _ ?]].
Qed.

(** A client handed out is open; one is closed only when none of its connections
    lives and the service has other credentials. *)
Definition good_fetch (u : UsenetDownloader) (env : poolEnv) (r : result poolErr nat) (u' : UsenetDownloader) : Prop :=
  pool_inv u' /\
  match r with
  | Ok c => nntpClient u' = Some c /\ open_client u' c
  | Err NoConnection => credentials u' = None
  | Err NoCredentials => api1 env = None
  end /\
  forall c, open_client u c -> ~ open_client u' c ->
    liveConns env <= 0 /\ exists fresh, api2 env = Some fresh /\ fresh <> nntpCreds u.

Lemma streamFetcher_good u env : pool_inv u -> let '(r, u') := streamFetcher u env in good_fetch u env r u'.
Proof.
  intros Hi. unfold streamFetcher.
  destruct (getCredentials_inv u (api1 env) (now1 env) (later1 env) Hi) as (G1 & G2 & G3 & G4).
  destruct (getCredentials u (api1 env) (now1 env) (later1 env)) as [[creds|] u1] eqn:Eg; cbn [snd] in *.
  2:{ split_and!; [done| |].
      - revert Eg. unfold getCredentials, fetchCredentialsLocked. by repeat case_match.
      - intros c Hc Hn. destruct Hn. destruct Hc as [cfg Hc]. exists cfg. by rewrite G2. }
  assert (Hkeep : forall c, open_client u c -> open_client u1 c) by (intros c [cfg Hc]; exists cfg; by rewrite G2).
  unfold getOrCreateNNTP. destruct (nntpClient u1) as [c|] eqn:Ec.
  - assert (Hopen : open_client u1 c) by (eexists; by apply (pi_current u1 G1)).
    assert (Hsame : forall u2, clients u2 = clients u1 -> nntpClient u2 = Some c -> pool_inv u2 -> good_fetch u env (Ok c) u2).
    { intros u2 Hcl Hcur Hinv. split_and!; [done|done| |].
      - destruct Hopen as [cfg Ho]. exists cfg. by rewrite Hcl.
      - intros c' [cfg Hc'] Hn. destruct Hn. exists cfg. by rewrite Hcl, G2. }
    case_if; [by apply Hsame|]. bprop. destruct (api2 env) as [fresh|] eqn:Ea; cbn [fetchCredentialsLocked]; [|by apply Hsame].
    case_bool_decide as Hf; [by apply Hsame; [..|apply set_credentials_inv]|].
    set (u2 := set_credentials u1 _ _) in *. assert (Hi2 : pool_inv u2) by (by apply set_credentials_inv).
    pose proof (close_current_inv u2 c Hi2 Ec) as Hi3. set (u3 := set_client u2 None _ _) in *.
    pose proof (newNNTP_spec u3 fresh (connects env) Hi3 eq_refl) as Hn. destruct (newNNTP u3 fresh (connects env)) as [[c'|] u4];
      destruct Hn as (N1 & _ & N3).
    + destruct N3 as (N3 & _ & _). split_and!; [done|done|eexists; by apply (pi_current u4 N1)|].
      intros _ _ _. split; [done|]. exists fresh. split; [done|]. cbn in Hf. by rewrite <- G4.
    + split_and!; [done|apply N3|]. intros _ _ _. split; [done|]. exists fresh. split; [done|]. cbn in Hf. by rewrite <- G4.
  - pose proof (newNNTP_spec u1 creds (connects env) G1 Ec) as Hn. destruct (newNNTP u1 creds (connects env)) as [[c'|] u4];
      destruct Hn as (N1 & N2 & N3).
    + destruct N3 as (N3 & _ & _). split_and!; [done|done|eexists; by apply (pi_current u4 N1)|].
      intros c Hc _. apply Hkeep, (pi_only u1 G1) in Hc. congruence.
    + split_and!; [done|apply N3|]. intros c Hc _. apply Hkeep, (pi_only u1 G1) in Hc. congruence.
Qed.

Lemma nntp_run_inv minFree quality ops : pool_inv (fold_left pool_step ops (NewUsenetDownloader minFree quality)).
Proof.
  assert (H0 : pool_inv (NewUsenetDownloader minFree quality)) by (split; [done|intros c [cfg Hc]; by destruct c]).
  revert H0. generalize (NewUsenetDownloader minFree quality). induction ops as [|op ops IH]; intros u Hi; [done|].
  apply IH. destruct op as [env|]; cbn.
  - pose proof (streamFetcher_good u env Hi) as Hg. destruct (streamFetcher u env) as [r u']. apply Hg.
  - unfold Shutdown. cbn. destruct (nntpClient u) as [c|] eqn:Ec; [|by destruct Hi].
    assert (Hi' : pool_inv (set_active u ∅)) by (by destruct Hi). by apply (close_current_inv (set_active u ∅)).
Qed.

(** Downloads and streams share one connection pool, and it is not taken from
    them: after any calls there is at most one open client, made with the
    credentials on record; a call hands out the open one; and it closes one that was
    open only when that one has no live connection and the service has just answered
    with other credentials.  After a failed connection the credentials are forgotten. *)
Lemma shared_pool_kept minFree quality ops env :
  let u := fold_left pool_step ops (NewUsenetDownloader minFree quality) in
  let '(r, u') := streamFetcher u env in
  (forall c c', open_client u' c -> open_client u' c' -> c = c') /\
  (forall c, open_client u' c -> clients u' !! c = Some (config_for (nntpCreds u'), false)) /\
  match r with
  | Ok c => open_client u' c
  | Err NoConnection => credentials u' = None
  | Err NoCredentials => api1 env = None
  end /\
  (forall c, open_client u c -> ~ open_client u' c ->
     liveConns env <= 0 /\ exists fresh, api2 env = Some fresh /\ fresh <> nntpCreds u).
Proof.
  intros u. pose proof (streamFetcher_good u env (nntp_run_inv minFree quality ops)) as Hg.
  destruct (streamFetcher u env) as [r u']. destruct Hg as ([P1 P2] & G2 & G3). split_and!; [| | |done].
  - intros c c' Hc Hc'. apply P2 in Hc, Hc'. congruence.
  - intros c Hc. by apply P1, P2.
  - destruct r as [c|[]]; [by destruct G2|done..].
Qed.

(** * The theorems at concrete inputs *)

#[local] Existing Instance demo_dl_sort.
#[local] Instance demo_pair_sort : GoSort (list Z * list Z) := stable_GoSort (list Z * list Z).

Definition demo_hash (_ : bytes) : bytes := replicate 32 7.
Definition demo_xml_file (name : string) (segs : list (bytes * bytes * bytes)) : xmlFile :=
  mkXmlFile [] [] ([QUOTE] ++ str name ++ [QUOTE] ++ str " yEnc (1/2)") [str "g"]
    (map (fun x => mkXmlSegment (fst (fst x)) (snd (fst x)) (snd x)) segs).
(** A film in two articles, with a parity index. *)
Definition demo_raw : xmlNZB :=
  mkXmlNZB [] [demo_xml_file "x.mkv" [(str "40", str "1", str "a@b"); (str "30", str "2", str "c@d")];
               demo_xml_file "x.par2" [(str "60", str "1", str "e@f")]].
Definition demo_decode (_ : bytes) : option xmlNZB := Some demo_raw.
Definition demo_index_run : fileRun :=
  mkRun (fun _ => Ok (Encode (str "x.par2") 1 1 1 3 3 (str "idx")))
    [ETake 0; EBody 0; EWrite 0 3; ERaise 0; ECount 0; ENote 0; EMark 0 5; ETake 0] demo_io 1.
Definition demo_fetch : fetchEnv := mkFetchEnv true true (Some (str "nzb")) true true WDone WDone.
Definition demo_job_creds : UsenetCredentials := mkCreds (str "news") 563 true [] (str "u") (str "p") 2.
Definition demo_pool : poolEnv := mkPoolEnv (Some demo_job_creds) 0 0 0 None 0 true.
Definition demo_job_proc : procEnv :=
  mkProcEnv (mkPar2Env None None None None) (fun _ => Some 3) (fun _ => Some 5) (fun _ m => map_to_list m) false (Ok []) None.
Definition demo_job (v : option par2Err) : jobEnv :=
  mkJobEnv None demo_fetch demo_fetch true true 0 (Some 1000000) demo_pool (fun _ => false) (fun _ => true) None
    (fun _ => false) (fun _ => (false, demo_file_run)) demo_index_run (fun _ => demo_index_run)
    v None None demo_job_proc None (fun fs => fs) (fun _ => true) (fun _ => false) true
    true (Some 5) 1 IOOk 2 IOOk true.
Definition demo_nzb_task : nzbTask := mkNzbTask (str "t1") (str "Film") [] (str "77") [] 0 0 0.
Definition demo_start : jobState := mkJob (NewUsenetDownloader 0 []) ∅ None ∅.
Definition demo_download (v : option par2Err) : option (result jobErr (bytes * Z) * jobState) :=
  Download demo_hash id bytes_eqb demo_log demo_decode demo_start demo_nzb_task (str "/dl") (str "t1") (demo_job v).

Lemma success_is_whole_witness :
  exists path size st', demo_download None = Some (Ok (path, size), st') /\
  exists n title dir o files fs,
    fetched_nzb demo_hash demo_log demo_decode demo_start demo_nzb_task (demo_job None) n title dir o files fs /\
    (nmissing o = [] \/ vouched (job_par2 n fs (demo_job None)) (par2_calls n fs (demo_job None))) /\ size <> 0.
Proof.
  assert (HE : match demo_download None with Some (Ok _, _) => True | _ => False end) by (vm_compute; exact I).
  destruct (demo_download None) as [[[[path size]|e] st']|] eqn:E; [|destruct HE..].
  exists path, size, st'. split; [reflexivity|].
  destruct (success_is_whole demo_hash id bytes_eqb demo_log demo_decode demo_start demo_nzb_task (str "/dl") (str "t1")
              (demo_job None) path size st' E) as (n & title & dir & o & files & fs & H1 & H2 & _ & H3 & _).
  exists n, title, dir, o, files, fs. split; [exact H1|]. split; [exact H2|exact H3].
Defined.

Lemma corrupt_retry_refetches_witness :
  exists why st' n q, demo_download (Some (Unrepairable [str "x.mkv"])) = Some (Err (JCorrupt why), st') /\
  Parse demo_raw = Ok n /\ Load (NewProgressTracker demo_hash n 9) (js_progress st') = (true, q) /\
  exists i f, nFiles n !! i = Some f /\ wiped i q.
Proof.
  assert (HE : match demo_download (Some (Unrepairable [str "x.mkv"])) with Some (Err (JCorrupt _), _) => True | _ => False end)
    by (vm_compute; exact I).
  destruct (demo_download (Some (Unrepairable [str "x.mkv"]))) as [[[[path size]|[]] st']|] eqn:E; try (destruct HE; fail).
  destruct (corrupt_retry_refetches demo_hash id bytes_eqb demo_log demo_decode demo_start demo_nzb_task (str "/dl") (str "t1")
              (demo_job (Some (Unrepairable [str "x.mkv"]))) why st' 9 E eq_refl) as (n & title & dir & o & files & fs & d & q & H1 & _ & H2).
  { intros data H. discriminate H. }
  destruct H1 as [(nzbID & _ & Hl) _ _ _]. apply load_nzb_parsed in Hl as [data Hl].
  assert (Hn : Parse demo_raw = Ok n).
  { cbn [ParseBytes demo_decode] in Hl. destruct (Parse demo_raw) as [n'|]; [injection Hl as <-; reflexivity|discriminate Hl]. }
  destruct H2 as (H2 & (i & f & Hf & _ & Hw) & _).
  - vm_compute in Hn. injection Hn as <-. split; [reflexivity|reflexivity|repeat constructor].
  - vm_compute in Hn. injection Hn as <-. eexists. split; [left|reflexivity].
  - exists why, st', n, q. split; [reflexivity|]. split; [exact Hn|]. split; [exact H2|]. exists i, f. split; [exact Hf|exact Hw].
Defined.
