(* ===== verification/Task.v ===== *)
(** Download tasks: the status machine and reports of internal/engine/task.go,
    and the choice of a download method in internal/engine/resolve.go.

    A task's fields are guarded by its mutex, so every method is one atomic
    transformer.  Only the fields these methods read or write are kept; clocks
    are arguments. *)
From Stdlib Require Import ZArith Lia Ascii String.
From stdpp Require Import prelude list gmap strings.
From S2P Require Import Prelude GoStrings.

Open Scope Z_scope.

Inductive TaskStatus :=
| StatusPending | StatusClaimed | StatusResolving | StatusDownloading | StatusVerifying
| StatusOrganizing | StatusSeeding | StatusCompleted | StatusFailed | StatusCancelled.
#[global] Instance TaskStatus_eq_dec : EqDecision TaskStatus.
Proof. solve_decision. Defined.

Inductive DownloadMethod := MethodTorrent | MethodDebrid | MethodUsenet | MethodIPTV.
#[global] Instance DownloadMethod_eq_dec : EqDecision DownloadMethod.
Proof. solve_decision. Defined.

(** [None]: the status has no entry in the map. *)
Definition validTransitions (s : TaskStatus) : option (list TaskStatus) :=
  match s with
  | StatusPending => Some [StatusClaimed]
  | StatusClaimed => Some [StatusResolving; StatusCancelled]
  | StatusResolving => Some [StatusDownloading; StatusFailed; StatusCancelled]
  | StatusDownloading => Some [StatusVerifying; StatusFailed; StatusResolving; StatusCancelled]
  | StatusVerifying => Some [StatusOrganizing; StatusFailed; StatusResolving]
  | StatusOrganizing => Some [StatusSeeding; StatusCompleted; StatusFailed]
  | StatusSeeding => Some [StatusCompleted]
  | _ => None
  end.

Record Task := mkTask {
  tID : bytes; PreferredMethod : bytes;
  Status : TaskStatus; ResolvedMethod : option DownloadMethod; TriedMethods : list (option DownloadMethod);
  DownloadedBytes : Z; taskTotalBytes : Z; SpeedBps : Z; ETA : Z;
  FileName : bytes; FilePath : bytes; StreamURL : bytes; ErrorMessage : bytes;
  StartedAt : Z; CompletedAt : Z
}.

(** A task as NewTaskFromAgent hands it to the manager, [preferred] being what
    the normalisation of its source set left. *)
Definition claimed_task (id preferred : bytes) : Task :=
  mkTask id preferred StatusClaimed None [] 0 0 0 0 [] [] [] [] 0 0.

Definition set_status (t : Task) (to : TaskStatus) (err : bytes) (started completed : Z) : Task :=
  mkTask (tID t) (PreferredMethod t) to (ResolvedMethod t) (TriedMethods t) (DownloadedBytes t)
    (taskTotalBytes t) (SpeedBps t) (ETA t) (FileName t) (FilePath t) (StreamURL t) err started completed.

Inductive transErr := NoTransitions (from : TaskStatus) | InvalidTransition (from to : TaskStatus).

(** The transition, or the error that leaves the task as it was. *)
Definition Transition (t : Task) (to : TaskStatus) (now : Z) : result transErr Task :=
  match validTransitions (Status t) with
  | None => Err (NoTransitions (Status t))
  | Some allowed =>
      if bool_decide (to ∈ allowed) then
        Ok (set_status t to
              (if bool_decide (to = StatusResolving) || bool_decide (to = StatusDownloading) then [] else ErrorMessage t)
              (if bool_decide (to = StatusDownloading) then now else StartedAt t)
              (if bool_decide (to = StatusCompleted) || bool_decide (to = StatusFailed) then now else CompletedAt t))
      else Err (InvalidTransition (Status t) to)
  end.

Definition SetError (t : Task) (msg : bytes) : Task :=
  set_status t (Status t) msg (StartedAt t) (CompletedAt t).
Definition SetResolvedMethod (t : Task) (m : option DownloadMethod) : Task :=
  mkTask (tID t) (PreferredMethod t) (Status t) m (TriedMethods t) (DownloadedBytes t)
    (taskTotalBytes t) (SpeedBps t) (ETA t) (FileName t) (FilePath t) (StreamURL t) (ErrorMessage t)
    (StartedAt t) (CompletedAt t).
Definition MarkTried (t : Task) (m : option DownloadMethod) : Task :=
  mkTask (tID t) (PreferredMethod t) (Status t) (ResolvedMethod t) (TriedMethods t ++ [m]) (DownloadedBytes t)
    (taskTotalBytes t) (SpeedBps t) (ETA t) (FileName t) (FilePath t) (StreamURL t) (ErrorMessage t)
    (StartedAt t) (CompletedAt t).
Definition UpdateProgress (t : Task) (downloaded total speed eta : Z) (name : bytes) : Task :=
  mkTask (tID t) (PreferredMethod t) (Status t) (ResolvedMethod t) (TriedMethods t) downloaded total speed eta
    (match name with [] => FileName t | _ => name end) (FilePath t) (StreamURL t) (ErrorMessage t)
    (StartedAt t) (CompletedAt t).

(** * Reports *)

(** utf8.RuneStart *)
Definition RuneStart (b : Z) : bool := negb (Z.land b 192 =? 128).

Fixpoint rune_cut (s : bytes) (cut : nat) : nat :=
  match cut with
  | O => O
  | S c => match s !! cut with
           | Some b => if RuneStart b then cut else rune_cut s c
           | None => cut
           end
  end.
Definition truncateMsg (s : bytes) (max : nat) : bytes :=
  if (length s <=? max)%nat then s else take (rune_cut s max) s.

Definition apiStatus (s : TaskStatus) : string :=
  match s with
  | StatusResolving => "resolving"
  | StatusDownloading => "downloading"
  | StatusVerifying => "verifying"
  | StatusOrganizing => "organizing"
  | StatusSeeding => "downloading"
  | StatusCompleted => "completed"
  | StatusFailed => "failed"
  | _ => ""
  end.

(** * Choosing a method (resolve.go) *)

Definition method_of_name (m : bytes) : option DownloadMethod :=
  if bytes_eqb m (str "torrent") then Some MethodTorrent
  else if bytes_eqb m (str "debrid") then Some MethodDebrid
  else if bytes_eqb m (str "usenet") then Some MethodUsenet
  else None.

Definition effectiveOrder (t : Task) (configMethods : list bytes) : list DownloadMethod :=
  if bytes_eqb (PreferredMethod t) (str "iptv") then [MethodIPTV]
  else
    match omap method_of_name configMethods with
    | (_ :: _) as order => order
    | [] =>
        match method_of_name (PreferredMethod t) with
        | Some m => [m]
        | None => [MethodTorrent; MethodDebrid; MethodUsenet]
        end
    end.

(** What a registered downloader's Available answers. *)
Inductive availability := IsAvailable (b : bool) | NoMatchingNzb | VPNRequired | CheckFailed.
Inductive resolveErr := Gated (why : availability) | NoMethod (order : list DownloadMethod) (tried : list (option DownloadMethod)).

Definition tried (l : list (option DownloadMethod)) (m : DownloadMethod) : bool := bool_decide (Some m ∈ l).

(** [avail m] is [None] for a method with no registered downloader. *)
Fixpoint resolve_loop (avail : DownloadMethod -> option availability) (triedMethods : list (option DownloadMethod))
  (order : list DownloadMethod) (gate : option availability) : DownloadMethod + option availability :=
  match order with
  | [] => inr gate
  | m :: order' =>
      if tried triedMethods m then resolve_loop avail triedMethods order' gate
      else
        match avail m with
        | None => resolve_loop avail triedMethods order' gate
        | Some (IsAvailable true) => inl m
        | Some (IsAvailable false) => resolve_loop avail triedMethods order' gate
        | Some NoMatchingNzb =>
            resolve_loop avail triedMethods order' (match gate with None => Some NoMatchingNzb | _ => gate end)
        | Some VPNRequired => resolve_loop avail triedMethods order' (Some VPNRequired)
        | Some CheckFailed => resolve_loop avail triedMethods order' gate
        end
  end.
Definition resolveMethod (t : Task) (avail : DownloadMethod -> option availability) (configMethods : list bytes)
  : result resolveErr DownloadMethod :=
  let order := effectiveOrder t configMethods in
  match resolve_loop avail (TriedMethods t) order None with
  | inl m => Ok m
  | inr (Some g) => Err (Gated g)
  | inr None => Err (NoMethod order (TriedMethods t))
  end.

(** tryFallback: the task with its method marked, and whether another is left. *)
Definition tryFallback (t : Task) (registered : DownloadMethod -> bool) (configMethods : list bytes) : bool * Task :=
  let order := effectiveOrder t configMethods in
  if (length order <=? 1)%nat then (false, t)
  else
    let t' := MarkTried t (ResolvedMethod t) in
    (existsb (fun m => negb (tried (TriedMethods t') m) && registered m) order, t').

Definition HasUntried (t : Task) (available : list DownloadMethod) : bool :=
  existsb (fun m => negb (tried (TriedMethods t) m)) available.

(** * The life of a task *)

(** A sequence of attempted transitions; a refused one changes nothing. *)
Definition attempt (t : Task) (ev : TaskStatus * Z) : Task :=
  match Transition t (fst ev) (snd ev) with Ok t' => t' | Err _ => t end.
Definition history (t : Task) (evs : list (TaskStatus * Z)) : list TaskStatus :=
  map (fun k => Status (fold_left attempt (take k evs) t)) (seq 0 (S (length evs))).

Definition terminal (s : TaskStatus) : bool :=
  match s with StatusCompleted | StatusFailed | StatusCancelled => true | _ => false end.

Lemma Transition_status t to now t' :
  Transition t to now = Ok t' -> Status t' = to /\ exists l, validTransitions (Status t) = Some l /\ to ∈ l.
Proof.
  unfold Transition. destruct (validTransitions (Status t)) as [l|]; [|done].
  destruct (bool_decide (to ∈ l)) eqn:E; [|done]. bprop. intros [= <-]. eauto.
Qed.

(** What must have been visited by the time a status is reached. *)
Definition required (s : TaskStatus) : list TaskStatus :=
  match s with
  | StatusVerifying => [StatusDownloading]
  | StatusOrganizing => [StatusDownloading; StatusVerifying]
  | StatusSeeding | StatusCompleted => [StatusDownloading; StatusVerifying; StatusOrganizing]
  | _ => []
  end.

Lemma history_snoc t evs ev :
  history t (evs ++ [ev]) = history t evs ++ [Status (fold_left attempt (evs ++ [ev]) t)].
Proof.
  unfold history. rewrite length_app. cbn [length].
  replace (S (length evs + 1)) with (S (length evs) + 1)%nat by lia. rewrite seq_app, map_app. f_equal.
  - apply map_ext_in. intros k Hk%in_seq. f_equal. f_equal. apply take_app_le. lia.
  - cbn [seq map]. rewrite take_ge; [done|]. rewrite length_app. simpl. lia.
Qed.

Lemma history_last t evs : Status (fold_left attempt evs t) ∈ history t evs.
Proof.
  unfold history. apply list_elem_of_fmap. exists (length evs). rewrite take_ge by lia. split; [done|].
  apply elem_of_seq. lia.
Qed.

Lemma required_visited t evs :
  Status t = StatusClaimed ->
  forall s, s ∈ required (Status (fold_left attempt evs t)) -> s ∈ history t evs.
Proof.
  intros Ht. induction evs as [|ev evs IH] using rev_ind; intros s Hs.
  { simpl in Hs. rewrite Ht in Hs. simpl in Hs. by apply elem_of_nil in Hs. }
  rewrite history_snoc, elem_of_app. left. rewrite fold_left_app in Hs. cbn [fold_left] in Hs.
  set (t0 := fold_left attempt evs t) in *. pose proof (history_last t evs) as Hlast. fold t0 in Hlast.
  unfold attempt in Hs at 1. destruct (Transition t0 (fst ev) (snd ev)) as [t1|] eqn:Et; [|by apply IH].
  apply Transition_status in Et as [Hst (l & Hl & Hin)]. rewrite Hst in Hs.
  destruct (Status t0) eqn:E0; simpl in Hl; try done; injection Hl as <-;
    repeat (apply elem_of_cons in Hin as [Hin|Hin]; [rewrite Hin in Hs; simpl in Hs; set_solver|]);
    by apply elem_of_nil in Hin.
Qed.

Lemma terminal_final t evs : terminal (Status t) = true -> fold_left attempt evs t = t.
Proof.
  intros Ht. induction evs as [|ev evs IH]; [done|]. cbn [fold_left].
  replace (attempt t ev) with t; [done|]. unfold attempt, Transition. by destruct (Status t).
Qed.

Lemma resolve_loop_spec avail tm order gate :
  match resolve_loop avail tm order gate with
  | inl m => exists l1 l2, order = l1 ++ m :: l2 /\ tried tm m = false /\
      avail m = Some (IsAvailable true) /\
      Forall (fun m' => tried tm m' = true \/ avail m' <> Some (IsAvailable true)) l1
  | inr _ => Forall (fun m' => tried tm m' = true \/ avail m' <> Some (IsAvailable true)) order
  end.
Proof.
  revert gate. induction order as [|m order IH]; intros gate; cbn [resolve_loop]; [constructor|].
  assert (Hskip : forall g, (tried tm m = true \/ avail m <> Some (IsAvailable true)) ->
    match resolve_loop avail tm order g with
    | inl m0 => exists l1 l2, m :: order = l1 ++ m0 :: l2 /\ tried tm m0 = false /\
        avail m0 = Some (IsAvailable true) /\
        Forall (fun m' => tried tm m' = true \/ avail m' <> Some (IsAvailable true)) l1
    | inr _ => Forall (fun m' => tried tm m' = true \/ avail m' <> Some (IsAvailable true)) (m :: order)
    end).
  { intros g Hm. specialize (IH g). destruct (resolve_loop avail tm order g) as [m0|].
    - destruct IH as (l1 & l2 & -> & H2 & H3 & H4). exists (m :: l1), l2. repeat split; try done. by constructor.
    - by constructor. }
  destruct (tried tm m) eqn:Et; [apply Hskip; by left|].
  destruct (avail m) as [[[|]| | |]|] eqn:Ea; try (apply Hskip; right; congruence).
  exists [], order. repeat split; done.
Qed.

(** The methods a configuration allows. *)
Definition configured (configMethods : list bytes) (m : DownloadMethod) : Prop :=
  exists name, name ∈ configMethods /\ method_of_name name = Some m.

Lemma effectiveOrder_gated t cfg m m0 :
  PreferredMethod t <> str "iptv" -> configured cfg m0 -> m ∈ effectiveOrder t cfg -> configured cfg m.
Proof.
  intros Hp (name0 & Hin0 & Hm0) Hm. unfold effectiveOrder in Hm.
  destruct (bytes_eqb (PreferredMethod t) (str "iptv")) eqn:E; [by apply bytes_eqb_eq in E|].
  assert (H0 : m0 ∈ omap method_of_name cfg) by (apply list_elem_of_omap; eauto).
  destruct (omap method_of_name cfg) as [|x l] eqn:Eo; [by apply elem_of_nil in H0|].
  rewrite <- Eo in Hm. apply list_elem_of_omap in Hm as (name & ? & ?). by exists name.
Qed.

(** * Claims *)

(** The life of a task: whatever transitions are attempted on a claimed
    task, in any order and by anyone, it is completed only after it was
    downloading, then verified and organized, and once it is completed, failed
    or cancelled no further attempt changes it. *)
Lemma task_lifecycle t evs :
  Status t = StatusClaimed ->
  (Status (fold_left attempt evs t) = StatusCompleted ->
   StatusDownloading ∈ history t evs /\ StatusVerifying ∈ history t evs /\ StatusOrganizing ∈ history t evs) /\
  (terminal (Status (fold_left attempt evs t)) = true ->
   forall more, fold_left attempt (evs ++ more) t = fold_left attempt evs t).
Proof.
  intros Ht. pose proof (required_visited t evs Ht) as Hr. split.
  - intros Hc. rewrite Hc in Hr. simpl in Hr. repeat split; apply Hr; set_solver.
  - intros Hf more. rewrite fold_left_app. by apply terminal_final.
Qed.

(** The method a task runs with is the first of its effective order that
    was not tried and is available, an error means there is none, and when the
    local configuration names any known method no method outside it is ever
    chosen for a task that is not IPTV. *)
Lemma resolveMethod_exact t avail cfg :
  match resolveMethod t avail cfg with
  | Ok m =>
      (exists l1 l2, effectiveOrder t cfg = l1 ++ m :: l2 /\ tried (TriedMethods t) m = false /\
        avail m = Some (IsAvailable true) /\
        Forall (fun m' => tried (TriedMethods t) m' = true \/ avail m' <> Some (IsAvailable true)) l1) /\
      (PreferredMethod t <> str "iptv" -> (exists m0, configured cfg m0) -> configured cfg m)
  | Err _ =>
      Forall (fun m' => tried (TriedMethods t) m' = true \/ avail m' <> Some (IsAvailable true)) (effectiveOrder t cfg)
  end.
Proof.
  unfold resolveMethod. pose proof (resolve_loop_spec avail (TriedMethods t) (effectiveOrder t cfg) None) as H.
  destruct (resolve_loop _ _ _ _) as [m|[g|]]; try done. split; [done|].
  destruct H as (l1 & l2 & Ho & _). intros Hp [m0 Hm0].
  apply (effectiveOrder_gated t cfg m m0 Hp Hm0). rewrite Ho. set_solver.
Qed.

(** A task that is downloaded, re-downloaded after a failed check, completed,
    and then cancelled in vain. *)
Definition demo_events : list (TaskStatus * Z) :=
  [(StatusResolving, 1); (StatusDownloading, 2); (StatusVerifying, 3); (StatusResolving, 4);
   (StatusCompleted, 5); (StatusDownloading, 6); (StatusVerifying, 7); (StatusOrganizing, 8); (StatusCompleted, 9)].

Lemma task_lifecycle_witness :
  let t := claimed_task (str "id") (str "auto") in
  Status (fold_left attempt demo_events t) = StatusCompleted /\
  StatusVerifying ∈ history t demo_events /\
  fold_left attempt (demo_events ++ [(StatusCancelled, 10)]) t = fold_left attempt demo_events t.
Proof.
  intros t. split; [reflexivity|].
  destruct (task_lifecycle t demo_events eq_refl) as [H1 H2].
  split; [apply (H1 eq_refl)|exact (H2 eq_refl [(StatusCancelled, 10)])].
Defined.
