(* ===== verification/ProcessTask.v ===== *)
(** The life of one download in the manager: processTask, attemptDownload, the
    fallbacks and the terminal paths of internal/engine/manager.go, with verify.go,
    integrity.go, storage_error.go and source_failover.go.

    One goroutine runs processTask; cancels, pauses and a shutdown reach the task
    from others.  So before every operation on shared state the environment may
    have done any number of the steps those calls are made of ([control]); what the
    downloaders, the file system and the web API answer is in [world], numbered by
    the operations. *)
From Stdlib Require Import ZArith Lia Ascii String.
From Stdlib.Floats Require Import SpecFloat.
From stdpp Require Import prelude list strings sorting gmap.
From S2P Require Import Prelude GoStrings Downloader Task.

Open Scope Z_scope.

(** * Errors *)

(** The reasons the manager tells apart; [ROther] are the remaining codes. *)
Inductive reason := RSizeConflict | RTruncated | RStubResponse | ROverlong | ROther (code : string).
Inductive derr :=
| EDisk                       (* InsufficientDiskError *)
| EStorage                    (* StorageError *)
| EIntegrity (r : reason)     (* IntegrityError *)
| EVPNDown                    (* ErrVPNTunnelDown *)
| EPlain (what : string).     (* anything else *)

Definition IsInsufficientDisk (e : derr) : bool := match e with EDisk => true | _ => false end.
Definition IsStorage (e : derr) : bool := match e with EStorage => true | _ => false end.
Definition IsIntegrity (e : derr) : bool := match e with EIntegrity _ => true | _ => false end.
Definition IsSizeConflict (e : derr) : bool := match e with EIntegrity RSizeConflict => true | _ => false end.
Definition IsDebridSourceRepairable (e : derr) : bool :=
  match e with EIntegrity (ROther _) => false | _ => true end.
Definition IsVPNDown (e : derr) : bool := match e with EVPNDown => true | _ => false end.

(** * verify *)

Record Result := mkRes { resPath : bytes; resMethod : DownloadMethod; resSize : Z; ExpectedBytes : Z }.
(** A stat of the result: gone (and whether the mount failed), a directory with the
    size of its files if it can be walked, or a file. *)
Inductive statAnswer := StatErr (storage : bool) | StatDir (size : option Z) | StatFile (size : Z).

Definition minPlausibleVideoBytes : Z := 2 ^ 20.
(** int64(float64(size) * 0.02) *)
Definition size_tolerance (size : Z) : Z :=
  int_of_f64 (SFmul 53 1024 (f64_of_int size) (SFdiv 53 1024 (f64_of_int 2) (f64_of_int 100))).

(** The end of verify, on the size found. *)
Definition verify_size (isVideoFile : bytes -> bool) (r : Result) (isDir : bool) (actualSize : Z) : option derr :=
  if actualSize =? 0 then Some (EIntegrity (ROther "empty"))
  else if negb isDir && isVideoFile (Base (resPath r)) && (actualSize <? minPlausibleVideoBytes)
  then Some (EIntegrity (ROther "stub"))
  else if negb isDir && (0 <? ExpectedBytes r) && negb (actualSize =? ExpectedBytes r)
  then Some (EIntegrity (ROther "size_mismatch"))
  else if (0 <? resSize r) && (actualSize <? wrap_i64 (resSize r - size_tolerance (resSize r)))
  then Some (EIntegrity (ROther "size_mismatch"))
  else None.
Definition verify (isVideoFile : bytes -> bool) (r : Result) (st : statAnswer) : option derr :=
  match resPath r with
  | [] => Some (EPlain "no file path in result")
  | _ =>
      match st with
      | StatErr true => Some EStorage
      | StatErr false => Some (EPlain "file not found")
      | StatDir None => Some (EPlain "could not calculate dir size")
      | StatDir (Some size) => verify_size isVideoFile r true size
      | StatFile size => verify_size isVideoFile r false size
      end
  end.

(** * Debrid candidates *)

Record Source := mkSource {
  srcID : bytes; srcExact : bool; srcDebrid : bool; srcProvider : bytes; srcInfoHash : bytes;
  srcURL : bytes; srcFileName : bytes; srcFileSize : Z
}.
(** The fields of the task a candidate may change, and the candidates ([None]:
    no source set of version 1). *)
Record debridTask := mkDebrid {
  dInfoHash : bytes; dURL : bytes; dFileName : bytes; dFileSize : Z;
  dSources : option (list Source); dTried : list bytes
}.

Definition candidate_ok (d : debridTask) (s : Source) : bool :=
  srcDebrid s && srcExact s && negb (bytes_eqb (srcProvider s) []) && bytes_eqb (srcURL s) [] &&
  negb (existsb (bytes_eqb (srcID s)) (dTried d)).
Definition NextDebridRepairSource (d : debridTask) : option (Source * debridTask) :=
  match dSources d with
  | None => None
  | Some l =>
      match List.find (candidate_ok d) l with
      | None => None
      | Some s => Some (s, mkDebrid (dInfoHash d) (dURL d) (dFileName d) (dFileSize d) (dSources d) (srcID s :: dTried d))
      end
  end.

Definition portableBase (name : bytes) : bytes := Base (replace_byte BACKSLASH SLASH name).
(** [foldEq] is strings.EqualFold; [None]: the candidate is refused. *)
Definition ApplyDebridRepairSource (foldEq : bytes -> bytes -> bool) (d : debridTask) (s : Source) : option debridTask :=
  if negb (srcDebrid s) || negb (srcExact s) || bytes_eqb (srcURL s) [] then None
  else if bytes_eqb (dInfoHash d) [] || negb (foldEq (srcInfoHash s) (dInfoHash d)) then None
  else if negb (bytes_eqb (dFileName d) []) && negb (bytes_eqb (srcFileName s) []) &&
          negb (bytes_eqb (portableBase (dFileName d)) (portableBase (srcFileName s))) then None
  else if (0 <? dFileSize d) && (0 <? srcFileSize s) && negb (dFileSize d =? srcFileSize s) then None
  else Some (mkDebrid (dInfoHash d) (srcURL s)
               (if bytes_eqb (dFileName d) [] then srcFileName s else dFileName d)
               (if dFileSize d =? 0 then srcFileSize s else dFileSize d) (dSources d) (dTried d)).

(** * The shared state *)

Inductive effect := XDownload (m : DownloadMethod) | XVerify | XRemoveBroken | XExtract | XOrganize.

(** [entry] is the resume-store entry with its paused flag; [recent] the final
    states for the next sync; [ticks] counts the operations so far. *)
Record flow := mkFlow {
  ftask : Task; debrid : debridTask; entry : option bool; paused : bool; ctxDone : bool; shutting : bool;
  storageFailedAt : option Z; recent : list (string * bytes); effects : list effect; ticks : nat
}.

Definition set_task (s : flow) (t : Task) : flow :=
  mkFlow t (debrid s) (entry s) (paused s) (ctxDone s) (shutting s) (storageFailedAt s) (recent s) (effects s) (ticks s).
Definition set_debrid (s : flow) (d : debridTask) : flow :=
  mkFlow (ftask s) d (entry s) (paused s) (ctxDone s) (shutting s) (storageFailedAt s) (recent s) (effects s) (ticks s).
Definition set_entry (s : flow) (e : option bool) : flow :=
  mkFlow (ftask s) (debrid s) e (paused s) (ctxDone s) (shutting s) (storageFailedAt s) (recent s) (effects s) (ticks s).
Definition set_paused (s : flow) (b : bool) : flow :=
  mkFlow (ftask s) (debrid s) (entry s) b (ctxDone s) (shutting s) (storageFailedAt s) (recent s) (effects s) (ticks s).
Definition set_ctx (s : flow) : flow :=
  mkFlow (ftask s) (debrid s) (entry s) (paused s) true (shutting s) (storageFailedAt s) (recent s) (effects s) (ticks s).
Definition set_shutting (s : flow) : flow :=
  mkFlow (ftask s) (debrid s) (entry s) (paused s) (ctxDone s) true (storageFailedAt s) (recent s) (effects s) (ticks s).
Definition set_storageFailed (s : flow) (now : Z) : flow :=
  mkFlow (ftask s) (debrid s) (entry s) (paused s) (ctxDone s) (shutting s) (Some now) (recent s) (effects s) (ticks s).
(** ToStatusUpdate, as far as the next sync reads it: the status the API knows, which
    is empty for a cancelled task, and the error. *)
Definition ToStatusUpdate (t : Task) : string * bytes := (apiStatus (Status t), ErrorMessage t).
Definition add_recent (s : flow) (update : string * bytes) : flow :=
  let l := recent s ++ [update] in
  mkFlow (ftask s) (debrid s) (entry s) (paused s) (ctxDone s) (shutting s) (storageFailedAt s)
    (drop (length l - 20) l) (effects s) (ticks s).
Definition add_effect (s : flow) (x : effect) : flow :=
  mkFlow (ftask s) (debrid s) (entry s) (paused s) (ctxDone s) (shutting s) (storageFailedAt s) (recent s) (effects s ++ [x]) (ticks s).

(** * Cancel, pause and shutdown from other goroutines *)

(** Their steps, one per lock they take. *)
Inductive ctl :=
| CCancelCtx | CSetError (msg : bytes) | CTransition (now : Z)   (* to cancelled *)
| CSetPaused | CFlagPaused | CClearPaused | CStoreRemove | CShutdown.
Definition control_step (s : flow) (c : ctl) : flow :=
  match c with
  | CCancelCtx => set_ctx s
  | CSetError msg => set_task s (SetError (ftask s) msg)
  | CTransition now => match Transition (ftask s) StatusCancelled now with Ok t => set_task s t | Err _ => s end
  | CSetPaused => set_paused s true
  | CFlagPaused => set_entry s (match entry s with Some _ => Some true | None => None end)
  | CClearPaused => set_paused s false
  | CStoreRemove => set_entry s None
  | CShutdown => set_shutting s
  end.
(** CancelTask, CancelAndDeleteFiles and PauseTask on a running task. *)
Definition CancelTask (now : Z) : list ctl :=
  [CClearPaused; CStoreRemove; CCancelCtx; CSetError (str "cancelled by user"); CTransition now].
Definition PauseTask (now : Z) : list ctl := [CSetPaused; CFlagPaused; CCancelCtx; CTransition now].

(** * The world of one run *)

Record world := mkWorld {
  control : nat -> list ctl;                               (* what others do before operation k *)
  clock : nat -> Z;
  available : nat -> DownloadMethod -> option availability; (* of the registered downloaders *)
  downloads : nat -> DownloadMethod -> result derr Result;
  resolveSource : option (nat -> Source -> option Source);  (* the configured ResolveSource; None is an error *)
  stat : nat -> statAnswer;
  unpacked : nat -> option bytes;                           (* a new path after extractPackedRelease *)
  organized : nat -> option bytes;                          (* the path, None is an error *)
  replaced : nat -> bool                                    (* replaceFile worked *)
}.

Section Process.
Context (w : world) (configMethods : list bytes) (isVideoFile : bytes -> bool) (foldEq : bytes -> bytes -> bool)
  (replacePath : bytes).

(** Others run, then the operation with its number. *)
Definition tick (s : flow) : flow :=
  let s1 := fold_left control_step (control w (ticks s)) s in
  mkFlow (ftask s1) (debrid s1) (entry s1) (paused s1) (ctxDone s1) (shutting s1) (storageFailedAt s1) (recent s1)
    (effects s1) (S (ticks s1)).
Definition now (s : flow) : Z := clock w (ticks s).

Definition transition (s : flow) (to : TaskStatus) : bool * flow :=
  let s := tick s in
  match Transition (ftask s) to (now s) with
  | Ok t => (true, set_task s t)
  | Err _ => (false, s)
  end.

(** recordFinishedKeep, with the update its caller made of the task. *)
Definition recordFinishedKeep (s : flow) (keepResume : bool) : flow :=
  let s := tick s in
  let update := ToStatusUpdate (ftask s) in
  let s := tick s in
  let keep := keepResume || paused s in
  add_recent (if negb (shutting s) && negb keep then set_entry s None else s) update.

Definition interruptedByShutdown (s : flow) : bool := shutting s && ctxDone s.

Definition fail (s : flow) (msg : bytes) : flow :=
  let s := tick s in
  if interruptedByShutdown s then s
  else
    let s := set_task s (SetError (ftask s) msg) in
    let '(_, s) := transition s StatusFailed in
    recordFinishedKeep s false.

Definition damagedErrorPrefix : bytes := str "corrupt download: ".
Definition storageErrorPrefix : bytes := str "storage unavailable: ".
(** The text of an error is left open: only its class is modelled. *)
Definition error_text (e : derr) : bytes := match e with EPlain what => str what | _ => [] end.
Definition failDamaged (s : flow) (e : derr) : flow := fail s (damagedErrorPrefix ++ error_text e).
Definition failStorage (s : flow) (e : derr) : flow :=
  let s := tick s in
  fail (set_storageFailed s (now s)) (storageErrorPrefix ++ error_text e).
Definition pauseForVPN (s : flow) : flow :=
  let s := tick s in
  let s := set_task s (SetError (ftask s) (str "VPN tunnel down")) in
  match transition s StatusCancelled with
  | (false, s) => fail s (str "VPN tunnel down")
  | (true, s) => recordFinishedKeep s true
  end.

Definition runDownload (s : flow) (m : DownloadMethod) : result derr Result * flow :=
  let s := tick s in (downloads w (ticks s) m, add_effect s (XDownload m)).

(** ** Debrid repair *)

(** A result or an error, and whether to stop. *)
Definition attemptDebridRepairSource (s : flow) (resolve : nat -> Source -> option Source) (src : Source)
    : result derr Result * bool * flow :=
  let resolving := if bool_decide (Status (ftask s) = StatusResolving) then (true, s) else transition s StatusResolving in
  match resolving with
  | (false, s) => (Err (EPlain "transition"), true, s)
  | (true, s) =>
      let s := tick s in
      match resolve (ticks s) src with
      | None => (Err (EPlain "resolve"), ctxDone s, s)
      | Some resolved =>
          match ApplyDebridRepairSource foldEq (debrid s) resolved with
          | None => (Err (EPlain "rejected"), false, s)
          | Some d =>
              match transition (set_debrid s d) StatusDownloading with
              | (false, s) => (Err (EPlain "transition"), true, s)
              | (true, s) =>
                  match runDownload s MethodDebrid with
                  | (Ok r, s) => (Ok r, true, s)
                  | (Err e, s) =>
                      let terminal := ctxDone s || IsInsufficientDisk e || IsStorage e ||
                                      (IsIntegrity e && negb (IsDebridSourceRepairable e)) in
                      (Err e, terminal, s)
                  end
              end
          end
      end
  end.

(** [None] for attempted = false; every round reserves one more candidate. *)
Fixpoint debrid_loop (fuel : nat) (s : flow) (resolve : nat -> Source -> option Source) (initialErr : derr) (attempted : bool)
    : option (option (result derr Result) * flow) :=
  match fuel with
  | O => None
  | S fuel' =>
      match NextDebridRepairSource (debrid s) with
      | None => Some (if attempted then Some (Err initialErr) else None, s)
      | Some (src, d) =>
          match attemptDebridRepairSource (set_debrid s d) resolve src with
          | (r, true, s) => Some (Some r, s)
          | (_, false, s) => debrid_loop fuel' s resolve initialErr true
          end
      end
  end.
Definition tryDebridSourceRepair (s : flow) (resolve : nat -> Source -> option Source) (initialErr : derr)
    : option (option (result derr Result) * flow) :=
  debrid_loop (S (length (default [] (dSources (debrid s))))) s resolve initialErr false.

(** ** One attempt *)

Definition resolve_method (s : flow) : result resolveErr DownloadMethod * flow :=
  let s := tick s in (resolveMethod (ftask s) (available w (ticks s)) configMethods, s).

Definition attemptFallback (s : flow) : result derr Result * flow :=
  match resolve_method s with
  | (Err _, s) => (Err (EPlain "fallback failed"), s)
  | (Ok m, s) =>
      let s := set_task s (SetResolvedMethod (ftask s) (Some m)) in
      match transition s StatusDownloading with
      | (false, s) => (Err (EPlain "transition error"), s)
      | (true, s) => runDownload s m
      end
  end.

(** Errors the method's failure must not spend a fallback on. *)
Definition terminal_for (m : DownloadMethod) (e : derr) : bool :=
  IsInsufficientDisk e || IsStorage e ||
  (IsIntegrity e && negb (IsSizeConflict e) &&
   negb (bool_decide (m = MethodDebrid) && IsDebridSourceRepairable e)).

(** The next method, or the error. *)
Definition fall_back (s : flow) (e : derr) : result derr Result * flow :=
  let s := tick s in
  let '(more, t) := tryFallback (ftask s) (fun m => bool_decide (is_Some (available w (ticks s) m))) configMethods in
  let s := set_task s t in
  if more then
    let resolving := if bool_decide (Status (ftask s) = StatusResolving) then (true, s) else transition s StatusResolving in
    match resolving with
    | (false, s) => (Err e, s)
    | (true, s) =>
        match attemptFallback s with
        | (Err e', s) => (Err (if IsVPNDown e then EVPNDown else e'), s)
        | (Ok r, s) => (Ok r, s)
        end
    end
  else (Err e, s).

(** After a failed download of method [m]; [None]: the candidates never end. *)
Definition recover (s : flow) (m : DownloadMethod) (e : derr) : option (result derr Result * flow) :=
  if terminal_for m e then Some (Err e, s)
  else
    let s := tick s in
    match (if bool_decide (m = MethodDebrid) && negb (ctxDone s) then resolveSource w else None) with
    | None => Some (fall_back s e)
    | Some resolve =>
        match tryDebridSourceRepair s resolve e with
        | None => None
        | Some (None, s) => Some (fall_back s e)
        | Some (Some (Ok r), s) => Some (Ok r, s)
        | Some (Some (Err e'), s) =>
            if IsInsufficientDisk e' || IsStorage e' || (IsIntegrity e' && negb (IsDebridSourceRepairable e')) || ctxDone s
            then Some (Err e', s)
            else Some (fall_back s e')
        end
    end.

Definition attemptDownload (s : flow) : option (result derr Result * flow) :=
  match transition s StatusResolving with
  | (false, s) => Some (Err (EPlain "transition error"), s)
  | (true, s) =>
      match resolve_method s with
      | (Err _, s) => Some (Err (EPlain "no method available"), s)
      | (Ok m, s) =>
          let s := set_task s (SetResolvedMethod (ftask s) (Some m)) in
          match transition s StatusDownloading with
          | (false, s) => Some (Err (EPlain "transition error"), s)
          | (true, s) =>
              match runDownload s m with
              | (Ok r, s) => Some (Ok r, s)
              | (Err e, s) => recover s m e
              end
          end
      end
  end.

(** ** After verification *)

Definition finalizeVerified (s : flow) (r : Result) : flow :=
  match transition s StatusOrganizing with
  | (false, s) => fail s (str "transition error")
  | (true, s) =>
      let s := tick s in
      let s := if bool_decide (resMethod r = MethodUsenet) then s else add_effect s XExtract in
      let path := if bool_decide (resMethod r = MethodUsenet) then resPath r else default (resPath r) (unpacked w (ticks s)) in
      let s := add_effect (tick s) XOrganize in
      match organized w (ticks s) with
      | None => fail s (str "organize failed")
      | Some finalPath =>
          let finalPath := match finalPath with [] => path | _ => finalPath end in
          let finalPath := if negb (bytes_eqb replacePath []) && replaced w (ticks s) then replacePath else finalPath in
          let t := ftask s in
          let s := set_task s (mkTask (tID t) (PreferredMethod t) (Status t) (ResolvedMethod t) (TriedMethods t) (DownloadedBytes t)
                     (taskTotalBytes t) (SpeedBps t) (ETA t) (FileName t) finalPath (StreamURL t) (ErrorMessage t) (StartedAt t) (CompletedAt t)) in
          match transition s StatusCompleted with
          | (false, s) => fail s (str "transition error")
          | (true, s) => recordFinishedKeep s false
          end
      end
  end.

(** ** The retry loop *)

Definition maxIntegrityAttempts : nat := 3.
Definition maxStorageAttempts : nat := 2.

(** What an error of the attempt or of verify means: another round, or the end. *)
Inductive verdict := Again (storageAttempt : nat) | Over (s : flow).
Definition judge_error (s : flow) (attempt storageAttempt : nat) (e : derr) : verdict :=
  if IsInsufficientDisk e then Over (fail s (error_text e))
  else if IsStorage e then
    if (S storageAttempt <? maxStorageAttempts)%nat then Again (S storageAttempt) else Over (failStorage s e)
  else if IsIntegrity e then
    if IsSizeConflict e then Over (failDamaged s e)
    else if (attempt <? maxIntegrityAttempts)%nat then Again storageAttempt else Over (failDamaged s e)
  else if IsVPNDown e then Over (pauseForVPN s)
  else Over (fail s (error_text e)).
(** verify has no disk, size-conflict or VPN errors; a broken result is removed. *)
Definition judge_verify (s : flow) (attempt storageAttempt : nat) (e : derr) : flow * verdict :=
  if IsStorage e then
    (s, if (S storageAttempt <? maxStorageAttempts)%nat then Again (S storageAttempt) else Over (failStorage s e))
  else if IsIntegrity e then
    let s := add_effect s XRemoveBroken in
    (s, if (attempt <? maxIntegrityAttempts)%nat then Again storageAttempt else Over (failDamaged s e))
  else (s, Over (fail s (str "verification failed: " ++ error_text e))).

Fixpoint process_loop (fuel attempt storageAttempt : nat) (s : flow) : option flow :=
  match fuel with
  | O => None
  | S fuel' =>
      match attemptDownload s with
      | None => None
      | Some (Err e, s) =>
          match judge_error s attempt storageAttempt e with
          | Again sa => process_loop fuel' (S attempt) sa s
          | Over s => Some s
          end
      | Some (Ok r, s) =>
          match transition s StatusVerifying with
          | (false, s) => Some (fail s (str "transition error"))
          | (true, s) =>
              let s := add_effect (tick s) XVerify in
              match verify isVideoFile r (stat w (ticks s)) with
              | Some e =>
                  match judge_verify s attempt storageAttempt e with
                  | (s, Again sa) => process_loop fuel' (S attempt) sa s
                  | (_, Over s) => Some s
                  end
              | None => Some (finalizeVerified s r)
              end
          end
      end
  end.
(** Four rounds: two for integrity, one for storage, and the last. *)
Definition processTask (s : flow) : option flow := process_loop 4 1 0 s.
End Process.

(** * What the steps preserve *)

(** The statuses of a task the loop works on. *)
Definition busy (st : TaskStatus) : bool :=
  match st with
  | StatusResolving | StatusDownloading | StatusVerifying | StatusOrganizing | StatusCancelled => true
  | _ => false
  end.
Definition working (st : TaskStatus) : bool :=
  match st with StatusResolving | StatusDownloading | StatusVerifying | StatusOrganizing => true | _ => false end.

(** From [s] to [s'] nothing was reported, and the task is still worked on or was
    cancelled. *)
Definition keeps (s s' : flow) : Prop :=
  recent s' = recent s /\ (busy (Status (ftask s)) = true -> busy (Status (ftask s')) = true) /\ (ticks s <= ticks s')%nat.
Lemma keeps_refl s : keeps s s.
Proof. done. Qed.
Lemma keeps_trans s1 s2 s3 : keeps s1 s2 -> keeps s2 s3 -> keeps s1 s3.
Proof. intros (H1 & H2 & H3) (H4 & H5 & H6). split_and!; [congruence|auto|lia]. Qed.
#[local] Hint Resolve keeps_refl : core.

Lemma Transition_to t to now t' :
  Transition t to now = Ok t' -> Status t' = to /\ exists l, validTransitions (Status t) = Some l /\ to ∈ l.
Proof.
  unfold Transition. destruct (validTransitions (Status t)) as [l|]; [|done]. case_bool_decide; [|done]. intros [= <-]. eauto.
Qed.

Lemma control_keeps s cs : keeps s (fold_left control_step cs s).
Proof.
  revert s. induction cs as [|c cs IH]; intros s; [done|]. simpl. eapply keeps_trans; [|apply IH].
  destruct c as [|msg|now| | | | |]; try done. simpl.
  destruct (Transition (ftask s) StatusCancelled now) as [t|] eqn:Et; [|done].
  apply Transition_to in Et as [Et _]. split_and!; [done| |done]. intros _. simpl. by rewrite Et.
Qed.

Section Facts.
Context (w : world) (configMethods : list bytes) (isVideoFile : bytes -> bool) (foldEq : bytes -> bytes -> bool)
  (replacePath : bytes).

Lemma tick_keeps s : keeps s (tick w s).
Proof.
  destruct (control_keeps s (control w (ticks s))) as (H1 & H2 & H3). split_and!; [done|done|].
  unfold tick. cbn [ticks]. lia.
Qed.
Lemma transition_keeps s to : working to = true -> keeps s (snd (transition w s to)).
Proof.
  intros Hto. unfold transition. pose proof (tick_keeps s) as Hk. set (s1 := tick w s) in *.
  destruct (Transition (ftask s1) to (now w s1)) as [t|] eqn:Et; [|done].
  apply Transition_to in Et as [Et _]. destruct Hk as (H1 & H2 & H3). split_and!; [done| |done]. simpl. rewrite Et. by destruct to.
Qed.
(** The first transition of a claimed task. *)
Lemma transition_starts s to :
  working to = true -> Status (ftask s) = StatusClaimed -> busy (Status (ftask (snd (transition w s StatusResolving)))) = true.
Proof.
  intros _ Hc. unfold transition, tick. set (cs := control w (ticks s)).
  assert (Hs : forall cs s, Status (ftask s) = StatusClaimed ->
     Status (ftask (fold_left control_step cs s)) = StatusClaimed \/ Status (ftask (fold_left control_step cs s)) = StatusCancelled).
  { clear. induction cs as [|c cs IH]; intros s Hc; [by left|]. simpl. destruct c as [|msg|now| | | | |]; try by apply IH.
    simpl. unfold Transition. rewrite Hc. simpl.
    assert (Hcan : forall cs s, Status (ftask s) = StatusCancelled -> Status (ftask (fold_left control_step cs s)) = StatusCancelled).
    { clear. induction cs as [|c cs IH]; intros s Hc; [done|]. simpl. destruct c; try by apply IH.
      simpl. unfold Transition. rewrite Hc. by apply IH. }
    right. apply Hcan. done. }
  destruct (Hs cs s Hc) as [H|H]; unfold Transition; simpl; rewrite H; simpl; [done|by rewrite H].
Qed.

Lemma run_keeps s m : keeps s (snd (runDownload w s m)).
Proof. apply tick_keeps. Qed.

(** Destruct a transition in the goal, keeping what it keeps. *)
Ltac split_transition H :=
  match goal with
  | |- context [transition w ?s ?to] =>
      let K := fresh "K" in
      pose proof (transition_keeps s to eq_refl) as K;
      destruct (transition w s to) as [[] H]; cbn [snd] in K
  end.

Lemma resolving_keeps s :
  keeps s (snd (if bool_decide (Status (ftask s) = StatusResolving) then (true, s) else transition w s StatusResolving)).
Proof. case_if; [done|]. by apply transition_keeps. Qed.

Lemma repair_keeps s resolve src : keeps s (snd (attemptDebridRepairSource w foldEq s resolve src)).
Proof.
  unfold attemptDebridRepairSource. pose proof (resolving_keeps s) as Hr. destruct (if bool_decide _ then _ else _) as [[] s1]; [|done].
  cbn [snd] in Hr. pose proof (tick_keeps s1) as Ht. set (s2 := tick w s1) in *.
  assert (H2 : keeps s s2) by (by eapply keeps_trans). clear Hr Ht.
  destruct (resolve (ticks s2) src) as [resolved|]; [|done].
  destruct (ApplyDebridRepairSource foldEq (debrid s2) resolved) as [d|]; [|done].
  split_transition s3; [|eapply keeps_trans; [exact H2|]; by destruct K].
  pose proof (run_keeps s3 MethodDebrid) as Hd. destruct (runDownload w s3 MethodDebrid) as [[r|e] s4]; cbn [snd] in Hd;
    (eapply keeps_trans; [exact H2|]; eapply keeps_trans; [|exact Hd]; by destruct K).
Qed.

Lemma debrid_loop_keeps fuel s resolve e a r s' : debrid_loop w foldEq fuel s resolve e a = Some (r, s') -> keeps s s'.
Proof.
  revert s a. induction fuel as [|fuel IH]; intros s a; [done|]. simpl.
  destruct (NextDebridRepairSource (debrid s)) as [[src d]|]; [|intros [= <- <-]; done].
  pose proof (repair_keeps (set_debrid s d) resolve src) as Hr.
  destruct (attemptDebridRepairSource _ _ _ _ _) as [[r1 []] s1]; cbn [snd] in Hr.
  - intros [= <- <-]. by destruct Hr.
  - intros Hl. apply IH in Hl. by eapply keeps_trans.
Qed.

Lemma attemptFallback_keeps s : keeps s (snd (attemptFallback w configMethods s)).
Proof.
  unfold attemptFallback, resolve_method. pose proof (tick_keeps s) as Ht. set (s1 := tick w s) in *.
  destruct (resolveMethod _ _ _) as [m|]; [|done]. split_transition s2.
  - eapply keeps_trans; [exact Ht|]. eapply keeps_trans; [|apply run_keeps]. by destruct K.
  - eapply keeps_trans; [exact Ht|]. by destruct K.
Qed.

Lemma fall_back_keeps s e : keeps s (snd (fall_back w configMethods s e)).
Proof.
  unfold fall_back. pose proof (tick_keeps s) as Ht. set (s1 := tick w s) in *.
  destruct (tryFallback (ftask s1) _ configMethods) as [more t] eqn:Ef.
  assert (Hst : Status t = Status (ftask s1)).
  { unfold tryFallback in Ef. case_if_in Ef; simplify_eq; done. }
  assert (H2 : keeps s (set_task s1 t)) by (destruct Ht as (H1 & H2 & H3); split_and!; [done| |done]; simpl; by rewrite Hst).
  destruct more; [|done]. pose proof (resolving_keeps (set_task s1 t)) as Hr.
  destruct (if bool_decide _ then _ else _) as [[] s2]; cbn [snd] in Hr; [|by eapply keeps_trans].
  pose proof (attemptFallback_keeps s2) as Ha. destruct (attemptFallback w configMethods s2) as [[r|e'] s3]; cbn [snd] in *;
    (eapply keeps_trans; [exact H2|]; by eapply keeps_trans).
Qed.

Lemma recover_keeps s m e r s' : recover w configMethods foldEq s m e = Some (r, s') -> keeps s s'.
Proof.
  unfold recover. case_if; [intros [= <- <-]; done|]. pose proof (tick_keeps s) as Ht. set (s1 := tick w s) in *.
  assert (Hf : forall s2 e2 r2 s3, keeps s s2 -> Some (fall_back w configMethods s2 e2) = Some (r2, s3) -> keeps s s3).
  { intros s2 e2 r2 s3 Hk [= Hfb]. pose proof (fall_back_keeps s2 e2) as Hb. rewrite Hfb in Hb. by eapply keeps_trans. }
  destruct (if _ : bool then resolveSource w else None) as [resolve|]; [|by apply Hf].
  unfold tryDebridSourceRepair. destruct (debrid_loop _ _ _ _ _ _ _) as [[x s2]|] eqn:Ed; [|done].
  apply debrid_loop_keeps in Ed. assert (H2 : keeps s s2) by (by eapply keeps_trans).
  destruct x as [[r2|e2]|]; [intros [= <- <-]; done| |by apply Hf].
  case_if; [intros [= <- <-]; done|by apply Hf].
Qed.

(** After an attempt nothing is reported and the task is worked on or cancelled. *)
Lemma attempt_keeps s r s' :
  Status (ftask s) = StatusClaimed \/ busy (Status (ftask s)) = true ->
  attemptDownload w configMethods foldEq s = Some (r, s') ->
  recent s' = recent s /\ busy (Status (ftask s')) = true /\ (ticks s <= ticks s')%nat.
Proof.
  intros Hst. unfold attemptDownload.
  pose proof (transition_keeps s StatusResolving eq_refl) as (K1 & K2 & K3).
  assert (Hb : busy (Status (ftask (snd (transition w s StatusResolving)))) = true).
  { destruct Hst as [Hst|Hst]; [by apply (transition_starts s StatusResolving)|by apply K2]. }
  destruct (transition w s StatusResolving) as [[] s1]; cbn [snd] in *; [|intros [= <- <-]; done].
  cut (forall s2, Some (r, s') = Some (r, s2) -> keeps s1 s2 ->
    recent s' = recent s /\ busy (Status (ftask s')) = true /\ (ticks s <= ticks s')%nat).
  2:{ intros s2 [= <-] (H1 & H2 & H3). split_and!; [congruence|auto|lia]. }
  intros Hcut. unfold resolve_method. pose proof (tick_keeps s1) as Ht. set (s2 := tick w s1) in *.
  destruct (resolveMethod _ _ _) as [m|]; [|intros [= <- <-]; by apply (Hcut s2)].
  split_transition s3.
  2:{ intros [= <- <-]. apply (Hcut s3); [done|]. eapply keeps_trans; [exact Ht|]. by destruct K. }
  assert (H3 : keeps s1 s3) by (eapply keeps_trans; [exact Ht|]; by destruct K).
  pose proof (run_keeps s3 m) as Hr. destruct (runDownload w s3 m) as [[r1|e] s4]; cbn [snd] in Hr.
  - intros [= <- <-]. apply (Hcut s4); [done|]. by eapply keeps_trans.
  - intros Hrec. apply recover_keeps in Hrec. apply (Hcut s'); [done|]. eapply keeps_trans; [exact H3|]. by eapply keeps_trans.
Qed.
End Facts.

(** * How a run ends *)

(** Interrupted by a shutdown with nothing reported; or in a terminal status, which
    the last update made for the server names (with no status at all for a cancelled
    task), with the resume entry gone unless the task was paused, cancelled, or the
    manager is shutting down. *)
Definition ended (old : list (string * bytes)) (s : flow) : Prop :=
  (interruptedByShutdown s = true /\ recent s = old) \/
  (terminal (Status (ftask s)) = true /\ (exists err, last (recent s) = Some (apiStatus (Status (ftask s)), err)) /\
   (entry s = None \/ paused s = true \/ shutting s = true \/ Status (ftask s) = StatusCancelled)).

Lemma last_kept {A} (l : list A) x : last (drop (length (l ++ [x]) - 20) (l ++ [x])) = Some x.
Proof. rewrite drop_app_le by (rewrite length_app; simpl; lia). apply last_snoc. Qed.

Section Ends.
Context (w : world) (configMethods : list bytes) (isVideoFile : bytes -> bool) (foldEq : bytes -> bytes -> bool)
  (replacePath : bytes).

Lemma control_terminal cs s : terminal (Status (ftask s)) = true -> Status (ftask (fold_left control_step cs s)) = Status (ftask s).
Proof.
  revert s. induction cs as [|c cs IH]; intros s Hs; [done|]. simpl.
  assert (Hc : Status (ftask (control_step s c)) = Status (ftask s)).
  { destruct c; try done. simpl. unfold Transition.
    destruct (Status (ftask s)) eqn:E in Hs |- *; simpl in *; try done. }
  rewrite <- Hc in Hs |- *. by apply IH.
Qed.
Lemma tick_terminal s : terminal (Status (ftask s)) = true -> Status (ftask (tick w s)) = Status (ftask s).
Proof. apply control_terminal. Qed.

Lemma record_ended old s keep :
  terminal (Status (ftask s)) = true -> keep = false \/ Status (ftask s) = StatusCancelled ->
  ended old (recordFinishedKeep w s keep) /\ Status (ftask (recordFinishedKeep w s keep)) = Status (ftask s).
Proof.
  intros Ht Hk. unfold recordFinishedKeep. pose proof (tick_terminal s Ht) as Hs0. set (s0 := tick w s) in *.
  assert (Ht0 : terminal (Status (ftask s0)) = true) by (by rewrite Hs0).
  pose proof (tick_terminal s0 Ht0) as Hs1. set (s1 := tick w s0) in *. assert (Hs : Status (ftask s1) = Status (ftask s)) by congruence.
  set (s2 := if _ : bool then _ else s1).
  assert (Hst : ftask s2 = ftask s1) by (subst s2; by case_if). split; [right|cbn; by rewrite Hst, Hs].
  split_and!; [cbn; by rewrite Hst, Hs|cbn; rewrite Hst, Hs1; eexists; apply last_kept|].
  cbn. rewrite Hst, Hs. subst s2. destruct (shutting s1) eqn:Esh; [cbn; auto|].
  destruct (paused s1) eqn:Ep; [rewrite orb_true_r; cbn; auto|]. destruct keep; cbn; [|by left].
  destruct Hk as [?|?]; [done|auto].
Qed.

Lemma fail_terminal s : busy (Status (ftask s)) = true ->
  let st := Status (ftask (snd (transition w s StatusFailed))) in st = StatusFailed \/ st = StatusCancelled.
Proof.
  intros Hb. unfold transition. pose proof (proj1 (proj2 (tick_keeps w s)) Hb) as Hb'. set (s1 := tick w s) in *.
  unfold Transition. by destruct (Status (ftask s1)) eqn:E; simpl; auto.
Qed.

(** A failure ends the run as failed, or cancelled if someone was faster. *)
Definition failed_end (old : list (string * bytes)) (s : flow) : Prop :=
  ended old s /\ Status (ftask s) <> StatusCompleted.
Lemma fail_ended s msg : busy (Status (ftask s)) = true -> failed_end (recent s) (fail w s msg).
Proof.
  intros Hb. unfold fail. destruct (tick_keeps w s) as (Hr & Hk & _). specialize (Hk Hb). set (s1 := tick w s) in *.
  destruct (interruptedByShutdown s1) eqn:Ei.
  { split; [by left|]. by destruct (Status (ftask s1)). }
  set (s2 := set_task s1 _). pose proof (fail_terminal s2 Hk) as Hf. cbv zeta in Hf.
  destruct (transition w s2 StatusFailed) as [b s3]. cbn [snd] in Hf.
  destruct (record_ended (recent s) s3 false) as [He Hs]; [by destruct Hf as [->| ->]|by left|].
  split; [done|]. rewrite Hs. by destruct Hf as [->| ->].
Qed.
Lemma failStorage_ended s e : busy (Status (ftask s)) = true -> failed_end (recent s) (failStorage w s e).
Proof.
  intros Hb. unfold failStorage. destruct (tick_keeps w s) as (Hr & Hk & _). specialize (Hk Hb).
  rewrite <- Hr. by apply (fail_ended (set_storageFailed (tick w s) _)).
Qed.
Lemma pauseForVPN_ended s : busy (Status (ftask s)) = true -> failed_end (recent s) (pauseForVPN w s).
Proof.
  intros Hb. unfold pauseForVPN. destruct (tick_keeps w s) as (Hr & Hk & _). specialize (Hk Hb).
  set (s2 := set_task (tick w s) _). destruct (tick_keeps w s2) as (Hr2 & Hk2 & _). specialize (Hk2 Hk).
  unfold transition. destruct (Transition (ftask (tick w s2)) StatusCancelled (now w (tick w s2))) as [t|] eqn:Et.
  - apply Transition_to in Et as [Et _]. set (s3 := set_task (tick w s2) t).
    destruct (record_ended (recent s) s3 true) as [He Hs]; [cbn; by rewrite Et|right; cbn; by rewrite Et|].
    split; [done|]. rewrite Hs. cbn. by rewrite Et.
  - rewrite <- Hr. change (recent (tick w s)) with (recent s2). rewrite <- Hr2. by apply fail_ended.
Qed.

Lemma judge_error_ended s attempt sa e s' :
  busy (Status (ftask s)) = true -> judge_error w s attempt sa e = Over s' -> failed_end (recent s) s'.
Proof.
  intros Hb. unfold judge_error, failDamaged.
  repeat (case_if; try (intros [= <-])); try done; by first [apply fail_ended | apply failStorage_ended | apply pauseForVPN_ended].
Qed.
Lemma judge_verify_ended s attempt sa e s1 s' :
  busy (Status (ftask s)) = true -> judge_verify w s attempt sa e = (s1, Over s') -> failed_end (recent s) s'.
Proof.
  intros Hb. unfold judge_verify, failDamaged.
  repeat (case_if; try (intros [= <- <-])); try done;
    first [by apply fail_ended | by apply failStorage_ended | by apply (fail_ended (add_effect s XRemoveBroken))].
Qed.
Lemma judge_verify_again s attempt sa e s1 sa' :
  judge_verify w s attempt sa e = (s1, Again sa') -> ftask s1 = ftask s /\ recent s1 = recent s.
Proof. unfold judge_verify. repeat (case_if; try (intros [= <- <-])); done. Qed.

(** The end of a verified download: completed only when it was organized. *)
Lemma finalize_ended s r :
  busy (Status (ftask s)) = true ->
  ended (recent s) (finalizeVerified w replacePath s r) /\
  (Status (ftask (finalizeVerified w replacePath s r)) = StatusCompleted -> exists k, (ticks s < k)%nat /\ is_Some (organized w k)).
Proof.
  intros Hb. unfold finalizeVerified.
  assert (Hf : forall s1 msg, keeps s s1 -> ended (recent s) (fail w s1 msg) /\ Status (ftask (fail w s1 msg)) <> StatusCompleted).
  { intros s1 msg (Hr & Hk & _). rewrite <- Hr. by apply fail_ended, Hk. }
  pose proof (transition_keeps w s StatusOrganizing eq_refl) as K. destruct (transition w s StatusOrganizing) as [[] s1]; cbn [snd] in K.
  2:{ destruct (Hf s1 (str "transition error") K) as [H1 H2]. done. }
  set (s2 := if bool_decide (resMethod r = MethodUsenet) then tick w s1 else add_effect (tick w s1) XExtract).
  set (s3 := add_effect (tick w s2) XOrganize).
  assert (K2 : keeps s1 s2) by (subst s2; case_if; apply (tick_keeps w s1)).
  assert (K3 : keeps s s3) by (eapply keeps_trans; [exact K|]; eapply keeps_trans; [exact K2|]; apply (tick_keeps w s2)).
  assert (Hlt : (ticks s < ticks s3)%nat).
  { destruct K as (_ & _ & K), K2 as (_ & _ & K2). destruct (control_keeps s2 (control w (ticks s2))) as (_ & _ & H).
    cbn. unfold tick. cbn [ticks]. lia. }
  destruct (organized w (ticks s3)) as [finalPath|] eqn:Eo.
  2:{ destruct (Hf s3 (str "organize failed") K3) as [H1 H2]. done. }
  set (s4 := set_task s3 _). assert (K4 : keeps s s4) by (by eapply keeps_trans).
  unfold transition. destruct (tick_keeps w s4) as (R5 & B5 & T5). set (s5 := tick w s4) in *.
  destruct (Transition (ftask s5) StatusCompleted (now w s5)) as [t|] eqn:Et.
  - apply Transition_to in Et as [Et _].
    destruct (record_ended (recent s) (set_task s5 t) false) as [He Hs]; [cbn; by rewrite Et|by left|].
    split; [done|]. intros _. exists (ticks s3). split; [done|by rewrite Eo].
  - assert (K5 : keeps s s5) by (eapply keeps_trans; [exact K4|done]).
    destruct (Hf s5 (str "transition error") K5) as [H1 H2]. done.
Qed.
End Ends.

(** * The candidates end *)

(** The candidates not reserved yet. *)
Definition untried (d : debridTask) : nat :=
  match dSources d with None => O | Some l => length (List.filter (candidate_ok d) l) end.

Lemma filter_shrinks {A} (f g : A -> bool) l x :
  (forall y, g y = true -> f y = true) -> In x l -> f x = true -> g x = false ->
  (length (List.filter g l) < length (List.filter f l))%nat.
Proof.
  intros Hgf. assert (Hle : forall l, (length (List.filter g l) <= length (List.filter f l))%nat).
  { clear l. induction l as [|y l IH]; [done|]. simpl. destruct (g y) eqn:Eg; [rewrite (Hgf y Eg); simpl; lia|].
    destruct (f y); simpl; lia. }
  induction l as [|y l IH]; [done|]. intros Hin Hf Hg. specialize (Hle l). simpl. destruct Hin as [->|Hin].
  - rewrite Hf, Hg. simpl. lia.
  - specialize (IH Hin Hf Hg). destruct (g y) eqn:Eg; [rewrite (Hgf y Eg); simpl; lia|]. destruct (f y); simpl; lia.
Qed.

Lemma Next_reserves d src d' :
  NextDebridRepairSource d = Some (src, d') -> (untried d' < untried d)%nat.
Proof.
  unfold NextDebridRepairSource. destruct (dSources d) as [l|] eqn:El; [|done].
  destruct (List.find (candidate_ok d) l) as [s|] eqn:Ef; [|done]. intros [= <- <-].
  apply find_some in Ef as [Hin Hok]. unfold untried at 2. rewrite El. simpl.
  apply (filter_shrinks _ _ l s); [|done|done|].
  - intros y. unfold candidate_ok. simpl. rewrite negb_orb, !andb_true_iff. tauto.
  - unfold candidate_ok. simpl. by rewrite bytes_eqb_refl, !andb_false_r.
Qed.

(** The candidates and the reserved ones are only changed by the loop itself. *)
Definition same_sources (s s' : flow) : Prop :=
  dSources (debrid s') = dSources (debrid s) /\ dTried (debrid s') = dTried (debrid s).
Lemma untried_same s s' : same_sources s s' -> untried (debrid s') = untried (debrid s).
Proof. intros [H1 H2]. unfold untried, candidate_ok. by rewrite H1, H2. Qed.

Section Candidates.
Context (w : world) (configMethods : list bytes) (foldEq : bytes -> bytes -> bool).

Lemma tick_debrid s : debrid (tick w s) = debrid s.
Proof.
  unfold tick. cbn [debrid]. generalize (control w (ticks s)) as cs. intros cs. revert s.
  induction cs as [|c cs IH]; intros s; [done|]. simpl. rewrite IH. destruct c; try done.
  simpl. by destruct (Transition _ _ _).
Qed.
Lemma transition_debrid s to : debrid (snd (transition w s to)) = debrid s.
Proof. unfold transition. rewrite <- (tick_debrid s). by destruct (Transition _ _ _). Qed.

Lemma repair_sources s resolve src : same_sources s (snd (attemptDebridRepairSource w foldEq s resolve src)).
Proof.
  unfold attemptDebridRepairSource.
  assert (Hr : debrid (snd (if bool_decide (Status (ftask s) = StatusResolving) then (true, s) else transition w s StatusResolving)) = debrid s)
    by (case_if; [done|apply transition_debrid]).
  destruct (if bool_decide _ then _ else _) as [[] s1]; cbn [snd] in Hr; [|split; cbn [snd]; by rewrite Hr].
  pose proof (tick_debrid s1) as Ht. set (s2 := tick w s1) in *. clearbody s2. rewrite Hr in Ht.
  destruct (resolve (ticks s2) src) as [resolved|]; [|split; cbn [snd]; by rewrite Ht].
  destruct (ApplyDebridRepairSource foldEq (debrid s2) resolved) as [d|] eqn:Ea; [|split; cbn [snd]; by rewrite Ht].
  assert (Hd : dSources d = dSources (debrid s) /\ dTried d = dTried (debrid s)).
  { unfold ApplyDebridRepairSource in Ea. repeat case_if_in Ea; try done; injection Ea as <-; simpl; by rewrite Ht. }
  pose proof (transition_debrid (set_debrid s2 d) StatusDownloading) as Hx.
  destruct (transition w (set_debrid s2 d) StatusDownloading) as [[] s3]; cbn [snd] in Hx.
  2:{ split; cbn [snd]; rewrite Hx; cbn [debrid]; apply Hd. }
  unfold runDownload. destruct (downloads w _ MethodDebrid); split; cbn [snd add_effect debrid]; rewrite (tick_debrid s3), Hx; apply Hd.
Qed.

Lemma debrid_loop_ends fuel s resolve e a : (untried (debrid s) < fuel)%nat -> is_Some (debrid_loop w foldEq fuel s resolve e a).
Proof.
  revert s a. induction fuel as [|fuel IH]; intros s a Hm; [lia|]. cbn [debrid_loop].
  destruct (NextDebridRepairSource (debrid s)) as [[src d]|] eqn:En; [|by eexists].
  apply Next_reserves in En. pose proof (repair_sources (set_debrid s d) resolve src) as Hs.
  destruct (attemptDebridRepairSource _ _ _ _ _) as [[r []] s1]; [by eexists|]. cbn [snd] in Hs.
  apply IH. rewrite (untried_same _ _ Hs). simpl. lia.
Qed.

Lemma attempt_total s : is_Some (attemptDownload w configMethods foldEq s).
Proof.
  unfold attemptDownload. destruct (transition w s StatusResolving) as [[] s1]; [|by eexists].
  destruct (resolve_method w configMethods s1) as [[m|] s2]; [|by eexists].
  destruct (transition w _ StatusDownloading) as [[] s3]; [|by eexists].
  destruct (runDownload w s3 m) as [[r|e] s4]; [by eexists|]. unfold recover. case_if; [by eexists|].
  destruct (if _ : bool then resolveSource w else None) as [resolve|]; [|by eexists].
  unfold tryDebridSourceRepair. set (s5 := tick w s4).
  destruct (debrid_loop_ends (S (length (default [] (dSources (debrid s5))))) s5 resolve e false) as [[x s6] ->].
  { unfold untried. destruct (dSources (debrid s5)) as [l|]; cbn [default length]; [|lia].
    pose proof (List.filter_length_le (candidate_ok (debrid s5)) l). unfold id. lia. }
  destruct x as [[r|e']|]; [by eexists| |by eexists]. case_if; by eexists.
Qed.
End Candidates.

(** * The outcome *)

Section Outcome.
Context (w : world) (configMethods : list bytes) (isVideoFile : bytes -> bool) (foldEq : bytes -> bytes -> bool)
  (replacePath : bytes).

(** [r] is what a downloader returned for one of the operations up to [s]. *)
Definition downloaded (r : Result) (s : flow) : Prop := exists d m, downloads w d m = Ok r /\ (d <= ticks s)%nat.
Lemma downloaded_keeps r s s' : downloaded r s -> keeps s s' -> downloaded r s'.
Proof. intros (d & m & Hd & Hle) (_ & _ & Ht). exists d, m. split; [done|lia]. Qed.

Lemma run_result s m r s' : runDownload w s m = (Ok r, s') -> downloaded r s'.
Proof. unfold runDownload. intros [= Hd <-]. by exists (ticks (tick w s)), m. Qed.
Lemma repair_result s resolve src r stop s' :
  attemptDebridRepairSource w foldEq s resolve src = (Ok r, stop, s') -> downloaded r s' /\ stop = true.
Proof.
  unfold attemptDebridRepairSource. destruct (if bool_decide _ then _ else _) as [[] s1]; [|done].
  set (s2 := tick w s1). destruct (resolve (ticks s2) src) as [resolved|]; [|done].
  destruct (ApplyDebridRepairSource foldEq (debrid s2) resolved) as [d|]; [|done].
  destruct (transition w _ StatusDownloading) as [[] s3]; [|done].
  destruct (runDownload w s3 MethodDebrid) as [[r'|e] s4] eqn:Er; [|done]. intros [= -> <- <-]. split; [by eapply run_result|done].
Qed.
Lemma debrid_loop_result fuel s resolve e a r s' :
  debrid_loop w foldEq fuel s resolve e a = Some (Some (Ok r), s') -> downloaded r s'.
Proof.
  revert s a. induction fuel as [|fuel IH]; intros s a; [done|]. cbn [debrid_loop].
  destruct (NextDebridRepairSource (debrid s)) as [[src d]|]; [|by destruct a].
  destruct (attemptDebridRepairSource _ _ _ _ _) as [[x stop] s1] eqn:Ea. destruct stop; [|apply IH].
  intros [= -> <-]. by apply repair_result in Ea as [Ea _].
Qed.
Lemma fall_back_result s e r s' : fall_back w configMethods s e = (Ok r, s') -> downloaded r s'.
Proof.
  unfold fall_back. destruct (tryFallback _ _ configMethods) as [[] t]; [|done].
  destruct (if bool_decide _ then _ else _) as [[] s2]; [|done]. unfold attemptFallback.
  destruct (resolve_method w configMethods s2) as [[m|] s3]; [|by destruct (IsVPNDown e)].
  destruct (transition w _ StatusDownloading) as [[] s4]; [|by destruct (IsVPNDown e)].
  destruct (runDownload w s4 m) as [[r'|e'] s5] eqn:Er; [|by destruct (IsVPNDown e)].
  intros [= -> <-]. by eapply run_result.
Qed.
Lemma attempt_result s r s' : attemptDownload w configMethods foldEq s = Some (Ok r, s') -> downloaded r s'.
Proof.
  unfold attemptDownload. destruct (transition w s StatusResolving) as [[] s1]; [|done].
  destruct (resolve_method w configMethods s1) as [[m|] s2]; [|done].
  destruct (transition w _ StatusDownloading) as [[] s3]; [|done].
  destruct (runDownload w s3 m) as [[r'|e] s4] eqn:Er; [intros [= -> <-]; by eapply run_result|].
  unfold recover. case_if; [done|].
  destruct (if _ : bool then resolveSource w else None) as [resolve|].
  2:{ intros [= Hf]. by eapply fall_back_result. }
  destruct (tryDebridSourceRepair _ _ _ _ _) as [[x s5]|] eqn:Et; [|done].
  destruct x as [[r'|e']|].
  - intros [= -> <-]. by eapply debrid_loop_result.
  - case_if; [done|]. intros [= Hf]. by eapply fall_back_result.
  - intros [= Hf]. by eapply fall_back_result.
Qed.

(** A completed task's bytes: downloaded, then verified, then organized, in that
    order of operations. *)
Definition delivered : Prop :=
  exists r d m k k', downloads w d m = Ok r /\ verify isVideoFile r (stat w k) = None /\ is_Some (organized w k') /\
    (d < k < k')%nat.
Definition good_end (old : list (string * bytes)) (s : flow) : Prop :=
  ended old s /\ (Status (ftask s) = StatusCompleted -> delivered).
Lemma failed_good old s : failed_end old s -> good_end old s.
Proof. intros [H1 H2]. by split. Qed.

Lemma ticks_tick s : (ticks s < ticks (tick w s))%nat.
Proof. unfold tick. cbn [ticks]. destruct (control_keeps s (control w (ticks s))) as (_ & _ & H). lia. Qed.

(** What verify and the end make of a download. *)
Lemma verified_good s r k :
  busy (Status (ftask s)) = true -> (exists d m, downloads w d m = Ok r /\ (d < k)%nat) -> (k <= ticks s)%nat ->
  verify isVideoFile r (stat w k) = None -> good_end (recent s) (finalizeVerified w replacePath s r).
Proof.
  intros Hb (d & m & Hd & Hlt) Hk Hv. destruct (finalize_ended w replacePath s r Hb) as [He Hc].
  split; [done|]. intros Hs. destruct (Hc Hs) as (k' & Hk' & Ho). exists r, d, m, k, k'. split_and!; [done|done|done|lia|lia].
Qed.

Lemma judge_error_less s attempt sa e sa' :
  judge_error w s attempt sa e = Again sa' ->
  ((3 - S attempt) + (1 - sa') < (3 - attempt) + (1 - sa))%nat.
Proof.
  unfold judge_error, maxStorageAttempts, maxIntegrityAttempts.
  repeat (case_if; try (intros [= <-])); try done; bprop; lia.
Qed.
Lemma judge_verify_less s attempt sa e s1 sa' :
  judge_verify w s attempt sa e = (s1, Again sa') ->
  ((3 - S attempt) + (1 - sa') < (3 - attempt) + (1 - sa))%nat.
Proof.
  unfold judge_verify, maxStorageAttempts, maxIntegrityAttempts.
  repeat (case_if; try (intros [= <- <-])); try done; bprop; lia.
Qed.

Lemma process_loop_good fuel attempt sa s :
  Status (ftask s) = StatusClaimed \/ busy (Status (ftask s)) = true -> ((3 - attempt) + (1 - sa) < fuel)%nat ->
  exists s', process_loop w configMethods isVideoFile foldEq replacePath fuel attempt sa s = Some s' /\ good_end (recent s) s'.
Proof.
  revert attempt sa s. induction fuel as [|fuel IH]; intros attempt sa s Hst Hm; [lia|]. cbn [process_loop].
  destruct (attempt_total w configMethods foldEq s) as [[x s1] Ea]. rewrite Ea.
  destruct (attempt_keeps _ _ _ _ _ _ Hst Ea) as (Hr & Hb & Ht). rewrite <- Hr.
  destruct x as [r|e].
  2:{ destruct (judge_error w s1 attempt sa e) as [sa'|s2] eqn:Ej.
      - apply IH; [by right|]. apply judge_error_less in Ej. lia.
      - exists s2. split; [done|]. eapply failed_good, judge_error_ended; [exact Hb|exact Ej]. }
  destruct (attempt_result _ _ _ Ea) as (d & m & Hd & Hle).
  pose proof (transition_keeps w s1 StatusVerifying eq_refl) as (Kr & Kb & Kt). specialize (Kb Hb).
  destruct (transition w s1 StatusVerifying) as [[] s2]; cbn [snd] in *; rewrite <- Kr.
  2:{ eexists. split; [done|]. by apply failed_good, fail_ended. }
  destruct (tick_keeps w s2) as (Tr & Tb & _). specialize (Tb Kb). pose proof (ticks_tick s2) as Tt.
  set (s3 := add_effect (tick w s2) XVerify).
  assert (H3 : recent s3 = recent s2 /\ busy (Status (ftask s3)) = true /\ (ticks s2 < ticks s3)%nat) by done.
  clearbody s3. clear Tr Tb Tt. destruct H3 as (Tr & Tb & Tt). rewrite <- Tr.
  destruct (verify isVideoFile r (stat w (ticks s3))) as [e|] eqn:Ev.
  - destruct (judge_verify w s3 attempt sa e) as [s4 [sa'|s5]] eqn:Ej.
    + pose proof (judge_verify_again _ _ _ _ _ _ _ Ej) as [Hf <-]. apply IH; [right; by rewrite Hf|].
      apply judge_verify_less in Ej. lia.
    + exists s5. split; [done|]. eapply failed_good, judge_verify_ended; [exact Tb|exact Ej].
  - eexists. split; [done|]. apply (verified_good s3 r (ticks s3)); [done| |lia|done]. exists d, m. split; [done|lia].
Qed.

(** C10: A download the manager picked up always ends, whatever the downloaders, the
    file system and the web API answer and however cancels, pauses and a shutdown
    interleave with it: either interrupted by the shutdown with nothing reported, or
    in a terminal status, with the last update for the server made of that status
    (completed or failed by name; the update of a cancelled task carries an empty
    status, which is not reported), and with its resume entry gone unless it was
    paused or cancelled or the manager is shutting down.  It is completed only when a
    downloader returned a result that then passed verification and was then
    organized. *)
Theorem process_task_outcome s :
  Status (ftask s) = StatusClaimed ->
  exists s', processTask w configMethods isVideoFile foldEq replacePath s = Some s' /\ ended (recent s) s' /\
    (Status (ftask s') = StatusCompleted -> delivered).
Proof.
  intros Hs. destruct (process_loop_good 4 1 0 s) as (s' & Hp & He & Hd); [by left|lia|].
  exists s'. by split_and!.
Qed.
End Outcome.

(** * Runs *)

(** A torrent-only manager whose files have the given sizes when they are checked. *)
Definition demo_result : Result := mkRes (str "/downloads/film.mkv") MethodTorrent 5000000 5000000.
Definition demo_world (cs : nat -> list ctl) (dl : nat -> result derr Result) (size : nat -> Z) : world :=
  mkWorld cs (fun k => 1000 + Z.of_nat k)
    (fun _ m => if bool_decide (m = MethodTorrent) then Some (IsAvailable true) else None)
    (fun k _ => dl k) None (fun k => StatFile (size k)) (fun _ => None) (fun _ => Some (str "/media/film.mkv")) (fun _ => false).
Definition demo_start : flow :=
  mkFlow (claimed_task (str "t1") (str "torrent")) (mkDebrid [] [] [] 0 None []) (Some false) false false false None [] [] 0.
Definition demo_run (cs : nat -> list ctl) (dl : nat -> result derr Result) (size : nat -> Z) : option flow :=
  processTask (demo_world cs dl size) [] (fun _ => true) bytes_eqb [] demo_start.
Definition demo_stopped (at_ : nat) (steps : list ctl) : option flow :=
  demo_run (fun k => if (k =? at_)%nat then steps else []) (fun _ => Ok demo_result) (fun _ => 5000000).

(** A result that is short on disk is removed and fetched again. *)
Definition demo_retry : world :=
  demo_world (fun _ => []) (fun _ => Ok demo_result) (fun k => if (k <=? 6)%nat then 7 else 5000000).
Lemma demo_retry_completes :
  option_map (fun s => Status (ftask s)) (processTask demo_retry [] (fun _ => true) bytes_eqb [] demo_start) = Some StatusCompleted.
Proof. vm_compute. reflexivity. Qed.
Lemma process_task_outcome_witness :
  exists s', processTask demo_retry [] (fun _ => true) bytes_eqb [] demo_start = Some s' /\
    ended (recent demo_start) s' /\ delivered demo_retry (fun _ => true).
Proof.
  destruct (process_task_outcome demo_retry [] (fun _ => true) bytes_eqb [] demo_start eq_refl) as (s' & Hp & He & Hd).
  exists s'. split; [exact Hp|]. split; [exact He|]. apply Hd.
  pose proof demo_retry_completes as Hs. rewrite Hp in Hs. exact (f_equal (default StatusPending) Hs).
Defined.

(** A cancel while the file is verified is dropped by the state machine: the task is
    completed and filed, with the cancel's message as its error, though CancelTask
    says it was stopped and has removed its resume entry. *)
Lemma cancel_while_verifying_completes :
  option_map (fun s => (Status (ftask s), ErrorMessage (ftask s), effects s)) (demo_stopped 5 (CancelTask 1005)) =
  Some (StatusCompleted, str "cancelled by user", [XDownload MethodTorrent; XVerify; XExtract; XOrganize]).
Proof. vm_compute. reflexivity. Qed.

(** A pause at that moment leaves a completed task with a paused resume entry. *)
Lemma pause_while_verifying_keeps_entry :
  option_map (fun s => (Status (ftask s), entry s)) (demo_stopped 5 (PauseTask 1005)) = Some (StatusCompleted, Some true).
Proof. vm_compute. reflexivity. Qed.

(** A cancel whose context is seen before its transition is reported as a failure. *)
Lemma cancel_race_reports_failed :
  option_map recent
    (demo_run (fun k => match k with 3%nat => take 3 (CancelTask 1005) | 9%nat => drop 3 (CancelTask 1005) | _ => [] end)
       (fun _ => Err (EPlain "context canceled")) (fun _ => 0)) =
  Some [("failed"%string, str "context canceled")].
Proof. vm_compute. reflexivity. Qed.
