(* ===== verification/Debrid.v ===== *)
(** Debrid downloads: engine/debrid.go, debrid_transfer.go and debrid_write.go.

    A download writes "<dest>.part" with a sidecar that says where its bytes came
    from, and publishes the file under its name at the end.  [disk] holds these three
    files of one destination.  A run is the list of its file operations and its
    result, so a crash is a run of which only the first operations happened. *)
From Stdlib Require Import ZArith Lia Ascii String.
From stdpp Require Import prelude list strings sorting gmap.
From S2P Require Import Prelude GoStrings SafePath NzbPick Downloader Task ProcessTask.

Open Scope Z_scope.

(** * Files *)

Record partMeta := mkMeta {
  mURL : bytes; mETag : bytes; mLastModified : bytes; mTotalBytes : Z; mInfoHash : bytes; mFileName : bytes
}.
(** A sidecar file: what json.Unmarshal gives, or an error. *)
Inductive sidecar := SideBad | Side (m : partMeta).
Record disk := mkDisk { dPart : option bytes; dMeta : option sidecar; dDest : option bytes }.

Inductive dop := OTruncate | OAppend (bs : bytes) | OMeta (m : partMeta) | ORemovePart | ORemoveMeta | OPublish.
Definition apply_dop (d : disk) (op : dop) : disk :=
  match op with
  | OTruncate => mkDisk (Some []) (dMeta d) (dDest d)
  | OAppend bs => mkDisk (Some (default [] (dPart d) ++ bs)) (dMeta d) (dDest d)
  | OMeta m => mkDisk (dPart d) (Some (Side m)) (dDest d)
  | ORemovePart => mkDisk None (dMeta d) (dDest d)
  | ORemoveMeta => mkDisk (dPart d) None (dDest d)
  | OPublish => match dPart d with Some p => mkDisk None (dMeta d) (Some p) | None => d end
  end.
Definition apply_dops (d : disk) (ops : list dop) : disk := fold_left apply_dop ops d.

Definition ifRangeValidator (m : option partMeta) : bytes :=
  match m with
  | None => []
  | Some m => if negb (bytes_eqb (mETag m) []) && negb (has_prefix (str "W/") (mETag m)) then mETag m else mLastModified m
  end.

Definition loadPartMeta (d : disk) : option partMeta :=
  match dMeta d with
  | Some (Side m) => if bytes_eqb (mURL m) [] then None else Some m
  | _ => None
  end.

(** * The server *)

(** The Content-Range header as its three forms; [None] is a total of "*". *)
Inductive contentRange := NoRange | Satisfied (start stop : Z) (total : option Z) | Unsatisfied (total : Z).
Definition parseContentRange (h : contentRange) : option (Z * Z * Z) :=
  match h with
  | NoRange => None
  | Satisfied start stop total => Some (start, stop, default 0 total)
  | Unsatisfied total => Some (-1, -1, total)
  end.

(** How a body ends: a read with its last bytes, a cancelled context before the
    next read, or a write that failed after [k] bytes. *)
Inductive ending := EndEOF (bs : bytes) | EndErr (bs : bytes) | EndCancel | EndWrite (bs : bytes) (k : nat).
Record response := mkResp {
  rStatus : Z; rLength : Z; rRange : contentRange; rETag : bytes; rModified : bytes;
  rReads : list bytes; rEnd : ending
}.
(** The offset and the validator asked for. *)
Record request := mkReq { qRange : option Z; qIfRange : bytes }.

(** What a run meets: the answers of the server to the first and the second
    request, and of the file system. *)
Record debridEnv := mkEnv {
  statFails : bool; rmPart : bool; rmMeta : bool;
  answer : bool -> request -> option response;
  freeSpace : option Z; reserve : Z;
  mkdirOk : bool; openOk : bool; metaOk : bool; syncOk : bool; closeOk : bool; statShort : bool;
  statBackOk : bool; renameOk : bool
}.

(** * One transfer *)

Record transfer := mkX { xMeta : option partMeta; xExisting : Z; xStart : Z; xTotal : Z }.

Section Transfer.
Context (isVideoFile : bytes -> bool) (t : debridTask) (dest : bytes) (e : debridEnv).

Definition removeArtifacts : list dop := (if rmPart e then [ORemovePart] else []) ++ (if rmMeta e then [ORemoveMeta] else []).

Definition metaResumable (m : partMeta) : bool :=
  bytes_eqb (mURL m) (dURL t) ||
  (negb (bytes_eqb (mInfoHash m) []) && bytes_eqb (mInfoHash m) (dInfoHash t) &&
   negb (bytes_eqb (mFileName m) []) && bytes_eqb (mFileName m) (Base dest)).

Definition loadResumeState (d : disk) : list dop * transfer :=
  let fresh := mkX None 0 0 0 in
  match (if statFails e then None else dPart d) with
  | None => (if rmMeta e then [ORemoveMeta] else [], fresh)
  | Some [] => ([], fresh)
  | Some p =>
      match loadPartMeta d with
      | Some m => if metaResumable m then ([], mkX (Some m) (Z.of_nat (length p)) 0 0) else (removeArtifacts, fresh)
      | None => (removeArtifacts, fresh)
      end
  end.
Definition newDebridTransfer (d : disk) : list dop * transfer :=
  let '(ops, x) := loadResumeState d in
  match xMeta x with
  | Some m =>
      if (0 <? dFileSize t) && (0 <? mTotalBytes m) && negb (mTotalBytes m =? dFileSize t)
      then (ops ++ removeArtifacts, mkX None 0 0 0)
      else (ops, x)
  | None => (ops, x)
  end.

Definition doRequest (x : transfer) (first withRange : bool) : option response :=
  answer e first (if withRange then mkReq (Some (xExisting x)) (ifRangeValidator (xMeta x)) else mkReq None []).

Definition saveMetaFrom (x : transfer) (r : response) : transfer :=
  mkX (Some (mkMeta (dURL t) (rETag r) (rModified r) (xTotal x) (dInfoHash t) (Base dest))) (xExisting x) (xStart x) (xTotal x).
Definition acceptFull (x : transfer) (r : response) : transfer :=
  saveMetaFrom (mkX (xMeta x) 0 0 (if 0 <? rLength r then rLength r else 0)) r.
Definition acceptPartial (x : transfer) (r : response) : option transfer :=
  match parseContentRange (rRange r) with
  | None => None
  | Some (start, _, crTotal) =>
      if (start <? 0) || negb (start =? xExisting x) then None
      else if match xMeta x with Some m => (0 <? mTotalBytes m) && (0 <? crTotal) && negb (crTotal =? mTotalBytes m) | None => false end
      then None
      else
        let total := if 0 <? crTotal then crTotal
                     else if 0 <? rLength r then xExisting x + rLength r else xTotal x in
        Some (saveMetaFrom (mkX (xMeta x) (xExisting x) (xExisting x) total) r)
  end.

(** The operations so far, the response ([None]: the partial is complete) or the error. *)
Definition opened : Type := list dop * result derr (option response) * transfer.

Definition enforceExpectedSize (x : transfer) (r : response) : opened :=
  if dFileSize t <=? 0 then ([], Ok (Some r), x)
  else if (0 <? xTotal x) && negb (xTotal x =? dFileSize t)
  then (removeArtifacts, Err (EIntegrity RSizeConflict), mkX None 0 (xStart x) (xTotal x))
  else ([], Ok (Some r), mkX (xMeta x) (xExisting x) (xStart x) (dFileSize t)).
Definition restartFull (x : transfer) : opened :=
  let x := mkX None 0 (xStart x) (xTotal x) in
  match doRequest x false false with
  | None => ([], Err (EPlain "retry http request"), x)
  | Some r => if rStatus r =? 200 then enforceExpectedSize (acceptFull x r) r else ([], Err (EPlain "retry unexpected HTTP status"), x)
  end.
Definition handle416 (x : transfer) (r : response) : opened :=
  if xExisting x =? 0 then ([], Err (EPlain "server returned 416"), x)
  else if (0 <? dFileSize t) && negb (xExisting x =? dFileSize t) then restartFull x
  else match parseContentRange (rRange r) with
       | Some (_, _, serverSize) => if (0 <? serverSize) && negb (xExisting x =? serverSize) then restartFull x else ([], Ok None, x)
       | None => ([], Ok None, x)
       end.
Definition openStream (x : transfer) : opened :=
  match doRequest x true (0 <? xExisting x) with
  | None => ([], Err (EPlain "http request"), x)
  | Some r =>
      if rStatus r =? 200 then enforceExpectedSize (acceptFull x r) r
      else if rStatus r =? 206 then
        match acceptPartial x r with
        | Some x' => enforceExpectedSize x' r
        | None => restartFull x
        end
      else if rStatus r =? 416 then handle416 x r
      else ([], Err (EPlain "unexpected HTTP status"), x)
  end.

Definition openPartial (x : transfer) : list dop * option derr :=
  match CheckDiskSpace (freeSpace e) (xTotal x - xStart x) (reserve e) with
  | Some _ => ([], Some EDisk)
  | None =>
      if negb (mkdirOk e) then ([], Some EStorage)
      else if negb (openOk e) then ([], Some EStorage)
      else (if 0 <? xStart x then [] else [OTruncate], None)
  end.
Definition persistMeta (x : transfer) : list dop :=
  match xMeta x with Some m => if metaOk e then [OMeta m] else [] | None => [] end.

(** ** The body *)

(** The bytes in the partial and how the body ended: cleanly, or with an error. *)
Definition copied : Type := list dop * Z * option derr.
Definition over (x : transfer) (downloaded : Z) : bool := (0 <? xTotal x) && (xTotal x <? downloaded).
Definition copy_end (x : transfer) (downloaded : Z) (en : ending) : copied :=
  match en with
  | EndCancel => ([], downloaded, Some (EPlain "context canceled"))
  | EndWrite bs k => ([OAppend (take k bs)], downloaded, Some (EPlain "write file"))
  | EndEOF bs =>
      let n := downloaded + Z.of_nat (length bs) in
      ([OAppend bs], n, if over x n then Some (EIntegrity ROverlong) else None)
  | EndErr bs =>
      let n := downloaded + Z.of_nat (length bs) in
      ([OAppend bs], n, Some (if over x n then EIntegrity ROverlong else EPlain "read response"))
  end.
Fixpoint copy_loop (x : transfer) (downloaded : Z) (reads : list bytes) (en : ending) : copied :=
  match reads with
  | [] => copy_end x downloaded en
  | bs :: rest =>
      let n := downloaded + Z.of_nat (length bs) in
      if over x n then ([OAppend bs], n, Some (EIntegrity ROverlong))
      else let '(ops, n', err) := copy_loop x n rest en in (OAppend bs :: ops, n', err)
  end.
Definition copyPartialBody (x : transfer) (r : response) : copied := copy_loop x (xStart x) (rReads r) (rEnd r).

(** After a body that ended cleanly, the only one without an error. *)
Definition persistAndCheck (x : transfer) (downloaded : Z) : list dop * option derr :=
  if isVideoFile (Base dest) && (downloaded <? minPlausibleVideoBytes) then (removeArtifacts, Some (EIntegrity RStubResponse))
  else if (0 <? xTotal x) && (downloaded <? xTotal x) then ([], Some (EIntegrity RTruncated))
  else if negb (syncOk e) then (removeArtifacts, Some EStorage)
  else if negb (closeOk e) then (removeArtifacts, Some EStorage)
  else if statShort e then (removeArtifacts, Some EStorage)
  else ([], None).

Definition finalize (d : disk) : list dop * result derr Result :=
  match (if statBackOk e then dPart d else None) with
  | None => ([], Err EStorage)
  | Some p =>
      if negb (renameOk e) then ([], Err EStorage)
      else (OPublish :: (if rmMeta e then [ORemoveMeta] else []),
            Ok (mkRes dest MethodDebrid (Z.of_nat (length p)) (dFileSize t)))
  end.

(** Download from the lock of the destination on: the operations and the result. *)
Definition run_transfer (d : disk) : list dop * result derr Result :=
  let '(ops1, x) := newDebridTransfer d in
  let '(ops2, o, x) := openStream x in
  match o with
  | Err err => (ops1 ++ ops2, Err err)
  | Ok None => let '(ops3, r) := finalize (apply_dops d (ops1 ++ ops2)) in (ops1 ++ ops2 ++ ops3, r)
  | Ok (Some resp) =>
      match openPartial x with
      | (_, Some err) => (ops1 ++ ops2, Err err)
      | (ops3, None) =>
          let '(ops4, downloaded, err) := copyPartialBody x resp in
          let ops := ops1 ++ ops2 ++ ops3 ++ persistMeta x ++ ops4 in
          match err with
          | Some err => (ops ++ (if IsIntegrity err then removeArtifacts else []), Err err)
          | None =>
              match persistAndCheck x downloaded with
              | (ops5, Some err) => (ops ++ ops5, Err err)
              | (ops5, None) => let '(ops6, r) := finalize (apply_dops d (ops ++ ops5)) in (ops ++ ops5 ++ ops6, r)
              end
          end
      end
  end.
End Transfer.

Definition debridFileName (t : debridTask) (title : bytes) : bytes :=
  match dFileName t with
  | [] => match title with [] => dInfoHash t | _ => title end
  | n => n
  end.
(** Download of a task whose wait for the destination was not cancelled. *)
Definition Download (isVideoFile : bytes -> bool) (evalSymlinks : bytes -> option bytes) (outputDir title : bytes)
    (t : debridTask) (e : debridEnv) (d : disk) : list dop * result derr Result :=
  if bytes_eqb (dURL t) [] then ([], Err (EPlain "no direct URL provided for debrid download"))
  else match safePath evalSymlinks outputDir (debridFileName t title) with
       | Err _ => ([], Err (EPlain "invalid filename"))
       | Ok dest => run_transfer isVideoFile t dest e d
       end.

(** * What a body writes *)

Definition end_bytes (en : ending) : bytes :=
  match en with EndEOF bs | EndErr bs | EndWrite bs _ => bs | EndCancel => [] end.
Definition body_of (r : response) : bytes := concat (rReads r) ++ end_bytes (rEnd r).

Definition appends (l : list bytes) : list dop := map OAppend l.
Lemma apply_appends d p l :
  dPart d = Some p -> apply_dops d (appends l) = mkDisk (Some (p ++ concat l)) (dMeta d) (dDest d).
Proof.
  revert d p. induction l as [|bs l IH]; intros [dp dm dd] p Hp; simpl in *; subst.
  - by rewrite app_nil_r.
  - rewrite (IH _ (p ++ bs)) by done. simpl. by rewrite app_assoc.
Qed.
Lemma apply_dops_app d a b : apply_dops d (a ++ b) = apply_dops (apply_dops d a) b.
Proof. apply fold_left_app. Qed.

(** The appends of a body write a part of it, all of it when there was no error. *)
Lemma copy_writes x n reads en ops n' err :
  copy_loop x n reads en = (ops, n', err) ->
  exists l, ops = appends l /\ concat l `prefix_of` concat reads ++ end_bytes en /\
    (err = None -> concat l = concat reads ++ end_bytes en /\ n' = n + Z.of_nat (length (concat l)) /\ over x n' = false).
Proof.
  revert n ops. induction reads as [|bs reads IH]; intros n ops; cbn [copy_loop]; cbv zeta.
  - destruct en as [bs|bs| |bs k]; cbn [copy_end]; intros [= <- <- <-].
    + exists [bs]. simpl. rewrite app_nil_r. split_and!; [done|done|]. by destruct (over x (n + Z.of_nat (length bs))) eqn:Eo.
    + exists [bs]. simpl. rewrite app_nil_r. by split_and!.
    + exists []. by split_and!.
    + exists [take k bs]. simpl. rewrite app_nil_r. split_and!; [done| |done]. rewrite <- (take_drop k bs) at 2. by apply prefix_app_r.
  - destruct (over x (n + Z.of_nat (length bs))) eqn:Eo.
    { intros [= <- <- <-]. exists [bs]. simpl. rewrite app_nil_r. split_and!; [done| |done]. rewrite <- app_assoc. by apply prefix_app_r. }
    destruct (copy_loop x _ reads en) as [[ops1 n1] err1] eqn:Ec. intros [= <- <- <-].
    destruct (IH _ _ Ec) as (l & -> & Hp & Hn). exists (bs :: l). simpl. rewrite <- app_assoc. split_and!; [done|by apply prefix_app|].
    intros ->. destruct (Hn eq_refl) as (-> & -> & Ho). split_and!; [done| |done]. rewrite !length_app. lia.
Qed.

Lemma finalize_ok t dest e d ops r :
  finalize t dest e d = (ops, Ok r) ->
  exists p, dPart d = Some p /\ dDest (apply_dops d ops) = Some p /\ resSize r = Z.of_nat (length p) /\ ExpectedBytes r = dFileSize t.
Proof.
  unfold finalize. destruct (statBackOk e); [|done]. destruct (dPart d) as [p|] eqn:Ep; [|done].
  destruct (renameOk e); [|done]. intros [= <- <-]. exists p. split_and!; [done| |done|done]. by destruct (rmMeta e); simpl; rewrite Ep.
Qed.

(** * Exactly the size that was resolved *)

Section Sizes.
Context (t : debridTask) (dest : bytes) (e : debridEnv).

(** What the transfer believes is on the disk. *)
Definition believes (d : disk) (x : transfer) : Prop :=
  xStart x = 0 /\ xTotal x = 0 /\
  match xMeta x with
  | None => xExisting x = 0
  | Some m => exists p, dPart d = Some p /\ p <> [] /\ loadPartMeta d = Some m /\ metaResumable t dest m = true /\ xExisting x = Z.of_nat (length p)
  end.

Lemma new_believes d ops x : newDebridTransfer t dest e d = (ops, x) ->
  believes (apply_dops d ops) x /\ (xMeta x <> None -> ops = []) /\
  Forall (fun op => op = ORemovePart \/ op = ORemoveMeta) ops.
Proof.
  assert (Hrm : Forall (fun op => op = ORemovePart \/ op = ORemoveMeta) (removeArtifacts e)).
  { unfold removeArtifacts. destruct (rmPart e), (rmMeta e); simpl; rewrite ?Forall_cons, ?Forall_nil; naive_solver. }
  unfold newDebridTransfer, loadResumeState.
  destruct (if statFails e then None else dPart d) as [[|b p]|] eqn:Ep.
  - intros [= <- <-]. by split_and!.
  - destruct (statFails e); [done|]. destruct (loadPartMeta d) as [m|] eqn:El.
    2:{ intros [= <- <-]. by split_and!. }
    destruct (metaResumable t dest m) eqn:Em; [|intros [= <- <-]; by split_and!].
    cbn [xMeta]. case_if; intros [= <- <-]; [by split_and!|]. split; [|by split_and!].
    split_and!; [done|done|]. exists (b :: p). by split_and!.
  - intros [= <- <-]. split; [by split_and!|]. split; [done|]. destruct (rmMeta e); rewrite ?Forall_cons, ?Forall_nil; naive_solver.
Qed.

(** The response a transfer goes on with, from the start or after what is there. *)
Definition accepted (d : disk) (x : transfer) (r : response) : Prop :=
  (exists first q, answer e first q = Some r) /\
  (xMeta x = Some (mkMeta (dURL t) (rETag r) (rModified r) (mTotalBytes (default (mkMeta [] [] [] 0 [] []) (xMeta x))) (dInfoHash t) (Base dest))) /\
  (0 < dFileSize t -> xTotal x = dFileSize t) /\
  ((xStart x = 0 /\ rStatus r = 200 /\ (0 < rLength r -> xTotal x = rLength r)) \/
   (exists stop total, rStatus r = 206 /\ rRange r = Satisfied (xStart x) stop total /\ 0 <= xStart x /\
      (0 < default 0 total -> xTotal x = default 0 total) /\
      (0 < xStart x -> exists m p, dPart d = Some p /\ loadPartMeta d = Some m /\ metaResumable t dest m = true /\ xStart x = Z.of_nat (length p)))).

(** A request that was answered or not, without the partial being complete. *)
Definition goes_on (d : disk) (y : opened) : Prop :=
  let '(ops, o, x) := y in
  (ops = [] \/ ops = removeArtifacts e) /\ (forall resp, o = Ok (Some resp) -> ops = [] /\ accepted d x resp) /\ o <> Ok None.
(** The partial is the whole file, as the server said. *)
Definition complete (d : disk) : Prop :=
  exists m p r, dPart d = Some p /\ loadPartMeta d = Some m /\ metaResumable t dest m = true /\
    answer e true (mkReq (Some (Z.of_nat (length p))) (ifRangeValidator (Some m))) = Some r /\ rStatus r = 416 /\
    (0 < dFileSize t -> Z.of_nat (length p) = dFileSize t).
Lemma error_goes_on d c x : goes_on d ([], Err c, x).
Proof. split_and!; [by left|done|done]. Qed.
#[local] Hint Resolve error_goes_on : core.

Lemma full_goes_on d x r :
  xStart x = 0 -> (exists first q, answer e first q = Some r) -> rStatus r = 200 ->
  goes_on d (enforceExpectedSize t e (acceptFull t dest x r) r).
Proof.
  intros Hs Ha Hr. unfold enforceExpectedSize, acceptFull. cbn. case_if.
  { split_and!; [by left| |done]. intros resp [= <-]. split; [done|]. bprop.
    split_and!; [done|done|cbn; lia|]. left. split_and!; [done|done|]. intros H. cbn. destruct (Z.ltb_spec 0 (rLength r)); [done|lia]. }
  case_if; [by split_and!; [right| |]|].
  split_and!; [by left| |done]. intros resp [= <-]. split; [done|]. split_and!; [done|done|done|]. left. split_and!; [done|done|].
  intros H. cbn. apply Z.ltb_lt in H. rewrite H in E0. rewrite H in E0. cbn in E0. apply negb_false_iff, Z.eqb_eq in E0. done.
Qed.

Lemma restart_goes_on d x : xStart x = 0 -> goes_on d (restartFull t dest e x).
Proof.
  intros Hs. unfold restartFull, doRequest. destruct (answer e false _) as [r|] eqn:Ea; [|done].
  destruct (Z.eqb_spec (rStatus r) 200); [|done]. apply full_goes_on; [done|by eauto|done].
Qed.

Lemma partial_goes_on d x r x1 :
  believes d x -> (exists first q, answer e first q = Some r) -> rStatus r = 206 ->
  acceptPartial t dest x r = Some x1 -> goes_on d (enforceExpectedSize t e x1 r).
Proof.
  intros (Hs & Ht & Hm) Ha Hr. unfold acceptPartial. destruct (rRange r) as [|start stop total|total] eqn:Er; simpl; try done.
  destruct ((start <? 0) || negb (start =? xExisting x)) eqn:Eo; [done|]. apply orb_false_iff in Eo as [E1 E2].
  apply Z.ltb_ge in E1. apply negb_false_iff, Z.eqb_eq in E2. subst start.
  destruct (match xMeta x with Some m => _ | None => false end); [done|]. intros [= <-].
  set (x1 := saveMetaFrom _ _ _ _).
  assert (Hok : forall x2, xStart x2 = xExisting x -> xMeta x2 = xMeta x1 -> (0 < dFileSize t -> xTotal x2 = dFileSize t) ->
     (0 < default 0 total -> xTotal x2 = default 0 total) -> accepted d x2 r).
  { intros x2 H1 H2 H3 H4. split; [done|]. split; [by rewrite H2|]. split; [done|]. right. exists stop, total. rewrite H1.
    split_and!; [done|done|done|done|]. intros Hpos. destruct (xMeta x) as [m|]; [|lia]. destruct Hm as (p & ? & ? & ? & ? & ?). by exists m, p. }
  unfold enforceExpectedSize. destruct (Z.leb_spec (dFileSize t) 0).
  { split_and!; [by left| |done]. intros resp [= <-]. split; [done|]. apply Hok; [done|done|lia|].
    intros Hd. subst x1. cbn. apply Z.ltb_lt in Hd. by rewrite Hd. }
  case_if; [by split_and!; [right| |]|]. split_and!; [by left| |done]. intros resp [= <-]. split; [done|].
  apply Hok; [done|done|done|]. intros Hd. cbn. subst x1. cbn in E. apply Z.ltb_lt in Hd. rewrite Hd in E. rewrite Hd in E. cbn in E.
  apply negb_false_iff, Z.eqb_eq in E. done.
Qed.

(** What openStream settles. *)
Lemma open_spec d x :
  believes d x ->
  goes_on d (openStream t dest e x) \/ (openStream t dest e x = ([], Ok None, x) /\ complete d).
Proof.
  intros Hb. unfold openStream. destruct (doRequest e x true (0 <? xExisting x)) as [r|] eqn:Ea; [|by left].
  assert (Hans : exists first q, answer e first q = Some r) by (unfold doRequest in Ea; by eauto).
  pose proof Hb as (Hs & Ht & Hm).
  destruct (Z.eqb_spec (rStatus r) 200); [left; by apply full_goes_on|].
  destruct (Z.eqb_spec (rStatus r) 206).
  { left. destruct (acceptPartial t dest x r) as [x1|] eqn:Ep; [by eapply partial_goes_on|by apply restart_goes_on]. }
  destruct (Z.eqb_spec (rStatus r) 416) as [E416|]; [|by left].
  unfold handle416. destruct (Z.eqb_spec (xExisting x) 0) as [|Hex]; [by left|].
  destruct ((0 <? dFileSize t) && negb (xExisting x =? dFileSize t)) eqn:Ed; [left; by apply restart_goes_on|].
  assert (Hc : complete d).
  { destruct (xMeta x) as [m|] eqn:Em; [|done]. destruct Hm as (p & Hp & Hne & Hl & Hr & Hx). exists m, p, r.
    split_and!; [done|done|done| |done|].
    - unfold doRequest in Ea. rewrite Hx, Em in Ea. destruct (Z.ltb_spec 0 (Z.of_nat (length p))); [done|].
      destruct p; [done|simpl in *; lia].
    - intros Hd. apply Z.ltb_lt in Hd. rewrite Hd, Hx in Ed. cbn in Ed. by apply negb_false_iff, Z.eqb_eq in Ed. }
  destruct (parseContentRange (rRange r)) as [[[? ?] serverSize]|]; [|by right].
  case_if; [left; by apply restart_goes_on|by right].
Qed.

(** The partial a body is written to holds what the server was asked to continue. *)
Lemma opened_partial d x r ops :
  accepted d x r -> openPartial e x = (ops, None) ->
  exists p, dPart (apply_dops d (ops ++ persistMeta e x)) = Some p /\ Z.of_nat (length p) = xStart x.
Proof.
  intros (_ & Hm & _ & Hx). unfold openPartial. destruct (CheckDiskSpace _ _ _); [done|].
  destruct (mkdirOk e); [|done]. destruct (openOk e); [|done]. intros [= <-].
  assert (Hk : forall d', dPart (apply_dops d' (persistMeta e x)) = dPart d').
  { intros d'. unfold persistMeta. rewrite Hm. by destruct (metaOk e). }
  rewrite apply_dops_app, Hk. destruct (Z.ltb_spec 0 (xStart x)) as [Hpos|Hz].
  - destruct Hx as [(? & _)|(? & ? & _ & _ & _ & _ & Hx)]; [lia|]. destruct (Hx Hpos) as (m & p & Hp & _ & _ & Hl). by exists p.
  - exists []. split; [done|]. destruct Hx as [(? & _)|(? & ? & _ & _ & ? & _)]; simpl; lia.
Qed.

(** The checks after a clean body: the partial has the length of the transfer. *)
Lemma checked_size isVideoFile x n ops :
  persistAndCheck isVideoFile dest e x n = (ops, None) -> over x n = false -> ops = [] /\ (0 < xTotal x -> n = xTotal x).
Proof.
  unfold persistAndCheck, over. repeat (case_if; [done|]). intros [= <-] Ho. split; [done|].
  intros Hp. apply Z.ltb_lt in Hp. rewrite Hp in *. cbn in *. apply Z.ltb_ge in Ho. apply Z.ltb_ge in E0. lia.
Qed.

Lemma run_sizes isVideoFile d ops r :
  run_transfer isVideoFile t dest e d = (ops, Ok r) ->
  exists f, dDest (apply_dops d ops) = Some f /\ resSize r = Z.of_nat (length f) /\ ExpectedBytes r = dFileSize t /\
    (0 < dFileSize t -> Z.of_nat (length f) = dFileSize t).
Proof.
  unfold run_transfer. destruct (newDebridTransfer t dest e d) as [ops1 x] eqn:En.
  destruct (new_believes _ _ _ En) as (Hb & _ & _). set (d1 := apply_dops d ops1) in *.
  destruct (open_spec _ _ Hb) as [Hg|[Hc (m & p & r0 & Hp & _ & _ & _ & _ & Hsz)]].
  2:{ rewrite Hc. rewrite app_nil_r. fold d1. destruct (finalize t dest e d1) as [ops3 [r1|]] eqn:Ef; [|done].
      cbn [app]. intros [= <- <-]. destruct (finalize_ok _ _ _ _ _ _ Ef) as (p' & Hp' & Hd & Hs & He). exists p'.
      rewrite apply_dops_app. fold d1. split_and!; [done|done|done|]. intros Hpos. simplify_eq. by apply Hsz. }
  destruct (openStream t dest e x) as [[ops2 [[resp|]|]] x2]; destruct Hg as (Hops & Hacc & Hnone); [| |done].
  2:{ by destruct Hnone. }
  destruct (Hacc resp eq_refl) as [-> Ha]. clear Hops Hacc Hnone.
  destruct (openPartial e x2) as [ops3 [|]] eqn:Eo; [done|]. destruct (opened_partial _ _ _ _ Ha Eo) as (p0 & Hp0 & Hl0).
  unfold copyPartialBody. destruct (copy_loop x2 (xStart x2) _ _) as [[ops4 n] err] eqn:Ec.
  destruct (copy_writes _ _ _ _ _ _ _ Ec) as (l & -> & _ & Hn). destruct err as [err|]; [done|].
  destruct (Hn eq_refl) as (_ & Hlen & Hov). destruct (persistAndCheck isVideoFile dest e x2 n) as [ops5 [|]] eqn:Ep; [done|].
  destruct (checked_size _ _ _ _ Ep Hov) as [-> Htot].
  set (opsA := ops1 ++ [] ++ ops3 ++ persistMeta e x2 ++ appends l).
  assert (Hpart : dPart (apply_dops d opsA) = Some (p0 ++ concat l)).
  { subst opsA. rewrite apply_dops_app. fold d1. cbn [app]. rewrite app_assoc, apply_dops_app.
    by rewrite (apply_appends _ p0) by done. }
  rewrite app_nil_r. destruct (finalize t dest e (apply_dops d opsA)) as [ops6 [r1|]] eqn:Ef; [|done].
  cbn [app]. intros [= <- <-]. destruct (finalize_ok _ _ _ _ _ _ Ef) as (p' & Hp' & Hd & Hs & He). exists p'.
  rewrite apply_dops_app. split_and!; [done|done|done|]. intros Hpos. simplify_eq.
  destruct Ha as (_ & _ & Hexp & _). rewrite (Hexp Hpos) in Htot. specialize (Htot Hpos). rewrite length_app. lia.
Qed.
End Sizes.

(** Whatever the server sends and the file system does, a debrid download that
    succeeds has published a file of the size it reports, and exactly of the size the
    service resolved for the task when it resolved one: a link to another file, a
    short or an overlong body and a complete partial of another length never end as a
    finished download. *)
Lemma debrid_size_exact isVideoFile evalSymlinks outputDir title t e d ops r :
  Download isVideoFile evalSymlinks outputDir title t e d = (ops, Ok r) ->
  exists f, dDest (apply_dops d ops) = Some f /\ resSize r = Z.of_nat (length f) /\ ExpectedBytes r = dFileSize t /\
    (0 < dFileSize t -> Z.of_nat (length f) = dFileSize t).
Proof.
  unfold Download. case_if; [done|]. destruct (safePath _ _ _) as [dest|]; [|done]. apply run_sizes.
Qed.

(** * Never two files in one *)

Section Honest.
(** The file behind every link, and the file of every torrent and name. *)
Context (content : bytes -> bytes) (torrent : bytes -> bytes -> bytes).

(** HTTP: a 200 sends the file from its start, a 206 from the offset its header
    names, a 416 means the range starts past the end; declared lengths are right. *)
Definition honest (t : debridTask) (q : request) (r : response) : Prop :=
  let c := content (dURL t) in
  (rStatus r = 200 -> body_of r `prefix_of` c /\ (0 < rLength r -> rLength r = Z.of_nat (length c))) /\
  (rStatus r = 206 -> forall start stop total, rRange r = Satisfied start stop total -> 0 <= start ->
     body_of r `prefix_of` drop (Z.to_nat start) c /\ (0 < default 0 total -> default 0 total = Z.of_nat (length c))) /\
  (rStatus r = 416 -> forall n, qRange q = Some n -> Z.of_nat (length c) <= n).
(** The names a task carries are those of its link's file. *)
Definition names_file (t : debridTask) (dest : bytes) : Prop :=
  dInfoHash t <> [] -> content (dURL t) = torrent (dInfoHash t) (Base dest).
Definition fair (t : debridTask) (dest : bytes) (e : debridEnv) : Prop :=
  (forall first q r, answer e first q = Some r -> honest t q r) /\ names_file t dest /\ metaOk e = true.

(** A partial with a sidecar is the front of the file its sidecar names. *)
Definition provenance (d : disk) : Prop :=
  forall p m, dPart d = Some p -> dMeta d = Some (Side m) -> p <> [] ->
    p `prefix_of` content (mURL m) /\ (mInfoHash m <> [] -> content (mURL m) = torrent (mInfoHash m) (mFileName m)).
Fixpoint safe (d : disk) (ops : list dop) : Prop :=
  provenance d /\ match ops with [] => True | op :: rest => safe (apply_dop d op) rest end.

Lemma safe_app d a b : safe d a -> safe (apply_dops d a) b -> safe d (a ++ b).
Proof. revert d. induction a as [|op a IH]; intros d; [done|]. intros [H1 H2] Hb. split; [done|]. by apply IH. Qed.
Lemma safe_start d ops : safe d ops -> provenance d.
Proof. destruct ops; by intros [? _]. Qed.
Lemma safe_end d ops : safe d ops -> provenance (apply_dops d ops).
Proof. revert d. induction ops as [|op ops IH]; intros d [H1 H2]; [done|]. by apply IH. Qed.
Lemma safe_take d ops k : safe d ops -> provenance (apply_dops d (take k ops)).
Proof.
  revert d k. induction ops as [|op ops IH]; intros d k [H1 H2]; [by destruct k|]. destruct k as [|k]; [done|]. by apply (IH _ k).
Qed.
Lemma safe_removes d ops :
  Forall (fun op => op = ORemovePart \/ op = ORemoveMeta) ops -> provenance d -> safe d ops.
Proof.
  revert d. induction ops as [|op ops IH]; intros d Hf Hp; [done|]. apply Forall_cons in Hf as [Hop Hf]. split; [done|].
  apply IH; [done|]. intros p m. destruct Hop as [-> | ->]; simpl; [done|done].
Qed.
Lemma artifacts_removes e : Forall (fun op => op = ORemovePart \/ op = ORemoveMeta) (removeArtifacts e).
Proof. unfold removeArtifacts. destruct (rmPart e), (rmMeta e); simpl; rewrite ?Forall_cons, ?Forall_nil; naive_solver. Qed.
Lemma safe_artifacts e d : provenance d -> safe d (removeArtifacts e).
Proof. apply safe_removes, artifacts_removes. Qed.

Context (isVideoFile : bytes -> bool) (t : debridTask) (dest : bytes) (e : debridEnv).
Hypothesis Hfair : fair t dest e.

(** The sidecar's file is the task's. *)
Lemma resumable_same d p m :
  provenance d -> dPart d = Some p -> p <> [] -> loadPartMeta d = Some m -> metaResumable t dest m = true ->
  p `prefix_of` content (dURL t).
Proof.
  intros Hi Hp Hne Hl Hr. unfold loadPartMeta in Hl. destruct (dMeta d) as [[|m']|] eqn:Em; [done| |done].
  case_if_in Hl; [done|]. injection Hl as <-. destruct (Hi p m' Hp Em Hne) as [Hpre Hh]. unfold metaResumable in Hr.
  apply orb_true_iff in Hr as [Hr|Hr]; [apply bytes_eqb_eq in Hr; congruence|].
  apply andb_true_iff in Hr as [Hr H4]. apply andb_true_iff in Hr as [Hr H3]. apply andb_true_iff in Hr as [H1 H2].
  apply bytes_eqb_eq in H2, H4. assert (Hne' : mInfoHash m' <> []).
  { intros Hc. by rewrite Hc in H1. }
  destruct Hfair as (_ & Hn & _). rewrite Hn by congruence. rewrite <- H2, <- H4. by rewrite <- Hh.
Qed.

Lemma body_fits d x r :
  provenance d -> accepted t dest e d x r ->
  exists p, (0 < xStart x -> dPart d = Some p) /\ Z.of_nat (length p) = xStart x /\ (p ++ body_of r) `prefix_of` content (dURL t).
Proof.
  intros Hi ((first & q & Ha) & _ & _ & Hx). destruct Hfair as (Hh & _). destruct (Hh first q r Ha) as (H200 & H206 & _).
  destruct Hx as [(H0 & Hs & _)|(stop & total & Hs & Hr & Hge & _ & Hx)].
  - exists []. split_and!; [lia|done|]. by apply H200.
  - destruct (H206 Hs _ _ _ Hr Hge) as [Hb _]. destruct (Z.ltb_spec 0 (xStart x)) as [Hpos|Hz].
    + destruct (Hx Hpos) as (m & p & Hp & Hl & Hm & Hlen). exists p. split_and!; [done|done|].
      assert (Hne : p <> []) by (intros ->; simpl in *; lia).
      destruct (resumable_same d p m Hi Hp Hne Hl Hm) as [rest Hc]. rewrite Hc in Hb |- *.
      rewrite Hlen, Nat2Z.id, drop_app_length in Hb. by apply prefix_app.
    + exists []. assert (Hz0 : xStart x = 0) by lia. rewrite Hz0 in Hb. split_and!; [lia|done|done].
Qed.

Lemma safe_appends d p m l :
  dPart d = Some p -> dMeta d = Some (Side m) -> (p ++ concat l) `prefix_of` content (mURL m) ->
  (mInfoHash m <> [] -> content (mURL m) = torrent (mInfoHash m) (mFileName m)) -> safe d (appends l).
Proof.
  revert d p. induction l as [|bs l IH]; intros [dp dm dd] p Hp Hm Hpre Hh; simpl in *; subst;
    (split; [intros p' m' [= <-] [= <-] _; split; [|done]; etrans; [|exact Hpre]; by apply prefix_app_r|]); [done|].
  apply (IH _ (p ++ bs)); [done|done| |done]. by rewrite <- app_assoc.
Qed.

Lemma stream_safe d x r ops l :
  provenance d -> accepted t dest e d x r -> openPartial e x = (ops, None) -> concat l `prefix_of` body_of r ->
  safe d (ops ++ persistMeta e x ++ appends l) /\
  exists p, dPart (apply_dops d (ops ++ persistMeta e x ++ appends l)) = Some (p ++ concat l) /\ Z.of_nat (length p) = xStart x /\
    (p ++ concat l) `prefix_of` content (dURL t).
Proof.
  intros Hi Ha Ho Hl. destruct (body_fits _ _ _ Hi Ha) as (p & Hp & Hlen & Hpre).
  assert (Hpl : (p ++ concat l) `prefix_of` content (dURL t)) by (etrans; [|exact Hpre]; by apply prefix_app).
  destruct (opened_partial _ _ _ _ _ _ _ Ha Ho) as (p' & Hp' & Hlen').
  destruct Ha as (_ & Hm & _). destruct Hfair as (_ & Hn & Hok).
  set (m := mkMeta _ _ _ _ _ _) in Hm. unfold persistMeta in *. rewrite Hm, Hok in *.
  unfold openPartial in Ho. destruct (CheckDiskSpace _ _ _); [done|]. destruct (mkdirOk e); [|done]. destruct (openOk e); [|done].
  injection Ho as <-. set (ops := if 0 <? xStart x then [] else [OTruncate]) in *.
  assert (Hpp : p' = p).
  { subst ops. destruct (Z.ltb_spec 0 (xStart x)) as [Hpos|Hz]; simpl in Hp'; [rewrite (Hp Hpos) in Hp'; congruence|].
    injection Hp' as <-. destruct p; [done|simpl in *; lia]. }
  subst p'. rewrite app_assoc. set (d1 := apply_dops d (ops ++ [OMeta m])) in *.
  assert (Hd1 : dMeta d1 = Some (Side m)) by (subst d1; by rewrite apply_dops_app).
  split.
  - apply safe_app.
    + assert (Hs : safe d ops).
      { subst ops. destruct (0 <? xStart x); [done|]. split; [done|]. split; [|done]. by intros ? ? [= <-]. }
      apply safe_app; [done|]. split; [by apply safe_end|]. split; [|done].
      intros p0 m0 H0 [= <-] _. subst d1. rewrite apply_dops_app in Hp'. simpl in Hp', H0. rewrite Hp' in H0. injection H0 as <-.
      split; [etrans; [|exact Hpl]; by apply prefix_app_r|done].
    + by apply (safe_appends d1 p m).
  - exists p. rewrite apply_dops_app. fold d1. by rewrite (apply_appends _ p).
Qed.

(** Every server tells the length of what it sends. *)
Definition lengths_told : Prop :=
  forall first q r, answer e first q = Some r ->
    (rStatus r = 200 -> 0 < rLength r) /\
    (rStatus r = 206 -> forall start stop total, rRange r = Satisfied start stop total -> 0 < default 0 total).
Definition published (d : disk) : Prop :=
  exists f, dDest d = Some f /\ f `prefix_of` content (dURL t) /\
    ((0 < dFileSize t /\ dFileSize t = Z.of_nat (length (content (dURL t)))) \/ lengths_told -> f = content (dURL t)).

Lemma prefix_whole {A} (f c : list A) : f `prefix_of` c -> (length c <= length f)%nat -> f = c.
Proof. intros [k ->] Hl. rewrite length_app in Hl. destruct k; [by rewrite app_nil_r|simpl in *; lia]. Qed.

Lemma finalize_safe d : provenance d -> safe d (fst (finalize t dest e d)).
Proof.
  intros Hi. unfold finalize. destruct (if statBackOk e then dPart d else None) as [p|] eqn:Ep; [|done].
  destruct (statBackOk e); [|done]. destruct (renameOk e); [|done]. split; [done|]. simpl. rewrite Ep.
  destruct (rmMeta e); simpl; by split_and!.
Qed.

(** A clean body that passed the checks is the rest of the file, when its length is known. *)
Lemma known_total d x r n :
  accepted t dest e d x r -> (0 < xTotal x -> n = xTotal x) ->
  (0 < dFileSize t /\ dFileSize t = Z.of_nat (length (content (dURL t)))) \/ lengths_told -> n = Z.of_nat (length (content (dURL t))).
Proof.
  intros ((first & q & Ha) & _ & Hexp & Hx) Hn [[Hpos He]|Htold].
  - rewrite Hn; [by rewrite Hexp, He|by rewrite Hexp].
  - destruct (Htold _ _ _ Ha) as [T200 T206]. destruct Hfair as (Hh & _). destruct (Hh _ _ _ Ha) as (H200 & H206 & _).
    destruct Hx as [(H0 & Hs & Ht)|(stop & total & Hs & Hr & Hge & Ht & _)].
    + rewrite Hn; [rewrite Ht by auto; by apply H200; [|auto]|rewrite Ht; auto].
    + destruct (H206 Hs _ _ _ Hr Hge) as [_ Hc]. specialize (T206 Hs _ _ _ Hr). rewrite Hn; [rewrite Ht; auto|rewrite Ht; auto].
Qed.

Lemma run_safe d ops res :
  provenance d -> run_transfer isVideoFile t dest e d = (ops, res) ->
  safe d ops /\ (forall r, res = Ok r -> published (apply_dops d ops)).
Proof.
  intros Hi. unfold run_transfer. destruct (newDebridTransfer t dest e d) as [ops1 x] eqn:En.
  destruct (new_believes _ _ _ _ _ _ En) as (Hb & _ & Hrm). pose proof (safe_removes _ _ Hrm Hi) as S1.
  pose proof (safe_end _ _ S1) as Hi1. set (d1 := apply_dops d ops1) in *.
  destruct (open_spec _ _ e _ _ Hb) as [Hg|[Hc (m & p & r0 & Hp & Hl & Hr & Ha & H416 & _)]].
  2:{ rewrite Hc, app_nil_r. fold d1. pose proof (finalize_safe d1 Hi1) as S2.
      destruct (finalize t dest e d1) as [ops3 r1] eqn:Ef. cbn [app]. intros [= <- <-]. split; [by apply safe_app|].
      intros r ->. destruct (finalize_ok _ _ _ _ _ _ Ef) as (p' & Hp' & Hd & _). simplify_eq. exists p. rewrite apply_dops_app.
      destruct Hfair as (Hh & _). destruct (Hh _ _ _ Ha) as (_ & _ & Hend). specialize (Hend H416 _ eq_refl).
      assert (Hpre : p `prefix_of` content (dURL t)).
      { destruct p; [by apply prefix_nil|]. by eapply resumable_same. }
      split_and!; [done|done|]. intros _. apply prefix_whole; [done|lia]. }
  destruct (openStream t dest e x) as [[ops2 [[resp|]|err]] x2]; destruct Hg as (Hops & Hacc & Hnone).
  2:{ by destruct Hnone. }
  2:{ intros [= <- <-]. split; [|done]. apply safe_app; [done|]. destruct Hops as [-> | ->]; [done|by apply safe_artifacts]. }
  destruct (Hacc resp eq_refl) as [-> Hac]. clear Hops Hacc Hnone. rewrite app_nil_r.
  destruct (openPartial e x2) as [ops3 [|]] eqn:Eo; [by intros [= <- <-]|].
  unfold copyPartialBody. destruct (copy_loop x2 (xStart x2) _ _) as [[ops4 n] err] eqn:Ec.
  destruct (copy_writes _ _ _ _ _ _ _ Ec) as (l & -> & Hpre & Hn). cbn [app].
  destruct (stream_safe _ _ _ _ _ Hi1 Hac Eo Hpre) as (S2 & p & Hpart & Hlen & Hpc).
  set (opsA := ops3 ++ persistMeta e x2 ++ appends l) in *. pose proof (safe_app _ _ _ S1 S2) as S3.
  pose proof (safe_end _ _ S3) as Hi3. destruct err as [err|].
  { intros [= <- <-]. split; [|done]. apply safe_app; [done|]. case_if; [by apply safe_artifacts|done]. }
  destruct (Hn eq_refl) as (_ & Hcount & Hov).
  destruct (persistAndCheck isVideoFile dest e x2 n) as [ops5 [err|]] eqn:Ep.
  { intros [= <- <-]. split; [|done]. apply safe_app; [done|]. unfold persistAndCheck in Ep.
    repeat (case_if_in Ep; [injection Ep as <- <-; first [by apply safe_artifacts|done]|]). done. }
  destruct (checked_size _ _ _ _ _ _ Ep Hov) as [-> Htot]. rewrite app_nil_r.
  pose proof (finalize_safe _ Hi3) as S4. destruct (finalize t dest e (apply_dops d (ops1 ++ opsA))) as [ops6 r1] eqn:Ef.
  cbn [app]. intros [= <- <-]. split; [by apply safe_app|]. intros r ->.
  destruct (finalize_ok _ _ _ _ _ _ Ef) as (p' & Hp' & Hd & _). rewrite apply_dops_app in Hp'. fold d1 in Hp'. rewrite Hpart in Hp'.
  injection Hp' as <-. exists (p ++ concat l). rewrite apply_dops_app. split_and!; [done|done|]. intros Hk.
  pose proof (known_total _ _ _ _ Hac Htot Hk) as Hfull. apply prefix_whole; [done|]. rewrite length_app. lia.
Qed.
End Honest.

(** * A destination over time *)

(** A run of some task on the destination, killed after some operations or not. *)
Record attempt := mkAttempt { aTask : debridTask; aEnv : debridEnv; aKilled : option nat }.
Definition attempt_ops (isVideoFile : bytes -> bool) (dest : bytes) (d : disk) (a : attempt) : list dop :=
  let ops := fst (run_transfer isVideoFile (aTask a) dest (aEnv a) d) in
  match aKilled a with Some k => take k ops | None => ops end.
Definition attempts (isVideoFile : bytes -> bool) (dest : bytes) (d : disk) (l : list attempt) : disk :=
  fold_left (fun d a => apply_dops d (attempt_ops isVideoFile dest d a)) l d.

Section History.
Context (content : bytes -> bytes) (torrent : bytes -> bytes -> bytes) (isVideoFile : bytes -> bool) (dest : bytes).

Lemma attempts_safe l d :
  Forall (fun a => fair content torrent (aTask a) dest (aEnv a)) l -> provenance content torrent d ->
  provenance content torrent (attempts isVideoFile dest d l).
Proof.
  revert d. induction l as [|a l IH]; intros d Hf Hi; [done|]. apply Forall_cons in Hf as [Ha Hf]. simpl. apply IH; [done|].
  unfold attempt_ops. destruct (run_transfer isVideoFile (aTask a) dest (aEnv a) d) as [ops res] eqn:Er. cbn [fst].
  destruct (run_safe _ _ isVideoFile _ _ _ Ha _ _ _ Hi Er) as [Hs _].
  destruct (aKilled a) as [k|]; [by apply safe_take|by apply safe_end].
Qed.

(** C11: Whatever tasks, links and interruptions a destination has seen — a process
    killed between any two file operations, streams cut, writes and removals that
    failed, links minted anew — a debrid download that succeeds publishes the bytes of
    its own link's file and never a splice of two: a part of it from the start, and all
    of it when the service or the server told its length.  The servers answer as HTTP
    says, links of the same torrent and file name serve the same bytes, and sidecars
    can be written. *)
Theorem debrid_never_splices history t e d :
  Forall (fun a => fair content torrent (aTask a) dest (aEnv a)) history -> fair content torrent t dest e ->
  provenance content torrent d ->
  let d := attempts isVideoFile dest d history in
  forall ops r, run_transfer isVideoFile t dest e d = (ops, Ok r) -> published content t e (apply_dops d ops).
Proof.
  intros Hf Ht Hi d1 ops r Hr. pose proof (attempts_safe _ _ Hf Hi) as Hi1.
  destruct (run_safe _ _ _ _ _ _ Ht _ _ _ Hi1 Hr) as [_ Hp]. by apply (Hp r).
Qed.
End History.

(** * Cancelling *)

(** The tasks that run, and the destination of each. *)
Record DebridDownloader := mkDebridDl { active : gset bytes; destPaths : gmap bytes bytes }.
Definition track (s : DebridDownloader) (taskID dest : bytes) : DebridDownloader :=
  mkDebridDl ({[taskID]} ∪ active s) (<[taskID := dest]> (destPaths s)).
Definition untrack (s : DebridDownloader) (taskID : bytes) : DebridDownloader :=
  mkDebridDl (active s ∖ {[taskID]}) (delete taskID (destPaths s)).
Definition Pause (s : DebridDownloader) (taskID : bytes) : DebridDownloader :=
  mkDebridDl (active s ∖ {[taskID]}) (destPaths s).
Definition Shutdown (s : DebridDownloader) : DebridDownloader :=
  mkDebridDl ∅ (filter (fun kv => kv.1 ∉ active s) (destPaths s)).
Definition destClaimedBy (s : DebridDownloader) (dest : bytes) : bool :=
  bool_decide (map_Exists (fun _ p => p = dest) (destPaths s)).
(** [locked]: the destination's lock was obtained in time.  [d] are the files of [dest]. *)
Definition removeDestFiles (s : DebridDownloader) (dest : bytes) (locked : bool) (d : disk) : disk :=
  if negb locked then d
  else if destClaimedBy s dest then d
  else mkDisk None None None.
(** Cancel; [during] is what other goroutines do to the table while it waits for the
    download to return. *)
Definition Cancel (s : DebridDownloader) (taskID : bytes) (during : DebridDownloader -> DebridDownloader) (locked : bool) (d : disk)
    : DebridDownloader * disk :=
  let s1 := mkDebridDl (active s ∖ {[taskID]}) (delete taskID (destPaths s)) in
  let s2 := during s1 in
  match destPaths s !! taskID with
  | Some ((_ :: _) as dest) => (s2, removeDestFiles s2 dest locked d)
  | _ => (s2, d)
  end.

(** A destination another task has is left alone. *)
Lemma cancel_spares_claimed s taskID other dest during locked d :
  destPaths s !! taskID = Some dest -> destPaths (during (mkDebridDl (active s ∖ {[taskID]}) (delete taskID (destPaths s)))) !! other = Some dest ->
  snd (Cancel s taskID during locked d) = d.
Proof.
  intros Hd Ho. unfold Cancel. rewrite Hd. destruct dest as [|b dest]; [done|]. simpl. unfold removeDestFiles.
  destruct locked; [|done]. simpl. unfold destClaimedBy. rewrite bool_decide_eq_true_2; [done|]. exists other, (b :: dest). split; [exact Ho|done].
Qed.

(** * Runs *)

Definition noVideo : bytes -> bool := fun _ => false.
Definition demo_task (url : string) : debridTask := mkDebrid (str "hash") (str url) (str "film.mkv") 6 None [].
Definition demo_env (ans : bool -> request -> option response) (sidecarOk : bool) : debridEnv :=
  mkEnv false true true ans None 0 true true sidecarOk true true false true true.
(** A server of one file that honours ranges; the first body may be cut. *)
Definition serve (file : bytes) (cut : option nat) (q : request) : option response :=
  let total := Z.of_nat (length file) in
  let from := match qRange q with Some n => Z.to_nat n | None => O end in
  let rest := drop from file in
  let body := match cut with Some k => take k rest | None => rest end in
  let en := match cut with Some _ => EndErr [] | None => EndEOF [] end in
  Some (match qRange q with
        | None => mkResp 200 total NoRange [] [] [body] en
        | Some n => if (length file <=? from)%nat then mkResp 416 0 (Unsatisfied total) [] [] [] (EndEOF [])
                    else mkResp 206 (total - n) (Satisfied n (total - 1) (Some total)) [] [] [body] en
        end).

Definition two_links (url : bytes) : bytes := str "abcdef".
Lemma serve_honest t file cut q r :
  two_links (dURL t) = file -> (forall n, qRange q = Some n -> 0 <= n) -> serve file cut q = Some r -> honest two_links t q r.
Proof.
  intros Hf Hq [= <-]. unfold honest. rewrite Hf. destruct (qRange q) as [n|] eqn:En.
  - specialize (Hq n eq_refl). destruct (Nat.leb_spec (length file) (Z.to_nat n)); simpl.
    + split_and!; [done|done|]. intros _ k [= <-]. lia.
    + split_and!; [done| |done]. intros _ start stop total [= <- <- <-] Hs. split; [|done].
      unfold body_of. simpl. rewrite app_nil_r. destruct cut as [k|]; simpl; rewrite app_nil_r; [|done].
      rewrite <- (take_drop k (drop _ file)) at 2. by apply prefix_app_r.
  - simpl. split_and!; [|done|done]. intros _. split; [|done]. unfold body_of. simpl. rewrite app_nil_r. rewrite drop_0.
    destruct cut as [k|]; simpl; rewrite app_nil_r; [|done]. rewrite <- (take_drop k file) at 2. by apply prefix_app_r.
Qed.

(** The first run is killed three bytes into the file; a new link resumes it. *)
Definition demo_dest : bytes := str "/downloads/film.mkv".
Definition demo_cut : debridEnv := demo_env (fun _ => serve (str "abcdef") (Some 3%nat)) true.
Definition demo_rest : debridEnv := demo_env (fun _ => serve (str "abcdef") None) true.
Definition no_files : disk := mkDisk None None None.

Lemma debrid_size_exact_witness :
  exists f, dDest (apply_dops no_files (fst (Download noVideo (fun _ => None) (str "/downloads") [] (demo_task "u1") demo_rest no_files))) = Some f /\
    Z.of_nat (length f) = 6.
Proof.
  destruct (debrid_size_exact noVideo (fun _ => None) (str "/downloads") [] (demo_task "u1") demo_rest no_files
    (fst (Download noVideo (fun _ => None) (str "/downloads") [] (demo_task "u1") demo_rest no_files))
    (mkRes demo_dest MethodDebrid 6 6)) as (f & Hf & _ & _ & Hs); [vm_compute; reflexivity|].
  exists f. split; [exact Hf|]. apply Hs. reflexivity.
Defined.

(** Only offsets of files are asked for. *)
Definition in_file (serve : request -> option response) (q : request) : option response :=
  match qRange q with Some n => if n <? 0 then None else serve q | None => serve q end.
Lemma in_file_honest t file cut q r :
  two_links (dURL t) = file -> in_file (serve file cut) q = Some r -> honest two_links t q r.
Proof.
  intros Hf. unfold in_file. destruct (qRange q) as [n|] eqn:En; [case_if; [done|]|]; intros Hs;
    (eapply serve_honest; [done| |done]); rewrite En; intros k [= <-]; by apply Z.ltb_ge.
Qed.
Definition demo_env_in (cut : option nat) : debridEnv := demo_env (fun _ => in_file (serve (str "abcdef") cut)) true.
Definition demo_past : list attempt := [mkAttempt (demo_task "u1") (demo_env_in (Some 3%nat)) (Some 4%nat)].
Lemma demo_fair url cut : fair two_links (fun _ _ => str "abcdef") (demo_task url) demo_dest (demo_env_in cut).
Proof. split_and!; [|done|done]. intros first q r. by apply in_file_honest. Qed.
Definition demo_half : disk := attempts noVideo demo_dest no_files demo_past.

Lemma debrid_never_splices_witness :
  dPart demo_half = Some (str "abc") /\
  published two_links (demo_task "u2") (demo_env_in None)
    (apply_dops demo_half (fst (run_transfer noVideo (demo_task "u2") demo_dest (demo_env_in None) demo_half))).
Proof.
  split; [vm_compute; reflexivity|].
  apply (debrid_never_splices two_links (fun _ _ => str "abcdef") noVideo demo_dest demo_past (demo_task "u2") (demo_env_in None) no_files)
    with (r := mkRes demo_dest MethodDebrid 6 6).
  - apply Forall_cons. split; [apply demo_fair|apply Forall_nil; exact I].
  - apply demo_fair.
  - intros p m Hp. discriminate Hp.
  - vm_compute. reflexivity.
Defined.

(** ** Where two files meet *)

(** A link that fails before its first byte leaves an empty partial with a sidecar.
    A second link starts over and its sidecar cannot be written; the first link then
    resumes the second's bytes, although persistMeta says the next attempt would
    re-download from scratch. *)
Definition splice_task (url : string) : debridTask := mkDebrid [] (str url) (str "film.mkv") 6 None [].
Definition splice_disk : disk :=
  attempts noVideo demo_dest no_files
    [mkAttempt (splice_task "u1") (demo_env (fun _ => serve (str "abcdef") (Some 0%nat)) true) None;
     mkAttempt (splice_task "u2") (demo_env (fun _ => serve (str "UVWXYZ") (Some 3%nat)) false) None].
Lemma unwritten_sidecar_splices :
  let '(ops, r) := run_transfer noVideo (splice_task "u1") demo_dest (demo_env (fun _ => serve (str "abcdef") None) true) splice_disk in
  (match r with Ok _ => True | Err _ => False end) /\ dDest (apply_dops splice_disk ops) = Some (str "UVWdef").
Proof. vm_compute. split; reflexivity || exact I. Qed.

(** Without a file name the title stands for it in the sidecar, so two files of one
    torrent pass for one. *)
Definition nameless (url : string) : debridTask := mkDebrid (str "hash") (str url) [] 0 None [].
Definition pack_download (url : string) (file : string) (cut : option nat) (d : disk) : list dop * result derr Result :=
  Download noVideo (fun _ => None) (str "/downloads") (str "Show S01") (nameless url)
    (demo_env (fun _ => serve (str file) cut) true) d.
Lemma nameless_link_splices :
  let d := apply_dops no_files (fst (pack_download "e1" "abcdef" (Some 3%nat) no_files)) in
  let '(ops, r) := pack_download "e2" "UVWXYZ" None d in
  (match r with Ok _ => True | Err _ => False end) /\ dDest (apply_dops d ops) = Some (str "abcXYZ").
Proof. vm_compute. split; reflexivity || exact I. Qed.

(** A cancelled download deletes the finished file an earlier task left at its
    destination. *)
Lemma cancel_deletes_finished :
  let s := mkDebridDl ∅ ∅ in
  let d := apply_dops no_files (fst (run_transfer noVideo (demo_task "u1") demo_dest demo_rest no_files)) in
  let s := untrack (track s (str "a") demo_dest) (str "a") in
  let s := track s (str "b") demo_dest in
  let d1 := apply_dops d (fst (run_transfer noVideo (demo_task "u1") demo_dest demo_cut d)) in
  dDest d1 = Some (str "abcdef") /\ dDest (snd (Cancel s (str "b") (fun s => untrack s (str "b")) true d1)) = None.
Proof. vm_compute. split; reflexivity. Qed.
