(* ===== verification/Naming.v ===== *)
(** The template language of the library layout: internal/naming/naming.go and
    presets.go.

    A template such as "{n}< ({y})>/Season {s00}/{n} - {s00e00}" is parsed once and
    rendered with the values of a download into folders and a file name. *)
From Stdlib Require Import ZArith Lia Ascii String.
From stdpp Require Import prelude list strings sorting.
From S2P Require Import Prelude GoStrings SafePath Task.

Open Scope Z_scope.

(** * Values and templates *)

Record Vars := mkVars {
  Title : bytes; Year : bytes; ImdbID : bytes; TmdbID : bytes; TvdbID : bytes; Collection : bytes;
  EpisodeTitle : bytes; VideoFormat : bytes; Season : option Z; Episode : option Z
}.

(** The names of [Tokens]. *)
Inductive token :=
| TokN | TokY | TokImdbid | TokTmdbid | TokTvdbid | TokCollection | TokT | TokVf
| TokS | TokE | TokS00 | TokE00 | TokS00E00 | TokSxe.
Definition Tokens : list (bytes * token) :=
  [(str "n", TokN); (str "y", TokY); (str "imdbid", TokImdbid); (str "tmdbid", TokTmdbid); (str "tvdbid", TokTvdbid);
   (str "collection", TokCollection); (str "t", TokT); (str "vf", TokVf); (str "s", TokS); (str "e", TokE);
   (str "s00", TokS00); (str "e00", TokE00); (str "s00e00", TokS00E00); (str "sxe", TokSxe)].
Definition episodeToken (t : token) : bool := match t with TokE | TokE00 | TokS00E00 | TokSxe => true | _ => false end.

(** A part that is not optional; the parser refuses '<' within '<', so an optional
    part holds only these. *)
Inductive item := Lit (s : bytes) | Tok (t : token) (pad : Z).
Inductive part := Item (i : item) | Opt (l : list item).
Record Template := mkTemplate { src : bytes; parts : list part }.

Inductive nameErr :=
| NEmpty | NSlash | NInvalidChar | NNested | NUnopened | NUnclosed | NUnknownToken (name : bytes) | NModifier
| NEmptyFolder | NDots | NNoToken | NNoEpisode.

(** * Sanitizing *)

Definition replace_value_byte (b : Z) : bytes :=
  if (b =? SLASH) || (b =? BACKSLASH) || (b =? 124) then [45]
  else if b =? COLON then [SP; 45]
  else if (b =? 63) || (b =? 42) || (b =? QUOTE) || (b =? 60) || (b =? 62) then []
  else [b].
Definition valueReplacer (s : bytes) : bytes := flat_map replace_value_byte s.
(** strings.TrimRight and strings.TrimLeft with an ASCII cutset. *)
Definition trim_right (cut : Z -> bool) (s : bytes) : bytes := rev (snd (span cut (rev s))).
Definition trim_left (cut : Z -> bool) (s : bytes) : bytes := snd (span cut s).
Definition Sanitize (s : bytes) : bytes := trim_right (fun b => b =? DOT) (TrimSpace (valueReplacer s)).

Definition maxComponentBytes : Z := 255.
Definition dot_or_space (b : Z) : bool := (b =? DOT) || (b =? SP).
Definition fitName (name : bytes) (limit : Z) : bytes :=
  if Z.of_nat (length name) <=? limit then name
  else trim_right dot_or_space (take (rune_cut name (Z.to_nat (Z.max limit 0))) name).
Definition FitFileName (stem ext : bytes) : bytes :=
  fitName stem (maxComponentBytes - Z.of_nat (length ext)) ++ ext.

(** * Rendering *)

(** fmt's %0*d of a number that is not negative. *)
Definition zero_padded (width : Z) (n : Z) : bytes :=
  let d := Itoa n in replicate (Z.to_nat width - length d) 48 ++ d.
Definition padded (n : option Z) (width : Z) : bytes :=
  match n with Some n => if n <? 0 then [] else zero_padded width n | None => [] end.
Definition episodeCode (v : Vars) (format : Z -> Z -> bytes) : bytes :=
  match Season v, Episode v with
  | Some s, Some e => if (s <? 0) || (e <? 0) then [] else format s e
  | _, _ => []
  end.
Definition value (t : token) (pad : Z) (v : Vars) : bytes :=
  match t with
  | TokN => Sanitize (Title v)
  | TokY => Sanitize (Year v)
  | TokImdbid => Sanitize (ImdbID v)
  | TokTmdbid => Sanitize (TmdbID v)
  | TokTvdbid => Sanitize (TvdbID v)
  | TokCollection => Sanitize (Collection v)
  | TokT => Sanitize (EpisodeTitle v)
  | TokVf => Sanitize (VideoFormat v)
  | TokS => padded (Season v) (Z.max pad 1)
  | TokE => padded (Episode v) (Z.max pad 1)
  | TokS00 => padded (Season v) 2
  | TokE00 => padded (Episode v) 2
  | TokS00E00 => episodeCode v (fun s e => str "S" ++ zero_padded 2 s ++ str "E" ++ zero_padded 2 e)
  | TokSxe => episodeCode v (fun s e => Itoa s ++ str "x" ++ zero_padded 2 e)
  end.

Definition markMissing : Z := 0.
Definition markPresent : Z := 1.
Definition markStripper (s : bytes) : bytes := List.filter (fun b => negb ((b =? markMissing) || (b =? markPresent))) s.

Definition render_item (i : item) (v : Vars) : bytes * bool :=
  match i with
  | Lit s => (s, true)
  | Tok t pad =>
      match markStripper (value t pad v) with
      | [] => ([markMissing], false)
      | val => (markPresent :: val, true)
      end
  end.
Definition render_items (l : list item) (v : Vars) : bytes * bool :=
  (concat (map (fun i => fst (render_item i v)) l), forallb (fun i => snd (render_item i v)) l).
Definition render_part (p : part) (v : Vars) : bytes :=
  match p with
  | Item i => fst (render_item i v)
  | Opt l => let '(seg, ok) := render_items l v in if ok then seg else []
  end.
Definition renderAll (ps : list part) (v : Vars) : bytes := concat (map (fun p => render_part p v) ps).

(** regexp's \s *)
Definition re_space (b : Z) : bool := (b =? SP) || (b =? TAB) || (b =? LF) || (b =? 12) || (b =? CR).
Definition brackets : list (Z * Z) := [(40, 41); (91, 93); (123, 125)].
(** A match of emptyBrackets at the start: what follows it. *)
Definition empty_bracket_here (s : bytes) : option bytes :=
  match snd (span re_space s) with
  | o :: s1 =>
      match List.find (fun oc => fst oc =? o) brackets with
      | Some (_, c) => match snd (span re_space s1) with x :: rest => if x =? c then Some rest else None | [] => None end
      | None => None
      end
  | [] => None
  end.
Fixpoint drop_empty_brackets (fuel : nat) (s : bytes) : bytes :=
  match fuel with
  | O => s
  | S f =>
      match empty_bracket_here s with
      | Some rest => drop_empty_brackets f rest
      | None => match s with [] => [] | b :: s' => b :: drop_empty_brackets f s' end
      end
  end.
Fixpoint merge_spaces (fuel : nat) (s : bytes) : bytes :=
  match fuel with
  | O => s
  | S f =>
      match span re_space s with
      | (_ :: _ :: _, rest) => SP :: merge_spaces f rest
      | _ => match s with [] => [] | b :: s' => b :: merge_spaces f s' end
      end
  end.
Definition tidy (c : bytes) (missing : bool) : bytes :=
  if negb missing then c
  else
    let c := drop_empty_brackets (length c) c in
    let c := merge_spaces (length c) c in
    let c := TrimSpace c in
    let c := trim_right dot_or_space c in
    trim_left (fun b => (b =? SP) || (b =? 45)) c.

Record Result := mkResult { Dirs : list bytes; File : bytes; FileOK : bool }.
Definition has_mark (m : Z) (c : bytes) : bool := existsb (Z.eqb m) c.
(** A folder, or nothing when it is skipped. *)
Definition render_dir (c : bytes) : option bytes :=
  let missing := has_mark markMissing c in
  let present := has_mark markPresent c in
  let c := fitName (tidy (markStripper c) missing) maxComponentBytes in
  if bytes_eqb c [] || bytes_eqb c (str ".") || bytes_eqb c (str "..") || (missing && negb present) then None else Some c.
Definition render_comps (comps : list bytes) : Result :=
  let last := List.last comps [] in
  let missing := has_mark markMissing last in
  let c := tidy (markStripper last) missing in
  mkResult (omap render_dir (removelast comps)) c (negb (bytes_eqb c []) && negb missing).
Definition Render (t : Template) (v : Vars) : Result := render_comps (split_slash (renderAll (parts t) v)).

(** * Parsing *)

Definition windowsInvalid (b : Z) : bool :=
  (b =? BACKSLASH) || (b =? COLON) || (b =? 42) || (b =? 63) || (b =? QUOTE) || (b =? 124).
Definition checkSource (s : bytes) : option nameErr :=
  match s with
  | [] => Some NEmpty
  | _ => if has_prefix [SLASH] s || has_suffix [SLASH] s then Some NSlash
         else if existsb windowsInvalid s then Some NInvalidChar
         else None
  end.

Definition word_byte (b : Z) : bool :=
  ((65 <=? b) && (b <=? 90)) || ((97 <=? b) && (b <=? 122)) || is_digit b || (b =? 95).
(** tokenRe after the brace: the name, the modifier and what follows. *)
Definition tokenRe (s : bytes) : option (bytes * bytes * bytes) :=
  let '(name, rest) := span word_byte s in
  match name, rest with
  | _ :: _, x :: rest1 =>
      if x =? 125 then Some (name, [], rest1)
      else if x =? DOT then
        let '(m, rest2) := span (fun b => negb ((b =? 123) || (b =? 125))) rest1 in
        match rest2 with
        | y :: rest' => if y =? 125 then Some (name, DOT :: m, rest') else None
        | [] => None
        end
      else None
  | _, _ => None
  end.
Definition padRe (modifier : bytes) : option Z :=
  match cut_prefix (str ".pad(") modifier with
  | Some [d; close] => if (close =? 41) && (49 <=? d) && (d <=? 57) then Some (d - 48) else None
  | _ => None
  end.
Definition tokenPart (name modifier : bytes) : result nameErr item :=
  match List.find (fun nt => bytes_eqb (fst nt) name) Tokens with
  | None => Err (NUnknownToken name)
  | Some (_, t) =>
      match modifier with
      | [] => Ok (Tok t 0)
      | _ => match t with
             | TokS | TokE => match padRe modifier with Some n => Ok (Tok t n) | None => Err NModifier end
             | _ => Err NModifier
             end
      end
  end.

(** string(c) of a byte: the UTF-8 of the rune with that number. *)
Definition byte_string (c : Z) : bytes :=
  if c <? 128 then [c] else [Z.lor 192 (Z.shiftr c 6); Z.lor 128 (Z.land c 63)].

(** The parser's lists: the top level and the open '<' segment. *)
Record parser := mkParser { ptop : list part; popt : option (list item) }.
Definition add_item (p : parser) (i : item) : parser :=
  match popt p with
  | Some l => mkParser (ptop p) (Some (l ++ [i]))
  | None => mkParser (ptop p ++ [Item i]) None
  end.
(** One step: the parser and the rest of the source. *)
Definition step (p : parser) (c : Z) (s : bytes) : result nameErr (parser * bytes) :=
  if c =? 60 then
    match popt p with Some _ => Err NNested | None => Ok (mkParser (ptop p) (Some []), s) end
  else if c =? 62 then
    match popt p with None => Err NUnopened | Some l => Ok (mkParser (ptop p ++ [Opt l]) None, s) end
  else if c =? 123 then
    match tokenRe s with
    | Some (name, modifier, rest) =>
        match tokenPart name modifier with Err e => Err e | Ok i => Ok (add_item p i, rest) end
    | None => Ok (add_item p (Lit [123]), s)
    end
  else Ok (add_item p (Lit (byte_string c)), s).
(** Every step consumes a byte: the length of the source is enough. *)
Fixpoint parse_loop (fuel : nat) (p : parser) (s : bytes) : result nameErr parser :=
  match s with
  | [] => Ok p
  | c :: s' =>
      match fuel with
      | O => Ok p
      | S f => match step p c s' with Err e => Err e | Ok (p', rest) => parse_loop f p' rest end
      end
  end.

Fixpoint merge_items (l : list item) : list item :=
  match l with
  | Lit a :: l' => match merge_items l' with Lit b :: r => Lit (a ++ b) :: r | r => Lit a :: r end
  | i :: l' => i :: merge_items l'
  | [] => []
  end.
Fixpoint mergeLiterals (ps : list part) : list part :=
  match ps with
  | Opt l :: ps' => Opt (merge_items l) :: mergeLiterals ps'
  | Item (Lit a) :: ps' => match mergeLiterals ps' with Item (Lit b) :: r => Item (Lit (a ++ b)) :: r | r => Item (Lit a) :: r end
  | p :: ps' => p :: mergeLiterals ps'
  | [] => []
  end.

(** The tokens after the last '/', and those of them outside '<...>'. *)
Definition walk_item (optional : bool) (acc : list token * list token) (i : item) : list token * list token :=
  match i with
  | Tok t _ => (fst acc ++ [t], if optional then snd acc else snd acc ++ [t])
  | Lit s => if existsb (Z.eqb SLASH) s then ([], []) else acc
  end.
Definition walk_part (acc : list token * list token) (p : part) : list token * list token :=
  match p with Item i => walk_item false acc i | Opt l => fold_left (walk_item true) l acc end.
Definition lastComponentTokens (ps : list part) : list token * list token := fold_left walk_part ps ([], []).

Definition sampleVars : Vars :=
  mkVars (str "Title") (str "2000") (str "tt0000000") (str "1") (str "1") (str "Collection") (str "Episode") (str "1080p") (Some 1) (Some 1).
Fixpoint check_comps (comps : list bytes) : option nameErr :=
  match comps with
  | [] => None
  | c :: rest =>
      if bytes_eqb (TrimSpace c) [] then Some NEmptyFolder
      else if bytes_eqb c (str ".") || bytes_eqb c (str "..") then Some NDots
      else check_comps rest
  end.
Definition validate (ps : list part) (series : bool) : option nameErr :=
  let full := List.filter (fun b => negb (b =? markPresent)) (renderAll ps sampleVars) in
  match check_comps (split_slash full) with
  | Some e => Some e
  | None =>
      let '(all, required) := lastComponentTokens ps in
      match all with
      | [] => Some NNoToken
      | _ => if series then (if existsb episodeToken required then None else Some NNoEpisode) else None
      end
  end.

Definition Parse (source : bytes) (series : bool) : result nameErr Template :=
  let s := TrimSpace source in
  match checkSource s with
  | Some e => Err e
  | None =>
      match parse_loop (length s) (mkParser [] None) s with
      | Err e => Err e
      | Ok p =>
          match popt p with
          | Some _ => Err NUnclosed
          | None =>
              let t := mkTemplate s (mergeLiterals (ptop p)) in
              match validate (parts t) series with Some e => Err e | None => Ok t end
          end
      end
  end.

(** * Presets *)

Record Scheme := mkScheme { Movie : Template; Series : Template }.
Definition Presets : list (bytes * (bytes * bytes)) :=
  [(str "default", (str "<{collection}/>{n}< ({y})>/{n}< ({y})>", str "{n}/Season {s00}/{n} - {s00e00}"));
   (str "plex", (str "<{collection}/>{n}< ({y})>< {imdb-{imdbid}}>/{n}< ({y})>< {imdb-{imdbid}}>",
                 str "{n}< ({y})>< {imdb-{imdbid}}>/Season {s00}/{n}< ({y})> - {s00e00}< - {t}>"));
   (str "jellyfin", (str "<{collection}/>{n}< ({y})>< [imdbid-{imdbid}]>/{n}< ({y})>< [imdbid-{imdbid}]>",
                     str "{n}< ({y})>< [imdbid-{imdbid}]>/Season {s00}/{n}< ({y})> - {s00e00}< - {t}>"))].
Definition presetAliases : list (bytes * bytes) := [(str "infuse", str "plex"); (str "emby", str "plex")].
Definition assoc {A} (k : bytes) (l : list (bytes * A)) : option A :=
  option_map snd (List.find (fun kv => bytes_eqb (fst kv) k) l).
(** [None]: an unknown preset. *)
Definition Resolve (preset movieFormat seriesFormat : bytes) : result (option nameErr) Scheme :=
  let name := ToLower (TrimSpace preset) in
  let name := match name with [] => str "default" | _ => name end in
  let name := default name (assoc name presetAliases) in
  match assoc name Presets with
  | None => Err None
  | Some (movie, series) =>
      let movieSrc := match TrimSpace movieFormat with [] => movie | _ => movieFormat end in
      let seriesSrc := match TrimSpace seriesFormat with [] => series | _ => seriesFormat end in
      match Parse movieSrc false, Parse seriesSrc true with
      | Err e, _ => Err (Some e)
      | Ok _, Err e => Err (Some e)
      | Ok m, Ok s => Ok (mkScheme m s)
      end
  end.

(** * The parser stops *)

Lemma tokenRe_suffix s name m rest : tokenRe s = Some (name, m, rest) -> exists pre, s = pre ++ rest.
Proof.
  unfold tokenRe. pose proof (span_app word_byte s) as Hs. destruct (span word_byte s) as [n r]. simpl in Hs. subst s.
  destruct n as [|b n]; [done|]. destruct r as [|x r]; [done|]. case_if.
  { intros [= <- <- <-]. exists ((b :: n) ++ [x]). by rewrite <- app_assoc. }
  case_if; [|done]. pose proof (span_app (fun b0 => negb ((b0 =? 123) || (b0 =? 125))) r) as Hr.
  destruct (span _ r) as [m0 [|y rest2]]; [done|]. simpl in Hr. subst r. case_if; [|done]. intros [= <- <- <-].
  exists ((b :: n) ++ x :: m0 ++ [y]). rewrite <- !app_assoc. simpl. by rewrite <- app_assoc.
Qed.
Lemma step_suffix p c s p' rest : step p c s = Ok (p', rest) -> exists pre, s = pre ++ rest.
Proof.
  unfold step. case_if; [destruct (popt p); intros [= <- <-]; by exists []|].
  case_if; [destruct (popt p); intros [= <- <-]; by exists []|]. case_if; [|intros [= <- <-]; by exists []].
  destruct (tokenRe s) as [[[name m] r]|] eqn:Et; [|intros [= <- <-]; by exists []].
  apply tokenRe_suffix in Et. destruct (tokenPart name m); [|done]. by intros [= <- <-].
Qed.
(** More fuel than bytes changes nothing. *)
Lemma parse_fuel n p s : (length s <= n)%nat -> parse_loop n p s = parse_loop (length s) p s.
Proof.
  assert (H : forall n k p s, (length s <= n)%nat -> (length s <= k)%nat -> parse_loop n p s = parse_loop k p s).
  { clear. induction n as [|n IH]; intros k p [|c s] Hn Hk; try (by destruct k); simpl in *; try lia.
    destruct k as [|k]; [lia|]. simpl. destruct (step p c s) as [[p' rest]|] eqn:Es; [|done].
    apply step_suffix in Es as [pre ->]. rewrite length_app in *. apply IH; lia. }
  intros Hn. by apply H.
Qed.

(** * Which bytes a name is made of *)

Section Bytes.
Context (P : Z -> Prop).
Lemma span_Forall cut s : Forall P s -> Forall P (fst (span cut s)) /\ Forall P (snd (span cut s)).
Proof. intros Hs. rewrite <- (span_app cut s) in Hs. by apply Forall_app in Hs. Qed.
Lemma trim_right_Forall cut s : Forall P s -> Forall P (trim_right cut s).
Proof. intros Hs. apply Forall_rev, span_Forall, Forall_rev, Hs. Qed.
Lemma strip_one_suffix runes s s' : strip_one runes s = Some s' -> exists pre, s = pre ++ s'.
Proof.
  induction runes as [|r runes IH]; [done|]. simpl. destruct (cut_prefix r s) eqn:E; [|done]. intros [= <-].
  apply cut_prefix_Some in E. by exists r.
Qed.
Lemma trim_front_Forall fuel runes s : Forall P s -> Forall P (trim_front fuel runes s).
Proof.
  revert s. induction fuel as [|fuel IH]; intros s Hs; [done|]. simpl. destruct (strip_one runes s) as [s'|] eqn:E; [|done].
  apply strip_one_suffix in E as [pre ->]. apply Forall_app in Hs as [_ Hs]. by apply IH.
Qed.
Lemma TrimSpace_Forall s : Forall P s -> Forall P (TrimSpace s).
Proof. intros Hs. unfold TrimSpace. by apply Forall_rev, trim_front_Forall, Forall_rev, trim_front_Forall. Qed.
Lemma filter_Forall f s : Forall P s -> Forall P (List.filter f s).
Proof. induction 1; simpl; [constructor|]. case_if; [by constructor|done]. Qed.
Lemma fitName_Forall name limit : Forall P name -> Forall P (fitName name limit).
Proof. intros Hn. unfold fitName. case_if; [done|]. by apply trim_right_Forall, Forall_take. Qed.
Lemma drop_brackets_Forall fuel s : Forall P s -> Forall P (drop_empty_brackets fuel s).
Proof.
  revert s. induction fuel as [|fuel IH]; intros s Hs; [done|]. simpl.
  destruct (empty_bracket_here s) as [rest|] eqn:E; [|destruct Hs; constructor; auto].
  apply IH. unfold empty_bracket_here in E. pose proof (proj2 (span_Forall re_space _ Hs)) as H1.
  destruct (snd (span re_space s)) as [|o s1]; [done|]. apply Forall_cons in H1 as [_ H1].
  destruct (List.find _ brackets) as [[o' c]|]; [|done]. pose proof (proj2 (span_Forall re_space _ H1)) as H2.
  destruct (snd (span re_space s1)) as [|x r]; [done|]. case_if_in E; [|done]. injection E as <-. by apply Forall_cons in H2 as [_ H2].
Qed.
Lemma merge_spaces_Forall fuel s : P SP -> Forall P s -> Forall P (merge_spaces fuel s).
Proof.
  intros Hsp. revert s. induction fuel as [|fuel IH]; intros s Hs; [done|]. simpl.
  pose proof (proj2 (span_Forall re_space _ Hs)) as H2. destruct (span re_space s) as [sp rest]. simpl in H2.
  destruct sp as [|a [|b sp]]; [| |constructor; auto]; (destruct Hs; constructor; auto).
Qed.
Lemma tidy_Forall c missing : P SP -> Forall P c -> Forall P (tidy c missing).
Proof.
  intros Hsp Hc. unfold tidy. case_if; [done|]. apply (span_Forall _ _), trim_right_Forall, TrimSpace_Forall.
  by apply merge_spaces_Forall, drop_brackets_Forall.
Qed.
Lemma split_Forall s : Forall P s -> Forall (Forall P) (split_slash s).
Proof.
  induction s as [|c s IH]; simpl; intros Hs; [by repeat constructor|]. apply Forall_cons in Hs as [Hc Hs]. specialize (IH Hs).
  case_if; [by constructor|]. destruct (split_slash s) as [|e es]; [by repeat constructor|].
  apply Forall_cons in IH as [He IH]. by repeat constructor.
Qed.
End Bytes.

(** A byte allowed in a name on every system; '/' separates names. *)
Definition allowed (b : Z) : Prop := windowsInvalid b = false /\ b <> 60 /\ b <> 62.
Definition portable (c : bytes) : Prop := Forall (fun b => allowed b /\ b <> SLASH) c.

Lemma allowed_range b : (48 <= b <= 57 \/ 64 <= b <= 91 \/ 93 <= b <= 123 \/ 125 <= b \/ b <= 33) -> allowed b.
Proof.
  intros Hb. unfold allowed, windowsInvalid, BACKSLASH, COLON, QUOTE. split_and!; [|lia|lia].
  repeat (apply orb_false_iff; split); apply Z.eqb_neq; lia.
Qed.

Lemma replaced_portable b : portable (replace_value_byte b).
Proof.
  assert (H45 : allowed 45 /\ 45 <> SLASH) by (vm_compute; intuition discriminate).
  assert (H32 : allowed SP /\ SP <> SLASH) by (vm_compute; intuition discriminate).
  unfold replace_value_byte, portable. case_if; [by repeat constructor|]. case_if; [by repeat constructor|]. case_if; [by constructor|].
  constructor; [|constructor]. rewrite !orb_false_iff, !Z.eqb_neq in *. unfold allowed, windowsInvalid.
  rewrite !orb_false_iff, !Z.eqb_neq. tauto.
Qed.
Lemma Sanitize_portable s : portable (Sanitize s).
Proof.
  apply trim_right_Forall, TrimSpace_Forall. unfold valueReplacer.
  induction s as [|b s IH]; simpl; [constructor|]. apply Forall_app. split; [apply replaced_portable|done].
Qed.
Lemma digits_portable s : Forall (fun b => is_digit b = true) s -> portable s.
Proof.
  intros Hs. eapply Forall_impl; [exact Hs|]. intros b Hb. apply is_digit_spec in Hb. split; [apply allowed_range; lia|unfold SLASH; lia].
Qed.
Lemma zero_padded_digits w n : 0 <= n -> Forall (fun b => is_digit b = true) (zero_padded w n).
Proof. intros Hn. unfold zero_padded. apply Forall_app. split; [by apply Forall_replicate|by apply Itoa_digits]. Qed.
Lemma padded_portable n w : portable (padded n w).
Proof.
  unfold padded. destruct n as [n|]; [|constructor]. destruct (Z.ltb_spec n 0); [constructor|]. by apply digits_portable, zero_padded_digits.
Qed.
Lemma letter_portable c : 65 <= c <= 90 \/ 97 <= c <= 122 -> portable [c].
Proof. intros Hc. constructor; [|constructor]. split; [apply allowed_range; lia|unfold SLASH; lia]. Qed.
Lemma portable_nil : portable [].
Proof. constructor. Qed.
Lemma code_portable v format :
  (forall s e, 0 <= s -> 0 <= e -> portable (format s e)) -> portable (episodeCode v format).
Proof.
  intros Hf. unfold episodeCode. destruct (Season v) as [s|]; [|apply portable_nil]. destruct (Episode v) as [e|]; [|apply portable_nil].
  destruct ((s <? 0) || (e <? 0)) eqn:E; [apply portable_nil|]. apply orb_false_iff in E as [E1%Z.ltb_ge E2%Z.ltb_ge]. by apply Hf.
Qed.
Lemma value_portable t pad v : portable (value t pad v).
Proof.
  destruct t; cbn [value]; try apply Sanitize_portable; try apply padded_portable; apply code_portable; intros s e Hs He;
    repeat first [by apply digits_portable, zero_padded_digits | by apply digits_portable, Itoa_digits
                 | apply letter_portable; vm_compute; intuition discriminate | apply Forall_app; split].
Qed.

Definition item_ok (i : item) : Prop := match i with Lit s => Forall allowed s | Tok _ _ => True end.
Definition part_ok (p : part) : Prop := match p with Item i => item_ok i | Opt l => Forall item_ok l end.
Definition parser_ok (p : parser) : Prop := Forall part_ok (ptop p) /\ match popt p with Some l => Forall item_ok l | None => True end.

Lemma add_item_ok p i : parser_ok p -> item_ok i -> parser_ok (add_item p i).
Proof.
  intros [H1 H2] Hi. unfold add_item. destruct (popt p) as [l|] eqn:E; split; simpl; rewrite ?E; try done.
  - apply Forall_app. split; [done|by repeat constructor].
  - apply Forall_app. split; [done|by repeat constructor].
Qed.
Lemma byte_string_allowed c : windowsInvalid c = false -> c <> 60 -> c <> 62 -> Forall allowed (byte_string c).
Proof.
  intros H1 H2 H3. unfold byte_string. destruct (Z.ltb_spec c 128); [by repeat constructor|].
  assert (Hl : forall a b, 7 <= Z.log2 a -> 0 <= a -> 0 <= b -> 125 <= Z.lor a b).
  { intros a b Hlog Ha Hb. pose proof (Z.log2_lor a b Ha Hb) as H7. assert (H0 : 0 <= Z.lor a b) by (apply Z.lor_nonneg; lia).
    destruct (Z.eq_dec (Z.lor a b) 0) as [E|E]; [rewrite E in H7; simpl in H7; lia|].
    assert (2 ^ 7 <= Z.lor a b) by (apply Z.log2_le_pow2; lia). lia. }
  apply Forall_cons; split; [|apply Forall_cons; split; [|constructor]];
    apply allowed_range; right; right; right; left; (apply Hl; [vm_compute; discriminate|lia|]).
  - apply Z.shiftr_nonneg. lia.
  - apply Z.land_nonneg. lia.
Qed.

Lemma step_ok p c s p' rest :
  existsb windowsInvalid (c :: s) = false -> parser_ok p -> step p c s = Ok (p', rest) -> parser_ok p' /\ existsb windowsInvalid rest = false.
Proof.
  simpl. intros [Hc Hs]%orb_false_iff Hp Hst.
  assert (Hr : existsb windowsInvalid rest = false).
  { apply step_suffix in Hst as [pre ->]. rewrite existsb_app in Hs. by apply orb_false_iff in Hs as [_ Hs]. }
  split; [|done]. clear Hr. pose proof Hp as [H1 H2]. unfold step in Hst.
  destruct (Z.eqb_spec c 60) as [|H60]; [destruct (popt p); [done|]; injection Hst as <- <-; split; [done|constructor]|].
  destruct (Z.eqb_spec c 62) as [|H62].
  { destruct (popt p) as [l|]; [|done]. injection Hst as <- <-. split; [|done]. apply Forall_app. split; [done|by repeat constructor]. }
  case_if_in Hst; [|injection Hst as <- <-; by apply add_item_ok, byte_string_allowed].
  destruct (tokenRe s) as [[[name m] r]|].
  - unfold tokenPart in Hst. destruct (List.find _ Tokens) as [[? t]|]; [|done].
    destruct m; [injection Hst as <- <-; by apply add_item_ok|].
    destruct t; try done; destruct (padRe _); try done; injection Hst as <- <-; by apply add_item_ok.
  - injection Hst as <- <-. apply add_item_ok; [done|]. apply Forall_cons; split; [apply allowed_range; lia|constructor].
Qed.
Lemma parse_loop_ok n p s p' :
  existsb windowsInvalid s = false -> parser_ok p -> parse_loop n p s = Ok p' -> parser_ok p'.
Proof.
  revert p s. induction n as [|n IH]; intros p [|c s] Hs Hp; cbn [parse_loop]; try (by intros [= <-]).
  destruct (step p c s) as [[p1 rest]|] eqn:Es; [|done]. destruct (step_ok _ _ _ _ _ Hs Hp Es) as [H1 H2]. by apply IH.
Qed.
Lemma merge_items_ok l : Forall item_ok l -> Forall item_ok (merge_items l).
Proof.
  induction 1 as [|i l Hi _ IH]; simpl; [constructor|]. destruct i as [a|]; [|by constructor].
  destruct (merge_items l) as [|[b|] r]; try by constructor. apply Forall_cons in IH as [Hb Hr]. constructor; [|done].
  by apply Forall_app.
Qed.
Lemma mergeLiterals_ok ps : Forall part_ok ps -> Forall part_ok (mergeLiterals ps).
Proof.
  induction 1 as [|p ps Hp _ IH]; simpl; [constructor|]. destruct p as [[a|]|l]; [|by constructor|by constructor; [apply merge_items_ok|]].
  destruct (mergeLiterals ps) as [|[[b|]|] r]; try by constructor. apply Forall_cons in IH as [Hb Hr]. constructor; [|done].
  by apply Forall_app.
Qed.
Lemma Parse_ok source series t : Parse source series = Ok t -> Forall part_ok (parts t).
Proof.
  unfold Parse. set (s := TrimSpace source). clearbody s. destruct (checkSource s) eqn:Ec; [done|].
  assert (Hs : existsb windowsInvalid s = false).
  { unfold checkSource in Ec. destruct s; [done|]. case_if_in Ec; [done|]. by case_if_in Ec. }
  destruct (parse_loop _ _ s) as [p|] eqn:Ep; [|done]. destruct (popt p); [done|]. destruct (validate _ _); [done|]. intros [= <-].
  apply mergeLiterals_ok. eapply parse_loop_ok; [exact Hs| |exact Ep]. split; [constructor|done].
Qed.

Lemma mark_allowed b : b = markMissing \/ b = markPresent -> allowed b.
Proof. unfold markMissing, markPresent. intros Hb. apply allowed_range. lia. Qed.
Lemma portable_allowed s : portable s -> Forall allowed s.
Proof. intros Hs. eapply Forall_impl; [exact Hs|]. by intros b [? _]. Qed.
Lemma render_item_allowed i v : item_ok i -> Forall allowed (fst (render_item i v)).
Proof.
  destruct i as [s|t pad]; [done|]. intros _. simpl.
  pose proof (filter_Forall _ (fun b => negb ((b =? markMissing) || (b =? markPresent))) _ (portable_allowed _ (value_portable t pad v))) as Hv.
  fold (markStripper (value t pad v)) in Hv. destruct (markStripper (value t pad v)) as [|b l]; simpl;
    constructor; try done; apply mark_allowed; auto.
Qed.
Lemma renderAll_allowed ps v : Forall part_ok ps -> Forall allowed (renderAll ps v).
Proof.
  intros Hps. unfold renderAll. apply Forall_concat, Forall_map. eapply Forall_impl; [exact Hps|]. intros [i|l] Hp; simpl.
  - by apply render_item_allowed.
  - unfold render_items. case_if; [|constructor]. apply Forall_concat, Forall_map. eapply Forall_impl; [exact Hp|].
    intros i Hi. by apply render_item_allowed.
Qed.

Lemma comp_portable c missing : portable c -> portable (tidy (markStripper c) missing).
Proof.
  intros Hc. apply tidy_Forall; [vm_compute; intuition discriminate|]. by apply filter_Forall.
Qed.
Lemma fitName_length name limit : 0 <= limit -> Z.of_nat (length (fitName name limit)) <= limit.
Proof.
  intros Hl. unfold fitName. destruct (Z.leb_spec (Z.of_nat (length name)) limit); [done|].
  assert (Ht : forall cut s, (length (trim_right cut s) <= length s)%nat).
  { intros cut s. unfold trim_right. rewrite length_rev, <- (length_rev s). rewrite <- (span_app cut (rev s)) at 2. rewrite length_app. lia. }
  assert (Hr : forall n, (rune_cut name n <= n)%nat).
  { induction n as [|n IH]; [done|]. cbn [rune_cut]. destruct (name !! S n); [|done]. case_if; [done|lia]. }
  specialize (Ht dot_or_space (take (rune_cut name (Z.to_nat (Z.max limit 0))) name)). rewrite length_take in Ht.
  specialize (Hr (Z.to_nat (Z.max limit 0))). lia.
Qed.

Lemma rendered_names source series t v :
  Parse source series = Ok t ->
  Forall (fun c => plain_elem c /\ portable c /\ Z.of_nat (length c) <= 255) (Dirs (Render t v)) /\ portable (File (Render t v)).
Proof.
  intros Hp. apply Parse_ok in Hp. pose proof (renderAll_allowed _ v Hp) as Ha. unfold Render, render_comps.
  set (comps := split_slash (renderAll (parts t) v)).
  assert (Hc : Forall portable comps).
  { pose proof (split_Forall _ _ Ha) as H1. pose proof (split_slash_free (renderAll (parts t) v)) as H2.
    fold comps in H1, H2. clearbody comps. induction comps as [|c comps IH]; [constructor|].
    apply Forall_cons in H1 as [H1 H1'], H2 as [H2 H2']. constructor; [|by apply IH].
    apply Forall_forall. intros b Hb. split; [by eapply Forall_forall in H1|]. by intros ->. }
  clearbody comps. simpl. split.
  - apply Forall_forall. intros c Hin. apply list_elem_of_omap in Hin as (c0 & Hin & Hr).
    assert (Hc0 : portable c0).
    { eapply Forall_forall in Hc; [exact Hc|]. apply list_elem_of_In in Hin. apply list_elem_of_In.
      destruct comps as [|x l]; [done|]. rewrite (app_removelast_last [] (l := x :: l)) by done. apply in_app_iff. by left. }
    unfold render_dir in Hr. case_if_in Hr; [done|]. injection Hr as <-. rewrite !orb_false_iff in E.
    destruct E as (((E1 & E2) & E3) & _). set (c := fitName _ _) in *.
    assert (Hpc : portable c) by (by apply fitName_Forall, comp_portable).
    split_and!; [|done|by apply fitName_length].
    split_and!; try (intros Hx; rewrite Hx in *; done).
    intros Hs. eapply Forall_forall in Hpc; [|exact Hs]. by destruct Hpc.
  - apply comp_portable. destruct comps as [|x l]; [constructor|].
    eapply Forall_forall in Hc; [exact Hc|]. apply list_elem_of_In. rewrite (app_removelast_last [] (l := x :: l)) at 2 by done.
    apply in_app_iff. right. by left.
Qed.
Lemma rendered_dirs_plain source series t v : Parse source series = Ok t -> Forall plain_elem (Dirs (Render t v)).
Proof. intros Hp. destruct (rendered_names source series t v Hp) as [Hd _]. eapply Forall_impl; [exact Hd|]. by intros c [? _]. Qed.

(** For every template the parser accepts and whatever metadata it is rendered
    with, every folder is a single name that is neither empty nor "." nor "..", has at
    most 255 bytes, and folders and file name contain no separator and no character
    that is invalid on some file system: a title cannot add a level to the path or
    climb out of it. *)
Lemma rendered_names_safe source series t v :
  Parse source series = Ok t ->
  Forall (fun c => plain_elem c /\ portable c /\ Z.of_nat (length c) <= 255) (Dirs (Render t v)) /\ portable (File (Render t v)).
Proof. apply rendered_names. Qed.

(** * Episodes stay apart *)

Definition with_episode (v : Vars) (e : Z) : Vars :=
  mkVars (Title v) (Year v) (ImdbID v) (TmdbID v) (TvdbID v) (Collection v) (EpisodeTitle v) (VideoFormat v) (Season v) (Some e).

(** ** Decimal numbers *)

Lemma dec_length f f' n n' :
  0 <= n <= n' -> (Z.to_nat (Z.log2 n) < f)%nat -> (Z.to_nat (Z.log2 n') < f')%nat ->
  (length (dec_digits f n) <= length (dec_digits f' n'))%nat.
Proof.
  revert f' n n'. induction f as [|f IH]; intros f' n n' Hn Hf Hf'; [lia|]. destruct f' as [|f']; [lia|]. simpl.
  destruct (Z.ltb_spec n 10), (Z.ltb_spec n' 10); rewrite ?length_app; simpl; try lia.
  pose proof (log2_div10 n ltac:(lia)). pose proof (log2_div10 n' ltac:(lia)).
  assert (Hd : 0 <= n / 10 <= n' / 10) by (split; [apply Z.div_pos; lia|apply Z.div_le_mono; lia]).
  pose proof (IH f' (n / 10) (n' / 10) Hd ltac:(lia) ltac:(lia)). lia.
Qed.
Lemma Itoa_length_mono n n' : 0 <= n <= n' -> (length (Itoa n) <= length (Itoa n'))%nat.
Proof. intros Hn. unfold Itoa. destruct (Z.ltb_spec n 0), (Z.ltb_spec n' 0); try lia. apply dec_length; lia. Qed.

Definition decval (s : bytes) : Z := fold_left (fun a b => 10 * a + (b - 48)) s 0.
Lemma decval_digits f n : 0 <= n -> (Z.to_nat (Z.log2 n) < f)%nat -> decval (dec_digits f n) = n.
Proof.
  revert n. induction f as [|f IH]; intros n Hn Hf; [lia|]. simpl. destruct (Z.ltb_spec n 10); [unfold decval; simpl; lia|].
  unfold decval. rewrite fold_left_app. fold (decval (dec_digits f (n / 10))). pose proof (log2_div10 n ltac:(lia)).
  rewrite IH; [|apply Z.div_pos; lia|lia]. simpl. pose proof (Z.div_mod n 10). lia.
Qed.
Lemma decval_padded w n : 0 <= n -> decval (zero_padded w n) = n.
Proof.
  intros Hn. unfold zero_padded. set (d := Itoa n). assert (Hd : decval d = n).
  { subst d. unfold Itoa. destruct (Z.ltb_spec n 0); [lia|]. apply decval_digits; lia. }
  induction (Z.to_nat w - length d)%nat as [|k IH]; simpl; [done|]. exact IH.
Qed.
Lemma padded_length w n n' : 0 <= n <= n' -> (length (zero_padded w n) <= length (zero_padded w n'))%nat.
Proof. intros Hn. unfold zero_padded. rewrite !length_app, !length_replicate. pose proof (Itoa_length_mono n n' Hn). lia. Qed.

(** A smaller number gives another text that is not longer. *)
Definition apart (x y : bytes) : Prop := (length x <= length y)%nat /\ x <> y.
Lemma padded_apart w n n' : 0 <= n < n' -> apart (zero_padded w n) (zero_padded w n').
Proof.
  intros Hn. split; [apply padded_length; lia|]. intros Heq. apply (f_equal decval) in Heq. rewrite !decval_padded in Heq; lia.
Qed.
Lemma apart_app a x b x' : (length a <= length b)%nat -> apart x x' -> apart (a ++ x) (b ++ x').
Proof.
  intros Hl [H1 H2]. split; [rewrite !length_app; lia|]. intros Heq. pose proof (f_equal length Heq) as Hlen. rewrite !length_app in Hlen.
  apply app_inj_1 in Heq as [_ ?]; [done|lia].
Qed.
Lemma apart_app_l a b x : apart a b -> apart (a ++ x) (b ++ x).
Proof. intros [H1 H2]. split; [rewrite !length_app; lia|]. intros Heq. by apply app_inv_tail in Heq. Qed.

Lemma markStripper_app a b : markStripper (a ++ b) = markStripper a ++ markStripper b.
Proof. unfold markStripper. by rewrite List.filter_app. Qed.
Lemma stripper_keeps s : Forall (fun b => 2 <= b) s -> markStripper s = s.
Proof.
  unfold markStripper, markMissing, markPresent. induction 1 as [|b s Hb _ IH]; simpl; [done|]. rewrite IH.
  destruct (Z.eqb_spec b 0), (Z.eqb_spec b 1); simpl; try lia. done.
Qed.
Lemma padded_visible w n : 0 <= n -> Forall (fun b => 2 <= b) (zero_padded w n).
Proof.
  intros Hn. eapply Forall_impl; [by apply zero_padded_digits|]. intros b Hb. apply is_digit_spec in Hb. lia.
Qed.
Lemma Itoa_visible n : 0 <= n -> Forall (fun b => 2 <= b) (Itoa n).
Proof. intros Hn. eapply Forall_impl; [by apply Itoa_digits|]. intros b Hb. apply is_digit_spec in Hb. lia. Qed.

(** ** One item, two episodes *)

Lemma episodeCode_ext v f g : (forall s e, f s e = g s e) -> episodeCode v f = episodeCode v g.
Proof. intros H. unfold episodeCode. destruct (Season v), (Episode v); try done. case_if; [done|apply H]. Qed.

Section TwoEpisodes.
Context (v : Vars) (e e' : Z) (He : 0 <= e < e').
Local Abbreviation v1 := (with_episode v e).
Local Abbreviation v2 := (with_episode v e').

Definition stripped (i : item) (v : Vars) : bytes := markStripper (fst (render_item i v)).

Lemma code_apart pre :
  Forall (fun b => 2 <= b) pre ->
  apart (pre ++ zero_padded 2 e) (pre ++ zero_padded 2 e') /\
  markStripper (pre ++ zero_padded 2 e) = pre ++ zero_padded 2 e /\ markStripper (pre ++ zero_padded 2 e') = pre ++ zero_padded 2 e'.
Proof.
  intros Hp. split_and!; [apply apart_app; [done|by apply padded_apart]| |];
    (apply stripper_keeps, Forall_app; split; [done|apply padded_visible; lia]).
Qed.
Lemma padded_nonempty w n : zero_padded w n <> [].
Proof. unfold zero_padded. intros [_ H]%app_nil. by apply Itoa_nonempty in H. Qed.

Lemma episode_value t pad :
  let x := markStripper (value t pad v1) in
  let y := markStripper (value t pad v2) in
  (x = [] <-> y = []) /\ (if episodeToken t then x = [] \/ apart x y else x = y).
Proof.
  assert (Hpad : forall w, let x := markStripper (padded (Some e) w) in let y := markStripper (padded (Some e') w) in
    (x = [] <-> y = []) /\ (x = [] \/ apart x y)).
  { intros w. simpl. destruct (Z.ltb_spec e 0), (Z.ltb_spec e' 0); try lia.
    rewrite !stripper_keeps by (apply padded_visible; lia). split; [|right; by apply padded_apart].
    split; intros H'; exfalso; revert H'; apply padded_nonempty. }
  assert (Hcode : forall pre, (forall s, 0 <= s -> Forall (fun b => 2 <= b) (pre s)) ->
    let x := markStripper (episodeCode v1 (fun s e => pre s ++ zero_padded 2 e)) in
    let y := markStripper (episodeCode v2 (fun s e => pre s ++ zero_padded 2 e)) in
    (x = [] <-> y = []) /\ (x = [] \/ apart x y)).
  { intros pre Hpre. unfold episodeCode. simpl. destruct (Season v) as [s|]; [|by split; [|left]].
    destruct (Z.ltb_spec s 0), (Z.ltb_spec e 0), (Z.ltb_spec e' 0); simpl; try lia; try (by split; [|left]).
    destruct (code_apart (pre s) (Hpre s ltac:(lia))) as (Ha & -> & ->). split; [|by right].
    split; intros [_ H']%app_nil; exfalso; revert H'; apply padded_nonempty. }
  destruct t; cbn [value episodeToken]; try (by split); try apply Hpad.
  - set (G := fun s e => (str "S" ++ zero_padded 2 s ++ str "E") ++ zero_padded 2 e).
    rewrite (episodeCode_ext v1 _ G), (episodeCode_ext v2 _ G) by (intros; subst G; cbv beta; by rewrite <- !app_assoc).
    apply (Hcode (fun s => str "S" ++ zero_padded 2 s ++ str "E")). intros s Hs.
    apply Forall_app; split; [by repeat constructor|]. apply Forall_app; split; [by apply padded_visible|by repeat constructor].
  - set (G := fun s e => (Itoa s ++ str "x") ++ zero_padded 2 e).
    rewrite (episodeCode_ext v1 _ G), (episodeCode_ext v2 _ G) by (intros; subst G; cbv beta; by rewrite <- !app_assoc).
    apply (Hcode (fun s => Itoa s ++ str "x")). intros s Hs. apply Forall_app; split; [by apply Itoa_visible|by repeat constructor].
Qed.
End TwoEpisodes.

(** ** The last component *)

Definition tail_comp (s : bytes) : bytes := List.last (split_slash s) [].
Lemma last_slash s : SLASH ∈ s -> exists p q, s = p ++ SLASH :: q /\ SLASH ∉ q.
Proof.
  induction s as [|b s IH] using rev_ind; [by intros ?%not_elem_of_nil|]. intros Hin.
  destruct (decide (b = SLASH)) as [->|Hb]; [exists s, []; split; [done|apply not_elem_of_nil]|].
  apply elem_of_app in Hin as [Hin|Hin%list_elem_of_singleton]; [|done]. destruct (IH Hin) as (p & q & -> & Hq).
  exists p, (q ++ [b]). rewrite <- app_assoc. split; [done|]. rewrite elem_of_app, list_elem_of_singleton. naive_solver.
Qed.
Lemma tail_comp_at p q : SLASH ∉ q -> tail_comp (p ++ SLASH :: q) = q.
Proof. intros Hq. unfold tail_comp. rewrite split_slash_app, (split_slash_elem q Hq). apply last_last. Qed.
Lemma tail_comp_free s : SLASH ∉ s -> tail_comp s = s.
Proof. intros Hs. unfold tail_comp. by rewrite split_slash_elem. Qed.
Lemma tail_comp_app a b : SLASH ∉ b -> tail_comp (a ++ b) = tail_comp a ++ b.
Proof.
  intros Hb. destruct (decide (SLASH ∈ a)) as [Ha|Ha].
  - destruct (last_slash a Ha) as (p & q & -> & Hq). rewrite <- app_assoc. simpl. rewrite !tail_comp_at; [done|done|].
    rewrite elem_of_app. naive_solver.
  - rewrite !tail_comp_free; [done|done|]. rewrite elem_of_app. naive_solver.
Qed.
Lemma tail_comp_slash a b : SLASH ∈ b -> tail_comp (a ++ b) = tail_comp b.
Proof.
  intros Hb. destruct (last_slash b Hb) as (p & q & -> & Hq). rewrite app_assoc, !tail_comp_at; done.
Qed.
Lemma has_slash s : existsb (Z.eqb SLASH) s = true <-> SLASH ∈ s.
Proof.
  rewrite existsb_exists, list_elem_of_In. split; [intros (x & Hx & ->%Z.eqb_eq); done|intros Hx; exists SLASH; split; [done|by apply Z.eqb_refl]].
Qed.
Lemma token_free t pad v : SLASH ∉ fst (render_item (Tok t pad) v).
Proof.
  simpl. pose proof (filter_Forall _ (fun b => negb ((b =? markMissing) || (b =? markPresent))) _ (value_portable t pad v)) as Hv.
  fold (markStripper (value t pad v)) in Hv. destruct (markStripper (value t pad v)) as [|b l]; simpl.
  - rewrite list_elem_of_singleton. done.
  - intros [Hx|Hx]%elem_of_cons; [done|]. eapply Forall_forall in Hv; [|exact Hx]. by destruct Hv.
Qed.

(** The items that are shown, and whether an episode number stands in the last
    component. *)
Definition shown (v : Vars) (p : part) : list item :=
  match p with Item i => [i] | Opt l => if snd (render_items l v) then l else [] end.
Definition render_list (l : list item) (v : Vars) : bytes := concat (map (fun i => fst (render_item i v)) l).
Lemma renderAll_shown ps v : renderAll ps v = render_list (flat_map (shown v) ps) v.
Proof.
  unfold renderAll, render_list. induction ps as [|p ps IH]; simpl; [done|]. rewrite map_app, concat_app, IH. f_equal.
  destruct p as [i|l]; simpl; [by rewrite app_nil_r|]. by destruct (forallb _ l).
Qed.
Definition numbered (v : Vars) (b : bool) (i : item) : bool :=
  match i with
  | Lit s => if existsb (Z.eqb SLASH) s then false else b
  | Tok t _ => b || (episodeToken t && snd (render_item i v))
  end.
(** An accepted file name has its number, or a mark where a value is missing. *)
Definition covered (v : Vars) (a : bytes) (b : bool) (required : list token) : Prop :=
  existsb episodeToken required = true -> b = true \/ markMissing ∈ tail_comp a.

Lemma walk_optional l acc : snd (fold_left (walk_item true) l acc) = snd acc \/ snd (fold_left (walk_item true) l acc) = [].
Proof.
  revert acc. induction l as [|i l IH]; intros acc; simpl; [by left|].
  destruct (IH (walk_item true acc i)) as [->| ->]; [|by right]. destruct i as [s|t pad]; simpl; [case_if; auto|by left].
Qed.
Lemma covered_sub v a b req req' : req' = req \/ req' = [] -> covered v a b req -> covered v a b req'.
Proof. intros [->| ->]; done. Qed.
Lemma covered_item v a b acc i optional :
  covered v a b (snd acc) -> (optional = true -> snd (render_item i v) = true) ->
  covered v (a ++ fst (render_item i v)) (numbered v b i) (snd (walk_item optional acc i)).
Proof.
  intros Hc Ho. destruct i as [s|t pad]; cbn [numbered walk_item].
  - cbn [render_item fst]. destruct (existsb (Z.eqb SLASH) s) eqn:Es; [done|]. intros Hr. destruct (Hc Hr) as [Hb|Hm]; [by left|right].
    rewrite tail_comp_app; [by apply elem_of_app; left|]. intros Hx%has_slash. congruence.
  - pose proof (token_free t pad v) as Hf. cbn [snd].
    assert (Hkeep : existsb episodeToken (snd acc) = true ->
      b || (episodeToken t && snd (render_item (Tok t pad) v)) = true \/ markMissing ∈ tail_comp (a ++ fst (render_item (Tok t pad) v))).
    { intros Hr. destruct (Hc Hr) as [-> |Hm]; [by left|right]. rewrite tail_comp_app by done. apply elem_of_app. by left. }
    destruct optional; [exact Hkeep|]. unfold covered. rewrite existsb_app. intros [Hr|Hr]%orb_true_iff; [by apply Hkeep|].
    simpl in Hr. rewrite orb_false_r in Hr. rewrite Hr. rewrite tail_comp_app by done. revert Hf. cbn [render_item].
    destruct (markStripper (value t pad v)) as [|x l] eqn:Ev; cbn [fst snd]; intros _.
    + right. apply elem_of_app. right. by apply list_elem_of_singleton.
    + left. by rewrite andb_true_l, orb_true_r.
Qed.
Lemma covered_optional v l a b acc :
  Forall (fun i => snd (render_item i v) = true) l -> covered v a b (snd acc) ->
  covered v (a ++ render_list l v) (fold_left (numbered v) l b) (snd (fold_left (walk_item true) l acc)).
Proof.
  intros Hl. revert a b acc. induction Hl as [|i l Hi _ IH]; intros a b acc Hc; [by rewrite app_nil_r|].
  unfold render_list. simpl. rewrite app_assoc. apply IH. by apply (covered_item _ _ _ acc i true).
Qed.
Lemma covered_part v a b acc p :
  covered v a b (snd acc) ->
  covered v (a ++ render_list (shown v p) v) (fold_left (numbered v) (shown v p) b) (snd (walk_part acc p)).
Proof.
  intros Hc. destruct p as [i|l]; simpl.
  - unfold render_list. simpl. rewrite app_nil_r. by apply (covered_item _ _ _ acc i false).
  - destruct (forallb (fun i => snd (render_item i v)) l) eqn:Ef.
    + apply covered_optional; [|done]. apply List.Forall_forall. by apply forallb_forall.
    + simpl. unfold render_list. simpl. rewrite app_nil_r. eapply covered_sub; [|exact Hc]. apply walk_optional.
Qed.
Lemma covered_parts v ps a b acc :
  covered v a b (snd acc) ->
  covered v (a ++ render_list (flat_map (shown v) ps) v) (fold_left (numbered v) (flat_map (shown v) ps) b) (snd (fold_left walk_part ps acc)).
Proof.
  revert a b acc. induction ps as [|p ps IH]; intros a b acc Hc; simpl; [unfold render_list; by rewrite app_nil_r|].
  unfold render_list. rewrite map_app, concat_app, app_assoc, fold_left_app. by apply IH, covered_part.
Qed.

Section TwoFiles.
Context (v : Vars) (e e' : Z) (He : 0 <= e < e').
Local Abbreviation v1 := (with_episode v e).
Local Abbreviation v2 := (with_episode v e').

Lemma item_present i : snd (render_item i v1) = snd (render_item i v2).
Proof.
  destruct i as [s|t pad]; [done|]. destruct (episode_value v e e' He t pad) as [Hiff _]. simpl.
  destruct (markStripper (value t pad v1)), (markStripper (value t pad v2)); try done; exfalso; naive_solver.
Qed.
Lemma shown_same ps : flat_map (shown v1) ps = flat_map (shown v2) ps.
Proof.
  induction ps as [|p ps IH]; simpl; [done|]. rewrite IH. f_equal. destruct p as [i|l]; [done|]. simpl.
  replace (forallb (fun i => snd (render_item i v1)) l) with (forallb (fun i => snd (render_item i v2)) l); [done|].
  clear - He. induction l as [|i l IHl]; simpl; [done|]. by rewrite IHl, item_present.
Qed.
Lemma stripped_token t pad w : markStripper (fst (render_item (Tok t pad) w)) = markStripper (value t pad w).
Proof.
  simpl. assert (Hi : forall s, markStripper (markStripper s) = markStripper s).
  { unfold markStripper. induction s as [|b s IH]; simpl; [done|]. case_if; simpl; [rewrite E; by f_equal|done]. }
  specialize (Hi (value t pad w)). destruct (markStripper (value t pad w)) as [|b l]; [done|]. exact Hi.
Qed.

(** The names so far differ once a number is in them. *)
Definition split_by (x y : bytes) (b : bool) : Prop := if b then apart x y else x = y.
Lemma split_length x y b : split_by x y b -> (length x <= length y)%nat.
Proof. destruct b; [by intros [? _]|by intros ->]. Qed.
Lemma list_split l a1 a2 b :
  split_by (markStripper (tail_comp a1)) (markStripper (tail_comp a2)) b ->
  split_by (markStripper (tail_comp (a1 ++ render_list l v1))) (markStripper (tail_comp (a2 ++ render_list l v2))) (fold_left (numbered v1) l b).
Proof.
  revert a1 a2 b. induction l as [|i l IH]; intros a1 a2 b Hs; [unfold render_list; by rewrite !app_nil_r|].
  unfold render_list. simpl map. simpl concat. rewrite !app_assoc. simpl fold_left. apply IH. clear IH.
  destruct i as [s|t pad].
  - cbn [render_item fst numbered]. destruct (existsb (Z.eqb SLASH) s) eqn:Es.
    + apply has_slash in Es. by rewrite !tail_comp_slash.
    + assert (Hf : SLASH ∉ s) by (intros Hx%has_slash; congruence). rewrite !tail_comp_app, !markStripper_app by done.
      destruct b; [by apply apart_app_l|]. simpl in *. by rewrite Hs.
  - rewrite !tail_comp_app, !markStripper_app, !stripped_token by apply token_free. cbn [numbered].
    destruct (episode_value v e e' He t pad) as [Hiff Hval]. cbv zeta in Hiff, Hval. cbn [render_item].
    destruct (episodeToken t).
    + destruct Hval as [Hx|Hap].
      * pose proof (proj1 Hiff Hx) as Hy. rewrite Hx, Hy, !app_nil_r. cbn [snd andb]. by rewrite orb_false_r.
      * assert (Hne : markStripper (value t pad v1) <> []).
        { intros Hx. pose proof (proj1 Hiff Hx) as Hy. destruct Hap as [_ Hap]. congruence. }
        destruct (markStripper (value t pad v1)) as [|x lx] eqn:Ex; [done|]. cbn [snd andb]. rewrite orb_true_r.
        apply apart_app; [by eapply split_length|done].
    + rewrite Hval. cbn [andb]. rewrite orb_false_r. destruct b; [by apply apart_app_l|]. simpl in *. by rewrite Hs.
Qed.
End TwoFiles.

Lemma no_mark c : has_mark markMissing c = false -> markMissing ∉ c.
Proof.
  unfold has_mark. intros Hf Hin. assert (existsb (Z.eqb markMissing) c = true); [|congruence].
  apply existsb_exists. exists markMissing. split; [by apply list_elem_of_In|by apply Z.eqb_refl].
Qed.
Lemma files_differ t v e e' :
  0 <= e < e' -> existsb episodeToken (snd (lastComponentTokens (parts t))) = true ->
  FileOK (Render t (with_episode v e)) = true -> FileOK (Render t (with_episode v e')) = true ->
  File (Render t (with_episode v e)) <> File (Render t (with_episode v e')).
Proof.
  intros He Hreq. unfold Render, render_comps. fold (tail_comp (renderAll (parts t) (with_episode v e))).
  fold (tail_comp (renderAll (parts t) (with_episode v e'))). cbn [FileOK File].
  rewrite !andb_true_iff, !negb_true_iff. intros [_ H1] [_ H2]. rewrite H1, H2. unfold tidy. cbn [negb].
  rewrite !renderAll_shown in *. rewrite <- (shown_same v e e' He) in *. set (l := flat_map _ (parts t)) in *.
  pose proof (list_split v e e' He l [] [] false eq_refl) as Hs. cbn [app] in Hs.
  assert (Hc : covered (with_episode v e) (render_list l (with_episode v e)) (fold_left (numbered (with_episode v e)) l false)
     (snd (lastComponentTokens (parts t)))).
  { apply (covered_parts (with_episode v e) (parts t) [] false ([], [])). done. }
  destruct (Hc Hreq) as [Hb|Hm]; [|by apply no_mark in H1]. rewrite Hb in Hs. by destruct Hs.
Qed.

(** A series template that the parser accepts never gives two episodes of a show
    the same file name, whatever the literals, optional segments and paddings around
    the number. *)
Lemma episodes_distinct source t v e e' :
  Parse source true = Ok t -> 0 <= e -> 0 <= e' -> e <> e' ->
  FileOK (Render t (with_episode v e)) = true -> FileOK (Render t (with_episode v e')) = true ->
  File (Render t (with_episode v e)) <> File (Render t (with_episode v e')).
Proof.
  intros Hp He He' Hne Ho Ho'.
  assert (Hreq : existsb episodeToken (snd (lastComponentTokens (parts t))) = true).
  { unfold Parse in Hp. destruct (checkSource _); [done|]. destruct (parse_loop _ _ _) as [p|]; [|done]. destruct (popt p); [done|].
    destruct (validate _ true) eqn:Ev; [done|]. injection Hp as <-. cbn [parts] in *. unfold validate in Ev.
    destruct (check_comps _); [done|]. destruct (lastComponentTokens _) as [all required]. destruct all; [done|]. by case_if_in Ev. }
  destruct (Z.lt_trichotomy e e') as [Hlt|[?|Hgt]]; [|done|].
  - apply files_differ; [lia|done|done|done].
  - intros Heq. symmetry in Heq. revert Heq. apply files_differ; [lia|done|done|done].
Qed.

(** * Examples *)

(** The built-in layouts parse, so Default does not panic. *)
Lemma presets_parse :
  forallb (fun p => match Resolve (fst p) [] [] with Ok _ => true | Err _ => false end) Presets = true /\
  match Resolve [] [] [] with Ok _ => True | Err _ => False end.
Proof. vm_compute. split; [reflexivity|exact I]. Qed.

Definition demo_series : bytes := str "{n}< ({y})>/Season {s00}/{n} - {s00e00}< - {t}>".
Definition demo_template : Template :=
  match Parse demo_series true with Ok t => t | Err _ => mkTemplate [] [] end.
Definition demo_show : Vars := mkVars (str "../AC/DC: Live?") [] [] [] [] [] [] [] (Some 1) None.

Lemma rendered_names_safe_witness :
  Dirs (Render demo_template (with_episode demo_show 5)) = [str "..-AC-DC - Live"; str "Season 01"] /\
  Forall (fun c => plain_elem c /\ portable c /\ Z.of_nat (length c) <= 255) (Dirs (Render demo_template (with_episode demo_show 5))) /\
  portable (File (Render demo_template (with_episode demo_show 5))).
Proof.
  split; [vm_compute; reflexivity|]. apply (rendered_names_safe demo_series true). vm_compute. reflexivity.
Defined.

Lemma episodes_distinct_witness :
  File (Render demo_template (with_episode demo_show 5)) <> File (Render demo_template (with_episode demo_show 15)).
Proof. apply (episodes_distinct demo_series); try (vm_compute; reflexivity); lia. Defined.

(** A letter outside ASCII in a template is spelled as if each of its bytes were a
    character of its own: the folder "Películas" is not the one that was asked for. *)
Definition peliculas : bytes := str "Pel" ++ [195; 173] ++ str "culas".
Lemma template_letters_garbled :
  match Parse (peliculas ++ str "/{n}") false with
  | Ok t => Dirs (Render t (mkVars (str "A") [] [] [] [] [] [] [] None None)) = [str "Pel" ++ [195; 131; 194; 173] ++ str "culas"]
  | Err _ => False
  end.
Proof. vm_compute. reflexivity. Qed.

(** Trailing dots are trimmed after the spaces, so a space can be left at the end. *)
Lemma sanitize_leaves_space : Sanitize (str "Foo .") = str "Foo ".
Proof. vm_compute. reflexivity. Qed.
