(* ===== verification/Organize.v ===== *)
(** Filing a finished download into the library: engine/organize.go (moveToDir,
    organizeDir and what they call, replaceFile), movefile.go, the naming glue of
    organize_naming.go, and the sidecar rule of library/delete.go.

    The file system is a map from clean absolute paths to contents, with the
    directories that exist besides those implied by files.  Renames, copies and
    removals work or fail as the environment says. *)
From Stdlib Require Import ZArith Lia Ascii String.
From stdpp Require Import prelude list strings sorting gmap.
From S2P Require Import Prelude GoStrings SafePath NzbPick Task ProcessTask Naming.

Open Scope Z_scope.

(** * Files *)

Record ofs := mkOfs { files : gmap (list Z) (list Z); odirs : gset (list Z) }.

(** [p] lies below the directory [d]; what follows the separator. *)
Definition below (d p : bytes) : option bytes :=
  cut_prefix (if bytes_eqb d [SLASH] then d else d ++ [SLASH]) p.
Definition is_below (d p : bytes) : bool := bool_decide (is_Some (below d p)).
Definition is_dir (fs : ofs) (p : bytes) : bool :=
  bool_decide (p ∈ odirs fs) || existsb (is_below p) (map fst (map_to_list (files fs))).
Definition pathExists (fs : ofs) (p : bytes) : bool :=
  bool_decide (is_Some (files fs !! Clean p)) || is_dir fs (Clean p).

(** os.ReadDir: name, whether a directory, size; sorted by name. *)
Record entry := mkEntry { eName : bytes; eDir : bool; eSize : Z }.
Definition entry_at (d p : bytes) (size : option Z) : option entry :=
  match below d p with
  | None => None
  | Some rest =>
      let name := fst (span (fun b => negb (b =? SLASH)) rest) in
      match size with
      | Some n => if (length name =? length rest)%nat then Some (mkEntry name false n) else Some (mkEntry name true 0)
      | None => match name with [] => None | _ => Some (mkEntry name true 0) end
      end
  end.
Fixpoint bytes_leb (a b : bytes) : bool :=
  match a, b with
  | [], _ => true
  | _ :: _, [] => false
  | x :: a', y :: b' => if x =? y then bytes_leb a' b' else x <? y
  end.
Fixpoint insert_entry (e : entry) (l : list entry) : list entry :=
  match l with
  | [] => [e]
  | x :: l' =>
      if bytes_eqb (eName e) (eName x) && eqb (eDir e) (eDir x) && (eSize e =? eSize x) then l
      else if bytes_leb (eName e) (eName x) then e :: l else x :: insert_entry e l'
  end.
Definition raw_entries (fs : ofs) (d : bytes) : list entry :=
  omap (fun pc => entry_at d (fst pc) (Some (Z.of_nat (length (snd pc))))) (map_to_list (files fs)) ++
  omap (fun p => entry_at d p None) (elements (odirs fs)).
Definition ReadDir (fs : ofs) (d : bytes) : list entry :=
  foldr insert_entry [] (raw_entries fs (Clean d)).

Definition remove_file (fs : ofs) (p : bytes) : ofs := mkOfs (delete (Clean p) (files fs)) (odirs fs).
Definition RemoveAll (fs : ofs) (d : bytes) : ofs :=
  mkOfs (filter (fun pc => negb (bytes_eqb (fst pc) d || is_below d (fst pc)) = true) (files fs))
        (filter (fun p => negb (bytes_eqb p d || is_below d p) = true) (odirs fs)).
(** os.Rename of a directory. *)
Definition rename_dir (fs : ofs) (src dst : bytes) : ofs :=
  let moved p := match below src p with Some rest => dst ++ SLASH :: rest | None => dst end in
  mkOfs (filter (fun pc => negb (is_below src (fst pc)) = true) (files fs) ∪
         list_to_map (omap (fun pc => if is_below src (fst pc) then Some (moved (fst pc), snd pc) else None) (map_to_list (files fs))))
        (filter (fun p => negb (bytes_eqb p src || is_below src p) = true) (odirs fs) ∪
         list_to_set (omap (fun p => if bytes_eqb p src || is_below src p then Some (moved p) else None) (elements (odirs fs)))).

Inductive copyResult := CopyOk | CopyNotOpened | CopyFailed.
Record oenv := mkOenv {
  cwd : bytes; mkdirs : bool; renames : bytes -> bytes -> bool; copies : bytes -> bytes -> copyResult;
  removes : bytes -> bool; readable : bool; now : Z; home : bytes
}.

Section Move.
Context (env : oenv).

(** moveFile with copyFile; a rename replaces the destination. *)
Definition moveFile (fs : ofs) (src dst : bytes) : ofs * bool :=
  match files fs !! Clean src with
  | None => (fs, false)
  | Some data =>
      let put fs := mkOfs (<[Clean dst := data]> (files fs)) (odirs fs) in
      if is_dir fs (Clean dst) then (fs, false)
      else if renames env src dst then (put (remove_file fs src), true)
      else match copies env src dst with
           | CopyNotOpened => (fs, false)
           | CopyFailed => (remove_file fs dst, false)
           | CopyOk => (if removes env src then put (remove_file fs src) else put fs, true)
           end
  end.

Definition isVideoFile (name : bytes) : bool :=
  existsb (bytes_eqb (ToLower (Ext name)))
    (map str [".mkv"; ".mp4"; ".avi"; ".m4v"; ".ts"; ".m2ts"; ".wmv"; ".mov"; ".webm"; ".flv"; ".mpg"; ".mpeg"; ".vob"]%string).
Definition isSubtitleFile (name : bytes) : bool :=
  existsb (bytes_eqb (ToLower (Ext name))) (map str [".srt"; ".sub"; ".ass"; ".ssa"; ".vtt"; ".idx"]%string).
Definition SidecarBelongsTo (name stem : bytes) : bool :=
  match cut_prefix stem name with Some (b :: _) => (b =? DOT) || (b =? 45) | _ => false end.

(** sameContent: same size, fingerprint and bytes; an unreadable pair is not the same. *)
Definition sameContent (fs : ofs) (a b : bytes) : bool :=
  match files fs !! Clean a, files fs !! Clean b with
  | Some x, Some y => readable env && bytes_eqb x y
  | _, _ => false
  end.

(** * Subtitles *)

Definition trim_suffix (s suffix : bytes) : bytes := default s (cut_suffix suffix s).
(** The subtitles of a video, with the names they get. *)
Definition subtitle_moves (fs : ofs) (srcVideoPath destDir destFileName : bytes) : list (bytes * bytes) :=
  let srcDir := Dir srcVideoPath in
  let videoBase := trim_suffix (Base srcVideoPath) (Ext srcVideoPath) in
  let destVideoBase := match destFileName with [] => [] | _ => trim_suffix destFileName (Ext destFileName) end in
  omap (fun e =>
    if eDir e || negb (isSubtitleFile (eName e)) then None
    else if negb (SidecarBelongsTo (eName e) videoBase) then None
    else
      let subDest := match destVideoBase with [] => eName e | _ => destVideoBase ++ default (eName e) (cut_prefix videoBase (eName e)) end in
      Some (Join srcDir (eName e), Join destDir subDest)) (ReadDir fs srcDir).
Definition move_all (fs : ofs) (l : list (bytes * bytes)) : ofs := fold_left (fun fs sd => fst (moveFile fs (fst sd) (snd sd))) l fs.
Definition moveSubtitles (fs : ofs) (srcVideoPath destDir destFileName : bytes) : ofs :=
  move_all fs (subtitle_moves fs srcVideoPath destDir destFileName).

(** * Clean-up *)

Definition Abs (p : bytes) : bytes := if is_abs p then Clean p else Join (cwd env) p.
Definition inside_output (d outputDir : bytes) : bool :=
  match outputDir with
  | [] => false
  | _ => negb (bytes_eqb (Abs d) (Abs outputDir)) && has_prefix (Abs outputDir ++ [SLASH]) (Abs d)
  end.
Definition cleanupSourceDir (fs : ofs) (srcFile outputDir : bytes) : ofs :=
  let d := Dir srcFile in
  if negb (inside_output d outputDir) then fs
  else if existsb (fun e => eDir e || (isVideoFile (eName e) || isSubtitleFile (eName e))) (ReadDir fs (Abs d)) then fs
  else RemoveAll fs (Abs d).
Definition cleanupReleaseDir (fs : ofs) (releaseDir outputDir : bytes) : ofs :=
  if negb (inside_output releaseDir outputDir) then fs
  else if existsb (fun e => eDir e || (isVideoFile (eName e) && (minPlausibleVideoBytes <=? eSize e))) (ReadDir fs (Abs releaseDir)) then fs
  else RemoveAll fs (Abs releaseDir).
End Move.

(** * Version tags *)

(** A literal in lower case under the flag i, as bytes; k, s and the letters outside
    ASCII also fold with other spellings. *)
Definition fold_spellings (c : Z) : list bytes :=
  if c =? 107 then [[107]; [75]; [226; 132; 170]]
  else if c =? 115 then [[115]; [83]; [197; 191]]
  else if c =? 241 then [[195; 177]; [195; 145]]     (* n with tilde *)
  else if c =? 233 then [[195; 169]; [195; 137]]     (* e with acute *)
  else if (97 <=? c) && (c <=? 122) then [[c]; [c - 32]] else [[c]].
Fixpoint cut_letters (p : list Z) (s : bytes) : option bytes :=
  match p with
  | [] => Some s
  | c :: p' => match strip_one (fold_spellings c) s with Some s' => cut_letters p' s' | None => None end
  end.
Definition word_at (s : bytes) : bool := match s with b :: _ => word_byte b | [] => false end.
(** The first alternative that ends at a word boundary, as it is written in the title. *)
Fixpoint tag_here (alts : list (list Z)) (s : bytes) : option bytes :=
  match alts with
  | [] => None
  | p :: alts' =>
      match cut_letters p s with
      | Some rest =>
          let m := take (length s - length rest) s in
          if eqb (word_at (rev m)) (word_at rest) then tag_here alts' s else Some m
      | None => tag_here alts' s
      end
  end.
(** FindString of \b(...)\b; every alternative starts with a word character. *)
Definition find_tag (alts : list (list Z)) (title : bytes) : bytes :=
  default [] (leftmost (fun before => negb (word_at before)) (tag_here alts) [] title).
Definition resTags : list (list Z) := map str ["2160p"; "1080p"; "720p"; "480p"; "4k"]%string.
Definition hdrTags : list (list Z) :=
  map str ["hdr10+"; "hdr10"; "hdr"; "dolby vision"; "dolby.vision"; "dolbyvision"; "dovi"; "dv"; "hlg"]%string.
Definition langTags : list (list Z) :=
  [str "castellano"; str "espa" ++ [241] ++ str "ol"; str "espanol"; str "latino"; str "ingles"; str "ingl" ++ [233] ++ str "s";
   str "english"; str "dual"; str "multi"].

Definition contains (sub s : bytes) : bool := bool_decide (is_Some (index sub s)).
Fixpoint replace_pair (s : bytes) : bytes :=
  match s with
  | a :: ((b :: s') as t) => if (a =? SP) && (b =? SP) then SP :: replace_pair s' else a :: replace_pair t
  | _ => s
  end.
Definition normalizeHDRTag (m : bytes) : bytes :=
  let s := ToLower (replace_pair (replace_byte DOT SP m)) in
  if bytes_eqb s (str "dv") || contains (str "dolby") s || bytes_eqb s (str "dovi") then str "DV"
  else if bytes_eqb s (str "hdr10+") then str "HDR10+"
  else if bytes_eqb s (str "hdr10") then str "HDR10"
  else if bytes_eqb s (str "hlg") then str "HLG"
  else str "HDR".
(** strings.ToUpper of what can be left: letters and U+017F. *)
Fixpoint upper_tag (s : bytes) : bytes :=
  match s with
  | 197 :: 191 :: s' => 83 :: upper_tag s'
  | b :: s' => (if (97 <=? b) && (b <=? 122) then b - 32 else b) :: upper_tag s'
  | [] => []
  end.
Definition normalizeLangTag (m : bytes) : bytes :=
  let s := ToLower m in
  if has_prefix (str "castellano") s || has_prefix (str "espa") s then str "ES"
  else if bytes_eqb s (str "latino") then str "LAT"
  else if has_prefix (str "ingl") s || bytes_eqb s (str "english") then str "EN"
  else if bytes_eqb s (str "dual") then str "DUAL"
  else if bytes_eqb s (str "multi") then str "MULTI"
  else upper_tag s.
Fixpoint join_sp (l : list bytes) : bytes :=
  match l with [] => [] | [x] => x | x :: l' => x ++ SP :: join_sp l' end.
(** [None]: no task. *)
Definition versionTag (title : option bytes) : bytes :=
  match title with
  | None => []
  | Some title =>
      let res := ToLower (find_tag resTags title) in
      let hdr := find_tag hdrTags title in
      let lang := find_tag langTags title in
      join_sp ((match res with [] => [] | _ => [if bytes_eqb res (str "4k") then str "2160p" else res] end) ++
               (match hdr with [] => [] | _ => [normalizeHDRTag hdr] end) ++
               (match lang with [] => [] | _ => [normalizeLangTag lang] end))
  end.

Definition sanitizePath (name : bytes) : bytes := match Sanitize name with [] => str "Unknown" | s => s end.
Definition method_name (m : DownloadMethod) : bytes :=
  match m with MethodTorrent => str "torrent" | MethodDebrid => str "debrid" | MethodUsenet => str "usenet" | MethodIPTV => str "iptv" end.

Definition version_candidates (stem tag method : bytes) : list bytes :=
  match tag, method with
  | _ :: _, _ :: _ => [stem ++ str " [" ++ tag ++ str "]"; stem ++ str " [" ++ tag ++ str " " ++ method ++ str "]"]
  | _ :: _, [] => [stem ++ str " [" ++ tag ++ str "]"]
  | [], _ :: _ => [stem ++ str " [" ++ method ++ str "]"]
  | [], [] => []
  end.
(** The names that are tried, in order; the last is taken if all are occupied. *)
Definition version_paths (destDir fileName method : bytes) (title : option bytes) : list bytes :=
  let ext := Ext fileName in
  let stem := trim_suffix fileName ext in
  let tag := versionTag title in
  let base := match tag with [] => stem | _ => sanitizePath (stem ++ str " [" ++ tag ++ str "]") end in
  map (fun c => Join destDir (sanitizePath c ++ ext)) (version_candidates stem tag method) ++
  map (fun i => Join destDir (base ++ str " (" ++ Itoa (Z.of_nat i) ++ str ")" ++ ext)) (seq 2 998).
Definition version_last (destDir fileName : bytes) (title : option bytes) : bytes :=
  let ext := Ext fileName in
  let stem := trim_suffix fileName ext in
  let tag := versionTag title in
  Join destDir ((match tag with [] => stem | _ => sanitizePath (stem ++ str " [" ++ tag ++ str "]") end) ++ ext).
Definition versionDistinctPath (fs : ofs) (destDir fileName method : bytes) (title : option bytes) : bytes :=
  default (version_last destDir fileName title)
    (List.find (fun p => negb (pathExists fs p)) (version_paths destDir fileName method title)).

(** * Filing *)

Record OrganizeConfig := mkOrgCfg { MoviesDir : bytes; TVShowsDir : bytes; OutputDir : bytes }.
Inductive orgErr := OTraversal | OMkdir | OStat | OMove | OMoveDir | OScan.

Fixpoint largest_video (dir : bytes) (l : list entry) (best : bytes) (bestSize : Z) : bytes :=
  match l with
  | [] => best
  | e :: l' =>
      if eDir e || negb (isVideoFile (eName e)) then largest_video dir l' best bestSize
      else if bestSize <? eSize e then largest_video dir l' (Join dir (eName e)) (eSize e)
      else largest_video dir l' best bestSize
  end.
Definition largestVideoIn (fs : ofs) (dir : bytes) : bytes := largest_video dir (ReadDir fs dir) [] (-1).

Section Organize.
Context (env : oenv) (cfg : OrganizeConfig) (filePath method : bytes).

(** [destFileName] empty: the video keeps its name. *)
Definition organizeDir (fs : ofs) (destDir destFileName : bytes) : ofs * result orgErr bytes :=
  match largestVideoIn fs filePath with
  | [] =>
      let fallbackDest := Join destDir (Base filePath) in
      let fallbackDest := if pathExists fs fallbackDest then versionDistinctPath fs destDir (Base filePath) method None else fallbackDest in
      if renames env filePath fallbackDest && negb (pathExists fs fallbackDest)
      then (rename_dir fs (Clean filePath) fallbackDest, Ok fallbackDest) else (fs, Err OMoveDir)
  | videoPath =>
      let finalName :=
        match destFileName with
        | [] => Base videoPath
        | _ => FitFileName (if isVideoFile destFileName then trim_suffix destFileName (Ext destFileName) else destFileName) (Ext videoPath)
        end in
      let destPath := Join destDir finalName in
      let destPath := if pathExists fs destPath then versionDistinctPath fs destDir finalName method None else destPath in
      match moveFile env fs videoPath destPath with
      | (fs, false) => (fs, Err OMove)
      | (fs, true) =>
          let fs := moveSubtitles env fs videoPath destDir (Base destPath) in
          (cleanupReleaseDir env fs filePath (OutputDir cfg), Ok destPath)
      end
  end.

Definition dest_allowed (destDir : bytes) : bool :=
  (negb (bytes_eqb (TVShowsDir cfg) []) && isWithin (TVShowsDir cfg) destDir) ||
  (negb (bytes_eqb (MoviesDir cfg) []) && isWithin (MoviesDir cfg) destDir) ||
  (negb (bytes_eqb (OutputDir cfg) []) && isWithin (OutputDir cfg) destDir).

Definition moveToDir (fs : ofs) (title destDir destFileName : bytes) : ofs * result orgErr bytes :=
  if negb (dest_allowed destDir) then (fs, Err OTraversal)
  else if negb (mkdirs env) then (fs, Err OMkdir)
  else
    let fs := mkOfs (files fs) ({[Clean destDir]} ∪ odirs fs) in
    let fileName := match destFileName with [] => Base filePath | _ => destFileName end in
    let destPath := Join destDir fileName in
    if negb (pathExists fs filePath) then (fs, Err OStat)
    else
      let srcIsDir := is_dir fs (Clean filePath) in
      if pathExists fs destPath && negb srcIsDir && sameContent env fs filePath destPath then
        let fs := if removes env filePath then remove_file fs filePath else fs in
        (cleanupSourceDir env fs filePath (OutputDir cfg), Ok destPath)
      else
        let destPath := if pathExists fs destPath then versionDistinctPath fs destDir fileName method (Some title) else destPath in
        if srcIsDir then organizeDir fs destDir destFileName
        else
          match moveFile env fs filePath destPath with
          | (fs, false) => (fs, Err OMove)
          | (fs, true) =>
              let fs := moveSubtitles env fs filePath destDir (Base destPath) in
              (cleanupSourceDir env fs filePath (OutputDir cfg), Ok destPath)
          end.

(** replaceFile; the time stamp names the backup. *)
Definition replaceFile (fs : ofs) (oldPath newPath backupDir : bytes) : ofs * option orgErr :=
  if negb (pathExists fs oldPath) then (fs, Some OStat)
  else
    let backupDir := match backupDir with [] => Join (Join (Join (Join (home env) (str ".local")) (str "share")) (str "unarr")) (str "replaced") | _ => backupDir end in
    if negb (mkdirs env) then (fs, Some OMkdir)
    else
      let ext := Ext (Base oldPath) in
      let backupPath := Join backupDir (trim_suffix (Base oldPath) ext ++ str "." ++ Itoa (now env) ++ ext) in
      match moveFile env fs oldPath backupPath with
      | (fs, false) => (fs, Some OMove)
      | (fs, true) =>
          match moveFile env fs newPath oldPath with
          | (fs, true) => (fs, None)
          | (fs, false) =>
              (match files fs !! Clean backupPath with
               | Some data => if renames env backupPath oldPath then mkOfs (<[Clean oldPath := data]> (delete (Clean backupPath) (files fs))) (odirs fs) else fs
               | None => fs
               end, Some OMove)
          end
      end.
End Organize.

(** renderDest: the folder and the file name of a rendered template. *)
Definition renderDest (tpl : Template) (root : bytes) (v : Vars) (ext : bytes) : bytes * bytes :=
  let r := Render tpl v in
  (Join root (join_slash (Dirs r)), if FileOK r then FitFileName (File r) ext else []).

(** * Names and extensions *)

Lemma ext_rev_stop acc x y : ext_rev acc (x ++ SLASH :: y) = ext_rev acc x.
Proof. revert acc. induction x as [|b x IH]; intros acc; simpl; [done|]. case_if; [done|]. case_if; [done|apply IH]. Qed.
Lemma Ext_slash a r : Ext (a ++ SLASH :: r) = Ext r.
Proof. unfold Ext. rewrite rev_app_distr. simpl. rewrite <- app_assoc. apply ext_rev_stop. Qed.
Lemma Ext_tail y : Ext (tail_comp y) = Ext y.
Proof.
  destruct (decide (SLASH ∈ y)) as [Hy|Hy]; [|by rewrite tail_comp_free].
  destruct (last_slash y Hy) as (p & q & -> & Hq). by rewrite tail_comp_at, Ext_slash.
Qed.
Lemma ext_rev_dot acc x y : DOT ∈ x -> SLASH ∉ x -> ext_rev acc (x ++ y) = ext_rev acc x.
Proof.
  revert acc. induction x as [|b x IH]; intros acc Hd Hs; simpl; [by apply not_elem_of_nil in Hd|].
  apply not_elem_of_cons in Hs as [H1 H2]. destruct (Z.eqb_spec b SLASH); [congruence|]. destruct (Z.eqb_spec b DOT) as [->|Hb]; [done|].
  apply IH; [|done]. apply elem_of_cons in Hd as [Hd|Hd]; [congruence|done].
Qed.
Lemma Ext_dot x r : DOT ∈ r -> SLASH ∉ r -> Ext (x ++ r) = Ext r.
Proof.
  intros Hd Hs. unfold Ext. rewrite rev_app_distr. apply ext_rev_dot; rewrite list_elem_of_In, <- in_rev, <- list_elem_of_In; done.
Qed.
Lemma ext_rev_end acc s : ext_rev acc s = [] \/ exists p, ext_rev acc s = p ++ acc.
Proof.
  revert acc. induction s as [|b s IH]; intros acc; simpl; [by left|]. case_if; [by left|]. case_if; [right; by exists [b]|].
  destruct (IH (b :: acc)) as [->|(p & ->)]; [by left|right]. exists (p ++ [b]). by rewrite <- app_assoc.
Qed.
Lemma ext_rev_free acc x y : DOT ∉ x -> SLASH ∉ x -> ext_rev acc (x ++ y) = ext_rev (rev x ++ acc) y.
Proof.
  revert acc. induction x as [|b x IH]; intros acc Hd Hs; [done|]. apply not_elem_of_cons in Hd as [D1 D2], Hs as [S1 S2]. simpl.
  destruct (Z.eqb_spec b SLASH); [congruence|]. destruct (Z.eqb_spec b DOT); [congruence|]. rewrite IH by done. by rewrite <- app_assoc.
Qed.
Lemma ToLower_dash s : 45 ∈ s -> 45 ∈ ToLower s.
Proof.
  remember (length s) as n eqn:Hn. revert s Hn. induction (lt_wf n) as [n _ IH]. intros s -> Hin.
  destruct s as [|b s]; [by apply not_elem_of_nil in Hin|].
  destruct (ToLower_cases b s) as [(s' & Hs & ->)|[(s' & Hs & ->)| ->]].
  - rewrite Hs in *. right. apply (IH (length s')); [simpl; lia|done|]. apply elem_of_cons in Hin as [?|Hin]; [done|].
    by apply elem_of_cons in Hin as [?|Hin].
  - rewrite Hs in *. right. apply (IH (length s')); [simpl; lia|done|]. apply elem_of_cons in Hin as [?|Hin]; [done|].
    apply elem_of_cons in Hin as [?|Hin]; [done|]. by apply elem_of_cons in Hin as [?|Hin].
  - apply elem_of_cons in Hin as [<-|Hin]; [left|right; by apply (IH (length s)); [simpl; lia| |]].
Qed.

(** A subtitle keeps its extension under another name. *)
Lemma subtitle_renamed stem x b rest :
  isSubtitleFile (stem ++ b :: rest) = true -> (b = DOT \/ b = 45) -> SLASH ∉ b :: rest -> isSubtitleFile (x ++ b :: rest) = true.
Proof.
  intros Hs Hb Hf. destruct (decide (DOT ∈ b :: rest)) as [Hd|Hd].
  { unfold isSubtitleFile in *. by rewrite Ext_dot in * by done. }
  exfalso. destruct Hb as [->| ->]; [by apply Hd; left|].
  assert (He : Ext (stem ++ 45 :: rest) = [] \/ 45 ∈ Ext (stem ++ 45 :: rest)).
  { unfold Ext. rewrite rev_app_distr. rewrite ext_rev_free by (rewrite list_elem_of_In, <- in_rev, <- list_elem_of_In; done).
    rewrite rev_involutive, app_nil_r. destruct (ext_rev_end (45 :: rest) (rev stem)) as [->|(p & ->)]; [by left|right].
    apply elem_of_app. right. by left. }
  unfold isSubtitleFile in Hs. apply existsb_exists in Hs as (y & Hy & Heq). apply bytes_eqb_eq in Heq.
  destruct He as [He|He]; [rewrite He in Heq|apply ToLower_dash in He; rewrite Heq in He];
    repeat (destruct Hy as [<-|Hy]; [first [done|vm_compute in He; by repeat (apply elem_of_cons in He as [?|He]; [done|]); apply not_elem_of_nil in He]|]); done.
Qed.

Lemma subtitle_plain s : isSubtitleFile s = true -> SLASH ∉ s -> plain_elem s.
Proof. intros Hs Hf. split_and!; [by intros ->|by intros ->|by intros ->|done]. Qed.

(** Joining keeps the last name. *)
Lemma Join_last d y : is_abs d = true -> plain_elem (tail_comp y) ->
  exists es, Join d y = render (es ++ [tail_comp y]) /\ Forall plain_elem (es ++ [tail_comp y]).
Proof.
  intros Hd Hp. destruct d as [|c d]; [done|]. unfold Join. set (s := (c :: d) ++ SLASH :: y).
  assert (Ha : is_abs s = true) by done. destruct (Clean_abs s Ha) as (es & Hc & Hf & He).
  assert (Hy : exists front, split_slash y = front ++ [tail_comp y]).
  { exists (removelast (split_slash y)). unfold tail_comp. apply app_removelast_last, split_slash_nonempty. }
  destruct Hy as [front Hy]. subst es. unfold elems_of, clean_elems in *. rewrite Ha in *. subst s. rewrite split_slash_app, Hy in *.
  rewrite app_assoc, fold_left_app in *. cbn [fold_left] in *. set (st := fold_left (clean_push true) _ []) in *.
  assert (Hpush : clean_push true st (tail_comp y) = tail_comp y :: st).
  { change (fold_left (clean_push true) [tail_comp y] st = tail_comp y :: st). apply (push_through [tail_comp y]). by constructor. }
  rewrite Hpush in *. cbn [rev] in *. exists (rev st). by rewrite Hc.
Qed.
Lemma Join_ext d y : is_abs d = true -> plain_elem (tail_comp y) -> Ext (Join d y) = Ext y.
Proof.
  intros Hd Hp. destruct (Join_last d y Hd Hp) as (es & -> & _). destruct (render_split es (tail_comp y)) as (pre & -> & _).
  by rewrite Ext_slash, Ext_tail.
Qed.
Lemma Join_clean d y : is_abs d = true -> Clean (Join d y) = Join d y /\ is_abs (Join d y) = true.
Proof.
  intros Hd. destruct d as [|c d]; [done|]. unfold Join. destruct (Clean_abs ((c :: d) ++ SLASH :: y) Hd) as (es & -> & Hf & _).
  by rewrite Clean_render.
Qed.
Lemma Dir_abs p : is_abs p = true -> is_abs (Dir p) = true.
Proof.
  intros Hp. unfold Dir. set (s := rev (snd _)). assert (Ha : is_abs s = true); [|by destruct (Clean_abs s Ha) as (es & -> & _)].
  destruct p as [|c p]; [done|]. simpl in Hp. apply Z.eqb_eq in Hp. subst c.
  subst s. destruct (decide (SLASH ∈ SLASH :: p)) as [Hin|Hin]; [|by destruct Hin; left].
  destruct (last_slash _ Hin) as (a & b & Heq & Hb). rewrite Heq, rev_span by done. cbn [snd]. rewrite <- rev_unit, rev_involutive.
  destruct a as [|x a]; [done|]. injection Heq as <- _. done.
Qed.
Lemma subtitle_joined d y : is_abs d = true -> isSubtitleFile y = true -> isSubtitleFile (Clean (Join d y)) = true.
Proof.
  intros Hd Hy. rewrite (proj1 (Join_clean d y Hd)). unfold isSubtitleFile. rewrite Join_ext; [done|done|].
  assert (Hf : SLASH ∉ tail_comp y).
  { pose proof (split_slash_free y) as Hs. pose proof (app_removelast_last [] (split_slash_nonempty y)) as Hl. rewrite Hl in Hs.
    apply Forall_app in Hs as [_ Hs]. by apply Forall_cons in Hs as [? _]. }
  apply subtitle_plain; [|done]. unfold isSubtitleFile. by rewrite Ext_tail.
Qed.

(** * What a move leaves alone *)

Section Keeps.
Context (env : oenv) (cfg : OrganizeConfig) (filePath method : bytes).

Lemma moveFile_cases fs src dst :
  (exists fs', moveFile env fs src dst = (fs', false) /\ (fs' = fs \/ fs' = remove_file fs dst)) \/
  (exists data fs', files fs !! Clean src = Some data /\ moveFile env fs src dst = (fs', true) /\
     (files fs' = <[Clean dst := data]> (files fs) \/ files fs' = <[Clean dst := data]> (delete (Clean src) (files fs)))).
Proof.
  unfold moveFile. destruct (files fs !! Clean src) as [data|]; [|left; by eauto].
  destruct (is_dir fs (Clean dst)); [left; by eauto|]. destruct (renames env src dst); [right; exists data; eexists; by eauto|].
  destruct (copies env src dst); [|left; by eauto|left; by eauto]. right. exists data. eexists. split_and!; [done|done|].
  destruct (removes env src); simpl; auto.
Qed.
Lemma moveFile_keeps fs src dst fs' ok q :
  moveFile env fs src dst = (fs', ok) -> q <> Clean src -> q <> Clean dst -> files fs' !! q = files fs !! q.
Proof.
  intros Hm Hs Hd. destruct (moveFile_cases fs src dst) as [(fs1 & H1 & H2)|(data & fs1 & _ & H1 & H2)]; rewrite Hm in H1; injection H1 as -> ->.
  - destruct H2 as [->| ->]; [done|by apply lookup_delete_ne].
  - destruct H2 as [->| ->]; rewrite lookup_insert_ne by done; [done|by apply lookup_delete_ne].
Qed.
Lemma moveFile_moved fs src dst fs' data :
  moveFile env fs src dst = (fs', true) -> files fs !! Clean src = Some data -> files fs' !! Clean dst = Some data.
Proof.
  intros Hm Hs. destruct (moveFile_cases fs src dst) as [(fs1 & H1 & H2)|(data' & fs1 & H0 & H1 & H2)]; rewrite Hm in H1; [done|].
  injection H1 as ->. rewrite Hs in H0. injection H0 as <-. destruct H2 as [->| ->]; apply lookup_insert_eq.
Qed.
Lemma moveFile_failed fs src dst fs' data :
  moveFile env fs src dst = (fs', false) -> files fs !! Clean src = Some data -> Clean dst <> Clean src -> files fs' !! Clean src = Some data.
Proof.
  intros Hm Hs Hne. destruct (moveFile_cases fs src dst) as [(fs1 & H1 & H2)|(data' & fs1 & H0 & H1 & H2)]; rewrite Hm in H1; [|done].
  injection H1 as ->. destruct H2 as [->| ->]; [done|]. simpl. by rewrite lookup_delete_ne.
Qed.

(** ** Listing a directory *)

Lemma insert_entry_spec e l : e ∈ insert_entry e l /\ forall x, x ∈ l -> x ∈ insert_entry e l.
Proof.
  induction l as [|y l [IH1 IH2]]; simpl; [split; [by left|by intros x ?%not_elem_of_nil]|]. case_if.
  - split; [|done]. apply andb_true_iff in E as [[E1 E2]%andb_true_iff E3]. apply bytes_eqb_eq in E1. apply eqb_prop in E2. apply Z.eqb_eq in E3.
    destruct e, y; simpl in *; subst. by left.
  - case_if; [split; [by left|by right]|]. split; [by right|]. intros x [->|Hx]%elem_of_cons; [by left|right; auto].
Qed.
Lemma ReadDir_has fs d e : e ∈ raw_entries fs (Clean d) -> e ∈ ReadDir fs d.
Proof.
  unfold ReadDir. induction (raw_entries fs (Clean d)) as [|x l IH]; [done|]. simpl.
  intros [->|He]%elem_of_cons; [apply (proj1 (insert_entry_spec _ _))|]. apply (proj2 (insert_entry_spec _ _)). auto.
Qed.
Lemma ReadDir_only fs d e : e ∈ ReadDir fs d -> e ∈ raw_entries fs (Clean d).
Proof.
  unfold ReadDir. induction (raw_entries fs (Clean d)) as [|x l IH]; [done|]. simpl.
  assert (Hi : forall l y, y ∈ insert_entry x l -> y = x \/ y ∈ l).
  { clear. induction l as [|z l IHl]; simpl; intros y Hy; [apply list_elem_of_singleton in Hy; by left|].
    case_if_in Hy; [by right|]. case_if_in Hy; [by apply elem_of_cons in Hy as [?|?]; [left|right]|].
    apply elem_of_cons in Hy as [->|Hy]; [right; by left|]. destruct (IHl y Hy); [by left|right; by right]. }
  intros Hy. apply Hi in Hy as [->|Hy]; [by left|right; auto].
Qed.
Lemma span_no_slash s : SLASH ∉ fst (span (fun b => negb (b =? SLASH)) s).
Proof.
  intros Hin. pose proof (span_fst (fun b => negb (b =? SLASH)) s) as Hf. eapply Forall_forall in Hf; [|exact Hin]. done.
Qed.
Lemma entry_name_free d p n e : entry_at d p n = Some e -> SLASH ∉ eName e.
Proof.
  unfold entry_at. destruct (below d p) as [rest|]; [|done]. pose proof (span_no_slash rest) as Hs.
  destruct n; [case_if; by intros [= <-]|]. destruct (fst (span _ rest)); [done|]. by intros [= <-].
Qed.
Lemma ReadDir_name_free fs d e : e ∈ ReadDir fs d -> SLASH ∉ eName e.
Proof.
  intros He%ReadDir_only. unfold raw_entries in He. apply elem_of_app in He as [He|He];
    apply list_elem_of_omap in He as (x & _ & He); by apply entry_name_free in He.
Qed.
(** A file below a directory that has no subdirectory is listed by the rest of its path. *)
Lemma listed_file fs d q c :
  files fs !! q = Some c -> is_below (Clean d) q = true -> existsb eDir (ReadDir fs d) = false ->
  exists e, e ∈ ReadDir fs d /\ eDir e = false /\ below (Clean d) q = Some (eName e).
Proof.
  intros Hq Hb Hn. apply bool_decide_eq_true in Hb as [rest Hr].
  assert (He : exists e, entry_at (Clean d) q (Some (Z.of_nat (length c))) = Some e).
  { unfold entry_at. rewrite Hr. case_if; by eexists. }
  destruct He as [e He]. assert (Hin : e ∈ ReadDir fs d).
  { apply ReadDir_has. unfold raw_entries. apply elem_of_app. left. apply list_elem_of_omap. exists (q, c). split; [by apply elem_of_map_to_list|done]. }
  assert (Hd : eDir e = false).
  { destruct (eDir e) eqn:E; [|done]. rewrite <- Hn. symmetry. apply existsb_exists. exists e. split; [by apply list_elem_of_In|done]. }
  exists e. split_and!; [done|done|]. unfold entry_at in He. rewrite Hr in He.
  case_if_in He; injection He as <-; [|done]. simpl. rewrite Hr. f_equal. apply Nat.eqb_eq in E.
  rewrite <- (span_app (fun b => negb (b =? SLASH)) rest) at 1. rewrite <- (span_app (fun b => negb (b =? SLASH)) rest) in E at 2.
  rewrite length_app in E. destruct (snd (span _ rest)) as [|x l] eqn:Es; [by rewrite app_nil_r|simpl in E; lia].
Qed.
Lemma below_ext d q rest : below d q = Some rest -> d <> [] -> Ext q = Ext rest.
Proof.
  unfold below. intros H Hd. apply cut_prefix_Some in H. subst q. case_if.
  - apply bytes_eqb_eq in E. subst d. apply (Ext_slash [] rest).
  - rewrite <- app_assoc. apply Ext_slash.
Qed.

(** ** Subtitles and clean-ups *)

Lemma subtitle_moves_named fs src destDir name s d :
  is_abs src = true -> is_abs destDir = true -> (s, d) ∈ subtitle_moves fs src destDir name ->
  isSubtitleFile (Clean s) = true /\ isSubtitleFile (Clean d) = true.
Proof.
  intros Hs Hd Hin. apply list_elem_of_omap in Hin as (e & He & Hm). apply ReadDir_name_free in He.
  destruct (eDir e || negb (isSubtitleFile (eName e))) eqn:E1; [done|]. apply orb_false_iff in E1 as [_ E1%negb_false_iff].
  set (base := trim_suffix (Base src) (Ext src)) in *. destruct (SidecarBelongsTo (eName e) base) eqn:E2; [|done]. simpl in Hm.
  injection Hm as <- <-. split; [apply subtitle_joined; [by apply Dir_abs|done]|]. apply subtitle_joined; [done|].
  destruct (match name with [] => [] | _ => _ end) as [|x l]; [done|].
  unfold SidecarBelongsTo in E2. destruct (cut_prefix base (eName e)) as [[|b rest]|] eqn:Ec; [done| |done].
  apply cut_prefix_Some in Ec. rewrite Ec in E1, He. cbn [default]. apply (subtitle_renamed base); [done| |].
  - apply orb_true_iff in E2 as [E2|E2]; apply Z.eqb_eq in E2; auto.
  - intros Hx. apply He, elem_of_app. by right.
Qed.
Lemma move_all_keeps l fs q :
  Forall (fun sd => q <> Clean (fst sd) /\ q <> Clean (snd sd)) l -> files (move_all env fs l) !! q = files fs !! q.
Proof.
  unfold move_all. revert fs. induction l as [|[s d] l IH]; intros fs Hl; [done|]. apply Forall_cons in Hl as [[H1 H2] Hl]. simpl.
  rewrite IH by done. destruct (moveFile env fs s d) as [fs1 ok] eqn:E. by eapply moveFile_keeps.
Qed.
Lemma moveSubtitles_keeps fs src destDir name q :
  is_abs src = true -> is_abs destDir = true -> isSubtitleFile q = false ->
  files (moveSubtitles env fs src destDir name) !! q = files fs !! q.
Proof.
  intros Hs Hd Hq. apply move_all_keeps, Forall_forall. intros [s d] Hin.
  destruct (subtitle_moves_named _ _ _ _ _ _ Hs Hd Hin) as [H1 H2]. simpl. split; intros ->; congruence.
Qed.

Lemma RemoveAll_keeps fs d q : q <> d -> is_below d q = false -> files (RemoveAll fs d) !! q = files fs !! q.
Proof.
  intros Hq Hb. unfold RemoveAll. simpl. destruct (files fs !! q) as [c|] eqn:E.
  - apply map_lookup_filter_Some. split; [done|]. simpl. rewrite Hb, orb_false_r. apply negb_true_iff.
    destruct (bytes_eqb q d) eqn:Eq; [|done]. by apply bytes_eqb_eq in Eq.
  - apply map_lookup_filter_None. by left.
Qed.
Lemma Abs_clean p : is_abs p = true -> Clean (Abs env p) = Abs env p /\ Abs env p <> [].
Proof. intros Hp. unfold Abs. rewrite Hp. destruct (Clean_abs p Hp) as (es & -> & Hf & _). by rewrite Clean_render. Qed.
Lemma not_dir_entries (f : entry -> bool) l : existsb (fun e => eDir e || f e) l = false -> existsb eDir l = false /\ forall e, e ∈ l -> f e = false.
Proof.
  induction l as [|e l IH]; simpl; [by split; [|intros ? ?%not_elem_of_nil]|]. intros [[H1 H2]%orb_false_iff H3]%orb_false_iff.
  destruct (IH H3) as [H4 H5]. split; [by rewrite H1|]. intros x [->|Hx]%elem_of_cons; auto.
Qed.
(** A clean-up takes no video, and nothing outside the directory. *)
Lemma cleanupSourceDir_keeps fs src q c :
  is_abs src = true -> files fs !! q = Some c -> q <> Abs env (Dir src) ->
  (isVideoFile q = true \/ is_below (Abs env (Dir src)) q = false) ->
  files (cleanupSourceDir env fs src (OutputDir cfg)) !! q = Some c.
Proof.
  intros Hs Hq Hne Hor. unfold cleanupSourceDir. case_if; [done|]. destruct (Abs_clean (Dir src) (Dir_abs _ Hs)) as [Hc Hnil].
  destruct (existsb _ (ReadDir fs (Abs env (Dir src)))) eqn:Ex; [done|].
  destruct (is_below (Abs env (Dir src)) q) eqn:Eb; [|by rewrite RemoveAll_keeps].
  exfalso. destruct Hor as [Hv|]; [|done].
  apply not_dir_entries in Ex as [Hd Hf]. rewrite <- Hc in Eb.
  destruct (listed_file _ _ _ _ Hq Eb Hd) as (e & He & _ & Hb). specialize (Hf e He). apply orb_false_iff in Hf as [Hf _].
  rewrite Hc in Hb. unfold isVideoFile in Hv, Hf. rewrite (below_ext _ _ _ Hb Hnil) in Hv. congruence.
Qed.
End Keeps.

Definition with_dir (fs : ofs) (d : bytes) : ofs := mkOfs (files fs) ({[Clean d]} ∪ odirs fs).

Lemma absent fs p : pathExists fs p = false -> files fs !! Clean p = None.
Proof. unfold pathExists. intros [H _]%orb_false_iff. apply bool_decide_eq_false in H. by destruct (files fs !! Clean p); [destruct H|]. Qed.
(** The name chosen for a version is free when one of those tried is. *)
Lemma version_free fs destDir fileName method title :
  Exists (fun p => pathExists fs p = false) (version_paths destDir fileName method title) ->
  pathExists fs (versionDistinctPath fs destDir fileName method title) = false.
Proof.
  intros He. unfold versionDistinctPath. destruct (List.find _ _) as [p|] eqn:Ef.
  - apply find_some in Ef as [_ Hf]. by apply negb_true_iff in Hf.
  - exfalso. apply List.Exists_exists in He as (p & Hin & Hp). pose proof (find_none _ _ Ef p Hin) as Hn. simpl in Hn. by rewrite Hp in Hn.
Qed.

Section Filing.
Context (env : oenv) (cfg : OrganizeConfig) (filePath method : bytes) (fs : ofs) (title destDir destFileName data : bytes).
Definition wanted_name : bytes := match destFileName with [] => Base filePath | _ => destFileName end.
Hypothesis Habs : is_abs filePath = true.
Hypothesis Hdest : is_abs destDir = true.
Hypothesis Hsrc : files fs !! Clean filePath = Some data.
Hypothesis Hfile : is_dir (with_dir fs destDir) (Clean filePath) = false.

(** What is not this download, its subtitles or junk beside it. *)
Definition foreign (q : bytes) : Prop :=
  q <> Clean filePath /\ isSubtitleFile q = false /\ q <> Abs env (Dir filePath) /\
  (isVideoFile q = true \/ is_below (Abs env (Dir filePath)) q = false).

Lemma video_no_subtitle p : isVideoFile p = true -> isSubtitleFile p = false.
Proof.
  unfold isVideoFile, isSubtitleFile. intros Hv. apply existsb_exists in Hv as (x & Hx & Heq%bytes_eqb_eq). rewrite Heq.
  repeat (destruct Hx as [<-|Hx]; [vm_compute; reflexivity|]). done.
Qed.
Lemma cleaned fs1 q c :
  files fs1 !! q = Some c -> isSubtitleFile q = false -> q <> Abs env (Dir filePath) ->
  (isVideoFile q = true \/ is_below (Abs env (Dir filePath)) q = false) -> forall d n,
  is_abs d = true ->
  files (cleanupSourceDir env (moveSubtitles env fs1 filePath d n) filePath (OutputDir cfg)) !! q = Some c.
Proof.
  intros Hq Hs Hne Hor d n Hd. eapply cleanupSourceDir_keeps; [done| |done|done]. by rewrite moveSubtitles_keeps.
Qed.

(** Filing a downloaded file never costs another one: whatever is at the
    destination and however renames, copies and removals fail, every file that is not
    the download itself, a subtitle or junk left beside it keeps its place and its
    bytes; a video that was filed is at the path reported with the bytes downloaded,
    and when filing fails they are still where they were.  The download does not lie at
    its destination already, and not all of the thousand version names are taken. *)
Lemma organize_keeps_files :
  Clean filePath <> Join destDir wanted_name ->
  Exists (fun p => pathExists (with_dir fs destDir) p = false) (version_paths destDir wanted_name method (Some title)) ->
  let '(fs', res) := moveToDir env cfg filePath method fs title destDir destFileName in
  (forall q c, files fs !! q = Some c -> foreign q -> files fs' !! q = Some c) /\
  match res with
  | Ok p => isVideoFile p = true -> p <> Abs env (Dir filePath) -> files fs' !! Clean p = Some data
  | Err _ => files fs' !! Clean filePath = Some data
  end.
Proof.
  intros Hplace Hfree. unfold moveToDir. case_if; [done|]. case_if; [done|].
  fold (with_dir fs destDir). set (fs1 := with_dir fs destDir) in *. fold wanted_name. set (dest := Join destDir wanted_name) in *.
  assert (H1 : forall q, files fs1 !! q = files fs !! q) by done. case_if; [done|].
  rewrite Hfile. destruct (Join_clean destDir wanted_name Hdest) as [Hcl _]. fold dest in Hcl.
  cbn [negb]. rewrite andb_true_r. destruct (pathExists fs1 dest && sameContent env fs1 filePath dest) eqn:Esame.
  { apply andb_true_iff in Esame as [_ Es]. unfold sameContent in Es. rewrite (H1 (Clean filePath)), (H1 (Clean dest)), Hsrc in Es.
    destruct (files fs !! Clean dest) as [y|] eqn:Ey; rewrite ?Ey in Es; [|done].
    apply andb_true_iff in Es as [_ Es%bytes_eqb_eq]. subst y.
    set (fs2 := if removes env filePath then _ else fs1).
    assert (H2 : forall q, q <> Clean filePath -> files fs2 !! q = files fs !! q).
    { intros q Hq. subst fs2. destruct (removes env filePath); [by apply lookup_delete_ne|done]. }
    split.
    - intros q c Hq (F1 & F2 & F3 & F4). eapply cleanupSourceDir_keeps; [done| |done|done]. by rewrite H2.
    - intros Hv Hne. rewrite Hcl in *. eapply cleanupSourceDir_keeps; [done| |done|by left]. rewrite H2; [done|congruence]. }
  set (dest' := if pathExists fs1 dest then _ else dest).
  assert (Hd' : files fs1 !! Clean dest' = None).
  { apply absent. subst dest'. destruct (pathExists fs1 dest) eqn:E3; [by apply version_free|done]. }
  destruct (moveFile env fs1 filePath dest') as [fs2 ok] eqn:Em.
  assert (Hne' : Clean dest' <> Clean filePath) by (intros Hx; rewrite Hx, H1 in Hd'; congruence).
  assert (Hk : forall q c, files fs !! q = Some c -> q <> Clean filePath -> files fs2 !! q = Some c).
  { intros q c Hq Hn. rewrite (moveFile_keeps _ _ _ _ _ _ q Em); [done|done|]. intros ->. rewrite H1 in Hd'. congruence. }
  destruct ok.
  - split.
    + intros q c Hq (F1 & F2 & F3 & F4). apply cleaned; auto.
    + intros Hv Hne. assert (Hc' : Clean dest' = dest').
      { subst dest'. destruct (pathExists fs1 dest); [|done]. unfold versionDistinctPath.
        destruct (List.find _ _) as [p|] eqn:Ef; [|apply (Join_clean destDir _ Hdest)]. apply find_some in Ef as [Hin _].
        apply in_app_iff in Hin as [Hin|Hin]; apply in_map_iff in Hin as (x & <- & _); apply (Join_clean destDir _ Hdest). }
      rewrite Hc'. apply cleaned; [|by apply video_no_subtitle|done|by left|done]. rewrite <- Hc'. by eapply moveFile_moved.
  - split; [intros q c Hq (F1 & _); by apply Hk|]. by eapply moveFile_failed.
Qed.
End Filing.

(** * The folder of a template is in the library *)

Lemma within_app b r :
  b <> [] -> Forall plain_elem (b ++ r) -> isWithin (render b) (render (b ++ r)) = true.
Proof.
  intros Hb Hp. pose proof Hp as [Hp1 _]%Forall_app. unfold isWithin. rewrite !Clean_render by done. apply orb_true_iff.
  destruct r as [|x r]; [left; rewrite app_nil_r; apply bytes_eqb_refl|right].
  apply has_prefix_true. exists (join_slash (x :: r)). unfold render. destruct b as [|e b]; [done|]. clear. revert e.
  induction b as [|e' b IH]; intros e; [cbn [app join_slash]; by rewrite <- app_assoc|]. specialize (IH e'). cbn [app join_slash] in *. injection IH as IH.
  rewrite <- !app_assoc in *. cbn [app] in *. by rewrite IH.
Qed.
Lemma Join_dirs root l :
  is_abs root = true -> Forall plain_elem l -> Join root (join_slash l) = render (elems_of root ++ l) /\ Forall plain_elem (elems_of root ++ l).
Proof.
  intros Hr Hl. destruct root as [|c root]; [done|]. destruct (Clean_abs _ Hr) as (es & _ & Hes & Heq). rewrite Heq.
  split; [|by apply Forall_app]. unfold Join, Clean. change (is_abs ((c :: root) ++ SLASH :: join_slash l)) with (is_abs (c :: root)). rewrite Hr.
  unfold render. change ((c :: root) ++ SLASH :: join_slash l) with (c :: (root ++ SLASH :: join_slash l)). f_equal. f_equal.
  change (c :: root ++ SLASH :: join_slash l) with ((c :: root) ++ SLASH :: join_slash l). unfold elems_of, clean_elems in *.
  change (is_abs ((c :: root) ++ SLASH :: join_slash l)) with (is_abs (c :: root)). rewrite Hr in *. rewrite split_slash_app, fold_left_app.
  set (st := fold_left (clean_push true) (split_slash (c :: root)) []) in *. destruct l as [|x l].
  - simpl. by rewrite app_nil_r.
  - rewrite split_join; [|done|by apply plain_free]. rewrite push_through by done. rewrite rev_app_distr, rev_involutive. by rewrite Heq.
Qed.

(** The folder a naming template gives a download lies within the library root it
    was rendered for, whatever the metadata says: organizing cannot be steered outside
    by a title, a collection or an episode name. *)
Lemma library_folder_contained source series t root v ext :
  Parse source series = Ok t -> is_abs root = true -> Clean root <> [SLASH] ->
  isWithin root (fst (renderDest t root v ext)) = true.
Proof.
  intros Hp Ha Hroot. pose proof (rendered_dirs_plain source series t v Hp) as Hd. unfold renderDest. cbn [fst].
  destruct (Join_dirs root (Dirs (Render t v)) Ha Hd) as [-> Hf]. destruct (Clean_abs root Ha) as (es & Hc & Hes & Heq). rewrite Heq in *.
  unfold isWithin. rewrite Hc. rewrite <- (Clean_render es Hes). apply within_app; [|done]. intros ->. by apply Hroot.
Qed.

(** * Runs *)

Definition works : oenv := mkOenv (str "/") true (fun _ _ => true) (fun _ _ => CopyOk) (fun _ => true) true 1700000000 (str "/home/u").
Definition one_folder : OrganizeConfig := mkOrgCfg (str "/media") (str "/media") (str "/media").
Definition two_folders : OrganizeConfig := mkOrgCfg (str "/films") (str "/shows") (str "/down").
Definition film (d : string) : bytes := str d ++ str "/Film (2020)/Film (2020).mkv".
Definition demo_files (l : list (bytes * bytes)) : ofs := mkOfs (list_to_map l) ∅.
Definition downloaded_again : ofs :=
  demo_files [(film "/films", str "old cut"); (str "/down/rel/x.2160p.mkv", str "new cut"); (str "/down/rel/x.nfo", str "junk");
              (str "/down/other.mkv", str "other")].

Lemma organize_keeps_files_witness :
  exists fs', moveToDir works two_folders (str "/down/rel/x.2160p.mkv") (str "torrent") downloaded_again (str "x 2160p") (str "/films/Film (2020)") (str "Film (2020).mkv")
    = (fs', Ok (str "/films/Film (2020)/Film (2020) [2160p].mkv")) /\
  files fs' !! film "/films" = Some (str "old cut") /\
  files fs' !! Clean (str "/films/Film (2020)/Film (2020) [2160p].mkv") = Some (str "new cut").
Proof.
  pose proof (organize_keeps_files works two_folders (str "/down/rel/x.2160p.mkv") (str "torrent") downloaded_again (str "x 2160p")
    (str "/films/Film (2020)") (str "Film (2020).mkv") (str "new cut") eq_refl eq_refl eq_refl eq_refl) as H.
  assert (Hr : snd (moveToDir works two_folders (str "/down/rel/x.2160p.mkv") (str "torrent") downloaded_again (str "x 2160p")
    (str "/films/Film (2020)") (str "Film (2020).mkv")) = Ok (str "/films/Film (2020)/Film (2020) [2160p].mkv")) by (vm_compute; reflexivity).
  destruct (moveToDir works two_folders (str "/down/rel/x.2160p.mkv") (str "torrent") downloaded_again (str "x 2160p")
    (str "/films/Film (2020)") (str "Film (2020).mkv")) as [fs' res]. cbn [snd] in Hr. subst res.
  destruct H as [Hk Hp]; [vm_compute; discriminate|apply Exists_cons_hd; vm_compute; reflexivity|].
  exists fs'. split; [reflexivity|]. split.
  - apply Hk; [vm_compute; reflexivity|]. split; [vm_compute; discriminate|]. split; [vm_compute; reflexivity|].
    split; [vm_compute; discriminate|left; vm_compute; reflexivity].
  - apply Hp; [vm_compute; reflexivity|vm_compute; discriminate].
Defined.

Lemma library_folder_contained_witness :
  fst (renderDest demo_template (str "/shows") (with_episode demo_show 5) (str ".mkv")) = str "/shows/..-AC-DC - Live/Season 01" /\
  isWithin (str "/shows") (fst (renderDest demo_template (str "/shows") (with_episode demo_show 5) (str ".mkv"))) = true.
Proof.
  split; [vm_compute; reflexivity|].
  apply (library_folder_contained demo_series true); [vm_compute; reflexivity|reflexivity|vm_compute; discriminate].
Defined.

(** ** Where files are lost *)

(** A download that already lies at its destination is compared with itself, found
    identical and removed: the only copy is gone and the task succeeds. *)
Lemma file_in_place_is_deleted :
  let '(fs', res) := moveToDir works one_folder (film "/media") (str "usenet") (demo_files [(film "/media", str "the film")])
                       (str "Film") (str "/media/Film (2020)") (str "Film (2020).mkv") in
  res = Ok (film "/media") /\ files fs' !! film "/media" = None.
Proof. vm_compute. split; reflexivity. Qed.

(** A file without a video extension that is renamed within its folder is swept with it. *)
Lemma image_in_place_is_swept :
  let '(fs', res) := moveToDir works one_folder (str "/media/Film (2020)/f.iso") (str "usenet")
                       (demo_files [(str "/media/Film (2020)/f.iso", str "the film")])
                       (str "Film") (str "/media/Film (2020)") (str "Film (2020).iso") in
  (match res with Ok _ => True | Err _ => False end) /\ map_to_list (files fs') = [].
Proof. vm_compute. split; [exact I|reflexivity]. Qed.

(** A subtitle replaces another one of the same name. *)
Lemma subtitle_overwrites :
  let '(fs', _) := moveToDir works two_folders (str "/down/rel/x.mkv") (str "torrent")
                     (demo_files [(str "/films/F/F.srt", str "mine"); (str "/down/rel/x.mkv", str "v"); (str "/down/rel/x.srt", str "theirs")])
                     (str "F") (str "/films/F") (str "F.mkv") in
  files fs' !! str "/films/F/F.srt" = Some (str "theirs").
Proof. vm_compute. reflexivity. Qed.

(** When every name is taken the answer is one that is taken. *)
Lemma version_names_run_out fs destDir fileName method title :
  Forall (fun p => pathExists fs p = true) (version_paths destDir fileName method title) ->
  versionDistinctPath fs destDir fileName method title = version_last destDir fileName title.
Proof.
  intros Hf. unfold versionDistinctPath. destruct (List.find _ _) as [p|] eqn:Ef; [|done]. exfalso.
  apply find_some in Ef as [Hin Hn]. eapply List.Forall_forall in Hf; [|exact Hin]. by rewrite Hf in Hn.
Qed.
