(* ===== verification/Reconcile.v ===== *)
(** Automatic upkeep of the library folders: internal/library/reconcile.go,
    reconcile_scan.go, reconcile_dedup.go, reconcile_errors.go and fingerprint.go,
    and the sweep the daemon runs after a scan (runPostScanCleanup of
    internal/cmd/daemon.go).

    The file system is the one of SafePath: directories, symbolic links and files
    by physical path.  The code's paths are absolute and clean, so they are lists of
    elements, and [render] is the string.  The folders do not change while they are
    scanned; what every pass could read, and how every removal ended, are inputs. *)
From Stdlib Require Import ZArith Lia Ascii String.
From stdpp Require Import prelude list strings sorting gmap.
From S2P Require Import Prelude GoStrings SafePath Organize.

Open Scope Z_scope.

(** * Files and walks *)

(** The last element, which decides the extension. *)
Definition name_of (p : path) : bytes := List.last p [].
(** filepath.Dir *)
Definition parent (p : path) : path := removelast p.
(** [x] seen from [q]. *)
Fixpoint strip (q x : path) : option path :=
  match q, x with
  | [], _ => Some x
  | a :: q', b :: x' => if bytes_eqb a b then strip q' x' else None
  | _ :: _, [] => None
  end.
Definition under (q x : path) : bool := match strip q x with Some _ => true | None => false end.

(** What the calls of a pass could read: directories listed, files examined and
    opened; the sizes the system reports. *)
Record scanIO := mkScanIO {
  lists : path -> bool; stats : path -> bool; opens : path -> bool;
  dirSize : path -> Z; linkSize : path -> Z; blocks : path -> Z
}.

(** Where the last element of a path is, when it is not followed. *)
Definition place (fs : FS) (p : path) : path :=
  match p with [] => [] | _ => follow (links fs) [] (parent p) ++ [name_of p] end.
Definition followed (fs : FS) (p : path) : path := follow (links fs) [] p.
Definition present (fs : FS) (q : path) : bool :=
  bool_decide (q ∈ dirs fs) || bool_decide (is_Some (links fs !! q)) || bool_decide (is_Some (fdata fs !! q)).

Record FileInfo := mkInfo { Size : Z; isDir : bool; Blocks : Z }.
(** os.Stat *)
Definition Stat (fs : FS) (io : scanIO) (p : path) : option FileInfo :=
  let q := followed fs p in
  if negb (stats io p) then None
  else match fdata fs !! q with
       | Some d => Some (mkInfo (Z.of_nat (length d)) false (blocks io q))
       | None => if bool_decide (q ∈ dirs fs) then Some (mkInfo (dirSize io q) true (blocks io q)) else None
       end.
(** The information of a directory entry, links not followed. *)
Definition entry_info (fs : FS) (io : scanIO) (p : path) : option FileInfo :=
  let q := place fs p in
  if negb (stats io p) then None
  else match fdata fs !! q with
       | Some d => Some (mkInfo (Z.of_nat (length d)) false (blocks io q))
       | None =>
           if bool_decide (is_Some (links fs !! q)) then Some (mkInfo (linkSize io q) false (blocks io q))
           else if bool_decide (q ∈ dirs fs) then Some (mkInfo (dirSize io q) true (blocks io q)) else None
       end.
(** diskUsage *)
Definition diskUsage (i : FileInfo) : Z := wrap_i64 (Blocks i * 512).

(** Lexical order, element by element: the order of a walk. *)
Fixpoint path_ltb (a b : path) : bool :=
  match a, b with
  | _, [] => false
  | [], _ :: _ => true
  | x :: a', y :: b' => if bytes_eqb x y then path_ltb a' b' else bytes_leb x y
  end.
Definition all_paths (fs : FS) : list path :=
  elements (dirs fs) ++ map fst (map_to_list (links fs)) ++ map fst (map_to_list (fdata fs)).

(** A callback of filepath.WalkDir: the path, whether it is a directory, whether
    it is called for an error. *)
Record walkEntry := mkWalk { wPath : path; wDir : bool; wErr : bool }.
Inductive walkCtl := WalkOn | SkipDir | SkipAll.

(** A directory's listing is reached through directories that could be listed. *)
Definition listed (fs : FS) (io : scanIO) (root q rest : path) : bool :=
  forallb (fun n => bool_decide (q ++ take n rest ∈ dirs fs) && lists io (root ++ take n rest)) (seq 0 (length rest)).
Definition walk_rests (fs : FS) (io : scanIO) (root q : path) : list path :=
  sort_SliceStable path_ltb (List.filter (listed fs io root q) (omap (strip q) (all_paths fs))).
(** The calls of a walk that skips nothing, in order.  A directory that cannot be
    listed is reported once more and nothing of it is seen. *)
Definition walk_calls (fs : FS) (io : scanIO) (root : path) : list walkEntry :=
  let q := place fs root in
  if bool_decide (q ∈ dirs fs) then
    flat_map (fun rest =>
      let p := root ++ rest in
      let d := bool_decide (q ++ rest ∈ dirs fs) in
      mkWalk p d false :: (if d && negb (lists io p) then [mkWalk p d true] else []))
      (walk_rests fs io root q)
  else if present fs q then [mkWalk root false false]
  else [mkWalk root false true].

Section Walk.
Context {S : Type} (fn : S -> walkEntry -> S * walkCtl).
(** [skip] is the directory that is being left out. *)
Fixpoint walk_list (l : list walkEntry) (skip : option path) (s : S) : S :=
  match l with
  | [] => s
  | e :: l' =>
      if match skip with Some d => under d (wPath e) | None => false end then walk_list l' skip s
      else
        let '(s', c) := fn s e in
        match c with
        | SkipAll => s'
        | SkipDir => walk_list l' (Some (wPath e)) s'
        | WalkOn => walk_list l' None s'
        end
  end.
Definition WalkDir (fs : FS) (io : scanIO) (root : path) (s : S) : S := walk_list (walk_calls fs io root) None s.
End Walk.

(** * Names *)

Definition partialExts : list bytes := map str [".part"; ".!qb"; ".aria2"; ".tmp"; ".partial"]%string.
Definition PartMetaSuffix : bytes := str ".part.meta.json".
Definition IsPartialExt (name : bytes) : bool :=
  has_suffix PartMetaSuffix (ToLower name) || existsb (bytes_eqb (ToLower (Ext name))) partialExts.
Definition sidecarReconcileExts : list bytes :=
  map str [".srt"; ".sub"; ".ass"; ".ssa"; ".vtt"; ".idx"; ".nfo"; ".jpg"; ".jpeg"; ".png"; ".par2"]%string.

(** * Findings and options *)

Inductive FindingKind :=
| KindStubVideo | KindOrphanPartial | KindOrphanSidecar | KindEmptyDir | KindMediaNamedDir | KindDuplicate | KindCorruptVideo.
(** Finding; the reason is a text for people and is left out. *)
Record Finding := mkFinding { Path : path; Kind : FindingKind; Bytes : Z; Apparent : Z; IsDir : bool }.
Definition IsSafe (f : Finding) : bool := match Kind f with KindCorruptVideo => false | _ => true end.

Definition MinPlausibleVideoBytes : Z := 1048576.
Record ReconcileOptions := mkOptions {
  MinVideoBytes : Z; RemoveStubs : bool; RemoveOrphanPartials : bool; DedupExact : bool;
  RemoveOrphanSubtitles : bool; PruneEmptyDirs : bool; RemoveCorruptVideos : bool; DedupOnly : bool; Apply : bool
}.
Definition OptionsFrom (floor : Z) (removeStubs removeOrphanPartials dedupExact removeOrphanSubtitles pruneEmptyDirs : bool) : ReconcileOptions :=
  mkOptions floor removeStubs removeOrphanPartials dedupExact removeOrphanSubtitles pruneEmptyDirs false false false.
Definition DefaultReconcileOptions : ReconcileOptions := mkOptions MinPlausibleVideoBytes true true true true true false false false.
Definition floor (o : ReconcileOptions) : Z := if MinVideoBytes o <=? 0 then MinPlausibleVideoBytes else MinVideoBytes o.

(** ReconcilePaths: the configured folders, [None] when empty. *)
Record ReconcilePaths := mkPaths { DownloadDir : option path; MoviesDir : option path; TVShowsDir : option path }.
Definition roots (p : ReconcilePaths) : list path := omap id [DownloadDir p; MoviesDir p; TVShowsDir p].

(** * Reading files *)

(** The bytes of a file that could be opened and read. *)
Definition read_file (fs : FS) (io : scanIO) (p : path) : option bytes :=
  if opens io p then fdata fs !! followed fs p else None.

Definition fpChunk : Z := 1048576.
Definition isAllZero (b : bytes) : bool := match b with [] => false | _ => forallb (fun c => c =? 0) b end.
(** io.ReadFull of one chunk at an offset. *)
Definition read_chunk (off : Z) (d : bytes) : option bytes :=
  let c := take (Z.to_nat fpChunk) (drop (Z.to_nat off) d) in
  if (length c =? Z.to_nat fpChunk)%nat then Some c else None.
Definition FirstOrLastMiBAllZero (fs : FS) (io : scanIO) (p : path) (size : Z) : option bool :=
  match read_file fs io p with
  | None => None
  | Some d =>
      if size <=? 2 * fpChunk then Some (isAllZero d)
      else match read_chunk 0 d with
           | None => None
           | Some head =>
               if isAllZero head then Some true
               else match read_chunk (size - fpChunk) d with None => None | Some tail => Some (isAllZero tail) end
           end
  end.

Section Hash.
Context (sha256 : bytes -> bytes).
(** ComputeFingerprint, before the digest is spelled in hexadecimal. *)
Definition ComputeFingerprint (fs : FS) (io : scanIO) (p : path) (size : Z) : option bytes :=
  match read_file fs io p with
  | None => None
  | Some d =>
      let sizeBuf := le_bytes 8 (wrap_u64 size) in
      if size <=? 2 * fpChunk then Some (sha256 (sizeBuf ++ d))
      else match read_chunk 0 d, read_chunk (size - fpChunk) d with
           | Some head, Some tail => Some (sha256 (sizeBuf ++ head ++ tail))
           | _, _ => None
           end
  end.
End Hash.

(** streamsEqual over two files: blocks of one size, the last one short. *)
Definition sameContentBufSize : nat := Z.to_nat 1048576.
Fixpoint streamsEqual (fuel : nat) (buf : nat) (a b : bytes) : bool :=
  match fuel with
  | O => true
  | S fuel' =>
      let ba := take buf a in
      let bb := take buf b in
      if negb ((length ba =? length bb)%nat && bytes_eqb ba bb) then false
      else if (length ba <? buf)%nat then true
      else streamsEqual fuel' buf (drop buf a) (drop buf b)
  end.
(** SameFileContent; one round more than there are whole blocks. *)
Definition SameFileContent (fs : FS) (io : scanIO) (a b : path) : option bool :=
  if bool_decide (a = b) then Some true
  else match read_file fs io a, read_file fs io b with
       | Some x, Some y =>
           if negb (length x =? length y)%nat then Some false
           else Some (streamsEqual (S (length x)) sameContentBufSize x y)
       | _, _ => None
       end.

(** * Classification *)

Definition fileFinding (p : path) (i : FileInfo) (k : FindingKind) : Finding := mkFinding p k (diskUsage i) (Size i) false.
Definition dirFinding (fs : FS) (io : scanIO) (p : path) (k : FindingKind) : Finding :=
  let '(b, a) := WalkDir (fun ba e =>
      if wErr e || wDir e then (ba, WalkOn)
      else match entry_info fs io (wPath e) with
           | Some i => ((wrap_i64 (fst ba + diskUsage i), wrap_i64 (snd ba + Size i)), WalkOn)
           | None => (ba, WalkOn)
           end) fs io p (0, 0) in
  mkFinding p k b a true.

(** Names in a directory, links not followed. *)
Definition children (fs : FS) (q : path) : list path :=
  List.filter (fun x => match strip q x with Some [_] => true | _ => false end) (all_paths fs).
Definition dirHasImmediateVideo (fs : FS) (io : scanIO) (floor : Z) (dir : path) : bool :=
  let q := followed fs dir in
  if negb (lists io dir && bool_decide (q ∈ dirs fs)) then true
  else existsb (fun x =>
         negb (bool_decide (x ∈ dirs fs)) && isVideoFile (name_of x) &&
         match entry_info fs io (dir ++ [name_of x]) with Some i => floor <=? Size i | None => false end)
         (children fs q).
Definition is_unarr (name : bytes) : bool := bytes_eqb (ToLower name) (str ".unarr").
Definition sidecarHasOwner (fs : FS) (io : scanIO) (floor : Z) (p : path) : bool :=
  let dir := parent p in
  if dirHasImmediateVideo fs io floor dir then true
  else if is_unarr (name_of dir) then dirHasImmediateVideo fs io floor (parent dir)
  else false.

Definition classifyCorruptVideo (fs : FS) (io : scanIO) (p : path) (i : FileInfo) : option Finding :=
  match FirstOrLastMiBAllZero fs io p (Size i) with
  | Some true => Some (fileFinding p i KindCorruptVideo)
  | _ => None
  end.
Definition classifyFile (fs : FS) (io : scanIO) (activePartials : gset path) (opts : ReconcileOptions) (p : path) : option Finding :=
  match Stat fs io p with
  | None => None
  | Some info =>
      let name := name_of p in
      if isVideoFile name then
        if RemoveStubs opts && (Size info <? floor opts) then Some (fileFinding p info KindStubVideo)
        else if RemoveCorruptVideos opts && (floor opts <=? Size info) then classifyCorruptVideo fs io p info
        else None
      else if IsPartialExt name then
        if negb (RemoveOrphanPartials opts) then None
        else if bool_decide (p ∈ activePartials) then None
        else if has_suffix PartMetaSuffix (ToLower name) &&
                match Stat fs io (parent p ++ [trim_suffix name (str ".meta.json")]) with Some _ => true | None => false end
        then None
        else Some (fileFinding p info KindOrphanPartial)
      else if existsb (bytes_eqb (ToLower (Ext name))) sidecarReconcileExts then
        if negb (RemoveOrphanSubtitles opts) then None
        else if sidecarHasOwner fs io (floor opts) p then None
        else Some (fileFinding p info KindOrphanSidecar)
      else None
  end.

(** scanContext: the findings and the directories that are dealt with. *)
Record scanContext := mkScan { findings : list Finding; seenDirs : gset path }.
Definition classifyWalkEntry (fs : FS) (io : scanIO) (activePartials : gset path) (opts : ReconcileOptions) (root : path)
    (sc : scanContext) (e : walkEntry) : scanContext * walkCtl :=
  if wErr e then (sc, WalkOn)
  else if wDir e then
    if PruneEmptyDirs opts && negb (bool_decide (wPath e = root)) && isVideoFile (name_of (wPath e)) then
      (mkScan (findings sc ++ [dirFinding fs io (wPath e) KindMediaNamedDir]) ({[wPath e]} ∪ seenDirs sc), SkipDir)
    else (sc, WalkOn)
  else
    match classifyFile fs io activePartials opts (wPath e) with
    | Some f => (mkScan (findings sc ++ [f]) (seenDirs sc), WalkOn)
    | None => (sc, WalkOn)
    end.
(** scanRoots; the callback never fails, so the walks do not. *)
Definition scanRoots (fs : FS) (io : scanIO) (rs : list path) (activePartials : gset path) (opts : ReconcileOptions) : scanContext :=
  fold_left (fun sc root =>
    match Stat fs io root with
    | None => sc
    | Some _ => WalkDir (classifyWalkEntry fs io activePartials opts root) fs io root sc
    end) rs (mkScan [] ∅).

(** * Directories without a video *)

Definition dirHasRealVideo (fs : FS) (io : scanIO) (floor : Z) (dir : path) : bool :=
  WalkDir (fun found e =>
    if wErr e || wDir e then (found, WalkOn)
    else if isVideoFile (name_of (wPath e)) then
      match Stat fs io (wPath e) with
      | Some i => if floor <=? Size i then (true, SkipAll) else (found, WalkOn)
      | None => (found, WalkOn)
      end
    else (found, WalkOn)) fs io dir false.
Definition dirHasPartial (fs : FS) (io : scanIO) (dir : path) : bool :=
  WalkDir (fun found e =>
    if wErr e || wDir e then (found, WalkOn)
    else if IsPartialExt (name_of (wPath e)) then (true, SkipAll) else (found, WalkOn)) fs io dir false.

Definition videoless_entry (fs : FS) (io : scanIO) (floor : Z) (rs : list path) (root : path)
    (sc : scanContext) (e : walkEntry) : scanContext * walkCtl :=
  let p := wPath e in
  if wErr e || negb (wDir e) || bool_decide (p = root) || bool_decide (p ∈ rs) || bool_decide (p ∈ seenDirs sc) then (sc, WalkOn)
  else if is_unarr (name_of p) && dirHasRealVideo fs io floor (parent p) then (sc, SkipDir)
  else if dirHasRealVideo fs io floor p then (sc, WalkOn)
  else if dirHasPartial fs io p then (sc, SkipDir)
  else (mkScan (findings sc ++ [dirFinding fs io p KindEmptyDir]) ({[p]} ∪ seenDirs sc), SkipDir).
Definition findVideolessDirs (fs : FS) (io : scanIO) (floor : Z) (rs : list path) (skip : gset path) : list Finding :=
  findings (fold_left (fun sc root => WalkDir (videoless_entry fs io floor rs root) fs io root sc) rs (mkScan [] skip)).

(** * Duplicates *)

(** The order in which a map is ranged over is unspecified. *)
Class MapRange := {
  map_range : forall {A}, list A -> list A;
  map_range_perm : forall {A} (l : list A), map_range l ≡ₚ l
}.
(** m[k] = append(m[k], x), the keys in order of their first use. *)
Fixpoint group_add {K A} `{EqDecision K} (k : K) (x : A) (gs : list (K * list A)) : list (K * list A) :=
  match gs with
  | [] => [(k, [x])]
  | (k', g) :: gs' => if bool_decide (k = k') then (k', g ++ [x]) :: gs' else (k', g) :: group_add k x gs'
  end.
Definition collectVideosByDirSize (fs : FS) (io : scanIO) (floor : Z) (rs : list path) : list ((path * Z) * list path) :=
  fold_left (fun gs root => WalkDir (fun gs e =>
    if wErr e || wDir e || negb (isVideoFile (name_of (wPath e))) then (gs, WalkOn)
    else match Stat fs io (wPath e) with
         | None => (gs, WalkOn)
         | Some i => if Size i <? floor then (gs, WalkOn) else (group_add (parent (wPath e), Size i) (wPath e) gs, WalkOn)
         end) fs io root gs) rs [].

(** dupSuffixRegex on a stem: a counter in parentheses or a tag in brackets at the
    end, blanks aside. *)
Definition re_space (b : Z) : bool := (b =? 32) || ((9 <=? b) && (b <=? 10)) || ((12 <=? b) && (b <=? 13)).
Definition dupSuffix (stem : bytes) : bool :=
  match snd (span re_space (rev stem)) with
  | c :: r =>
      if c =? 41 then
        match span is_digit r with
        | (_ :: _, o :: _) => o =? 40
        | _ => false
        end
      else if c =? 93 then
        match fst (span (fun b => negb (b =? 93)) r) with
        | _ :: mid => existsb (fun b => b =? 91) mid
        | [] => false
        end
      else false
  | [] => false
  end.
Definition suffixlessStem (p : path) : bool := dupSuffix (trim_suffix (name_of p) (Ext (name_of p))).
Definition pick_step (best p : path) : path :=
  let pName := name_of p in
  let bName := name_of best in
  if negb (suffixlessStem p) && suffixlessStem best then p
  else if negb (eqb (suffixlessStem p) (suffixlessStem best)) then best
  else if (length pName <? length bName)%nat then p
  else if (length pName =? length bName)%nat && negb (bytes_leb bName pName) then p
  else best.
Definition pickCanonical (paths : list path) : path :=
  match paths with [] => [] | p :: ps => fold_left pick_step ps p end.

Definition confirm_one (fs : FS) (io : scanIO) (keep : path) (sc : scanContext) (p : path) : scanContext :=
  if bool_decide (p = keep) || bool_decide (p ∈ seenDirs sc) then sc
  else match SameFileContent fs io keep p with
       | Some true =>
           let '(b, a) := match Stat fs io p with Some i => (diskUsage i, Size i) | None => (0, 0) end in
           mkScan (findings sc ++ [mkFinding p KindDuplicate b a false]) ({[p]} ∪ seenDirs sc)
       | _ => sc
       end.
(** confirmAndFlagDuplicates; the flagged paths are the set of the context. *)
Definition confirmAndFlagDuplicates (fs : FS) (io : scanIO) (sc : scanContext) (paths : list path) : scanContext :=
  fold_left (confirm_one fs io (pickCanonical paths)) paths sc.

Section Dedup.
Context `{MapRange} (sha256 : bytes -> bytes) (fs : FS) (io : scanIO).
Definition by_fingerprint (size : Z) (group : list path) : list (bytes * list path) :=
  fold_left (fun gs p => match ComputeFingerprint sha256 fs io p size with Some fp => group_add fp p gs | None => gs end) group [].
Definition dedupGroup (sc : scanContext) (size : Z) (group : list path) : scanContext :=
  fold_left (fun sc paths => if (length paths <? 2)%nat then sc else confirmAndFlagDuplicates fs io sc paths)
    (map snd (map_range (by_fingerprint size group))) sc.
Definition findDuplicateVideos (floor : Z) (rs : list path) : list Finding :=
  findings (fold_left (fun sc kg => if (length (snd kg) <? 2)%nat then sc else dedupGroup sc (snd (fst kg)) (snd kg))
    (map_range (collectVideosByDirSize fs io floor rs)) (mkScan [] ∅)).
End Dedup.

(** * Removal *)

Definition dropFindingsUnderDirs (l : list Finding) : list Finding :=
  let ds := map Path (List.filter IsDir l) in
  match ds with
  | [] => l
  | _ => List.filter (fun f => IsDir f || negb (existsb (fun d => under d (Path f)) ds)) l
  end.

(** isWithinScanPaths: filepath.Rel is neither "." nor begins with "..". *)
Definition isWithinScanPaths (p : path) (scanPaths : list path) : bool :=
  existsb (fun sp => match strip sp p with
                     | Some (e :: _) => negb (has_prefix (str "..") e)
                     | _ => false
                     end) scanPaths.
Definition isConfiguredRoot (p : path) (rs : list path) : bool := bool_decide (p ∈ rs).
(** filepath.EvalSymlinks *)
Definition eval_links (fs : FS) (p : path) : option path :=
  let q := followed fs p in
  if bool_decide (q ∈ dirs fs) || bool_decide (is_Some (fdata fs !! q)) then Some q else None.
Definition resolvedRoots (fs : FS) (rs : list path) : list path := map (fun r => default r (eval_links fs r)) rs.
Definition confinedForRemoval (fs : FS) (p : path) (rs : list path) : bool :=
  if negb (isWithinScanPaths p rs) then false
  else if isConfiguredRoot p rs then false
  else match eval_links fs p with
       | None => true
       | Some real => isWithinScanPaths real (resolvedRoots fs rs)
       end.

Inductive errno := ENOENT | EROFS | ENOSPC | EIO | ESTALE | ENOTCONN | EACCES | EPERM | ENOTEMPTY | EOTHER.
Inductive RemoveOutcome := OutcomePermission | OutcomeReadOnly | OutcomeUnreachable | OutcomeDiskFull | OutcomeOther.
(** classifyRemoveError, without its text. *)
Definition classifyRemoveError (e : errno) : RemoveOutcome :=
  match e with
  | EROFS => OutcomeReadOnly
  | ENOSPC => OutcomeDiskFull
  | EIO | ESTALE | ENOTCONN => OutcomeUnreachable
  | EACCES | EPERM => OutcomePermission
  | ENOTEMPTY | ENOENT | EOTHER => OutcomeOther
  end.
Record RemoveFailure := mkFailure { fPath : path; fKind : FindingKind; fOutcome : RemoveOutcome }.
Record RemoveSummary := mkSummary { Removed : Z; Freed : Z; Failures : list RemoveFailure }.

(** How removals end: an error of the call, and what a failed os.RemoveAll had not
    got to. *)
Record removeIO := mkRemoveIO { refuses : path -> option errno; leaves : path -> bool }.

Definition drop_at (fs : FS) (gone : path -> bool) : FS :=
  mkFS (filter (fun p => gone p = false) (dirs fs)) (filter (fun pl => gone (fst pl) = false) (links fs))
       (filter (fun pd => gone (fst pd) = false) (fdata fs)).
(** os.RemoveAll *)
Definition os_RemoveAll (fs : FS) (rio : removeIO) (p : path) : FS * option errno :=
  let q := place fs p in
  match refuses rio p with
  | Some e => (drop_at fs (fun x => under q x && negb (leaves rio x)), Some e)
  | None => (drop_at fs (under q), None)
  end.
(** os.Remove: a file, a link or an empty directory. *)
Definition os_Remove (fs : FS) (rio : removeIO) (p : path) : FS * option errno :=
  let q := place fs p in
  if negb (present fs q) then (fs, Some ENOENT)
  else match refuses rio p with
       | Some e => (fs, Some e)
       | None =>
           if bool_decide (q ∈ dirs fs) && negb (match children fs q with [] => true | _ => false end) then (fs, Some ENOTEMPTY)
           else (drop_at fs (fun x => bool_decide (x = q)), None)
       end.
Definition removeOne (fs : FS) (rio : removeIO) (f : Finding) : FS * option errno :=
  let '(fs', r) := if IsDir f then os_RemoveAll fs rio (Path f) else os_Remove fs rio (Path f) in
  match r with Some ENOENT => (fs', None) | _ => (fs', r) end.

Definition apply_one (rio : removeIO) (rs : list path) (st : FS * RemoveSummary) (f : Finding) : FS * RemoveSummary :=
  let '(fs, sum) := st in
  if negb (confinedForRemoval fs (Path f) rs) then st
  else match removeOne fs rio f with
       | (fs', Some e) => (fs', mkSummary (Removed sum) (Freed sum) (Failures sum ++ [mkFailure (Path f) (Kind f) (classifyRemoveError e)]))
       | (fs', None) => (fs', mkSummary (Removed sum + 1) (wrap_i64 (Freed sum + Bytes f)) (Failures sum))
       end.

Section Sweep.
Context `{GoSort Finding} `{MapRange} (sha256 : bytes -> bytes).

(** applyFindings, the longest paths first. *)
Definition applyFindings (fs : FS) (rio : removeIO) (fl : list Finding) (rs : list path) : FS * RemoveSummary :=
  fold_left (apply_one rio rs)
    (sort_Slice (fun a b => - Z.of_nat (length (render (Path a))) <? - Z.of_nat (length (render (Path b)))) fl)
    (fs, mkSummary 0 0 []).
Definition applyAndReturn (fs : FS) (rio : removeIO) (fl : list Finding) (rs : list path) (opts : ReconcileOptions)
    : FS * list Finding * RemoveSummary :=
  if Apply opts then let '(fs', sum) := applyFindings fs rio fl rs in (fs', fl, sum) else (fs, fl, mkSummary 0 0 []).

(** What the three passes could read. *)
Record sweepIO := mkSweepIO { scanPass : scanIO; dedupPass : scanIO; dirPass : scanIO; removals : removeIO }.

(** ReconcileWithSummary; [None] without roots. *)
Definition ReconcileWithSummary (fs : FS) (io : sweepIO) (paths : ReconcilePaths) (activePartials : gset path) (opts : ReconcileOptions)
    : option (FS * list Finding * RemoveSummary) :=
  let rs := roots paths in
  match rs with
  | [] => None
  | _ =>
      let dups := if DedupExact opts then findDuplicateVideos sha256 fs (dedupPass io) (floor opts) rs else [] in
      if DedupOnly opts then Some (applyAndReturn fs (removals io) dups rs opts)
      else
        let sc := scanRoots fs (scanPass io) rs activePartials opts in
        let empties := if PruneEmptyDirs opts then findVideolessDirs fs (dirPass io) (floor opts) rs (seenDirs sc) else [] in
        Some (applyAndReturn fs (removals io) (dropFindingsUnderDirs (findings sc ++ dups ++ empties)) rs opts)
  end.

(** ReconcileSafe: report, keep the safe kinds, remove those. *)
Definition ReconcileSafe (fs : FS) (io : sweepIO) (paths : ReconcilePaths) (activePartials : gset path) (opts : ReconcileOptions)
    : option (FS * list Finding * RemoveSummary) :=
  let report := mkOptions (MinVideoBytes opts) (RemoveStubs opts) (RemoveOrphanPartials opts) (DedupExact opts)
                  (RemoveOrphanSubtitles opts) (PruneEmptyDirs opts) (RemoveCorruptVideos opts) (DedupOnly opts) false in
  match ReconcileWithSummary fs io paths activePartials report with
  | None => None
  | Some (_, all, _) =>
      let safe := List.filter IsSafe all in
      let '(fs', sum) := applyFindings fs (removals io) safe (roots paths) in
      Some (fs', safe, sum)
  end.

(** * The sweep after a scan *)

(** config.Library.Cleanup; the sizes are parsed by go-humanize. *)
Record CleanupConfig := mkCleanup {
  Enabled : bool; cMinVideoBytes : bytes; cRemoveStubs : bool; cRemoveOrphanPartials : bool;
  cDedupExact : bool; cRemoveOrphanSubtitles : bool; cPruneEmptyDirs : bool
}.
(** orphanPartialRemovalAllowed; [pending] is the number of unfinished downloads,
    [None] without a resume store. *)
Definition orphanPartialRemovalAllowed (configured : bool) (pending : option nat) : bool :=
  match pending with
  | None => configured
  | Some n => if negb configured then configured else negb (0 <? n)%nat
  end.
(** recentPartials; [age] is the time since a file was changed, in nanoseconds. *)
Definition recentPartials (fs : FS) (io : scanIO) (age : path -> Z) (downloadDir : option path) (maxAge : Z) : gset path :=
  match downloadDir with
  | None => ∅
  | Some d =>
      WalkDir (fun active e =>
        if wErr e || wDir e || negb (IsPartialExt (name_of (wPath e))) then (active, WalkOn)
        else match entry_info fs io (wPath e) with
             | Some _ => if age (place fs (wPath e)) <? maxAge then ({[wPath e]} ∪ active, WalkOn) else (active, WalkOn)
             | None => (active, WalkOn)
             end) fs io d ∅
  end.
Definition five_minutes : Z := 5 * 60 * 1000000000.

Context (parseBytes : bytes -> option Z).
Definition cleanup_options (c : CleanupConfig) (pending : option nat) : ReconcileOptions :=
  let fl := match cMinVideoBytes c with
            | [] => MinPlausibleVideoBytes
            | s => match parseBytes s with
                   | Some n => if 0 <? n then wrap_i64 n else MinPlausibleVideoBytes
                   | None => MinPlausibleVideoBytes
                   end
            end in
  OptionsFrom fl (cRemoveStubs c) (orphanPartialRemovalAllowed (cRemoveOrphanPartials c) pending)
    (cDedupExact c) (cRemoveOrphanSubtitles c) (cPruneEmptyDirs c).
Definition runPostScanCleanup (fs : FS) (io : sweepIO) (recent : scanIO) (age : path -> Z)
    (c : CleanupConfig) (paths : ReconcilePaths) (pending : option nat) : FS :=
  if negb (Enabled c) then fs
  else match roots paths with
       | [] => fs
       | _ =>
           let active := recentPartials fs recent age (DownloadDir paths) five_minutes in
           match ReconcileSafe fs io paths active (cleanup_options c pending) with
           | Some (fs', _, _) => fs'
           | None => fs
           end
       end.
End Sweep.

(** * Lemmas *)

Lemma strip_spec q x r : strip q x = Some r <-> x = q ++ r.
Proof.
  revert x. induction q as [|a q IH]; intros x; cbn; [naive_solver|]. destruct x as [|b x]; [naive_solver|].
  destruct (bytes_eqb a b) eqn:E.
  - apply bytes_eqb_eq in E as ->. rewrite IH. naive_solver.
  - split; [done|]. intros [= -> _]. by rewrite bytes_eqb_refl in E.
Qed.
Lemma under_spec q x : under q x = true <-> exists r, x = q ++ r.
Proof.
  unfold under. destruct (strip q x) as [r|] eqn:E.
  - apply strip_spec in E. naive_solver.
  - split; [done|]. intros [r Hr]. apply strip_spec in Hr. congruence.
Qed.
Lemma parent_name p : p <> [] -> p = parent p ++ [name_of p].
Proof. intros Hp. by apply app_removelast_last. Qed.
Lemma parent_snoc p n : parent (p ++ [n]) = p.
Proof. apply removelast_last. Qed.
Lemma name_snoc p n : name_of (p ++ [n]) = n.
Proof. apply last_last. Qed.
Lemma parent_length p : length (parent p) = (length p - 1)%nat.
Proof. destruct (decide (p = [])) as [->|Hp]; [done|]. rewrite (parent_name p Hp) at 2. rewrite length_app. cbn. lia. Qed.
Lemma take_parent p n : (n < length p)%nat -> take n (parent p) = take n p.
Proof.
  intros Hn. destruct (decide (p = [])) as [->|Hp]; [by destruct n|]. rewrite (parent_name p Hp) at 2.
  rewrite take_app_le; [done|]. rewrite parent_length. lia.
Qed.

Lemma present_spec fs p : present fs p = true <-> p ∈ dirs fs \/ is_Some (links fs !! p) \/ is_Some (fdata fs !! p).
Proof. unfold present. rewrite !orb_true_iff, !bool_decide_eq_true. tauto. Qed.
Lemma elem_of_keys {A} (m : gmap path A) p : p ∈ map fst (map_to_list m) <-> is_Some (m !! p).
Proof.
  rewrite list_elem_of_fmap. split.
  - intros ([k v] & -> & H). apply elem_of_map_to_list in H. by exists v.
  - intros [v Hv]. exists (p, v). split; [done|by apply elem_of_map_to_list].
Qed.
Lemma all_paths_spec fs p : p ∈ all_paths fs <-> present fs p = true.
Proof. unfold all_paths. by rewrite present_spec, !elem_of_app, elem_of_elements, !elem_of_keys. Qed.

(** A file system: parents are directories, and a path is one thing. *)
Record fs_ok (fs : FS) : Prop := {
  ok_parents : forall p n, present fs p = true -> (n < length p)%nat -> take n p ∈ dirs fs;
  ok_dir_link : forall p, p ∈ dirs fs -> links fs !! p = None;
  ok_dir_file : forall p, p ∈ dirs fs -> fdata fs !! p = None;
  ok_file_link : forall p, is_Some (fdata fs !! p) -> links fs !! p = None
}.
(** No link is on the way to the folders. *)
Definition direct (fs : FS) (rs : list path) : Prop := forall r n, r ∈ rs -> links fs !! take n r = None.

Lemma followed_direct fs p : (forall n, links fs !! take n p = None) -> followed fs p = p.
Proof. intros Hp. unfold followed. rewrite follow_plain; [done|]. intros n _. apply Hp. Qed.
Lemma place_direct fs p : (forall n, (n < length p)%nat -> links fs !! take n p = None) -> place fs p = p.
Proof.
  intros Hp. destruct p as [|a p']; [done|]. set (p := a :: p') in *. assert (Hn : p <> []) by done. clearbody p.
  unfold place. destruct p as [|b p0] eqn:E; [done|]. rewrite <- E in *. clear E b p0.
  rewrite follow_plain; [symmetry; by apply parent_name|]. intros n Hx. rewrite parent_length in Hx. cbn [app].
  rewrite take_parent by lia. apply Hp. lia.
Qed.

Section Tree.
Context (fs : FS) (Hok : fs_ok fs).
Lemma present_prefix p n : present fs p = true -> (n < length p)%nat -> links fs !! take n p = None.
Proof. intros Hp Hn. apply (ok_dir_link _ Hok). by apply (ok_parents _ Hok). Qed.
Lemma present_place p : present fs p = true -> place fs p = p.
Proof. intros Hp. apply place_direct. intros n Hn. by apply present_prefix. Qed.
Lemma solid_followed p : p ∈ dirs fs \/ is_Some (fdata fs !! p) -> followed fs p = p.
Proof.
  intros Hp. assert (Hpr : present fs p = true) by (apply present_spec; tauto).
  apply followed_direct. intros n. destruct (decide (n < length p)%nat) as [Hn|Hn]; [by apply present_prefix|].
  rewrite take_ge by lia. destruct Hp as [Hp|Hp]; [by apply (ok_dir_link _ Hok)|by apply (ok_file_link _ Hok)].
Qed.
Lemma direct_place r rs : direct fs rs -> r ∈ rs -> place fs r = r.
Proof. intros Hd Hr. apply place_direct. intros n _. by apply Hd. Qed.
End Tree.

(** ** Walks *)

Lemma walk_list_ind {S} (fn : S -> walkEntry -> S * walkCtl) (I : S -> Prop) l skip s :
  (forall s e, e ∈ l -> I s -> I (fst (fn s e))) -> I s -> I (walk_list fn l skip s).
Proof.
  revert skip s. induction l as [|e l IH]; intros skip s Hf Hs; [done|]. cbn [walk_list].
  assert (Hl : forall s e, e ∈ l -> I s -> I (fst (fn s e))) by (intros; apply Hf; [by right|done]).
  case_if; [by apply IH|]. pose proof (Hf s e ltac:(by left) Hs) as H1. destruct (fn s e) as [s' c]. cbn in H1.
  destruct c; [by apply IH|by apply IH|done].
Qed.
Lemma walk_list_ext {S} (fn fn' : S -> walkEntry -> S * walkCtl) l skip s :
  (forall s e, fn s e = fn' s e) -> walk_list fn l skip s = walk_list fn' l skip s.
Proof.
  intros Hf. revert skip s. induction l as [|e l IH]; intros skip s; [done|]. cbn [walk_list]. rewrite Hf, IH.
  case_if; [done|]. destruct (fn' s e) as [s' []]; by rewrite ?IH.
Qed.
(** A search stops at its first hit. *)
Lemma walk_search (hit : walkEntry -> bool) l :
  walk_list (fun found e => if hit e then (true, SkipAll) else (found, WalkOn)) l None false = existsb hit l.
Proof. induction l as [|e l IH]; [done|]. cbn [walk_list existsb]. destruct (hit e); [done|]. exact IH. Qed.

Section Calls.
Context (fs : FS) (io : scanIO) (Hok : fs_ok fs).

(** What a walk from a real directory calls: what is there. *)
Lemma walk_call root e :
  place fs root = root -> e ∈ walk_calls fs io root -> wErr e = false ->
  exists rest, wPath e = root ++ rest /\ present fs (wPath e) = true /\ wDir e = bool_decide (wPath e ∈ dirs fs).
Proof.
  intros Hp. unfold walk_calls. rewrite Hp. case_bool_decide as Hd.
  - intros He Herr. apply list_elem_of_In, in_flat_map in He as (rest & Hr & He).
    assert (Hrest : present fs (root ++ rest) = true).
    { apply list_elem_of_In in Hr. unfold walk_rests in Hr. rewrite sort_SliceStable_perm in Hr.
      apply list_elem_of_In, List.filter_In in Hr as [Hr _]. apply list_elem_of_In, list_elem_of_omap in Hr as (x & Hx & Hs).
      apply strip_spec in Hs as ->. by apply all_paths_spec. }
    destruct He as [<-|He]; [by exists rest|]. case_if_in He; [|done]. destruct He as [<-|[]]. done.
  - destruct (present fs root) eqn:Hpr.
    + intros ->%list_elem_of_singleton _. exists []. rewrite app_nil_r. cbn. by rewrite bool_decide_eq_false_2.
    + by intros ->%list_elem_of_singleton.
Qed.

(** Everything below a directory is called when every directory can be listed. *)
Lemma walk_complete root p :
  (forall d, lists io d = true) -> root ∈ dirs fs -> present fs p = true -> under root p = true ->
  mkWalk p (bool_decide (p ∈ dirs fs)) false ∈ walk_calls fs io root.
Proof.
  intros Hl Hd Hp [rest ->]%under_spec. unfold walk_calls.
  rewrite (present_place fs Hok root) by (apply present_spec; by left). rewrite (bool_decide_eq_true_2 (root ∈ dirs fs)) by done.
  apply list_elem_of_In, in_flat_map. exists rest. split; [|by left].
  apply list_elem_of_In. unfold walk_rests. rewrite sort_SliceStable_perm. apply list_elem_of_In, List.filter_In. split.
  - apply list_elem_of_In, list_elem_of_omap. exists (root ++ rest). split; [by apply all_paths_spec|by apply strip_spec].
  - unfold listed. apply forallb_forall. intros n Hn%in_seq. rewrite Hl, andb_true_r. apply bool_decide_eq_true.
    replace (root ++ take n rest) with (take (length root + n) (root ++ rest)) by (rewrite take_app_add; done).
    apply (ok_parents _ Hok); [done|]. rewrite length_app. lia.
Qed.
End Calls.

(** ** The findings of the passes *)

Lemma classify_path fs io active opts p f : classifyFile fs io active opts p = Some f -> Path f = p /\ IsDir f = false.
Proof.
  unfold classifyFile, classifyCorruptVideo. destruct (Stat fs io p) as [i|]; [|done]. intros Hf.
  repeat (case_if_in Hf; try done); try (by injection Hf as <-).
  destruct (FirstOrLastMiBAllZero fs io p (Size i)) as [[]|]; by try injection Hf as <-.
Qed.
Lemma dirFinding_fields fs io p k :
  Path (dirFinding fs io p k) = p /\ IsDir (dirFinding fs io p k) = true /\ Kind (dirFinding fs io p k) = k.
Proof. unfold dirFinding. by destruct (WalkDir _ fs io p (0, 0)) as [b a]. Qed.

(** A directory strictly below a configured folder. *)
Definition strictly_below (rs : list path) (p : path) : Prop := exists r rest, r ∈ rs /\ p = r ++ rest /\ rest <> [].

Section Findings.
Context (fs : FS) (rs : list path) (Hok : fs_ok fs) (Hdir : direct fs rs).

(** What the first pass reports. *)
Definition scan_case (io : scanIO) (active : gset path) (opts : ReconcileOptions) (f : Finding) : Prop :=
  present fs (Path f) = true /\
  (IsDir f = true /\ Path f ∈ dirs fs /\ isVideoFile (name_of (Path f)) = true /\ strictly_below rs (Path f) \/
   IsDir f = false /\ (exists r, r ∈ rs /\ under r (Path f) = true) /\ classifyFile fs io active opts (Path f) = Some f).
Lemma scan_findings io active opts : Forall (scan_case io active opts) (findings (scanRoots fs io rs active opts)).
Proof.
  unfold scanRoots. apply (fold_left_inv (fun sc => Forall (scan_case io active opts) (findings sc))); [constructor|].
  intros sc root Hr Hsc. destruct (Stat fs io root) as [i|]; [|done]. unfold WalkDir.
  apply (walk_list_ind _ (fun sc => Forall (scan_case io active opts) (findings sc))); [|done].
  intros s e He Hs. unfold classifyWalkEntry. destruct (wErr e) eqn:Eerr; [done|].
  destruct (walk_call fs io root e (direct_place fs root rs Hdir Hr) He Eerr) as (rest & Hp & Hpr & Hwd).
  destruct (wDir e) eqn:Ed.
  - case_if; [|done]. cbn. apply Forall_app. split; [done|]. apply Forall_singleton.
    destruct (dirFinding_fields fs io (wPath e) KindMediaNamedDir) as (F1 & F2 & _). bprop.
    unfold scan_case. rewrite F1, F2. split; [done|]. left. split_and!; try done; [by symmetry in Hwd; apply bool_decide_eq_true in Hwd|].
    exists root, rest. split_and!; try done. intros ->. rewrite app_nil_r in Hp.
    done.
  - destruct (classifyFile fs io active opts (wPath e)) as [f|] eqn:Ef; [|done]. cbn.
    apply Forall_app. split; [done|]. apply Forall_singleton. destruct (classify_path _ _ _ _ _ _ Ef) as [F1 F2].
    unfold scan_case. rewrite F1. split; [done|]. right. split_and!; try done.
    exists root. split; [done|]. apply under_spec. eauto.
Qed.

(** What the third pass reports. *)
Definition videoless_case (io : scanIO) (fl : Z) (f : Finding) : Prop :=
  Path f ∈ dirs fs /\ IsDir f = true /\ strictly_below rs (Path f) /\
  dirHasRealVideo fs io fl (Path f) = false /\ dirHasPartial fs io (Path f) = false.
Lemma videoless_findings io fl skip : Forall (videoless_case io fl) (findVideolessDirs fs io fl rs skip).
Proof.
  unfold findVideolessDirs. apply (fold_left_inv (fun sc => Forall (videoless_case io fl) (findings sc))); [constructor|].
  intros sc root Hr Hsc. unfold WalkDir. apply (walk_list_ind _ (fun sc => Forall (videoless_case io fl) (findings sc))); [|done].
  intros s e He Hs. unfold videoless_entry. case_if; [done|]. case_if; [done|]. case_if; [done|]. case_if; [done|]. cbn.
  bprop. destruct (walk_call fs io root e (direct_place fs root rs Hdir Hr) He ltac:(done)) as (rest & Hp & Hpr & Hwd).
  apply Forall_app. split; [done|]. apply Forall_singleton.
  destruct (dirFinding_fields fs io (wPath e) KindEmptyDir) as (F1 & F2 & _). unfold videoless_case. rewrite F1, F2.
  match goal with H : wDir e = true |- _ => rewrite H in Hwd end.
  symmetry in Hwd. apply bool_decide_eq_true in Hwd. split_and!; try done.
  exists root, rest. split_and!; try done. intros ->. rewrite app_nil_r in Hp. done.
Qed.

(** The searches see every file when nothing fails. *)
Lemma real_video_seen io fl d v data :
  (forall p, lists io p = true) -> (forall p, stats io p = true) -> d ∈ dirs fs -> under d v = true ->
  fdata fs !! v = Some data -> isVideoFile (name_of v) = true -> fl <= Z.of_nat (length data) ->
  dirHasRealVideo fs io fl d = true.
Proof.
  intros Hl Hs Hd Hu Hv Hn Hf. unfold dirHasRealVideo, WalkDir.
  set (hit := fun e => negb (wErr e || wDir e) && isVideoFile (name_of (wPath e)) &&
                match Stat fs io (wPath e) with Some i => fl <=? Size i | None => false end).
  rewrite (walk_list_ext _ (fun found e => if hit e then (true, SkipAll) else (found, WalkOn))).
  2:{ intros s e. unfold hit. destruct (wErr e || wDir e); [done|]. destruct (isVideoFile (name_of (wPath e))); [|done].
      destruct (Stat fs io (wPath e)) as [i|]; [|done]. cbn [negb andb]. by destruct (fl <=? Size i). }
  rewrite walk_search. apply existsb_exists. eexists. split.
  - apply list_elem_of_In. apply (walk_complete fs io Hok d v Hl Hd); [apply present_spec; eauto|done].
  - unfold hit. cbn [wErr wDir wPath]. rewrite bool_decide_eq_false_2 by (intros Hx; apply (ok_dir_file _ Hok) in Hx; congruence).
    rewrite Hn. cbn [orb negb andb]. unfold Stat. rewrite Hs, (solid_followed fs Hok) by eauto. rewrite Hv. cbn. by apply Z.leb_le.
Qed.
Lemma partial_seen io d v data :
  (forall p, lists io p = true) -> d ∈ dirs fs -> under d v = true ->
  fdata fs !! v = Some data -> IsPartialExt (name_of v) = true -> dirHasPartial fs io d = true.
Proof.
  intros Hl Hd Hu Hv Hn. unfold dirHasPartial, WalkDir.
  set (hit := fun e => negb (wErr e || wDir e) && IsPartialExt (name_of (wPath e))).
  rewrite (walk_list_ext _ (fun found e => if hit e then (true, SkipAll) else (found, WalkOn))).
  2:{ intros s e. unfold hit. by destruct (wErr e || wDir e). }
  rewrite walk_search. apply existsb_exists. eexists. split.
  - apply list_elem_of_In. apply (walk_complete fs io Hok d v Hl Hd); [apply present_spec; eauto|done].
  - unfold hit. cbn [wErr wDir wPath]. rewrite bool_decide_eq_false_2 by (intros Hx; apply (ok_dir_file _ Hok) in Hx; congruence).
    by rewrite Hn.
Qed.
End Findings.

(** ** Groups *)

Section Groups.
Context {K A : Type} `{EqDecision K}.
Implicit Types (k : K) (x : A) (gs : list (K * list A)) (kl : list (K * A)).
Definition grouping (kl : list (K * A)) : list (K * list A) := fold_left (fun gs kx => group_add (fst kx) (snd kx) gs) kl [].
Definition with_key (k : K) (kl : list (K * A)) : list A := map snd (List.filter (fun kx => bool_decide (k = fst kx)) kl).

Lemma grouping_snoc kl k x : grouping (kl ++ [(k, x)]) = group_add k x (grouping kl).
Proof. unfold grouping. by rewrite fold_left_app. Qed.
Lemma with_key_snoc k kl k' x : with_key k (kl ++ [(k', x)]) = with_key k kl ++ (if bool_decide (k = k') then [x] else []).
Proof. unfold with_key. rewrite List.filter_app, map_app. f_equal. cbn. by case_bool_decide. Qed.
Lemma group_add_keys k x gs k' : k' ∈ map fst (group_add k x gs) <-> k' = k \/ k' ∈ map fst gs.
Proof.
  induction gs as [|[k0 g] gs IH]; cbn; [set_solver|]. case_bool_decide as E; cbn; rewrite ?elem_of_cons; [set_solver|].
  rewrite IH. tauto.
Qed.
Lemma group_add_NoDup k x gs : NoDup (map fst gs) -> NoDup (map fst (group_add k x gs)).
Proof.
  induction gs as [|[k0 g] gs IH]; cbn; intros Hn; [apply NoDup_singleton|]. apply NoDup_cons in Hn as [H1 H2].
  case_bool_decide as E; cbn; apply NoDup_cons; [done|]. split; [|by apply IH]. rewrite group_add_keys. naive_solver.
Qed.
Lemma group_add_elem k x gs k' g' :
  NoDup (map fst gs) -> (k', g') ∈ group_add k x gs ->
  (k' = k /\ (g' = [x] /\ k ∉ map fst gs \/ exists g, (k, g) ∈ gs /\ g' = g ++ [x])) \/ (k' <> k /\ (k', g') ∈ gs).
Proof.
  induction gs as [|[k0 g] gs IH]; cbn; intros Hn.
  - intros [= -> ->]%list_elem_of_singleton. left. split; [done|]. left. split; [done|set_solver].
  - apply NoDup_cons in Hn as [H1 H2]. case_bool_decide as E; subst.
    + intros [[= -> ->]|H]%elem_of_cons; [left; split; [done|right; exists g; split; [by left|done]]|].
      right. split; [|by right]. intros ->. apply H1. apply list_elem_of_fmap. by exists (k0, g').
    + intros [[= -> ->]|H]%elem_of_cons; [right; split; [done|by left]|].
      destruct (IH H2 H) as [[-> [[-> Hk]|(g1 & Hg & ->)]]|[Hne Hg]].
      * left. split; [done|]. left. split; [done|]. apply not_elem_of_cons. done.
      * left. split; [done|]. right. exists g1. split; [by right|done].
      * right. split; [done|by right].
Qed.
(** A group is all that was added under its key, in order. *)
Lemma grouping_spec kl :
  NoDup (map fst (grouping kl)) /\ (forall k, k ∈ map fst kl -> k ∈ map fst (grouping kl)) /\
  (forall k g, (k, g) ∈ grouping kl -> g = with_key k kl /\ g <> []).
Proof.
  induction kl as [|[k x] kl IH] using rev_ind; [split_and!; [constructor|done|intros k g; intros H; by apply not_elem_of_nil in H]|].
  destruct IH as (H1 & H2 & H3). rewrite grouping_snoc. split_and!.
  - by apply group_add_NoDup.
  - intros k'. rewrite map_app, elem_of_app, group_add_keys. cbn. rewrite list_elem_of_singleton. naive_solver.
  - intros k' g'. rewrite with_key_snoc. intros [[-> Hg]|[Hne Hg]]%group_add_elem; [| |done].
    + rewrite bool_decide_eq_true_2 by done. destruct Hg as [[-> Hk]|(g & Hg & ->)].
      * split; [|done]. enough (with_key k kl = []) as -> by done. unfold with_key.
        destruct (List.filter _ kl) as [|[k1 x1] l] eqn:E; [done|]. exfalso.
        assert (Hin : In (k1, x1) (List.filter (fun kx => bool_decide (k = fst kx)) kl)) by (rewrite E; by left).
        apply List.filter_In in Hin as [Hi Hb]. apply bool_decide_eq_true in Hb. cbn in Hb. subst k1.
        apply Hk, H2. apply list_elem_of_fmap. exists (k, x1). split; [done|by apply list_elem_of_In].
      * apply H3 in Hg as [-> _]. split; [done|]. by destruct (with_key k kl).
    + rewrite bool_decide_eq_false_2 by done. rewrite app_nil_r. by apply H3.
Qed.
Lemma with_key_elem k kl x : x ∈ with_key k kl <-> (k, x) ∈ kl.
Proof.
  unfold with_key. rewrite list_elem_of_fmap. split.
  - intros ([k' y] & -> & Hi). apply list_elem_of_In, List.filter_In in Hi as [Hi Hb].
    apply bool_decide_eq_true in Hb. cbn in Hb. subst. by apply list_elem_of_In.
  - intros Hi. exists (k, x). split; [done|]. apply list_elem_of_In, List.filter_In.
    split; [by apply list_elem_of_In|]. by apply bool_decide_eq_true.
Qed.
End Groups.

Lemma pickCanonical_elem l : l <> [] -> pickCanonical l ∈ l.
Proof.
  destruct l as [|p l]; [done|]. intros _. cbn. apply (fold_left_inv (fun b => b ∈ p :: l)); [by left|].
  intros b q Hq Hb. unfold pick_step. repeat case_if; (done || by right).
Qed.

(** Comparing block by block is comparing the files. *)
Lemma streamsEqual_spec fuel buf a b :
  (0 < buf)%nat -> (length a < fuel)%nat -> length a = length b -> streamsEqual fuel buf a b = bytes_eqb a b.
Proof.
  intros Hb. revert a b. induction fuel as [|fuel IH]; intros a b Hf Hl; [lia|]. cbn [streamsEqual].
  rewrite !length_take, Hl, Nat.eqb_refl. cbn [andb].
  assert (Hsplit : bytes_eqb a b = bytes_eqb (take buf a) (take buf b) && bytes_eqb (drop buf a) (drop buf b)).
  { apply eq_true_iff_eq. rewrite andb_true_iff, !bytes_eqb_eq. split; [by intros ->|]. intros [H1 H2].
    rewrite <- (take_drop buf a), <- (take_drop buf b). congruence. }
  rewrite Hsplit. destruct (bytes_eqb (take buf a) (take buf b)); [|done]. cbn [negb andb]. case_if; bprop.
  - rewrite !drop_ge by lia. done.
  - apply IH; rewrite !length_drop; lia.
Qed.
Lemma sameContentBufSize_pos : (0 < sameContentBufSize)%nat.
Proof. unfold sameContentBufSize. apply (Z2Nat.inj_lt 0 1048576); lia. Qed.
Lemma SameFileContent_spec fs io a b :
  a <> b -> SameFileContent fs io a b = Some true -> exists d, read_file fs io a = Some d /\ read_file fs io b = Some d.
Proof.
  pose proof sameContentBufSize_pos as Hbuf. unfold SameFileContent. generalize dependent sameContentBufSize. intros buf Hbuf Hne. rewrite bool_decide_eq_false_2 by done.
  destruct (read_file fs io a) as [x|]; [|done]. destruct (read_file fs io b) as [y|]; [|done].
  case_if; [done|]. bprop. intros Hs. apply (inj Some) in Hs. rewrite streamsEqual_spec in Hs; [|done|lia|done].
  apply bytes_eqb_eq in Hs as ->. eauto.
Qed.

(** ** Duplicates *)

Section Dups.
Context `{MapRange} (sha256 : bytes -> bytes) (fs : FS) (io : scanIO) (fl : Z) (rs : list path) (Hok : fs_ok fs) (Hdir : direct fs rs).

(** A file the second pass considers, with the key it is kept under. *)
Definition candidate (k : path * Z) (x : path) : Prop :=
  isVideoFile (name_of x) = true /\ present fs x = true /\ x ∉ dirs fs /\ (exists r, r ∈ rs /\ under r x = true) /\
  exists i, Stat fs io x = Some i /\ k = (parent x, Size i) /\ fl <= Size i.
Lemma candidate_key k k' x : candidate k x -> candidate k' x -> k = k'.
Proof. intros (_ & _ & _ & _ & i & H1 & -> & _) (_ & _ & _ & _ & j & H2 & -> & _). congruence. Qed.

Lemma collect_spec : exists kl, collectVideosByDirSize fs io fl rs = grouping kl /\ Forall (fun kx => candidate (fst kx) (snd kx)) kl.
Proof.
  unfold collectVideosByDirSize.
  apply (fold_left_inv (fun gs => exists kl, gs = grouping kl /\ Forall (fun kx => candidate (fst kx) (snd kx)) kl)); [by exists []|].
  intros gs root Hr Hgs. unfold WalkDir.
  apply (walk_list_ind _ (fun gs => exists kl, gs = grouping kl /\ Forall (fun kx => candidate (fst kx) (snd kx)) kl)); [|done].
  intros s e He (kl & -> & Hkl). destruct (wErr e || wDir e || negb (isVideoFile (name_of (wPath e)))) eqn:E; [by exists kl|].
  bprop. destruct (walk_call fs io root e (direct_place fs root rs Hdir Hr) He ltac:(done)) as (rest & Hp & Hpr & Hwd).
  destruct (Stat fs io (wPath e)) as [i|] eqn:Ei; [|by exists kl]. case_if; [by exists kl|]. bprop. cbn [fst].
  exists (kl ++ [((parent (wPath e), Size i), wPath e)]). split; [by rewrite grouping_snoc|].
  apply Forall_app. split; [done|]. apply Forall_singleton. cbn. split_and!; try done.
  - intros Hd. rewrite bool_decide_eq_true_2 in Hwd by done. congruence.
  - exists root. split; [done|]. apply under_spec. eauto.
  - eauto.
Qed.
Lemma by_fingerprint_spec size g :
  by_fingerprint sha256 fs io size g = grouping (omap (fun p => fp ← ComputeFingerprint sha256 fs io p size; Some (fp, p)) g).
Proof.
  unfold by_fingerprint. induction g as [|p g IH] using rev_ind; [done|]. rewrite fold_left_app, IH, omap_app. cbn.
  destruct (ComputeFingerprint sha256 fs io p size) as [fp|]; cbn; [by rewrite grouping_snoc|by rewrite app_nil_r].
Qed.

(** Files with the same folder, size and fingerprint. *)
Definition alike (g : list path) : Prop :=
  exists k gr fp, (k, gr) ∈ collectVideosByDirSize fs io fl rs /\ (fp, g) ∈ by_fingerprint sha256 fs io (snd k) gr.
Lemma alike_elem g : alike g -> exists k gr fp,
  (k, gr) ∈ collectVideosByDirSize fs io fl rs /\ (fp, g) ∈ by_fingerprint sha256 fs io (snd k) gr /\
  forall x, x ∈ g -> candidate k x /\ ComputeFingerprint sha256 fs io x (snd k) = Some fp.
Proof.
  intros (k & gr & fp & H1 & H2). exists k, gr, fp. split; [done|]. split; [done|]. intros x Hx.
  rewrite by_fingerprint_spec in H2. apply (grouping_spec _) in H2 as [-> _]. apply with_key_elem in Hx.
  apply list_elem_of_omap in Hx as (y & Hy & Hf). destruct (ComputeFingerprint sha256 fs io y (snd k)) eqn:E; [|done].
  cbn in Hf. injection Hf as -> ->. split; [|done].
  destruct collect_spec as (kl & Hc & Hkl). rewrite Hc in H1. apply (grouping_spec kl) in H1 as [-> _].
  apply with_key_elem in Hy. rewrite Forall_forall in Hkl. apply (Hkl _ Hy).
Qed.
Lemma alike_unique g g' x : alike g -> alike g' -> x ∈ g -> x ∈ g' -> g = g'.
Proof.
  intros (k & gr & fp & A1 & A2 & A)%alike_elem (k' & gr' & fp' & B1 & B2 & B)%alike_elem Hx Hx'.
  destruct (A x Hx) as [A3 A4]. destruct (B x Hx') as [B3 B4].
  assert (k' = k) as -> by by eapply candidate_key. assert (fp' = fp) as -> by congruence.
  destruct collect_spec as (kl & Hc & _). rewrite Hc in A1, B1.
  apply (grouping_spec kl) in A1 as [-> _], B1 as [-> _]. rewrite by_fingerprint_spec in A2, B2.
  apply (grouping_spec _) in A2 as [-> _], B2 as [-> _]. done.
Qed.

(** A file that is reported has an equal one beside it that is not. *)
Definition dup_case (f : Finding) : Prop :=
  IsDir f = false /\ exists g, alike g /\ Path f ∈ g /\ Path f <> pickCanonical g /\
  SameFileContent fs io (pickCanonical g) (Path f) = Some true.
Lemma dup_findings : Forall dup_case (findDuplicateVideos sha256 fs io fl rs).
Proof.
  unfold findDuplicateVideos. apply (fold_left_inv (fun sc => Forall dup_case (findings sc))); [constructor|].
  intros sc [k gr] Hk Hsc. rewrite map_range_perm in Hk. case_if; [done|]. unfold dedupGroup.
  apply (fold_left_inv (fun sc => Forall dup_case (findings sc))); [done|]. intros sc1 g Hg Hsc1.
  apply list_elem_of_fmap in Hg as ([fp g'] & -> & Hg). rewrite map_range_perm in Hg. cbn [snd fst] in *.
  case_if; [done|]. unfold confirmAndFlagDuplicates.
  apply (fold_left_inv (fun sc => Forall dup_case (findings sc))); [done|]. intros sc2 p Hp Hsc2. unfold confirm_one.
  case_if; [done|]. bprop. destruct (SameFileContent fs io (pickCanonical g') p) as [[]|] eqn:Es; [|done|done].
  destruct (match Stat fs io p with Some i => (diskUsage i, Size i) | None => (0, 0) end) as [b a].
  cbn. apply Forall_app. split; [done|]. apply Forall_singleton. split; [done|]. exists g'. cbn. split_and!; try done.
  by exists k, gr, fp.
Qed.

Lemma dup_kept f :
  f ∈ findDuplicateVideos sha256 fs io fl rs -> exists keep data,
  read_file fs io keep = Some data /\ read_file fs io (Path f) = Some data /\ parent keep = parent (Path f) /\
  (exists k, candidate k keep) /\ (exists k, candidate k (Path f)) /\
  Forall (fun f' => Path f' <> keep) (findDuplicateVideos sha256 fs io fl rs).
Proof.
  intros Hf. pose proof dup_findings as Hd. rewrite Forall_forall in Hd.
  destruct (Hd f Hf) as (_ & g & Hg & Hx & Hne & Hs).
  destruct (SameFileContent_spec _ _ _ _ (not_eq_sym Hne) Hs) as (d & R1 & R2).
  assert (Hk : pickCanonical g ∈ g) by (apply pickCanonical_elem; by intros ->; apply not_elem_of_nil in Hx).
  destruct (alike_elem g Hg) as (k & gr & fp & _ & _ & Hall). destruct (Hall _ Hk) as [A3 _]. destruct (Hall _ Hx) as [B3 _].
  exists (pickCanonical g), d. split_and!; try done; [|by eexists|by eexists|].
  - destruct A3 as (_ & _ & _ & _ & i & _ & -> & _). destruct B3 as (_ & _ & _ & _ & j & _ & E & _). congruence.
  - apply Forall_forall. intros f' Hf' Heq. destruct (Hd f' Hf') as (_ & g' & Hg' & Hx' & Hne' & _).
    rewrite Heq in Hx', Hne'. rewrite (alike_unique g' g (pickCanonical g)) in Hne' by done. done.
Qed.
End Dups.

(** ** Removal *)

(** Nothing is added. *)
Record shrinks (fs fs' : FS) : Prop := {
  sh_dirs : dirs fs' ⊆ dirs fs; sh_links : links fs' ⊆ links fs; sh_files : fdata fs' ⊆ fdata fs
}.
#[global] Instance shrinks_pre : PreOrder shrinks.
Proof. split; [by split|]. intros a b c [A1 A2 A3] [B1 B2 B3]. split; by etrans. Qed.
Record same_at (x : path) (fs fs' : FS) : Prop := {
  sa_dirs : x ∈ dirs fs <-> x ∈ dirs fs'; sa_links : links fs !! x = links fs' !! x; sa_files : fdata fs !! x = fdata fs' !! x
}.
#[global] Instance same_at_equiv x : Equivalence (same_at x).
Proof.
  split; [by split| |].
  - intros a b [A1 A2 A3]. by split.
  - intros a b c [A1 A2 A3] [B1 B2 B3]. split; [by rewrite A1|by rewrite A2|by rewrite A3].
Qed.

Lemma drop_at_shrinks fs gone : shrinks fs (drop_at fs gone).
Proof. split; cbn; [set_solver|apply map_filter_subseteq|apply map_filter_subseteq]. Qed.
Lemma drop_at_same fs gone x : gone x = false -> same_at x fs (drop_at fs gone).
Proof.
  intros Hx. assert (Hm : forall A (m : gmap path A), m !! x = filter (fun pa => gone (fst pa) = false) m !! x).
  { intros A m. destruct (m !! x) as [a|] eqn:E; symmetry; [by apply map_lookup_filter_Some|apply map_lookup_filter_None; by left]. }
  split; cbn; [|apply Hm|apply Hm]. rewrite elem_of_filter. naive_solver.
Qed.
#[export] Hint Resolve drop_at_shrinks : unarr.

(** What removing a finding takes away. *)
Definition covers (f : Finding) (x : path) : bool := if IsDir f then under (Path f) x else bool_decide (x = Path f).
Lemma removeOne_spec fs rio f :
  place fs (Path f) = Path f ->
  shrinks fs (fst (removeOne fs rio f)) /\ forall x, covers f x = false -> same_at x fs (fst (removeOne fs rio f)).
Proof.
  intros Hp. set (r := if IsDir f then os_RemoveAll fs rio (Path f) else os_Remove fs rio (Path f)).
  assert (Hr : fst (removeOne fs rio f) = fst r).
  { unfold removeOne. fold r. destruct r as [fs' [[]|]]; done. }
  rewrite Hr. subst r. clear Hr. unfold os_RemoveAll, os_Remove, covers. rewrite Hp.
  destruct (IsDir f); repeat (case_if || case_match); cbn [fst]; split; auto with unarr; try reflexivity;
    intros x Hx; try reflexivity; apply drop_at_same; try done; by rewrite Hx.
Qed.
Lemma apply_one_spec rio rs fs sum f :
  place fs (Path f) = Path f ->
  shrinks fs (fst (apply_one rio rs (fs, sum) f)) /\
  forall x, (isWithinScanPaths (Path f) rs = true -> Path f ∉ rs -> covers f x = false) -> same_at x fs (fst (apply_one rio rs (fs, sum) f)).
Proof.
  intros Hp. unfold apply_one. destruct (confinedForRemoval fs (Path f) rs) eqn:Ec; cbn [negb]; [|split; [reflexivity|by intros]].
  destruct (removeOne_spec fs rio f Hp) as [H1 H2]. destruct (removeOne fs rio f) as [fs' r]. cbn [fst] in *.
  assert (Hc : isWithinScanPaths (Path f) rs = true /\ Path f ∉ rs).
  { unfold confinedForRemoval, isConfiguredRoot in Ec. case_if_in Ec; [done|]. case_if_in Ec; [done|]. by bprop. }
  destruct r; cbn [fst]; (split; [done|]); intros x Hx; apply H2, Hx; apply Hc.
Qed.
(** The paths that are removed are not reached through links. *)
Definition plain_in (fs : FS) (f : Finding) : Prop := forall n, (n < length (Path f))%nat -> links fs !! take n (Path f) = None.
Lemma plain_shrinks fs fs' f : shrinks fs fs' -> plain_in fs f -> plain_in fs' f.
Proof. intros [_ Hl _] Hp n Hn. eapply lookup_weaken_None; [by apply Hp|done]. Qed.
Lemma apply_fold_spec rio rs l fs sum :
  Forall (plain_in fs) l ->
  shrinks fs (fst (fold_left (apply_one rio rs) l (fs, sum))) /\
  forall x, Forall (fun f => isWithinScanPaths (Path f) rs = true -> Path f ∉ rs -> covers f x = false) l ->
    same_at x fs (fst (fold_left (apply_one rio rs) l (fs, sum))).
Proof.
  revert fs sum. induction l as [|f l IH]; intros fs sum Hl; [split; [reflexivity|intros; reflexivity]|].
  apply Forall_cons in Hl as [Hf Hl]. cbn [fold_left].
  destruct (apply_one_spec rio rs fs sum f (place_direct fs _ Hf)) as [H1 H2].
  destruct (apply_one rio rs (fs, sum) f) as [fs1 sum1]. cbn [fst] in *.
  destruct (IH fs1 sum1) as [I1 I2]; [eapply Forall_impl; [exact Hl|]; intros; by eapply plain_shrinks|].
  split; [by etrans|]. intros x [X1 X2]%Forall_cons. etrans; [by apply H2|by apply I2].
Qed.

Section Safe.
Context `{GoSort Finding} `{MapRange} (sha256 : bytes -> bytes) (fs : FS) (io : sweepIO) (paths : ReconcilePaths)
  (active : gset path) (opts : ReconcileOptions) (Hok : fs_ok fs) (Hdir : direct fs (roots paths)).
Local Abbreviation rs := (roots paths).
Definition report_options : ReconcileOptions :=
  mkOptions (MinVideoBytes opts) (RemoveStubs opts) (RemoveOrphanPartials opts) (DedupExact opts)
    (RemoveOrphanSubtitles opts) (PruneEmptyDirs opts) (RemoveCorruptVideos opts) (DedupOnly opts) false.

(** Where a finding comes from. *)
Definition reported (f : Finding) : Prop :=
  IsSafe f = true /\
  (scan_case fs rs (scanPass io) active report_options f \/
   f ∈ findDuplicateVideos sha256 fs (dedupPass io) (floor opts) rs \/
   videoless_case fs rs (dirPass io) (floor opts) f).
Lemma dropFindings_sub l f : f ∈ dropFindingsUnderDirs l -> f ∈ l.
Proof.
  unfold dropFindingsUnderDirs. destruct (map Path (List.filter IsDir l)); [done|].
  intros Hf. apply list_elem_of_In, List.filter_In in Hf as [Hf _]. by apply list_elem_of_In.
Qed.
Lemma safe_reported fs' safe sum :
  ReconcileSafe sha256 fs io paths active opts = Some (fs', safe, sum) ->
  Forall reported safe /\ (fs', sum) = applyFindings fs (removals io) safe rs.
Proof.
  unfold ReconcileSafe. fold report_options. destruct (ReconcileWithSummary _ fs io paths active report_options) as [[[fs1 all] sum1]|] eqn:E; [|done].
  destruct (applyFindings fs (removals io) (List.filter IsSafe all) (roots paths)) as [fs2 sum2] eqn:Ea. intros [= <- <- <-].
  split; [|done]. apply Forall_forall. intros f Hf. apply list_elem_of_In, List.filter_In in Hf as [Hf Hs].
  apply list_elem_of_In in Hf. split; [done|]. unfold ReconcileWithSummary in E. destruct (roots paths) as [|r0 rs0] eqn:Er; [done|].
  rewrite <- Er in *. cbn [DedupExact DedupOnly PruneEmptyDirs report_options applyAndReturn Apply] in E. case_if_in E; injection E as _ <- _.
  - right; left. case_if_in Hf; [done|by apply not_elem_of_nil in Hf].
  - apply dropFindings_sub in Hf. rewrite !elem_of_app in Hf. destruct Hf as [Hf|[Hf|Hf]].
    + left. pose proof (scan_findings fs rs Hdir (scanPass io) active report_options) as Hc. rewrite Forall_forall in Hc. by apply Hc.
    + right; left. case_if_in Hf; [done|by apply not_elem_of_nil in Hf].
    + right; right. case_if_in Hf; [|by apply not_elem_of_nil in Hf].
      pose proof (videoless_findings fs rs Hdir (dirPass io) (floor opts) (seenDirs (scanRoots fs (scanPass io) rs active report_options))) as Hc.
      rewrite Forall_forall in Hc. by apply Hc.
Qed.
Lemma reported_present f : reported f -> present fs (Path f) = true.
Proof.
  intros [_ [[Hp _]|[Hf|(Hd & _)]]]; [done| |apply present_spec; by left].
  destruct (dup_kept sha256 fs _ _ rs Hdir f Hf) as (keep & data & _ & _ & _ & _ & (k & _ & Hp & _) & _). done.
Qed.
(** What no finding covers stays as it is. *)
Lemma sweep_same fs' safe sum x :
  ReconcileSafe sha256 fs io paths active opts = Some (fs', safe, sum) ->
  (forall f, reported f -> isWithinScanPaths (Path f) rs = true -> Path f ∉ rs -> covers f x = false) -> same_at x fs fs'.
Proof.
  intros [Hs Ha]%safe_reported Hx. change fs' with (fst (fs', sum)). rewrite Ha. unfold applyFindings. rewrite Forall_forall in Hs.
  apply apply_fold_spec; apply Forall_forall; intros f Hf; rewrite sort_Slice_perm in Hf; apply Hs in Hf; [|by apply Hx].
  intros n Hn. by apply (present_prefix fs Hok); [apply reported_present|].
Qed.
End Safe.

(** ** What stays *)

(** No directory on the way is named like a video. *)
Definition no_media_dirs (rs : list path) (x : path) : Prop :=
  forall n, (n < length x)%nat -> strictly_below rs (take n x) -> isVideoFile (name_of (take n x)) = false.
(** The directories of a pass could be listed, and its files examined. *)
Definition reads_all (io : scanIO) : Prop := (forall p, lists io p = true) /\ (forall p, stats io p = true).

Lemma isWithin_strict p rs : isWithinScanPaths p rs = true -> strictly_below rs p.
Proof.
  intros (sp & Hs & Hm)%existsb_exists. destruct (strip sp p) as [[|e rest]|] eqn:E; try done.
  apply strip_spec in E. exists sp, (e :: rest). split_and!; [by apply list_elem_of_In|done|done].
Qed.
Lemma strictly_below_app rs p r : strictly_below rs p -> strictly_below rs (p ++ r).
Proof.
  intros (r0 & rest & H1 & -> & H3). exists r0, (rest ++ r). split_and!; [done|by rewrite app_assoc|].
  by destruct rest.
Qed.
Lemma proper_prefix (d x : path) : under d x = true -> d <> x -> exists n, (n < length x)%nat /\ d = take n x.
Proof.
  intros [r ->]%under_spec Hne. exists (length d). rewrite take_app_length. split; [|done]. rewrite length_app.
  destruct r; [by rewrite app_nil_r in Hne|]. cbn. lia.
Qed.
Lemma follow_app ls cur a b : follow ls cur (a ++ b) = follow ls (follow ls cur a) b.
Proof. revert cur. induction a as [|e a IH]; intros cur; [done|]. cbn. apply IH. Qed.
Lemma followed_link fs p t : fs_ok fs -> p <> [] -> links fs !! p = Some t -> followed fs p = t.
Proof.
  intros Hok Hn Hl. unfold followed. rewrite (parent_name p Hn) at 1. rewrite follow_app.
  rewrite (follow_plain _ [] (parent p)).
  - cbn. rewrite <- (parent_name p Hn), Hl. done.
  - intros n Hx. rewrite parent_length in Hx. cbn. rewrite take_parent by lia.
    apply (present_prefix fs Hok); [apply present_spec; right; left; eauto|lia].
Qed.
Lemma video_nonroot x : isVideoFile (name_of x) = true -> x <> [].
Proof. by intros Hx ->. Qed.

Section Stays.
Context `{GoSort Finding} `{MapRange} (sha256 : bytes -> bytes) (fs : FS) (io : sweepIO) (paths : ReconcilePaths)
  (active : gset path) (opts : ReconcileOptions) (Hok : fs_ok fs) (Hdir : direct fs (roots paths)).
Local Abbreviation rs := (roots paths).

(** A directory finding on the way to a file: it is an empty one, or named like a video. *)
Lemma dir_over f x data :
  reported sha256 fs io paths active opts f -> no_media_dirs rs x -> fdata fs !! x = Some data ->
  IsDir f = true -> covers f x = true ->
  Path f ∈ dirs fs /\ under (Path f) x = true /\ dirHasRealVideo fs (dirPass io) (floor opts) (Path f) = false /\
  dirHasPartial fs (dirPass io) (Path f) = false.
Proof.
  intros [_ Hf] Hm Hx Hd. unfold covers. rewrite Hd. intros Hu. destruct Hf as [(_ & Hf)|[Hf|(V1 & V2 & V3 & V4 & V5)]]; [| |done].
  - destruct Hf as [(_ & S1 & S2 & S3)|[? _]]; [|congruence]. exfalso.
    destruct (proper_prefix (Path f) x Hu) as (n & Hn & Hp); [intros E; rewrite E in S1; apply (ok_dir_file _ Hok) in S1; congruence|].
    rewrite Hp in S2, S3. rewrite (Hm n Hn S3) in S2. done.
  - exfalso. pose proof (dup_findings sha256 fs (dedupPass io) (floor opts) rs) as Hc. rewrite Forall_forall in Hc.
    destruct (Hc f Hf) as [Hc' _]. congruence.
Qed.

(** A real video is removed only as a duplicate. *)
Lemma video_same fs' safe sum v data :
  ReconcileSafe sha256 fs io paths active opts = Some (fs', safe, sum) -> reads_all (dirPass io) ->
  fdata fs !! v = Some data -> isVideoFile (name_of v) = true -> floor opts <= Z.of_nat (length data) -> no_media_dirs rs v ->
  Forall (fun f => Path f <> v) (findDuplicateVideos sha256 fs (dedupPass io) (floor opts) rs) -> same_at v fs fs'.
Proof.
  intros Hr [Hl Hs] Hv Hn Hf Hm Hd. apply (sweep_same _ _ _ _ _ _ Hok Hdir _ _ _ _ Hr). intros f Hrep _ _.
  destruct (covers f v) eqn:Ec; [exfalso|done]. destruct (IsDir f) eqn:Ed.
  - destruct (dir_over f v data Hrep Hm Hv Ed Ec) as (D1 & D2 & D3 & _).
    by rewrite (real_video_seen fs Hok (dirPass io) (floor opts) (Path f) v data) in D3.
  - unfold covers in Ec. rewrite Ed in Ec. bprop. destruct Hrep as [Hsafe [(_ & [[? _]|(_ & _ & Hc)])|[Hx|(_ & ? & _)]]]; try congruence.
    + rewrite <- Ec in Hc. unfold classifyFile in Hc. rewrite Hn in Hc.
      unfold Stat in Hc. rewrite (solid_followed fs Hok v) in Hc by eauto. rewrite Hv in Hc. case_if_in Hc; [done|].
      change (floor (report_options opts)) with (floor opts) in Hc. cbn [Size] in Hc. case_if_in Hc; [bprop; lia|].
      case_if_in Hc; [|done]. unfold classifyCorruptVideo in Hc. destruct (FirstOrLastMiBAllZero _ _ _ _) as [[]|]; try done.
      injection Hc as <-. done.
    + rewrite Forall_forall in Hd. by apply (Hd f Hx).
Qed.

(** A partial download that may not be judged stays. *)
Lemma partial_same fs' safe sum x data :
  ReconcileSafe sha256 fs io paths active opts = Some (fs', safe, sum) -> (forall p, lists (dirPass io) p = true) ->
  fdata fs !! x = Some data -> isVideoFile (name_of x) = false -> IsPartialExt (name_of x) = true -> no_media_dirs rs x ->
  RemoveOrphanPartials opts = false \/ x ∈ active -> same_at x fs fs'.
Proof.
  intros Hr Hl Hx Hn Hp Hm Ha. apply (sweep_same _ _ _ _ _ _ Hok Hdir _ _ _ _ Hr). intros f Hrep _ _.
  destruct (covers f x) eqn:Ec; [exfalso|done]. destruct (IsDir f) eqn:Ed.
  - destruct (dir_over f x data Hrep Hm Hx Ed Ec) as (D1 & D2 & _ & D3). by rewrite (partial_seen fs Hok (dirPass io) (Path f) x data) in D3.
  - unfold covers in Ec. rewrite Ed in Ec. bprop. destruct Hrep as [Hsafe [(_ & [[? _]|(_ & _ & Hc)])|[Hf|(_ & ? & _)]]]; try congruence.
    + rewrite <- Ec in Hc. unfold classifyFile in Hc. destruct (Stat fs (scanPass io) x); [|done]. rewrite Hn, Hp in Hc.
      cbn [RemoveOrphanPartials report_options] in Hc. destruct Ha as [Ha|Ha]; [by rewrite Ha in Hc|]. case_if_in Hc; [done|].
      by rewrite bool_decide_eq_true_2 in Hc.
    + destruct (dup_kept sha256 fs _ _ rs Hdir f Hf) as (keep & d & _ & _ & _ & _ & (k & Hv & _) & _). congruence.
Qed.
End Stays.

(** * Theorems *)

(** C38: The automatic sweep loses no video.  When the folders are reached without links and hold no link to a file, the
    directory pass can read the folders, and the path has no directory that is itself named like a video, every video of
    at least the floor size still has its bytes under its own name or under another name in the same folder afterwards,
    whatever the removals ended in, whatever the other passes could read and whatever the digest is. *)
Theorem sweep_keeps_videos `{GoSort Finding} `{MapRange} (sha256 : bytes -> bytes) fs io paths active opts fs' safe sum v data :
  fs_ok fs -> direct fs (roots paths) -> (forall l t, links fs !! l = Some t -> fdata fs !! t = None) -> reads_all (dirPass io) ->
  ReconcileSafe sha256 fs io paths active opts = Some (fs', safe, sum) ->
  fdata fs !! v = Some data -> isVideoFile (name_of v) = true -> floor opts <= Z.of_nat (length data) ->
  no_media_dirs (roots paths) v ->
  exists k, parent k = parent v /\ isVideoFile (name_of k) = true /\ fdata fs' !! k = Some data.
Proof.
  intros Hok Hdir Hlinks Hreads Hr Hv Hn Hf Hm.
  destruct (decide (Exists (fun f => Path f = v) (findDuplicateVideos sha256 fs (dedupPass io) (floor opts) (roots paths)))) as [He|He].
  - apply Exists_exists in He as (f & Hin & Hp).
    destruct (dup_kept sha256 fs _ _ _ Hdir f Hin) as (keep & d & R1 & R2 & Hpar & (k & C1 & C2 & C3 & _) & _ & Hnot).
    unfold read_file in R1, R2. rewrite Hp in R2, Hpar. case_if_in R1; [|done]. case_if_in R2; [|done].
    rewrite (solid_followed fs Hok v) in R2 by eauto. assert (d = data) as -> by congruence.
    assert (Hkeep : fdata fs !! keep = Some data).
    { apply present_spec in C2 as [C2|[[t C2]|C2]]; [done| |by rewrite (solid_followed fs Hok keep) in R1 by eauto].
      rewrite (followed_link fs keep t Hok) in R1; [|by apply video_nonroot|done]. rewrite (Hlinks _ _ C2) in R1. done. }
    exists keep. split_and!; [done|done|]. rewrite <- Hkeep. symmetry. eapply sa_files, video_same; try done.
    intros x Hx Hb. assert (Hlen : length keep = length v).
    { apply (f_equal length) in Hpar. rewrite !parent_length in Hpar. apply video_nonroot in C1, Hn. destruct keep; [done|]. destruct v; [done|]. cbn in *. lia. }
    assert (Ht : take x keep = take x v) by (rewrite <- (take_parent keep), <- (take_parent v) by lia; by rewrite Hpar).
    rewrite Ht in Hb |- *. apply Hm; [lia|done].
  - exists v. split_and!; [done|done|]. rewrite <- Hv. symmetry. eapply sa_files, video_same; try done.
    by apply Forall_Exists_neg in He.
Qed.

(** The automatic sweep touches nothing outside the configured folders, whatever links are inside them, and a
    configured folder inside another one is kept when only configured folders lie between. *)
Lemma sweep_confined `{GoSort Finding} `{MapRange} (sha256 : bytes -> bytes) fs io paths active opts fs' safe sum x :
  fs_ok fs -> direct fs (roots paths) -> ReconcileSafe sha256 fs io paths active opts = Some (fs', safe, sum) ->
  ~ strictly_below (roots paths) x \/
  (x ∈ roots paths /\ x ∈ dirs fs /\ forall n, strictly_below (roots paths) (take n x) -> take n x ∈ roots paths) ->
  same_at x fs fs'.
Proof.
  intros Hok Hdir Hr Hx. apply (sweep_same _ _ _ _ _ _ Hok Hdir _ _ _ _ Hr). intros f Hf Hw Hroot.
  apply isWithin_strict in Hw. destruct (covers f x) eqn:Ec; [exfalso|done].
  assert (Hu : exists r, x = Path f ++ r).
  { unfold covers in Ec. case_if_in Ec; [by apply under_spec in Ec|]. bprop. subst. exists []. by rewrite app_nil_r. }
  destruct Hu as [r ->]. destruct Hx as [Hx|(Hx & _ & Hn)]; [by apply Hx, strictly_below_app|].
  specialize (Hn (length (Path f))). rewrite take_app_length in Hn. by apply Hroot, Hn.
Qed.

(** A walk that never skips makes all its calls. *)
Lemma walk_all {S} (fn : S -> walkEntry -> S) l s : walk_list (fun s e => (fn s e, WalkOn)) l None s = fold_left fn l s.
Proof. revert s. induction l as [|e l IH]; intros s; [done|]. cbn. apply IH. Qed.
Lemma fold_left_reaches {A B} (f : A -> B -> A) (I : A -> Prop) l a x :
  x ∈ l -> (forall a, I (f a x)) -> (forall a y, I a -> I (f a y)) -> I (fold_left f l a).
Proof.
  intros Hx H1 H2. apply list_elem_of_split in Hx as (l1 & l2 & ->). rewrite fold_left_app. cbn.
  apply (fold_left_inv I); [apply H1|]. intros b y _. apply H2.
Qed.
Lemma recent_active fs io age d x data :
  fs_ok fs -> reads_all io -> d ∈ dirs fs -> under d x = true -> fdata fs !! x = Some data ->
  IsPartialExt (name_of x) = true -> age x < five_minutes -> x ∈ recentPartials fs io age (Some d) five_minutes.
Proof.
  intros Hok [Hl Hs] Hd Hu Hx Hp Ha. unfold recentPartials, WalkDir.
  set (add := fun (active : gset path) e =>
    if wErr e || wDir e || negb (IsPartialExt (name_of (wPath e))) then active
    else match entry_info fs io (wPath e) with
         | Some _ => if age (place fs (wPath e)) <? five_minutes then {[wPath e]} ∪ active else active
         | None => active
         end).
  rewrite (walk_list_ext _ (fun s e => (add s e, WalkOn))).
  2:{ intros s e. unfold add. case_if; [done|]. destruct (entry_info fs io (wPath e)); [|done]. by case_if. }
  assert (Hpr : present fs x = true) by (apply present_spec; eauto).
  rewrite walk_all. eapply fold_left_reaches; [by apply (walk_complete fs io Hok d x Hl Hd)| |].
  - intros a. unfold add. cbn [wErr wDir wPath].
    rewrite bool_decide_eq_false_2 by (intros Hy; apply (ok_dir_file _ Hok) in Hy; congruence). rewrite Hp. cbn [orb negb].
    unfold entry_info. rewrite Hs, (present_place fs Hok x Hpr), Hx. cbn [negb]. rewrite (proj2 (Z.ltb_lt _ _) Ha). set_solver.
  - intros a e Hy. unfold add. case_if; [done|]. destruct (entry_info fs io (wPath e)); [|done]. case_if; [set_solver|done].
Qed.

(** The sweep after a scan spares the partial downloads.  One stays when a download is unfinished anywhere, when the
    category is off, or when it lies in the download folder and was written to in the last five minutes. *)
Lemma cleanup_keeps_partials `{GoSort Finding} `{MapRange} (sha256 : bytes -> bytes) parseBytes fs io recent age c paths pending x data :
  fs_ok fs -> direct fs (roots paths) -> (forall p, lists (dirPass io) p = true) ->
  fdata fs !! x = Some data -> isVideoFile (name_of x) = false -> IsPartialExt (name_of x) = true -> no_media_dirs (roots paths) x ->
  cRemoveOrphanPartials c = false \/ (exists n, pending = Some (S n)) \/
  (exists d, DownloadDir paths = Some d /\ d ∈ dirs fs /\ under d x = true /\ age x < five_minutes /\ reads_all recent) ->
  fdata (runPostScanCleanup sha256 parseBytes fs io recent age c paths pending) !! x = Some data.
Proof.
  intros Hok Hdir Hl Hx Hn Hp Hm Hcase. unfold runPostScanCleanup. case_if; [done|]. destruct (roots paths) eqn:Er; [done|]. rewrite <- Er in *.
  destruct (ReconcileSafe sha256 fs io paths _ _) as [[[fs' safe] sum]|] eqn:Er'; [|done]. rewrite <- Hx. symmetry.
  apply sa_files. apply (partial_same _ _ _ _ _ _ Hok Hdir _ _ _ _ _ Er' Hl Hx Hn Hp Hm).
  destruct Hcase as [Hc|[[n ->]|(d & D1 & D2 & D3 & D4 & D5)]].
  - left. cbn. unfold orphanPartialRemovalAllowed. rewrite Hc. by destruct pending.
  - left. cbn. by destruct (cRemoveOrphanPartials c).
  - right. rewrite D1. by eapply recent_active.
Qed.

(** * Demonstrations *)

(** "/a/b" as elements. *)
Definition at_ (s : string) : path := elems_of (str s).
(** A tree of files and links with the directories above them. *)
Definition above (p : path) : list path := map (fun n => take n p) (seq 0 (length p)).
Definition tree (ds : list path) (ls : list (path * path)) (fl : list (path * bytes)) : FS :=
  mkFS (list_to_set (ds ++ flat_map above (ds ++ map fst ls ++ map fst fl))) (list_to_map ls) (list_to_map fl).
Definition quiet : scanIO := mkScanIO (fun _ => true) (fun _ => true) (fun _ => true) (fun _ => 4096) (fun _ => 20) (fun _ => 8).
Definition obeys : removeIO := mkRemoveIO (fun _ => None) (fun _ => false).
Definition calm : sweepIO := mkSweepIO quiet quiet quiet obeys.
#[local] Instance range_in_order : MapRange := { map_range := fun A l => l; map_range_perm := fun A l => Permutation_refl l }.
#[local] Instance demo_finding_sort : GoSort Finding := stable_GoSort Finding.
Definition cleanup_on : CleanupConfig := mkCleanup true (str "4") true true true true true.
Definition four (s : bytes) : option Z := Some 4.
Definition no_digest (b : bytes) : bytes := [].
Definition sweep (fs : FS) (io : sweepIO) (paths : ReconcilePaths) (pending : option nat) : FS :=
  runPostScanCleanup no_digest four fs io quiet (fun _ => five_minutes) cleanup_on paths pending.
Definition left_over (fs : FS) : list bytes := map render (sort_SliceStable path_ltb (all_paths fs)).
Definition downloads : ReconcilePaths := mkPaths (Some (at_ "/m")) None None.

(** The conditions of the theorems, computed. *)
Definition fs_okb (fs : FS) : bool :=
  forallb (fun p => forallb (fun q => bool_decide (q ∈ dirs fs)) (above p) &&
    match bool_decide (p ∈ dirs fs), links fs !! p, fdata fs !! p with
    | true, None, None | false, Some _, None | false, None, Some _ => true
    | _, _, _ => false
    end) (all_paths fs).
Lemma fs_okb_ok fs : fs_okb fs = true -> fs_ok fs.
Proof.
  intros Hf. unfold fs_okb in Hf. rewrite forallb_forall in Hf.
  assert (Hp : forall p, present fs p = true -> Forall (fun q => q ∈ dirs fs) (above p) /\
    (p ∈ dirs fs -> links fs !! p = None /\ fdata fs !! p = None) /\ (is_Some (fdata fs !! p) -> links fs !! p = None)).
  { intros p Hp%all_paths_spec%list_elem_of_In%Hf. apply andb_prop in Hp as [H1 H2]. split.
    - apply Forall_forall. intros q Hq. rewrite forallb_forall in H1. apply list_elem_of_In, H1 in Hq. by bprop.
    - case_bool_decide; destruct (links fs !! p), (fdata fs !! p); try done; by split; [|intros [? ?]]. }
  assert (Hd : forall p, p ∈ dirs fs -> present fs p = true) by (intros p Hd; apply present_spec; by left).
  split.
  - intros p n Hpr Hn. destruct (Hp p Hpr) as [H1 _]. rewrite Forall_forall in H1. apply H1. unfold above.
    apply list_elem_of_fmap. exists n. split; [done|]. apply elem_of_seq. lia.
  - intros p H. destruct (Hp p (Hd p H)) as (_ & H2 & _). by destruct (H2 H).
  - intros p H. destruct (Hp p (Hd p H)) as (_ & H2 & _). by destruct (H2 H).
  - intros p H. destruct (Hp p) as (_ & _ & H2); [apply present_spec; by right; right|by apply H2].
Qed.
Lemma no_media_dirs_names rs x :
  forallb (fun q => negb (isVideoFile (name_of q))) (above x) = true -> no_media_dirs rs x.
Proof.
  intros Hf n Hn _. rewrite forallb_forall in Hf. specialize (Hf (take n x)). apply negb_true_iff, Hf.
  apply in_map_iff. exists n. split; [done|]. apply in_seq. lia.
Qed.
Lemma tree_no_links ds fl (P : path -> path -> Prop) : forall l t, links (tree ds [] fl) !! l = Some t -> P l t.
Proof. intros l t Hl. cbn in Hl. by rewrite lookup_empty in Hl. Qed.
Lemma tree_direct ds fl rs : direct (tree ds [] fl) rs.
Proof. intros r n _. apply lookup_empty. Qed.

(** An episode downloaded twice, and another one. *)
Definition season : FS :=
  tree [] [] [(at_ "/m/S/E1 (2).mkv", str "episode"); (at_ "/m/S/E1.mkv", str "episode"); (at_ "/m/S/E2.mkv", str "another");
              (at_ "/m/S/old.part", str "x")].
Definition swept (fs : FS) : FS :=
  default fs ((fun r => fst (fst r)) <$> ReconcileSafe no_digest fs calm downloads ∅ (cleanup_options four cleanup_on (Some 1%nat))).
Lemma season_ok : fs_ok season.
Proof. apply fs_okb_ok. vm_compute. reflexivity. Qed.
Lemma season_swept : exists safe sum,
  ReconcileSafe no_digest season calm downloads ∅ (cleanup_options four cleanup_on (Some 1%nat)) = Some (swept season, safe, sum).
Proof.
  unfold swept. set (r := ReconcileSafe no_digest season calm downloads ∅ _).
  assert (Hr : match r with Some _ => true | None => false end = true) by (vm_compute; reflexivity).
  clearbody r. destruct r as [[[fs' safe] sum]|]; [by exists safe, sum|done].
Qed.
Lemma quiet_reads : reads_all quiet.
Proof. by split. Qed.

Lemma sweep_keeps_videos_witness :
  fdata (swept season) !! at_ "/m/S/E1 (2).mkv" = None /\
  exists k, parent k = parent (at_ "/m/S/E1 (2).mkv") /\ isVideoFile (name_of k) = true /\ fdata (swept season) !! k = Some (str "episode").
Proof.
  split; [vm_compute; reflexivity|]. destruct season_swept as (safe & sum & Hs).
  apply (sweep_keeps_videos no_digest season calm downloads ∅ (cleanup_options four cleanup_on (Some 1%nat)) (swept season) safe sum).
  - exact season_ok.
  - apply tree_direct.
  - apply (tree_no_links _ _ (fun _ t => fdata season !! t = None)).
  - exact quiet_reads.
  - exact Hs.
  - vm_compute. reflexivity.
  - vm_compute. reflexivity.
  - vm_compute. discriminate.
  - apply no_media_dirs_names. vm_compute. reflexivity.
Defined.
Lemma sweep_confined_witness : same_at (at_ "/other/film.mkv") season (swept season).
Proof.
  destruct season_swept as (safe & sum & Hs).
  apply (sweep_confined no_digest season calm downloads ∅ (cleanup_options four cleanup_on (Some 1%nat)) (swept season) safe sum).
  - exact season_ok.
  - apply tree_direct.
  - exact Hs.
  - left. intros (r & rest & Hr & He & _). apply list_elem_of_singleton in Hr as ->. discriminate He.
Defined.
Lemma cleanup_keeps_partials_witness :
  fdata (runPostScanCleanup no_digest four season calm quiet (fun _ => five_minutes) cleanup_on downloads (Some 1%nat)) !! at_ "/m/S/old.part"
  = Some (str "x").
Proof.
  apply (cleanup_keeps_partials no_digest four season calm quiet (fun _ => five_minutes) cleanup_on downloads (Some 1%nat)).
  - exact season_ok.
  - apply tree_direct.
  - done.
  - vm_compute. reflexivity.
  - vm_compute. reflexivity.
  - vm_compute. reflexivity.
  - apply no_media_dirs_names. vm_compute. reflexivity.
  - right; left. by exists 0%nat.
Defined.

(** ** Where the sweep takes too much *)

(** The folder of a running usenet download holds volumes and no partial file: it is swept although a download is pending. *)
Lemma running_usenet_folder_swept :
  fdata (sweep (tree [] [] [(at_ "/m/Rel/rel.part01.rar", str "volume")]) calm downloads (Some 1%nat)) !! at_ "/m/Rel/rel.part01.rar" = None.
Proof. vm_compute. reflexivity. Qed.
(** A folder named like a video, as a usenet task's often is, is swept with the video in it. *)
Lemma media_named_folder_swept :
  fdata (sweep (tree [] [] [(at_ "/m/Film (2018).mp4/Film (2018).mp4", str "the film")]) calm downloads (Some 1%nat))
    !! at_ "/m/Film (2018).mp4/Film (2018).mp4" = None.
Proof. vm_compute. reflexivity. Qed.
(** Configured folders below an ordinary empty one are swept with it. *)
Lemma configured_folders_swept :
  let paths := mkPaths (Some (at_ "/m")) (Some (at_ "/m/lib/Movies")) (Some (at_ "/m/lib/TV")) in
  let fs := sweep (tree [at_ "/m/lib/Movies"; at_ "/m/lib/TV"] [] []) calm paths (Some 1%nat) in
  at_ "/m/lib/Movies" ∉ dirs fs /\ at_ "/m/lib/TV" ∉ dirs fs.
Proof. intros paths fs. split; apply (proj1 (bool_decide_eq_false _)); vm_compute; reflexivity. Qed.
(** Of a link and the video it leads to, the link can be the copy that is kept. *)
Lemma linked_video_lost :
  let fs := sweep (tree [] [(at_ "/m/A/A.mkv", at_ "/m/A/A (2).mkv")] [(at_ "/m/A/A (2).mkv", str "the film")]) calm downloads (Some 1%nat) in
  links fs !! at_ "/m/A/A.mkv" = Some (at_ "/m/A/A (2).mkv") /\ fdata fs !! at_ "/m/A/A (2).mkv" = None.
Proof. split; vm_compute; reflexivity. Qed.
(** A folder whose files could not be examined counts as one without a video. *)
Lemma unread_folder_swept :
  let blind := mkScanIO (fun _ => true) (fun _ => false) (fun _ => true) (fun _ => 4096) (fun _ => 20) (fun _ => 8) in
  fdata (sweep (tree [] [] [(at_ "/m/A/A.mkv", str "the film")]) (mkSweepIO quiet quiet blind obeys) downloads (Some 1%nat)) !! at_ "/m/A/A.mkv" = None.
Proof. vm_compute. reflexivity. Qed.
(** A video behind a link is not seen beside its subtitles: an entry's own size is the link's. *)
Lemma linked_video_subtitles_swept :
  let fs := sweep (tree [] [(at_ "/m/A/A.mkv", at_ "/store/A.mkv")] [(at_ "/store/A.mkv", str "the film"); (at_ "/m/A/A.srt", str "x")])
              (mkSweepIO (mkScanIO (fun _ => true) (fun _ => true) (fun _ => true) (fun _ => 4096) (fun _ => 3) (fun _ => 8)) quiet quiet obeys)
              downloads (Some 1%nat) in
  links fs !! at_ "/m/A/A.mkv" = Some (at_ "/store/A.mkv") /\ fdata fs !! at_ "/m/A/A.srt" = None.
Proof. split; vm_compute; reflexivity. Qed.
