(* ===== verification/LibraryDelete.v ===== *)
(** Deletions asked for by the server: internal/library/delete.go, and the folders
    they are confined to (paths.go).

    Files, links and removals are those of Reconcile.  A request names its file by a
    string; what comes after filepath.Clean is its list of elements. *)
From Stdlib Require Import ZArith Lia Ascii String.
From stdpp Require Import prelude list strings sorting gmap.
From S2P Require Import Prelude GoStrings SafePath Organize Reconcile.

Open Scope Z_scope.

(** * The folders *)

Definition is_child (p other : path) : bool := isWithinScanPaths p [other].
Fixpoint unique_paths (seen : list path) (l : list path) : list path :=
  match l with
  | [] => []
  | p :: l' => if bool_decide (p ∈ seen) then unique_paths seen l' else p :: unique_paths (p :: seen) l'
  end.
Definition deduplicatePaths (paths : list path) : list path :=
  let unique := unique_paths [] paths in
  List.filter (fun p => negb (existsb (fun other => negb (bool_decide (other = p)) && is_child p other) unique)) unique.
(** ResolveScanPaths; an empty setting is [None]. *)
Definition ResolveScanPaths (dlDir moviesDir tvDir scanPath : option path) : list path :=
  deduplicatePaths (omap id [dlDir; moviesDir; tvDir; scanPath]).

(** * Deleting *)

Record LibraryDeleteRequest := mkRequest { ItemID : Z; FilePath : bytes }.
Inductive deleteErr := DNoScanPaths | DNotAbsolute | DOutside | DResolve | DRemove (e : errno).

(** How the calls of a deletion end: links that could be resolved, directories that
    could be listed, removals. *)
Record deleteIO := mkDeleteIO { resolves : path -> bool; dlists : path -> bool; dremovals : removeIO }.

Section Delete.
Context (dio : deleteIO).

Fixpoint dirEligibleForPrune (dir : path) (scanPaths : list path) : bool :=
  match scanPaths with
  | [] => false
  | sp :: rest =>
      if bool_decide (sp = dir) then false
      else if is_child dir sp then true
      else dirEligibleForPrune dir rest
  end.
(** os.ReadDir: the entries, [None] on an error. *)
Definition read_dir (fs : FS) (dir : path) : option (list path) :=
  let q := followed fs dir in
  if dlists dio dir && bool_decide (q ∈ dirs fs) then Some (children fs q) else None.
Fixpoint prune_loop (levels : nat) (fs : FS) (dir : path) (scanPaths : list path) : FS :=
  match levels with
  | O => fs
  | S levels' =>
      if negb (dirEligibleForPrune dir scanPaths) then fs
      else match read_dir fs dir with
           | Some [] =>
               match os_Remove fs (dremovals dio) dir with
               | (fs', None) => prune_loop levels' fs' (parent dir) scanPaths
               | (fs', Some _) => fs'
               end
           | _ => fs
           end
  end.
Definition maxLevels : nat := 10.
Definition pruneEmptyDirs (fs : FS) (dir : path) (scanPaths : list path) : FS := prune_loop maxLevels fs dir scanPaths.

Definition sidecarExts : list bytes := sidecarReconcileExts.
(** Whether deleteSidecars takes the file [name] with the video [base]. *)
Definition sidecar_of (base name : bytes) : bool :=
  let stem := trim_suffix base (Ext base) in
  negb (bytes_eqb name base) && negb (isVideoFile name) &&
  existsb (bytes_eqb (ToLower (Ext name))) sidecarExts && SidecarBelongsTo name stem.
Definition deleteSidecars (fs : FS) (videoPath : path) : FS :=
  let dir := parent videoPath in
  let base := name_of videoPath in
  match trim_suffix base (Ext base) with
  | [] => fs
  | _ =>
      match read_dir fs dir with
      | None => fs
      | Some entries =>
          fold_left (fun fs x =>
            if bool_decide (x ∈ dirs fs) || negb (sidecar_of base (name_of x)) then fs
            else fst (os_Remove fs (dremovals dio) (dir ++ [name_of x]))) entries fs
      end
  end.

Definition deleteOne (fs : FS) (filePath : bytes) (scanPaths : list path) : FS * option deleteErr :=
  if negb (is_abs filePath) then (fs, Some DNotAbsolute)
  else
    let clean := elems_of filePath in
    if negb (resolves dio clean) then (fs, Some DResolve)
    else match eval_links fs clean with
         | None =>
             if negb (isWithinScanPaths clean scanPaths) then (fs, Some DOutside)
             else (pruneEmptyDirs fs (parent clean) scanPaths, None)
         | Some real =>
             let rs := resolvedRoots fs scanPaths in
             if negb (isWithinScanPaths real rs) then (fs, Some DOutside)
             else match os_Remove fs (dremovals dio) real with
                  | (fs1, None) | (fs1, Some ENOENT) => (pruneEmptyDirs (deleteSidecars fs1 real) (parent real) rs, None)
                  | (fs1, Some e) => (fs1, Some (DRemove e))
                  end
         end.

(** One item of DeleteFiles: the files, the identifiers confirmed and those that failed. *)
Definition delete_item (scanPaths : list path) (st : FS * list Z * list (Z * deleteErr)) (item : LibraryDeleteRequest)
    : FS * list Z * list (Z * deleteErr) :=
  let '(fs, confirmed, failed) := st in
  if is_abs (FilePath item) && negb (isWithinScanPaths (elems_of (FilePath item)) scanPaths) then st
  else match deleteOne fs (FilePath item) scanPaths with
       | (fs', Some e) => (fs', confirmed, failed ++ [(ItemID item, e)])
       | (fs', None) => (fs', confirmed ++ [ItemID item], failed)
       end.
(** DeleteFiles; scan paths that are not absolute are left out. *)
Definition DeleteFiles (fs : FS) (items : list LibraryDeleteRequest) (scanPaths : list bytes) : FS * list Z * list (Z * deleteErr) :=
  let safe := map elems_of (List.filter is_abs scanPaths) in
  match safe with
  | [] => (fs, [], map (fun item => (ItemID item, DNoScanPaths)) items)
  | _ => fold_left (delete_item safe) items (fs, [], [])
  end.
End Delete.

(** * Lemmas *)

(** A path is one thing, and stays so while things go. *)
Record one_kind (fs : FS) : Prop := {
  ok1 : forall p, p ∈ dirs fs -> links fs !! p = None;
  ok2 : forall p, p ∈ dirs fs -> fdata fs !! p = None;
  ok3 : forall p, is_Some (fdata fs !! p) -> links fs !! p = None
}.
Lemma fs_ok_one_kind fs : fs_ok fs -> one_kind fs.
Proof. intros [_ H1 H2 H3]. by split. Qed.
Lemma one_kind_shrinks fs fs' : shrinks fs fs' -> one_kind fs -> one_kind fs'.
Proof.
  intros [Hd Hl Hf] [H1 H2 H3]. split.
  - intros p Hp. eapply lookup_weaken_None; [apply H1; set_solver|done].
  - intros p Hp. eapply lookup_weaken_None; [apply H2; set_solver|done].
  - intros p [d Hp]. eapply lookup_weaken_None; [apply H3; exists d; by eapply lookup_weaken|done].
Qed.

Lemma present_shrinks fs fs' x : shrinks fs fs' -> present fs x = false -> present fs' x = false.
Proof.
  intros [Hd Hl Hf] Hx. apply not_true_iff_false in Hx. apply not_true_iff_false. rewrite present_spec in *.
  intros [H|[[a H]|[a H]]]; apply Hx; [left; set_solver|right; left|right; right]; exists a; by eapply lookup_weaken.
Qed.

Section Removes.
Context (rio : removeIO).
Lemma os_Remove_shrinks fs p : shrinks fs (fst (os_Remove fs rio p)).
Proof. unfold os_Remove. case_if; [reflexivity|]. case_match; [reflexivity|]. case_if; [reflexivity|]. apply drop_at_shrinks. Qed.
Lemma os_Remove_same fs p x : x <> place fs p -> same_at x fs (fst (os_Remove fs rio p)).
Proof.
  intros Hx. unfold os_Remove. case_if; [reflexivity|]. case_match; [reflexivity|]. case_if; [reflexivity|].
  apply drop_at_same. by apply bool_decide_eq_false.
Qed.
Lemma drop_at_gone fs gone x : gone x = true -> present (drop_at fs gone) x = false.
Proof.
  intros Hx. apply not_true_iff_false. rewrite present_spec. cbn. rewrite elem_of_filter.
  intros [[H _]|[[a H]|[a H]]]; [congruence| |]; apply map_lookup_filter_Some in H as [_ H]; cbn in H; congruence.
Qed.
(** Afterwards the path is free, or the error says why not. *)
Lemma os_Remove_gone fs p fs' r : os_Remove fs rio p = (fs', r) -> r = None \/ r = Some ENOENT -> fs_ok fs ->
  refuses rio p <> Some ENOENT -> present fs' (place fs p) = false.
Proof.
  unfold os_Remove. intros Hr Hc Hok Hen. case_if_in Hr; [injection Hr as <- <-; by bprop|].
  destruct (refuses rio p) as [e|]; [injection Hr as <- <-; destruct Hc; congruence|].
  case_if_in Hr; [injection Hr as <- <-; destruct Hc; congruence|]. injection Hr as <- <-. apply drop_at_gone. by apply bool_decide_eq_true.
Qed.
(** Removing keeps the tree a tree: a directory goes only when it is empty. *)
Lemma os_Remove_ok fs p : fs_ok fs -> fs_ok (fst (os_Remove fs rio p)).
Proof.
  intros Hok. pose proof (one_kind_shrinks _ _ (os_Remove_shrinks fs p) (fs_ok_one_kind _ Hok)) as [H1 H2 H3].
  split; [|done|done|done]. intros x n Hx Hn. pose proof (os_Remove_same fs p (take n x)) as Hsame.
  assert (Hxp : present fs x = true).
  { apply not_false_iff_true. intros Hf. by rewrite (present_shrinks _ _ x (os_Remove_shrinks fs p) Hf) in Hx. }
  pose proof (ok_parents _ Hok x n Hxp Hn) as Hd.
  destruct (decide (take n x = place fs p)) as [Hq|Hq]; [|by apply (Hsame Hq)].
  revert Hx. unfold os_Remove. case_if; [done|]. case_match; [done|]. rewrite <- Hq, (bool_decide_eq_true_2 _ Hd). cbn [andb].
  assert (Hc : take (S n) x ∈ children fs (take n x)).
  { apply list_elem_of_In, List.filter_In. split.
    - apply list_elem_of_In, all_paths_spec. destruct (decide (S n < length x)%nat) as [Hl|Hl].
      + apply present_spec. left. by apply (ok_parents _ Hok).
      + by rewrite take_ge by lia.
    - destruct (lookup_lt_is_Some_2 x n Hn) as [e He]. rewrite (take_S_r x n e He).
      by rewrite (proj2 (strip_spec (take n x) (take n x ++ [e]) [e])). }
  destruct (children fs (take n x)) as [|y l]; [by apply not_elem_of_nil in Hc|]. done.
Qed.
End Removes.

Section Deletes.
Context (dio : deleteIO).

Lemma prune_loop_ok levels fs dir sp : fs_ok fs -> fs_ok (prune_loop dio levels fs dir sp).
Proof.
  revert fs dir. induction levels as [|levels IH]; intros fs dir Hk; [done|]. cbn [prune_loop]. case_if; [done|].
  destruct (read_dir dio fs dir) as [[|x l]|]; try done. pose proof (os_Remove_ok (dremovals dio) fs dir Hk) as Hr.
  destruct (os_Remove fs (dremovals dio) dir) as [fs' [e|]]; cbn [fst] in Hr; [done|]. by apply IH.
Qed.
Lemma deleteSidecars_ok fs real : fs_ok fs -> fs_ok (deleteSidecars dio fs real).
Proof.
  intros Hok. unfold deleteSidecars. destruct (trim_suffix _ _); [done|]. destruct (read_dir dio fs (parent real)); [|done].
  apply (fold_left_inv fs_ok); [done|]. intros fs2 x _ H2. case_if; [done|]. by apply os_Remove_ok.
Qed.
Lemma deleteOne_ok fs filePath sp : fs_ok fs -> fs_ok (fst (deleteOne dio fs filePath sp)).
Proof.
  intros Hok. unfold deleteOne. case_if; [done|]. case_if; [done|].
  destruct (eval_links fs (elems_of filePath)) as [real|]; case_if; try done; [|by apply prune_loop_ok].
  pose proof (os_Remove_ok (dremovals dio) fs real Hok) as Hr.
  destruct (os_Remove fs (dremovals dio) real) as [fs1 [[]|]]; cbn [fst] in *; try done; by apply prune_loop_ok, deleteSidecars_ok.
Qed.

(** Pruning takes no file. *)
Lemma prune_loop_files levels fs dir sp :
  one_kind fs -> shrinks fs (prune_loop dio levels fs dir sp) /\ fdata (prune_loop dio levels fs dir sp) = fdata fs.
Proof.
  revert fs dir. induction levels as [|levels IH]; intros fs dir Hk; [split; reflexivity|]. cbn [prune_loop].
  case_if; [split; reflexivity|]. destruct (read_dir dio fs dir) as [[|x l]|] eqn:Er; try (split; reflexivity).
  unfold read_dir in Er. case_if_in Er; [|done]. bprop.
  assert (Hf : fdata (fst (os_Remove fs (dremovals dio) dir)) = fdata fs).
  { apply map_eq. intros x. destruct (decide (x = place fs dir)) as [->|Hx]; [|symmetry; by apply sa_files, os_Remove_same].
    assert (Hn : fdata fs !! place fs dir = None).
    { destruct (fdata fs !! place fs dir) as [d|] eqn:Ef; [exfalso|done].
      pose proof (ok3 _ Hk (place fs dir) ltac:(eauto)) as Hl. enough (followed fs dir = place fs dir) as Hs.
      { rewrite Hs in *. match goal with H : place fs dir ∈ dirs fs |- _ => apply (ok2 _ Hk) in H end. congruence. }
      destruct dir as [|a dir']; [done|]. unfold followed, place in *. rewrite (parent_name (a :: dir')) at 1 by done.
      rewrite follow_app. cbn [follow]. by rewrite Hl. }
    rewrite Hn. eapply lookup_weaken_None; [exact Hn|]. apply sh_files, os_Remove_shrinks. }
  pose proof (os_Remove_shrinks (dremovals dio) fs dir) as Hs.
  destruct (os_Remove fs (dremovals dio) dir) as [fs' [e|]]; cbn [fst] in *; [done|].
  destruct (IH fs' (parent dir)) as [I1 I2]; [by eapply one_kind_shrinks|]. split; [by etrans|congruence].
Qed.

(** A companion of the video [real]. *)
Definition companion (real x : path) : Prop :=
  parent x = parent real /\ x <> [] /\ sidecar_of (name_of real) (name_of x) = true.
Lemma place_sibling fs fs' real n :
  fs_ok fs -> present fs real = true -> real <> [] -> shrinks fs fs' -> place fs' (parent real ++ [n]) = parent real ++ [n].
Proof.
  intros Hok Hp Hn Hs. apply place_direct. intros k Hk. rewrite length_app, parent_length in Hk. cbn in Hk.
  eapply lookup_weaken_None; [|by apply sh_links in Hs]. destruct real as [|a real']; [done|]. cbn [length] in Hk.
  rewrite take_app_le by (rewrite parent_length; cbn; lia). rewrite take_parent by (cbn; lia).
  apply (present_prefix fs Hok); [done|cbn; lia].
Qed.
Lemma deleteSidecars_spec fs fs1 real :
  fs_ok fs -> present fs real = true -> real <> [] -> shrinks fs fs1 ->
  shrinks fs1 (deleteSidecars dio fs1 real) /\ forall x, ~ companion real x -> same_at x fs1 (deleteSidecars dio fs1 real).
Proof.
  intros Hok Hp Hn Hs. unfold deleteSidecars. destruct (trim_suffix (name_of real) (Ext (name_of real))); [by split|].
  destruct (read_dir dio fs1 (parent real)) as [entries|]; [|by split].
  apply (fold_left_inv (fun fs2 => shrinks fs1 fs2 /\ forall x, ~ companion real x -> same_at x fs1 fs2)); [by split|].
  intros fs2 x _ [H1 H2]. case_if; [done|]. bprop. split; [etrans; [exact H1|apply os_Remove_shrinks]|].
  intros y Hy. etrans; [by apply H2|]. apply os_Remove_same. rewrite (place_sibling fs fs2 real) by (done || by etrans).
  intros ->. apply Hy. split_and!; [by rewrite parent_snoc|by destruct (parent real)|by rewrite name_snoc].
Qed.

Lemma eval_links_present fs p q : eval_links fs p = Some q -> present fs q = true.
Proof. unfold eval_links. intros He. case_if_in He; [|done]. injection He as <-. apply orb_true_iff in E. unfold present. destruct E as [-> | ->]; by rewrite ?orb_true_r. Qed.

(** What one deletion takes: the file the path leads to and its companions. *)
Lemma deleteOne_files fs filePath sp fs' r x :
  fs_ok fs -> deleteOne dio fs filePath sp = (fs', r) ->
  shrinks fs fs' /\
  (fdata fs' !! x = fdata fs !! x \/
   exists real, eval_links fs (elems_of filePath) = Some real /\ strictly_below (resolvedRoots fs sp) real /\ (x = real \/ companion real x)).
Proof.
  intros Hok. unfold deleteOne. case_if; [intros [= <- <-]; by split; [|left]|]. case_if; [intros [= <- <-]; by split; [|left]|].
  destruct (eval_links fs (elems_of filePath)) as [real|] eqn:Er.
  2:{ case_if; intros [= <- <-]; [by split; [|left]|].
      destruct (prune_loop_files maxLevels fs (parent (elems_of filePath)) sp (fs_ok_one_kind _ Hok)) as [P1 P2].
      split; [done|left]. by rewrite <- P2. }
  case_if; [intros [= <- <-]; by split; [|left]|]. bprop. match goal with H : isWithinScanPaths real _ = true |- _ => apply isWithin_strict in H as Hw end.
  pose proof (eval_links_present _ _ _ Er) as Hp.
  assert (Hn : real <> []) by (intros ->; destruct Hw as (? & ? & _ & Hx & ?); symmetry in Hx; by apply app_eq_nil in Hx as [_ ?]).
  pose proof (os_Remove_shrinks (dremovals dio) fs real) as H1.
  pose proof (os_Remove_same (dremovals dio) fs real) as H2. rewrite (present_place fs Hok real Hp) in H2.
  destruct (os_Remove fs (dremovals dio) real) as [fs1 r1]. cbn [fst] in *.
  destruct (deleteSidecars_spec fs fs1 real Hok Hp Hn H1) as [S1 S2].
  assert (Hk : one_kind (deleteSidecars dio fs1 real)).
  { eapply one_kind_shrinks; [exact S1|]. eapply one_kind_shrinks; [exact H1|]. by apply fs_ok_one_kind. }
  destruct (prune_loop_files maxLevels _ (parent real) (resolvedRoots fs sp) Hk) as [P1 P2].
  assert (Hend : forall fs2, fs2 = fs1 \/ fs2 = pruneEmptyDirs dio (deleteSidecars dio fs1 real) (parent real) (resolvedRoots fs sp) ->
    shrinks fs fs2 /\ (fdata fs2 !! x = fdata fs !! x \/ x = real \/ companion real x)).
  { intros fs2 [->| ->].
    - split; [done|]. destruct (decide (x = real)) as [->|Hx]; [by right; left|left]. symmetry. by apply sa_files, H2.
    - split; [by repeat (etrans; [eassumption|])|]. destruct (decide (x = real)) as [->|Hx]; [by right; left|].
      unfold pruneEmptyDirs. rewrite P2. destruct (decide (parent x = parent real /\ x <> [] /\ sidecar_of (name_of real) (name_of x) = true)) as [Hc|Hc]; [by right; right|left].
      rewrite <- (sa_files _ _ _ (S2 x Hc)). symmetry. by apply sa_files, H2. }
  intros He. assert (Hfs : fs' = fs1 \/ fs' = pruneEmptyDirs dio (deleteSidecars dio fs1 real) (parent real) (resolvedRoots fs sp)).
  { destruct r1 as [[]|]; injection He as <- <-; by (left + right). }
  destruct (Hend fs' Hfs) as [Z1 Z2]. split; [done|]. destruct Z2 as [Z2|Z2]; [by left|right]. eauto.
Qed.
End Deletes.

(** * Theorems *)

(** Every deletion happens in a state that earlier ones left. *)
Lemma delete_fold_files dio sp items : forall fs c f fs' c' f' x,
  fs_ok fs -> fold_left (delete_item dio sp) items (fs, c, f) = (fs', c', f') ->
  shrinks fs fs' /\
  (fdata fs' !! x = fdata fs !! x \/
   exists item fs1 real, item ∈ items /\ shrinks fs fs1 /\ eval_links fs1 (elems_of (FilePath item)) = Some real /\
     strictly_below (resolvedRoots fs1 sp) real /\ (x = real \/ companion real x)).
Proof.
  induction items as [|item items IH]; intros fs c f fs' c' f' x Hok; cbn [fold_left]; [intros [= <- <- <-]; by split; [|left]|].
  intros Hf. destruct (delete_item dio sp (fs, c, f) item) as [[fs1 c1] f1] eqn:Ei.
  assert (H1 : fs_ok fs1 /\ shrinks fs fs1 /\ (fdata fs1 !! x = fdata fs !! x \/
    exists real, eval_links fs (elems_of (FilePath item)) = Some real /\ strictly_below (resolvedRoots fs sp) real /\ (x = real \/ companion real x))).
  { unfold delete_item in Ei. case_if_in Ei; [injection Ei as <- <- <-; by split_and!; [| |left]|].
    pose proof (deleteOne_ok dio fs (FilePath item) sp Hok) as Ho.
    destruct (deleteOne dio fs (FilePath item) sp) as [fs2 r] eqn:Ed. cbn [fst] in Ho.
    destruct (deleteOne_files dio fs (FilePath item) sp fs2 r x Hok Ed) as [D1 D2]. destruct r; injection Ei as <- <- <-; done. }
  destruct H1 as (O1 & S1 & X1). destruct (IH _ _ _ _ _ _ x O1 Hf) as [S2 X2]. split; [by etrans|].
  destruct X2 as [X2|(it & fs2 & real & Hi & Hs & Hrest)].
  - rewrite X2. destruct X1 as [X1|(real & R1 & R2 & R3)]; [by left|right]. exists item, fs, real. split_and!; try done. by left.
  - right. exists it, fs2, real. split_and!; try apply Hrest; [by right|by etrans].
Qed.

(** Subtitles, metadata, artwork and recovery data. *)
Definition companionExts : list bytes :=
  map str [".srt"; ".sub"; ".ass"; ".ssa"; ".vtt"; ".idx"; ".nfo"; ".jpg"; ".jpeg"; ".png"; ".par2"]%string.
(** C39: A deletion takes what was asked for and its companions by name, nothing else.  A file that is gone afterwards is the
    file a requested path led to, below a resolved scan path, or a file beside it that is no video, has one of the
    extensions of subtitles, artwork, metadata and recovery data, and whose name continues the name of the video after a
    dot or a dash.  (By that rule the subtitle of a neighbour whose dotted name continues the deleted one goes too: see
    [neighbour_subtitle_deleted].)  Links are followed as they were when the request was served. *)
Theorem delete_only_requested dio fs items scanPaths fs' confirmed failed x data :
  fs_ok fs -> DeleteFiles dio fs items scanPaths = (fs', confirmed, failed) -> fdata fs !! x = Some data ->
  fdata fs' !! x = Some data \/
  exists item fs1 real, item ∈ items /\ shrinks fs fs1 /\ eval_links fs1 (elems_of (FilePath item)) = Some real /\
    strictly_below (resolvedRoots fs1 (map elems_of (List.filter is_abs scanPaths))) real /\
    (x = real \/ parent x = parent real /\ isVideoFile (name_of x) = false /\ ToLower (Ext (name_of x)) ∈ companionExts /\
       exists sep rest, name_of x = trim_suffix (name_of real) (Ext (name_of real)) ++ sep :: rest /\ (sep = DOT \/ sep = 45)).
Proof.
  intros Hok Hd Hx. unfold DeleteFiles in Hd. destruct (map elems_of (List.filter is_abs scanPaths)) as [|s0 ss] eqn:Es.
  - injection Hd as <- <- <-. by left.
  - destruct (delete_fold_files dio _ items fs [] [] fs' confirmed failed x Hok Hd) as [_ [Hs|Hs]]; [left; congruence|right].
    destruct Hs as (item & fs1 & real & H1 & H2 & H3 & H4 & H5). exists item, fs1, real. split_and!; try done.
    destruct H5 as [->|(C1 & C2 & C3)]; [by left|right]. unfold sidecar_of in C3. bprop. split_and!; try done.
    { match goal with H : existsb _ _ = true |- _ => apply existsb_exists in H as (e & He & Hq) end. apply bytes_eqb_eq in Hq as ->. by apply list_elem_of_In. }
    match goal with H : SidecarBelongsTo _ _ = true |- _ => unfold SidecarBelongsTo in H;
      destruct (cut_prefix _ (name_of x)) as [[|b rest]|] eqn:Ec in H; try done; rename H into Hb end.
    apply cut_prefix_Some in Ec. exists b, rest. split; [done|]. apply orb_true_iff in Hb as [Hb|Hb]; bprop; tauto.
Qed.

(** The answers to a request. *)
Definition outside (sp : list path) (item : LibraryDeleteRequest) : bool :=
  is_abs (FilePath item) && negb (isWithinScanPaths (elems_of (FilePath item)) sp).
Definition gone_in (fs fs' : FS) (item : LibraryDeleteRequest) : Prop :=
  is_abs (FilePath item) = true /\ exists fs1, shrinks fs fs1 /\
    match eval_links fs1 (elems_of (FilePath item)) with Some real => present fs' real = false | None => True end.
Definition answered (sp : list path) (fs fs' : FS) (confirmed : list Z) (failed : list (Z * deleteErr)) (item : LibraryDeleteRequest) : Prop :=
  if outside sp item then ItemID item ∉ confirmed /\ ItemID item ∉ map fst failed
  else ItemID item ∈ confirmed /\ ItemID item ∉ map fst failed /\ gone_in fs fs' item \/
       ItemID item ∉ confirmed /\ ItemID item ∈ map fst failed.

Lemma gone_shrinks fs fs1 fs2 item : shrinks fs1 fs2 -> gone_in fs fs1 item -> gone_in fs fs2 item.
Proof.
  intros Hs [Ha (fs0 & H0 & H1)]. split; [done|]. exists fs0. split; [done|].
  destruct (eval_links fs0 (elems_of (FilePath item))); [|done]. by eapply present_shrinks.
Qed.
(** An answer is not changed by one about another item. *)
Lemma answered_mono sp fs fs1 fs2 c f item id e :
  shrinks fs1 fs2 -> ItemID item <> id -> answered sp fs fs1 c f item ->
  answered sp fs fs2 c f item /\ answered sp fs fs2 (c ++ [id]) f item /\ answered sp fs fs2 c (f ++ [(id, e)]) item.
Proof.
  intros Hs Hne. unfold answered. rewrite !map_app. cbn [map fst].
  assert (Hc : ItemID item ∈ c ++ [id] <-> ItemID item ∈ c) by (rewrite elem_of_app, list_elem_of_singleton; naive_solver).
  assert (Hf : ItemID item ∈ map fst f ++ [id] <-> ItemID item ∈ map fst f) by (rewrite elem_of_app, list_elem_of_singleton; naive_solver).
  destruct (outside sp item); rewrite Hc, Hf; [done|]. intros [(H1 & H2 & H3)|H]; [|by split_and!; right].
  apply (gone_shrinks _ _ _ _ Hs) in H3. by split_and!; left.
Qed.
Lemma deleteOne_gone dio fs filePath sp fs' :
  (forall p, refuses (dremovals dio) p <> Some ENOENT) -> fs_ok fs -> deleteOne dio fs filePath sp = (fs', None) ->
  is_abs filePath = true /\ match eval_links fs (elems_of filePath) with Some real => present fs' real = false | None => True end.
Proof.
  intros Hen Hok. unfold deleteOne. case_if; [done|]. bprop. case_if; [done|]. intros Hd. split; [done|].
  destruct (eval_links fs (elems_of filePath)) as [real|] eqn:Er; [|done]. case_if_in Hd; [done|].
  pose proof (eval_links_present _ _ _ Er) as Hp. destruct (os_Remove fs (dremovals dio) real) as [fs1 r1] eqn:Eo.
  pose proof (os_Remove_ok (dremovals dio) fs real Hok) as Ho. rewrite Eo in Ho. cbn in Ho.
  assert (Hr : r1 = None \/ r1 = Some ENOENT) by (destruct r1 as [[]|]; (by left) || (by right) || done).
  pose proof (os_Remove_gone _ _ _ _ _ Eo Hr Hok (Hen real)) as Hg. rewrite (present_place fs Hok real Hp) in Hg.
  assert (fs' = pruneEmptyDirs dio (deleteSidecars dio fs1 real) (parent real) (resolvedRoots fs sp)) as ->
    by (destruct Hr as [-> | ->]; by injection Hd as <-).
  eapply present_shrinks; [apply prune_loop_files, fs_ok_one_kind; by apply deleteSidecars_ok|].
  eapply present_shrinks; [|exact Hg]. unfold deleteSidecars. destruct (trim_suffix _ _); [reflexivity|].
  destruct (read_dir dio fs1 (parent real)); [|reflexivity]. apply (fold_left_inv (shrinks fs1)); [reflexivity|].
  intros fs2 x _ H2. case_if; [done|]. etrans; [exact H2|]. apply os_Remove_shrinks.
Qed.

(** The state after some items: all of them answered, and nobody else. *)
Record served (sp : list path) (fs : FS) (items : list LibraryDeleteRequest) (st : FS * list Z * list (Z * deleteErr)) : Prop := {
  sv_ok : fs_ok (fst (fst st)); sv_shrinks : shrinks fs (fst (fst st));
  sv_ids : forall id, id ∈ snd (fst st) \/ id ∈ map fst (snd st) -> id ∈ map ItemID items;
  sv_answered : Forall (answered sp fs (fst (fst st)) (snd (fst st)) (snd st)) items
}.
Lemma served_step dio sp fs items st item :
  (forall p, refuses (dremovals dio) p <> Some ENOENT) -> ItemID item ∉ map ItemID items ->
  served sp fs items st -> served sp fs (items ++ [item]) (delete_item dio sp st item).
Proof.
  intros Hen Hn [I1 I2 I3 I4]. destruct st as [[fs1 c1] f1]. cbn [fst snd] in *.
  assert (Hid : forall it, it ∈ items -> ItemID it <> ItemID item).
  { intros it Hi Heq. apply Hn. rewrite <- Heq. apply list_elem_of_fmap. eauto. }
  assert (Hc1 : ItemID item ∉ c1 /\ ItemID item ∉ map fst f1) by (split; intros Hx; apply Hn, I3; tauto).
  rewrite Forall_forall in I4. unfold delete_item. fold (outside sp item). destruct (outside sp item) eqn:Eo.
  { split; cbn [fst snd]; [done|done|intros id Hx; rewrite map_app; apply elem_of_app; left; by apply I3|].
    apply Forall_app. split; [by apply Forall_forall|]. apply Forall_singleton. unfold answered. by rewrite Eo. }
  pose proof (deleteOne_ok dio fs1 (FilePath item) sp I1) as Ho. destruct (deleteOne dio fs1 (FilePath item) sp) as [fs2 r] eqn:Ed.
  destruct (deleteOne_files dio fs1 (FilePath item) sp fs2 r [] I1 Ed) as [Hs _]. cbn [fst] in Ho.
  destruct r as [e|]; (split; cbn [fst snd]; [done|by etrans| |apply Forall_app; split]).
  - intros id. rewrite !map_app, !elem_of_app. cbn. specialize (I3 id). tauto.
  - apply Forall_forall. intros it Hi. eapply answered_mono; [exact Hs|by apply Hid|by apply I4].
  - apply Forall_singleton. unfold answered. rewrite Eo. right. rewrite map_app. split; [apply Hc1|]. apply elem_of_app. right. by left.
  - intros id. rewrite map_app, !elem_of_app. cbn. specialize (I3 id). tauto.
  - apply Forall_forall. intros it Hi. eapply (answered_mono sp fs fs1 fs2 c1 f1 it _ DOutside); [exact Hs|by apply Hid|by apply I4].
  - apply Forall_singleton. unfold answered. rewrite Eo. left. split_and!; [apply elem_of_app; right; by left|apply Hc1|].
    destruct (deleteOne_gone dio fs1 _ sp fs2 Hen I1 Ed) as [G1 G2]. split; [done|]. by exists fs1.
Qed.

(** Every request gets one answer.  An item outside the scan paths is answered neither way, so that its owner still gets it;
    every other item is either confirmed or failed, and a confirmed one has an absolute path whose file is no longer there. *)
Lemma delete_answers dio fs items scanPaths fs' confirmed failed :
  (forall p, refuses (dremovals dio) p <> Some ENOENT) -> fs_ok fs -> NoDup (map ItemID items) -> existsb is_abs scanPaths = true ->
  DeleteFiles dio fs items scanPaths = (fs', confirmed, failed) ->
  Forall (answered (map elems_of (List.filter is_abs scanPaths)) fs fs' confirmed failed) items.
Proof.
  intros Hen Hok Hnd Hsp Hd. unfold DeleteFiles in Hd.
  destruct (map elems_of (List.filter is_abs scanPaths)) as [|s0 ss] eqn:Es.
  { exfalso. apply existsb_exists in Hsp as (s & Hs & Ha). apply map_eq_nil in Es.
    assert (Hin : In s (List.filter is_abs scanPaths)) by (by apply List.filter_In). by rewrite Es in Hin. }
  set (sp := s0 :: ss) in *. clearbody sp. clear Es Hsp.
  assert (Hserved : served sp fs items (fold_left (delete_item dio sp) items (fs, [], []))).
  { clear Hd. induction items as [|item items IH] using rev_ind; [split; cbn; [done|reflexivity|by intros id [?|?]|constructor]|].
    rewrite map_app in Hnd. apply NoDup_app in Hnd as (N1 & N2 & _). rewrite fold_left_app. cbn [fold_left].
    apply served_step; [done| |by apply IH]. intros Hx. apply (N2 _ Hx). by left. }
  rewrite Hd in Hserved. apply (sv_answered _ _ _ _ Hserved).
Qed.

(** ** The scan paths *)

Lemma unique_paths_elem l seen p : p ∈ unique_paths seen l <-> p ∈ l /\ p ∉ seen.
Proof.
  revert seen. induction l as [|q l IH]; intros seen; cbn; [set_solver|]. case_bool_decide as E.
  - rewrite IH, elem_of_cons. naive_solver.
  - rewrite !elem_of_cons, IH, not_elem_of_cons. destruct (decide (p = q)); naive_solver.
Qed.
Lemma is_child_spec p q : is_child p q = true <-> exists e r, p = q ++ e :: r /\ has_prefix (str "..") e = false.
Proof.
  unfold is_child, isWithinScanPaths. cbn [existsb]. rewrite orb_false_r. split.
  - destruct (strip q p) as [[|e r]|] eqn:E; try done. apply strip_spec in E. intros Hn%negb_true_iff. eauto.
  - intros (e & r & Hp & He). apply strip_spec in Hp as ->. by rewrite He.
Qed.
Lemma is_child_trans a b c : is_child a b = true -> is_child b c = true -> is_child a c = true.
Proof.
  rewrite !is_child_spec. intros (e & r & -> & He) (e' & r' & -> & He'). exists e', (r' ++ e :: r). split; [by rewrite <- app_assoc|done].
Qed.
Lemma is_child_shorter a b : is_child a b = true -> (length b < length a)%nat.
Proof. rewrite is_child_spec. intros (e & r & -> & _). rewrite length_app. cbn. lia. Qed.

(** The scan paths cover the configured folders once: every folder is one of them or lies below one, and none lies below another. *)
Lemma scan_paths_cover dl movies tv extra :
  let result := ResolveScanPaths dl movies tv extra in
  Forall (fun p => exists q, q ∈ result /\ (q = p \/ is_child p q = true)) (omap id [dl; movies; tv; extra]) /\
  Forall (fun p => Forall (fun q => is_child p q = false) result) result.
Proof.
  unfold ResolveScanPaths. set (l := omap id [dl; movies; tv; extra]). clearbody l. cbn zeta. unfold deduplicatePaths.
  set (u := unique_paths [] l). assert (Hu : forall p, p ∈ u <-> p ∈ l) by (intros p; unfold u; rewrite unique_paths_elem; set_solver).
  clearbody u. set (top := fun p => negb (existsb (fun other => negb (bool_decide (other = p)) && is_child p other) u)).
  split; apply Forall_forall; intros p Hp.
  - apply Hu in Hp. revert p Hp. apply (induction_ltof1 path (@length _) (fun p => p ∈ u -> _)). unfold ltof. intros p IH Hp.
    destruct (top p) eqn:Et; [exists p; split; [|by left]; by apply list_elem_of_In, List.filter_In; split; [apply list_elem_of_In|]|].
    unfold top in Et. apply negb_false_iff, existsb_exists in Et as (o & Ho & Hc). bprop. apply list_elem_of_In in Ho.
    match goal with H : is_child p o = true |- _ => rename H into Hpo end.
    destruct (IH o (is_child_shorter _ _ Hpo) Ho) as (q & Hq & Hqo). exists q. split; [done|right].
    destruct Hqo as [->|Hoq]; [done|by eapply is_child_trans].
  - apply Forall_forall. intros q Hq. apply list_elem_of_In, List.filter_In in Hp as [_ Ht]. apply list_elem_of_In, List.filter_In in Hq as [Hq _].
    destruct (is_child p q) eqn:Ec; [exfalso|done]. unfold top in Ht. apply negb_true_iff in Ht. apply not_true_iff_false in Ht.
    apply Ht. apply existsb_exists. exists q. split; [done|]. rewrite Ec, andb_true_r. apply negb_true_iff, bool_decide_eq_false.
    intros ->. apply is_child_shorter in Ec. lia.
Qed.

(** * Demonstrations *)

Definition obliging : deleteIO := mkDeleteIO (fun _ => true) (fun _ => true) obeys.
Definition shelf : FS :=
  tree [] [] [(at_ "/m/Dune/Dune.mkv", str "part one"); (at_ "/m/Dune/Dune.es.srt", str "hola"); (at_ "/m/Dune/Dune Two.srt", str "two");
              (at_ "/m/Dune/Dune.Part.Two.mkv", str "part two"); (at_ "/m/Dune/Dune.Part.Two.srt", str "hello")].
Definition ask (id : Z) (p : string) : LibraryDeleteRequest := mkRequest id (str p).
Definition after (fs : FS) (items : list LibraryDeleteRequest) (scanPaths : list bytes) : FS :=
  fst (fst (DeleteFiles obliging fs items scanPaths)).
Definition requests : list LibraryDeleteRequest := [ask 1 "/m/Dune/Dune.mkv"; ask 2 "/n/other.mkv"; ask 3 "relative.mkv"].
Lemma shelf_ok : fs_ok shelf.
Proof. apply fs_okb_ok. vm_compute. reflexivity. Qed.
Lemma served_requests :
  DeleteFiles obliging shelf requests [str "/m"] = (after shelf requests [str "/m"], [1], [(3, DNotAbsolute)]).
Proof.
  unfold after. set (r := DeleteFiles obliging shelf requests [str "/m"]).
  assert (H2 : (snd (fst r), snd r) = ([1], [(3, DNotAbsolute)])) by (vm_compute; reflexivity).
  clearbody r. destruct r as [[fs c] f]. cbn in *. by injection H2 as -> ->.
Qed.

Lemma delete_only_requested_witness :
  let fs' := after shelf requests [str "/m"] in
  fdata fs' !! at_ "/m/Dune/Dune.Part.Two.mkv" = Some (str "part two") \/
  exists item fs1 real, item ∈ requests /\ shrinks shelf fs1 /\ eval_links fs1 (elems_of (FilePath item)) = Some real /\
    strictly_below (resolvedRoots fs1 (map elems_of (List.filter is_abs [str "/m"]))) real /\
    (at_ "/m/Dune/Dune.Part.Two.mkv" = real \/ parent (at_ "/m/Dune/Dune.Part.Two.mkv") = parent real /\
       isVideoFile (name_of (at_ "/m/Dune/Dune.Part.Two.mkv")) = false /\ ToLower (Ext (name_of (at_ "/m/Dune/Dune.Part.Two.mkv"))) ∈ companionExts /\
       exists sep rest, name_of (at_ "/m/Dune/Dune.Part.Two.mkv") = trim_suffix (name_of real) (Ext (name_of real)) ++ sep :: rest /\ (sep = DOT \/ sep = 45)).
Proof.
  apply (delete_only_requested obliging shelf requests [str "/m"] (after shelf requests [str "/m"]) [1] [(3, DNotAbsolute)]).
  - exact shelf_ok.
  - exact served_requests.
  - vm_compute. reflexivity.
Defined.
Lemma delete_answers_witness :
  Forall (answered (map elems_of (List.filter is_abs [str "/m"])) shelf (after shelf requests [str "/m"]) [1] [(3, DNotAbsolute)]) requests.
Proof.
  apply (delete_answers obliging shelf requests [str "/m"] (after shelf requests [str "/m"]) [1] [(3, DNotAbsolute)]).
  - discriminate.
  - exact shelf_ok.
  - apply (bool_decide_eq_true_1 _). vm_compute. reflexivity.
  - reflexivity.
  - exact served_requests.
Defined.

(** The subtitle of a film whose dotted name continues the deleted one goes with it, while its film stays. *)
Lemma neighbour_subtitle_deleted :
  let fs := after shelf [ask 1 "/m/Dune/Dune.mkv"] [str "/m"] in
  fdata fs !! at_ "/m/Dune/Dune.Part.Two.mkv" = Some (str "part two") /\ fdata fs !! at_ "/m/Dune/Dune.Part.Two.srt" = None /\
  fdata fs !! at_ "/m/Dune/Dune Two.srt" = Some (str "two").
Proof. split_and!; vm_compute; reflexivity. Qed.
(** A configured folder below another is no scan path, and is pruned with its last film. *)
Lemma configured_folder_pruned :
  let paths := ResolveScanPaths (Some (at_ "/m")) (Some (at_ "/m/Movies")) None None in
  let fs := after (tree [] [] [(at_ "/m/Movies/F.mkv", str "film")]) [ask 1 "/m/Movies/F.mkv"] (map render paths) in
  present fs (at_ "/m/Movies") = false.
Proof. vm_compute. reflexivity. Qed.
(** A file that is gone below a link: the empty directory the link leads to is removed, outside the scan paths. *)
Lemma pruned_through_link :
  let fs := tree [at_ "/other/sub"] [(at_ "/m/link", at_ "/other")] [] in
  present (after fs [ask 1 "/m/link/sub/gone.mkv"] [str "/m"]) (at_ "/other/sub") = false.
Proof. vm_compute. reflexivity. Qed.
