(* ===== verification/SeekIndex.v ===== *)
(** Seek tables of media containers: internal/library/mediainfo/seekindex.go,
    seekindex_matroska.go and seekindex_mp4.go.

    The reader fetches blocks of a file or of a URL within a budget; parsers walk
    Matroska elements and MP4 boxes with it and give the times of key frames.  The
    reader's state is threaded by a small monad whose errors include the run-time
    panics of indexing, so that "never panics" can be stated.  float64 is the
    binary64 format of the standard library's [SpecFloat]. *)
From Stdlib Require Import ZArith Lia Ascii String SpecFloat.
From stdpp Require Import prelude list strings sorting gmap.
From S2P Require Import Prelude GoStrings.

Open Scope Z_scope.

(** * float64 *)

Abbreviation float64 := spec_float.
Definition f64_of_Z (z : Z) : float64 := binary_normalize 53 1024 z 0 false.
Definition f64_add : float64 -> float64 -> float64 := SFadd 53 1024.
Definition f64_sub : float64 -> float64 -> float64 := SFsub 53 1024.
Definition f64_mul : float64 -> float64 -> float64 := SFmul 53 1024.
Definition f64_div : float64 -> float64 -> float64 := SFdiv 53 1024.
Definition f64_ltb : float64 -> float64 -> bool := SFltb.
Definition f64_leb : float64 -> float64 -> bool := SFleb.
Definition f64_zero : float64 := S754_zero false.
Definition IsNaN (x : float64) : bool := match x with S754_nan => true | _ => false end.
Definition IsInf (x : float64) : bool := match x with S754_infinity _ => true | _ => false end.
(** math.Max(0, t) *)
Definition max_zero (t : float64) : float64 :=
  match t with
  | S754_infinity false => t
  | S754_nan => t
  | S754_finite false _ _ => t
  | _ => f64_zero
  end.

(** * The reader *)

Definition card (g : gset Z) : nat := base.size g.

Definition seekBlockSize : Z := 64 * 1024.
Definition seekIndexBudget : Z := 32 * 1024 * 1024.
Inductive seekErr := errSeekIndex | ErrUnexpectedEOF | ErrContext | ErrRead | Panic.

(** What a server answers; the range header as fmt.Sscanf reads it.  The body is the bytes it
    sends and whether an error follows them. *)
Record httpResponse := mkResponse {
  StatusCode : Z; contentRange : option (Z * Z * Z); contentEncoding : bytes; ETag : bytes; lastModified : bytes;
  respBody : bytes; bodyErr : bool
}.
(** A file whose blocks can be read or not, or a server asked for the k-th time. *)
Inductive source :=
| LocalFile (data : bytes) (readable : Z -> bool)
| Remote (answer : nat -> Z -> Z -> option httpResponse).

(** [spent] is the source's count of bytes; [fetched] records what was really read from the
    file or the server, [asked] the requests made. *)
Record seekReader := mkReader { size : Z; blocks : gmap Z (list Z); spent : Z; validator : bytes; asked : nat; checked : nat; fetched : Z }.
Definition M (A : Type) : Type := seekReader -> result seekErr A * seekReader.
Definition ret {A} (a : A) : M A := fun r => (Ok a, r).
Definition fail {A} (e : seekErr) : M A := fun r => (Err e, r).
Definition bindM {A B} (m : M A) (k : A -> M B) : M B :=
  fun r => match m r with (Ok a, r') => k a r' | (Err e, r') => (Err e, r') end.
Definition get_size : M Z := fun r => (Ok (size r), r).
(** The error replaced, as in "if err != nil { return errSeekIndex }"; a panic is not caught. *)
Definition orElse {A} (m : M A) (e : seekErr) : M A :=
  fun r => match m r with (Err Panic, r') => (Err Panic, r') | (Err _, r') => (Err e, r') | ok => ok end.
(** The error ignored, as in "x, _ := f()". *)
Definition orNone {A} (m : M A) : M (option A) :=
  fun r => match m r with (Ok a, r') => (Ok (Some a), r') | (Err Panic, r') => (Err Panic, r') | (Err _, r') => (Ok None, r') end.
Declare Scope seek_scope.
Delimit Scope seek_scope with seek.
Notation "'do' x <- m ; k" := (bindM m (fun x => k)) (at level 10, x pattern, m at level 100, k at level 200) : seek_scope.
Notation "'check' b ; k" := (if b then fail errSeekIndex else k) (at level 10, b at level 100, k at level 200) : seek_scope.
Open Scope seek_scope.

Definition slice (data : bytes) (off n : Z) : bytes := take (Z.to_nat n) (drop (Z.to_nat off) data).

Section Reader.
Context (src : source) (alive : nat -> bool).

Definition validateRange (resp : httpResponse) (off n : Z) (r : seekReader) : option (Z * bytes * Z) :=
  match contentRange resp with
  | None => None
  | Some (first, last, sz) =>
      if negb (StatusCode resp =? 206) || negb (first =? off) || (last <? first) || (n <? last - first + 1) || (sz <=? last) ||
         ((0 <=? size r) && negb (sz =? size r)) || negb (bytes_eqb (contentEncoding resp) []) then None
      else
        let v := if has_prefix (str "W/") (ETag resp) then [] else ETag resp in
        let v := match v with [] => lastModified resp | _ => v end in
        if negb (bytes_eqb (validator r) []) && negb (bytes_eqb v (validator r)) then None
        else Some (last - first + 1, v, sz)
  end.
Definition remoteBlock (answer : nat -> Z -> Z -> option httpResponse) (off n : Z) : M bytes := fun r =>
  let r1 := mkReader (size r) (blocks r) (spent r) (validator r) (S (asked r)) (checked r) (fetched r) in
  match answer (asked r) off n with
  | None => (Err (if alive (checked r) then errSeekIndex else ErrContext), r1)
  | Some resp =>
      match validateRange resp off n r with
      | None => (Err errSeekIndex, r1)
      | Some (len, v, sz) =>
          (* io.ReadAll(io.LimitReader(resp.Body, length+1)): the limit hides an error behind it *)
          let b := take (Z.to_nat (len + 1)) (respBody resp) in
          let failed := bodyErr resp && (Z.of_nat (length b) <? len + 1) in
          let r2 := mkReader sz (blocks r) (spent r) v (S (asked r)) (checked r) (fetched r + Z.of_nat (length b)) in
          if failed || negb (Z.of_nat (length b) =? len) then (Err errSeekIndex, r2) else (Ok b, r2)
      end
  end.
Definition block (off : Z) : M bytes := fun r =>
  if seekIndexBudget <? spent r + seekBlockSize then (Err errSeekIndex, r)
  else
    let n := if (0 <=? size r) && (size r - off <? seekBlockSize) then size r - off else seekBlockSize in
    if n <=? 0 then (Err ErrUnexpectedEOF, r)
    else
      let r1 := mkReader (size r) (blocks r) (spent r + n) (validator r) (asked r) (checked r) (fetched r) in
      match src with
      | LocalFile data readable =>
          let b := slice data off n in
          let r2 := mkReader (size r1) (blocks r1) (spent r1) (validator r1) (asked r1) (checked r1) (fetched r1 + Z.of_nat (length b)) in
          if readable off then (Ok b, r2) else (Err ErrRead, r2)
      | Remote answer => remoteBlock answer off n r1
      end.
(** The loop of read: every round copies at least one byte, so [n] rounds are enough. *)
Fixpoint read_loop (fuel : nat) (off n : Z) (acc : bytes) : M bytes := fun r =>
  match fuel with
  | O => (Ok acc, r)
  | S fuel' =>
      let done := Z.of_nat (length acc) in
      if n <=? done then (Ok acc, r)
      else
        let r1 := mkReader (size r) (blocks r) (spent r) (validator r) (asked r) (S (checked r)) (fetched r) in
        if negb (alive (checked r)) then (Err ErrContext, r1)
        else
          let base := (off + done) / seekBlockSize * seekBlockSize in
          match (match blocks r1 !! base with
                 | Some b => (Ok b, r1)
                 | None => match block base r1 with
                           | (Ok b, r2) => (Ok b, mkReader (size r2) (<[base := b]> (blocks r2)) (spent r2) (validator r2) (asked r2) (checked r2) (fetched r2))
                           | e => e
                           end
                 end) with
          | (Err e, r2) => (Err e, r2)
          | (Ok b, r2) =>
              let pos := off + done - base in
              if Z.of_nat (length b) <=? pos then (Err ErrUnexpectedEOF, r2)
              else read_loop fuel' off n (acc ++ slice b pos (n - done)) r2
          end
  end.
Definition read (off n : Z) : M bytes := fun r =>
  if (off <? 0) || (n <? 0) || (seekIndexBudget <? n) || (i64_max - n <? off) || ((0 <=? size r) && (size r <? off + n))
  then (Err errSeekIndex, r)
  else read_loop (Z.to_nat n) off n [] r.

(** * Matroska *)

Record ebmlElement := mkEl { id : Z; data : Z; end_ : Z }.
Record ebmlVint := mkVint { value : Z; next : Z; unknown : bool }.
Definition be_val (b : bytes) : Z := fold_left (fun v c => v * 256 + c) b 0.

(** The length of a vint by its first byte: the position of the highest bit, and the mask under it. *)
Definition vint_length (b : Z) : option Z :=
  if Z.testbit b 7 then Some 1 else if Z.testbit b 6 then Some 2 else if Z.testbit b 5 then Some 3 else if Z.testbit b 4 then Some 4
  else if Z.testbit b 3 then Some 5 else if Z.testbit b 2 then Some 6 else if Z.testbit b 1 then Some 7 else if Z.testbit b 0 then Some 8
  else None.
Definition ebmlVintAt (off limit : Z) (isId : bool) : M ebmlVint :=
  do b <- read off 1;
  match b with
  | [] => fail Panic
  | b0 :: _ =>
      match vint_length b0 with
      | None => fail errSeekIndex
      | Some n =>
          check (isId && (4 <? n)) || (limit <? wrap_i64 (off + n));
          do b <- read off n;
          match b with
          | [] => fail Panic
          | c0 :: rest =>
              let first := if isId then c0 else Z.land c0 (Z.shiftl 1 (8 - n) - 1) in
              let v := fold_left (fun v c => wrap_u64 (Z.lor (Z.shiftl v 8) c)) rest first in
              ret (mkVint v (off + n) (negb isId && (v =? Z.shiftl 1 (7 * n) - 1)))
          end
      end
  end.

Definition idSegment : Z := 0x18538067.
Definition idInfo : Z := 0x1549a966.
Definition idTracks : Z := 0x1654ae6b.
Definition idCues : Z := 0x1c53bb6b.
Definition idSeekHead : Z := 0x114d9b74.
Definition ebml (off limit : Z) : M ebmlElement :=
  do i <- ebmlVintAt off limit true;
  do sz <- ebmlVintAt (next i) limit false;
  if negb (unknown sz) then
    check limit - next sz <? value sz;
    ret (mkEl (value i) (next sz) (next sz + value sz))
  else
    check negb (value i =? idSegment);
    ret (mkEl (value i) (next sz) limit).

(** ebmlChildren with what the callback keeps; an element takes at least two bytes. *)
Fixpoint children_loop {S} (fuel : nat) (fn : S -> ebmlElement -> M S) (off limit count : Z) (s : S) : M S :=
  match fuel with
  | O => ret s
  | S fuel' =>
      if limit <=? off then ret s
      else check 1000000 <? count;
           do el <- ebml off limit;
           do s' <- fn s el;
           children_loop fuel' fn (end_ el) limit (count + 1) s'
  end.
Definition ebmlChildren {S} (parent : ebmlElement) (fn : S -> ebmlElement -> M S) (s : S) : M S :=
  children_loop (Z.to_nat (end_ parent - data parent)) fn (data parent) (end_ parent) 0 s.
Definition ebmlUint (el : ebmlElement) : M Z :=
  let n := end_ el - data el in
  check (n <? 1) || (8 <? n);
  do b <- read (data el) n;
  ret (be_val b).

(** matroskaSeekLocations *)
Record seekLocations := mkLoc { locations : gmap Z ebmlElement; visited : gset Z }.
Definition wanted (i : Z) : bool := (i =? idInfo) || (i =? idTracks) || (i =? idCues) || (i =? idSeekHead).
(** entry: what a Seek element points to, [None] for an element of no interest. *)
Definition entry (segment : ebmlElement) (e : ebmlElement) : M (option ebmlElement) :=
  do ip <- ebmlChildren e (fun ip c =>
    if id c =? 0x53ab then do v <- ebmlUint c; ret (v, snd ip)
    else if id c =? 0x53ac then do v <- ebmlUint c; ret (fst ip, v)
    else ret ip) (0, 0);
  if negb (wanted (fst ip)) then ret None
  else
    check end_ segment - data segment <=? snd ip;
    do el <- orElse (ebml (data segment + snd ip) (end_ segment)) errSeekIndex;
    check negb (id el =? fst ip);
    ret (Some el).
(** seek: at most eight seek heads are visited, so nine levels are enough. *)
Fixpoint seek (fuel : nat) (segment head : ebmlElement) (s : seekLocations) : M seekLocations :=
  match fuel with
  | O => fail errSeekIndex
  | S fuel' =>
      if bool_decide (data head ∈ visited s) then ret s
      else check (8 <=? card (visited s))%nat;
      ebmlChildren head (fun s e =>
        if negb (id e =? 0x4dbb) then ret s
        else do r <- entry segment e;
             match r with
             | None => ret s
             | Some el =>
                 let s' := mkLoc (<[id el := el]> (locations s)) (visited s) in
                 if id el =? idSeekHead then seek fuel' segment el s' else ret s'
             end) (mkLoc (locations s) ({[data head]} ∪ visited s))
  end.
(** locate: the top-level elements in order until the three tables are known. *)
Definition located (s : seekLocations) : bool :=
  match locations s !! idInfo, locations s !! idTracks, locations s !! idCues with Some _, Some _, Some _ => true | _, _, _ => false end.
Fixpoint locate_loop (fuel : nat) (segment : ebmlElement) (off count : Z) (s : seekLocations) : M seekLocations :=
  match fuel with
  | O => ret s
  | S fuel' =>
      if end_ segment <=? off then ret s
      else check 4096 <? count;
           do el <- ebml off (end_ segment);
           let s1 := mkLoc (<[id el := el]> (locations s)) (visited s) in
           do s2 <- (if id el =? idSeekHead then seek 9 segment el s1 else ret s1);
           if located s2 then ret s2 else locate_loop fuel' segment (end_ el) (count + 1) s2
  end.
Definition locate (segment : ebmlElement) : M seekLocations :=
  locate_loop (Z.to_nat (end_ segment - data segment)) segment (data segment) 0 (mkLoc ∅ ∅).

Definition matroskaScale (info : ebmlElement) : M Z :=
  do scale <- orElse (ebmlChildren info (fun scale el => if id el =? 0x2ad7b1 then ebmlUint el else ret scale) 1000000) errSeekIndex;
  check scale =? 0;
  ret scale.
(** matroskaTrackNumber: 0 for a track that is no video. *)
Record trackFields := mkTrack { tNum : Z; tKind : Z; tUnsupported : bool }.
Definition matroskaTrackNumber (track : ebmlElement) : M Z :=
  do t <- ebmlChildren track (fun t el =>
    if id el =? 0xd7 then do v <- ebmlUint el; ret (mkTrack v (tKind t) (tUnsupported t))
    else if id el =? 0x83 then do v <- ebmlUint el; ret (mkTrack (tNum t) v (tUnsupported t))
    else if (id el =? 0x23314f) || (id el =? 0x56aa) then ret (mkTrack (tNum t) (tKind t) true)
    else ret t) (mkTrack 0 0 false);
  if negb (tKind t =? 1) then ret 0
  else check tUnsupported t || (tNum t =? 0); ret (tNum t).
Definition matroskaVideoTrack (tracks : ebmlElement) : M Z :=
  do video <- orElse (ebmlChildren tracks (fun video track =>
    if negb (id track =? 0xae) || negb (video =? 0) then ret video else matroskaTrackNumber track) 0) errSeekIndex;
  check video =? 0;
  ret video.
Record cueFields := mkCue { cStamp : Z; cHasTime : bool; cSelected : bool }.
Definition matroskaCuePoint (point : ebmlElement) (video : Z) : M (Z * bool) :=
  do c <- ebmlChildren point (fun c el =>
    if id el =? 0xb3 then do v <- ebmlUint el; ret (mkCue v true (cSelected c))
    else if id el =? 0xb7 then
      do sel <- ebmlChildren el (fun sel p => if negb (id p =? 0xf7) then ret sel else do tr <- ebmlUint p; ret (sel || (tr =? video))) (cSelected c);
      ret (mkCue (cStamp c) (cHasTime c) sel)
    else ret c) (mkCue 0 false false);
  ret (cStamp c, cHasTime c && cSelected c).
(** float64(stamp)*float64(scale)/1e9 *)
Definition cue_time (scale stamp : Z) : float64 := f64_div (f64_mul (f64_of_Z stamp) (f64_of_Z scale)) (f64_of_Z 1000000000).
Definition matroskaCueTimes (cues : ebmlElement) (video scale : Z) : M (list float64) :=
  ebmlChildren cues (fun times point =>
    if negb (id point =? 0xbb) then ret times
    else do st <- matroskaCuePoint point video;
         ret (if snd st then times ++ [cue_time scale (fst st)] else times)) [].
Definition readMatroskaSeekIndex : M (list float64) :=
  do sz <- get_size;
  do header <- ebml 0 sz;
  do segment <- orElse (ebml (end_ header) sz) errSeekIndex;
  check negb (id segment =? idSegment);
  do loc <- locate segment;
  match locations loc !! idInfo, locations loc !! idTracks, locations loc !! idCues with
  | Some info, Some tracks, Some cues =>
      do scale <- matroskaScale info;
      do video <- matroskaVideoTrack tracks;
      matroskaCueTimes cues video scale
  | _, _, _ => fail errSeekIndex
  end.

(** * MP4 *)

Record mp4Box := mkBox { kind : bytes; bdata : Z; bend : Z }.
(** binary.BigEndian.Uint32 and Uint64 of b[off:]. *)
Definition be_at (w : nat) (b : bytes) (off : Z) : M Z :=
  if Z.of_nat (length b) <? off + Z.of_nat w then fail Panic else ret (be_val (slice b off (Z.of_nat w))).
Definition byte_at (b : bytes) (off : Z) : M Z := match b !! Z.to_nat off with Some c => ret c | None => fail Panic end.

Fixpoint boxes_loop (fuel : nat) (off limit : Z) (boxes : list mp4Box) : M (list mp4Box) :=
  match fuel with
  | O => ret boxes
  | S fuel' =>
      if limit <=? off then ret boxes
      else
        check (10000 <=? Z.of_nat (length boxes)) || (limit - off <? 8);
        do b <- read off 8;
        do size32 <- be_at 4 b 0;
        let k := slice b 4 4 in
        do sh <- (if size32 =? 1 then do b <- read (off + 8) 8; do v <- be_at 8 b 0; ret (v, 16)
                  else if size32 =? 0 then ret (limit - off, 8) else ret (size32, 8));
        let '(sz, header) := sh in
        check (sz <? header) || (limit - off <? sz);
        boxes_loop fuel' (off + sz) limit (boxes ++ [mkBox k (off + header) (off + sz)])
  end.
Definition mp4Boxes (from to : Z) : M (list mp4Box) := boxes_loop (Z.to_nat (to - from)) from to [].
Definition find_box (k : bytes) (l : list mp4Box) : option mp4Box := List.find (fun b => bytes_eqb (kind b) k) l.
Definition mp4Child (parent : mp4Box) (k : bytes) : M mp4Box :=
  do l <- mp4Boxes (bdata parent) (bend parent);
  match find_box k l with Some b => ret b | None => fail errSeekIndex end.
Definition mp4Data (parent : mp4Box) (k : bytes) : M bytes :=
  do b <- mp4Child parent k;
  read (bdata b) (bend b - bdata b).

Definition mp4Timescale (b : bytes) : M Z :=
  check (length b <? 20)%nat;
  do v <- byte_at b 0;
  check (negb (v =? 1)) && negb (v =? 0);
  let off := if v =? 1 then 20 else 12 in
  check Z.of_nat (length b) <? off + 4;
  do scale <- be_at 4 b off;
  check scale =? 0;
  ret scale.

Record mp4TimeRun := mkRun { count : Z; rvalue : Z }.
Definition to_i32 (v : Z) : Z := (v + 2 ^ 31) mod 2 ^ 32 - 2 ^ 31.
Fixpoint runs_loop (n : nat) (b : bytes) (signed : bool) (i : Z) (runs : list mp4TimeRun) : M (list mp4TimeRun) :=
  match n with
  | O => ret runs
  | S n' =>
      do c <- be_at 4 b (8 + i * 8);
      do v <- be_at 4 b (12 + i * 8);
      check c =? 0;
      runs_loop n' b signed (i + 1) (runs ++ [mkRun c (if signed then to_i32 v else v)])
  end.
Definition mp4Runs (b : bytes) (composition : bool) : M (list mp4TimeRun) :=
  check (length b <? 8)%nat;
  do v <- byte_at b 0;
  check (1 <? v) || (negb composition && negb (v =? 0));
  do n <- be_at 4 b 4;
  check negb (n * 8 =? Z.of_nat (length b) - 8);
  runs_loop (Z.to_nat n) b (composition && (v =? 1)) 0 [].

Definition to_i64 (v : Z) : Z := wrap_i64 v.
Definition mp4EditEntry (p : bytes) (version : Z) : M (Z * Z) :=
  do d32 <- be_at 4 p 0;
  do m32 <- be_at 4 p 4;
  do dmr <- (if version =? 1 then do d <- be_at 8 p 0; do m <- be_at 8 p 8; ret (d, to_i64 m, 16) else ret (d32, to_i32 m32, 8));
  let '(dur, media, rate) := dmr in
  do rt <- be_at 4 p rate;
  check negb (rt =? 0x10000);
  ret (dur, media).
Fixpoint edits_loop (left : nat) (b : bytes) (version stride n i movieScale scale : Z) (shift : float64) : M float64 :=
  match left with
  | O => ret shift
  | S left' =>
      do dm <- mp4EditEntry (drop (Z.to_nat (8 + i * stride)) b) version;
      let '(dur, media) := dm in
      if (media =? -1) && (i =? 0) && (n =? 2) then
        edits_loop left' b version stride n (i + 1) movieScale scale (f64_add shift (f64_div (f64_of_Z dur) (f64_of_Z movieScale)))
      else
        check (media <? 0) || negb (i =? n - 1);
        edits_loop left' b version stride n (i + 1) movieScale scale (f64_sub shift (f64_div (f64_of_Z media) (f64_of_Z scale)))
  end.
Definition mp4EditListShift (b : bytes) (movieScale scale : Z) : M float64 :=
  do n <- be_at 4 b 4;
  do v <- byte_at b 0;
  let stride := if v =? 1 then 20 else 12 in
  check (n <? 1) || (2 <? n) || negb (Z.of_nat (length b) =? 8 + n * stride);
  edits_loop (Z.to_nat n) b v stride n 0 movieScale scale f64_zero.
Definition mp4EditShift (track : mp4Box) (movieScale scale : Z) : M float64 :=
  do edts <- orNone (mp4Child track (str "edts"));
  match edts with
  | None => ret f64_zero
  | Some edts =>
      do b <- orElse (mp4Data edts (str "elst")) errSeekIndex;
      check (length b <? 8)%nat;
      do v <- byte_at b 0;
      check 1 <? v;
      mp4EditListShift b movieScale scale
  end.

Definition run_total (runs : list mp4TimeRun) : Z := fold_left (fun t r => wrap_u64 (t + count r)) runs 0.
Definition mp4Composition (stbl : mp4Box) (total : Z) : M (list mp4TimeRun) :=
  do ctts <- orNone (mp4Child stbl (str "ctts"));
  match ctts with
  | None => ret [mkRun (wrap_u32 total) 0]
  | Some ctts =>
      do b <- read (bdata ctts) (bend ctts - bdata ctts);
      do composition <- mp4Runs b true;
      check negb (run_total composition =? total);
      ret composition
  end.
Fixpoint samples_loop (left : nat) (b : bytes) (i total previous : Z) (sync : list Z) : M (list Z) :=
  match left with
  | O => ret sync
  | S left' =>
      do sample <- be_at 4 b (8 + 4 * i);
      check (sample <=? previous) || (total <? sample);
      samples_loop left' b (i + 1) total sample (sync ++ [sample])
  end.
(** mp4SyncSamples: [None] is the nil slice, every sample. *)
Definition mp4SyncSamples (stbl : mp4Box) (total : Z) : M (option (list Z)) :=
  do stss <- orNone (mp4Child stbl (str "stss"));
  match stss with
  | None => check 1000000 <? total; ret None
  | Some stss =>
      do b <- orElse (read (bdata stss) (bend stss - bdata stss)) errSeekIndex;
      check (length b <? 8)%nat;
      do v <- byte_at b 0;
      check negb (v =? 0);
      do n <- be_at 4 b 4;
      check (n =? 0) || (1000000 <? n) || negb (n * 4 =? Z.of_nat (length b) - 8);
      do sync <- samples_loop (Z.to_nat n) b 0 total 0 [];
      ret (Some sync)
  end.
End Reader.

(** ** Presentation times *)

Record mp4RunCursor := mkCursor { runs : list mp4TimeRun; left_ : Z }.
(** advance, on a uint32; the slice of an empty list panics. *)
Definition advance (c : mp4RunCursor) : option mp4RunCursor :=
  let l := wrap_u32 (left_ c - 1) in
  if l =? 0 then
    match runs c with
    | [] => None
    | _ :: rs => Some (mkCursor rs (match rs with r :: _ => count r | [] => l end))
    end
  else Some (mkCursor (runs c) l).
Definition cursor (rs : list mp4TimeRun) : option mp4RunCursor := match rs with [] => None | r :: _ => Some (mkCursor rs (count r)) end.
Definition is_sync (sync : option (list Z)) (si : nat) (sample : Z) : bool :=
  match sync with None => true | Some l => match l !! si with Some s => sample =? s | None => false end end.
Definition minus_micro : float64 := f64_div (f64_of_Z (-1)) (f64_of_Z 1000000).
Definition sample_time (scale : Z) (shift : float64) (dts offset : Z) : float64 :=
  f64_add (f64_div (f64_of_Z (wrap_i64 (dts + offset))) (f64_of_Z scale)) shift.
(** The loop of mp4PresentationTimes, [None] for a panic; one round per sample. *)
Fixpoint times_loop (fuel : nat) (decode present : mp4RunCursor) (sync : option (list Z)) (si : nat) (sample dts scale : Z) (shift : float64)
    (acc : list float64) : option (list float64) :=
  match runs decode with
  | [] => Some acc
  | d :: _ =>
      match fuel with
      | O => None
      | S fuel' =>
          let hit := is_sync sync si sample in
          match (if hit then
                   match runs present with
                   | [] => None
                   | p :: _ => let t := sample_time scale shift dts (rvalue p) in
                               Some (if f64_leb minus_micro t then acc ++ [max_zero t] else acc)
                   end
                 else Some acc) with
          | None => None
          | Some acc' =>
              match advance decode, advance present with
              | Some decode', Some present' =>
                  times_loop fuel' decode' present' sync (if hit then S si else si) (wrap_u32 (sample + 1)) (wrap_i64 (dts + rvalue d)) scale shift acc'
              | _, _ => None
              end
          end
      end
  end.
Definition mp4PresentationTimes (rs composition : list mp4TimeRun) (sync : option (list Z)) (scale : Z) (shift : float64) : option (list float64) :=
  match cursor rs, cursor composition with
  | Some d, Some p => times_loop (Z.to_nat (run_total rs)) d p sync 0 1 0 scale shift []
  | _, _ => None
  end.

Section Index.
Context (src : source) (alive : nat -> bool).
Definition mp4SyncTimes (stbl : mp4Box) (scale : Z) (shift : float64) : M (list float64) :=
  do b <- mp4Data src alive stbl (str "stts");
  do rs <- mp4Runs b false;
  let total := run_total rs in
  check (total =? 0) || (20000000 <? total);
  do composition <- mp4Composition src alive stbl total;
  do sync <- mp4SyncSamples src alive stbl total;
  match mp4PresentationTimes rs composition sync scale shift with Some l => ret l | None => fail Panic end.
Definition mp4TrackTimes (track mdia : mp4Box) (movieScale : Z) : M (list float64) :=
  do mdhd <- mp4Data src alive mdia (str "mdhd");
  do scale <- mp4Timescale mdhd;
  do shift <- mp4EditShift src alive track movieScale scale;
  do minf <- mp4Child src alive mdia (str "minf");
  do stbl <- mp4Child src alive minf (str "stbl");
  mp4SyncTimes stbl scale shift.
Fixpoint tracks_loop (tracks : list mp4Box) (movieScale : Z) : M (list float64) :=
  match tracks with
  | [] => fail errSeekIndex
  | track :: rest =>
      if negb (bytes_eqb (kind track) (str "trak")) then tracks_loop rest movieScale
      else
        do mdia <- mp4Child src alive track (str "mdia");
        do hdlr <- orElse (mp4Data src alive mdia (str "hdlr")) errSeekIndex;
        check (length hdlr <? 12)%nat;
        if negb (bytes_eqb (slice hdlr 8 4) (str "vide")) then tracks_loop rest movieScale
        else mp4TrackTimes track mdia movieScale
  end.
Definition readMP4SeekIndex : M (list float64) :=
  do sz <- get_size;
  let root := mkBox (str "root") 0 sz in
  do moov <- mp4Child src alive root (str "moov");
  do mvex <- orNone (mp4Child src alive moov (str "mvex"));
  check match mvex with Some _ => true | None => false end;
  do mvhd <- mp4Data src alive moov (str "mvhd");
  do movieScale <- mp4Timescale mvhd;
  do tracks <- mp4Boxes src alive (bdata moov) (bend moov);
  tracks_loop tracks movieScale.

(** * The whole *)

(** sort.Float64s: NaN before everything. *)
Definition f64_less (x y : float64) : bool := f64_ltb x y || (IsNaN x && negb (IsNaN y)).
Fixpoint dedupe_times (last : option float64) (l : list float64) : option (list float64) :=
  match l with
  | [] => Some []
  | t :: l' =>
      if IsNaN t || IsInf t || f64_ltb t f64_zero then None
      else if match last with None => true | Some x => f64_ltb x t end then (cons t) <$> dedupe_times (Some t) l'
      else dedupe_times last l'
  end.
Definition normalizeSeekTimes (kfs : list float64) : option (list float64) :=
  match kfs with [] => None | _ => dedupe_times None (sort_SliceStable f64_less kfs) end.

Definition magic : bytes := [0x1a; 0x45; 0xdf; 0xa3].
Definition start_size : Z := match src with LocalFile d _ => Z.of_nat (length d) | Remote _ => -1 end.
Definition container_times : M (list float64) :=
  do b <- read src alive 0 8;
  do kfs <- (if bytes_eqb (slice b 0 4) magic then readMatroskaSeekIndex src alive else readMP4SeekIndex);
  match normalizeSeekTimes kfs with Some l => ret l | None => fail errSeekIndex end.
(** ReadContainerKeyframes *)
Definition ReadContainerKeyframes : result seekErr (list float64) :=
  fst (container_times (mkReader start_size ∅ 0 [] 0 0 0)).
End Index.

(** * Lemmas: running the monad *)

(** The bytes really read: no more than were counted and one for each request, and no more
    requests than bytes counted. *)
Definition within_budget (r : seekReader) : Prop :=
  fetched r <= spent r + Z.of_nat (asked r) /\ Z.of_nat (asked r) <= spent r /\ spent r <= seekIndexBudget.
(** The cached blocks are bytes and the budget is kept. *)
Definition reader_ok (r : seekReader) : Prop :=
  (forall k b, blocks r !! k = Some b -> wf_bytes b) /\ within_budget r.
(** From a good reader: a good reader, no panic, and what is promised of a value. *)
Definition yields {A} (m : M A) (P : A -> Prop) : Prop :=
  forall r, reader_ok r -> match m r with
                          | (Ok a, r') => reader_ok r' /\ P a
                          | (Err e, r') => reader_ok r' /\ e <> Panic
                          end.
Lemma yields_ret {A} (a : A) (P : A -> Prop) : P a -> yields (ret a) P.
Proof. by intros Ha r Hr. Qed.
Lemma yields_fail {A} e (P : A -> Prop) : e <> Panic -> yields (@fail A e) P.
Proof. by intros He r Hr. Qed.
Lemma yields_bind {A B} (m : M A) (k : A -> M B) P Q :
  yields m P -> (forall a, P a -> yields (k a) Q) -> yields (bindM m k) Q.
Proof.
  intros Hm Hk r Hr. unfold bindM. specialize (Hm r Hr). destruct (m r) as [[a|e] r'].
  - destruct Hm as [H1 H2]. by apply Hk.
  - done.
Qed.
Lemma yields_weaken {A} (m : M A) (P Q : A -> Prop) : yields m P -> (forall a, P a -> Q a) -> yields m Q.
Proof. intros Hm HPQ r Hr. specialize (Hm r Hr). destruct (m r) as [[a|e] r']; naive_solver. Qed.
Lemma yields_orElse {A} (m : M A) e P : e <> Panic -> yields m P -> yields (orElse m e) P.
Proof. intros He Hm r Hr. unfold orElse. specialize (Hm r Hr). destruct (m r) as [[a|[]] r']; naive_solver. Qed.
Lemma yields_orNone {A} (m : M A) P : yields m P -> yields (orNone m) (fun o => match o with Some a => P a | None => True end).
Proof. intros Hm r Hr. unfold orNone. specialize (Hm r Hr). destruct (m r) as [[a|[]] r']; naive_solver. Qed.
Lemma yields_check {A} (b : bool) (m : M A) P : (b = false -> yields m P) -> yields (if b then fail errSeekIndex else m) P.
Proof. intros Hm. destruct b; [by apply yields_fail|by apply Hm]. Qed.
Create HintDb seek.
#[export] Hint Resolve yields_ret : seek.
#[export] Hint Extern 1 (yields (fail _) _) => apply yields_fail; discriminate : seek.
(** One step of a program: its first call by the hints, a check by its condition. *)
Ltac step :=
  lazymatch goal with
  | |- yields (bindM _ _) _ => eapply yields_bind; [solve [eauto with seek]|cbn beta; intros]
  | |- yields (if _ then fail errSeekIndex else _) _ => apply yields_check; intros
  | |- yields (ret _) _ => apply yields_ret
  | |- yields (fail _) _ => apply yields_fail; discriminate
  end.

Lemma slice_length d off n : 0 <= off -> Z.of_nat (length (slice d off n)) = Z.min (Z.max 0 n) (Z.max 0 (Z.of_nat (length d) - off)).
Proof. intros Ho. unfold slice. rewrite length_take, length_drop. lia. Qed.
Lemma slice_wf d off n : wf_bytes d -> wf_bytes (slice d off n).
Proof. intros Hd. apply Forall_take, Forall_drop, Hd. Qed.
#[export] Hint Resolve slice_wf : seek.

(** Sources of bytes. *)
Definition source_ok (src : source) : Prop :=
  match src with
  | LocalFile d _ => wf_bytes d
  | Remote answer => forall k off n resp, answer k off n = Some resp -> wf_bytes (respBody resp)
  end.

Section Runs.
Context (src : source) (alive : nat -> bool) (Hsrc : source_ok src).

Lemma block_yields off : yields (block src alive off) wf_bytes.
Proof.
  intros r [Hb (Hf & Ha & Hs)]. unfold block. destruct (seekIndexBudget <? spent r + seekBlockSize) eqn:E1; [done|]. bprop.
  set (n := if (0 <=? size r) && (size r - off <? seekBlockSize) then size r - off else seekBlockSize).
  assert (Hn : n <= seekBlockSize) by (subst n; case_if; bprop; lia). clearbody n.
  destruct (Z.leb_spec n 0) as [|Np]; [done|].
  assert (Hok : forall sz v a c f, (a <= S (asked r))%nat -> f <= fetched r + n + (Z.of_nat a - Z.of_nat (asked r)) ->
    reader_ok (mkReader sz (blocks r) (spent r + n) v a c f)).
  { intros sz v a c f La Lf. split; [done|]. unfold within_budget. cbn. split_and!; lia. }
  unfold source_ok in Hsrc. destruct src as [d readable|answer]; cbn [size blocks spent validator asked checked fetched].
  - assert (Hl : Z.of_nat (length (slice d off n)) <= n) by (unfold slice; rewrite length_take; lia).
    destruct (readable off); (split; [apply Hok; lia|]); [auto with seek|done].
  - unfold remoteBlock. cbn [asked checked size blocks spent validator fetched].
    destruct (answer (asked r) off n) as [resp|] eqn:Ea; [|split; [apply Hok; lia|by destruct (alive (checked r))]].
    destruct (validateRange resp off n _) as [[[len v] sz]|] eqn:Ev; [|split; [apply Hok; lia|done]].
    assert (Hlen : len <= n).
    { unfold validateRange in Ev. destruct (contentRange resp) as [[[first last] sz0]|]; [|done]. case_if_in Ev; [done|].
      match goal with H : _ || _ = false |- _ => rename H into Hc end. rewrite !orb_false_iff in Hc. destruct Hc as [[[[_ Hc] _] _] _]. bprop.
      repeat (case_match; try done); simplify_eq; lia. }
    assert (Hl : Z.of_nat (length (take (Z.to_nat (len + 1)) (respBody resp))) <= n + 1) by (rewrite length_take; lia).
    destruct (_ || _); (split; [apply Hok; lia|]); [done|]. apply Forall_take. by eapply Hsrc.
Qed.
Lemma read_loop_yields fuel off n acc :
  wf_bytes acc -> 0 <= off -> Z.of_nat (length acc) <= n -> n <= Z.of_nat (length acc) + Z.of_nat fuel ->
  yields (read_loop src alive fuel off n acc) (fun b => Z.of_nat (length b) = n /\ wf_bytes b).
Proof.
  revert acc. induction fuel as [|fuel IH]; intros acc Ha Ho Hl Hf r Hr; cbn [read_loop].
  { split; [done|]. split; [lia|done]. }
  destruct (n <=? Z.of_nat (length acc)) eqn:E1; bprop; [split; [done|]; split; [lia|done]|].
  set (r1 := mkReader _ _ _ _ _ _ _). assert (H1 : reader_ok r1) by exact Hr. clearbody r1.
  destruct (alive (checked r)); cbn [negb]; [|done].
  set (base := (off + Z.of_nat (length acc)) / seekBlockSize * seekBlockSize).
  assert (Hpos : 0 <= off + Z.of_nat (length acc) - base).
  { subst base. unfold seekBlockSize. pose proof (Z.mul_div_le (off + Z.of_nat (length acc)) (64 * 1024)). lia. }
  clearbody base.
  assert (Hstep : forall b r2, reader_ok r2 -> wf_bytes b ->
    match (if Z.of_nat (length b) <=? off + Z.of_nat (length acc) - base then (Err ErrUnexpectedEOF, r2)
           else read_loop src alive fuel off n (acc ++ slice b (off + Z.of_nat (length acc) - base) (n - Z.of_nat (length acc))) r2) with
    | (Ok a, r') => reader_ok r' /\ Z.of_nat (length a) = n /\ wf_bytes a
    | (Err e, r') => reader_ok r' /\ e <> Panic
    end).
  { intros b r2 H2 Hb. case_if; [done|]. bprop.
    pose proof (slice_length b (off + Z.of_nat (length acc) - base) (n - Z.of_nat (length acc)) Hpos) as Hsl.
    apply IH; try done; [apply Forall_app; auto with seek|rewrite length_app; lia|rewrite length_app; lia]. }
  destruct (blocks r1 !! base) as [b|] eqn:Eb; [by apply Hstep; [|apply (proj1 H1 base)]|].
  pose proof (block_yields base r1 H1) as Hblk. destruct (block src alive base r1) as [[b|e] r2]; [|done].
  destruct Hblk as [[B1 B2] B3]. apply Hstep; [|done]. split; cbn; [|done]. intros k c. rewrite lookup_insert_Some. naive_solver.
Qed.
Lemma read_yields off n : yields (read src alive off n) (fun b => Z.of_nat (length b) = n /\ wf_bytes b).
Proof.
  intros r Hr. unfold read. destruct (_ || _) eqn:E; [done|]. bprop. apply read_loop_yields; try done; cbn; lia.
Qed.
Local Hint Resolve read_yields : seek.

(** ** Matroska *)

Lemma vint_length_pos b n : vint_length b = Some n -> 1 <= n <= 8.
Proof. unfold vint_length. intros H. repeat (case_if_in H; [injection H as <-; lia|]). done. Qed.
Lemma ebmlVintAt_yields off limit isId : yields (ebmlVintAt src alive off limit isId) (fun _ => True).
Proof.
  unfold ebmlVintAt. step. destruct a as [|b0 b]; [cbn in *; lia|]. destruct (vint_length b0) as [n|] eqn:En; [|step].
  apply vint_length_pos in En. step. step. destruct a as [|c0 rest]; [cbn in *; lia|]. by step.
Qed.
Local Hint Resolve ebmlVintAt_yields : seek.
Lemma ebml_yields off limit : yields (ebml src alive off limit) (fun _ => True).
Proof. unfold ebml. step. step. destruct (unknown a0); cbn [negb]; by repeat step. Qed.
Local Hint Resolve ebml_yields : seek.
Lemma ebmlChildren_yields {S} parent (fn : S -> ebmlElement -> M S) s (I : S -> Prop) :
  I s -> (forall s el, I s -> yields (fn s el) I) -> yields (ebmlChildren src alive parent fn s) I.
Proof.
  intros Hs Hf. unfold ebmlChildren. generalize (Z.to_nat (end_ parent - data parent)). intros fuel.
  generalize (data parent) 0. revert s Hs. induction fuel as [|fuel IH]; intros s Hs off c; cbn [children_loop]; [by apply yields_ret|].
  destruct (end_ parent <=? off); [by apply yields_ret|]. step. step.
  eapply yields_bind; [by apply Hf|]. intros s' Hs'. by apply IH.
Qed.
Lemma ebmlUint_yields el : yields (ebmlUint src alive el) (fun _ => True).
Proof. unfold ebmlUint. step. step. by step. Qed.
Local Hint Resolve ebmlUint_yields : seek.
(** A callback over fields. *)
Ltac fields := apply (ebmlChildren_yields _ _ _ (fun _ => True)); [done|]; intros; repeat (case_if || step); (done || auto with seek).
Lemma entry_yields segment e : yields (entry src alive segment e) (fun _ => True).
Proof.
  unfold entry. eapply yields_bind; [fields|]. intros ip _. case_if; [by step|]. step.
  eapply yields_bind; [apply yields_orElse; [done|apply ebml_yields]|]. intros el _. step. by step.
Qed.
Local Hint Resolve entry_yields : seek.
Lemma seek_yields fuel segment head s : yields (seek src alive fuel segment head s) (fun _ => True).
Proof.
  revert head s. induction fuel as [|fuel IH]; intros head s; cbn [seek]; [step|]. case_if; [by step|]. step.
  apply (ebmlChildren_yields _ _ _ (fun _ => True)); [done|]. intros s1 el _. case_if; [by step|]. step.
  destruct a as [el'|]; [|by step]. case_if; [apply IH|by step].
Qed.
Local Hint Resolve seek_yields : seek.
Lemma locate_yields segment : yields (locate src alive segment) (fun _ => True).
Proof.
  unfold locate. generalize (Z.to_nat (end_ segment - data segment)) (mkLoc ∅ ∅). intros fuel s.
  generalize (data segment) 0. revert s. induction fuel as [|fuel IH]; intros s off c; cbn [locate_loop]; [by step|].
  case_if; [by step|]. step. step. eapply (yields_bind _ _ (fun _ => True)); [case_if; auto with seek|]. intros s2 _. case_if; [by step|apply IH].
Qed.
Lemma matroska_yields : yields (readMatroskaSeekIndex src alive) (fun _ => True).
Proof.
  unfold readMatroskaSeekIndex. eapply (yields_bind _ _ (fun _ => True)); [by intros r Hr|]. intros sz _. step.
  eapply yields_bind; [apply yields_orElse; [done|apply ebml_yields]|]. intros segment _. step.
  eapply yields_bind; [apply locate_yields|]. intros loc _.
  destruct (locations loc !! idInfo) as [info|]; [|step]. destruct (locations loc !! idTracks) as [tracks|]; [|step].
  destruct (locations loc !! idCues) as [cues|]; [|step].
  eapply (yields_bind _ _ (fun _ => True)).
  { unfold matroskaScale. eapply yields_bind; [apply yields_orElse; [done|fields]|]. intros scale _. step. by step. }
  intros scale _. eapply (yields_bind _ _ (fun _ => True)).
  { unfold matroskaVideoTrack. eapply yields_bind; [apply yields_orElse; [done|]|].
    - apply (ebmlChildren_yields _ _ _ (fun _ => True)); [done|]. intros v t _. case_if; [by step|]. unfold matroskaTrackNumber.
      eapply yields_bind; [fields|]. intros tf _. case_if; [by step|]. step. by step.
    - intros v _. step. by step. }
  intros video _. unfold matroskaCueTimes. apply (ebmlChildren_yields _ _ _ (fun _ => True)); [done|]. intros times point _.
  case_if; [by step|]. eapply (yields_bind _ _ (fun _ => True)); [|intros st _; by step]. unfold matroskaCuePoint.
  eapply yields_bind; [|intros c _; by step]. apply (ebmlChildren_yields _ _ _ (fun _ => True)); [done|]. intros c el _.
  case_if; [step; by step|]. case_if; [|by step]. eapply yields_bind; [fields|]. intros sel _. by step.
Qed.

(** ** MP4 *)

Lemma be_val_from b : wf_bytes b -> forall v, 0 <= v -> 0 <= fold_left (fun v c => v * 256 + c) b v < (v + 1) * 256 ^ Z.of_nat (length b).
Proof.
  induction 1 as [|c b Hc Hb IH]; intros v Hv; cbn [fold_left length]; [cbn; lia|]. unfold is_byte in Hc.
  destruct (IH (v * 256 + c) ltac:(lia)) as [H1 H2]. split; [done|]. rewrite Nat2Z.inj_succ, Z.pow_succ_r by lia. nia.
Qed.
Lemma be_val_bound b : wf_bytes b -> 0 <= be_val b < 256 ^ Z.of_nat (length b).
Proof. intros Hb. pose proof (be_val_from b Hb 0 ltac:(lia)) as H. unfold be_val. lia. Qed.
Lemma be_at_yields w b off :
  wf_bytes b -> 0 <= off -> off + Z.of_nat w <= Z.of_nat (length b) -> yields (be_at w b off) (fun v => 0 <= v < 256 ^ Z.of_nat w).
Proof.
  intros Hb Ho Hl. unfold be_at. rewrite (proj2 (Z.ltb_ge _ _)) by lia. apply yields_ret.
  pose proof (be_val_bound (slice b off (Z.of_nat w)) (slice_wf _ _ _ Hb)) as H. rewrite slice_length in H by done.
  replace (Z.min _ _) with (Z.of_nat w) in H by lia. done.
Qed.
Lemma byte_at_yields b off : wf_bytes b -> 0 <= off < Z.of_nat (length b) -> yields (byte_at b off) is_byte.
Proof.
  intros Hb Ho. unfold byte_at. destruct (lookup_lt_is_Some_2 b (Z.to_nat off)) as [c Hc]; [lia|]. rewrite Hc. apply yields_ret.
  by eapply Forall_lookup_1.
Qed.
(** A call that reads at an offset: the side conditions are arithmetic. *)
Ltac at_step :=
  first [eapply yields_bind; [apply be_at_yields; [done|cbn [Z.of_nat]; lia|cbn [Z.of_nat]; lia]|cbn beta; intros]
        |eapply yields_bind; [apply byte_at_yields; [done|lia]|cbn beta; intros]].

Lemma boxes_yields from to : yields (mp4Boxes src alive from to) (fun _ => True).
Proof.
  unfold mp4Boxes. generalize (Z.to_nat (to - from)) (@nil mp4Box). intros fuel boxes. revert from boxes.
  induction fuel as [|fuel IH]; intros off boxes; cbn [boxes_loop]; [by step|]. case_if; [by step|]. step. step.
  destruct H0 as [Hl Hw]. at_step. eapply (yields_bind _ _ (fun _ => True)).
  { case_if; [|case_if; by step]. step. destruct H1 as [Hl' Hw']. at_step. by step. }
  intros [sz hd] _. step. apply IH.
Qed.
Lemma mp4Child_yields parent k : yields (mp4Child src alive parent k) (fun _ => True).
Proof. unfold mp4Child. eapply yields_bind; [apply boxes_yields|]. intros l _. destruct (find_box k l); by step. Qed.
Local Hint Resolve mp4Child_yields : seek.
Lemma mp4Data_yields parent k : yields (mp4Data src alive parent k) wf_bytes.
Proof. unfold mp4Data. step. eapply yields_weaken; [apply read_yields|]. by intros b [_ ?]. Qed.
Local Hint Resolve mp4Data_yields : seek.
Lemma mp4Timescale_yields b : wf_bytes b -> yields (mp4Timescale b) (fun _ => True).
Proof.
  intros Hb. unfold mp4Timescale. step. bprop. at_step. step. step. bprop.
  destruct (a =? 1); at_step; step; by step.
Qed.

(** The runs of a table: counted, and with values of 32 bits. *)
Definition run_ok (r : mp4TimeRun) : Prop := 0 < count r < 2 ^ 32 /\ - 2 ^ 31 <= rvalue r < 2 ^ 32.
Lemma to_i32_range v : - 2 ^ 31 <= to_i32 v < 2 ^ 31.
Proof. unfold to_i32. pose proof (Z.mod_pos_bound (v + 2 ^ 31) (2 ^ 32)). lia. Qed.
Definition runs_ok (composition : bool) (rs : list mp4TimeRun) : Prop :=
  Forall run_ok rs /\ Z.of_nat (length rs) < 2 ^ 32 /\ (composition = false -> Forall (fun r => 0 <= rvalue r) rs).
Lemma mp4Runs_yields b composition : wf_bytes b -> yields (mp4Runs b composition) (runs_ok composition).
Proof.
  intros Hb. unfold mp4Runs. step. bprop. at_step. step. at_step. step. bprop.
  match goal with H : _ * 8 = _ |- _ => rename H into Hn end. rename a0 into n.
  assert (Hgo : forall left i rs, runs_ok composition rs -> 0 <= i -> i + Z.of_nat left = n -> Z.of_nat (length rs) = i ->
    yields (runs_loop left b (composition && (a =? 1)) i rs) (runs_ok composition)).
  { induction left as [|left IH]; intros i rs Hr Hi Hl Hlen; cbn [runs_loop]; [by apply yields_ret|].
    at_step. at_step. rename a1 into v. step. bprop. destruct Hr as (R1 & R2 & R3). pose proof (to_i32_range v).
    apply IH; [|lia|lia|rewrite length_app; cbn; lia]. split_and!.
    - apply Forall_app. split; [done|]. apply Forall_singleton. split; cbn [count rvalue]; [lia|]. destruct (composition && (a =? 1)); lia.
    - rewrite length_app. cbn. lia.
    - intros ->. apply Forall_app. split; [by apply R3|]. apply Forall_singleton. cbn. lia. }
  apply Hgo; [|lia|lia|done]. split_and!; [constructor|cbn; lia|constructor].
Qed.

Lemma mp4EditShift_yields track ms sc : yields (mp4EditShift src alive track ms sc) (fun _ => True).
Proof.
  unfold mp4EditShift. eapply yields_bind; [apply yields_orNone, mp4Child_yields|]. intros [edts|] _; [|by step].
  eapply yields_bind; [apply yields_orElse; [done|apply mp4Data_yields]|]. intros b Hb. cbn beta. step. bprop. at_step. step. bprop.
  unfold mp4EditListShift. at_step. at_step. rename a0 into n, a1 into v. step. bprop.
  set (stride := if v =? 1 then 20 else 12) in *. assert (Hs : stride = 20 /\ v = 1 \/ stride = 12 /\ v <> 1) by (subst stride; destruct (Z.eqb_spec v 1); tauto).
  clearbody stride. generalize f64_zero. intros shift.
  assert (Hgo : forall left i shift, 0 <= i -> i + Z.of_nat left = n -> yields (edits_loop left b v stride n i ms sc shift) (fun _ => True)).
  { induction left as [|left IH]; intros i sh Hi Hl; cbn [edits_loop]; [by step|].
    assert (Hd : wf_bytes (drop (Z.to_nat (8 + i * stride)) b)) by by apply Forall_drop.
    assert (Hdl : stride <= Z.of_nat (length (drop (Z.to_nat (8 + i * stride)) b))) by (rewrite length_drop; nia).
    set (p := drop _ b) in *. clearbody p. eapply (yields_bind _ _ (fun _ => True)).
    - unfold mp4EditEntry. at_step. at_step. eapply (yields_bind _ _ (fun dmr => snd dmr + 4 <= stride /\ 0 <= snd dmr)).
      + destruct (Z.eqb_spec v 1); [|apply yields_ret; cbn; lia]. at_step. at_step. apply yields_ret. cbn. lia.
      + intros [[dur media] rate] [Hr Hr']. cbn in Hr, Hr'. at_step. step. by step.
    - intros [dur media] _. case_if; [apply IH; lia|]. step. apply IH; lia. }
  apply Hgo; lia.
Qed.
End Runs.

(** ** Times of the samples *)

(** The values of a table, sample by sample. *)
Definition expand (rs : list mp4TimeRun) : list Z := flat_map (fun r => repeat (rvalue r) (Z.to_nat (count r))) rs.
Definition in_sync (sync : option (list Z)) (i : Z) : bool := match sync with None => true | Some l => bool_decide (i ∈ l) end.
(** What the times are: sample [i] is decoded at the sum of the durations before it, and presented at its offset from there. *)
Fixpoint times_ref (sync : option (list Z)) (scale : Z) (shift : float64) (i dts : Z) (durations offsets : list Z) : list float64 :=
  match durations, offsets with
  | d :: ds, o :: os =>
      (if in_sync sync i then
         let t := f64_add (f64_div (f64_of_Z (dts + o)) (f64_of_Z scale)) shift in
         if f64_leb minus_micro t then [max_zero t] else []
       else []) ++ times_ref sync scale shift (i + 1) (dts + d) ds os
  | _, _ => []
  end.

(** A cursor stands for the values that are left. *)
Definition stands_for (c : mp4RunCursor) (l : list Z) : Prop :=
  match runs c with
  | [] => l = []
  | r :: rs => 0 < left_ c <= count r /\ run_ok r /\ Forall run_ok rs /\ l = repeat (rvalue r) (Z.to_nat (left_ c)) ++ expand rs
  end.
Lemma cursor_stands rs c : Forall run_ok rs -> cursor rs = Some c -> stands_for c (expand rs).
Proof.
  intros Hr. destruct rs as [|r rs]; [done|]. intros [= <-]. apply Forall_cons in Hr as [[H1 H2] Hr]. cbn. split_and!; try done; lia.
Qed.
Lemma stands_head c d l : stands_for c (d :: l) -> exists r rs, runs c = r :: rs /\ rvalue r = d.
Proof.
  unfold stands_for. destruct (runs c) as [|r rs]; [done|]. intros (H1 & _ & _ & Hl). exists r, rs. split; [done|].
  destruct (Z.to_nat (left_ c)) as [|n] eqn:E; [lia|]. cbn in Hl. by injection Hl as -> _.
Qed.
Lemma advance_stands c d l : stands_for c (d :: l) -> exists c', advance c = Some c' /\ stands_for c' l.
Proof.
  intros Hs. unfold stands_for in Hs. destruct (runs c) as [|r rs] eqn:Er; [done|]. destruct Hs as (H1 & [Hc Hv] & Hr & Hl).
  assert (Hd : l = repeat (rvalue r) (Z.to_nat (left_ c - 1)) ++ expand rs).
  { replace (Z.to_nat (left_ c)) with (S (Z.to_nat (left_ c - 1))) in Hl by lia. cbn in Hl. by injection Hl as _ ->. }
  assert (Hw : wrap_u32 (left_ c - 1) = left_ c - 1) by (unfold wrap_u32; apply Z.mod_small; lia).
  unfold advance. rewrite Hw, Er. destruct (Z.eqb_spec (left_ c - 1) 0) as [E|E].
  - eexists. split; [done|]. rewrite E in Hd. cbn in Hd. subst l. unfold stands_for. cbn [runs left_].
    destruct rs as [|r' rs]; [done|]. apply Forall_cons in Hr as [[H2 H3] Hr]. split_and!; try done; lia.
  - eexists. split; [done|]. unfold stands_for. cbn [runs left_]. rewrite ?Er. split_and!; try done; lia.
Qed.

(** The place in the list of key samples. *)
Definition sync_at (sync : option (list Z)) (si : nat) (sample : Z) : Prop :=
  match sync with
  | None => True
  | Some l => StronglySorted Z.lt l /\ Forall (fun x => x < sample) (take si l) /\ Forall (fun x => sample <= x) (drop si l)
  end.
Lemma sync_step sync si sample :
  sync_at sync si sample ->
  is_sync sync si sample = in_sync sync sample /\ sync_at sync (if is_sync sync si sample then S si else si) (sample + 1).
Proof.
  destruct sync as [l|]; [|done]. cbn. intros (Hs & H1 & H2).
  assert (Hin : sample ∈ l <-> sample ∈ drop si l).
  { rewrite <- (take_drop si l) at 1. rewrite elem_of_app. split; [|tauto]. intros [Hx|Hx]; [|done].
    rewrite Forall_forall in H1. specialize (H1 _ Hx). lia. }
  assert (Hw : Forall (fun x => x < sample + 1) (take si l)) by (eapply Forall_impl; [exact H1|]; cbn; lia).
  destruct (l !! si) as [s|] eqn:El.
  - rewrite (drop_S l s si El) in H2, Hin. apply Forall_cons in H2 as [H2 H3].
    assert (Hgt : Forall (fun x => s < x) (drop (S si) l)).
    { rewrite <- (take_drop si l), (drop_S l s si El) in Hs. apply StronglySorted_app in Hs as (_ & _ & Hs). by apply StronglySorted_inv in Hs as [_ Hs]. }
    assert (Hn : sample ∈ drop (S si) l -> s < sample) by (intros Hx; rewrite Forall_forall in Hgt; by apply Hgt).
    destruct (Z.eqb_spec sample s) as [<-|Hne].
    + split; [symmetry; apply bool_decide_eq_true, Hin; by left|]. split_and!; [done| |].
      * rewrite (take_S_r l si sample El). apply Forall_app. split; [done|]. apply Forall_singleton. lia.
      * eapply Forall_impl; [exact Hgt|]. cbn. lia.
    + split; [symmetry; apply bool_decide_eq_false; rewrite Hin, elem_of_cons; intros [?|Hx]; [done|]; specialize (Hn Hx); lia|].
      split_and!; try done. rewrite (drop_S l s si El). apply Forall_cons. split; [lia|].
      eapply Forall_impl; [exact Hgt|]. cbn. lia.
  - apply lookup_ge_None in El. rewrite (drop_ge l si El) in *. split; [symmetry; apply bool_decide_eq_false; rewrite Hin; apply not_elem_of_nil|].
    by split_and!.
Qed.

Lemma times_loop_ref sync scale shift ds : forall fuel decode present os si sample dts acc,
  stands_for decode ds -> stands_for present os -> length ds = length os -> (length ds <= fuel)%nat ->
  Forall (fun d => 0 <= d < 2 ^ 32) ds -> Forall (fun o => - 2 ^ 31 <= o < 2 ^ 32) os ->
  sync_at sync si sample -> 0 <= sample -> sample + Z.of_nat (length ds) < 2 ^ 32 ->
  0 <= dts -> dts + Z.of_nat (length ds) * 2 ^ 32 < 2 ^ 62 ->
  times_loop fuel decode present sync si sample dts scale shift acc = Some (acc ++ times_ref sync scale shift sample dts ds os).
Proof.
  induction ds as [|d ds IH]; intros fuel decode present os si sample dts acc Hd Hp Hlen Hf Hds Hos Hsy Hs1 Hs2 Ht1 Ht2.
  { unfold stands_for in Hd. destruct (runs decode) as [|r rs] eqn:Er; [|].
    - destruct fuel; cbn [times_loop]; rewrite Er; by rewrite app_nil_r.
    - destruct Hd as (H1 & _ & _ & Hl). destruct (Z.to_nat (left_ decode)) eqn:E; [lia|done]. }
  destruct os as [|o os]; [done|]. destruct fuel as [|fuel]; [cbn in Hf; lia|]. cbn [length] in *.
  apply Forall_cons in Hds as [Hd0 Hds], Hos as [Ho0 Hos].
  destruct (stands_head _ _ _ Hd) as (r & rs & Er & <-). destruct (stands_head _ _ _ Hp) as (p & ps & Ep & <-).
  destruct (advance_stands _ _ _ Hd) as (decode' & Ed' & Hd'). destruct (advance_stands _ _ _ Hp) as (present' & Ep' & Hp').
  destruct (sync_step _ _ _ Hsy) as [Hhit Hsy']. cbn [times_loop]. rewrite Er, Ep, Ed', Ep'.
  assert (Hw1 : wrap_u32 (sample + 1) = sample + 1) by (unfold wrap_u32; apply Z.mod_small; lia).
  assert (Hw2 : wrap_i64 (dts + rvalue r) = dts + rvalue r) by (unfold wrap_i64; rewrite Z.mod_small; lia).
  assert (Hw3 : sample_time scale shift dts (rvalue p) = f64_add (f64_div (f64_of_Z (dts + rvalue p)) (f64_of_Z scale)) shift).
  { unfold sample_time. f_equal. f_equal. f_equal. unfold wrap_i64. rewrite Z.mod_small; lia. }
  rewrite Hw1, Hw2, Hw3. clear Hw1 Hw2 Hw3. cbn [times_ref]. rewrite <- Hhit. destruct (is_sync sync si sample).
  - cbn zeta. rewrite (IH fuel decode' present' os (S si) (sample + 1) (dts + rvalue r) _ Hd' Hp') by (done || lia).
    case_if; by rewrite <- ?app_assoc.
  - by rewrite (IH fuel decode' present' os si (sample + 1) (dts + rvalue r) _ Hd' Hp') by (done || lia).
Qed.

Lemma run_total_from rs : Forall run_ok rs -> forall t, 0 <= t -> t + Z.of_nat (length rs) * 2 ^ 32 <= 2 ^ 64 ->
  fold_left (fun t r => wrap_u64 (t + count r)) rs t = t + Z.of_nat (length (expand rs)) /\
  Z.of_nat (length (expand rs)) <= Z.of_nat (length rs) * 2 ^ 32.
Proof.
  induction 1 as [|r rs [Hc _] Hr IH]; intros t Ht Hl; cbn [fold_left]; [cbn; lia|]. cbn [length] in Hl.
  assert (Hw : wrap_u64 (t + count r) = t + count r) by (unfold wrap_u64; apply Z.mod_small; lia). rewrite Hw. cbn [expand flat_map]. fold (expand rs). rewrite length_app, repeat_length.
  destruct (IH (t + count r) ltac:(lia) ltac:(lia)) as [H1 H2]. rewrite H1. cbn [length]. lia.
Qed.
Lemma run_total_length rs : Forall run_ok rs -> Z.of_nat (length rs) < 2 ^ 32 -> run_total rs = Z.of_nat (length (expand rs)).
Proof. intros Hr Hl. unfold run_total. destruct (run_total_from rs Hr 0 ltac:(lia) ltac:(lia)) as [H _]. lia. Qed.
Lemma expand_Forall (P : Z -> Prop) rs : Forall (fun r => P (rvalue r)) rs -> Forall P (expand rs).
Proof.
  induction 1 as [|r rs Hr Hrs IH]; [constructor|]. cbn. apply Forall_app. split; [|done].
  apply Forall_forall. intros x Hx. apply list_elem_of_In, repeat_spec in Hx. by subst.
Qed.
(** Key samples as the table must give them. *)
Definition sync_ok (sync : option (list Z)) : Prop :=
  match sync with None => True | Some l => StronglySorted Z.lt l /\ Forall (fun x => 1 <= x) l end.
Lemma presentation_times rs composition sync scale shift :
  runs_ok false rs -> runs_ok true composition -> run_total composition = run_total rs -> 0 < run_total rs <= 20000000 -> sync_ok sync ->
  mp4PresentationTimes rs composition sync scale shift = Some (times_ref sync scale shift 1 0 (expand rs) (expand composition)).
Proof.
  intros (R1 & R2 & R3) (C1 & C2 & _) Ht Hr Hs. unfold mp4PresentationTimes.
  pose proof (run_total_length rs R1 R2) as L1. pose proof (run_total_length composition C1 C2) as L2.
  destruct (cursor rs) as [d|] eqn:Ed; [|destruct rs; [cbn in Hr; lia|done]].
  destruct (cursor composition) as [p|] eqn:Ep; [|destruct composition; [cbn in Ht; lia|done]].
  rewrite (times_loop_ref sync scale shift (expand rs) _ d p (expand composition)); try done; try lia.
  - by apply cursor_stands.
  - by apply cursor_stands.
  - apply expand_Forall. specialize (R3 eq_refl). eapply Forall_impl; [apply Forall_and; split; [exact R1|exact R3]|].
    intros r [[_ H1] H2]. cbn in *. lia.
  - apply (expand_Forall (fun o => - 2 ^ 31 <= o < 2 ^ 32)). eapply Forall_impl; [exact C1|]. by intros r [_ ?].
  - destruct sync as [l|]; [|done]. destruct Hs as [H1 H2]. by split_and!.
Qed.

Section Whole.
Context (src : source) (alive : nat -> bool) (Hsrc : source_ok src).
Local Hint Resolve read_yields mp4Child_yields mp4Data_yields mp4Runs_yields mp4Timescale_yields mp4EditShift_yields boxes_yields : seek.

Lemma mp4Composition_yields stbl total :
  0 < total <= 20000000 -> yields (mp4Composition src alive stbl total) (fun c => runs_ok true c /\ run_total c = total).
Proof.
  intros Ht. unfold mp4Composition. eapply yields_bind; [by apply yields_orNone, mp4Child_yields|]. intros [ctts|] _.
  - eapply yields_bind; [by apply read_yields|]. intros b [_ Hb]. eapply yields_bind; [by apply mp4Runs_yields|]. intros c Hc.
    step. bprop. by apply yields_ret.
  - apply yields_ret. unfold wrap_u32. rewrite Z.mod_small by lia. split; [split_and!; [|cbn; lia|done]|].
    + repeat constructor; cbn; lia.
    + unfold run_total. cbn. unfold wrap_u64. rewrite Z.mod_small; lia.
Qed.
Lemma mp4SyncSamples_yields stbl total : yields (mp4SyncSamples src alive stbl total) sync_ok.
Proof.
  unfold mp4SyncSamples. eapply yields_bind; [by apply yields_orNone, mp4Child_yields|]. intros [stss|] _; [|step; by step].
  eapply yields_bind; [by apply yields_orElse; [|apply read_yields]|]. intros b [_ Hb]. step. bprop.
  eapply yields_bind; [apply byte_at_yields; [done|lia]|]. intros v _. step.
  eapply yields_bind; [apply be_at_yields; [done|lia|cbn; lia]|]. intros n _. step. bprop.
  assert (Hgo : forall left i prev sync, 0 <= i -> i + Z.of_nat left = n -> 0 <= prev ->
    StronglySorted Z.lt sync -> Forall (fun x => 1 <= x <= prev) sync ->
    yields (samples_loop left b i total prev sync) (fun l => sync_ok (Some l))).
  { induction left as [|left IH]; intros i prev sync Hi Hl Hp Hs Hf; cbn [samples_loop].
    - apply yields_ret. split; [done|]. eapply Forall_impl; [exact Hf|]. cbn. lia.
    - eapply yields_bind; [apply be_at_yields; [done|lia|cbn [Z.of_nat]; lia]|]. intros s Hx. cbn beta. step. bprop.
      rewrite Forall_forall in Hf. apply IH; [lia|lia|lia| |].
      + apply StronglySorted_app_2; [|done|repeat constructor]. intros x y Hx1 ->%list_elem_of_singleton. specialize (Hf x Hx1). lia.
      + apply Forall_app. split; [apply Forall_forall; intros x Hx1; specialize (Hf x Hx1); lia|]. apply Forall_singleton. lia. }
  eapply yields_bind; [apply Hgo; [lia|lia|lia|constructor|constructor]|]. intros l Hl. by apply yields_ret.
Qed.
Lemma mp4SyncTimes_yields stbl scale shift : yields (mp4SyncTimes src alive stbl scale shift) (fun _ => True).
Proof.
  unfold mp4SyncTimes. eapply yields_bind; [by apply mp4Data_yields|]. intros b Hb.
  eapply yields_bind; [by apply mp4Runs_yields|]. intros rs Hrs. cbn zeta. step. bprop.
  assert (Ht : 0 < run_total rs <= 20000000).
  { split; [|done]. destruct Hrs as (R1 & R2 & _). rewrite (run_total_length rs R1 R2) in *. lia. }
  eapply yields_bind; [by apply mp4Composition_yields|]. intros c [Hc Hct].
  eapply yields_bind; [by apply mp4SyncSamples_yields|]. intros sync Hsync.
  rewrite (presentation_times rs c sync scale shift) by done. by apply yields_ret.
Qed.
Lemma mp4_yields : yields (readMP4SeekIndex src alive) (fun _ => True).
Proof.
  unfold readMP4SeekIndex. eapply (yields_bind _ _ (fun _ => True)); [by intros r Hr|]. intros sz _. cbn zeta. step.
  eapply yields_bind; [by apply yields_orNone, mp4Child_yields|]. intros mvex _. step. step. step. step.
  rename a2 into tracks. clear - Hsrc. induction tracks as [|track rest IH]; cbn [tracks_loop]; [step|]. case_if; [apply IH|].
  step. eapply yields_bind; [by apply yields_orElse; [|apply mp4Data_yields]|]. intros hdlr Hh. step. case_if; [apply IH|].
  unfold mp4TrackTimes. step. step. step. step. step. apply mp4SyncTimes_yields.
Qed.
End Whole.

(** ** The list that is returned *)

(** A time a player can seek to. *)
Definition seekable (t : float64) : Prop := match t with S754_zero _ | S754_finite false _ _ => True | _ => False end.
Lemma seekable_checks t : IsNaN t || IsInf t || f64_ltb t f64_zero = false -> seekable t.
Proof. by destruct t as [[]|[]| |[] m e]. Qed.
Lemma f64_ltb_trans a b c : seekable a -> seekable b -> seekable c -> f64_ltb a b = true -> f64_ltb b c = true -> f64_ltb a c = true.
Proof.
  assert (Hf : forall m e m' e', f64_ltb (S754_finite false m e) (S754_finite false m' e') = true <-> e < e' \/ e = e' /\ (m < m')%positive).
  { intros m e m' e'. unfold f64_ltb, SFltb. cbn. destruct (Z.compare_spec e e') as [->|H|H]; [|split; [by left|done]|split; [done|intros ?; exfalso; lia]].
    change (Pos.compare_cont Eq m m') with (Pos.compare m m').
    destruct (Pos.compare_spec m m') as [->|H|H]; split; try done; [|by right|]; intros [?|[_ ?]]; exfalso; lia. }
  destruct a as [|[]| |[] ma ea], b as [|[]| |[] mb eb], c as [|[]| |[] mc ec]; try done.
  rewrite !Hf. lia.
Qed.
Lemma dedupe_spec l last out :
  dedupe_times last l = Some out -> match last with None => True | Some x => seekable x end ->
  Forall seekable out /\ StronglySorted (fun a b => f64_ltb a b = true) out /\ Forall (fun t => t ∈ l) out /\
  match last with None => l <> [] -> out <> [] | Some x => Forall (fun t => f64_ltb x t = true) out end.
Proof.
  revert last out. induction l as [|t l IH]; intros last out; cbn [dedupe_times].
  { intros [= <-] _. split_and!; try constructor. by destruct last. }
  case_if; [done|]. match goal with H : _ = false |- _ => apply seekable_checks in H as Ht end.
  assert (Hin : forall o, Forall (fun t => t ∈ l) o -> Forall (fun x => x ∈ t :: l) o).
  { intros o Ho. eapply Forall_impl; [exact Ho|]. intros x Hx. by right. }
  destruct (match last with None => true | Some x => f64_ltb x t end) eqn:El.
  - destruct (dedupe_times (Some t) l) as [out'|] eqn:Ed; [|done]. intros [= <-] Hlast.
    destruct (IH _ _ Ed Ht) as (H1 & H2 & H3 & H4). split_and!.
    + by constructor.
    + by constructor.
    + constructor; [by left|by apply Hin].
    + destruct last as [x|]; [|done]. constructor; [done|]. rewrite Forall_forall in *. intros y Hy.
      apply (f64_ltb_trans x t y); try done; [by apply H1|by apply H4].
  - destruct last as [x|]; [|done]. intros Hd Hlast. destruct (IH _ _ Hd Hlast) as (H1 & H2 & H3 & H4). split_and!; try done. by apply Hin.
Qed.
Lemma normalize_spec kfs out :
  normalizeSeekTimes kfs = Some out ->
  out <> [] /\ Forall seekable out /\ StronglySorted (fun a b => f64_ltb a b = true) out /\ Forall (fun t => t ∈ kfs) out.
Proof.
  unfold normalizeSeekTimes. destruct kfs as [|k ks]; [done|]. intros Hd. destruct (dedupe_spec _ _ _ Hd I) as (H1 & H2 & H3 & H4).
  assert (Hp : forall t, t ∈ sort_SliceStable f64_less (k :: ks) -> t ∈ k :: ks) by (intros t; by rewrite sort_SliceStable_perm).
  split_and!; try done; [|eapply Forall_impl; [exact H3|done]]. apply H4. intros Hn.
  pose proof (sort_SliceStable_perm f64_less (k :: ks)) as Hx. rewrite Hn in Hx. by apply Permutation_nil_cons in Hx.
Qed.

(** C40: Reading a seek table is safe for every file and every server, however hostile: it ends in an error that is no panic, or in
    at least one time, all of them finite, not negative and strictly increasing.  And what it reads is bounded: never more
    than 32 MiB of bytes and one byte more for each request to a server, of which there are at most 32 * 2^20. *)
Theorem keyframes_safe src alive :
  source_ok src ->
  match container_times src alive (mkReader (start_size src) ∅ 0 [] 0 0 0) with
  | (Ok ts, r) => ts <> [] /\ Forall seekable ts /\ StronglySorted (fun a b => f64_ltb a b = true) ts
      /\ fetched r <= 33554432 + Z.of_nat (asked r) /\ Z.of_nat (asked r) <= 33554432
  | (Err e, r) => e <> Panic /\ fetched r <= 33554432 + Z.of_nat (asked r) /\ Z.of_nat (asked r) <= 33554432
  end.
Proof.
  intros Hsrc.
  assert (Hy : yields (container_times src alive) (fun ts => ts <> [] /\ Forall seekable ts /\ StronglySorted (fun a b => f64_ltb a b = true) ts)).
  { unfold container_times. eapply yields_bind; [by apply read_yields|]. intros b _.
    eapply (yields_bind _ _ (fun _ => True)); [case_if; [by apply matroska_yields|by apply mp4_yields]|]. intros kfs _.
    destruct (normalizeSeekTimes kfs) as [l|] eqn:En; [|by apply yields_fail]. apply yields_ret.
    destruct (normalize_spec _ _ En) as (H1 & H2 & H3 & _). done. }
  assert (Hr : reader_ok (mkReader (start_size src) ∅ 0 [] 0 0 0)).
  { split; [|by split_and!]. intros k b Hk. cbn in Hk. by rewrite lookup_empty in Hk. }
  specialize (Hy _ Hr). destruct (container_times src alive _) as [[ts|e] r]; destruct Hy as [[_ (B1 & B2 & B3)] Hp]; unfold seekIndexBudget in B3.
  - destruct Hp as (H1 & H2 & H3). split_and!; try done; lia.
  - split_and!; [done|lia|lia].
Qed.

(** The times of an MP4 track are those of its tables.  With the tables the parser accepts, walking the runs with two cursors
    and a pointer into the key samples gives, without a panic and without overflow, the list of times defined sample by sample:
    the durations before it, plus its composition offset, over the time scale, plus the shift of the edit list. *)
Lemma mp4_times_reference rs composition sync scale shift :
  runs_ok false rs -> runs_ok true composition -> run_total composition = run_total rs -> 0 < run_total rs <= 20000000 -> sync_ok sync ->
  mp4PresentationTimes rs composition sync scale shift = Some (times_ref sync scale shift 1 0 (expand rs) (expand composition)).
Proof. apply presentation_times. Qed.

(** * Demonstrations *)

Fixpoint be_bytes (w : nat) (v : Z) : bytes := match w with O => [] | S w' => be_bytes w' (v / 256) ++ [v mod 256] end.
(** A Matroska element with a body of less than 127 bytes, and an MP4 box. *)
Definition el (w : nat) (i : Z) (body : bytes) : bytes := be_bytes w i ++ (128 + Z.of_nat (length body)) :: body.
Definition box (k : string) (b : bytes) : bytes := be_bytes 4 (8 + Z.of_nat (length b)) ++ str k ++ b.
Definition cue (w : nat) (stamp : Z) : bytes := el 1 0xbb (el 1 0xb3 (be_bytes w stamp) ++ el 1 0xb7 (el 1 0xf7 [1])).
Definition demo_mkv : bytes :=
  el 4 0x1a45dfa3 [] ++
  el 4 0x18538067 (el 4 0x1549a966 (el 3 0x2ad7b1 (be_bytes 3 1000000)) ++ el 4 0x1654ae6b (el 1 0xae (el 1 0xd7 [1] ++ el 1 0x83 [1])) ++
    el 4 0x1c53bb6b (cue 1 0 ++ cue 2 2500)).
Definition demo_header (scale : Z) : bytes := be_bytes 12 0 ++ be_bytes 4 scale ++ be_bytes 4 0.
Definition demo_mp4 : bytes :=
  box "ftyp" (str "isom") ++
  box "moov" (box "mvhd" (demo_header 1000) ++ box "trak" (
    box "edts" (box "elst" (be_bytes 8 1 ++ be_bytes 4 3000 ++ be_bytes 4 100 ++ be_bytes 4 0x10000)) ++
    box "mdia" (box "mdhd" (demo_header 100) ++ box "hdlr" (be_bytes 8 0 ++ str "vide") ++ box "minf" (box "stbl" (
      box "stts" (be_bytes 8 2 ++ be_bytes 4 2 ++ be_bytes 4 50 ++ be_bytes 4 2 ++ be_bytes 4 100) ++
      box "ctts" (be_bytes 8 1 ++ be_bytes 4 4 ++ be_bytes 4 100) ++
      box "stss" (be_bytes 8 2 ++ be_bytes 4 1 ++ be_bytes 4 3)))))).
Definition on_disk (d : bytes) : source := LocalFile d (fun _ => true).
Definition half (n : Z) : float64 := f64_div (f64_of_Z n) (f64_of_Z 2).
(** Cues at 0 and 2.5 seconds; key samples presented at 0 and 1 second. *)
Lemma demo_mkv_times : ReadContainerKeyframes (on_disk demo_mkv) (fun _ => true) = Ok [f64_zero; half 5].
Proof. vm_compute. reflexivity. Qed.
Lemma demo_mp4_times : ReadContainerKeyframes (on_disk demo_mp4) (fun _ => true) = Ok [f64_zero; half 2].
Proof. vm_compute. reflexivity. Qed.

Lemma keyframes_safe_witness :
  match container_times (on_disk demo_mp4) (fun _ => true) (mkReader (start_size (on_disk demo_mp4)) ∅ 0 [] 0 0 0) with
  | (Ok ts, r) => ts <> [] /\ Forall seekable ts /\ StronglySorted (fun a b => f64_ltb a b = true) ts
      /\ fetched r <= 33554432 + Z.of_nat (asked r) /\ Z.of_nat (asked r) <= 33554432
  | (Err e, r) => e <> Panic /\ fetched r <= 33554432 + Z.of_nat (asked r) /\ Z.of_nat (asked r) <= 33554432
  end.
Proof. apply keyframes_safe. apply (bool_decide_eq_true_1 (wf_bytes demo_mp4)). vm_compute. reflexivity. Defined.
Definition demo_durations : list mp4TimeRun := [mkRun 2 50; mkRun 2 100].
Definition demo_offsets : list mp4TimeRun := [mkRun 4 100].
Lemma mp4_times_reference_witness :
  mp4PresentationTimes demo_durations demo_offsets (Some [1; 3]) 100 (f64_of_Z (-1)) =
  Some (times_ref (Some [1; 3]) 100 (f64_of_Z (-1)) 1 0 (expand demo_durations) (expand demo_offsets)).
Proof.
  apply mp4_times_reference.
  - split_and!; [repeat apply Forall_cons_2; try apply Forall_nil_2; split; cbn; lia|cbn; lia|intros _; repeat apply Forall_cons_2; try apply Forall_nil_2; cbn; lia].
  - split_and!; [repeat apply Forall_cons_2; try apply Forall_nil_2; split; cbn; lia|cbn; lia|discriminate].
  - reflexivity.
  - vm_compute. split; [reflexivity|discriminate].
  - split; [repeat constructor; lia|repeat apply Forall_cons_2; try apply Forall_nil_2; lia].
Defined.
