(* ===== verification/CopyVod.v ===== *)
(** The segment table of a copied stream: planCopySegments of
    internal/engine/hls_copy_vod.go, validatedCopySegments, copyVODViable,
    shouldTranscodeForResume, copySourceKeyframes and indexKeyframesFast of
    hls_copy_vod_fastindex.go, and planCopyVOD, over the key frames of SeekIndex.
    The demuxer behind IndexKeyframes and the probe for IDR cuts are answers.

    The playlist that is built from the table is immutable, so the table must name
    real key frames only and cover the whole film. *)
From Stdlib Require Import ZArith Lia Ascii String SpecFloat.
From stdpp Require Import prelude list strings sorting gmap.
From S2P Require Import Prelude GoStrings SeekIndex.

Open Scope Z_scope.

(** * The table *)

(** Decimal constants of the source, correctly rounded. *)
Definition milli (n : Z) : float64 := f64_div (f64_of_Z n) (f64_of_Z 1000).
Definition copyVODTargetSec : float64 := f64_of_Z 6.

(** One key frame of planCopySegments: the starts after the first, and the last of them. *)
Definition plan_step (duration : float64) (st : list float64 * float64) (kf : float64) : list float64 * float64 :=
  let '(interior, last) := st in
  if f64_leb kf (f64_add last (milli 1)) || f64_leb (f64_sub duration (milli 1)) kf then st
  else if f64_leb copyVODTargetSec (f64_sub kf last) then (interior ++ [kf], kf)
  else st.
Definition planCopySegments (keyframes : list float64) (duration : float64) : list float64 :=
  let '(interior, last) := fold_left (plan_step duration) keyframes ([], f64_zero) in
  match interior with
  | [] => [f64_zero; duration]
  | _ => if f64_ltb (f64_sub duration last) (f64_of_Z 1) then f64_zero :: removelast interior ++ [duration]
         else f64_zero :: interior ++ [duration]
  end.

(** The loop over the key frames: each after the one before, and before the end. *)
Fixpoint ordered_within (previous duration : float64) (kfs : list float64) : bool :=
  match kfs with
  | [] => true
  | kf :: rest =>
      if IsNaN kf || IsInf kf || f64_leb kf previous || f64_leb duration kf then false else ordered_within kf duration rest
  end.
Fixpoint gaps_within (limit : float64) (starts : list float64) : bool :=
  match starts with
  | a :: ((b :: _) as rest) => if f64_ltb limit (f64_sub b a) then false else gaps_within limit rest
  | _ => true
  end.
Definition validatedCopySegments (kfs : list float64) (duration : float64) : option (list float64) :=
  match kfs with
  | [] => None
  | k0 :: _ =>
      if IsNaN duration || IsInf duration || f64_leb duration f64_zero then None
      else if f64_ltb k0 f64_zero || f64_ltb (milli 250) k0 then None
      else if negb (ordered_within (f64_of_Z (-1)) duration kfs) then None
      else
        let starts := planCopySegments kfs duration in
        if gaps_within (f64_of_Z 30) starts then Some starts else None
  end.

(** ** When to copy *)

Record hlsConfig := mkHls { Fmp4Only : bool; SingleConnection : bool; directEnv : bool; StartSec : float64 }.
(** copyVODViable; [codecOk] is the codec table's answer for the probed file. *)
Definition copyVODViable (cfg : hlsConfig) (codecOk : option bool) : bool :=
  if Fmp4Only cfg then false
  else if SingleConnection cfg && directEnv cfg then false
  else default false codecOk.
Definition resumeTranscodeThresholdSec : float64 := f64_of_Z 120.
Definition shouldTranscodeForResume (cfg : hlsConfig) (durationSec : option float64) : bool :=
  if f64_leb (StartSec cfg) resumeTranscodeThresholdSec then false
  else match durationSec with
       | None => false
       | Some d => if f64_leb d f64_zero then false else f64_ltb (StartSec cfg) d
       end.

(** ** The key frames of a source *)

Section Plan.
Context (src : source) (alive : nat -> bool).
(** [remote]: SourceURL is set; [demuxed]: IndexKeyframes' answer. *)
Definition copySourceKeyframes (remote : bool) (demuxed : option (list float64)) : option (list float64) :=
  match ReadContainerKeyframes src alive with
  | Ok kfs => Some kfs
  | Err _ => if remote then None else demuxed
  end.
(** [cached]: ReadCachedKeyframes' answer, the sidecar of an earlier run. *)
Definition indexKeyframesFast (remote : bool) (cached : list float64) (demuxed : option (list float64)) (durationSec : float64) : option (list float64) :=
  let kfs := if remote then [] else cached in
  match (match kfs with [] => copySourceKeyframes remote demuxed | _ => Some kfs end) with
  | None => None
  | Some kfs => validatedCopySegments kfs durationSec
  end.
(** The table, and whether the session must encode; [hasIDR] is copySourceHasIDR's answer. *)
Definition planCopyVOD (remote : bool) (cached : list float64) (demuxed : option (list float64)) (durationSec : float64)
    (hasIDR : list float64 -> bool) : option (list float64) * bool :=
  match indexKeyframesFast remote cached demuxed durationSec with
  | None => (None, false)
  | Some starts =>
      if (length starts <? 2)%nat then (None, false)
      else if negb (hasIDR starts) then (None, true)
      else (Some starts, false)
  end.
End Plan.

(** * Lemmas *)

(** Key frames a film can have: finite, and not negative. *)
Lemma zero_or_above k : IsNaN k || IsInf k = false -> f64_ltb k f64_zero = false -> seekable k.
Proof. intros H1 H2. apply seekable_checks. by rewrite H1, H2. Qed.
Lemma not_leb a b : seekable a -> seekable b -> f64_leb a b = false -> f64_ltb b a = true.
Proof.
  unfold f64_leb, f64_ltb, SFleb, SFltb. destruct a as [|[]| |[] ma ea], b as [|[]| |[] mb eb]; try done. intros _ _. cbn.
  destruct (Z.compare_spec ea eb) as [->|H|H]; [|done|].
  - change (Pos.compare_cont Eq) with Pos.compare. destruct (Pos.compare_spec ma mb) as [->|H|H]; try done.
    intros _. rewrite Z.compare_refl. by apply Pos.compare_lt_iff in H as ->.
  - intros _. apply Z.compare_lt_iff in H. by rewrite H.
Qed.
Lemma above_milli k : seekable k -> f64_leb k (f64_add f64_zero (milli 1)) = false -> f64_ltb f64_zero k = true.
Proof. by destruct k as [|[]| |[] m e]. Qed.

(** Each key frame is a time in the film, after those before it. *)
Lemma ordered_within_spec kfs previous duration :
  ordered_within previous duration kfs = true -> seekable previous -> seekable duration ->
  Forall (fun k => f64_ltb k f64_zero = false) kfs ->
  Forall seekable kfs /\ Forall (fun k => f64_ltb previous k = true /\ f64_ltb k duration = true) kfs /\
  StronglySorted (fun a b => f64_ltb a b = true) kfs.
Proof.
  revert previous. induction kfs as [|k kfs IH]; intros previous; cbn [ordered_within]; [intros; split_and!; constructor|].
  case_if; [done|]. intros Ho Hp Hd [Hk Hks]%Forall_cons. repeat match goal with H : _ || _ = false |- _ => apply orb_false_elim in H as [? ?] end.
  assert (Hs : seekable k) by (apply zero_or_above; [by apply orb_false_iff|done]).
  destruct (IH k Ho Hs Hd Hks) as (I1 & I2 & I3). rewrite Forall_forall in I1, I2.
  assert (Hpk : f64_ltb previous k = true) by by apply not_leb. split_and!.
  - constructor; [done|]. by apply Forall_forall.
  - constructor; [split; [done|by apply not_leb]|]. apply Forall_forall. intros x Hx. destruct (I2 x Hx) as [X1 X2].
    split; [|done]. apply (f64_ltb_trans previous k x); try done. by apply I1.
  - constructor; [done|]. apply Forall_forall. intros x Hx. by apply I2.
Qed.

(** The starts that are chosen: key frames, in order, after the beginning. *)
Lemma plan_fold kfs : forall interior last duration,
  Forall seekable kfs -> StronglySorted (fun a b => f64_ltb a b = true) (interior ++ kfs) ->
  Forall (fun k => seekable k /\ f64_ltb f64_zero k = true) interior -> (interior = [] -> last = f64_zero) ->
  let '(interior', last') := fold_left (plan_step duration) kfs (interior, last) in
  StronglySorted (fun a b => f64_ltb a b = true) interior' /\ Forall (fun k => k ∈ interior \/ k ∈ kfs) interior' /\
  Forall (fun k => seekable k /\ f64_ltb f64_zero k = true) interior'.
Proof.
  induction kfs as [|k kfs IH]; intros interior last duration Hs Hsort Hpos Hlast; cbn [fold_left].
  { rewrite app_nil_r in Hsort. split_and!; try done. apply Forall_forall. tauto. }
  apply Forall_cons in Hs as [Hk Hs].
  assert (Hskip : StronglySorted (fun a b => f64_ltb a b = true) (interior ++ kfs)).
  { apply StronglySorted_app in Hsort as (H1 & H2 & H3). apply StronglySorted_inv in H3 as [H3 _].
    apply StronglySorted_app_2; try done. intros x y Hx Hy. apply H1; [done|by right]. }
  assert (Hweak : forall i l : list float64, Forall (fun x => x ∈ i \/ x ∈ kfs) l -> Forall (fun x => x ∈ i \/ x ∈ k :: kfs) l).
  { intros i l Hl. eapply Forall_impl; [exact Hl|]. intros x [?|?]; [by left|right; by right]. }
  unfold plan_step at 2. destruct (f64_leb k (f64_add last (milli 1)) || f64_leb (f64_sub duration (milli 1)) k) eqn:E1.
  { specialize (IH interior last duration Hs Hskip Hpos Hlast). destruct (fold_left (plan_step duration) kfs (interior, last)) as [i' l'].
    destruct IH as (I1 & I2 & I3). split_and!; try done. by apply Hweak. }
  destruct (f64_leb copyVODTargetSec (f64_sub k last)).
  - assert (Hk0 : f64_ltb f64_zero k = true).
    { apply orb_false_elim in E1 as [E1 _]. destruct interior as [|i0 ir]; [rewrite (Hlast eq_refl) in E1; by apply above_milli|].
      apply StronglySorted_app in Hsort as (H1 & _ & _). apply Forall_cons in Hpos as [[Hp0 Hp1] _].
      apply (f64_ltb_trans f64_zero i0 k); try done. apply H1; by left. }
    specialize (IH (interior ++ [k]) k duration Hs). rewrite <- app_assoc in IH. cbn [app] in IH. specialize (IH Hsort).
    destruct (fold_left (plan_step duration) kfs (interior ++ [k], k)) as [i' l'].
    destruct IH as (I1 & I2 & I3); [apply Forall_app; split; [done|by apply Forall_singleton]|by intros Hn; destruct interior|].
    split_and!; try done. eapply Forall_impl; [exact I2|]. intros x [[?|?%list_elem_of_singleton]%elem_of_app|?]; subst; [by left|right; by left|right; by right].
  - specialize (IH interior last duration Hs Hskip Hpos Hlast). destruct (fold_left (plan_step duration) kfs (interior, last)) as [i' l'].
    destruct IH as (I1 & I2 & I3). split_and!; try done. by apply Hweak.
Qed.
Lemma removelast_sub {A} (l : list A) x : x ∈ removelast l -> x ∈ l.
Proof.
  destruct (decide (l = [])) as [->|Hn]; [done|]. destruct (exists_last Hn) as (l' & a & ->). rewrite removelast_last.
  intros Hx. apply elem_of_app. by left.
Qed.
Lemma removelast_sorted {A} (R : A -> A -> Prop) l : StronglySorted R l -> StronglySorted R (removelast l).
Proof.
  destruct (decide (l = [])) as [->|Hn]; [done|]. destruct (exists_last Hn) as (l' & a & ->). rewrite removelast_last.
  apply StronglySorted_app_1_l.
Qed.
(** A table of key frames between the beginning and the end. *)
Lemma table_ok duration interior (kfs : list float64) :
  f64_ltb f64_zero duration = true -> StronglySorted (fun a b => f64_ltb a b = true) interior ->
  Forall (fun k => f64_ltb f64_zero k = true /\ f64_ltb k duration = true /\ k ∈ kfs) interior ->
  StronglySorted (fun a b => f64_ltb a b = true) (f64_zero :: interior ++ [duration]).
Proof.
  intros Hd Hs Hi. rewrite Forall_forall in Hi. constructor.
  - apply StronglySorted_app_2; [|done|repeat constructor]. intros x y Hx ->%list_elem_of_singleton. by apply Hi.
  - apply Forall_app. split; [|by apply Forall_singleton]. apply Forall_forall. intros x Hx. by apply Hi.
Qed.

(** What the checks say of the key frames. *)
Lemma kfs_times k0 ks duration :
  ordered_within (f64_of_Z (-1)) duration (k0 :: ks) = true -> f64_ltb k0 f64_zero = false -> seekable duration ->
  Forall seekable (k0 :: ks) /\ Forall (fun k => f64_ltb k duration = true) (k0 :: ks) /\ StronglySorted (fun a b => f64_ltb a b = true) (k0 :: ks).
Proof.
  intros Ho Hk Hd. cbn [ordered_within] in Ho. case_if_in Ho; [done|].
  repeat match goal with H : _ || _ = false |- _ => apply orb_false_elim in H as [? ?] end.
  assert (Hk0 : seekable k0) by (apply zero_or_above; [by apply orb_false_iff|done]).
  assert (Hpos : Forall (fun k => f64_ltb k f64_zero = false) ks).
  { clear - Ho Hk0. revert k0 Ho Hk0. induction ks as [|k ks IH]; intros k0 Ho Hk0; [constructor|].
    cbn [ordered_within] in Ho. case_if_in Ho; [done|]. repeat match goal with H : _ || _ = false |- _ => apply orb_false_elim in H as [? ?] end.
    assert (Hp : f64_ltb k f64_zero = false) by (destruct k0 as [|[]| |[] ? ?], k as [|[]| |[] ? ?]; done).
    constructor; [done|]. apply (IH k); [done|]. apply zero_or_above; [by apply orb_false_iff|done]. }
  destruct (ordered_within_spec ks k0 duration Ho Hk0 Hd Hpos) as (K1 & K2 & K3). split_and!; [by constructor| |].
  - constructor; [by apply not_leb|]. eapply Forall_impl; [exact K2|]. by intros x [? ?].
  - constructor; [done|]. eapply Forall_impl; [exact K2|]. by intros x [? ?].
Qed.
Lemma plan_table kfs duration :
  Forall seekable kfs -> Forall (fun k => f64_ltb k duration = true) kfs -> StronglySorted (fun a b => f64_ltb a b = true) kfs ->
  exists interior, planCopySegments kfs duration = f64_zero :: interior ++ [duration] /\
    StronglySorted (fun a b => f64_ltb a b = true) interior /\
    Forall (fun k => f64_ltb f64_zero k = true /\ f64_ltb k duration = true /\ k ∈ kfs) interior.
Proof.
  intros K1 K2 K3. unfold planCopySegments.
  pose proof (plan_fold kfs [] f64_zero duration K1 K3 ltac:(constructor) ltac:(done)) as Hf.
  destruct (fold_left (plan_step duration) kfs ([], f64_zero)) as [interior last]. destruct Hf as (F1 & F2 & F3).
  assert (Hin : forall x, x ∈ interior -> f64_ltb f64_zero x = true /\ f64_ltb x duration = true /\ x ∈ kfs).
  { rewrite Forall_forall in F2, F3, K2. intros x Hx. destruct (F2 x Hx) as [Hn|Hn]; [by apply not_elem_of_nil in Hn|].
    split_and!; [by apply (F3 x Hx)|by apply K2|done]. }
  destruct interior as [|i0 ir] eqn:Ei; [exists []; split_and!; constructor|]. rewrite <- Ei in *. case_if.
  - exists (removelast interior). split_and!; [done|by apply removelast_sorted|]. apply Forall_forall. intros x Hx. by apply Hin, removelast_sub.
  - exists interior. split_and!; [done|done|by apply Forall_forall].
Qed.

(** What an accepted table is. *)
Lemma validated_table kfs duration starts :
  validatedCopySegments kfs duration = Some starts ->
  StronglySorted (fun a b => f64_ltb a b = true) starts /\ gaps_within (f64_of_Z 30) starts = true /\
  exists interior, starts = f64_zero :: interior ++ [duration] /\ Forall (fun k => k ∈ kfs) interior.
Proof.
  unfold validatedCopySegments. destruct kfs as [|k0 ks]; [done|]. intros Hv.
  case_if_in Hv; [done|]. case_if_in Hv; [done|]. case_if_in Hv; [done|]. cbn zeta in Hv. case_if_in Hv; [|done]. injection Hv as <-.
  repeat match goal with H : _ || _ = false |- _ => apply orb_false_elim in H as [? ?] end.
  match goal with H : negb _ = false |- _ => apply negb_false_iff in H; rename H into Ho end.
  assert (Hd : seekable duration /\ f64_ltb f64_zero duration = true) by (destruct duration as [|[]| |[] m e]; done).
  destruct (kfs_times k0 ks duration Ho) as (K1 & K2 & K3); [done|apply Hd|].
  destruct (plan_table (k0 :: ks) duration K1 K2 K3) as (interior & Hp & Hs & Hi). rewrite Hp in *.
  split_and!; [eapply table_ok; [apply Hd|done|done]|done|]. exists interior. split; [done|].
  eapply Forall_impl; [exact Hi|]. by intros x (_ & _ & ?).
Qed.

(** The segment table of a copied stream covers the film and cuts at real key frames.  Whatever the container, the
    sidecar of an earlier run, the demuxer and the probe answered, a table that is published begins at zero and ends at the
    duration, rises strictly, has no segment of more than thirty seconds, and every cut in between is a key frame that the
    sidecar, the container's own index or the demuxer named; for a remote source it is the container's index.  The
    probe for IDR cuts passed for that very table. *)
Lemma copy_segments_real src alive remote cached demuxed duration hasIDR starts encode :
  planCopyVOD src alive remote cached demuxed duration hasIDR = (Some starts, encode) ->
  encode = false /\ hasIDR starts = true
  /\ StronglySorted (fun a b => f64_ltb a b = true) starts /\ gaps_within (f64_of_Z 30) starts = true
  /\ exists kfs interior, starts = f64_zero :: interior ++ [duration] /\ Forall (fun k => k ∈ kfs) interior
     /\ (ReadContainerKeyframes src alive = Ok kfs \/ remote = false /\ (kfs = cached \/ demuxed = Some kfs)).
Proof.
  unfold planCopyVOD, indexKeyframesFast, copySourceKeyframes. intros Hp.
  destruct (match (if remote then [] else cached) with [] => _ | _ => _ end) as [kfs|] eqn:Ek; [|done].
  destruct (validatedCopySegments kfs duration) as [st|] eqn:Ev; [|done]. case_if_in Hp; [done|]. case_if_in Hp; [done|].
  injection Hp as -> <-. destruct (validated_table _ _ _ Ev) as (V1 & V2 & interior & V3 & V4).
  split_and!; [done|by apply negb_false_iff|done|done|]. exists kfs, interior. split_and!; [done|done|].
  destruct remote, cached; cbn in Ek; try destruct (ReadContainerKeyframes src alive); simplify_eq; tauto.
Qed.

(** * Demonstrations *)

Definition seconds (l : list Z) : list float64 := map f64_of_Z l.
(** Ten seconds of tail are kept, half a second is folded into the segment before it. *)
Lemma demo_plan : planCopySegments (seconds [0; 2; 7; 9; 14; 20]) (f64_of_Z 30) = seconds [0; 7; 14; 20; 30].
Proof. vm_compute. reflexivity. Qed.
Lemma demo_tail : planCopySegments (seconds [0; 7; 14]) (milli 14500) = seconds [0; 7] ++ [milli 14500].
Proof. vm_compute. reflexivity. Qed.
(** The film of SeekIndex's Matroska demonstration, twenty seconds long. *)
Definition demo_starts : list float64 := [f64_zero; f64_of_Z 20].
Lemma demo_plan_mkv : planCopyVOD (on_disk demo_mkv) (fun _ => true) true [] None (f64_of_Z 20) (fun _ => true) = (Some demo_starts, false).
Proof. vm_compute. reflexivity. Qed.
Lemma copy_segments_real_witness :
  StronglySorted (fun a b => f64_ltb a b = true) demo_starts /\ gaps_within (f64_of_Z 30) demo_starts = true.
Proof. split; apply (copy_segments_real _ _ _ _ _ _ _ _ _ demo_plan_mkv). Defined.
