(* ===== verification/StreamToken.v ===== *)
(** Tokens of stream addresses: internal/engine/stream_token.go.

    HMAC-SHA256 and SHA-256 are parameters.  A token is the expiry, a dot and the
    keyed digest of the scope and the expiry; a time is its Unix second. *)
From Stdlib Require Import ZArith Lia Ascii String.
From stdpp Require Import prelude list strings.
From S2P Require Import Prelude GoStrings.

Open Scope Z_scope.

Definition CCOLON : Z := 58.
(** hex.EncodeToString *)
Definition hex_string (b : bytes) : bytes := flat_map (fun c => [hex_digit (c / 16); hex_digit (c mod 16)]) b.
(** strings.IndexByte *)
Fixpoint index_byte (c : Z) (s : bytes) : option nat :=
  match s with
  | [] => None
  | b :: s' => if b =? c then Some O else S <$> index_byte c s'
  end.

(** A number that parses has a sign and digits only. *)
Lemma parse_uint_digits maxv s : forall n un, parse_uint_loop 10 maxv n s = (un, NumOk) -> Forall (fun b => 48 <= b <= 57) s.
Proof.
  induction s as [|b s IH]; intros n un; cbn [parse_uint_loop]; [constructor|].
  destruct (digit_val 10 b) as [d|] eqn:Ed; [|done]. cbn zeta. case_if; [done|]. intros H. constructor; [|by eapply IH].
  clear -Ed. unfold digit_val, hex_val, is_digit in Ed.
  destruct ((48 <=? b) && (b <=? 57)) eqn:E1; [bprop; lia|]. exfalso.
  destruct ((97 <=? b) && (b <=? 122)) eqn:E2; [|destruct ((65 <=? b) && (b <=? 90)) eqn:E3; [|done]];
    case_if_in Ed; try done; bprop; lia.
Qed.
Lemma parse_uint_range maxv s : forall n un, parse_uint_loop 10 maxv n s = (un, NumRange) -> un = maxv.
Proof.
  induction s as [|b s IH]; intros n un; cbn [parse_uint_loop]; [done|].
  destruct (digit_val 10 b) as [d|]; [|done]. cbn zeta. case_if; [congruence|]. apply IH.
Qed.
Lemma ParseInt_chars s v : ParseInt s = (v, NumOk) -> Forall (fun b => b = 43 \/ b = 45 \/ 48 <= b <= 57) s.
Proof.
  unfold ParseInt. destruct s as [|b s]; [done|]. cbn zeta.
  destruct (ParseUint (if (b =? 43) || (b =? 45) then s else b :: s) 10 64) as [un e] eqn:E. intros H.
  assert (Hd : Forall (fun b => 48 <= b <= 57) (if (b =? 43) || (b =? 45) then s else b :: s)).
  { unfold ParseUint in E. destruct (if (b =? 43) || (b =? 45) then s else b :: s) as [|c r]; [constructor|].
    destruct e; [by eapply parse_uint_digits|done|]. apply parse_uint_range in E. subst un.
    by destruct (b =? 45). }
  destruct ((b =? 43) || (b =? 45)) eqn:Eb.
  - apply orb_true_iff in Eb as [Eb|Eb]; apply Z.eqb_eq in Eb; subst b;
      (constructor; [tauto | eapply Forall_impl; [exact Hd | cbn; tauto]]).
  - eapply Forall_impl; [exact Hd | cbn; tauto].
Qed.
Lemma ParseInt_no c s v : ParseInt s = (v, NumOk) -> c = DOT \/ c = CCOLON -> c ∉ s.
Proof.
  intros H Hc Hin. apply ParseInt_chars in H. rewrite Forall_forall in H. specialize (H c Hin).
  unfold DOT, CCOLON in *. lia.
Qed.
Lemma hex_no_dot b : wf_bytes b -> DOT ∉ hex_string b.
Proof.
  intros H Hin. induction H as [|x b Hx _ IH]; cbn in Hin; [by apply not_elem_of_nil in Hin|].
  rewrite !elem_of_cons in Hin. unfold is_byte in Hx. pose proof (Z.mod_pos_bound x 16 ltac:(lia)).
  pose proof (Z.div_pos x 16 ltac:(lia) ltac:(lia)).
  destruct Hin as [Hin|[Hin|Hin]]; [| |by apply IH]; unfold hex_digit, DOT in Hin; case_if_in Hin; lia.
Qed.
(** The last separator of a text splits it in one way. *)
Lemma last_split (c : Z) a b a' b' : c ∉ b -> c ∉ b' -> a ++ c :: b = a' ++ c :: b' -> a = a' /\ b = b'.
Proof.
  intros Hb Hb'. revert a'. induction a as [|x a IH]; intros [|y a']; cbn; intros H; simplify_eq.
  - done.
  - destruct Hb. apply elem_of_app. right. by left.
  - destruct Hb'. apply elem_of_app. right. by left.
  - match goal with H : _ ++ _ = _ ++ _ |- _ => apply IH in H as [-> ->] end. done.
Qed.

Section Tokens.
Context (hmac : bytes -> bytes -> bytes) (sha256 : bytes -> bytes).

Definition streamTokenTTL : Z := 6 * 60 * 60.
Definition streamScopeStream : bytes := str "stream".
Definition streamScopeHLS (sessionID : bytes) : bytes := str "hls:" ++ sessionID.
Definition streamScopeUsenet (id : bytes) : bytes := str "usenet:" ++ id.
Definition streamScopeThumb (filePath : bytes) : bytes := str "thumb:" ++ hex_string (sha256 filePath).
Definition streamScopeSub (filePath : bytes) (index : Z) : bytes := str "sub:" ++ hex_string (sha256 filePath) ++ str ":" ++ Itoa index.
Definition streamScopeFonts (filePath : bytes) : bytes := str "fonts:" ++ hex_string (sha256 filePath).

Definition streamTokenMAC (secret scope expStr : bytes) : bytes := hex_string (hmac secret (scope ++ CCOLON :: expStr)).
Definition mintStreamToken (secret scope : bytes) (now : Z) : bytes :=
  let expStr := Itoa (wrap_i64 (now + streamTokenTTL)) in
  expStr ++ DOT :: streamTokenMAC secret scope expStr.
Definition verifyStreamToken (secret scope token : bytes) (now : Z) : bool :=
  match index_byte DOT token with
  | None | Some O => false
  | Some dot =>
      if (length token - 1 <=? dot)%nat then false
      else
        let expStr := take dot token in
        let gotMAC := drop (S dot) token in
        match ParseInt expStr with
        | (exp, NumOk) => if exp <? now then false else bytes_eqb gotMAC (streamTokenMAC secret scope expStr)
        | _ => false
        end
  end.

(** * Lemmas *)

Lemma index_byte_app c a b : c ∉ a -> index_byte c (a ++ c :: b) = Some (length a).
Proof.
  induction a as [|x a IH]; intros Hn; cbn; [by rewrite Z.eqb_refl|]. apply not_elem_of_cons in Hn as [H1 H2].
  destruct (Z.eqb_spec x c); [congruence|]. by rewrite IH.
Qed.
Lemma digits_no_dot n : 0 <= n -> DOT ∉ Itoa n.
Proof. intros Hn Hd. pose proof (Itoa_digits n Hn) as Hf. rewrite Forall_forall in Hf. by apply Hf in Hd. Qed.
Lemma hex_digit_inj a b : 0 <= a < 16 -> 0 <= b < 16 -> hex_digit a = hex_digit b -> a = b.
Proof. unfold hex_digit. intros Ha Hb. repeat case_if; bprop; lia. Qed.
Lemma hex_string_inj a b : wf_bytes a -> wf_bytes b -> hex_string a = hex_string b -> a = b.
Proof.
  intros Ha. revert b. induction Ha as [|x a Hx Ha IH]; intros b Hb; destruct Hb as [|y b Hy Hb]; cbn; try done.
  unfold is_byte in *. intros [= H1 H2 H3].
  assert (Hr : forall z, 0 <= z < 256 -> 0 <= z / 16 < 16 /\ 0 <= z mod 16 < 16).
  { intros z Hz. split; [split; [apply Z.div_pos; lia|apply Z.div_lt_upper_bound; lia]|apply Z.mod_pos_bound; lia]. }
  apply hex_digit_inj in H1, H2; try by apply Hr.
  f_equal; [|by apply IH]. rewrite (Z.div_mod x 16), (Z.div_mod y 16) by lia. congruence.
Qed.
Lemma hex_string_length b : length (hex_string b) = (2 * length b)%nat.
Proof. induction b as [|x b IH]; [done|]. unfold hex_string in *. cbn. rewrite IH. lia. Qed.

(** The parts of a token that is accepted. *)
Lemma index_byte_split c s n : index_byte c s = Some n -> s = take n s ++ c :: drop (S n) s.
Proof.
  revert n. induction s as [|b s IH]; intros n; cbn; [done|]. destruct (Z.eqb_spec b c) as [->|].
  - by intros [= <-].
  - destruct (index_byte c s) as [k|]; [|done]. intros [= <-]. cbn. f_equal. by apply IH.
Qed.
Lemma verify_parts secret scope token now :
  verifyStreamToken secret scope token now = true -> exists expStr exp,
  token = expStr ++ DOT :: streamTokenMAC secret scope expStr /\ ParseInt expStr = (exp, NumOk) /\ now <= exp.
Proof.
  unfold verifyStreamToken. destruct (index_byte DOT token) as [[|dot]|] eqn:Ei; try done. case_if; [done|].
  destruct (ParseInt (take (S dot) token)) as [exp []] eqn:Ep; try done. case_if; [done|]. bprop. intros Hm%bytes_eqb_eq.
  exists (take (S dot) token), exp. split_and!; [|done|done]. rewrite <- Hm. by apply index_byte_split.
Qed.
Lemma verify_minted secret scope scope' now0 now :
  0 <= now0 -> now0 + streamTokenTTL <= i64_max -> hmac secret (scope' ++ CCOLON :: Itoa (now0 + streamTokenTTL)) <> [] ->
  verifyStreamToken secret scope (mintStreamToken secret scope' now0) now =
  (now <=? now0 + streamTokenTTL) &&
  bytes_eqb (streamTokenMAC secret scope' (Itoa (now0 + streamTokenTTL))) (streamTokenMAC secret scope (Itoa (now0 + streamTokenTTL))).
Proof.
  intros H0 H1 Hne. unfold mintStreamToken. rewrite wrap_i64_id by (unfold is_i64, i64_min, streamTokenTTL in *; lia).
  set (e := now0 + streamTokenTTL) in *. assert (He : 0 <= e) by (unfold e, streamTokenTTL; lia). cbn zeta.
  unfold verifyStreamToken. rewrite index_byte_app by by apply digits_no_dot.
  assert (Hn : Itoa e <> []) by apply Itoa_nonempty. destruct (length (Itoa e)) as [|k] eqn:El; [by destruct (Itoa e)|]. rewrite <- El.
  assert (Hm : (0 < length (streamTokenMAC secret scope' (Itoa e)))%nat).
  { unfold streamTokenMAC. rewrite hex_string_length. destruct (hmac secret (scope' ++ CCOLON :: Itoa e)); [done|cbn; lia]. }
  rewrite (proj2 (Nat.leb_gt _ _)) by (rewrite length_app; cbn; lia).
  rewrite take_app_length. replace (S (length (Itoa e))) with (length (Itoa e ++ [DOT])) by (rewrite length_app; cbn; lia).
  replace (Itoa e ++ DOT :: streamTokenMAC secret scope' (Itoa e)) with ((Itoa e ++ [DOT]) ++ streamTokenMAC secret scope' (Itoa e)) by by rewrite <- app_assoc.
  rewrite drop_app_length, ParseInt_Itoa by (unfold i64_max in *; lia).
  rewrite Z.leb_antisym. by destruct (e <? now).
Qed.

(** A stream token opens what it was minted for, until it expires, and its digest is of no use for anything else.
    It is accepted for its scope exactly up to six hours after it was minted.  Whatever token carries the digest of a minted one,
    with the expiry or the scope exchanged, is either that very token for that very scope, or shows two different messages with
    the same HMAC under the daemon's secret: the text that is signed tells scopes and expiries apart. *)
Lemma token_opens_its_scope secret scope now0 :
  (forall m, wf_bytes (hmac secret m) /\ length (hmac secret m) = 32%nat) ->
  0 <= now0 -> now0 + streamTokenTTL <= i64_max ->
  let expStr := Itoa (now0 + streamTokenTTL) in
  mintStreamToken secret scope now0 = expStr ++ DOT :: streamTokenMAC secret scope expStr
  /\ (forall now, verifyStreamToken secret scope (mintStreamToken secret scope now0) now = (now <=? now0 + streamTokenTTL))
  /\ (forall scope' e now,
      verifyStreamToken secret scope' (e ++ DOT :: streamTokenMAC secret scope expStr) now = true ->
      scope' = scope /\ e = expStr \/ exists m m', m <> m' /\ hmac secret m = hmac secret m').
Proof.
  intros Hm H0 H1 expStr. assert (Hwf : forall m, DOT ∉ hex_string (hmac secret m)) by (intros m; apply hex_no_dot, Hm).
  assert (Hc : CCOLON ∉ expStr).
  { apply (ParseInt_no _ _ (now0 + streamTokenTTL)); [apply ParseInt_Itoa; unfold streamTokenTTL in *; lia | by right]. }
  split_and!.
  - unfold mintStreamToken. rewrite wrap_i64_id by (unfold is_i64, i64_min, streamTokenTTL in *; lia). done.
  - intros now. rewrite verify_minted; [|done|done|].
    + rewrite (proj2 (bytes_eqb_eq _ _) eq_refl). apply andb_true_r.
    + intros Hn. pose proof (proj2 (Hm (scope ++ CCOLON :: expStr))) as Hl. unfold expStr in Hl. rewrite Hn in Hl. discriminate Hl.
  - intros scope' e now Hv. destruct (verify_parts _ _ _ _ Hv) as (e' & v & He & Hp & _).
    apply last_split in He as [-> He]; [|apply Hwf|apply Hwf]. apply hex_string_inj in He; [|apply Hm|apply Hm].
    destruct (decide (scope ++ CCOLON :: expStr = scope' ++ CCOLON :: e')) as [Heq|Hne]; [left|right; eauto].
    apply last_split in Heq as [-> ->]; [done|done|]. apply (ParseInt_no _ _ v); [done|by right].
Qed.

(** The scopes of different resources are different, and name their session, source, file or track. *)
Lemma scopes_apart a b p q i j :
  (forall x y, sha256 x = sha256 y -> x = y) -> (forall x, wf_bytes (sha256 x) /\ length (sha256 x) = 32%nat) -> 0 <= i -> 0 <= j ->
  (streamScopeHLS a = streamScopeHLS b -> a = b) /\ (streamScopeUsenet a = streamScopeUsenet b -> a = b) /\
  (streamScopeThumb p = streamScopeThumb q -> p = q) /\ (streamScopeFonts p = streamScopeFonts q -> p = q) /\
  (streamScopeSub p i = streamScopeSub q j -> p = q /\ i = j) /\
  NoDup [streamScopeStream; streamScopeHLS a; streamScopeUsenet a; streamScopeThumb p; streamScopeSub p i; streamScopeFonts p].
Proof.
  intros Hinj Hwf Hi Hj. split_and!.
  - by intros ?%app_inv_head.
  - by intros ?%app_inv_head.
  - intros ?%app_inv_head%hex_string_inj; [by apply Hinj|apply Hwf|apply Hwf].
  - intros ?%app_inv_head%hex_string_inj; [by apply Hinj|apply Hwf|apply Hwf].
  - intros H%app_inv_head. apply app_inj_1 in H as [H1 H2]; [|rewrite !hex_string_length; by rewrite !(proj2 (Hwf _))].
    split; [apply Hinj, hex_string_inj; [apply Hwf|apply Hwf|done]|]. apply app_inv_head in H2.
    assert (Hp2 : ParseUint (Itoa i) 10 (Z.max (Z.log2 i) (Z.log2 j) + 1) = (i, NumOk) /\ ParseUint (Itoa j) 10 (Z.max (Z.log2 i) (Z.log2 j) + 1) = (j, NumOk)).
    { split; apply ParseUint_Itoa; (split; [done|]).
      - destruct (decide (i = 0)) as [->|]; [apply Z.pow_pos_nonneg; [lia|pose proof (Z.log2_nonneg j); cbn; lia]|].
        apply Z.log2_lt_pow2; lia.
      - destruct (decide (j = 0)) as [->|]; [apply Z.pow_pos_nonneg; [lia|pose proof (Z.log2_nonneg i); cbn; lia]|].
        apply Z.log2_lt_pow2; lia. }
    destruct Hp2 as [P1 P2]. rewrite H2 in P1. congruence.
  - repeat (apply NoDup_cons; split; [rewrite ?not_elem_of_cons; split_and?; try apply not_elem_of_nil; intros H; apply (f_equal (take 2)) in H; vm_compute in H; discriminate H|]). constructor.
Qed.
End Tokens.

(** * Demonstrations *)

(** A digest of thirty-two bytes, for the demonstration only. *)
Definition toy_hmac (key m : bytes) : bytes := map (fun x => x mod 256) (resize 32 0 m).
Lemma toy_hmac_ok key m : wf_bytes (toy_hmac key m) /\ length (toy_hmac key m) = 32%nat.
Proof.
  unfold toy_hmac. split; [|by rewrite length_map, length_resize].
  apply Forall_forall. intros x (y & -> & _)%list_elem_of_fmap. unfold is_byte. pose proof (Z.mod_pos_bound y 256 ltac:(lia)). lia.
Qed.
Lemma demo_token :
  verifyStreamToken toy_hmac [] (streamScopeHLS (str "s1")) (mintStreamToken toy_hmac [] (streamScopeHLS (str "s1")) 1000) 22600 = true /\
  verifyStreamToken toy_hmac [] (streamScopeHLS (str "s2")) (mintStreamToken toy_hmac [] (streamScopeHLS (str "s1")) 1000) 2000 = false /\
  verifyStreamToken toy_hmac [] (streamScopeHLS (str "s1")) (mintStreamToken toy_hmac [] (streamScopeHLS (str "s1")) 1000) 22601 = false.
Proof. split_and!; vm_compute; reflexivity. Qed.
Lemma token_opens_its_scope_witness :
  verifyStreamToken toy_hmac [] (streamScopeHLS (str "s1")) (mintStreamToken toy_hmac [] (streamScopeHLS (str "s1")) 1000) 2000 =
  (2000 <=? 1000 + streamTokenTTL).
Proof.
  apply (token_opens_its_scope toy_hmac [] (streamScopeHLS (str "s1")) 1000); [apply toy_hmac_ok | lia | vm_compute; discriminate].
Defined.
