(* ===== verification/Iptv.v ===== *)
(** One provider connection: internal/engine/playback_hold.go and iptv.go.

    An IPTV account allows one connection.  Downloads take turns, hold a token while
    their transfer may have the connection open, and give way while something plays;
    a stream pins the hold and waits for the token before it opens the provider.  The
    machine's events are the channel operations, the critical sections of the hold
    and the ends of transfers; the clock and the contexts are inputs. *)
From Stdlib Require Import ZArith Lia.
From stdpp Require Import prelude list gmap.
From S2P Require Import Prelude.

Open Scope Z_scope.

(** * The hold *)

(** PlaybackHold: the lease of the last report, [None] for the zero time, and the pins. *)
Record PlaybackHold := mkHold { ttl : Z; until : option Z; pins : nat }.
(** state and Held *)
Definition Held (h : PlaybackHold) (now : Z) : bool :=
  (0 <? pins h)%nat || match until h with Some u => 0 <? u - now | None => false end.
Definition Set_ (h : PlaybackHold) (held : bool) (now : Z) : PlaybackHold :=
  mkHold (ttl h) (if held then Some (now + ttl h) else None) (pins h).
Definition Pin (h : PlaybackHold) : PlaybackHold := mkHold (ttl h) (until h) (S (pins h)).
Definition Unpin (h : PlaybackHold) : PlaybackHold := mkHold (ttl h) (until h) (pred (pins h)).

(** * The machine *)

(** Where a call of Download is: waiting for its turn, at the top of the loop, in
    WaitReleased, waiting for the connection token, about to look at the hold again,
    in its transfer (and whether playback has cancelled it). *)
Inductive taskPhase := TTurn | TTop | TWait | TConn | TCheck | TXfer (interrupted : bool).
(** Where a stream is: pinned and waiting, holding the token for a moment, playing,
    or playing after it had waited long enough. *)
Inductive streamPhase := SPinned | SToken | SPlaying | SLate.
Inductive holder := OfTask (t : nat) | OfStream (s : nat).

Record iptv := mkIptv {
  clock : Z; hold : PlaybackHold; turn : option nat; conn : option holder;
  tasks : gmap nat taskPhase; streams : gmap nat streamPhase
}.
Definition with_task (m : iptv) (t : nat) (p : taskPhase) : iptv :=
  mkIptv (clock m) (hold m) (turn m) (conn m) (<[t := p]> (tasks m)) (streams m).
Definition with_stream (m : iptv) (s : nat) (p : streamPhase) : iptv :=
  mkIptv (clock m) (hold m) (turn m) (conn m) (tasks m) (<[s := p]> (streams m)).
Definition with_conn (m : iptv) (c : option holder) : iptv := mkIptv (clock m) (hold m) (turn m) c (tasks m) (streams m).
(** Download returns: its turn is given back. *)
Definition finish (m : iptv) (t : nat) : iptv :=
  mkIptv (clock m) (hold m) None (conn m) (delete t (tasks m)) (streams m).

Inductive event :=
| EDownload (t : nat)                       (* Download is called *)
| ETurn (t : nat)                           (* takeTurn gets the channel *)
| ETop (t : nat)                            (* waitPlayback looks at the hold *)
| EReleased (t : nat)                       (* WaitReleased returns *)
| EConn (t : nat)                           (* attempt gets the token *)
| ECheck (t : nat)                          (* the second look at the hold *)
| EWatch (t : nat)                          (* WaitHeld returned: the transfer is cancelled *)
| EXferEnd (t : nat) (ok cancelled : bool)  (* the transfer returned; whether the task's context has ended *)
| ECancelled (t : nat)                      (* a wait ended with the task's context *)
| EPin (s : nat)                            (* HoldForStream pins the hold *)
| EToken (s : nat)                          (* and gets the token *)
| EPlay (s : nat)                           (* gives it back and opens the provider *)
| EGiveUp (s : nat)                         (* or has waited long enough *)
| ERelease (s : nat)                        (* the stream no longer reads *)
| EReport (held : bool)                     (* a sync report *)
| ETick (d : Z).

Definition step (m : iptv) (e : event) : option iptv :=
  match e with
  | EDownload t => match tasks m !! t with None => Some (with_task m t TTurn) | _ => None end
  | ETurn t =>
      match tasks m !! t, turn m with
      | Some TTurn, None => Some (mkIptv (clock m) (hold m) (Some t) (conn m) (<[t := TTop]> (tasks m)) (streams m))
      | _, _ => None
      end
  | ETop t =>
      match tasks m !! t with
      | Some TTop => Some (with_task m t (if Held (hold m) (clock m) then TWait else TConn))
      | _ => None
      end
  | EReleased t =>
      match tasks m !! t with
      | Some TWait => if Held (hold m) (clock m) then None else Some (with_task m t TConn)
      | _ => None
      end
  | EConn t =>
      match tasks m !! t, conn m with
      | Some TConn, None => Some (with_task (with_conn m (Some (OfTask t))) t TCheck)
      | _, _ => None
      end
  | ECheck t =>
      match tasks m !! t with
      | Some TCheck => Some (if Held (hold m) (clock m) then with_task (with_conn m None) t TTop else with_task m t (TXfer false))
      | _ => None
      end
  | EWatch t =>
      match tasks m !! t with
      | Some (TXfer false) => if Held (hold m) (clock m) then Some (with_task m t (TXfer true)) else None
      | _ => None
      end
  | EXferEnd t ok cancelled =>
      match tasks m !! t with
      | Some (TXfer interrupted) =>
          Some (if ok || cancelled || negb interrupted then finish (with_conn m None) t else with_task (with_conn m None) t TTop)
      | _ => None
      end
  | ECancelled t =>
      match tasks m !! t with
      | Some TTurn => Some (mkIptv (clock m) (hold m) (turn m) (conn m) (delete t (tasks m)) (streams m))
      | Some TWait | Some TConn => Some (finish m t)
      | _ => None
      end
  | EPin s =>
      match streams m !! s with
      | None => Some (mkIptv (clock m) (Pin (hold m)) (turn m) (conn m) (tasks m) (<[s := SPinned]> (streams m)))
      | _ => None
      end
  | EToken s =>
      match streams m !! s, conn m with
      | Some SPinned, None => Some (with_stream (with_conn m (Some (OfStream s))) s SToken)
      | _, _ => None
      end
  | EPlay s => match streams m !! s with Some SToken => Some (with_stream (with_conn m None) s SPlaying) | _ => None end
  | EGiveUp s => match streams m !! s with Some SPinned => Some (with_stream m s SLate) | _ => None end
  | ERelease s =>
      match streams m !! s with
      | Some SPlaying | Some SLate => Some (mkIptv (clock m) (Unpin (hold m)) (turn m) (conn m) (tasks m) (delete s (streams m)))
      | _ => None
      end
  | EReport held => Some (mkIptv (clock m) (Set_ (hold m) held (clock m)) (turn m) (conn m) (tasks m) (streams m))
  | ETick d => if d <? 0 then None else Some (mkIptv (clock m + d) (hold m) (turn m) (conn m) (tasks m) (streams m))
  end.

(** NewIptvDownloader with a hold. *)
Definition start (ttl0 : Z) : iptv := mkIptv 0 (mkHold ttl0 None 0) None None ∅ ∅.
Inductive reachable (ttl0 : Z) : iptv -> Prop :=
| reach_start : reachable ttl0 (start ttl0)
| reach_step m e m' : reachable ttl0 m -> step m e = Some m' -> reachable ttl0 m'.
Fixpoint run (m : iptv) (l : list event) : option iptv :=
  match l with [] => Some m | e :: l' => match step m e with Some m' => run m' l' | None => None end end.

(** Whether a task has its turn, and the token. *)
Definition has_turn (p : taskPhase) : bool := match p with TTurn => false | _ => true end.
Definition has_token (p : taskPhase) : bool := match p with TCheck | TXfer _ => true | _ => false end.

(** * The invariant *)

Record inv (m : iptv) : Prop := {
  iv_turn : forall t, turn m = Some t <-> exists p, tasks m !! t = Some p /\ has_turn p = true;
  iv_task_conn : forall t, conn m = Some (OfTask t) <-> exists p, tasks m !! t = Some p /\ has_token p = true;
  iv_stream_conn : forall s, conn m = Some (OfStream s) <-> streams m !! s = Some SToken;
  iv_pins : pins (hold m) = size (streams m);
  iv_alone : forall s t i, tasks m !! t = Some (TXfer i) -> streams m !! s <> Some SToken /\ streams m !! s <> Some SPlaying
}.

(** One stream pins the hold as long as it has not been released. *)
Lemma pinned_held m s p : inv m -> streams m !! s = Some p -> Held (hold m) (clock m) = true.
Proof.
  intros I E. unfold Held. rewrite (iv_pins _ I).
  destruct (size (streams m)) eqn:Z; [|done].
  apply map_size_empty_inv in Z. rewrite Z in E. set_solver.
Qed.
Lemma idle_no_stream m s : inv m -> Held (hold m) (clock m) = false -> streams m !! s = None.
Proof. intros I H. destruct (streams m !! s) eqn:E; [|done]. rewrite (pinned_held _ _ _ I E) in H. discriminate H. Qed.

(** The two sides of "this task has it", after a task's phase changed. *)
Lemma upd_has (f : taskPhase -> bool) (M : gmap nat taskPhase) t p t' :
  (exists q, <[t := p]> M !! t' = Some q /\ f q = true) <->
  (t' = t /\ f p = true) \/ (t' <> t /\ exists q, M !! t' = Some q /\ f q = true).
Proof.
  destruct (decide (t' = t)) as [-> | N]; [rewrite lookup_insert_eq | rewrite lookup_insert_ne by done]; naive_solver.
Qed.
Lemma upd_keep (f : taskPhase -> bool) (M : gmap nat taskPhase) t p p' t' :
  M !! t = Some p -> f p' = f p ->
  (exists q, <[t := p']> M !! t' = Some q /\ f q = true) <-> exists q, M !! t' = Some q /\ f q = true.
Proof.
  intros E F. destruct (decide (t' = t)) as [-> | N]; [rewrite lookup_insert_eq | by rewrite lookup_insert_ne by done].
  split; intros (q & Q & T); simplify_eq; eauto with congruence.
Qed.
Lemma del_has (f : taskPhase -> bool) (M : gmap nat taskPhase) t t' :
  (exists q, delete t M !! t' = Some q /\ f q = true) <-> t' <> t /\ exists q, M !! t' = Some q /\ f q = true.
Proof.
  destruct (decide (t' = t)) as [-> | N]; [rewrite lookup_delete_eq | rewrite lookup_delete_ne by done]; naive_solver.
Qed.

(** A task moves without giving or taking anything; it enters its transfer only with
    no stream at the provider. *)
Lemma task_move_inv m t p p' :
  inv m -> tasks m !! t = Some p -> has_turn p' = has_turn p -> has_token p' = has_token p ->
  (forall i, p' = TXfer i -> (exists j, p = TXfer j) \/ forall s, streams m !! s = None) ->
  inv (with_task m t p').
Proof.
  intros [It Ic Is Ip Ia] E Ht Hk Hx. constructor; simpl.
  - intros t'. rewrite It. symmetry. by eapply upd_keep.
  - intros t'. rewrite Ic. symmetry. by eapply upd_keep.
  - done.
  - done.
  - intros s t' i L. destruct (decide (t' = t)) as [-> |].
    + rewrite lookup_insert_eq in L. injection L as ->. destruct (Hx i eq_refl) as [[j ->] | N]; [eauto | by rewrite N].
    + rewrite lookup_insert_ne in L by done. eauto.
Qed.

(** It takes the token when nobody has it, and gives it back. *)
Lemma task_take_inv m t p p' :
  inv m -> tasks m !! t = Some p -> conn m = None -> has_turn p' = has_turn p -> has_token p' = true ->
  (forall i, p' <> TXfer i) -> inv (with_task (with_conn m (Some (OfTask t))) t p').
Proof.
  intros [It Ic Is Ip Ia] E F Ht Hk Hx. constructor; simpl.
  - intros t'. rewrite It. symmetry. by eapply upd_keep.
  - intros t'. rewrite upd_has, Hk, <- Ic, F. naive_solver.
  - intros s. rewrite <- Is, F. naive_solver.
  - done.
  - intros s t' i L. destruct (decide (t' = t)) as [-> |].
    + rewrite lookup_insert_eq in L. naive_solver.
    + rewrite lookup_insert_ne in L by done. eauto.
Qed.
Lemma task_give_inv m t p p' :
  inv m -> tasks m !! t = Some p -> has_token p = true -> has_turn p' = has_turn p -> has_token p' = false ->
  inv (with_task (with_conn m None) t p').
Proof.
  intros [It Ic Is Ip Ia] E F Ht Hk.
  assert (C : conn m = Some (OfTask t)) by (apply Ic; eauto). constructor; simpl.
  - intros t'. rewrite It. symmetry. by eapply upd_keep.
  - intros t'. rewrite upd_has, Hk, <- Ic, C. naive_solver.
  - intros s. rewrite <- Is, C. naive_solver.
  - done.
  - intros s t' i L. destruct (decide (t' = t)) as [-> |].
    + rewrite lookup_insert_eq in L. naive_solver.
    + rewrite lookup_insert_ne in L by done. eauto.
Qed.
Lemma task_finish_inv m t p : inv m -> tasks m !! t = Some p -> has_turn p = true -> has_token p = false -> inv (finish m t).
Proof.
  intros [It Ic Is Ip Ia] E F K.
  assert (C : turn m = Some t) by (apply It; eauto). constructor; simpl; try done.
  - intros t'. rewrite del_has, <- It, C. naive_solver.
  - intros t'. rewrite del_has, <- Ic. split; [|naive_solver].
    intros D. split; [|done]. intros ->. apply Ic in D as (q & Q & T). congruence.
  - intros s t' i L. apply lookup_delete_Some in L as [_ L]. eauto.
Qed.

(** A stream moves: it keeps, takes or gives the token. *)
Lemma stream_move_inv m s p p' c :
  inv m -> streams m !! s = Some p ->
  (forall t, c = Some (OfTask t) <-> conn m = Some (OfTask t)) ->
  (forall s', c = Some (OfStream s') <-> <[s := p']> (streams m) !! s' = Some SToken) ->
  (p' = SToken \/ p' = SPlaying -> forall t, conn m <> Some (OfTask t)) ->
  inv (with_stream (with_conn m c) s p').
Proof.
  intros [It Ic Is Ip Ia] E Hc Hs Hp. constructor; simpl; try done.
  - intros t. rewrite Hc. apply Ic.
  - rewrite map_size_insert_Some by eauto. done.
  - intros s' t i L. destruct (decide (s' = s)) as [-> |].
    + rewrite lookup_insert_eq. assert (conn m = Some (OfTask t)) as X by (apply Ic; eauto).
      split; intros [= ->]; eapply Hp; eauto.
    + rewrite lookup_insert_ne by done. eauto.
Qed.

Lemma finish_give m t : finish (with_task (with_conn m None) t TTop) t = finish (with_conn m None) t.
Proof. unfold finish. simpl. by rewrite delete_insert_eq. Qed.
Lemma stream_release_inv m s p :
  inv m -> streams m !! s = Some p -> p <> SToken ->
  inv (mkIptv (clock m) (Unpin (hold m)) (turn m) (conn m) (tasks m) (delete s (streams m))).
Proof.
  intros [It Ic Is Ip Ia] E N. constructor; simpl; try done.
  - intros s'. rewrite Is, lookup_delete_Some. split; [|tauto]. intros L. split; [congruence | done].
  - rewrite map_size_delete_Some by eauto. by rewrite Ip.
  - intros s' t i L. pose proof (Ia s' t i L). rewrite !lookup_delete_Some. naive_solver.
Qed.

Ltac step_cases :=
  repeat match goal with
  | H : context [match ?x with _ => _ end] |- _ => destruct x eqn:?; try discriminate H
  end; simplify_eq.

Lemma inv_step m e m' : inv m -> step m e = Some m' -> inv m'.
Proof.
  intros I H. destruct e as [t|t|t|t|t|t|t|t ok ca|t|s|s|s|s|s|h|d]; simpl in H; step_cases.
  - destruct I as [It Ic Is Ip Ia]. constructor; simpl; try done.
    + intros t'. rewrite It, upd_has. naive_solver.
    + intros t'. rewrite Ic, upd_has. naive_solver.
    + intros s t' i L. apply lookup_insert_Some in L as [[_ L] | [_ L]]; [discriminate L | eauto].
  - destruct I as [It Ic Is Ip Ia]. constructor; simpl; try done.
    + intros t'. rewrite upd_has, <- It. naive_solver.
    + intros t'. rewrite Ic, upd_has. naive_solver.
    + intros s t' i L. apply lookup_insert_Some in L as [[_ L] | [_ L]]; [discriminate L | eauto].
  - eapply task_move_inv; eauto; naive_solver.
  - eapply task_move_inv; eauto; naive_solver.
  - eapply task_move_inv; eauto; naive_solver.
  - eapply task_take_inv; eauto; naive_solver.
  - eapply task_give_inv; eauto.
  - eapply task_move_inv; eauto. intros i _. right. intros s. by apply idle_no_stream.
  - eapply task_move_inv; eauto.
  - rewrite <- (finish_give m t). eapply task_finish_inv; [by eapply task_give_inv | | |]; simpl; [by rewrite lookup_insert_eq | done | done].
  - by eapply task_give_inv.
  - destruct I as [It Ic Is Ip Ia]. constructor; simpl; try done.
    + intros t'. rewrite It, del_has. split; [|tauto]. intros T. split; [|done]. intros ->. destruct T as (q & Q & T). by simplify_eq.
    + intros t'. rewrite Ic, del_has. split; [|tauto]. intros T. split; [|done]. intros ->. destruct T as (q & Q & T). by simplify_eq.
    + intros s t' i L. apply lookup_delete_Some in L as [_ L]. eauto.
  - by eapply task_finish_inv.
  - by eapply task_finish_inv.
  - destruct I as [It Ic Is Ip Ia]. constructor; simpl; try done.
    + intros s'. rewrite Is, lookup_insert_Some. naive_solver.
    + rewrite map_size_insert_None by done. by rewrite Ip.
    + intros s' t i L. pose proof (Ia s' t i L). rewrite !lookup_insert_Some. naive_solver.
  - eapply stream_move_inv; eauto; try naive_solver.
    intros s'. rewrite lookup_insert_Some. pose proof (iv_stream_conn _ I s') as X. rewrite Heqo0 in X. naive_solver.
  - pose proof (proj2 (iv_stream_conn _ I s) Heqo) as C. eapply stream_move_inv; eauto; try naive_solver.
    intros s'. rewrite lookup_insert_Some. pose proof (iv_stream_conn _ I s') as X. rewrite C in X. naive_solver.
  - replace m with (with_conn m (conn m)) by (by destruct m). eapply stream_move_inv; eauto; try naive_solver.
    intros s'. rewrite lookup_insert_Some. pose proof (iv_stream_conn _ I s') as X. rewrite X. naive_solver.
  - eapply stream_release_inv; eauto.
  - eapply stream_release_inv; eauto.
  - by destruct I.
  - by destruct I.
Qed.
Lemma reachable_inv ttl0 m : reachable ttl0 m -> inv m.
Proof.
  induction 1 as [|m e m' _ IH E]; [|by eapply inv_step].
  constructor; simpl; try done; intros; split; try discriminate; intros; try rewrite lookup_empty in *; naive_solver.
Qed.

(** The lease never runs past one [ttl] from now. *)
Record lease_ok (ttl0 : Z) (m : iptv) : Prop := {
  lo_ttl : ttl (hold m) = ttl0;
  lo_until : forall u, until (hold m) = Some u -> u <= clock m + ttl0
}.
Lemma lease_step ttl0 m e m' : lease_ok ttl0 m -> step m e = Some m' -> lease_ok ttl0 m'.
Proof.
  intros [T U] H. destruct e; simpl in H; step_cases; constructor; simpl; try done.
  all: intros u E; bprop; try specialize (U u E); try destruct held; simplify_eq; lia.
Qed.
Lemma reachable_lease ttl0 m : reachable ttl0 m -> lease_ok ttl0 m.
Proof. induction 1; [by constructor | by eapply lease_step]. Qed.
Lemma lapsed ttl0 m : reachable ttl0 m -> streams m = ∅ -> Held (hold m) (clock m + ttl0) = false.
Proof.
  intros R E. destruct (reachable_lease _ _ R) as [_ U]. unfold Held.
  rewrite (iv_pins _ (reachable_inv _ _ R)), E, map_size_empty. simpl.
  destruct (until (hold m)) as [u|]; [|done]. specialize (U u eq_refl). apply Z.ltb_ge. lia.
Qed.

(** A task that has its turn finds the token free, unless a stream is passing by. *)
Lemma conn_free m t p :
  inv m -> Held (hold m) (clock m) = false -> tasks m !! t = Some p -> has_turn p = true -> has_token p = false -> conn m = None.
Proof.
  intros I H E T K. destruct (conn m) as [[t'|s]|] eqn:C; [| |done].
  - pose proof (proj1 (iv_task_conn _ I t') C) as (q & Q & V).
    assert (turn m = Some t') by (apply (iv_turn _ I); exists q; by destruct q).
    assert (turn m = Some t) by (apply (iv_turn _ I); eauto).
    simplify_eq. congruence.
  - apply (iv_stream_conn _ I) in C. by rewrite (idle_no_stream _ _ I H) in C.
Qed.

(** From the top of its loop, or from its wait, a task reaches its transfer. *)
Definition resume (p : taskPhase) (t : nat) : list event := [match p with TWait => EReleased t | _ => ETop t end; EConn t; ECheck t].
Lemma resumes m t p :
  inv m -> Held (hold m) (clock m) = false -> tasks m !! t = Some p -> p = TTop \/ p = TWait ->
  exists m', run m (resume p t) = Some m' /\ tasks m' !! t = Some (TXfer false).
Proof.
  intros I H E P.
  assert (C : conn m = None) by (apply (conn_free m t p); [done | done | done | |]; destruct P as [-> | ->]; done).
  assert (X : exists m1, step m (match p with TWait => EReleased t | _ => ETop t end) = Some m1 /\ m1 = with_task m t TConn).
  { destruct P as [-> | ->]; simpl; rewrite E, H; eauto. }
  destruct X as (m1 & X & ->). unfold resume. cbn [run]. rewrite X. simpl. rewrite lookup_insert_eq, C. simpl.
  rewrite lookup_insert_eq, H. eexists. split; [done|]. simpl. by rewrite lookup_insert_eq.
Qed.

(** From its pin, a stream reaches the provider once the token is free. *)
Lemma plays m s : streams m !! s = Some SPinned -> conn m = None ->
  exists m', run m [EToken s; EPlay s] = Some m' /\ streams m' !! s = Some SPlaying.
Proof.
  intros E C. simpl. rewrite E, C. simpl. rewrite lookup_insert_eq. eexists. split; [done|]. simpl. by rewrite lookup_insert_eq.
Qed.

(** The steps that free the token for a pinned stream: a transfer is cancelled and
    returns, a task that has not started looks at the hold, another stream lets go. *)
Definition let_go (m : iptv) : list event :=
  match conn m with
  | None => []
  | Some (OfStream s) => [EPlay s]
  | Some (OfTask t) =>
      match tasks m !! t with
      | Some (TXfer false) => [EWatch t; EXferEnd t false false]
      | Some (TXfer true) => [EXferEnd t false false]
      | _ => [ECheck t]
      end
  end.
Lemma lets_go m s : inv m -> streams m !! s = Some SPinned ->
  exists m', run m (let_go m) = Some m' /\ streams m' !! s = Some SPinned /\ conn m' = None.
Proof.
  intros I E. pose proof (pinned_held _ _ _ I E) as H. unfold let_go. destruct (conn m) as [[t|s']|] eqn:C.
  - pose proof (proj1 (iv_task_conn _ I t) C) as (q & Q & V). rewrite Q.
    destruct q as [ | | | | |[|]]; try discriminate V; simpl; rewrite Q; simpl; try rewrite H; simpl;
      try rewrite lookup_insert_eq; eauto.
  - pose proof (proj1 (iv_stream_conn _ I s') C) as S. simpl. rewrite S. eexists. split; [done|]. simpl.
    rewrite lookup_insert_ne by congruence. done.
  - simpl. eauto.
Qed.
Lemma run_app m l1 l2 m1 : run m l1 = Some m1 -> run m (l1 ++ l2) = run m1 l2.
Proof.
  revert m. induction l1 as [|e l IH]; intros m; simpl; [congruence|].
  destruct (step m e); [apply IH | discriminate].
Qed.

(** * Claims *)

(** An IPTV account's connection is never shared, however the calls of
    IptvDownloader.Download, HoldForStream, the reports of the server and the clock
    interleave: at most one download is in its transfer, and none is while a stream
    that waited for the token in HoldForStream reads the provider, even when the
    server's lease lapsed or was released in the meantime; the hold counts exactly the
    streams that have not been released. *)
Lemma iptv_one_connection ttl0 m :
  reachable ttl0 m ->
  (forall t1 t2 i j, tasks m !! t1 = Some (TXfer i) -> tasks m !! t2 = Some (TXfer j) -> t1 = t2)
  /\ (forall s t i, tasks m !! t = Some (TXfer i) -> streams m !! s <> Some SPlaying)
  /\ (forall s, is_Some (streams m !! s) -> Held (hold m) (clock m) = true)
  /\ pins (hold m) = size (streams m).
Proof.
  intros R. pose proof (reachable_inv _ _ R) as I. split_and!.
  - intros t1 t2 i j A B.
    assert (conn m = Some (OfTask t1)) by (apply (iv_task_conn _ I); eauto).
    assert (conn m = Some (OfTask t2)) by (apply (iv_task_conn _ I); eauto). congruence.
  - intros s t i A. by apply (iv_alone _ I s t i).
  - intros s [p E]. by eapply pinned_held.
  - apply I.
Qed.

(** Nobody waits forever for the account.  A download that has its turn, parked
    by playback or at the top of its loop, is in its transfer again after one lease
    with no stream and no report, in three of its own steps; and a stream that has
    pinned the hold reaches the provider without giving up, after at most two steps
    of whoever has the token: the transfer is cancelled and returns, a task that has
    only just taken the token puts it back. *)
Lemma iptv_no_starvation ttl0 m :
  reachable ttl0 m -> 0 <= ttl0 ->
  (forall t p, tasks m !! t = Some p -> p = TTop \/ p = TWait -> streams m = ∅ ->
    exists m', run m (ETick ttl0 :: resume p t) = Some m' /\ tasks m' !! t = Some (TXfer false))
  /\ (forall s, streams m !! s = Some SPinned ->
    (length (let_go m) <= 2)%nat
    /\ exists m', run m (let_go m ++ [EToken s; EPlay s]) = Some m' /\ streams m' !! s = Some SPlaying).
Proof.
  intros R T. pose proof (reachable_inv _ _ R) as I. split.
  - intros t p E P S. cbn [run step]. destruct (ttl0 <? 0) eqn:L; [apply Z.ltb_lt in L; lia|].
    apply resumes; [| by apply (lapsed ttl0 m) | done | done].
    apply (inv_step m (ETick ttl0)); [done|]. simpl. by rewrite L.
  - intros s E. split.
    + unfold let_go. destruct (conn m) as [[t|]|]; [destruct (tasks m !! t) as [[ | | | | |[|]]|] | |]; simpl; lia.
    + destruct (lets_go m s I E) as (m1 & R1 & E1 & C1). rewrite (run_app _ _ _ _ R1). by apply plays.
Qed.

(** * Examples *)

(** A download starts, a stream pins the hold, the transfer is cancelled and returns,
    the stream plays; a second download waits for its turn. *)
Definition evening : list event :=
  [EDownload 1; EDownload 2; ETurn 1; ETop 1; EConn 1; ECheck 1; EPin 7; EWatch 1; EXferEnd 1 false false; EToken 7; EPlay 7; ETop 1].
Lemma run_reachable ttl0 l : forall m m', reachable ttl0 m -> run m l = Some m' -> reachable ttl0 m'.
Proof.
  induction l as [|e l IH]; simpl; intros m m' R H; [congruence|].
  destruct (step m e) eqn:E; [|discriminate]. eapply IH; [|done]. by eapply reach_step.
Qed.
Definition ran (ttl0 : Z) (l : list event) : iptv := default (start ttl0) (run (start ttl0) l).
Lemma ran_reachable ttl0 l : is_Some (run (start ttl0) l) -> reachable ttl0 (ran ttl0 l).
Proof. intros [m E]. unfold ran. rewrite E. simpl. eapply run_reachable; [apply reach_start | done]. Qed.
Lemma evening_runs : is_Some (run (start 90) evening).
Proof. vm_compute. eauto. Qed.
Lemma evening_parts : tasks (ran 90 evening) !! 1%nat = Some TWait /\ streams (ran 90 evening) !! 7%nat = Some SPlaying.
Proof. by vm_compute. Qed.

Lemma iptv_one_connection_witness : Held (hold (ran 90 evening)) (clock (ran 90 evening)) = true.
Proof.
  apply (iptv_one_connection 90 (ran 90 evening) (ran_reachable _ _ evening_runs)) with (s := 7%nat).
  exists SPlaying. apply evening_parts.
Defined.

(** The stream stops and the server is never heard again: the download resumes. *)
Definition night : list event := evening ++ [EReport true; ERelease 7].
Lemma night_runs : is_Some (run (start 90) night).
Proof. vm_compute. eauto. Qed.
Lemma night_parts :
  tasks (ran 90 night) !! 1%nat = Some TWait /\ streams (ran 90 night) = ∅ /\ Held (hold (ran 90 night)) (clock (ran 90 night)) = true.
Proof. split_and!; by vm_compute. Qed.
Lemma iptv_no_starvation_witness :
  exists m', run (ran 90 night) (ETick 90 :: resume TWait 1) = Some m' /\ tasks m' !! 1%nat = Some (TXfer false).
Proof.
  apply (iptv_no_starvation 90 (ran 90 night) (ran_reachable _ _ night_runs)); [lia | | by right |]; apply night_parts.
Defined.
