(* ===== verification/ActiveTasks.v ===== *)
(** What the agent keeps of a dispatched task: internal/agent/source_set.go (the
    sources of a task in their two representations) and active_tasks.go (the store
    that survives a restart).

    The store is a map under a mutex, so every method is one step; the file it writes
    is replaced by a rename, so a reader sees one written state or the one before it.
    The file is the list that encoding/json writes and reads back; its order is the
    order in which Go walks a map, which is any.  Only the fields of a task that the
    modelled code reads are kept. *)
From Stdlib Require Import ZArith Lia Ascii String.
From stdpp Require Import prelude list strings sorting gmap.
From S2P Require Import Prelude GoStrings.

Open Scope Z_scope.

(** * Tasks and their sources *)

Record Source := mkSource {
  sID : bytes; sTransport : bytes; sInfoHash : bytes; sNzbID : bytes; sDirectURL : bytes;
  sFileName : bytes; sFileSize : Z; sPassword : bytes
}.
Record SourceSet := mkSources { setVersion : Z; PreferredSourceID : bytes; Sources : list Source }.
Record agentTask := mkTask {
  ID : bytes; InfoHash : bytes; PreferredMethod : bytes; Mode : bytes;
  DirectURL : bytes; DirectFileName : bytes; DirectFileSize : Z; NzbID : bytes; NzbPassword : bytes;
  ReplacePath : bytes; ForceStart : bool; TaskSources : option SourceSet;
  ResumePaused : bool; QueuedAt : option Z  (* [None] is the zero time *)
}.

#[global] Instance Source_eq_dec : EqDecision Source.
Proof. solve_decision. Defined.
#[global] Instance SourceSet_eq_dec : EqDecision SourceSet.
Proof. solve_decision. Defined.
#[global] Instance agentTask_eq_dec : EqDecision agentTask.
Proof. solve_decision. Defined.

Definition with_info (t : agentTask) (h : bytes) : agentTask :=
  mkTask (ID t) h (PreferredMethod t) (Mode t) (DirectURL t) (DirectFileName t) (DirectFileSize t) (NzbID t) (NzbPassword t)
    (ReplacePath t) (ForceStart t) (TaskSources t) (ResumePaused t) (QueuedAt t).
Definition with_direct (t : agentTask) (url name : bytes) (size : Z) : agentTask :=
  mkTask (ID t) (InfoHash t) (PreferredMethod t) (Mode t) url name size (NzbID t) (NzbPassword t)
    (ReplacePath t) (ForceStart t) (TaskSources t) (ResumePaused t) (QueuedAt t).
Definition with_nzb (t : agentTask) (id password : bytes) : agentTask :=
  mkTask (ID t) (InfoHash t) (PreferredMethod t) (Mode t) (DirectURL t) (DirectFileName t) (DirectFileSize t) id password
    (ReplacePath t) (ForceStart t) (TaskSources t) (ResumePaused t) (QueuedAt t).
Definition with_method (t : agentTask) (m : bytes) : agentTask :=
  mkTask (ID t) (InfoHash t) m (Mode t) (DirectURL t) (DirectFileName t) (DirectFileSize t) (NzbID t) (NzbPassword t)
    (ReplacePath t) (ForceStart t) (TaskSources t) (ResumePaused t) (QueuedAt t).
Definition with_force (t : agentTask) (f : bool) : agentTask :=
  mkTask (ID t) (InfoHash t) (PreferredMethod t) (Mode t) (DirectURL t) (DirectFileName t) (DirectFileSize t) (NzbID t) (NzbPassword t)
    (ReplacePath t) f (TaskSources t) (ResumePaused t) (QueuedAt t).
Definition with_paused (t : agentTask) (p : bool) : agentTask :=
  mkTask (ID t) (InfoHash t) (PreferredMethod t) (Mode t) (DirectURL t) (DirectFileName t) (DirectFileSize t) (NzbID t) (NzbPassword t)
    (ReplacePath t) (ForceStart t) (TaskSources t) p (QueuedAt t).
Definition with_queued (t : agentTask) (q : option Z) : agentTask :=
  mkTask (ID t) (InfoHash t) (PreferredMethod t) (Mode t) (DirectURL t) (DirectFileName t) (DirectFileSize t) (NzbID t) (NzbPassword t)
    (ReplacePath t) (ForceStart t) (TaskSources t) (ResumePaused t) q.

Definition findSource (sources : list Source) (id : bytes) : option Source :=
  if bytes_eqb id [] then None else List.find (fun s => bytes_eqb (sID s) id) sources.
Definition preferredSourceFirst (set : SourceSet) : list Source :=
  match findSource (Sources set) (PreferredSourceID set) with
  | None => Sources set
  | Some p => p :: List.filter (fun s => negb (bytes_eqb (sID s) (sID p))) (Sources set)
  end.
Definition applyLegacySource (t : agentTask) (s : Source) : agentTask :=
  let t := if bytes_eqb (InfoHash t) [] && negb (bytes_eqb (sInfoHash s) []) then with_info t (sInfoHash s) else t in
  if bytes_eqb (sTransport s) (str "debrid") then
    if bytes_eqb (DirectURL t) [] && negb (bytes_eqb (sDirectURL s) []) then with_direct t (sDirectURL s) (sFileName s) (sFileSize s) else t
  else if bytes_eqb (sTransport s) (str "usenet") then
    let id := if bytes_eqb (NzbID t) [] then sNzbID s else NzbID t in
    let password := if bytes_eqb (NzbPassword t) [] then sPassword s else NzbPassword t in
    with_nzb t id password
  else t.
Definition normalizePreferredMethod (t : agentTask) (set : SourceSet) : agentTask :=
  if negb (bytes_eqb (PreferredMethod t) []) then t
  else match findSource (Sources set) (PreferredSourceID set) with
       | None => with_method t (str "auto")
       | Some p => with_method t (sTransport p)
       end.
Definition NormalizeSourceSet (t : agentTask) : agentTask :=
  match TaskSources t with
  | Some set => if negb (setVersion set =? 1) then t
                else normalizePreferredMethod (fold_left applyLegacySource (preferredSourceFirst set) t) set
  | None => t
  end.

(** * The store *)

Record ActiveTaskStore := mkStore { tasks : gmap bytes agentTask; file : option (list agentTask) }.
Definition NewActiveTaskStore (f : option (list agentTask)) : ActiveTaskStore := mkStore ∅ f.

(** slices.SortFunc by QueuedAt and then by ID; the zero time comes first. *)
Definition queued_ltb (a b : option Z) : bool :=
  match a, b with None, Some _ => true | Some x, Some y => x <? y | _, None => false end.
Definition task_ltb (a b : agentTask) : bool :=
  if queued_ltb (QueuedAt a) (QueuedAt b) then true
  else if queued_ltb (QueuedAt b) (QueuedAt a) then false
  else bytes_ltb (ID a) (ID b).

Section Store.
(** The order in which a map is walked. *)
Context (walk : list agentTask -> list agentTask).

Definition entries (m : gmap bytes agentTask) : list agentTask := walk (map snd (map_to_list m)).
(** flushLocked; [ok] is whether every step of the write succeeded. *)
Definition flushLocked (m : gmap bytes agentTask) (f : option (list agentTask)) (ok : bool) : ActiveTaskStore :=
  mkStore m (if ok then Some (entries m) else f).
Definition Add (s : ActiveTaskStore) (t : agentTask) (now : Z) (ok : bool) : ActiveTaskStore :=
  let stamped := match QueuedAt t with None => with_queued t (Some now) | Some _ => t end in
  let t' := match tasks s !! ID t with
            | Some prev => match QueuedAt prev with Some q => with_queued t (Some q) | None => stamped end
            | None => stamped
            end in
  flushLocked (<[ID t := t']> (tasks s)) (file s) ok.
Definition SetPaused (s : ActiveTaskStore) (taskID : bytes) (paused : bool) (ok : bool) : ActiveTaskStore :=
  match tasks s !! taskID with
  | None => s
  | Some t => if Bool.eqb (ResumePaused t) paused then s
              else flushLocked (<[taskID := with_paused t paused]> (tasks s)) (file s) ok
  end.
Definition Remove (s : ActiveTaskStore) (taskID : bytes) (ok : bool) : ActiveTaskStore :=
  match tasks s !! taskID with
  | None => s
  | Some _ => flushLocked (delete taskID (tasks s)) (file s) ok
  end.
Definition Get (s : ActiveTaskStore) (taskID : bytes) : option agentTask := tasks s !! taskID.
Definition Snapshot (s : ActiveTaskStore) : list agentTask := entries (tasks s).
Definition Clear (s : ActiveTaskStore) (ok : bool) : ActiveTaskStore * nat :=
  (flushLocked ∅ (file s) ok, size (tasks s)).
(** Load: the store it leaves and the tasks it returns. *)
Definition load_map (l : list agentTask) : gmap bytes agentTask :=
  fold_left (fun m t => if bytes_eqb (ID t) [] then m else <[ID t := t]> m) l ∅.
Definition Load (s : ActiveTaskStore) : ActiveTaskStore * list agentTask :=
  match file s with
  | None => (s, [])
  | Some l => let m := load_map l in (mkStore m (file s), sort_SliceStable task_ltb (entries m))
  end.

(** One call of the store, as the daemon makes it. *)
Inductive storeOp := OAdd (t : agentTask) (now : Z) | OPaused (id : bytes) (p : bool) | ORemove (id : bytes) | OClear.
Definition store_step (s : ActiveTaskStore) (op : storeOp * bool) : ActiveTaskStore :=
  match op with
  | (OAdd t now, ok) => Add s t now ok
  | (OPaused id p, ok) => SetPaused s id p ok
  | (ORemove id, ok) => Remove s id ok
  | (OClear, ok) => fst (Clear s ok)
  end.
End Store.

(** * Lemmas *)

(** ** The order *)

Lemma queued_ltb_irrefl a : queued_ltb a a = false.
Proof. destruct a; [apply Z.ltb_irrefl|done]. Qed.
Lemma queued_ltb_trans a b c : queued_ltb a b = true -> queued_ltb b c = true -> queued_ltb a c = true.
Proof. destruct a, b, c; cbn; rewrite ?Z.ltb_lt; try done; lia. Qed.
Lemma queued_ltb_total a b : queued_ltb a b = false -> queued_ltb b a = false -> a = b.
Proof. destruct a, b; cbn; rewrite ?Z.ltb_ge; try done. intros. f_equal. lia. Qed.
Lemma task_ltb_irrefl a : task_ltb a a = false.
Proof. unfold task_ltb. by rewrite queued_ltb_irrefl, bytes_ltb_irrefl. Qed.
Lemma task_ltb_trans a b c : task_ltb a b = true -> task_ltb b c = true -> task_ltb a c = true.
Proof.
  unfold task_ltb.
  destruct (queued_ltb (QueuedAt a) (QueuedAt b)) eqn:E1, (queued_ltb (QueuedAt b) (QueuedAt c)) eqn:E2.
  - by rewrite (queued_ltb_trans _ _ _ E1 E2).
  - destruct (queued_ltb (QueuedAt c) (QueuedAt b)) eqn:E3; [done|]. by rewrite <- (queued_ltb_total _ _ E2 E3), E1.
  - destruct (queued_ltb (QueuedAt b) (QueuedAt a)) eqn:E3; [done|]. by rewrite (queued_ltb_total _ _ E1 E3), E2.
  - destruct (queued_ltb (QueuedAt b) (QueuedAt a)) eqn:E3; [done|].
    destruct (queued_ltb (QueuedAt c) (QueuedAt b)) eqn:E4; [done|].
    rewrite (queued_ltb_total _ _ E1 E3), (queued_ltb_total _ _ E2 E4), queued_ltb_irrefl. apply bytes_ltb_trans.
Qed.
Lemma task_ltb_total a b : task_ltb a b = false -> task_ltb b a = false -> ID a = ID b.
Proof.
  unfold task_ltb. destruct (queued_ltb (QueuedAt a) (QueuedAt b)) eqn:E1; [done|].
  destruct (queued_ltb (QueuedAt b) (QueuedAt a)) eqn:E2; [done|]. apply bytes_ltb_total.
Qed.

(** ** The map *)

(** Every entry is filed under its own ID, which is not empty. *)
Definition keyed (m : gmap bytes agentTask) : Prop := forall k t, m !! k = Some t -> ID t = k /\ k <> [].
Definition op_ok (op : storeOp) : Prop := match op with OAdd t _ => ID t <> [] | _ => True end.

Lemma load_map_pairs (l : list agentTask) (m : gmap bytes agentTask) :
  NoDup (map ID l) -> Forall (fun t => ID t <> []) l -> (forall t, t ∈ l -> m !! ID t = None) ->
  fold_left (fun m t => if bytes_eqb (ID t) [] then m else <[ID t := t]> m) l m = list_to_map (map (fun t => (ID t, t)) l) ∪ m.
Proof.
  revert m. induction l as [|t l IH]; intros m Hn Hf Hm; cbn; [by rewrite map_empty_union|].
  apply NoDup_cons in Hn as [Hn1 Hn2]. apply Forall_cons in Hf as [Ht Hf].
  destruct (bytes_eqb (ID t) []) eqn:E; [apply bytes_eqb_eq in E; done|]. rewrite IH; [|done|done|].
  - rewrite <- insert_union_r; [by rewrite insert_union_l|]. apply not_elem_of_list_to_map_1. rewrite <- list_fmap_compose. exact Hn1.
  - intros u Hu. rewrite lookup_insert_ne; [apply Hm; by right|]. intros Eq. apply Hn1. rewrite Eq. by apply (list_elem_of_fmap_2 ID).
Qed.

Section Survive.
Context (walk : list agentTask -> list agentTask) (walk_perm : forall l, walk l ≡ₚ l).

Lemma entries_perm m : entries walk m ≡ₚ map snd (map_to_list m).
Proof. apply walk_perm. Qed.
Lemma entries_ids m : keyed m -> map ID (entries walk m) ≡ₚ map fst (map_to_list m).
Proof.
  intros Hk. rewrite entries_perm. rewrite <- list_fmap_compose. erewrite list_fmap_ext; [reflexivity|]. intros i [k t] Hi.
  apply list_elem_of_lookup_2, elem_of_map_to_list in Hi. by apply Hk in Hi as [? _].
Qed.
Lemma entries_nodup m : keyed m -> NoDup (map ID (entries walk m)).
Proof. intros Hk. rewrite (entries_ids m Hk). apply NoDup_fst_map_to_list. Qed.
Lemma load_entries m : keyed m -> load_map (entries walk m) = m.
Proof.
  intros Hk. unfold load_map. rewrite load_map_pairs.
  - rewrite map_union_empty. rewrite <- (list_to_map_to_list m) at 2.
    apply list_to_map_proper; [rewrite <- list_fmap_compose; by apply entries_nodup|].
    rewrite entries_perm. rewrite <- list_fmap_compose. rewrite <- (list_fmap_id (map_to_list m)) at 2.
    erewrite list_fmap_ext; [reflexivity|]. intros i [k t] Hi. apply list_elem_of_lookup_2, elem_of_map_to_list in Hi. cbn. by apply Hk in Hi as [-> _].
  - by apply entries_nodup.
  - apply Forall_forall. intros t Ht. rewrite entries_perm in Ht. apply list_elem_of_fmap in Ht as ([k u] & -> & Hu).
    apply elem_of_map_to_list, Hk in Hu as [Hi Hn]. cbn. by rewrite Hi.
  - intros. apply lookup_empty.
Qed.

Lemma step_keyed s op : op_ok (fst op) -> keyed (tasks s) -> keyed (tasks (store_step walk s op)).
Proof.
  destruct op as [[t now|id p|id|] ok]; cbn; intros Ho Hk.
  - intros k u Hu. apply lookup_insert_Some in Hu as [[<- <-]|[_ Hu]]; [|by apply Hk]. split; [|done].
    destruct (tasks s !! ID t) as [prev|]; [destruct (QueuedAt prev)|]; destruct (QueuedAt t); done.
  - unfold SetPaused. destruct (tasks s !! id) as [t|] eqn:E; [|done]. case_if; [done|]. cbn.
    intros k u Hu. apply lookup_insert_Some in Hu as [[<- <-]|[_ Hu]]; [by destruct (Hk _ _ E)|by apply Hk].
  - unfold Remove. destruct (tasks s !! id); [|done]. cbn. intros k u Hu. apply lookup_delete_Some in Hu as [_ Hu]. by apply Hk.
  - intros k u Hu. by rewrite lookup_empty in Hu.
Qed.
(** A step writes what the store holds, or leaves the file alone; a step that changes the map writes. *)
Lemma step_file s op :
  let s' := store_step walk s op in
  file s' = file s \/ file s' = Some (entries walk (tasks s')).
Proof.
  destruct op as [[t now|id p|id|] ok]; cbn; unfold SetPaused, Remove, flushLocked; repeat case_match; cbn; tauto.
Qed.
Lemma store_step_saved s op :
  snd op = true -> (file s = Some (entries walk (tasks s)) \/ file s = None /\ tasks s = ∅) ->
  let s' := store_step walk s op in file s' = Some (entries walk (tasks s')) \/ file s' = None /\ tasks s' = ∅.
Proof.
  destruct op as [[t now|id p|id|] ok]; cbn; intros -> Hs; unfold SetPaused, Remove, flushLocked; repeat case_match; cbn; tauto.
Qed.

Definition ran (ops : list (storeOp * bool)) : ActiveTaskStore := fold_left (store_step walk) ops (NewActiveTaskStore None).
Lemma ran_keyed ops : Forall (fun op => op_ok (fst op)) ops -> keyed (tasks (ran ops)).
Proof.
  intros Hf. apply (fold_left_inv (fun s => keyed (tasks s))); [intros k t Hk; cbn in Hk; by rewrite lookup_empty in Hk|].
  intros s op Hop Hk. apply step_keyed; [|done]. rewrite Forall_forall in Hf. by apply Hf.
Qed.
(** The file is what the store held at some point, or there is none yet. *)
Lemma ran_file ops :
  file (ran ops) = None \/ exists k, (k <= length ops)%nat /\ file (ran ops) = Some (entries walk (tasks (ran (take k ops)))).
Proof.
  induction ops as [|op ops IH] using rev_ind; [by left|]. unfold ran in *. rewrite fold_left_app. cbn [fold_left].
  destruct (step_file (fold_left (store_step walk) ops (NewActiveTaskStore None)) op) as [-> | ->].
  - destruct IH as [?|(k & Hk & ->)]; [by left|]. right. exists k. rewrite length_app, take_app_le by lia. split; [cbn; lia|done].
  - right. exists (length (ops ++ [op])). split; [done|]. rewrite firstn_all, fold_left_app. done.
Qed.
Lemma ran_saved ops : Forall (fun op => snd op = true) ops ->
  file (ran ops) = Some (entries walk (tasks (ran ops))) \/ file (ran ops) = None /\ tasks (ran ops) = ∅.
Proof.
  intros Hf. apply (fold_left_inv (fun s => file s = Some (entries walk (tasks s)) \/ file s = None /\ tasks s = ∅)); [by right|].
  intros s op Hop Hs. apply store_step_saved; [|done]. rewrite Forall_forall in Hf. by apply Hf.
Qed.
End Survive.

(** Adding a task again keeps its place in the line. *)
Lemma add_keeps_place walk s t prev q now ok :
  tasks s !! ID t = Some prev -> QueuedAt prev = Some q ->
  exists t', tasks (Add walk s t now ok) !! ID t = Some t' /\ QueuedAt t' = Some q.
Proof. intros E Q. unfold Add. rewrite E, Q. cbn. rewrite lookup_insert_eq. eauto. Qed.

(** What two starts return is the same list, in whatever order the maps were walked. *)
Lemma load_order walk walk' m :
  (forall l, walk l ≡ₚ l) -> (forall l, walk' l ≡ₚ l) -> keyed m ->
  sort_SliceStable task_ltb (entries walk m) = sort_SliceStable task_ltb (entries walk' m).
Proof.
  intros W W' Hk. apply (StronglySorted_unique_strong (fun a b => task_ltb b a = false)).
  - intros a b Ha Hb Hab Hba. pose proof (task_ltb_total _ _ Hba Hab) as Hid.
    rewrite sort_SliceStable_perm, (entries_perm walk W) in Ha. rewrite sort_SliceStable_perm, (entries_perm walk' W') in Hb.
    apply list_elem_of_fmap in Ha as ([k u] & -> & Hu), Hb as ([k' u'] & -> & Hu').
    apply elem_of_map_to_list in Hu, Hu'. destruct (Hk _ _ Hu) as [H1 _], (Hk _ _ Hu') as [H2 _]. cbn in Hid. congruence.
  - apply sort_ordered; [apply task_ltb_trans|apply task_ltb_irrefl].
  - apply sort_ordered; [apply task_ltb_trans|apply task_ltb_irrefl].
  - by rewrite !sort_SliceStable_perm, (entries_perm walk W), (entries_perm walk' W').
Qed.

(** The sources of a task fill what the flat fields leave open, the preferred one first. *)
Lemma normalize_keeps t :
  let t' := NormalizeSourceSet t in
  (InfoHash t <> [] -> InfoHash t' = InfoHash t) /\ (DirectURL t <> [] -> DirectURL t' = DirectURL t /\ DirectFileName t' = DirectFileName t)
  /\ (NzbID t <> [] -> NzbID t' = NzbID t) /\ (PreferredMethod t <> [] -> PreferredMethod t' = PreferredMethod t) /\ ID t' = ID t.
Proof.
  unfold NormalizeSourceSet. destruct (TaskSources t) as [set|]; [|done]. case_if; [done|].
  assert (Hs : forall u s, let u' := applyLegacySource u s in
    (InfoHash u <> [] -> InfoHash u' = InfoHash u) /\ (DirectURL u <> [] -> DirectURL u' = DirectURL u /\ DirectFileName u' = DirectFileName u)
    /\ (NzbID u <> [] -> NzbID u' = NzbID u) /\ PreferredMethod u' = PreferredMethod u /\ ID u' = ID u).
  { intros u s. unfold applyLegacySource. cbn zeta.
    destruct (bytes_eqb (InfoHash u) []) eqn:E1; [apply bytes_eqb_eq in E1|]; cbn [andb].
    all: destruct (bytes_eqb (sInfoHash s) []); cbn [negb].
    all: destruct (bytes_eqb (sTransport s) (str "debrid")); [cbn; destruct (bytes_eqb (DirectURL u) []) eqn:E2; [apply bytes_eqb_eq in E2|]; cbn;
      try (destruct (bytes_eqb (sDirectURL s) []); cbn); naive_solver|].
    all: destruct (bytes_eqb (sTransport s) (str "usenet")); cbn; [|naive_solver].
    all: destruct (bytes_eqb (NzbID u) []) eqn:E3; [apply bytes_eqb_eq in E3|]; naive_solver. }
  assert (Hf : forall l u, let u' := fold_left applyLegacySource l u in
    (InfoHash u <> [] -> InfoHash u' = InfoHash u) /\ (DirectURL u <> [] -> DirectURL u' = DirectURL u /\ DirectFileName u' = DirectFileName u)
    /\ (NzbID u <> [] -> NzbID u' = NzbID u) /\ PreferredMethod u' = PreferredMethod u /\ ID u' = ID u).
  { induction l as [|s l IH]; intros u; cbn; [naive_solver|]. specialize (IH (applyLegacySource u s)). specialize (Hs u s). cbn in IH, Hs.
    destruct Hs as (A1 & A2 & A3 & A4 & A5), IH as (B1 & B2 & B3 & B4 & B5). rewrite A4 in B4. rewrite A5 in B5.
    split_and!; [intros N; rewrite B1; [by apply A1|by rewrite A1]| | |done|done].
    - intros N. destruct (A2 N) as [C1 C2]. rewrite C1 in B2. destruct (B2 N) as [D1 D2]. by rewrite D1, D2.
    - intros N. rewrite B3; [by apply A3|by rewrite A3]. }
  specialize (Hf (preferredSourceFirst set) t). cbn in Hf. set (u := fold_left applyLegacySource (preferredSourceFirst set) t) in *.
  destruct Hf as (A1 & A2 & A3 & A4 & A5). unfold normalizePreferredMethod.
  destruct (bytes_eqb (PreferredMethod u) []) eqn:Em; cbn [negb]; [|naive_solver].
  apply bytes_eqb_eq in Em. destruct (findSource (Sources set) (PreferredSourceID set)); cbn; split_and!; try done; congruence.
Qed.

(** * Claims *)

(** Unfinished downloads survive a restart, in order.  After any calls of the store, however many of its writes
    failed and in whatever order the maps were walked, the next start loads exactly the tasks the store held after some
    of those calls, and after all of them when every write succeeded; it gets each task once, the one queued longest
    first and ties by ID, and the same list whatever the order of the maps. *)
Lemma active_tasks_survive walk walk' ops :
  (forall l, walk l ≡ₚ l) -> (forall l, walk' l ≡ₚ l) -> Forall (fun op => op_ok (fst op)) ops ->
  let '(s, l) := Load walk' (NewActiveTaskStore (file (ran walk ops))) in
  (exists k, (k <= length ops)%nat /\ tasks s = tasks (ran walk (take k ops)))
  /\ (Forall (fun op => snd op = true) ops -> tasks s = tasks (ran walk ops))
  /\ l ≡ₚ map snd (map_to_list (tasks s)) /\ NoDup (map ID l)
  /\ StronglySorted (fun a b => task_ltb b a = false) l
  /\ l = sort_SliceStable task_ltb (entries walk (tasks s)).
Proof.
  intros W W' Ho. unfold Load, NewActiveTaskStore. cbn [file].
  destruct (ran_file walk ops) as [Ef|(k & Hk & Ef)].
  - rewrite Ef. cbn. split_and!; try constructor; [|intros Hs|].
    + exists O. split; [lia|done].
    + destruct (ran_saved walk ops Hs) as [E|[_ ->]]; [congruence|done].
    + unfold entries. rewrite map_to_list_empty. pose proof (W []) as Hn. apply Permutation_nil_r in Hn.
      change (map snd []) with (@nil agentTask). by rewrite Hn.
  - rewrite Ef. pose proof (ran_keyed walk (take k ops) (Forall_take _ k _ Ho)) as Hkey.
    rewrite (load_entries walk W _ Hkey). set (m := tasks (ran walk (take k ops))) in *. cbn [tasks]. split_and!.
    + by exists k.
    + intros Hs. destruct (ran_saved walk ops Hs) as [E|[E _]]; [|congruence]. rewrite E in Ef. injection Ef as Ef.
      rewrite <- (load_entries walk W m Hkey), <- Ef. by apply load_entries, ran_keyed.
    + rewrite sort_SliceStable_perm. by apply entries_perm.
    + rewrite sort_SliceStable_perm. by apply entries_nodup.
    + apply sort_ordered; [apply task_ltb_trans|apply task_ltb_irrefl].
    + by apply load_order.
Qed.

(** * Demonstrations *)

Definition demo_task (id : bytes) (q : option Z) : agentTask := mkTask id [] [] (str "download") [] [] 0 [] [] [] false None false q.
Definition demo_ops : list (storeOp * bool) :=
  [(OAdd (demo_task (str "b") None) 5, true); (OAdd (demo_task (str "a") None) 7, true); (OPaused (str "a") true, true);
   (OAdd (demo_task (str "b") None) 9, true); (OAdd (demo_task (str "c") None) 5, true); (ORemove (str "x"), true)].
Lemma demo_load : map ID (snd (Load (fun l => l) (NewActiveTaskStore (file (ran (@rev agentTask) demo_ops))))) = [str "b"; str "c"; str "a"].
Proof. vm_compute. reflexivity. Qed.
Lemma demo_ops_ok : Forall (fun op => op_ok (fst op)) demo_ops.
Proof. repeat constructor; discriminate. Qed.
Lemma active_tasks_survive_witness : NoDup (map ID (snd (Load (fun l => l) (NewActiveTaskStore (file (ran (@rev agentTask) demo_ops)))))).
Proof.
  pose proof (active_tasks_survive (@rev agentTask) (fun l => l) demo_ops (fun l => Permutation_sym (Permutation_rev l)) (fun l => Permutation_refl l) demo_ops_ok) as H.
  destruct (Load (fun l => l) (NewActiveTaskStore (file (ran (@rev agentTask) demo_ops)))) as [s l]. apply H.
Defined.
