(* ===== verification/TaskControl.v ===== *)
(** Pausing, resuming and cancelling a download: the resume store as
    internal/engine/manager.go uses it, internal/cmd/daemon_task_control.go,
    daemon_resume.go and the answers of internal/engine/progress.go.

    The maps of the manager, the store, the controller and the reporter are keyed by
    task, and no step of one task reads the entry of another: the machine is the view
    of one task.  Every call is a list of instructions, one for each critical section,
    and calls interleave at will; the goroutine of a download, the shutdown and the
    start of the next process are events of their own. *)
From Stdlib Require Import ZArith Lia Ascii String.
From stdpp Require Import prelude list strings gmap.
From S2P Require Import Prelude GoStrings ActiveTasks.

Open Scope Z_scope.

(** * State *)

(** Where a registered task is: between registration and the line, in the line, in
    processTask, after recordFinished has read the pause set, after it has settled the
    store, after the final report. *)
Inductive phase := Registered | Queued | Running | Ending (keep : bool) | Recorded | Reported.
Record taskRun := mkRun { number : nat; at_ : phase; ended : bool (* its context *) }.

(** The status response of the server, as far as it controls the task. *)
Record statusResponse := mkResp { Success : bool; Cancelled : bool; Paused : bool }.

Inductive instr :=
| ICheckOpen (t : agentTask) | IRegister (t : agentTask) | IClearPaused | IAdd (t : agentTask) | ITrack | IEnqueue (n : nat) (force : bool)
| ICancelTask | IPauseTask (local : bool) | IMarkPaused | IFlag | IRemove | IDequeue | ICancelCtx (n : nat)
| IClearResumed | IMarkResumed | IWebPause | IResume | IResumeGet | IRetry | IPurge | IUntrack | IReport (r : statusResponse).

#[global] Instance statusResponse_eq_dec : EqDecision statusResponse.
Proof. solve_decision. Defined.
#[global] Instance instr_eq_dec : EqDecision instr.
Proof. solve_decision. Defined.

Record view := mkView {
  shutting : bool;                 (* m.shuttingDown *)
  outer : bool;                    (* the daemon's context has ended *)
  paused : bool;                   (* in m.pausedTasks *)
  entry : option agentTask;        (* store.tasks *)
  filed : option agentTask;        (* active-tasks.json *)
  run : option taskRun;            (* m.active and its goroutine *)
  next : nat;
  resumedAt : option Z; clock : Z;
  tracked : bool; unknownStreak : Z;  (* of the reporter *)
  threads : list (list instr)
}.
Definition set_paused (m : view) (p : bool) : view :=
  mkView (shutting m) (outer m) p (entry m) (filed m) (run m) (next m) (resumedAt m) (clock m) (tracked m) (unknownStreak m) (threads m).
Definition set_store (m : view) (e f : option agentTask) : view :=
  mkView (shutting m) (outer m) (paused m) e f (run m) (next m) (resumedAt m) (clock m) (tracked m) (unknownStreak m) (threads m).
Definition set_run (m : view) (r : option taskRun) : view :=
  mkView (shutting m) (outer m) (paused m) (entry m) (filed m) r (next m) (resumedAt m) (clock m) (tracked m) (unknownStreak m) (threads m).
Definition set_resumed (m : view) (r : option Z) : view :=
  mkView (shutting m) (outer m) (paused m) (entry m) (filed m) (run m) (next m) r (clock m) (tracked m) (unknownStreak m) (threads m).
Definition set_report (m : view) (t : bool) (s : Z) : view :=
  mkView (shutting m) (outer m) (paused m) (entry m) (filed m) (run m) (next m) (resumedAt m) (clock m) t s (threads m).
Definition set_threads (m : view) (l : list (list instr)) : view :=
  mkView (shutting m) (outer m) (paused m) (entry m) (filed m) (run m) (next m) (resumedAt m) (clock m) (tracked m) (unknownStreak m) l.
Definition set_flags (m : view) (s o : bool) : view :=
  mkView s o (paused m) (entry m) (filed m) (run m) (next m) (resumedAt m) (clock m) (tracked m) (unknownStreak m) (threads m).
Definition bump (m : view) : view :=
  mkView (shutting m) (outer m) (paused m) (entry m) (filed m) (run m) (S (next m)) (resumedAt m) (clock m) (tracked m) (unknownStreak m) (threads m).

(** * The store, seen from one task *)

(** Only real downloads are persisted. *)
Definition persistable (t : agentTask) : bool :=
  (bytes_eqb (Mode t) [] || bytes_eqb (Mode t) (str "download")) && bytes_eqb (ReplacePath t) [].
(** What Add files for a task. *)
Definition add_entry (e : option agentTask) (t : agentTask) (now : Z) : agentTask :=
  let stamped := match QueuedAt t with None => with_queued t (Some now) | Some _ => t end in
  match e with
  | Some prev => match QueuedAt prev with Some q => with_queued t (Some q) | None => stamped end
  | None => stamped
  end.
Definition store_add (m : view) (t : agentTask) (ok : bool) : view :=
  let e := Some (add_entry (entry m) t (clock m)) in set_store m e (if ok then e else filed m).
Definition store_flag (m : view) (ok : bool) : view :=
  match entry m with
  | None => m
  | Some t => if Bool.eqb (ResumePaused t) true then m
              else let e := Some (with_paused t true) in set_store m e (if ok then e else filed m)
  end.
Definition store_remove (m : view) (ok : bool) : view :=
  match entry m with
  | None => m
  | Some _ => set_store m None (if ok then None else filed m)
  end.

(** * Instructions *)

Definition resumeGrace : Z := 20.
Definition unknownTaskThreshold : Z := 3.
Definition recentlyResumed (m : view) : bool * view :=
  match resumedAt m with
  | None => (false, m)
  | Some at_ => if resumeGrace <? clock m - at_ then (false, set_resumed m None) else (true, m)
  end.
(** The manager's calls, once the task was found under run [n]. *)
Definition Submit_registered (t : agentTask) (n : nat) : list instr := [IClearPaused; IAdd t; ITrack; IEnqueue n (ForceStart t)].
Definition CancelTask (n : nat) : list instr := [IClearPaused; IRemove; IDequeue; ICancelCtx n].
Definition PauseTask (n : nat) : list instr := [IMarkPaused; IFlag; IDequeue; ICancelCtx n].
Definition DropResume : list instr := [IRemove; IClearPaused].
(** The end of every cancel. *)
Definition dropTask : list instr := ICancelTask :: DropResume.
(** Retry, with the payload it found. *)
Definition retry (payload : option agentTask) : list instr :=
  [ICancelTask; IMarkResumed] ++ match payload with Some t => [ICheckOpen (with_force t true)] | None => [] end.
(** handleResponse after noteUnknown has counted. *)
Definition noteUnknown (streak : Z) (r : statusResponse) : Z := if Success r then 0 else streak + 1.
Definition response (r : statusResponse) (streak : Z) : list instr :=
  if negb (Success r) && (unknownTaskThreshold <=? streak) then IUntrack :: dropTask
  else if Cancelled r then IUntrack :: IClearResumed :: dropTask
  else if Paused r then [IUntrack; IWebPause] else [].
(** dequeue and forgetActive *)
Definition dequeue (m : view) : view :=
  match run m with
  | Some r => match at_ r with Queued => set_report (set_run m None) false 0 | _ => m end
  | None => m
  end.

(** One instruction, and what comes before the rest of the call.  [ok]: a write of the
    store succeeds; [cooldown]: the task failed writing to storage moments ago. *)
Definition exec (m : view) (i : instr) (ok cooldown : bool) : view * list instr :=
  match i with
  | ICheckOpen t => (m, if shutting m then [] else if negb (ForceStart t) && cooldown then [] else [IRegister t])
  | IRegister t =>
      match run m with
      | Some _ => (m, [])
      | None => (bump (set_run m (Some (mkRun (next m) Registered (outer m)))),
                 Submit_registered t (next m))
      end
  | IClearPaused => (set_paused m false, [])
  | IAdd t => (if persistable t then store_add m (with_paused t false) ok else m, [])
  | ITrack => (set_report m true (unknownStreak m), [])
  | IEnqueue n force =>
      (match run m with
       | Some r => if (number r =? n)%nat then set_run m (Some (mkRun n (if force then Running else Queued) (ended r))) else m
       | None => m
       end, [])
  | ICancelTask => (m, match run m with None => [] | Some r => CancelTask (number r) end)
  | IPauseTask local =>
      (m, match run m with
          | None => []
          | Some r => PauseTask (number r) ++ (if local then [IClearResumed] else [])
          end)
  | IMarkPaused => (set_paused m true, [])
  | IFlag => (store_flag m ok, [])
  | IRemove => (store_remove m ok, [])
  | IDequeue => (dequeue m, [])
  | ICancelCtx n =>
      (match run m with
       | Some r => if (number r =? n)%nat then set_run m (Some (mkRun n (at_ r) true)) else m
       | None => m
       end, [])
  | IClearResumed => (set_resumed m None, [])
  | IMarkResumed => (set_resumed m (Some (clock m)), [])
  | IWebPause => let '(recent, m') := recentlyResumed m in (m', if recent then [] else [IPauseTask false])
  | IResume => (m, match run m with Some _ => [] | None => [IMarkResumed; IResumeGet] end)
  | IResumeGet => (m, match entry m with Some t => [ICheckOpen (with_force t false)] | None => [] end)
  | IRetry => (m, retry (entry m))
  | IPurge => (m, match run m with Some _ => [] | None => DropResume end)
  | IUntrack => (set_report m false 0, [])
  | IReport r =>
      let streak := noteUnknown (unknownStreak m) r in (set_report m (tracked m) streak, response r streak)
  end.

(** The calls of the sync loop, the web, the local control plane and the reporter. *)
Inductive api :=
| Submit (t : agentTask) | Pause | Resume | Cancel | Retry | Purge | ReapUnknown
| WebCancel | WebPause | WebResume | handleResponse (r : statusResponse).
Definition program (a : api) : list instr :=
  match a with
  | Submit t => [ICheckOpen t]
  | Pause => [IPauseTask true]
  | Resume => [IResume]
  | Cancel | WebCancel => IClearResumed :: dropTask
  | Retry => [IRetry]
  | Purge => [IPurge]
  | ReapUnknown => dropTask
  | WebPause => [IWebPause]
  | WebResume => [IMarkResumed]
  | handleResponse r => [IReport r]
  end.

(** * The machine *)

Inductive event :=
| Start (a : api)                     (* a call begins *)
| Go (i : nat) (ok cooldown : bool)   (* its next instruction *)
| Dispatch                            (* the line reaches the task *)
| Finish (keepResume : bool)          (* the download is over: recordFinishedKeep reads the pause set *)
| Interrupted                         (* or fail returns because of the shutdown *)
| Record_ (ok : bool) | FinalReport | Forget
| ShutFlag | Drain | CancelAll | EndContext
| OtherFlush (ok : bool)              (* another task's write of the whole store *)
| Restart                             (* the process ends, and the next one starts *)
| Tick (d : Z).

#[global] Instance api_eq_dec : EqDecision api.
Proof. solve_decision. Defined.
#[global] Instance event_eq_dec : EqDecision event.
Proof. solve_decision. Defined.

Definition on_run (m : view) (f : taskRun -> view) : view := match run m with Some r => f r | None => m end.
(** resumeInterrupted, for this task. *)
Definition boot (m : view) : view :=
  let e := filed m in
  mkView false false (match e with Some t => ResumePaused t | None => false end) e e None (next m) None (clock m) false 0
    (match e with Some t => if ResumePaused t then [] else [[ICheckOpen (with_force t false)]] | None => [] end).
Definition step (m : view) (e : event) : view :=
  match e with
  | Start a =>
      match a with
      | handleResponse _ => if tracked m then set_threads m (threads m ++ [program a]) else m
      | _ => set_threads m (threads m ++ [program a])
      end
  | Go i ok cooldown =>
      match threads m !! i with
      | Some (c :: rest) => let '(m', pre) := exec m c ok cooldown in set_threads m' (<[i := pre ++ rest]> (threads m))
      | _ => m
      end
  | Dispatch =>
      if shutting m then m
      else on_run m (fun r => match at_ r with
                              | Queued => if ended r then set_report (set_run m None) false 0 else set_run m (Some (mkRun (number r) Running false))
                              | _ => m
                              end)
  | Finish keepResume =>
      on_run m (fun r => match at_ r with Running => set_run m (Some (mkRun (number r) (Ending (keepResume || paused m)) (ended r))) | _ => m end)
  | Interrupted =>
      on_run m (fun r => match at_ r with
                         | Running => if shutting m && ended r then set_run m (Some (mkRun (number r) Reported true)) else m
                         | _ => m
                         end)
  | Record_ ok =>
      on_run m (fun r => match at_ r with
                         | Ending keep =>
                             set_run (if negb (shutting m) && negb keep then store_remove m ok else m)
                               (Some (mkRun (number r) Recorded (ended r)))
                         | _ => m
                         end)
  | FinalReport =>
      on_run m (fun r => match at_ r with Recorded => set_run (set_report m false 0) (Some (mkRun (number r) Reported (ended r))) | _ => m end)
  | Forget => on_run m (fun r => match at_ r with Reported => set_run m None | _ => m end)
  | ShutFlag => set_flags m true (outer m)
  | Drain => if shutting m then dequeue m else m
  | CancelAll => if shutting m then on_run m (fun r => set_run m (Some (mkRun (number r) (at_ r) true))) else m
  | EndContext => set_run (set_flags m (shutting m) true) ((fun r => mkRun (number r) (at_ r) true) <$> run m)
  | OtherFlush ok => if ok then set_store m (entry m) (entry m) else m
  | Restart => boot m
  | Tick d => mkView (shutting m) (outer m) (paused m) (entry m) (filed m) (run m) (next m) (resumedAt m) (clock m + Z.max 0 d) (tracked m) (unknownStreak m) (threads m)
  end.
Definition steps (m : view) (evs : list event) : view := fold_left step evs m.
Definition fresh : view := mkView false false false None None None 0 None 0 false 0 [].

(** * Lemmas *)

(** ** The store's own operations, one task at a time *)

Lemma view_add walk s t now ok id :
  tasks (Add walk s t now ok) !! id = if bool_decide (id = ID t) then Some (add_entry (tasks s !! ID t) t now) else tasks s !! id.
Proof.
  unfold Add, add_entry, flushLocked. cbn. case_bool_decide as E; [subst; by rewrite lookup_insert_eq|by rewrite lookup_insert_ne].
Qed.
Lemma view_remove walk s id ok id' :
  tasks (Remove walk s id ok) !! id' = if bool_decide (id' = id) then None else tasks s !! id'.
Proof.
  unfold Remove. destruct (tasks s !! id) eqn:E; cbn; case_bool_decide; subst; try done; [by rewrite lookup_delete_eq|by rewrite lookup_delete_ne].
Qed.

(** ** Calls that cannot start the task *)

Definition adds_i (i : instr) : bool :=
  match i with ICheckOpen _ | IRegister _ | IAdd _ | IEnqueue _ _ | IResume | IResumeGet | IRetry => true | _ => false end.
Definition adds_a (a : api) : bool := match a with Submit _ | Resume | Retry => true | _ => false end.
Definition adds_e (e : event) : bool := match e with Start a => adds_a a | _ => false end.
Definition flush_ok (e : event) : bool := match e with Go _ ok _ | Record_ ok => ok | _ => true end.

(** No call that may start the task is under way. *)
Record settled (m : view) : Prop := {
  st_threads : Forall (Forall (fun i => adds_i i = false)) (threads m);
  st_run : forall r, run m = Some r -> at_ r <> Registered
}.
(** A run only goes on, or goes away. *)
Definition goes_on (r r' : option taskRun) : Prop :=
  r' = None \/ exists a b, r = Some a /\ r' = Some b /\ number b = number a /\ (ended a = true -> ended b = true)
    /\ (at_ a <> Registered -> at_ b <> Registered).
Lemma goes_on_refl r : goes_on r r.
Proof. destruct r as [a|]; [right; exists a, a; auto|by left]. Qed.
Lemma goes_on_to a b :
  number b = number a -> (ended a = true -> ended b = true) -> (at_ a <> Registered -> at_ b <> Registered) -> goes_on (Some a) (Some b).
Proof. intros. right. by exists a, b. Qed.
#[local] Hint Resolve goes_on_refl : core.

Record quiet_change (m m' : view) : Prop := {
  qc_entry : entry m = None -> entry m' = None;
  qc_filed : entry m = None -> filed m = None -> filed m' = None;
  qc_run : goes_on (run m) (run m')
}.
Lemma quiet_same m m' : entry m' = entry m -> filed m' = filed m -> run m' = run m -> quiet_change m m'.
Proof. intros E F R. split; rewrite ?E, ?F, ?R; auto. Qed.
Lemma remove_quiet m ok : quiet_change m (store_remove m ok).
Proof. unfold store_remove. destruct (entry m) eqn:E; split; cbn; try done; rewrite ?E; auto; done. Qed.
Lemma flag_quiet m ok : quiet_change m (store_flag m ok).
Proof.
  unfold store_flag. destruct (entry m) as [t|] eqn:E; [|by apply quiet_same].
  destruct (Bool.eqb _ _); [by apply quiet_same|]. split; cbn; try done; rewrite ?E; auto; done.
Qed.

(** A task leaves the line, or stays where it is. *)
Lemma dequeue_shape m : dequeue m = m \/ dequeue m = set_report (set_run m None) false 0.
Proof. unfold dequeue. repeat case_match; auto. Qed.
Lemma exec_quiet m i ok cd m' pre :
  exec m i ok cd = (m', pre) -> adds_i i = false -> quiet_change m m' /\ Forall (fun i => adds_i i = false) pre /\ threads m' = threads m.
Proof.
  intros E A. destruct i as [t|t| |t| |n f| |l| | | | |n| | | | | | | | |r]; try discriminate A; cbn in E.
  - injection E as <- <-. split_and!; [by apply quiet_same|constructor|done].
  - injection E as <- <-. split_and!; [by apply quiet_same|constructor|done].
  - injection E as <- <-. split_and!; [by apply quiet_same|destruct (run m); repeat constructor|done].
  - injection E as <- <-. split_and!; [by apply quiet_same|destruct (run m); [destruct l|]; repeat constructor|done].
  - injection E as <- <-. split_and!; [by apply quiet_same|constructor|done].
  - injection E as <- <-. split_and!; [apply flag_quiet|constructor|]. unfold store_flag. by repeat case_match.
  - injection E as <- <-. split_and!; [apply remove_quiet|constructor|]. unfold store_remove. by repeat case_match.
  - injection E as <- <-. destruct (dequeue_shape m) as [-> | ->]; (split_and!; [|constructor|done]); [by apply quiet_same|].
    split; cbn; auto. by left.
  - injection E as <- <-. split_and!; [|constructor|by repeat case_match].
    destruct (run m) as [r|] eqn:R; [|by apply quiet_same]. destruct (number r =? n)%nat eqn:N; [|by apply quiet_same].
    apply Nat.eqb_eq in N as <-. split; cbn; auto. rewrite R. by apply goes_on_to.
  - injection E as <- <-. split_and!; [by apply quiet_same|constructor|done].
  - injection E as <- <-. split_and!; [by apply quiet_same|constructor|done].
  - unfold recentlyResumed in E. repeat case_match; simplify_eq; (split_and!; [by apply quiet_same|repeat constructor|done]).
  - injection E as <- <-. split_and!; [by apply quiet_same|destruct (run m); repeat constructor|done].
  - injection E as <- <-. split_and!; [by apply quiet_same|constructor|done].
  - unfold response in E. repeat case_match; simplify_eq; (split_and!; [by apply quiet_same|repeat constructor|done]).
Qed.
Lemma settled_next m m' :
  settled m -> goes_on (run m) (run m') -> Forall (Forall (fun i => adds_i i = false)) (threads m') -> settled m'.
Proof.
  intros [_ S] G T. split; [done|]. intros r R. destruct G as [N|(a & b & A & B & _ & _ & P)]; [congruence|].
  rewrite B in R. injection R as <-. apply P, S. done.
Qed.
(** A run that changes its phase, and nothing else of the view. *)
Lemma run_moves m r p e :
  run m = Some r -> (ended r = true -> e = true) -> p <> Registered ->
  quiet_change m (set_run m (Some (mkRun (number r) p e))).
Proof. intros R H P. split; cbn; auto. rewrite R. by apply goes_on_to. Qed.
Lemma run_leaves m : quiet_change m (set_report (set_run m None) false 0).
Proof. split; cbn; auto. by left. Qed.
#[local] Hint Resolve run_leaves : core.

Lemma go_threads m m' i l rest pre :
  Forall (Forall (fun i => adds_i i = false)) (threads m) -> threads m !! i = Some (l :: rest) ->
  Forall (fun i => adds_i i = false) pre -> Forall (Forall (fun i => adds_i i = false)) (threads (set_threads m' (<[i := pre ++ rest]> (threads m)))).
Proof.
  intros T L P. cbn. apply Forall_insert; [done|]. apply Forall_app. split; [done|].
  pose proof (Forall_lookup_1 _ _ _ _ T L) as F. by apply Forall_cons in F as [_ ?].
Qed.
Lemma set_threads_quiet m m' l : quiet_change m m' -> quiet_change m (set_threads m' l).
Proof. intros [A B C]. by split. Qed.
#[local] Hint Resolve quiet_same set_threads_quiet : core.

Lemma on_run_quiet m f : (forall r, run m = Some r -> quiet_change m (f r)) -> quiet_change m (on_run m f).
Proof. intros H. unfold on_run. destruct (run m) as [r|]; [by apply H|by apply quiet_same]. Qed.

Lemma step_quiet_change m e : settled m -> adds_e e = false -> e <> Restart -> quiet_change m (step m e).
Proof.
  intros S A N. destruct e as [a|i ok cd| |k| |ok| | | | | | |ok| |d]; try done.
  - destruct a; cbn; repeat case_match; by apply quiet_same.
  - cbn. destruct (threads m !! i) as [[|c rest]|] eqn:L; [by apply quiet_same| |by apply quiet_same].
    destruct (exec m c ok cd) as [m' pre] eqn:E. apply set_threads_quiet. apply (exec_quiet _ _ _ _ _ _ E).
    pose proof (Forall_lookup_1 _ _ _ _ (st_threads _ S) L) as F. by apply Forall_cons in F as [? _].
  - cbn. case_if; [by apply quiet_same|]. apply on_run_quiet. intros r R. destruct (at_ r); try by apply quiet_same.
    destruct (ended r) eqn:Ee; [done|]. apply run_moves; [done|congruence|done].
  - cbn. apply on_run_quiet. intros r R. destruct (at_ r); try by apply quiet_same. by apply run_moves.
  - cbn. apply on_run_quiet. intros r R. destruct (at_ r); try by apply quiet_same. case_if; [|by apply quiet_same]. by apply run_moves.
  - cbn. apply on_run_quiet. intros r R. destruct (at_ r) as [| | |keep| |]; try by apply quiet_same.
    case_if; [|by apply run_moves]. pose proof (remove_quiet m ok) as [Q1 Q2 _]. split; cbn; [done|done|]. rewrite R. by apply goes_on_to.
  - cbn. apply on_run_quiet. intros r R. destruct (at_ r); try by apply quiet_same. split; cbn; auto. rewrite R. by apply goes_on_to.
  - cbn. apply on_run_quiet. intros r R. destruct (at_ r); try by apply quiet_same. split; cbn; auto. by left.
  - cbn. case_if; [|by apply quiet_same]. destruct (dequeue_shape m) as [-> | ->]; [by apply quiet_same|done].
  - cbn. case_if; [|by apply quiet_same]. apply on_run_quiet. intros r R. apply run_moves; [done|done|by apply (st_run _ S)].
  - cbn. split; cbn; auto. destruct (run m) as [r|] eqn:R; [|by left]. cbn. by apply goes_on_to.
  - cbn. destruct ok; [|by apply quiet_same]. split; cbn; auto.
Qed.
Lemma step_settled m e : settled m -> adds_e e = false -> e <> Restart -> settled (step m e).
Proof.
  intros S A N. apply (settled_next m); [done|by apply qc_run, step_quiet_change|].
  destruct e as [a|i ok cd| |k| |ok| | | | | | |ok| |d]; try done.
  - destruct a; cbn in A |- *; try discriminate A; repeat case_match; try apply S;
      (apply Forall_app; split; [apply S|repeat constructor]).
  - cbn. destruct (threads m !! i) as [[|c rest]|] eqn:L; [apply S| |apply S].
    destruct (exec m c ok cd) as [m' pre] eqn:E.
    assert (C : adds_i c = false).
    { pose proof (Forall_lookup_1 _ _ _ _ (st_threads _ S) L) as F. by apply Forall_cons in F as [? _]. }
    destruct (exec_quiet _ _ _ _ _ _ E C) as (_ & P & _). eapply go_threads; [apply S|done|done].
  - cbn. case_if; [apply S|]. unfold on_run. repeat case_match; apply S.
  - cbn. unfold on_run. repeat case_match; apply S.
  - cbn. unfold on_run. repeat case_match; apply S.
  - cbn. unfold on_run, store_remove. repeat case_match; cbn; try apply S.
    all: repeat case_match; cbn; apply S.
  - cbn. unfold on_run. repeat case_match; apply S.
  - cbn. unfold on_run. repeat case_match; apply S.
  - apply S.
  - cbn. case_if; [|apply S]. destruct (dequeue_shape m) as [-> | ->]; apply S.
  - cbn. case_if; [|apply S]. unfold on_run. repeat case_match; apply S.
  - apply S.
  - cbn. case_match; apply S.
  - apply S.
Qed.

(** ** The file follows the store when writes succeed *)

Lemma exec_synced m i cd m' pre : exec m i true cd = (m', pre) -> filed m = entry m -> filed m' = entry m'.
Proof.
  intros E S. destruct i; cbn in E; unfold store_flag, store_remove, recentlyResumed, dequeue in E; repeat case_match; simplify_eq; try done; congruence.
Qed.
Lemma step_synced m e : flush_ok e = true -> filed m = entry m -> filed (step m e) = entry (step m e).
Proof.
  intros F S. destruct e as [a|i ok cd| |k| |ok| | | | | | |ok| |d]; cbn in F |- *; subst.
  - destruct a; repeat case_match; done.
  - repeat case_match; try done. cbn. by eapply exec_synced.
  - unfold on_run. repeat case_match; done.
  - unfold on_run. repeat case_match; done.
  - unfold on_run. repeat case_match; done.
  - unfold on_run, store_remove. repeat case_match; cbn; congruence.
  - unfold on_run. repeat case_match; done.
  - unfold on_run. repeat case_match; done.
  - done.
  - destruct (dequeue_shape m) as [-> | ->]; by case_match.
  - unfold on_run. repeat case_match; done.
  - done.
  - by destruct ok.
  - done.
  - done.
Qed.

(** ** Cancels *)

Definition stopped (m : view) : Prop := forall r, run m = Some r -> ended r = true.
Lemma stopped_goes_on m m' : goes_on (run m) (run m') -> stopped m -> stopped m'.
Proof.
  intros [N|(a & b & A & B & _ & E & _)] H r R; [congruence|]. rewrite B in R. injection R as <-. by apply E, H.
Qed.

(** The task is nowhere: not in the store, not in the file, its run is over or ending, and no call will start it. *)
Record gone (m : view) : Prop := { gn_settled : settled m; gn_entry : entry m = None; gn_filed : filed m = None; gn_stopped : stopped m }.
Lemma gone_step m e : gone m -> adds_e e = false -> gone (step m e).
Proof.
  intros [S E F P] A. destruct (decide (e = Restart)) as [-> |N].
  - cbn. unfold boot. rewrite F. split; cbn; [split; [constructor|done]|done|done|]. intros r R. discriminate R.
  - pose proof (step_quiet_change m e S A N) as [Q1 Q2 Q3].
    split; [by apply step_settled|by apply Q1|by apply Q2|by eapply stopped_goes_on].
Qed.

(** How far a cancel is: it still has to remove the entry, and to stop the run. *)
Definition stops_i (i : instr) : bool := match i with ICancelTask | IPauseTask _ => true | _ => false end.
Definition will_stop (m : view) (l : list instr) : Prop :=
  stopped m \/ (exists c, c ∈ l /\ stops_i c = true) \/ exists n, ICancelCtx n ∈ l /\ forall r, run m = Some r -> number r = n.
Record cancelling (i : nat) (m : view) : Prop := {
  cl_settled : settled m; cl_synced : filed m = entry m;
  cl_left : exists l, threads m !! i = Some l /\ (IRemove ∈ l \/ entry m = None) /\ will_stop m l
}.
Lemma will_stop_on m m' l : goes_on (run m) (run m') -> will_stop m l -> will_stop m' l.
Proof.
  intros G [H|[H|(n & H & R)]]; [left; by eapply stopped_goes_on|by right; left|right; right].
  exists n. split; [done|]. intros r R'. destruct G as [N|(a & b & A & B & C & _)]; [congruence|].
  rewrite B in R'. injection R' as <-. rewrite C. by apply R.
Qed.
Lemma elem_of_rest (c x : instr) rest pre : x ∈ c :: rest -> x <> c -> x ∈ pre ++ rest.
Proof. intros [->|H]%elem_of_cons N; [done|]. apply elem_of_app. by right. Qed.

(** The call's own instruction. *)
Lemma will_stop_own m c rest ok cd m' pre :
  exec m c ok cd = (m', pre) -> adds_i c = false -> will_stop m (c :: rest) -> will_stop m' (pre ++ rest).
Proof.
  intros E A HW. destruct (exec_quiet _ _ _ _ _ _ E A) as ([_ _ Q3] & _ & _).
  destruct (will_stop_on m m' _ Q3 HW) as [H|[(x & H & Sx)|(n & H & R)]]; [by left| |].
  - destruct (decide (c = x)) as [-> |N]; [|right; left; exists x; split; [eapply elem_of_rest; [done|congruence]|done]].
    destruct x; try discriminate Sx; cbn in E; injection E as <- <-;
      (destruct (run m) as [r|] eqn:Rm; [|left; intros r Rr; congruence]); right; right; exists (number r);
      (split; [apply elem_of_app; left; set_solver|intros r' R'; congruence]).
  - destruct (decide (c = ICancelCtx n)) as [-> |N]; [|right; right; exists n; split; [eapply elem_of_rest; [done|congruence]|done]].
    left. intros r Rr. specialize (R r Rr). cbn in E. injection E as <- <-. destruct (run m) as [r0|] eqn:Rm; [|congruence].
    destruct (number r0 =? n)%nat eqn:Nb; [cbn in Rr; by injection Rr as <-|]. apply Nat.eqb_neq in Nb. rewrite Rm in Rr. injection Rr as ->. done.
Qed.
Lemma will_remove_own m c rest ok cd m' pre :
  exec m c ok cd = (m', pre) -> adds_i c = false -> (IRemove ∈ c :: rest \/ entry m = None) -> IRemove ∈ pre ++ rest \/ entry m' = None.
Proof.
  intros E A [HR|HR]; [|right; by apply (exec_quiet _ _ _ _ _ _ E A)]. destruct (decide (c = IRemove)) as [-> |N].
  - right. cbn in E. injection E as <- <-. unfold store_remove. destruct (entry m) eqn:Em; [done|by rewrite Em].
  - left. eapply elem_of_rest; [done|]. congruence.
Qed.
(** Nobody else touches a call's instructions. *)
Lemma go_or_not e i : (exists ok cd, e = Go i ok cd) \/ forall ok cd, e <> Go i ok cd.
Proof. destruct e as [|j ok cd| | | | | | | | | | | | |]; try (by right). destruct (decide (j = i)) as [-> |]; [left; eauto|right; congruence]. Qed.
Lemma other_thread m e i l :
  threads m !! i = Some l -> e <> Restart -> (forall ok cd, e <> Go i ok cd) -> threads (step m e) !! i = Some l.
Proof.
  intros L N G. destruct e as [a|j ok cd| |k| |ok| | | | | | |ok| |d]; cbn; try done.
  - destruct a; repeat case_match; try done; cbn; by rewrite lookup_app_l by (by eapply lookup_lt_Some).
  - repeat case_match; try done. cbn. rewrite list_lookup_insert_ne; [done|]. intros ->. by eapply G.
  - unfold on_run. repeat case_match; done.
  - unfold on_run. repeat case_match; done.
  - unfold on_run. repeat case_match; done.
  - unfold on_run, store_remove. repeat case_match; done.
  - unfold on_run. repeat case_match; done.
  - unfold on_run. repeat case_match; done.
  - destruct (dequeue_shape m) as [-> | ->]; by case_match.
  - unfold on_run. repeat case_match; done.
  - by case_match.
Qed.
Lemma own_thread m i c rest ok cd m' pre :
  threads m !! i = Some (c :: rest) -> exec m c ok cd = (m', pre) ->
  step m (Go i ok cd) = set_threads m' (<[i := pre ++ rest]> (threads m)) /\ threads (step m (Go i ok cd)) !! i = Some (pre ++ rest).
Proof.
  intros L E. cbn. rewrite L, E. split; [done|]. cbn. apply list_lookup_insert_eq. by eapply lookup_lt_Some.
Qed.
Lemma idle_thread m i ok cd : threads m !! i = Some [] -> step m (Go i ok cd) = m.
Proof. intros L. cbn. by rewrite L. Qed.

Lemma cancelling_step i m e :
  cancelling i m -> adds_e e = false -> e <> Restart -> flush_ok e = true -> cancelling i (step m e).
Proof.
  intros C A N F. pose proof C as [S Y (l & L & HR & HW)].
  destruct (go_or_not e i) as [(ok & cd & ->)|G].
  - destruct l as [|c rest]; [by rewrite idle_thread|]. split; [by apply step_settled|by apply step_synced|].
    destruct (exec m c ok cd) as [m' pre] eqn:E. destruct (own_thread _ _ _ _ _ _ _ _ L E) as [T1 T2].
    pose proof (Forall_lookup_1 _ _ _ _ (st_threads _ S) L) as Fc. apply Forall_cons in Fc as [Ac _].
    exists (pre ++ rest). rewrite T2. split; [done|]. rewrite T1. cbn.
    split; [by eapply will_remove_own|]. change (will_stop m' (pre ++ rest)). by eapply will_stop_own.
  - split; [by apply step_settled|by apply step_synced|]. exists l. split; [by apply other_thread|].
    pose proof (step_quiet_change m e S A N) as [Q1 _ Q3]. split; [|by eapply will_stop_on].
    destruct HR as [?|HR]; [by left|right; by apply Q1].
Qed.
Lemma steps_cancelling i evs : forall m,
  cancelling i m -> Forall (fun e => adds_e e = false /\ e <> Restart /\ flush_ok e = true) evs -> cancelling i (steps m evs).
Proof.
  induction evs as [|e evs IH]; intros m C F; [done|]. apply Forall_cons in F as [(A & N & O) F]. cbn. apply IH; [by apply cancelling_step|done].
Qed.
Lemma steps_gone evs : forall m, gone m -> Forall (fun e => adds_e e = false) evs -> gone (steps m evs).
Proof.
  induction evs as [|e evs IH]; intros m C F; [done|]. apply Forall_cons in F as [A F]. cbn. apply IH; [by apply gone_step|done].
Qed.

(** ** Pauses *)

(** Instructions that leave a parked task alone. *)
Definition removes_i (i : instr) : bool :=
  match i with
  | ICancelTask | IRemove | IClearPaused | IPurge => true
  | IReport r => negb (Success r) || Cancelled r
  | _ => false
  end.
Definition calm_i (i : instr) : bool := negb (adds_i i) && negb (removes_i i).
Definition calm_a (a : api) : bool := forallb calm_i (program a).
Definition calm_e (e : event) : bool := match e with Start a => calm_a a | _ => true end.

(** The entry is [x], on disk too, the task counts as paused, and nothing under way removes it. *)
Record held (x : agentTask) (m : view) : Prop := {
  hd_calm : Forall (Forall (fun i => calm_i i = true)) (threads m);
  hd_run : forall r, run m = Some r -> at_ r <> Registered /\ at_ r <> Ending false;
  hd_paused : paused m = true;
  hd_entry : entry m = Some x;
  hd_filed : filed m = Some x
}.
Lemma flagged_self t : ResumePaused t = true -> with_paused t true = t.
Proof. destruct t. cbn. by intros ->. Qed.
Lemma calm_adds i : calm_i i = true -> adds_i i = false.
Proof. unfold calm_i. by destruct (adds_i i). Qed.
Lemma exec_calm m x i ok cd m' pre :
  exec m i ok cd = (m', pre) -> calm_i i = true -> ok = true \/ ResumePaused x = true ->
  paused m = true -> entry m = Some x -> filed m = Some x ->
  let x' := match i with IFlag => with_paused x true | _ => x end in
  Forall (fun i => calm_i i = true) pre /\ paused m' = true /\ entry m' = Some x' /\ filed m' = Some x'
  /\ (forall r', run m' = Some r' -> exists r, run m = Some r /\ at_ r' = at_ r).
Proof.
  intros E C Ok P En Fi. destruct i as [u|u| |u| |n f| |l| | | | |n| | | | | | | | |r]; try discriminate C; cbn in E; cbv zeta iota.
  - simplify_eq. cbn. split_and!; eauto.
  - injection E as <- <-. split_and!; eauto. destruct (run m); [destruct l|]; repeat constructor.
  - simplify_eq. cbn. split_and!; eauto.
  - unfold store_flag in E. rewrite En in E. destruct (ResumePaused x) eqn:Px; cbn in E; simplify_eq.
    + rewrite flagged_self by done. split_and!; eauto.
    + destruct Ok as [->|]; [|done]. cbn. split_and!; eauto.
  - injection E as <- <-. destruct (dequeue_shape m) as [-> | ->]; split_and!; eauto; cbn; intros; simplify_eq.
  - injection E as <- <-. destruct (run m) as [r|] eqn:R; [destruct (number r =? n)%nat|]; split_and!; eauto; cbn; intros; simplify_eq; eauto.
  - simplify_eq. cbn. split_and!; eauto.
  - simplify_eq. cbn. split_and!; eauto.
  - unfold recentlyResumed in E. repeat case_match; simplify_eq; split_and!; eauto; repeat constructor.
  - simplify_eq. cbn. split_and!; eauto.
  - cbn in C. destruct (Success r) eqn:Sr; [|discriminate C]. destruct (Cancelled r) eqn:Cr; [discriminate C|]. cbn in E.
    unfold response in E. rewrite Sr, Cr in E. cbn in E. destruct (Paused r); simplify_eq; split_and!; eauto; repeat constructor.
Qed.

Lemma held_step x m e :
  held x m -> calm_e e = true -> (flush_ok e = true /\ e <> Restart) \/ ResumePaused x = true ->
  held x (step m e) \/ held (with_paused x true) (step m e).
Proof.
  intros H C O. pose proof H as [T R P E F].
  assert (K : forall m', threads m' = threads m -> paused m' = paused m -> entry m' = entry m -> filed m' = filed m ->
    (forall r, run m' = Some r -> at_ r <> Registered /\ at_ r <> Ending false) -> held x m').
  { intros m' K1 K2 K3 K4 K5. split; [by rewrite K1|done|by rewrite K2|by rewrite K3|by rewrite K4]. }
  assert (KR : forall f, (forall r, run m = Some r -> held x (f r)) -> held x (on_run m f)).
  { intros f Hf. unfold on_run. destruct (run m); [by apply Hf|done]. }
  destruct e as [a|i ok cd| |k| |ok| | | | | | |ok| |d]; [left|..].
  - assert (X : held x (set_threads m (threads m ++ [program a]))).
    { split; try done. cbn. apply Forall_app. split; [done|]. constructor; [|constructor]. cbn in C. unfold calm_a in C.
      apply Forall_forall. rewrite forallb_forall in C. intros y Hy. apply C. by apply list_elem_of_In. }
    destruct a; cbn; repeat case_match; done.
  - cbn. destruct (threads m !! i) as [[|c rest]|] eqn:L; [by left| |by left].
    destruct (exec m c ok cd) as [m' pre] eqn:X. pose proof (Forall_lookup_1 _ _ _ _ T L) as Fc. apply Forall_cons in Fc as [Cc Cr].
    assert (Ok : ok = true \/ ResumePaused x = true) by (destruct O as [[? _]|?]; auto).
    destruct (exec_calm _ x _ _ _ _ _ X Cc Ok P E F) as (Y1 & Y2 & Y3 & Y4 & Y5).
    assert (Z : held (match c with IFlag => with_paused x true | _ => x end) (set_threads m' (<[i := pre ++ rest]> (threads m)))).
    { split; cbn; [apply Forall_insert; [done|by apply Forall_app]| |done|done|done].
      intros r' R'. destruct (Y5 r' R') as (r & R1 & ->). by apply R. }
    destruct c; auto.
  - left. cbn. case_if; [done|]. apply KR. intros r Rr. destruct (at_ r) eqn:Ar; try done.
    destruct (ended r); apply K; try done; cbn; intros; simplify_eq; done.
  - left. cbn. apply KR. intros r Rr. destruct (at_ r) eqn:Ar; try done. apply K; try done. cbn. rewrite P, orb_true_r. intros; simplify_eq; done.
  - left. cbn. apply KR. intros r Rr. destruct (at_ r) eqn:Ar; try done. case_if; [|done]. apply K; try done. cbn. intros; simplify_eq; done.
  - left. cbn. apply KR. intros r Rr. destruct (at_ r) as [| | |keep| |] eqn:Ar; try done. destruct keep; [|by destruct (R _ Rr)].
    rewrite andb_false_r. apply K; try done. cbn. intros; simplify_eq; done.
  - left. cbn. apply KR. intros r Rr. destruct (at_ r) eqn:Ar; try done. apply K; try done. cbn. intros; simplify_eq; done.
  - left. cbn. apply KR. intros r Rr. destruct (at_ r) eqn:Ar; try done.
  - left. by apply K.
  - left. cbn. case_if; [|done]. destruct (dequeue_shape m) as [-> | ->]; [done|]. by apply K.
  - left. cbn. case_if; [|done]. apply KR. intros r Rr. apply K; try done. cbn. intros; simplify_eq. cbn. by apply R.
  - left. cbn. apply K; try done. cbn. intros r Hr. destruct (run m) as [r0|]; [|discriminate Hr]. injection Hr as <-. cbn. by apply R.
  - left. cbn. destruct ok; [|done]. split; cbn; try done.
  - destruct O as [[_ ?]|O]; [done|]. left. cbn. unfold boot. rewrite F, O. split; cbn; try done.
  - left. by apply K.
Qed.
(** A flagged entry stays as it is, whatever becomes of the writes. *)
Lemma steps_held t evs : forall m,
  held (with_paused t true) m -> Forall (fun e => calm_e e = true) evs -> held (with_paused t true) (steps m evs).
Proof.
  induction evs as [|e evs IH]; intros m C F; [done|]. apply Forall_cons in F as [A F]. cbn. apply IH; [|done].
  destruct (held_step _ _ _ C A) as [H|H]; [by right|done|done].
Qed.

(** The pause has marked the task, and has flagged the entry or still has to. *)
Definition pausing (i : nat) (t : agentTask) (m : view) : Prop :=
  held (with_paused t true) m \/ (held t m /\ exists l, threads m !! i = Some l /\ IFlag ∈ l).
Lemma pausing_step i t m e :
  pausing i t m -> calm_e e = true -> e <> Restart -> flush_ok e = true -> pausing i t (step m e).
Proof.
  intros [H|(H & l & L & Hl)] C N O.
  { left. destruct (held_step _ _ _ H C) as [H'|H']; [by right|done|done]. }
  destruct (held_step _ _ _ H C) as [H'|H']; [by left| |by left].
  destruct (go_or_not e i) as [(ok & cd & ->)|G].
  - destruct l as [|c rest]; [by apply not_elem_of_nil in Hl|].
    destruct (exec m c ok cd) as [m' pre] eqn:E. destruct (own_thread _ _ _ _ _ _ _ _ L E) as [T1 T2].
    destruct (decide (c = IFlag)) as [-> |Hc].
    + left. pose proof H as [T _ P En Fi]. pose proof (Forall_lookup_1 _ _ _ _ T L) as Fc. apply Forall_cons in Fc as [Cc _].
      cbn in O. subst ok. destruct (exec_calm _ t _ _ _ _ _ E Cc ltac:(by left) P En Fi) as (_ & _ & Y3 & _).
      rewrite T1 in H' |- *. pose proof (hd_entry _ _ H') as He. cbn in He. rewrite Y3 in He. injection He as He. by rewrite <- He in H' at 1.
    + right. split; [done|]. exists (pre ++ rest). split; [done|]. eapply elem_of_rest; [done|congruence].
  - right. split; [done|]. exists l. split; [by apply other_thread|done].
Qed.
Lemma steps_pausing i t evs : forall m,
  pausing i t m -> Forall (fun e => calm_e e = true /\ e <> Restart /\ flush_ok e = true) evs -> pausing i t (steps m evs).
Proof.
  induction evs as [|e evs IH]; intros m C F; [done|]. apply Forall_cons in F as [(A & N & O) F]. cbn. apply IH; [by apply pausing_step|done].
Qed.
(** Marking a task whose download has not read the pause set. *)
Lemma mark_pausing m t r i n rest ok cd :
  Forall (Forall (fun i => calm_i i = true)) (threads m) -> entry m = Some t -> filed m = Some t ->
  run m = Some r -> at_ r = Queued \/ at_ r = Running -> threads m !! i = Some (PauseTask n ++ rest) ->
  pausing i t (step m (Go i ok cd)).
Proof.
  intros T E F R A L. right. destruct (own_thread m i IMarkPaused _ ok cd _ _ L eq_refl) as [T1 T2]. split.
  - rewrite T1. split; cbn; try done.
    + apply Forall_insert; [done|]. pose proof (Forall_lookup_1 _ _ _ _ T L) as Fc. by apply Forall_cons in Fc as [_ ?].
    + intros r' R'. rewrite R in R'. injection R' as <-. destruct A as [-> | ->]; done.
  - eexists. split; [exact T2|]. cbn. by left.
Qed.

(** ** A shutdown *)

Definition pauses_i (i : instr) : bool :=
  match i with IPauseTask _ | IMarkPaused | IFlag | IWebPause => true | IReport r => Paused r | _ => false end.
Definition harmless_i (i : instr) : bool := calm_i i && negb (pauses_i i).
Definition harmless_e (e : event) : bool :=
  match e with Start a => forallb harmless_i (program a) | Restart => false | _ => true end.
Record interrupted (t : agentTask) (m : view) : Prop := {
  it_threads : Forall (Forall (fun i => harmless_i i = true)) (threads m);
  it_shutting : shutting m = true;
  it_entry : entry m = Some t; it_filed : filed m = Some t
}.
Lemma interrupted_step t m e : interrupted t m -> harmless_e e = true -> interrupted t (step m e).
Proof.
  intros H C. pose proof H as [T S E F].
  assert (K : forall m', threads m' = threads m -> shutting m' = shutting m -> entry m' = entry m -> filed m' = filed m -> interrupted t m').
  { intros m' K1 K2 K3 K4. split; congruence. }
  destruct e as [a|i ok cd| |k| |ok| | | | | | |ok| |d]; try done.
  - assert (X : interrupted t (set_threads m (threads m ++ [program a]))).
    { split; try done. cbn. apply Forall_app. split; [done|]. constructor; [|constructor]. cbn in C.
      apply Forall_forall. rewrite forallb_forall in C. intros x Hx. apply C. by apply list_elem_of_In. }
    destruct a; cbn; repeat case_match; done.
  - cbn. destruct (threads m !! i) as [[|c rest]|] eqn:L; [done| |done].
    destruct (exec m c ok cd) as [m' pre] eqn:X. pose proof (Forall_lookup_1 _ _ _ _ T L) as Fc. apply Forall_cons in Fc as [Cc Cr].
    assert (Y : Forall (fun i => harmless_i i = true) pre /\ shutting m' = true /\ entry m' = Some t /\ filed m' = Some t).
    { destruct c as [u|u| |u| |n f| |l| | | | |n| | | | | | | | |r]; try discriminate Cc; cbn in X; try (simplify_eq; split_and!; eauto; fail).
      - injection X as <- <-. destruct (dequeue_shape m) as [-> | ->]; split_and!; eauto.
      - injection X as <- <-. repeat case_match; split_and!; eauto.
      - destruct r as [[] [] []]; try discriminate Cc. cbn in X. simplify_eq. split_and!; eauto. }
    destruct Y as (Y1 & Y2 & Y3 & Y4). split; cbn; [apply Forall_insert; [done|by apply Forall_app]|done|done|done].
  - cbn. unfold on_run. rewrite S. done.
  - cbn. unfold on_run. repeat case_match; by apply K.
  - cbn. unfold on_run. repeat case_match; by apply K.
  - cbn. unfold on_run. rewrite S. cbn. repeat case_match; by apply K.
  - cbn. unfold on_run. repeat case_match; by apply K.
  - cbn. unfold on_run. repeat case_match; by apply K.
  - cbn. destruct (dequeue_shape m) as [-> | ->]; repeat case_match; by apply K.
  - cbn. unfold on_run. repeat case_match; by apply K.
  - cbn. destruct ok; [|done]. split; cbn; try done.
Qed.
Lemma steps_interrupted t evs : forall m, interrupted t m -> Forall (fun e => harmless_e e = true) evs -> interrupted t (steps m evs).
Proof.
  induction evs as [|e evs IH]; intros m C F; [done|]. apply Forall_cons in F as [A F]. cbn. apply IH; [by apply interrupted_step|done].
Qed.
Lemma boot_resumes m t q :
  filed m = Some t -> ResumePaused t = false -> persistable t = true -> QueuedAt t = Some q ->
  let m' := steps (boot m) (replicate 6 (Go 0 true false)) in
  run m' = Some (mkRun (next m) Queued false) /\ entry m' = Some (with_force t false) /\ filed m' = Some (with_force t false).
Proof.
  intros F P Pe Q. unfold boot. rewrite F, P.
  assert (Pf : persistable (with_force t false) = true) by exact Pe.
  assert (Ae : add_entry (Some t) (with_paused (with_force t false) false) (clock m) = with_force t false).
  { unfold add_entry. rewrite Q. destruct t. cbn in *. by subst. }
  assert (Fu : ForceStart (with_force t false) = false) by done.
  set (u := with_force t false) in *. clearbody u. cbn -[persistable add_entry with_paused]. rewrite Fu.
  cbn -[persistable add_entry with_paused]. rewrite Pf, Fu. cbn -[add_entry with_paused]. rewrite Nat.eqb_refl.
  cbn -[add_entry with_paused]. rewrite Ae. done.
Qed.

(** * Claims *)

(** C15: A cancelled download stays cancelled.  Whoever cancels it, the web, this machine or the reporter that no
    longer finds it on the server, let the resume file say what the store says when the cancel starts, let no call that
    submits the task be under way or begin, and let the store's writes succeed and the process live until the cancel
    has returned.  Then, however the cancel interleaved with the download's own end, with pauses, reports and a shutdown,
    once it has returned the task is in no store and on no disk and its run is stopped, and no later event but a new
    submission brings it back: not a later write that fails, not a shutdown, and not any number of restarts.  (A cancel
    whose own write fails does not have this, as shown below.) *)
Theorem cancel_is_final m a evs later :
  settled m -> filed m = entry m -> a = Cancel \/ a = WebCancel \/ a = ReapUnknown ->
  Forall (fun e => adds_e e = false /\ e <> Restart /\ flush_ok e = true) evs -> Forall (fun e => adds_e e = false) later ->
  let m1 := steps (step m (Start a)) evs in
  threads m1 !! length (threads m) = Some [] ->
  let m2 := steps m1 later in
  entry m2 = None /\ filed m2 = None /\ stopped m2 /\ threads (step m2 Restart) = [].
Proof.
  intros S Y A F Fl m1 L m2. assert (Aa : adds_a a = false) by (by destruct A as [->|[->| ->]]).
  assert (C : cancelling (length (threads m)) (step m (Start a))).
  { split; [by apply step_settled|by apply step_synced|]. exists (program a).
    assert (T : step m (Start a) = set_threads m (threads m ++ [program a])) by (by destruct A as [->|[->| ->]]).
    rewrite T. cbn [threads set_threads]. split; [by apply list_lookup_middle|]. split.
    - left. destruct A as [->|[->| ->]]; cbn; set_solver.
    - right. left. exists ICancelTask. split; [|done]. destruct A as [->|[->| ->]]; cbn; set_solver. }
  apply (steps_cancelling _ evs) in C as [S1 Y1 (l & L1 & HR & HW)]; [|done]. fold m1 in S1, Y1, L1, HR, HW. rewrite L in L1. injection L1 as <-.
  assert (E1 : entry m1 = None) by (destruct HR as [HR|HR]; [by apply not_elem_of_nil in HR|done]).
  assert (G : gone m1).
  { split; [done|done|by rewrite Y1|]. destruct HW as [?|[(c & Hc & _)|(n & Hn & _)]]; [done| |];
      [by apply not_elem_of_nil in Hc|by apply not_elem_of_nil in Hn]. }
  apply (steps_gone later) in G as [_ G1 G2 G3]; [|done]. fold m2 in G1, G2, G3. split_and!; try done. cbn. unfold boot. by rewrite G2.
Qed.

(** C16: A pause survives.  Let a pause, from this machine, from the web or on a status response, have looked the task
    up and be about to mark it, while the download is still queued or running (its end has not read the pause set), the
    entry is in the store and on disk, and no call that submits, cancels or purges the task is under way; and let the
    store's writes succeed and the process live until the pause has flagged the entry.  However the mark, the flag, the
    download's unwinding, other pauses, reports and a shutdown interleave, once the pause has flagged it the entry stays
    in the store and on disk, flagged, through everything that follows, later writes that fail and any number of restarts
    included, as long as nobody resumes, cancels, retries or purges it; and a restart does not run it, but lists it as
    paused again.  (A download that ends on its own before the mark removes its entry.) *)
Theorem pause_survives m t r i n rest ok cd during evs :
  Forall (Forall (fun i => calm_i i = true)) (threads m) -> entry m = Some t -> filed m = Some t ->
  run m = Some r -> at_ r = Queued \/ at_ r = Running -> threads m !! i = Some (PauseTask n ++ rest) ->
  Forall (fun e => calm_e e = true /\ e <> Restart /\ flush_ok e = true) during -> Forall (fun e => calm_e e = true) evs ->
  let m1 := steps (step m (Go i ok cd)) during in
  (exists l, threads m1 !! i = Some l /\ IFlag ∉ l) ->
  let m2 := steps m1 evs in
  entry m2 = Some (with_paused t true) /\ filed m2 = Some (with_paused t true) /\ paused m2 = true
  /\ let m3 := step m2 Restart in run m3 = None /\ threads m3 = [] /\ paused m3 = true.
Proof.
  intros T E F R A L Fd Fe m1 (l & L1 & Hl) m2.
  pose proof (mark_pausing m t r i n rest ok cd T E F R A L) as H. apply (steps_pausing i t during) in H; [|done]. fold m1 in H.
  destruct H as [H|(_ & l' & L2 & Hl')]; [|rewrite L1 in L2; by injection L2 as <-].
  apply (steps_held _ evs) in H as [T2 _ P2 E2 F2]; [|done]. fold m2 in T2, P2, E2, F2. split_and!; try done.
  cbn. unfold boot. rewrite F2. done.
Qed.

(** A download that a shutdown interrupts resumes.  From the moment the shutdown is announced, whatever the downloads,
    the drain, the end of the contexts and the writes of other tasks do, the entry of a persisted download stays, and the next
    start puts it back in the line, with its place kept and without its force start. *)
Lemma interrupted_resumes t q m evs :
  interrupted t m -> ResumePaused t = false -> persistable t = true -> QueuedAt t = Some q ->
  Forall (fun e => harmless_e e = true) evs ->
  let m1 := steps m evs in
  let m2 := steps (step m1 Restart) (replicate 6 (Go 0 true false)) in
  run m2 = Some (mkRun (next m1) Queued false) /\ entry m2 = Some (with_force t false) /\ filed m2 = Some (with_force t false).
Proof.
  intros I P Pe Q F m1 m2. apply (steps_interrupted _ evs) in I as [_ _ _ I4]; [|done]. by apply (boot_resumes _ t q).
Qed.

(** * Demonstrations *)

Definition film : agentTask := demo_task (str "f1") (Some 3).
Definition go (i : nat) : event := Go i true false.
Definition downloading : list event := Start (Submit film) :: replicate 6 (go 0) ++ [Dispatch].
Lemma demo_downloading : run (steps fresh downloading) = Some (mkRun 0 Running false) /\ filed (steps fresh downloading) = Some film.
Proof. vm_compute. auto. Qed.

Lemma downloading_settled : settled (steps fresh downloading).
Proof.
  split; [vm_compute; repeat constructor|]. intros r H. vm_compute in H. injection H as <-. discriminate.
Qed.
(** The web cancels while the download ends by itself; the daemon is restarted. *)
Definition web_cancel : list event := replicate 5 (go 1) ++ [Finish false; Record_ true; FinalReport; Forget] ++ replicate 3 (go 1).
Lemma cancel_is_final_witness : filed (steps (steps (step (steps fresh downloading) (Start WebCancel)) web_cancel) [ShutFlag; Restart; OtherFlush true]) = None.
Proof.
  apply (cancel_is_final (steps fresh downloading) WebCancel web_cancel [ShutFlag; Restart; OtherFlush true]).
  - apply downloading_settled.
  - vm_compute. reflexivity.
  - right. left. reflexivity.
  - repeat constructor; discriminate.
  - repeat constructor.
  - vm_compute. reflexivity.
Defined.

(** The pause has looked the task up; between its mark and its flag the download's end reads the pause set and the
    store's file is written for another task; then it unwinds, with a write that fails, and the daemon is restarted twice. *)
Definition pause_begun : list event := downloading ++ [Start Pause; go 1].
Definition pause_during : list event := [Finish false; OtherFlush true; go 1; go 1].
Definition unwinding : list event := [go 1; go 1; Record_ false; FinalReport; Forget; OtherFlush false; Restart; Restart].
Lemma pause_survives_witness :
  filed (steps (steps (step (steps fresh pause_begun) (go 1)) pause_during) unwinding) = Some (with_paused film true).
Proof.
  apply (pause_survives (steps fresh pause_begun) film (mkRun 0 Running false) 1 0 [IClearResumed] true false pause_during unwinding).
  - vm_compute. repeat constructor.
  - vm_compute. reflexivity.
  - vm_compute. reflexivity.
  - vm_compute. reflexivity.
  - right. reflexivity.
  - vm_compute. reflexivity.
  - repeat constructor; discriminate.
  - repeat constructor.
  - exists [ICancelCtx 0; IClearResumed]. split; [vm_compute; reflexivity|]. set_solver.
Defined.

(** A download whose end has read the pause set before the mark removes its entry although the pause returned. *)
Lemma pause_after_end_is_lost :
  let m := steps fresh (downloading ++ [Start Pause; go 1; Finish false] ++ replicate 5 (go 1) ++ [Record_ true]) in
  threads m = [[]; []] /\ paused m = true /\ entry m = None /\ filed m = None.
Proof. vm_compute. auto. Qed.

Definition stopping : list event := [CancelAll; Interrupted; Forget; EndContext].
Lemma stopping_interrupted : interrupted film (steps fresh (downloading ++ [ShutFlag])).
Proof. split; vm_compute; try reflexivity. repeat constructor. Qed.
Lemma stopping_harmless : Forall (fun e => harmless_e e = true) stopping.
Proof. repeat constructor. Qed.
Lemma interrupted_resumes_witness :
  entry (steps (step (steps (steps fresh (downloading ++ [ShutFlag])) stopping) Restart) (replicate 6 (Go 0 true false))) = Some (with_force film false).
Proof.
  exact (proj1 (proj2 (interrupted_resumes film 3 (steps fresh (downloading ++ [ShutFlag])) stopping stopping_interrupted
    eq_refl eq_refl eq_refl stopping_harmless))).
Defined.

(** * Where the code and its intent part *)

(** A cancel that arrives while Submit has registered the task but not yet persisted it removes an entry that is not
    there; Submit files it afterwards, the line drops the task because its context has ended and leaves the entry, and
    the next start runs the cancelled download. *)
Definition cancel_in_submit : list event :=
  Start (Submit film) :: [go 0; go 0; Start WebCancel] ++ replicate 8 (go 1) ++ replicate 4 (go 0) ++ [Dispatch].
Lemma cancel_in_submit_resurrected :
  let m := steps fresh cancel_in_submit in
  threads m = [[]; []] /\ run m = None /\ entry m = Some film /\ threads (step m Restart) = [[ICheckOpen film]].
Proof. vm_compute. auto. Qed.

(** A cancel whose write fails leaves the entry on disk, and the next start runs the download again; the comment of
    flushLocked expects a failed write to lose an entry at worst. *)
Lemma failed_write_resurrects :
  let m := steps fresh (downloading ++ Start WebCancel :: replicate 8 (Go 1 false false)) in
  threads m = [[]; []] /\ entry m = None /\ threads (step m Restart) = [[ICheckOpen film]].
Proof. vm_compute. auto. Qed.

(** A retry of a running download cancels it and submits it again at once; until the cancelled run has unwound, the
    submission is a duplicate, so the download is gone, from the store too. *)
Definition retry_now : list event := downloading ++ Start Retry :: replicate 9 (go 1) ++ [Finish false; Record_ true; FinalReport; Forget].
Lemma retry_swallowed :
  let m := steps fresh retry_now in threads m = [[]; []] /\ run m = None /\ entry m = None /\ filed m = None.
Proof. vm_compute. auto. Qed.

(** A stale pause on a status response within the grace of a resume is ignored, but the reporter has dropped the task
    before it asks: the download goes on and is reported no more. *)
Definition stale_pause : list event :=
  downloading ++ Start Pause :: replicate 6 (go 1) ++ [Finish false; Record_ true; FinalReport; Forget; Start Resume] ++ replicate 9 (go 2)
  ++ [Dispatch; Start (handleResponse (mkResp true false true))] ++ replicate 3 (go 3).
Lemma stale_pause_untracks :
  let m := steps fresh stale_pause in threads m = [[]; []; []; []] /\ run m = Some (mkRun 1 Running false) /\ tracked m = false.
Proof. vm_compute. auto. Qed.

(** When the daemon's loop fails, its context ends without a shutdown: the downloads look failed and lose their entries. *)
Lemma context_end_forgets :
  let m := steps fresh (downloading ++ [EndContext; Finish false; Record_ true]) in shutting m = false /\ filed m = None.
Proof. vm_compute. auto. Qed.

(** A download that completes while the shutdown waits keeps its entry, and the next start downloads it again. *)
Lemma completed_in_shutdown_again :
  let m := steps fresh (downloading ++ [ShutFlag; Finish false; Record_ true; FinalReport; Forget]) in
  run m = None /\ threads (step m Restart) = [[ICheckOpen film]].
Proof. vm_compute. auto. Qed.
