(* ===== verification/SyncClient.v ===== *)
(** The agent's conversation with the server: internal/agent/sync.go, with the
    classification of failures in blocked.go and types.go.

    One goroutine syncs: it builds a request, waits for the answer, and carries it out;
    deletions and subtitle fetches run on goroutines of their own and report with a
    later request.  A change of the agent's identity ends the run and is left out.
    The machine's events are the critical sections of the pending lists, the answers of
    the server, the pushes of the downlink and the calls from elsewhere; the callbacks
    of the daemon are recorded in the order in which they are called.  Requests keep the
    fields that change; those that describe the host are left out. *)
From Stdlib Require Import ZArith Lia Ascii String.
From stdpp Require Import prelude list strings gmap.
From S2P Require Import Prelude GoStrings ActiveTasks.

Open Scope Z_scope.

(** * Failures *)

Record HTTPError := mkHTTP { StatusCode : Z; Message : bytes; Detail : bytes }.
(** errors.As: an HTTP error or any other. *)
Inductive syncErr := EHTTP (e : HTTPError) | EOther.
Inductive BlockReason := BlockSignIn | BlockRevoked | BlockPlan | BlockConflict | BlockVersion.
Definition Contains (s sub : bytes) : bool := bool_decide (is_Some (index sub s)).
Definition IsRevoked (err : syncErr) : bool :=
  match err with
  | EOther => false
  | EHTTP he => (StatusCode he =? 410) || ((StatusCode he =? 403) && Contains (Message he) (str "agent_key_mismatch"))
  end.
(** Classify, without the texts for the user. *)
Definition Classify (err : syncErr) : option BlockReason :=
  match err with
  | EOther => None
  | EHTTP he =>
      let code := TrimSpace (Message he) in
      if IsRevoked err then Some BlockRevoked
      else if (StatusCode he =? 412) || bytes_eqb code (str "agent_version_too_old") then Some BlockVersion
      else if StatusCode he =? 401 then Some BlockSignIn
      else if bytes_eqb code (str "agent_limit_reached") then Some BlockPlan
      else if bytes_eqb code (str "agent_hash_taken") then Some BlockConflict
      else None
  end.
Definition ambiguousRetries : Z := 2.
Definition ambiguousEnoughToRetry (b : BlockReason) (attempt : Z) : bool :=
  match b with BlockSignIn => attempt <? ambiguousRetries | _ => false end.

(** * Work that is reported later *)

(** Requests of the server with an ID, done off the sync goroutine: the IDs in flight,
    the batches that run, and the answers the next request will carry. *)
Section Pending.
Context {R E : Type} (rid : R -> Z).
Record pending := mkPending { inFlight : gset Z; running : list (list R); done_ : list Z; failed : list (Z * E) }.
Definition no_pending : pending := mkPending ∅ [] [] [].

(** processResponse: the requests that are not in flight yet. *)
Definition accept (st : list R * gset Z) (r : R) : list R * gset Z :=
  let '(new, fl) := st in if bool_decide (rid r ∈ fl) then st else (new ++ [r], {[rid r]} ∪ fl).
Definition receive (p : pending) (items : list R) : pending * list R :=
  match items with
  | [] => (p, [])
  | _ =>
      let '(new, fl) := fold_left accept items ([], inFlight p) in
      (mkPending fl (match new with [] => running p | _ => running p ++ [new] end) (done_ p) (failed p), new)
  end.
(** The goroutine of a batch appends its answers. *)
Definition finish (p : pending) (i : nat) (ok : list Z) (bad : list (Z * E)) : pending :=
  mkPending (inFlight p) (take i (running p) ++ drop (S i) (running p)) (done_ p ++ ok) (failed p ++ bad).
(** buildRequest: the answers leave, and their IDs with them. *)
Definition flush (p : pending) : pending * (list Z * list (Z * E)) :=
  (mkPending (inFlight p ∖ (list_to_set (done_ p) ∪ list_to_set (map fst (failed p)))) (running p) [] [], (done_ p, failed p)).
End Pending.
Arguments pending : clear implicits.

(** * Requests and responses *)

Record LibraryDeleteRequest := mkDelete { ItemID : Z; FilePath : bytes }.
Record SubtitleFetchRequest := mkSubtitle { SubID : Z; SubURL : bytes; SubFilePath : bytes }.
Record ControlAction := mkControl { Action : bytes; ControlTask : bytes; DeleteFiles : bool }.
Record SyncRequest := mkReq {
  reqCanDelete : bool; Capabilities : list bytes; reqTasks : list bytes; FreeSlots : Z;
  DeleteConfirmed : list Z; DeleteFailed : list (Z * bytes); SubtitlesFetched : list Z; SubtitlesFailed : list (Z * bytes)
}.
Record SyncResponse := mkResp {
  NewTasks : list agentTask; Controls : list ControlAction; StreamRequests : list bytes; StreamSessions : list bytes;
  Watching : bool; Upgrade : option bytes; Scan : bool;
  FilesToDelete : list LibraryDeleteRequest; SubtitleFetches : list SubtitleFetchRequest;
  ClosedStreamSessions : list bytes; IptvHold : bool
}.
(** The callbacks the daemon wired. *)
Record wired := mkWired {
  wNewTasks : bool; wControl : bool; wStreamRequest : bool; wStreamSession : bool; wUpgrade : bool; wScan : bool;
  wWatchingChange : bool; wIptvHold : bool; wSessionsClosed : bool; wDeleteFiles : bool; wSubtitleFetch : bool
}.
Inductive call :=
| OnNewTasks (l : list agentTask) | OnControl (c : ControlAction) | OnStreamRequest (s : bytes) | OnIptvHold (b : bool)
| OnStreamSessionsClosed (ids : list bytes) | OnStreamSession (s : bytes) | OnUpgrade (v : bytes) | OnScan
| OnDeleteFiles (items : list LibraryDeleteRequest) | OnSubtitleFetch (reqs : list SubtitleFetchRequest)
| OnWatchingChange (b : bool) | OnSyncSuccess | OnSyncAttempt | OnBlocked (r : BlockReason) | OnRevoked.

(** * State *)

Definition SyncIntervalWatching : Z := 3.
Definition SyncIntervalIdle : Z := 10.
(** Where Run is: at its select, waiting for the server's answer (the last one when its
    context has ended), or returned. *)
Inductive runPhase := Selecting | Waiting (last : bool) | Returned (revoked : bool).
Record client := mkClient {
  at_ : runPhase;
  blocked : bool; watching : bool; interval : Z; canDelete : bool; SyncNow : bool;
  deletes : pending LibraryDeleteRequest bytes; subtitles : pending SubtitleFetchRequest bytes;
  blockedFile : option BlockReason;
  calls : list call; requests : list SyncRequest
}.
Definition set_at (c : client) (p : runPhase) : client :=
  mkClient p (blocked c) (watching c) (interval c) (canDelete c) (SyncNow c) (deletes c) (subtitles c) (blockedFile c) (calls c) (requests c).
Definition set_blocked (c : client) (b : bool) (f : option BlockReason) : client :=
  mkClient (at_ c) b (watching c) (interval c) (canDelete c) (SyncNow c) (deletes c) (subtitles c) f (calls c) (requests c).
Definition set_watching (c : client) (w : bool) (i : Z) (now : bool) : client :=
  mkClient (at_ c) (blocked c) w i (canDelete c) now (deletes c) (subtitles c) (blockedFile c) (calls c) (requests c).
Definition set_pending (c : client) (d : pending LibraryDeleteRequest bytes) (s : pending SubtitleFetchRequest bytes) : client :=
  mkClient (at_ c) (blocked c) (watching c) (interval c) (canDelete c) (SyncNow c) d s (blockedFile c) (calls c) (requests c).
Definition set_now (c : client) (n : bool) : client :=
  mkClient (at_ c) (blocked c) (watching c) (interval c) (canDelete c) n (deletes c) (subtitles c) (blockedFile c) (calls c) (requests c).
Definition set_can (c : client) (b : bool) : client :=
  mkClient (at_ c) (blocked c) (watching c) (interval c) b (SyncNow c) (deletes c) (subtitles c) (blockedFile c) (calls c) (requests c).
Definition emit (c : client) (l : list call) : client :=
  mkClient (at_ c) (blocked c) (watching c) (interval c) (canDelete c) (SyncNow c) (deletes c) (subtitles c) (blockedFile c) (calls c ++ l) (requests c).
Definition send (c : client) (r : SyncRequest) : client :=
  mkClient (at_ c) (blocked c) (watching c) (interval c) (canDelete c) (SyncNow c) (deletes c) (subtitles c) (blockedFile c) (calls c) (requests c ++ [r]).

Section Sync.
Context (w : wired).

Definition TriggerSync (c : client) : client := set_now c true.
Definition capabilities : list bytes := if wIptvHold w then [str "iptv"] else [].
(** buildRequest; the tasks' states and the free slots are the manager's answers. *)
Definition buildRequest (c : client) (tasks : list bytes) (slots : Z) : client :=
  let '(d, (dc, df)) := flush (deletes c) in
  let '(s, (sf, sx)) := flush (subtitles c) in
  send (set_pending c d s) (mkReq (canDelete c) capabilities tasks slots dc df sf sx).
Definition when {A} (b : bool) (l : list A) : list A := if b then l else [].
(** processResponse *)
Definition processResponse (c : client) (r : SyncResponse) : client :=
  let first :=
    when (wNewTasks w && bool_decide (NewTasks r <> [])) [OnNewTasks (map NormalizeSourceSet (NewTasks r))]
    ++ when (wControl w) (map OnControl (Controls r))
    ++ when (wStreamRequest w) (map OnStreamRequest (StreamRequests r))
    ++ when (wIptvHold w) [OnIptvHold (IptvHold r)]
    ++ when (wSessionsClosed w && bool_decide (ClosedStreamSessions r <> [])) [OnStreamSessionsClosed (ClosedStreamSessions r)]
    ++ when (wStreamSession w) (map OnStreamSession (StreamSessions r))
    ++ match Upgrade r with Some v => when (wUpgrade w && negb (bytes_eqb v [])) [OnUpgrade v] | None => [] end
    ++ when (wScan w && Scan r) [OnScan] in
  let '(d, newD) := if wDeleteFiles w then receive ItemID (deletes c) (FilesToDelete r) else (deletes c, []) in
  let '(s, newS) := if wSubtitleFetch w then receive SubID (subtitles c) (SubtitleFetches r) else (subtitles c, []) in
  emit (set_pending c d s) (first ++ when (bool_decide (newD <> [])) [OnDeleteFiles newD] ++ when (bool_decide (newS <> [])) [OnSubtitleFetch newS]).
Definition adjustInterval (c : client) (watch : bool) : client :=
  let prev := watching c in
  let c1 := set_watching c watch (if watch then SyncIntervalWatching else SyncIntervalIdle) (SyncNow c || (watch && negb prev)) in
  emit c1 (when (wWatchingChange w && negb (Bool.eqb prev watch)) [OnWatchingChange watch]).

(** What the call of the server came to. *)
Inductive outcome := CtxEnded | Failed (err : syncErr) | Answered (r : SyncResponse).
(** doSync after the call; the result is whether the agent was revoked. *)
Definition answer (c : client) (o : outcome) : client * bool :=
  match o with
  | CtxEnded => (emit c [OnSyncAttempt], false)
  | Failed err =>
      if IsRevoked err then (emit c [OnRevoked; OnSyncAttempt], true)
      else match Classify err with
           | Some b => if blocked c then (emit c [OnSyncAttempt], false)
                       else (emit (set_blocked c true (Some b)) [OnBlocked b; OnSyncAttempt], false)
           | None => (emit c [OnSyncAttempt], false)
           end
  | Answered r =>
      let c1 := if blocked c then set_blocked c false None else c in
      (emit (adjustInterval (processResponse c1 r) (Watching r)) [OnSyncSuccess; OnSyncAttempt], false)
  end.

(** An event of the downlink; [Command] carries its controls, or nothing when the
    payload does not decode. *)
Inductive DownlinkEvent := EventPing | EventSync | EventCommand (cmd : option (list ControlAction)) | EventUnknown.
Definition handleDownlinkEvent (c : client) (ev : DownlinkEvent) : client :=
  match ev with
  | EventSync => TriggerSync c
  | EventCommand (Some controls) => emit c (when (wControl w) (map OnControl controls))
  | EventPing | EventCommand None | EventUnknown => c
  end.

(** * The machine *)

Inductive event :=
| Sync (now : bool) (tasks : list bytes) (slots : Z)       (* the ticker, or SyncNow: a request is built and sent *)
| Stop (tasks : list bytes) (slots : Z)                    (* the context has ended: the final sync *)
| Answer (o : outcome)
| Deleted (i : nat) (ok : list Z) (bad : list (Z * bytes)) (* the i-th batch of deletions is done *)
| Fetched (i : nat) (ok : list Z) (bad : list (Z * bytes))
| Trigger | SetCanDelete (v : bool)
| Pushed (ev : DownlinkEvent).                             (* on the downlink, which Run outlives *)
Definition step (c : client) (e : event) : client :=
  match e with
  | Sync now tasks slots =>
      match at_ c with
      | Selecting => if now && negb (SyncNow c) then c
                     else set_at (buildRequest (if now then set_now c false else c) tasks slots) (Waiting false)
      | _ => c
      end
  | Stop tasks slots =>
      match at_ c with Selecting => set_at (buildRequest c tasks slots) (Waiting true) | _ => c end
  | Answer o =>
      match at_ c with
      | Waiting last => let '(c', revoked) := answer c o in
                        set_at c' (if last then Returned false else if revoked then Returned true else Selecting)
      | _ => c
      end
  | Deleted i ok bad =>
      match running (deletes c) !! i with Some _ => set_pending c (finish (deletes c) i ok bad) (subtitles c) | None => c end
  | Fetched i ok bad =>
      match running (subtitles c) !! i with Some _ => set_pending c (deletes c) (finish (subtitles c) i ok bad) | None => c end
  | Trigger => TriggerSync c
  | SetCanDelete v => set_can c v
  | Pushed ev => match at_ c with Returned _ => c | _ => handleDownlinkEvent c ev end
  end.
Definition run (c : client) (evs : list event) : client := fold_left step evs c.
(** NewSyncClient and Run up to its first sync. *)
Definition NewSyncClient (cfgCanDelete : bool) (f : option BlockReason) : client :=
  mkClient Selecting false false SyncIntervalIdle cfgCanDelete false no_pending no_pending f [] [].
End Sync.

(** * Lemmas: pending work *)

Section PendingLemmas.
Context {R E : Type} (rid : R -> Z).
Implicit Types (p : pending R E).

(** The IDs somebody is working on, or whose answer has not left yet. *)
Definition open_ids (p : pending R E) : list Z := map rid (concat (running p)) ++ done_ p ++ map fst (failed p).
Record pending_ok (p : pending R E) : Prop := {
  po_once : NoDup (open_ids p);
  po_flight : forall x, x ∈ open_ids p -> x ∈ inFlight p
}.
(** A batch is answered for its own items, each at most once. *)
Definition honest (items : list R) (ok : list Z) (bad : list (Z * E)) : Prop :=
  NoDup (ok ++ map fst bad) /\ forall x, x ∈ ok ++ map fst bad -> x ∈ map rid items.

Lemma no_pending_ok : pending_ok (no_pending (R := R) (E := E)).
Proof. split; [constructor|]. intros x Hx. by apply not_elem_of_nil in Hx. Qed.

Lemma accept_spec items : forall new fl,
  let '(new', fl') := fold_left (accept rid) items (new, fl) in
  exists more, new' = new ++ more /\ NoDup (map rid more) /\ (forall x, x ∈ map rid more -> x ∉ fl) /\
    fl' = fl ∪ list_to_set (map rid more) /\ (forall r, r ∈ items -> rid r ∈ fl \/ rid r ∈ map rid more) /\ (forall r, r ∈ more -> r ∈ items).
Proof.
  induction items as [|r items IH]; intros new fl; cbn [fold_left].
  { exists []. rewrite app_nil_r. cbn. split_and!; try done; [constructor|set_solver|set_solver|set_solver]. }
  unfold accept at 2. case_bool_decide as B.
  - specialize (IH new fl). destruct (fold_left _ _ _) as [new' fl']. destruct IH as (more & -> & N & F & -> & C & I).
    exists more. split_and!; try done; [|set_solver]. intros r' [->|Hr]%elem_of_cons; [by left|by apply C].
  - specialize (IH (new ++ [r]) ({[rid r]} ∪ fl)). destruct (fold_left _ _ _) as [new' fl']. destruct IH as (more & -> & N & F & -> & C & I).
    exists (r :: more). rewrite <- app_assoc. split_and!; try done.
    + cbn. constructor; [|done]. intros Hx. apply (F _ Hx). set_solver.
    + cbn. intros x [->|Hx]%elem_of_cons; [done|]. intros Hf. apply (F _ Hx). set_solver.
    + cbn. set_solver.
    + intros r' [->|Hr]%elem_of_cons; [right; by left|]. destruct (C _ Hr) as [Hc|Hc]; [|right; by right].
      apply elem_of_union in Hc as [Hc|Hc]; [apply elem_of_singleton in Hc; rewrite Hc; right; by left|by left].
    + intros r' [->|Hr]%elem_of_cons; [by left|right; by apply I].
Qed.
Lemma receive_ok p items : pending_ok p -> pending_ok (fst (receive rid p items)).
Proof.
  intros [O F]. unfold receive. destruct items as [|r items]; [done|].
  pose proof (accept_spec (r :: items) [] (inFlight p)) as A. destruct (fold_left _ _ _) as [new fl].
  destruct A as (more & -> & N & D & -> & _ & _). cbn [app fst].
  assert (X : map rid (concat (match more with [] => running p | _ => running p ++ [more] end)) = map rid (concat (running p)) ++ map rid more).
  { destruct more; [by rewrite app_nil_r|]. by rewrite concat_app, map_app, concat_cons, concat_nil, app_nil_r. }
  assert (Y : map rid (concat (running p)) ++ map rid more ++ done_ p ++ map fst (failed p) ≡ₚ open_ids p ++ map rid more).
  { unfold open_ids. solve_Permutation. }
  split; unfold open_ids at 1; cbn [running done_ failed inFlight]; rewrite X, <- app_assoc.
  - rewrite Y. apply NoDup_app. split_and!; [done| |done]. intros x Hx Hm. by apply (D x Hm), F.
  - intros x. rewrite Y, elem_of_app. intros [Hx|Hx]; [apply elem_of_union_l; by apply F|apply elem_of_union_r; by apply elem_of_list_to_set].
Qed.
(** Everything that is asked for is handed out, unless it is in flight. *)
Lemma receive_takes p items r :
  r ∈ items -> rid r ∉ inFlight p ->
  exists batch, batch ∈ running (fst (receive rid p items)) /\ rid r ∈ map rid batch /\ snd (receive rid p items) = batch.
Proof.
  intros Hr Hf. unfold receive. destruct items as [|r0 items]; [by apply not_elem_of_nil in Hr|].
  pose proof (accept_spec (r0 :: items) [] (inFlight p)) as A. destruct (fold_left _ _ _) as [new fl].
  destruct A as (more & -> & _ & _ & _ & C & _). cbn [app fst snd running]. exists more.
  destruct (C r Hr) as [?|Hm]; [done|]. split_and!; [|done|done]. destruct more; [by apply not_elem_of_nil in Hm|].
  apply elem_of_app. right. by left.
Qed.
Lemma finish_ok p i items ok bad :
  pending_ok p -> running p !! i = Some items -> honest items ok bad -> pending_ok (finish p i ok bad).
Proof.
  intros [O F] L [HN HI].
  assert (X : running p ≡ₚ items :: take i (running p) ++ drop (S i) (running p)) by (rewrite <- delete_take_drop; by apply delete_Permutation).
  set (rest := take i (running p) ++ drop (S i) (running p)) in *.
  assert (Y : open_ids p ≡ₚ map rid items ++ (map rid (concat rest) ++ done_ p ++ map fst (failed p))).
  { unfold open_ids. rewrite X. by rewrite concat_cons, map_app, <- app_assoc. }
  assert (Z : open_ids (finish p i ok bad) ≡ₚ (ok ++ map fst bad) ++ (map rid (concat rest) ++ done_ p ++ map fst (failed p))).
  { unfold open_ids, finish. cbn [running done_ failed]. fold rest. rewrite map_app. solve_Permutation. }
  rewrite Y in O. apply NoDup_app in O as (O1 & O2 & O3). split.
  - rewrite Z. apply NoDup_app. split_and!; [done| |done]. intros x Hx. by apply O2, HI.
  - intros x. rewrite Z, elem_of_app. intros [Hx|Hx]; apply F; rewrite Y, elem_of_app; [left; by apply HI|by right].
Qed.
Lemma flush_pending_ok p : pending_ok p -> pending_ok (fst (flush p)).
Proof.
  intros [O F]. unfold flush. cbn [fst]. unfold open_ids in O. apply NoDup_app in O as (O1 & O2 & _).
  split; unfold open_ids; cbn [running done_ failed inFlight]; rewrite !app_nil_r; [done|].
  intros x Hx. apply elem_of_difference. split; [apply F; unfold open_ids; apply elem_of_app; by left|].
  rewrite elem_of_union, !elem_of_list_to_set. specialize (O2 x Hx). rewrite elem_of_app in O2. tauto.
Qed.
End PendingLemmas.

(** * Lemmas: the client *)

Section ClientLemmas.
Context (w : wired).
Abbreviation step := (step w).
Abbreviation run := (run w).

Definition event_ok (c : client) (e : event) : Prop :=
  match e with
  | Deleted i ok bad => forall items, running (deletes c) !! i = Some items -> honest ItemID items ok bad
  | Fetched i ok bad => forall items, running (subtitles c) !! i = Some items -> honest SubID items ok bad
  | _ => True
  end.
Fixpoint honest_run (c : client) (evs : list event) : Prop :=
  match evs with [] => True | e :: evs' => event_ok c e /\ honest_run (step c e) evs' end.
Definition client_ok (c : client) : Prop := pending_ok ItemID (deletes c) /\ pending_ok SubID (subtitles c).

Lemma build_deletes c tasks slots :
  deletes (buildRequest w c tasks slots) = fst (flush (deletes c)) /\ subtitles (buildRequest w c tasks slots) = fst (flush (subtitles c)).
Proof. done. Qed.
Lemma process_deletes c r :
  deletes (processResponse w c r) = (if wDeleteFiles w then fst (receive ItemID (deletes c) (FilesToDelete r)) else deletes c) /\
  subtitles (processResponse w c r) = (if wSubtitleFetch w then fst (receive SubID (subtitles c) (SubtitleFetches r)) else subtitles c) /\
  requests (processResponse w c r) = requests c.
Proof.
  unfold processResponse. destruct (wDeleteFiles w), (wSubtitleFetch w); repeat (destruct (receive _ _ _)); done.
Qed.
Lemma answer_pending c o :
  let c' := fst (answer w c o) in
  requests c' = requests c /\
  match o with
  | Answered r => deletes c' = (if wDeleteFiles w then fst (receive ItemID (deletes c) (FilesToDelete r)) else deletes c) /\
                  subtitles c' = (if wSubtitleFetch w then fst (receive SubID (subtitles c) (SubtitleFetches r)) else subtitles c)
  | _ => deletes c' = deletes c /\ subtitles c' = subtitles c
  end.
Proof.
  destruct o as [|err|r]; cbn.
  - done.
  - destruct (IsRevoked err); [done|]. destruct (Classify err); [destruct (blocked c)|]; done.
  - destruct (process_deletes (if blocked c then set_blocked c false None else c) r) as (P1 & P2 & P3).
    cbn. rewrite P1, P2, P3. by destruct (blocked c).
Qed.
Lemma client_step_ok c e : client_ok c -> event_ok c e -> client_ok (step c e).
Proof.
  intros [D S] H. destruct e as [now tasks slots|tasks slots|o|i ok bad|i ok bad| |v|ev]; cbn.
  - destruct (at_ c); try done. case_if; [done|]. destruct now; split; cbn; by apply flush_pending_ok.
  - destruct (at_ c); try done. split; by apply flush_pending_ok.
  - destruct (at_ c); try done. pose proof (answer_pending c o) as [_ A]. destruct (answer w c o) as [c' rv]. cbn in A.
    assert (X : client_ok c').
    { destruct o; destruct A as [A1 A2]; split; rewrite ?A1, ?A2; try done; case_if; try done; by apply receive_ok. }
    done.
  - destruct (running (deletes c) !! i) eqn:L; [|done]. split; [|done]. by eapply finish_ok; [|exact L|apply H].
  - destruct (running (subtitles c) !! i) eqn:L; [|done]. split; [done|]. by eapply finish_ok; [|exact L|apply H].
  - done.
  - done.
  - destruct (at_ c), ev as [| |[]|]; done.
Qed.
Lemma client_run_ok evs : forall c, client_ok c -> honest_run c evs -> client_ok (run c evs).
Proof. induction evs as [|e evs IH]; intros c C H; [done|]. destruct H as [H1 H2]. cbn. apply IH; [by apply client_step_ok|done]. Qed.

(** ** Every answer leaves once, in order *)

Definition confirmations (c : client) : list Z := concat (map DeleteConfirmed (requests c)) ++ done_ (deletes c).
Definition failures (c : client) : list (Z * bytes) := concat (map DeleteFailed (requests c)) ++ failed (deletes c).
Definition returns (c : client) (e : event) : list Z * list (Z * bytes) :=
  match e with
  | Deleted i ok bad => match running (deletes c) !! i with Some _ => (ok, bad) | None => ([], []) end
  | _ => ([], [])
  end.
Fixpoint returned (c : client) (evs : list event) : list Z * list (Z * bytes) :=
  match evs with
  | [] => ([], [])
  | e :: evs' => (fst (returns c e) ++ fst (returned (step c e) evs'), snd (returns c e) ++ snd (returned (step c e) evs'))
  end.
Lemma receive_answers p items : done_ (fst (receive (E := bytes) ItemID p items)) = done_ p /\ failed (fst (receive (E := bytes) ItemID p items)) = failed p.
Proof. unfold receive. destruct items; [done|]. by destruct (fold_left _ _ _). Qed.
Lemma step_reports c e :
  confirmations (step c e) = confirmations c ++ fst (returns c e) /\ failures (step c e) = failures c ++ snd (returns c e).
Proof.
  unfold confirmations, failures. destruct e as [now tasks slots|tasks slots|o|i ok bad|i ok bad| |v|ev]; cbn [returns fst snd]; rewrite ?app_nil_r; try done.
  - cbn. destruct (at_ c); try done. case_if; [done|].
    destruct now; cbn; rewrite !map_app, !concat_app; cbn; by rewrite !app_nil_r.
  - cbn. destruct (at_ c); try done. cbn. rewrite !map_app, !concat_app. cbn. by rewrite !app_nil_r.
  - cbn. destruct (at_ c); try done. pose proof (answer_pending c o) as [A1 A2]. destruct (answer w c o) as [c' rv]. cbn in A1, A2 |- *.
    rewrite A1. destruct o; destruct A2 as [A2 _]; rewrite A2; try done. case_if; [|done].
    destruct (receive_answers (deletes c) (FilesToDelete r)) as [-> ->]. done.
  - cbn. destruct (running (deletes c) !! i); cbn; rewrite ?app_nil_r; [|done]. by rewrite !app_assoc.
  - cbn. by destruct (running (subtitles c) !! i).
  - cbn. by destruct (at_ c), ev as [| |[]|].
Qed.
Lemma run_reports evs : forall c,
  confirmations (run c evs) = confirmations c ++ fst (returned c evs) /\ failures (run c evs) = failures c ++ snd (returned c evs).
Proof.
  induction evs as [|e evs IH]; intros c; [cbn; by rewrite !app_nil_r|]. destruct (step_reports c e) as [S1 S2]. destruct (IH (step c e)) as [I1 I2].
  change (run c (e :: evs)) with (run (step c e) evs). rewrite I1, I2, S1, S2. cbn [returned fst snd]. by rewrite !app_assoc.
Qed.

(** ** Telling the user *)

(** What the user was told, from a state in which he knows of a block or not: a block
    is told only to one who does not know of it, and a success ends it. *)
Fixpoint tells (known : bool) (l : list call) : option bool :=
  match l with
  | [] => Some known
  | OnBlocked _ :: l' => if known then None else tells true l'
  | OnSyncSuccess :: l' => tells false l'
  | _ :: l' => tells known l'
  end.
Definition neutral (c : call) : bool := match c with OnBlocked _ | OnSyncSuccess => false | _ => true end.
Lemma tells_app k l1 l2 : tells k (l1 ++ l2) = tells k l1 ≫= fun k' => tells k' l2.
Proof. revert k. induction l1 as [|c l IH]; intros k; [done|]. destruct c; cbn; try apply IH. destruct k; [done|apply IH]. Qed.
Lemma tells_neutral k l : Forall (fun c => neutral c = true) l -> tells k l = Some k.
Proof. induction 1 as [|c l H _ IH]; [done|]. by destruct c. Qed.
Lemma when_neutral b l : Forall (fun c => neutral c = true) l -> Forall (fun c => neutral c = true) (when b l).
Proof. by destruct b. Qed.
Lemma map_neutral {A} (f : A -> call) l : (forall x, neutral (f x) = true) -> Forall (fun c => neutral c = true) (map f l).
Proof. intros H. apply Forall_map, Forall_true. done. Qed.
#[local] Hint Resolve when_neutral map_neutral : core.
Lemma process_calls c r :
  exists l, calls (processResponse w c r) = calls c ++ l /\ Forall (fun c => neutral c = true) l /\
    blocked (processResponse w c r) = blocked c /\ blockedFile (processResponse w c r) = blockedFile c.
Proof.
  unfold processResponse.
  destruct (if wDeleteFiles w then _ else _) as [d newD]. destruct (if wSubtitleFetch w then _ else _) as [s newS].
  eexists. split; [reflexivity|]. split; [|done].
  repeat (apply Forall_app; split); auto; try (apply when_neutral; by repeat constructor).
  destruct (Upgrade r); [|constructor]. apply when_neutral. by repeat constructor.
Qed.
Definition told_ok (c : client) : Prop :=
  tells false (calls c) = Some (blocked c) /\ (is_Some (blockedFile c) <-> blocked c = true).
Lemma told_emit c c' l k :
  tells false (calls c) = Some (blocked c) -> calls c' = calls c ++ l -> tells (blocked c) l = Some k -> tells false (calls c') = Some k.
Proof. intros T E K. rewrite E, tells_app, T. done. Qed.
Lemma answer_told c o : told_ok c -> told_ok (fst (answer w c o)).
Proof.
  intros [T F]. destruct o as [|err|r]; cbn.
  - split; [|done]. by eapply told_emit.
  - destruct (IsRevoked err); [split; [by eapply told_emit|done]|].
    destruct (Classify err) as [b|]; [|split; [by eapply told_emit|done]]. destruct (blocked c) eqn:B.
    + split; [|by cbn; rewrite B]. eapply told_emit; [by rewrite B|reflexivity|]. cbn. by rewrite B.
    + split; cbn; [|split; eauto]. rewrite tells_app, T. done.
  - set (c1 := if blocked c then set_blocked c false None else c).
    assert (C1 : calls c1 = calls c) by (unfold c1; by destruct (blocked c)).
    assert (B1 : blocked c1 = false /\ blockedFile c1 = None).
    { unfold c1. destruct (blocked c) eqn:B; [done|]. split; [done|]. destruct (blockedFile c); [|done]. by assert (false = true) by (apply F; eauto). }
    destruct (process_calls c1 r) as (l & P1 & P2 & P3 & P4). destruct B1 as [B1 B2].
    split; cbn; [|rewrite P3, P4, B1, B2; split; [by intros [? ?]|done]].
    rewrite P1, C1, P3, B1, <- !app_assoc, tells_app, T. cbn [mbind option_bind].
    rewrite tells_app, (tells_neutral _ l P2). cbn [mbind option_bind].
    rewrite tells_app, tells_neutral by (apply when_neutral; by repeat constructor). done.
Qed.
Lemma step_told c e : told_ok c -> told_ok (step c e).
Proof.
  intros H. destruct e as [now tasks slots|tasks slots|o|i ok bad|i ok bad| |v|ev]; cbn.
  - destruct (at_ c); try done. case_if; [done|]. by destruct now.
  - by destruct (at_ c).
  - destruct (at_ c); try done. pose proof (answer_told c o H) as A. by destruct (answer w c o).
  - by case_match.
  - by case_match.
  - done.
  - done.
  - assert (X : told_ok (handleDownlinkEvent w c ev)); [|by destruct (at_ c)]. destruct H as [T F].
    destruct ev as [| |[l|]|]; try done. split; [|done]. eapply told_emit; [done|reflexivity|]. apply tells_neutral. auto.
Qed.
Lemma run_told evs : forall c, told_ok c -> told_ok (run c evs).
Proof. induction evs as [|e evs IH]; intros c C; [done|]. cbn. by apply IH, step_told. Qed.
(** A run that has returned sends and calls nothing any more. *)
Lemma step_returned c e rv : at_ c = Returned rv -> at_ (step c e) = Returned rv /\ requests (step c e) = requests c /\ calls (step c e) = calls c.
Proof. intros R. destruct e; cbn; rewrite ?R; repeat case_match; done. Qed.
Lemma run_returned evs : forall c rv, at_ c = Returned rv -> requests (run c evs) = requests c /\ calls (run c evs) = calls c.
Proof.
  induction evs as [|e evs IH]; intros c rv R; [done|]. destruct (step_returned c e rv R) as (R1 & R2 & R3).
  change (run c (e :: evs)) with (run (step c e) evs). destruct (IH _ _ R1) as [-> ->]. done.
Qed.
End ClientLemmas.

(** * The downlink *)

Definition maxSSEFailures : Z := 3.
Inductive downlink := Reconnect | LongPoll.
(** runSSELoop over the health of its connections: what follows each one. *)
Fixpoint runSSELoop (allowFallback : bool) (failures : Z) (healths : list bool) : list downlink :=
  match healths with
  | [] => []
  | true :: hs => Reconnect :: runSSELoop allowFallback 0 hs
  | false :: hs =>
      if allowFallback && (maxSSEFailures <=? failures + 1) then LongPoll :: runSSELoop allowFallback 0 hs
      else Reconnect :: runSSELoop allowFallback (failures + 1) hs
  end.
(** runEventStreamOnce: healthy when the stream ended after a frame; silence is not,
    whatever came before. *)
Inductive frame := Event | Silence | Ended | ContextEnded.
Fixpoint runEventStreamOnce (healthy : bool) (frames : list frame) : bool :=
  match frames with
  | Event :: fs => runEventStreamOnce true fs
  | Silence :: _ => false
  | Ended :: _ | ContextEnded :: _ | [] => healthy
  end.
(** The long poll is tried after exactly three dead streams in a row. *)
Lemma three_dead_fall_back hs : runSSELoop true 0 (false :: false :: false :: hs) = [Reconnect; Reconnect; LongPoll] ++ runSSELoop true 0 hs.
Proof. done. Qed.
Lemma sse_only_never_polls hs : forall n, LongPoll ∉ runSSELoop false n hs.
Proof. induction hs as [|[] hs IH]; intros n; cbn; [apply not_elem_of_nil| |]; (apply not_elem_of_cons; split; [done|apply IH]). Qed.
Lemma healthy_never_polls hs n : Forall (fun h => h = true) hs -> LongPoll ∉ runSSELoop true n hs.
Proof. intros H. revert n. induction H as [|h hs -> _ IH]; intros n; cbn; [apply not_elem_of_nil|]. apply not_elem_of_cons. split; [done|apply IH]. Qed.

(** * Claims *)

(** The server's deletions are carried out and answered once.  However requests, answers, deletions and failures of
    the network interleave, a file whose deletion is running or not yet reported is not handed out a second time; the
    answers of the deletions leave in requests, each exactly once and in order, or are still waiting for the next one; and
    a file that a response asks for and that is not in flight is handed out, and once it is deleted the next request says
    so. *)
Lemma deletions_reported_once w cd evs :
  honest_run w (NewSyncClient cd None) evs ->
  let c := run w (NewSyncClient cd None) evs in
  NoDup (open_ids ItemID (deletes c))
  /\ confirmations c = fst (returned w (NewSyncClient cd None) evs) /\ failures c = snd (returned w (NewSyncClient cd None) evs)
  /\ forall r item, at_ c = Waiting false -> wDeleteFiles w = true -> item ∈ FilesToDelete r -> ItemID item ∉ inFlight (deletes c) ->
     let c1 := step w c (Answer (Answered r)) in
     exists i batch, running (deletes c1) !! i = Some batch /\ ItemID item ∈ map ItemID batch /\ OnDeleteFiles batch ∈ calls c1
     /\ forall ok bad tasks slots, ItemID item ∈ ok ->
        exists req, last (requests (run w c1 [Deleted i ok bad; Sync false tasks slots])) = Some req /\ ItemID item ∈ DeleteConfirmed req.
Proof.
  intros H c. assert (O : client_ok c) by (apply client_run_ok; [split; apply no_pending_ok|done]).
  destruct (run_reports w evs (NewSyncClient cd None)) as [R1 R2]. split_and!; [apply O|done|done|].
  intros r item A W I F c1.
  destruct (receive_takes ItemID (deletes c) (FilesToDelete r) item I F) as (batch & B1 & B2 & B3).
  pose proof (answer_pending w c (Answered r)) as [_ [D _]]. rewrite W in D.
  assert (D1 : deletes c1 = fst (receive ItemID (deletes c) (FilesToDelete r)) /\ at_ c1 = Selecting /\ calls c1 = calls (fst (answer w c (Answered r)))).
  { unfold c1. cbn [step]. rewrite A. destruct (answer w c (Answered r)) as [c' rv] eqn:E. cbn in D |- *. split_and!; [done| |done].
    cbn in E. by injection E as <- <-. }
  destruct D1 as (D1 & D2 & D3). rewrite <- D1 in B1. apply list_elem_of_lookup in B1 as [i L]. exists i, batch. split_and!; try done.
  - rewrite D3. cbn. apply elem_of_app. left. apply elem_of_app. left. unfold processResponse.
    assert (X : deletes (if blocked c then set_blocked c false None else c) = deletes c) by (by destruct (blocked c)).
    rewrite W, X. destruct (receive ItemID (deletes c) (FilesToDelete r)) as [d newD]. cbn in B3. subst newD.
    destruct (if wSubtitleFetch w then _ else _) as [s newS]. cbn. apply elem_of_app. right. apply elem_of_app. right.
    apply elem_of_app. left. rewrite bool_decide_eq_true_2; [by left|]. intros ->. by apply not_elem_of_nil in B2.
  - intros ok bad tasks slots Hok. unfold run. cbn [fold_left].
    assert (S1 : step w c1 (Deleted i ok bad) = set_pending c1 (finish (deletes c1) i ok bad) (subtitles c1)) by (unfold step; by rewrite L).
    rewrite S1. clearbody c1. cbn. rewrite D2. cbn. rewrite last_snoc. eexists. split; [done|]. cbn. apply elem_of_app. by right.
Qed.

(** The user hears of a block once, and a revoked agent falls silent.  Through any sequence of syncs, a rejection that the
    user must resolve is told when he does not know of one and not again until a sync has succeeded; the record on disk is
    there exactly while it holds; and once Run has returned, because the server revoked the agent or because it was stopped,
    nothing more is sent or called. *)
Lemma block_told_once w cd evs :
  let c := run w (NewSyncClient cd None) evs in
  tells false (calls c) = Some (blocked c) /\ (is_Some (blockedFile c) <-> blocked c = true)
  /\ forall rv, at_ c = Returned rv -> forall more, requests (run w c more) = requests c /\ calls (run w c more) = calls c.
Proof.
  intros c. assert (T : told_ok c) by (apply run_told; split; [done|split; [by intros [? ?]|done]]).
  destruct T as [T1 T2]. split_and!; [done|done|]. intros rv R more. by apply (run_returned w more c rv).
Qed.

(** * Demonstrations *)

Definition all_wired : wired := mkWired true true true true true true true true true true true.
Definition quiet_resp (l : list LibraryDeleteRequest) : SyncResponse := mkResp [] [] [] [] false None false l [] [] false.
Definition item5 : LibraryDeleteRequest := mkDelete 5 (str "/lib/f.mkv").
Definition demo_evs : list event := [Sync false [] 3; Answer (Answered (quiet_resp [item5; item5])); Deleted 0 [5] []; Sync false [] 3; Answer (Failed EOther)].
Lemma demo_evs_honest : honest_run all_wired (NewSyncClient true None) demo_evs.
Proof.
  cbn. split_and!; try done. intros items [= <-]. split; [by apply NoDup_singleton|]. intros x Hx. cbn in *. set_solver.
Qed.
Lemma deletions_reported_once_witness :
  confirmations (run all_wired (NewSyncClient true None) demo_evs) = fst (returned all_wired (NewSyncClient true None) demo_evs).
Proof. apply (deletions_reported_once all_wired true demo_evs demo_evs_honest). Defined.

(** The request that carries a confirmation also forgets it: when that request is lost, the server asks again and the
    deletion is carried out a second time, on whatever is at the path by then. *)
Lemma lost_report_deletes_again :
  let c := run all_wired (NewSyncClient true None) (demo_evs ++ [Sync false [] 3; Answer (Answered (quiet_resp [item5]))]) in
  map DeleteConfirmed (requests c) = [[]; [5]; []] /\ running (deletes c) = [[item5]].
Proof. vm_compute. auto. Qed.
(** A file that OnDeleteFiles does not answer for, as DeleteFiles does for a path outside the scan paths, stays in flight
    and is skipped ever after. *)
Lemma unanswered_stays :
  let c := run all_wired (NewSyncClient true None)
    [Sync false [] 3; Answer (Answered (quiet_resp [item5])); Deleted 0 [] []; Sync false [] 3; Answer (Answered (quiet_resp [item5]))] in
  running (deletes c) = [] /\ map DeleteConfirmed (requests c) = [[]; []].
Proof. vm_compute. auto. Qed.
