(* ===== verification/HlsSession.v ===== *)
(** A transcoding HLS session and the directory it writes: internal/engine/hls.go
    (starting, polling, serving, restarting, supervising and closing a session) with
    hls_partial_reuse.go and hls_hwfallback.go.

    The ffmpeg processes are the environment: a process writes the segments from its
    start index on, one after the other, each first opened, then growing, then closed;
    it may crash at any point, is killed at once when its context ends, and may exit with
    success whenever no segment is open, behind the last one of the playlist or before.  A segment file is what os.Stat and its writer
    know of it.  The goroutines of a session are instruction lists, one instruction per
    critical section or look at the directory, and interleave at will.  Sessions that
    copy the video, the source gate of accounts with one connection, the playlists and
    the telemetry are not modelled here. *)
From Stdlib Require Import ZArith Lia SpecFloat.
From stdpp Require Import prelude list strings gmap.
From S2P Require Import Prelude GoStrings SeekIndex.

Open Scope Z_scope.

(** * Segments of a timeline *)

Definition hlsSegmentDuration : Z := 2.
(** Go's conversion of a float64 within the range of int. *)
Definition f64_trunc (x : float64) : Z :=
  match x with
  | S754_finite s m e =>
      let v := if 0 <=? e then Z.shiftl (Zpos m) e else Z.shiftr (Zpos m) (- e) in if s then - v else v
  | _ => 0
  end.
Definition segmentStartSec (idx : Z) : float64 := if idx <=? 0 then f64_zero else f64_of_Z (idx * hlsSegmentDuration).
Definition segmentIdxForTime (sec : float64) : Z :=
  if f64_leb sec f64_zero then 0 else f64_trunc (f64_div sec (f64_of_Z hlsSegmentDuration)).
Definition segmentCountForDuration (dur : float64) : Z :=
  if f64_leb dur f64_zero then 1
  else f64_trunc (f64_div (f64_sub (f64_add dur (f64_of_Z hlsSegmentDuration)) (f64_of_Z 1)) (f64_of_Z hlsSegmentDuration)).
(** StartHLSSession: the segment a session would start at in an empty directory. *)
Definition start_index (startSec dur : float64) (segCount : Z) : Z :=
  if f64_ltb f64_zero startSec && f64_ltb startSec dur then
    let i := segmentIdxForTime startSec in if segCount - 1 <? i then segCount - 1 else i
  else 0.

(** * The directory of a session *)

(** Created but empty, with some of its bytes, closed by the process that wrote it. *)
Inductive segFile := Empty | Part | Whole.
Record videoDir := mkDir { initMP4 : option segFile; segs : gmap Z segFile }.
Definition emptyDir : videoDir := mkDir None ∅.
#[global] Instance segFile_eq_dec : EqDecision segFile.
Proof. solve_decision. Defined.

(** The names behind the indices, of an encoding session. *)
Definition segmentFileName (i : Z) : bytes := str "seg-" ++ Itoa i ++ str ".m4s".
Definition segmentIndexFromName (name : bytes) : option Z :=
  if negb (has_prefix (str "seg-") name) || negb (has_suffix (str ".m4s") name) then None
  else let '(n, e) := Atoi (take (length name - 8) (drop 4 name)) in
       match e with NumOk => if n <? 0 then None else Some n | _ => None end.

(** os.Stat without an error, and Size() > 0. *)
Definition nonempty (f : option segFile) : bool := match f with Some Part | Some Whole => true | _ => false end.

(** The run of non-empty segments from [i] on. *)
Fixpoint count_present (d : videoDir) (i : Z) (fuel : nat) : Z :=
  match fuel with
  | O => 0
  | S f => if nonempty (segs d !! i) then 1 + count_present d (i + 1) f else 0
  end.
Definition scanInheritedSegments (d : videoDir) (segmentCount : Z) : Z * bool :=
  if negb (nonempty (initMP4 d)) then (0, false)
  else
    let present := count_present d 0 (Z.to_nat segmentCount) in
    if present =? 0 then (0, true) else if present =? 1 then (0, true) else (present - 1, true).
(** The removals; [fails] names the files that cannot be removed ([None] is init.mp4).
    On an error the directory is not looked at any more: the caller drops it whole. *)
Definition dropInheritedSegments (d : videoDir) (from : Z) (fails : option Z -> bool) : option videoDir :=
  if (from <=? 0) && bool_decide (is_Some (initMP4 d)) && fails None then None
  else if existsb (fun '(i, _) => (from <=? i) && fails (Some i)) (map_to_list (segs d)) then None
  else Some (mkDir (if from <=? 0 then None else initMP4 d) (filter (fun '(i, _) => i < from) (segs d))).
(** The directory, the index to start at and the number of segments inherited. *)
Definition planPartialReuse (d : videoDir) (segmentCount wantStart : Z) (fails : option Z -> bool) : option (videoDir * Z * Z) :=
  let '(inherited, hasInit) := scanInheritedSegments d segmentCount in
  if negb hasInit || (inherited <=? 0) || (inherited <? wantStart) then
    match dropInheritedSegments d 0 fails with Some d' => Some (d', wantStart, 0) | None => None end
  else match dropInheritedSegments d inherited fails with Some d' => Some (d', inherited, inherited) | None => None end.

(** * State *)

(** An ffmpeg process: the segment it started at, the one it writes, whether that one is
    open, and whether it runs, has finished or has failed. *)
Inductive procState := Alive | Finished | Failed.
Record proc := mkProc { p_from : Z; p_pos : Z; p_open : bool; p_state : procState }.
#[global] Instance procState_eq_dec : EqDecision procState.
Proof. solve_decision. Defined.

Inductive instr :=
| IWaitBegin | IWait (p : nat)                          (* waitFFmpeg: s.cmd, and its Wait *)
| ISuperClosed (readyMax : Z) | IFallback (readyMax : Z) | IBudget (readyMax : Z)
| RCheck (target : Z) (serve : option Z) | RKill (p : nat) | RAwait (target : Z) (serve : option Z)
| RSpawn (target : Z) (serve : option Z) | RReset (target : Z) (serve : option Z)
| SStat (idx : Z) | SStart (idx : Z) | SReady (idx segStart : Z) | SWait (idx : Z) | SFile (idx : Z) (waited : bool)
| CFlag | CKill (p : nat) | CExited | CSeal (exitErr : bool).

Inductive ending := Sealed | Dropped | LeftUnsealed.
(** What s.mu guards. *)
Record guarded := mkGuarded {
  closed : bool; cmd : nat; ffmpegSegStart : Z; lowestEncodedIdx : Z;
  restartCount : Z; lastRestartAt : option Z; gaveUp : bool; encoderInitFailed : bool; hwFellBack : bool
}.
(** What s.readyMu guards. *)
Record watermark := mkMark { readyMax : Z; exited : bool; exitErr : bool }.
Record session := mkSession {
  segmentCount : Z; inheritedMax : Z; hwAccel : bool;
  mu : guarded; ready : watermark;
  dir : videoDir; procs : list proc; waited : list nat;
  threads : list (list instr); scans : list (Z * Z); clock : Z;
  served : list (Z * bool * option segFile);  (* the file at the time it was sent, and whether the handler had waited *)
  ended : option ending
}.
Definition set_mu (m : session) (g : guarded) : session :=
  mkSession (segmentCount m) (inheritedMax m) (hwAccel m) g (ready m) (dir m) (procs m) (waited m) (threads m) (scans m) (clock m) (served m) (ended m).
Definition set_ready (m : session) (r : Z) (x e : bool) : session :=
  mkSession (segmentCount m) (inheritedMax m) (hwAccel m) (mu m) (mkMark r x e) (dir m) (procs m) (waited m) (threads m) (scans m) (clock m) (served m) (ended m).
Definition set_dir (m : session) (d : videoDir) : session :=
  mkSession (segmentCount m) (inheritedMax m) (hwAccel m) (mu m) (ready m) d (procs m) (waited m) (threads m) (scans m) (clock m) (served m) (ended m).
Definition set_procs (m : session) (l : list proc) (w : list nat) : session :=
  mkSession (segmentCount m) (inheritedMax m) (hwAccel m) (mu m) (ready m) (dir m) l w (threads m) (scans m) (clock m) (served m) (ended m).
Definition set_threads (m : session) (l : list (list instr)) : session :=
  mkSession (segmentCount m) (inheritedMax m) (hwAccel m) (mu m) (ready m) (dir m) (procs m) (waited m) l (scans m) (clock m) (served m) (ended m).
Definition set_scans (m : session) (l : list (Z * Z)) : session :=
  mkSession (segmentCount m) (inheritedMax m) (hwAccel m) (mu m) (ready m) (dir m) (procs m) (waited m) (threads m) l (clock m) (served m) (ended m).
Definition set_clock (m : session) (c : Z) : session :=
  mkSession (segmentCount m) (inheritedMax m) (hwAccel m) (mu m) (ready m) (dir m) (procs m) (waited m) (threads m) (scans m) c (served m) (ended m).
Definition set_ended (m : session) (d : videoDir) (e : ending) : session :=
  mkSession (segmentCount m) (inheritedMax m) (hwAccel m) (mu m) (ready m) d (procs m) (waited m) (threads m) (scans m) (clock m) (served m) (Some e).
(** http.ServeFile *)
Definition send_file (m : session) (idx : Z) (w : bool) : session :=
  mkSession (segmentCount m) (inheritedMax m) (hwAccel m) (mu m) (ready m) (dir m) (procs m) (waited m) (threads m) (scans m) (clock m)
    (served m ++ [(idx, w, segs (dir m) !! idx)]) (ended m).

Definition with_closed (g : guarded) : guarded :=
  mkGuarded true (cmd g) (ffmpegSegStart g) (lowestEncodedIdx g) (restartCount g) (lastRestartAt g) (gaveUp g) (encoderInitFailed g) (hwFellBack g).
Definition with_cmd (g : guarded) (p : nat) (start : Z) : guarded :=
  mkGuarded (closed g) p start (Z.min start (lowestEncodedIdx g)) (restartCount g) (lastRestartAt g) false (encoderInitFailed g) (hwFellBack g).
Definition with_budget (g : guarded) (count : Z) (at_ : option Z) (give fell : bool) : guarded :=
  mkGuarded (closed g) (cmd g) (ffmpegSegStart g) (lowestEncodedIdx g) count at_ give (encoderInitFailed g) fell.
Definition with_init_failed (g : guarded) : guarded :=
  mkGuarded (closed g) (cmd g) (ffmpegSegStart g) (lowestEncodedIdx g) (restartCount g) (lastRestartAt g) (gaveUp g) true (hwFellBack g).

(** * Processes *)

Definition on_proc (m : session) (p : nat) (f : proc -> session) : session :=
  match procs m !! p with Some q => match p_state q with Alive => f q | _ => m end | None => m end.
Definition put_proc (m : session) (p : nat) (q : proc) : session := set_procs m (<[p := q]> (procs m)) (waited m).
Definition kill (m : session) (p : nat) : session :=
  on_proc m p (fun q => put_proc m p (mkProc (p_from q) (p_pos q) (p_open q) Failed)).
Inductive write := WOpen | WGrow | WClose | WExit | WCrash.
(** The init segment is the first thing ffmpeg writes. *)
Definition write_step (m : session) (p : nat) (w : write) : session :=
  on_proc m p (fun q =>
    let d := dir m in
    match w, p_open q with
    | WOpen, false =>
        put_proc (set_dir m (mkDir (Some Whole) (<[p_pos q := Empty]> (segs d)))) p (mkProc (p_from q) (p_pos q) true Alive)
    | WGrow, true => set_dir m (mkDir (initMP4 d) (<[p_pos q := Part]> (segs d)))
    | WClose, true => put_proc (set_dir m (mkDir (initMP4 d) (<[p_pos q := Whole]> (segs d)))) p (mkProc (p_from q) (p_pos q + 1) false Alive)
    | WExit, false => put_proc m p (mkProc (p_from q) (p_pos q) false Finished)
    | WCrash, _ => kill m p
    | _, _ => m
    end).

(** * The session's own code *)

(** pollSegments: what one walk over the directory finds, from [i] on. *)
Fixpoint poll_walk (d : videoDir) (segCount : Z) (exited : bool) (highest i : Z) (fuel : nat) : Z :=
  match fuel with
  | O => highest
  | S f =>
      if negb (nonempty (segs d !! i)) then highest
      else
        let noSuccessor := bool_decide (segs d !! (i + 1) = None) in
        if (i =? segCount - 1) || (exited && noSuccessor) then (if negb exited then highest else i + 1)
        else if noSuccessor then highest
        else poll_walk d segCount exited (i + 1) (i + 1) f
  end.
Definition poll_scan (m : session) : Z * Z :=
  let start := readyMax (ready m) in
  (start, poll_walk (dir m) (segmentCount m) (exited (ready m)) start start (Z.to_nat (segmentCount m - start))).
Definition allSegmentsPresent (m : session) : bool :=
  nonempty (initMP4 (dir m)) && negb (inheritedMax m <? lowestEncodedIdx (mu m))
  && negb (readyMax (ready m) <? segmentCount m - 1)
  && forallb (fun i => nonempty (segs (dir m) !! Z.of_nat i)) (seq 0 (Z.to_nat (segmentCount m))).
Definition hlsSeekAhead : Z := 8.
Definition maxRestarts : Z := 3.
Definition restartWindow : Z := 60.

Definition after_restart (serve : option Z) : list instr := match serve with Some idx => [SWait idx] | None => [] end.
(** One instruction: the session, what comes before the rest of its goroutine, and the
    goroutines it starts.  [timeout]: a deadline has passed; [ok]: a start of ffmpeg or
    a write of the marker succeeds. *)
Abbreviation after := (session * list instr * list (list instr))%type.
Definition fallbackToSoftwareEncode (m : session) (rm : Z) : after :=
  let g := mu m in
  if closed g || hwFellBack g || negb (encoderInitFailed g) || negb (hwAccel m) || bool_decide (is_Some (initMP4 (dir m)))
  then (m, [IBudget rm], [])
  else (set_mu m (with_budget g 0 None false true), [RCheck (Z.max 0 rm) None], []).
Definition waitFFmpeg (m : session) (c : instr) : after :=
  let g := mu m in let r := ready m in
  match c with
  | IWaitBegin => (m, [IWait (cmd g)], [])
  | IWait p =>
      if bool_decide (p ∈ waited m) then (set_ready m (readyMax r) true true, [ISuperClosed (readyMax r)], [])
      else match procs m !! p with
           | Some q =>
               match p_state q with
               | Alive => (m, [IWait p], [])
               | Finished => (set_ready (set_procs m (procs m) (p :: waited m)) (readyMax r) true false, [], [])
               | Failed => (set_ready (set_procs m (procs m) (p :: waited m)) (readyMax r) true true, [ISuperClosed (readyMax r)], [])
               end
           | None => (m, [], [])
           end
  | ISuperClosed rm => (m, if closed g then [] else [IFallback rm], [])
  | IFallback rm => fallbackToSoftwareEncode m rm
  | IBudget rm =>
      if closed g then (m, [], [])
      else
        let count := match lastRestartAt g with
                     | Some at_ => if restartWindow <? clock m - at_ then 0 else restartCount g
                     | None => 0
                     end in
        if maxRestarts <=? count then (set_mu m (with_budget g count (lastRestartAt g) true (hwFellBack g)), [], [])
        else (set_mu m (with_budget g (count + 1) (Some (clock m)) (gaveUp g) (hwFellBack g)), [RCheck (Z.max 0 rm) None], [])
  | _ => (m, [], [])
  end.
Definition restartFromSegment (m : session) (c : instr) (timeout ok : bool) : after :=
  let g := mu m in let r := ready m in
  match c with
  | RCheck target serve =>
      if closed g then (m, [], [])
      else if (target =? ffmpegSegStart g) && negb (exited r) then (m, after_restart serve, [])
      else (m, [RKill (cmd g); RAwait target serve], [])
  | RKill p => (kill m p, [], [])
  | RAwait target serve => (m, if exited r || timeout then [RSpawn target serve] else [RAwait target serve], [])
  | RSpawn target serve =>
      if closed g || negb ok then (m, [], [])
      else (set_mu (set_procs m (procs m ++ [mkProc target target false Alive]) (waited m)) (with_cmd g (length (procs m)) target),
            [RReset target serve], [])
  | RReset target serve => (set_ready m target false false, after_restart serve, [[IWaitBegin]])
  | _ => (m, [], [])
  end.
Definition waitForSegment (m : session) (idx : Z) (timeout : bool) : after :=
  let r := ready m in
  (m, if idx <? readyMax r then [SFile idx true]
          else if exited r then
            if exitErr r then [] else if nonempty (segs (dir m) !! idx) then [SFile idx true] else []
          else if timeout then [] else [SWait idx], []).
Definition ServeSegment (m : session) (c : instr) (timeout : bool) : after :=
  let g := mu m in let r := ready m in
  match c with
  | SStat idx =>
      if (idx <? 0) || (segmentCount m <=? idx) then (m, [], [])
      else (m, if nonempty (segs (dir m) !! idx) then [SFile idx false] else [SStart idx], [])
  | SStart idx => (m, [SReady idx (ffmpegSegStart g)], [])
  | SReady idx segStart =>
      (m, if (readyMax r + hlsSeekAhead <=? idx) || (idx <? segStart) then [RCheck idx (Some idx)] else [SWait idx], [])
  | SWait idx => waitForSegment m idx timeout
  | SFile idx w => (send_file m idx w, [], [])
  | _ => (m, [], [])
  end.
Definition CloseSession (m : session) (c : instr) (timeout ok : bool) : after :=
  let g := mu m in let r := ready m in
  match c with
  | CFlag => if closed g then (m, [], []) else (set_mu m (with_closed g), [CKill (cmd g); CExited], [])
  | CKill p => (kill m p, [], [])
  | CExited => (set_ready m (readyMax r) true (exitErr r), [CSeal (exitErr r)], [])
  | CSeal err =>
      if negb err && allSegmentsPresent m && ok then (set_ended m (dir m) Sealed, [], [])
      else if timeout then (set_ended m (dir m) LeftUnsealed, [], [])
      else (set_ended m emptyDir Dropped, [], [])
  | _ => (m, [], [])
  end.
Definition exec (m : session) (c : instr) (timeout ok : bool) : after :=
  match c with
  | IWaitBegin | IWait _ | ISuperClosed _ | IFallback _ | IBudget _ => waitFFmpeg m c
  | RCheck _ _ | RKill _ | RAwait _ _ | RSpawn _ _ | RReset _ _ => restartFromSegment m c timeout ok
  | SStat _ | SStart _ | SReady _ _ | SWait _ | SFile _ _ => ServeSegment m c timeout
  | CFlag | CKill _ | CExited | CSeal _ => CloseSession m c timeout ok
  end.

(** * The machine *)

Inductive event :=
| Write (p : nat) (w : write) | EncoderInitFails
| Go (i : nat) (timeout ok : bool)     (* the next instruction of a goroutine *)
| Serve (idx : Z) | Close              (* a request, and the end of the session *)
| PollScan | PollStore (j : nat)
| Tick (d : Z).
Definition step (m : session) (e : event) : session :=
  match e with
  | Write p w => write_step m p w
  | EncoderInitFails => set_mu m (with_init_failed (mu m))
  | Go i timeout ok =>
      match threads m !! i with
      | Some (c :: rest) => let '(m', pre, new) := exec m c timeout ok in set_threads m' (<[i := pre ++ rest]> (threads m) ++ new)
      | _ => m
      end
  | Serve idx => set_threads m (threads m ++ [[SStat idx]])
  | Close => set_threads m (threads m ++ [[CFlag]])
  | PollScan => set_scans m (scans m ++ [poll_scan m])
  | PollStore j =>
      match scans m !! j with
      | Some (start, highest) =>
          if start <? highest then set_ready m highest (exited (ready m)) (exitErr (ready m)) else m
      | None => m
      end
  | Tick d => set_clock m (clock m + Z.max 0 d)
  end.
Definition run (m : session) (evs : list event) : session := fold_left step evs m.

(** StartHLSSession on the writer's path, in a directory with leftovers; [None] when the
    leftovers could not be cleared. *)
Definition startSession (leftovers : videoDir) (startSec dur : float64) (hw : bool) (fails : option Z -> bool) : option session :=
  let n := segmentCountForDuration dur in
  match planPartialReuse leftovers n (start_index startSec dur n) fails with
  | None => None
  | Some (d, start, inherited) =>
      Some (mkSession n inherited hw (mkGuarded false 0 start start 0 None false false false) (mkMark start false false)
              d [mkProc start start false Alive] [] [[IWaitBegin]] [] 0 [] None)
  end.

(** * Lemmas *)

(** The directory may be told by its indices: a name gives its index back. *)
Lemma segment_name_roundtrip i : 0 <= i <= i64_max -> segmentIndexFromName (segmentFileName i) = Some i.
Proof.
  intros H. unfold segmentIndexFromName, segmentFileName, has_suffix. rewrite !rev_app_distr.
  change (rev (str ".m4s")) with [115; 52; 109; 46]. change (rev (str "seg-")) with [45; 103; 101; 115].
  rewrite !length_app. change (length (str "seg-")) with 4%nat. change (length (str ".m4s")) with 4%nat.
  change (drop 4 (str "seg-" ++ Itoa i ++ str ".m4s")) with (Itoa i ++ str ".m4s").
  rewrite take_app_length' by lia. rewrite ParseInt_Itoa by done. cbn. by replace (i <? 0) with false by lia.
Qed.

(** ** One process's directory *)

(** The files of a directory in which a prefix was inherited and one process has written
    from [from] up to [pos], which is as [cur] says. *)
Definition file_at (inherited from pos : Z) (cur : option segFile) (i : Z) : option segFile :=
  if i <? 0 then None else if i <? inherited then Some Whole else if i <? from then None
  else if i <? pos then Some Whole else if i =? pos then cur else None.
Definition laid_out (d : videoDir) (inherited from pos : Z) (cur : option segFile) : Prop :=
  forall i, segs d !! i = file_at inherited from pos cur i.

(** Case analysis on the comparisons of the goal, or of a hypothesis. *)
Ltac ltb_cases := repeat match goal with |- context [?a <? ?b] => destruct (a <? b) eqn:? end.
Ltac ltb_cases_in H := repeat match type of H with context [?a <? ?b] => destruct (a <? b) eqn:? end.
Lemma file_at_done inh from pos cur i : 0 <= inh -> 0 <= from <= i -> i < pos -> file_at inh from pos cur i = Some Whole.
Proof. intros. unfold file_at. ltb_cases; try lia; done. Qed.
Lemma file_at_some inh from pos cur i :
  0 <= from -> from <= i -> file_at inh from pos cur i <> None -> inh <= from -> i < pos \/ i = pos.
Proof. unfold file_at. intros A B C D. ltb_cases_in C; try lia. destruct (i =? pos) eqn:E; [lia|done]. Qed.
Lemma file_at_insert inh from pos cur f i :
  0 <= inh <= from -> from <= pos -> (if i =? pos then Some f else file_at inh from pos cur i) = file_at inh from pos (Some f) i.
Proof. intros A B. unfold file_at. destruct (i =? pos) eqn:E; ltb_cases; try lia; done. Qed.
Lemma file_at_close inh from pos cur i :
  0 <= inh <= from -> from <= pos -> (if i =? pos then Some Whole else file_at inh from pos cur i) = file_at inh from (pos + 1) None i.
Proof.
  intros A B. unfold file_at. destruct (i =? pos) eqn:E; destruct (i =? pos + 1) eqn:E2; ltb_cases; try lia; done.
Qed.
Lemma insert_lookup_eqb (g : gmap Z segFile) k v i : <[k := v]> g !! i = if i =? k then Some v else g !! i.
Proof. destruct (i =? k) eqn:E; [apply Z.eqb_eq in E as ->; apply lookup_insert_eq|apply Z.eqb_neq in E; by apply lookup_insert_ne]. Qed.

(** The walk never goes past what the process has closed. *)
Lemma poll_walk_bound d n inh from pos cur x : forall fuel highest i,
  laid_out d inh from pos cur -> 0 <= inh <= from -> (cur <> Some Whole) -> (x = true -> cur = None) ->
  from <= i -> highest = i -> i <= pos -> highest <= poll_walk d n x highest i fuel <= pos.
Proof.
  induction fuel as [|fuel IH]; intros highest i L A C X F -> P; cbn; [lia|].
  destruct (nonempty (segs d !! i)) eqn:N; cbn; [|lia].
  assert (Q : i < pos \/ i = pos) by (apply (file_at_some inh from pos cur); [lia|lia|rewrite <- L; by destruct (segs d !! i)|lia]).
  case_bool_decide as S; cbn.
  - destruct ((i =? n - 1) || _) eqn:O; [|lia]. destruct x eqn:Ex; cbn; [|lia]. rewrite (X eq_refl) in L.
    destruct Q as [Q| ->]; [lia|]. rewrite L in N. unfold file_at in N. ltb_cases_in N; try lia; cbn in N; try done. by rewrite Z.eqb_refl in N.
  - rewrite andb_false_r, orb_false_r. rewrite L in S.
    assert (Q2 : i + 1 < pos \/ i + 1 = pos) by (apply (file_at_some inh from pos cur); [lia|lia|done|lia]).
    destruct (i =? n - 1) eqn:O.
    + destruct x; cbn; lia.
    + pose proof (IH (i + 1) (i + 1) L A C X ltac:(lia) eq_refl ltac:(lia)). lia.
Qed.

(** ** Reusing what a crashed session left *)

Lemma count_present_laid d from pos cur : forall fuel i,
  laid_out d 0 from pos cur -> 0 <= from -> 0 <= i -> (from = 0 -> i <= pos) ->
  0 <= count_present d i fuel /\ (0 < count_present d i fuel -> from <= i)
  /\ (from <= i -> i <= pos -> i + count_present d i fuel <= pos + 1).
Proof.
  induction fuel as [|fuel IH]; intros i L F I P; cbn; [lia|].
  destruct (nonempty (segs d !! i)) eqn:N; [|lia]. rewrite L in N.
  assert (Fi : from <= i /\ i <= pos).
  { unfold file_at in N. ltb_cases_in N; try lia; try done. destruct (i =? pos) eqn:E; [lia|done]. }
  destruct (Z.eq_dec i pos) as [-> |Ne].
  - assert (Z0 : count_present d (pos + 1) fuel = 0).
    { destruct fuel; [done|]. cbn. rewrite L. unfold file_at. ltb_cases; try lia. by replace (pos + 1 =? pos) with false by lia. }
    rewrite Z0. lia.
  - destruct (IH (i + 1) L F) as (H1 & H2 & H3); lia.
Qed.
(** What planPartialReuse leaves: whole segments up to the start, and none above. *)
Lemma plan_laid_out d n want fails from pos cur d' start inherited :
  laid_out d 0 from pos cur -> 0 <= from -> 0 <= want ->
  planPartialReuse d n want fails = Some (d', start, inherited) ->
  laid_out d' inherited start start None /\ 0 <= inherited <= start /\ (inherited = start \/ inherited = 0) /\ want <= start
  /\ (start = want \/ start < n).
Proof.
  intros L F W E. unfold planPartialReuse in E.
  destruct (scanInheritedSegments d n) as [inh hasInit] eqn:S.
  assert (D : forall k dk, dropInheritedSegments d k fails = Some dk -> forall i, segs dk !! i = if i <? k then segs d !! i else None).
  { intros k dk Hd i. unfold dropInheritedSegments in Hd. destruct (_ && _); [done|]. destruct (existsb _ _); [done|].
    injection Hd as <-. cbn. destruct (i <? k) eqn:Ik.
    - destruct (segs d !! i) as [f|] eqn:Si; [apply map_lookup_filter_Some; split; [done|lia]|].
      apply map_lookup_filter_None. by left.
    - apply map_lookup_filter_None. right. intros f _ ?. lia. }
  destruct (_ || _) eqn:O.
  - destruct (dropInheritedSegments d 0 fails) as [dk|] eqn:Dk; [|done]. injection E as <- <- <-.
    split; [|lia]. intros i. rewrite (D _ _ Dk), L. unfold file_at. ltb_cases; try lia; try done; by destruct (i =? want).
  - apply orb_false_iff in O as [O O3]. apply orb_false_iff in O as [O1 O2].
    destruct (dropInheritedSegments d inh fails) as [dk|] eqn:Dk; [|done]. injection E as <- <- <-.
    unfold scanInheritedSegments in S. destruct (negb (nonempty (initMP4 d))); [injection S as <- <-; done|].
    destruct (_ =? 0) eqn:P0; [injection S as <- <-; lia|]. destruct (_ =? 1) eqn:P1; [injection S as <- <-; lia|]. injection S as <- <-.
    assert (B : forall fuel i, count_present d i fuel <= Z.of_nat fuel).
    { induction fuel as [|fuel IH]; intros i; cbn [count_present]; [lia|]. destruct (nonempty _); [|lia]. specialize (IH (i + 1)). lia. }
    specialize (B (Z.to_nat n) 0).
    destruct (Z_le_gt_dec from 0) as [F0|F0].
    + assert (from = 0) as -> by lia.
      assert (Pp : 0 <= pos).
      { destruct (Z_le_gt_dec 0 pos) as [?|G]; [done|]. exfalso.
        assert (N0 : segs d !! 0 = None) by (rewrite L; unfold file_at; ltb_cases; try lia; by replace (0 =? pos) with false by lia).
        destruct (Z.to_nat n); cbn in P0; [done|]. by rewrite N0 in P0. }
      destruct (count_present_laid d 0 pos cur (Z.to_nat n) 0 L) as (H1 & H2 & H3); try lia.
      split; [|lia]. intros i. rewrite (D _ _ Dk), L. unfold file_at. ltb_cases; try lia; try done; by destruct (i =? _).
    + destruct (count_present_laid d from pos cur (Z.to_nat n) 0 L) as (H1 & H2 & H3); lia.
Qed.

(** ** A session that has had one process *)

(** The goroutine that waits for the process comes first; the others are handlers and
    closes. *)
Definition thread_ok (m : session) (p : proc) (i : nat) (t : list instr) : Prop :=
  match t with
  | [] => True
  | [IWaitBegin] => i = 0%nat /\ waited m = []
  | [IWait k] => i = 0%nat /\ k = 0%nat /\ waited m = []
  | [SStat _] | [SStart _] | [SFile _ false] | [CFlag] => True
  | [SReady _ s] => s = p_from p
  | [RCheck target (Some idx)] => target = idx
  | [RKill k; RAwait _ _] => k = 0%nat
  | [RAwait _ _] | [RSpawn _ _] => True
  | [SWait idx] => p_from p <= idx
  | [SFile idx true] => segs (dir m) !! idx = Some Whole
  | [CKill k; CExited] => k = 0%nat
  | [CExited] | [CSeal _] => p_state p <> Alive
  | _ => False
  end.
Record good (m : session) (p : proc) : Prop := {
  gd_inherited : 0 <= inheritedMax m <= p_from p; gd_prefix : inheritedMax m = p_from p \/ inheritedMax m = 0;
  gd_pos : p_from p <= p_pos p;
  gd_mu : cmd (mu m) = 0%nat /\ ffmpegSegStart (mu m) = p_from p /\ lowestEncodedIdx (mu m) = p_from p;
  gd_files : exists cur, laid_out (dir m) (inheritedMax m) (p_from p) (p_pos p) cur /\ cur <> Some Whole /\ (p_open p = false -> cur = None);
  gd_mark : p_from p <= readyMax (ready m) <= p_pos p;
  gd_scans : Forall (fun '(s, h) => p_from p <= s /\ s <= h <= p_pos p) (scans m);
  gd_exited : exited (ready m) = true -> p_state p = Finished;
  gd_finished : p_state p = Finished -> p_open p = false;
  gd_waited : waited m = [] \/ p_state p = Finished;
  gd_threads : forall i t, threads m !! i = Some t -> thread_ok m p i t;
  gd_served : Forall (fun '(_, w, f) => w = true -> f = Some Whole) (served m)
}.
Definition invariant (m : session) : Prop := forall p, procs m = [p] -> p_state p <> Failed -> ended m = None -> good m p.

Lemma good_whole m p i : good m p -> p_from p <= i < p_pos p -> segs (dir m) !! i = Some Whole.
Proof. intros G I. destruct (gd_files _ _ G) as (cur & L & _). rewrite L. pose proof (gd_inherited _ _ G). apply file_at_done; lia. Qed.

(** Writes keep it. *)
Definition grown (m : session) (d : videoDir) (q : proc) : session := put_proc (set_dir m d) 0 q.
Lemma thread_ok_grown m p d q i t :
  thread_ok m p i t -> p_from q = p_from p -> (p_state p <> Alive -> p_state q <> Alive) ->
  (forall idx, segs (dir m) !! idx = Some Whole -> segs d !! idx = Some Whole) -> thread_ok (grown m d q) q i t.
Proof.
  intros H F S W. unfold thread_ok in *. repeat case_match; try done; try (rewrite ?F; by auto).
Qed.
Lemma good_write m p d q :
  good m p -> p_from q = p_from p -> p_state p = Alive -> p_state q <> Failed ->
  p_pos p <= p_pos q ->
  (p_state q = Finished -> p_open q = false) ->
  (exists cur, laid_out d (inheritedMax m) (p_from p) (p_pos q) cur /\ cur <> Some Whole /\ (p_open q = false -> cur = None)) ->
  good (grown m d q) q.
Proof.
  intros G F A NF P Fi L. pose proof G as [G1 G2 G3 G5 G6 G7 G8 G9 G10 G11 G12 G13].
  assert (W : forall idx, segs (dir m) !! idx = Some Whole -> segs d !! idx = Some Whole).
  { intros idx H. destruct G6 as (c & Lc & Cc & _). destruct L as (c' & Lc' & _). rewrite Lc in H. rewrite Lc'. unfold file_at in *.
    ltb_cases; ltb_cases_in H; try lia; try done. all: destruct (idx =? p_pos p) eqn:E; [congruence|done]. }
  split; cbn; rewrite ?F; try done; try lia.
  - eapply Forall_impl; [exact G8|]. intros [s h] ?. lia.
  - intros X. specialize (G9 X). congruence.
  - destruct G11 as [?|?]; [by left|congruence].
  - intros i t Ht. apply (thread_ok_grown m p); try done. by apply G12.
Qed.

(** Processes are only added, and none recovers. *)
Lemma put_proc_length m k q : length (procs (put_proc m k q)) = length (procs m).
Proof. apply length_insert. Qed.
Lemma kill_length m k : length (procs (kill m k)) = length (procs m).
Proof. unfold kill, on_proc. repeat case_match; try done. apply put_proc_length. Qed.
Lemma write_step_length m k w : length (procs (write_step m k w)) = length (procs m).
Proof. unfold write_step, on_proc. repeat case_match; try done; try apply kill_length; apply length_insert. Qed.
Ltac exec_in E := cbn in E; try unfold fallbackToSoftwareEncode, waitForSegment in E; cbn in E.
Lemma exec_length m c to ok m' pre new : exec m c to ok = (m', pre, new) -> (length (procs m) <= length (procs m'))%nat.
Proof.
  intros E. destruct c; exec_in E; repeat case_match; simplify_eq; cbn; rewrite ?kill_length, ?length_app; cbn; lia.
Qed.
Lemma step_length m e : (length (procs m) <= length (procs (step m e)))%nat.
Proof.
  destruct e as [k w| |i to ok|idx| | |j|d]; cbn; try done.
  - by rewrite write_step_length.
  - destruct (threads m !! i) as [[|c rest]|]; [done| |done]. destruct (exec m c to ok) as [[m' pre] new] eqn:E. cbn. by eapply exec_length.
  - repeat case_match; done.
Qed.
(** The only process, while it has not failed. *)
Lemma kill_single m k p' : procs (kill m k) = [p'] -> p_state p' <> Failed -> procs m = [p'] /\ (k = 0%nat -> p_state p' <> Alive).
Proof.
  intros E N. pose proof (kill_length m k) as L. rewrite E in L. destruct (procs m) as [|p [|? ?]] eqn:P; try done.
  unfold kill, on_proc in E. rewrite P in E. destruct k as [|k]; [cbn in E|].
  2:{ replace ([p] !! S k) with (@None proc) in E by (by destruct k). rewrite P in E. by simplify_eq. }
  destruct (p_state p) eqn:S; [cbn in E; rewrite ?P in E; cbn in E; simplify_eq; done| |]; rewrite P in E; simplify_eq; split; congruence.
Qed.
Lemma good_same m p m' :
  good m p -> segmentCount m' = segmentCount m -> inheritedMax m' = inheritedMax m -> dir m' = dir m ->
  cmd (mu m') = cmd (mu m) /\ ffmpegSegStart (mu m') = ffmpegSegStart (mu m) /\ lowestEncodedIdx (mu m') = lowestEncodedIdx (mu m) ->
  p_from p <= readyMax (ready m') <= p_pos p -> (exited (ready m') = true -> p_state p = Finished) ->
  Forall (fun '(s, h) => p_from p <= s /\ s <= h <= p_pos p) (scans m') -> (waited m' = [] \/ p_state p = Finished) ->
  (forall i t, threads m' !! i = Some t -> thread_ok m' p i t) -> Forall (fun '(_, w, f) => w = true -> f = Some Whole) (served m') -> good m' p.
Proof.
  intros [G1 G2 G3 G5 G6 G7 G8 G9 G10 G11 G12 G13] E1 E2 E3 (E4 & E5 & E6) H1 H2 H3 H4 H5 H6.
  split; rewrite ?E1, ?E2, ?E3, ?E4, ?E5, ?E6; try done; rewrite ?E1; done.
Qed.
Lemma thread_ok_same m m' p j t :
  dir m' = dir m -> waited m' = waited m \/ j <> 0%nat -> thread_ok m p j t -> thread_ok m' p j t.
Proof. intros D W H. unfold thread_ok in *. rewrite ?D. repeat case_match; try done; (destruct W as [-> |W]; [done|by destruct H]). Qed.
(** One goroutine goes on, the others stay. *)
Lemma threads_go m m' p i c rest t' :
  good m p -> threads m !! i = Some (c :: rest) -> dir m' = dir m -> (waited m' = waited m \/ i = 0%nat) -> thread_ok m' p i t' ->
  forall j t, (<[i := t']> (threads m) ++ []) !! j = Some t -> thread_ok m' p j t.
Proof.
  intros G L D W T j t H. rewrite app_nil_r in H. destruct (decide (j = i)) as [-> |Ne].
  - rewrite list_lookup_insert_eq in H by (by eapply lookup_lt_Some). by injection H as <-.
  - rewrite list_lookup_insert_ne in H by done. apply (thread_ok_same m); [done| |by apply (gd_threads _ _ G)].
    destruct W as [?| ->]; [by left|by right].
Qed.
Lemma single_wrote m k w p' :
  invariant m -> (0 < length (procs m))%nat -> procs (write_step m k w) = [p'] -> p_state p' <> Failed -> ended (write_step m k w) = None ->
  good (write_step m k w) p'.
Proof.
  intros I Len P' N En. pose proof (write_step_length m k w) as L. rewrite P' in L.
  destruct (procs m) as [|p [|? ?]] eqn:P; try done.
  assert (Em : ended m = None).
  { revert En. unfold write_step, on_proc, kill, on_proc. repeat case_match; done. }
  assert (Same : write_step m k w = m -> good (write_step m k w) p').
  { intros E. rewrite E in P' |- *. apply I; [congruence|done|done]. }
  unfold write_step, on_proc in *. rewrite P in *. destruct k as [|k].
  2:{ apply Same. by destruct k. }
  cbn [lookup list_lookup] in *. destruct (p_state p) eqn:S; [|by apply Same..].
  assert (G : good m p) by (apply I; [done|congruence|done]).
  assert (Gw : forall d q, p_state q <> Failed -> p_from q = p_from p -> p_pos p <= p_pos q -> (p_state q = Finished -> p_open q = false) ->
    (exists cur, laid_out d (inheritedMax m) (p_from p) (p_pos q) cur /\ cur <> Some Whole /\ (p_open q = false -> cur = None)) ->
    procs (grown m d q) = [p'] -> good (grown m d q) p').
  { intros d q H1 H2 H3 H4 H5 H6. assert (p' = q) as -> by (cbn in H6; rewrite P in H6; cbn in H6; congruence). by apply (good_write m p). }
  pose proof (gd_inherited _ _ G) as Gi. pose proof (gd_pos _ _ G) as Gp. destruct (gd_files _ _ G) as (cur & Lc & Cc & Oc).
  destruct w, (p_open p) eqn:O; try by apply Same.
  - apply Gw; try done. exists (Some Empty). split_and!; try done. intros i. cbn. rewrite insert_lookup_eqb, Lc. by apply file_at_insert.
  - set (d := mkDir _ _) in *. assert (E : set_dir m d = grown m d p) by (clear -P; destruct m; cbn in *; by subst). rewrite E in *.
    apply Gw; try done; try congruence. exists (Some Part). split_and!; try done; [|congruence]. intros i. unfold d. cbn. rewrite insert_lookup_eqb, Lc. by apply file_at_insert.
  - apply Gw; try done; cbn; [lia|]. exists None. split_and!; try done. intros i. cbn. rewrite insert_lookup_eqb, Lc. by apply file_at_close.
  - set (q := mkProc _ _ _ _) in *. assert (E : put_proc m 0 q = grown m (dir m) q) by (by destruct m). rewrite E in *.
    apply Gw; try done. exists None. rewrite (Oc eq_refl) in Lc. done.
  - destruct (kill_single m 0 p' P' N) as [E1 E2]. rewrite P in E1. injection E1 as <-. by destruct E2.
  - destruct (kill_single m 0 p' P' N) as [E1 E2]. rewrite P in E1. injection E1 as <-. by destruct E2.
Qed.
(** What one instruction does to the only process. *)
Lemma exec_single m c to ok m' pre new p' :
  exec m c to ok = (m', pre, new) -> (0 < length (procs m))%nat -> procs m' = [p'] -> p_state p' <> Failed -> ended m' = None ->
  procs m = [p'] /\ ended m = None /\ (c = RKill 0 \/ c = CKill 0 -> p_state p' <> Alive).
Proof.
  intros E Len P N En. destruct c as [|k|rm|rm|rm|t s|k|t s|t s|t s|idx|idx|idx s|idx|idx w| |k| |e]; exec_in E.
  all: try (repeat case_match; simplify_eq; split_and!; try done; by intros [?|?]).
  - simplify_eq. destruct (kill_single m k p' P N) as [-> K]. split_and!; [done| |intros [[= ->]|?]; [by apply K|done]].
    revert En. unfold kill, on_proc. by repeat case_match.
  - repeat case_match; simplify_eq; [split_and!; try done; by intros [?|?]|]. cbn in P. destruct (procs m); [cbn in Len; lia|]. destruct l; done.
  - simplify_eq. destruct (kill_single m k p' P N) as [-> K]. split_and!; [done| |intros [?|[= ->]]; [done|by apply K]].
    revert En. unfold kill, on_proc. by repeat case_match.
Qed.
Lemma single_went m i c rest to ok m' pre new p' :
  invariant m -> (0 < length (procs m))%nat -> threads m !! i = Some (c :: rest) -> exec m c to ok = (m', pre, new) ->
  procs m' = [p'] -> p_state p' <> Failed -> ended m' = None -> good (set_threads m' (<[i := pre ++ rest]> (threads m) ++ new)) p'.
Proof.
  intros I Len L E P' N En. destruct (exec_single _ _ _ _ _ _ _ _ E Len P' N En) as (P & Em & K).
  pose proof (I p' P N Em) as G. pose proof (gd_threads _ _ G _ _ L) as T.
  pose proof G as [G1 G2 G3 (G51 & G52 & G53) G6 G7 G8 G9 G10 G11 G12 G13].
  (* an instruction that changes nothing of the session but its goroutine *)
  assert (Q : forall m1 t', good m p' -> segmentCount m1 = segmentCount m -> inheritedMax m1 = inheritedMax m -> dir m1 = dir m ->
     cmd (mu m1) = cmd (mu m) /\ ffmpegSegStart (mu m1) = ffmpegSegStart (mu m) /\ lowestEncodedIdx (mu m1) = lowestEncodedIdx (mu m) ->
     ready m1 = ready m -> scans m1 = scans m -> waited m1 = waited m -> served m1 = served m ->
     thread_ok (set_threads m1 (<[i := t']> (threads m) ++ [])) p' i t' -> good (set_threads m1 (<[i := t']> (threads m) ++ [])) p').
  { intros m1 t' _ E1 E2 E3 E4 E5 E6 E7 E8 Ht. apply (good_same m); cbn; rewrite ?E5, ?E6, ?E7, ?E8; try done.
    intros j t. eapply threads_go; [done|done|done|by left|done]. }
  destruct c as [|k|rm|rm|rm|t s|k|t s|t s|t s|idx|idx|idx s|idx|idx w| |k| |e]; exec_in E.
  - destruct rest; [|done]. injection E as <- <- <-. apply Q; try done. cbn. rewrite G51. by destruct T.
  - destruct rest; [|done]. destruct T as (-> & -> & W). rewrite W, P, bool_decide_eq_false_2 in E by apply not_elem_of_nil. cbn in E. destruct (p_state p') eqn:S; [| |done]; injection E as <- <- <-.
    + by apply Q.
    + apply (good_same m); cbn; try done; [by right|]. intros j t. eapply threads_go; [done|done|done|by right|done].
  - by destruct rest.
  - by destruct rest.
  - by destruct rest.
  - destruct rest; [|by destruct s]. destruct s as [idx|]; [|done]. cbn in T. subst t.
    destruct (closed (mu m)); [simplify_eq; by apply Q|]. destruct (_ && _) eqn:C; simplify_eq; apply Q; try done; cbn. lia.
  - destruct rest as [|[] [|? ?]]; try done. cbn in T. subst k. injection E as <- <- <-.
    assert (KE : kill m 0 = m) by (unfold kill, on_proc; rewrite P; cbn; destruct (p_state p') eqn:S; [by destruct (K (or_introl eq_refl))|done|done]).
    rewrite KE. apply Q; done.
  - destruct rest; [|done]. injection E as <- <- <-. apply Q; try done. by destruct (_ || _).
  - destruct rest; [|done]. repeat case_match; simplify_eq; [by apply Q|]. cbn in P'. rewrite P in P'. done.
  - by destruct rest.
  - destruct rest; [|done]. repeat case_match; simplify_eq; by apply Q.
  - destruct rest; [|done]. injection E as <- <- <-. apply Q; try done. 
  - destruct rest; [|done]. cbn in T. subst s. injection E as <- <- <-. apply Q; try done. destruct (_ || _) eqn:O; cbn; [done|]. lia.
  - destruct rest; [|done]. cbn in T. injection E as <- <- <-. apply Q; try done.
    destruct (idx <? readyMax (ready m)) eqn:R; cbn; [apply (good_whole m p'); [done|lia]|].
    destruct (exited (ready m)) eqn:X; [|by destruct to]. destruct (exitErr (ready m)); [done|]. destruct (nonempty _) eqn:Ne; cbn; [|done].
    pose proof (G10 (G9 eq_refl)) as F2. destruct G6 as (cur & Lc & Cc & Oc). rewrite (Oc F2) in Lc. rewrite Lc in Ne |- *.
    unfold file_at in *. ltb_cases_in Ne; try lia; try done. by destruct (idx =? p_pos p').
  - destruct rest; [|by destruct w]. injection E as <- <- <-. apply (good_same m); cbn; try done.
    + intros j t. eapply threads_go; [done|done|done|by left|done].
    + apply Forall_app. split; [done|]. constructor; [|done]. intros ->. done.
  - destruct rest; [|done]. repeat case_match; simplify_eq; apply Q; try done.
  - destruct rest as [|[] [|? ?]]; try done. cbn in T. subst k. injection E as <- <- <-.
    assert (KE : kill m 0 = m) by (unfold kill, on_proc; rewrite P; cbn; destruct (p_state p') eqn:S; [by destruct (K (or_intror eq_refl))|done|done]).
    rewrite KE. apply Q; try done. cbn. by apply K; right.
  - destruct rest; [|done]. cbn in T. injection E as <- <- <-. apply (good_same m); cbn; try done.
    + intros _. destruct (p_state p'); done.
    + intros j t. eapply threads_go; [done|done|done|by left|done].
  - repeat case_match; simplify_eq; done.
Qed.
(** The parts of [good] that a change leaves alone. *)
Ltac keep_good m G :=
  apply (good_same m); try done; try apply G;
  try (cbn; intros ? ? ?; apply (thread_ok_same m); [done|by left|by apply (gd_threads _ _ G)]).
Lemma invariant_step m e : (0 < length (procs m))%nat -> invariant m -> invariant (step m e).
Proof.
  intros Len I p' P N En. destruct e as [k w| |i to ok|idx| | |j|d]; cbn in *.
  - by apply single_wrote.
  - pose proof (I p' P N En) as G. keep_good m G.
  - destruct (threads m !! i) as [[|c rest]|] eqn:L; [by apply I| |by apply I].
    destruct (exec m c to ok) as [[m' pre] new] eqn:E. by eapply single_went.
  - pose proof (I p' P N En) as G. apply (good_same m); try done; try apply G. cbn. intros j t Ht.
    apply (thread_ok_same m); [done|by left|]. apply lookup_app_Some in Ht as [Ht|[_ Ht]]; [by apply (gd_threads _ _ G)|].
    destruct (j - _)%nat; [by injection Ht as <-|done].
  - pose proof (I p' P N En) as G. apply (good_same m); try done; try apply G. cbn. intros j t Ht.
    apply (thread_ok_same m); [done|by left|]. apply lookup_app_Some in Ht as [Ht|[_ Ht]]; [by apply (gd_threads _ _ G)|].
    destruct (j - _)%nat; [by injection Ht as <-|done].
  - pose proof (I p' P N En) as G. keep_good m G. cbn. apply Forall_app. split; [apply G|]. constructor; [|done].
    pose proof G as [G1 G2 G3 G5 (cur & Lc & Cc & Oc) G7 G8 G9 G10 G11 G12 G13].
    pose proof (poll_walk_bound (dir m) (segmentCount m) (inheritedMax m) (p_from p') (p_pos p') cur (exited (ready m))
      (Z.to_nat (segmentCount m - readyMax (ready m))) (readyMax (ready m)) (readyMax (ready m)) Lc ltac:(lia) Cc) as B.
    destruct B as [B1 B2]; try lia; [|unfold poll_scan; lia]. intros X. apply Oc, G10, G9, X.
  - destruct (scans m !! j) as [[s h]|] eqn:Sj; [|by apply I]. destruct (s <? h) eqn:Sh; [|by apply I].
    pose proof (I p' P N En) as G. keep_good m G.
    pose proof (Forall_lookup_1 _ _ _ _ (gd_scans _ _ G) Sj) as B. cbn in B |- *. lia.
  - pose proof (I p' P N En) as G. keep_good m G.
Qed.
Lemma run_invariant evs : forall m, (0 < length (procs m))%nat -> invariant m -> invariant (run m evs).
Proof.
  induction evs as [|e evs IH]; intros m L I; [done|]. cbn. apply IH; [pose proof (step_length m e); lia|by apply invariant_step].
Qed.

(** ** The start *)

Lemma trunc_nonneg x : match x with S754_finite true _ _ => False | _ => True end -> 0 <= f64_trunc x.
Proof.
  destruct x as [s|s| |[] m e]; try done. intros _. cbn. case_match; [apply Z.shiftl_nonneg; lia|apply Z.shiftr_nonneg; lia].
Qed.
Lemma segmentIdx_nonneg sec : 0 <= segmentIdxForTime sec.
Proof.
  unfold segmentIdxForTime. destruct (f64_leb sec f64_zero) eqn:L; [done|]. apply trunc_nonneg.
  destruct sec as [s|[]| |[] m e]; try done. change (f64_of_Z hlsSegmentDuration) with (S754_finite false 4503599627370496 (-51)).
  unfold f64_div, SFdiv. destruct (SFdiv_core_binary 53 1024 (Zpos m) e 4503599627370496 (-51)) as [[q e'] l].
  unfold binary_round_aux. repeat case_match; done.
Qed.
Lemma start_index_range startSec dur n : 1 <= n -> 0 <= start_index startSec dur n < n.
Proof.
  intros N. unfold start_index. destruct (_ && _); [|lia]. pose proof (segmentIdx_nonneg startSec).
  destruct (n - 1 <? segmentIdxForTime startSec) eqn:E; lia.
Qed.
Lemma start_invariant d startSec dur hw fails m from pos cur :
  laid_out d 0 from pos cur -> 0 <= from -> 1 <= segmentCountForDuration dur ->
  startSession d startSec dur hw fails = Some m -> invariant m /\ length (procs m) = 1%nat.
Proof.
  intros L F N S. unfold startSession in S. set (n := segmentCountForDuration dur) in *.
  destruct (planPartialReuse _ _ _ _) as [[[d' start] inh]|] eqn:P; [|done]. injection S as <-.
  pose proof (start_index_range startSec dur n N) as R.
  destruct (plan_laid_out _ _ _ _ _ _ _ _ _ _ L F (proj1 R) P) as (L' & I1 & I2 & I3 & I4).
  split; [|done]. intros p [= <-] _ _. split; cbn; try done; try (by constructor); try lia.
  - by exists None.
  - intros [|i] t Ht; [by injection Ht as <-|done].
Qed.

(** ** Closing *)

(** The goroutines of a close, and what the end of one says. *)
Definition dead (m : session) (k : nat) : Prop := forall q, procs m !! k = Some q -> p_state q <> Alive.
Definition closing_ok (m : session) (t : list instr) : Prop :=
  match t with
  | [] => True
  | CKill k :: r => r = [CExited] /\ closed (mu m) = true /\ k = cmd (mu m)
  | RKill _ :: r => exists a b, r = [RAwait a b]
  | c :: r => r = [] /\ (match c with CExited | CSeal _ => true | _ => false end = true -> closed (mu m) = true /\ dead m (cmd (mu m)))
  end.
Record close_inv (m : session) : Prop := {
  ci_cmd : (cmd (mu m) < length (procs m))%nat;
  ci_threads : Forall (closing_ok m) (threads m);
  ci_ended : ended m <> None -> closed (mu m) = true /\ dead m (cmd (mu m))
}.
(** What a step may do to a session, as far as closing is concerned. *)
Record closes_on (m m' : session) : Prop := {
  co_closed : closed (mu m) = true -> closed (mu m') = true /\ cmd (mu m') = cmd (mu m) /\ length (procs m') = length (procs m);
  co_dead : forall k, (k < length (procs m))%nat -> dead m k -> dead m' k;
  co_cmd : (cmd (mu m) < length (procs m))%nat -> (cmd (mu m') < length (procs m'))%nat
}.
Lemma closes_refl m m' : mu m' = mu m -> procs m' = procs m -> closes_on m m'.
Proof. intros E P. split; unfold dead; rewrite ?E, ?P; auto. Qed.
Lemma put_dead m k q k' : dead m k' -> (exists q0, procs m !! k = Some q0 /\ p_state q0 = Alive) -> dead (put_proc m k q) k'.
Proof.
  intros D (q0 & E & A) q' H. cbn in H. destruct (decide (k' = k)) as [-> |Ne]; [by destruct (D _ E)|].
  rewrite list_lookup_insert_ne in H by done. by apply D.
Qed.
Lemma kill_closes m k : closes_on m (kill m k).
Proof.
  unfold kill, on_proc. destruct (procs m !! k) as [q|] eqn:E; [|by apply closes_refl]. destruct (p_state q) eqn:S; [|by apply closes_refl..].
  split; cbn; rewrite ?length_insert; auto. intros k' _ D. apply put_dead; eauto.
Qed.
Lemma kill_dead m k : dead (kill m k) k.
Proof.
  unfold kill, on_proc. intros q. destruct (procs m !! k) as [q0|] eqn:E; [|congruence]. destruct (p_state q0) eqn:S; [|congruence..].
  cbn. rewrite list_lookup_insert_eq by (by eapply lookup_lt_Some). by intros [= <-].
Qed.
Lemma write_closes m k w : closes_on m (write_step m k w).
Proof.
  unfold write_step, on_proc. destruct (procs m !! k) as [q|] eqn:E; [|by apply closes_refl]. destruct (p_state q) eqn:S; [|by apply closes_refl..].
  assert (Pd : forall d q', closes_on m (put_proc (set_dir m d) k q')).
  { intros d q'. split; cbn; rewrite ?length_insert; auto. intros k' _ D. apply (put_dead (set_dir m d)); [done|by exists q]. }
  destruct w, (p_open q); try (by apply closes_refl); try apply Pd; try apply kill_closes.
Qed.
Lemma exec_closes m c to ok m' pre new : exec m c to ok = (m', pre, new) -> closes_on m m'.
Proof.
  intros E. destruct c as [|k|rm|rm|rm|t s|k|t s|t s|t s|idx|idx|idx s|idx|idx w| |k| |e]; exec_in E.
  all: try (repeat case_match; simplify_eq; by apply closes_refl).
  - destruct (_ || _); simplify_eq; [by apply closes_refl|]. by split.
  - destruct (closed (mu m)) eqn:C; simplify_eq; [by apply closes_refl|]. repeat case_match; simplify_eq; split; cbn; auto.
  - simplify_eq. apply kill_closes.
  - destruct (closed (mu m)) eqn:C; cbn in E; [simplify_eq; by apply closes_refl|]. destruct ok; cbn in E; simplify_eq; [|by apply closes_refl].
    split; cbn; [congruence| |rewrite length_app; cbn; lia]. intros k Lk D q Hq. cbn in Hq. rewrite lookup_app_l in Hq by done. by apply D.
  - destruct (closed (mu m)) eqn:C; simplify_eq; [by apply closes_refl|]. split; cbn; auto.
  - simplify_eq. apply kill_closes.
Qed.
Lemma closing_mono m m' t : (cmd (mu m) < length (procs m))%nat -> closes_on m m' -> closing_ok m t -> closing_ok m' t.
Proof.
  intros Lt [C1 C2 _] H.
  assert (K : closed (mu m) = true /\ dead m (cmd (mu m)) -> closed (mu m') = true /\ dead m' (cmd (mu m'))).
  { intros [A B]. destruct (C1 A) as (A1 & -> & _). split; [done|]. by apply C2. }
  destruct t as [|c r]; [done|]. destruct c; cbn in *; try done; try (destruct H as [H1 H2]; split; [done|by auto]).
  destruct H as (H1 & H2 & H3). destruct (C1 H2) as (A1 & -> & _). done.
Qed.
Lemma plain_ok m c : match c with CKill _ | RKill _ | CExited | CSeal _ => False | _ => True end -> closing_ok m [c].
Proof. by destruct c. Qed.
#[local] Hint Resolve plain_ok : core.
Lemma after_restart_ok m s : closing_ok m (after_restart s).
Proof. by destruct s. Qed.
#[local] Hint Resolve after_restart_ok : core.
(** The goroutine that goes on. *)
Lemma closing_go m c rest to ok m' pre new :
  exec m c to ok = (m', pre, new) -> (cmd (mu m) < length (procs m))%nat -> closing_ok m (c :: rest) ->
  closing_ok m' (pre ++ rest) /\ Forall (closing_ok m') new /\ (ended m' = ended m \/ closed (mu m') = true /\ dead m' (cmd (mu m'))).
Proof.
  intros E Lt T. pose proof (exec_closes _ _ _ _ _ _ _ E) as C.
  destruct c as [|k|rm|rm|rm|t s|k|t s|t s|t s|idx|idx|idx s|idx|idx w| |k| |e]; exec_in E.
  all: try (destruct T as [-> _]; repeat case_match; simplify_eq; rewrite ?app_nil_r; split_and!; (by auto) || (by repeat constructor) || (by left)).
  - destruct T as [-> _]. destruct (closed (mu m)); [injection E as <- <- <-; split_and!; [done|constructor|by left]|].
    destruct (_ && _); injection E as <- <- <-; rewrite ?app_nil_r; (split_and!; [|constructor|by left]); [apply after_restart_ok|cbn; eauto].
  - destruct T as (a & b & ->). simplify_eq. split_and!; [done|done|]. left. unfold kill, on_proc. by repeat case_match.
  - destruct T as (-> & Cl & ->). simplify_eq. cbn. assert (Em : mu (kill m (cmd (mu m))) = mu m) by (unfold kill, on_proc; by repeat case_match).
    rewrite Em. split_and!; [done| |done|].
    + intros _. split; [done|apply kill_dead].
    + left. unfold kill, on_proc. by repeat case_match.
  - destruct T as (-> & T). simplify_eq. destruct (T eq_refl). cbn. split_and!; try done. by left.
  - destruct T as (-> & T). destruct (T eq_refl). repeat case_match; simplify_eq; split_and!; try done; by right.
Qed.
Lemma close_inv_same m m' :
  close_inv m -> closes_on m m' -> (ended m' = ended m) -> (forall t, t ∈ threads m' -> t ∈ threads m \/ closing_ok m' t) -> close_inv m'.
Proof.
  intros [I1 I2 I3] C E T. split.
  - by apply C.
  - apply Forall_forall. intros t Ht. destruct (T t Ht) as [H|H]; [|done]. eapply closing_mono; [done|done|].
    rewrite Forall_forall in I2. by apply I2.
  - rewrite E. intros H. destruct (I3 H) as [A B]. destruct (co_closed _ _ C A) as (A1 & A2 & _). rewrite A2. split; [done|]. by apply (co_dead _ _ C).
Qed.
Lemma close_inv_step m e : close_inv m -> close_inv (step m e).
Proof.
  intros I. pose proof I as [I1 I2 I3]. destruct e as [k w| |i to ok|idx| | |j|d]; cbn.
  - apply (close_inv_same m); [done|apply write_closes| |]; unfold write_step, on_proc, kill, on_proc; repeat case_match; auto.
  - apply (close_inv_same m); [done|by split|done|by left].
  - destruct (threads m !! i) as [[|c rest]|] eqn:L; [done| |done]. destruct (exec m c to ok) as [[m' pre] new] eqn:E.
    pose proof (Forall_lookup_1 _ _ _ _ I2 L) as T. destruct (closing_go _ _ _ _ _ _ _ _ E I1 T) as (T1 & T2 & T3).
    pose proof (exec_closes _ _ _ _ _ _ _ E) as C.
    split; cbn; [by apply (co_cmd _ _ C)| |].
    + change (Forall (closing_ok m') (<[i := pre ++ rest]> (threads m) ++ new)). apply Forall_app. split; [|done].
      apply Forall_insert; [|done]. eapply Forall_impl; [exact I2|]. intros t. by apply closing_mono.
    + change (ended m' <> None -> closed (mu m') = true /\ dead m' (cmd (mu m'))). destruct T3 as [-> |T3]; [|done].
      intros H. destruct (I3 H) as [A B]. destruct (co_closed _ _ C A) as (A1 & -> & _). split; [done|]. by apply (co_dead _ _ C).
  - apply (close_inv_same m); [done|by split|done|]. cbn. intros t [?|H]%elem_of_app; [by left|right]. apply list_elem_of_singleton in H as ->. done.
  - apply (close_inv_same m); [done|by split|done|]. cbn. intros t [?|H]%elem_of_app; [by left|right]. apply list_elem_of_singleton in H as ->. done.
  - apply (close_inv_same m); [done|by split|done|by left].
  - by repeat case_match.
  - apply (close_inv_same m); [done|by split|done|by left].
Qed.
Lemma step_closes m e : closed (mu m) = true -> closed (mu (step m e)) = true /\ cmd (mu (step m e)) = cmd (mu m) /\ length (procs (step m e)) = length (procs m).
Proof.
  intros H. destruct e as [k w| |i to ok|idx| | |j|d]; cbn; try done.
  - by apply write_closes.
  - destruct (threads m !! i) as [[|c rest]|]; [done| |done]. destruct (exec m c to ok) as [[m' pre] new] eqn:E. by apply (exec_closes _ _ _ _ _ _ _ E).
  - by repeat case_match.
Qed.
Lemma run_close_inv evs : forall m, close_inv m -> close_inv (run m evs).
Proof. induction evs as [|e evs IH]; intros m I; [done|]. cbn. by apply IH, close_inv_step. Qed.
Lemma run_closed evs : forall m, closed (mu m) = true -> closed (mu (run m evs)) = true /\ cmd (mu (run m evs)) = cmd (mu m) /\ length (procs (run m evs)) = length (procs m).
Proof.
  induction evs as [|e evs IH]; intros m H; [done|]. destruct (step_closes m e H) as (A & B & C). change (run m (e :: evs)) with (run (step m e) evs). destruct (IH _ A) as (-> & -> & ->). done.
Qed.

(** ** A run to the end *)

Definition encode (k : nat) : list event := concat (replicate k [Write 0 WOpen; Write 0 WGrow; Write 0 WClose]).
Definition finish : list event :=
  [Write 0 WExit; Go 0 false false; Go 0 false false; PollScan; PollStore 0; Close; Go 1 false false; Go 1 false false; Go 1 false false; Go 1 false true].
Lemma encode_run inh f : forall k m q,
  procs m = [mkProc f q false Alive] -> laid_out (dir m) inh f q None -> 0 <= inh <= f -> f <= q ->
  exists d, run m (encode k) = grown m d (mkProc f (q + Z.of_nat k) false Alive) /\ laid_out d inh f (q + Z.of_nat k) None
    /\ ((0 < k)%nat -> initMP4 d = Some Whole).
Proof.
  induction k as [|k IH]; intros m q P L I F.
  - exists (dir m). rewrite Z.add_0_r. split_and!; [|done|lia]. cbn. destruct m. cbn in *. by subst.
  - set (d1 := mkDir (Some Whole) (<[q := Whole]> (<[q := Part]> (<[q := Empty]> (segs (dir m)))))).
    assert (E : run m (encode (S k)) = run (grown m d1 (mkProc f (q + 1) false Alive)) (encode k)).
    { unfold encode. cbn [replicate concat]. unfold run. rewrite fold_left_app. f_equal. unfold d1. clear -P. destruct m. cbn in P. by subst. }
    assert (L1 : laid_out d1 inh f (q + 1) None).
    { intros i. unfold d1. cbn. rewrite !insert_lookup_eqb. destruct (i =? q) eqn:Iq; rewrite ?L, <- (file_at_close inh f q None) by lia; by rewrite Iq. }
    destruct (IH (grown m d1 (mkProc f (q + 1) false Alive)) (q + 1)) as (d & R & Ld & Id); [by cbn; rewrite P|done|lia|lia|].
    rewrite E, R. exists d. replace (q + Z.of_nat (S k)) with (q + 1 + Z.of_nat k) by lia. split_and!; [|done|].
    + unfold grown, put_proc. cbn. rewrite P. done.
    + intros _. destruct k; [|apply Id; lia]. cbn in R. unfold encode in R. cbn in R.
      assert (D : dir (grown m d1 (mkProc f (q + 1) false Alive)) = dir (grown (grown m d1 (mkProc f (q + 1) false Alive)) d (mkProc f (q + 1 + Z.of_nat 0) false Alive))) by (by rewrite <- R).
      cbn in D. by subst d.
Qed.
Lemma walk_to_end d n : forall fuel i,
  (forall j, i <= j < n -> segs d !! j = Some Whole) -> i < n -> Z.of_nat fuel = n - i -> poll_walk d n true i i fuel = n.
Proof.
  induction fuel as [|fuel IH]; intros i W I F; [lia|]. cbn. rewrite W by lia. cbn.
  destruct (i =? n - 1) eqn:E; cbn; [lia|]. rewrite (W (i + 1)) by lia. rewrite bool_decide_eq_false_2 by done. cbn. apply IH; [|lia|lia].
  intros j J. apply W. lia.
Qed.
Lemma session_run_app m l1 l2 : run m (l1 ++ l2) = run (run m l1) l2.
Proof. apply fold_left_app. Qed.
Lemma run_cons m e evs : run m (e :: evs) = run (step m e) evs.
Proof. done. Qed.
Lemma finish_run n inh f hw d :
  laid_out d inh f n None -> inh = f -> 0 <= f < n -> initMP4 d = Some Whole ->
  let m := mkSession n inh hw (mkGuarded false 0 f f 0 None false false false) (mkMark f false false) d [mkProc f n false Alive] [] [[IWaitBegin]] [] 0 [] None in
  ended (run m finish) = Some Sealed /\ dir (run m finish) = d.
Proof.
  intros L E F In m. subst inh.
  assert (W : forall j, 0 <= j < n -> segs d !! j = Some Whole).
  { intros j J. rewrite L. unfold file_at. ltb_cases; try lia; done. }
  assert (Wk : poll_walk d n true f f (Z.to_nat (n - f)) = n) by (apply walk_to_end; [intros j J; apply W; lia|lia|lia]).
  assert (A : forall l s c sv w p g, ffmpegSegStart g = f -> lowestEncodedIdx g = f ->
    allSegmentsPresent (mkSession n f hw g (mkMark n true false) d p w l s c sv None) = true).
  { intros. unfold allSegmentsPresent. cbn. rewrite In. cbn. rewrite H0. rewrite Z.ltb_irrefl. cbn. replace (n <? n - 1) with false by lia. cbn.
    apply forallb_forall. intros i Hi. apply in_seq in Hi. rewrite W by lia. done. }
  set (g := mkGuarded false 0 f f 0 None false false false) in *. set (ps := [mkProc f n false Finished]).
  set (st := fun g' r x w ts sc => mkSession n f hw g' (mkMark r x false) d ps w ts sc 0 [] None).
  assert (S1 : step m (Write 0 WExit) = st g f false [] [[IWaitBegin]] []).
  { reflexivity. }
  assert (S2 : step (st g f false [] [[IWaitBegin]] []) (Go 0 false false) = st g f false [] [[IWait 0]] []) by reflexivity.
  assert (S3 : step (st g f false [] [[IWait 0]] []) (Go 0 false false) = st g f true [0%nat] [[]] []) by reflexivity.
  assert (S4 : step (st g f true [0%nat] [[]] []) PollScan = st g f true [0%nat] [[]] [(f, n)]).
  { transitivity (st g f true [0%nat] [[]] [(f, poll_walk d n true f f (Z.to_nat (n - f)))]); [reflexivity|by rewrite Wk]. }
  assert (S5 : step (st g f true [0%nat] [[]] [(f, n)]) (PollStore 0) = st g n true [0%nat] [[]] [(f, n)]).
  { cbn [step st scans lookup list_lookup]. by replace (f <? n) with true by lia. }
  assert (S6 : step (st g n true [0%nat] [[]] [(f, n)]) Close = st g n true [0%nat] [[]; [CFlag]] [(f, n)]) by reflexivity.
  assert (S7 : step (st g n true [0%nat] [[]; [CFlag]] [(f, n)]) (Go 1 false false) = st (with_closed g) n true [0%nat] [[]; [CKill 0; CExited]] [(f, n)]) by reflexivity.
  assert (S8 : step (st (with_closed g) n true [0%nat] [[]; [CKill 0; CExited]] [(f, n)]) (Go 1 false false) = st (with_closed g) n true [0%nat] [[]; [CExited]] [(f, n)]) by reflexivity.
  assert (S9 : step (st (with_closed g) n true [0%nat] [[]; [CExited]] [(f, n)]) (Go 1 false false) = st (with_closed g) n true [0%nat] [[]; [CSeal false]] [(f, n)]) by reflexivity.
  unfold finish. rewrite run_cons, S1, run_cons, S2, run_cons, S3, run_cons, S4, run_cons, S5, run_cons, S6, run_cons, S7, run_cons, S8, run_cons, S9, run_cons.
  cbn [run fold_left step]. unfold st. cbn [threads lookup list_lookup exec CloseSession negb andb]. rewrite A by done. done.
Qed.
Lemma seal_step m e :
  ended m = None -> ended (step m e) = Some Sealed ->
  exists i rest, threads m !! i = Some (CSeal false :: rest) /\ allSegmentsPresent m = true /\ dir (step m e) = dir m.
Proof.
  intros E S. destruct e as [k w| |i to ok|idx| | |j|d]; cbn in S; try congruence.
  - exfalso. revert S. unfold write_step, on_proc, kill, on_proc. repeat case_match; cbn; congruence.
  - destruct (threads m !! i) as [[|c rest]|] eqn:L; [congruence| |congruence].
    assert (c = CSeal false /\ allSegmentsPresent m = true /\ dir (step m (Go i to ok)) = dir m) as (-> & ? & ?); [|eauto].
    cbn [step]. rewrite L. destruct (exec m c to ok) as [[m' pre] new] eqn:X. cbn in S |- *.
    destruct c as [|k|rm|rm|rm|t s|k|t s|t s|t s|idx|idx|idx s|idx|idx w| |k| |e]; exec_in X;
      try (exfalso; revert S; repeat case_match; simplify_eq; cbn; congruence).
    + exfalso. simplify_eq. revert S. unfold kill, on_proc. repeat case_match; cbn; congruence.
    + exfalso. simplify_eq. revert S. unfold kill, on_proc. repeat case_match; cbn; congruence.
    + destruct e, (allSegmentsPresent m), ok; cbn in X; repeat case_match; simplify_eq; done.
  - revert S. repeat case_match; cbn; congruence.
Qed.

(** ** What one process leaves in the directory, however it ends *)

Record written (m : session) (p : proc) : Prop := {
  wr_inherited : 0 <= inheritedMax m <= p_from p; wr_pos : p_from p <= p_pos p;
  wr_lowest : lowestEncodedIdx (mu m) = p_from p;
  wr_finished : p_state p = Finished -> p_open p = false;
  wr_files : exists cur, laid_out (dir m) (inheritedMax m) (p_from p) (p_pos p) cur /\ (p_open p = false -> cur = None)
}.
Definition all_written (m : session) : Prop := forall p, procs m = [p] -> ended m = None -> written m p.
Lemma written_same m m' p :
  inheritedMax m' = inheritedMax m -> lowestEncodedIdx (mu m') = lowestEncodedIdx (mu m) -> dir m' = dir m -> written m p -> written m' p.
Proof. intros E1 E2 E3 [W1 W2 W3 W4 W5]. split; rewrite ?E1, ?E2, ?E3; done. Qed.
Lemma written_killed m p : written m p -> written m (mkProc (p_from p) (p_pos p) (p_open p) Failed).
Proof. intros [W1 W2 W3 W4 W5]. by split. Qed.
Lemma kill_written m k : all_written m -> all_written (kill m k).
Proof.
  intros H p'. unfold kill, on_proc. destruct (procs m !! k) as [q|] eqn:Q; [|by apply H].
  destruct (p_state q) eqn:S; [|by apply H..]. cbn. intros P E.
  pose proof (f_equal length P) as Len. rewrite length_insert in Len. destruct (procs m) as [|p [|? ?]] eqn:Pm; try done.
  destruct k; [|by destruct k]. cbn in Q, P. injection Q as <-. injection P as <-.
  apply (written_same m); try done. apply written_killed. by apply H.
Qed.
Lemma write_written m k w : all_written m -> all_written (write_step m k w).
Proof.
  intros H p' P E. unfold write_step, on_proc in *. destruct (procs m !! k) as [q|] eqn:Q; [|by apply H].
  destruct (p_state q) eqn:S; [|by apply H..].
  assert (One : procs m = [q] -> ended m = None -> written m q) by (intros; by apply H).
  assert (Put : forall d q', procs (put_proc (set_dir m d) k q') = [p'] -> procs m = [q] /\ p' = q').
  { intros d q' X. cbn in X. pose proof (f_equal length X) as Len. rewrite length_insert in Len.
    destruct (procs m) as [|p [|? ?]] eqn:Pm; try done. destruct k; [|by destruct k]. cbn in Q, X. by simplify_eq. }
  destruct w, (p_open q) eqn:O; try by apply H.
  - apply Put in P as [P ->]. destruct (One P E) as [W1 W2 W3 W4 (cur & W5 & W6)]. split; cbn; try done.
    exists (Some Empty). split; [|done]. intros i. cbn. rewrite insert_lookup_eqb, W5. by apply file_at_insert.
  - cbn in P, E. assert (p' = q) as -> by (rewrite P in Q; destruct k; [by injection Q as ->|by destruct k]).
    destruct (One P E) as [W1 W2 W3 W4 (cur & W5 & W6)]. split; cbn; try done.
    exists (Some Part). split; [|congruence]. intros i. cbn. rewrite insert_lookup_eqb, W5. by apply file_at_insert.
  - apply Put in P as [P ->]. destruct (One P E) as [W1 W2 W3 W4 (cur & W5 & W6)]. split; cbn; try done; [lia|].
    exists None. split; [|done]. intros i. cbn. rewrite insert_lookup_eqb, W5. by apply file_at_close.
  - replace (put_proc m k (mkProc (p_from q) (p_pos q) false Finished)) with (put_proc (set_dir m (dir m)) k (mkProc (p_from q) (p_pos q) false Finished)) in * by (by destruct m).
    apply Put in P as [P ->]. destruct (One P E) as [W1 W2 W3 W4 (cur & W5 & W6)]. split; cbn; try done.
    exists None. rewrite (W6 O) in W5. done.
  - by apply (kill_written m k H).
  - by apply (kill_written m k H).
Qed.
Lemma exec_written m c to ok m' pre new :
  exec m c to ok = (m', pre, new) -> (0 < length (procs m))%nat -> all_written m -> all_written m'.
Proof.
  intros X Len H. destruct c as [|k|rm|rm|rm|t s|k|t s|t s|t s|idx|idx|idx s|idx|idx w| |k| |e]; exec_in X.
  all: try (repeat case_match; simplify_eq; intros pp Pp Ep; (eapply written_same; [..|by apply (H pp)]; done)).
  - simplify_eq. by apply kill_written.
  - repeat case_match; simplify_eq; [done|]. intros p P E. cbn in P. destruct (procs m) as [|? [|? ?]]; [cbn in Len; lia|done|done].
  - simplify_eq. by apply kill_written.
Qed.
Lemma all_written_same m m' :
  procs m' = procs m -> ended m' = ended m -> inheritedMax m' = inheritedMax m -> lowestEncodedIdx (mu m') = lowestEncodedIdx (mu m) ->
  dir m' = dir m -> all_written m -> all_written m'.
Proof. intros E1 E2 E3 E4 E5 H p P E. apply (written_same m); try done. apply H; congruence. Qed.
Lemma step_written m e : (0 < length (procs m))%nat -> all_written m -> all_written (step m e).
Proof.
  intros Len H. destruct e as [k w| |i to ok|idx| | |j|d]; cbn; try (by apply (all_written_same m)).
  - by apply write_written.
  - destruct (threads m !! i) as [[|c rest]|] eqn:L; [done| |done]. destruct (exec m c to ok) as [[m' pre] new] eqn:X.
    apply (all_written_same m'); try done. by eapply exec_written.
  - destruct (scans m !! j) as [[s h]|]; [|done]. destruct (s <? h); [|done]. by apply (all_written_same m).
Qed.
Lemma run_written evs : forall m, (0 < length (procs m))%nat -> all_written m -> all_written (run m evs).
Proof.
  induction evs as [|e evs IH]; intros m L I; [done|]. cbn. apply IH; [pose proof (step_length m e); lia|by apply step_written].
Qed.
Lemma invariant_written m : invariant m -> (forall p, procs m = [p] -> p_state p <> Failed) -> all_written m.
Proof.
  intros I A p P E. destruct (I p P (A p P) E) as [G1 G2 G3 (G51 & G52 & G53) (c & Lc & Cc & Oc) G7 G8 G9 G10 G11 G12 G13].
  split; try done. by exists c.
Qed.
(** Behind a full playlist only the last segment can be unfinished. *)
Lemma present_written m p i :
  written m p -> allSegmentsPresent m = true -> 0 <= i < segmentCount m ->
  nonempty (segs (dir m) !! i) = true /\ (i < segmentCount m - 1 \/ p_state p = Finished -> segs (dir m) !! i = Some Whole).
Proof.
  intros [W1 W2 W3 W4 (cur & W5 & W6)] Al Hi. unfold allSegmentsPresent in Al.
  apply andb_true_iff in Al as [Al A4]. apply andb_true_iff in Al as [Al A3]. apply andb_true_iff in Al as [A1 A2].
  rewrite forallb_forall in A4.
  assert (N : forall j, 0 <= j < segmentCount m -> nonempty (segs (dir m) !! j) = true).
  { intros j Hj. specialize (A4 (Z.to_nat j)). rewrite Z2Nat.id in A4 by lia. apply A4, in_seq. lia. }
  split; [by apply N|]. intros Hl. pose proof (N i Hi) as Ni. rewrite W5 in Ni |- *. unfold file_at in *.
  ltb_cases; try lia; try done. ltb_cases_in Ni; try lia. destruct (i =? p_pos p) eqn:Ei; [|done]. apply Z.eqb_eq in Ei. subst i.
  destruct Hl as [Hl|Hl]; [|by rewrite (W6 (W4 Hl)) in Ni]. exfalso.
  specialize (N (p_pos p + 1) ltac:(lia)). rewrite W5 in N. unfold file_at in N. ltb_cases_in N; try lia.
  by replace (p_pos p + 1 =? p_pos p) with false in N by lia.
Qed.

(** * Claims *)

(** C17: What a transcoding session shows and keeps is whole.  Of ffmpeg it is assumed that it writes the segments from
    its start index on one after the other, each closed before the next is opened, and that it exits with success with no
    segment open.  Start a session in the leftovers of one such process that was stopped anywhere, or in an empty
    directory; let its ffmpeg, its poller, any requests and a close interleave in any way, as long as no other ffmpeg was
    started for it.  While that ffmpeg has neither crashed nor been killed (by a seek or by the close), every segment
    below the watermark that was inherited or lies behind the start is whole, and whatever was sent to a viewer who waited
    for it was whole when it was sent.  And however it ended, when the close seals the directory as a cache entry,
    init.mp4 and every segment of the playlist are there and not empty, every segment but the last is whole, and the last
    one is whole too if ffmpeg had finished (if the close killed it while it wrote the last segment, that one is sealed
    as it is). *)
Theorem session_segments_whole leftovers from pos cur startSec dur hw fails m0 evs p :
  laid_out leftovers 0 from pos cur -> 0 <= from -> 1 <= segmentCountForDuration dur ->
  startSession leftovers startSec dur hw fails = Some m0 ->
  let m := run m0 evs in
  procs m = [p] -> ended m = None ->
  (p_state p <> Failed ->
   (forall i, i < readyMax (ready m) -> 0 <= i < inheritedMax m \/ ffmpegSegStart (mu m) <= i -> segs (dir m) !! i = Some Whole)
   /\ Forall (fun '(_, waited, f) => waited = true -> f = Some Whole) (served m))
  /\ forall e, ended (step m e) = Some Sealed ->
     let d := dir (step m e) in
     nonempty (initMP4 d) = true
     /\ forall i, 0 <= i < segmentCount m ->
        nonempty (segs d !! i) = true /\ (i < segmentCount m - 1 \/ p_state p = Finished -> segs d !! i = Some Whole).
Proof.
  intros L F N S m P E. destruct (start_invariant _ _ _ _ _ _ _ _ _ L F N S) as [I Len]. split.
  - intros A. assert (G : good m p) by (apply (run_invariant evs m0); [lia|done|done|done|done]).
    pose proof G as [G1 G2 G3 (G51 & G52 & G53) (c & Lc & Cc & Oc) G7 G8 G9 G10 G11 G12 G13]. split; [|done].
    intros i R [H|H]; [|apply (good_whole m p); [done|lia]]. rewrite Lc. unfold file_at. ltb_cases; try lia. done.
  - intros e Se. destruct (seal_step m e E Se) as (i & rest & T & Al & Ed). cbv zeta. rewrite Ed.
    assert (Al0 : all_written m0).
    { apply invariant_written; [done|]. intros q Hq. unfold startSession in S. repeat case_match; simplify_eq. cbn in Hq. by injection Hq as <-. }
    assert (W : written m p) by (apply (run_written evs m0); [lia|done|done|done]).
    split; [|intros j Hj; by apply (present_written m p j)].
    unfold allSegmentsPresent in Al. destruct (nonempty (initMP4 (dir m))); [done|discriminate Al].
Qed.

(** A close is final.  Whatever seeks, crashes, restarts and hardware fallbacks are under way: once a session is marked
    closed no further ffmpeg is started for it, and once the close has returned the ffmpeg the session holds is not
    running. *)
Lemma close_is_final leftovers startSec dur hw fails m0 evs :
  startSession leftovers startSec dur hw fails = Some m0 ->
  let m := run m0 evs in
  (closed (mu m) = true -> forall more, length (procs (run m more)) = length (procs m) /\ cmd (mu (run m more)) = cmd (mu m))
  /\ (ended m <> None -> closed (mu m) = true /\ forall q, procs m !! cmd (mu m) = Some q -> p_state q <> Alive).
Proof.
  intros S m. split.
  - intros C more. by destruct (run_closed more m C) as (_ & -> & ->).
  - apply (ci_ended m), run_close_inv. unfold startSession in S. destruct (planPartialReuse _ _ _ _) as [[[d s] i]|]; [|done].
    injection S as <-. split; cbn; [lia|by repeat constructor|done].
Qed.

(** A film that is encoded to its end is kept.  From an empty directory, or from leftovers that reach the start, when
    ffmpeg writes the remaining segments and exits, one round of the poller and a close seal the directory with every
    segment of the film whole. *)
Lemma finished_encode_kept leftovers from pos cur startSec dur hw fails m :
  laid_out leftovers 0 from pos cur -> 0 <= from -> 1 <= segmentCountForDuration dur ->
  startSession leftovers startSec dur hw fails = Some m -> inheritedMax m = ffmpegSegStart (mu m) ->
  let m' := run m (encode (Z.to_nat (segmentCount m - ffmpegSegStart (mu m))) ++ finish) in
  ended m' = Some Sealed /\ nonempty (initMP4 (dir m')) = true /\ forall i, 0 <= i < segmentCount m -> segs (dir m') !! i = Some Whole.
Proof.
  intros L F N S H. unfold startSession in S. set (n := segmentCountForDuration dur) in *.
  destruct (planPartialReuse _ _ _ _) as [[[d' start] inh]|] eqn:P; [|done]. injection S as <-. cbn in H. subst inh.
  pose proof (start_index_range startSec dur n N) as R.
  destruct (plan_laid_out _ _ _ _ _ _ _ _ _ _ L F (proj1 R) P) as (L' & I1 & I2 & I3 & I4). intros m'. unfold m'. clear m'.
  cbn [segmentCount ffmpegSegStart mu]. set (m := mkSession _ _ _ _ _ _ _ _ _ _ _ _ _).
  rewrite session_run_app.
  destruct (encode_run start start (Z.to_nat (n - start)) m start) as (d & -> & Ld & Id); [done|done|lia|lia|].
  replace (start + Z.of_nat (Z.to_nat (n - start))) with n in * by lia.
  destruct (finish_run n start start hw d Ld eq_refl ltac:(lia) (Id ltac:(lia))) as [E D].
  assert (Eg : grown m d (mkProc start n false Alive) = mkSession n start hw (mkGuarded false 0 start start 0 None false false false)
    (mkMark start false false) d [mkProc start n false Alive] [] [[IWaitBegin]] [] 0 [] None) by reflexivity.
  rewrite Eg. clear Eg.
  rewrite E, D, (Id ltac:(lia)). split_and!; [done|done|]. intros i Hi. rewrite Ld. unfold file_at. ltb_cases; try lia; done.
Qed.

(** * Demonstrations *)

Definition seconds8 : float64 := f64_of_Z 8.
Definition removable : option Z -> bool := fun _ => false.
(** A process was stopped inside its third segment. *)
Definition left_film : videoDir := mkDir (Some Whole) (<[0 := Whole]> (<[1 := Whole]> (<[2 := Part]> ∅))).
Lemma left_film_laid : laid_out left_film 0 0 2 (Some Part).
Proof.
  intros i. unfold left_film. cbn [segs]. rewrite !insert_lookup_eqb, lookup_empty. unfold file_at.
  destruct (i =? 0) eqn:E0; destruct (i =? 1) eqn:E1; destruct (i =? 2) eqn:E2; ltb_cases; try lia; done.
Qed.
Lemma demo_reuse : exists d, planPartialReuse left_film 4 0 removable = Some (d, 2, 2) /\ segs d !! 2 = None /\ segs d !! 1 = Some Whole.
Proof. eexists. split; [vm_compute; reflexivity|]. vm_compute. auto. Qed.
Definition started (d : videoDir) (dur : float64) : session :=
  match startSession d f64_zero dur false removable with
  | Some m => m
  | None => mkSession 0 0 false (mkGuarded true 0 0 0 0 None false false false) (mkMark 0 true true) d [] [] [] [] 0 [] None
  end.
Lemma left_film_started : startSession left_film f64_zero seconds8 false removable = Some (started left_film seconds8).
Proof. vm_compute. reflexivity. Qed.

(** A viewer waits for the third segment, which the session writes. *)
Definition watching : list event :=
  Serve 2 :: replicate 3 (Go 1 false false) ++ [Write 0 WOpen; Write 0 WGrow; Go 1 false false; Write 0 WClose; Write 0 WOpen; PollScan; PollStore 0] ++ replicate 2 (Go 1 false false).
Lemma watched_proc : procs (run (started left_film seconds8) watching) = [mkProc 2 3 true Alive].
Proof. vm_compute. reflexivity. Qed.
Lemma watched_open : ended (run (started left_film seconds8) watching) = None.
Proof. vm_compute. reflexivity. Qed.
Lemma watched_served : served (run (started left_film seconds8) watching) = [(2, true, Some Whole)].
Proof. vm_compute. reflexivity. Qed.
Lemma one_second8 : 1 <= segmentCountForDuration seconds8.
Proof. vm_compute. discriminate. Qed.
Lemma from_zero : 0 <= 0.
Proof. lia. Qed.
Lemma alive_not_failed : p_state (mkProc 2 3 true Alive) <> Failed.
Proof. discriminate. Qed.
(** ffmpeg is killed by the close while it writes the last segment, and the entry is sealed. *)
Definition cut_short : list event :=
  encode 1 ++ [Write 0 WOpen; Write 0 WGrow; PollScan; PollStore 0; Close] ++ replicate 3 (Go 1 false true).
Lemma cut_short_proc : procs (run (started left_film seconds8) cut_short) = [mkProc 2 3 true Failed].
Proof. vm_compute. reflexivity. Qed.
Lemma cut_short_open : ended (run (started left_film seconds8) cut_short) = None.
Proof. vm_compute. reflexivity. Qed.
Lemma cut_short_seals : ended (step (run (started left_film seconds8) cut_short) (Go 1 false true)) = Some Sealed.
Proof. vm_compute. reflexivity. Qed.
Lemma session_segments_whole_witness :
  Forall (fun '(_, waited, f) => waited = true -> f = Some Whole) (served (run (started left_film seconds8) watching))
  /\ segs (dir (step (run (started left_film seconds8) cut_short) (Go 1 false true))) !! 2 = Some Whole.
Proof.
  split.
  - exact (proj2 (proj1 (session_segments_whole left_film 0 2 (Some Part) f64_zero seconds8 false removable (started left_film seconds8) watching
      (mkProc 2 3 true Alive) left_film_laid from_zero one_second8 left_film_started watched_proc watched_open) alive_not_failed)).
  - destruct (session_segments_whole left_film 0 2 (Some Part) f64_zero seconds8 false removable (started left_film seconds8) cut_short
      (mkProc 2 3 true Failed) left_film_laid from_zero one_second8 left_film_started cut_short_proc cut_short_open) as [_ T].
    destruct (T _ cut_short_seals) as [_ T2]. apply (T2 2); [|left]; vm_compute; repeat split; discriminate.
Defined.
Lemma left_film_reaches : inheritedMax (started left_film seconds8) = ffmpegSegStart (mu (started left_film seconds8)).
Proof. vm_compute. reflexivity. Qed.
Lemma finished_encode_kept_witness :
  ended (run (started left_film seconds8)
    (encode (Z.to_nat (segmentCount (started left_film seconds8) - ffmpegSegStart (mu (started left_film seconds8)))) ++ finish)) = Some Sealed.
Proof.
  exact (proj1 (finished_encode_kept left_film 0 2 (Some Part) f64_zero seconds8 false removable (started left_film seconds8)
    left_film_laid from_zero one_second8 left_film_started left_film_reaches)).
Defined.
Definition closing : list event := Close :: replicate 4 (Go 1 false true).
Lemma closing_ended : ended (run (started left_film seconds8) closing) <> None.
Proof. vm_compute. discriminate. Qed.
Lemma close_is_final_witness : closed (mu (run (started left_film seconds8) closing)) = true.
Proof.
  exact (proj1 (proj2 (close_is_final left_film f64_zero seconds8 false removable (started left_film seconds8) closing left_film_started) closing_ended)).
Defined.

(** * Where the code and its intent part *)

(** The comment says at least one segment, and as many as cover the source: half a second has none, and two and a half
    seconds have one of two. *)
Lemma short_sources_undercounted : segmentCountForDuration (half 1) = 0 /\ segmentCountForDuration (half 5) = 1.
Proof. vm_compute. auto. Qed.

(** The handler's first look takes any file that is not empty: a segment in the middle of being written is sent. *)
Lemma unfinished_segment_sent :
  served (run (started emptyDir seconds8) [Write 0 WOpen; Write 0 WGrow; Serve 0; Go 1 false false; Go 1 false false]) = [(0, false, Some Part)].
Proof. vm_compute. reflexivity. Qed.

(** A close while ffmpeg writes the last segment: the watermark is one short of the count, which passes, the killed process
    has not been waited for, so there is no exit error, and the truncated segment is sealed. *)
Definition last_minute : list event :=
  encode 3 ++ [Write 0 WOpen; Write 0 WGrow; PollScan; PollStore 0; Close] ++ replicate 4 (Go 1 false true).
Lemma truncated_tail_sealed :
  let m := run (started emptyDir seconds8) last_minute in ended m = Some Sealed /\ segs (dir m) !! 3 = Some Part.
Proof. vm_compute. auto. Qed.

(** A seek kills ffmpeg; its waiter takes that for a crash and starts another one where the first one was, the seek does not
    see the exit any more and starts its own: two run, and a close stops only the second. *)
Definition seeking : list event :=
  encode 2 ++ [Serve 30] ++ replicate 5 (Go 1 false true) ++ replicate 10 (Go 0 false true) ++ [Go 1 false true; Go 1 true true; Go 1 false true; Go 1 false true].
Lemma seek_leaves_two_encoders :
  let m := run (started emptyDir (f64_of_Z 100)) seeking in
  procs m = [mkProc 0 2 false Failed; mkProc 0 0 false Alive; mkProc 30 30 false Alive] /\ cmd (mu m) = 2%nat.
Proof. vm_compute. auto. Qed.
Lemma encoder_survives_close :
  let m := run (started emptyDir (f64_of_Z 100)) (seeking ++ Close :: replicate 4 (Go 4 false true)) in
  ended m = Some Dropped /\ procs m !! 1%nat = Some (mkProc 0 0 false Alive).
Proof. vm_compute. auto. Qed.

(** After a crash the poller counts the truncated segment, which has no successor, as the last one; a viewer who waits gets it. *)
Lemma crashed_tail_sent :
  served (run (started emptyDir seconds8) ([Write 0 WOpen; Serve 0] ++ replicate 3 (Go 1 false true) ++ [Write 0 WGrow; Write 0 WCrash; Go 0 false true; Go 0 false true; PollScan; PollStore 0]
    ++ replicate 2 (Go 1 false true))) = [(0, true, Some Part)].
Proof. vm_compute. reflexivity. Qed.

(** Two crashes: the poller takes the first run's files for the second's while the second rewrites them, so the third starts
    behind a segment the second left truncated; the entry is sealed with it. *)
Definition first_crash : list event :=
  [Go 0 false false] ++ encode 1 ++ [Write 0 WOpen; PollScan; PollStore 0; Write 0 WClose] ++ encode 2 ++ [Write 0 WOpen; Write 0 WGrow; Write 0 WCrash]
  ++ replicate 9 (Go 0 false true).
Definition rewriting : list event := first_crash ++ [PollScan; PollStore 1; Write 1 WOpen; Write 1 WGrow].
Definition second_crash : list event :=
  rewriting ++ [Write 1 WCrash] ++ replicate 10 (Go 1 false true)
  ++ [Write 2 WOpen; Write 2 WClose; Write 2 WOpen; Write 2 WClose; Write 2 WExit] ++ replicate 2 (Go 2 false true) ++ [PollScan; PollStore 2; Close] ++ replicate 4 (Go 3 false true).
Lemma rewritten_segment_sealed :
  let m := run (started emptyDir (f64_of_Z 12)) second_crash in ended m = Some Sealed /\ segs (dir m) !! 1 = Some Part.
Proof. vm_compute. auto. Qed.
(** If the daemon dies while the second run rewrites, the next session inherits the truncated segment. *)
Lemma truncated_segment_inherited :
  let d := dir (run (started emptyDir (f64_of_Z 12)) rewriting) in
  inheritedMax (started d (f64_of_Z 12)) = 4 /\ segs (dir (started d (f64_of_Z 12))) !! 1 = Some Part.
Proof. vm_compute. auto. Qed.
