(* ===== verification/HlsCache.v ===== *)
(** The cache of transcoded films and the table of sessions: internal/engine/hls_cache.go,
    hls_cache_config.go, the cache placement and the clean-ups of StartHLSSession and
    Close, and the session registry of hls.go.

    An entry is a directory below the cache's root.  Starting and ending sessions and
    the sweeper are instruction lists, one instruction for every lock, look at the disk
    or removal, and interleave at will; what a session writes into its directory is the
    subject of HlsSession. *)
From Stdlib Require Import ZArith Lia Ascii String Sorted.
From stdpp Require Import prelude list strings sorting gmap.
From S2P Require Import Prelude GoStrings StreamToken HlsSession.

Open Scope Z_scope.

(** * Entries *)

Record entry := mkEntry { complete : bool; video : videoDir; size : Z; mtime : Z }.
Abbreviation cacheRoot := (gmap bytes entry).

Definition hlsCacheMinBudgetGB : Z := 1.
Definition hlsCacheStartupOrphanAge : Z := 600.
(** The budget of NewHLSCache. *)
Definition maxBytes_of (sizeGB : Z) : Z :=
  wrap_i64 (wrap_i64 ((if sizeGB <? hlsCacheMinBudgetGB then hlsCacheMinBudgetGB else sizeGB) * 1024) * 1024 * 1024).
(** The directories cleanStartupOrphans removes; [fails] are those that cannot be removed. *)
Definition orphan (now : Z) (e : entry) : bool := negb (complete e) && negb (now - hlsCacheStartupOrphanAge <? mtime e).
Definition cleanStartupOrphans (root : cacheRoot) (now : Z) (fails : bytes -> bool) : cacheRoot :=
  filter (fun '(k, e) => negb (orphan now e) || fails k = true) root.

Record HLSCacheKeyOpts := mkKeyOpts { Source : bytes; IsID : bool; Quality : bytes; AudioIndex : Z; BurnSubtitleIndex : Z; EncodeFingerprint : bytes }.
Section Key.
Context (sha256 : bytes -> bytes) (Abs : bytes -> option bytes).
Definition keyText (o : HLSCacheKeyOpts) : bytes :=
  let src := if IsID o then Source o else match Abs (Source o) with Some a => a | None => Source o end in
  src ++ str "|" ++ Quality o ++ str "|" ++ Itoa (AudioIndex o) ++ str "|" ++ Itoa (BurnSubtitleIndex o) ++ str "|" ++ EncodeFingerprint o.
Definition Key (o : HLSCacheKeyOpts) : bytes := hex_string (take 8 (sha256 (keyText o))).
End Key.

Definition HasComplete (root : cacheRoot) (k : bytes) : bool := match root !! k with Some e => complete e | None => false end.
Definition MarkComplete (root : cacheRoot) (k : bytes) : cacheRoot :=
  match root !! k with Some e => <[k := mkEntry true (video e) (size e) (mtime e)]> root | None => root end.
Definition VerifyComplete (root : cacheRoot) (k : bytes) (segmentCount : Z) : bool :=
  match root !! k with
  | None => false
  | Some e =>
      if negb (complete e) then false
      else if negb (nonempty (initMP4 (video e))) then false
      else if (0 <? segmentCount) && negb (nonempty (segs (video e) !! (segmentCount - 1))) then false else true
  end.
Definition Touch (root : cacheRoot) (k : bytes) (now : Z) : cacheRoot :=
  match root !! k with Some e => <[k := mkEntry (complete e) (video e) (size e) now]> root | None => root end.
Definition Invalidate (root : cacheRoot) (k : bytes) (ok : bool) : cacheRoot := if ok then delete k root else root.

(** ** Settings *)

(** The stamp file: absent or not decodable, unreadable, or a fingerprint. *)
Inductive stamp := NoStamp | StampError | Stamped (f : bytes).
Definition removeAllEntries (root : cacheRoot) (fails : bytes -> bool) : cacheRoot := filter (fun '(k, _) => fails k = true) root.
(** The cache, the stamp and whether an error is returned. *)
Definition ReconcileEncodeConfig (root : cacheRoot) (s : stamp) (fingerprint : bytes) (fails : bytes -> bool) (readOk writeOk : bool) : cacheRoot * stamp * bool :=
  let write s' := if writeOk then (Stamped fingerprint, false) else (s', true) in
  match s with
  | StampError => (root, s, true)
  | NoStamp => let '(s', err) := write s in (root, s', err)
  | Stamped prev =>
      if bytes_eqb prev [] || bytes_eqb prev fingerprint then let '(s', err) := write s in (root, s', err)
      else if negb readOk then (root, s, true)
      else let '(s', err) := write s in (removeAllEntries root fails, s', err)
  end.

(** * The sweep *)

Record item := mkItem { iKey : bytes; iSize : Z; iTime : Z }.
(** The entries that could be listed and measured. *)
Definition listing (root : cacheRoot) (unread : bytes -> bool) : list item :=
  map (fun '(k, e) => mkItem k (size e) (mtime e)) (List.filter (fun '(k, _) => negb (unread k)) (map_to_list root)).
Section Sweep.
Context `{!GoSort item} (maxBytes : Z) (pinned fails : bytes -> bool).
(** The keys evicted, in order. *)
Fixpoint evict (total freed : Z) (items : list item) : list item :=
  match items with
  | [] => []
  | it :: rest =>
      if total - freed <=? maxBytes then []
      else if pinned (iKey it) then evict total freed rest
      else if fails (iKey it) then evict total freed rest
      else it :: evict total (freed + iSize it) rest
  end.
Definition total_of (items : list item) : Z := zsum iSize items.
Definition Sweep (items : list item) : list item :=
  let total := total_of items in
  let pinnedBytes := zsum (fun it => if pinned (iKey it) then iSize it else 0) items in
  if total <=? maxBytes then []
  else if maxBytes <=? pinnedBytes then []
  else evict total 0 (sort_Slice (fun a b => iTime a <? iTime b) items).
Definition swept (root : cacheRoot) (gone : list item) : cacheRoot := foldr (fun it r => delete (iKey it) r) root gone.
End Sweep.

(** * The table of sessions *)

(** [obj] is the session's identity as an object. *)
Record regSession := mkReg { obj : nat; SessionID : bytes; CacheID : bytes; Prewarm : bool; lastTouch : Z }.
Abbreviation registry := (gmap bytes regSession).
Section Registry.
(** The order in which a map is walked. *)
Context (walk : list regSession -> list regSession).
Definition registered (r : registry) : list regSession := walk (map snd (map_to_list r)).
Definition maxSessions_of (n : Z) : Z := if n <? 1 then 1 else n.
Definition sameContent (incoming : bytes) (s : regSession) : bool := negb (bytes_eqb incoming []) && bytes_eqb (CacheID s) incoming.
Definition victim_ltb (incoming : bytes) (a b : regSession) : bool :=
  if negb (Bool.eqb (Prewarm a) (Prewarm b)) then Prewarm a
  else if negb (Bool.eqb (sameContent incoming a) (sameContent incoming b)) then sameContent incoming a
  else lastTouch a <? lastTouch b.
Definition sortEvictionVictimsFirst (incoming : bytes) (l : list regSession) : list regSession := sort_SliceStable (victim_ltb incoming) l.
(** The registry and the sessions to close. *)
Definition Register (maxSessions : Z) (r : registry) (s : regSession) : registry * list regSession :=
  let replaced := match r !! SessionID s with Some prev => if (obj prev =? obj s)%nat then [] else [prev] | None => [] end in
  let others := registered (delete (SessionID s) r) in
  let keepN := maxSessions - 1 in
  let victims :=
    if keepN <? Z.of_nat (length others)
    then take (length others - Z.to_nat keepN) (sortEvictionVictimsFirst (CacheID s) others) else [] in
  (<[SessionID s := s]> (foldr (fun v r' => delete (SessionID v) r') r victims), replaced ++ victims).
Definition RegisterKeep (r : registry) (s : regSession) : registry * list regSession :=
  (<[SessionID s := s]> r, match r !! SessionID s with Some prev => if (obj prev =? obj s)%nat then [] else [prev] | None => [] end).
Definition CloseWhere (pred : regSession -> bool) (r : registry) : registry * list regSession :=
  (filter (fun '(_, s) => pred s = false) r, List.filter pred (registered r)).
Definition Remove (r : registry) (id : bytes) : registry := delete id r.
Definition CloseAll (r : registry) : registry * list regSession := (∅, registered r).
Definition hlsSessionTTL : Z := 1800.
Definition SweepIdle (now : Z) (r : registry) : registry * list regSession := CloseWhere (fun s => hlsSessionTTL <? now - lastTouch s) r.
End Registry.

(** * Sessions on the cache *)

Inductive cinstr :=
| KHas1 (k : bytes) (n : Z) | KVerify (k : bytes) (n : Z) | KDrop (k : bytes) | KHas2 (k : bytes) | KTry (k : bytes)
| KPin (k : bytes) (hit : bool) | KMkdir (k : bytes) (hit : bool) | KRun (k : bytes) (hit : bool)
| KMark (k : bytes) | KRelease (k : bytes) | KUnpin (k : bytes)
| KEvict (items : list item) (total freed : Z) | KRemove (it : item) (rest : list item) (total freed : Z).
Record cache := mkCache { root : cacheRoot; refs : gmap bytes Z; writers : gset bytes; goroutines : list (list cinstr); now : Z }.
Definition set_root (c : cache) (r : cacheRoot) : cache := mkCache r (refs c) (writers c) (goroutines c) (now c).
Definition isPinned (c : cache) (k : bytes) : bool := match refs c !! k with Some n => 0 <? n | None => false end.
Definition Pin (c : cache) (k : bytes) : cache :=
  mkCache (root c) (<[k := default 0 (refs c !! k) + 1]> (refs c)) (writers c) (goroutines c) (now c).
Definition Unpin (c : cache) (k : bytes) : cache :=
  match refs c !! k with
  | Some n => if 0 <? n then mkCache (root c) (if n - 1 =? 0 then delete k (refs c) else <[k := n - 1]> (refs c)) (writers c) (goroutines c) (now c) else c
  | None => c
  end.
Definition TryAcquireWriter (c : cache) (k : bytes) : cache * bool :=
  if bool_decide (k ∈ writers c) then (c, false) else (mkCache (root c) (refs c) ({[k]} ∪ writers c) (goroutines c) (now c), true).
Definition ReleaseWriter (c : cache) (k : bytes) : cache := mkCache (root c) (refs c) (writers c ∖ {[k]}) (goroutines c) (now c).
Definition cleanupOnError (k : bytes) (hit : bool) : list cinstr := KUnpin k :: if hit then [] else [KRelease k; KDrop k].
(** Close after the session's own end: [sealed] when every segment is present and the
    marker could be written. *)
Definition close_cached (k : bytes) (hit sealed : bool) : list cinstr :=
  if hit then [KUnpin k] else [if sealed then KMark k else KDrop k; KRelease k; KUnpin k].

(** [ok]: a removal or a directory creation succeeds, and a running session ends well. *)
Definition cexec `{!GoSort item} (maxBytes : Z) (c : cache) (i : cinstr) (ok : bool) : cache * list cinstr :=
  match i with
  | KHas1 k n => (c, if HasComplete (root c) k then [KVerify k n] else [KHas2 k])
  | KVerify k n => (c, if VerifyComplete (root c) k n then [KHas2 k] else [KDrop k; KHas2 k])
  | KDrop k => (set_root c (Invalidate (root c) k ok), [])
  | KHas2 k => (c, if HasComplete (root c) k then [KPin k true] else [KTry k])
  | KTry k => let '(c', got) := TryAcquireWriter c k in (c', if got then [KPin k false] else [])
  | KPin k hit => (Pin (set_root c (if hit then Touch (root c) k (now c) else root c)) k, [KMkdir k hit])
  | KMkdir k hit =>
      if ok then (set_root c (match root c !! k with Some _ => root c | None => <[k := mkEntry false emptyDir 0 (now c)]> (root c) end), [KRun k hit])
      else (c, cleanupOnError k hit)
  | KRun k hit => (c, close_cached k hit ok)
  | KMark k => (set_root c (MarkComplete (root c) k), [])
  | KRelease k => (ReleaseWriter c k, [])
  | KUnpin k => (Unpin c k, [])
  | KEvict items total freed =>
      match items with
      | [] => (c, [])
      | it :: rest => if total - freed <=? maxBytes then (c, [])
                      else if isPinned c (iKey it) then (c, [KEvict rest total freed]) else (c, [KRemove it rest total freed])
      end
  | KRemove it rest total freed =>
      (set_root c (Invalidate (root c) (iKey it) ok), [KEvict rest total (if ok then freed + iSize it else freed)])
  end.
Inductive cevent :=
| StartSession (k : bytes) (n : Z) | StartSweep (unread : bytes -> bool) | CGo (i : nat) (ok : bool) | CTick (d : Z).
Definition cstep `{!GoSort item} (maxBytes : Z) (c : cache) (e : cevent) : cache :=
  match e with
  | StartSession k n => mkCache (root c) (refs c) (writers c) (goroutines c ++ [[KHas1 k n]]) (now c)
  | StartSweep unread =>
      let items := listing (root c) unread in
      let total := total_of items in
      let pinnedBytes := zsum (fun it => if isPinned c (iKey it) then iSize it else 0) items in
      mkCache (root c) (refs c) (writers c)
        (goroutines c ++ [if (total <=? maxBytes) || (maxBytes <=? pinnedBytes) then [] else [KEvict (sort_Slice (fun a b => iTime a <? iTime b) items) total 0]]) (now c)
  | CGo i ok =>
      match goroutines c !! i with
      | Some (x :: rest) => let '(c', pre) := cexec maxBytes c x ok in
                            mkCache (root c') (refs c') (writers c') (<[i := pre ++ rest]> (goroutines c)) (now c')
      | _ => c
      end
  | CTick d => mkCache (root c) (refs c) (writers c) (goroutines c) (now c + Z.max 0 d)
  end.
Definition crun `{!GoSort item} (maxBytes : Z) (c : cache) (evs : list cevent) : cache := fold_left (cstep maxBytes) evs c.
Definition NewHLSCache (r : cacheRoot) (t : Z) (fails : bytes -> bool) : cache := mkCache (cleanStartupOrphans r t fails) ∅ ∅ [] t.

(** * Lemmas *)

(** ** Writers and pins *)

(** Whether an instruction belongs to a session that holds the writer of [k], or a pin. *)
Definition hold_i (k : bytes) (i : cinstr) : Z :=
  match i with
  | KPin k' false | KMkdir k' false | KRun k' false | KRelease k' => if bytes_eqb k' k then 1 else 0
  | _ => 0
  end.
Definition pin_i (k : bytes) (i : cinstr) : Z :=
  match i with KMkdir k' _ | KRun k' _ | KUnpin k' => if bytes_eqb k' k then 1 else 0 | _ => 0 end.
Definition holders (c : cache) (k : bytes) : Z := zsum (zsum (hold_i k)) (goroutines c).
Definition pins (c : cache) (k : bytes) : Z := zsum (zsum (pin_i k)) (goroutines c).
Definition writer_bit (w : gset bytes) (k : bytes) : Z := if bool_decide (k ∈ w) then 1 else 0.
Record cache_ok (c : cache) : Prop := {
  ck_writers : forall k, holders c k = writer_bit (writers c) k;
  ck_pins : forall k, pins c k = default 0 (refs c !! k);
  ck_refs : map_Forall (fun _ n => 0 < n) (refs c)
}.
Lemma hold_nonneg k i : 0 <= hold_i k i.
Proof. destruct i as [| | | | |? []|? []|? []| | | | |]; cbn; try case_if; lia. Qed.
Lemma pin_nonneg k i : 0 <= pin_i k i.
Proof. destruct i; cbn; try case_if; lia. Qed.
Lemma bytes_eqb_dec (a b : bytes) : bytes_eqb a b = bool_decide (a = b).
Proof. case_bool_decide as E; [subst; apply bytes_eqb_refl|]. destruct (bytes_eqb a b) eqn:B; [by apply bytes_eqb_eq in B|done]. Qed.

Section CacheLemmas.
Context `{!GoSort item} (maxBytes : Z).
(** One instruction, weighed: what the goroutine holds follows the lock and the counter. *)
Lemma cexec_weights c x ok c' pre k :
  cexec maxBytes c x ok = (c', pre) -> map_Forall (fun _ n => 0 < n) (refs c) ->
  0 < default 0 (refs c !! k) \/ pin_i k x = 0 -> 
  (zsum (hold_i k) pre - hold_i k x = writer_bit (writers c') k - writer_bit (writers c) k \/ hold_i k x = 1 /\ writer_bit (writers c) k = 0)
  /\ zsum (pin_i k) pre - pin_i k x = default 0 (refs c' !! k) - default 0 (refs c !! k)
  /\ map_Forall (fun _ n => 0 < n) (refs c').
Proof.
  intros E R P. unfold writer_bit. destruct x as [k' n|k' n|k'|k'|k'|k' hit|k' hit|k' hit|k'|k'|k'|its t f|it rest t f]; cbn in E.
  - simplify_eq. destruct (HasComplete _ _); split_and!; try done; rewrite ?zsum_cons, ?zsum_nil; cbn; lia.
  - simplify_eq. destruct (VerifyComplete _ _ _); split_and!; try done; rewrite ?zsum_cons, ?zsum_nil; cbn; lia.
  - simplify_eq. split_and!; try done; rewrite ?zsum_nil; cbn; lia.
  - simplify_eq. destruct (HasComplete _ _); split_and!; try done; rewrite ?zsum_cons, ?zsum_nil; cbn; lia.
  - unfold TryAcquireWriter in E. case_bool_decide as W; simplify_eq; [split_and!; try done; rewrite ?zsum_nil; cbn; lia|].
    split_and!; try done; rewrite ?zsum_cons, ?zsum_nil; cbn; [|lia]. left. rewrite bytes_eqb_dec.
    repeat case_bool_decide; simplify_eq; try lia; set_solver.
  - simplify_eq. cbn in P. split_and!; rewrite ?zsum_cons, ?zsum_nil; cbn.
    + left. destruct hit; lia.
    + rewrite bytes_eqb_dec. case_bool_decide; [subst; rewrite lookup_insert_eq; cbn; lia|rewrite lookup_insert_ne by done; lia].
    + apply map_Forall_insert_2; [|done]. destruct (refs c !! k') as [m|] eqn:L; cbn; [|lia]. specialize (R _ _ L). cbn in R. lia.
  - destruct ok; simplify_eq.
    + split_and!; try done; rewrite ?zsum_cons, ?zsum_nil; cbn; lia.
    + unfold cleanupOnError. destruct hit; split_and!; try done; rewrite ?zsum_cons, ?zsum_nil; cbn; rewrite ?zsum_cons, ?zsum_nil; cbn; lia.
  - simplify_eq. unfold close_cached. destruct hit, ok; split_and!; try done; rewrite ?zsum_cons, ?zsum_nil; cbn; lia.
  - simplify_eq. split_and!; try done; rewrite ?zsum_nil; cbn; lia.
  - simplify_eq. split_and!; try done; rewrite ?zsum_nil; cbn; [|lia]. rewrite bytes_eqb_dec.
    repeat case_bool_decide; simplify_eq; try set_solver; try lia.
  - simplify_eq. cbn in P. unfold Unpin. destruct (refs c !! k') as [m|] eqn:L.
    + pose proof (R _ _ L) as Rm. cbn in Rm. replace (0 <? m) with true by lia. cbn. split_and!; rewrite ?zsum_nil; try lia.
      * rewrite bytes_eqb_dec. case_bool_decide; [subst k'|].
        -- rewrite L. cbn. destruct (m - 1 =? 0) eqn:Z0; [rewrite lookup_delete_eq; cbn; lia|rewrite lookup_insert_eq; cbn; lia].
        -- destruct (m - 1 =? 0); [rewrite lookup_delete_ne by done; lia|rewrite lookup_insert_ne by done; lia].
      * destruct (m - 1 =? 0) eqn:Z0; [by apply map_Forall_delete|apply map_Forall_insert_2; [lia|done]].
    + (split_and!; try done; rewrite ?zsum_nil; cbn); [left; lia|].
      rewrite bytes_eqb_dec in P |- *. destruct (decide (k' = k)) as [-> |Ne]; [|rewrite bool_decide_eq_false_2 by done; lia].
      rewrite bool_decide_eq_true_2 in P by done. rewrite L in P. cbn in P. lia.
  - destruct its as [|it rest]; [|destruct (_ <=? _); [|destruct (isPinned _ _)]]; simplify_eq; split_and!; try done; rewrite ?zsum_cons, ?zsum_nil; cbn; lia.
  - simplify_eq. split_and!; try done; rewrite ?zsum_cons, ?zsum_nil; cbn; lia.
Qed.
Lemma elem_weight (f : cinstr -> Z) l x : (forall y, 0 <= f y) -> x ∈ l -> f x <= zsum f l.
Proof. intros N [i L]%list_elem_of_lookup. by apply (zsum_lookup f l i). Qed.
Lemma goroutine_weight (f : cinstr -> Z) ls t x : (forall y, 0 <= f y) -> t ∈ ls -> x ∈ t -> f x <= zsum (zsum f) ls.
Proof.
  intros N [i L]%list_elem_of_lookup X. pose proof (elem_weight f t x N X).
  pose proof (zsum_lookup (zsum f) ls i t (fun y => zsum_nonneg f y N) L). lia.
Qed.
Lemma cstep_ok c e : cache_ok c -> cache_ok (cstep maxBytes c e).
Proof.
  intros [W P R]. destruct e as [k n|unread|i ok|d]; cbn; try done.
  - split; [| |done]; intros k'; unfold holders, pins in *; cbn; rewrite zsum_app, zsum_cons, zsum_nil, ?W, ?P; cbn; unfold zsum; cbn; lia.
  - split; [| |done]; intros k'; unfold holders, pins in *; cbn; rewrite zsum_app, zsum_cons, zsum_nil, ?W, ?P; destruct (_ || _); unfold zsum; cbn; lia.
  - destruct (goroutines c !! i) as [[|x rest]|] eqn:L; [done| |done]. destruct (cexec maxBytes c x ok) as [c' pre] eqn:E.
    assert (X : forall k, 0 < default 0 (refs c !! k) \/ pin_i k x = 0).
    { intros k. rewrite <- P. pose proof (goroutine_weight (pin_i k) (goroutines c) (x :: rest) x (pin_nonneg k) (list_elem_of_lookup_2 _ _ _ L) (list_elem_of_here _ _)).
      pose proof (pin_nonneg k x). unfold pins. lia. }
    split.
    + intros k. destruct (cexec_weights c x ok c' pre k E R (X k)) as (H & _ & _). specialize (W k). unfold holders in *. cbn.
      rewrite (zsum_insert _ _ _ _ _ L), zsum_app, zsum_cons.
      destruct H as [H|[H1 H2]]; [lia|].
      pose proof (goroutine_weight (hold_i k) (goroutines c) (x :: rest) x (hold_nonneg k) (list_elem_of_lookup_2 _ _ _ L) (list_elem_of_here _ _)). lia.
    + intros k. destruct (cexec_weights c x ok c' pre k E R (X k)) as (_ & H & _). specialize (P k). unfold pins in *. cbn.
      rewrite (zsum_insert _ _ _ _ _ L), zsum_app, zsum_cons. lia.
    + by destruct (cexec_weights c x ok c' pre [] E R (X [])) as (_ & _ & H).
Qed.
Lemma crun_ok evs : forall c, cache_ok c -> cache_ok (crun maxBytes c evs).
Proof. induction evs as [|e evs IH]; intros c C; [done|]. cbn. by apply IH, cstep_ok. Qed.
Lemma new_ok r t fails : cache_ok (NewHLSCache r t fails).
Proof. split; [|done|]; intros k; [|done]. unfold writer_bit. rewrite bool_decide_eq_false_2 by set_solver. done. Qed.

(** *** The goroutines of sessions and sweeps *)
Definition shape (t : list cinstr) : Prop :=
  match t with
  | [] => True
  | KMark k :: r => r = [KRelease k; KUnpin k]
  | KDrop k :: r => r = [] \/ r = [KHas2 k] \/ r = [KRelease k; KUnpin k]
  | KUnpin k :: r => r = [] \/ r = [KRelease k; KDrop k]
  | KRelease k :: r => r = [KUnpin k] \/ r = [KDrop k]
  | _ :: r => r = []
  end.
Lemma cexec_shape c x ok c' pre rest : cexec maxBytes c x ok = (c', pre) -> shape (x :: rest) -> shape (pre ++ rest).
Proof.
  intros E S. destruct x as [k' n|k' n|k'|k'|k'|k' hit|k' hit|k' hit|k'|k'|k'|its t f|it rs t f]; cbn in E, S.
  all: try (unfold TryAcquireWriter, close_cached, cleanupOnError in E; repeat case_match; simplify_eq; cbn; naive_solver).
Qed.
Lemma cstep_shape c e : Forall shape (goroutines c) -> Forall shape (goroutines (cstep maxBytes c e)).
Proof.
  intros F. destruct e as [k n|unread|i ok|d]; cbn; [| | |done].
  - apply Forall_app. split; [done|]. by repeat constructor.
  - apply Forall_app. split; [done|]. constructor; [|constructor]. by case_match.
  - destruct (goroutines c !! i) as [[|x rest]|] eqn:L; [done| |done]. destruct (cexec maxBytes c x ok) as [c' pre] eqn:E. cbn.
    apply Forall_insert; [done|]. eapply cexec_shape; [done|]. exact (Forall_lookup_1 _ _ _ _ F L).
Qed.
Lemma crun_shape evs : forall c, Forall shape (goroutines c) -> Forall shape (goroutines (crun maxBytes c evs)).
Proof. induction evs as [|e evs IH]; intros c C; [done|]. cbn. by apply IH, cstep_shape. Qed.
(** The instructions that change an entry. *)
Lemma cexec_root c x ok c' pre k :
  cexec maxBytes c x ok = (c', pre) -> root c' !! k <> root c !! k ->
  x = KDrop k \/ x = KPin k true \/ (exists hit, x = KMkdir k hit) \/ x = KMark k \/ exists it rest t f, x = KRemove it rest t f /\ iKey it = k.
Proof.
  intros E N. destruct x as [k' n|k' n|k'|k'|k'|k' hit|k' hit|k' hit|k'|k'|k'|its t f|it rs t f]; cbn in E.
  all: try (unfold TryAcquireWriter, Unpin in E; repeat case_match; simplify_eq; done).
  - simplify_eq. cbn in N. left. unfold Invalidate in N. destruct (decide (k' = k)) as [-> |Ne]; [done|].
    exfalso. apply N. repeat case_match; rewrite ?lookup_delete_ne by done; done.
  - simplify_eq. cbn in N. destruct hit; [|done]. right; left. unfold Touch in N. destruct (decide (k' = k)) as [-> |Ne]; [done|].
    exfalso. apply N. repeat case_match; rewrite ?lookup_insert_ne by done; done.
  - destruct ok; simplify_eq; try done. cbn in N. right; right; left. exists hit. destruct (decide (k' = k)) as [-> |Ne]; [done|].
    exfalso. apply N. case_match; rewrite ?lookup_insert_ne by done; done.
  - simplify_eq. cbn in N. do 3 right; left. unfold MarkComplete in N. destruct (decide (k' = k)) as [-> |Ne]; [done|].
    exfalso. apply N. repeat case_match; rewrite ?lookup_insert_ne by done; done.
  - simplify_eq. cbn in N. do 4 right. exists it, rs, t, f. split; [done|]. unfold Invalidate in N. destruct (decide (iKey it = k)) as [E|Ne]; [done|].
    exfalso. apply N. repeat case_match; rewrite ?lookup_delete_ne by done; done.
Qed.
(** No two goroutines are between taking the writer of an entry and giving it back. *)
Definition writes (k : bytes) (t : list cinstr) : bool := existsb (fun x => 0 <? hold_i k x) t.
Lemma writes_weight k t : writes k t = true -> 1 <= zsum (hold_i k) t.
Proof.
  unfold writes. rewrite existsb_exists. intros (x & Hx & Hw). pose proof (elem_weight (hold_i k) t x (hold_nonneg k)) as Z.
  rewrite list_elem_of_In in Z. specialize (Z Hx). lia.
Qed.
Lemma writes_once c i j k ti tj :
  cache_ok c -> goroutines c !! i = Some ti -> goroutines c !! j = Some tj -> writes k ti = true -> writes k tj = true -> i = j.
Proof.
  intros [W _ _] Li Lj Wi%writes_weight Wj%writes_weight. destruct (decide (i = j)) as [?|N]; [done|exfalso]. specialize (W k). unfold holders in W.
  pose proof (zsum_insert (zsum (hold_i k)) (goroutines c) i ti [] Li) as Z1. rewrite zsum_nil in Z1.
  assert (Lj' : <[i := []]> (goroutines c) !! j = Some tj) by (by rewrite list_lookup_insert_ne).
  pose proof (zsum_lookup (zsum (hold_i k)) _ j tj (fun y => zsum_nonneg (hold_i k) y (hold_nonneg k)) Lj') as Z2.
  unfold writer_bit in W. case_bool_decide; lia.
Qed.

(** ** The sweep *)

Lemma evict_sub (pinned fails : bytes -> bool) total : forall items freed,
  sublist (evict maxBytes pinned fails total freed items) items
  /\ Forall (fun it => pinned (iKey it) = false /\ fails (iKey it) = false) (evict maxBytes pinned fails total freed items).
Proof.
  induction items as [|it items IH]; intros freed; cbn; [done|]. destruct (_ <=? _); [split; [apply sublist_nil_l|constructor]|].
  destruct (pinned (iKey it)) eqn:P; [destruct (IH freed); split; [by constructor|done]|].
  destruct (fails (iKey it)) eqn:F; [destruct (IH freed); split; [by constructor|done]|].
  destruct (IH (freed + iSize it)). split; [by constructor|by constructor].
Qed.
(** The evicted ones come before every kept one that could have gone. *)
Lemma evict_prefix (pinned fails : bytes -> bool) total : forall items freed,
  exists l1 l2, items = l1 ++ l2 /\ evict maxBytes pinned fails total freed items = List.filter (fun it => negb (pinned (iKey it)) && negb (fails (iKey it))) l1
    /\ (l2 <> [] -> total - freed - zsum iSize (evict maxBytes pinned fails total freed items) <= maxBytes).
Proof.
  induction items as [|it items IH]; intros freed; cbn; [by exists [], []|].
  destruct (total - freed <=? maxBytes) eqn:T; [exists [], (it :: items); split_and!; try done; intros _; rewrite zsum_nil; lia|].
  assert (Skip : forall b, b = true -> (negb (pinned (iKey it)) && negb (fails (iKey it))) = negb b ->
    exists l1 l2, it :: items = l1 ++ l2 /\ evict maxBytes pinned fails total freed items = List.filter (fun it => negb (pinned (iKey it)) && negb (fails (iKey it))) l1
    /\ (l2 <> [] -> total - freed - zsum iSize (evict maxBytes pinned fails total freed items) <= maxBytes)).
  { intros b -> Hb. destruct (IH freed) as (l1 & l2 & E1 & E2 & E3). exists (it :: l1), l2. cbn. rewrite Hb. cbn. split_and!; [by rewrite E1|done|done]. }
  destruct (pinned (iKey it)) eqn:P; [by apply (Skip true)|]. destruct (fails (iKey it)) eqn:F; [by apply (Skip true)|].
  destruct (IH (freed + iSize it)) as (l1 & l2 & E1 & E2 & E3). exists (it :: l1), l2. cbn. rewrite P, F. cbn. split_and!; [by rewrite E1|by rewrite E2|].
  rewrite zsum_cons. intros H. specialize (E3 H). lia.
Qed.
(** Nothing is evicted that need not be. *)
Lemma evict_needed (pinned fails : bytes -> bool) total : forall items freed l x l',
  evict maxBytes pinned fails total freed items = l ++ x :: l' -> maxBytes < total - freed - zsum iSize l.
Proof.
  induction items as [|it items IH]; intros freed l x l' E; cbn in E; [by destruct l|].
  destruct (total - freed <=? maxBytes) eqn:T; [by destruct l|]. destruct (pinned (iKey it)); [by eapply IH|]. destruct (fails (iKey it)); [by eapply IH|].
  destruct l as [|y l]; cbn in E; injection E as <- E; [rewrite zsum_nil; lia|]. apply IH in E. rewrite zsum_cons. lia.
Qed.
Lemma filter_all_out {A} (f : A -> bool) l : (forall x, x ∈ l -> f x = false) -> List.filter f l = [].
Proof. induction l as [|x l IH]; intros H; [done|]. cbn. rewrite (H x) by left. apply IH. intros y Hy. apply H. by right. Qed.
Lemma split_sum (f : bytes -> bool) l :
  zsum iSize l = zsum iSize (List.filter (fun it => negb (f (iKey it))) l) + zsum (fun it => if f (iKey it) then iSize it else 0) l.
Proof. induction l as [|x l IH]; [done|]. cbn. rewrite !zsum_cons. destruct (f (iKey x)); cbn; rewrite ?zsum_cons; lia. Qed.
End CacheLemmas.

(** ** The table *)

Definition keyed (r : registry) : Prop := forall id s, r !! id = Some s -> SessionID s = id.
Lemma keyed_elem r s : keyed r -> s ∈ map snd (map_to_list r) <-> r !! SessionID s = Some s.
Proof.
  intros K. split.
  - intros ([id v] & -> & H)%list_elem_of_fmap. apply elem_of_map_to_list in H. cbn. by rewrite (K _ _ H).
  - intros H. apply list_elem_of_fmap. exists (SessionID s, s). split; [done|]. by apply elem_of_map_to_list.
Qed.
Lemma keyed_nodup r : keyed r -> NoDup (map SessionID (map snd (map_to_list r))).
Proof.
  intros K. pose proof (NoDup_fst_map_to_list r) as N. rewrite map_map.
  erewrite map_ext_in; [exact N|]. intros [id s] H. cbn. apply list_elem_of_In, elem_of_map_to_list in H. by apply K.
Qed.
Lemma keyed_delete r id : keyed r -> keyed (delete id r).
Proof. intros K i s H. apply lookup_delete_Some in H as [_ H]. by apply K. Qed.
Lemma foldr_delete_lookup (vs : list regSession) : forall (r : registry) id,
  foldr (fun v r' => delete (SessionID v) r') r vs !! id = if bool_decide (id ∈ map SessionID vs) then None else r !! id.
Proof.
  induction vs as [|v vs IH]; intros r id; cbn [foldr map]; [done|]. destruct (decide (id = SessionID v)) as [-> |N].
  - rewrite lookup_delete_eq, bool_decide_eq_true_2; [done|left].
  - rewrite lookup_delete_ne by done. rewrite IH. repeat case_bool_decide; try done; exfalso; set_solver.
Qed.
Lemma foldr_delete_size (vs : list regSession) : forall (r : registry),
  NoDup (map SessionID vs) -> Forall (fun v => is_Some (r !! SessionID v)) vs ->
  (length vs <= base.size r /\ base.size (foldr (fun v r' => delete (SessionID v) r') r vs) = base.size r - length vs)%nat.
Proof.
  induction vs as [|v vs IH]; intros r N F; cbn [foldr map length] in *; [lia|]. apply NoDup_cons in N as [Nv N]. apply Forall_cons in F as [[w Fv] F].
  destruct (IH r N F) as [I1 I2].
  assert (L : foldr (fun v r' => delete (SessionID v) r') r vs !! SessionID v = Some w) by (rewrite foldr_delete_lookup, bool_decide_eq_false_2; done).
  rewrite map_size_delete_Some, I2 by eauto. assert (base.size (foldr (fun v r' => delete (SessionID v) r') r vs) <> 0%nat); [|lia].
  intros Z. apply map_size_empty_inv in Z. rewrite Z in L. by rewrite lookup_empty in L.
Qed.
Lemma victim_irrefl incoming a : victim_ltb incoming a a = false.
Proof. unfold victim_ltb. rewrite !eqb_reflx. cbn. apply Z.ltb_irrefl. Qed.
Lemma victim_trans incoming a b c : victim_ltb incoming a b = true -> victim_ltb incoming b c = true -> victim_ltb incoming a c = true.
Proof.
  unfold victim_ltb. destruct (Prewarm a), (Prewarm b), (Prewarm c); cbn; try done;
    destruct (sameContent incoming a), (sameContent incoming b), (sameContent incoming c); cbn; try done; lia.
Qed.

(** The order of eviction, spelled out. *)
Lemma victim_order incoming k v :
  victim_ltb incoming k v = false ->
  (Prewarm k = true -> Prewarm v = true) /\ (Prewarm k = Prewarm v -> incoming <> [] -> CacheID k = incoming -> CacheID v = incoming)
  /\ (Prewarm k = Prewarm v -> CacheID k = CacheID v -> lastTouch v <= lastTouch k).
Proof.
  unfold victim_ltb, sameContent. rewrite !bytes_eqb_dec. intros H. split_and!.
  - intros P. rewrite P in H. by destruct (Prewarm v).
  - intros P I C. rewrite P, eqb_reflx in H. cbn in H. rewrite (bool_decide_eq_false_2 _ I), (bool_decide_eq_true_2 _ C) in H. cbn in H. by case_bool_decide.
  - intros P C. rewrite P, C, !eqb_reflx in H. cbn in H. lia.
Qed.
Lemma elem_take {A} (x : A) n l : x ∈ take n l -> x ∈ l.
Proof. intros H. rewrite <- (take_drop n l). apply elem_of_app. by left. Qed.
(** What Register does: the others in order of eviction, and how many of them go. *)
Lemma register_shape (walk : list regSession -> list regSession) (max : Z) (r : registry) s r' closing :
  keyed r -> (forall l, walk l ≡ₚ l) -> 1 <= max -> Register walk max r s = (r', closing) ->
  exists srt m,
    StronglySorted (fun a b => victim_ltb (CacheID s) b a = false) srt
    /\ NoDup (map SessionID srt) /\ (forall v, v ∈ srt <-> r !! SessionID v = Some v /\ SessionID v <> SessionID s)
    /\ length srt = base.size (delete (SessionID s) r) /\ Z.of_nat m = Z.max 0 (Z.of_nat (base.size (delete (SessionID s) r)) - (max - 1))
    /\ closing = match r !! SessionID s with Some prev => if (obj prev =? obj s)%nat then [] else [prev] | None => [] end ++ take m srt
    /\ (forall id, r' !! id = if decide (id = SessionID s) then Some s else if bool_decide (id ∈ map SessionID (take m srt)) then None else r !! id)
    /\ Z.of_nat (base.size r') = Z.of_nat (base.size (delete (SessionID s) r)) - Z.of_nat m + 1.
Proof.
  intros K Wk M E. pose proof (keyed_delete r (SessionID s) K) as Kd. unfold Register in E.
  set (others := registered walk (delete (SessionID s) r)) in E.
  assert (Os : others ≡ₚ map snd (map_to_list (delete (SessionID s) r))) by apply Wk.
  set (srt := sortEvictionVictimsFirst (CacheID s) others) in E. assert (Ss : srt ≡ₚ others) by apply sort_SliceStable_perm.
  assert (Lo : length others = base.size (delete (SessionID s) r)) by (by rewrite Os, length_map, length_map_to_list).
  set (m := (length others - Z.to_nat (max - 1))%nat) in E.
  assert (V : (if max - 1 <? Z.of_nat (length others) then take m srt else []) = take m srt).
  { destruct (_ <? _) eqn:T; [done|]. replace m with 0%nat by lia. done. }
  rewrite V in E. injection E as <- <-.
  assert (Nd : NoDup (map SessionID srt)) by (rewrite (Permutation_map SessionID Ss), (Permutation_map SessionID Os); by apply keyed_nodup).
  assert (El : forall v, v ∈ srt <-> r !! SessionID v = Some v /\ SessionID v <> SessionID s).
  { intros v. rewrite Ss, Os, keyed_elem by done. rewrite lookup_delete_Some. naive_solver. }
  assert (Nt : NoDup (map SessionID (take m srt))) by (eapply sublist_NoDup; [exact Nd|apply (fmap_sublist SessionID), sublist_take]).
  exists srt, m. split_and!; try done; [|by rewrite Ss|lia| |].
  - apply sort_ordered; [apply victim_trans|apply victim_irrefl].
  - intros id. case_decide as D; [subst; apply lookup_insert_eq|]. rewrite lookup_insert_ne by done. apply foldr_delete_lookup.
  - assert (Ft : Forall (fun v => is_Some (delete (SessionID s) r !! SessionID v)) (take m srt)).
    { apply Forall_forall. intros v Hv. apply elem_take, El in Hv as [Hv ?]. rewrite lookup_delete_ne by done. eauto. }
    destruct (foldr_delete_size (take m srt) (delete (SessionID s) r) Nt Ft) as [_ Sz].
    assert (Hr : <[SessionID s := s]> (foldr (fun v r' => delete (SessionID v) r') r (take m srt))
      = <[SessionID s := s]> (foldr (fun v r' => delete (SessionID v) r') (delete (SessionID s) r) (take m srt))).
    { apply map_eq. intros id. destruct (decide (id = SessionID s)) as [-> |D]; [by rewrite !lookup_insert_eq|].
      rewrite !lookup_insert_ne, !foldr_delete_lookup by done. by rewrite lookup_delete_ne by done. }
    rewrite Hr, map_size_insert_None, Sz, length_take, Ss, Lo; [lia|].
    rewrite foldr_delete_lookup. case_bool_decide; [done|apply lookup_delete_eq].
Qed.

(** * Claims *)


(** C19: The sweep keeps the budget by the least recently used entries.  It evicts entries that were listed, each once, none
    that is pinned; every evicted entry is at least as old as any evictable one that stays; each eviction was needed; and
    unless removals fail or the pinned entries alone fill the budget, what is left fits.  The rest of the cache is
    untouched. *)
Theorem sweep_lru `{!GoSort item} maxBytes pinned fails root unread :
  map_Forall (fun _ e => 0 <= size e) root ->
  let items := listing root unread in let gone := Sweep maxBytes pinned fails items in
  Forall (fun it => it ∈ items /\ pinned (iKey it) = false) gone /\ NoDup (map iKey gone)
  /\ (forall x y, x ∈ gone -> y ∈ items -> y ∉ gone -> pinned (iKey y) = false -> fails (iKey y) = false -> iTime x <= iTime y)
  /\ (forall l x, gone = l ++ [x] -> maxBytes < total_of items - zsum iSize l)
  /\ ((forall k, fails k = false) -> zsum (fun it => if pinned (iKey it) then iSize it else 0) items < maxBytes -> total_of items - zsum iSize gone <= maxBytes)
  /\ forall k, swept root gone !! k = if bool_decide (k ∈ map iKey gone) then None else root !! k.
Proof.
  intros Hs items gone.
  assert (Sw : forall k, swept root gone !! k = if bool_decide (k ∈ map iKey gone) then None else root !! k).
  { intros k. clearbody gone. unfold swept. induction gone as [|g gs IH]; cbn [foldr map]; [done|].
    destruct (decide (k = iKey g)) as [-> |N]; [rewrite lookup_delete_eq, bool_decide_eq_true_2; [done|left]|].
    rewrite lookup_delete_ne, IH by done. repeat case_bool_decide; try done; exfalso; set_solver. }
  assert (Nd : NoDup (map iKey items)).
  { unfold items, listing. rewrite map_map. eapply sublist_NoDup; [apply (NoDup_fst_map_to_list root)|].
    generalize (map_to_list root). intros l. induction l as [|[k e] l IH]; [done|]. cbn. destruct (unread k); cbn; by constructor. }
  set (srt := sort_Slice (fun a b => iTime a <? iTime b) items).
  assert (Sp : srt ≡ₚ items) by apply sort_Slice_perm.
  destruct (evict_prefix maxBytes pinned fails (total_of items) srt 0) as (l1 & l2 & E1 & E2 & E3).
  destruct (evict_sub maxBytes pinned fails (total_of items) srt 0) as [Es Ef].
  assert (G : gone = evict maxBytes pinned fails (total_of items) 0 srt \/ gone = [] /\ (total_of items <= maxBytes \/ maxBytes <= zsum (fun it => if pinned (iKey it) then iSize it else 0) items)).
  { unfold gone, Sweep. fold items. destruct (total_of items <=? maxBytes) eqn:T1; [right; split; [done|lia]|].
    destruct (_ <=? zsum _ _) eqn:T2; [right; split; [done|lia]|by left]. }
  destruct G as [G|[G Why]].
  2:{ rewrite G in *. split_and!; try done; try (by constructor); [by intros x y []%not_elem_of_nil|by intros [|] x|]. intros _ H. rewrite zsum_nil. lia. }
  rewrite G. split_and!; [| | | | |by rewrite <- G].
  - rewrite Forall_forall in Ef |- *. intros it Hit. split; [rewrite <- Sp; by eapply elem_of_sublist|by apply Ef].
  - eapply sublist_NoDup; [|apply (fmap_sublist iKey); exact Es]. change (NoDup (map iKey srt)). by rewrite (Permutation_map iKey Sp).
  - intros x y Hx Hy Hn P F. rewrite E2 in Hx, Hn. apply list_elem_of_In, filter_In in Hx as [Hx _]. apply list_elem_of_In in Hx.
    assert (Y : y ∈ l2).
    { rewrite <- Sp, E1 in Hy. apply elem_of_app in Hy as [Hy|?]; [|done]. exfalso. apply Hn. apply list_elem_of_In, filter_In.
      split; [by apply list_elem_of_In|]. by rewrite P, F. }
    pose proof (sort_Slice_sorted iTime items) as St. fold srt in St. rewrite E1 in St. exact (StronglySorted_app_1_elem_of _ _ _ x y St Hx Y).
  - intros l x E. pose proof (evict_needed maxBytes pinned fails (total_of items) srt 0 l x [] E). lia.
  - intros F Pn. destruct l2 as [|z l2]; [|specialize (E3 ltac:(done)); lia]. rewrite app_nil_r in E1. rewrite E2, <- E1.
    rewrite (filter_ext _ (fun it => negb (pinned (iKey it)))) by (intros; rewrite F; apply andb_true_r).
    unfold total_of. rewrite <- (zsum_perm iSize _ _ Sp), (split_sum pinned srt), (zsum_perm _ _ _ Sp). lia.
Qed.
#[local] Instance demo_item_sort : GoSort item := stable_GoSort item.
Definition demo_root : cacheRoot :=
  <[str "a" := mkEntry true emptyDir 5 30]> (<[str "b" := mkEntry true emptyDir 4 10]> (<[str "c" := mkEntry true emptyDir 3 20]> ∅)).
Lemma demo_root_sizes : map_Forall (fun _ e => 0 <= size e) demo_root.
Proof. by apply map_Forall_to_list; repeat constructor. Qed.
(** The older [b] is in use, so [c] goes. *)
Lemma demo_sweep : map iKey (Sweep 9 (bytes_eqb (str "b")) (fun _ => false) (listing demo_root (fun _ => false))) = [str "c"].
Proof. by vm_compute. Qed.
Lemma sweep_lru_witness :
  Forall (fun it => it ∈ listing demo_root (fun _ => false) /\ bytes_eqb (str "b") (iKey it) = false)
    (Sweep 9 (bytes_eqb (str "b")) (fun _ => false) (listing demo_root (fun _ => false))).
Proof. exact (proj1 (sweep_lru 9 (bytes_eqb (str "b")) (fun _ => false) demo_root (fun _ => false) demo_root_sizes)). Defined.

(** Registering a session evicts by priority and no more than it must.  The session is in the table, which then holds
    at most the configured number; a session is closed exactly when it is another object registered under the same id or
    one of the victims, which are exactly those that left the table; no session that stays comes before a victim in the
    order prewarm, same content, least recently touched; and nobody is evicted while there is room. *)
Lemma register_policy (walk : list regSession -> list regSession) (n : Z) (r : registry) (s : regSession) :
  keyed r -> (forall l, walk l ≡ₚ l) ->
  let max := maxSessions_of n in let '(r', closing) := Register walk max r s in
  r' !! SessionID s = Some s /\ keyed r' /\ Z.of_nat (base.size r') <= max
  /\ (forall v, v ∈ closing <-> r !! SessionID v = Some v /\ (if decide (SessionID v = SessionID s) then obj v <> obj s else r' !! SessionID v = None))
  /\ (forall id v, r' !! id = Some v -> v = s \/ id <> SessionID s /\ r !! id = Some v)
  /\ (forall v k, v ∈ closing -> SessionID v <> SessionID s -> r' !! SessionID k = Some k -> SessionID k <> SessionID s ->
        (Prewarm k = true -> Prewarm v = true)
        /\ (Prewarm k = Prewarm v -> CacheID s <> [] -> CacheID k = CacheID s -> CacheID v = CacheID s)
        /\ (Prewarm k = Prewarm v -> CacheID k = CacheID v -> lastTouch v <= lastTouch k))
  /\ (Z.of_nat (base.size (delete (SessionID s) r)) < max -> forall v, v ∈ closing -> SessionID v = SessionID s).
Proof.
  intros K Wk max. assert (M : 1 <= max) by (unfold max, maxSessions_of; destruct (n <? 1) eqn:E; lia).
  destruct (Register walk max r s) as [r' closing] eqn:E.
  destruct (register_shape walk max r s r' closing K Wk M E) as (srt & m & So & Nd & El & Len & Hm & Cl & Lk & Sz).
  assert (Vin : forall v, v ∈ take m srt -> v ∈ srt) by (intros v; apply elem_take).
  assert (Vid : forall k, r !! SessionID k = Some k -> SessionID k ∈ map SessionID (take m srt) -> k ∈ take m srt).
  { intros k Hk (v & Ev & Hv)%list_elem_of_fmap. pose proof (proj1 (El v) (Vin _ Hv)) as [Rv _]. rewrite <- Ev, Hk in Rv. by simplify_eq. }
  split_and!.
  - rewrite Lk. by rewrite decide_True.
  - intros id v H. rewrite Lk in H. case_decide; [by simplify_eq|]. case_bool_decide; [done|by apply K].
  - lia.
  - intros v. rewrite Cl, elem_of_app, Lk. split.
    + intros [Hv|Hv].
      * destruct (r !! SessionID s) as [p|] eqn:L; [|by apply elem_of_nil in Hv]. pose proof (K _ _ L).
        destruct (obj p =? obj s)%nat eqn:Ob; [by apply elem_of_nil in Hv|]. apply list_elem_of_singleton in Hv as ->.
        split; [congruence|]. rewrite decide_True by done. by apply Nat.eqb_neq.
      * pose proof (proj1 (El v) (Vin _ Hv)) as [Rv Nv]. split; [done|]. rewrite !decide_False by done.
        rewrite bool_decide_eq_true_2; [done|]. apply list_elem_of_fmap. by exists v.
    + intros [Rv H]. case_decide as D; [left|right].
      * rewrite <- D, Rv, (proj2 (Nat.eqb_neq _ _) H). by left.
      * case_bool_decide as B; [by apply Vid|congruence].
  - intros id v H. rewrite Lk in H. case_decide; [left; by simplify_eq|]. case_bool_decide; [done|by right].
  - intros v k Hv Nv Hk Nk. rewrite Cl in Hv. apply elem_of_app in Hv as [Hv|Hv]; [exfalso|].
    + destruct (r !! SessionID s) as [p|] eqn:L; [|by apply elem_of_nil in Hv]. pose proof (K _ _ L).
      destruct (obj p =? obj s)%nat; [by apply elem_of_nil in Hv|]. apply list_elem_of_singleton in Hv as ->. congruence.
    + rewrite Lk in Hk. case_decide as D; [congruence|]. case_bool_decide as B; [done|].
      assert (Kd : k ∈ drop m srt).
      { assert (H : k ∈ srt) by (by apply El). rewrite <- (take_drop m srt) in H. apply elem_of_app in H as [H|H]; [|done].
        exfalso. apply B. apply list_elem_of_fmap. by exists k. }
      rewrite <- (take_drop m srt) in So. exact (victim_order _ _ _ (StronglySorted_app_1_elem_of _ _ _ v k So Hv Kd)).
  - intros H v. rewrite Cl. assert (m = 0%nat) as -> by lia. rewrite take_0, app_nil_r. intros Hv.
    destruct (r !! SessionID s) as [p|] eqn:L; [|by apply elem_of_nil in Hv]. pose proof (K _ _ L).
    destruct (obj p =? obj s)%nat; [by apply elem_of_nil in Hv|]. apply list_elem_of_singleton in Hv as ->. congruence.
Qed.

Definition demo_watcher (o : nat) (id content : string) (pre : bool) (t : Z) : regSession := mkReg o (str id) (str content) pre t.
(** Two viewers and a prewarm. *)
Definition demo_table : registry :=
  <[str "s1" := demo_watcher 1 "s1" "film" false 50]> (<[str "s2" := demo_watcher 2 "s2" "other" false 10]>
    (<[str "s3" := demo_watcher 3 "s3" "next" true 60]> ∅)).
Lemma demo_table_keyed : keyed demo_table.
Proof.
  intros id s H. unfold demo_table in H. rewrite !lookup_insert in H.
  repeat (case_decide; [by simplify_eq|]). by rewrite lookup_empty in H.
Qed.
Lemma walk_self (l : list regSession) : id l ≡ₚ l.
Proof. done. Qed.
(** The prewarm goes first, then the viewer's own predecessor, before a stranger who was idle for longer. *)
Lemma demo_register : map SessionID (snd (Register id 2 demo_table (demo_watcher 4 "s4" "film" false 70))) = [str "s3"; str "s1"].
Proof. by vm_compute. Qed.
Lemma register_policy_witness :
  let '(r', closing) := Register id (maxSessions_of 2) demo_table (demo_watcher 4 "s4" "film" false 70) in
  r' !! str "s4" = Some (demo_watcher 4 "s4" "film" false 70) /\ keyed r' /\ Z.of_nat (base.size r') <= maxSessions_of 2.
Proof.
  pose proof (register_policy id 2 demo_table (demo_watcher 4 "s4" "film" false 70) demo_table_keyed walk_self) as H.
  cbv zeta in H. destruct (Register id (maxSessions_of 2) demo_table (demo_watcher 4 "s4" "film" false 70)) as [r' closing].
  destruct H as (H1 & H2 & H3 & _). exact (conj H1 (conj H2 H3)).
Defined.

(** Changed encoder settings are not forgotten when clearing the cache fails.  A reconciliation that reports an error
    leaves the old stamp in place, so the next start that succeeds finds the difference again and removes every entry
    built under the old settings; only then are the new settings recorded. *)
Lemma reconcile_error_retried root prev fingerprint fails readOk writeOk :
  prev <> [] -> prev <> fingerprint ->
  let '(root1, s1, err1) := ReconcileEncodeConfig root (Stamped prev) fingerprint fails readOk writeOk in
  (err1 = true -> s1 = Stamped prev /\ ReconcileEncodeConfig root1 s1 fingerprint (fun _ => false) true true = (∅, Stamped fingerprint, false))
  /\ (err1 = false -> s1 = Stamped fingerprint /\ forall k e, root1 !! k = Some e -> root !! k = Some e /\ fails k = true).
Proof.
  intros N1 N2. unfold ReconcileEncodeConfig. rewrite !bytes_eqb_dec, !bool_decide_eq_false_2 by done. cbn.
  assert (Em : forall r, removeAllEntries r (fun _ => false) = ∅).
  { intros r. apply map_eq. intros k. rewrite lookup_empty. apply map_lookup_filter_None. right. by intros e _. }
  destruct readOk, writeOk; cbn; split; try done; rewrite ?bytes_eqb_dec, ?bool_decide_eq_false_2, ?Em by done; try done.
  intros _. split; [done|]. intros k e H. by apply map_lookup_filter_Some in H.
Qed.
Lemma reconcile_error_retried_witness :
  let '(root1, s1, err1) := ReconcileEncodeConfig demo_root (Stamped (str "x264")) (str "nvenc") (fun _ => false) true false in
  err1 = true /\ s1 = Stamped (str "x264") /\ ReconcileEncodeConfig root1 s1 (str "nvenc") (fun _ => false) true true = (∅, Stamped (str "nvenc"), false).
Proof.
  pose proof (reconcile_error_retried demo_root (str "x264") (str "nvenc") (fun _ => false) true false ltac:(done) ltac:(done)) as H.
  cbn in H. split; [reflexivity|]. exact (proj1 H eq_refl).
Defined.

(** * Interleavings *)

Definition demo_film : videoDir := mkDir (Some Whole) {[0 := Whole]}.
Definition demo_cache : cache := NewHLSCache {[str "k" := mkEntry true demo_film 20 5]} 10 (fun _ => false).
(** A sweeper that looked before a session pinned the entry removes it under that session: the session replays from the
    cache, the entry is pinned, and nothing is in it. *)
Lemma entry_swept_under_reader :
  let c := crun 10 demo_cache [StartSweep (fun _ => false); StartSession (str "k") 1; CGo 0 true;
             CGo 1 true; CGo 1 true; CGo 1 true; CGo 1 true; CGo 0 true; CGo 1 true] in
  goroutines c !! 1%nat = Some [KRun (str "k") true] /\ isPinned c (str "k") = true /\ HasComplete (root c) (str "k") = false
  /\ (video <$> root c !! str "k") = Some emptyDir.
Proof. by vm_compute. Qed.
(** A failed start gives the writer back before it removes the entry, and removes what the next writer has begun. *)
Lemma failed_start_removes_next_writer :
  let k := str "k" in
  let c := crun 10 (NewHLSCache ∅ 0 (fun _ => false))
             ([StartSession k 1; CGo 0 true; CGo 0 true; CGo 0 true; CGo 0 true; CGo 0 false; CGo 0 true; CGo 0 true]
              ++ [StartSession k 1; CGo 1 true; CGo 1 true; CGo 1 true; CGo 1 true; CGo 1 true; CGo 0 true]) in
  goroutines c !! 1%nat = Some [KRun k false] /\ isPinned c k = true /\ root c !! k = None.
Proof. by vm_compute. Qed.
