(* ===== verification/Upgrade.v ===== *)
(** Self-update: internal/upgrade (upgrade.go, download.go, signature.go, extract.go,
    desktop.go, cache.go) and the decision of cmd/self_update.go.

    The servers are an adversary: [net] answers the n-th request as it likes, and may
    answer the same address differently the next time.  What an update does to the
    directory of the binary is a list of file operations, so that a crash leaves a
    prefix of it.  SHA-256, ed25519, the archive readers and the execution of a program
    are parameters; no property of them is needed. *)
From Stdlib Require Import ZArith Lia Ascii String.
From stdpp Require Import prelude list strings gmap.
From S2P Require Import Prelude GoStrings SafePath Yenc StreamToken.

Open Scope Z_scope.

(** * The standard library's parts *)

(** io.ReadAll(io.LimitReader(body, n)): [complete] is false when the connection breaks
    behind [body]. *)
Definition read_limited (n : Z) (body : bytes) (complete : bool) : option bytes :=
  if n <=? Z.of_nat (length body) then Some (take (Z.to_nat n) body) else if complete then Some body else None.
Definition TrimPrefix (p s : bytes) : bytes := match cut_prefix p s with Some r => r | None => s end.
(** strings.TrimRight(s, "/") *)
Definition trim_slashes (s : bytes) : bytes := rev (snd (span (fun b => b =? SLASH) (rev s))).
(** strings.Fields *)
Definition flush (cur : bytes) : list bytes := match cur with [] => [] | _ => [cur] end.
Fixpoint fields_loop (fuel : nat) (cur s : bytes) : list bytes :=
  match fuel, s with
  | S f, b :: s' => match strip_one space_runes s with
                    | Some r => flush cur ++ fields_loop f [] r
                    | None => fields_loop f (cur ++ [b]) s'
                    end
  | _, _ => flush cur
  end.
Definition Fields (s : bytes) : list bytes := fields_loop (length s) [] s.
(** strings.EqualFold where one side is a hexadecimal text: no rune but a letter of
    ASCII folds to one of its digits. *)
Definition EqualFold_hex (hex s : bytes) : bool := bytes_eqb (map fold_byte hex) (map fold_byte s).

(** base64.StdEncoding.DecodeString *)
Definition b64_val (c : Z) : option Z :=
  if (65 <=? c) && (c <=? 90) then Some (c - 65) else if (97 <=? c) && (c <=? 122) then Some (c - 71)
  else if (48 <=? c) && (c <=? 57) then Some (c + 4) else if c =? 43 then Some 62 else if c =? 47 then Some 63 else None.
Fixpoint b64_loop (s : bytes) : option bytes :=
  match s with
  | [] => Some []
  | a :: b :: c :: d :: r =>
      match b64_val a, b64_val b with
      | Some x, Some y =>
          let b1 := x * 4 + y / 16 in
          if c =? EQ then (if (d =? EQ) && bool_decide (r = []) then Some [b1] else None)
          else match b64_val c with
               | None => None
               | Some z =>
                   let b2 := y mod 16 * 16 + z / 4 in
                   if d =? EQ then (if bool_decide (r = []) then Some [b1; b2] else None)
                   else match b64_val d, b64_loop r with
                        | Some w, Some rest => Some (b1 :: b2 :: z mod 4 * 64 + w :: rest)
                        | _, _ => None
                        end
               end
      | _, _ => None
      end
  | _ => None
  end.
Definition base64_decode (s : bytes) : option bytes := b64_loop (List.filter (fun c => negb ((c =? CR) || (c =? LF))) s).

(** * Versions *)

(** The digits a segment starts with, as an int. *)
Fixpoint seg_val (n : Z) (s : bytes) : Z :=
  match s with
  | [] => n
  | c :: s' => if is_digit c then seg_val (wrap_i64 (wrap_i64 (n * 10) + (c - 48))) s' else n
  end.
(** strings.SplitN(v, ".", 3) *)
Fixpoint split_dot (n : nat) (cur s : bytes) : list bytes :=
  match n, s with
  | S n', c :: s' => if c =? DOT then cur :: split_dot n' [] s' else split_dot n (cur ++ [c]) s'
  | _, _ => [cur ++ s]
  end.
Definition splitVersion (v : bytes) : Z * Z * Z :=
  let parts := split_dot 2 [] v in
  let seg i := match parts !! i with Some p => seg_val 0 p | None => 0 end in
  (seg 0%nat, seg 1%nat, seg 2%nat).
Definition versionLess (a b : bytes) : bool :=
  let '(a0, a1, a2) := splitVersion a in
  let '(b0, b1, b2) := splitVersion b in
  if negb (a0 =? b0) then a0 <? b0 else if negb (a1 =? b1) then a1 <? b1 else a2 <? b2.
Definition IsNewer (current candidate : bytes) : bool := versionLess (TrimPrefix (str "v") current) (TrimPrefix (str "v") candidate).
Definition pick_step (best t : bytes) : bytes :=
  let v := TrimPrefix (str "v") (TrimSpace t) in
  match v with
  | [] => best
  | _ => if bytes_eqb best [] || versionLess best v then v else best
  end.
Definition pickLatestVersion (tags : list bytes) : bytes := fold_left pick_step tags [].

(** * Requests *)

Inductive reply := NoReply | Reply (status : Z) (body : bytes) (complete : bool).
Inductive uerr := ErrMissingSignature | ErrAssetNotFound | ErrNoDesktopAssets | EOther.
(** A computation that sends requests: their number so far, and a value or an error. *)
Definition req (A : Type) : Type := nat -> nat * (A + uerr).
Definition ret {A} (a : A) : req A := fun n => (n, inl a).
Definition fail {A} (e : uerr) : req A := fun n => (n, inr e).
Definition bind {A B} (x : req A) (k : A -> req B) : req B := fun n => match x n with (n', inl a) => k a n' | (n', inr e) => (n', inr e) end.
(** [x] with its error replaced. *)
Definition on_err {A} (x : req A) (k : uerr -> req A) : req A := fun n => match x n with (n', inr e) => k e n' | r => r end.
Definition ask : req nat := fun n => (n, inl n).
Definition check (b : bool) (e : uerr) : req unit := if b then ret tt else fail e.
Notation "'let!' x ':=' e 'in' k" := (bind e (fun x => k)) (at level 200, x pattern, e at level 200, k at level 200, right associativity).

(** * Fetching and verifying *)

Definition githubOwnerRepo : bytes := str "Unarr-app/unarr-cli".
Definition releaseURL (base version filename : bytes) : bytes := base ++ str "/releases/download/v" ++ version ++ str "/" ++ filename.
Definition SetBaseURL (old base : bytes) : bytes := match base with [] => old | _ => trim_slashes base end.
Definition SetFallbackBaseURL (old base : bytes) : bytes := match base with [] => old | _ => trim_slashes base end.
Definition assetBases (updateBaseURL fallbackBaseURL : bytes) : list bytes :=
  updateBaseURL :: if negb (bytes_eqb fallbackBaseURL []) && negb (bytes_eqb fallbackBaseURL updateBaseURL) then [fallbackBaseURL] else [].
Definition isGitHubBase (updateBaseURL : bytes) : bool := has_prefix (str "https://github.com/") updateBaseURL.
Definition sigAssetName (manifest : bytes) : bytes := manifest ++ str ".sig".
Definition releasePubKeyBase64 : bytes := str "X7EJVwAiIILs4EGaqp+YBsa4Q6HnKBB2J5FI4MIt+w0=".
(** No key, a bad one, or the key. *)
Definition loadReleasePubKey : option bytes + uerr :=
  match TrimSpace releasePubKeyBase64 with
  | [] => inl None
  | v => match base64_decode v with
         | Some raw => if (length raw =? 32)%nat then inl (Some raw) else inr EOther
         | None => inr EOther
         end
  end.
Definition SignatureVerificationConfigured : bool := match loadReleasePubKey with inl (Some _) => true | _ => false end.
Definition decodeSignature (raw : bytes) : option bytes := base64_decode (TrimSpace raw).

Definition scan_max : Z := 64 * 1024.
(** The first line that names the asset, or an error of the scanner before it. *)
Fixpoint find_hash (name : bytes) (lines : list bytes) (toolong : bool) : option bytes :=
  match lines with
  | [] => if toolong then None else Some []
  | l :: ls => match Fields l with
               | h :: f :: _ => if bytes_eqb f name then Some h else find_hash name ls toolong
               | _ => find_hash name ls toolong
               end
  end.
Definition expectedHash (name manifest : bytes) : option bytes :=
  let '(lines, toolong) := scan scan_max (split_lines manifest) in find_hash name lines toolong.

Definition maxDownloadRetries : nat := 3.
(** In seconds. *)
Definition retryDelay (attempt : Z) : Z := 5 * (attempt * attempt).
Definition cliChecksums : bytes := str "checksums.txt".
Definition desktopChecksums : bytes := str "checksums-desktop.txt".

(** An entry of an archive: its name, whether it is a regular file (not a directory, in a
    zip), whether it can be opened, its bytes and whether they can all be read. *)
Record member := mkMember { mName : bytes; mReg : bool; mOpen : bool; mData : bytes; mComplete : bool }.
(** What happens on the machine: temporary files, asked for after the n-th request, the
    cancellation during a wait, and the calls of Execute in order. *)
Record machine := mkMachine {
  tempOk : nat -> bool; hashOk : nat -> bool; cancelled : nat -> bool;
  exeOk : bool; docker : bool; writable : bool; mkTempOk : bool; createOk : bool;
  chmodTmpOk : bool; backupOk : bool; parkOk : bool; rollbackOk : bool; markerOk : bool; removeOldOk : bool;
  readNewOk : bool; staleOk : bool; openNewOk : bool; written : option nat; syncOk : bool; closeOk : bool; chmodOk : bool; renameOk : bool; removeNewOk : bool
}.

Section Verify.
Context (sha256 : bytes -> bytes) (ed25519_Verify : bytes -> bytes -> bytes -> bool).
Context (net : nat -> bytes -> reply) (goos goarch updateBaseURL fallbackBaseURL : bytes) (mc : machine).

Definition windows : bool := bytes_eqb goos (str "windows").
Definition archiveName (version : bytes) : bytes :=
  str "unarr_" ++ version ++ str "_" ++ goos ++ str "_" ++ goarch ++ str "." ++ (if windows then str "zip" else str "tar.gz").
Definition desktopAssetName (version : bytes) : bytes :=
  str "unarr-desktop_" ++ version ++ str "_" ++ goos ++ str "_" ++ goarch ++ (if windows then str ".exe" else []).

Definition get (url : bytes) : req reply := fun n => (S n, inl (net n url)).
Definition getReleaseAssetFromBase (base version filename : bytes) : req (bytes * bool) :=
  let! r := get (releaseURL base version filename) in
  match r with
  | NoReply => fail EOther
  | Reply status body complete => if status =? 200 then ret (body, complete) else if status =? 404 then fail ErrAssetNotFound else fail EOther
  end.
Fixpoint from_bases (bases : list bytes) (version filename : bytes) (lastErr : uerr) : req (bytes * bool * bytes) :=
  match bases with
  | [] => fail lastErr
  | base :: rest =>
      on_err (let! r := getReleaseAssetFromBase base version filename in ret (r, base)) (from_bases rest version filename)
  end.
Definition getReleaseAsset (version filename : bytes) : req (bytes * bool * bytes) :=
  from_bases (assetBases updateBaseURL fallbackBaseURL) version filename EOther.
(** A download into a temporary file: its bytes, and the base that served them. *)
Definition download (version filename : bytes) : req (bytes * bytes) :=
  let! (body, complete, base) := getReleaseAsset version filename in
  let! n := ask in
  let! _ := check (tempOk mc n && complete) EOther in
  ret (body, base).
Fixpoint download_attempts (attempts : nat) (version filename : bytes) : req (bytes * bytes) :=
  match attempts with
  | O => fail EOther
  | S rest =>
      on_err (download version filename) (fun e =>
        match rest with
        | O => fail e
        | _ => let! n := ask in if cancelled mc n then fail EOther else download_attempts rest version filename
        end)
  end.
Definition downloadWithRetry (version : bytes) : req (bytes * bytes) := download_attempts maxDownloadRetries version (archiveName version).
Definition downloadDesktopAsset (version assetName : bytes) : req (bytes * bytes) :=
  on_err (download version assetName) (fun e => fail (match e with ErrAssetNotFound => ErrNoDesktopAssets | _ => e end)).

Definition fetchSignature (version base sigAsset : bytes) : req bytes :=
  let! r := get (releaseURL base version sigAsset) in
  match r with
  | NoReply => fail EOther
  | Reply status body complete =>
      if status =? 200 then match read_limited (8 * 1024) body complete with Some b => ret b | None => fail EOther end
      else if status =? 404 then fail ErrMissingSignature else fail EOther
  end.
Definition verifySignedChecksums (version base manifest content : bytes) : req unit :=
  match loadReleasePubKey with
  | inr e => fail e
  | inl None => ret tt
  | inl (Some pubKey) =>
      let! rawSig := fetchSignature version base (sigAssetName manifest) in
      match decodeSignature rawSig with
      | None => fail EOther
      | Some sig => let! _ := check (length sig =? 64)%nat EOther in check (ed25519_Verify pubKey content sig) EOther
      end
  end.
Definition verifyAssetAgainstChecksums (version asset base manifest expectedName : bytes) (verifySignature : bool) : req unit :=
  let! (body, complete) := getReleaseAssetFromBase base version manifest in
  match read_limited (1024 * 1024) body complete with
  | None => fail EOther
  | Some content =>
      let! _ := if verifySignature then verifySignedChecksums version base manifest content else ret tt in
      match expectedHash expectedName content with
      | None => fail EOther
      | Some [] => fail EOther
      | Some h => let! n := ask in check (hashOk mc n && EqualFold_hex (hex_string (sha256 asset)) h) EOther
      end
  end.
Definition verifyChecksumWithOptions (version archive base : bytes) (verifySignature : bool) : req unit :=
  verifyAssetAgainstChecksums version archive base cliChecksums (archiveName version) verifySignature.
Definition verifyArchive (allowUnsigned : bool) (version archive base : bytes) : req unit :=
  on_err (verifyChecksumWithOptions version archive base true) (fun e =>
    match e with
    | ErrMissingSignature => if allowUnsigned then verifyChecksumWithOptions version archive base false else fail e
    | _ => fail e
    end).
Definition verifyDesktopAsset (version asset base assetName : bytes) : req unit :=
  on_err (verifyAssetAgainstChecksums version asset base desktopChecksums assetName true) (fun e =>
    fail (match e with ErrAssetNotFound => ErrNoDesktopAssets | ErrMissingSignature => EOther | _ => e end)).

(** ** The newest version *)

Context (decodeTags : bytes -> option (list bytes)).
Definition githubAPIBase : bytes := str "https://api.github.com/repos/" ++ githubOwnerRepo.
Definition fetchLatestVersionGitHub : req bytes :=
  let! r := get (githubAPIBase ++ str "/releases?per_page=100") in
  match r with
  | Reply status body complete =>
      if negb (status =? 200) then fail EOther
      else match decodeTags (if 4 * 1024 * 1024 <=? Z.of_nat (length body) then take (Z.to_nat (4 * 1024 * 1024)) body else body) with
           | None => fail EOther
           | Some tags => match pickLatestVersion tags with [] => fail EOther | v => ret v end
           end
  | NoReply => fail EOther
  end.
Definition fetchLatestVersionText (base : bytes) : req bytes :=
  let! r := get (base ++ str "/version") in
  match r with
  | Reply status body complete =>
      if negb (status =? 200) then fail EOther
      else match read_limited 64 body complete with
           | None => fail EOther
           | Some b => match TrimPrefix (str "v") (TrimSpace b) with [] => fail EOther | v => ret v end
           end
  | NoReply => fail EOther
  end.
Definition fetchLatestVersion : req bytes :=
  if isGitHubBase updateBaseURL
  then on_err fetchLatestVersionGitHub (fun e => if bytes_eqb fallbackBaseURL [] then fail e else fetchLatestVersionText fallbackBaseURL)
  else fetchLatestVersionText updateBaseURL.

(** ** The archive *)

Context (untar : bytes -> option (list member * bool)) (unzip : bytes -> option (list member)) (winBase : bytes -> bytes).
(** io.Copy of the member through a limit of 200 MB. *)
Definition copy_limit : Z := 200 * 1024 * 1024.
Fixpoint tar_loop (target : bytes) (l : list member) (eof : bool) : option bytes :=
  match l with
  | [] => None
  | x :: rest => if negb (bytes_eqb (Base (mName x)) target) || negb (mReg x) then tar_loop target rest eof
                 else if createOk mc then read_limited copy_limit (mData x) (mComplete x) else None
  end.
Definition extractTarGz (archive : bytes) : option bytes :=
  match untar archive with Some (l, eof) => tar_loop (str "unarr") l eof | None => None end.
(** The checks on the entry's name; the destination is always the target below [absDest]. *)
Definition safeZipPath (entryName : bytes) : bool :=
  let cleaned := Clean (replace_byte BACKSLASH SLASH entryName) in
  negb (bytes_eqb cleaned (str "..") || has_prefix (str "../") cleaned || bool_decide (is_Some (index (str "/../") cleaned)) || is_abs cleaned).
Fixpoint zip_loop (target : bytes) (l : list member) : option bytes :=
  match l with
  | [] => None
  | x :: rest => if negb (mReg x) || negb (bytes_eqb (winBase (mName x)) target) || negb (safeZipPath (mName x)) then zip_loop target rest
                 else if mOpen x && createOk mc then read_limited copy_limit (mData x) (mComplete x) else None
  end.
Definition extractZip (archive : bytes) : option bytes :=
  match unzip archive with Some l => zip_loop (str "unarr.exe") l | None => None end.
Definition extractBinary (archive : bytes) : option bytes := if windows then extractZip archive else extractTarGz archive.

(** ** Installing *)

Inductive fop := FRemove (p : bytes) | FCreate (p : bytes) | FAppend (p : bytes) (b : Z) | FRename (p q : bytes) | FWrite (p b : bytes).
Definition apply_fop (d : gmap bytes bytes) (o : fop) : gmap bytes bytes :=
  match o with
  | FRemove p => delete p d
  | FCreate p => <[p := []]> d
  | FAppend p b => match d !! p with Some s => <[p := s ++ [b]]> d | None => d end
  | FRename p q => match d !! p with Some s => <[q := s]> (delete p d) | None => d end
  | FWrite p b => <[p := b]> d
  end.
Definition apply_fops (d : gmap bytes bytes) (l : list fop) : gmap bytes bytes := fold_left apply_fop l d.

Definition installBinary (data dst : bytes) : list fop * bool :=
  let tmp := dst ++ str ".new" in
  let undo := if removeNewOk mc then [FRemove tmp] else [] in
  if negb (readNewOk mc) then ([], false)
  else
    let stale := if staleOk mc then [FRemove tmp] else [] in
    if negb (openNewOk mc) then (stale, false)
    else
      let bytes_written := match written mc with Some k => take k data | None => data end in
      let staged := stale ++ FCreate tmp :: map (FAppend tmp) bytes_written in
      if bool_decide (is_Some (written mc)) || negb (syncOk mc) || negb (closeOk mc) || negb (chmodOk mc) || negb (renameOk mc) then (staged ++ undo, false)
      else (staged ++ [FRename tmp dst], true).

(** The output of a program with an argument, within the time it has. *)
Context (output : bytes -> bytes -> option bytes).
Definition smokeTest (bin arg expectedVersion : bytes) : bool :=
  match output bin arg with Some out => bool_decide (is_Some (index expectedVersion out)) | None => false end.

Inductive result := Unchanged | Upgraded | Failed_ | RolledBack | RollbackFailed.
(** Execute: what it reports, and what it did to the directory of the binary. *)
Definition prepare (allowUnsigned : bool) (version : bytes) : req bytes :=
  let! _ := check (exeOk mc) EOther in
  let! _ := check (negb (docker mc)) EOther in
  let! _ := check (writable mc) EOther in
  let! (archive, base) := downloadWithRetry version in
  let! _ := verifyArchive allowUnsigned version archive base in
  let! _ := check (mkTempOk mc) EOther in
  match extractBinary archive with
  | None => fail EOther
  | Some bin => let! _ := check (smokeTest bin (str "version") version) EOther in ret bin
  end.
Definition swap (bin binPath backupPath : bytes) : result * list fop :=
  let '(ops, ok) := installBinary bin binPath in
  if ok then (Upgraded, FRename binPath backupPath :: ops)
  else if rollbackOk mc then (RolledBack, FRename binPath backupPath :: ops ++ [FRename backupPath binPath])
  else (RollbackFailed, FRename binPath backupPath :: ops).
Definition Execute (current : bytes) (allowUnsigned : bool) (targetVersion binPath : bytes) : req (result * list fop) :=
  let version := TrimPrefix (str "v") targetVersion in
  if bytes_eqb version current then ret (Unchanged, [])
  else
    on_err (let! bin := prepare allowUnsigned version in
            ret (if backupOk mc then swap bin binPath (binPath ++ str ".backup") else (Failed_, [])))
      (fun _ => ret (Failed_, [])).

(** ** The desktop companion *)

Definition desktopVersionMarker : bytes := str "unarr-desktop.version".
Definition desktopVersionMarkerPath (dir : bytes) : bytes := Join dir desktopVersionMarker.
Definition marker_text (version : bytes) : bytes := TrimPrefix (str "v") version.
Definition InstalledDesktopVersion (file : option bytes) : option bytes :=
  match file with
  | None => None
  | Some data =>
      let v := TrimSpace data in
      if bytes_eqb v [] || (64 <? Z.of_nat (length v)) || existsb (fun c => (c =? SP) || (c =? TAB) || (c =? CR) || (c =? LF)) v then None
      else Some (TrimPrefix (str "v") v)
  end.
(** The operations and where the old binary is now; [now] is the time in seconds. *)
Definition parkOldBinary (path : bytes) (now : Z) : list fop * option bytes :=
  let backup := path ++ str ".old" in
  let stale := if removeOldOk mc then [FRemove backup] else [] in
  if parkOk mc then (stale ++ [FRename path backup], Some backup)
  else
    let backup2 := path ++ str ".old." ++ Itoa now in
    if backupOk mc then (stale ++ [FRename path backup2], Some backup2) else (stale, None).
Inductive desktopResult := DSkipped | DApplied | DError (e : uerr) | DRolledBack | DRollbackFailed.
Definition prepareDesktop (version : bytes) : req bytes :=
  let assetName := desktopAssetName version in
  let! (asset, base) := downloadDesktopAsset version assetName in
  let! _ := verifyDesktopAsset version asset base assetName in
  let! _ := check (chmodTmpOk mc) EOther in
  let! _ := check (smokeTest asset (str "--version") version) EOther in
  ret asset.
Definition swapDesktop (asset targetPath version : bytes) (now : Z) : desktopResult * list fop :=
  match parkOldBinary targetPath now with
  | (park, None) => (DError EOther, park)
  | (park, Some backup) =>
      let '(ops, ok) := installBinary asset targetPath in
      if ok then (DApplied, park ++ ops ++ if markerOk mc then [FWrite (desktopVersionMarkerPath (Dir targetPath)) (marker_text version)] else [])
      else if rollbackOk mc then (DRolledBack, park ++ ops ++ [FRename backup targetPath])
      else (DRollbackFailed, park ++ ops)
  end.
Definition UpdateDesktopBinary (d : gmap bytes bytes) (targetPath version0 : bytes) (now : Z) : req (desktopResult * list fop) :=
  let version := TrimPrefix (str "v") version0 in
  if bool_decide (InstalledDesktopVersion (d !! desktopVersionMarkerPath (Dir targetPath)) = Some version) then ret (DSkipped, [])
  else on_err (let! asset := prepareDesktop version in ret (swapDesktop asset targetPath version now))
         (fun e => ret (DError e, [])).
(** [exe] is the running binary, [isFile] whether a regular file is at a path. *)
Definition FindDesktopSibling (dir : bytes) (isFile : bytes -> bool) : option bytes :=
  let p := Join dir (if windows then str "unarr-desktop.exe" else str "unarr-desktop") in if isFile p then Some p else None.
Definition UpdateDesktopSibling (d : gmap bytes bytes) (exe : bytes) (isFile : bytes -> bool) (version : bytes) (now : Z) : req (desktopResult * list fop) :=
  if negb (exeOk mc) then ret (DError EOther, [])
  else match FindDesktopSibling (Dir exe) isFile with
       | None => ret (DSkipped, [])
       | Some sibling => UpdateDesktopBinary d sibling version now
       end.

(** ** The command, and the cached answer *)

Definition runSelfUpdate (Version : bytes) (force allowUnsigned : bool) (binPath : bytes) : req (result * list fop) :=
  let! latest := fetchLatestVersion in
  let currentClean := TrimPrefix (str "v") Version in
  if bytes_eqb currentClean latest && negb force then ret (Unchanged, [])
  else Execute currentClean allowUnsigned latest binPath.

(** The cache file decoded, if it could be. *)
Record versionCache := mkVersionCache { cVersion : bytes; checkedAt : Z }.
Definition cacheTTL : Z := 3600.
Definition writeCachedVersion (file : option versionCache) (v : bytes) (now : Z) (writeOk : bool) : option versionCache :=
  if writeOk then Some (mkVersionCache v now) else file.
Definition CheckLatest (file : option versionCache) (now : Z) (writeOk : bool) : req (bytes * option versionCache) :=
  let! v := fetchLatestVersion in ret (v, writeCachedVersion file v now writeOk).
Definition ReadCachedVersion (file : option versionCache) (now : Z) : bytes :=
  match file with Some c => if cacheTTL <? now - checkedAt c then [] else cVersion c | None => [] end.
Definition CheckLatestCached (file : option versionCache) (now : Z) (writeOk : bool) : req (bytes * bool * option versionCache) :=
  match ReadCachedVersion file now with
  | [] => let! v := fetchLatestVersion in ret (v, false, writeCachedVersion file v now writeOk)
  | v => ret (v, true, file)
  end.

(** * Lemmas *)

(** ** Requests *)

Lemma bind_inl {A B} (x : req A) (k : A -> req B) n n' b :
  bind x k n = (n', inl b) -> exists n1 a, x n = (n1, inl a) /\ k a n1 = (n', inl b).
Proof. unfold bind. destruct (x n) as [n1 [a|e]]; intros H; [by exists n1, a|done]. Qed.
Lemma on_err_inl {A} (x : req A) k n n' a :
  on_err x k n = (n', inl a) -> x n = (n', inl a) \/ exists n1 e, x n = (n1, inr e) /\ k e n1 = (n', inl a).
Proof. unfold on_err. destruct (x n) as [n1 [b|e]]; intros H; [by left|right; by exists n1, e]. Qed.
Lemma check_inl b e n n' u : check b e n = (n', inl u) -> b = true.
Proof. by destruct b. Qed.
Ltac req_inv H :=
  let n := fresh "n" in let a := fresh "a" in let E := fresh "E" in apply bind_inl in H as (n & a & E & H).

(** ** What verification establishes *)

(** A manifest with the asset's hash, signed with the compiled-in key if [signed]. *)
Definition vouched (signed : bool) (name asset : bytes) : Prop :=
  exists content h,
    expectedHash name content = Some h /\ h <> [] /\ map fold_byte h = map fold_byte (hex_string (sha256 asset))
    /\ (signed = true -> exists key sig, loadReleasePubKey = inl (Some key) /\ length sig = 64%nat /\ ed25519_Verify key content sig = true).
Lemma key_present : exists key, loadReleasePubKey = inl (Some key) /\ length key = 32%nat.
Proof. eexists. split; vm_compute; reflexivity. Qed.
Lemma verify_signed version base manifest content n n' u :
  verifySignedChecksums version base manifest content n = (n', inl u) ->
  exists key sig, loadReleasePubKey = inl (Some key) /\ length sig = 64%nat /\ ed25519_Verify key content sig = true.
Proof.
  destruct key_present as (key & K & _). unfold verifySignedChecksums. rewrite K. intros H. req_inv H.
  destruct (decodeSignature a) as [sig|]; [|done]. req_inv H. apply check_inl, Nat.eqb_eq in E0. apply check_inl in H. by exists key, sig.
Qed.
Lemma verify_asset version asset base manifest name signed n n' u :
  verifyAssetAgainstChecksums version asset base manifest name signed n = (n', inl u) -> vouched signed name asset.
Proof.
  unfold verifyAssetAgainstChecksums. intros H. req_inv H. destruct a as [body complete]. destruct (read_limited _ _ _) as [content|]; [|done].
  req_inv H. destruct (expectedHash name content) as [[|c h]|] eqn:X; try done. req_inv H. apply check_inl, andb_prop in H as [_ H].
  exists content, (c :: h). split_and!; try done; [symmetry; by apply bytes_eqb_eq|]. intros ->. by eapply verify_signed.
Qed.
Lemma vouched_weaken name asset : vouched true name asset -> forall b, vouched b name asset.
Proof. intros (content & h & A & B & C & D) b. exists content, h. split_and!; try done. intros _. by apply D. Qed.
Lemma verify_archive allow version archive base n n' u :
  verifyArchive allow version archive base n = (n', inl u) -> vouched (negb allow) (archiveName version) archive.
Proof.
  unfold verifyArchive, verifyChecksumWithOptions. intros [H|(n1 & [] & _ & H)]%on_err_inl; try done; [by eapply vouched_weaken, verify_asset|].
  destruct allow; [by eapply verify_asset|done].
Qed.
(** The binary of a release: it comes from an archive that was vouched for, and says so. *)
Definition release_binary (signed : bool) (version bin : bytes) : Prop :=
  exists archive, vouched signed (archiveName version) archive /\ extractBinary archive = Some bin /\ smokeTest bin (str "version") version = true.
Lemma prepare_release allow version n n' bin : prepare allow version n = (n', inl bin) -> release_binary (negb allow) version bin.
Proof.
  unfold prepare. intros H. do 3 req_inv H. req_inv H. destruct a2 as [archive base]. req_inv H. apply verify_archive in E3. req_inv H.
  destruct (extractBinary archive) as [b|] eqn:X; [|done]. req_inv H. apply check_inl in E5. injection H as _ <-. by exists archive.
Qed.
Lemma prepare_desktop version n n' asset :
  prepareDesktop version n = (n', inl asset) ->
  vouched true (desktopAssetName version) asset /\ smokeTest asset (str "--version") version = true.
Proof.
  unfold prepareDesktop. intros H. req_inv H. destruct a as [asset' base]. req_inv H. do 2 req_inv H. apply check_inl in E2.
  injection H as _ <-. split; [|done]. unfold verifyDesktopAsset in E0. apply on_err_inl in E0 as [E0|(n4 & e & _ & E0)]; [by eapply verify_asset|done].
Qed.

(** ** File operations *)

Definition avoids (p : bytes) (o : fop) : Prop :=
  match o with FRemove q | FCreate q | FAppend q _ | FWrite q _ => q <> p | FRename a b => a <> p /\ b <> p end.
Lemma apply_avoids p l : forall d, Forall (avoids p) l -> apply_fops d l !! p = d !! p.
Proof.
  induction l as [|o l IH]; intros d F; [done|]. apply Forall_cons in F as [A F]. cbn. fold (apply_fops (apply_fop d o) l). rewrite IH by done.
  destruct o as [q|q|q b|a b|q b]; cbn in A |- *; try (by rewrite ?lookup_delete_ne, ?lookup_insert_ne by done).
  - destruct (d !! q); [by rewrite lookup_insert_ne|done].
  - destruct A. destruct (d !! a); [by rewrite lookup_insert_ne, lookup_delete_ne by done|done].
Qed.
Lemma apply_fops_app d l1 l2 : apply_fops d (l1 ++ l2) = apply_fops (apply_fops d l1) l2.
Proof. apply fold_left_app. Qed.
Lemma apply_fop_appends p data : forall d s, d !! p = Some s -> apply_fops d (map (FAppend p) data) !! p = Some (s ++ data).
Proof.
  induction data as [|b data IH]; intros d s L; [by rewrite app_nil_r|]. cbn. rewrite L.
  fold (apply_fops (<[p := s ++ [b]]> d) (map (FAppend p) data)). rewrite (IH _ (s ++ [b])) by apply lookup_insert_eq. by rewrite <- app_assoc.
Qed.
(** [P] holds after every prefix. *)
Definition always (P : gmap bytes bytes -> Prop) (d : gmap bytes bytes) (l : list fop) : Prop := forall k, P (apply_fops d (take k l)).
Lemma always_cons (P : gmap bytes bytes -> Prop) d o l : P d -> always P (apply_fop d o) l -> always P d (o :: l).
Proof. intros H A [|k]; [done|apply A]. Qed.
Lemma always_app (P : gmap bytes bytes -> Prop) d l1 l2 : always P d l1 -> always P (apply_fops d l1) l2 -> always P d (l1 ++ l2).
Proof.
  intros A1 A2 k. rewrite take_app, apply_fops_app. destruct (decide (k <= length l1)%nat) as [K|K].
  - replace (k - length l1)%nat with 0%nat by lia. apply A1.
  - rewrite take_ge by lia. apply A2.
Qed.
Lemma always_avoid (P : gmap bytes bytes -> Prop) p q d l :
  Forall (avoids p) l -> Forall (avoids q) l -> (forall d', d' !! p = d !! p -> d' !! q = d !! q -> P d') -> always P d l.
Proof. intros F1 F2 H k. apply H; apply apply_avoids; by apply Forall_take. Qed.
Lemma path_ext_ne (p e : bytes) : e <> [] -> p ++ e <> p.
Proof. intros N H. apply N. apply (app_inv_head p). by rewrite app_nil_r. Qed.

Lemma install_shape data dst ops ok :
  installBinary data dst = (ops, ok) ->
  exists pre, (forall p, dst ++ str ".new" <> p -> Forall (avoids p) pre)
    /\ if ok then ops = pre ++ [FRename (dst ++ str ".new") dst] /\ forall d, apply_fops d pre !! (dst ++ str ".new") = Some data else ops = pre.
Proof.
  unfold installBinary. set (tmp := dst ++ str ".new"). intros H.
  destruct (negb (readNewOk mc)); [injection H as <- <-; exists []; by split|].
  set (stale := if staleOk mc then [FRemove tmp] else []) in H.
  assert (S : forall p, tmp <> p -> Forall (avoids p) stale) by (intros p N; unfold stale; destruct (staleOk mc); by repeat constructor).
  destruct (negb (openNewOk mc)); [injection H as <- <-; by exists stale|].
  set (w := match written mc with Some k => take k data | None => data end) in H.
  assert (W : forall p, tmp <> p -> Forall (avoids p) (stale ++ FCreate tmp :: map (FAppend tmp) w)).
  { intros p N. apply Forall_app. split; [by apply S|]. constructor; [done|]. apply Forall_forall. intros o (b & -> & _)%list_elem_of_fmap. done. }
  destruct (bool_decide (is_Some (written mc))) eqn:X; cbn in H.
  - injection H as <- <-. eexists. split; [|reflexivity]. intros p N. apply Forall_app. split; [by apply W|]. destruct (removeNewOk mc); by repeat constructor.
  - apply bool_decide_eq_false in X. destruct (_ || _); injection H as <- <-; eexists; (split; [|done || (split; [done|])]).
    + intros p N. apply Forall_app. split; [by apply W|]. destruct (removeNewOk mc); by repeat constructor.
    + exact W.
    + intros d. rewrite apply_fops_app. cbn. unfold w. destruct (written mc); [by destruct X|].
      fold (apply_fops (<[tmp := []]> (apply_fops d stale)) (map (FAppend tmp) data)). by rewrite (apply_fop_appends _ _ _ []) by apply lookup_insert_eq.
Qed.

(** Nothing but the old binary, the new one or none is at the path, and the old one is
    there or aside. *)
Definition safe_state (path backup old new : bytes) (d : gmap bytes bytes) : Prop :=
  (d !! path = Some old \/ d !! path = None \/ d !! path = Some new) /\ (d !! path = Some old \/ d !! backup = Some old).
Lemma exchange bin path backup old d ops ok :
  installBinary bin path = (ops, ok) -> path <> backup -> path ++ str ".new" <> backup -> d !! path = Some old ->
  always (safe_state path backup old bin) d (FRename path backup :: ops)
  /\ apply_fops d (FRename path backup :: ops) !! path = (if ok then Some bin else None)
  /\ apply_fops d (FRename path backup :: ops) !! backup = Some old.
Proof.
  intros I N1 N2 L. assert (N3 : path ++ str ".new" <> path) by (by apply path_ext_ne).
  destruct (install_shape _ _ _ _ I) as (pre & Av & S).
  set (d1 := apply_fop d (FRename path backup)).
  assert (P1 : d1 !! path = None) by (unfold d1; cbn; rewrite L, lookup_insert_ne by done; apply lookup_delete_eq).
  assert (B1 : d1 !! backup = Some old) by (unfold d1; cbn; rewrite L; apply lookup_insert_eq).
  assert (A1 : always (safe_state path backup old bin) d1 pre).
  { apply (always_avoid _ path backup); [by apply Av|by apply Av|]. intros d' E1 E2. unfold safe_state. rewrite E1, E2, P1, B1. auto. }
  assert (Pp : apply_fops d1 pre !! path = None) by (rewrite apply_avoids; [done|by apply Av]).
  assert (Bp : apply_fops d1 pre !! backup = Some old) by (rewrite apply_avoids; [done|by apply Av]).
  assert (H0 : safe_state path backup old bin d) by (unfold safe_state; auto).
  cbn [apply_fops fold_left]. fold d1. fold (apply_fops d1 ops). destruct ok; [destruct S as [-> W]|subst ops].
  - set (d2 := apply_fops d1 pre) in *.
    assert (F : apply_fops d1 (pre ++ [FRename (path ++ str ".new") path]) = <[path := bin]> (delete (path ++ str ".new") d2)).
    { rewrite apply_fops_app. fold d2. cbn. unfold d2. by rewrite W. }
    rewrite F. split_and!; [|apply lookup_insert_eq|by rewrite lookup_insert_ne, lookup_delete_ne by done].
    apply always_cons; [done|]. fold d1. apply always_app; [done|]. fold d2. apply always_cons; [unfold safe_state; rewrite Pp, Bp; auto|].
    intros k. rewrite take_nil. cbn. unfold d2 at 1. rewrite W. unfold safe_state. fold d2.
    rewrite lookup_insert_eq, lookup_insert_ne, lookup_delete_ne by done. auto.
  - split_and!; [by apply always_cons|done|done].
Qed.

Lemma execute_cases current allow target binPath n :
  let version := TrimPrefix (str "v") target in
  exists n' r ops, Execute current allow target binPath n = (n', inl (r, ops))
    /\ (r = Unchanged /\ ops = [] /\ version = current \/ r = Failed_ /\ ops = []
        \/ exists bin, release_binary (negb allow) version bin /\ (r, ops) = swap bin binPath (binPath ++ str ".backup")).
Proof.
  intros version. unfold Execute. fold version. destruct (bytes_eqb version current) eqn:C.
  - apply bytes_eqb_eq in C. eexists _, _, _. split; [reflexivity|]. by left.
  - unfold on_err, bind. destruct (prepare allow version n) as [n1 [bin|e]] eqn:P.
    + apply prepare_release in P. destruct (backupOk mc).
      * destruct (swap bin binPath (binPath ++ str ".backup")) as [r ops] eqn:S. exists n1, r, ops. split; [done|]. right. right. exists bin. by rewrite S.
      * eexists _, _, _. split; [reflexivity|]. right. by left.
    + eexists _, _, _. split; [reflexivity|]. right. by left.
Qed.
(** All that the exchange of the binary can come to. *)
Lemma swap_outcome bin path d old :
  d !! path = Some old ->
  let backup := path ++ str ".backup" in
  let '(r, ops) := swap bin path backup in
  always (safe_state path backup old bin) d ops
  /\ match r with
     | Upgraded => apply_fops d ops !! path = Some bin /\ apply_fops d ops !! backup = Some old
     | RolledBack => apply_fops d ops !! path = Some old
     | RollbackFailed => apply_fops d ops !! path = None /\ apply_fops d ops !! backup = Some old
     | _ => False
     end.
Proof.
  intros L backup. assert (N1 : path <> backup) by (intros H; by apply (path_ext_ne path (str ".backup"))).
  assert (N2 : path ++ str ".new" <> backup) by (intros H; by apply app_inv_head in H).
  unfold swap. destruct (installBinary bin path) as [ops ok] eqn:I. destruct (exchange bin path backup old d ops ok I N1 N2 L) as (A & Pp & Bp).
  destruct ok; [done|]. destruct (rollbackOk mc); [|done].
  change (FRename path backup :: ops ++ [FRename backup path]) with ((FRename path backup :: ops) ++ [FRename backup path]).
  set (d2 := apply_fops d (FRename path backup :: ops)) in *.
  assert (F : apply_fops d ((FRename path backup :: ops) ++ [FRename backup path]) !! path = Some old).
  { rewrite apply_fops_app. fold d2. cbn [apply_fops fold_left apply_fop]. rewrite Bp. apply lookup_insert_eq. }
  split; [|done]. apply always_app; [done|]. fold d2. apply always_cons; [unfold safe_state; rewrite Pp, Bp; auto|].
  intros k. rewrite take_nil. unfold safe_state. cbn [apply_fops fold_left apply_fop]. rewrite Bp, lookup_insert_eq. auto.
Qed.

Lemma aside_ne path e : e <> [] -> str ".new" <> e -> path <> path ++ e /\ path ++ str ".new" <> path ++ e.
Proof. intros N1 N2. split; [intros H; by apply (path_ext_ne path e)|by intros H%app_inv_head]. Qed.
Lemma swap_desktop asset path version now d old r ops :
  let marker := desktopVersionMarkerPath (Dir path) in let asides := [path ++ str ".old"; path ++ str ".old." ++ Itoa now] in
  d !! path = Some old -> marker ∉ path :: asides -> swapDesktop asset path version now = (r, ops) ->
  always (fun d' => (d' !! path = Some old \/ d' !! path = None \/ d' !! path = Some asset) /\ exists p, p ∈ path :: asides /\ d' !! p = Some old) d ops
  /\ match r with
     | DError _ | DRolledBack => apply_fops d ops !! path = Some old
     | DApplied => apply_fops d ops !! path = Some asset /\ (markerOk mc = true -> apply_fops d ops !! marker = Some (marker_text version))
     | DRollbackFailed => apply_fops d ops !! path = None
     | DSkipped => False
     end.
Proof.
  intros marker asides L M S. set (Q := fun d' : gmap bytes bytes => _).
  (* clearing a stale backup *)
  set (stale := if removeOldOk mc then [FRemove (path ++ str ".old")] else []).
  assert (S1 : Forall (avoids path) stale) by (unfold stale; destruct (removeOldOk mc); repeat constructor; cbn; by apply path_ext_ne).
  assert (S2 : apply_fops d stale !! path = Some old) by (by rewrite apply_avoids).
  assert (S3 : always Q d stale).
  { apply (always_avoid _ path path); try done. intros d' E _. split; [left; congruence|exists path; split; [by left|congruence]]. }
  assert (W : forall backup b d', backup ∈ asides -> b = asset -> safe_state path backup old b d' -> Q d').
  { intros backup b d' Hb -> [H1 [H2|H2]]; (split; [done|]); [exists path; split; [by left|done]|exists backup; split; [by right|done]]. }
  unfold swapDesktop in S. destruct (parkOldBinary path now) as [park [backup|]] eqn:Pk.
  2:{ unfold parkOldBinary in Pk. fold stale in Pk. destruct (parkOk mc); [done|]. destruct (backupOk mc); [done|]. by simplify_eq. }
  assert (Pk' : park = stale ++ [FRename path backup] /\ backup ∈ asides /\ path <> backup /\ path ++ str ".new" <> backup).
  { unfold parkOldBinary in Pk. fold stale in Pk. destruct (parkOk mc); [|destruct (backupOk mc); [|done]]; injection Pk as <- <-; (split; [done|]).
    - split; [by left|by apply aside_ne].
    - split; [right; by left|by apply aside_ne]. }
  destruct Pk' as (-> & Ha & N1 & N2). destruct (installBinary asset path) as [iops ok] eqn:I. clear Pk.
  destruct (exchange asset path backup old (apply_fops d stale) iops ok I N1 N2 S2) as (A & Pp & Bp).
  set (mid := FRename path backup :: iops) in *.
  assert (Am : always Q d (stale ++ mid)) by (apply always_app; [done|]; intros k; by apply (W backup asset), A).
  rewrite <- apply_fops_app in Pp, Bp.
  assert (Eq : forall tail, (stale ++ [FRename path backup]) ++ iops ++ tail = (stale ++ mid) ++ tail) by (intros tail; unfold mid; by rewrite <- !app_assoc).
  destruct ok; [|destruct (rollbackOk mc)]; simplify_eq S; intros <- <-.
  - rewrite Eq. set (tail := if markerOk mc then _ else _).
    assert (Tp : forall p, p <> marker -> Forall (avoids p) tail) by (intros p Np; unfold tail; destruct (markerOk mc); by repeat constructor).
    assert (Np : path <> marker) by (intros H; apply M; rewrite <- H; by left).
    assert (Nb : backup <> marker) by (intros H; apply M; rewrite <- H; by right).
    split.
    + apply always_app; [done|]. apply (always_avoid _ path backup); [by apply Tp|by apply Tp|]. intros d' E1 E2.
      apply (W backup asset); [done|done|]. unfold safe_state. rewrite E1, E2, Pp, Bp. auto.
    + rewrite apply_fops_app, apply_avoids by (by apply Tp). split; [done|]. intros Mk. unfold tail. rewrite Mk. apply lookup_insert_eq.
  - rewrite Eq. assert (F : apply_fops d ((stale ++ mid) ++ [FRename backup path]) !! path = Some old).
    { rewrite apply_fops_app. cbn [apply_fops fold_left apply_fop]. rewrite Bp. apply lookup_insert_eq. }
    split; [|done]. apply always_app; [done|]. apply always_cons; [apply (W backup asset); [done|done|]; unfold safe_state; rewrite Pp, Bp; auto|].
    intros k. rewrite take_nil. change (Q (apply_fops (apply_fops d (stale ++ mid)) [FRename backup path])). rewrite <- apply_fops_app.
    split; [by left|exists path; split; [by left|done]].
  - specialize (Eq []). rewrite !app_nil_r in Eq. rewrite Eq. done.
Qed.

(** ** The marker *)

(** A version as releases have it. *)
Definition plain_version (v : bytes) : Prop := v <> [] /\ (length v <= 64)%nat /\ Forall (fun c => 33 <= c <= 126) v /\ head v <> Some 118.
Lemma strip_one_none runes c s : Forall (fun r => match r with [] => False | x :: _ => x <> c end) runes -> strip_one runes (c :: s) = None.
Proof.
  induction 1 as [|r rs H _ IH]; [done|]. cbn [strip_one]. destruct r as [|x r]; [done|]. cbn. rewrite (proj2 (Z.eqb_neq x c)) by done. exact IH.
Qed.
Lemma space_heads c : 33 <= c <= 126 ->
  Forall (fun r : bytes => match r with [] => False | x :: _ => x <> c end) space_runes
  /\ Forall (fun r : bytes => match r with [] => False | x :: _ => x <> c end) (map (@rev Z) space_runes).
Proof. intros H. split; cbn; repeat (constructor; [lia|]); constructor. Qed.
Lemma trim_front_none fuel runes c s : Forall (fun r => match r with [] => False | x :: _ => x <> c end) runes -> trim_front fuel runes (c :: s) = c :: s.
Proof. intros H. destruct fuel; [done|]. cbn [trim_front]. by rewrite strip_one_none. Qed.
Lemma TrimSpace_plain v : Forall (fun c => 33 <= c <= 126) v -> TrimSpace v = v.
Proof.
  intros F. destruct v as [|c v]; [done|]. unfold TrimSpace. apply Forall_cons in F as [Fc F].
  rewrite trim_front_none by (by apply space_heads).
  destruct (rev (c :: v)) as [|x r] eqn:R; [by apply (f_equal length) in R; rewrite length_rev in R|].
  assert (Fx : 33 <= x <= 126).
  { assert (A : Forall (fun c => 33 <= c <= 126) (x :: r)) by (rewrite <- R; apply Forall_rev; by constructor). by apply Forall_cons in A as [? _]. }
  rewrite trim_front_none by (by apply space_heads). rewrite <- R. apply rev_involutive.
Qed.
Lemma TrimPrefix_plain v : head v <> Some 118 -> TrimPrefix (str "v") v = v.
Proof.
  unfold TrimPrefix. change (str "v") with [118]. destruct v as [|c v]; [done|]. cbn [cut_prefix]. intros H. destruct (Z.eqb_spec 118 c) as [<- |N]; done.
Qed.
Lemma marker_roundtrip v : plain_version v -> InstalledDesktopVersion (Some (marker_text v)) = Some v.
Proof.
  intros (N & Len & F & H). unfold InstalledDesktopVersion, marker_text. rewrite TrimPrefix_plain, TrimSpace_plain, TrimPrefix_plain by done.
  assert (X : existsb (fun c => (c =? SP) || (c =? TAB) || (c =? CR) || (c =? LF)) v = false).
  { clear -F. induction F as [|c v Hc _ IH]; [done|]. cbn. rewrite IH. unfold SP, TAB, CR, LF. lia. }
  rewrite X. destruct v as [|c v]; [done|]. cbn [bytes_eqb orb]. replace (64 <? _) with false by lia. done.
Qed.

(** ** The newest version *)

Definition version_of (t : bytes) : bytes := TrimPrefix (str "v") (TrimSpace t).
Lemma versionLess_irrefl a : versionLess a a = false.
Proof. unfold versionLess. destruct (splitVersion a) as [[x y] z]. rewrite !Z.eqb_refl. cbn. lia. Qed.
Lemma versionLess_weak a b c : versionLess a b = false -> versionLess b c = false -> versionLess a c = false.
Proof.
  unfold versionLess. destruct (splitVersion a) as [[a0 a1] a2], (splitVersion b) as [[b0 b1] b2], (splitVersion c) as [[c0 c1] c2].
  destruct (a0 =? b0) eqn:E1, (a1 =? b1) eqn:E2, (b0 =? c0) eqn:E3, (b1 =? c1) eqn:E4, (a0 =? c0) eqn:E5, (a1 =? c1) eqn:E6; cbn; lia.
Qed.
Lemma pick_loop tags : forall best,
  let r := fold_left pick_step tags best in
  (r = [] <-> best = [] /\ Forall (fun t => version_of t = []) tags)
  /\ (r = best \/ exists t, t ∈ tags /\ r = version_of t)
  /\ (best <> [] -> versionLess r best = false)
  /\ Forall (fun t => version_of t <> [] -> versionLess r (version_of t) = false) tags.
Proof.
  induction tags as [|t tags IH]; intros best; cbn; [split_and!; try done; [naive_solver|by left|intros _; apply versionLess_irrefl]|].
  destruct (IH (pick_step best t)) as (I1 & I2 & I3 & I4). set (r := fold_left pick_step tags (pick_step best t)) in *.
  assert (S : (version_of t = [] /\ pick_step best t = best) \/ (version_of t <> [] /\ pick_step best t <> []
     /\ (pick_step best t = best \/ pick_step best t = version_of t) /\ (best <> [] -> versionLess (pick_step best t) best = false) /\ versionLess (pick_step best t) (version_of t) = false)).
  { unfold pick_step. fold (version_of t). destruct (version_of t) as [|c v] eqn:V; [by left|right]. destruct best as [|b best]; cbn [bytes_eqb orb].
    - split_and!; try done; [by right|apply versionLess_irrefl].
    - destruct (versionLess (b :: best) (c :: v)) eqn:E; split_and!; try done; auto using versionLess_irrefl.
      intros _. clear -E. unfold versionLess in *. destruct (splitVersion (b :: best)) as [[? ?] ?], (splitVersion (c :: v)) as [[? ?] ?].
      repeat match goal with H : context [?a =? ?b] |- _ => destruct (Z.eqb_spec a b) | |- context [?a =? ?b] => destruct (Z.eqb_spec a b) end; cbn in *; lia. }
  destruct S as [[V S]|(V & S1 & S2 & S3 & S4)].
  - rewrite S in *. split_and!; [rewrite I1, Forall_cons; naive_solver| |done|].
    + destruct I2 as [?|(t' & ? & ?)]; [by left|right; exists t'; split; [by right|done]].
    + constructor; [by rewrite V|done].
  - specialize (I3 S1). split_and!.
    + rewrite Forall_cons. split; [intros R; by apply I1 in R as [? _]|naive_solver].
    + destruct I2 as [Ir|(t' & ? & ?)]; [|right; exists t'; split; [by right|done]]. rewrite Ir. destruct S2 as [?|?]; [by left|right; exists t; split; [by left|done]].
    + intros Hb. eapply versionLess_weak; [exact I3|by apply S3].
    + constructor; [|done]. intros _. eapply versionLess_weak; [exact I3|exact S4].
Qed.

(** * Claims *)

(** C24: An update installs nothing that is not vouched for.  Whatever the servers answer, from request to request, and
    wherever the update stops or crashes: what is at the path of the binary is the binary that was there, or the one taken
    from an archive whose SHA-256 stands, under the name of this platform's archive of the asked version, in a manifest
    that carries a valid ed25519 signature by the compiled-in key (the signature only unless the user waived it), and that
    names the version when run. *)
Theorem upgrade_authentic current allow target binPath old d n n' r ops :
  d !! binPath = Some old -> Execute current allow target binPath n = (n', inl (r, ops)) ->
  always (fun d' => forall b, d' !! binPath = Some b -> b = old \/ release_binary (negb allow) (TrimPrefix (str "v") target) b) d ops.
Proof.
  intros L E. destruct (execute_cases current allow target binPath n) as (n1 & r1 & ops1 & E1 & C). rewrite E1 in E. injection E as <- <- <-.
  destruct C as [(_ & -> & _)|[(_ & ->)|(bin & R & S)]].
  1,2: intros k b; rewrite take_nil; cbn; rewrite L; intros [= ->]; by left.
  pose proof (swap_outcome bin binPath d old L) as O. cbv zeta in O. rewrite <- S in O. destruct O as [A _].
  intros k b Hb. destruct (A k) as [[H|[H|H]] _]; rewrite H in Hb; simplify_eq; auto.
Qed.

(** C25: An update never loses the binary that works.  It always comes to an end and reports how.  After every file operation
    the old binary is at its path or whole in the backup beside it; a reported failure other than a failed rollback leaves
    it at its path, and a success leaves the new one there and the old one in the backup. *)
Theorem upgrade_recoverable current allow target binPath old d n :
  d !! binPath = Some old ->
  exists n' r ops, Execute current allow target binPath n = (n', inl (r, ops))
    /\ always (fun d' => d' !! binPath = Some old \/ d' !! (binPath ++ str ".backup") = Some old) d ops
    /\ let d' := apply_fops d ops in
       match r with
       | Unchanged | Failed_ | RolledBack => d' !! binPath = Some old
       | Upgraded => (exists b, d' !! binPath = Some b /\ release_binary (negb allow) (TrimPrefix (str "v") target) b) /\ d' !! (binPath ++ str ".backup") = Some old
       | RollbackFailed => d' !! (binPath ++ str ".backup") = Some old
       end.
Proof.
  intros L. destruct (execute_cases current allow target binPath n) as (n1 & r & ops & E & C). exists n1, r, ops. split; [done|].
  destruct C as [(-> & -> & _)|[(-> & ->)|(bin & R & S)]].
  1,2: split; [intros k; rewrite take_nil; by left|done].
  pose proof (swap_outcome bin binPath d old L) as O. cbv zeta in O. rewrite <- S in O. destruct O as [A F]. split.
  - intros k. by destruct (A k).
  - destruct r; try done; [destruct F; split; [by exists bin|done]|by destruct F].
Qed.

(** The newest release is the newest.  Of the tags a server lists, in whatever order, the version taken is one of them,
    and at least as new as every other one by major, minor and patch; nothing is taken only when no tag has a version. *)
Lemma newest_release_picked tags :
  (pickLatestVersion tags = [] <-> Forall (fun t => version_of t = []) tags)
  /\ (pickLatestVersion tags = [] \/ exists t, t ∈ tags /\ pickLatestVersion tags = version_of t)
  /\ Forall (fun t => version_of t <> [] ->
       let '(a0, a1, a2) := splitVersion (pickLatestVersion tags) in let '(b0, b1, b2) := splitVersion (version_of t) in
       b0 < a0 \/ b0 = a0 /\ (b1 < a1 \/ b1 = a1 /\ b2 <= a2)) tags.
Proof.
  destruct (pick_loop tags []) as (I1 & I2 & _ & I4). fold (pickLatestVersion tags) in *. split_and!; [naive_solver|done|].
  eapply Forall_impl; [exact I4|]. intros t H V. specialize (H V). unfold versionLess in H.
  destruct (splitVersion (pickLatestVersion tags)) as [[a0 a1] a2], (splitVersion (version_of t)) as [[b0 b1] b2].
  destruct (Z.eqb_spec a0 b0), (Z.eqb_spec a1 b1); cbn in H; lia.
Qed.

(** The desktop companion is updated safely and once.  The update always ends; at every point the binary at its path is
    the old one, none, or one whose SHA-256 stands in a manifest signed by the compiled-in key, without exception; the old
    one is at its path or aside; an error or a rollback leaves it at its path.  After a success that could be recorded,
    the same update again downloads and changes nothing. *)
Lemma desktop_update d targetPath version0 now old n :
  let version := TrimPrefix (str "v") version0 in let marker := desktopVersionMarkerPath (Dir targetPath) in
  let asides := [targetPath ++ str ".old"; targetPath ++ str ".old." ++ Itoa now] in
  d !! targetPath = Some old -> marker ∉ targetPath :: asides ->
  exists n' r ops, UpdateDesktopBinary d targetPath version0 now n = (n', inl (r, ops))
    /\ always (fun d' => (forall b, d' !! targetPath = Some b -> b = old \/ vouched true (desktopAssetName version) b)
                         /\ exists p, p ∈ targetPath :: asides /\ d' !! p = Some old) d ops
    /\ let d' := apply_fops d ops in
       match r with
       | DSkipped | DError _ | DRolledBack => d' !! targetPath = Some old
       | DApplied => (exists b, d' !! targetPath = Some b /\ vouched true (desktopAssetName version) b)
                     /\ (markerOk mc = true -> plain_version version -> forall now' m, UpdateDesktopBinary d' targetPath version0 now' m = (m, inl (DSkipped, [])))
       | DRollbackFailed => d' !! targetPath = None
       end.
Proof.
  intros version marker asides L M. unfold UpdateDesktopBinary. fold version marker.
  assert (Q : forall b, d !! targetPath = Some b -> b = old \/ vouched true (desktopAssetName version) b) by (intros b; rewrite L; intros [= ->]; by left).
  assert (Q2 : exists p, p ∈ targetPath :: asides /\ d !! p = Some old) by (exists targetPath; split; [by left|done]).
  assert (Nil : always (fun d' => (forall b, d' !! targetPath = Some b -> b = old \/ vouched true (desktopAssetName version) b)
                         /\ exists p, p ∈ targetPath :: asides /\ d' !! p = Some old) d []) by (intros k; rewrite take_nil; done).
  case_bool_decide as I; [by exists n, DSkipped, []|].
  unfold on_err, bind at 1. destruct (prepareDesktop version n) as [n1 [asset|e]] eqn:P; [|by exists n1, (DError e), []].
  apply prepare_desktop in P as [V _].
  destruct (swapDesktop asset targetPath version now) as [r ops] eqn:S. exists n1, r, ops. split; [done|].
  destruct (swap_desktop asset targetPath version now d old r ops L M S) as [A F]. split.
  - intros k. destruct (A k) as (A1 & p & A2 & A3). split; [|by exists p]. intros b Hb. destruct A1 as [H|[H|H]]; rewrite H in Hb; simplify_eq; auto.
  - destruct r; try done. destruct F as [F1 F2]. split; [by exists asset|]. intros Mk Pv now' m. fold marker.
    specialize (F2 Mk). fold marker in F2. rewrite F2. rewrite marker_roundtrip by done. by rewrite bool_decide_eq_true_2.
Qed.
End Verify.

(** * A release *)

Definition demo_machine (rename rollback : bool) : machine :=
  mkMachine (fun _ => true) (fun _ => true) (fun _ => false) true false true true true true true true rollback true true true true true None true true true rename true.
Definition demo_archive : bytes := str "ELF2".
Definition demo_manifest : bytes := hex_string demo_archive ++ str "  unarr_2.0.1_linux_amd64.tar.gz" ++ [LF].
Definition demo_sig : bytes := replicate 86 65 ++ str "==" ++ [LF].
Definition demo_net (_ : nat) (url : bytes) : reply :=
  if bytes_eqb url (releaseURL (str "u") (str "2.0.1") (str "unarr_2.0.1_linux_amd64.tar.gz")) then Reply 200 demo_archive true
  else if bytes_eqb url (releaseURL (str "u") (str "2.0.1") (str "checksums.txt")) then Reply 200 demo_manifest true
  else if bytes_eqb url (releaseURL (str "u") (str "2.0.1") (str "checksums.txt.sig")) then Reply 200 demo_sig true
  else if bytes_eqb url (str "u/version") then Reply 200 (str "v2.0.1") true
  else Reply 404 [] true.
Definition demo_verify (_ content sig : bytes) : bool := bytes_eqb content demo_manifest && bytes_eqb sig (replicate 64 0).
Definition demo_untar (b : bytes) : option (list member * bool) := Some ([mkMember (str "doc/unarr") false true [] true; mkMember (str "bin/unarr") true true b true], true).
Definition demo_output (bin arg : bytes) : option bytes := if bytes_eqb bin demo_archive then Some (str "unarr 2.0.1 (linux)") else None.
Definition demo_disk : gmap bytes bytes := {[str "/b/unarr" := str "ELF1"]}.
Definition demo_execute (mc : machine) (current target : bytes) : nat * (result * list fop + uerr) :=
  Execute (fun b => b) demo_verify demo_net (str "linux") (str "amd64") (str "u") [] mc demo_untar (fun _ => None) (fun p => p) demo_output current false target (str "/b/unarr") 0%nat.
Definition demo_ops : list fop :=
  [FRename (str "/b/unarr") (str "/b/unarr.backup"); FRemove (str "/b/unarr.new"); FCreate (str "/b/unarr.new")]
  ++ map (FAppend (str "/b/unarr.new")) demo_archive ++ [FRename (str "/b/unarr.new") (str "/b/unarr")].
Lemma demo_upgrade : demo_execute (demo_machine true true) (str "1.9.0") (str "v2.0.1") = (3%nat, inl (Upgraded, demo_ops)).
Proof. by vm_compute. Qed.
Lemma demo_disk_old : demo_disk !! str "/b/unarr" = Some (str "ELF1").
Proof. by vm_compute. Qed.
Lemma demo_installed : apply_fops demo_disk (take (length demo_ops) demo_ops) !! str "/b/unarr" = Some demo_archive.
Proof. by vm_compute. Qed.
Lemma upgrade_authentic_witness :
  demo_archive = str "ELF1"
  \/ release_binary (fun b => b) demo_verify (str "linux") (str "amd64") (demo_machine true true) demo_untar (fun _ => None) (fun p => p) demo_output true
       (TrimPrefix (str "v") (str "v2.0.1")) demo_archive.
Proof. exact (upgrade_authentic _ _ _ _ _ _ _ _ _ _ _ _ _ _ _ _ _ _ _ _ _ _ demo_disk_old demo_upgrade (length demo_ops) demo_archive demo_installed). Defined.
Lemma upgrade_recoverable_witness : exists n' r ops, demo_execute (demo_machine false false) (str "1.9.0") (str "v2.0.1") = (n', inl (r, ops)).
Proof.
  destruct (upgrade_recoverable (fun b => b) demo_verify demo_net (str "linux") (str "amd64") (str "u") [] (demo_machine false false) demo_untar (fun _ => None) (fun p => p) demo_output
    (str "1.9.0") false (str "v2.0.1") (str "/b/unarr") (str "ELF1") demo_disk 0%nat demo_disk_old) as (n' & r & ops & E & _).
  exact (ex_intro _ n' (ex_intro _ r (ex_intro _ ops E))).
Defined.
(** A tampered archive is refused. *)
Lemma demo_tampered :
  Execute (fun b => b) demo_verify (fun n url => match demo_net n url with Reply s b c => if bytes_eqb b demo_archive then Reply s (str "EVIL") c else Reply s b c | r => r end)
    (str "linux") (str "amd64") (str "u") [] (demo_machine true true) demo_untar (fun _ => None) (fun p => p) (fun _ _ => Some (str "2.0.1")) (str "1.9.0") true (str "2.0.1") (str "/b/unarr") 0%nat
  = (3%nat, inl (Failed_, [])).
Proof. by vm_compute. Qed.
Definition demo_desktop_disk : gmap bytes bytes := {[str "/b/unarr-desktop" := str "TRAY1"]}.
Lemma demo_desktop_old : demo_desktop_disk !! str "/b/unarr-desktop" = Some (str "TRAY1").
Proof. by vm_compute. Qed.
Lemma demo_marker : desktopVersionMarkerPath (Dir (str "/b/unarr-desktop")) ∉
  str "/b/unarr-desktop" :: [str "/b/unarr-desktop" ++ str ".old"; str "/b/unarr-desktop" ++ str ".old." ++ Itoa 7].
Proof. apply (bool_decide_unpack _). by vm_compute. Qed.
Lemma desktop_update_witness :
  exists n' r ops, UpdateDesktopBinary (fun b => b) demo_verify demo_net (str "linux") (str "amd64") (str "u") [] (demo_machine true true) demo_output
    demo_desktop_disk (str "/b/unarr-desktop") (str "v2.0.1") 7 0%nat = (n', inl (r, ops)).
Proof.
  destruct (desktop_update (fun b => b) demo_verify demo_net (str "linux") (str "amd64") (str "u") [] (demo_machine true true) demo_output
    demo_desktop_disk (str "/b/unarr-desktop") (str "v2.0.1") 7 (str "TRAY1") 0%nat demo_desktop_old demo_marker) as (n' & r & ops & E & _).
  exact (ex_intro _ n' (ex_intro _ r (ex_intro _ ops E))).
Defined.

(** * Where the code and its intent part *)

(** The option to reinstall the version that is current does nothing and reports success. *)
Lemma forced_reinstall_does_nothing :
  runSelfUpdate (fun b => b) demo_verify demo_net (str "linux") (str "amd64") (str "u") [] (demo_machine true true) (fun _ => None) demo_untar (fun _ => None) (fun p => p) demo_output
    (str "v2.0.1") true false (str "/b/unarr") 0%nat = (1%nat, inl (Unchanged, [])).
Proof. by vm_compute. Qed.
(** The comment says 5 and 15 seconds. *)
Lemma retry_delays : retryDelay 1 = 5 /\ retryDelay 2 = 20.
Proof. done. Qed.
(** Between the backup and the last rename there is no binary at its path: a crash there leaves none. *)
Lemma crash_leaves_no_binary : apply_fops demo_disk (take 3 demo_ops) !! str "/b/unarr" = None.
Proof. by vm_compute. Qed.
