(* ===== verification/Torrent.v ===== *)
(** Torrent downloads: engine/torrent_selection.go, torrent_poll.go, torrent_metadata.go,
    season_pack.go (the choice of files) and torrent.go from Available to Shutdown.

    The BitTorrent library is the environment.  A torrent is its files, laid out in one
    stream of bytes that is cut into pieces; what the library knows at a moment is the
    list of runs of pieces in the same state (PieceStateRuns).  The poll loop consumes
    ticks, each with such a list and the health of the VPN tunnel. *)
From Stdlib Require Import ZArith Lia Ascii String SpecFloat.
From stdpp Require Import prelude list strings gmap.
From S2P Require Import Prelude GoStrings SafePath SeekIndex NzbPick Downloader ProcessTask.

Open Scope Z_scope.

(** * Files of a torrent *)

Record tfile := mkTFile { fPath : bytes; fOffset : Z; fLength : Z }.
#[global] Instance tfile_eq_dec : EqDecision tfile.
Proof. solve_decision. Defined.
Record torrentInfo := mkTorrent { tName : bytes; tLength : Z; pieceLength : Z; numPieces : nat; tFiles : list tfile }.
(** What the selection reads of a task. *)
Record torrentTask := mkTTask { isShow : bool; tSeason : option Z; tEpisode : option Z; hasHash : bool }.
Record selection := mkSelection { totalBytes : Z; fileName : bytes; selFiles : option (list tfile) }.

Definition ext_in (exts : list bytes) (p : bytes) : bool := existsb (bytes_eqb (ToLower (Ext p))) exts.
(** VideoExts of the engine, and the set of the library behind isVideoFile. *)
Definition VideoExts : list bytes :=
  map str [".mkv"; ".mp4"; ".avi"; ".m4v"; ".wmv"; ".ts"; ".webm"; ".mov"; ".mpg"; ".mpeg"; ".vob"; ".flv"]%string.
Definition libraryExts : list bytes :=
  map str [".mkv"; ".mp4"; ".avi"; ".m4v"; ".ts"; ".m2ts"; ".wmv"; ".mov"; ".webm"; ".flv"; ".mpg"; ".mpeg"; ".vob"]%string.
Definition isVideoFile (p : bytes) : bool := ext_in libraryExts p.
Definition subExts : list bytes := map str [".srt"; ".ass"; ".sub"; ".ssa"; ".vtt"]%string.

(** The matching of sampleRegex: ASCII without case, and the two other runes that fold
    to a letter of ASCII. *)
Fixpoint rx_fold (s : bytes) : bytes :=
  match s with
  | 197 :: 191 :: s' => 115 :: rx_fold s'
  | 226 :: 132 :: 170 :: s' => 107 :: rx_fold s'
  | b :: s' => fold_byte b :: rx_fold s'
  | [] => []
  end.
Definition alnum (c : Z) : bool := is_digit c || ((97 <=? c) && (c <=? 122)).
Fixpoint sample_word (boundary : bool) (s : bytes) : bool :=
  match s with
  | [] => false
  | c :: s' =>
      (boundary && match cut_prefix (str "sample") s with Some [] => true | Some (x :: _) => negb (alnum x) | None => false end)
      || sample_word (negb (alnum c)) s'
  end.
Definition isSamplePath (p : bytes) : bool := sample_word true (rx_fold p).

(** ** Selection *)

Section Select.
(** library.ParseSeasonEpisode: season and episode of a file name, 0 for none. *)
Context (ParseSeasonEpisode : bytes -> Z * Z).

Definition wantsWholePack (t : torrentTask) : bool :=
  match tEpisode t with Some _ => false | None => isShow t || bool_decide (is_Some (tSeason t)) end.
Definition taskSeason (t : torrentTask) : Z := default 0 (tSeason t).
Definition isEpisodeVideo (f : tfile) : bool := isVideoFile (fPath f) && negb (isSamplePath (fPath f)) && (minPlausibleVideoBytes <=? fLength f).
Definition fileSeason (p : bytes) : Z := fst (ParseSeasonEpisode (Base p)).
Definition inSeason (p : bytes) (season : Z) : bool :=
  let s := fileSeason p in (season <=? 0) || (s =? 0) || (s =? season).
(** The episodes and the season they were narrowed to. *)
Definition packEpisodes (files : list tfile) (wantSeason : Z) : option (list tfile * Z) :=
  let episodes := List.filter isEpisodeVideo files in
  let narrowTo := if (0 <? wantSeason) && existsb (fun f => fileSeason (fPath f) =? wantSeason) episodes then wantSeason else 0 in
  let kept := if 0 <? narrowTo then List.filter (fun f => inSeason (fPath f) narrowTo) episodes else episodes in
  if (length kept <? 2)%nat then None else Some (kept, narrowTo).
Definition packSubtitle (season : Z) (f : tfile) : bool := ext_in subExts (fPath f) && negb (isSamplePath (fPath f)) && inSeason (fPath f) season.
Definition selectPack (t : torrentInfo) (task : torrentTask) : option selection :=
  match packEpisodes (tFiles t) (taskSeason task) with
  | None => None
  | Some (episodes, season) =>
      let sel := episodes ++ List.filter (packSubtitle season) (tFiles t) in
      Some (mkSelection (zsum fLength sel) (tName t) (Some sel))
  end.
(** The first of the largest. *)
Definition largest (ok : tfile -> bool) (files : list tfile) : option tfile :=
  fold_left (fun best f => if ok f && match best with Some b => fLength b <? fLength f | None => true end then Some f else best) files None.
Definition largestVideo (files : list tfile) : option tfile := largest (fun f => ext_in VideoExts (fPath f)) files.
Definition matchesEpisode (want episode : Z) (f : tfile) : bool :=
  isVideoFile (fPath f) && negb (isSamplePath (fPath f))
  && let '(s, e) := ParseSeasonEpisode (Base (fPath f)) in (e =? episode) && negb ((0 <? want) && (0 <? s) && negb (s =? want)).
Definition pickEpisodeVideo (files : list tfile) (task : torrentTask) : option tfile :=
  match tEpisode task with Some e => largest (matchesEpisode (taskSeason task) e) files | None => None end.
(** strings.TrimSuffix(p, filepath.Ext(p)) *)
Definition strip_ext (p : bytes) : bytes := take (length p - length (Ext p)) p.
Definition matchingSub (video f : tfile) : bool :=
  ext_in subExts (fPath f) && (has_prefix (strip_ext (fPath video)) (strip_ext (fPath f)) || bytes_eqb (Dir (fPath f)) (Dir (fPath video))).
Definition everything (t : torrentInfo) : selection := mkSelection (tLength t) (tName t) None.
Definition selectFiles (t : torrentInfo) (task : torrentTask) : selection :=
  let single :=
    match (match pickEpisodeVideo (tFiles t) task with Some v => Some v | None => largestVideo (tFiles t) end) with
    | None => everything t
    | Some video =>
        let sel := video :: List.filter (matchingSub video) (tFiles t) in
        mkSelection (zsum fLength sel) (fPath video) (Some sel)
    end in
  if (length (tFiles t) <=? 1)%nat then everything t
  else if wantsWholePack task then match selectPack t task with Some sel => sel | None => single end
  else single.
End Select.

(** ** What is missing *)

Record run := mkRun { rLength : nat; rComplete : bool; rChecking : bool; rQueued : bool; rMarking : bool }.
Definition expand (runs : list run) : list bool := concat (map (fun r => replicate (rLength r) (rComplete r)) runs).
Definition verifiedPieceLookup (t : torrentInfo) (runs : list run) (idx : Z) : bool :=
  (0 <=? idx) && (idx <? Z.of_nat (numPieces t)) && default false (expand runs !! Z.to_nat idx).
Definition overlapBytes (aStart aEnd bStart bEnd : Z) : Z :=
  let lo := Z.max aStart bStart in let hi := Z.min aEnd bEnd in if hi <=? lo then 0 else hi - lo.
Fixpoint piece_loop (pl start end_ : Z) (pieceVerified : Z -> bool) (i : Z) (n : nat) : Z :=
  match n with
  | O => 0
  | S n' => (if pieceVerified i then 0 else overlapBytes start end_ (i * pl) (i * pl + pl)) + piece_loop pl start end_ pieceVerified (i + 1) n'
  end.
Definition missing_of (pl : Z) (pieceVerified : Z -> bool) (f : tfile) : Z :=
  if fLength f <=? 0 then 0
  else
    let start := fOffset f in let end_ := fOffset f + fLength f in
    let first := Z.quot start pl in let last := Z.quot (end_ - 1) pl in
    piece_loop pl start end_ pieceVerified first (Z.to_nat (last - first + 1)).
Definition missingSelectedBytes (pl : Z) (files : list tfile) (pieceVerified : Z -> bool) : Z :=
  if pl <=? 0 then 0 else zsum (missing_of pl pieceVerified) files.
Definition missingBytes (t : torrentInfo) (sel : selection) (runs : list run) : Z :=
  missingSelectedBytes (pieceLength t) (default (tFiles t) (selFiles sel)) (verifiedPieceLookup t runs).
Definition completedBytes (t : torrentInfo) (sel : selection) (runs : list run) : Z := totalBytes sel - missingBytes t sel runs.

(** * The download *)

(** Times in milliseconds. *)
Record torrentConfig := mkTConfig { VPNRequired : bool; StallTimeout : Z; MetadataTimeout : Z; MetadataStallAfter : Z; SeedRatio : float64; SeedTime : Z; SeedEnabled : bool }.
Definition vpnHealthCheckInterval : Z := 12000.
Definition tunnelHealthy (cfg : torrentConfig) (up : bool) : bool := negb (VPNRequired cfg) || up.
Inductive availability := Available_ | NoHash | ErrVPNRequired.
Definition Available (cfg : torrentConfig) (up : bool) (task : torrentTask) : availability :=
  if negb (hasHash task) then NoHash else if negb (tunnelHealthy cfg up) then ErrVPNRequired else Available_.
(** The verdict and the time of the last probe. *)
Definition vpnStillHealthy (cfg : torrentConfig) (last now : Z) (up : bool) : bool * Z :=
  if negb (VPNRequired cfg) then (true, last)
  else if now - last <? vpnHealthCheckInterval then (true, last) else (tunnelHealthy cfg up, now).

Record pollState := mkPoll { lastBytesAt : Z; lastBytes : Z; lastVPNCheckAt : Z; hashPending : Z }.
Definition piecesPendingHash (runs : list run) : Z := zsum (fun r => if rChecking r || rQueued r then Z.of_nat (rLength r) else 0) runs.
Definition hashingIsProgressing (st : pollState) (runs : list run) : bool * pollState :=
  let pending := piecesPendingHash runs in
  ((0 <? pending) && ((hashPending st =? 0) || (pending <? hashPending st)), mkPoll (lastBytesAt st) (lastBytes st) (lastVPNCheckAt st) pending).
Record tick := mkTick { tNow : Z; tRuns : list run; tUp : bool }.
Inductive pollErr := ErrVPNTunnelDown | Stalled | Cancelled | MaxTimeout.
Inductive tickResult := Continue (st : pollState) | TickDone | TickErr (e : pollErr).
Definition finish_tick (sel : selection) (downloaded : Z) (st : pollState) : tickResult :=
  if totalBytes sel <=? downloaded then TickDone else Continue st.
Definition progressTick (cfg : torrentConfig) (t : torrentInfo) (sel : selection) (st : pollState) (k : tick) : tickResult :=
  let downloaded := completedBytes t sel (tRuns k) in
  let '(healthy, last) := vpnStillHealthy cfg (lastVPNCheckAt st) (tNow k) (tUp k) in
  if negb healthy then TickErr ErrVPNTunnelDown
  else if lastBytes st <? downloaded then finish_tick sel downloaded (mkPoll (tNow k) downloaded last (hashPending st))
  else if (0 <? StallTimeout cfg) && (StallTimeout cfg <? tNow k - lastBytesAt st) then
    let '(progressing, st') := hashingIsProgressing (mkPoll (lastBytesAt st) (lastBytes st) last (hashPending st)) (tRuns k) in
    if progressing then finish_tick sel downloaded (mkPoll (tNow k) (lastBytes st') last (hashPending st'))
    else TickErr Stalled
  else finish_tick sel downloaded (mkPoll (lastBytesAt st) (lastBytes st) last (hashPending st)).
Inductive pollEvent := PTick (k : tick) | PCancel | PDeadline.
Inductive pollResult := Polling (st : pollState) | PollDone | PollErr (e : pollErr).
Definition poll_step (cfg : torrentConfig) (t : torrentInfo) (sel : selection) (r : pollResult) (e : pollEvent) : pollResult :=
  match r, e with
  | Polling st, PTick k => match progressTick cfg t sel st k with Continue st' => Polling st' | TickDone => PollDone | TickErr x => PollErr x end
  | Polling _, PCancel => PollErr Cancelled
  | Polling _, PDeadline => PollErr MaxTimeout
  | _, _ => r
  end.
Definition pollDownload (cfg : torrentConfig) (t : torrentInfo) (sel : selection) (start : Z) (evs : list pollEvent) : pollResult :=
  fold_left (poll_step cfg t sel) evs (Polling (mkPoll start 0 start 0)).

(** ** Metadata *)

Inductive metaEvent := GotInfo | StallTimer | TimeoutTimer | MetaCtxDone.
Inductive metaResult := Waiting | MetaOk | ErrMetadataTimeout | ErrMetadataCancelled.
Inductive slotOp := YieldSlot | ReclaimSlot.
Definition defaultMetadataStallAfter : Z := 600000.
Definition metadataStallAfter (cfg : torrentConfig) : Z := if MetadataStallAfter cfg =? 0 then defaultMetadataStallAfter else MetadataStallAfter cfg.
(** The result, and what it did to the task's slot; timers that are off do not fire. *)
Fixpoint awaitMetadata (cfg : torrentConfig) (stallOn yielded : bool) (evs : list metaEvent) : metaResult * list slotOp :=
  let back := if yielded then [ReclaimSlot] else [] in
  match evs with
  | [] => (Waiting, [])
  | GotInfo :: _ => (MetaOk, back)
  | StallTimer :: rest =>
      if stallOn then let '(r, ops) := awaitMetadata cfg false true rest in (r, YieldSlot :: ops) else awaitMetadata cfg stallOn yielded rest
  | TimeoutTimer :: rest => if 0 <? MetadataTimeout cfg then (ErrMetadataTimeout, back) else awaitMetadata cfg stallOn yielded rest
  | MetaCtxDone :: _ => (ErrMetadataCancelled, [])
  end.

(** ** The whole *)

Inductive torrentErr := TMetadata (r : metaResult) | TVerify | TNoSpace | TPoll (e : pollErr) | TTruncated | TPending.
(** A turn of the wait for pieces that are being marked: the clock, whether the task is
    cancelled, and the states of the pieces. *)
Record look := mkLook { lNow : Z; lCancelled : bool; lRuns : list run }.
Definition markingWait : Z := 5000.
(** The states that ended the wait when no piece was being marked in them, or that it was
    cut short, with a warning; [None]: still waiting when the turns end. *)
Fixpoint settle_loop (deadline : Z) (looks : list look) : option (option (list run)) :=
  match looks with
  | [] => None
  | k :: rest =>
      if (lNow k <? deadline) && negb (lCancelled k)
      then if existsb rMarking (lRuns k) then settle_loop deadline rest else Some (Some (lRuns k))
      else Some None
  end.
Definition waitPieceMarkingSettled (now : Z) (looks : list look) : option (option (list run)) := settle_loop (now + markingWait) looks.
(** What a download meets: while it waits for the metadata; [eLive] and [ePresent]: the
    handle was in use already, its data is on disk; the pieces claimed complete, whether
    re-hashing them came to an end, and the wait after it; the free space; the poll loop;
    the wait after it, and the states the verdict is read from. *)
Record environ := mkEnv {
  eMeta : list metaEvent; eLive : bool; ePresent : bool; eClaimed : list run; eVerifyOk : bool; eVerifiedAt : Z; eVerifyLooks : list look;
  eSpaceOk : bool; eStart : Z; ePoll : list pollEvent; eSettleAt : Z; eSettleLooks : list look; eVerdict : list run }.
Definition verifyInheritedPieces (e : environ) : option torrentErr :=
  if negb (existsb rComplete (eClaimed e)) then None
  else if negb (eVerifyOk e) then Some TVerify
  else match waitPieceMarkingSettled (eVerifiedAt e) (eVerifyLooks e) with None => Some TPending | Some _ => None end.
Definition Download (parse : bytes -> Z * Z) (cfg : torrentConfig) (t : torrentInfo) (task : torrentTask) (e : environ) : selection + torrentErr :=
  match fst (awaitMetadata cfg (0 <? metadataStallAfter cfg) false (eMeta e)) with
  | MetaOk =>
      match (if negb (eLive e) || negb (ePresent e) then verifyInheritedPieces e else None) with
      | Some err => inr err
      | None =>
          let sel := selectFiles parse t task in
          if negb (eSpaceOk e) then inr TNoSpace
          else match pollDownload cfg t sel (eStart e) (ePoll e) with
               | Polling _ => inr TPending
               | PollErr x => inr (TPoll x)
               | PollDone =>
                   match waitPieceMarkingSettled (eSettleAt e) (eSettleLooks e) with
                   | None => inr TPending
                   | Some _ => if 0 <? missingBytes t sel (eVerdict e) then inr TTruncated else inl sel
                   end
               end
      end
  | r => inr (TMetadata r)
  end.

(** ** Seeding, and the table of handles *)

Definition seedTargetReached (ratioTarget : float64) (timeTarget uploaded size elapsed : Z) : bool :=
  let ratio := if 0 <? size then f64_div (f64_of_Z uploaded) (f64_of_Z size) else f64_zero in
  (f64_ltb f64_zero ratioTarget && f64_leb ratioTarget ratio) || ((0 <? timeTarget) && (timeTarget <=? elapsed)).
Abbreviation handles := (gmap bytes nat).
(** The table, and the handles dropped. *)
Definition dropTracked (active : handles) (id : bytes) (h : nat) : handles * list nat :=
  (if bool_decide (active !! id = Some h) then delete id active else active, [h]).
Definition Pause (active : handles) (id : bytes) : handles * list nat :=
  match active !! id with Some h => (delete id active, [h]) | None => (active, []) end.
(** Cancel also removes what lies at the torrent's name below the data folder; [None]:
    nothing is removed. *)
Definition Cancel (evalSymlinks : bytes -> option bytes) (exists_ : bytes -> bool) (DataDir : bytes) (name : nat -> bytes) (active : handles) (id : bytes)
    : handles * list nat * option bytes :=
  match active !! id with
  | None => (active, [], None)
  | Some h =>
      (delete id active, [h],
       match name h with
       | [] => None
       | nm => match safePath evalSymlinks DataDir nm with Ok p => if exists_ p then Some p else None | Err _ => None end
       end)
  end.
Definition Shutdown (active : handles) : handles * list nat := (∅, map snd (map_to_list active)).
Inductive seedEvent := SeedCtxDone | SeedTick (active : handles) (up : bool) (uploaded elapsed : Z).
Inductive seedResult := Seeding | SeedLeft | SeedDropped.
Fixpoint seed_loop (cfg : torrentConfig) (id : bytes) (h : nat) (size : Z) (evs : list seedEvent) : seedResult :=
  match evs with
  | [] => Seeding
  | SeedCtxDone :: _ => SeedLeft
  | SeedTick active up uploaded elapsed :: rest =>
      if negb (bool_decide (active !! id = Some h)) then SeedLeft
      else if VPNRequired cfg && negb (tunnelHealthy cfg up) then SeedDropped
      else if seedTargetReached (SeedRatio cfg) (SeedTime cfg) uploaded size elapsed then SeedDropped
      else seed_loop cfg id h size rest
  end.
Definition seedAndDrop (cfg : torrentConfig) (id : bytes) (h : nat) (size : Z) (evs : list seedEvent) : seedResult :=
  if negb (f64_ltb f64_zero (SeedRatio cfg)) && (SeedTime cfg <=? 0) && negb (VPNRequired cfg) then SeedLeft else seed_loop cfg id h size evs.

(** * Lemmas *)

(** ** Counting bytes *)

(** The positions of an interval in pieces that are not verified, one by one. *)
Fixpoint count_missing (bad : Z -> bool) (a : Z) (n : nat) : Z :=
  match n with O => 0 | S n' => (if bad a then 1 else 0) + count_missing bad (a + 1) n' end.
Lemma count_app bad : forall n m a, count_missing bad a (n + m) = count_missing bad a n + count_missing bad (a + Z.of_nat n) m.
Proof.
  induction n as [|n IH]; intros m a; cbn [count_missing Nat.add]; [by replace (a + Z.of_nat 0) with a by lia|].
  rewrite IH. replace (a + 1 + Z.of_nat n) with (a + Z.of_nat (S n)) by lia. lia.
Qed.
Lemma count_const bad b : forall n a, (forall p, a <= p < a + Z.of_nat n -> bad p = b) -> count_missing bad a n = if b then Z.of_nat n else 0.
Proof.
  induction n as [|n IH]; intros a H; cbn [count_missing]; [by destruct b|]. rewrite (H a) by lia. rewrite (IH (a + 1)) by (intros; apply H; lia). destruct b; lia.
Qed.
Lemma count_bounds bad : forall n a, 0 <= count_missing bad a n <= Z.of_nat n.
Proof. induction n as [|n IH]; intros a; cbn [count_missing]; [lia|]. specialize (IH (a + 1)). destruct (bad a); lia. Qed.
Lemma count_zero bad : forall n a, count_missing bad a n = 0 <-> forall p, a <= p < a + Z.of_nat n -> bad p = false.
Proof.
  induction n as [|n IH]; intros a; cbn [count_missing]; [split; [lia|done]|]. pose proof (count_bounds bad n (a + 1)). split.
  - intros H0 p Hp. destruct (bad a) eqn:B; [lia|]. destruct (Z.eq_dec p a) as [-> |N]; [done|]. apply (proj1 (IH (a + 1))); lia.
  - intros H0. rewrite (H0 a) by lia. rewrite (proj2 (IH (a + 1))); [lia|]. intros p Hp. apply H0. lia.
Qed.

Section Pieces.
Context (pl : Z) (pos_pl : 0 < pl) (ver : Z -> bool).
Definition bad_at (p : Z) : bool := negb (ver (p / pl)).
Lemma piece_loop_count start end_ : forall n i, 0 <= start < end_ -> start / pl <= i -> i + Z.of_nat n = (end_ - 1) / pl + 1 ->
  piece_loop pl start end_ ver i n = count_missing bad_at (Z.max start (i * pl)) (Z.to_nat (end_ - Z.max start (i * pl))).
Proof.
  induction n as [|n IH]; intros i Hs Hi Hn; cbn [piece_loop].
  - replace (Z.to_nat _) with 0%nat; [done|]. assert (end_ <= i * pl); [|lia].
    pose proof (Z.mul_succ_div_gt (end_ - 1) pl pos_pl). nia.
  - rewrite (IH (i + 1)) by lia. set (a := Z.max start (i * pl)). set (m := Z.min end_ ((i + 1) * pl)).
    pose proof (Z.mul_succ_div_gt start pl pos_pl) as D1. pose proof (Z.mul_div_le start pl pos_pl) as D2.
    pose proof (Z.mul_div_le (end_ - 1) pl pos_pl) as D3.
    assert (Ha : a < m) by (unfold a, m; nia).
    assert (Hb : Z.max start ((i + 1) * pl) = Z.max m ((i + 1) * pl)) by (unfold m; nia).
    replace (Z.to_nat (end_ - a)) with (Z.to_nat (m - a) + Z.to_nat (end_ - m))%nat by (unfold m in *; lia). rewrite count_app.
    assert (C : count_missing bad_at a (Z.to_nat (m - a)) = if ver i then 0 else overlapBytes start end_ (i * pl) (i * pl + pl)).
    { rewrite (count_const _ (negb (ver i))).
      - destruct (ver i); cbn; [done|]. unfold overlapBytes. replace (i * pl + pl) with ((i + 1) * pl) by lia. fold a. fold m.
        replace (Z.max start (i * pl)) with a by done. replace (Z.min end_ ((i + 1) * pl)) with m by done. destruct (m <=? a) eqn:E; lia.
      - intros p Hp. unfold bad_at. assert (p / pl = i) as ->; [|done]. symmetry. apply (Z.div_unique p pl i (p - i * pl)); [unfold a, m in *; lia|lia]. }
    rewrite C. f_equal. replace (a + Z.of_nat (Z.to_nat (m - a))) with m by lia.
    destruct (Z_le_gt_dec end_ ((i + 1) * pl)) as [L|G].
    + replace (Z.to_nat (end_ - m)) with 0%nat by (unfold m; lia). replace (Z.to_nat (end_ - Z.max start ((i + 1) * pl))) with 0%nat by lia. done.
    + assert (Em : m = (i + 1) * pl) by (unfold m; lia). rewrite Hb, Em, Z.max_id. done.
Qed.
Lemma missing_of_count f : 0 <= fOffset f -> missing_of pl ver f = count_missing bad_at (fOffset f) (Z.to_nat (fLength f)).
Proof.
  intros Ho. unfold missing_of. destruct (fLength f <=? 0) eqn:L; [by replace (Z.to_nat (fLength f)) with 0%nat by lia|].
  rewrite !Z.quot_div_nonneg by lia. assert (fOffset f / pl <= (fOffset f + fLength f - 1) / pl) by (apply Z.div_le_mono; lia).
  rewrite piece_loop_count by lia. rewrite Z.max_l; [by replace (fOffset f + fLength f - fOffset f) with (fLength f) by lia|].
  pose proof (Z.mul_div_le (fOffset f) pl pos_pl). lia.
Qed.
End Pieces.

Lemma missing_nonneg pl ver files : 0 <= missingSelectedBytes pl files ver.
Proof.
  unfold missingSelectedBytes. destruct (pl <=? 0); [done|]. apply zsum_nonneg. intros f. unfold missing_of. destruct (_ <=? 0); [done|].
  set (n := Z.to_nat _). generalize (Z.quot (fOffset f) pl). induction n as [|n IH]; intros i; cbn [piece_loop]; [done|]. specialize (IH (i + 1)).
  destruct (ver i); [lia|]. unfold overlapBytes. destruct (_ <=? _) eqn:E; lia.
Qed.

(** ** The poll loop *)

Section Poll.
Context (cfg : torrentConfig) (t : torrentInfo) (sel : selection) (start : Z).
Lemma poll_ended evs : forall r, (forall st, r <> Polling st) -> fold_left (poll_step cfg t sel) evs r = r.
Proof. induction evs as [|e evs IH]; intros r H; [done|]. cbn. replace (poll_step cfg t sel r e) with r; [by apply IH|]. by destruct r as [st| |]; [destruct (H st)| |]. Qed.
(** A loop that goes on has gone on at every tick. *)
Lemma poll_snoc ks k st :
  pollDownload cfg t sel start (map PTick (ks ++ [k])) = Polling st ->
  exists st0, pollDownload cfg t sel start (map PTick ks) = Polling st0 /\ progressTick cfg t sel st0 k = Continue st.
Proof.
  unfold pollDownload. rewrite map_app, fold_left_app. cbn. set (r := fold_left _ (map PTick ks) _). destruct r as [st0| |]; cbn; [|done..].
  destruct (progressTick cfg t sel st0 k) as [st'| |] eqn:E; intros H; [|done..]. exists st0. split; [done|]. congruence.
Qed.
Lemma completed_le runs : completedBytes t sel runs <= totalBytes sel.
Proof. unfold completedBytes, missingBytes. pose proof (missing_nonneg (pieceLength t) (verifiedPieceLookup t runs) (default (tFiles t) (selFiles sel))). lia. Qed.

(** Ticks at most [g] apart. *)
Fixpoint ticking (g prev : Z) (ks : list tick) : Prop :=
  match ks with [] => True | k :: ks' => prev <= tNow k <= prev + g /\ ticking g (tNow k) ks' end.
Definition last_time (ks : list tick) : Z := match last ks with Some k => tNow k | None => start end.
Lemma ticking_snoc g ks k : forall p, ticking g p (ks ++ [k]) ->
  ticking g p ks /\ (match last ks with Some x => tNow x | None => p end) <= tNow k <= (match last ks with Some x => tNow x | None => p end) + g.
Proof.
  induction ks as [|x ks IH]; intros p H; cbn in *; [tauto|]. destruct H as [Hx H]. destruct (IH _ H) as [H1 H2]. split; [done|].
  destruct ks as [|y ks]; [exact H2|]. change (last (x :: y :: ks)) with (last (y :: ks)). destruct (last (y :: ks)) as [z|] eqn:L; [exact H2|by apply last_None in L].
Qed.

(** How often the clock of the stall detection can still be set back. *)
Definition budget (P : Z) (st : pollState) : Z := (totalBytes sel - lastBytes st) + (if hashPending st =? 0 then P + 1 else hashPending st).
Context (P g : Z) (stall_on : 0 < StallTimeout cfg) (g_pos : 0 <= g) (P_pos : 0 <= P) (total_pos : 0 <= totalBytes sel).
Lemma poll_clock ks : forall st,
  ticking g start ks -> Forall (fun k => piecesPendingHash (tRuns k) <= P) ks ->
  pollDownload cfg t sel start (map PTick ks) = Polling st ->
  0 <= lastBytes st <= totalBytes sel /\ 0 <= hashPending st <= P
  /\ last_time ks <= lastBytesAt st + StallTimeout cfg
  /\ lastBytesAt st <= start + (totalBytes sel + P + 1 - budget P st) * (StallTimeout cfg + g).
Proof.
  induction ks as [|k ks IH] using rev_ind; intros st T F H.
  - cbn in H. injection H as <-. unfold budget, last_time. cbn. lia.
  - destruct (poll_snoc _ _ _ H) as (st0 & H0 & E). apply ticking_snoc in T as [T Tk]. apply Forall_app in F as [F Fk].
    apply Forall_cons in Fk as [Fk _]. destruct (IH st0 T F H0) as (I1 & I2 & I3 & I4).
    fold (last_time ks) in Tk. unfold last_time at 1. rewrite last_snoc.
    pose proof (completed_le (tRuns k)) as C. unfold progressTick in E. set (dl := completedBytes t sel (tRuns k)) in *.
    destruct (vpnStillHealthy cfg (lastVPNCheckAt st0) (tNow k) (tUp k)) as [h l]. destruct (negb h); [done|].
    assert (Pp : 0 <= piecesPendingHash (tRuns k)) by (apply zsum_nonneg; intros r; destruct (_ || _); lia).
    unfold finish_tick in E. destruct (lastBytes st0 <? dl) eqn:B.
    + destruct (totalBytes sel <=? dl) eqn:D; [done|]. injection E as <-. unfold budget in *. cbn. split_and!; try lia. nia.
    + destruct ((0 <? StallTimeout cfg) && (StallTimeout cfg <? tNow k - lastBytesAt st0)) eqn:S.
      * unfold hashingIsProgressing in E. cbn in E.
        destruct ((0 <? piecesPendingHash (tRuns k)) && ((hashPending st0 =? 0) || (piecesPendingHash (tRuns k) <? hashPending st0))) eqn:Q; [|done].
        destruct (totalBytes sel <=? dl); [done|]. injection E as <-. unfold budget in *. cbn. split_and!; try lia.
        destruct (hashPending st0 =? 0) eqn:Z0, (piecesPendingHash (tRuns k) =? 0) eqn:Z1; nia.
      * destruct (totalBytes sel <=? dl); [done|]. injection E as <-. unfold budget in *. cbn. split_and!; try lia.
Qed.
End Poll.

(** ** The choice of files *)

Lemma largest_spec ok files : forall best,
  match fold_left (fun best f => if ok f && match best with Some b => fLength b <? fLength f | None => true end then Some f else best) files best with
  | None => best = None /\ Forall (fun f => ok f = false) files
  | Some v => (best = Some v \/ v ∈ files /\ ok v = true)
              /\ (forall b, best = Some b -> fLength b <= fLength v) /\ Forall (fun f => ok f = true -> fLength f <= fLength v) files
  end.
Proof.
  induction files as [|f files IH]; intros best; cbn [fold_left]; [destruct best as [b|]; [split_and!; [by left|by intros ? [= ->]|constructor]|done]|].
  set (b' := if ok f && _ then Some f else best). specialize (IH b'). destruct (fold_left _ files b') as [v|].
  - destruct IH as (I1 & I2 & I3). assert (Hf : ok f = true -> fLength f <= fLength v).
    { intros O. unfold b' in I2. rewrite O in I2. cbn in I2. destruct best as [b|]; [|by apply I2]. destruct (fLength b <? fLength f) eqn:L; [by apply I2|]. specialize (I2 b eq_refl). lia. }
    split_and!.
    + destruct I1 as [I1|[? ?]]; [|right; split; [by right|done]]. unfold b' in I1. destruct (ok f && _) eqn:O; [|by left].
      injection I1 as ->. apply andb_prop in O as [O _]. right. split; [by left|done].
    + intros b ->. unfold b' in I2. destruct (ok f); cbn in I2; [|by apply I2]. destruct (fLength b <? fLength f) eqn:L; [specialize (I2 f eq_refl); lia|by apply I2].
    + by constructor.
  - destruct IH as [I1 I2]. unfold b' in I1. destruct (ok f) eqn:O; cbn in I1.
    + destruct best as [b|]; [destruct (_ <? _); done|done].
    + split; [done|by constructor].
Qed.
Lemma largest_some ok files v : largest ok files = Some v -> v ∈ files /\ ok v = true /\ Forall (fun f => ok f = true -> fLength f <= fLength v) files.
Proof. unfold largest. intros H. pose proof (largest_spec ok files None) as S. rewrite H in S. destruct S as ([?|[? ?]] & _ & ?); [done|by split_and!]. Qed.
Lemma largest_none ok files : largest ok files = None -> Forall (fun f => ok f = false) files.
Proof. unfold largest. intros H. pose proof (largest_spec ok files None) as S. rewrite H in S. by destruct S. Qed.
Lemma elem_filter {A} (p : A -> bool) l x : x ∈ List.filter p l <-> x ∈ l /\ p x = true.
Proof. rewrite !list_elem_of_In. apply filter_In. Qed.
Lemma filter_nodup {A} (p : A -> bool) (l : list A) : NoDup l -> NoDup (List.filter p l).
Proof.
  induction 1 as [|x l N _ IH]; [constructor|]. cbn. destruct (p x); [|done]. constructor; [|done]. by intros [? _]%elem_filter.
Qed.
(** A file is not a video and a subtitle at once. *)
Lemma video_not_sub p : ext_in VideoExts p = true \/ isVideoFile p = true -> ext_in subExts p = false.
Proof.
  unfold isVideoFile, ext_in. generalize (ToLower (Ext p)). intros e [H|H]; apply existsb_exists in H as (x & Hx & E); apply bytes_eqb_eq in E as ->;
    cbn in Hx; repeat (destruct Hx as [<- |Hx]; [by vm_compute|]); done.
Qed.

Lemma selection_sound parse t task :
  NoDup (tFiles t) -> tLength t = zsum fLength (tFiles t) ->
  let sel := selectFiles parse t task in let files := default (tFiles t) (selFiles sel) in
  (forall f, f ∈ files -> f ∈ tFiles t) /\ NoDup files /\ totalBytes sel = zsum fLength files.
Proof.
  intros Nd Hl. unfold selectFiles.
  assert (All : let files := default (tFiles t) (selFiles (everything t)) in
    (forall f, f ∈ files -> f ∈ tFiles t) /\ NoDup files /\ totalBytes (everything t) = zsum fLength files) by (by cbn).
  set (single := match (match pickEpisodeVideo parse (tFiles t) task with Some v => Some v | None => largestVideo (tFiles t) end) with None => _ | Some _ => _ end).
  assert (Single : let files := default (tFiles t) (selFiles single) in
    (forall f, f ∈ files -> f ∈ tFiles t) /\ NoDup files /\ totalBytes single = zsum fLength files).
  { unfold single. destruct (match pickEpisodeVideo parse (tFiles t) task with Some v => Some v | None => largestVideo (tFiles t) end) as [v|] eqn:V; [|exact All].
    assert (Hv : v ∈ tFiles t /\ ext_in subExts (fPath v) = false).
    { destruct (pickEpisodeVideo parse (tFiles t) task) as [v'|] eqn:P.
      - injection V as ->. unfold pickEpisodeVideo in P. destruct (tEpisode task); [|done]. apply largest_some in P as (P1 & P2 & _). split; [done|].
        apply video_not_sub. right. unfold matchesEpisode in P2. by apply andb_prop in P2 as [[? _]%andb_prop _].
      - unfold largestVideo in V. apply largest_some in V as (V1 & V2 & _). split; [done|]. apply video_not_sub. by left. }
    destruct Hv as [Hv1 Hv2]. cbn. split_and!; [| |done].
    - intros f [-> |[? _]%elem_filter]%elem_of_cons; done.
    - constructor; [|by apply filter_nodup]. intros [_ M]%elem_filter. unfold matchingSub in M. by rewrite Hv2 in M. }
  destruct (_ <=? 1)%nat; [exact All|]. destruct (wantsWholePack task); [|exact Single].
  destruct (selectPack parse t task) as [sel|] eqn:P; [|exact Single].
  unfold selectPack in P. destruct (packEpisodes parse (tFiles t) (taskSeason task)) as [[eps season]|] eqn:E; [|done]. injection P as <-.
  assert (Ep : (forall f, f ∈ eps -> f ∈ tFiles t /\ isEpisodeVideo f = true) /\ NoDup eps).
  { unfold packEpisodes in E. set (narrow := if _ && _ then _ else _) in E. destruct (0 <? narrow); destruct (_ <? 2)%nat; try done; injection E as <- _; split.
    - intros f [[? ?]%elem_filter _]%elem_filter. done.
    - by apply filter_nodup, filter_nodup.
    - by intros f [? ?]%elem_filter.
    - by apply filter_nodup. }
  destruct Ep as [Ep1 Ep2]. cbn. split_and!; [| |done].
  - intros f [Hf|[? _]%elem_filter]%elem_of_app; [by apply Ep1|done].
  - apply NoDup_app. split_and!; [done| |by apply filter_nodup]. intros f Hf [_ M]%elem_filter. apply Ep1 in Hf as [_ Hf].
    unfold isEpisodeVideo in Hf. apply andb_prop in Hf as [[Hf _]%andb_prop _]. unfold packSubtitle in M. rewrite (video_not_sub _ (or_intror Hf)) in M. done.
Qed.
Lemma missing_none_verified pl files ver :
  0 < pl -> Forall (fun f => 0 <= fOffset f) files -> missingSelectedBytes pl files ver = 0 ->
  forall f p, f ∈ files -> fOffset f <= p < fOffset f + fLength f -> ver (p / pl) = true.
Proof.
  intros Hp F. unfold missingSelectedBytes. replace (pl <=? 0) with false by lia.
  induction F as [|f files Hf F IH]; intros E x p Hx Hr; [by apply not_elem_of_nil in Hx|]. rewrite zsum_cons in E.
  assert (N : 0 <= zsum (missing_of pl ver) files).
  { pose proof (missing_nonneg pl ver files) as N. unfold missingSelectedBytes in N. by replace (pl <=? 0) with false in N by lia. }
  rewrite (missing_of_count pl Hp ver f Hf) in E. pose proof (count_bounds (bad_at pl ver) (Z.to_nat (fLength f)) (fOffset f)) as B.
  apply elem_of_cons in Hx as [-> |Hx]; [|by apply (IH ltac:(lia) x p)].
  assert (Z0 : count_missing (bad_at pl ver) (fOffset f) (Z.to_nat (fLength f)) = 0) by lia.
  assert (b : bad_at pl ver p = false) by (apply (proj1 (count_zero _ _ _) Z0); lia).
  unfold bad_at in b. by destruct (ver (p / pl)).
Qed.

(** * Claims *)

(** C22: What is missing is counted to the byte.  The walk over pieces of the selected files gives the number of their bytes
    that lie in pieces not verified, counted one by one; and nothing is missing exactly when every byte of every selected
    file is in a verified piece. *)
Theorem missing_bytes_exact pl files ver :
  0 < pl -> Forall (fun f => 0 <= fOffset f) files ->
  missingSelectedBytes pl files ver = zsum (fun f => count_missing (fun p => negb (ver (p / pl))) (fOffset f) (Z.to_nat (fLength f))) files
  /\ (missingSelectedBytes pl files ver = 0 <-> forall f p, f ∈ files -> fOffset f <= p < fOffset f + fLength f -> ver (p / pl) = true).
Proof.
  intros Hp F. assert (E : missingSelectedBytes pl files ver = zsum (fun f => count_missing (bad_at pl ver) (fOffset f) (Z.to_nat (fLength f))) files).
  { unfold missingSelectedBytes. replace (pl <=? 0) with false by lia. induction F as [|f files Hf _ IH]; [done|]. rewrite !zsum_cons, IH. f_equal. by apply missing_of_count. }
  split; [done|]. split; [by apply missing_none_verified|]. intros H. rewrite E. clear E F. induction files as [|f files IH]; [done|].
  rewrite zsum_cons, IH by (intros x p Hx; apply H; by right).
  rewrite (proj2 (count_zero _ _ _)); [done|]. intros p Hr. unfold bad_at. rewrite (H f p); [done|by left|lia].
Qed.

(** *** The wait for marks *)
Definition marking_at (runs : list run) (i : Z) : bool := default false (concat (map (fun r => replicate (rLength r) (rMarking r)) runs) !! Z.to_nat i).
(** A failed piece can read as complete while it is being marked: every piece that reads as
    complete in [after] holds its data, or was being marked in [before]. *)
Definition marked_late (t : torrentInfo) (good : Z -> Prop) (before after : list run) : Prop :=
  forall i, verifiedPieceLookup t after i = true -> good i \/ marking_at before i = true.
Lemma not_marking runs i : existsb rMarking runs = false -> marking_at runs i = false.
Proof.
  intros H. unfold marking_at. destruct (concat _ !! _) as [b|] eqn:L; [cbn|done]. apply list_elem_of_lookup_2, list_elem_of_In, in_concat in L as (l & Hl & Hb).
  apply in_map_iff in Hl as (r & <- & Hr). apply list_elem_of_In, elem_of_replicate in Hb as [-> _].
  destruct (rMarking r) eqn:M; [|done]. enough (existsb rMarking runs = true) by congruence. apply existsb_exists. by exists r.
Qed.
(** How the wait ends: with a look at which nothing was being marked, or cut short. *)
Lemma settle_spec now looks r :
  waitPieceMarkingSettled now looks = Some r ->
  match r with
  | Some quiet => existsb rMarking quiet = false
  | None => exists k, k ∈ looks /\ (now + markingWait <= lNow k \/ lCancelled k = true)
  end.
Proof.
  unfold waitPieceMarkingSettled. induction looks as [|k looks IH]; cbn; [done|]. intros H. destruct (_ && _) eqn:C.
  - destruct (existsb rMarking (lRuns k)) eqn:M; [|by simplify_eq]. specialize (IH H). destruct r; [done|].
    destruct IH as (k' & ? & ?). exists k'. split; [by right|done].
  - simplify_eq. exists k. split; [left|]. destruct (lCancelled k); [by right|left]. rewrite andb_true_r in C. lia.
Qed.
(** It does end: turns are at least twenty milliseconds apart. *)
Lemma settle_ends looks : forall now first,
  (forall i k, looks !! i = Some k -> first + 20 * Z.of_nat i <= lNow k) -> now + markingWait <= first + 20 * Z.of_nat (length looks - 1) -> looks <> [] ->
  exists r, waitPieceMarkingSettled now looks = Some r.
Proof.
  unfold waitPieceMarkingSettled. induction looks as [|k looks IH]; intros now first S L N; [done|]. cbn. destruct (_ && _) eqn:C; [|eauto].
  destruct (existsb rMarking (lRuns k)); [|eauto]. pose proof (S 0%nat k eq_refl) as S0. destruct looks as [|k' looks]; [cbn in *; lia|].
  apply (IH now (first + 20)); [|cbn in *; lia|done]. intros i x Hx. specialize (S (Datatypes.S i) x Hx). lia.
Qed.

(** C20: A download that reports success has what was asked for.  If a torrent download succeeds: every byte of every file it
    selected lies in a piece the library reports complete in the states the verdict is read from; the files are files of
    the torrent, each once, and the size reported is theirs.  Before the verdict the download waited until no piece was
    being marked, or it cut the wait short, five seconds on or cancelled.  When it was not cut short, and if a piece that
    reads as complete without its data was being marked at the look before, every selected byte lies in a piece that does
    hold its data.  (The torrent has pieces of positive length, distinct files at non-negative offsets, and the length of
    its files.) *)
Theorem torrent_success_is_whole parse cfg t task e sel :
  0 < pieceLength t -> Forall (fun f => 0 <= fOffset f) (tFiles t) -> NoDup (tFiles t) -> tLength t = zsum fLength (tFiles t) ->
  Download parse cfg t task e = inl sel ->
  let files := default (tFiles t) (selFiles sel) in
  (forall f p, f ∈ files -> fOffset f <= p < fOffset f + fLength f -> verifiedPieceLookup t (eVerdict e) (p / pieceLength t) = true)
  /\ (forall f, f ∈ files -> f ∈ tFiles t) /\ NoDup files /\ totalBytes sel = zsum fLength files
  /\ match waitPieceMarkingSettled (eSettleAt e) (eSettleLooks e) with
     | Some (Some quiet) =>
         existsb rMarking quiet = false
         /\ forall good, marked_late t good quiet (eVerdict e) ->
            forall f p, f ∈ files -> fOffset f <= p < fOffset f + fLength f -> good (p / pieceLength t)
     | Some None => exists k, k ∈ eSettleLooks e /\ (eSettleAt e + 5000 <= lNow k \/ lCancelled k = true)
     | None => False
     end.
Proof.
  intros Hp F Nd Hl H. unfold Download in H. destruct (fst _); [done| |done..]. destruct (if _ || _ then _ else _); [done|]. destruct (negb (eSpaceOk e)); [done|].
  destruct (pollDownload _ _ _ _ _); [done| |done]. destruct (waitPieceMarkingSettled _ _) as [r|] eqn:W; [|done].
  destruct (0 <? missingBytes t (selectFiles parse t task) (eVerdict e)) eqn:M; [done|]. injection H as <-.
  set (sel := selectFiles parse t task) in *. intros files.
  assert (S : (forall f, f ∈ files -> f ∈ tFiles t) /\ NoDup files /\ totalBytes sel = zsum fLength files) by (by apply selection_sound).
  destruct S as (Sub & S2 & S3).
  assert (V : forall f p, f ∈ files -> fOffset f <= p < fOffset f + fLength f -> verifiedPieceLookup t (eVerdict e) (p / pieceLength t) = true).
  { assert (Ff : Forall (fun f => 0 <= fOffset f) files) by (apply Forall_forall; intros f Hf; rewrite Forall_forall in F; by apply F, Sub).
    pose proof (missing_nonneg (pieceLength t) (verifiedPieceLookup t (eVerdict e)) files) as N.
    assert (Z : missingSelectedBytes (pieceLength t) files (verifiedPieceLookup t (eVerdict e)) = 0) by (unfold missingBytes in M; fold files in M; lia).
    intros f p Hf Hr. by apply (missing_none_verified _ _ _ Hp Ff Z f p). }
  split_and!; try done. pose proof (settle_spec _ _ _ W) as Q. destruct r as [quiet|]; [|exact Q]. split; [exact Q|].
  intros good G f p Hf Hr. destruct (G _ (V f p Hf Hr)) as [?|X]; [done|]. by rewrite (not_marking _ _ Q) in X.
Qed.

(** C21: A torrent download does not hold its slot for ever.  With a stall timeout, whatever the swarm and the hasher do: once
    ticks, at most [g] apart, have gone on for longer than one timeout per byte and piece, the loop has ended, in success
    or in an error. *)
Theorem torrent_poll_ends cfg t sel start P g ks :
  0 < StallTimeout cfg -> 0 <= g -> 0 <= P -> 0 <= totalBytes sel ->
  ticking g start ks -> Forall (fun k => piecesPendingHash (tRuns k) <= P) ks ->
  start + (totalBytes sel + P + 1) * (StallTimeout cfg + g) + StallTimeout cfg < last_time start ks ->
  forall st, pollDownload cfg t sel start (map PTick ks) <> Polling st.
Proof.
  intros S G Pp Tp T F L st H. destruct (poll_clock cfg t sel start P g S G Pp Tp ks st T F H) as (I1 & I2 & I3 & I4).
  assert (B : 0 <= budget sel P st) by (unfold budget; destruct (hashPending st =? 0); lia). nia.
Qed.

(** The probe a running loop goes by. *)
Lemma probe_recent cfg t sel start ks : forall st,
  VPNRequired cfg = true -> Forall (fun k => start <= tNow k) ks -> pollDownload cfg t sel start (map PTick ks) = Polling st ->
  (match last ks with Some k => tNow k - lastVPNCheckAt st < vpnHealthCheckInterval | None => True end)
  /\ (lastVPNCheckAt st = start \/ exists k, k ∈ ks /\ tNow k = lastVPNCheckAt st /\ tUp k = true).
Proof.
  induction ks as [|k ks IH] using rev_ind; intros st V F H.
  - cbn in H. injection H as <-. split; [done|by left].
  - destruct (poll_snoc _ _ _ _ _ _ _ H) as (st0 & H0 & E). apply Forall_app in F as [F _]. destruct (IH st0 V F H0) as [_ I]. rewrite last_snoc.
    unfold progressTick in E. destruct (vpnStillHealthy cfg (lastVPNCheckAt st0) (tNow k) (tUp k)) as [h l] eqn:X.
    destruct (negb h) eqn:Hh; [done|]. assert (El : lastVPNCheckAt st = l).
    { unfold hashingIsProgressing, finish_tick in E. cbn in E. repeat (case_match; try done); by simplify_eq. }
    rewrite El. unfold vpnStillHealthy, tunnelHealthy in X. rewrite V in X. cbn in X. unfold vpnHealthCheckInterval in *.
    destruct (tNow k - lastVPNCheckAt st0 <? 12000) eqn:R; injection X as <- <-.
    + split; [lia|]. destruct I as [I|(k0 & ? & ?)]; [by left|right]. exists k0. split; [apply elem_of_app; by left|done].
    + split; [lia|]. right. exists k. split; [apply elem_of_app; right; by left|]. split; [done|]. by destruct (tUp k).
Qed.

(** C23: The VPN kill switch of the poll loop and of the seeder.  When the tunnel is required: a task is offered for download
    only with the tunnel up; a poll loop that goes on at some tick has seen the tunnel up less than twelve seconds before
    that tick, or has itself begun less than twelve seconds before it; and a seeding torrent that goes on has seen the
    tunnel up at every check.  (The loop begins after the metadata and the re-hash of old pieces, which look at no tunnel:
    see [unprobed_download] below.) *)
Theorem vpn_kill_switch cfg t sel start ks st task up id h size evs :
  VPNRequired cfg = true ->
  (Available cfg up task = Available_ -> up = true)
  /\ (Forall (fun k => start <= tNow k) ks -> pollDownload cfg t sel start (map PTick ks) = Polling st -> forall k, last ks = Some k ->
      exists seen, tNow k - seen < vpnHealthCheckInterval /\ (seen = start \/ exists k', k' ∈ ks /\ tNow k' = seen /\ tUp k' = true))
  /\ (seedAndDrop cfg id h size evs = Seeding -> Forall (fun e => match e with SeedTick _ up' _ _ => up' = true | SeedCtxDone => False end) evs).
Proof.
  intros V. split_and!.
  - unfold Available, tunnelHealthy. rewrite V. destruct (negb (hasHash task)); [done|]. by destruct up.
  - intros F H k L. destruct (probe_recent _ _ _ _ _ _ V F H) as [A B]. rewrite L in A. by exists (lastVPNCheckAt st).
  - unfold seedAndDrop. rewrite V, andb_false_r. induction evs as [|[|active up' upl el] evs IH]; intros S; [constructor|done|]. cbn in S.
    destruct (negb (bool_decide _)); [done|]. unfold tunnelHealthy in S. rewrite V in S. cbn in S. destruct up'; cbn in S; [|done].
    destruct (seedTargetReached _ _ _ _ _); [done|]. constructor; [done|by apply IH].
Qed.

(** The files a task asked for are the ones selected.  In a torrent of several files, a task that names an episode gets
    the largest of the videos numbered as that episode, when there is one; a task that asks for a whole season gets every
    episode of it the torrent holds, when there are two or more. *)
Lemma selection_serves_task parse t task :
  (1 < length (tFiles t))%nat ->
  let sel := selectFiles parse t task in
  (forall e f, tEpisode task = Some e -> f ∈ tFiles t -> matchesEpisode parse (taskSeason task) e f = true ->
     exists v rest, selFiles sel = Some (v :: rest) /\ fileName sel = fPath v /\ matchesEpisode parse (taskSeason task) e v = true /\ fLength f <= fLength v)
  /\ (wantsWholePack task = true -> forall a b, a ∈ tFiles t -> b ∈ tFiles t -> a <> b -> NoDup (tFiles t) ->
      isEpisodeVideo a = true -> isEpisodeVideo b = true -> inSeason parse (fPath a) (taskSeason task) = true -> inSeason parse (fPath b) (taskSeason task) = true ->
      exists files, selFiles sel = Some files /\ a ∈ files /\ b ∈ files).
Proof.
  intros Len sel. split.
  - intros e f Ep Hf M. unfold sel, selectFiles. replace (length (tFiles t) <=? 1)%nat with false by (symmetry; apply Nat.leb_gt; lia).
    assert (W : wantsWholePack task = false) by (unfold wantsWholePack; by rewrite Ep). rewrite W. unfold pickEpisodeVideo. rewrite Ep.
    destruct (largest (matchesEpisode parse (taskSeason task) e) (tFiles t)) as [v|] eqn:V.
    + apply largest_some in V as (V1 & V2 & V3). rewrite Forall_forall in V3. cbn. exists v, (List.filter (matchingSub v) (tFiles t)). split_and!; try done. by apply V3.
    + apply largest_none in V. rewrite Forall_forall in V. by rewrite (V f Hf) in M.
  - intros W a b Ha Hb N Nd Ea Eb Sa Sb. unfold sel, selectFiles. replace (length (tFiles t) <=? 1)%nat with false by (symmetry; apply Nat.leb_gt; lia).
    rewrite W. assert (P : exists eps season, packEpisodes parse (tFiles t) (taskSeason task) = Some (eps, season) /\ a ∈ eps /\ b ∈ eps).
    { unfold packEpisodes. set (narrow := if _ && _ then _ else _).
      set (kept := if 0 <? narrow then _ else _).
      assert (Nw : narrow = taskSeason task \/ narrow = 0) by (unfold narrow; destruct (_ && _); auto).
      assert (K : forall x, x ∈ tFiles t -> isEpisodeVideo x = true -> inSeason parse (fPath x) (taskSeason task) = true -> x ∈ kept).
      { intros x Hx E S. unfold kept. destruct (0 <? narrow) eqn:Z; [|by apply elem_filter]. apply elem_filter. split; [by apply elem_filter|]. destruct Nw as [-> | ->]; [done|lia]. }
      assert (L : (2 <= length kept)%nat).
      { pose proof (K a Ha Ea Sa) as Ka. pose proof (K b Hb Eb Sb) as Kb. destruct kept as [|x [|y kept']]; [by apply elem_of_nil in Ka| |cbn; lia].
        apply list_elem_of_singleton in Ka as ->, Kb as ->. done. }
      replace (length kept <? 2)%nat with false by (symmetry; apply Nat.ltb_ge; lia). exists kept, narrow. split_and!; [done|by apply K|by apply K]. }
    destruct P as (eps & season & P & Pa & Pb). unfold selectPack. rewrite P. cbn. eexists. split; [reflexivity|]. split; apply elem_of_app; by left.
Qed.

(** * A torrent *)

Definition demo_movie : tfile := mkTFile (str "Film/film.mkv") 0 5.
Definition demo_sub : tfile := mkTFile (str "Film/film.en.srt") 5 2.
Definition demo_torrent : torrentInfo := mkTorrent (str "Film") 11 4 3 [demo_movie; demo_sub; mkTFile (str "Film/readme.nfo") 7 4].
Definition demo_task : torrentTask := mkTTask false None None true.
Definition demo_parse (_ : bytes) : Z * Z := (0, 0).
Definition demo_cfg : torrentConfig := mkTConfig true 30000 0 0 f64_zero 0 false.
Definition demo_runs (a b c : bool) : list run := [mkRun 1 a false false false; mkRun 1 b false false false; mkRun 1 c false false false].
Definition demo_selection : selection := mkSelection 7 (str "Film/film.mkv") (Some [demo_movie; demo_sub]).
Lemma demo_select : selectFiles demo_parse demo_torrent demo_task = demo_selection.
Proof. by vm_compute. Qed.
(** Done when the film and its subtitle are, whatever is left of the other file. *)
Definition demo_ticks : list pollEvent :=
  [PTick (mkTick 1000 (demo_runs false false true) true); PTick (mkTick 2000 (demo_runs true false true) true); PTick (mkTick 3000 (demo_runs true true false) true)].
(** The film's last piece is being marked when the loop ends, and fails no hash. *)
Definition demo_marking : list run := [mkRun 1 true false false false; mkRun 1 true false false true; mkRun 1 false false false false].
Definition demo_env (evs : list pollEvent) : environ :=
  mkEnv [GotInfo] false false [mkRun 3 true false false false] true 0 [mkLook 0 false (demo_runs true false true)] true 0 evs
    3000 [mkLook 3000 false demo_marking; mkLook 3020 false (demo_runs true true false)] (demo_runs true true false).
Lemma demo_download : Download demo_parse demo_cfg demo_torrent demo_task (demo_env demo_ticks) = inl demo_selection.
Proof. by vm_compute. Qed.
Lemma demo_offsets : Forall (fun f => 0 <= fOffset f) (tFiles demo_torrent).
Proof. by repeat constructor. Qed.
Lemma demo_nodup : NoDup (tFiles demo_torrent).
Proof. apply (bool_decide_unpack _). by vm_compute. Qed.
Lemma demo_two_offsets : Forall (fun f => 0 <= fOffset f) [demo_movie; demo_sub].
Proof. by repeat constructor. Qed.
Lemma missing_bytes_exact_witness :
  missingSelectedBytes 4 [demo_movie; demo_sub] (fun i => i =? 0)
  = zsum (fun f => count_missing (fun p => negb ((p / 4) =? 0)) (fOffset f) (Z.to_nat (fLength f))) [demo_movie; demo_sub].
Proof.
  exact (proj1 (missing_bytes_exact 4 [demo_movie; demo_sub] (fun i => i =? 0) eq_refl demo_two_offsets)).
Defined.
Lemma demo_movie_selected : demo_movie ∈ default (tFiles demo_torrent) (selFiles demo_selection).
Proof. by left. Qed.
Lemma demo_byte : fOffset demo_movie <= 4 < fOffset demo_movie + fLength demo_movie.
Proof. by vm_compute. Qed.
Definition demo_good (i : Z) : Prop := 0 <= i <= 1.
Lemma demo_marked_late : marked_late demo_torrent demo_good (demo_runs true true false) (eVerdict (demo_env demo_ticks)).
Proof.
  intros i [[H1 H2]%andb_prop H3]%andb_prop. left. unfold demo_good. cbn in H2, H3. destruct (Z.to_nat i) as [|[|[|n]]] eqn:E; cbn in H3; try lia; done.
Qed.
Lemma torrent_success_is_whole_witness :
  verifiedPieceLookup demo_torrent (demo_runs true true false) (4 / pieceLength demo_torrent) = true /\ demo_good (4 / pieceLength demo_torrent).
Proof.
  pose proof (torrent_success_is_whole demo_parse demo_cfg demo_torrent demo_task (demo_env demo_ticks) demo_selection
    eq_refl demo_offsets demo_nodup eq_refl demo_download) as H. split.
  - exact (proj1 H demo_movie 4 demo_movie_selected demo_byte).
  - exact (proj2 (proj2 (proj2 (proj2 (proj2 H)))) demo_good demo_marked_late demo_movie 4 demo_movie_selected demo_byte).
Defined.
(** Nothing arrives for a year of ticks, a day apart. *)
Definition demo_silence : list tick := map (fun n => mkTick (Z.of_nat n * 86400000) (demo_runs false false false) true) (seq 1 365).
Lemma demo_silence_ticking : ticking 86400000 0 demo_silence.
Proof. vm_compute. repeat (split; [split; discriminate|]). exact I. Qed.
Lemma demo_silence_pending : Forall (fun k => piecesPendingHash (tRuns k) <= 3) demo_silence.
Proof. unfold demo_silence. apply Forall_forall. intros k (n & -> & _)%list_elem_of_fmap. by vm_compute. Qed.
Lemma demo_silence_long : 0 + (totalBytes demo_selection + 3 + 1) * (StallTimeout demo_cfg + 86400000) + StallTimeout demo_cfg < last_time 0 demo_silence.
Proof. by vm_compute. Qed.
Lemma demo_stalled : pollDownload demo_cfg demo_torrent demo_selection 0 (map PTick demo_silence) = PollErr Stalled.
Proof. by vm_compute. Qed.
Lemma torrent_poll_ends_witness :
  pollDownload demo_cfg demo_torrent demo_selection 0 (map PTick demo_silence) = PollErr Stalled
  /\ forall st, pollDownload demo_cfg demo_torrent demo_selection 0 (map PTick demo_silence) <> Polling st.
Proof.
  exact (conj demo_stalled (torrent_poll_ends demo_cfg demo_torrent demo_selection 0 3 86400000 demo_silence eq_refl (Zle_0_pos _) (Zle_0_pos 3) (Zle_0_pos 7)
    demo_silence_ticking demo_silence_pending demo_silence_long)).
Defined.
(** A tick every five seconds with the tunnel up. *)
Definition demo_up : list tick := [mkTick 5000 (demo_runs true false false) true; mkTick 10000 (demo_runs true false false) true; mkTick 15000 (demo_runs true false false) true].
Definition demo_up_state : pollState := match pollDownload demo_cfg demo_torrent demo_selection 0 (map PTick demo_up) with Polling st => st | _ => mkPoll 0 0 0 0 end.
Lemma demo_up_after : Forall (fun k => 0 <= tNow k) demo_up.
Proof. by repeat constructor. Qed.
Lemma demo_up_polls : pollDownload demo_cfg demo_torrent demo_selection 0 (map PTick demo_up) = Polling demo_up_state.
Proof. by vm_compute. Qed.
Lemma vpn_kill_switch_witness :
  exists seen, 15000 - seen < vpnHealthCheckInterval /\ (seen = 0 \/ exists k', k' ∈ demo_up /\ tNow k' = seen /\ tUp k' = true).
Proof.
  exact (proj1 (proj2 (vpn_kill_switch demo_cfg demo_torrent demo_selection 0 demo_up demo_up_state demo_task true [] 0%nat 0 [] eq_refl))
    demo_up_after demo_up_polls (mkTick 15000 (demo_runs true false false) true) eq_refl).
Defined.
(** The tunnel goes down between two probes: the next one ends the download. *)
Lemma demo_tunnel_down :
  pollDownload demo_cfg demo_torrent demo_selection 0
    [PTick (mkTick 1000 (demo_runs true false false) true); PTick (mkTick 11000 (demo_runs true false false) false); PTick (mkTick 12000 (demo_runs true false false) false)]
  = PollErr ErrVPNTunnelDown.
Proof. by vm_compute. Qed.
Definition demo_pack : torrentInfo :=
  mkTorrent (str "Show") 21 4 6 [mkTFile (str "Show/S01E01.mkv") 0 9; mkTFile (str "Show/S01E02.mkv") 9 5; mkTFile (str "Show/S01E02.720.mkv") 14 7].
Definition demo_numbers (p : bytes) : Z * Z := (1, if has_prefix (str "S01E02") p then 2 else 1).
Lemma selection_serves_task_witness :
  exists v rest, selFiles (selectFiles demo_numbers demo_pack (mkTTask true (Some 1) (Some 2) true)) = Some (v :: rest)
    /\ fileName (selectFiles demo_numbers demo_pack (mkTTask true (Some 1) (Some 2) true)) = fPath v
    /\ matchesEpisode demo_numbers 1 2 v = true /\ 5 <= fLength v.
Proof.
  exact (proj1 (selection_serves_task demo_numbers demo_pack (mkTTask true (Some 1) (Some 2) true) (le_S _ _ (le_n 2)))
    2 (mkTFile (str "Show/S01E02.mkv") 9 5) eq_refl (list_elem_of_further _ _ _ (list_elem_of_here _ _)) eq_refl).
Defined.

(** * Where the code and its intent part *)

(** A torrent may call itself by a dot.  Cancelling it removes the whole data folder. *)
Lemma cancel_removes_data_folder :
  Cancel (fun _ => None) (fun _ => true) (str "/downloads") (fun _ => str ".") {[str "t" := 7%nat]} (str "t") = (∅, [7%nat], Some (str "/downloads")).
Proof. by vm_compute. Qed.
(** The two sets of video extensions differ: a disc's streams are videos for the library, and none for the selection. *)
Lemma video_sets_differ : isVideoFile (str "00001.m2ts") = true /\ ext_in VideoExts (str "00001.m2ts") = false.
Proof. by vm_compute. Qed.
(** The tunnel may be down from the start of a download on: nothing looks at it before the poll loop, and the loop not
    before its twelfth second.  A download that is through by then succeeds without a tunnel. *)
Definition demo_down : list pollEvent :=
  [PTick (mkTick 1000 (demo_runs true false true) false); PTick (mkTick 3000 (demo_runs true true false) false)].
Lemma unprobed_download :
  VPNRequired demo_cfg = true /\ Download demo_parse demo_cfg demo_torrent demo_task (demo_env demo_down) = inl demo_selection.
Proof. by vm_compute. Qed.
(** Marks that do not settle in five seconds: the verdict is read all the same. *)
Lemma unsettled_download :
  let e := demo_env demo_ticks in
  Download demo_parse demo_cfg demo_torrent demo_task
    (mkEnv (eMeta e) false false (eClaimed e) true 0 (eVerifyLooks e) true 0 demo_ticks 3000 [mkLook 3000 false demo_marking; mkLook 8000 false demo_marking] demo_marking)
  = inl demo_selection.
Proof. by vm_compute. Qed.
