(* ===== verification/Mirrors.v ===== *)
(** Mirrors of the server: agent/mirror_pool.go, mirror_transport.go, mirror_client.go, and
    withMirrorFailover, handleResponse and httpErrorFromBody of client.go and types.go.

    A request to a mirror is its answer.  A call is a list of steps on the shared pool, one
    per lock; calls interleave.  JSON and URL parsing are parameters. *)
From Stdlib Require Import ZArith Lia.
From stdpp Require Import prelude list strings.
From S2P Require Import Prelude GoStrings.

Open Scope Z_scope.

(** * The pool *)

Record MirrorPool := mkPool { mirrors : list bytes; current : nat }.
Definition TrimRightSlash (s : bytes) : bytes := rev (snd (span (fun b => b =? SLASH) (rev s))).
Definition add (out : list bytes) (raw : bytes) : list bytes :=
  let raw := TrimRightSlash (TrimSpace raw) in
  if bytes_eqb raw [] then out else if existsb (bytes_eqb raw) out then out else out ++ [raw].
Definition NewMirrorPool (primary : bytes) (extras : list bytes) : MirrorPool :=
  match fold_left add extras (add [] primary) with
  | [] => mkPool [[]] 0
  | out => mkPool out 0
  end.
(** None is the panic of an index out of range. *)
Definition Current (p : MirrorPool) : option bytes := mirrors p !! current p.
Definition Len (p : MirrorPool) : nat := length (mirrors p).
Definition Rotate (p : MirrorPool) : MirrorPool * bool :=
  if (Len p <=? 1)%nat then (p, false) else (mkPool (mirrors p) ((current p + 1) mod Len p), true).
Definition Replace (p : MirrorPool) (primary : bytes) (extras : list bytes) : MirrorPool := mkPool (mirrors (NewMirrorPool primary extras)) 0.

(** * Errors *)

Record HTTPError := mkHTTPError { StatusCode : Z; Message : bytes; Detail : bytes; FromGateway : bool; RetryAfter : Z }.
Definition gatewayNotFoundBody : bytes := str "404 page not found".
Definition Contains (sub s : bytes) : bool := match index sub s with Some _ => true | None => false end.
(** [errorResponse] is json.Unmarshal into an ErrorResponse: its error and message. *)
Definition httpErrorFromBody (errorResponse : bytes -> option (bytes * bytes)) (statusCode : Z) (body : bytes) : HTTPError :=
  let raw :=
    let msg := TrimSpace body in
    if (statusCode =? 404) && bytes_eqb msg gatewayNotFoundBody then mkHTTPError statusCode msg [] true 0
    else
      let msg := if (120 <? Z.of_nat (length msg)) || Contains (str "<html") msg || Contains (str "<!DOCTYPE") msg
                 then str "server returned " ++ Itoa statusCode ++ str " (non-JSON response, likely a server error)" else msg in
      mkHTTPError statusCode msg [] false 0 in
  match errorResponse body with
  | Some (e, m) => if negb (bytes_eqb e []) then mkHTTPError statusCode e m false 0 else raw
  | None => raw
  end.
(** An error by what errors.As and errors.Is find in its chain. *)
Record nerr := mkErr {
  httpErr : option HTTPError; isDeadline : bool; netTimeout : bool; isDNS : bool; opErr : option bytes; urlErr : option bytes; text : bytes
}.
Definition IsTransient (err : option nerr) : bool :=
  match err with
  | None => false
  | Some e =>
      match httpErr e with
      | Some h =>
          (StatusCode h =? 502) || (StatusCode h =? 503) || (StatusCode h =? 504) || (StatusCode h =? 408)
          || (StatusCode h =? 404) && FromGateway h
      | None =>
          isDeadline e || netTimeout e || isDNS e
          || match opErr e with Some op => bytes_eqb op (str "dial") | None => false end
          || match urlErr e with
             | Some msg => existsb (fun w => Contains w msg)
                             [str "connection refused"; str "no such host"; str "EOF"; str "tls:"; str "i/o timeout"; str "network is unreachable"]
             | None => false
             end
          || existsb (fun w => Contains w (text e)) [str "connection refused"; str "no such host"; str "i/o timeout"; str "network is unreachable"]
      end
  end.
Definition http_error (h : HTTPError) : nerr := mkErr (Some h) false false false None None [].
Definition plain_error (m : bytes) : nerr := mkErr None false false false None None m.

(** What a response comes to: the body as far as it could be read, its status and
    Retry-After; [decodes] is json.Unmarshal into the destination, if there is one. *)
Definition responseLimit : nat := Pos.to_nat 1048576.
Definition handleResponse (errorResponse : bytes -> option (bytes * bytes)) (decodes : option (bytes -> bool))
    (status : Z) (body : option bytes) (retryAfter : bytes) : option nerr :=
  match body with
  | None => Some (if 400 <=? status then http_error (mkHTTPError status (str "response body could not be read") [] false 0) else plain_error (str "read body"))
  | Some b =>
      if (responseLimit <? length b)%nat
      then Some (if 400 <=? status then http_error (mkHTTPError status (str "API response exceeds 1048576 bytes; update the server to use bounded pages") [] false 0)
                 else plain_error (str "API response exceeds 1048576 bytes; update the server to use bounded pages"))
      else if 400 <=? status then
        let he := httpErrorFromBody errorResponse status b in
        Some (http_error (match Atoi (TrimSpace retryAfter) with
                          | (secs, NumOk) => if 0 <? secs then mkHTTPError (StatusCode he) (Message he) (Detail he) (FromGateway he) (wrap_i64 (secs * 1000000000)) else he
                          | _ => he
                          end))
      else match decodes with
           | Some d => if d b then None else Some (plain_error (str "decode response"))
           | None => None
           end
  end.
(** A 404 is judged by the first 512 bytes of its body, if they can be read. *)
Definition classifyStatus (errorResponse : bytes -> option (bytes * bytes)) (status : Z) (body : option bytes) : HTTPError :=
  if negb (status =? 404) then mkHTTPError status [] [] false 0
  else match body with
       | None => mkHTTPError status [] [] false 0
       | Some b => httpErrorFromBody errorResponse status (take 512 b)
       end.

(** * A call with failover *)

(** The two loops of client.go and mirror_transport.go go through the same steps; they
    differ in what an answer is, which answers send them on, and what they return when the
    pool does not rotate. *)
Section Failover.
Context {A : Type} (again : A -> bool) (stuck_with : A -> A).
Inductive cphase := CLook | CAsk (base : bytes) | CRotate (last : A) | CEnd (last : A).
(** [round] counts the loop, [tried] the mirrors asked. *)
Record call := mkCall { attempts : nat; round : nat; tried : list bytes; phase : cphase }.
Definition newCall (attempts : nat) : call := mkCall attempts 0 [] CLook.
(** [answer] is what the mirror asked comes back with. *)
Definition call_step (p : MirrorPool) (c : call) (answer : bytes -> A) : option (MirrorPool * call) :=
  match phase c with
  | CLook => match Current p with
             | Some base => Some (p, mkCall (attempts c) (round c) (tried c ++ [base]) (CAsk base))
             | None => None
             end
  | CAsk base =>
      let a := answer base in
      Some (p, mkCall (attempts c) (round c) (tried c)
                 (if negb (again a) then CEnd a else if (round c =? attempts c - 1)%nat then CEnd a else CRotate a))
  | CRotate a =>
      let '(p', rotated) := Rotate p in
      Some (p', if rotated then mkCall (attempts c) (S (round c)) (tried c) CLook else mkCall (attempts c) (round c) (tried c) (CEnd (stuck_with a)))
  | CEnd _ => Some (p, c)
  end.
(** A call that runs alone, for [fuel] steps. *)
Fixpoint alone (fuel : nat) (p : MirrorPool) (c : call) (answer : bytes -> A) : option (MirrorPool * call) :=
  match fuel with
  | O => Some (p, c)
  | S f => match call_step p c answer with Some (p', c') => alone f p' c' answer | None => None end
  end.

Record server_pool := mkServers { pool : MirrorPool; ongoing : list call }.
Inductive mevent := Calls (replayable : bool) | Goes (i : nat) (answer : bytes -> A) | Replaced (primary : bytes) (extras : list bytes).
Definition mstep (s : server_pool) (e : mevent) : option server_pool :=
  match e with
  | Calls replayable => Some (mkServers (pool s) (ongoing s ++ [newCall (if replayable then Nat.max 1 (Len (pool s)) else 1)]))
  | Goes i answer =>
      match ongoing s !! i with
      | Some c => match call_step (pool s) c answer with
                  | Some (p, c') => Some (mkServers p (<[i := c']> (ongoing s)))
                  | None => None
                  end
      | None => Some s
      end
  | Replaced primary extras => Some (mkServers (Replace (pool s) primary extras) (ongoing s))
  end.
Fixpoint mrun (s : server_pool) (evs : list mevent) : option server_pool :=
  match evs with [] => Some s | e :: evs' => match mstep s e with Some s' => mrun s' evs' | None => None end end.
End Failover.
Arguments call A : clear implicits.
Arguments server_pool A : clear implicits.
Arguments mevent A : clear implicits.

(** What a call that runs alone returns, with the pool it leaves and the mirrors it asked. *)
Definition result_of {A} (r : option (MirrorPool * call A)) : option (A * MirrorPool * list bytes) :=
  match r with
  | Some (p, c) => match phase c with CEnd a => Some (a, p, tried c) | _ => None end
  | None => None
  end.
(** The loop of the client: an answer is the error of [fn], or none. *)
Definition withMirrorFailover (p : MirrorPool) (fn : bytes -> option nerr) : option (option nerr * MirrorPool * list bytes) :=
  let n := Nat.max 1 (Len p) in result_of (alone IsTransient (fun e => e) (3 * n) p (newCall n) fn).
(** The loop of the transport: an error, or a response with its status and body. *)
Inductive tanswer := TErr (e : nerr) | TResp (status : Z) (body : option bytes).
Definition send_again (errorResponse : bytes -> option (bytes * bytes)) (a : tanswer) : bool :=
  match a with
  | TErr e => IsTransient (Some e)
  | TResp status body => (400 <=? status) && IsTransient (Some (http_error (classifyStatus errorResponse status body)))
  end.
Definition last_error (a : tanswer) : tanswer :=
  match a with TErr e => TErr e | TResp status _ => TErr (plain_error (str "mirror: HTTP " ++ Itoa status)) end.
(** A body that cannot be replayed is sent once. *)
Definition RoundTrip (errorResponse : bytes -> option (bytes * bytes)) (p : MirrorPool) (replayable : bool) (inner : bytes -> tanswer)
    : option (tanswer * MirrorPool * list bytes) :=
  let n := if replayable then Nat.max 1 (Len p) else 1%nat in result_of (alone (send_again errorResponse) last_error (3 * n) p (newCall n) inner).

(** * The list of mirrors *)

Record MirrorEntry := mkEntry { URL : bytes; Primary : bool }.
(** What asking one address for the list comes to. *)
Inductive listed := NoList | Listed (status : Z) (decoded : option (list MirrorEntry)).
Definition list_ok (l : listed) : option (list MirrorEntry) :=
  match l with
  | NoList => None
  | Listed status decoded =>
      if 400 <=? status then None
      else match decoded with Some [] | None => None | Some l => Some l end
  end.
Fixpoint fetchMirrorsJSON (ask : bytes -> listed) (urls : list bytes) : option (list MirrorEntry) :=
  match urls with
  | [] => None
  | u :: urls' => match list_ok (ask u) with Some l => Some l | None => fetchMirrorsJSON ask urls' end
  end.
Definition FetchMirrors (ask : bytes -> listed) (candidates : list bytes) : option (list MirrorEntry) :=
  fetchMirrorsJSON ask (map (fun b => b ++ str "/api/v1/mirrors") (List.filter (fun b => negb (bytes_eqb b [])) candidates)).
Definition mirrorsIPFSCID : bytes := str "bafybeigwux74fek7uky7nct47z5eqwwnpylakfxppqqnzbuxdw7p3ikfdy".
Definition DefaultStaticFallbackURLs : list bytes :=
  [str "https://ipfs.io/ipfs/" ++ mirrorsIPFSCID ++ str "/mirrors.json";
   str "https://dweb.link/ipfs/" ++ mirrorsIPFSCID ++ str "/mirrors.json";
   str "https://gateway.pinata.cloud/ipfs/" ++ mirrorsIPFSCID ++ str "/mirrors.json"].
Definition FetchMirrorsWithFallback (ask : bytes -> listed) (candidates : list bytes) : option (list MirrorEntry) :=
  match FetchMirrors ask candidates with Some l => Some l | None => fetchMirrorsJSON ask DefaultStaticFallbackURLs end.
Definition ToConfig (m : list MirrorEntry) : bytes * list bytes :=
  let picked := match List.filter Primary m with e :: _ => Some e | [] => head m end in
  let primary := match picked with Some e => URL e | None => [] end in
  (primary, map URL (List.filter (fun e => negb (bytes_eqb (URL e) primary)) m)).

(** * Lemmas *)

Definition normal (raw : bytes) : bytes := TrimRightSlash (TrimSpace raw).
Lemma add_spec out raw x : x ∈ add out raw <-> x ∈ out \/ (x = normal raw /\ x <> []).
Proof.
  unfold add. fold (normal raw). destruct (bytes_eqb (normal raw) []) eqn:E.
  - apply bytes_eqb_eq in E. rewrite E. split; [by left|intros [?|[-> ?]]; done].
  - assert (N : normal raw <> []) by (intros H; rewrite H in E; done). destruct (existsb (bytes_eqb (normal raw)) out) eqn:X.
    + apply existsb_exists in X as (y & Hy & E'). apply bytes_eqb_eq in E'. apply list_elem_of_In in Hy. split; [by left|intros [?|[-> _]]; congruence].
    + rewrite elem_of_app, list_elem_of_singleton. split; [intros [?| ->]; [by left|by right]|intros [?|[-> ?]]; [by left|by right]].
Qed.
Lemma add_nodup out raw : NoDup out -> NoDup (add out raw).
Proof.
  intros D. unfold add. fold (normal raw). destruct (bytes_eqb _ _); [done|]. destruct (existsb _ out) eqn:X; [done|].
  apply NoDup_app. split_and!; [done| |by apply NoDup_singleton]. intros x Hx ->%list_elem_of_singleton.
  apply not_true_iff_false in X. apply X, existsb_exists. exists (normal raw). split; [by apply list_elem_of_In|apply bytes_eqb_refl].
Qed.
Lemma adds_spec extras : forall out, (NoDup out -> NoDup (fold_left add extras out))
  /\ forall x, x ∈ fold_left add extras out <-> x ∈ out \/ (x <> [] /\ exists raw, raw ∈ extras /\ x = normal raw).
Proof.
  induction extras as [|r extras IH]; intros out; cbn.
  - split; [done|]. intros x. split; [by left|intros [?|(_ & y & ?%elem_of_nil & _)]; done].
  - destruct (IH (add out r)) as [D S]. split; [intros; by apply D, add_nodup|]. intros x. rewrite S, add_spec. split.
    + intros [[?|[-> ?]]|(? & y & ? & ?)]; [by left|right; split; [done|]; exists r; by split; [left|]|right; split; [done|]; exists y; by split; [right|]].
    + intros [?|(? & y & Hy & ->)]; [by left; left|]. apply elem_of_cons in Hy as [-> |Hy]; [left; right; done|right; split; [done|]; by exists y].
Qed.
Lemma new_pool primary extras :
  let p := NewMirrorPool primary extras in
  NoDup (mirrors p) /\ current p = 0%nat /\ mirrors p <> []
  /\ forall x, x <> [] -> x ∈ mirrors p <-> exists raw, raw ∈ primary :: extras /\ x = normal raw.
Proof.
  unfold NewMirrorPool. change (fold_left add extras (add [] primary)) with (fold_left add (primary :: extras) []).
  destruct (adds_spec (primary :: extras) []) as [D S]. specialize (D (NoDup_nil_2)). destruct (fold_left add (primary :: extras) []) as [|y out] eqn:E; cbn.
  - split_and!; [by apply NoDup_singleton|done|done|]. intros x N. rewrite list_elem_of_singleton. split; [done|]. intros H.
    assert (X : x ∈ []) by (apply S; right; done). by apply elem_of_nil in X.
  - split_and!; try done. intros x N. rewrite S. split; [intros [?%elem_of_nil|[_ ?]]; done|]. by right.
Qed.
Definition pool_ok (p : MirrorPool) : Prop := (current p < Len p)%nat /\ NoDup (mirrors p).
Lemma new_pool_ok primary extras : pool_ok (NewMirrorPool primary extras).
Proof. destruct (new_pool primary extras) as (D & C & N & _). split; [|done]. rewrite C. unfold Len. destruct (mirrors _); [done|cbn; lia]. Qed.
Lemma replace_ok p primary extras : pool_ok (Replace p primary extras).
Proof. destruct (new_pool_ok primary extras) as [C D]. destruct (new_pool primary extras) as (_ & E & _). rewrite E in C. by split. Qed.
Lemma rotate_ok p : pool_ok p -> pool_ok (fst (Rotate p)) /\ mirrors (fst (Rotate p)) = mirrors p.
Proof.
  intros [C D]. unfold Rotate. destruct (Len p <=? 1)%nat eqn:E; cbn; [done|]. apply Nat.leb_gt in E. split; [|done]. split; cbn; [|done].
  unfold Len in *. cbn. apply Nat.mod_upper_bound. lia.
Qed.
Lemma current_some p : pool_ok p -> exists m, Current p = Some m.
Proof. intros [C _]. by apply lookup_lt_is_Some in C. Qed.

(** The mirrors in the order in which a call asks them. *)
Definition nth_mirror (p : MirrorPool) (k : nat) : bytes := mirrors p !!! ((current p + k) mod Len p)%nat.
Definition order (p : MirrorPool) : list bytes := map (nth_mirror p) (seq 0 (Len p)).
Lemma order_lookup p k : (k < Len p)%nat -> order p !! k = Some (nth_mirror p k).
Proof. intros. unfold order. by rewrite list_lookup_fmap, lookup_seq_lt. Qed.
Lemma order_covers p m : pool_ok p -> m ∈ mirrors p -> exists k, (k < Len p)%nat /\ nth_mirror p k = m.
Proof.
  intros [C _] [j Lj]%list_elem_of_lookup. pose proof (lookup_lt_Some _ _ _ Lj) as Jl. fold (Len p) in Jl.
  exists ((j + (Len p - current p)) mod Len p)%nat. split; [apply Nat.mod_upper_bound; lia|]. unfold nth_mirror.
  rewrite Nat.Div0.add_mod_idemp_r. replace (current p + (j + (Len p - current p)))%nat with (j + 1 * Len p)%nat by lia.
  rewrite Nat.Div0.mod_add, Nat.mod_small by done. by apply list_lookup_total_correct.
Qed.
Lemma rotate_nth p k : pool_ok p -> (1 < Len p)%nat ->
  let q := fst (Rotate p) in snd (Rotate p) = true /\ Len q = Len p /\ nth_mirror q k = nth_mirror p (S k).
Proof.
  intros [C _] L. unfold Rotate. destruct (Nat.leb_spec (Len p) 1); [lia|]. cbn. split_and!; try done. unfold nth_mirror, Len at 1. cbn. fold (Len p).
  rewrite Nat.Div0.add_mod_idemp_l. do 2 f_equal. lia.
Qed.
Section Loop.
Context {A : Type} (again : A -> bool) (stuck_with : A -> A).
(** From the round in which the call looks, with [k] rounds behind it. *)
Lemma alone_from (answer : bytes -> A) : forall left p c,
  pool_ok p -> phase c = CLook -> (round c + S left = attempts c)%nat -> (attempts c = 1 \/ attempts c <= Len p)%nat ->
  exists k p' c', alone again stuck_with (3 * S left) p c answer = Some (p', c') /\ (k <= left)%nat
    /\ tried c' = tried c ++ map (nth_mirror p) (seq 0 (S k)) /\ phase c' = CEnd (answer (nth_mirror p k)) /\ Current p' = Some (nth_mirror p k)
    /\ (forall j, (j < k)%nat -> again (answer (nth_mirror p j)) = true) /\ (again (answer (nth_mirror p k)) = false \/ k = left).
Proof.
  assert (Stay : forall n p c a, phase c = CEnd a -> alone again stuck_with n p c answer = Some (p, c)).
  { induction n as [|n IH]; intros p c a E; [done|]. cbn. unfold call_step. rewrite E. by eapply IH. }
  induction left as [|left IH]; intros p c O P R AT.
  - destruct (current_some p O) as [m M]. assert (Nm : nth_mirror p 0 = m).
    { unfold nth_mirror. rewrite Nat.add_0_r, Nat.mod_small by apply O. by apply list_lookup_total_correct. }
    exists 0%nat, p, (mkCall (attempts c) (round c) (tried c ++ [m]) (CEnd (answer m))). rewrite Nm. split_and!; try done; try (intros; lia); try (by right).
    + change (3 * 1)%nat with 3%nat. cbn [alone]. unfold call_step at 1. rewrite P, M. cbn [alone call_step phase attempts round tried].
      replace (round c =? attempts c - 1)%nat with true by (symmetry; apply Nat.eqb_eq; lia). by destruct (again (answer m)).
    + cbn. by rewrite Nm.
  - destruct (current_some p O) as [m M]. assert (Nm : nth_mirror p 0 = m).
    { unfold nth_mirror. rewrite Nat.add_0_r, Nat.mod_small by apply O. by apply list_lookup_total_correct. }
    replace (3 * S (S left))%nat with (S (S (S (3 * S left)))) by lia.
    destruct (again (answer m)) eqn:E.
    + assert (L : (1 < Len p)%nat) by lia. destruct (rotate_nth p 0 O L) as (Rt & Lq & _). destruct (rotate_ok p O) as [Oq _].
      set (q := fst (Rotate p)) in *.
      destruct (IH q (mkCall (attempts c) (S (round c)) (tried c ++ [m]) CLook) Oq eq_refl) as (k & p' & c' & X1 & X2 & X3 & X4 & X5 & X6 & X7); [cbn; lia|cbn; lia|].
      assert (Nk : forall j, nth_mirror q j = nth_mirror p (S j)) by (intros j; apply (rotate_nth p j O L)).
      exists (S k), p', c'. rewrite <- (Nk k). split_and!; try done; try lia.
      * cbn [alone]. unfold call_step at 1. rewrite P, M. cbn [alone]. unfold call_step at 1. cbn [phase attempts round tried]. rewrite E.
        replace (round c =? attempts c - 1)%nat with false by (symmetry; apply Nat.eqb_neq; lia). cbn [negb]. unfold call_step at 1. cbn [phase].
        rewrite (surjective_pairing (Rotate p)), Rt. fold q. exact X1.
      * rewrite X3. cbn [tried]. rewrite <- app_assoc. f_equal. change (seq 0 (S (S k))) with (0%nat :: seq 1 (S k)). rewrite map_cons, Nm. cbn [app]. f_equal.
        rewrite <- (fmap_S_seq 0 (S k)), map_map. apply map_ext. intros j. apply Nk.
      * intros [|j] Hj; [by rewrite Nm|]. rewrite <- Nk. apply X6. lia.
      * destruct X7 as [?|X7]; [by left|right; lia].
    + exists 0%nat, p, (mkCall (attempts c) (round c) (tried c ++ [m]) (CEnd (answer m))). rewrite Nm. split_and!; try done; try (intros; lia); try (by left).
      * cbn [alone]. unfold call_step at 1. rewrite P, M. cbn [alone]. unfold call_step at 1. cbn [phase attempts round tried]. rewrite E. cbn [negb].
        by eapply (Stay (S (3 * S left))).
      * cbn. by rewrite Nm.
Qed.
End Loop.

(** * Properties *)

Lemma nth_mirror_inj p i j : pool_ok p -> (i < Len p)%nat -> (j < Len p)%nat -> nth_mirror p i = nth_mirror p j -> i = j.
Proof.
  intros [C D] Hi Hj E. assert (W : forall k, (k < Len p)%nat -> ((current p + k) mod Len p = if current p + k <? Len p then current p + k else current p + k - Len p)%nat).
  { intros k Hk. destruct (Nat.ltb_spec (current p + k) (Len p)); [by apply Nat.mod_small|].
    replace (current p + k)%nat with ((current p + k - Len p) + 1 * Len p)%nat at 1 by lia. rewrite Nat.Div0.mod_add. apply Nat.mod_small. lia. }
  unfold nth_mirror in E. assert (L : forall k, (k < Len p)%nat -> mirrors p !! ((current p + k) mod Len p)%nat = Some (mirrors p !!! ((current p + k) mod Len p)%nat)).
  { intros k Hk. apply list_lookup_lookup_total_lt. unfold Len in *; apply Nat.mod_upper_bound; lia. }
  assert (I : ((current p + i) mod Len p = (current p + j) mod Len p)%nat) by (eapply NoDup_lookup; [exact D|by apply L|rewrite E; by apply L]).
  rewrite (W i Hi), (W j Hj) in I. destruct (Nat.ltb_spec (current p + i) (Len p)), (Nat.ltb_spec (current p + j) (Len p)); lia.
Qed.
Lemma order_nodup p : pool_ok p -> NoDup (order p).
Proof.
  intros O. apply NoDup_alt. intros i j x Hi Hj. pose proof (lookup_lt_Some _ _ _ Hi) as Li. pose proof (lookup_lt_Some _ _ _ Hj) as Lj.
  unfold order in Li, Lj. rewrite length_map, length_seq in Li, Lj. rewrite order_lookup in Hi, Hj by done. apply (nth_mirror_inj p); try done. congruence.
Qed.
(** The outcome of a call on its own: mirrors in order, each once, up to the first whose
    answer is final, which becomes the current one. *)
Definition asked_in_order {A} (again : A -> bool) (answer : bytes -> A) (p : MirrorPool) (a : A) (p' : MirrorPool) (tried : list bytes) : Prop :=
  exists m, last tried = Some m /\ a = answer m /\ Current p' = Some m /\ NoDup tried /\ tried `prefix_of` order p
  /\ (forall x, x ∈ tried -> x <> m -> again (answer x) = true)
  /\ ((exists x, x ∈ mirrors p /\ again (answer x) = false) -> again a = false).
Lemma call_in_order {A} (again : A -> bool) (stuck_with : A -> A) answer p : pool_ok p ->
  exists a p' t, result_of (alone again stuck_with (3 * Nat.max 1 (Len p)) p (newCall (Nat.max 1 (Len p))) answer) = Some (a, p', t)
    /\ asked_in_order again answer p a p' t.
Proof.
  intros O. pose proof O as [C _]. replace (Nat.max 1 (Len p)) with (S (Len p - 1)) by lia.
  destruct (alone_from again stuck_with answer (Len p - 1) p (newCall (S (Len p - 1))) O eq_refl eq_refl ltac:(cbn; lia)) as (k & p' & c' & E & K & T & P & Cu & B & F).
  rewrite E. cbn. rewrite P. cbn in T. eexists _, _, _. split; [done|]. exists (nth_mirror p k).
  assert (Pre : tried c' `prefix_of` order p).
  { rewrite T. exists (map (nth_mirror p) (seq (S k) (Len p - S k))). unfold order. change (nth_mirror p 0 :: map (nth_mirror p) (seq 1 k)) with (map (nth_mirror p) (seq 0 (S k))).
    rewrite <- map_app, <- seq_app. do 2 f_equal. lia. }
  assert (Tk : tried c' = map (nth_mirror p) (seq 0 (S k))) by done. split_and!; try done.
  - rewrite Tk, seq_S, map_app. cbn [map]. by rewrite last_snoc.
  - destruct Pre as [x Ex]. pose proof (order_nodup p O) as D. rewrite Ex in D. by apply NoDup_app in D as (? & _ & _).
  - intros x Hx Ne. rewrite Tk in Hx. apply list_elem_of_fmap in Hx as (j & -> & Hj). apply elem_of_seq in Hj. apply B.
    assert (j <> k) by (intros ->; done). lia.
  - intros (x & Hx & Fx). destruct F as [F|F]; [done|]. destruct (order_covers p x O Hx) as (j & Hj & <-).
    destruct (decide (j = k)) as [-> |N]; [done|]. rewrite B in Fx by lia. done.
Qed.
(** C26: One mirror that answers is enough.  A call of the client or a replayable request of
    the transport that runs alone always comes back: it asks the mirrors in order from the
    current one, each at most once, goes on only after transient failures, returns the last
    answer and leaves that mirror current; so whenever some mirror gives a final answer, a
    final answer is returned.  A body that cannot be replayed goes to one mirror. *)
Theorem failover_reaches er p fn inner :
  pool_ok p ->
  (exists e p' t, withMirrorFailover p fn = Some (e, p', t) /\ asked_in_order IsTransient fn p e p' t)
  /\ (exists a p' t, RoundTrip er p true inner = Some (a, p', t) /\ asked_in_order (send_again er) inner p a p' t)
  /\ (exists m, Current p = Some m /\ RoundTrip er p false inner = Some (inner m, p, [m])).
Proof.
  intros O. split_and!; [by apply call_in_order|by apply call_in_order|]. destruct (current_some p O) as [m M]. exists m. split; [done|].
  unfold RoundTrip. cbn. unfold call_step at 1. cbn. rewrite M. cbn. by destruct (send_again er (inner m)).
Qed.

Section Interleaved.
Context {A : Type} (again : A -> bool) (stuck_with : A -> A).
(** Requests made so far, and steps a call has left. *)
Definition call_ok (c : call A) : Prop :=
  (round c < attempts c)%nat /\ length (tried c) = match phase c with CLook => round c | _ => S (round c) end.
Definition steps_left (c : call A) : nat :=
  match phase c with
  | CLook => 3 * (attempts c - round c) | CAsk _ => 3 * (attempts c - round c) - 1 | CRotate _ => 3 * (attempts c - round c) - 2 | CEnd _ => 0
  end.
(** A call that has to rotate is not in its last round. *)
Definition turning (c : call A) : Prop := match phase c with CRotate _ => (round c < attempts c - 1)%nat | _ => True end.
Lemma call_step_ok p c answer : pool_ok p -> call_ok c -> turning c ->
  exists p' c', call_step again stuck_with p c answer = Some (p', c') /\ pool_ok p' /\ call_ok c' /\ turning c' /\ attempts c' = attempts c
    /\ (steps_left c' <= steps_left c - 1)%nat /\ (forall a, phase c = CEnd a -> c' = c).
Proof.
  intros O [R T] U. unfold call_step, turning in *. destruct (phase c) as [|base|a|a] eqn:P.
  - destruct (current_some p O) as [m ->]. eexists _, _. split; [done|]. unfold call_ok, steps_left. cbn. rewrite P, length_app, T. split_and!; try done; cbn; lia.
  - eexists _, _. split; [done|]. unfold call_ok, steps_left. cbn. rewrite P.
    destruct (again (answer base)); [destruct (Nat.eqb_spec (round c) (attempts c - 1))|]; cbn; split_and!; try done; lia.
  - destruct (rotate_ok p O) as [O' _]. destruct (Rotate p) as [q [|]] eqn:E; eexists _, _; (split; [done|]); unfold call_ok, steps_left; cbn; rewrite P; split_and!; try done; lia.
  - exists p, c. split_and!; try done. + unfold call_ok. by rewrite P. + by rewrite P. + unfold steps_left. rewrite P. lia.
Qed.
Definition servers_ok (s : server_pool A) : Prop := pool_ok (pool s) /\ Forall (fun c => call_ok c /\ turning c) (ongoing s).
Lemma mstep_ok s e : servers_ok s ->
  exists s', mstep again stuck_with s e = Some s' /\ servers_ok s'
  /\ forall i c, ongoing s !! i = Some c -> exists c', ongoing s' !! i = Some c' /\ attempts c' = attempts c
       /\ (steps_left c' <= steps_left c - match e with Goes j _ => if (j =? i)%nat then 1 else 0 | _ => 0 end)%nat.
Proof.
  intros [O F]. destruct e as [replayable|i answer|primary extras]; cbn.
  - eexists. split; [done|]. split.
    + split; [done|]. cbn. apply Forall_app. split; [done|]. constructor; [|done]. split; [|done]. split; cbn; [destruct replayable; lia|done].
    + intros i c L. exists c. cbn. split_and!; [by apply lookup_app_l_Some|done|lia].
  - destruct (ongoing s !! i) as [c|] eqn:L.
    + pose proof (Forall_lookup_1 _ _ _ _ F L) as [K U]. destruct (call_step_ok (pool s) c answer O K U) as (p' & c' & -> & O' & K' & U' & At & St & _).
      eexists. split; [done|]. split; [split; cbn; [done|]; by apply Forall_insert|]. intros j d Lj. cbn. destruct (Nat.eqb_spec i j) as [-> |N].
      * rewrite L in Lj. injection Lj as <-. exists c'. split_and!; [|done|done]. apply list_lookup_insert_eq. by eapply lookup_lt_Some.
      * exists d. rewrite list_lookup_insert_ne by done. split_and!; [done|done|lia].
    + exists s. split_and!; try done. intros j d Lj. exists d. split_and!; try done. destruct (Nat.eqb_spec i j) as [-> |_]; [congruence|lia].
  - eexists. split; [done|]. split; [split; cbn; [apply replace_ok|done]|]. intros i c L. exists c. split_and!; [done|done|lia].
Qed.
Definition goes (i : nat) (e : mevent A) : nat := match e with Goes j _ => if (j =? i)%nat then 1 else 0 | _ => 0 end.
Lemma mrun_ok evs : forall s, servers_ok s ->
  exists s', mrun again stuck_with s evs = Some s' /\ servers_ok s'
  /\ forall i c, ongoing s !! i = Some c -> exists c', ongoing s' !! i = Some c' /\ attempts c' = attempts c
       /\ (steps_left c' <= steps_left c - sum_list_with (goes i) evs)%nat.
Proof.
  induction evs as [|e evs IH]; intros s O; [exists s; split_and!; try done; intros i c L; exists c; split_and!; try done; cbn; lia|].
  cbn [mrun]. destruct (mstep_ok s e O) as (s1 & -> & O1 & P1). destruct (IH s1 O1) as (s2 & -> & O2 & P2). exists s2. split_and!; try done.
  intros i c L. destruct (P1 i c L) as (c1 & L1 & A1 & S1). destruct (P2 i c1 L1) as (c2 & L2 & A2 & S2). exists c2. split_and!; [done|congruence|].
  cbn [sum_list_with]. unfold goes at 1. destruct e; lia.
Qed.
End Interleaved.

(** However calls, their rotations and replacements of the list interleave: the pool
    always has a current mirror, so no call panics; no call makes more requests than it
    had mirrors when it began; and a call that has taken three steps per attempt has
    ended, whatever the others do to the pool. *)
Lemma calls_bounded {A} (again : A -> bool) (stuck_with : A -> A) primary extras evs evs' :
  exists s s', mrun again stuck_with (mkServers (NewMirrorPool primary extras) []) evs = Some s /\ mrun again stuck_with s evs' = Some s'
  /\ (exists m, Current (pool s) = Some m)
  /\ (forall c, c ∈ ongoing s -> (length (tried c) <= attempts c)%nat)
  /\ (forall i c, ongoing s !! i = Some c -> (3 * attempts c <= sum_list_with (goes i) evs')%nat ->
        exists c' a, ongoing s' !! i = Some c' /\ phase c' = CEnd a).
Proof.
  assert (O : servers_ok (mkServers (A:=A) (NewMirrorPool primary extras) [])) by (split; [apply new_pool_ok|constructor]).
  destruct (mrun_ok again stuck_with evs _ O) as (s & E & Os & _). destruct (mrun_ok again stuck_with evs' s Os) as (s' & E' & Os' & P). exists s, s'. split_and!; try done.
  - apply current_some, Os.
  - intros c Hc. destruct Os as [_ F]. rewrite Forall_forall in F. destruct (F c Hc) as [[R ->] _]. destruct (phase c); lia.
  - intros i c L G. destruct (P i c L) as (c' & L' & A' & S'). destruct Os' as [_ F']. pose proof (Forall_lookup_1 _ _ _ _ F' L') as [[R _] U].
    assert (Z : steps_left c' = 0%nat) by (unfold steps_left in S' at 2; destruct (phase c); lia).
    exists c'. unfold steps_left, turning in *. destruct (phase c') as [|?|?|a]; [lia|lia|lia|]. by exists a.
Qed.

(** The list that an update brings is the pool's new list: the primary first, every other
    mirror, once, and nothing else. *)
Lemma update_keeps_mirrors m x : x <> [] ->
  let '(primary, extras) := ToConfig m in x ∈ mirrors (NewMirrorPool primary extras) <-> exists e, e ∈ m /\ x = normal (URL e).
Proof.
  intros N. destruct (ToConfig m) as [primary extras] eqn:T. unfold ToConfig in T. set (picked := match List.filter Primary m with e :: _ => Some e | [] => head m end) in T.
  injection T as Tp Te. assert (Pk : match picked with Some e => e ∈ m | None => m = [] end).
  { unfold picked. destruct (List.filter Primary m) as [|e l] eqn:E; [destruct m; [done|by left]|].
    assert (I : In e (List.filter Primary m)) by (rewrite E; by left). apply filter_In in I as [I _]. by apply list_elem_of_In. }
  destruct (new_pool primary extras) as (_ & _ & _ & S). rewrite (S x N). subst primary extras. split.
  - intros (raw & Hr & ->). apply elem_of_cons in Hr as [-> |Hr].
    + destruct picked as [e|]; [by exists e|]. by destruct N.
    + apply list_elem_of_In, in_map_iff in Hr as (e & <- & I). apply filter_In in I as [I _]. exists e. split; [by apply list_elem_of_In|done].
  - intros (e & He & ->). exists (URL e). split; [|done]. destruct picked as [f|] eqn:Pf; [|subst m; by apply elem_of_nil in He].
    destruct (bytes_eqb (URL e) (URL f)) eqn:E; [apply bytes_eqb_eq in E; rewrite E; by left|]. right. apply list_elem_of_In, in_map_iff. exists e. split; [done|].
    apply filter_In. split; [by apply list_elem_of_In|]. by rewrite E.
Qed.

(** * Mirrors *)

Definition demo_pool : MirrorPool := NewMirrorPool (str "https://a.example/") [str " https://b.example"; str "https://a.example"; str "https://c.example//"].
Lemma demo_pool_mirrors : mirrors demo_pool = [str "https://a.example"; str "https://b.example"; str "https://c.example"].
Proof. by vm_compute. Qed.
Definition refused : nerr := plain_error (str "dial tcp: connection refused").
(** Only the last mirror is up. *)
Definition demo_fn (base : bytes) : option nerr := if bytes_eqb base (str "https://c.example") then None else Some refused.
Lemma demo_failover : exists p', withMirrorFailover demo_pool demo_fn = Some (None, p', mirrors demo_pool) /\ Current p' = Some (str "https://c.example").
Proof. eexists. by vm_compute. Qed.
Lemma failover_reaches_witness :
  exists e p' t, withMirrorFailover demo_pool demo_fn = Some (e, p', t) /\ asked_in_order IsTransient demo_fn demo_pool e p' t.
Proof. exact (proj1 (failover_reaches (fun _ => None) demo_pool demo_fn (fun _ => TErr refused) (new_pool_ok (str "https://a.example/") [str " https://b.example"; str "https://a.example"; str "https://c.example//"]))). Defined.

(** Two calls fail on the first of two mirrors and both rotate: the pool is back where it
    was, and both calls end in an error though the second mirror is up. *)
Definition two_mirrors : MirrorPool := NewMirrorPool (str "https://a.example") [str "https://b.example"].
Definition up_b (base : bytes) : option nerr := if bytes_eqb base (str "https://b.example") then None else Some refused.
Lemma two_failovers_miss_live_mirror :
  match mrun IsTransient (fun e => e) (mkServers two_mirrors [])
          [Calls true; Calls true; Goes 0 up_b; Goes 1 up_b; Goes 0 up_b; Goes 1 up_b; Goes 0 up_b; Goes 1 up_b;
           Goes 0 up_b; Goes 1 up_b; Goes 0 up_b; Goes 1 up_b] with
  | Some s => map phase (ongoing s) = [CEnd (Some refused); CEnd (Some refused)]
              /\ map tried (ongoing s) = replicate 2 [str "https://a.example"; str "https://a.example"]
  | None => False
  end.
Proof. by vm_compute. Qed.
(** An internal server error does not send a call to the next mirror. *)
Lemma internal_error_is_final : IsTransient (Some (http_error (mkHTTPError 500 [] [] false 0))) = false.
Proof. done. Qed.
