(* ===== verification/DebridStream.v ===== *)
(** Streaming from a debrid link: engine/stream_source_debrid.go.

    A reader belongs to one request, so its methods pass its state; what the network and
    the provider's other readers do while one Read runs is a [world].  The refresh of an
    expired link is shared by all readers of a provider and is a machine whose events are
    its critical sections. *)
From Stdlib Require Import ZArith Lia.
From stdpp Require Import prelude list strings.
From S2P Require Import Prelude GoStrings.

Open Scope Z_scope.

(** * The size and the name *)

Definition COMMA : bytes := [44].
Definition MINUS : bytes := [45].
(** The text after the last slash. *)
Definition after_last_slash (v : bytes) : option bytes :=
  if bool_decide (SLASH ∈ v) then Some (rev (fst (span (fun b => negb (b =? SLASH)) (rev v)))) else None.
Definition totalFromContentRange (v : bytes) : option Z :=
  match after_last_slash v with
  | None => None
  | Some t => match ParseInt (TrimSpace t) with
              | (n, NumOk) => if n <=? 0 then None else Some n
              | _ => None
              end
  end.
(** What HEAD and the probe of one byte came back with; None for a failed request. *)
Definition debridHeadSize (head : option (Z * Z)) : option Z :=
  match head with
  | Some (status, contentLength) => if negb (status =? 200) || (contentLength <=? 0) then None else Some contentLength
  | None => None
  end.
Definition debridRangeSize (probe : option (Z * bytes)) : option Z :=
  match probe with
  | Some (status, contentRange) => if status =? 206 then totalFromContentRange contentRange else None
  | None => None
  end.
Definition resolveDebridSize (head : option (Z * Z)) (probe : option (Z * bytes)) (fallbackSize : Z) : Z :=
  match debridHeadSize head with
  | Some s => s
  | None => match debridRangeSize probe with
            | Some s => s
            | None => if 0 <? fallbackSize then fallbackSize else 0
            end
  end.
(** Milliseconds; [remaining] is the time to the deadline. *)
Definition debridProbeTimeout : Z := 15000.
Definition halfBudget (remaining : option Z) : Z :=
  match remaining with
  | None => debridProbeTimeout
  | Some t => let half := Z.quot t 2 in if half <=? 0 then 1 else half
  end.
Definition debridNameFromURL (rawURL : bytes) : bytes :=
  let u := fst (span (fun b => negb ((b =? 63) || (b =? 35))) rawURL) in
  let base := Base u in
  if bytes_eqb base [] || bytes_eqb base [DOT] || bytes_eqb base [SLASH] then str "video.mp4" else base.

Record provider := mkProvider { pUrl : bytes; pName : bytes; pSize : Z }.
Inductive perr := EmptyURL | UnknownSize.
Definition NewDebridFileProvider (directURL fileName : bytes) (fallbackSize : Z) (head : option (Z * Z)) (probe : option (Z * bytes)) : result perr provider :=
  if bytes_eqb directURL [] then Err EmptyURL
  else
    let size := resolveDebridSize head probe fallbackSize in
    if size <=? 0 then Err UnknownSize
    else
      let name := if bytes_eqb fileName [] || bytes_eqb (Ext fileName) [] then debridNameFromURL directURL else fileName in
      Ok (mkProvider directURL name size).

(** * The reader *)

Inductive bodyEnd := BEOF | BErr.
(** What is still to come of a response, and how it ends. *)
Record hbody := mkBody { bleft : bytes; bend : bodyEnd }.
Record dreader := mkReader { size : Z; pos : Z; body : option hbody; bodyAt : Z; limitStart : Z; limitEnd : Z }.
Inductive derr := EOF | BuildFailed | GetFailed | IgnoredRange | RefreshFailed (status : Z) | UnexpectedStatus (status : Z)
| StillFailing | BodyFailed | InvalidWhence | NegativePos.

Definition NewFileReader (p : provider) : dreader := mkReader (pSize p) 0 None 0 (-1) (-1).
Definition with_body (r : dreader) (b : option hbody) (at_ : Z) : dreader := mkReader (size r) (pos r) b at_ (limitStart r) (limitEnd r).
Definition with_pos (r : dreader) (p : Z) : dreader := mkReader (size r) p (body r) (bodyAt r) (limitStart r) (limitEnd r).
Definition with_limit (r : dreader) (a b : Z) : dreader := mkReader (size r) (pos r) (body r) (bodyAt r) a b.

Definition maxDebridReusableRange : Z := 16 * 2 ^ 20.
Definition LimitRange (r : dreader) (header : bytes) : dreader :=
  let none := with_limit r (-1) (-1) in
  match cut_prefix (str "bytes=") header with
  | None => none
  | Some spec =>
      if match index COMMA header with Some _ => true | None => false end then none
      else match index MINUS spec with
           | None => none
           | Some dash =>
               if (dash =? 0)%nat || (dash =? length spec - 1)%nat then none
               else match ParseInt (TrimSpace (take dash spec)), ParseInt (TrimSpace (drop (S dash) spec)) with
                    | (start, NumOk), (end_, NumOk) =>
                        if (start <? 0) || (end_ <? start) || (maxDebridReusableRange <? wrap_i64 (end_ - start + 1)) then none
                        else with_limit r start end_
                    | _, _ => none
                    end
           end
  end.

Inductive reply := NoAnswer | Answer (status : Z) (b : hbody).
(** What one Read meets, by attempt: the provider's URL, the server's answer to a URL and
    a range, whether a refresh gives a link; and how many bytes come, at most, and whether
    the end comes with the last of them. *)
Record world := mkWorld {
  urlAt : nat -> bytes; parses : bytes -> bool; serve : nat -> bytes -> Z -> option Z -> reply; refreshed : nat -> bool;
  comes : nat; eager : bool
}.
Inductive action := Get (url : bytes) (from : Z) (to : option Z) | Refresh.

Definition maxAttempts : nat := 2.
Definition range_end (r : dreader) : option Z :=
  if (pos r <=? limitEnd r) && (limitStart r <=? pos r) then Some (limitEnd r) else None.
Definition expired (status : Z) : bool := (status =? 401) || (status =? 403) || (status =? 404) || (status =? 410).
(** The loop from [attempt] on, [k] attempts to go. *)
Fixpoint reopen_loop (w : world) (r : dreader) (attempt k : nat) : dreader * option derr * list action :=
  match k with
  | O => (r, Some StillFailing, [])
  | S k' =>
      let url := urlAt w attempt in
      if negb (parses w url) then (r, Some BuildFailed, [])
      else
        let g := Get url (pos r) (range_end r) in
        match serve w attempt url (pos r) (range_end r) with
        | NoAnswer => (r, Some GetFailed, [g])
        | Answer st b =>
            if st =? 206 then (with_body r (Some b) (pos r), None, [g])
            else if st =? 200 then
              if pos r =? 0 then (with_body r (Some b) (pos r), None, [g]) else (r, Some IgnoredRange, [g])
            else if st =? 416 then (r, Some EOF, [g])
            else if expired st then
              if refreshed w attempt then let '(r', e, l) := reopen_loop w r (S attempt) k' in (r', e, g :: Refresh :: l)
              else (r, Some (RefreshFailed st), [g; Refresh])
            else (r, Some (UnexpectedStatus st), [g])
        end
  end.
Definition reopen (w : world) (r : dreader) : dreader * option derr * list action :=
  reopen_loop w (with_body r None (bodyAt r)) 0 maxAttempts.

(** One Read of the body into [plen] bytes. *)
Definition body_read (w : world) (b : hbody) (plen : nat) : bytes * option bodyEnd * hbody :=
  let n := Nat.min (comes w) (Nat.min plen (length (bleft b))) in
  let rest := drop n (bleft b) in
  (take n (bleft b), if bool_decide (bleft b = []) || (bool_decide (rest = []) && eager w) then Some (bend b) else None, mkBody rest (bend b)).
(** The end of Read, with the body it reads from. *)
Definition read_body (w : world) (r : dreader) (b : hbody) (plen : nat) : bytes * option derr * dreader :=
  let '(out, err, b') := body_read w b plen in
  let pos' := pos r + Z.of_nat (length out) in
  let r' := with_body (with_pos r pos') (Some b') pos' in
  match err with
  | None => (out, None, r')
  | Some BErr => (out, Some BodyFailed, r')
  | Some BEOF => (out, if (0 <? size r) && (pos' <? size r) then None else Some EOF, with_body r' None pos')
  end.
Definition Read (w : world) (r : dreader) (plen : nat) : bytes * option derr * dreader * list action :=
  if (0 <? size r) && (size r <=? pos r) then ([], Some EOF, r, [])
  else
    let open_ := match body r with Some b => if pos r =? bodyAt r then Some b else None | None => None end in
    match open_ with
    | Some b => (read_body w r b plen, [])
    | None =>
        let '(r', e, l) := reopen w r in
        match e, body r' with
        | None, Some b => (read_body w r' b plen, l)
        | None, None => ([], None, r', l)      (* not reached: reopen without an error opens *)
        | Some x, _ => ([], Some x, r', l)
        end
    end.
Definition Seek (r : dreader) (offset whence : Z) : result derr Z * dreader :=
  let go abs := if abs <? 0 then (Err NegativePos, r) else (Ok abs, with_pos r abs) in
  if whence =? 0 then go offset
  else if whence =? 1 then go (wrap_i64 (pos r + offset))
  else if whence =? 2 then go (wrap_i64 (size r + offset))
  else (Err InvalidWhence, r).
Definition Close (r : dreader) : dreader := with_body r None (bodyAt r).

(** ** A reader in use *)

Inductive op := ORead (w : world) (plen : nat) | OSeek (offset whence : Z) | OLimit (header : bytes) | OClose.
(** A read, with the position it began at and the one it left. *)
Record done_read := mkDone { from : Z; out : bytes; err : option derr; till : Z; asked : nat }.
Fixpoint use (r : dreader) (ops : list op) : dreader * list done_read :=
  match ops with
  | [] => (r, [])
  | o :: ops' =>
      match o with
      | ORead w plen =>
          let '(b, e, r', _) := Read w r plen in
          let '(r2, l) := use r' ops' in (r2, mkDone (pos r) b e (pos r') plen :: l)
      | OSeek offset whence => use (snd (Seek r offset whence)) ops'
      | OLimit header => use (LimitRange r header) ops'
      | OClose => use (Close r) ops'
      end
  end.
(** Reading on until an error, as io.Copy does: one world and buffer per read. *)
Fixpoint read_all (r : dreader) (reads : list (world * nat)) : bytes * option derr :=
  match reads with
  | [] => ([], None)
  | (w, plen) :: reads' =>
      match Read w r plen with
      | (b, Some e, _, _) => (b, Some e)
      | (b, None, r', _) => let '(bs, e) := read_all r' reads' in (b ++ bs, e)
      end
  end.

(** * The refresh of a link *)

(** How a refresh ends: a link, an error of the resolver, or the end of the caller's
    context. *)
Inductive fresh := Link (u : bytes) | ResolveFailed | CtxEnded | NoRefresher.
Inductive rphase := RLook | RWait (c : nat) | RResolve (c : nat) | RDone (f : fresh).
(** [results] has one entry per refresh that was started, None while it runs. *)
Record links := mkLinks { url : bytes; lastRefreshAt : option Z; inflight : option nat; results : list (option fresh); callers : list rphase }.
Inductive revent := Asks | Look (i : nat) (now : Z) | Resolved (i : nat) (f : fresh) (now : Z) | Wakes (i : nat) | CtxDone (i : nat).
Definition set_caller (s : links) (i : nat) (ph : rphase) : links :=
  mkLinks (url s) (lastRefreshAt s) (inflight s) (results s) (<[i := ph]> (callers s)).
Definition recent (s : links) (now : Z) : bool :=
  match lastRefreshAt s with Some t => now - t <? 5000 | None => false end && negb (bytes_eqb (url s) []).
(** refreshURL, by critical section; [canRefresh] is a refresher that is not nil. *)
Definition refresh_step (canRefresh : bool) (s : links) (e : revent) : links :=
  match e with
  | Asks => mkLinks (url s) (lastRefreshAt s) (inflight s) (results s) (callers s ++ [if canRefresh then RLook else RDone NoRefresher])
  | Look i now =>
      match callers s !! i with
      | Some RLook =>
          if recent s now then set_caller s i (RDone (Link (url s)))
          else match inflight s with
               | Some c => set_caller s i (RWait c)
               | None => let c := length (results s) in
                         mkLinks (url s) (lastRefreshAt s) (Some c) (results s ++ [None]) (<[i := RResolve c]> (callers s))
               end
      | _ => s
      end
  | Resolved i f now =>
      match callers s !! i with
      | Some (RResolve c) =>
          let '(u, t) := match f with Link u => (u, Some now) | _ => (url s, lastRefreshAt s) end in
          mkLinks u t None (<[c := Some f]> (results s)) (<[i := RDone f]> (callers s))
      | _ => s
      end
  | Wakes i =>
      match callers s !! i with
      | Some (RWait c) => match results s !! c with Some (Some f) => set_caller s i (RDone f) | _ => s end
      | _ => s
      end
  | CtxDone i =>
      match callers s !! i with Some (RWait _) => set_caller s i (RDone CtxEnded) | _ => s end
  end.
Definition refresh_run (canRefresh : bool) (s : links) (evs : list revent) : links := fold_left (refresh_step canRefresh) evs s.
Definition newLinks (u : bytes) : links := mkLinks u None None [] [].

(** ** Lemmas *)

Section Served.
Context (file : bytes).
Definition at_ (p : Z) : bytes := drop (Z.to_nat p) file.
(** A server that sends the bytes it is asked for, as far as it sends any: HTTP's meaning
    of 206, 200 and 416. *)
Definition honest (w : world) : Prop := forall n url a e st b, serve w n url a e = Answer st b ->
  (st = 206 -> bleft b `prefix_of` at_ a) /\ (st = 200 -> bleft b `prefix_of` file) /\ (st = 416 -> Z.of_nat (length file) <= a).
Definition rd_ok (r : dreader) : Prop :=
  0 <= pos r /\ match body r with Some b => bleft b `prefix_of` at_ (bodyAt r) | None => True end.
Definition read_right (d : done_read) : Prop :=
  out d `prefix_of` at_ (from d) /\ till d = from d + Z.of_nat (length (out d)) /\ (length (out d) <= asked d)%nat.
Lemma prefix_take {A} n (l k : list A) : l `prefix_of` k -> take n l `prefix_of` k.
Proof. intros [x ->]. exists (drop n l ++ x). by rewrite app_assoc, take_drop. Qed.
Lemma prefix_drop (l : bytes) n p : (n <= length l)%nat -> 0 <= p -> l `prefix_of` at_ p -> drop n l `prefix_of` at_ (p + Z.of_nat n).
Proof.
  intros L P [x E]. exists x. unfold at_ in *. replace (Z.to_nat (p + Z.of_nat n)) with (Z.to_nat p + n)%nat by lia.
  rewrite <- drop_drop, E, drop_app_le by done. done.
Qed.
Lemma read_body_right w r b plen : rd_ok r -> body r = Some b -> bodyAt r = pos r ->
  let '(o, e, r') := read_body w r b plen in
  rd_ok r' /\ read_right (mkDone (pos r) o e (pos r') plen) /\ (e = Some EOF -> size r <= 0 \/ size r <= pos r') /\ size r' = size r.
Proof.
  intros [P B] Eb Ea. rewrite Eb, Ea in B. unfold read_body, body_read.
  set (n := Nat.min (comes w) (Nat.min plen (length (bleft b)))).
  assert (Ln : length (take n (bleft b)) = n) by (rewrite length_take; lia). rewrite Ln.
  assert (D : drop n (bleft b) `prefix_of` at_ (pos r + Z.of_nat n)) by (apply prefix_drop; [lia|done|done]).
  assert (R : forall e, read_right (mkDone (pos r) (take n (bleft b)) e (pos r + Z.of_nat n) plen)).
  { intros e. split_and!; cbn; [by apply prefix_take|rewrite Ln; done|rewrite Ln; lia]. }
  destruct (_ || _); [destruct (bend b)|]; cbn.
  - split_and!; [done || (split; cbn; [lia|done])|apply R| |done].
    destruct (Z.ltb_spec 0 (size r)), (Z.ltb_spec (pos r + Z.of_nat n) (size r)); cbn; intros; try done; lia.
  - split_and!; [split; cbn; [lia|done]|apply R|done|done].
  - split_and!; [split; cbn; [lia|done]|apply R|done|done].
Qed.
Lemma reopen_right w : honest w -> forall k attempt r, rd_ok r -> body r = None ->
  let '(r', e, _) := reopen_loop w r attempt k in
  rd_ok r' /\ pos r' = pos r /\ size r' = size r
  /\ match e with
     | None => exists b, body r' = Some b /\ bodyAt r' = pos r'
     | Some x => body r' = None /\ (x = EOF -> Z.of_nat (length file) <= pos r)
     end.
Proof.
  intros H. induction k as [|k IH]; intros attempt r O B; [cbn; by split_and!|]. cbn.
  destruct (parses w _); [|cbn; by split_and!]. cbn.
  destruct (serve w attempt _ _ _) as [|st b] eqn:Sv; [cbn; by split_and!|]. destruct (H _ _ _ _ _ _ Sv) as (H206 & H200 & H416).
  destruct (Z.eqb_spec st 206) as [E|_]; [cbn; split_and!; [|done|done|by eexists]; split; cbn; [apply O|by apply H206]|].
  destruct (Z.eqb_spec st 200) as [E|_].
  { destruct (Z.eqb_spec (pos r) 0) as [E0|_]; cbn; split_and!; try done; [|by eexists]. split; cbn; [apply O|]. rewrite E0. unfold at_. rewrite drop_0. by apply H200. }
  destruct (Z.eqb_spec st 416) as [E|_]; [cbn; split_and!; auto|].
  destruct (expired st); [|cbn; by split_and!]. destruct (refreshed w attempt); [|cbn; by split_and!].
  specialize (IH (S attempt) r O B). by destruct (reopen_loop w r (S attempt) k) as [[r' e] l].
Qed.
Lemma read_step_right w r plen : honest w -> rd_ok r ->
  let '(o, e, r', _) := Read w r plen in
  rd_ok r' /\ read_right (mkDone (pos r) o e (pos r') plen) /\ size r' = size r
  /\ (e = Some EOF -> size r <= pos r' \/ Z.of_nat (length file) <= pos r' \/ size r <= 0).
Proof.
  intros H O. assert (N : forall x, read_right (mkDone (pos r) [] x (pos r) plen)) by (intros x; split_and!; cbn; [apply prefix_nil|cbn; lia|lia]).
  unfold Read. destruct (_ && _) eqn:E; [split_and!; auto; intros _; left; lia|].
  assert (R : let '(o, e, r', l) := (let '(r', e, l) := reopen w r in
        match e, body r' with None, Some b => (read_body w r' b plen, l) | None, None => ([], None, r', l) | Some x, _ => ([], Some x, r', l) end) in
      rd_ok r' /\ read_right (mkDone (pos r) o e (pos r') plen) /\ size r' = size r /\ (e = Some EOF -> size r <= pos r' \/ Z.of_nat (length file) <= pos r' \/ size r <= 0)).
  { unfold reopen. pose proof (reopen_right w H maxAttempts 0 (with_body r None (bodyAt r)) ltac:(split; [apply O|done]) eq_refl) as X.
    destruct (reopen_loop _ _ _ _) as [[r' e] l]. destruct X as (O' & P' & S' & X). cbn in P', S'. destruct e as [x|].
    - destruct X as [_ X]. rewrite P' in *. split_and!; auto. intros [= ->]. right; left. by apply X.
    - destruct X as (b & Eb & Ea). rewrite Eb. pose proof (read_body_right w r' b plen O' Eb Ea) as Y. destruct (read_body w r' b plen) as [[o e] r2].
      destruct Y as (Y1 & Y2 & Y3 & Y4). rewrite P' in *. split_and!; [done|done|congruence|]. intros Ee. specialize (Y3 Ee). rewrite S' in Y3. tauto. }
  destruct (body r) as [b|] eqn:Eb; [|exact R]. destruct (Z.eqb_spec (pos r) (bodyAt r)) as [Ea|_]; [|exact R].
  pose proof (read_body_right w r b plen O Eb (eq_sym Ea)) as Y. destruct (read_body w r b plen) as [[o e] r2]. destruct Y as (Y1 & Y2 & Y3 & Y4).
  split_and!; try done. intros Ee. specialize (Y3 Ee). tauto.
Qed.
Lemma seek_ok r o wh : rd_ok r -> rd_ok (snd (Seek r o wh)) /\ size (snd (Seek r o wh)) = size r.
Proof.
  intros [P B]. assert (G : forall a, let x := if a <? 0 then (Err NegativePos, r) else (Ok a, with_pos r a) in rd_ok (snd x) /\ size (snd x) = size r).
  { intros a. cbv zeta. destruct (Z.ltb_spec a 0); [done|]. by split. }
  unfold Seek. repeat (destruct (_ =? _); [apply G|]). done.
Qed.
Lemma limit_ok r h : rd_ok r -> rd_ok (LimitRange r h) /\ size (LimitRange r h) = size r.
Proof. intros O. unfold LimitRange. repeat case_match; done. Qed.
Lemma use_right ops : forall r, rd_ok r -> Forall (fun o => match o with ORead w _ => honest w | _ => True end) ops ->
  Forall (fun d => read_right d /\ (err d = Some EOF -> size r <= till d \/ Z.of_nat (length file) <= till d \/ size r <= 0)) (snd (use r ops)).
Proof.
  induction ops as [|o ops IH]; intros r O F; [constructor|]. inversion_clear F as [|? ? Fo F']. destruct o as [w plen|off wh|h|]; cbn.
  - pose proof (read_step_right w r plen Fo O) as X. destruct (Read w r plen) as [[[b e] r'] l]. destruct X as (O' & R & S & E).
    specialize (IH r' O' F'). destruct (use r' ops) as [r2 ds]. cbn in *. constructor; [by split|]. by rewrite S in IH.
  - destruct (seek_ok r off wh O) as [O' S]. specialize (IH _ O' F'). by rewrite S in IH.
  - destruct (limit_ok r h O) as [O' S]. specialize (IH _ O' F'). by rewrite S in IH.
  - apply (IH (Close r)); [|done]. split; [apply O|done].
Qed.

(** A link that works, or an expired one whose refresh works, with a network that goes on. *)
Definition range_of (a : Z) (e : option Z) : bytes := match e with Some z => take (Z.to_nat (z - a + 1)) (at_ a) | None => at_ a end.
Definition serves (w : world) (n : nat) : Prop :=
  parses w (urlAt w n) = true
  /\ forall a e, 0 <= a < Z.of_nat (length file) -> serve w n (urlAt w n) a e = Answer 206 (mkBody (range_of a e) BEOF).
Definition healthy (w : world) : Prop :=
  (0 < comes w)%nat
  /\ (serves w 0
      \/ parses w (urlAt w 0) = true /\ refreshed w 0 = true /\ serves w 1
         /\ forall a e, exists st b, expired st = true /\ serve w 0 (urlAt w 0) a e = Answer st b).
Definition open_ok (r : dreader) : Prop :=
  0 <= pos r /\ match body r with Some b => bodyAt r = pos r -> bleft b `prefix_of` at_ (pos r) /\ bend b = BEOF | None => True end.
Definition to_go (r : dreader) : Z :=
  2 * Z.max 0 (Z.of_nat (length file) - pos r)
  + match body r with Some b => if (bodyAt r =? pos r) && bool_decide (bleft b = []) then 1 else 0 | None => 0 end.

Lemma at_length p : 0 <= p -> Z.of_nat (length (at_ p)) = Z.max 0 (Z.of_nat (length file) - p).
Proof. intros. unfold at_. rewrite length_drop. lia. Qed.
Lemma range_of_prefix a e : range_of a e `prefix_of` at_ a.
Proof. unfold range_of. destruct e; [apply prefix_take|]; done. Qed.
Lemma range_of_some r : 0 <= pos r < Z.of_nat (length file) -> range_of (pos r) (range_end r) <> [].
Proof.
  intros P. assert (at_ (pos r) <> []) by (intros E; apply (f_equal length) in E; pose proof (at_length (pos r) ltac:(lia)); cbn in E; lia).
  unfold range_of, range_end. destruct (Z.leb_spec (pos r) (limitEnd r)); cbn; [|done]. destruct (_ <=? _); [|done].
  destruct (at_ (pos r)); [done|]. by replace (Z.to_nat _) with (S (Z.to_nat (limitEnd r - pos r))) by lia.
Qed.
Lemma expired_other st : expired st = true -> (st =? 206) = false /\ (st =? 200) = false /\ (st =? 416) = false.
Proof. unfold expired. intros H. split_and!; apply Z.eqb_neq; intros ->; done. Qed.
Lemma reopen_healthy w r : healthy w -> 0 <= pos r < Z.of_nat (length file) ->
  exists l, reopen w r = (with_body r (Some (mkBody (range_of (pos r) (range_end r)) BEOF)) (pos r), None, l).
Proof.
  intros [_ [[Pa Sv]|(Pa & Rf & [Pa1 Sv] & Ex)]] P; unfold reopen, maxAttempts; cbn -[expired].
  - rewrite Pa. cbn -[expired]. rewrite Sv by done. by eexists.
  - rewrite Pa. cbn -[expired]. destruct (Ex (pos r) (range_end (with_body r None (bodyAt r)))) as (st & b & E & ->).
    destruct (expired_other st E) as (-> & -> & ->). rewrite E, Rf. cbn -[expired]. rewrite Pa1. cbn -[expired]. rewrite Sv by done. by eexists.
Qed.
Lemma read_body_progress w r b plen :
  (0 < comes w)%nat -> (0 < plen)%nat -> 0 <= pos r < Z.of_nat (length file) -> size r = Z.of_nat (length file) ->
  bleft b `prefix_of` at_ (pos r) -> bend b = BEOF ->
  let '(o, e, r') := read_body w r b plen in
  open_ok r' /\ size r' = size r /\ at_ (pos r) = o ++ at_ (pos r')
  /\ (e = None /\ to_go r' < 2 * (Z.of_nat (length file) - pos r) + (if bool_decide (bleft b = []) then 1 else 0)
      \/ e = Some EOF /\ at_ (pos r') = []).
Proof.
  intros C Pl P Sz Pre Be. unfold read_body, body_read. rewrite Be. set (n := Nat.min (comes w) (Nat.min plen (length (bleft b)))).
  assert (Ln : length (take n (bleft b)) = n) by (rewrite length_take; lia). rewrite Ln.
  assert (D : drop n (bleft b) `prefix_of` at_ (pos r + Z.of_nat n)) by (apply prefix_drop; [lia|lia|done]).
  assert (Bnd : pos r + Z.of_nat n <= Z.of_nat (length file)).
  { pose proof (prefix_length _ _ Pre). pose proof (at_length (pos r) ltac:(lia)). lia. }
  assert (Sp : at_ (pos r) = take n (bleft b) ++ at_ (pos r + Z.of_nat n)).
  { destruct Pre as [x E]. unfold at_ in *. replace (Z.to_nat (pos r + Z.of_nat n)) with (Z.to_nat (pos r) + n)%nat by lia.
    rewrite <- drop_drop, E, drop_app_le by lia. by rewrite app_assoc, take_drop. }
  assert (N1 : bleft b <> [] -> (0 < n)%nat) by (destruct (bleft b); [done|cbn in *; lia]).
  destruct (bool_decide (bleft b = [])) eqn:Z0; cbn.
  - apply bool_decide_eq_true in Z0. assert (n = 0%nat) as N0 by (unfold n; rewrite Z0; cbn; lia). split_and!; try done; [split; cbn; [lia|done]|]. left.
    rewrite N0, Sz. replace (0 <? _) with true by (symmetry; apply Z.ltb_lt; lia). replace (_ <? _) with true by (symmetry; apply Z.ltb_lt; lia).
    split; [done|]. unfold to_go. cbn. lia.
  - apply bool_decide_eq_false in Z0. specialize (N1 Z0).
    destruct (bool_decide _ && _); cbn; split_and!; try done; try (split; cbn; [lia|done]).
    + rewrite Sz. destruct (Z.ltb_spec 0 (Z.of_nat (length file))); [|lia].
      destruct (Z.ltb_spec (pos r + Z.of_nat n) (Z.of_nat (length file))); cbn; [left|right].
      * split; [done|]. unfold to_go. cbn. lia.
      * split; [done|]. apply nil_length_inv. pose proof (at_length (pos r + Z.of_nat n) ltac:(lia)). lia.
    + left. split; [done|]. unfold to_go. cbn. destruct (_ && _); lia.
Qed.
Lemma read_progress w r plen : healthy w -> (0 < plen)%nat -> open_ok r -> size r = Z.of_nat (length file) -> file <> [] ->
  let '(o, e, r', _) := Read w r plen in
  open_ok r' /\ size r' = size r /\ at_ (pos r) = o ++ at_ (pos r')
  /\ (e = None /\ to_go r' < to_go r \/ e = Some EOF /\ at_ (pos r') = []).
Proof.
  intros H Pl [P O] Sz Ne. assert (0 < Z.of_nat (length file)) by (destruct file; [done|cbn; lia]). unfold Read. rewrite Sz.
  destruct (Z.ltb_spec 0 (Z.of_nat (length file))); [|lia]. cbn [andb]. destruct (Z.leb_spec (Z.of_nat (length file)) (pos r)) as [Ge|Lt].
  { split_and!; [by split|done|done|]. right. split; [done|]. apply nil_length_inv. pose proof (at_length (pos r) P). lia. }
  rewrite <- Sz. assert (R : let '(o, e, r', _) := (let '(r', e, l) := reopen w r in
        match e, body r' with None, Some b => (read_body w r' b plen, l) | None, None => ([], None, r', l) | Some x, _ => ([], Some x, r', l) end) in
      open_ok r' /\ size r' = size r /\ at_ (pos r) = o ++ at_ (pos r') /\ (e = None /\ to_go r' < to_go r \/ e = Some EOF /\ at_ (pos r') = [])).
  { destruct (reopen_healthy w r H ltac:(lia)) as [l ->]. cbn [body with_body].
    pose proof (read_body_progress w (with_body r (Some (mkBody (range_of (pos r) (range_end r)) BEOF)) (pos r)) (mkBody (range_of (pos r) (range_end r)) BEOF) plen
      (proj1 H) Pl ltac:(cbn; lia) Sz (range_of_prefix _ _) eq_refl) as X.
    destruct (read_body _ _ _ _) as [[o e] r']. destruct X as (X1 & X2 & X3 & X4). split_and!; try done.
    destruct X4 as [[-> X4]|X4]; [left|by right]. split; [done|]. cbn [bleft] in X4. rewrite bool_decide_eq_false_2 in X4 by (apply range_of_some; lia).
    cbn in X4. unfold to_go at 2. destruct (body r); [destruct (_ && _)|]; lia. }
  destruct (body r) as [b|] eqn:Eb; [|exact R]. destruct (Z.eqb_spec (pos r) (bodyAt r)) as [Ea|_]; [|exact R].
  destruct (O (eq_sym Ea)) as [Pre Be]. pose proof (read_body_progress w r b plen (proj1 H) Pl ltac:(lia) Sz Pre Be) as X.
  destruct (read_body _ _ _ _) as [[o e] r']. destruct X as (X1 & X2 & X3 & X4). split_and!; try done.
  destruct X4 as [[-> X4]|X4]; [left|by right]. split; [done|]. unfold to_go at 2. rewrite Eb, <- Ea, Z.eqb_refl. cbn [andb].
  destruct (bool_decide _); lia.
Qed.
Lemma read_all_rest reads : forall r, Forall (fun '(w, plen) => healthy w /\ (0 < plen)%nat) reads -> open_ok r -> size r = Z.of_nat (length file) -> file <> [] ->
  to_go r < Z.of_nat (length reads) -> read_all r reads = (at_ (pos r), Some EOF).
Proof.
  induction reads as [|[w plen] reads IH]; intros r F O Sz Ne Lt.
  { exfalso. assert (0 <= to_go r) by (unfold to_go; repeat case_match; lia). cbn in Lt. lia. }
  inversion_clear F as [|? ? Hp F']. cbn in Hp. destruct Hp as [H Pl]. cbn. pose proof (read_progress w r plen H Pl O Sz Ne) as X. destruct (Read w r plen) as [[[o e] r'] l].
  destruct X as (O' & S' & -> & [[-> D]|[-> ->]]); [|by rewrite app_nil_r].
  rewrite (IH r' F' O'); [done|congruence|done|]. cbn in Lt. lia.
Qed.
End Served.

(** * Properties of a stream *)

(** C27: What a player is sent is the file.  Whatever sequence of reads, seeks, range hints
    and closes a request makes, with links that expire, answers that are cut short and
    servers that ignore ranges: if the server means what its status says, every read
    returns the file's own bytes from the position it began at, at most as many as were
    asked for, and moves on by exactly these; and the end of the file is reported only at
    the announced size or at the end of the served file. *)
Theorem stream_reads_file file p ops :
  0 < pSize p -> Forall (fun o => match o with ORead w _ => honest file w | _ => True end) ops ->
  Forall (fun d => out d `prefix_of` drop (Z.to_nat (from d)) file /\ till d = from d + Z.of_nat (length (out d)) /\ (length (out d) <= asked d)%nat
            /\ (err d = Some EOF -> pSize p <= till d \/ Z.of_nat (length file) <= till d))
    (snd (use (NewFileReader p) ops)).
Proof.
  intros S F. assert (O : rd_ok file (NewFileReader p)) by (by split). pose proof (use_right file ops _ O F) as R.
  eapply Forall_impl; [exact R|]. intros d [(A & B & C) E]. split_and!; try done. intros Ee. destruct (E Ee) as [?|[?|X]]; [by left|by right|]. cbn in X. lia.
Qed.

(** C28: A stream is delivered to its end.  From any position, with a link that works or
    expires and is refreshed, however small the pieces the network delivers: reading on
    gives the rest of the file and then its end, in at most two reads per byte and one
    more. *)
Theorem stream_delivers file p off reads :
  pSize p = Z.of_nat (length file) -> file <> [] -> 0 <= off ->
  Forall (fun '(w, plen) => healthy file w /\ (0 < plen)%nat) reads ->
  2 * Z.max 0 (Z.of_nat (length file) - off) < Z.of_nat (length reads) ->
  read_all (snd (Seek (NewFileReader p) off 0)) reads = (drop (Z.to_nat off) file, Some EOF).
Proof.
  intros S Ne P F L. unfold Seek. cbn [Z.eqb]. destruct (Z.ltb_spec off 0); [lia|]. cbn [snd].
  rewrite (read_all_rest file reads _ F); [done|by split|done|done|]. unfold to_go. cbn. lia.
Qed.

(** * Properties of the refresh *)

Definition resolving (ph : rphase) : Z := match ph with RResolve _ => 1 | _ => 0 end.
Record links_ok (s : links) : Prop := {
  lo_one : zsum resolving (callers s) = match inflight s with Some _ => 1 | None => 0 end;
  lo_which : forall i c, callers s !! i = Some (RResolve c) -> inflight s = Some c;
  lo_waits : forall i c, callers s !! i = Some (RWait c) -> exists x, results s !! c = Some x /\ (x = None -> inflight s = Some c);
  lo_open : forall c, inflight s = Some c -> results s !! c = Some None
}.
Lemma resolving_nonneg ph : 0 <= resolving ph.
Proof. by destruct ph. Qed.
Lemma caller_put (l : list rphase) i ph' j ph : <[i := ph']> l !! j = Some ph -> (j = i /\ ph = ph') \/ l !! j = Some ph.
Proof.
  destruct (decide (i = j)) as [<- |N]; [|rewrite list_lookup_insert_ne by done; by right].
  destruct (decide (i < length l)%nat); [rewrite list_lookup_insert_eq by done; intros [= <-]; by left|rewrite list_insert_ge by lia; by right].
Qed.
Lemma resolver_exists l : 0 < zsum resolving l -> exists j c, l !! j = Some (RResolve c).
Proof.
  induction l as [|ph l IH]; [rewrite zsum_nil; lia|]. rewrite zsum_cons. intros H. destruct (decide (0 < zsum resolving l)) as [P|P].
  - destruct (IH P) as (j & c & L). by exists (S j), c.
  - destruct ph as [| |c|]; cbn in H; try lia. by exists 0%nat, c.
Qed.
(** A caller leaves without having resolved. *)
Lemma leave_ok s i ph f : links_ok s -> callers s !! i = Some ph -> resolving ph = 0 -> links_ok (set_caller s i (RDone f)).
Proof.
  intros [A B C D] L R. split; cbn; try done.
  - rewrite (zsum_insert _ _ _ _ _ L), R. cbn. lia.
  - intros j c [[_ H]|H]%caller_put; [done|by eapply B].
  - intros j c [[_ H]|H]%caller_put; [done|by eapply C].
Qed.
Lemma refresh_step_ok can s e : links_ok s -> links_ok (refresh_step can s e).
Proof.
  intros O. pose proof O as [A B C D]. destruct e as [|i now|i f now|i|i]; cbn.
  - split; cbn; try done.
    + rewrite zsum_app, zsum_cons, zsum_nil. destruct can; cbn; lia.
    + intros j c [H|[_ H]]%lookup_app_Some; [by eapply B|]. apply list_lookup_singleton_Some in H as [_ H]. by destruct can.
    + intros j c [H|[_ H]]%lookup_app_Some; [by eapply C|]. apply list_lookup_singleton_Some in H as [_ H]. by destruct can.
  - destruct (callers s !! i) as [ph|] eqn:L; [|done]. destruct ph; try done. destruct (recent s now); [by eapply leave_ok|].
    destruct (inflight s) as [c|] eqn:I.
    + split; cbn; try done; rewrite ?I.
      * rewrite (zsum_insert _ _ _ _ _ L). cbn. lia.
      * intros j c' [[_ H]|H]%caller_put; [done|by eapply B].
      * intros j c' [[_ [= <-]]|H]%caller_put; [exists None; split; [by apply D|done]|by eapply C].
      * intros c' [= <-]. by apply D.
    + split; cbn.
      * rewrite (zsum_insert _ _ _ _ _ L). cbn. lia.
      * intros j c' [[_ [= <-]]|H]%caller_put; [done|]. by specialize (B _ _ H).
      * intros j c' [[_ H]|H]%caller_put; [done|]. destruct (C _ _ H) as (x & Lx & Nx). exists x. split; [by apply lookup_app_l_Some|]. intros E. by specialize (Nx E).
      * intros c' [= <-]. by rewrite lookup_app_r, Nat.sub_diag by lia.
  - destruct (callers s !! i) as [ph|] eqn:L; [|done]. destruct ph as [| |c|]; try done. pose proof (B _ _ L) as I. pose proof (D _ I) as Rc.
    rewrite I in A. assert (One : forall j c', <[i := RDone f]> (callers s) !! j = Some (RResolve c') -> False).
    { intros j c' H. pose proof (zsum_lookup resolving _ j _ resolving_nonneg H) as X. rewrite (zsum_insert _ _ _ _ _ L), A in X. cbn in X. lia. }
    assert (W : forall j c', <[i := RDone f]> (callers s) !! j = Some (RWait c') -> exists x, <[c := Some f]> (results s) !! c' = Some x /\ (x = None -> False)).
    { intros j c' [[_ H]|H]%caller_put; [done|]. destruct (C _ _ H) as (x & Lx & Nx). destruct (decide (c = c')) as [<- |N].
      - exists (Some f). split; [|done]. apply list_lookup_insert_eq. by eapply lookup_lt_Some.
      - exists x. rewrite list_lookup_insert_ne by done. split; [done|]. intros E. specialize (Nx E). congruence. }
    assert (Z : zsum resolving (<[i := RDone f]> (callers s)) = 0) by (rewrite (zsum_insert _ _ _ _ _ L), A; cbn; lia).
    destruct f; (split; cbn; [exact Z|intros j c' H; destruct (One _ _ H)|intros j c' H; destruct (W _ _ H) as (x & ? & Q); exists x; split; [done|intros E; destruct (Q E)]|done]).
  - destruct (callers s !! i) as [ph|] eqn:L; [|done]. destruct ph; try done. destruct (results s !! c) as [[f|]|]; try done. by eapply leave_ok.
  - destruct (callers s !! i) as [ph|] eqn:L; [|done]. destruct ph; try done. by eapply leave_ok.
Qed.
Lemma refresh_run_ok can evs : forall s, links_ok s -> links_ok (refresh_run can s evs).
Proof. induction evs as [|e evs IH]; intros s O; [done|]. cbn. by apply IH, refresh_step_ok. Qed.
(** An expired link is resolved once for all readers.  However the callers of a
    provider interleave, at most one of them is resolving a link; whoever waits, waits for
    that one or finds its result ready, and gets exactly that; and when nobody resolves,
    nobody is left to wait for ever. *)
Lemma refresh_single_flight can u evs :
  let s := refresh_run can (newLinks u) evs in
  (forall i j c d, callers s !! i = Some (RResolve c) -> callers s !! j = Some (RResolve d) -> i = j)
  /\ (forall i c, callers s !! i = Some (RWait c) ->
        (exists j, callers s !! j = Some (RResolve c))
        \/ exists f, results s !! c = Some (Some f) /\ callers (refresh_step can s (Wakes i)) !! i = Some (RDone f)).
Proof.
  intros s. assert (O : links_ok s) by (apply refresh_run_ok; split; cbn; done). split.
  - intros i j c d Li Lj. destruct (decide (i = j)) as [?|N]; [done|exfalso].
    pose proof (zsum_insert resolving (callers s) i _ RLook Li) as Z1. assert (Lj' : <[i := RLook]> (callers s) !! j = Some (RResolve d)) by (by rewrite list_lookup_insert_ne).
    pose proof (zsum_lookup resolving _ j _ resolving_nonneg Lj'). rewrite (lo_one _ O) in Z1. cbn in *. destruct (inflight s); lia.
  - intros i c L. destruct (lo_waits _ O i c L) as (x & Lx & Nx). destruct x as [f|].
    + right. exists f. split; [done|]. cbn. rewrite L, Lx. cbn. apply list_lookup_insert_eq. by eapply lookup_lt_Some.
    + left. specialize (Nx eq_refl). pose proof (lo_one _ O) as A. rewrite Nx in A. destruct (resolver_exists (callers s) ltac:(lia)) as (j & d & Lj).
      exists j. rewrite Lj. f_equal. f_equal. pose proof (lo_which _ O _ _ Lj). congruence.
Qed.

(** * A stream *)

Definition demo_film : bytes := str "hello world".
(** The first link has expired; the second one works. *)
Definition demo_server (_ : nat) (u : bytes) (a : Z) (e : option Z) : reply :=
  if bytes_eqb u (str "old") then Answer 403 (mkBody [] BEOF)
  else if a <? Z.of_nat (length demo_film) then Answer 206 (mkBody (range_of demo_film a e) BEOF) else Answer 416 (mkBody [] BEOF).
Definition demo_world (k : nat) (u0 : string) (eof : bool) : world :=
  mkWorld (fun n => match n with O => str u0 | _ => str "new" end) (fun _ => true) demo_server (fun _ => true) k eof.
Definition demo_provider : provider := mkProvider (str "old") (str "film.mp4") 11.
Lemma demo_stream_honest k u0 eof : honest demo_film (demo_world k u0 eof).
Proof.
  intros n u a e st b. cbn. unfold demo_server. destruct (bytes_eqb u _); [intros [= <- <-]; done|].
  destruct (Z.ltb_spec a (Z.of_nat (length demo_film))); intros [= <- <-]; split_and!; try done. intros _. apply range_of_prefix.
Qed.
Lemma demo_healthy u0 k eof : (0 < k)%nat -> healthy demo_film (demo_world k u0 eof).
Proof.
  intros K. assert (N : forall a e, 0 <= a < Z.of_nat (length demo_film) -> forall n u, bytes_eqb u (str "old") = false -> demo_server n u a e = Answer 206 (mkBody (range_of demo_film a e) BEOF)).
  { intros a e A n u Nu. unfold demo_server. rewrite Nu. destruct (Z.ltb_spec a (Z.of_nat (length demo_film))); [done|lia]. }
  split; [done|]. destruct (bytes_eqb (str u0) (str "old")) eqn:E.
  - right. split_and!; try done; [split; [done|by intros a e A; apply N]|]. intros a e. exists 403, (mkBody [] BEOF). cbn. unfold demo_server. by rewrite E.
  - left. split; [done|]. intros a e A. by apply N.
Qed.
Definition demo_use : list op :=
  [OSeek 0 2; OSeek 2 0; OLimit (str "bytes=2-4"); ORead (demo_world 2 "old" true) 8; ORead (demo_world 2 "new" true) 8; OSeek 9 0; ORead (demo_world 9 "new" false) 8].
Lemma demo_use_honest : Forall (fun o => match o with ORead w _ => honest demo_film w | _ => True end) demo_use.
Proof. unfold demo_use. rewrite !Forall_cons. split_and!; try apply demo_stream_honest; done. Qed.
Lemma demo_reads : map (fun d => (from d, out d)) (snd (use (NewFileReader demo_provider) demo_use)) = [(2, str "ll"); (4, str "o"); (9, str "ld")].
Proof. by vm_compute. Qed.
Lemma stream_reads_file_witness :
  Forall (fun d => out d `prefix_of` drop (Z.to_nat (from d)) demo_film /\ till d = from d + Z.of_nat (length (out d)) /\ (length (out d) <= asked d)%nat
            /\ (err d = Some EOF -> pSize demo_provider <= till d \/ Z.of_nat (length demo_film) <= till d))
    (snd (use (NewFileReader demo_provider) demo_use)).
Proof. exact (stream_reads_file demo_film demo_provider demo_use (Pos2Z.is_pos 11) demo_use_honest). Defined.
Definition demo_reading : list (world * nat) := replicate 14 (demo_world 2 "old" false, 3%nat).
Lemma demo_reading_healthy : Forall (fun '(w, plen) => healthy demo_film w /\ (0 < plen)%nat) demo_reading.
Proof. apply Forall_replicate. split; [apply demo_healthy|]; lia. Qed.
Lemma demo_nonempty : demo_film <> [].
Proof. done. Qed.
Lemma stream_delivers_witness : read_all (snd (Seek (NewFileReader demo_provider) 6 0)) demo_reading = (str "world", Some EOF).
Proof. exact (stream_delivers demo_film demo_provider 6 demo_reading eq_refl demo_nonempty (Zle_0_pos 6) demo_reading_healthy eq_refl). Defined.

(** A range whose length overflows passes for a small one. *)
Lemma whole_range_taken_for_small :
  let r := LimitRange (NewFileReader demo_provider) (str "bytes=0-9223372036854775807") in (limitStart r, limitEnd r) = (0, 9223372036854775807).
Proof. by vm_compute. Qed.
(** When the refreshed link fails too, one more refresh is made and its link is not used. *)
Definition dead_world : world := mkWorld (fun _ => str "u") (fun _ => true) (fun _ _ _ _ => Answer 404 (mkBody [] BEOF)) (fun _ => true) 8 false.
Lemma refresh_for_nothing :
  let '(_, e, _, l) := Read dead_world (NewFileReader demo_provider) 8 in (e, l) = (Some StillFailing, [Get (str "u") 0 None; Refresh; Get (str "u") 0 None; Refresh]).
Proof. by vm_compute. Qed.
(** A response that breaks off with an error, and not with an end, is kept: the next read
    meets the same error and asks nobody. *)
Definition cut_world : world := mkWorld (fun _ => str "u") (fun _ => true) (fun _ _ a _ => Answer 206 (mkBody (take 3 (at_ demo_film a)) BErr)) (fun _ => true) 8 false.
Lemma cut_body_sticks :
  let '(o, e, r, _) := Read cut_world (NewFileReader demo_provider) 8 in
  let '(o2, e2, r2, l2) := Read (demo_world 8 "new" false) r 8 in
  let '(o3, e3, _, l3) := Read (demo_world 8 "new" false) r2 8 in
  (o, e, o2, e2, l2, o3, e3, l3) = (str "hel", None, [], Some BodyFailed, [], [], Some BodyFailed, []).
Proof. by vm_compute. Qed.
(** The reader that resolves goes away: a reader that waits for it, and is still there,
    fails with the other's cancellation. *)
Lemma waiter_cancelled_by_other :
  callers (refresh_run true (newLinks (str "old")) [Asks; Asks; Look 0 10; Look 1 11; Resolved 0 CtxEnded 20; Wakes 1]) = [RDone CtxEnded; RDone CtxEnded].
Proof. by vm_compute. Qed.
