(* ===== verification/ConfigMerge.v ===== *)
(** Saving the configuration: config/config_merge.go, config/toml_scan.go and Save of
    config/config.go.

    A save patches the lines of the file the user wrote, and what it writes is decoded and
    compared before.  The TOML library (decoding, encoding) and strconv.Unquote are
    parameters; trees, paths, the line scanner and the patch are the code's own. *)
From Stdlib Require Import ZArith Lia.
From stdpp Require Import prelude list strings gmap.
From S2P Require Import Prelude GoStrings.

Open Scope Z_scope.

(** * Text *)

Definition HASH : Z := 35.
(** strings.Split and strings.Join at line feeds. *)
Fixpoint Split (s : bytes) : list bytes :=
  match s with
  | [] => [[]]
  | c :: s' => if c =? LF then [] :: Split s' else match Split s' with l :: ls => (c :: l) :: ls | [] => [[c]] end
  end.
Fixpoint JoinLF (ls : list bytes) : bytes :=
  match ls with
  | [] => []
  | [l] => l
  | l :: ls' => l ++ LF :: JoinLF ls'
  end.
Definition keySep : Z := 31.
Definition bom : bytes := [239; 187; 191].
Fixpoint pathKey (p : list bytes) : bytes :=
  match p with
  | [] => []
  | [k] => k
  | k :: p' => k ++ keySep :: pathKey p'
  end.
(** strings.TrimLeft with the cutset of scanDoc. *)
Definition trim_line (line : bytes) : bytes := trim_front (length line) [[SP]; [TAB]; [CR]; bom] line.

(** * Keys *)

Section Scan.
Context (Unquote : bytes -> option bytes).
Fixpoint closing (s : bytes) (j : nat) : option nat :=
  match s with
  | [] => None
  | c :: s' => if c =? BACKSLASH then match s' with [] => None | _ :: s'' => closing s'' (S (S j)) end
               else if c =? QUOTE then Some j else closing s' (S j)
  end.
Definition closingQuote (s : bytes) : option nat := closing (drop 1 s) 1.
Definition isBareKeyChar (c : Z) : bool :=
  (c =? 95) || (c =? 45) || (97 <=? c) && (c <=? 122) || (65 <=? c) && (c <=? 90) || (48 <=? c) && (c <=? 57).
Definition parseKeyPart (s : bytes) : option (bytes * bytes) :=
  match s with
  | [] => None
  | c :: s' =>
      if c =? QUOTE then
        match closingQuote s with
        | None => None
        | Some e => match Unquote (take (S e) s) with Some v => Some (v, drop (S e) s) | None => None end
        end
      else if c =? 39 then
        match index [39] s' with
        | None => None
        | Some e => Some (take e s', drop (S (S e)) s)
        end
      else match span isBareKeyChar s with
           | ([], _) => None
           | (k, rest) => Some (k, rest)
           end
  end.
(** Every part is followed by a dot, so the length of the text is enough fuel. *)
Fixpoint parse_key (fuel : nat) (s : bytes) : option (list bytes * bytes) :=
  match fuel with
  | O => None
  | S f =>
      match parseKeyPart (trim_left_blank s) with
      | None => None
      | Some (part, rest) =>
          match trim_left_blank rest with
          | c :: s' => if c =? DOT then match parse_key f s' with Some (parts, r) => Some (part :: parts, r) | None => None end
                       else Some ([part], c :: s')
          | [] => Some ([part], [])
          end
      end
  end.
Definition parseKey (s : bytes) : option (list bytes * bytes) := parse_key (S (length s)) s.

(** * Values *)

Inductive lexState := stNormal | stBasic | stLiteral | stMLBasic | stMLLiteral.
Record valueLexer := mkLexer { state : lexState; depth : Z }.
(** [r] is the line from the byte to consume on; the result has the extra bytes swallowed. *)
Definition normal (lx : valueLexer) (r : bytes) : valueLexer * nat :=
  match r with
  | [] => (lx, 0%nat)
  | c :: _ =>
      if (c =? 91) || (c =? 123) then (mkLexer (state lx) (depth lx + 1), 0%nat)
      else if (c =? 93) || (c =? 125) then (mkLexer (state lx) (depth lx - 1), 0%nat)
      else if (c =? QUOTE) || (c =? 39) then
        let ml := has_prefix [c; c; c] r in
        (mkLexer (if c =? QUOTE then if ml then stMLBasic else stBasic else if ml then stMLLiteral else stLiteral) (depth lx), if ml then 2%nat else 0%nat)
      else (lx, 0%nat)
  end.
Definition is_at (r : bytes) (n : nat) (q : Z) : bool := match r !! n with Some c => c =? q | None => false end.
Definition step (lx : valueLexer) (r : bytes) : valueLexer * nat :=
  let escape := match r with c :: _ => c =? BACKSLASH | [] => false end in
  let close q := if has_prefix [q] r then (mkLexer stNormal (depth lx), 0%nat) else (lx, 0%nat) in
  let close3 q :=
    if has_prefix [q; q; q] r
    then (mkLexer stNormal (depth lx), if is_at r 3 q then if is_at r 4 q then 4%nat else 3%nat else 2%nat) else (lx, 0%nat) in
  match state lx with
  | stNormal => normal lx r
  | stBasic => if escape then (lx, 1%nat) else close QUOTE
  | stMLBasic => if escape then (lx, 1%nat) else close3 QUOTE
  | stLiteral => close 39
  | stMLLiteral => close3 39
  end.
Fixpoint lex (fuel : nat) (lx : valueLexer) (s : bytes) (j end_ : nat) : valueLexer * nat :=
  match fuel with
  | O => (lx, end_)
  | S f =>
      match drop j s with
      | [] => (lx, end_)
      | (c :: _) as r =>
          if match state lx with stNormal => c =? HASH | _ => false end then (lx, end_)
          else
            let '(lx', extra) := step lx r in
            let j' := (j + extra)%nat in
            let e' := if (c =? SP) || (c =? TAB) || (c =? CR) then end_ else Nat.min (S j') (length s) in
            lex f lx' s (S j') e'
      end
  end.
(** valueLexer.line: where the value ends on the line, and whether it may. *)
Definition lex_line (lx : valueLexer) (s : bytes) (col : nat) : valueLexer * nat * bool :=
  let '(lx', e) := lex (S (length s)) lx s col col in
  (lx', e, match state lx' with stBasic | stLiteral => false | _ => true end).
Fixpoint scan_value (lx : valueLexer) (ls : list bytes) (i col : nat) : option (nat * nat) :=
  match ls with
  | [] => None
  | s :: ls' =>
      let '(lx', e, ok) := lex_line lx s col in
      if negb ok then None
      else if match state lx' with stNormal => depth lx' =? 0 | _ => false end then Some (i, e)
      else scan_value lx' ls' (S i) 0
  end.
Definition scanValue (lines : list bytes) (i col : nat) : option (nat * nat) := scan_value (mkLexer stNormal 0) (drop i lines) i col.

(** * The document *)

Record tomlEntry := mkEntry { first : nat; last : nat; valStart : nat; valEnd : nat }.
Record tomlDoc := mkDoc {
  lines : list bytes; entries : gmap bytes tomlEntry; order : list bytes; paths : gmap bytes (list bytes);
  tables : gmap bytes Z; headers : gmap bytes nat; dotted : gset bytes
}.
Definition closesHeader (after : bytes) : bool :=
  match after with
  | 93 :: t => match TrimSpace t with [] => true | c :: _ => c =? HASH end
  | _ => false
  end.
Definition dotted_keys (table p : list bytes) : list bytes := map (fun j => pathKey (take j p)) (seq (S (length table)) (length p - S (length table))).
(** The entry at [off] of line [i]: the document with it, unless it is skipped, and its
    last line. *)
Definition addEntry (d : tomlDoc) (i off : nat) (table : list bytes) (skip : bool) : option (tomlDoc * nat) :=
  let line := lines d !!! i in
  match parseKey (drop off line) with
  | Some (keyParts, c :: after) =>
      if negb (c =? EQ) then None else
      let start := (length line - length (trim_left_blank after))%nat in
      match scanValue (lines d) i start with
      | None => None
      | Some (last, e) =>
          if skip then Some (d, last)
          else
            let p := table ++ keyParts in
            let k := pathKey p in
            Some (mkDoc (lines d) (<[k := mkEntry i last start e]> (entries d)) (order d ++ [k]) (<[k := p]> (paths d))
                    (<[pathKey table := Z.of_nat last]> (tables d)) (headers d) (list_to_set (dotted_keys table p) ∪ dotted d), last)
      end
  | _ => None
  end.
(** The lines from [i] on; every round passes one at least, so their number is enough
    fuel. *)
Fixpoint scan_loop (fuel : nat) (d : tomlDoc) (i : nat) (table : list bytes) (arrayTable : bool) : option tomlDoc :=
  match fuel with
  | O => Some d
  | S f =>
      match lines d !! i with
      | None => Some d
      | Some line =>
          let rest := trim_line line in
          match rest with
          | [] => scan_loop f d (S i) table arrayTable
          | c :: rest' =>
              if c =? HASH then scan_loop f d (S i) table arrayTable
              else if has_prefix [91; 91] rest then scan_loop f d (S i) table true
              else if c =? 91 then
                match parseKey rest' with
                | Some (p, after) =>
                    if closesHeader after
                    then scan_loop f (mkDoc (lines d) (entries d) (order d) (paths d) (<[pathKey p := Z.of_nat i]> (tables d)) (<[pathKey p := i]> (headers d)) (dotted d)) (S i) p false
                    else None
                | None => None
                end
              else match addEntry d i (length line - length rest) table arrayTable with
                   | Some (d', last) => scan_loop f d' (S last) table arrayTable
                   | None => None
                   end
          end
      end
  end.
Definition scanDoc (text : bytes) : option tomlDoc :=
  let ls := Split text in
  scan_loop (length ls) (mkDoc ls ∅ [] ∅ {[ [] := -1 ]} ∅ ∅) 0 [] false.
Definition valueText (d : tomlDoc) (e : tomlEntry) : bytes :=
  if (first e =? last e)%nat then take (valEnd e - valStart e) (drop (valStart e) (lines d !!! first e))
  else JoinLF (drop (valStart e) (lines d !!! first e) :: take (last e - S (first e)) (drop (S (first e)) (lines d)) ++ [take (valEnd e) (lines d !!! last e)]).
End Scan.

(** * The patch *)

Record lineEdit := mkEdit { elast : nat; etext : list bytes }.
Record patch := mkPatch { edits : gmap nat lineEdit; afters : gmap Z (list bytes); tail_ : list bytes; newTables : gset bytes }.
Definition emptyPatch : patch := mkPatch ∅ ∅ [] ∅.
Section Patch.
Context (od nd : tomlDoc) (cr : bytes).
Definition indentAt (i : Z) : bytes :=
  if i <? 0 then [] else let line := lines od !!! Z.to_nat i in take (length line - length (trim_left_blank line)) line.
(** patch.set *)
Definition set_ (p : patch) (k : bytes) : option patch :=
  match entries nd !! k with
  | None => None          (* not reached: k is a key of the scanned document *)
  | Some ne =>
      match entries od !! k with
      | Some e =>
          let line := take (valStart e) (lines od !!! first e) ++ valueText nd ne ++ drop (valEnd e) (lines od !!! last e) in
          Some (mkPatch (<[first e := mkEdit (last e) [line]]> (edits p)) (afters p) (tail_ p) (newTables p))
      | None =>
          let path := default [] (paths nd !! k) in
          let tk := pathKey (take (length path - 1) path) in
          let text := trim_left_blank (lines nd !!! first ne) in
          if negb (last ne =? first ne)%nat then None
          else match tables od !! tk with
               | Some at_ => Some (mkPatch (edits p) (<[at_ := default [] (afters p !! at_) ++ [indentAt at_ ++ text ++ cr]]> (afters p)) (tail_ p) (newTables p))
               | None =>
                   if bool_decide (tk ∈ newTables p) then Some (mkPatch (edits p) (afters p) (tail_ p ++ [text ++ cr]) (newTables p))
                   else match headers nd !! tk with
                        | None => None
                        | Some h =>
                            if bool_decide (is_Some (entries od !! tk)) || bool_decide (tk ∈ dotted od) then None
                            else Some (mkPatch (edits p) (afters p) (tail_ p ++ [cr; trim_left_blank (lines nd !!! h) ++ cr; text ++ cr]) ({[tk]} ∪ newTables p))
                        end
               end
      end
  end.
(** The loop of render from line [i] on. *)
Fixpoint render_loop (fuel : nat) (p : patch) (ls : list bytes) (i : nat) : list bytes :=
  match fuel with
  | O => []
  | S f =>
      match ls !! i with
      | None => []
      | Some l =>
          let '(text, e) := match edits p !! i with Some ed => (etext ed, elast ed) | None => ([l], i) end in
          text ++ default [] (afters p !! Z.of_nat e) ++ render_loop f p ls (S e)
      end
  end.
Definition body_lines : list bytes * bool :=
  match rev (lines od) with [] :: ls => (rev ls, true) | _ => (lines od, false) end.
Definition render_lines (p : patch) : list bytes :=
  let '(ls, hasNL) := body_lines in
  default [] (afters p !! (-1)) ++ render_loop (length ls) p ls 0 ++ tail_ p ++ (if hasNL || negb (length (tail_ p) =? 0)%nat then [[]] else []).
Definition render (p : patch) : bytes := JoinLF (render_lines p).
End Patch.

Section Merge.
Context {V : Type} `{EqDecision V} (Unquote : bytes -> option bytes).
Fixpoint set_all (od nd : tomlDoc) (cr : bytes) (oldFlat newFlat : gmap bytes V) (ks : list bytes) (p : patch) : option patch :=
  match ks with
  | [] => Some p
  | k :: ks' =>
      if match oldFlat !! k with Some ov => bool_decide (newFlat !! k = Some ov) | None => false end then set_all od nd cr oldFlat newFlat ks' p
      else match set_ od nd cr p k with Some p' => set_all od nd cr oldFlat newFlat ks' p' | None => None end
  end.
Fixpoint drop_all (od : tomlDoc) (newFlat : gmap bytes V) (unknown : gset bytes) (ks : list bytes) (p : patch) : option patch :=
  match ks with
  | [] => Some p
  | k :: ks' =>
      if bool_decide (is_Some (newFlat !! k)) || bool_decide (k ∈ unknown) then drop_all od newFlat unknown ks' p
      else match entries od !! k with
           | None => None
           | Some e => drop_all od newFlat unknown ks' (mkPatch (<[first e := mkEdit (last e) []]> (edits p)) (afters p) (tail_ p) (newTables p))
           end
  end.
Definition patchText (orig encoded : bytes) (oldFlat newFlat : gmap bytes V) (unknown : gset bytes) : option bytes :=
  match scanDoc Unquote orig, scanDoc Unquote encoded with
  | Some od, Some nd =>
      let cr := match index [CR; LF] orig with Some _ => [CR] | None => [] end in
      match set_all od nd cr oldFlat newFlat (order nd) emptyPatch with
      | None => None
      | Some p => match drop_all od newFlat unknown (map fst (map_to_list oldFlat)) p with
                  | None => None
                  | Some p' => Some (render od p')
                  end
      end
  | _, _ => None
  end.

(** * The merge *)

(** A decoded document: leaves and tables. *)
Inductive tree := Leaf (v : V) | Table (m : list (bytes * tree)).
Fixpoint flattenInto (prefix : list bytes) (t : tree) (out : gmap bytes V) : gmap bytes V :=
  match t with
  | Leaf v => <[pathKey prefix := v]> out
  | Table m => (fix go (m : list (bytes * tree)) (out : gmap bytes V) : gmap bytes V :=
                  match m with [] => out | (k, sub) :: m' => go m' (flattenInto (prefix ++ [k]) sub out) end) m out
  end.
Definition flatten (t : tree) : gmap bytes V := flattenInto [] t ∅.
Fixpoint put (m : list (bytes * tree)) (k : bytes) (t : tree) : list (bytes * tree) :=
  match m with
  | [] => [(k, t)]
  | (k', t') :: m' => if bytes_eqb k k' then (k, t) :: m' else (k', t') :: put m' k t
  end.
Fixpoint child (m : list (bytes * tree)) (k : bytes) : option tree :=
  match m with [] => None | (k', t) :: m' => if bytes_eqb k k' then Some t else child m' k end.
Fixpoint setPath (m : list (bytes * tree)) (p : list bytes) (v : V) : option (list (bytes * tree)) :=
  match p with
  | [] => None
  | [k] => Some (put m k (Leaf v))
  | k :: p' =>
      match default (Table []) (child m k) with
      | Leaf _ => None
      | Table sub => match setPath sub p' v with Some sub' => Some (put m k (Table sub')) | None => None end
      end
  end.
(** strings.Split at the separator of paths. *)
Fixpoint split_key (s : bytes) : list bytes :=
  match s with
  | [] => [[]]
  | c :: s' => if c =? keySep then [] :: split_key s' else match split_key s' with l :: ls => (c :: l) :: ls | [] => [[c]] end
  end.
(** toml.Decode into a tree; the paths that Config does not know, when it decodes into
    Config too; and the encoder. *)
Context (decode : bytes -> option (list (bytes * tree))) (undecoded : bytes -> option (list (list bytes))) (encode : list (bytes * tree) -> option bytes).
Definition decodeWithUnknown (s : bytes) : option (list (bytes * tree) * gset bytes) :=
  match decode s with
  | None => None
  | Some t => match undecoded s with Some ps => Some (t, list_to_set (map pathKey ps)) | None => None end
  end.
Definition holdsValues (text : bytes) (want : gmap bytes V) : bool :=
  match decode text with None => false | Some t => bool_decide (flatten (Table t) = want) end.
Fixpoint graft (m : list (bytes * tree)) (oldFlat : gmap bytes V) (ks : list bytes) (grafted : bool) : option (list (bytes * tree) * bool) :=
  match ks with
  | [] => Some (m, grafted)
  | k :: ks' => match oldFlat !! k with
                | None => graft m oldFlat ks' grafted
                | Some v => match setPath m (split_key k) v with Some m' => graft m' oldFlat ks' true | None => None end
                end
  end.
Definition encodeWithUnknown (encoded : bytes) (m : list (bytes * tree)) (oldFlat : gmap bytes V) (unknown : gset bytes) : option bytes :=
  match graft m oldFlat (elements unknown) false with
  | None => None
  | Some (m', grafted) => if grafted then encode m' else Some encoded
  end.
Definition wanted (oldFlat newFlat : gmap bytes V) (unknown : gset bytes) : gmap bytes V :=
  filter (fun kv => fst kv ∈ unknown) oldFlat ∪ newFlat.
Inductive merge_err := BadEncoding | NotSafe.
Definition mergeConfigText (orig encoded : bytes) : result merge_err bytes :=
  if bytes_eqb (TrimSpace orig) [] then Ok encoded
  else match decodeWithUnknown orig with
       | None => Ok encoded
       | Some (oldTree, unknown) =>
           match decode encoded with
           | None => Err BadEncoding
           | Some newTree =>
               let oldFlat := flatten (Table oldTree) in
               let newFlat := flatten (Table newTree) in
               let want := wanted oldFlat newFlat unknown in
               let fallback :=
                 match encodeWithUnknown encoded newTree oldFlat unknown with
                 | Some out => if holdsValues out want then Ok out else Err NotSafe
                 | None => Err NotSafe
                 end in
               match patchText orig encoded oldFlat newFlat unknown with
               | Some out => if holdsValues out want then Ok out else fallback
               | None => fallback
               end
           end
       end.
(** The file that Save leaves: [orig] is None when there is none; reading, writing the
    temporary file and renaming it may fail. *)
Definition Save (orig : option bytes) (encoded : bytes) (readOK writeOK renameOK : bool) : option bytes * bool :=
  match orig with
  | None => if writeOK && renameOK then (Some encoded, true) else (None, false)
  | Some o =>
      if negb readOK then (orig, false)
      else match mergeConfigText o encoded with
           | Err _ => (orig, false)
           | Ok data => if writeOK && renameOK then (Some data, true) else (orig, false)
           end
  end.
End Merge.

(** * Lemmas *)

Lemma split_nonempty s : Split s <> [].
Proof. destruct s as [|c s]; cbn; [done|]. destruct (c =? LF); [done|]. by destruct (Split s). Qed.
Lemma join_cons l ls : ls <> [] -> JoinLF (l :: ls) = l ++ LF :: JoinLF ls.
Proof. by destruct ls. Qed.
Lemma join_split s : JoinLF (Split s) = s.
Proof.
  induction s as [|c s IH]; [done|]. cbn. pose proof (split_nonempty s) as N. destruct (Z.eqb_spec c LF) as [-> |_].
  - rewrite join_cons by done. by rewrite IH.
  - destruct (Split s) as [|l ls] eqn:E; [done|]. destruct ls; cbn in *; by rewrite <- IH.
Qed.
Lemma body_render od : lines od <> [] -> JoinLF (fst (body_lines od) ++ (if snd (body_lines od) then [[]] else [])) = JoinLF (lines od).
Proof.
  intros N. unfold body_lines. destruct (rev (lines od)) as [|[|c l] ls] eqn:E; cbn; rewrite ?app_nil_r; try done.
  f_equal. apply (f_equal (@rev bytes)) in E. rewrite rev_involutive in E. by rewrite E.
Qed.
(** Lines in no span of an edit. *)
Definition spared (p : patch) (i : nat) : Prop := forall f e, edits p !! f = Some e -> ~ (f <= i <= elast e)%nat.
Definition wf_edits (p : patch) : Prop := forall f e, edits p !! f = Some e -> (f <= elast e)%nat.
(** The lines with number [i] on that are spared. *)
Fixpoint kept (keep : nat -> bool) (i : nat) (ls : list bytes) : list bytes :=
  match ls with [] => [] | l :: ls' => (if keep i then [l] else []) ++ kept keep (S i) ls' end.
Lemma kept_skip keep ls : forall i n, (forall j, (i <= j < i + n)%nat -> keep j = false) -> kept keep i ls = kept keep (i + n) (drop n ls).
Proof.
  induction ls as [|l ls IH]; intros i n H; [by rewrite drop_nil|]. destruct n as [|n]; [by rewrite Nat.add_0_r|]. cbn.
  rewrite (H i) by lia. cbn. rewrite (IH (S i) n) by (intros; apply H; lia). f_equal. lia.
Qed.
Lemma render_keeps p keep ls : wf_edits p -> (forall i, keep i = true -> spared p i) -> forall fuel i, (length ls <= i + fuel)%nat ->
  sublist (kept keep i (drop i ls)) (render_loop fuel p ls i).
Proof.
  intros W K. induction fuel as [|fuel IH]; intros i L; [rewrite drop_ge by lia; constructor|]. cbn.
  destruct (ls !! i) as [l|] eqn:Li; [|rewrite drop_ge by (by apply lookup_ge_None); constructor].
  rewrite (drop_S _ _ _ Li). destruct (edits p !! i) as [ed|] eqn:E.
  - pose proof (W _ _ E) as We. rewrite (kept_skip keep (l :: drop (S i) ls) i (S (elast ed) - i)).
    2:{ intros j Hj. destruct (keep j) eqn:Kj; [|done]. destruct (K _ Kj _ _ E). lia. }
    rewrite <- (drop_S _ _ _ Li), drop_drop. replace (i + (S (elast ed) - i))%nat with (S (elast ed)) by lia.
    apply sublist_inserts_l, sublist_inserts_l, IH. lia.
  - cbn [kept]. change ([l] ++ ?x) with (l :: x). destruct (keep i); cbn.
    + apply sublist_skip, sublist_inserts_l, IH. lia.
    + apply sublist_cons, sublist_inserts_l, IH. lia.
Qed.
(** ** The scanner stays inside the text *)

Lemma trim_left_len s : (length (trim_left_blank s) <= length s)%nat.
Proof.
  unfold trim_left_blank. induction s as [|c s IH]; [done|]. cbn. destruct (is_blank c); [|done]. destruct (span is_blank s). cbn in *. lia.
Qed.
Lemma span_len p s : (length (snd (span p s)) <= length s)%nat.
Proof. induction s as [|c s IH]; [done|]. cbn. destruct (p c); [|done]. destruct (span p s). cbn in *. lia. Qed.
Lemma key_part_len U s k r : parseKeyPart U s = Some (k, r) -> (length r <= length s)%nat.
Proof.
  unfold parseKeyPart. destruct s as [|c s]; [done|]. destruct (c =? QUOTE).
  - destruct (closingQuote _); [|done]. destruct (U _); [|done]. intros [= <- <-]. cbn. rewrite length_drop. lia.
  - destruct (c =? 39).
    + destruct (index _ _); [|done]. intros [= <- <-]. cbn. rewrite length_drop. lia.
    + pose proof (span_len isBareKeyChar (c :: s)). destruct (span isBareKeyChar (c :: s)) as [[|] ?]; [done|]. by intros [= <- <-].
Qed.
(** More fuel than the length of the text changes nothing. *)
Lemma parse_key_fuel U : forall f f' s, (length s < f)%nat -> (length s < f')%nat -> parse_key U f s = parse_key U f' s.
Proof.
  induction f as [|f IH]; intros [|f'] s L L'; try lia. cbn. destruct (parseKeyPart U (trim_left_blank s)) as [[k r]|] eqn:E; [|done].
  apply key_part_len in E. pose proof (trim_left_len s). pose proof (trim_left_len r). destruct (trim_left_blank r) as [|c s'] eqn:T; [done|]. cbn in *.
  destruct (c =? DOT); [|done]. rewrite (IH f' s') by lia. done.
Qed.
Lemma lex_bounds s col : forall fuel lx j e, (col <= e <= length s)%nat -> (col <= j)%nat -> (col <= snd (lex fuel lx s j e) <= length s)%nat.
Proof.
  induction fuel as [|fuel IH]; intros lx j e E J; [done|]. cbn -[step Nat.min]. destruct (drop j s) as [|c r] eqn:D; [done|].
  destruct (match state lx with stNormal => c =? HASH | _ => false end); [done|]. destruct (step lx (c :: r)) as [lx' extra]. apply IH; [|lia].
  assert (j < length s)%nat by (apply (f_equal length) in D; rewrite length_drop in D; cbn in D; lia).
  destruct (_ || _); lia.
Qed.
Lemma scan_value_bounds : forall ls lx i col last e, scan_value lx ls i col = Some (last, e) -> (col <= length (ls !!! 0%nat))%nat ->
  (i <= last < i + length ls)%nat /\ (e <= length (ls !!! (last - i)%nat))%nat /\ (last = i -> (col <= e)%nat).
Proof.
  induction ls as [|s ls IH]; intros lx i col last e; [done|]. cbn [scan_value]. intros H C. cbn in C. unfold lex_line in H.
  pose proof (lex_bounds s col (S (length s)) lx col col ltac:(lia) ltac:(lia)) as B. destruct (lex _ lx s col col) as [lx' e0]. cbn in B, H.
  destruct (negb _); [done|]. destruct (match state lx' with stNormal => depth lx' =? 0 | _ => false end).
  - injection H as <- <-. rewrite Nat.sub_diag. cbn. split_and!; [lia|lia|lia|lia].
  - apply IH in H; [|lia]. destruct H as (H1 & H2 & _). cbn [length]. split_and!; [lia|lia| |lia]. by replace (last - i)%nat with (S (last - S i)) by lia.
Qed.
Definition entry_ok (ls : list bytes) (e : tomlEntry) : Prop :=
  (first e <= last e < length ls)%nat /\ (valStart e <= length (ls !!! first e))%nat /\ (valEnd e <= length (ls !!! last e))%nat
  /\ (first e = last e -> valStart e <= valEnd e)%nat.
Definition doc_ok (d : tomlDoc) : Prop := forall k e, entries d !! k = Some e -> entry_ok (lines d) e.
Lemma add_entry_ok U d i off table skip d' l : (i < length (lines d))%nat -> doc_ok d -> addEntry U d i off table skip = Some (d', l) ->
  doc_ok d' /\ lines d' = lines d /\ (i <= l)%nat.
Proof.
  intros I O. unfold addEntry. destruct (parseKey U _) as [[keyParts [|c after]]|]; [done| |done].
  destruct (c =? EQ); cbn [negb]; [|done]. set (start := (length (lines d !!! i) - length (trim_left_blank after))%nat).
  destruct (scanValue (lines d) i start) as [[last e]|] eqn:S; [|done]. unfold scanValue in S.
  assert (H0 : drop i (lines d) !!! 0%nat = lines d !!! i) by (rewrite lookup_total_drop; f_equal; lia).
  apply scan_value_bounds in S; [|rewrite H0; unfold start; lia]. rewrite length_drop, lookup_total_drop in S. destruct S as (S1 & S2 & S3).
  replace (i + (last - i))%nat with last in S2 by lia. destruct skip; intros [= <- <-]; (split_and!; [|done|lia]); [done|].
  intros k e' L. cbn in L |- *. apply lookup_insert_Some in L as [[_ <-]|[_ L]]; [|by apply (O k)]. unfold entry_ok. cbn. split_and!; [lia|lia|unfold start; lia|done|]. intros ->. by apply S3.
Qed.
Lemma scan_loop_ok U : forall fuel d i table arr d', doc_ok d -> scan_loop U fuel d i table arr = Some d' -> doc_ok d' /\ lines d' = lines d.
Proof.
  induction fuel as [|fuel IH]; intros d i table arr d' O H; cbn -[parseKey addEntry has_prefix] in H; [by injection H as <-|].
  destruct (lines d !! i) as [line|] eqn:L; [|by injection H as <-]. destruct (trim_line line) as [|c rest']; [by eapply IH|].
  destruct (c =? HASH); [by eapply IH|]. destruct (has_prefix _ _); [by eapply IH|]. destruct (c =? 91).
  - destruct (parseKey U rest') as [[p after]|]; [|done]. destruct (closesHeader after); [|done]. by apply IH in H; [|exact O].
  - destruct (addEntry U d i _ table arr) as [[d1 l]|] eqn:A; [|done]. apply add_entry_ok in A as (A1 & A2 & _); [|by eapply lookup_lt_Some|done].
    apply IH in H as [H1 H2]; [|done]. by rewrite H2.
Qed.
(** More fuel than there are lines changes nothing. *)
Lemma scan_fuel U : forall fuel fuel' d i table arr, doc_ok d -> (length (lines d) <= i + fuel)%nat -> (length (lines d) <= i + fuel')%nat ->
  scan_loop U fuel d i table arr = scan_loop U fuel' d i table arr.
Proof.
  assert (Out : forall fuel d i table arr, (length (lines d) <= i)%nat -> scan_loop U fuel d i table arr = Some d).
  { intros [|fuel] d i table arr L; cbn; [done|]. by rewrite lookup_ge_None_2. }
  induction fuel as [|fuel IH]; intros [|fuel'] d i table arr O L L'; [done|rewrite !Out by lia; done|rewrite !Out by lia; done|]. cbn -[parseKey addEntry has_prefix].
  destruct (lines d !! i) as [line|] eqn:Li; [|done]. destruct (trim_line line) as [|c rest']; [apply IH; [done|lia|lia]|].
  destruct (c =? HASH); [apply IH; [done|lia|lia]|]. destruct (has_prefix _ _); [apply IH; [done|lia|lia]|]. destruct (c =? 91).
  - destruct (parseKey U rest') as [[p after]|]; [|done]. destruct (closesHeader after); [|done]. apply IH; cbn; [exact O|lia|lia].
  - destruct (addEntry U d i _ table arr) as [[d1 l]|] eqn:A; [|done]. apply add_entry_ok in A as (A1 & A2 & A3); [|by eapply lookup_lt_Some|done].
    apply IH; rewrite ?A2; [done|lia|lia].
Qed.
Lemma scan_doc_ok U text d : scanDoc U text = Some d -> doc_ok d /\ lines d = Split text.
Proof. intros H. by apply scan_loop_ok in H. Qed.

(** ** What a patch touches *)

(** Every edit is the span of an entry that is changed. *)
Definition edits_of (od : tomlDoc) (changed : bytes -> Prop) (p : patch) : Prop :=
  forall f ed, edits p !! f = Some ed -> exists k e, changed k /\ entries od !! k = Some e /\ first e = f /\ last e = elast ed.
Lemma set_edits od nd cr changed p k p' : edits_of od changed p -> changed k -> set_ od nd cr p k = Some p' -> edits_of od changed p'.
Proof.
  intros H C S. unfold set_ in S. destruct (entries nd !! k) as [ne|]; [|done]. destruct (entries od !! k) as [e|] eqn:E.
  - injection S as <-. intros f ed L. cbn in L. apply lookup_insert_Some in L as [[<- <-]|[_ L]]; [by exists k, e|by apply H].
  - destruct (negb _); [done|]. destruct (tables od !! _); [by injection S as <-|]. destruct (bool_decide _); [by injection S as <-|].
    destruct (headers nd !! _); [|done]. destruct (_ || _); [done|]. by injection S as <-.
Qed.
Section Touched.
Context {V : Type} `{EqDecision V}.
Implicit Types oldFlat newFlat : gmap bytes V.
Lemma set_all_edits od nd cr oldFlat newFlat changed ks : forall p p',
  edits_of od changed p -> (forall k, k ∈ ks -> ~ (exists v, oldFlat !! k = Some v /\ newFlat !! k = Some v) -> changed k) ->
  set_all od nd cr oldFlat newFlat ks p = Some p' -> edits_of od changed p'.
Proof.
  induction ks as [|k ks IH]; intros p p' H C S; cbn in S; [by injection S as <-|].
  assert (C' : forall k, k ∈ ks -> ~ (exists v, oldFlat !! k = Some v /\ newFlat !! k = Some v) -> changed k) by (intros; apply C; [by right|done]).
  destruct (match oldFlat !! k with Some ov => bool_decide (newFlat !! k = Some ov) | None => false end) eqn:B; [by eapply IH|].
  destruct (set_ od nd cr p k) as [p1|] eqn:S1; [|done]. eapply (IH p1); [|done|done]. eapply set_edits; [done| |done]. apply C; [by left|].
  intros (v & E1 & E2). rewrite E1 in B. apply bool_decide_eq_false in B. done.
Qed.
Lemma drop_all_edits od newFlat unknown changed ks : forall p p',
  edits_of od changed p -> (forall k, k ∈ ks -> newFlat !! k = None -> k ∉ unknown -> changed k) ->
  drop_all od newFlat unknown ks p = Some p' -> edits_of od changed p'.
Proof.
  induction ks as [|k ks IH]; intros p p' H C S; cbn in S; [by injection S as <-|].
  assert (C' : forall k, k ∈ ks -> newFlat !! k = None -> k ∉ unknown -> changed k) by (intros; apply C; [by right|done|done]).
  destruct (bool_decide (is_Some (newFlat !! k)) || bool_decide (k ∈ unknown)) eqn:B; [by eapply IH|].
  apply orb_false_iff in B as [B1%bool_decide_eq_false B2%bool_decide_eq_false]. destruct (entries od !! k) as [e|] eqn:E; [|done].
  eapply IH; [|done|done]. intros f ed L. cbn in L. apply lookup_insert_Some in L as [[<- <-]|[_ L]]; [|by apply H].
  exists k, e. split_and!; try done. apply C; [by left|by apply eq_None_not_Some|done].
Qed.
End Touched.

Lemma render_loop_empty ls : forall fuel i, (length ls <= i + fuel)%nat -> render_loop fuel emptyPatch ls i = drop i ls.
Proof.
  induction fuel as [|fuel IH]; intros i L; [by rewrite drop_ge by lia|]. cbn. destruct (ls !! i) as [l|] eqn:E; [|by rewrite drop_ge by (by apply lookup_ge_None)].
  rewrite (drop_S _ _ _ E). cbn. f_equal. apply IH. lia.
Qed.
Lemma render_empty od : render od emptyPatch = JoinLF (fst (body_lines od) ++ (if snd (body_lines od) then [[]] else [])).
Proof.
  unfold render, render_lines. destruct (body_lines od) as [ls nl]. cbn [fst snd]. rewrite render_loop_empty by lia. cbn. rewrite drop_0. by destruct nl.
Qed.

(** * Properties *)

Section Properties.
Context {V : Type} `{EqDecision V} (Unquote : bytes -> option bytes).
Implicit Types oldFlat newFlat : gmap bytes V.
(** Keys a save leaves alone: the same value before and after, or unknown and not written. *)
Definition untouched (nd : tomlDoc) oldFlat newFlat (unknown : gset bytes) (k : bytes) : Prop :=
  (exists v, oldFlat !! k = Some v /\ newFlat !! k = Some v) \/ (k ∈ unknown /\ k ∉ order nd).
Lemma edits_wf od changed p : doc_ok od -> edits_of od changed p -> wf_edits p.
Proof. intros O H f ed L. destruct (H f ed L) as (k & e & _ & E & <- & <-). destruct (O k e E) as [? _]. lia. Qed.
(** C33: A save keeps what the user wrote.  When the file is patched: every line that is in
    no pair whose value changes, is new or is dropped (comments, blank lines, headers,
    unchanged pairs and pairs of keys the program does not know) is in the new file as it
    was and in the same order; every span the patch edits lies inside the file, so no line
    is cut out of bounds; and when no value changes the file is not changed at all. *)
Theorem config_patch_keeps orig encoded oldFlat newFlat unknown od nd :
  scanDoc Unquote orig = Some od -> scanDoc Unquote encoded = Some nd ->
  (forall out, patchText Unquote orig encoded oldFlat newFlat unknown = Some out ->
     exists outLines, out = JoinLF outLines
     /\ forall keep, (forall i k e, keep i = true -> entries od !! k = Some e -> ~ untouched nd oldFlat newFlat unknown k -> ~ (first e <= i <= last e)%nat) ->
        sublist (kept keep 0 (fst (body_lines od))) outLines)
  /\ (forall k e, entries od !! k = Some e ->
        (first e <= last e < length (Split orig))%nat /\ (valStart e <= length (Split orig !!! first e))%nat /\ (valEnd e <= length (Split orig !!! last e))%nat
        /\ (first e = last e -> valStart e <= valEnd e)%nat)
  /\ ((forall k, k ∈ order nd -> exists v, oldFlat !! k = Some v /\ newFlat !! k = Some v) ->
      (forall k, is_Some (oldFlat !! k) -> is_Some (newFlat !! k) \/ k ∈ unknown) ->
      patchText Unquote orig encoded oldFlat newFlat unknown = Some orig).
Proof.
  intros So Sn. destruct (scan_doc_ok _ _ _ So) as [O Lo]. split_and!.
  - intros out P. unfold patchText in P. rewrite So, Sn in P. set (cr := match index [CR; LF] orig with Some _ => [CR] | None => [] end) in P.
    destruct (set_all _ _ _ _ _ _ _) as [p|] eqn:S1; [|done]. destruct (drop_all _ _ _ _ _) as [p'|] eqn:S2; [|done]. injection P as <-.
    exists (render_lines od p'). split; [done|]. intros keep K. set (ch := fun k => ~ untouched nd oldFlat newFlat unknown k).
    assert (E1 : edits_of od ch p).
    { eapply set_all_edits; [|..|exact S1]; [by intros f ed L|]. intros k Ik N [U|[_ U]]; done. }
    assert (E2 : edits_of od ch p').
    { eapply drop_all_edits; [exact E1|..|exact S2]. intros k Ik N Nu [(v & _ & U)|[U _]]; [congruence|done]. }
    unfold render_lines. destruct (body_lines od) as [ls hasNL]. cbn [fst]. apply sublist_inserts_l, sublist_inserts_r.
    apply (render_keeps p' keep ls (edits_wf _ _ _ O E2)); [|lia]. intros i Ki f ed L. destruct (E2 f ed L) as (k & e & C & E & <- & <-). by eapply K.
  - intros k e E. rewrite <- Lo. by apply (O k).
  - intros A B. unfold patchText. rewrite So, Sn.
    assert (S1 : forall cr ks, (forall k, k ∈ ks -> exists v, oldFlat !! k = Some v /\ newFlat !! k = Some v) -> set_all od nd cr oldFlat newFlat ks emptyPatch = Some emptyPatch).
    { intros cr ks. induction ks as [|k ks IH]; intros H; [done|]. cbn. destruct (H k ltac:(by left)) as (v & -> & E). rewrite bool_decide_true by done. apply IH. intros; apply H; by right. }
    rewrite S1 by done.
    assert (S2 : forall ks, (forall k, k ∈ ks -> is_Some (newFlat !! k) \/ k ∈ unknown) -> drop_all od newFlat unknown ks emptyPatch = Some emptyPatch).
    { induction ks as [|k ks IH]; intros H; [done|]. cbn. replace (_ || _) with true; [apply IH; intros; apply H; by right|].
      symmetry. apply orb_true_iff. destruct (H k ltac:(by left)); [left|right]; by apply bool_decide_eq_true. }
    rewrite S2.
    + rewrite render_empty. f_equal. rewrite <- (join_split orig), <- Lo. apply body_render. rewrite Lo. apply split_nonempty.
    + intros k Hk. apply list_elem_of_fmap in Hk as ([k' v] & -> & Hk). apply elem_of_map_to_list in Hk. apply B. by eexists.
Qed.
End Properties.

Section Saved.
Context {V : Type} `{EqDecision V} (Unquote : bytes -> option bytes).
Context (decode : bytes -> option (list (bytes * @tree V))) (undecoded : bytes -> option (list (list bytes))) (encode : list (bytes * @tree V) -> option bytes).
Lemma wanted_lookup (oldFlat newFlat : gmap bytes V) (unknown : gset bytes) k :
  wanted oldFlat newFlat unknown !! k = match oldFlat !! k with Some v => if bool_decide (k ∈ unknown) then Some v else newFlat !! k | None => newFlat !! k end.
Proof.
  unfold wanted. rewrite lookup_union. destruct (oldFlat !! k) as [v|] eqn:E.
  - case_bool_decide as U.
    + rewrite (map_lookup_filter_Some_2 _ _ _ v) by done. by destruct (newFlat !! k).
    + rewrite map_lookup_filter_None_2; [by destruct (newFlat !! k)|]. right. intros v' E' U'. done.
  - rewrite map_lookup_filter_None_2; [by destruct (newFlat !! k)|by left].
Qed.
Lemma holds_flat text want : holdsValues decode text want = true -> exists t, decode text = Some t /\ flatten (Table t) = want.
Proof. unfold holdsValues. destruct (decode text) as [t|]; [|done]. intros E%bool_decide_eq_true. by exists t. Qed.
(** C32: A save writes the configuration or nothing.  Whatever is in the file, and whatever
    fails: when Save reports an error the file is as it was; when it reports success and
    the file could be decoded before, what is in it decodes to exactly the values of the
    configuration and, untouched, those of the keys the program does not know; a missing,
    blank or broken file is replaced by the plain encoding. *)
Theorem config_save_safe orig encoded readOK writeOK renameOK file' ok :
  Save Unquote decode undecoded encode orig encoded readOK writeOK renameOK = (file', ok) ->
  (ok = false -> file' = orig)
  /\ (ok = true -> exists out, file' = Some out
      /\ match orig with
         | None => out = encoded
         | Some o =>
             match (if bytes_eqb (TrimSpace o) [] then None else decodeWithUnknown decode undecoded o) with
             | None => out = encoded
             | Some (oldTree, unknown) =>
                 exists newTree t, decode encoded = Some newTree /\ decode out = Some t
                 /\ forall k, flatten (Table t) !! k
                    = match flatten (Table oldTree) !! k with
                      | Some v => if bool_decide (k ∈ unknown) then Some v else flatten (Table newTree) !! k
                      | None => flatten (Table newTree) !! k
                      end
             end
         end).
Proof.
  unfold Save. destruct orig as [o|].
  2:{ destruct (writeOK && renameOK); intros [= <- <-]; (split; [done|]); [intros _; by exists encoded|done]. }
  destruct readOK; cbn [negb]; [|intros [= <- <-]; by split].
  destruct (mergeConfigText _ _ _ _ o encoded) as [data|] eqn:M; [|intros [= <- <-]; by split].
  destruct (writeOK && renameOK); intros [= <- <-]; (split; [done|]); [|done]. intros _. exists data. split; [done|].
  unfold mergeConfigText in M. destruct (bytes_eqb (TrimSpace o) []); [by injection M|].
  destruct (decodeWithUnknown decode undecoded o) as [[oldTree unknown]|]; [|by injection M]. destruct (decode encoded) as [newTree|] eqn:Dn; [|done].
  assert (H : holdsValues decode data (wanted (flatten (Table oldTree)) (flatten (Table newTree)) unknown) = true).
  { destruct (patchText _ _ _ _ _ _) as [out|]; [destruct (holdsValues decode out _) eqn:Ho; [by injection M as <-|]|].
    all: destruct (encodeWithUnknown _ _ _ _ _) as [out'|]; [|done]; destruct (holdsValues decode out' _) eqn:Ho'; [by injection M as <-|done]. }
  apply holds_flat in H as (t & Dt & Ft). exists newTree, t. split_and!; [done|done|]. intros k. by rewrite Ft, wanted_lookup.
Qed.
End Saved.

(** * A file *)

Definition demo_orig : bytes := str "# mine" ++ [LF] ++ str "port = 1 # here" ++ [LF] ++ str "extra = 2" ++ [LF] ++ [LF] ++ str "[log]" ++ [LF] ++ str "level = 'a' # b" ++ [LF].
Definition demo_encoded : bytes := str "port = 3" ++ [LF] ++ [LF] ++ str "[log]" ++ [LF] ++ str "  level = 'a'" ++ [LF] ++ str "  file = 'x'" ++ [LF].
Definition demo_out : bytes :=
  str "# mine" ++ [LF] ++ str "port = 3 # here" ++ [LF] ++ str "extra = 2" ++ [LF] ++ [LF] ++ str "[log]" ++ [LF] ++ str "level = 'a' # b" ++ [LF] ++ str "file = 'x'" ++ [LF].
Definition demo_log (l : list (string * string)) : list (bytes * @tree bytes) := map (fun '(k, v) => (str k, Leaf (str v))) l.
Definition demo_decode (t : bytes) : option (list (bytes * @tree bytes)) :=
  if bytes_eqb t demo_orig then Some (demo_log [("port", "1"); ("extra", "2")] ++ [(str "log", Table (demo_log [("level", "a")]))])
  else if bytes_eqb t demo_encoded then Some (demo_log [("port", "3")] ++ [(str "log", Table (demo_log [("level", "a"); ("file", "x")]))])
  else if bytes_eqb t demo_out then Some (demo_log [("port", "3"); ("extra", "2")] ++ [(str "log", Table (demo_log [("level", "a"); ("file", "x")]))])
  else None.
Definition demo_undecoded (_ : bytes) : option (list (list bytes)) := Some [[str "extra"]].
Lemma demo_save : Save (fun _ => None) demo_decode demo_undecoded (fun _ => None) (Some demo_orig) demo_encoded true true true = (Some demo_out, true).
Proof. by vm_compute. Qed.
Lemma config_save_safe_witness : exists out newTree t, Some demo_out = Some out /\ demo_decode demo_encoded = Some newTree /\ demo_decode out = Some t.
Proof.
  destruct (proj2 (config_save_safe (fun _ => None) demo_decode demo_undecoded (fun _ => None) (Some demo_orig) demo_encoded true true true (Some demo_out) true demo_save) eq_refl)
    as (out & E & newTree & t & A & B & _).
  exact (ex_intro _ out (ex_intro _ newTree (ex_intro _ t (conj E (conj A B))))).
Defined.
Definition demo_doc (t : bytes) : tomlDoc := match scanDoc (fun _ => None) t with Some d => d | None => mkDoc [] ∅ [] ∅ ∅ ∅ ∅ end.
Lemma demo_scan : scanDoc (fun _ => None) demo_orig = Some (demo_doc demo_orig) /\ scanDoc (fun _ => None) demo_encoded = Some (demo_doc demo_encoded).
Proof. by split; vm_compute. Qed.
Definition demo_flat : gmap bytes bytes := {[str "port" := str "1"]}.
Definition demo_flat' : gmap bytes bytes := {[str "port" := str "3"]}.
Lemma config_patch_keeps_witness :
  entries (demo_doc demo_orig) !! pathKey [str "log"; str "level"] = Some (mkEntry 5 5 8 11)
  /\ (5 <= 5 < length (Split demo_orig))%nat /\ (8 <= length (Split demo_orig !!! 5%nat))%nat /\ (11 <= length (Split demo_orig !!! 5%nat))%nat /\ (5 = 5 -> 8 <= 11)%nat.
Proof.
  split; [by vm_compute|].
  exact (proj1 (proj2 (config_patch_keeps (V:=bytes) (fun _ => None) demo_orig demo_encoded demo_flat demo_flat' ∅ (demo_doc demo_orig) (demo_doc demo_encoded) (proj1 demo_scan) (proj2 demo_scan)))
    (pathKey [str "log"; str "level"]) (mkEntry 5 5 8 11) eq_refl).
Defined.
