(* ===== verification/StreamSlot.v ===== *)
(** The /stream slot: SetFile to ClearFileIf, the handler's counting of readers and
    serveGrowing of engine/stream_server.go, stream_server_slot.go, the growing source of
    engine/stream_source.go, and slotSessionCancel of cmd/closed_stream_sessions.go.

    The slot is a machine whose steps are the critical sections of the server's mutex and
    its atomic counters; requests and teardowns interleave.  A growing source is what
    ffmpeg has written so far. *)
From Stdlib Require Import ZArith Lia.
From stdpp Require Import prelude list strings.
From S2P Require Import Prelude GoStrings.

Open Scope Z_scope.

(** * The slot *)

(** A raw file, or a remux by its number. *)
Inductive source := Raw (name : nat) | Growing (g : nat).
Definition maxStreamReaders : Z := 32.
(** Milliseconds. *)
Definition slotReaderGrace : Z := 5000.
(** What a goroutine does next: close a source, tear a session down, or serve a request. *)
Inductive task :=
| Closing (g : nat)
| Checking (k : nat) | Releasing (k : nat) | Clearing (k : nat)
| Looking | Pinning (s : source) | Counting (s : source) (pin : nat) | Refusing | Serving (s : source) (pin : nat) | ServingGrown (g : nat)
| Finished.
(** [file] is the source served with the generation it was installed with; [sessions] has
    the generation of each session and whether its cancel has run.  [closed], [released]
    and [removed] record what was done: sources closed, sessions released, and for each
    session that cleared the slot the generation of the file it took away. *)
Record server := mkServer {
  file : option (source * nat); fileGeneration : nat; activeReaders : Z; servedGen : nat; servedAt : Z; lastReadAt : Z;
  tasks : list task; sessions : list (nat * bool); nextGrowing : nat;
  closed : list nat; released : list nat; removed : list (nat * nat)
}.
Definition NewStreamServer : server := mkServer None 0 0 0 0 0 [] [] 0 [] [] [].
Definition install (ss : server) (s : source) (now : Z) (next : nat) : server :=
  let prev := match file ss with Some (Growing g, _) => [Closing g] | _ => [] end in
  let gen := S (fileGeneration ss) in
  mkServer (Some (s, gen)) gen (activeReaders ss) (servedGen ss) (servedAt ss) now (tasks ss ++ prev) (sessions ss) next (closed ss) (released ss) (removed ss).
Definition SetFile (ss : server) (name : nat) (now : Z) : server := install ss (Raw name) now (nextGrowing ss).
Definition SetGrowingFile (ss : server) (now : Z) : server := install ss (Growing (nextGrowing ss)) now (S (nextGrowing ss)).
(** The source to close, if any, and the cleared server. *)
Definition clearLocked (ss : server) : server * option nat :=
  (mkServer None (S (fileGeneration ss)) (activeReaders ss) (servedGen ss) (servedAt ss) (lastReadAt ss) (tasks ss) (sessions ss) (nextGrowing ss) (closed ss) (released ss) (removed ss),
   match file ss with Some (Growing g, _) => Some g | _ => None end).
Definition set_task (ss : server) (i : nat) (t : task) : server :=
  mkServer (file ss) (fileGeneration ss) (activeReaders ss) (servedGen ss) (servedAt ss) (lastReadAt ss) (<[i := t]> (tasks ss)) (sessions ss) (nextGrowing ss) (closed ss) (released ss) (removed ss).
Definition add_task (ss : server) (t : task) : server :=
  mkServer (file ss) (fileGeneration ss) (activeReaders ss) (servedGen ss) (servedAt ss) (lastReadAt ss) (tasks ss ++ [t]) (sessions ss) (nextGrowing ss) (closed ss) (released ss) (removed ss).
Definition set_readers (ss : server) (n : Z) : server :=
  mkServer (file ss) (fileGeneration ss) n (servedGen ss) (servedAt ss) (lastReadAt ss) (tasks ss) (sessions ss) (nextGrowing ss) (closed ss) (released ss) (removed ss).
Definition set_history (ss : server) (c r : list nat) (m : list (nat * nat)) : server :=
  mkServer (file ss) (fileGeneration ss) (activeReaders ss) (servedGen ss) (servedAt ss) (lastReadAt ss) (tasks ss) (sessions ss) (nextGrowing ss) c r m.
Definition set_sessions (ss : server) (l : list (nat * bool)) : server :=
  mkServer (file ss) (fileGeneration ss) (activeReaders ss) (servedGen ss) (servedAt ss) (lastReadAt ss) (tasks ss) l (nextGrowing ss) (closed ss) (released ss) (removed ss).
Definition SlotInUse (ss : server) (gen : nat) (recent now : Z) : bool :=
  if negb (fileGeneration ss =? gen)%nat then false
  else if 0 <? activeReaders ss then true
  else if negb (servedGen ss =? gen)%nat then false
  else now - servedAt ss <? recent.
(** The bookkeeping of a read of the tracking reader, its stores as one step. *)
Definition track (ss : server) (pin : nat) (now : Z) : server :=
  if (fileGeneration ss =? pin)%nat
  then mkServer (file ss) (fileGeneration ss) (activeReaders ss) pin now now (tasks ss) (sessions ss) (nextGrowing ss) (closed ss) (released ss) (removed ss)
  else ss.
Definition gen_of (ss : server) (k : nat) : nat := match sessions ss !! k with Some (g, _) => g | None => 0 end.
(** ClearFileIf, by the session [k]: task [i] goes on to close what it took away. *)
Definition ClearFileIf (ss : server) (i k : nat) : server :=
  if negb (fileGeneration ss =? gen_of ss k)%nat then set_task ss i Finished
  else
    let '(ss', prev) := clearLocked ss in
    let h := match file ss with Some (_, g) => (k, g) :: removed ss | None => removed ss end in
    set_task (set_history ss' (closed ss) (released ss) h) i (match prev with Some g => Closing g | None => Finished end).

Inductive event :=
| ESetFile (name : nat) (now : Z) | ESetGrowing (now : Z) | EClear
| ESession            (* serveSlotSession of the file that was just installed *)
| ECancel (k : nat)   (* the session's cancel; it runs once *)
| ERequest | EGo (i : nat) (now : Z)
| EBytes (i : nat) (now : Z) | EEnd (i : nat).   (* a serving request sends bytes, or ends *)
Definition step (ss : server) (e : event) : server :=
  match e with
  | ESetFile name now => SetFile ss name now
  | ESetGrowing now => SetGrowingFile ss now
  | EClear => let '(ss', prev) := clearLocked ss in match prev with Some g => add_task ss' (Closing g) | None => ss' end
  | ESession => match file ss with Some (_, g) => set_sessions ss (sessions ss ++ [(g, false)]) | None => ss end
  | ECancel k => match sessions ss !! k with
                 | Some (g, false) => add_task (set_sessions ss (<[k := (g, true)]> (sessions ss))) (Checking k)
                 | _ => ss
                 end
  | ERequest => add_task ss Looking
  | EGo i now =>
      match tasks ss !! i with
      | Some (Closing g) => set_task (set_history ss (g :: closed ss) (released ss) (removed ss)) i Finished
      | Some (Checking k) => if SlotInUse ss (gen_of ss k) slotReaderGrace now then ss else set_task ss i (Releasing k)
      | Some (Releasing k) => set_task (set_history ss (closed ss) (k :: released ss) (removed ss)) i (Clearing k)
      | Some (Clearing k) => ClearFileIf ss i k
      | Some Looking => set_task ss i (match file ss with None => Finished | Some (Growing g, _) => ServingGrown g | Some (Raw f, _) => Pinning (Raw f) end)
      | Some (Pinning s) => set_task ss i (Counting s (fileGeneration ss))
      | Some (Counting s pin) =>
          let n := activeReaders ss + 1 in
          set_task (set_readers ss n) i (if maxStreamReaders <? n then Refusing else Serving s pin)
      | Some Refusing => set_task (set_readers ss (activeReaders ss - 1)) i Finished
      | _ => ss
      end
  | EBytes i now => match tasks ss !! i with Some (Serving _ pin) => track ss pin now | _ => ss end
  | EEnd i =>
      match tasks ss !! i with
      | Some (Serving _ _) => set_task (set_readers ss (activeReaders ss - 1)) i Finished
      | Some (ServingGrown _) => set_task ss i Finished
      | _ => ss
      end
  end.
Definition run (ss : server) (evs : list event) : server := fold_left step evs ss.

(** ** Lemmas *)

Definition eqz (n m : nat) : Z := if (n =? m)%nat then 1 else 0.
Definition closing_w (g : nat) (t : task) : Z := match t with Closing h => eqz h g | _ => 0 end.
Definition cancel_w (k : nat) (t : task) : Z := match t with Checking j | Releasing j => eqz j k | _ => 0 end.
Definition serving_w (t : task) : Z := match t with Serving _ _ => 1 | _ => 0 end.
Definition over_w (t : task) : Z := match t with Refusing => 1 | _ => 0 end.
Definition holds_w (g : nat) (ss : server) : Z := match file ss with Some (Growing h, _) => eqz h g | _ => 0 end.
Definition cancelled_w (k : nat) (l : list (nat * bool)) : Z := match l !! k with Some (_, true) => 1 | _ => 0 end.
Definition count (n : nat) (l : list nat) : Z := zsum (fun m => eqz m n) l.
Record server_ok (ss : server) : Prop := {
  ok_gen : forall s g, file ss = Some (s, g) -> g = fileGeneration ss;
  ok_removed : Forall (fun '(k, g) => gen_of ss k = g /\ is_Some (sessions ss !! k)) (removed ss);
  ok_close : forall g, holds_w g ss + zsum (closing_w g) (tasks ss) + count g (closed ss) = if (g <? nextGrowing ss)%nat then 1 else 0;
  ok_cancel : forall k, zsum (cancel_w k) (tasks ss) + count k (released ss) = cancelled_w k (sessions ss);
  ok_readers : activeReaders ss = zsum serving_w (tasks ss) + zsum over_w (tasks ss);
  ok_cap : zsum serving_w (tasks ss) <= maxStreamReaders;
  ok_tasks : Forall (fun t => match t with Clearing k => is_Some (sessions ss !! k) | Checking k | Releasing k => is_Some (sessions ss !! k) | _ => True end) (tasks ss)
}.
Lemma eqz_nonneg n m : 0 <= eqz n m.
Proof. unfold eqz. destruct (_ =? _)%nat; lia. Qed.
Lemma server_put_ok ss ss' i t t' :
  server_ok ss -> tasks ss !! i = Some t -> tasks ss' = <[i := t']> (tasks ss) -> sessions ss' = sessions ss -> nextGrowing ss' = nextGrowing ss ->
  (forall s g, file ss' = Some (s, g) -> g = fileGeneration ss') ->
  Forall (fun '(k, g) => gen_of ss k = g /\ is_Some (sessions ss !! k)) (removed ss') ->
  (forall g, holds_w g ss' + closing_w g t' + count g (closed ss') = holds_w g ss + closing_w g t + count g (closed ss)) ->
  (forall k, cancel_w k t' + count k (released ss') = cancel_w k t + count k (released ss)) ->
  activeReaders ss' - activeReaders ss = serving_w t' + over_w t' - serving_w t - over_w t ->
  (serving_w t < serving_w t' -> activeReaders ss' <= maxStreamReaders) ->
  (match t' with Clearing k | Checking k | Releasing k => is_Some (sessions ss !! k) | _ => True end) -> server_ok ss'.
Proof.
  intros O L Et Es En Gen Rem Cl Ca Rd Cap Ts. pose proof O as [A B C D E F G].
  assert (Z : forall w, zsum w (tasks ss') = zsum w (tasks ss) - w t + w t') by (intros w; rewrite Et; by apply zsum_insert).
  split; [done| | | | | |].
  - unfold gen_of in *. by rewrite Es.
  - intros g. rewrite Z, En, <- C. specialize (Cl g). lia.
  - intros k. rewrite Z, Es, <- D. specialize (Ca k). lia.
  - rewrite !Z. lia.
  - rewrite Z. destruct (decide (serving_w t < serving_w t')) as [X|X]; [|lia]. specialize (Cap X).
    assert (0 <= zsum over_w (tasks ss')) by (apply zsum_nonneg; by intros []). rewrite Z in H. lia.
  - rewrite Et, Es. apply Forall_insert; [done|]. by destruct t'.
Qed.
Lemma server_add_ok ss t : server_ok ss ->
  match t with Looking => True | Closing _ | Checking _ | Releasing _ | Clearing _ | Serving _ _ | Refusing => False | _ => True end -> server_ok (add_task ss t).
Proof.
  intros [A B C D E F G] T. assert (Z : forall w : task -> Z, w t = 0 -> zsum w (tasks ss ++ [t]) = zsum w (tasks ss)) by (intros w H; rewrite zsum_app, zsum_cons, zsum_nil; lia).
  split; cbn; try done.
  - intros g. rewrite Z by (by destruct t). apply C.
  - intros k. rewrite Z by (by destruct t). apply D.
  - by rewrite !Z by (by destruct t).
  - by rewrite Z by (by destruct t).
  - apply Forall_app. split; [done|]. constructor; [by destruct t|done].
Qed.
Lemma count_cons n m l : count n (m :: l) = eqz m n + count n l.
Proof. unfold count. by rewrite zsum_cons. Qed.
(** The served file goes, and whoever removes it has its source to close. *)
Lemma install_ok ss s now next :
  server_ok ss -> (s = Growing (nextGrowing ss) /\ next = S (nextGrowing ss) \/ (exists f, s = Raw f) /\ next = nextGrowing ss) -> server_ok (install ss s now next).
Proof.
  intros [A B C D E F G] S. unfold install.
  assert (Z : forall w : task -> Z, (forall g, w (Closing g) = 0) -> zsum w (tasks ss ++ match file ss with Some (Growing g, _) => [Closing g] | _ => [] end) = zsum w (tasks ss)).
  { intros w H. destruct (file ss) as [[[|g] ?]|]; rewrite zsum_app, ?zsum_cons, zsum_nil, ?H; lia. }
  split; cbn -[Nat.ltb]; try done.
  - by intros ? ? [= <- <-].
  - intros g. specialize (C g). rewrite zsum_app. unfold holds_w in *. cbn -[Nat.ltb].
    assert (P : zsum (closing_w g) match file ss with Some (Growing h, _) => [Closing h] | _ => [] end = match file ss with Some (Growing h, _) => eqz h g | _ => 0 end).
    { destruct (file ss) as [[[|h] ?]|]; rewrite ?zsum_cons, zsum_nil; cbn; lia. }
    rewrite P. destruct S as [[-> ->]|[[f ->] ->]]; cbn -[Nat.ltb]; [|rewrite <- C; destruct (file ss) as [[[|h] ?]|]; cbn -[Nat.ltb]; lia]. unfold eqz at 1.
    assert (exists v, match file ss with Some (Growing h, _) => eqz h g | _ => 0 end = v) as [v Ev] by eauto. rewrite Ev in C |- *.
    destruct (Nat.eqb_spec (nextGrowing ss) g), (Nat.ltb_spec g (nextGrowing ss)), (Nat.ltb_spec g (S (nextGrowing ss))); lia.
  - intros k. rewrite Z by done. apply D.
  - by rewrite !Z by done.
  - by rewrite Z by done.
  - apply Forall_app. split; [done|]. destruct (file ss) as [[[|h] ?]|]; [done|by constructor|done].
Qed.
Lemma clear_ok ss : server_ok ss ->
  server_ok (let '(ss', prev) := clearLocked ss in match prev with Some g => add_task ss' (Closing g) | None => ss' end).
Proof.
  intros [A B C D E F G]. unfold clearLocked. destruct (file ss) as [[[f|h] g0]|] eqn:Ef; cbn.
  1,3: split; cbn -[Nat.ltb]; try done; intros g; specialize (C g); unfold holds_w in *; rewrite Ef in C; rewrite <- C; cbn; lia.
  split; cbn -[Nat.ltb]; try done.
  - intros g. specialize (C g). unfold holds_w in *. rewrite Ef in C. rewrite <- C, zsum_app, zsum_cons, zsum_nil. cbn. lia.
  - intros k. rewrite zsum_app, zsum_cons, zsum_nil. cbn. specialize (D k). lia.
  - rewrite !zsum_app, !zsum_cons, !zsum_nil. cbn. lia.
  - rewrite zsum_app, zsum_cons, zsum_nil. cbn. lia.
  - apply Forall_app. split; [done|by constructor].
Qed.
Lemma server_finish_ok ss i t t' : server_ok ss -> tasks ss !! i = Some t ->
  match t with Looking | Clearing _ | ServingGrown _ => True | _ => False end -> match t' with Finished | Pinning _ | ServingGrown _ => True | _ => False end ->
  server_ok (set_task ss i t').
Proof. intros O L T T'. eapply (server_put_ok ss _ i t t'); try done; try apply O; try (intros; destruct t, t'; try done; cbn; lia). Qed.
Lemma track_ok ss pin now : server_ok ss -> server_ok (track ss pin now).
Proof. intros O. unfold track. destruct (_ =? _)%nat; [|done]. destruct O as [A B C D E F G]. by split. Qed.
Lemma clear_if_ok ss i k : server_ok ss -> tasks ss !! i = Some (Clearing k) -> server_ok (ClearFileIf ss i k).
Proof.
  intros O L. unfold ClearFileIf. destruct (Nat.eqb_spec (fileGeneration ss) (gen_of ss k)) as [E|_]; cbn [negb]; [|by eapply server_finish_ok].
  pose proof (Forall_lookup_1 _ _ _ _ (ok_tasks _ O) L) as Sk. cbn in Sk.
  assert (R : Forall (fun '(k0, g) => gen_of ss k0 = g /\ is_Some (sessions ss !! k0)) match file ss with Some (_, g) => (k, g) :: removed ss | None => removed ss end).
  { destruct (file ss) as [[s g]|] eqn:Ef; [|apply O]. constructor; [|apply O]. rewrite (ok_gen _ O _ _ Ef). by split. }
  unfold clearLocked. destruct (file ss) as [[[f|h] g0]|] eqn:Ef; cbn [set_task].
  all: eapply (server_put_ok ss _ i (Clearing k)); [exact O|exact L|reflexivity|reflexivity|reflexivity|done|exact R| | | |done|done]; try (intros; cbn; lia).
  all: intros g; unfold holds_w; rewrite Ef; cbn; lia.
Qed.
Lemma server_go_ok ss i now : server_ok ss -> server_ok (step ss (EGo i now)).
Proof.
  intros O. cbn. destruct (tasks ss !! i) as [t|] eqn:L; [|done]. destruct t as [g|k|k|k| |s|s pin| |s pin|g|]; try done.
  - eapply (server_put_ok ss _ i (Closing g) Finished); try done; try apply O; try (intros; cbn; lia). intros g'. cbn. rewrite count_cons. unfold holds_w. cbn. lia.
  - destruct (SlotInUse _ _ _ _); [done|]. eapply (server_put_ok ss _ i (Checking k) (Releasing k)); try done; try apply O; try (intros; cbn; lia).
    by apply (Forall_lookup_1 _ _ _ _ (ok_tasks _ O) L).
  - eapply (server_put_ok ss _ i (Releasing k) (Clearing k)); try done; try apply O; try (intros; cbn; rewrite ?count_cons; lia).
    by apply (Forall_lookup_1 _ _ _ _ (ok_tasks _ O) L).
  - by apply clear_if_ok.
  - eapply server_finish_ok; try done. by destruct (file ss) as [[[|] ?]|].
  - eapply (server_put_ok ss _ i (Pinning s) (Counting s _)); try done; try apply O; intros; cbn; lia.
  - destruct (Z.ltb_spec maxStreamReaders (activeReaders ss + 1)).
    + eapply (server_put_ok ss _ i (Counting s pin) Refusing); try done; try apply O; try (intros; cbn; lia).
    + eapply (server_put_ok ss _ i (Counting s pin) (Serving s pin)); try done; try apply O; try (intros; cbn; lia).
  - eapply (server_put_ok ss _ i Refusing Finished); try done; try apply O; intros; cbn; lia.
Qed.
Lemma cancelled_insert l k g j : l !! k = Some (g, false) -> cancelled_w j (<[k := (g, true)]> l) = cancelled_w j l + eqz k j.
Proof.
  intros L. unfold cancelled_w, eqz. destruct (Nat.eqb_spec k j) as [<- |N].
  - rewrite list_lookup_insert_eq by (by eapply lookup_lt_Some). rewrite L. lia.
  - rewrite list_lookup_insert_ne by done. lia.
Qed.
Lemma sessions_keep (ss : server) l : (forall k v, sessions ss !! k = Some v -> exists b, l !! k = Some (fst v, b)) ->
  forall r, Forall (fun '(k, g) => gen_of ss k = g /\ is_Some (sessions ss !! k)) r -> Forall (fun '(k, g) => gen_of (set_sessions ss l) k = g /\ is_Some (l !! k)) r.
Proof.
  intros H r F. eapply Forall_impl; [exact F|]. intros [k g] [E [v Lv]]. destruct (H k v Lv) as [b Lb]. unfold gen_of in *. cbn. rewrite Lv in E. rewrite Lb.
  destruct v. cbn in *. by split.
Qed.
Lemma tasks_keep (l l' : list (nat * bool)) ts : (forall k, is_Some (l !! k) -> is_Some (l' !! k)) ->
  Forall (fun t => match t with Clearing k => is_Some (l !! k) | Checking k | Releasing k => is_Some (l !! k) | _ => True end) ts ->
  Forall (fun t => match t with Clearing k => is_Some (l' !! k) | Checking k | Releasing k => is_Some (l' !! k) | _ => True end) ts.
Proof. intros H F. eapply Forall_impl; [exact F|]. intros []; auto. Qed.
Lemma session_ok ss g : server_ok ss -> server_ok (set_sessions ss (sessions ss ++ [(g, false)])).
Proof.
  intros [A B C D E F G]. split; cbn -[Nat.ltb]; try done.
  - apply (sessions_keep ss (sessions ss ++ [(g, false)])); [|done]. intros k [h b] L. exists b. by apply lookup_app_l_Some.
  - intros k. rewrite D. unfold cancelled_w. destruct (decide (k < length (sessions ss))%nat) as [Lt|Ge]; [by rewrite lookup_app_l|].
    rewrite lookup_ge_None_2 by lia. rewrite lookup_app_r by lia. destruct (k - length (sessions ss))%nat; done.
  - apply (tasks_keep (sessions ss)); [|done]. intros k [v L]. exists v. by apply lookup_app_l_Some.
Qed.
Lemma cancel_ok ss k g : server_ok ss -> sessions ss !! k = Some (g, false) ->
  server_ok (add_task (set_sessions ss (<[k := (g, true)]> (sessions ss))) (Checking k)).
Proof.
  intros [A B C D E F G] L. assert (Lt := lookup_lt_Some _ _ _ L).
  assert (I : forall j, is_Some (sessions ss !! j) -> is_Some (<[k := (g, true)]> (sessions ss) !! j)) by (intros j; by rewrite !lookup_lt_is_Some, length_insert).
  split; cbn -[Nat.ltb]; try done.
  - apply (sessions_keep ss (<[k := (g, true)]> (sessions ss))); [|done]. intros j [h b] Lj. destruct (decide (k = j)) as [<- |N].
    + rewrite list_lookup_insert_eq by done. exists true. cbn. congruence.
    + exists b. by rewrite list_lookup_insert_ne.
  - intros g'. rewrite <- C, zsum_app, zsum_cons, zsum_nil. unfold holds_w. cbn. lia.
  - intros j. rewrite (cancelled_insert _ _ _ _ L), <- D, zsum_app, zsum_cons, zsum_nil. cbn. lia.
  - rewrite !zsum_app, !zsum_cons, !zsum_nil. cbn. lia.
  - rewrite zsum_app, zsum_cons, zsum_nil. cbn. lia.
  - apply Forall_app. split; [by apply (tasks_keep (sessions ss))|]. constructor; [apply I; by rewrite L|done].
Qed.
Lemma server_step_ok ss e : server_ok ss -> server_ok (step ss e).
Proof.
  intros O. destruct e as [name now|now| | |k| |i now|i now|i].
  - apply install_ok; [done|]. right. by split; [eexists|].
  - apply install_ok; [done|]. by left.
  - by apply clear_ok.
  - cbn. destruct (file ss) as [[s g]|]; [by apply session_ok|done].
  - cbn. destruct (sessions ss !! k) as [[g [|]]|] eqn:L; [done|by apply cancel_ok|done].
  - by apply server_add_ok.
  - by apply server_go_ok.
  - cbn. destruct (tasks ss !! i) as [[]|]; try done. by apply track_ok.
  - cbn. destruct (tasks ss !! i) as [t|] eqn:L; [|done]. destruct t as [g|k|k|k| |s|s pin| |s pin|g|]; try done.
    + eapply (server_put_ok ss _ i (Serving s pin) Finished); try done; try apply O; intros; cbn; lia.
    + by eapply server_finish_ok.
Qed.
Lemma server_run_ok evs : forall ss, server_ok ss -> server_ok (run ss evs).
Proof. induction evs as [|e evs IH]; intros ss O; [done|]. cbn. by apply IH, server_step_ok. Qed.
Lemma server_new_ok : server_ok NewStreamServer.
Proof. split; cbn; try done. Qed.
Lemma count_in n l : n ∈ l <-> 1 <= count n l.
Proof.
  induction l as [|m l IH]; [unfold count; rewrite zsum_nil; split; [by intros ?%elem_of_nil|lia]|]. rewrite count_cons, elem_of_cons, IH.
  assert (0 <= count n l) by (apply zsum_nonneg; intros; apply eqz_nonneg). unfold eqz. destruct (Nat.eqb_spec m n) as [-> |N]; split; [lia|by left|intros [?|?]; [done|lia]|right; lia].
Qed.
Lemma count_nodup l : (forall n, count n l <= 1) -> NoDup l.
Proof.
  induction l as [|m l IH]; intros H; [constructor|]. constructor.
  - intros I%count_in. specialize (H m). rewrite count_cons in H. unfold eqz in H. rewrite Nat.eqb_refl in H. lia.
  - apply IH. intros n. specialize (H n). rewrite count_cons in H. pose proof (eqz_nonneg m n). lia.
Qed.
Lemma tasks_nonneg (w : task -> Z) ss : (forall t, 0 <= w t) -> 0 <= zsum w (tasks ss).
Proof. apply zsum_nonneg. Qed.
(** C29: Teardowns of the slot, however installs, clears, requests and late teardowns of sessions interleave.  A session
    that tears down takes away no file but the one it was registered for, and is released at most once.  A remux is closed
    at most once, and only when it is not, or no longer, the one installed in the slot (a request that still reads it is
    neither counted nor waited for: see [remux_torn_down_under_reader]); once every goroutine is done none is left open
    but the installed one.  Of the requests for a raw file at most thirty-two are served at once, and the count of readers
    is at all times the number of those served and of those about to be refused, so it is zero when there are none. *)
Theorem slot_teardown evs :
  let ss := run NewStreamServer evs in
  Forall (fun '(k, g) => gen_of ss k = g) (removed ss) /\ NoDup (released ss)
  /\ NoDup (closed ss) /\ (forall g n, file ss = Some (Growing g, n) -> g ∉ closed ss)
  /\ zsum serving_w (tasks ss) <= 32 /\ activeReaders ss = zsum serving_w (tasks ss) + zsum over_w (tasks ss)
  /\ (Forall (fun t => t = Finished) (tasks ss) ->
      forall g, (g < nextGrowing ss)%nat -> g ∈ closed ss \/ exists n, file ss = Some (Growing g, n)).
Proof.
  intros ss. assert (O : server_ok ss) by apply server_run_ok, server_new_ok. pose proof O as [A B C D E F G].
  assert (N1 : forall g, 0 <= zsum (closing_w g) (tasks ss)) by (intros g; apply zsum_nonneg; intros []; cbn; try lia; apply eqz_nonneg).
  assert (N2 : forall k, 0 <= zsum (cancel_w k) (tasks ss)) by (intros k; apply zsum_nonneg; intros []; cbn; try lia; apply eqz_nonneg).
  assert (N3 : forall g, 0 <= holds_w g ss) by (intros g; unfold holds_w; destruct (file ss) as [[[|] ?]|]; try lia; apply eqz_nonneg).
  split_and!.
  - eapply Forall_impl; [exact B|]. intros [k g] [? _]. done.
  - apply count_nodup. intros k. specialize (D k). specialize (N2 k). unfold cancelled_w in D. destruct (sessions ss !! k) as [[? [|]]|]; lia.
  - apply count_nodup. intros g. specialize (C g). specialize (N1 g). specialize (N3 g). destruct (g <? nextGrowing ss)%nat; lia.
  - intros g n Ef I%count_in. specialize (C g). specialize (N1 g). unfold holds_w in C. rewrite Ef in C. unfold eqz in C. rewrite Nat.eqb_refl in C. destruct (g <? nextGrowing ss)%nat; lia.
  - exact F.
  - exact E.
  - intros Fin. assert (Z : forall w : task -> Z, w Finished = 0 -> zsum w (tasks ss) = 0).
    { intros w W. clear -Fin W. induction Fin as [|t l -> _ IH]; [apply zsum_nil|rewrite zsum_cons; lia]. }
    intros g Lt. apply Nat.ltb_lt in Lt. specialize (C g). rewrite Lt, Z in C by done.
    destruct (decide (g ∈ closed ss)) as [I|I]; [by left|right]. rewrite count_in in I. unfold holds_w in C.
    destruct (file ss) as [[[f|h] n]|]; [lia| |lia]. unfold eqz in C. destruct (Nat.eqb_spec h g) as [-> |]; [by exists n|lia].
Qed.

(** A reader looks at the file before it takes its generation: replaced in between, the
    old file's bytes count for the new one. *)
Lemma reader_counts_for_newer_file :
  let ss := run NewStreamServer [ESetFile 1 100; ERequest; EGo 0 110; ESetFile 2 120; EGo 0 130; EGo 0 130; EBytes 0 9000] in
  tasks ss = [Serving (Raw 1) 2] /\ file ss = Some (Raw 2, 2%nat) /\ lastReadAt ss = 9000 /\ SlotInUse ss 2 slotReaderGrace 9000 = true.
Proof. by vm_compute. Qed.
(** Requests for a remux are not counted: a session that the web closes while another
    player reads it is torn down at once. *)
Lemma remux_torn_down_under_reader :
  let ss := run NewStreamServer [ESetGrowing 100; ESession; ERequest; EGo 0 110; ECancel 0; EGo 1 120; EGo 1 120; EGo 1 120] in
  tasks ss = [ServingGrown 0; Closing 0] /\ file ss = None /\ released ss = [0%nat].
Proof. by vm_compute. Qed.

(** * A growing source *)

Inductive gerr := GEOF | GFailed | GNegative | GCancelled | GTimeout.
(** What a ReadAt sees: each time around its wait, the flag, the size, whether the time is
    up and whether the context ends instead of a wake-up; then, whether ffmpeg has failed
    before and after, what is in the file when it reads and the flag after that. *)
Record poll := mkPoll { pFinal : bool; pSize : Z; pLate : bool; pCtx : bool }.
Record look := mkLook { failedFirst : bool; polls : list poll; failedThen : bool; seen : bytes; finalAfter : bool }.
Inductive waited := Ready | Cancelled | Waiting.
Fixpoint await (off want : Z) (l : list poll) : waited :=
  match l with
  | [] => Waiting
  | p :: l' =>
      if pFinal p then Ready
      else if (off <=? pSize p) && (want <=? pSize p - off) then Ready
      else if pLate p then Ready
      else if pCtx p then Cancelled else await off want l'
  end.
(** None while it waits. *)
Definition ReadAt (l : look) (plen : nat) (off : Z) : option (bytes * option gerr) :=
  if failedFirst l then Some ([], Some GFailed)
  else if (plen =? 0)%nat then Some ([], None)
  else if off <? 0 then Some ([], Some GNegative)
  else match await off (Z.of_nat plen) (polls l) with
       | Waiting => None
       | Cancelled => Some ([], Some GCancelled)
       | Ready =>
           if failedThen l then Some ([], Some GFailed)
           else
             let b := take plen (drop (Z.to_nat off) (seen l)) in
             if (length b <? plen)%nat
             then if finalAfter l then Some (b, Some GEOF)
                  else match b with [] => Some ([], Some GTimeout) | _ => Some (b, None) end
             else Some (b, None)
       end.

(** * Serving it *)

Definition parseByteRange (header : bytes) : Z * Z :=
  match cut_prefix (str "bytes=") header with
  | None => (0, -1)
  | Some spec =>
      let spec := fst (span (fun b => negb (b =? 44)) spec) in
      match index [45] spec with
      | None => (0, -1)
      | Some dash =>
          let startStr := TrimSpace (take dash spec) in
          if bytes_eqb startStr [] then (0, -1)
          else
            let nat_of s d := match ParseInt s with (v, NumOk) => if 0 <=? v then v else d | _ => d end in
            let e := TrimSpace (drop (S dash) spec) in
            (nat_of startStr 0, if bytes_eqb e [] then -1 else nat_of e (-1))
      end
  end.
Inductive ending := RangeDone | ClientGone | ReadEnded (e : gerr) | Blocked | Panicked.
(** A round of the loop: what ReadAt meets, and whether the client is gone before it or
    when it is written to. *)
Record round := mkRound { rLook : look; ctxErr : bool; writeErr : bool }.
Definition bufSize : nat := Pos.to_nat 262144.
(** How much of the [n] bytes read is written; a negative count is a slice out of range.
    (The offset itself stays within the file.) *)
Definition toWrite (explicitEnd off n : Z) : Z :=
  if 0 <=? explicitEnd then let remaining := wrap_i64 (explicitEnd - off + 1) in if remaining <? n then remaining else n else n.
Fixpoint pump (explicitEnd off : Z) (rounds : list round) : bytes * ending :=
  match rounds with
  | [] => ([], Blocked)
  | r :: rounds' =>
      if (0 <=? explicitEnd) && (explicitEnd <? off) then ([], RangeDone)
      else if ctxErr r then ([], ClientGone)
      else match ReadAt (rLook r) bufSize off with
           | None => ([], Blocked)
           | Some (b, err) =>
               let n := Z.of_nat (length b) in
               let out := take (Z.to_nat (toWrite explicitEnd off n)) b in
               if (0 <? n) && (toWrite explicitEnd off n <? 0) then ([], Panicked)
               else if (0 <? n) && writeErr r then ([], ClientGone)
               else match err with
                    | Some e => (out, ReadEnded e)
                    | None => let '(more, why) := pump explicitEnd (off + Z.of_nat (length out)) rounds' in (out ++ more, why)
                    end
           end
  end.
Inductive response :=
| NotSatisfiable (total : Z) | HeadOK (length : option Z)
| Partial (range : option (Z * Z * Z)) (length : option Z) (body : bytes) (why : ending).
(** [sizeNow] is what is produced when the request comes. *)
Definition serveGrowing (header : bytes) (head final : bool) (estimated sizeNow : Z) (rounds : list round) : response :=
  let total := if final then sizeNow else estimated in
  let total := if total <=? 0 then sizeNow else total in
  let '(start, explicitEnd) := parseByteRange header in
  if (0 <? total) && (total <=? start) then NotSatisfiable total
  else if head then HeadOK (if 0 <? total then Some total else None)
  else
    let e := total - 1 in
    let e := if (0 <=? explicitEnd) && (explicitEnd <? e) then explicitEnd else e in
    let e := if e <? start then start else e in
    let '(body, why) := pump explicitEnd start rounds in
    Partial (if 0 <? total then Some (start, e, total) else None) (if final && (explicitEnd <? 0) then Some (sizeNow - start) else None) body why.

(** ** Lemmas *)

Section Output.
(** [out] is the whole output: the file holds a part of it, and all of it from the moment
    the flag is set. *)
Context (out : bytes).
Definition look_ok (l : look) : Prop := seen l `prefix_of` out /\ (Exists (fun p => pFinal p = true) (polls l) -> seen l = out).
(** The flag is not set between the read and the second look at it. *)
Definition calm (l : look) : Prop := finalAfter l = true -> seen l = out.
Lemma take_drop_prefix (l k : bytes) n m : l `prefix_of` k -> take n (drop m l) `prefix_of` drop m k.
Proof.
  intros [x ->]. rewrite drop_app. exists (drop n (drop m l) ++ drop (m - length l) x). by rewrite app_assoc, take_drop.
Qed.
Lemma read_ok l plen off b e : look_ok l -> ReadAt l plen off = Some (b, e) ->
  b `prefix_of` drop (Z.to_nat off) out /\ (e = Some GEOF -> calm l -> b = drop (Z.to_nat off) out).
Proof.
  intros [P Fi] R. unfold ReadAt in R. assert (Nil : [] `prefix_of` drop (Z.to_nat off) out) by apply prefix_nil.
  destruct (failedFirst l); [by simplify_eq|]. destruct (plen =? 0)%nat; [by simplify_eq|]. destruct (off <? 0); [by simplify_eq|].
  destruct (await _ _ _); [|by simplify_eq|done]. destruct (failedThen l); [by simplify_eq|].
  set (x := take plen (drop (Z.to_nat off) (seen l))) in R. assert (Px : x `prefix_of` drop (Z.to_nat off) out) by (by apply take_drop_prefix).
  destruct (Nat.ltb_spec (length x) plen) as [Lt|Ge]; [|by simplify_eq].
  destruct (finalAfter l) eqn:Fa.
  - injection R as <- <-. split; [done|]. intros _ Ca. rewrite <- (Ca Fa). unfold x in *. apply take_ge. rewrite length_take in Lt. lia.
  - destruct x; by simplify_eq.
Qed.
(** The range from [off] on, as far as there is output. *)
Definition cut (explicitEnd off : Z) : bytes :=
  let rest := drop (Z.to_nat off) out in if 0 <=? explicitEnd then take (Z.to_nat (explicitEnd - off + 1)) rest else rest.
Lemma cut_drop explicitEnd off n : 0 <= off -> cut explicitEnd (off + Z.of_nat n) = drop n (cut explicitEnd off).
Proof.
  intros P. unfold cut. replace (Z.to_nat (off + Z.of_nat n)) with (Z.to_nat off + n)%nat by lia. rewrite <- drop_drop.
  destruct (0 <=? explicitEnd); [|done]. rewrite skipn_firstn_comm. f_equal. lia.
Qed.
Lemma cut_step explicitEnd off o : 0 <= off -> o `prefix_of` cut explicitEnd off -> cut explicitEnd off = o ++ cut explicitEnd (off + Z.of_nat (length o)).
Proof. intros P [x E]. rewrite cut_drop by done. rewrite E. by rewrite drop_app_length. Qed.
(** The one range whose length is no int64. *)
Definition whole_range (explicitEnd off : Z) : Prop := off = 0 /\ explicitEnd = i64_max.
(** What a round writes. *)
Definition written (explicitEnd off : Z) (b : bytes) : bytes := take (Z.to_nat (toWrite explicitEnd off (Z.of_nat (length b)))) b.
Lemma toWrite_neg explicitEnd off n :
  0 <= off -> explicitEnd <= i64_max -> (0 <= explicitEnd -> off <= explicitEnd) -> 0 <= n -> toWrite explicitEnd off n < 0 -> whole_range explicitEnd off.
Proof.
  intros P M L N. unfold toWrite, whole_range. destruct (Z.leb_spec 0 explicitEnd) as [Ge|]; [|lia]. specialize (L Ge). cbv zeta.
  destruct (decide (explicitEnd - off + 1 <= i64_max)) as [I|I]; [|unfold i64_max in *; lia].
  rewrite wrap_i64_id by (unfold is_i64, i64_min, i64_max in *; lia). case_if; lia.
Qed.
Lemma toWrite_min explicitEnd off n :
  0 <= off -> explicitEnd <= i64_max -> (0 <= explicitEnd -> off <= explicitEnd) -> 0 < n -> 0 <= toWrite explicitEnd off n ->
  toWrite explicitEnd off n = if 0 <=? explicitEnd then Z.min n (explicitEnd - off + 1) else n.
Proof.
  intros P M L N. unfold toWrite. destruct (Z.leb_spec 0 explicitEnd) as [Ge|]; [|done]. specialize (L Ge). cbv zeta.
  destruct (decide (explicitEnd - off + 1 <= i64_max)) as [I|I].
  - rewrite wrap_i64_id by (unfold is_i64, i64_min, i64_max in *; lia). case_if; lia.
  - replace (explicitEnd - off + 1) with (2 ^ 63) by (unfold i64_max in *; lia). rewrite wrap_i64_high by lia. case_if; lia.
Qed.
Lemma written_ok explicitEnd off b :
  0 <= off -> explicitEnd <= i64_max -> b `prefix_of` drop (Z.to_nat off) out -> (0 <= explicitEnd -> off <= explicitEnd) ->
  b = [] \/ 0 <= toWrite explicitEnd off (Z.of_nat (length b)) ->
  written explicitEnd off b `prefix_of` cut explicitEnd off /\ (b = drop (Z.to_nat off) out -> written explicitEnd off b = cut explicitEnd off)
  /\ (0 <= explicitEnd -> Z.of_nat (length (written explicitEnd off b)) <= explicitEnd - off + 1).
Proof.
  intros Po M P L Nn. destruct (decide (b = [])) as [-> |Nb].
  { unfold written, cut. rewrite take_nil. split_and!; [apply prefix_nil| |cbn; lia]. intros <-. destruct (_ <=? _); [by rewrite take_nil|done]. }
  destruct Nn as [?|Nn]; [done|]. assert (Lb : 0 < Z.of_nat (length b)) by (destruct b; [done|cbn; lia]).
  unfold written. rewrite toWrite_min by done. unfold cut.
  destruct (Z.leb_spec 0 explicitEnd) as [Ge|]; [|rewrite Nat2Z.id, take_ge by done; split_and!; [done|by intros ->|lia]]. specialize (L Ge).
  assert (T : take (Z.to_nat (Z.min (Z.of_nat (length b)) (explicitEnd - off + 1))) b = take (Z.to_nat (explicitEnd - off + 1)) b).
  { destruct (Z.min_spec (Z.of_nat (length b)) (explicitEnd - off + 1)) as [[? ->]|[? ->]]; [|done]. rewrite Nat2Z.id, take_ge by done. by rewrite take_ge by lia. }
  rewrite T. split_and!; [|by intros ->|intros _; rewrite length_take; lia].
  destruct P as [x E]. cbv zeta. rewrite E, take_app. by eexists.
Qed.
Lemma pump_sends explicitEnd rounds : explicitEnd <= i64_max -> forall off, 0 <= off -> Forall (fun r => look_ok (rLook r)) rounds ->
  let '(body, why) := pump explicitEnd off rounds in
  body `prefix_of` cut explicitEnd off
  /\ (why = RangeDone -> 0 <= explicitEnd /\ Z.of_nat (length body) = Z.max 0 (explicitEnd - off + 1))
  /\ (why = ReadEnded GEOF -> Forall (fun r => calm (rLook r)) rounds -> body = cut explicitEnd off)
  /\ (why = Panicked -> body = [] /\ whole_range explicitEnd off).
Proof.
  intros M. assert (Stop : forall off why, why <> ReadEnded GEOF -> why <> RangeDone -> why <> Panicked ->
    [] `prefix_of` cut explicitEnd off /\ (why = RangeDone -> 0 <= explicitEnd /\ Z.of_nat (length ([] : bytes)) = Z.max 0 (explicitEnd - off + 1))
    /\ (why = ReadEnded GEOF -> Forall (fun r => calm (rLook r)) rounds -> [] = cut explicitEnd off)
    /\ (why = Panicked -> ([] : bytes) = [] /\ whole_range explicitEnd off)) by (intros; split_and!; [apply prefix_nil|done|done|done]).
  induction rounds as [|r rounds IH]; intros off Po F; [by apply Stop|]. inversion_clear F as [|? ? Fr F']. cbn [pump].
  assert (Stop' : forall why, why <> ReadEnded GEOF -> why <> RangeDone -> why <> Panicked ->
    [] `prefix_of` cut explicitEnd off /\ (why = RangeDone -> 0 <= explicitEnd /\ Z.of_nat (length ([] : bytes)) = Z.max 0 (explicitEnd - off + 1))
    /\ (why = ReadEnded GEOF -> Forall (fun r => calm (rLook r)) (r :: rounds) -> [] = cut explicitEnd off)
    /\ (why = Panicked -> ([] : bytes) = [] /\ whole_range explicitEnd off)) by (intros; split_and!; [apply prefix_nil|done|done|done]).
  destruct ((0 <=? explicitEnd) && (explicitEnd <? off)) eqn:Ex.
  { apply andb_true_iff in Ex as [Ex1%Z.leb_le Ex2%Z.ltb_lt]. split_and!; [apply prefix_nil|cbn; lia|done|done]. }
  assert (L : 0 <= explicitEnd -> off <= explicitEnd) by (intros; apply andb_false_iff in Ex as [Ex%Z.leb_gt|Ex%Z.ltb_ge]; lia).
  destruct (ctxErr r); [by apply Stop'|]. destruct (ReadAt _ _ _) as [[b e]|] eqn:R; [|by apply Stop']. cbv zeta.
  destruct ((0 <? Z.of_nat (length b)) && (toWrite explicitEnd off (Z.of_nat (length b)) <? 0)) eqn:Pn.
  { apply andb_true_iff in Pn as [_ Pn%Z.ltb_lt]. apply toWrite_neg in Pn; [|done..|lia]. split_and!; [apply prefix_nil|done|done|done]. }
  assert (Nn : b = [] \/ 0 <= toWrite explicitEnd off (Z.of_nat (length b))).
  { destruct b; [by left|right]. apply andb_false_iff in Pn as [Pn|Pn%Z.ltb_ge]; [done|done]. }
  destruct (read_ok _ _ _ _ _ Fr R) as [Pb Eb]. destruct ((0 <? _) && writeErr r); [by apply Stop'|].
  fold (written explicitEnd off b). destruct (written_ok explicitEnd off b Po M Pb L Nn) as (Wp & We & Wl). destruct e as [e|].
  - split_and!; [done|done| |done]. intros [= ->] Ca. inversion_clear Ca as [|? ? Cr _]. apply We. by apply Eb.
  - specialize (IH ltac:(intros; split_and!; [apply prefix_nil|done|done|done]) (off + Z.of_nat (length (written explicitEnd off b))) ltac:(lia) F').
    destruct (pump explicitEnd _ rounds) as [more why]. destruct IH as (I1 & I2 & I3 & I4). rewrite (cut_step explicitEnd off _ Po Wp). split_and!.
    + by apply prefix_app.
    + intros E. destruct (I2 E) as [Ge I5]. specialize (Wl Ge). rewrite length_app. lia.
    + intros E Ca. inversion_clear Ca as [|? ? _ Cs]. by rewrite (I3 E Cs).
    + intros E. destruct (I4 E) as [-> [W1 W2]]. destruct (written explicitEnd off b) eqn:Wb; [|cbn in W1; lia]. by replace off with 0 by (cbn in W1; lia).
Qed.
End Output.
Lemma parse_start header : 0 <= fst (parseByteRange header).
Proof.
  unfold parseByteRange. destruct (cut_prefix _ _); [|cbn; lia]. destruct (index _ _); [|cbn; lia]. destruct (bytes_eqb _ _); [cbn; lia|]. cbn [fst].
  destruct (ParseInt _) as [v []]; try lia. destruct (Z.leb_spec 0 v); lia.
Qed.
Lemma parse_end header : snd (parseByteRange header) <= i64_max.
Proof.
  unfold parseByteRange. destruct (cut_prefix _ _); [|done]. destruct (index _ _); [|done]. destruct (bytes_eqb _ _); [done|]. cbn [snd].
  destruct (bytes_eqb _ _); [done|]. set (x := TrimSpace _). pose proof (ParseInt_range x) as [_ R].
  destruct (ParseInt x) as [v []]; try done. destruct (Z.leb_spec 0 v); done.
Qed.

(** C30: A remux is served as it will be.  Whatever part of it ffmpeg has written when each read comes: the body of a response
    is the output from the first byte asked for on, within the last byte asked for; a response that ends because the range
    is sent has all of it; one that ends at the end of the output has everything up to it, unless the flag is set between
    a read and the second look at it, and then has the length that was announced; nothing is refused but a start at or
    behind the announced size; and the handler panics, with nothing sent, for no range but the one from zero to the
    largest int64, whose length overflows (it does: see [whole_range_panics]). *)
Theorem growing_serves_output out header head final estimated sizeNow rounds :
  Forall (fun r => look_ok out (rLook r)) rounds -> (final = true -> sizeNow = Z.of_nat (length out)) ->
  let '(start, explicitEnd) := parseByteRange header in
  let range := if 0 <=? explicitEnd then take (Z.to_nat (explicitEnd - start + 1)) (drop (Z.to_nat start) out) else drop (Z.to_nat start) out in
  match serveGrowing header head final estimated sizeNow rounds with
  | NotSatisfiable total => 0 < total <= start
  | HeadOK _ => head = true
  | Partial _ len body why =>
      head = false /\ body `prefix_of` range
      /\ (why = RangeDone -> Z.of_nat (length body) = Z.max 0 (explicitEnd - start + 1))
      /\ (why = ReadEnded GEOF -> Forall (fun r => calm out (rLook r)) rounds ->
            body = range /\ forall n, len = Some n -> start <= sizeNow -> n = Z.of_nat (length body))
      /\ (why = Panicked -> body = [] /\ start = 0 /\ explicitEnd = 9223372036854775807)
  end.
Proof.
  intros F Fin. pose proof (parse_end header) as Pe. pose proof (parse_start header) as Ps. unfold serveGrowing. destruct (parseByteRange header) as [start explicitEnd] eqn:Eh. cbn in Ps, Pe.
  set (total := if (if final then sizeNow else estimated) <=? 0 then sizeNow else if final then sizeNow else estimated).
  destruct ((0 <? total) && (total <=? start)) eqn:T; [apply andb_true_iff in T as [T1%Z.ltb_lt T2%Z.leb_le]; done|]. destruct head; [done|].
  pose proof (pump_sends out explicitEnd rounds Pe start Ps F) as P. destruct (pump explicitEnd start rounds) as [body why]. destruct P as (P1 & P2 & P3 & P4).
  split_and!; [done|done|intros E; by apply P2| |exact P4]. intros E Ca. specialize (P3 E Ca). split; [done|]. intros n Ln Ls.
  destruct final; [|done]. cbn [andb] in Ln. destruct (Z.ltb_spec explicitEnd 0) as [Lt|]; [|done]. injection Ln as <-. specialize (Fin eq_refl).
  rewrite P3. unfold cut. destruct (Z.leb_spec 0 explicitEnd); [lia|]. rewrite length_drop. lia.
Qed.

(** * A remux *)

Definition demo_out : bytes := str "moov0123456789".
Definition demo_rounds : list round :=
  [mkRound (mkLook false [mkPoll false 6 false false; mkPoll false 6 true false] false (take 6 demo_out) false) false false;
   mkRound (mkLook false [mkPoll false 9 false false; mkPoll true 14 false false] false demo_out true) false false].
Lemma demo_rounds_ok : Forall (fun r => look_ok demo_out (rLook r)) demo_rounds.
Proof.
  apply Forall_cons. split; [split; [by exists (drop 6 demo_out)|]; intros E; cbn in E; rewrite !Exists_cons, Exists_nil in E; cbn in E; naive_solver|].
  apply Forall_cons. split; [by split|done].
Qed.
Lemma demo_not_final : false = true -> 0 = Z.of_nat (length demo_out).
Proof. done. Qed.
Lemma demo_body : serveGrowing (str "bytes=4-10") false false 20 6 demo_rounds = Partial (Some (4, 10, 20)) None (str "0123456") (ReadEnded GEOF).
Proof. by vm_compute. Qed.
Lemma growing_serves_output_witness :
  let '(start, explicitEnd) := parseByteRange (str "bytes=4-10") in
  let range := if 0 <=? explicitEnd then take (Z.to_nat (explicitEnd - start + 1)) (drop (Z.to_nat start) demo_out) else drop (Z.to_nat start) demo_out in
  match serveGrowing (str "bytes=4-10") false false 20 0 demo_rounds with
  | NotSatisfiable total => 0 < total <= start
  | HeadOK _ => false = true
  | Partial _ len body why =>
      false = false /\ body `prefix_of` range
      /\ (why = RangeDone -> Z.of_nat (length body) = Z.max 0 (explicitEnd - start + 1))
      /\ (why = ReadEnded GEOF -> Forall (fun r => calm demo_out (rLook r)) demo_rounds ->
            body = range /\ forall n, len = Some n -> start <= 0 -> n = Z.of_nat (length body))
      /\ (why = Panicked -> body = [] /\ start = 0 /\ explicitEnd = 9223372036854775807)
  end.
Proof. exact (growing_serves_output demo_out (str "bytes=4-10") false false 20 0 demo_rounds demo_rounds_ok demo_not_final). Defined.

(** ffmpeg writes its last bytes and exits between the read and the second look at the
    flag: what was there before is taken for the end of the film. *)
Lemma exit_race_truncates :
  serveGrowing [] false false 20 6 [mkRound (mkLook false [mkPoll false 6 true false] false (take 6 demo_out) true) false false]
  = Partial (Some (0, 19, 20)) None (take 6 demo_out) (ReadEnded GEOF).
Proof. by vm_compute. Qed.
(** The length of the range from the first byte to the largest int64 is not one. *)
Lemma whole_range_panics :
  serveGrowing (str "bytes=0-9223372036854775807") false false 20 6 demo_rounds = Partial (Some (0, 19, 20)) None [] Panicked.
Proof. by vm_compute. Qed.
