(* ===== verification/StreamSessions.v ===== *)
(** Player sessions of the daemon: cmd/closed_stream_sessions.go, the start paths of
    cmd/daemon.go and daemon_usenet_stream.go as far as they register, and the registry of
    player_session_registry.go (a session that the web closes while it starts), and the
    provider slot of cmd/iptv_stream_hold.go (one IPTV stream per account, the newest
    first).

    Goroutines are instruction lists or phases, one per lock or channel operation, and
    interleave at will. *)
From Stdlib Require Import ZArith Lia.
From stdpp Require Import prelude list strings gmap.
From S2P Require Import Prelude GoStrings.

Open Scope Z_scope.

(** * Recently closed sessions *)

Definition maxRecentlyClosedSessions : nat := 512.
(** A bounded queue; [set] of the source holds the ids of [order]. *)
Record recentlyClosed := mkClosed { rcMax : nat; rcSet : gset bytes; rcOrder : list bytes }.
Definition newRecentlyClosed (max : nat) : recentlyClosed := mkClosed max ∅ [].
Definition mark (r : recentlyClosed) (id : bytes) : recentlyClosed * bool :=
  if bool_decide (id ∈ rcSet r) then (r, false)
  else
    let '(set', order') :=
      if (rcMax r <=? length (rcOrder r))%nat
      then match rcOrder r with x :: rest => (rcSet r ∖ {[x]}, rest) | [] => (rcSet r, []) end
      else (rcSet r, rcOrder r) in
    (mkClosed (rcMax r) ({[id]} ∪ set') (order' ++ [id]), true).
Definition contains (r : recentlyClosed) (id : bytes) : bool := bool_decide (id ∈ rcSet r).

(** * Closing and starting *)

(** How a session starts: served from the /stream slot at once; with a placeholder that
    covers the probe or the set-up of its source; or as an HLS session. *)
Inductive how := Served | WithSetup | AsHLS.
(** What a set-up or the start of an HLS session comes to. *)
Inductive outcome := Abandoned | Failed | Direct | ToHLS.
(** A cancel function is the number of the start that made it. *)
Inductive sinstr :=
| KMark (id : bytes) | KTake (id : bytes)                                       (* closeByWeb *)
| KGetHLS (id : bytes)                                                          (* closeSession *)
| KGuard (id : bytes) (h : how)                                                 (* OnStreamSession *)
| KAdd (id : bytes) (tok : nat) | KRecheck (id : bytes) | KTakeOwn (id : bytes) (* registerServed *)
| KServe (id : bytes) (tok : nat)                                               (* the end of a set-up *)
| KFork (id : bytes) (tok : nat) | KStartHLS (id : bytes) (tok : nat) | KCheckHLS (id : bytes) (tok : nat) (started : bool)
| KRegister (id : bytes) (tok : nat) | KRecheckHLS (id : bytes) (tok : nat)     (* startHLSPlayback *)
| KCloseReg (id : bytes) (tok : nat)                                            (* CloseWhere, of one session *)
| KRemove (id : bytes) (tok : nat) | KCancel (tok : nat).
(** [cancels] is the table of the source and [hls] the one of HLS sessions.  The others
    record what happened: the cancels that ran, the entries that a later start under the
    same id replaced, those that another start's clean-up removed, and for each start its
    id and whether its cancel is that of a /stream session. *)
Record player := mkPlayer {
  closed : recentlyClosed; cancels : gmap bytes nat; hls : gmap bytes nat; gos : list (list sinstr);
  cancelled : list nat; replaced : list nat; dropped : list nat; starts : list (bytes * bool)
}.
Definition set_closed (p : player) (r : recentlyClosed) : player := mkPlayer r (cancels p) (hls p) (gos p) (cancelled p) (replaced p) (dropped p) (starts p).
Definition set_cancels (p : player) (c : gmap bytes nat) : player := mkPlayer (closed p) c (hls p) (gos p) (cancelled p) (replaced p) (dropped p) (starts p).
Definition set_hls (p : player) (h : gmap bytes nat) : player := mkPlayer (closed p) (cancels p) h (gos p) (cancelled p) (replaced p) (dropped p) (starts p).
Definition set_gos (p : player) (g : list (list sinstr)) : player := mkPlayer (closed p) (cancels p) (hls p) g (cancelled p) (replaced p) (dropped p) (starts p).
Definition set_record (p : player) (c r d : list nat) : player := mkPlayer (closed p) (cancels p) (hls p) (gos p) c r d (starts p).
Definition add_start (p : player) (id : bytes) (slot : bool) : player :=
  mkPlayer (closed p) (cancels p) (hls p) (gos p) (cancelled p) (replaced p) (dropped p) (starts p ++ [(id, slot)]).
Definition has (p : player) (id : bytes) : bool := bool_decide (is_Some (cancels p !! id)).
Definition closeByWeb (ids : list bytes) : list sinstr :=
  flat_map (fun id => match id with [] => [] | _ => [KMark id; KTake id] end) ids.
Definition registerServed (id : bytes) (tok : nat) : list sinstr := [KAdd id tok; KRecheck id].
Definition startHLSPlayback (id : bytes) (tok : nat) : list sinstr := [KAdd id tok; KFork id tok].
Definition takeForClose (c : gmap bytes nat) (id : bytes) : gmap bytes nat * option nat := (delete id c, c !! id).
Definition add (p : player) (id : bytes) (tok : nat) : player :=
  set_record (set_cancels p (<[id := tok]> (cancels p))) (cancelled p)
    (match cancels p !! id with Some old => old :: replaced p | None => replaced p end) (dropped p).
(** The clean-up of the start [tok]. *)
Definition remove (p : player) (id : bytes) (tok : nat) : player :=
  set_record (set_cancels p (delete id (cancels p))) (cancelled p) (replaced p)
    (match cancels p !! id with Some t => if (t =? tok)%nat then dropped p else t :: dropped p | None => dropped p end).
Definition unregisterIfClosedByWeb (p : player) (id : bytes) (tok : nat) : list sinstr :=
  if contains (closed p) id then [KCloseReg id tok; KRemove id tok; KCancel tok] else [].
(** The state, what comes before the rest of the goroutine, and the goroutines it starts.
    (A prewarm that finds its context ended removes its entry without another cancel; here
    the cancel runs again.) *)
Definition kexec (p : player) (i : sinstr) (o : outcome) : player * list sinstr * list (list sinstr) :=
  let next := length (starts p) in
  match i with
  | KMark id => (set_closed p (fst (mark (closed p) id)), [], [])
  | KTake id =>
      let '(c, t) := takeForClose (cancels p) id in
      (set_cancels p c, [], match t with Some tok => [[KGetHLS id; KCancel tok]] | None => [] end)
  | KGetHLS id => (p, match hls p !! id with Some tok => [KCloseReg id tok] | None => [] end, [])
  | KGuard id h =>
      if has p id || contains (closed p) id then (p, [], [])
      else match h with
           | Served => (add_start p id true, registerServed id next, [])
           | WithSetup => (add_start p id false, [KAdd id next; KServe id next], [])
           | AsHLS => (add_start p id false, startHLSPlayback id next, [])
           end
  | KAdd id tok => (add p id tok, [], [])
  | KRecheck id => (p, if contains (closed p) id then [KTakeOwn id] else [], [])
  | KTakeOwn id =>
      let '(c, t) := takeForClose (cancels p) id in
      (set_cancels p c, match t with Some tok => [KCancel tok] | None => [] end, [])
  | KServe id tok =>
      let gone := (p, [KRemove id tok; KCancel tok], []) in
      if contains (closed p) id then gone
      else match o with
           | Abandoned | Failed => gone
           | Direct => (add_start p id true, registerServed id next ++ [KCancel tok], [])
           | ToHLS => (add_start p id false, startHLSPlayback id next ++ [KCancel tok], [])
           end
  | KFork id tok => (p, [], [[KStartHLS id tok]])
  | KStartHLS id tok =>
      (p, match o with
          | Abandoned => [KRemove id tok; KCancel tok]
          | Failed => [KCheckHLS id tok false]
          | Direct | ToHLS => [KCheckHLS id tok true]
          end, [])
  | KCheckHLS id tok started =>
      (p, if contains (closed p) id || negb started then [KRemove id tok; KCancel tok] else [KRegister id tok; KRecheckHLS id tok], [])
  | KRegister id tok => (set_hls p (<[id := tok]> (hls p)), [], [])
  | KRecheckHLS id tok => (p, unregisterIfClosedByWeb p id tok, [])
  | KCloseReg id tok => (if bool_decide (hls p !! id = Some tok) then set_hls p (delete id (hls p)) else p, [], [])
  | KRemove id tok => (remove p id tok, [], [])
  | KCancel tok => (set_record p (tok :: cancelled p) (replaced p) (dropped p), [], [])
  end.
(** [HlsEnds]: the table of HLS sessions closes one of its own accord. *)
Inductive pevent := WebCloses (ids : list bytes) | Starts (id : bytes) (h : how) | HlsEnds (id : bytes) | PGo (i : nat) (o : outcome).
Definition pstep (p : player) (e : pevent) : player :=
  match e with
  | WebCloses ids => set_gos p (gos p ++ [closeByWeb ids])
  | Starts id h => set_gos p (gos p ++ [[KGuard id h]])
  | HlsEnds id => set_hls p (delete id (hls p))
  | PGo i o =>
      match gos p !! i with
      | Some (x :: rest) => let '(p', pre, new) := kexec p x o in set_gos p' (<[i := pre ++ rest]> (gos p) ++ new)
      | _ => p
      end
  end.
Definition prun (p : player) (evs : list pevent) : player := fold_left pstep evs p.
Definition newPlayer (max : nat) : player := mkPlayer (newRecentlyClosed max) ∅ ∅ [] [] [] [] [].

(** ** Lemmas *)

Definition queue_ok (r : recentlyClosed) : Prop :=
  NoDup (rcOrder r) /\ (forall id, id ∈ rcSet r <-> id ∈ rcOrder r) /\ (length (rcOrder r) <= rcMax r)%nat.
Lemma mark_ok r id : (0 < rcMax r)%nat -> queue_ok r ->
  let r' := fst (mark r id) in queue_ok r' /\ rcMax r' = rcMax r /\ id ∈ rcSet r'
  /\ (exists k, rcOrder r' = (drop k (rcOrder r)) ++ (if contains r id then [] else [id]) /\ (k <= 1)%nat /\ (contains r id = true -> k = 0%nat)).
Proof.
  intros M (N & S & L). unfold mark, contains. case_bool_decide as C.
  - cbn. split_and!; try done. exists 0%nat. rewrite drop_0, app_nil_r. by split_and!; [|lia|].
  - destruct (rcMax r <=? length (rcOrder r))%nat eqn:F.
    + destruct (rcOrder r) as [|x rest] eqn:O; [cbn in *; apply Nat.leb_le in F; lia|]. cbn. apply NoDup_cons in N as [Nx N]. split_and!; [|done|set_solver|].
      * split_and!; cbn.
        -- apply NoDup_app. split_and!; [done| |by repeat constructor; apply not_elem_of_nil]. intros y Hy ->%list_elem_of_singleton. apply C, S. by right.
        -- intros y. rewrite elem_of_app, list_elem_of_singleton, elem_of_union, elem_of_difference, !elem_of_singleton, S, elem_of_cons.
           split; [intros [-> |[[-> |?] ?]]; [by right|done|by left]|]. intros [Hy| ->]; [right; split; [by right|intros ->; done]|by left].
        -- rewrite length_app. cbn in L |- *. lia.
      * exists 1%nat. cbn. rewrite drop_0. by split_and!; [|lia|].
    + apply Nat.leb_gt in F. cbn. split_and!; [|done|set_solver|].
      * split_and!; cbn.
        -- apply NoDup_app. split_and!; [done| |by repeat constructor; apply not_elem_of_nil]. intros y Hy ->%list_elem_of_singleton. by apply C, S.
        -- intros y. rewrite elem_of_app, list_elem_of_singleton, elem_of_union, elem_of_singleton, S. tauto.
        -- rewrite length_app. cbn. lia.
      * exists 0%nat. rewrite drop_0. by split_and!; [|lia|].
Qed.
(** What a mark forgets was there. *)
Lemma mark_keeps r id x : queue_ok r -> x ∈ rcSet (fst (mark r id)) -> x = id \/ x ∈ rcSet r.
Proof.
  intros (_ & S & _). unfold mark. case_bool_decide; [by right|]. destruct (_ <=? _)%nat; [destruct (rcOrder r)|]; cbn; set_solver.
Qed.

(** Who will still look at the entry of [id]. *)
Definition looks_at (id : bytes) (x : sinstr) : Prop :=
  match x with
  | KTake i | KRecheck i | KTakeOwn i | KServe i _ | KFork i _ | KStartHLS i _ | KCheckHLS i _ _ | KRecheckHLS i _ | KRemove i _ => i = id
  | _ => False
  end.
Definition owes (id : bytes) (t : list sinstr) : Prop := Exists (looks_at id) t.
(** A mark and an add are followed by a look at the entry, a clean-up by its cancel. *)
Fixpoint shaped (t : list sinstr) : Prop :=
  match t with
  | [] => True
  | x :: r => match x with KMark id | KAdd id _ => owes id r | KRemove _ tok => KCancel tok ∈ r | _ => True end /\ shaped r
  end.
Lemma owes_app id a b : owes id (a ++ b) <-> owes id a \/ owes id b.
Proof. apply Exists_app. Qed.
Lemma shaped_app a b : shaped a -> shaped b -> shaped (a ++ b).
Proof.
  induction a as [|x a IH]; [done|]. intros [X A] B. cbn. split; [|by apply IH].
  destruct x; try done; [apply owes_app; by left|apply owes_app; by left|apply elem_of_app; by left].
Qed.
Lemma close_shaped ids : shaped (closeByWeb ids).
Proof. unfold closeByWeb. induction ids as [|[|c id] ids IH]; cbn; [done..|]. split_and!; try done. by left. Qed.
(** The starts that instructions speak of. *)
Definition typed (st : list (bytes * bool)) (x : sinstr) : Prop :=
  match x with
  | KAdd id t => exists k, st !! t = Some (id, k)
  | KServe id t | KFork id t | KStartHLS id t | KCheckHLS id t _ | KRegister id t | KRecheckHLS id t | KRemove id t => st !! t = Some (id, false)
  | _ => True
  end.
Lemma typed_more st st' x : typed st x -> typed (st ++ st') x.
Proof. destruct x; cbn; try done; try (by apply lookup_app_l_Some). intros [k ?]. exists k. by apply lookup_app_l_Some. Qed.

Definition eq_tok (tok t : nat) : Z := if (t =? tok)%nat then 1 else 0.
#[local] Arguments eq_tok : simpl never.
Definition tok_i (tok : nat) (i : sinstr) : Z :=
  match i with KAdd _ t | KCancel t => eq_tok tok t | _ => 0 end.
Definition registered (tok : nat) (c : gmap bytes nat) : Z := zsum (fun kv => eq_tok tok (snd kv)) (map_to_list c).
Lemma eq_tok_nonneg tok t : 0 <= eq_tok tok t.
Proof. unfold eq_tok. destruct (_ =? _)%nat; lia. Qed.
Lemma registered_nonneg tok c : 0 <= registered tok c.
Proof. apply zsum_nonneg. intros kv. apply eq_tok_nonneg. Qed.
Lemma eq_tok_refl tok : eq_tok tok tok = 1.
Proof. unfold eq_tok. by rewrite Nat.eqb_refl. Qed.
Lemma eq_tok_ne tok t : t <> tok -> eq_tok tok t = 0.
Proof. unfold eq_tok. by destruct (Nat.eqb_spec t tok). Qed.
Lemma tok_nonneg tok x : 0 <= tok_i tok x.
Proof. destruct x; cbn; try lia; apply eq_tok_nonneg. Qed.
Lemma registered_delete (tok : nat) (c : gmap bytes nat) (id : bytes) (v : nat) : c !! id = Some v -> registered tok c = eq_tok tok v + registered tok (delete id c).
Proof. intros L. unfold registered. rewrite <- (zsum_perm _ _ _ (map_to_list_delete c id v L)), zsum_cons. done. Qed.
Lemma registered_insert (tok : nat) (c : gmap bytes nat) (id : bytes) (v : nat) : registered tok (<[id := v]> c) = eq_tok tok v + registered tok (delete id c).
Proof.
  rewrite <- (insert_delete_eq c id v). unfold registered.
  rewrite (zsum_perm _ _ _ (map_to_list_insert (delete id c) id v (lookup_delete_eq c id))), zsum_cons. done.
Qed.
(** Where the cancel of a start is: in the table, on its way, run, or displaced. *)
Definition recorded (p : player) (tok : nat) : Z :=
  registered tok (cancels p) + zsum (eq_tok tok) (cancelled p) + zsum (eq_tok tok) (replaced p) + zsum (eq_tok tok) (dropped p).
Definition account (p : player) (tok : nat) : Z := recorded p tok + zsum (zsum (tok_i tok)) (gos p).
Definition tok_ok (p : player) (tok : nat) (n : Z) : Prop :=
  match starts p !! tok with None => n = 0 | Some (_, true) => n = 1 | Some (_, false) => 1 <= n end.
Record player_ok (p : player) : Prop := {
  po_queue : queue_ok (closed p); po_max : (0 < rcMax (closed p))%nat;
  po_shaped : Forall shaped (gos p);
  po_typed : Forall (Forall (typed (starts p))) (gos p);
  po_ids : forall id tok, cancels p !! id = Some tok -> exists k, starts p !! tok = Some (id, k);
  po_hls : forall id tok, hls p !! id = Some tok -> starts p !! tok = Some (id, false);
  po_owed : forall id, id ∈ rcSet (closed p) -> is_Some (cancels p !! id) -> exists t, t ∈ gos p /\ owes id t;
  po_tokens : forall tok, tok_ok p tok (account p tok)
}.
Lemma new_here (ls : list (list sinstr)) i t : (i < length ls)%nat -> t ∈ <[i := t]> ls.
Proof. intros L. apply list_elem_of_lookup. exists i. by apply list_lookup_insert_eq. Qed.

Section Exec.
Context (p : player) (x : sinstr) (o : outcome) (p' : player) (pre : list sinstr) (new : list (list sinstr)) (run_x : kexec p x o = (p', pre, new)).
(** Case analysis on the instruction and its branches. *)
Ltac branches :=
  revert run_x; destruct x as [id|id|id|id h|id tok|id|id|id tok|id tok|id tok|id tok st|id tok|id tok|id tok|id tok|tok]; cbn; unfold unregisterIfClosedByWeb;
  intros X; repeat (case_match; try done); simplify_eq.
Lemma exec_starts : exists l, starts p' = starts p ++ l.
Proof using run_x. branches; cbn; eauto; try (exists []; by rewrite app_nil_r). Qed.
Lemma exec_typed : typed (starts p) x -> Forall (typed (starts p')) pre /\ Forall (Forall (typed (starts p'))) new.
Proof using run_x.
  branches; cbn; intros T; split; repeat constructor; cbn; try done; try (by rewrite lookup_app_r, Nat.sub_diag by lia);
    try (eexists; by rewrite lookup_app_r, Nat.sub_diag by lia).
Qed.
Lemma exec_shaped : shaped pre /\ Forall shaped new.
Proof using run_x.
  branches; cbn; split; repeat split; repeat constructor; cbn; try done; try (by left); try set_solver.
Qed.
Lemma exec_ids : typed (starts p) x -> (forall id tok, cancels p !! id = Some tok -> exists k, starts p !! tok = Some (id, k)) ->
  forall id tok, cancels p' !! id = Some tok -> exists k, starts p' !! tok = Some (id, k).
Proof using run_x.
  intros T I i t. assert (K : forall i t, cancels p !! i = Some t -> exists k, (starts p') !! t = Some (i, k)).
  { intros i' t' H. destruct (I _ _ H) as [k Hk]. destruct exec_starts as [l ->]. exists k. by apply lookup_app_l_Some. }
  revert T K. branches; cbn; intros Tx Kx Hx; try (by apply Kx); try (apply lookup_delete_Some in Hx as [_ Hx]; by apply Kx).
  apply lookup_insert_Some in Hx as [[<- <-]|[_ Hx]]; [done|by apply Kx].
Qed.
Lemma exec_hls : typed (starts p) x -> (forall id tok, hls p !! id = Some tok -> starts p !! tok = Some (id, false)) ->
  forall id tok, hls p' !! id = Some tok -> starts p' !! tok = Some (id, false).
Proof using run_x.
  intros T I i t. assert (K : forall i t, hls p !! i = Some t -> (starts p') !! t = Some (i, false)).
  { intros i' t' H. destruct exec_starts as [l ->]. apply lookup_app_l_Some. by apply I. }
  revert T K. branches; cbn; intros Tx Kx Hx; try (by apply Kx); try (apply lookup_delete_Some in Hx as [_ Hx]; by apply Kx).
  apply lookup_insert_Some in Hx as [[<- <-]|[_ Hx]]; [done|by apply Kx].
Qed.
(** Whoever looked at an entry has seen that it is gone or not closed, or still looks. *)
Lemma exec_owed rest i :
  queue_ok (closed p) -> shaped (x :: rest) -> i ∈ rcSet (closed p') -> is_Some (cancels p' !! i) ->
  owes i (pre ++ rest) \/ Exists (owes i) new \/ i ∈ rcSet (closed p) /\ is_Some (cancels p !! i) /\ ~ looks_at i x.
Proof using run_x.
  intros Q [Sx _]. revert Sx. rewrite owes_app. unfold owes. branches; cbn; intros Sy Hc Hs; rewrite ?Exists_cons, ?Exists_nil; cbn; try tauto.
  all: destruct (decide (id = i)) as [-> |N]; cbn in Hs; rewrite ?lookup_delete_eq in Hs; rewrite ?lookup_delete_ne, ?lookup_insert_ne in Hs by done;
    try (by destruct Hs); try tauto.
  - apply mark_keeps in Hc as [-> |?]; [done|tauto|done].
  - unfold contains in *. by rewrite bool_decide_eq_true_2 in * by done.
  - unfold contains in *. by rewrite bool_decide_eq_true_2 in * by done.
Qed.
Lemma recorded_nonneg (q : player) tok : 0 <= recorded q tok.
Proof.
  unfold recorded, registered. pose proof (zsum_nonneg (fun kv : bytes * nat => eq_tok tok (snd kv)) (map_to_list (cancels q)) (fun kv => eq_tok_nonneg tok _)).
  pose proof (fun l => zsum_nonneg (eq_tok tok) l (eq_tok_nonneg tok)) as N. pose proof (N (cancelled q)). pose proof (N (replaced q)). pose proof (N (dropped q)). lia.
Qed.
End Exec.
(** A cancel moves, and is lost nowhere: how much more there is of it after an instruction. *)
Definition moved (st st' : list (bytes * bool)) (rest : list sinstr) (k : nat) (n d : Z) : Prop :=
  d = 0 /\ st' !! k = st !! k \/ d = 1 /\ st !! k = None /\ is_Some (st' !! k)
  \/ (0 <= d \/ d = -1 /\ 1 <= n /\ KCancel k ∈ rest) /\ st' !! k = st !! k /\ exists i, st !! k = Some (i, false).
Lemma moved_none st rest k n : moved st st rest k n 0.
Proof. by left. Qed.
Lemma moved_own st rest k n id t : st !! t = Some (id, false) -> moved st st rest k n (eq_tok k t).
Proof.
  intros St. unfold eq_tok. destruct (Nat.eqb_spec t k) as [<- |N]; [|by left]. right; right. split_and!; [left; lia|done|by exists id].
Qed.
Lemma moved_new st rest k n v : moved st (st ++ [v]) rest k n (eq_tok k (length st)).
Proof.
  unfold eq_tok. destruct (Nat.eqb_spec (length st) k) as [<- |N].
  - right; left. split_and!; [done|by apply lookup_ge_None_2|]. by rewrite lookup_app_r, Nat.sub_diag by lia.
  - left. split; [done|]. destruct (decide (k < length st)%nat); [by rewrite lookup_app_l|]. rewrite !lookup_ge_None_2; [done|lia|rewrite length_app; cbn; lia].
Qed.
Lemma moved_both st rest k n v id t : st !! t = Some (id, false) -> moved st (st ++ [v]) rest k n (eq_tok k (length st) + eq_tok k t).
Proof.
  intros St. pose proof (lookup_lt_Some _ _ _ St) as Lt. destruct (decide (t = k)) as [<- |N].
  - right; right. split_and!; [left| |by exists id]; [pose proof (eq_tok_nonneg t (length st)); pose proof (eq_tok_nonneg t t); lia|]. by rewrite lookup_app_l.
  - rewrite (eq_tok_ne k t N), Z.add_0_r. apply moved_new.
Qed.
Lemma registered_without (k : nat) (c : gmap bytes nat) (id : bytes) : registered k c = match c !! id with Some v => eq_tok k v | None => 0 end + registered k (delete id c).
Proof. destruct (c !! id) as [v|] eqn:L; [by apply registered_delete|]. by rewrite (delete_id _ _ L). Qed.
Lemma moved_removed (st : list (bytes * bool)) (rest : list sinstr) (k : nat) (n : Z) (id : bytes) (t : nat) (c : gmap bytes nat) (l : list nat) :
  st !! t = Some (id, false) -> KCancel t ∈ rest -> registered k c <= n ->
  moved st st rest k n (registered k (delete id c) - registered k c
    + zsum (eq_tok k) (match c !! id with Some v => if (v =? t)%nat then l else v :: l | None => l end) - zsum (eq_tok k) l).
Proof.
  intros St Sy Rn. rewrite (registered_without k c id) in *. destruct (c !! id) as [v|]; [|left; split; [lia|done]].
  destruct (Nat.eqb_spec v t) as [-> |N]; [|left; rewrite zsum_cons; split; [lia|done]].
  destruct (decide (t = k)) as [<- |N]; [rewrite eq_tok_refl in *|rewrite eq_tok_ne by done; left; split; [lia|done]].
  right; right. split_and!; [right|done|by exists id]. pose proof (registered_nonneg t (delete id c)). split_and!; [lia|lia|done].
Qed.
(** One instruction; the accounts of the goroutine and of those it starts included. *)
Ltac account_by d := exists d; split; [unfold registerServed, startHLSPlayback; cbn; rewrite ?zsum_app, ?zsum_cons, ?zsum_nil; cbn; rewrite ?zsum_cons, ?zsum_nil; cbn; lia|].
Lemma exec_moves p x o p' pre new rest k : kexec p x o = (p', pre, new) -> typed (starts p) x -> shaped (x :: rest) ->
  exists d, recorded p' k + zsum (tok_i k) pre + zsum (zsum (tok_i k)) new = recorded p k + tok_i k x + d /\ moved (starts p) (starts p') rest k (recorded p k) d.
Proof.
  intros X Tx [Sy _]. unfold recorded.
  destruct x as [id|id|id|id h|id tok|id|id|id tok|id tok|id tok|id tok st|id tok|id tok|id tok|id tok|tok]; cbn in X, Tx, Sy.
  - simplify_eq. account_by 0. apply moved_none.
  - simplify_eq. cbn. rewrite (registered_without k (cancels p) id). destruct (cancels p !! id); account_by 0; apply moved_none.
  - simplify_eq. destruct (hls p' !! id); account_by 0; apply moved_none.
  - destruct (has p id || _); simplify_eq; [account_by 0; apply moved_none|].
    destruct h; simplify_eq; account_by (eq_tok k (length (starts p))); apply moved_new.
  - simplify_eq. cbn. rewrite registered_insert, (registered_without k (cancels p) id). destruct (cancels p !! id); account_by 0; apply moved_none.
  - simplify_eq. destruct (contains (closed p') id); account_by 0; apply moved_none.
  - simplify_eq. cbn. rewrite (registered_without k (cancels p) id). destruct (cancels p !! id); account_by 0; apply moved_none.
  - destruct (contains (closed p) id); [|destruct o]; simplify_eq;
      try (account_by (eq_tok k tok); by eapply moved_own); account_by (eq_tok k (length (starts p)) + eq_tok k tok); by eapply moved_both.
  - simplify_eq. account_by 0. apply moved_none.
  - destruct o; simplify_eq; try (account_by 0; apply moved_none). account_by (eq_tok k tok). by eapply moved_own.
  - destruct (_ || _); simplify_eq; [account_by (eq_tok k tok); by eapply moved_own|account_by 0; apply moved_none].
  - simplify_eq. account_by 0. apply moved_none.
  - unfold unregisterIfClosedByWeb in X. destruct (contains _ _); simplify_eq; [account_by (eq_tok k tok); by eapply moved_own|account_by 0; apply moved_none].
  - destruct (bool_decide _); simplify_eq; account_by 0; apply moved_none.
  - simplify_eq. eexists. split; [|apply (moved_removed (starts p) rest k _ id tok (cancels p) (dropped p)); [done..|]]; [cbn; rewrite !zsum_nil; lia|].
    pose proof (fun l => zsum_nonneg (eq_tok k) l (eq_tok_nonneg k)) as N. pose proof (N (cancelled p)). pose proof (N (replaced p)). pose proof (N (dropped p)). lia.
  - simplify_eq. account_by 0. apply moved_none.
Qed.
Lemma moved_ok p p' rest k d n w R :
  moved (starts p) (starts p') rest k n d -> 0 <= n -> 0 <= w -> zsum (tok_i k) rest <= R -> tok_ok p k (n + w + R) -> tok_ok p' k (n + w + d + R).
Proof.
  intros M N Wn HR. assert (R0 : 0 <= zsum (tok_i k) rest) by (apply zsum_nonneg, tok_nonneg). unfold tok_ok. destruct M as [[-> ->]|[(-> & -> & [v ->])|(D & -> & i & ->)]].
  - by rewrite Z.add_0_r.
  - intros H. destruct v as [? []]; lia.
  - intros H. destruct D as [?|(-> & N1 & D)]; [lia|]. apply list_elem_of_lookup in D as [j D]. pose proof (zsum_lookup (tok_i k) rest j _ (tok_nonneg k) D) as Z. cbn in Z.
    rewrite eq_tok_refl in Z. lia.
Qed.
Lemma account_go p i x rest k : gos p !! i = Some (x :: rest) ->
  exists R, account p k = recorded p k + tok_i k x + R /\ zsum (tok_i k) rest <= R
  /\ forall q pre new, gos q = <[i := pre ++ rest]> (gos p) ++ new -> account q k = recorded q k + zsum (tok_i k) pre + zsum (zsum (tok_i k)) new + R.
Proof.
  intros L. pose proof (zsum_insert (zsum (tok_i k)) (gos p) i _ rest L) as Z. rewrite zsum_cons in Z.
  pose proof (zsum_lookup (zsum (tok_i k)) (<[i := rest]> (gos p)) i rest (fun l => zsum_nonneg _ l (tok_nonneg k))
    ltac:(apply list_lookup_insert_eq; by eapply lookup_lt_Some)) as Z2.
  exists (zsum (zsum (tok_i k)) (<[i := rest]> (gos p))). unfold account. split_and!; [lia|done|].
  intros q pre new E. rewrite E, zsum_app, (zsum_insert _ _ _ _ _ L), zsum_app, zsum_cons. lia.
Qed.
Lemma player_go p i x o rest p' pre new :
  player_ok p -> gos p !! i = Some (x :: rest) -> kexec p x o = (p', pre, new) -> player_ok (set_gos p' (<[i := pre ++ rest]> (gos p) ++ new)).
Proof.
  intros [Q M Sh Ty Ids Hl Ow Tk] L X. pose proof (Forall_lookup_1 _ _ _ _ Sh L) as Sx. pose proof (lookup_lt_Some _ _ _ L) as Li.
  pose proof (Forall_lookup_1 _ _ _ _ Ty L) as Tx. cbn in Tx. apply Forall_cons in Tx as [Tx Tr].
  destruct (exec_starts _ _ _ _ _ _ X) as [l Sl]. destruct (exec_shaped _ _ _ _ _ _ X) as [Shp Shn]. destruct (exec_typed _ _ _ _ _ _ X Tx) as [Typ Tyn].
  assert (Mono : forall t, Forall (typed (starts p)) t -> Forall (typed (starts p')) t) by (intros t F; eapply Forall_impl; [exact F|]; intros y; rewrite Sl; apply typed_more).
  assert (QM : queue_ok (closed p') /\ (0 < rcMax (closed p'))%nat).
  { destruct (mark_ok (closed p)) with (id := match x with KMark id => id | _ => [] end) as (Q' & M' & _); [done..|].
    revert X Q' M'. destruct x; cbn; unfold unregisterIfClosedByWeb; intros X; repeat (case_match; try done); simplify_eq; cbn; intros Q' M'; split; try done. by rewrite M'. }
  split; cbn; [apply QM|apply QM| | | | | |].
  - apply Forall_app. split; [|done]. apply Forall_insert; [done|]. apply shaped_app; [done|]. by destruct Sx.
  - apply Forall_app. split; [|done]. apply Forall_insert; [eapply Forall_impl; [exact Ty|exact Mono]|]. apply Forall_app. by split; [|apply Mono].
  - by eapply exec_ids.
  - by eapply exec_hls.
  - intros id H1 H2. destruct (exec_owed _ _ _ _ _ _ X rest id Q Sx H1 H2) as [O|[O|(C1 & C2 & C3)]].
    + exists (pre ++ rest). split; [|done]. apply elem_of_app. left. by apply new_here.
    + apply Exists_exists in O as (t & Ht & O). exists t. split; [|done]. apply elem_of_app. by right.
    + destruct (Ow id C1 C2) as (t & Ht & O). apply list_elem_of_lookup in Ht as [j Lj]. destruct (decide (i = j)) as [<- |N].
      * rewrite L in Lj. injection Lj as <-. exists (pre ++ rest). split; [apply elem_of_app; left; by apply new_here|].
        apply owes_app. right. unfold owes in O. rewrite Exists_cons in O. by destruct O.
      * exists t. split; [|done]. apply elem_of_app. left. apply list_elem_of_lookup. exists j. by rewrite list_lookup_insert_ne.
  - intros k. destruct (account_go p i x rest k L) as (R & E1 & E2 & E3). rewrite (E3 (set_gos p' (<[i := pre ++ rest]> (gos p) ++ new)) pre new eq_refl).
    destruct (exec_moves p x o p' pre new rest k X Tx Sx) as (d & Ed & Mv).
    change (recorded (set_gos p' _) k) with (recorded p' k). rewrite Ed. apply (moved_ok p _ rest); [done|apply recorded_nonneg|apply tok_nonneg|done|]. rewrite <- E1. apply Tk.
Qed.
Lemma quiet_tokens ids k : zsum (tok_i k) (closeByWeb ids) = 0.
Proof. unfold closeByWeb. induction ids as [|[|c id] ids IH]; cbn [flat_map app]; [done|done|]. rewrite !zsum_cons, IH. cbn. lia. Qed.
Lemma player_spawn p t : player_ok p -> shaped t -> Forall (typed (starts p)) t -> (forall k, zsum (tok_i k) t = 0) -> player_ok (set_gos p (gos p ++ [t])).
Proof.
  intros [Q M Sh Ty Ids Hl Ow Tk] H1 H2 H3. split; cbn; try done.
  - apply Forall_app. by split; [|constructor].
  - apply Forall_app. by split; [|constructor].
  - intros id C1 C2. destruct (Ow id C1 C2) as (u & ? & ?). exists u. split; [apply elem_of_app; by left|done].
  - intros k. specialize (Tk k). unfold account in *. change (recorded (set_gos p _) k) with (recorded p k). cbn [gos set_gos]. rewrite zsum_app, zsum_cons, zsum_nil, H3.
    unfold tok_ok in *. cbn. destruct (starts p !! k) as [[? []]|]; lia.
Qed.
Lemma player_step p e : player_ok p -> player_ok (pstep p e).
Proof.
  intros O. destruct e as [ids|id h|id|i o]; cbn.
  - apply player_spawn; [done|apply close_shaped| |apply quiet_tokens]. unfold closeByWeb. apply Forall_forall. intros y.
    rewrite list_elem_of_In, in_flat_map. intros ([|c id] & _ & H); [done|]. cbn in H. by destruct H as [<- |[<- |[]]].
  - apply player_spawn; [done|done|by constructor|done].
  - destruct O as [Q M Sh Ty Ids Hl Ow Tk]. split; cbn; try done. intros i t H. apply lookup_delete_Some in H as [_ H]. by apply Hl.
  - destruct (gos p !! i) as [[|x rest]|] eqn:L; [done| |done]. destruct (kexec p x o) as [[p' pre] new] eqn:E. by eapply player_go.
Qed.
Lemma player_run max evs : (0 < max)%nat -> player_ok (prun (newPlayer max) evs).
Proof.
  intros M. assert (G : forall p, player_ok p -> player_ok (prun p evs)) by (induction evs as [|e evs IH]; intros p O; [done|]; cbn; by apply IH, player_step).
  apply G. split; cbn; try done; try (intros; set_solver). split_and!; cbn; [constructor|set_solver|lia].
Qed.

(** * The provider slot *)

(** Where a call of acquire is, by the operation it does next: [me] is its arrival
    number, [pre] the holder it has asked to go. *)
Inductive phase :=
| PLoop (me : nat) (sid pre : bytes) | PTry (me : nat) (sid pre : bytes) | PLook (me : nat) (sid pre : bytes) | PSelect (me : nat) (sid pre : bytes)
| PSent (me : nat) (sid : bytes)      (* sem filled, before take *)
| PGiveBack                           (* overtaken in take: sem is emptied next *)
| PHold (me : nat) (sid : bytes)
| PRelease (sid : bytes)              (* release: the holder is cleared, sem is emptied next *)
| PSuperseded | PCtxErr | PNoSlot (me : nat) | PReleased.
Record slot := mkSlot { sem : bool; holder : bytes; seq_ : nat; newest : nat; calls : list phase; preempts : list bytes }.
Definition newSlot : slot := mkSlot false [] 0 0 [] [].
Definition set_call (s : slot) (i : nat) (ph : phase) : slot := mkSlot (sem s) (holder s) (seq_ s) (newest s) (<[i := ph]> (calls s)) (preempts s).
Definition set_sem (s : slot) (b : bool) : slot := mkSlot b (holder s) (seq_ s) (newest s) (calls s) (preempts s).
Definition set_holder (s : slot) (h : bytes) : slot := mkSlot (sem s) h (seq_ s) (newest s) (calls s) (preempts s).
Definition isNewest (s : slot) (me : nat) : bool := (newest s =? me)%nat.
Inductive choice := CSend | CCtx | CTimeout | CTick.
Inductive slotEvent := Acquire (sid : bytes) | Proceed (i : nat) (c : choice) | Release (i : nat).
Definition take_slot (s : slot) (i me : nat) (sid : bytes) : slot :=
  if isNewest s me then set_call (set_holder s sid) i (PHold me sid) else set_call s i PGiveBack.
Definition slot_step (s : slot) (e : slotEvent) : slot :=
  match e with
  | Acquire sid =>
      let me := S (seq_ s) in mkSlot (sem s) (holder s) me me (calls s ++ [PLoop me sid []]) (preempts s)
  | Proceed i c =>
      match calls s !! i with
      | Some (PLoop me sid pre) => set_call s i (if isNewest s me then PTry me sid pre else PSuperseded)
      | Some (PTry me sid pre) => if sem s then set_call s i (PLook me sid pre) else set_call (set_sem s true) i (PSent me sid)
      | Some (PLook me sid pre) =>
          let h := holder s in
          if negb (bytes_eqb h []) && negb (bytes_eqb h sid) && negb (bytes_eqb h pre)
          then set_call (mkSlot (sem s) (holder s) (seq_ s) (newest s) (calls s) (h :: preempts s)) i (PSelect me sid h)
          else set_call s i (PSelect me sid pre)
      | Some (PSelect me sid pre) =>
          match c with
          | CSend => if sem s then s else set_call (set_sem s true) i (PSent me sid)
          | CCtx => set_call s i PCtxErr
          | CTimeout => set_call s i (PNoSlot me)
          | CTick => set_call s i (PLoop me sid pre)
          end
      | Some (PSent me sid) => take_slot s i me sid
      | Some PGiveBack => set_call (set_sem s false) i PSuperseded
      | Some (PRelease sid) => set_call (set_sem s false) i PReleased
      | _ => s
      end
  | Release i =>
      match calls s !! i with
      | Some (PHold me sid) => set_call (if bytes_eqb (holder s) sid then set_holder s [] else s) i (PRelease sid)
      | _ => s
      end
  end.
Definition slot_run (s : slot) (evs : list slotEvent) : slot := fold_left slot_step evs s.

(** ** Lemmas *)

Definition has_sem (ph : phase) : Z := match ph with PSent _ _ | PGiveBack | PHold _ _ | PRelease _ => 1 | _ => 0 end.
Definition number (ph : phase) : option nat :=
  match ph with PLoop m _ _ | PTry m _ _ | PLook m _ _ | PSelect m _ _ | PSent m _ | PHold m _ | PNoSlot m => Some m | _ => None end.
Record slot_ok (s : slot) : Prop := {
  so_sem : zsum has_sem (calls s) = if sem s then 1 else 0;
  so_newest : newest s = seq_ s;
  so_numbers : Forall (fun ph => match number ph with Some m => (m <= seq_ s)%nat | None => True end) (calls s);
  so_distinct : forall i j a b m, calls s !! i = Some a -> calls s !! j = Some b -> number a = Some m -> number b = Some m -> i = j;
  so_holder : forall i m sid, calls s !! i = Some (PHold m sid) -> holder s = sid
}.
Lemma slot_put s s' i ph ph' :
  slot_ok s -> calls s !! i = Some ph -> calls s' = <[i := ph']> (calls s) -> newest s' = newest s -> seq_ s' = seq_ s ->
  (number ph' = None \/ number ph' = number ph) ->
  (has_sem ph' - has_sem ph = (if sem s' then 1 else 0) - (if sem s then 1 else 0)) ->
  (forall j m sid, calls s' !! j = Some (PHold m sid) -> holder s' = sid) -> slot_ok s'.
Proof.
  intros [A B C D E] L Ec En Es Hn Hs Hh. split; try done.
  - rewrite Ec, (zsum_insert _ _ _ _ _ L). lia.
  - congruence.
  - rewrite Ec, Es. apply Forall_insert; [done|]. pose proof (Forall_lookup_1 _ _ _ _ C L) as Cp. destruct Hn as [-> | ->]; done.
  - intros j k a b m Lj Lk Na Nb. rewrite Ec in Lj, Lk.
    assert (U : forall j a, <[i := ph']> (calls s) !! j = Some a -> number a = Some m -> exists a', calls s !! j = Some a' /\ number a' = Some m).
    { intros j0 a0 L0 N0. destruct (decide (i = j0)) as [<- |Ne]; [|rewrite list_lookup_insert_ne in L0 by done; eauto].
      rewrite list_lookup_insert_eq in L0 by (by eapply lookup_lt_Some). injection L0 as <-. exists ph. split; [done|]. destruct Hn as [Hn|Hn]; congruence. }
    destruct (U _ _ Lj Na) as (a' & La & Ma). destruct (U _ _ Lk Nb) as (b' & Lb & Mb). by eapply D.
Qed.
(** Other calls that hold are those that held. *)
Lemma holds_before s i ph' j m sid :
  (forall m' sid', ph' <> PHold m' sid') -> <[i := ph']> (calls s) !! j = Some (PHold m sid) -> calls s !! j = Some (PHold m sid).
Proof.
  intros N H. destruct (decide (i = j)) as [<- |Ne]; [|by rewrite list_lookup_insert_ne in H].
  destruct (decide (i < length (calls s))%nat) as [Lt|Ge]; [rewrite list_lookup_insert_eq in H by done; by injection H as ->; destruct (N m sid)|].
  by rewrite list_insert_ge in H by lia.
Qed.
Lemma one_has_sem s i j a b : slot_ok s -> calls s !! i = Some a -> calls s !! j = Some b -> has_sem a = 1 -> has_sem b = 1 -> i = j.
Proof.
  intros [A _ _ _ _] La Lb Ha Hb. destruct (decide (i = j)) as [?|N]; [done|exfalso].
  assert (Nn : forall y, 0 <= has_sem y) by (by intros []).
  pose proof (zsum_insert has_sem (calls s) i a PReleased La) as Z1.
  assert (Lb' : <[i := PReleased]> (calls s) !! j = Some b) by (by rewrite list_lookup_insert_ne).
  pose proof (zsum_lookup has_sem _ j b Nn Lb'). cbn in Z1. destruct (sem s); lia.
Qed.
Ltac slot_put_by K ph' := apply (K ph'); cbn; repeat match goal with H : sem _ = _ |- _ => rewrite H end; first [done | by left | by right | lia | auto].
Lemma slot_ok_step s e : slot_ok s -> slot_ok (slot_step s e).
Proof.
  intros O. pose proof O as [A B C D E]. destruct e as [sid|i c|i]; cbn.
  - split; cbn; try done.
    + rewrite zsum_app, zsum_cons, zsum_nil. cbn. lia.
    + apply Forall_app. split; [|repeat constructor; cbn; lia]. eapply Forall_impl; [exact C|]. intros ph. cbn. destruct (number ph); [lia|done].
    + assert (F : forall j a m, calls s !! j = Some a -> number a = Some m -> (m <= seq_ s)%nat).
      { intros j a m L N. pose proof (Forall_lookup_1 _ _ _ _ C L) as X. cbn in X. by rewrite N in X. }
      intros j k a b m Lj Lk Na Nb. apply lookup_app_Some in Lj as [Lj|[Gj Lj]], Lk as [Lk|[Gk Lk]].
      * by eapply D.
      * apply list_lookup_singleton_Some in Lk as [_ <-]. injection Nb as <-. pose proof (F _ _ _ Lj Na). lia.
      * apply list_lookup_singleton_Some in Lj as [_ <-]. injection Na as <-. pose proof (F _ _ _ Lk Nb). lia.
      * apply list_lookup_singleton_Some in Lj as [? _], Lk as [? _]. lia.
    + intros j m sid' H. apply lookup_app_Some in H as [H|[_ H]]; [by eapply E|]. by apply list_lookup_singleton_Some in H as [_ ?].
  - destruct (calls s !! i) as [ph|] eqn:L; [|done].
    assert (K : forall ph' s', (forall m sid, ph' <> PHold m sid) -> calls s' = <[i := ph']> (calls s) -> newest s' = newest s -> seq_ s' = seq_ s -> holder s' = holder s ->
      (number ph' = None \/ number ph' = number ph) -> has_sem ph' - has_sem ph = (if sem s' then 1 else 0) - (if sem s then 1 else 0) -> slot_ok s').
    { intros ph' s' N H1 H2 H3 H4 H5 H6. eapply slot_put; try done. intros j m sid H. rewrite H1 in H. rewrite H4. apply holds_before in H; [|done]. by eapply E. }
    destruct ph as [me sid pre|me sid pre|me sid pre|me sid pre|me sid| |me sid|sid| | |me|]; try done.
    + destruct (isNewest s me); [slot_put_by K (PTry me sid pre)|slot_put_by K PSuperseded].
    + destruct (sem s) eqn:S; [slot_put_by K (PLook me sid pre)|slot_put_by K (PSent me sid)].
    + destruct (_ && _); [slot_put_by K (PSelect me sid (holder s))|slot_put_by K (PSelect me sid pre)].
    + destruct c; [destruct (sem s) eqn:S; [done|slot_put_by K (PSent me sid)]|slot_put_by K PCtxErr|slot_put_by K (PNoSlot me)|slot_put_by K (PLoop me sid pre)].
    + unfold take_slot. destruct (isNewest s me); [|slot_put_by K PGiveBack].
      eapply (slot_put s _ i (PSent me sid) (PHold me sid)); try done; cbn; auto; [lia|]. intros j m sid' H.
      destruct (decide (i = j)) as [<- |Ne]; [rewrite list_lookup_insert_eq in H by (by eapply lookup_lt_Some); by injection H|].
      rewrite list_lookup_insert_ne in H by done. destruct Ne. by eapply one_has_sem.
    + assert (S : sem s = true).
      { destruct (sem s) eqn:S; [done|]. pose proof (zsum_lookup has_sem _ i _ ltac:(by intros []) L) as Z. cbn in Z. lia. }
      slot_put_by K PSuperseded.
    + assert (S : sem s = true).
      { destruct (sem s) eqn:S; [done|]. pose proof (zsum_lookup has_sem _ i _ ltac:(by intros []) L) as Z. cbn in Z. lia. }
      slot_put_by K PReleased.
  - destruct (calls s !! i) as [ph|] eqn:L; [|done]. destruct ph as [| | | | | |me sid| | | | |]; try done.
    eapply (slot_put s _ i (PHold me sid) (PRelease sid)); try done; [by destruct (bytes_eqb _ _)..|by left|by destruct (bytes_eqb _ _); cbn; lia|].
    intros j m sid' H. assert (H' : <[i := PRelease sid]> (calls s) !! j = Some (PHold m sid')) by (by destruct (bytes_eqb _ _)).
    destruct (decide (i = j)) as [<- |Ne]; [rewrite list_lookup_insert_eq in H' by (by eapply lookup_lt_Some); done|].
    rewrite list_lookup_insert_ne in H' by done. destruct Ne. by eapply one_has_sem.
Qed.
Lemma slot_ok_run evs : forall s, slot_ok s -> slot_ok (slot_run s evs).
Proof. induction evs as [|e evs IH]; intros s O; [done|]. cbn. by apply IH, slot_ok_step. Qed.
Lemma slot_ok_new : slot_ok newSlot.
Proof. split; cbn; try done. Qed.

(** * Properties *)

Lemma registered_has (tok : nat) (c : gmap bytes nat) (id : bytes) : c !! id = Some tok -> 1 <= registered tok c.
Proof.
  intros L. rewrite (registered_delete tok c id tok L). unfold eq_tok. rewrite Nat.eqb_refl.
  enough (0 <= registered tok (delete id c)) by lia. apply zsum_nonneg. intros [? t]. cbn. unfold eq_tok. destruct (_ =? _)%nat; lia.
Qed.
Lemma registered_in (tok : nat) (c : gmap bytes nat) : 1 <= registered tok c -> exists id, c !! id = Some tok.
Proof.
  unfold registered. intros H. assert (G : exists kv, kv ∈ map_to_list c /\ snd kv = tok).
  { induction (map_to_list c) as [|[id v] l IH]; [rewrite zsum_nil in H; lia|]. rewrite zsum_cons in H. cbn in H. unfold eq_tok at 1 in H.
    destruct (Nat.eqb_spec v tok) as [<- |N]; [exists (id, v); by split; [left|]|].
    destruct IH as (kv & ? & ?); [lia|]. exists kv. by split; [right|]. }
  destruct G as ([id v] & I & <-). exists id. by apply elem_of_map_to_list.
Qed.
Lemma mark_max r id : rcMax (fst (mark r id)) = rcMax r.
Proof. unfold mark. case_bool_decide; [done|]. destruct (_ <=? _)%nat; [destruct (rcOrder _)|]; done. Qed.
Lemma pstep_max p e : rcMax (closed (pstep p e)) = rcMax (closed p).
Proof.
  destruct e as [ids|id h|id|i o]; [done..|]. cbn. destruct (gos p !! i) as [[|x rest]|]; [done| |done].
  destruct (kexec p x o) as [[p' pre] new] eqn:X. revert X. destruct x; cbn; unfold unregisterIfClosedByWeb; intros X; repeat (case_match; try done); simplify_eq; try done.
  apply mark_max.
Qed.
Lemma prun_max evs p : rcMax (closed (prun p evs)) = rcMax (closed p).
Proof. revert p. induction evs as [|e evs IH]; intros p; [done|]. change (prun p (e :: evs)) with (prun (pstep p e) evs). by rewrite IH, pstep_max. Qed.
Lemma eq_tok_in (tok : nat) l : tok ∈ l <-> 1 <= zsum (eq_tok tok) l.
Proof.
  induction l as [|t l IH]; [rewrite zsum_nil; split; [by intros ?%elem_of_nil|lia]|]. rewrite zsum_cons, elem_of_cons, IH. unfold eq_tok at 2.
  assert (0 <= zsum (eq_tok tok) l) by (apply zsum_nonneg; intros y; unfold eq_tok; destruct (_ =? _)%nat; lia).
  destruct (Nat.eqb_spec t tok) as [-> |N]; split; [lia|by left|intros [-> |?]; [done|lia]|intros ?; right; lia].
Qed.
Lemma done_owe_nothing (p : player) tok : Forall (fun t => t = []) (gos p) -> zsum (zsum (tok_i tok)) (gos p) = 0.
Proof. induction 1 as [|t l -> _ IH]; [apply zsum_nil|]. rewrite zsum_cons, zsum_nil. lia. Qed.
(** The web closes a session between its start's last check and its registration. *)
Definition demo_late_close : list pevent := [Starts (str "s1") Served; PGo 0 Direct; WebCloses [str "s1"]; PGo 1 Direct; PGo 1 Direct; PGo 0 Direct; PGo 0 Direct; PGo 0 Direct; PGo 0 Direct].
(** An HLS session that the web closes behind its last check, and closes again. *)
Definition demo_hls_close : list pevent :=
  [Starts (str "h") AsHLS; PGo 0 Direct; PGo 0 Direct; PGo 0 Direct; PGo 1 Direct; PGo 1 Direct; PGo 1 Direct; WebCloses [str "h"]; PGo 2 Direct; PGo 2 Direct;
   PGo 1 Direct; PGo 1 Direct; PGo 1 Direct; PGo 1 Direct; PGo 3 Direct; PGo 3 Direct].

Definition overtaken (s : slot) (j : nat) : Prop :=
  exists ph, calls s !! j = Some ph /\ (forall m sid, ph <> PHold m sid) /\ match number ph with Some m => (m < newest s)%nat | None => True end.
Lemma overtaken_put s s' i ph ph' j :
  calls s !! i = Some ph -> calls s' = <[i := ph']> (calls s) -> newest s' = newest s -> overtaken s j ->
  (i = j -> (forall m sid, ph' <> PHold m sid) /\ (number ph' = None \/ number ph' = number ph)) -> overtaken s' j.
Proof.
  intros L E N (q & Lq & Nq & Mq) H. destruct (decide (i = j)) as [<- |Ne].
  - rewrite L in Lq. injection Lq as <-. destruct (H eq_refl) as [H1 H2]. exists ph'. split_and!; [|done|].
    + rewrite E. apply list_lookup_insert_eq. by eapply lookup_lt_Some.
    + rewrite N. destruct H2 as [-> | ->]; done.
  - exists q. rewrite E, N. by rewrite list_lookup_insert_ne.
Qed.
Lemma overtaken_step s e j : slot_ok s -> overtaken s j -> overtaken (slot_step s e) j.
Proof.
  intros K O. destruct e as [sid|i c|i]; cbn.
  - destruct O as (ph & L & N & M). exists ph. cbn. split_and!; [|done|].
    + rewrite lookup_app_l; [done|by eapply lookup_lt_Some].
    + destruct (number ph) eqn:E; [|done]. rewrite (so_newest _ K) in M. lia.
  - destruct (calls s !! i) as [ph|] eqn:L; [|done].
    destruct ph as [me sid pre|me sid pre|me sid pre|me sid pre|me sid| |me sid|sid| | |me|]; try done.
    + destruct (isNewest s me); eapply overtaken_put; try done; cbn; auto.
    + destruct (sem s); eapply overtaken_put; try done; cbn; auto.
    + destruct (_ && _); eapply overtaken_put; try done; cbn; auto.
    + destruct c; [destruct (sem s); [done|]| | |]; eapply overtaken_put; try done; cbn; auto.
    + unfold take_slot, isNewest. destruct (Nat.eqb_spec (newest s) me) as [En|_]; eapply overtaken_put; try done; cbn; auto.
      intros <-. exfalso. destruct O as (q & Lq & _ & Mq). rewrite L in Lq. injection Lq as <-. cbn in Mq. lia.
    + eapply overtaken_put; try done; cbn; auto.
    + eapply overtaken_put; try done; cbn; auto.
  - destruct (calls s !! i) as [ph|] eqn:L; [|done]. destruct ph as [| | | | | |me sid| | | | |]; try done.
    destruct (bytes_eqb _ _); eapply overtaken_put; try done; cbn; auto.
Qed.
Lemma overtaken_run evs : forall s j, slot_ok s -> overtaken s j -> overtaken (slot_run s evs) j.
Proof.
  induction evs as [|e evs IH]; intros s j K O; [done|]. change (slot_run s (e :: evs)) with (slot_run (slot_step s e) evs).
  apply IH; [by apply slot_ok_step|by apply overtaken_step].
Qed.
Lemma slot_free s : slot_ok s -> Forall (fun ph => has_sem ph = 0) (calls s) -> sem s = false.
Proof.
  intros K F. pose proof (so_sem _ K) as Z. destruct (sem s); [exfalso|done].
  enough (zsum has_sem (calls s) = 0) by lia. clear -F. induction F as [|x l Hx _ IH]; [apply zsum_nil|rewrite zsum_cons; lia].
Qed.
(** Whatever calls arrive and however they interleave, at most one of them holds the
    provider slot, and it is the one named as holder; the slot is free when no call has
    it or is on its way to give it back; and a call that is overtaken by a newer one
    before it holds the slot never holds it. *)
Lemma one_provider_reader evs :
  let s := slot_run newSlot evs in
  (forall i j m m' sid sid', calls s !! i = Some (PHold m sid) -> calls s !! j = Some (PHold m' sid') -> i = j /\ holder s = sid)
  /\ (Forall (fun ph => has_sem ph = 0) (calls s) -> sem s = false)
  /\ (forall j ph m evs' m' sid,
         calls s !! j = Some ph -> number ph = Some m -> (forall k x, ph <> PHold k x) -> m <> newest s ->
         calls (slot_run s evs') !! j <> Some (PHold m' sid)).
Proof.
  intros s. assert (K : slot_ok s) by apply slot_ok_run, slot_ok_new. split_and!.
  - intros i j m m' sid sid' Hi Hj. split; [by eapply one_has_sem|by eapply so_holder].
  - by apply slot_free.
  - intros j ph m evs' m' sid L N Nh Ne H. destruct (overtaken_run evs' s j K) as (q & Lq & Nq & _); [|congruence].
    exists ph. split_and!; [done|done|]. rewrite N. pose proof (Forall_lookup_1 _ _ _ _ (so_numbers _ K) L) as B. cbn in B. rewrite N in B.
    rewrite (so_newest _ K) in *. lia.
Qed.

(** An overtaken call whose wait runs out in the same round opens the provider all the
    same, beside the newer one. *)
Lemma overtaken_opens_anyway :
  let s := slot_run newSlot
    [Acquire (str "a"); Proceed 0 CTick; Proceed 0 CTick; Proceed 0 CTick;
     Acquire (str "b"); Proceed 1 CTick; Proceed 1 CTick; Proceed 1 CTick;
     Acquire (str "c"); Proceed 1 CTimeout] in
  calls s = [PHold 1 (str "a"); PNoSlot 2; PLoop 3 (str "c") []] /\ isNewest s 2 = false.
Proof. by vm_compute. Qed.
