(* ===== verification/SlotQueue.v ===== *)
(** The download slots of the engine's manager: internal/engine/manager_queue.go,
    and Submit, FreeSlots and the admission of tasks in internal/engine/manager.go.

    Many goroutines share the manager, so its behaviour is a sequence of
    events, one per critical section: what a function does under [queueMu],
    [activeMu] or a lease's mutex is one event, and any other event may fall
    between two of them.  [reclaim] holds the lease's mutex across its update
    of [running], so it is one event.  An event whose guard fails (no such
    lease, nothing to do) leaves the state alone.  The wait group, logging, the
    task store and the progress reporter are not part of the state. *)
From Stdlib Require Import ZArith Lia.
From stdpp Require Import prelude list gmap.
From S2P Require Import Prelude.

Open Scope Z_scope.

(** A submitted task: its ID, and the context it was submitted with. *)
Record queuedTask := mkQ { taskID : bytes; ctx : N; forceStart : bool }.
#[global] Instance queuedTask_eq_dec : EqDecision queuedTask.
Proof. solve_decision. Defined.

(** Where the goroutine of runSlot is: inside processTask, past it (the task is
    no longer active), between the two halves of release, or handed on. *)
Inductive phase := Processing | Returned | Releasing (was : bool) | Gone.
#[global] Instance phase_eq_dec : EqDecision phase.
Proof. solve_decision. Defined.

(** A started task's lease; [owed] counts the calls of yield that cleared
    [held] and have not decremented [running] yet. *)
Record slotLease := mkLease { owner : queuedTask; held : bool; owed : nat; at_ : phase }.

(** [due] counts the calls of dispatch that enqueue, yield and runSlot have
    still to make; [admitted] and [registered] are the calls of Submit past the
    shutdown and cooldown checks, and past the duplicate check; [forced] the
    force-started tasks; [forgetting] the IDs that left the line and are still
    to be forgotten.  [arrivals] records the line's arrivals in order. *)
Record Manager := mkManager {
  running : Z; queue : list queuedTask; leases : list slotLease;
  active : gset bytes; shuttingDown : bool; ended : gset N;
  due : nat; admitted : list queuedTask; registered : list queuedTask;
  forced : list queuedTask; forgetting : list bytes; arrivals : list queuedTask
}.

Definition NewManager : Manager := mkManager 0 [] [] ∅ false ∅ 0 [] [] [] [] [].
(** The default NewManager applies to cfg.MaxConcurrent. *)
Definition effective_max (cfgMax : Z) : Z := if cfgMax <=? 0 then 3 else cfgMax.

Definition FreeSlots (MaxConcurrent : Z) (m : Manager) : Z :=
  Z.max 0 (MaxConcurrent - running m - Z.of_nat (length (queue m))).
Definition HasCapacity (MaxConcurrent : Z) (m : Manager) : bool := 0 <? FreeSlots MaxConcurrent m.

(** * dispatch *)

(** runSlot starts with the slot dispatch counted for it. *)
Definition runSlot (t : queuedTask) : slotLease := mkLease t true 0 Processing.

(** One round of dispatch's loop: the oldest task is started, or dropped
    because its context ended; or the loop, and this call of dispatch, ends.
    [shuttingDown] and the contexts change without queueMu, so they are read
    afresh every round. *)
Definition dispatch_round (MaxConcurrent : Z) (m : Manager) : Manager :=
  match queue m with
  | t :: q =>
      if (running m <? MaxConcurrent) && negb (shuttingDown m) then
        if bool_decide (ctx t ∈ ended m) then
          mkManager (running m) q (leases m) (active m) (shuttingDown m) (ended m) (due m) (admitted m)
            (registered m) (forced m) (forgetting m ++ [taskID t]) (arrivals m)
        else
          mkManager (running m + 1) q (leases m ++ [runSlot t]) (active m) (shuttingDown m) (ended m) (due m)
            (admitted m) (registered m) (forced m) (forgetting m) (arrivals m)
      else
        mkManager (running m) (queue m) (leases m) (active m) (shuttingDown m) (ended m) (pred (due m)) (admitted m)
          (registered m) (forced m) (forgetting m) (arrivals m)
  | [] =>
      mkManager (running m) (queue m) (leases m) (active m) (shuttingDown m) (ended m) (pred (due m)) (admitted m)
        (registered m) (forced m) (forgetting m) (arrivals m)
  end.
(** A whole call of dispatch with nothing in between: rounds until [due] drops. *)
Fixpoint dispatch_loop (fuel : nat) (MaxConcurrent : Z) (m : Manager) : option Manager :=
  match fuel with
  | O => None
  | S fuel' =>
      let m' := dispatch_round MaxConcurrent m in
      if (due m' =? due m)%nat then dispatch_loop fuel' MaxConcurrent m' else Some m'
  end.
Definition dispatch (MaxConcurrent : Z) (m : Manager) : option Manager :=
  dispatch_loop (S (length (queue m))) MaxConcurrent m.

(** enqueue, up to its call of dispatch. *)
Definition enqueue (m : Manager) (t : queuedTask) : Manager :=
  mkManager (running m) (queue m ++ [t]) (leases m) (active m) (shuttingDown m) (ended m) (S (due m))
    (admitted m) (registered m) (forced m) (forgetting m) (arrivals m ++ [t]).

(** * Leases *)

Definition set_lease (m : Manager) (i : nat) (l : slotLease) (run : Z) (n : nat) : Manager :=
  mkManager run (queue m) (<[i := l]> (leases m)) (active m) (shuttingDown m) (ended m) n
    (admitted m) (registered m) (forced m) (forgetting m) (arrivals m).

(** yield's first critical section (the lease's mutex) ... *)
Definition yield_take (m : Manager) (i : nat) : Manager :=
  match leases m !! i with
  | Some l =>
      if bool_decide (at_ l = Processing) && held l
      then set_lease m i (mkLease (owner l) false (S (owed l)) (at_ l)) (running m) (due m) else m
  | None => m
  end.
(** ... and its second (queueMu), which leaves a dispatch to be made. *)
Definition yield_give (m : Manager) (i : nat) : Manager :=
  match leases m !! i with
  | Some l =>
      match owed l with
      | S k => set_lease m i (mkLease (owner l) (held l) k (at_ l)) (running m - 1) (S (due m))
      | O => m
      end
  | None => m
  end.

Definition reclaim (m : Manager) (i : nat) : Manager :=
  match leases m !! i with
  | Some l =>
      if bool_decide (at_ l = Processing) && negb (held l)
      then set_lease m i (mkLease (owner l) true (owed l) (at_ l)) (running m + 1) (due m) else m
  | None => m
  end.

(** release's two halves, and the dispatch runSlot makes after it. *)
Definition release_take (m : Manager) (i : nat) : Manager :=
  match leases m !! i with
  | Some l =>
      if bool_decide (at_ l = Returned)
      then set_lease m i (mkLease (owner l) false (owed l) (Releasing (held l))) (running m) (due m) else m
  | None => m
  end.
Definition release_give (m : Manager) (i : nat) : Manager :=
  match leases m !! i with
  | Some l =>
      match at_ l with
      | Releasing was =>
          set_lease m i (mkLease (owner l) (held l) (owed l) Gone)
            (if was then running m - 1 else running m) (S (due m))
      | _ => m
      end
  | None => m
  end.

(** * Admission and the active set *)

Definition remove_at {A} (i : nat) (l : list A) : list A := take i l ++ drop (S i) l.

(** Submit: the checks of shutdown and of the storage cooldown. *)
Definition submit_check (m : Manager) (t : queuedTask) (inStorageCooldown : bool) : Manager :=
  if shuttingDown m then m
  else if negb (forceStart t) && inStorageCooldown then m
  else mkManager (running m) (queue m) (leases m) (active m) (shuttingDown m) (ended m) (due m)
         (admitted m ++ [t]) (registered m) (forced m) (forgetting m) (arrivals m).
(** Submit: the duplicate check and the registration, under activeMu. *)
Definition submit_register (m : Manager) (i : nat) : Manager :=
  match admitted m !! i with
  | Some t =>
      if bool_decide (taskID t ∈ active m) then
        mkManager (running m) (queue m) (leases m) (active m) (shuttingDown m) ({[ctx t]} ∪ ended m) (due m)
          (remove_at i (admitted m)) (registered m) (forced m) (forgetting m) (arrivals m)
      else
        mkManager (running m) (queue m) (leases m) ({[taskID t]} ∪ active m) (shuttingDown m) (ended m) (due m)
          (remove_at i (admitted m)) (registered m ++ [t]) (forced m) (forgetting m) (arrivals m)
  | None => m
  end.
(** Submit: the start of a forced task, or its place in the line. *)
Definition submit_start (m : Manager) (i : nat) : Manager :=
  match registered m !! i with
  | Some t =>
      let m' := mkManager (running m) (queue m) (leases m) (active m) (shuttingDown m) (ended m) (due m)
                  (admitted m) (remove_at i (registered m)) (forced m) (forgetting m) (arrivals m) in
      if forceStart t then
        mkManager (running m') (queue m') (leases m') (active m') (shuttingDown m') (ended m') (due m')
          (admitted m') (registered m') (forced m' ++ [t]) (forgetting m') (arrivals m')
      else enqueue m' t
  | None => m
  end.

(** The deferred end of processTask, for a task with a lease and a forced one. *)
Definition process_return (m : Manager) (i : nat) : Manager :=
  match leases m !! i with
  | Some l =>
      if bool_decide (at_ l = Processing) then
        let m' := set_lease m i (mkLease (owner l) (held l) (owed l) Returned) (running m) (due m) in
        mkManager (running m') (queue m') (leases m') (active m' ∖ {[taskID (owner l)]}) (shuttingDown m')
          ({[ctx (owner l)]} ∪ ended m') (due m') (admitted m') (registered m') (forced m') (forgetting m') (arrivals m')
      else m
  | None => m
  end.
Definition forced_return (m : Manager) (i : nat) : Manager :=
  match forced m !! i with
  | Some t =>
      mkManager (running m) (queue m) (leases m) (active m ∖ {[taskID t]}) (shuttingDown m) ({[ctx t]} ∪ ended m) (due m)
        (admitted m) (registered m) (remove_at i (forced m)) (forgetting m) (arrivals m)
  | None => m
  end.

(** dequeue: the task leaves the line under queueMu ... *)
Fixpoint find_task (id : bytes) (q : list queuedTask) : option nat :=
  match q with
  | [] => None
  | t :: q' => if bool_decide (taskID t = id) then Some O else option_map S (find_task id q')
  end.
Definition dequeue (m : Manager) (id : bytes) : bool * Manager :=
  match find_task id (queue m) with
  | Some i =>
      (true, mkManager (running m) (remove_at i (queue m)) (leases m) (active m) (shuttingDown m) (ended m) (due m)
               (admitted m) (registered m) (forced m) (forgetting m ++ [id]) (arrivals m))
  | None => (false, m)
  end.
(** ... and is forgotten under activeMu. *)
Definition forgetActive (m : Manager) (i : nat) : Manager :=
  match forgetting m !! i with
  | Some id =>
      mkManager (running m) (queue m) (leases m) (active m ∖ {[id]}) (shuttingDown m) (ended m) (due m)
        (admitted m) (registered m) (forced m) (remove_at i (forgetting m)) (arrivals m)
  | None => m
  end.
(** drainQueue, up to the forgetting. *)
Definition drainQueue (m : Manager) : Manager :=
  mkManager (running m) [] (leases m) (active m) (shuttingDown m) (list_to_set (map ctx (queue m)) ∪ ended m) (due m)
    (admitted m) (registered m) (forced m) (forgetting m ++ map taskID (queue m)) (arrivals m).

Definition end_context (m : Manager) (c : N) : Manager :=
  mkManager (running m) (queue m) (leases m) (active m) (shuttingDown m) ({[c]} ∪ ended m) (due m)
    (admitted m) (registered m) (forced m) (forgetting m) (arrivals m).
Definition begin_shutdown (m : Manager) : Manager :=
  mkManager (running m) (queue m) (leases m) (active m) true (ended m) (due m)
    (admitted m) (registered m) (forced m) (forgetting m) (arrivals m).

(** * Events *)

Inductive event :=
| SubmitCheck (t : queuedTask) (cooldown : bool) | SubmitRegister (i : nat) | SubmitStart (i : nat)
| DispatchRound | YieldTake (i : nat) | YieldGive (i : nat) | Reclaim (i : nat)
| ProcessReturn (i : nat) | ForcedReturn (i : nat) | ReleaseTake (i : nat) | ReleaseGive (i : nat)
| Dequeue (id : bytes) | Forget (i : nat) | EndContext (c : N) | BeginShutdown | Drain.

(** Shutdown as far as its wait for the running downloads; the reset of the
    active set that follows the wait is the end of the manager's life. *)
Definition step (MaxConcurrent : Z) (m : Manager) (ev : event) : Manager :=
  match ev with
  | SubmitCheck t c => submit_check m t c
  | SubmitRegister i => submit_register m i
  | SubmitStart i => submit_start m i
  | DispatchRound => match due m with S _ => dispatch_round MaxConcurrent m | O => m end
  | YieldTake i => yield_take m i
  | YieldGive i => yield_give m i
  | Reclaim i => reclaim m i
  | ProcessReturn i => process_return m i
  | ForcedReturn i => forced_return m i
  | ReleaseTake i => release_take m i
  | ReleaseGive i => release_give m i
  | Dequeue id => snd (dequeue m id)
  | Forget i => forgetActive m i
  | EndContext c => end_context m c
  | BeginShutdown => begin_shutdown m
  | Drain => if shuttingDown m then drainQueue m else m
  end.
Definition run (MaxConcurrent : Z) (evs : list event) : Manager :=
  fold_left (step MaxConcurrent) evs NewManager.

(** * Lemmas *)

(** The slots a lease accounts for: the one it holds and those on their way back. *)
Definition slots (l : slotLease) : Z :=
  Z.b2z (held l) + Z.of_nat (owed l) + match at_ l with Releasing true => 1 | _ => 0 end.
Definition total (ls : list slotLease) : Z := foldr (fun l n => slots l + n) 0 ls.
Arguments total : simpl never.
Definition holders (m : Manager) : nat := length (filter (fun l => held l = true) (leases m)).
Definition is_reclaim (ev : event) : bool := match ev with Reclaim _ => true | _ => false end.
Definition reclaims (evs : list event) : nat := length (filter is_reclaim evs).

Lemma lease_total_app a b : total (a ++ b) = total a + total b.
Proof. unfold total. induction a as [|x a IH]; simpl; [done|]. rewrite IH. lia. Qed.

Lemma total_insert ls i l l' : ls !! i = Some l -> total (<[i := l']> ls) = total ls - slots l + slots l'.
Proof.
  intros H. pose proof (lookup_split_take _ _ _ H) as E. pose proof (lookup_lt_Some _ _ _ H) as Hl.
  rewrite E at 1 2. rewrite insert_app_mid by (rewrite length_take; lia).
  rewrite !lease_total_app. unfold total. simpl. lia.
Qed.

Lemma total_bound ls : Z.of_nat (length (filter (fun l => held l = true) ls)) <= total ls.
Proof.
  induction ls as [|l ls IH]; [done|]. rewrite filter_cons. change (total (l :: ls)) with (slots l + total ls).
  assert (0 <= slots l /\ (held l = true -> 1 <= slots l)) as [? ?].
  { unfold slots. destruct (held l), (at_ l) as [| |[]|]; simpl; lia. }
  case_decide; simpl; [specialize (H0 H1)|]; lia.
Qed.

(** Open every event: one case per guard that lets it change the state. *)
Ltac open_event ev :=
  destruct ev; cbn [step];
  unfold submit_check, submit_register, submit_start, yield_take, yield_give, reclaim, process_return,
    forced_return, release_take, release_give, dequeue, forgetActive, drainQueue, end_context,
    begin_shutdown, dispatch_round;
  repeat (case_match; try done); cbn in *; try done.

Section Invariants.
Variable MaxConcurrent : Z.

Lemma run_snoc evs ev : run MaxConcurrent (evs ++ [ev]) = step MaxConcurrent (run MaxConcurrent evs) ev.
Proof. unfold run. by rewrite fold_left_app. Qed.

Lemma run_ind (P : Manager -> Prop) evs :
  P NewManager -> (forall m ev, P m -> P (step MaxConcurrent m ev)) -> P (run MaxConcurrent evs).
Proof.
  intros H0 Hs. induction evs as [|ev evs IH] using rev_ind; [done|]. rewrite run_snoc. by apply Hs.
Qed.

Lemma step_accounting m ev :
  running m = total (leases m) ->
  running (step MaxConcurrent m ev) = total (leases (step MaxConcurrent m ev)).
Proof.
  intros H. open_event ev.
  all: try (rewrite lease_total_app; change (total [_]) with (1 + 0); lia).
  all: match goal with E : leases _ !! _ = Some ?l |- _ =>
         erewrite total_insert by exact E; destruct l as [? [] ? []]; cbn in *; unfold slots; cbn;
         bprop; simplify_eq; try lia end.
Qed.

Lemma step_capped m ev B :
  MaxConcurrent <= B -> running m <= B ->
  running (step MaxConcurrent m ev) <= B + Z.b2z (is_reclaim ev).
Proof. intros HB H. open_event ev; bprop; lia. Qed.

Lemma run_capped evs : 0 < MaxConcurrent -> running (run MaxConcurrent evs) <= MaxConcurrent + Z.of_nat (reclaims evs).
Proof.
  intros Hmax. unfold reclaims. induction evs as [|ev evs IH] using rev_ind; [cbn; lia|].
  rewrite run_snoc, filter_app, length_app.
  assert (MaxConcurrent <= MaxConcurrent + Z.of_nat (length (filter is_reclaim evs))) as Hb by lia.
  pose proof (step_capped _ ev _ Hb IH) as Hs.
  replace (Z.b2z (is_reclaim ev)) with (Z.of_nat (length (filter is_reclaim [ev]))) in Hs; [lia|].
  by destruct ev.
Qed.

(** Every reason for a waiting task: a dispatch is on its way, all slots are
    taken, or the manager is shutting down. *)
Definition conserving (m : Manager) : Prop :=
  (0 < due m)%nat \/ MaxConcurrent <= running m \/ queue m = [] \/ shuttingDown m = true.

Lemma step_conserving m ev : conserving m -> conserving (step MaxConcurrent m ev).
Proof.
  unfold conserving. intros H. open_event ev; bprop; try (left; lia).
  all: try (match goal with E : (_ && _)%bool = false |- _ => apply andb_false_iff in E as [?|?] end; bprop; auto).
  all: try (destruct (queue m) as [|? ?]; [done|]); naive_solver lia.
Qed.

(** The started tasks and the line behind them, oldest first. *)
Definition line (m : Manager) : list queuedTask := map owner (leases m) ++ queue m.

Lemma owners_insert (ls : list slotLease) i l l' :
  ls !! i = Some l -> owner l' = owner l -> map owner (<[i := l']> ls) = map owner ls.
Proof.
  intros H E. rewrite list_fmap_insert. apply list_insert_id. rewrite list_lookup_fmap, H. simpl. by rewrite E.
Qed.

Lemma remove_at_sublist {A} i (l : list A) : remove_at i l `sublist_of` l.
Proof.
  unfold remove_at. rewrite <- (take_drop i l) at 3. apply sublist_app; [done|].
  replace (S i) with (i + 1)%nat by lia. rewrite <- drop_drop. apply sublist_drop.
Qed.

Lemma step_fifo m ev :
  line m `sublist_of` arrivals m -> line (step MaxConcurrent m ev) `sublist_of` arrivals (step MaxConcurrent m ev).
Proof.
  unfold line. intros H. open_event ev.
  all: try (match goal with E : leases _ !! _ = Some ?l |- _ =>
         erewrite owners_insert by (exact E || done); done end).
  - rewrite app_assoc. by apply sublist_app.
  - etrans; [|exact H]. apply sublist_app; [done|]. by apply sublist_cons.
  - rewrite map_app, <- app_assoc. exact H.
  - etrans; [|exact H]. apply sublist_app; [done|]. apply remove_at_sublist.
  - etrans; [|exact H]. apply sublist_app; [done|]. apply sublist_nil_l.
Qed.

Lemma find_task_spec id q i : find_task id q = Some i -> exists t, q !! i = Some t /\ taskID t = id.
Proof.
  revert i. induction q as [|t q IH]; intros i; simpl; [done|].
  case_if; bprop; [intros [= <-]; by exists t|].
  destruct (find_task id q) as [j|]; [|done]. intros [= <-]. destruct (IH j eq_refl) as (t' & ? & ?). by exists t'.
Qed.

Lemma elem_of_remove_at {A} i (l : list A) x : x ∈ l -> x ∈ remove_at i l \/ l !! i = Some x.
Proof.
  unfold remove_at. intros H. destruct (l !! i) as [y|] eqn:E.
  - rewrite (lookup_split_take _ _ _ E) in H. set_solver.
  - left. rewrite take_ge by (by apply lookup_ge_None). set_solver.
Qed.

(** Where every arrival went. *)
Definition kept (m : Manager) (gone : list event) : Prop :=
  forall t, t ∈ arrivals m -> t ∈ line m \/ ctx t ∈ ended m \/ Dequeue (taskID t) ∈ gone.

Lemma kept_mono m gone ev : kept m gone -> kept m (gone ++ [ev]).
Proof. intros H t Ht. destruct (H t Ht) as [?|[?|?]]; set_solver. Qed.

Lemma step_kept m ev gone : kept m gone -> kept (step MaxConcurrent m ev) (gone ++ [ev]).
Proof.
  intros H0. pose proof (kept_mono _ _ ev H0) as H. clear H0. revert H. unfold kept, line.
  open_event ev; intros Hk t' Ht'.
  all: try (match goal with E : leases _ !! _ = Some ?l |- _ =>
         rewrite (owners_insert _ _ _ _ E) by done end).
  all: try (specialize (Hk t' Ht'); set_solver).
  - apply elem_of_app in Ht' as [Ht'|Ht']; [specialize (Hk t' Ht')|]; set_solver.
  - bprop. destruct (Hk t' Ht') as [Hl|?]; [|set_solver]. apply elem_of_app in Hl as [?|Hl]; [set_solver|].
    apply elem_of_cons in Hl as [->|?]; set_solver.
  - specialize (Hk t' Ht'). rewrite map_app. set_solver.
  - destruct (find_task_spec _ _ _ H) as (t & Hn & <-).
    destruct (Hk t' Ht') as [Hl|?]; [|by right]. rewrite elem_of_app in Hl |- *. destruct Hl as [?|Hl]; [by do 2 left|].
    destruct (elem_of_remove_at n _ _ Hl); [by left; right|]. simplify_eq. right; right.
    apply elem_of_app. right. by apply list_elem_of_singleton.
Qed.

(** * The active set has one owner per ID *)

(** Everything that answers for an active ID: a Submit about to start it, its
    place in the line, its download, or the call that is about to forget it. *)
Definition downloading (m : Manager) : list bytes :=
  map (fun l => taskID (owner l)) (filter (fun l => at_ l = Processing) (leases m)) ++ map taskID (forced m).
Definition owners (m : Manager) : list bytes :=
  map taskID (registered m) ++ map taskID (queue m) ++ downloading m ++ forgetting m.
Definition owned (m : Manager) : Prop := owners m ≡ₚ elements (active m).

Lemma owned_add m id l : id ∉ active m -> owned m -> l ≡ₚ id :: owners m -> l ≡ₚ elements ({[id]} ∪ active m).
Proof. unfold owned. intros Hn H ->. rewrite elements_union_singleton by done. by rewrite H. Qed.

Lemma owned_del m id l : owned m -> owners m ≡ₚ id :: l -> l ≡ₚ elements (active m ∖ {[id]}).
Proof.
  intros H E. unfold owned in H. rewrite E in H.
  assert (Hin : id ∈ active m) by (apply elem_of_elements; rewrite <- H; set_solver).
  rewrite (union_difference_singleton_L id (active m) Hin) in H.
  rewrite elements_union_singleton in H by set_solver. by apply Permutation_cons_inv in H.
Qed.

Lemma remove_at_perm {A} (l : list A) i x : l !! i = Some x -> l ≡ₚ x :: remove_at i l.
Proof.
  intros H. rewrite (lookup_split_take _ _ _ H) at 1. unfold remove_at. by rewrite <- Permutation_middle.
Qed.

Lemma processing_insert (ls : list slotLease) i l l' :
  ls !! i = Some l -> at_ l = Processing -> at_ l' <> Processing ->
  filter (fun l => at_ l = Processing) ls ≡ₚ l :: filter (fun l => at_ l = Processing) (<[i := l']> ls).
Proof.
  intros H E E'. pose proof (lookup_lt_Some _ _ _ H). rewrite (lookup_split_take _ _ _ H) at 1 2.
  rewrite insert_app_mid by (rewrite length_take; lia). rewrite !filter_app, !filter_cons.
  rewrite decide_True, decide_False by done. by rewrite <- Permutation_middle.
Qed.
Lemma processing_same (ls : list slotLease) i l l' :
  ls !! i = Some l -> owner l' = owner l -> (at_ l' = Processing <-> at_ l = Processing) ->
  map (fun l => taskID (owner l)) (filter (fun l => at_ l = Processing) (<[i := l']> ls)) =
  map (fun l => taskID (owner l)) (filter (fun l => at_ l = Processing) ls).
Proof.
  intros H Eo E. pose proof (lookup_lt_Some _ _ _ H). rewrite (lookup_split_take _ _ _ H) at 1 2.
  rewrite insert_app_mid by (rewrite length_take; lia). rewrite !filter_app, !filter_cons, !map_app. f_equal.
  destruct (decide (at_ l = Processing)).
  - rewrite decide_True by tauto. simpl. by rewrite Eo.
  - by rewrite decide_False by tauto.
Qed.

Definition bytes_dec (a b : bytes) : {a = b} + {a <> b} := decide (a = b).

(** Permutations of concatenations, by counting. *)
Ltac count_perm :=
  apply (Permutation_count_occ bytes_dec); intros ?x;
  repeat match goal with P : _ ≡ₚ _ |- _ =>
    rewrite (Permutation_count_occ bytes_dec) in P; specialize (P x) end;
  repeat (progress (rewrite ?map_app, ?count_occ_app in *; cbn [map count_occ] in * ));
  repeat match goal with |- context [bytes_dec ?a ?b] => destruct (bytes_dec a b) end; lia.

Lemma step_owned m ev : owned m -> owned (step MaxConcurrent m ev).
Proof.
  intros Ho. pose proof Ho as H. unfold owned, owners, downloading in H.
  open_event ev; try exact Ho; bprop; unfold owned, owners, downloading; cbn;
    try match goal with E : leases _ !! _ = Some ?l |- _ =>
      rewrite (processing_same _ _ _ _ E) by (done || (cbn; intuition congruence)); exact H end;
    try match goal with E : _ !! _ = Some ?q |- _ =>
      pose proof (remove_at_perm _ _ _ E) as Hp; try apply (Permutation_map taskID) in Hp end.
  1: apply owned_add; [done..|]; unfold owners, downloading; clear; count_perm.
  all: try (clear Ho; cbn in *; count_perm).
  - rewrite filter_app, map_app. change (map _ (filter _ [runSlot _])) with [taskID q]. clear - H. count_perm.
  - apply (owned_del m); [done|]. unfold owners, downloading.
    match goal with E : leases _ !! _ = Some ?l |- context [<[_ := ?l']> _] =>
      pose proof (processing_insert _ _ _ l' E ltac:(done) ltac:(done)) as Hq end.
    apply (Permutation_map (fun l => taskID (owner l))) in Hq. clear - Hq. count_perm.
  - apply (owned_del m); [done|]. unfold owners, downloading. clear - Hp. count_perm.
  - match goal with E : find_task _ _ = Some _ |- _ => destruct (find_task_spec _ _ _ E) as (t & Hn & <-) end.
    pose proof (Permutation_map taskID (remove_at_perm _ _ _ Hn)) as Hq. clear - H Hq. count_perm.
  - apply (owned_del m); [done|]. unfold owners, downloading. clear - Hp. count_perm.
Qed.

Lemma dispatch_ends fuel m :
  (0 < due m)%nat -> (length (queue m) < fuel)%nat ->
  exists m', dispatch_loop fuel MaxConcurrent m = Some m' /\ due m' = pred (due m) /\
    (queue m' = [] \/ MaxConcurrent <= running m' \/ shuttingDown m' = true).
Proof.
  revert m. induction fuel as [|fuel IH]; intros m Hd Hf; [lia|]. cbn [dispatch_loop].
  unfold dispatch_round. destruct (queue m) as [|t q] eqn:Eq; cbn [due].
  { rewrite (proj2 (Nat.eqb_neq _ _)) by lia. eexists. cbn. auto. }
  destruct ((running m <? MaxConcurrent) && negb (shuttingDown m)) eqn:E.
  - destruct (bool_decide _); cbn [due]; rewrite Nat.eqb_refl;
      match goal with |- context [dispatch_loop fuel _ ?m'] =>
        destruct (IH m') as (m2 & ? & ? & ?); [cbn in *; lia..|]; exists m2; auto end.
  - cbn [due]. rewrite (proj2 (Nat.eqb_neq _ _)) by lia. eexists. split; [done|]. cbn. split; [done|].
    apply andb_false_iff in E as [?|?]; bprop; auto.
Qed.
End Invariants.

(** * Claims *)

(** The download slots are counted exactly.  At every moment [running] is
    the number of slots the leases hold plus those on their way back, so a slot
    is never leaked or returned twice, however tasks yield, reclaim and end;
    and it exceeds MaxConcurrent by at most the number of reclaims. *)
Lemma slots_accounted cfgMax evs :
  let Max := effective_max cfgMax in
  let m := run Max evs in
  running m = total (leases m) /\
  Z.of_nat (holders m) <= running m /\
  running m <= Max + Z.of_nat (reclaims evs) /\
  (Forall (fun l => at_ l = Gone /\ owed l = O /\ held l = false) (leases m) -> running m = 0).
Proof.
  intros Max m. assert (Hmax : 0 < Max) by (unfold Max, effective_max; split_ifs).
  assert (E : running m = total (leases m)) by (apply run_ind; [done|]; intros; by apply step_accounting).
  split; [done|]. split; [rewrite E; apply total_bound|]. split; [by apply run_capped|].
  rewrite E. generalize (leases m). induction 1 as [|l ls (Ha & Ho & Hh) _ IH]; [done|].
  change (total (l :: ls)) with (slots l + total ls). rewrite IH. unfold slots. by rewrite Ha, Ho, Hh.
Qed.

(** No waiting task is forgotten by the slots.  Whenever no call of
    dispatch is outstanding, a task waits in the line only because all slots
    are taken or the manager is shutting down; and a call of dispatch, once
    made, comes to such a state after at most one round per waiting task and
    one more. *)
Lemma queue_never_stalls Max evs m :
  (due (run Max evs) = O ->
   queue (run Max evs) = [] \/ Max <= running (run Max evs) \/ shuttingDown (run Max evs) = true) /\
  ((0 < due m)%nat ->
   exists m', dispatch Max m = Some m' /\ due m' = pred (due m) /\
     (queue m' = [] \/ Max <= running m' \/ shuttingDown m' = true)).
Proof.
  split.
  - intros Hd. assert (H : conserving Max (run Max evs)).
    { apply run_ind; [right; right; by left|]. intros. by apply step_conserving. }
    destruct H as [?|[?|[?|?]]]; [lia|auto..].
  - intros Hd. unfold dispatch. apply dispatch_ends; [done|lia].
Qed.

(** The line is first come, first served.  The started tasks in the order
    they started, followed by those waiting, are a subsequence of the tasks in
    the order they joined the line, so none overtakes another or starts twice;
    and a task that joined has started or still waits, unless its context ended
    or a cancel, pause or delete took its ID out of the line. *)
Lemma queue_fifo Max evs :
  line (run Max evs) `sublist_of` arrivals (run Max evs) /\
  (forall t, t ∈ arrivals (run Max evs) ->
   t ∈ line (run Max evs) \/ ctx t ∈ ended (run Max evs) \/ Dequeue (taskID t) ∈ evs).
Proof.
  split.
  - apply (run_ind Max (fun m => line m `sublist_of` arrivals m)); [done|]. intros. by apply step_fifo.
  - induction evs as [|ev evs IH] using rev_ind; [intros t Ht; by apply elem_of_nil in Ht|].
    rewrite run_snoc. exact (step_kept Max _ ev evs IH).
Qed.

(** One download per task.  However submissions, starts, cancels and ends
    interleave, no task ID is being downloaded twice at the same time, in slots
    or forced, or downloaded while another submission of it waits; every such
    ID is in the active set, and an active ID always has someone who will
    remove it, so a later submission of it is not refused for ever. *)
Lemma one_owner_per_task Max evs :
  let m := run Max evs in
  NoDup (owners m) /\ (forall id, id ∈ active m <-> id ∈ owners m).
Proof.
  intros m. assert (H : owned m) by (apply run_ind; [unfold owned; cbn [NewManager active]; by rewrite elements_empty|]; intros; by apply step_owned). unfold owned in H.
  split; [rewrite H; apply NoDup_elements|]. intros id. rewrite H. by rewrite elem_of_elements.
Qed.

(** One slot and two tasks: the first stalls and yields, the second starts in
    its place, the first reclaims over the cap, both end. *)
Definition demo_a : queuedTask := mkQ [97] 1 false.
Definition demo_b : queuedTask := mkQ [98] 2 false.
Definition demo_start : list event :=
  [SubmitCheck demo_a false; SubmitCheck demo_b false; SubmitRegister 0; SubmitRegister 0; SubmitStart 0;
   DispatchRound; DispatchRound; SubmitStart 0; DispatchRound].
Definition demo_over : list event :=
  demo_start ++ [YieldTake 0; YieldGive 0; DispatchRound; DispatchRound; Reclaim 0].
Definition demo_end : list event :=
  demo_over ++ [ProcessReturn 0; ReleaseTake 0; ReleaseGive 0; ProcessReturn 1; ReleaseTake 1; ReleaseGive 1;
                DispatchRound; DispatchRound].

Lemma slots_accounted_witness :
  running (run 1 demo_over) = 2 /\ holders (run 1 demo_over) = 2%nat /\
  running (run 1 demo_over) <= 1 + Z.of_nat (reclaims demo_over) /\ running (run 1 demo_end) = 0.
Proof.
  split; [vm_compute; reflexivity|]. split; [vm_compute; reflexivity|]. split.
  - exact (proj1 (proj2 (proj2 (slots_accounted 1 demo_over)))).
  - apply (slots_accounted 1 demo_end). vm_compute. repeat constructor.
Defined.

Lemma queue_never_stalls_witness :
  due (run 1 demo_start) = O /\ queue (run 1 demo_start) = [demo_b] /\ 1 <= running (run 1 demo_start).
Proof.
  split; [vm_compute; reflexivity|]. split; [vm_compute; reflexivity|].
  destruct (proj1 (queue_never_stalls 1 demo_start NewManager) ltac:(vm_compute; reflexivity)) as [H|[H|H]];
    [vm_compute in H; discriminate H|exact H|vm_compute in H; discriminate H].
Defined.

Lemma queue_fifo_witness : map owner (leases (run 1 demo_end)) = [demo_a; demo_b] /\ demo_b ∈ line (run 1 demo_start).
Proof.
  split; [vm_compute; reflexivity|].
  destruct (proj2 (queue_fifo 1 demo_start) demo_b) as [H|[H|H]].
  - vm_compute. right. left.
  - exact H.
  - vm_compute in H. discriminate H.
  - repeat (apply elem_of_cons in H as [H|H]; [discriminate H|]). by apply elem_of_nil in H.
Defined.

(** A second submission of a running task is refused, and accepted once the
    first has ended. *)
Lemma one_owner_per_task_witness :
  owners (run 1 (demo_start ++ [SubmitCheck demo_a false; SubmitRegister 0])) = [[98]; [97]] /\
  registered (run 1 (demo_end ++ [SubmitCheck demo_a false; SubmitRegister 0])) = [demo_a] /\
  NoDup (owners (run 1 demo_end)).
Proof.
  split; [vm_compute; reflexivity|]. split; [vm_compute; reflexivity|]. apply (one_owner_per_task 1 demo_end).
Defined.
